(* ===== verification/_CoqProject ===== *)
-Q . S2P
Prelude.v
Shortvec.v
Keys.v
Message.v
PrivateKey.v
Sha256.v
Sha512.v
Sha3.v
Bip39.v
Ristretto.v
ToyGroup.v
ProgramIds.v
Pda.v
Mnemonic.v
ElGamal.v
ElGamalSpec.v
Sigma.v
SigmaSpec.v
Validity.v
ValiditySpec.v
RangeProof.v
InnerProductSpec.v
RangeProofSpec.v
Transaction.v
MnemonicSpec.v
Builder.v
BuilderSpec.v
TransactionV1.v
Base64.v
TextForms.v
RpcTypes.v
MessageJson.v
JsonText.v
TextFormsSpec.v
MessageJsonSpec.v
Wire.v
Program.v
System.v
Token.v
Stake.v
LookupTable.v
ComputeBudget.v
LoaderV2.v
LoaderV3.v
LoaderV4.v
Vote.v
Metadata.v
ZkProof.v
ZkProofSpec.v
ConfidentialState.v
ConfidentialIx.v
ConfidentialIxSpec.v
ConfidentialPlan.v
ConfidentialSpec.v
Token2022.v
Token2022Spec.v
Cache.v
CacheSpec.v
Geyser.v
Yellowstone.v
YellowstonePipe.v
YellowstoneSpec.v
Ws.v
WsSpec.v
Stream.v
StreamSpec.v
StreamResponse.v
Confirm.v
ConfirmSpec.v
