(* ===== verification/Prelude.v ===== *)
(** * solana-go, verified

    A model of the Solana client library in src/: a root package with keys,
    messages, transactions, mnemonics and address derivation, a [binary] package
    with the wire codecs, instruction packages under [programs/] (among them
    Token-2022 with its confidential transfers and their zero-knowledge proofs), a
    JSON-RPC client with an account cache and a streaming decoder ([rpc/]), a
    WebSocket subscription client ([ws/]), the confirmation of transactions over
    both ([confirm/]) and a Yellowstone gRPC stream that keeps the cache current
    ([yellowstone/]). The definitions translate the Go code function by function
    and keep its names; the theorems say what makes each part correct.

    ** How Go is modelled

    - Bytes are [Z] in [0, 256) and slices are lists; [int] and [uint64] values
      are [Z], with the conversions that truncate written out ([u8], [u16], [u32],
      [u64], [i64]). [int] is 64 bits wide. A [[32]byte] is a list, with [key_ok]
      or [array_ok] as what its Go type guarantees.
    - A call returns [outcome E A]: a value, an error or a run-time panic. A method
      that mutates its receiver, or draws from a random source, is a [GoM S E A]
      computation; the receiver's state survives an error. Indexing and slicing out
      of range panic ([idx], [slice]).
    - A nil slice and an empty one are the same list; slices that share storage are
      modelled only where the code depends on it (the in-place deduplication of the
      transaction builder, the buffer of the JSON scanner, the channels of the
      WebSocket client).
    - Goroutines are interleavings: each critical section is one step, and what other
      goroutines, the server, the clock and the scheduler do is an explicit sequence
      ([Ws.event], the scripts of [Confirm], the operations between request and
      response in [Cache], the schedule of the table builders in [ElGamal]).
    - Go's standard library is implemented where the code uses it (SHA-256, SHA-512,
      HMAC, PBKDF2, SHA-3, HKDF, base64, math/bits). Third-party code is a parameter, with
      its documented laws as classes: ed25519 ([PrivateKey.Ed25519]), the ristretto
      group, Merlin transcripts, SHAKE256, AES-GCM-SIV and the random source
      ([Ristretto]), base58, zstd and sonic's JSON decoding of the text forms
      ([TextForms.Base58Codec], [TextForms.ZstdCodec], [MessageJson.SonicJSON], their
      laws in [JsonText]), JSON decoding elsewhere ([Ws.Sonic],
      [Confirm.SonicSignature], the arguments of [Stream]), the JSON-RPC exchange
      ([Cache.Network]). [ToyGroup] is an instance of the cryptographic classes, and
      [JsonText] has one of each codec class, on which witnesses are evaluated.
    - Loops are structural recursions. Where a bound is needed it is the code's own
      or enough by a theorem: three rounds for a compact-u16 length and ten for a
      64-bit varint (the loops of the code), the content's length for the keypair
      scanner ([scanElements_fuel]), 255 bumps for the address search, 62 doublings
      for the shard count, [log2 n + 1] steps for the varint encoder, the data's
      length for the extension walker ([tlv_count]) and for the chunks of a record
      ([writeChunks_spec]), the remaining input for the JSON scanner
      ([stream_terminates]), twenty digits for a decimal [uint64] ([uintDigits]), the
      updates and a step more for the loops that drain a stream ([recvLoop]).

    ** Files

    The root package:
    - [Prelude]: outcomes, the monad, slices, little-endian integers, tactics.
    - [Shortvec] (shortvec.go), [Keys] (public_key.go, hash.go, signature.go,
      account_meta.go, instruction.go), [ProgramIds] (program_ids.go).
    - [Message] (message.go), [Transaction] (transaction.go), [TransactionV1]
      (transaction_v1.go): codecs, roles, signing.
    - [Builder], [BuilderSpec] (transaction_builder.go): compiling instructions into
      a message with address lookup tables.
    - [PrivateKey] (private_key.go, wallet.go): key pairs and the keygen file parser.
    - [Sha256], [Sha512], [Sha3]: hashes; [Pda] (pda.go): address derivation.
    - [Bip39], [Mnemonic], [MnemonicSpec] (mnemonic.go): phrases and derivation paths.
    - [Base64], [TextForms], [TextFormsSpec] (data.go, the text methods of
      public_key.go, hash.go, signature.go, private_key.go): base58, base64 and zstd
      forms, the hand-written JSON fast paths beside the general decoder.
    - [MessageJson], [MessageJsonSpec], [JsonText] (the text methods of message.go,
      transaction.go, transaction_v1.go): JSON documents, their writers and readers.

    Codecs and programs:
    - [Wire] (binary/encoder.go, binary/decoder.go): the encoder and the decoder with
      sticky errors; class [Codec] is the interface the instruction packages are
      proved against. [Program]: what they share; class [BodyCodec] is what a
      decoder's switch promises to the instruction codec around it.
    - [System], [Token], [Stake], [LookupTable], [ComputeBudget], [LoaderV2],
      [LoaderV3], [LoaderV4], [Vote], [Metadata]: one package under programs/ each.
    - [Token2022], [Token2022Spec] (programs/token-2022: token.go, extensions.go,
      base_extensions.go, decode.go, accounts.go): the extension instructions and
      the states with type-length-value extensions.

    Confidential transfers (programs/token-2022/confidential*.go, zk_elgamal*.go):
    - [Ristretto], [ToyGroup]: the interface and a model of it.
    - [ElGamal], [ElGamalSpec]: keys, encryption, the discrete-logarithm table.
    - [Sigma], [SigmaSpec], [Validity], [ValiditySpec]: the sigma proofs.
    - [RangeProof], [InnerProductSpec], [RangeProofSpec]: aggregated range proofs.
    - [ZkProof], [ZkProofSpec]: the proof program's instructions, contexts, records
      and the registry.
    - [ConfidentialState]: extension states, balances and fees; [ConfidentialIx],
      [ConfidentialIxSpec]: the instructions and their payload decoders;
      [ConfidentialPlan], [ConfidentialSpec]: generating the proofs and instructions
      of an operation together.

    Clients:
    - [Cache], [CacheSpec] (rpc/cache.go and the methods of rpc/client_methods.go that
      use it): the account and chain-head cache.
    - [Stream], [StreamSpec], [StreamResponse] (rpc/stream.go): the JSON scanner and
      the streaming decoder of program accounts.
    - [Ws], [WsSpec] (ws/client.go): subscriptions over one connection shared by
      goroutines.
    - [Confirm], [ConfirmSpec] (confirm/confirm.go): send and wait.
    - [RpcTypes] (the result types of rpc/): accounts, transaction metadata, rewards.
    - [Geyser], [Yellowstone], [YellowstonePipe], [YellowstoneSpec] (yellowstone/):
      the protocol's messages, their conversion to and from the library's types,
      subscription requests, and the pipes that write a stream into the cache.

    ** What the theorems show

    - Codecs (Shortvec, Message, Transaction, TransactionV1, Wire, every program):
      encoding then decoding is the identity, decoding arbitrary bytes never panics,
      and accepted bytes are the canonical encoding of the result; precomputed sizes
      are exact. Token-2022 instructions ([token2022_instruction_codec]), proof
      instructions ([zk_instruction_codec]), the payloads of confidential
      instructions ([confidential_builders_decode]) and extension states
      ([token2022_state]) likewise.
    - Text forms: a transaction and account data read back from what was written
      ([transaction_text_roundtrip], [data_json_roundtrip]; compressed data up to the
      64 MiB its decoder holds), and the fast paths
      answer as the general decoder does ([fast_paths_exact]).
    - Builder: [builder_resolves] is the refinement: each compiled index resolves,
      through static keys and lookup tables, to the account or program the source
      instruction named. Around it: totality and the exact error conditions, the
      role partition, and the in-place deduplication against a reference.
    - Signing: signatures land in the slots of their keys and a fully signed
      transaction verifies.
    - Addresses and phrases: the bump search against [CreateProgramAddress]; phrases
      against a reference encoder of BIP-39; derivation paths and keys.
    - Cache: the sharded cache refines one map ([cache_refines_map]); writes are
      slot-ordered under every interleaving ([cache_slot_order]); the cached methods
      return what the cache may serve or the network's answer.
    - Yellowstone: conversions of messages invert ([stream_conversion_exact]), and an
      account that a pipe's stream reported is answered from the cache with the newest
      write, whatever other goroutines wrote meanwhile ([pipe_mirrors_stream]).
    - Streaming: the scanner over a sequence of reads computes what a reference
      computes over the whole response, as long as no read that falls between a key
      and its colon overwrites the key in the buffer ([stream_matches_reference],
      [split_key_loses_accounts]); it ends on every sequence ([stream_terminates]).
    - WebSocket client: no interleaving closes a channel twice or sends on a closed
      one ([ws_channels_safe]), and notifications are delivered in order or counted
      as dropped ([ws_notifications_accounted]).
    - Confirmation: under every script the subscription is released, unless
      subscribing gave up after the acknowledgement had arrived
      ([confirm_releases]), the result is the one the observations give
      ([confirm_outcome]) and the wait ends ([confirm_wait_ends]).
    - Encryption: decryption inverts encryption, the table decodes exactly the 32-bit
      amounts under every schedule of its builders, operations are homomorphic.
    - Proofs: whatever a generator returns is well formed ([generated_well_formed]);
      a sigma proof is accepted exactly when no point that its verifier inspects is the
      identity, the caller's keys included, and a range proof when its commitments
      open to amounts in range and no challenge to be inverted is zero, and none under
      another discriminator ([range_proof_complete], [generated_verifies]); a staged
      proof is reassembled ([record_plan_reassembles]), and two answers to different
      challenges give the secret of a public-key proof away ([pubkey_validity_sound]).
    - Confidential operations: the fee is the rate rounded up under its cap
      ([transfer_fee_spec]); a planned transfer,
      burn or mint is sound ([confidential_amount_plans]): its proofs are accepted and
      are about one amount, the ciphertexts its recipients can decrypt and the balance
      that the ledger computes.

    Theorems that exhibit behaviour different from what the code documents or means:
    [builder_role_conflict], [subscribe_cancel_leaks],
    [failed_connection_leaves_recv_waiting], [split_key_loses_accounts],
    [scanValue_at_eof_shifted], [trailing_comma_by_chunks], [pending_balance_credits]
    (the low half of a balance may outgrow its decoder's check), and [get_multiple_accounts_spec],
    which includes the panic on an oversized response.

    ** Not modelled

    - The HTTP transport and the plain request methods of the RPC client: each
      marshals its parameters for one exchange and unmarshals the answer into a
      struct.
    - The WebSocket framing (gobwas/ws) and the subscription types over the client:
      parameter structs and JSON result types.
    - The Yellowstone unary calls, the opening of a stream and its credentials, which
      hand over to gRPC, and the generated protobuf code (yellowstone/proto) beyond
      the fields and getters in [Geyser].
    - Drawing a private key from the system's randomness (ed25519's own).
    - Zeroing of secrets and constant-time code have no counterpart in values; data
      races have none either: [Cache.lookupAt] reads an entry in one step, while the
      code reads its fields after the shard's lock is released, where a write to the
      same key may be changing them. A nil account meta among an instruction's
      accounts, on which the transaction builder would panic, and nil elements of the
      protocol's repeated messages cannot be written as values of the model. Soundness of the proof
      systems beyond special soundness is not stated: it is a property of the
      cryptographic assumptions, and the package's verifiers are checked against
      the generators instead.
    - Examples and benchmarks. *)
From Stdlib Require Import ZArith Lia.
From Stdlib Require Ascii String.
From stdpp Require Import base numbers gmap sorting list.

Open Scope Z_scope.

(** * Go values *)

(** Go's byte strings and byte slices; a [byte] is a [Z] in [0, 256). *)
Abbreviation bytes := (list Z).

Definition is_byte (b : Z) : Prop := 0 ≤ b < 256.

Abbreviation bytes_ok := (Forall is_byte).

#[global] Instance is_byte_dec b : Decision (is_byte b).
Proof. unfold is_byte. apply _. Defined.

(** [len(s)]. *)
Definition len {A} (l : list A) : Z := Z.of_nat (length l).

(** Conversions to unsigned machine integers keep the low bits. *)
Definition u8 (v : Z) : Z := v mod 256.
Definition u16 (v : Z) : Z := v mod 65536.
Definition u32 (v : Z) : Z := v mod 4294967296.
Definition u64 (v : Z) : Z := v mod 18446744073709551616.

(** Signed 64-bit arithmetic wraps around. *)
Definition i64 (v : Z) : Z := (v + 9223372036854775808) mod 18446744073709551616 - 9223372036854775808.

(** A Go string literal. *)
Definition str (s : String.string) : bytes :=
  (λ c, Z.of_nat (Ascii.nat_of_ascii c)) <$> String.list_ascii_of_string s.

(** [n] zero bytes: the zero value of [[n]byte]. *)
Definition zeros (n : nat) : bytes := replicate n 0.

(** * Outcomes and the Go monad *)

(** How a Go call ends: a value, an error value, or a run-time panic. *)
Inductive outcome (E A : Type) : Type :=
  | Ok (a : A)
  | Err (e : E)
  | Panic.
Arguments Ok {E A} a.
Arguments Err {E A} e.
Arguments Panic {E A}.

#[global] Instance outcome_ret E : MRet (outcome E) := λ A a, Ok a.
#[global] Instance outcome_bind E : MBind (outcome E) := λ A B f m,
  match m with Ok a => f a | Err e => Err e | Panic => Panic end.

(** [fmt.Errorf("...: %w", err)]: the error paths wrap the inner error. *)
Definition wrap_err {E F A} (f : E → F) (m : outcome E A) : outcome F A :=
  match m with Ok a => Ok a | Err e => Err (f e) | Panic => Panic end.

(** A method that mutates its receiver [S], may fail with [E], may panic.
    The receiver's state survives an error. *)
Definition GoM (S E A : Type) : Type := S → outcome E A * S.

#[global] Instance gom_ret S E : MRet (GoM S E) := λ A a s, (Ok a, s).
#[global] Instance gom_bind S E : MBind (GoM S E) := λ A B f m s,
  match m s with
  | (Ok a, s') => f a s'
  | (Err e, s') => (Err e, s')
  | (Panic, s') => (Panic, s')
  end.

Definition lift {S E A} (m : outcome E A) : GoM S E A := λ s, (m, s).
Definition get {S E} : GoM S E S := λ s, (Ok s, s).
Definition modify {S E} (f : S → S) : GoM S E unit := λ s, (Ok tt, f s).
Definition throw {S E A} (e : E) : GoM S E A := λ s, (Err e, s).

(** [wp m Q R s]: run from [s], [m] does not panic, its value and final
    state satisfy [Q], and its error and final state satisfy [R]. *)
Definition wp {S E A} (m : GoM S E A) (Q : A → S → Prop) (R : E → S → Prop) (s : S) : Prop :=
  match m s with
  | (Ok a, s') => Q a s'
  | (Err e, s') => R e s'
  | (Panic, _) => False
  end.

(** The same for calls without a receiver. *)
Definition owp {E A} (m : outcome E A) (Q : A → Prop) (R : E → Prop) : Prop :=
  match m with
  | Ok a => Q a
  | Err e => R e
  | Panic => False
  end.

Lemma wp_ret {S E A} (a : A) (Q : A → S → Prop) (R : E → S → Prop) s :
  Q a s → wp (mret a) Q R s.
Proof. done. Qed.

Lemma wp_bind {S E A B} (m : GoM S E A) (f : A → GoM S E B) Q R s :
  wp m (λ a s', wp (f a) Q R s') R s → wp (m ≫= f) Q R s.
Proof.
  unfold wp, mbind, gom_bind. destruct (m s) as [[a|e|] s']; done.
Qed.

Lemma wp_mono {S E A} (m : GoM S E A) (Q Q' : A → S → Prop) (R R' : E → S → Prop) s :
  wp m Q R s → (∀ a s', Q a s' → Q' a s') → (∀ e s', R e s' → R' e s') → wp m Q' R' s.
Proof. unfold wp. destruct (m s) as [[a|e|] s']; naive_solver. Qed.

Lemma wp_lift {S E A} (m : outcome E A) (Q : A → S → Prop) (R : E → S → Prop) s :
  owp m (λ a, Q a s) (λ e, R e s) → wp (lift m) Q R s.
Proof. unfold wp, lift, owp. by destruct m. Qed.

(** Running a bound computation one call at a time. *)
Lemma run_bind {S E A B} (m : GoM S E A) (f : A → GoM S E B) s a s' :
  m s = (Ok a, s') → (m ≫= f) s = f a s'.
Proof. intros H. unfold mbind, gom_bind. by rewrite H. Qed.

Lemma run_lift {S E A B} (m : outcome E A) (f : A → GoM S E B) s a :
  m = Ok a → (lift m ≫= f) s = f a s.
Proof. by intros ->. Qed.

Lemma run_modify {S E B} (g : S → S) (f : unit → GoM S E B) s :
  (modify g ≫= f) s = f tt (g s).
Proof. done. Qed.

Lemma run_get {S E B} (f : S → GoM S E B) s : (get ≫= f) s = f s s.
Proof. done. Qed.

Lemma wp_run_lift {S E A B} (m : outcome E A) (f : A → GoM S E B) Q R s a :
  m = Ok a → wp (f a) Q R s → wp (lift m ≫= f) Q R s.
Proof. by intros ->. Qed.

Lemma wp_run_modify {S E B} (g : S → S) (f : unit → GoM S E B) Q R s :
  wp (f tt) Q R (g s) → wp (modify g ≫= f) Q R s.
Proof. done. Qed.

Lemma wp_run_get {S E B} (f : S → GoM S E B) Q R s : wp (f s) Q R s → wp (get ≫= f) Q R s.
Proof. done. Qed.

Lemma wp_throw {S E A} (e : E) (Q : A → S → Prop) (R : E → S → Prop) s :
  R e s → wp (throw e) Q R s.
Proof. done. Qed.

Lemma obind_ok {E A B} (m : outcome E A) (f : A → outcome E B) a :
  m = Ok a → (m ≫= f) = f a.
Proof. by intros ->. Qed.

Lemma owp_bind {E A B} (m : outcome E A) (f : A → outcome E B) Q R :
  owp m (λ a, owp (f a) Q R) R → owp (m ≫= f) Q R.
Proof. by destruct m. Qed.

Lemma owp_wrap {E F A} (g : E → F) (m : outcome E A) Q R :
  owp m Q (λ e, R (g e)) → owp (wrap_err g m) Q R.
Proof. by destruct m. Qed.

Lemma owp_no_panic {E A} (m : outcome E A) : m ≠ Panic → owp m (λ a, m = Ok a) (λ e, m = Err e).
Proof. by destruct m. Qed.

Lemma owp_mono {E A} (m : outcome E A) (Q Q' : A → Prop) (R R' : E → Prop) :
  owp m Q R → (∀ a, Q a → Q' a) → (∀ e, R e → R' e) → owp m Q' R'.
Proof. destruct m; naive_solver. Qed.

(** * Slices *)

(** [l[i]]. *)
Definition idx {E A} (l : list A) (i : Z) : outcome E A :=
  if decide (0 ≤ i) then
    match l !! Z.to_nat i with Some x => Ok x | None => Panic end
  else Panic.

(** [l[n:]]. *)
Definition slice_from {E A} (l : list A) (n : Z) : outcome E (list A) :=
  if decide (0 ≤ n ≤ len l) then Ok (drop (Z.to_nat n) l) else Panic.

(** [l[:n]]; a longer capacity is never used. *)
Definition slice_to {E A} (l : list A) (n : Z) : outcome E (list A) :=
  if decide (0 ≤ n ≤ len l) then Ok (take (Z.to_nat n) l) else Panic.

(** [l[a:b]]. *)
Definition slice {E A} (l : list A) (a b : Z) : outcome E (list A) :=
  if decide (0 ≤ a ≤ b) then l' ← slice_to l b; slice_from l' a else Panic.

(** [copy(dst, src)]: the new contents of [dst]. *)
Definition copy_into {A} (dst src : list A) : list A :=
  take (length dst) src ++ drop (length src) dst.

(** * Little-endian integers *)

(** [binary.LittleEndian.AppendUintN]: the [n] low bytes of [v]. *)
Fixpoint le_bytes (n : nat) (v : Z) : bytes :=
  match n with
  | O => []
  | S n' => u8 v :: le_bytes n' (Z.shiftr v 8)
  end.

(** [binary.LittleEndian.UintN] on exactly [length l] bytes. *)
Fixpoint le_val (l : bytes) : Z :=
  match l with
  | [] => 0
  | b :: l' => Z.lor b (Z.shiftl (le_val l') 8)
  end.

(** * Lemmas on lengths and slices *)

Lemma len_nonneg {A} (l : list A) : 0 ≤ len l.
Proof. unfold len. lia. Qed.

Lemma len_nil {A} : len (@nil A) = 0.
Proof. done. Qed.

Lemma len_cons {A} (x : A) l : len (x :: l) = 1 + len l.
Proof. unfold len. simpl. lia. Qed.

Lemma len_app {A} (l k : list A) : len (l ++ k) = len l + len k.
Proof. unfold len. rewrite length_app. lia. Qed.

Lemma len_0 {A} (l : list A) : len l = 0 → l = [].
Proof. unfold len. destruct l; simpl; [done | lia]. Qed.

Lemma to_nat_len {A} (l : list A) : Z.to_nat (len l) = length l.
Proof. unfold len. lia. Qed.

Lemma len_replicate {A} n (x : A) : len (replicate n x) = Z.of_nat n.
Proof. unfold len. by rewrite length_replicate. Qed.

Lemma len_fmap {A B} (f : A → B) l : len (f <$> l) = len l.
Proof. unfold len. by rewrite length_fmap. Qed.

Lemma len_take {A} (l : list A) n : 0 ≤ n ≤ len l → len (take (Z.to_nat n) l) = n.
Proof. unfold len. intros. rewrite length_take. lia. Qed.

Lemma len_drop {A} (l : list A) n : 0 ≤ n ≤ len l → len (drop (Z.to_nat n) l) = len l - n.
Proof. unfold len. intros. rewrite length_drop. lia. Qed.

Lemma length_of_len {A} (l : list A) n : len l = Z.of_nat n → length l = n.
Proof. unfold len. lia. Qed.

Lemma slice_from_app {E A} (l k : list A) n :
  n = len l → slice_from (E:=E) (l ++ k) n = Ok k.
Proof.
  intros ->. unfold slice_from. rewrite decide_True.
  - by rewrite to_nat_len, drop_app_length.
  - rewrite len_app. pose proof (len_nonneg l). pose proof (len_nonneg k). lia.
Qed.

Lemma slice_to_app {E A} (l k : list A) n :
  n = len l → slice_to (E:=E) (l ++ k) n = Ok l.
Proof.
  intros ->. unfold slice_to. rewrite decide_True.
  - by rewrite to_nat_len, take_app_length.
  - rewrite len_app. pose proof (len_nonneg l). pose proof (len_nonneg k). lia.
Qed.

Lemma slice_from_ok {E A} (l : list A) n :
  0 ≤ n ≤ len l → slice_from (E:=E) l n = Ok (drop (Z.to_nat n) l).
Proof. intros. unfold slice_from. by rewrite decide_True. Qed.

Lemma slice_to_ok {E A} (l : list A) n :
  0 ≤ n ≤ len l → slice_to (E:=E) l n = Ok (take (Z.to_nat n) l).
Proof. intros. unfold slice_to. by rewrite decide_True. Qed.

Lemma slice_ok {E A} (l : list A) a b :
  0 ≤ a ≤ b → b ≤ len l →
  slice (E:=E) l a b = Ok (drop (Z.to_nat a) (take (Z.to_nat b) l)).
Proof.
  intros. unfold slice. rewrite decide_True by lia. rewrite slice_to_ok by lia.
  simpl. apply slice_from_ok. rewrite len_take; lia.
Qed.

Lemma slice_app {E A} (l m r : list A) a b :
  a = len l → b = len l + len m → slice (E:=E) (l ++ m ++ r) a b = Ok m.
Proof.
  intros -> ->. pose proof (len_nonneg l). pose proof (len_nonneg m). pose proof (len_nonneg r).
  unfold slice. rewrite decide_True by lia.
  rewrite app_assoc, slice_to_app by (rewrite len_app; lia). simpl.
  by apply slice_from_app.
Qed.

Lemma idx_ok {E A} (l : list A) i x :
  0 ≤ i → l !! Z.to_nat i = Some x → idx (E:=E) l i = Ok x.
Proof. intros. unfold idx. rewrite decide_True by done. by simplify_option_eq. Qed.

Lemma idx_in_range {A} (l : list A) i :
  0 ≤ i < len l → ∃ x, l !! Z.to_nat i = Some x.
Proof. unfold len. intros. apply lookup_lt_is_Some. lia. Qed.

Lemma copy_into_eq {A} (dst src : list A) :
  (length dst ≤ length src)%nat → copy_into dst src = take (length dst) src.
Proof. intros. unfold copy_into. rewrite (drop_ge dst) by done. by rewrite app_nil_r. Qed.

Lemma copy_into_full {A} (dst src : list A) : length dst = length src → copy_into dst src = src.
Proof. intros H. rewrite copy_into_eq, H by lia. apply take_ge. lia. Qed.

Lemma length_copy_into {A} (dst src : list A) :
  length (copy_into dst src) = length dst.
Proof. unfold copy_into. rewrite length_app, length_take, length_drop. lia. Qed.

(** Sums of sizes: the [for] loops that add up an encoded length. *)
Definition sumZ (l : list Z) : Z := foldr Z.add 0 l.

Lemma foldl_sum {A} (f : A → Z) l s : foldl (λ s x, s + f x) s l = s + sumZ (f <$> l).
Proof.
  revert s. induction l as [|x l IH]; intros; cbn; [lia|].
  rewrite IH. unfold sumZ. lia.
Qed.

Lemma len_concat {A} (l : list (list A)) : len (concat l) = sumZ (len <$> l).
Proof.
  induction l as [|x l IH]; cbn; [done|]. rewrite len_app, IH. unfold sumZ. lia.
Qed.

Lemma sumZ_const {A} (f : A → Z) l c : Forall (λ x, f x = c) l → sumZ (f <$> l) = c * len l.
Proof.
  induction 1 as [|x l Hx _ IH]; [cbn; unfold len; simpl; lia|].
  rewrite fmap_cons, len_cons. cbn [sumZ foldr]. fold (sumZ (f <$> l)). rewrite Hx, IH. lia.
Qed.

(** * Lemmas on bytes and machine integers *)

Lemma u8_bound v : 0 ≤ u8 v < 256.
Proof. unfold u8. apply Z.mod_pos_bound. lia. Qed.

Lemma u8_small v : 0 ≤ v < 256 → u8 v = v.
Proof. intros. unfold u8. by apply Z.mod_small. Qed.

Lemma u16_byte v : is_byte v → u16 v = v.
Proof. unfold is_byte, u16. intros. apply Z.mod_small. lia. Qed.

Lemma u16_small v : 0 ≤ v < 65536 → u16 v = v.
Proof. apply Z.mod_small. Qed.

Lemma is_byte_u8 v : is_byte (u8 v).
Proof. apply u8_bound. Qed.

Lemma zeros_ok n : bytes_ok (zeros n).
Proof. unfold zeros. apply Forall_replicate. unfold is_byte. lia. Qed.

Lemma length_zeros n : length (zeros n) = n.
Proof. apply length_replicate. Qed.

(** [a | b] of disjoint bit ranges is a sum. *)
Lemma lor_shiftl_add a b k :
  0 ≤ k → 0 ≤ a < 2 ^ k → 0 ≤ b → Z.lor a (Z.shiftl b k) = a + b * 2 ^ k.
Proof.
  intros Hk Ha Hb. rewrite Z.shiftl_mul_pow2 by lia.
  assert (Z.land a (b * 2 ^ k) = 0) as Hd.
  { apply Z.bits_inj'. intros n Hn. rewrite Z.land_spec, Z.bits_0.
    destruct (decide (n < k)).
    - rewrite Z.mul_pow2_bits_low by lia. apply andb_false_r.
    - rewrite <- (Z.mod_small a (2 ^ k)) by lia.
      by rewrite Z.mod_pow2_bits_high by lia. }
  by rewrite <- Z.lxor_lor, Z.add_nocarry_lxor by done.
Qed.

Lemma le_bytes_length n v : length (le_bytes n v) = n.
Proof. revert v. induction n; intros; simpl; auto. Qed.

Lemma len_le_bytes n v : len (le_bytes n v) = Z.of_nat n.
Proof. unfold len. by rewrite le_bytes_length. Qed.

Lemma le_bytes_ok n v : bytes_ok (le_bytes n v).
Proof. revert v. induction n; intros; simpl; constructor; auto using is_byte_u8. Qed.

Lemma le_val_cons b l : is_byte b → 0 ≤ le_val l → le_val (b :: l) = b + 256 * le_val l.
Proof.
  intros Hb Hl. simpl. rewrite lor_shiftl_add; unfold is_byte in *; lia.
Qed.

Lemma le_val_bound l : bytes_ok l → 0 ≤ le_val l < 256 ^ len l.
Proof.
  induction 1 as [|b l Hb Hl IH]; [simpl; unfold len; simpl; lia|].
  rewrite le_val_cons, len_cons by (done || lia).
  pose proof (len_nonneg l). rewrite Z.pow_add_r by lia. unfold is_byte in Hb. lia.
Qed.

Lemma le_val_le_bytes n v : 0 ≤ v < 256 ^ Z.of_nat n → le_val (le_bytes n v) = v.
Proof.
  revert v. induction n as [|n IH]; intros v Hv; [simpl in *; lia|].
  replace (256 ^ Z.of_nat (S n)) with (256 * 256 ^ Z.of_nat n) in Hv
    by (rewrite Nat2Z.inj_succ, Z.pow_succ_r; lia).
  change (le_bytes (S n) v) with (u8 v :: le_bytes n (Z.shiftr v 8)).
  assert (Z.shiftr v 8 = v / 256) as Hs by (by rewrite Z.shiftr_div_pow2 by lia).
  assert (0 ≤ v / 256 < 256 ^ Z.of_nat n) as Hq
    by (split; [apply Z.div_pos; lia | apply Z.div_lt_upper_bound; lia]).
  specialize (IH _ Hq). rewrite Hs, le_val_cons by (apply is_byte_u8 || lia).
  rewrite IH. unfold u8. pose proof (Z.div_mod v 256). lia.
Qed.

Lemma le_bytes_le_val l : bytes_ok l → le_bytes (length l) (le_val l) = l.
Proof.
  induction 1 as [|b l Hb Hl IH]; [done|].
  pose proof (le_val_bound l Hl). cbn [length le_bytes].
  rewrite le_val_cons by (done || lia). unfold is_byte in Hb. f_equal.
  - unfold u8. rewrite Z.mul_comm, Z.mod_add by lia. by apply Z.mod_small.
  - rewrite Z.shiftr_div_pow2 by lia. change (2 ^ 8) with 256.
    replace ((b + 256 * le_val l) / 256) with (le_val l); [done|].
    rewrite Z.mul_comm, Z.div_add, Z.div_small by lia. lia.
Qed.

(** * Bit operations of the base-128 varints *)

(** [b & 0x7F]. *)
Lemma land_7f b : 0 ≤ b → Z.land b 127 = b mod 128.
Proof. intros. change 127 with (Z.ones 7). by rewrite Z.land_ones by lia. Qed.

(** A boolean property of bytes holds when it holds of all 256 of them. *)
Lemma byte_forall (P : Z → bool) :
  forallb P (seqZ 0 256) = true → ∀ b, is_byte b → P b = true.
Proof.
  intros H b Hb. rewrite forallb_forall in H. apply H.
  apply list_elem_of_In, elem_of_seqZ. unfold is_byte in Hb. lia.
Qed.

(** [b & 0x80]. *)
Lemma land_80 b : is_byte b → Z.land b 128 = if decide (b < 128) then 0 else 128.
Proof.
  intros Hb. apply Z.eqb_eq. revert b Hb.
  apply (byte_forall (λ b, Z.land b 128 =? if decide (b < 128) then 0 else 128)).
  by vm_compute.
Qed.

(** [b | 0x80]. *)
Lemma lor_80 b : is_byte b → Z.lor b 128 = b mod 128 + 128.
Proof.
  intros Hb. apply Z.eqb_eq. revert b Hb.
  apply (byte_forall (λ b, Z.lor b 128 =? b mod 128 + 128)). by vm_compute.
Qed.

(** * Tactics *)

(** Linear arithmetic with [/] and [mod]. *)
Ltac dlia := Z.to_euclidean_division_equations; lia.

(** Split the [decide] tests of the goal, closing impossible branches. *)
Ltac cases := repeat (case_decide; try (exfalso; lia); try done).

(** Resolve the first test of the goal whose condition arithmetic decides. *)
Ltac dec_lia :=
  match goal with
  | |- context [@decide ?P _] =>
      first [rewrite (decide_True (P:=P)) by lia | rewrite (decide_False (P:=P)) by lia
            | rewrite (decide_True (P:=P)) by dlia | rewrite (decide_False (P:=P)) by dlia]
  end.

(** Normalise [len] of concrete list expressions. *)
Create Rewrite HintDb len_db.
#[export] Hint Rewrite @len_nil @len_cons @len_app @len_replicate @len_fmap len_le_bytes
  @to_nat_len : len_db.
Ltac lens := autorewrite with len_db in *.

(** Arithmetic about lengths, using that they are not negative. *)
Ltac pose_lens :=
  repeat match goal with
  | |- context [len ?l] =>
      lazymatch goal with _ : 0 ≤ len l |- _ => fail | _ => pose proof (len_nonneg l) end
  | _ : context [len ?l] |- _ =>
      lazymatch goal with _ : 0 ≤ len l |- _ => fail | _ => pose proof (len_nonneg l) end
  end.
Ltac len_lia := lens; pose_lens; lia.

Create HintDb bytes_db.
#[export] Hint Resolve is_byte_u8 zeros_ok le_bytes_ok : bytes_db.
#[export] Hint Resolve Forall_app_2 Forall_take Forall_drop : bytes_db.

(** * Fixed-width integers in a buffer *)

(** The range of an [n]-byte unsigned integer. *)
Definition is_uint (n : nat) (v : Z) : Prop := 0 ≤ v < 256 ^ Z.of_nat n.

#[global] Instance is_uint_dec n v : Decision (is_uint n v).
Proof. unfold is_uint. apply _. Defined.

(** [binary.LittleEndian.UintN] of the first [n] bytes; a short slice panics. *)
Definition readUint {E} (n : nat) (data : bytes) : outcome E Z :=
  b ← slice_to data (Z.of_nat n); Ok (le_val b).

(** Split off the first [n] bytes. *)
Lemma split_at (data : bytes) n :
  bytes_ok data → 0 ≤ n ≤ len data →
  ∃ xs tl, data = xs ++ tl ∧ len xs = n ∧ bytes_ok xs ∧ bytes_ok tl.
Proof.
  intros Hd Hn. exists (take (Z.to_nat n) data), (drop (Z.to_nat n) data).
  rewrite take_drop. split_and!; auto using Forall_take, Forall_drop. by apply len_take.
Qed.

Lemma readUint_app {E} n v rest : is_uint n v → readUint (E:=E) n (le_bytes n v ++ rest) = Ok v.
Proof.
  intros Hv. unfold readUint. rewrite slice_to_app by (by rewrite len_le_bytes). simpl.
  by rewrite le_val_le_bytes.
Qed.

Lemma take_uint (n : nat) (data : bytes) :
  bytes_ok data → Z.of_nat n ≤ len data →
  ∃ v rest, data = le_bytes n v ++ rest ∧ is_uint n v ∧ bytes_ok rest.
Proof.
  intros Hd Hn. destruct (split_at data (Z.of_nat n)) as (xs & tl & -> & Hl & Hxs & Htl); [done|lia|].
  exists (le_val xs), tl. assert (length xs = n) as Hlen by (unfold len in Hl; lia).
  rewrite <- Hlen at 1. rewrite le_bytes_le_val by done. split_and!; [done| |done].
  unfold is_uint. rewrite <- Hl. by apply le_val_bound.
Qed.
