(* ===== verification/Shortvec.v ===== *)
(** Shortvec: the compact-u16 length prefix of the Solana wire format
    (shortvec.go). A length is a little-endian base-128 varint of at most
    three bytes and at most 0xFFFF; non-minimal encodings are rejected. *)
From Stdlib Require Import ZArith Lia.
From stdpp Require Import base numbers list.
From S2P Require Import Prelude.

Open Scope Z_scope.

Inductive shortvec_err :=
  | errShortvecTruncated
  | errShortvecTooLarge
  | errShortvecNonCanonical.

(** The loop [for n >= 0x80] shifts seven bits out per round, so
    [log2 n + 1] rounds always suffice (see [appendShortvecLen_unfold]). *)
Definition varint_fuel (n : Z) : nat := S (Z.to_nat (Z.log2 n)).

Fixpoint appendShortvecLen_loop (fuel : nat) (dst : bytes) (n : Z) : bytes :=
  match fuel with
  | O => dst
  | S fuel' =>
    if decide (128 ≤ n)
    then appendShortvecLen_loop fuel' (dst ++ [Z.lor (u8 n) 128]) (Z.shiftr n 7)
    else dst ++ [u8 n]
  end.

Definition appendShortvecLen (dst : bytes) (n : Z) : bytes :=
  appendShortvecLen_loop (varint_fuel n) dst n.

Fixpoint shortvecLen_loop (fuel : nat) (size n : Z) : Z :=
  match fuel with
  | O => size
  | S fuel' =>
    if decide (128 ≤ n)
    then shortvecLen_loop fuel' (size + 1) (Z.shiftr n 7)
    else size
  end.

Definition shortvecLen (n : Z) : Z := shortvecLen_loop (varint_fuel n) 1 n.

(** [rounds] counts down the loop [for i := 0; i < 3; i++]. *)
Fixpoint decodeShortvecLen_loop (rounds : nat) (i value : Z) (data : bytes)
    : outcome shortvec_err (Z * Z) :=
  match rounds with
  | O => Err errShortvecTooLarge
  | S rounds' =>
    if decide (len data ≤ i) then Err errShortvecTruncated else
    b ← idx data i;
    if decide (0 < i ∧ b = 0) then Err errShortvecNonCanonical else
    let value := Z.lor value (Z.shiftl (Z.land b 127) (7 * i)) in
    if decide (Z.land b 128 = 0) then
      if decide (65535 < value) then Err errShortvecTooLarge else Ok (value, i + 1)
    else decodeShortvecLen_loop rounds' (i + 1) value data
  end.

Definition decodeShortvecLen (data : bytes) : outcome shortvec_err (Z * Z) :=
  decodeShortvecLen_loop 3 0 0 data.

(** * The loops in closed form *)

Lemma shiftr_7 n : Z.shiftr n 7 = n / 128.
Proof. by rewrite Z.shiftr_div_pow2 by lia. Qed.

Lemma log2_div_128 n : 128 ≤ n → (Z.to_nat (Z.log2 (n / 128)) < Z.to_nat (Z.log2 n))%nat.
Proof.
  intros Hn. rewrite <- shiftr_7, Z.log2_shiftr by lia.
  pose proof (Z.log2_le_mono 128 n Hn). change (Z.log2 128) with 7 in *. lia.
Qed.

Lemma append_loop_fuel f f' dst n :
  (Z.to_nat (Z.log2 n) < f)%nat → (Z.to_nat (Z.log2 n) < f')%nat →
  appendShortvecLen_loop f dst n = appendShortvecLen_loop f' dst n.
Proof.
  revert f' dst n. induction f as [|f IH]; intros [|f'] dst n Hf Hf'; try lia.
  simpl. case_decide as Hn; [|done]. rewrite shiftr_7.
  pose proof (log2_div_128 n Hn). apply IH; lia.
Qed.

(** The loop of [appendShortvecLen], with no fuel left in sight. *)
Lemma appendShortvecLen_unfold dst n :
  appendShortvecLen dst n =
    if decide (128 ≤ n)
    then appendShortvecLen (dst ++ [Z.lor (u8 n) 128]) (Z.shiftr n 7)
    else dst ++ [u8 n].
Proof.
  unfold appendShortvecLen at 1, varint_fuel. simpl. case_decide as Hn; [|done].
  apply append_loop_fuel; unfold varint_fuel; rewrite ?shiftr_7.
  - by apply log2_div_128.
  - lia.
Qed.

Lemma size_loop_acc f size n :
  shortvecLen_loop f size n = size + shortvecLen_loop f 0 n.
Proof.
  revert size n. induction f as [|f IH]; intros; simpl; [lia|].
  case_decide; [|lia]. rewrite IH, (IH (0 + 1)). lia.
Qed.

Lemma append_size_loop f dst n :
  (Z.to_nat (Z.log2 n) < f)%nat →
  len (appendShortvecLen_loop f dst n) = len dst + shortvecLen_loop f 1 n.
Proof.
  revert dst n. induction f as [|f IH]; intros dst n Hf; [lia|]. simpl.
  case_decide as Hn; [|lens; lia].
  rewrite shiftr_7, IH by (pose proof (log2_div_128 n Hn); lia).
  rewrite (size_loop_acc f (1 + 1)), (size_loop_acc f 1). lens. lia.
Qed.

(** The accumulator is only ever extended. *)
Lemma append_loop_app f dst n :
  appendShortvecLen_loop f dst n = dst ++ appendShortvecLen_loop f [] n.
Proof.
  revert dst n. induction f as [|f IH]; intros; simpl; [by rewrite app_nil_r|].
  case_decide; [|done]. rewrite IH, (IH [_]). by rewrite app_assoc.
Qed.

Lemma appendShortvecLen_app dst n :
  appendShortvecLen dst n = dst ++ appendShortvecLen [] n.
Proof. apply append_loop_app. Qed.

Lemma low7 n : Z.lor (u8 n) 128 = n mod 128 + 128.
Proof. rewrite lor_80 by apply is_byte_u8. unfold u8. dlia. Qed.

Lemma append_small n : 0 ≤ n < 128 → appendShortvecLen [] n = [n].
Proof.
  intros. rewrite appendShortvecLen_unfold. cases. by rewrite u8_small by lia.
Qed.

Lemma append_step n :
  128 ≤ n → appendShortvecLen [] n = (n mod 128 + 128) :: appendShortvecLen [] (n / 128).
Proof.
  intros. rewrite appendShortvecLen_unfold. cases.
  by rewrite appendShortvecLen_app, low7, shiftr_7.
Qed.

(** The decoder on its (at most three) leading bytes, arithmetically. *)
Definition decode_spec (data : bytes) : outcome shortvec_err (Z * Z) :=
  match data with
  | [] => Err errShortvecTruncated
  | b0 :: d1 =>
    if decide (b0 < 128) then Ok (b0, 1) else
    match d1 with
    | [] => Err errShortvecTruncated
    | b1 :: d2 =>
      if decide (b1 = 0) then Err errShortvecNonCanonical else
      if decide (b1 < 128) then Ok (b0 mod 128 + 128 * b1, 2) else
      match d2 with
      | [] => Err errShortvecTruncated
      | b2 :: _ =>
        if decide (b2 = 0) then Err errShortvecNonCanonical else
        let v := b0 mod 128 + 128 * (b1 mod 128) + 16384 * b2 in
        if decide (b2 < 128 ∧ v ≤ 65535) then Ok (v, 3) else Err errShortvecTooLarge
      end
    end
  end.

Lemma lor_shift_7 v b i :
  0 ≤ i → 0 ≤ v < 2 ^ (7 * i) → 0 ≤ b →
  Z.lor v (Z.shiftl (Z.land b 127) (7 * i)) = v + b mod 128 * 2 ^ (7 * i).
Proof.
  intros. rewrite land_7f by lia. apply lor_shiftl_add; [lia|lia|].
  apply Z.mod_pos_bound. lia.
Qed.

(** One round of the decoding loop. *)
Lemma decode_round r i v pre b rest :
  i = len pre → is_byte b → 0 ≤ v < 2 ^ (7 * i) →
  decodeShortvecLen_loop (S r) i v (pre ++ b :: rest) =
    if decide (0 < i ∧ b = 0) then Err errShortvecNonCanonical else
    let value := v + b mod 128 * 2 ^ (7 * i) in
    if decide (b < 128) then
      if decide (65535 < value) then Err errShortvecTooLarge else Ok (value, i + 1)
    else decodeShortvecLen_loop r (i + 1) value (pre ++ b :: rest).
Proof.
  intros -> Hb Hv. cbn [decodeShortvecLen_loop]. pose proof (len_nonneg pre) as Hp.
  pose proof (len_nonneg rest). rewrite decide_False by (lens; lia).
  rewrite (idx_ok _ _ b); [|lia|by rewrite to_nat_len, list_lookup_middle].
  unfold mbind, outcome_bind. rewrite lor_shift_7, (land_80 b Hb) by (unfold is_byte in *; lia).
  destruct (decide (b < 128)); reflexivity.
Qed.

Lemma decode_end r i v data :
  len data ≤ i → decodeShortvecLen_loop (S r) i v data = Err errShortvecTruncated.
Proof. intros. simpl. by rewrite decide_True. Qed.

#[local] Arguments decodeShortvecLen_loop : simpl never.

Lemma decodeShortvecLen_eq data : bytes_ok data → decodeShortvecLen data = decode_spec data.
Proof.
  intros Hd. unfold decodeShortvecLen. destruct data as [|b0 d1]; [done|].
  inversion Hd as [|?? Hb0 Hd1]; subst. unfold is_byte in Hb0.
  change (b0 :: d1) with ([] ++ b0 :: d1) at 1.
  unfold decode_spec. rewrite (decode_round 2 0 0 []) by (done || lia). cbv zeta.
  dec_lia. change (2 ^ (7 * 0)) with 1. rewrite Z.mul_1_r.
  destruct (decide (b0 < 128)).
  { rewrite Z.mod_small by lia. by dec_lia. }
  destruct d1 as [|b1 d2]; [done|]. inversion Hd1 as [|?? Hb1 Hd2]; subst. unfold is_byte in Hb1.
  change ([] ++ b0 :: b1 :: d2) with ([b0] ++ b1 :: d2).
  rewrite (decode_round 1 (0 + 1) _ [b0]) by (done || dlia). cbv zeta.
  change (2 ^ (7 * (0 + 1))) with 128.
  destruct (decide (b1 = 0)); dec_lia; [done|].
  destruct (decide (b1 < 128)).
  { rewrite (Z.mod_small b1) by lia. rewrite decide_False by dlia. do 3 f_equal; lia. }
  destruct d2 as [|b2 d3]; [done|]. inversion Hd2 as [|?? Hb2 Hd3]; subst. unfold is_byte in Hb2.
  change ([b0] ++ b1 :: b2 :: d3) with ([b0; b1] ++ b2 :: d3).
  rewrite (decode_round 0 (0 + 1 + 1) _ [b0; b1]) by (done || dlia). cbv zeta.
  change (2 ^ (7 * (0 + 1 + 1))) with 16384.
  destruct (decide (b2 = 0)); dec_lia; [done|].
  destruct (decide (b2 < 128)); [|by dec_lia].
  rewrite (Z.mod_small b2) by lia.
  destruct (decide (65535 < _)); dec_lia; [done|]. do 3 f_equal; lia.
Qed.

(** * Encoding facts the codecs build on *)

Lemma appendShortvecLen_ok n : 0 ≤ n → bytes_ok (appendShortvecLen [] n).
Proof.
  intros Hn. remember (Z.to_nat n) as m eqn:Hm. revert n Hn Hm.
  induction (lt_wf m) as [m _ IH]. intros n Hn ->.
  destruct (decide (128 ≤ n)) as [Hge|Hlt].
  - rewrite append_step by lia. constructor; [unfold is_byte; dlia|].
    apply (IH (Z.to_nat (n / 128))); [dlia|dlia|done].
  - rewrite append_small by lia. repeat constructor; unfold is_byte; lia.
Qed.

(** [shortvecLen] is the exact number of bytes [appendShortvecLen] writes. *)
Lemma len_appendShortvecLen dst n : len (appendShortvecLen dst n) = len dst + shortvecLen n.
Proof. apply append_size_loop. unfold varint_fuel. lia. Qed.

Lemma len_append n : len (appendShortvecLen [] n) = shortvecLen n.
Proof. rewrite len_appendShortvecLen. by rewrite len_nil. Qed.

Lemma shortvecLen_pos n : 1 ≤ shortvecLen n.
Proof.
  unfold shortvecLen. generalize (varint_fuel n). intros f.
  assert (∀ s n, s ≤ shortvecLen_loop f s n) as H; [|apply H].
  induction f as [|f IH]; intros; simpl; [lia|]. case_decide; [|lia].
  etrans; [|apply IH]. lia.
Qed.

(** The decoder looks at no byte past the prefix it accepts or rejects. *)
Lemma decode_loop_S r i v data :
  decodeShortvecLen_loop (S r) i v data =
    (if decide (len data ≤ i) then Err errShortvecTruncated else
    b ← idx data i;
    if decide (0 < i ∧ b = 0) then Err errShortvecNonCanonical else
    let value := Z.lor v (Z.shiftl (Z.land b 127) (7 * i)) in
    if decide (Z.land b 128 = 0) then
      if decide (65535 < value) then Err errShortvecTooLarge else Ok (value, i + 1)
    else decodeShortvecLen_loop r (i + 1) value data).
Proof. done. Qed.

Lemma decode_loop_app r i v d rest x :
  0 ≤ i → decodeShortvecLen_loop r i v d = Ok x → decodeShortvecLen_loop r i v (d ++ rest) = Ok x.
Proof.
  revert i v. induction r as [|r IH]; intros i v Hi; [done|].
  rewrite !decode_loop_S. pose proof (len_nonneg rest).
  case_decide; [done|]. rewrite decide_False by (lens; lia).
  destruct (idx_in_range d i) as [b Hb]; [lia|].
  rewrite !(idx_ok _ i b); [|lia|by apply lookup_app_l_Some|lia|done].
  unfold mbind, outcome_bind. case_decide; [done|]. cbv zeta. case_decide; [done|].
  apply IH. lia.
Qed.

Lemma decode_append_bytes n :
  0 ≤ n ≤ 65535 →
  decodeShortvecLen (appendShortvecLen [] n) = Ok (n, shortvecLen n).
Proof.
  intros Hn. pose proof (len_appendShortvecLen [] n) as Hl.
  rewrite decodeShortvecLen_eq by (apply appendShortvecLen_ok; lia).
  assert (n < 128 ∨ (128 ≤ n ∧ n / 128 < 128) ∨ 128 ≤ n / 128) as [H|[[H H']|H]] by lia.
  - rewrite append_small in * by lia. lens. unfold decode_spec. dec_lia. do 2 f_equal. lia.
  - rewrite append_step, append_small in * by (lia || dlia). lens. unfold decode_spec.
    rewrite decide_False by dlia. do 2 dec_lia. do 2 f_equal; [|lia]. dlia.
  - rewrite (append_step n), (append_step (n / 128)), append_small in * by (lia || dlia).
    lens. unfold decode_spec. cbv zeta. do 4 (rewrite decide_False by dlia). rewrite decide_True by dlia.
    do 2 f_equal; [|lia]. dlia.
Qed.

(** What follows a length prefix does not change how it decodes. *)
Lemma decode_append n rest :
  0 ≤ n ≤ 65535 →
  decodeShortvecLen (appendShortvecLen [] n ++ rest) = Ok (n, shortvecLen n).
Proof. intros. apply decode_loop_app; [lia|]. by apply decode_append_bytes. Qed.

(** An accepted prefix is the canonical encoding of its value. *)
Lemma decode_canonical data :
  bytes_ok data →
  owp (decodeShortvecLen data)
    (λ '(v, k), 0 ≤ v ≤ 65535 ∧ k = shortvecLen v ∧ 0 ≤ k ≤ len data ∧
       data = appendShortvecLen [] v ++ drop (Z.to_nat k) data)
    (λ _, True).
Proof.
  intros Hd. rewrite decodeShortvecLen_eq by done. unfold decode_spec.
  destruct data as [|b0 d1]; [done|]. inversion Hd as [|?? Hb0 Hd1]; subst. unfold is_byte in Hb0.
  assert (∀ v k tl, b0 :: d1 = appendShortvecLen [] v ++ tl → k = len (appendShortvecLen [] v) →
    0 ≤ v ≤ 65535 → 0 ≤ v ≤ 65535 ∧ k = shortvecLen v ∧ 0 ≤ k ≤ len (b0 :: d1) ∧
      b0 :: d1 = appendShortvecLen [] v ++ drop (Z.to_nat k) (b0 :: d1)) as Hfin.
  { intros v k tl Heq -> Hv. rewrite Heq. pose proof (len_nonneg tl).
    pose proof (len_nonneg (appendShortvecLen [] v)).
    rewrite to_nat_len, drop_app_length. repeat split; try done; try lia.
    - by rewrite len_appendShortvecLen.
    - lens. lia. }
  case_decide. { apply (Hfin _ _ d1); rewrite ?append_small by lia; done || lia. }
  destruct d1 as [|b1 d2]; [done|]. inversion Hd1 as [|?? Hb1 Hd2]; subst. unfold is_byte in Hb1.
  case_decide; [done|]. case_decide.
  { assert ((b0 mod 128 + 128 * b1) / 128 = b1) as Hq by dlia.
    assert ((b0 mod 128 + 128 * b1) mod 128 + 128 = b0) as Hr by dlia.
    apply (Hfin _ _ d2); rewrite ?append_step, ?Hq, ?Hr, ?append_small by dlia; done || dlia. }
  destruct d2 as [|b2 d3]; [done|]. inversion Hd2 as [|?? Hb2 Hd3]; subst. unfold is_byte in Hb2.
  case_decide; [done|]. cbv zeta. set (v := b0 mod 128 + _ + _). case_decide; [|done].
  assert (v / 128 = b1 mod 128 + 128 * b2) as Hq by (subst v; dlia).
  assert (v mod 128 + 128 = b0) as Hr by (subst v; dlia).
  assert ((b1 mod 128 + 128 * b2) / 128 = b2) as Hq' by dlia.
  assert ((b1 mod 128 + 128 * b2) mod 128 + 128 = b1) as Hr' by dlia.
  apply (Hfin _ _ d3); rewrite ?(append_step v), ?Hq, ?Hr by dlia;
    rewrite ?append_step, ?Hq', ?Hr', ?append_small by dlia; done || dlia.
Qed.

(** * Properties *)

(** Any length up to 0xFFFF survives the trip over the wire: decoding what
    [appendShortvecLen] wrote, whatever follows it, returns the length and
    consumes exactly the bytes written. *)
Lemma shortvec_roundtrip n rest :
  0 ≤ n ≤ 65535 →
  decodeShortvecLen (appendShortvecLen [] n ++ rest) =
    Ok (n, len (appendShortvecLen [] n)).
Proof. intros. rewrite decode_append, len_appendShortvecLen by done. by rewrite len_nil. Qed.
