(* ===== verification/Keys.v ===== *)
(** Keys: the fixed-size values every other component passes around
    (public_key.go, hash.go, signature.go), the roles an account plays in an
    instruction (account_meta.go) and instructions themselves (instruction.go). *)
From Stdlib Require Import ZArith Lia.
From stdpp Require Import base numbers gmap list.
From S2P Require Import Prelude.

Open Scope Z_scope.

Definition PublicKeyLength : Z := 32.
Definition SignatureLength : Z := 64.

(** [[32]byte] and [[64]byte] arrays; [key_ok] and [sig_ok] are what Go's types
    guarantee of them. *)
Abbreviation PublicKey := (list Z) (only parsing).
Abbreviation Hash := (list Z) (only parsing).
Abbreviation Signature := (list Z) (only parsing).

Definition key_ok (k : PublicKey) : Prop := length k = 32%nat ∧ bytes_ok k.
Definition sig_ok (s : Signature) : Prop := length s = 64%nat ∧ bytes_ok s.

(** The zero values [PublicKey{}] and [Signature{}]. *)
Definition zeroKey : PublicKey := zeros 32.
Definition zeroSignature : Signature := zeros 64.

(** [p == (PublicKey{})]. *)
Definition IsZero (p : PublicKey) : bool := bool_decide (p = zeroKey).

(** [PublicKeyFromBytes] panics on any other length. *)
Definition PublicKeyFromBytes {E} (input : bytes) : outcome E PublicKey :=
  if decide (len input = PublicKeyLength) then Ok (copy_into zeroKey input) else Panic.

(** [SignatureFromBytes] truncates or zero-pads. *)
Definition SignatureFromBytes (input : bytes) : Signature := copy_into zeroSignature input.

(** * Account metas *)

Record AccountMeta := mkAccountMeta {
  PublicKeyOf : PublicKey;
  IsWritable : bool;
  IsSigner : bool;
}.

#[global] Instance AccountMeta_eq_dec : EqDecision AccountMeta.
Proof. solve_decision. Defined.

Definition Meta (p : PublicKey) : AccountMeta := mkAccountMeta p false false.
Definition WRITE (m : AccountMeta) : AccountMeta := mkAccountMeta (PublicKeyOf m) true (IsSigner m).
Definition SIGNER (m : AccountMeta) : AccountMeta := mkAccountMeta (PublicKeyOf m) (IsWritable m) true.
Definition NewAccountMeta (pubKey : PublicKey) (writable signer : bool) : AccountMeta :=
  mkAccountMeta pubKey writable signer.

Abbreviation AccountMetaSlice := (list AccountMeta) (only parsing).

(** [Get] returns nil out of range. *)
Definition Get (s : AccountMetaSlice) (index : Z) : option AccountMeta :=
  if decide (0 ≤ index ∧ index < len s) then s !! Z.to_nat index else None.
Definition GetSigners (s : AccountMetaSlice) : list AccountMeta :=
  foldl (λ signers ac, if IsSigner ac then signers ++ [ac] else signers) [] s.
Definition GetKeys (s : AccountMetaSlice) : list PublicKey := PublicKeyOf <$> s.

(** * Instructions *)

(** The [Instruction] interface: its three methods. *)
Record Instruction := mkInstruction {
  ProgramID : PublicKey;
  Accounts : AccountMetaSlice;
  Data : outcome unit bytes;
}.

(** [NewInstruction]: a [GenericInstruction] seen through the interface. *)
Definition NewInstruction (programID : PublicKey) (accounts : AccountMetaSlice) (data : bytes)
    : Instruction := mkInstruction programID accounts (Ok data).

Record CompiledInstruction := mkCompiledInstruction {
  ProgramIDIndex : Z;
  AccountIndexes : list Z;
  InsData : bytes;
}.

#[global] Instance CompiledInstruction_eq_dec : EqDecision CompiledInstruction.
Proof. solve_decision. Defined.

Definition zeroInstruction : CompiledInstruction := mkCompiledInstruction 0 [] [].

(** * [bytes.Compare] *)

Fixpoint bytes_Compare (a b : bytes) : comparison :=
  match a, b with
  | [], [] => Eq
  | [], _ => Lt
  | _, [] => Gt
  | x :: a', y :: b' =>
    match x ?= y with Eq => bytes_Compare a' b' | c => c end
  end.

Definition bytes_le (a b : bytes) : Prop := bytes_Compare a b ≠ Gt.

#[global] Instance bytes_le_dec : RelDecision bytes_le.
Proof. intros a b. unfold bytes_le. destruct (bytes_Compare a b); [left|left|right]; congruence. Defined.

Lemma bytes_Compare_Eq a b : bytes_Compare a b = Eq ↔ a = b.
Proof.
  revert b. induction a as [|x a IH]; intros [|y b]; simpl; try done.
  destruct (Z.compare_spec x y) as [->|H|H].
  - rewrite IH. split; [by intros ->|by injection 1].
  - split; [done|]. injection 1. lia.
  - split; [done|]. injection 1. lia.
Qed.

Lemma bytes_Compare_antisym a b : bytes_Compare b a = CompOpp (bytes_Compare a b).
Proof.
  revert b. induction a as [|x a IH]; intros [|y b]; simpl; try done.
  rewrite (Z.compare_antisym x y). destruct (x ?= y); simpl; auto.
Qed.

Lemma bytes_Compare_Lt_trans a b c :
  bytes_Compare a b = Lt → bytes_Compare b c = Lt → bytes_Compare a c = Lt.
Proof.
  revert b c. induction a as [|x a IH]; intros [|y b] [|z c]; simpl; try done.
  destruct (Z.compare_spec x y); destruct (Z.compare_spec y z);
    destruct (Z.compare_spec x z); try done; try lia. apply IH.
Qed.

#[global] Instance bytes_le_total : Total bytes_le.
Proof.
  intros a b. unfold bytes_le. rewrite (bytes_Compare_antisym a b).
  destruct (bytes_Compare a b); simpl; naive_solver.
Qed.

#[global] Instance bytes_le_antisymm : AntiSymm (=) bytes_le.
Proof.
  intros a b. unfold bytes_le. rewrite (bytes_Compare_antisym a b).
  destruct (bytes_Compare a b) eqn:E; simpl; [|done|done].
  intros. by apply bytes_Compare_Eq.
Qed.

#[global] Instance bytes_le_trans : Transitive bytes_le.
Proof.
  intros a b c. unfold bytes_le. intros Hab Hbc Hac.
  destruct (bytes_Compare a b) eqn:E1; [|clear Hab|done].
  { apply bytes_Compare_Eq in E1 as ->. done. }
  destruct (bytes_Compare b c) eqn:E2; [|clear Hbc|done].
  { apply bytes_Compare_Eq in E2 as ->. congruence. }
  rewrite (bytes_Compare_Lt_trans a b c) in Hac by done. done.
Qed.

(** * Facts *)

Lemma zeroKey_ok : key_ok zeroKey.
Proof. split; [done|]. apply zeros_ok. Qed.

Lemma zeroSignature_ok : sig_ok zeroSignature.
Proof. split; [done|]. apply zeros_ok. Qed.

Lemma len_key k : key_ok k → len k = 32.
Proof. intros [H _]. unfold len. lia. Qed.

Lemma len_sig s : sig_ok s → len s = 64.
Proof. intros [H _]. unfold len. lia. Qed.

#[export] Hint Resolve zeroKey_ok zeroSignature_ok : bytes_db.
