(* ===== verification/Message.v ===== *)
(** Message: the content of a legacy or v0 transaction (message.go): its binary
    wire format in both directions, and the signer/writable roles its header
    assigns to the static account keys. *)
From Stdlib Require Import ZArith Lia.
From stdpp Require Import base numbers sets list.
From S2P Require Import Prelude Shortvec Keys.

Open Scope Z_scope.

(** * Data *)

Record MessageHeader := mkMessageHeader {
  NumRequiredSignatures : Z;
  NumReadonlySignedAccounts : Z;
  NumReadonlyUnsignedAccounts : Z;
}.

Definition zeroHeader : MessageHeader := mkMessageHeader 0 0 0.

(** [MessageVersion] is an int: 0 is legacy, 1 is v0. *)
Definition MessageVersionLegacy : Z := 0.
Definition MessageVersionV0 : Z := 1.
Definition messageVersionPrefix : Z := 128.

Record MessageAddressTableLookup := mkLookup {
  AccountKey : PublicKey;
  WritableIndexes : list Z;
  ReadonlyIndexes : list Z;
}.

Definition zeroLookup : MessageAddressTableLookup := mkLookup zeroKey [] [].

Record Message := mkMessage {
  version : Z;
  AccountKeys : list PublicKey;
  Header : MessageHeader;
  RecentBlockhash : Hash;
  Instructions : list CompiledInstruction;
  AddressTableLookups : list MessageAddressTableLookup;
}.

Definition zeroMessage : Message := mkMessage 0 [] zeroHeader zeroKey [] [].

(** Field assignments [mx.f = v]. *)
Definition set_version v mx :=
  mkMessage v (AccountKeys mx) (Header mx) (RecentBlockhash mx) (Instructions mx) (AddressTableLookups mx).
Definition set_AccountKeys v mx :=
  mkMessage (version mx) v (Header mx) (RecentBlockhash mx) (Instructions mx) (AddressTableLookups mx).
Definition set_Header v mx :=
  mkMessage (version mx) (AccountKeys mx) v (RecentBlockhash mx) (Instructions mx) (AddressTableLookups mx).
Definition set_RecentBlockhash v mx :=
  mkMessage (version mx) (AccountKeys mx) (Header mx) v (Instructions mx) (AddressTableLookups mx).
Definition set_Instructions v mx :=
  mkMessage (version mx) (AccountKeys mx) (Header mx) (RecentBlockhash mx) v (AddressTableLookups mx).
Definition set_AddressTableLookups v mx :=
  mkMessage (version mx) (AccountKeys mx) (Header mx) (RecentBlockhash mx) (Instructions mx) v.

(** [ins.f = v] and [lookup.f = v] through the element pointers the loops take. *)
Definition upd_ins (i : nat) (f : CompiledInstruction → CompiledInstruction) (mx : Message) : Message :=
  set_Instructions (alter f i (Instructions mx)) mx.
Definition upd_lookup (i : nat) (f : MessageAddressTableLookup → MessageAddressTableLookup)
    (mx : Message) : Message :=
  set_AddressTableLookups (alter f i (AddressTableLookups mx)) mx.

Inductive message_err :=
  | errEmpty
  | errInvalidVersion (v : Z)
  | errUnsupportedVersion (v : Z)
  | errHeaderTooShort (n : Z)
  | errAccountKeysLength (e : shortvec_err)
  | errAccountKeysTooLarge (numKeys remaining : Z)
  | errBlockhashTooShort (n : Z)
  | errInstructionsLength (e : shortvec_err)
  | errInstructionsTooLarge (numInstructions remaining : Z)
  | errMissingProgramIDIndex (i : nat)
  | errInsAccountsLength (i : nat) (e : shortvec_err)
  | errInsAccountsTooLarge (i : nat) (numAccounts remaining : Z)
  | errInsDataLength (i : nat) (e : shortvec_err)
  | errInsDataTooLarge (i : nat) (dataLen remaining : Z)
  | errLookupsLength (e : shortvec_err)
  | errLookupsTooLarge (numLookups remaining : Z)
  | errMissingAccountKey (i : nat)
  | errWritableIndexes (i : nat) (e : message_err)
  | errReadonlyIndexes (i : nat) (e : message_err)
  | errIndexesLength (e : shortvec_err)
  | errIndexesTooLarge (count remaining : Z)
  | errAddressTablesNotSet
  | errAccountIndexNotFound (index : Z).

(** * Versions, lookups and roles *)

Definition NumLookups (lookups : list MessageAddressTableLookup) : Z :=
  foldl (λ count l, count + len (WritableIndexes l) + len (ReadonlyIndexes l)) 0 lookups.

Definition NumWritableLookups (lookups : list MessageAddressTableLookup) : Z :=
  foldl (λ count l, count + len (WritableIndexes l)) 0 lookups.

Definition SetVersion (v : Z) : GoM Message message_err unit :=
  if decide (v = MessageVersionLegacy ∨ v = MessageVersionV0)
  then modify (set_version v)
  else throw (errInvalidVersion v).

Definition SetAddressTableLookups (lookups : list MessageAddressTableLookup) (mx : Message) : Message :=
  set_version MessageVersionV0 (set_AddressTableLookups lookups mx).

Definition AddAddressTableLookup (lookup : MessageAddressTableLookup) (mx : Message) : Message :=
  set_version MessageVersionV0 (set_AddressTableLookups (AddressTableLookups mx ++ [lookup]) mx).

Definition Account (mx : Message) (index : Z) : outcome message_err PublicKey :=
  if decide (index < len (AccountKeys mx)) then idx (AccountKeys mx) index
  else Err (errAccountIndexNotFound index).

Definition staticIndexIsWritable (mx : Message) (index : Z) : bool :=
  let h := Header mx in
  if decide (NumRequiredSignatures h ≤ index) then
    let numWritableUnsigned :=
      Z.max (len (AccountKeys mx) - NumRequiredSignatures h - NumReadonlyUnsignedAccounts h) 0 in
    bool_decide (index - NumRequiredSignatures h < numWritableUnsigned)
  else bool_decide (index < Z.max (NumRequiredSignatures h - NumReadonlySignedAccounts h) 0).

Definition AccountMetaList (mx : Message) : outcome message_err AccountMetaSlice :=
  if decide (version mx ≠ MessageVersionLegacy ∧ 0 < NumLookups (AddressTableLookups mx))
  then Err errAddressTablesNotSet
  else Ok (imap (λ i key, mkAccountMeta key
                            (staticIndexIsWritable mx (Z.of_nat i))
                            (bool_decide (Z.of_nat i < NumRequiredSignatures (Header mx))))
             (AccountKeys mx)).

(** The first occurrence of [account] decides, as in the loops' early return. *)
Fixpoint firstIndex (account : PublicKey) (keys : list PublicKey) (i : Z) : option Z :=
  match keys with
  | [] => None
  | key :: keys' => if decide (key = account) then Some i else firstIndex account keys' (i + 1)
  end.

Definition IsWritableStatic (mx : Message) (account : PublicKey) : bool :=
  match firstIndex account (AccountKeys mx) 0 with
  | Some i => staticIndexIsWritable mx i
  | None => false
  end.

Definition IsSignerOf (mx : Message) (account : PublicKey) : bool :=
  match firstIndex account (AccountKeys mx) 0 with
  | Some i => bool_decide (i < NumRequiredSignatures (Header mx))
  | None => false
  end.

Definition Signers (mx : Message) : list PublicKey :=
  let numSigners := NumRequiredSignatures (Header mx) in
  let numSigners := if decide (len (AccountKeys mx) < numSigners) then len (AccountKeys mx) else numSigners in
  copy_into (replicate (Z.to_nat numSigners) zeroKey) (take (Z.to_nat numSigners) (AccountKeys mx)).

(** * Encoding *)

Definition appendInstruction (buf : bytes) (ins : CompiledInstruction) : bytes :=
  let buf := buf ++ [u8 (ProgramIDIndex ins)] in
  let buf := appendShortvecLen buf (len (AccountIndexes ins)) in
  let buf := foldl (λ buf accountIdx, buf ++ [u8 accountIdx]) buf (AccountIndexes ins) in
  let buf := appendShortvecLen buf (len (InsData ins)) in
  buf ++ InsData ins.

Definition appendBody (mx : Message) (buf : bytes) : bytes :=
  let buf := buf ++ [NumRequiredSignatures (Header mx); NumReadonlySignedAccounts (Header mx);
                     NumReadonlyUnsignedAccounts (Header mx)] in
  let buf := appendShortvecLen buf (len (AccountKeys mx)) in
  let buf := foldl (λ buf key, buf ++ key) buf (AccountKeys mx) in
  let buf := buf ++ RecentBlockhash mx in
  let buf := appendShortvecLen buf (len (Instructions mx)) in
  foldl appendInstruction buf (Instructions mx).

Definition bodySize (mx : Message) : Z :=
  let size := 3 + shortvecLen (len (AccountKeys mx)) + PublicKeyLength * len (AccountKeys mx) +
              len (RecentBlockhash mx) + shortvecLen (len (Instructions mx)) in
  foldl (λ size ins, size + (1 + shortvecLen (len (AccountIndexes ins)) + len (AccountIndexes ins) +
                             shortvecLen (len (InsData ins)) + len (InsData ins)))
    size (Instructions mx).

Definition appendLookup (buf : bytes) (lookup : MessageAddressTableLookup) : bytes :=
  let buf := buf ++ AccountKey lookup in
  let buf := appendShortvecLen buf (len (WritableIndexes lookup)) in
  let buf := buf ++ WritableIndexes lookup in
  let buf := appendShortvecLen buf (len (ReadonlyIndexes lookup)) in
  buf ++ ReadonlyIndexes lookup.

(** The capacity [marshalV0] reserves before it writes. *)
Definition marshalV0Size (mx : Message) : Z :=
  let size := 1 + bodySize mx + shortvecLen (len (AddressTableLookups mx)) in
  foldl (λ size lookup, size + (PublicKeyLength +
           shortvecLen (len (WritableIndexes lookup)) + len (WritableIndexes lookup) +
           shortvecLen (len (ReadonlyIndexes lookup)) + len (ReadonlyIndexes lookup)))
    size (AddressTableLookups mx).

Definition marshalV0 (mx : Message) : outcome message_err bytes :=
  let solanaVersion := u8 (version mx - 1) in
  if decide (127 < solanaVersion) then Err (errInvalidVersion (version mx)) else
  let buf := [Z.lor messageVersionPrefix solanaVersion] in
  let buf := appendBody mx buf in
  let buf := appendShortvecLen buf (len (AddressTableLookups mx)) in
  Ok (foldl appendLookup buf (AddressTableLookups mx)).

Definition MarshalBinary (mx : Message) : outcome message_err bytes :=
  if decide (version mx = MessageVersionLegacy) then Ok (appendBody mx [])
  else if decide (version mx = MessageVersionV0) then marshalV0 mx
  else Err (errInvalidVersion (version mx)).

(** * Decoding *)

(** [for i := range xs { copy(xs[i][:], data[i*size:]) }] over [n] fresh
    [[size]byte] arrays: account keys here, signatures in transaction.go. *)
Definition readArrays {E} (size n : Z) (data : bytes) : outcome E (list bytes) :=
  mapM (λ i : nat, s ← slice_from data (Z.of_nat i * size);
                   mret (copy_into (zeros (Z.to_nat size)) s)) (seq 0 (Z.to_nat n)).

(** [for j := range xs { xs[j] = uint16(data[j]) }] over [n] elements. *)
Definition readIndexes {E} (n : Z) (data : bytes) : outcome E (list Z) :=
  mapM (λ j : nat, b ← idx data (Z.of_nat j); mret (u16 b)) (seq 0 (Z.to_nat n)).

Definition unmarshalInstruction (i : nat) (data : bytes) : GoM Message message_err bytes :=
  if decide (len data = 0) then throw (errMissingProgramIDIndex i) else
  b ← lift (idx data 0);
  _ ← modify (upd_ins i (λ ins, mkCompiledInstruction (u16 b) (AccountIndexes ins) (InsData ins)));
  data ← lift (slice_from data 1);
  '(numAccounts, n) ← lift (wrap_err (errInsAccountsLength i) (decodeShortvecLen data));
  data ← lift (slice_from data n);
  if decide (len data < numAccounts)
  then throw (errInsAccountsTooLarge i numAccounts (len data)) else
  accounts ← lift (readIndexes numAccounts data);
  _ ← modify (upd_ins i (λ ins, mkCompiledInstruction (ProgramIDIndex ins) accounts (InsData ins)));
  data ← lift (slice_from data numAccounts);
  '(dataLen, n) ← lift (wrap_err (errInsDataLength i) (decodeShortvecLen data));
  data ← lift (slice_from data n);
  if decide (len data < dataLen)
  then throw (errInsDataTooLarge i dataLen (len data)) else
  insData ← lift (slice_to data dataLen);
  _ ← modify (upd_ins i (λ ins, mkCompiledInstruction (ProgramIDIndex ins) (AccountIndexes ins) insData));
  lift (slice_from data dataLen).

(** The loop over the [k] instructions from index [i] on. *)
Fixpoint unmarshalInstructions (k i : nat) (data : bytes) : GoM Message message_err bytes :=
  match k with
  | O => mret data
  | S k' => data ← unmarshalInstruction i data; unmarshalInstructions k' (S i) data
  end.

Definition unmarshalBody (data : bytes) : GoM Message message_err bytes :=
  if decide (len data < 3) then throw (errHeaderTooShort (len data)) else
  b0 ← lift (idx data 0);
  b1 ← lift (idx data 1);
  b2 ← lift (idx data 2);
  _ ← modify (set_Header (mkMessageHeader b0 b1 b2));
  data ← lift (slice_from data 3);
  '(numKeys, n) ← lift (wrap_err errAccountKeysLength (decodeShortvecLen data));
  data ← lift (slice_from data n);
  if decide (len data / PublicKeyLength < numKeys)
  then throw (errAccountKeysTooLarge numKeys (len data)) else
  keys ← lift (readArrays PublicKeyLength numKeys data);
  _ ← modify (set_AccountKeys keys);
  data ← lift (slice_from data (numKeys * PublicKeyLength));
  mx ← get;
  if decide (len data < len (RecentBlockhash mx))
  then throw (errBlockhashTooShort (len data)) else
  _ ← modify (set_RecentBlockhash (copy_into (RecentBlockhash mx) data));
  data ← lift (slice_from data (len (RecentBlockhash mx)));
  '(numInstructions, n) ← lift (wrap_err errInstructionsLength (decodeShortvecLen data));
  data ← lift (slice_from data n);
  if decide (len data < numInstructions)
  then throw (errInstructionsTooLarge numInstructions (len data)) else
  _ ← modify (set_Instructions (replicate (Z.to_nat numInstructions) zeroInstruction));
  unmarshalInstructions (Z.to_nat numInstructions) 0 data.

Definition decodeLookupIndexes (data : bytes) : outcome message_err (list Z * bytes) :=
  '(count, n) ← wrap_err errIndexesLength (decodeShortvecLen data);
  data ← slice_from data n;
  if decide (len data < count) then Err (errIndexesTooLarge count (len data)) else
  rest ← slice_from data count;
  Ok (copy_into (zeros (Z.to_nat count)) data, rest).

Definition unmarshalLookup (i : nat) (data : bytes) : GoM Message message_err bytes :=
  if decide (len data < PublicKeyLength) then throw (errMissingAccountKey i) else
  _ ← modify (upd_lookup i (λ l, mkLookup (copy_into (AccountKey l) data) (WritableIndexes l) (ReadonlyIndexes l)));
  data ← lift (slice_from data PublicKeyLength);
  '(writable, data) ← lift (wrap_err (errWritableIndexes i) (decodeLookupIndexes data));
  _ ← modify (upd_lookup i (λ l, mkLookup (AccountKey l) writable (ReadonlyIndexes l)));
  '(readonly, data) ← lift (wrap_err (errReadonlyIndexes i) (decodeLookupIndexes data));
  _ ← modify (upd_lookup i (λ l, mkLookup (AccountKey l) (WritableIndexes l) readonly));
  mret data.

Fixpoint unmarshalLookupsLoop (k i : nat) (data : bytes) : GoM Message message_err bytes :=
  match k with
  | O => mret data
  | S k' => data ← unmarshalLookup i data; unmarshalLookupsLoop k' (S i) data
  end.

Definition unmarshalLookups (data : bytes) : GoM Message message_err bytes :=
  '(numLookups, n) ← lift (wrap_err errLookupsLength (decodeShortvecLen data));
  data ← lift (slice_from data n);
  _ ← modify (set_AddressTableLookups []);
  if decide (numLookups = 0) then mret data else
  if decide (len data / 34 < numLookups)
  then throw (errLookupsTooLarge numLookups (len data)) else
  _ ← modify (set_AddressTableLookups (replicate (Z.to_nat numLookups) zeroLookup));
  unmarshalLookupsLoop (Z.to_nat numLookups) 0 data.

(** Returns the number of bytes consumed. *)
Definition unmarshalBinaryConsumed (data : bytes) : GoM Message message_err Z :=
  if decide (len data = 0) then throw errEmpty else
  b ← lift (idx data 0);
  if decide (Z.land b messageVersionPrefix ≠ 0) then
    let v := Z.land b 127 in
    if decide (v ≠ 0) then throw (errUnsupportedVersion v) else
    _ ← modify (set_version MessageVersionV0);
    body ← lift (slice_from data 1);
    rest ← unmarshalBody body;
    rest ← unmarshalLookups rest;
    mret (len data - len rest)
  else
    _ ← modify (set_version MessageVersionLegacy);
    _ ← modify (set_AddressTableLookups []);
    rest ← unmarshalBody data;
    mret (len data - len rest).

Definition UnmarshalBinary (data : bytes) : GoM Message message_err unit :=
  _ ← unmarshalBinaryConsumed data; mret tt.

(** * Well-formedness *)

(** What Go's types guarantee of every value. *)
Definition is_u16 (v : Z) : Prop := 0 ≤ v < 65536.

Definition header_typed (h : MessageHeader) : Prop :=
  is_byte (NumRequiredSignatures h) ∧ is_byte (NumReadonlySignedAccounts h) ∧
  is_byte (NumReadonlyUnsignedAccounts h).

Definition ins_typed (ins : CompiledInstruction) : Prop :=
  is_u16 (ProgramIDIndex ins) ∧ Forall is_u16 (AccountIndexes ins) ∧ bytes_ok (InsData ins).

Definition lookup_typed (l : MessageAddressTableLookup) : Prop :=
  key_ok (AccountKey l) ∧ bytes_ok (WritableIndexes l) ∧ bytes_ok (ReadonlyIndexes l).

Definition message_typed (mx : Message) : Prop :=
  Forall key_ok (AccountKeys mx) ∧ header_typed (Header mx) ∧ key_ok (RecentBlockhash mx) ∧
  Forall ins_typed (Instructions mx) ∧ Forall lookup_typed (AddressTableLookups mx).

(** What the wire format can carry: u8 indexes, u16 lengths. *)
Definition fits {A} (l : list A) : Prop := len l ≤ 65535.

Definition ins_ok (ins : CompiledInstruction) : Prop :=
  is_byte (ProgramIDIndex ins) ∧ bytes_ok (AccountIndexes ins) ∧ bytes_ok (InsData ins) ∧
  fits (AccountIndexes ins) ∧ fits (InsData ins).

Definition lookup_ok (l : MessageAddressTableLookup) : Prop :=
  lookup_typed l ∧ fits (WritableIndexes l) ∧ fits (ReadonlyIndexes l).

Definition body_ok (mx : Message) : Prop :=
  Forall key_ok (AccountKeys mx) ∧ header_typed (Header mx) ∧ key_ok (RecentBlockhash mx) ∧
  Forall ins_ok (Instructions mx) ∧ fits (AccountKeys mx) ∧ fits (Instructions mx).

(** A message the wire format represents faithfully. A legacy message has no
    lookups, and its first byte, the signature count, must not look like a
    version prefix. *)
Definition message_ok (mx : Message) : Prop :=
  body_ok mx ∧
  ((version mx = MessageVersionLegacy ∧ AddressTableLookups mx = [] ∧
    NumRequiredSignatures (Header mx) < 128) ∨
   (version mx = MessageVersionV0 ∧ Forall lookup_ok (AddressTableLookups mx) ∧
    fits (AddressTableLookups mx))).

(** * The encoders append *)

(** The bytes of one instruction, of the body and of one lookup. *)
Definition insBytes (ins : CompiledInstruction) : bytes := appendInstruction [] ins.
Definition bodyBytes (mx : Message) : bytes := appendBody mx [].
Definition lookupBytes (l : MessageAddressTableLookup) : bytes := appendLookup [] l.

Lemma foldl_append {A} (f : bytes → A → bytes) l buf :
  (∀ b x, f b x = b ++ f [] x) → foldl f buf l = buf ++ concat (f [] <$> l).
Proof.
  intros Hf. revert buf. induction l as [|x l IH]; intros; simpl; [by rewrite app_nil_r|].
  rewrite IH, Hf. by rewrite <- app_assoc.
Qed.

Lemma foldl_append_u8 l buf :
  foldl (λ buf v, buf ++ [u8 v]) buf l = buf ++ (u8 <$> l).
Proof.
  revert buf. induction l as [|x l IH]; intros; simpl; [by rewrite app_nil_r|].
  rewrite IH. by rewrite <- app_assoc.
Qed.

Lemma foldl_append_app l (buf : bytes) : foldl (λ buf key, buf ++ key) buf l = buf ++ concat l.
Proof.
  revert buf. induction l as [|x l IH]; intros; simpl; [by rewrite app_nil_r|].
  rewrite IH. by rewrite <- app_assoc.
Qed.

Lemma appendInstruction_eq buf ins :
  appendInstruction buf ins =
    buf ++ [u8 (ProgramIDIndex ins)] ++ appendShortvecLen [] (len (AccountIndexes ins)) ++
    (u8 <$> AccountIndexes ins) ++ appendShortvecLen [] (len (InsData ins)) ++ InsData ins.
Proof.
  unfold appendInstruction. rewrite (appendShortvecLen_app _ (len (InsData ins))).
  rewrite foldl_append_u8, (appendShortvecLen_app (_ ++ _)). by rewrite <- !app_assoc.
Qed.

Lemma appendLookup_eq buf l :
  appendLookup buf l =
    buf ++ AccountKey l ++ appendShortvecLen [] (len (WritableIndexes l)) ++ WritableIndexes l ++
    appendShortvecLen [] (len (ReadonlyIndexes l)) ++ ReadonlyIndexes l.
Proof.
  unfold appendLookup. rewrite (appendShortvecLen_app _ (len (ReadonlyIndexes l))).
  rewrite (appendShortvecLen_app (_ ++ _)). by rewrite <- !app_assoc.
Qed.

Lemma insBytes_eq ins :
  insBytes ins = [u8 (ProgramIDIndex ins)] ++ appendShortvecLen [] (len (AccountIndexes ins)) ++
    (u8 <$> AccountIndexes ins) ++ appendShortvecLen [] (len (InsData ins)) ++ InsData ins.
Proof. unfold insBytes. by rewrite appendInstruction_eq. Qed.

Lemma lookupBytes_eq l :
  lookupBytes l = AccountKey l ++ appendShortvecLen [] (len (WritableIndexes l)) ++
    WritableIndexes l ++ appendShortvecLen [] (len (ReadonlyIndexes l)) ++ ReadonlyIndexes l.
Proof. unfold lookupBytes. by rewrite appendLookup_eq. Qed.

Lemma appendBody_eq mx buf :
  appendBody mx buf =
    buf ++ [NumRequiredSignatures (Header mx); NumReadonlySignedAccounts (Header mx);
            NumReadonlyUnsignedAccounts (Header mx)] ++
    appendShortvecLen [] (len (AccountKeys mx)) ++ concat (AccountKeys mx) ++
    RecentBlockhash mx ++ appendShortvecLen [] (len (Instructions mx)) ++
    concat (insBytes <$> Instructions mx).
Proof.
  unfold appendBody. rewrite foldl_append by
    (intros; unfold insBytes; by rewrite !appendInstruction_eq).
  rewrite (appendShortvecLen_app _ (len (Instructions mx))), foldl_append_app.
  rewrite (appendShortvecLen_app (_ ++ _)). by rewrite <- !app_assoc.
Qed.

Lemma bodyBytes_eq mx :
  bodyBytes mx =
    [NumRequiredSignatures (Header mx); NumReadonlySignedAccounts (Header mx);
     NumReadonlyUnsignedAccounts (Header mx)] ++
    appendShortvecLen [] (len (AccountKeys mx)) ++ concat (AccountKeys mx) ++
    RecentBlockhash mx ++ appendShortvecLen [] (len (Instructions mx)) ++
    concat (insBytes <$> Instructions mx).
Proof. unfold bodyBytes. by rewrite appendBody_eq. Qed.

Lemma MarshalBinary_legacy mx :
  version mx = MessageVersionLegacy → MarshalBinary mx = Ok (bodyBytes mx).
Proof. intros H. unfold MarshalBinary. by rewrite decide_True. Qed.

Lemma MarshalBinary_v0 mx :
  version mx = MessageVersionV0 →
  MarshalBinary mx = Ok ([128] ++ bodyBytes mx ++
    appendShortvecLen [] (len (AddressTableLookups mx)) ++
    concat (lookupBytes <$> AddressTableLookups mx)).
Proof.
  intros H. unfold MarshalBinary, marshalV0. rewrite H.
  rewrite decide_False by done. rewrite decide_True by done.
  change (u8 (MessageVersionV0 - 1)) with 0. rewrite decide_False by lia. f_equal.
  rewrite foldl_append by (intros; unfold lookupBytes; by rewrite !appendLookup_eq).
  rewrite appendShortvecLen_app, appendBody_eq, <- bodyBytes_eq.
  by rewrite <- !app_assoc.
Qed.

(** * Sizes *)

Lemma len_insBytes ins :
  len (insBytes ins) = 1 + shortvecLen (len (AccountIndexes ins)) + len (AccountIndexes ins) +
    shortvecLen (len (InsData ins)) + len (InsData ins).
Proof. rewrite insBytes_eq. lens. rewrite !len_append. lia. Qed.

Lemma len_lookupBytes l :
  len (AccountKey l) = PublicKeyLength →
  len (lookupBytes l) = PublicKeyLength +
    shortvecLen (len (WritableIndexes l)) + len (WritableIndexes l) +
    shortvecLen (len (ReadonlyIndexes l)) + len (ReadonlyIndexes l).
Proof. intros H. rewrite lookupBytes_eq. lens. rewrite !len_append, H. lia. Qed.

Lemma len_bodyBytes mx : Forall key_ok (AccountKeys mx) → len (bodyBytes mx) = bodySize mx.
Proof.
  intros Hk. rewrite bodyBytes_eq. unfold bodySize.
  rewrite foldl_sum. lens. rewrite !len_append, !len_concat, <- list_fmap_compose.
  rewrite (sumZ_const len _ 32) by (eapply Forall_impl; [exact Hk|apply len_key]).
  replace (len ∘ insBytes <$> Instructions mx) with
    ((λ ins, 1 + shortvecLen (len (AccountIndexes ins)) + len (AccountIndexes ins) +
       shortvecLen (len (InsData ins)) + len (InsData ins)) <$> Instructions mx)
    by (apply list_fmap_ext; intros; simpl; by rewrite len_insBytes).
  unfold PublicKeyLength. lia.
Qed.

Lemma len_v0Bytes mx :
  Forall key_ok (AccountKeys mx) → Forall lookup_typed (AddressTableLookups mx) →
  len ([128] ++ bodyBytes mx ++ appendShortvecLen [] (len (AddressTableLookups mx)) ++
    concat (lookupBytes <$> AddressTableLookups mx)) = marshalV0Size mx.
Proof.
  intros Hk Hl. unfold marshalV0Size. rewrite foldl_sum. lens.
  rewrite len_bodyBytes, len_append, len_concat, <- list_fmap_compose by done.
  replace (len ∘ lookupBytes <$> AddressTableLookups mx) with
    ((λ l, PublicKeyLength +
       shortvecLen (len (WritableIndexes l)) + len (WritableIndexes l) +
       shortvecLen (len (ReadonlyIndexes l)) + len (ReadonlyIndexes l)) <$> AddressTableLookups mx);
    [lia|].
  apply Forall_fmap_ext_1. eapply Forall_impl; [exact Hl|]. intros l [Hkey _].
  simpl. by rewrite len_lookupBytes by by apply len_key.
Qed.

(** * Loops of the decoder *)

Lemma copy_prefix (dst src rest : bytes) :
  length dst = length src → copy_into dst (src ++ rest) = src.
Proof.
  intros H. rewrite copy_into_eq by (rewrite length_app; lia).
  by rewrite H, take_app_length.
Qed.

Lemma readArrays_from {E} size ks rest pre i :
  0 ≤ size → Forall (λ k, len k = size) ks → len pre = Z.of_nat i * size →
  mapM (M:=outcome E) (λ i : nat, s ← slice_from (pre ++ concat ks ++ rest) (Z.of_nat i * size);
         mret (copy_into (zeros (Z.to_nat size)) s)) (seq i (length ks)) = Ok ks.
Proof.
  intros Hs Hks. revert pre i. induction Hks as [|k ks Hk Hks IH]; intros pre i Hpre; [done|].
  simpl. rewrite slice_from_app by lia. simpl.
  rewrite <- app_assoc, copy_prefix by (rewrite length_zeros; unfold len in *; lia).
  rewrite (app_assoc pre), (IH (pre ++ k) (S i)) by (rewrite len_app; lia). done.
Qed.

Lemma readArrays_concat {E} size n ks rest :
  0 ≤ size → Forall (λ k, len k = size) ks → n = len ks →
  readArrays (E:=E) size n (concat ks ++ rest) = Ok ks.
Proof.
  intros Hs Hks ->. unfold readArrays. rewrite to_nat_len.
  apply (readArrays_from size ks rest [] 0); done.
Qed.

(** Enough bytes always split into [n] arrays. *)
Lemma chunks_exist (size : Z) (n : nat) (data : bytes) :
  0 ≤ size → Z.of_nat n * size ≤ len data →
  ∃ ks rest, data = concat ks ++ rest ∧ length ks = n ∧ Forall (λ k, len k = size) ks.
Proof.
  intros Hs. revert data. induction n as [|n IH]; intros data Hd; [by exists [], data|].
  destruct (IH (drop (Z.to_nat size) data)) as (ks & rest & Heq & Hlen & Hall).
  { rewrite len_drop by nia. lia. }
  exists (take (Z.to_nat size) data :: ks), rest. simpl. split_and!.
  - by rewrite <- app_assoc, <- Heq, take_drop.
  - lia.
  - constructor; [apply len_take; nia | done].
Qed.

Lemma readIndexes_from {E} (xs rest pre : bytes) i :
  len pre = Z.of_nat i → bytes_ok xs →
  mapM (M:=outcome E) (λ j : nat, b ← idx (pre ++ xs ++ rest) (Z.of_nat j); mret (u16 b))
    (seq i (length xs)) = Ok xs.
Proof.
  intros Hpre Hxs. revert pre i Hpre.
  induction Hxs as [|x xs Hx Hxs IH]; intros pre i Hpre; [done|]. simpl.
  rewrite (idx_ok _ _ x); [|lia|].
  2: { rewrite Nat2Z.id, list_lookup_middle; [done|]. unfold len in *. lia. }
  simpl. change (x :: xs ++ rest) with ([x] ++ xs ++ rest). rewrite (app_assoc pre).
  rewrite (IH (pre ++ [x]) (S i)) by (rewrite len_app, len_cons, len_nil; lia).
  simpl. unfold u16, is_byte in *. by rewrite Z.mod_small by lia.
Qed.

Lemma readIndexes_app {E} n xs rest :
  n = len xs → bytes_ok xs → readIndexes (E:=E) n (xs ++ rest) = Ok xs.
Proof.
  intros -> Hxs. unfold readIndexes. rewrite to_nat_len.
  apply (readIndexes_from xs rest [] 0); done.
Qed.

Lemma fmap_u8_bytes l : bytes_ok l → u8 <$> l = l.
Proof.
  induction 1 as [|x l Hx _ IH]; [done|]. rewrite fmap_cons, IH.
  unfold is_byte in Hx. by rewrite u8_small.
Qed.

(** * Decoding what was encoded *)

Lemma upd_ins_compose i f g mx : upd_ins i f (upd_ins i g mx) = upd_ins i (f ∘ g) mx.
Proof. unfold upd_ins, set_Instructions. simpl. by rewrite list_alter_alter_eq. Qed.

Lemma upd_lookup_compose i f g mx : upd_lookup i f (upd_lookup i g mx) = upd_lookup i (f ∘ g) mx.
Proof. unfold upd_lookup, set_AddressTableLookups. simpl. by rewrite list_alter_alter_eq. Qed.

Lemma decode_len {A} (l : list A) rest {F} (g : shortvec_err → F) :
  fits l →
  wrap_err g (decodeShortvecLen (appendShortvecLen [] (len l) ++ rest)) =
    Ok (len l, len (appendShortvecLen [] (len l))).
Proof.
  unfold fits. intros. rewrite decode_append, len_append by len_lia. done.
Qed.

Lemma unmarshalInstruction_ok i ins rest mx :
  ins_ok ins →
  unmarshalInstruction i (insBytes ins ++ rest) mx = (Ok rest, upd_ins i (λ _, ins) mx).
Proof.
  intros (Hp & Ha & Hd & Hfa & Hfd). rewrite insBytes_eq, fmap_u8_bytes, <- !app_assoc by done.
  unfold is_byte in Hp. rewrite u8_small by done. unfold unmarshalInstruction.
  rewrite decide_False by len_lia.
  erewrite run_lift by (by apply idx_ok). rewrite run_modify.
  erewrite run_lift by (by apply slice_from_app).
  erewrite run_lift by (by apply decode_len). cbv beta iota.
  erewrite run_lift by (by apply slice_from_app).
  rewrite decide_False by len_lia.
  erewrite run_lift by (by apply readIndexes_app). rewrite run_modify.
  erewrite run_lift by (by apply slice_from_app).
  erewrite run_lift by (by apply decode_len). cbv beta iota.
  erewrite run_lift by (by apply slice_from_app).
  rewrite decide_False by len_lia.
  erewrite run_lift by (by apply slice_to_app). rewrite run_modify.
  unfold lift. rewrite slice_from_app by done. rewrite !upd_ins_compose. f_equal.
  unfold upd_ins. f_equal. apply list_alter_ext; [|done]. intros x _. simpl.
  unfold u16. rewrite Z.mod_small by lia. by destruct ins.
Qed.

(** Overwriting element [i] of [done ++ replicate (S k) z]. *)
Lemma alter_replicate {A} (done : list A) (z x : A) k :
  alter (λ _, x) (length done) (done ++ replicate (S k) z) = (done ++ [x]) ++ replicate k z.
Proof.
  rewrite <- app_assoc. simpl. induction done as [|d done IH]; [done|]. simpl. f_equal. apply IH.
Qed.

Lemma unmarshalInstructions_ok inss done rest mx :
  Forall ins_ok inss →
  Instructions mx = done ++ replicate (length inss) zeroInstruction →
  unmarshalInstructions (length inss) (length done) (concat (insBytes <$> inss) ++ rest) mx =
    (Ok rest, set_Instructions (done ++ inss) mx).
Proof.
  intros Hall. revert done mx. induction Hall as [|ins inss Hins Hall IH]; intros done mx Hmx.
  - simpl in Hmx. rewrite app_nil_r in *. simpl. destruct mx; simpl in *. by subst.
  - rewrite fmap_cons. simpl. rewrite <- app_assoc.
    erewrite run_bind by (by apply unmarshalInstruction_ok).
    replace (S (length done)) with (length (done ++ [ins])) by (rewrite length_app; simpl; lia).
    rewrite IH.
    + f_equal. unfold upd_ins, set_Instructions. simpl. f_equal. by rewrite <- app_assoc.
    + unfold upd_ins, set_Instructions. simpl. rewrite Hmx. apply alter_replicate.
Qed.

Lemma len_concat_ge (l : list bytes) : Forall (λ x, 1 ≤ len x) l → len l ≤ len (concat l).
Proof. induction 1; simpl; len_lia. Qed.

Lemma len_insBytes_ge l : len l ≤ len (concat (insBytes <$> l)).
Proof.
  rewrite <- (len_fmap insBytes l). apply len_concat_ge.
  apply Forall_fmap, Forall_true. intros x. simpl. rewrite len_insBytes.
  pose proof (shortvecLen_pos (len (AccountIndexes x))).
  pose proof (shortvecLen_pos (len (InsData x))). len_lia.
Qed.

(** The receiver after the body of [mx] has been decoded into [mx0]. *)
Definition with_body (mx mx0 : Message) : Message :=
  mkMessage (version mx0) (AccountKeys mx) (Header mx) (RecentBlockhash mx) (Instructions mx)
    (AddressTableLookups mx0).

Lemma unmarshalBody_ok mx mx0 rest :
  body_ok mx → len (RecentBlockhash mx0) = 32 →
  unmarshalBody (bodyBytes mx ++ rest) mx0 = (Ok rest, with_body mx mx0).
Proof.
  intros (Hkeys & Hh & Hbh & Hins & Hfk & Hfi) Hbh0.
  rewrite bodyBytes_eq, <- !app_assoc. unfold unmarshalBody.
  rewrite decide_False by len_lia.
  do 3 (erewrite run_lift by (by apply idx_ok)). rewrite run_modify.
  erewrite run_lift by (by apply slice_from_app).
  erewrite run_lift by (by apply decode_len). cbv beta iota.
  erewrite run_lift by (by apply slice_from_app).
  assert (Forall (λ k, len k = PublicKeyLength) (AccountKeys mx)) as Hk32
    by (eapply Forall_impl; [done|apply len_key]).
  assert (len (concat (AccountKeys mx)) = len (AccountKeys mx) * PublicKeyLength) as Hck
    by (rewrite len_concat, (sumZ_const len _ PublicKeyLength) by done; lia).
  rewrite decide_False.
  2: { rewrite len_app, Hck. apply Z.nlt_ge. unfold PublicKeyLength in *.
       apply Z.div_le_lower_bound; len_lia. }
  erewrite run_lift by (by apply readArrays_concat). rewrite run_modify.
  erewrite run_lift by (by apply slice_from_app). rewrite run_get.
  cbn [RecentBlockhash set_AccountKeys set_Header]. rewrite decide_False by (rewrite len_app, (len_key _ Hbh); len_lia).
  rewrite run_modify.
  erewrite run_lift by (apply slice_from_app; by rewrite Hbh0, len_key).
  erewrite run_lift by (by apply decode_len). cbv beta iota.
  erewrite run_lift by (by apply slice_from_app).
  rewrite decide_False by (rewrite len_app; pose proof (len_insBytes_ge (Instructions mx)); len_lia).
  rewrite run_modify, to_nat_len.
  rewrite (unmarshalInstructions_ok _ []) by done.
  unfold with_body, set_Instructions, set_RecentBlockhash. simpl. do 2 f_equal.
  - destruct mx as [? ? []]; done.
  - apply copy_prefix. destruct Hbh. unfold len in *. lia.
Qed.

Lemma decodeLookupIndexes_ok xs rest :
  fits xs → decodeLookupIndexes (appendShortvecLen [] (len xs) ++ xs ++ rest) = Ok (xs, rest).
Proof.
  intros. unfold decodeLookupIndexes.
  erewrite obind_ok by (by apply decode_len). cbv beta iota.
  erewrite obind_ok by (by apply slice_from_app).
  rewrite decide_False by len_lia.
  erewrite obind_ok by (by apply slice_from_app).
  rewrite copy_prefix; [done|]. rewrite length_zeros, to_nat_len. done.
Qed.

Lemma unmarshalLookup_ok i l l0 rest mx :
  lookup_ok l → AddressTableLookups mx !! i = Some l0 → len (AccountKey l0) = 32 →
  unmarshalLookup i (lookupBytes l ++ rest) mx = (Ok rest, upd_lookup i (λ _, l) mx).
Proof.
  intros ((Hk & Hw & Hr) & Hfw & Hfr) Hi Hl0. rewrite lookupBytes_eq, <- !app_assoc.
  unfold unmarshalLookup. rewrite decide_False by (rewrite len_app, (len_key _ Hk); unfold PublicKeyLength; len_lia).
  rewrite run_modify.
  erewrite run_lift by (apply slice_from_app; by rewrite len_key).
  erewrite run_lift by (by rewrite decodeLookupIndexes_ok). cbv beta iota. rewrite run_modify.
  erewrite run_lift by (by rewrite decodeLookupIndexes_ok). cbv beta iota. rewrite run_modify.
  unfold mret, gom_ret. f_equal. rewrite !upd_lookup_compose.
  unfold upd_lookup. f_equal. apply list_alter_ext; [|done]. intros x Hx. simpl.
  simplify_eq. rewrite copy_prefix by (destruct Hk; unfold len in *; lia). by destruct l.
Qed.

Lemma unmarshalLookupsLoop_ok ls done rest mx :
  Forall lookup_ok ls →
  AddressTableLookups mx = done ++ replicate (length ls) zeroLookup →
  unmarshalLookupsLoop (length ls) (length done) (concat (lookupBytes <$> ls) ++ rest) mx =
    (Ok rest, set_AddressTableLookups (done ++ ls) mx).
Proof.
  intros Hall. revert done mx. induction Hall as [|l ls Hl Hall IH]; intros done mx Hmx.
  - simpl in Hmx. rewrite app_nil_r in *. simpl. destruct mx; simpl in *. by subst.
  - rewrite fmap_cons. simpl. rewrite <- app_assoc.
    erewrite run_bind by (apply (unmarshalLookup_ok _ _ zeroLookup); [done| |done];
      rewrite Hmx; simpl; by rewrite list_lookup_middle).
    replace (S (length done)) with (length (done ++ [l])) by (rewrite length_app; simpl; lia).
    rewrite IH.
    + f_equal. unfold upd_lookup, set_AddressTableLookups. simpl. f_equal. by rewrite <- app_assoc.
    + unfold upd_lookup, set_AddressTableLookups. simpl. rewrite Hmx. apply alter_replicate.
Qed.

Lemma len_lookups_ge ls :
  Forall lookup_ok ls → 34 * len ls ≤ len (concat (lookupBytes <$> ls)).
Proof.
  induction 1 as [|l ls ((Hk & _) & _) _ IH]; [done|].
  rewrite fmap_cons. simpl. lens. rewrite len_lookupBytes by by apply len_key.
  pose proof (shortvecLen_pos (len (WritableIndexes l))).
  pose proof (shortvecLen_pos (len (ReadonlyIndexes l))). unfold PublicKeyLength. len_lia.
Qed.

Lemma unmarshalLookups_ok ls rest mx :
  Forall lookup_ok ls → fits ls →
  unmarshalLookups (appendShortvecLen [] (len ls) ++ concat (lookupBytes <$> ls) ++ rest) mx =
    (Ok rest, set_AddressTableLookups ls mx).
Proof.
  intros Hall Hf. unfold unmarshalLookups.
  erewrite run_lift by (by apply decode_len). cbv beta iota.
  erewrite run_lift by (by apply slice_from_app). rewrite run_modify.
  case_decide as H0.
  { apply len_0 in H0 as ->. done. }
  rewrite decide_False.
  2: { apply Z.nlt_ge, Z.div_le_lower_bound; [lia|]. pose proof (len_lookups_ge ls Hall). len_lia. }
  rewrite run_modify, to_nat_len.
  by rewrite (unmarshalLookupsLoop_ok ls []).
Qed.

(** Decoding an encoded message, whatever the receiver held before and
    whatever follows, restores it and consumes exactly its bytes. *)
Lemma unmarshal_marshal mx mx0 rest :
  message_ok mx → len (RecentBlockhash mx0) = 32 →
  ∃ out, MarshalBinary mx = Ok out ∧
    unmarshalBinaryConsumed (out ++ rest) mx0 = (Ok (len out), mx).
Proof.
  intros [Hbody [(Hv & Hl & Hsig)|(Hv & Hl & Hfl)]] Hbh.
  - rewrite MarshalBinary_legacy by done. eexists; split; [done|].
    assert (∃ tl, bodyBytes mx ++ rest = NumRequiredSignatures (Header mx) :: tl) as [tl Htl]
      by (rewrite bodyBytes_eq; simpl; eauto).
    pose proof Hbody as (_ & (Hn & _) & _). unfold is_byte in Hn.
    unfold unmarshalBinaryConsumed. rewrite decide_False by (rewrite Htl; len_lia).
    erewrite run_lift by (rewrite Htl; by apply idx_ok).
    unfold messageVersionPrefix. rewrite land_80 by done.
    rewrite (decide_True (P:=NumRequiredSignatures (Header mx) < 128)), decide_False by (done || lia).
    rewrite !run_modify.
    erewrite run_bind by (by apply unmarshalBody_ok).
    unfold mret, gom_ret. do 2 f_equal; [len_lia|].
    destruct mx; simpl in *; unfold with_body; simpl; by subst.
  - rewrite MarshalBinary_v0 by done. eexists; split; [done|]. rewrite <- !app_assoc.
    unfold unmarshalBinaryConsumed. rewrite decide_False by len_lia.
    erewrite run_lift by (by apply idx_ok).
    change (Z.land 128 messageVersionPrefix) with 128. change (Z.land 128 127) with 0.
    rewrite decide_True, decide_False by lia.
    rewrite run_modify. erewrite run_lift by (by apply slice_from_app).
    erewrite run_bind by (by apply unmarshalBody_ok).
    erewrite run_bind by (by apply unmarshalLookups_ok).
    unfold mret, gom_ret. do 2 f_equal; [len_lia|].
    destruct mx; simpl in *; unfold with_body; simpl; by subst.
Qed.

(** * Whatever decodes was encoded *)

(** A length prefix, read in the middle of a decoder. *)
Lemma wp_decode {S E B} (g : shortvec_err → E) data (f : Z * Z → GoM S E B) Q (R : E → S → Prop) s :
  bytes_ok data → (∀ e, R (g e) s) →
  (∀ v tl, 0 ≤ v ≤ 65535 → bytes_ok tl → data = appendShortvecLen [] v ++ tl →
     wp (f (v, len (appendShortvecLen [] v))) Q R s) →
  wp (lift (wrap_err g (decodeShortvecLen data)) ≫= f) Q R s.
Proof.
  intros Hd HR Hf. apply wp_bind, wp_lift, owp_wrap.
  eapply owp_mono; [by apply decode_canonical| |done].
  intros [v k] (Hv & Hk & Hkl & Heq). rewrite Hk, <- len_append.
  eapply Hf; [done| |exact Heq]. by apply Forall_drop.
Qed.

Lemma unmarshalInstruction_wp i data mx :
  bytes_ok data →
  wp (unmarshalInstruction i data)
    (λ rest mx', ∃ ins, ins_ok ins ∧ bytes_ok rest ∧ data = insBytes ins ++ rest ∧
       mx' = upd_ins i (λ _, ins) mx)
    (λ _ _, True) mx.
Proof.
  intros Hd. unfold unmarshalInstruction. case_decide as H0; [by apply wp_throw|].
  destruct data as [|b tl]; [done|]. inversion Hd as [|?? Hb Htl]; subst. unfold is_byte in Hb.
  eapply wp_run_lift; [by apply idx_ok|]. apply wp_run_modify.
  eapply wp_run_lift; [by apply (slice_from_app [b])|].
  apply wp_decode; [done..|]. intros na tl1 Hna Htl1 ->. cbv beta iota.
  eapply wp_run_lift; [by apply slice_from_app|].
  case_decide as Hl1; [by apply wp_throw|].
  destruct (split_at tl1 na) as (accs & tl2 & -> & Hla & Haccs & Htl2); [done|lia|].
  eapply wp_run_lift; [by apply readIndexes_app|]. apply wp_run_modify.
  eapply wp_run_lift; [by apply slice_from_app|].
  apply wp_decode; [done..|]. intros nd tl3 Hnd Htl3 ->. cbv beta iota.
  eapply wp_run_lift; [by apply slice_from_app|].
  case_decide as Hl2; [by apply wp_throw|].
  destruct (split_at tl3 nd) as (dat & rest & -> & Hld & Hdat & Hrest); [done|lia|].
  eapply wp_run_lift; [by apply slice_to_app|]. apply wp_run_modify.
  apply wp_lift. rewrite slice_from_app by done.
  exists (mkCompiledInstruction b accs dat). rewrite insBytes_eq. simpl.
  rewrite fmap_u8_bytes, u8_small, Hla, Hld, <- !app_assoc by done.
  unfold ins_ok, fits. simpl. split_and!; try done; try lia.
  rewrite !upd_ins_compose. unfold upd_ins. f_equal. apply list_alter_ext; [|done].
  intros x _. simpl. unfold u16. by rewrite Z.mod_small by lia.
Qed.

Lemma unmarshalInstructions_wp k done data mx :
  bytes_ok data → Instructions mx = done ++ replicate k zeroInstruction →
  wp (unmarshalInstructions k (length done) data)
    (λ rest mx', ∃ inss, length inss = k ∧ Forall ins_ok inss ∧ bytes_ok rest ∧
       data = concat (insBytes <$> inss) ++ rest ∧ mx' = set_Instructions (done ++ inss) mx)
    (λ _ _, True) mx.
Proof.
  revert done data mx. induction k as [|k IH]; intros done data mx Hd Hmx; simpl.
  - apply wp_ret. exists []. rewrite app_nil_r in *. destruct mx; simpl in *. by subst.
  - apply wp_bind. eapply wp_mono; [by apply unmarshalInstruction_wp| |done].
    intros rest mx' (ins & Hins & Hrest & -> & ->).
    replace (S (length done)) with (length (done ++ [ins])) by (rewrite length_app; simpl; lia).
    eapply wp_mono; [apply IH; [done|]| |done].
    + unfold upd_ins, set_Instructions. simpl. rewrite Hmx. apply alter_replicate.
    + intros rest' mx'' (inss & Hlen & Hall & Hrest' & -> & ->). exists (ins :: inss).
      rewrite fmap_cons. simpl. rewrite <- !app_assoc. split_and!; try done.
      * lia.
      * by constructor.
Qed.

Lemma unmarshalBody_wp data mx0 :
  bytes_ok data → len (RecentBlockhash mx0) = 32 →
  wp (unmarshalBody data)
    (λ rest mx', ∃ mx, body_ok mx ∧ bytes_ok rest ∧ data = bodyBytes mx ++ rest ∧ mx' = with_body mx mx0)
    (λ _ _, True) mx0.
Proof.
  intros Hd Hbh0. unfold unmarshalBody. case_decide as H0; [by apply wp_throw|].
  destruct (split_at data 3) as (hdr & d1 & -> & Hhdr & Hbh & Hd1); [done|lia|].
  destruct hdr as [|b0 [|b1 [|b2 [|]]]]; try (unfold len in Hhdr; simpl in Hhdr; lia).
  do 3 (eapply wp_run_lift; [by apply idx_ok|]). apply wp_run_modify.
  eapply wp_run_lift; [by apply slice_from_app|].
  apply wp_decode; [done..|]. intros nk d2 Hnk Hd2 ->. cbv beta iota.
  eapply wp_run_lift; [by apply slice_from_app|]. unfold PublicKeyLength.
  case_decide as Hl1; [by apply wp_throw|]. apply Z.nlt_ge in Hl1.
  destruct (chunks_exist 32 (Z.to_nat nk) d2) as (keys & d3 & -> & Hlk & Hkeys); [lia|dlia|].
  apply Forall_app in Hd2 as [Hck Hd3]. rewrite Forall_concat in Hck.
  eapply wp_run_lift; [apply readArrays_concat; [lia|done|unfold len; lia]|]. apply wp_run_modify.
  eapply wp_run_lift.
  { apply slice_from_app. rewrite len_concat, (sumZ_const len _ 32) by done. unfold len. lia. }
  apply wp_run_get. cbn [RecentBlockhash set_AccountKeys set_Header]. rewrite Hbh0.
  case_decide as Hl2; [by apply wp_throw|]. apply wp_run_modify.
  destruct (split_at d3 32) as (bh & d4 & -> & Hlbh & Hbhok & Hd4); [done|lia|].
  eapply wp_run_lift; [by apply slice_from_app|].
  apply wp_decode; [done..|]. intros ni d5 Hni Hd5 ->. cbv beta iota.
  eapply wp_run_lift; [by apply slice_from_app|].
  case_decide as Hl3; [by apply wp_throw|]. apply wp_run_modify.
  eapply wp_mono; [by apply (unmarshalInstructions_wp _ [])| |done].
  intros rest mx' (inss & Hlen & Hall & Hrest & -> & ->).
  exists (mkMessage 0 keys (mkMessageHeader b0 b1 b2) bh inss []).
  rewrite copy_prefix by (unfold len in *; lia).
  assert (len keys = nk) as <- by (unfold len; lia).
  assert (len inss = ni) as <- by (unfold len; lia).
  rewrite bodyBytes_eq. simpl. rewrite <- !app_assoc. split_and!; try done.
  unfold body_ok, header_typed, fits. simpl.
  apply Forall_cons in Hbh as [? [? [? _]%Forall_cons]%Forall_cons]. split_and!; try done; try lia.
  - apply Forall_forall. intros k Hk. rewrite Forall_forall in Hkeys, Hck.
    split; [specialize (Hkeys k Hk); unfold len in Hkeys; lia | by apply Hck].
  - split; [unfold len in Hlbh; lia | done].
Qed.

(** One index list of a lookup, read in the middle of a decoder. *)
Lemma wp_indexes {B} (g : message_err → message_err) data
    (f : list Z * bytes → GoM Message message_err B) Q (R : message_err → Message → Prop) s :
  bytes_ok data → (∀ e s, R e s) →
  (∀ xs tl, fits xs → bytes_ok xs → bytes_ok tl →
     data = appendShortvecLen [] (len xs) ++ xs ++ tl → wp (f (xs, tl)) Q R s) →
  wp (lift (wrap_err g (decodeLookupIndexes data)) ≫= f) Q R s.
Proof.
  intros Hd HR Hf. apply wp_bind, wp_lift, owp_wrap.
  unfold decodeLookupIndexes. apply owp_bind, owp_wrap.
  eapply owp_mono; [by apply decode_canonical| |done].
  intros [v k] (Hv & Hk & Hkl & Heq). set (tl := drop (Z.to_nat k) data) in *.
  assert (bytes_ok tl) as Htl by (subst tl; by apply Forall_drop). clearbody tl. subst data k.
  rewrite slice_from_app by by rewrite len_append. unfold mbind at 1, outcome_bind at 1.
  case_decide as Hl; [apply HR|].
  destruct (split_at tl v) as (xs & tl' & -> & Hlx & Hxs & Htl'); [done|lia|].
  rewrite slice_from_app by done. simpl.
  rewrite copy_prefix by (rewrite length_zeros; unfold len in *; lia). subst v.
  apply Hf; unfold fits; try done. lia.
Qed.

Lemma unmarshalLookup_wp i data mx l0 :
  bytes_ok data → AddressTableLookups mx !! i = Some l0 → len (AccountKey l0) = 32 →
  wp (unmarshalLookup i data)
    (λ rest mx', ∃ l, lookup_ok l ∧ bytes_ok rest ∧ data = lookupBytes l ++ rest ∧
       mx' = upd_lookup i (λ _, l) mx)
    (λ _ _, True) mx.
Proof.
  intros Hd Hi Hl0. unfold unmarshalLookup, PublicKeyLength. case_decide as H0; [by apply wp_throw|].
  destruct (split_at data 32) as (key & d1 & -> & Hlk & Hkey & Hd1); [done|lia|].
  apply wp_run_modify. eapply wp_run_lift; [by apply slice_from_app|].
  apply wp_indexes; [done..|]. intros ws d2 Hfw Hws Hd2 ->. cbv beta iota. apply wp_run_modify.
  apply wp_indexes; [done..|]. intros rs rest Hfr Hrs Hrest ->. cbv beta iota. apply wp_run_modify.
  apply wp_ret. exists (mkLookup key ws rs). rewrite lookupBytes_eq. simpl. rewrite <- !app_assoc.
  split_and!; try done.
  - split; [|done]. split_and!; try done. simpl. split; [unfold len in *; lia|done].
  - rewrite !upd_lookup_compose. unfold upd_lookup. f_equal. apply list_alter_ext; [|done].
    intros x Hx. simpl. simplify_eq. rewrite copy_prefix by (unfold len in *; lia). done.
Qed.

Lemma unmarshalLookupsLoop_wp k done data mx :
  bytes_ok data → AddressTableLookups mx = done ++ replicate k zeroLookup →
  wp (unmarshalLookupsLoop k (length done) data)
    (λ rest mx', ∃ ls, length ls = k ∧ Forall lookup_ok ls ∧ bytes_ok rest ∧
       data = concat (lookupBytes <$> ls) ++ rest ∧ mx' = set_AddressTableLookups (done ++ ls) mx)
    (λ _ _, True) mx.
Proof.
  revert done data mx. induction k as [|k IH]; intros done data mx Hd Hmx; simpl.
  - apply wp_ret. exists []. rewrite app_nil_r in *. destruct mx; simpl in *. by subst.
  - apply wp_bind. eapply wp_mono; [apply (unmarshalLookup_wp _ _ _ zeroLookup); [done| |done]| |done].
    { rewrite Hmx. simpl. by rewrite list_lookup_middle. }
    intros rest mx' (l & Hl & Hrest & -> & ->).
    replace (S (length done)) with (length (done ++ [l])) by (rewrite length_app; simpl; lia).
    eapply wp_mono; [apply IH; [done|]| |done].
    + unfold upd_lookup, set_AddressTableLookups. simpl. rewrite Hmx. apply alter_replicate.
    + intros rest' mx'' (ls & Hlen & Hall & Hrest' & -> & ->). exists (l :: ls).
      rewrite fmap_cons. simpl. rewrite <- !app_assoc. split_and!; try done.
      * lia.
      * by constructor.
Qed.

Lemma unmarshalLookups_wp data mx :
  bytes_ok data →
  wp (unmarshalLookups data)
    (λ rest mx', ∃ ls, Forall lookup_ok ls ∧ fits ls ∧ bytes_ok rest ∧
       data = appendShortvecLen [] (len ls) ++ concat (lookupBytes <$> ls) ++ rest ∧
       mx' = set_AddressTableLookups ls mx)
    (λ _ _, True) mx.
Proof.
  intros Hd. unfold unmarshalLookups.
  apply wp_decode; [done..|]. intros n d1 Hn Hd1 ->. cbv beta iota.
  eapply wp_run_lift; [by apply slice_from_app|]. apply wp_run_modify.
  case_decide as H0. { apply wp_ret. exists []. subst. by unfold fits. }
  case_decide as Hl; [by apply wp_throw|]. apply wp_run_modify.
  eapply wp_mono; [by apply (unmarshalLookupsLoop_wp _ [])| |done].
  intros rest mx' (ls & Hlen & Hall & Hrest & -> & ->). exists ls.
  assert (len ls = n) as <- by (unfold len; lia). split_and!; try done. unfold fits. lia.
Qed.

Lemma land_prefix b :
  is_byte b → Z.land b messageVersionPrefix ≠ 0 → Z.land b 127 = 0 → b = 128.
Proof.
  intros Hb. pose proof Hb as Hb'. unfold is_byte in Hb'. unfold messageVersionPrefix.
  rewrite land_80, land_7f by (done || lia). case_decide; [done|]. intros _ Hm. dlia.
Qed.

Lemma land_no_prefix b :
  is_byte b → Z.land b messageVersionPrefix = 0 → b < 128.
Proof.
  intros Hb. unfold messageVersionPrefix. rewrite land_80 by done. case_decide; [done|]. lia.
Qed.

(** Decoding any bytes: no panic, and on success the message is one the
    format represents, its encoding is exactly the bytes consumed, and nothing
    of the receiver's old contents is left. *)
Lemma unmarshalBinaryConsumed_wp data mx0 :
  bytes_ok data → len (RecentBlockhash mx0) = 32 →
  wp (unmarshalBinaryConsumed data)
    (λ n mx, message_ok mx ∧ ∃ out rest, MarshalBinary mx = Ok out ∧ data = out ++ rest ∧
       bytes_ok rest ∧ n = len out)
    (λ _ _, True) mx0.
Proof.
  intros Hd Hbh. unfold unmarshalBinaryConsumed. case_decide as H0; [by apply wp_throw|].
  destruct data as [|b tl]; [done|]. inversion Hd as [|?? Hb Htl]; subst.
  eapply wp_run_lift; [by apply idx_ok|]. case_decide as Hv.
  - cbv zeta. case_decide as Hv0; [by apply wp_throw|].
    assert (b = 128) as -> by (apply land_prefix; [done|done|lia]). apply wp_run_modify.
    eapply wp_run_lift; [by apply (slice_from_app [128])|].
    apply wp_bind. eapply wp_mono; [by apply unmarshalBody_wp| |done].
    intros rest mx' (mx & Hmx & Hrest & -> & ->).
    apply wp_bind. eapply wp_mono; [by apply unmarshalLookups_wp| |done].
    intros rest' mx'' (ls & Hls & Hfl & Hrest' & -> & ->). apply wp_ret.
    set (out := set_AddressTableLookups _ _).
    assert (bodyBytes out = bodyBytes mx) as Hout by (by rewrite !bodyBytes_eq).
    assert (body_ok out) as Hbok by done. split.
    + split; [done|]. right. by subst out.
    + rewrite MarshalBinary_v0 by done. eexists _, rest'. split; [done|].
      rewrite Hout. simpl. split_and!; [by rewrite <- !app_assoc|done|len_lia].
  - apply land_no_prefix in Hv; [|done]. apply wp_run_modify, wp_run_modify.
    apply wp_bind. eapply wp_mono; [by apply unmarshalBody_wp| |done].
    intros rest mx' (mx & Hmx & Hrest & Heq & ->). apply wp_ret.
    set (out := with_body _ _).
    assert (bodyBytes out = bodyBytes mx) as Hout by (by rewrite !bodyBytes_eq).
    assert (body_ok out) as Hbok by done. split.
    + split; [done|]. left. split_and!; try done.
      assert (NumRequiredSignatures (Header mx) = b); [|by subst].
      rewrite bodyBytes_eq in Heq. by injection Heq.
    + rewrite MarshalBinary_legacy by done. eexists _, rest. split; [done|].
      rewrite Hout. split_and!; [done|done|]. rewrite Heq. len_lia.
Qed.

(** * Roles *)

Lemma Signers_eq mx :
  0 ≤ NumRequiredSignatures (Header mx) →
  Signers mx = take (Z.to_nat (NumRequiredSignatures (Header mx))) (AccountKeys mx).
Proof.
  intros Hn. unfold Signers. set (n := NumRequiredSignatures (Header mx)) in *.
  set (m := if decide _ then _ else _).
  assert (Z.to_nat m = Nat.min (Z.to_nat n) (length (AccountKeys mx))) as ->
    by (subst m; unfold len; case_decide; lia).
  rewrite copy_into_eq by (rewrite length_replicate, length_take; lia).
  rewrite length_replicate, take_take.
  destruct (decide (Z.to_nat n ≤ length (AccountKeys mx))%nat).
  - f_equal. lia.
  - rewrite !take_ge by lia. done.
Qed.

Lemma firstIndex_spec account keys i :
  match firstIndex account keys i with
  | Some j => ∃ k : nat, j = i + Z.of_nat k ∧ keys !! k = Some account ∧ account ∉ take k keys
  | None => account ∉ keys
  end.
Proof.
  revert i. induction keys as [|key keys IH]; intros i; simpl; [set_solver|].
  case_decide as Heq.
  - exists 0%nat. subst. split_and!; [lia|done|set_solver].
  - specialize (IH (i + 1)). destruct (firstIndex account keys (i + 1)) as [j|]; [|set_solver].
    destruct IH as (k & -> & Hk & Hnin). exists (S k). split_and!; [lia|done|]. set_solver.
Qed.

(** The four classes of static keys, in message order. *)
Definition metas_of (w s : bool) (keys : list PublicKey) : list AccountMeta :=
  (λ k, mkAccountMeta k w s) <$> keys.

Lemma imap_const_range {A B} (f : nat → A → B) (g : A → B) (l : list A) off :
  (∀ i x, l !! i = Some x → f (off + i)%nat x = g x) →
  imap (λ i x, f (off + i)%nat x) l = g <$> l.
Proof.
  intros H. apply list_eq. intros i. rewrite list_lookup_imap, list_lookup_fmap.
  destruct (l !! i) eqn:E; simpl; [|done]. f_equal. by apply H.
Qed.

Lemma imap_range {A B} (f : nat → A → B) (l1 l2 : list A) :
  imap f (l1 ++ l2) = imap f l1 ++ imap (λ i x, f (length l1 + i)%nat x) l2.
Proof. rewrite imap_app. done. Qed.

Lemma roles_partition_aux mx ws rs wn rn :
  AccountKeys mx = ws ++ rs ++ wn ++ rn →
  NumRequiredSignatures (Header mx) = len ws + len rs →
  NumReadonlySignedAccounts (Header mx) = len rs →
  NumReadonlyUnsignedAccounts (Header mx) = len rn →
  imap (λ i key, mkAccountMeta key (staticIndexIsWritable mx (Z.of_nat i))
                   (bool_decide (Z.of_nat i < NumRequiredSignatures (Header mx)))) (AccountKeys mx) =
    metas_of true true ws ++ metas_of false true rs ++
    metas_of true false wn ++ metas_of false false rn.
Proof.
  intros Hk Hn Hrs Hrn.
  set (f := λ (i : nat) key, _). rewrite Hk. rewrite !imap_range.
  assert (∀ i key, f i key = mkAccountMeta key (staticIndexIsWritable mx (Z.of_nat i))
     (bool_decide (Z.of_nat i < NumRequiredSignatures (Header mx)))) as Hf by done. clearbody f.
  assert (len (AccountKeys mx) = len ws + len rs + len wn + len rn) as Hlen
    by (rewrite Hk; len_lia).
  unfold metas_of. repeat f_equal.
  - apply (imap_const_range f _ ws 0). intros i x Hi. apply lookup_lt_Some in Hi.
    rewrite Hf. unfold staticIndexIsWritable, len in *. f_equal; case_decide || idtac;
      rewrite ?bool_decide_eq_true; lia.
  - rewrite <- (imap_const_range f _ rs (length ws)); [done|]. intros i x Hi. apply lookup_lt_Some in Hi.
    rewrite Hf. unfold staticIndexIsWritable, len in *. f_equal; case_decide || idtac;
      rewrite ?bool_decide_eq_true, ?bool_decide_eq_false; lia.
  - rewrite <- (imap_const_range f _ wn (length ws + length rs)).
    { apply imap_ext. intros. f_equal. lia. }
    intros i x Hi. apply lookup_lt_Some in Hi.
    rewrite Hf. unfold staticIndexIsWritable, len in *. f_equal; case_decide || idtac;
      rewrite ?bool_decide_eq_true, ?bool_decide_eq_false; lia.
  - rewrite <- (imap_const_range f _ rn (length ws + length rs + length wn)).
    { apply imap_ext. intros. f_equal. lia. }
    intros i x Hi. apply lookup_lt_Some in Hi.
    rewrite Hf. unfold staticIndexIsWritable, len in *. f_equal; case_decide || idtac;
      rewrite ?bool_decide_eq_true, ?bool_decide_eq_false; lia.
Qed.

(** * Decidability, and concrete messages for the witnesses *)

#[global] Instance key_ok_dec k : Decision (key_ok k).
Proof. unfold key_ok. apply _. Defined.
#[global] Instance sig_ok_dec s : Decision (sig_ok s).
Proof. unfold sig_ok. apply _. Defined.
#[global] Instance fits_dec {A} (l : list A) : Decision (fits l).
Proof. unfold fits. apply _. Defined.
#[global] Instance header_typed_dec h : Decision (header_typed h).
Proof. unfold header_typed. apply _. Defined.
#[global] Instance is_u16_dec v : Decision (is_u16 v).
Proof. unfold is_u16. apply _. Defined.
#[global] Instance ins_typed_dec ins : Decision (ins_typed ins).
Proof. unfold ins_typed. apply _. Defined.
#[global] Instance lookup_typed_dec l : Decision (lookup_typed l).
Proof. unfold lookup_typed. apply _. Defined.
#[global] Instance message_typed_dec mx : Decision (message_typed mx).
Proof. unfold message_typed. apply _. Defined.
#[global] Instance ins_ok_dec ins : Decision (ins_ok ins).
Proof. unfold ins_ok. apply _. Defined.
#[global] Instance lookup_ok_dec l : Decision (lookup_ok l).
Proof. unfold lookup_ok. apply _. Defined.
#[global] Instance body_ok_dec mx : Decision (body_ok mx).
Proof. unfold body_ok. apply _. Defined.
#[global] Instance lookup_eq_dec : EqDecision MessageAddressTableLookup.
Proof. solve_decision. Defined.
#[global] Instance header_eq_dec : EqDecision MessageHeader.
Proof. solve_decision. Defined.
#[global] Instance message_eq_dec : EqDecision Message.
Proof. solve_decision. Defined.
#[global] Instance message_ok_dec mx : Decision (message_ok mx).
Proof. unfold message_ok. apply _. Defined.

(** Discharge a decidable hypothesis by evaluating its decision procedure. *)
Ltac decide_by_compute := apply (bool_decide_unpack _); by vm_compute.

Definition sampleKey (b : Z) : PublicKey := replicate 32 b.

(** A v0 message: payer 1 signs, account 2 is readonly, program 3 is called. *)
Definition sampleMessage : Message :=
  mkMessage MessageVersionV0 [sampleKey 1; sampleKey 2; sampleKey 3] (mkMessageHeader 1 0 2)
    (sampleKey 9) [mkCompiledInstruction 2 [0; 1; 3] [7; 8]] [mkLookup (sampleKey 4) [5] [6; 7]].

(** * Properties *)

(** C8. The wire format round-trips: decoding the encoding of a representable
    message into any receiver, with any bytes behind it, succeeds, yields
    exactly that message and consumes exactly its encoding. *)
Theorem message_roundtrip mx mx0 rest :
  message_ok mx → len (RecentBlockhash mx0) = 32 →
  ∃ out, MarshalBinary mx = Ok out ∧
    unmarshalBinaryConsumed (out ++ rest) mx0 = (Ok (len out), mx).
Proof. apply unmarshal_marshal. Qed.

Lemma message_roundtrip_witness :
  ∃ out, MarshalBinary sampleMessage = Ok out ∧
    unmarshalBinaryConsumed (out ++ [255]) zeroMessage = (Ok (len out), sampleMessage).
Proof. apply (message_roundtrip sampleMessage zeroMessage [255]); decide_by_compute. Defined.

(** Decoding is safe and canonical: on arbitrary bytes it never panics; when
    it succeeds, the bytes it consumed are exactly the encoding of the message
    it returns, so no message has two accepted encodings. *)
Lemma message_decode_canonical data mx0 :
  bytes_ok data → len (RecentBlockhash mx0) = 32 →
  match unmarshalBinaryConsumed data mx0 with
  | (Ok n, mx) => message_ok mx ∧ 0 ≤ n ≤ len data ∧ MarshalBinary mx = Ok (take (Z.to_nat n) data)
  | (Err _, _) => True
  | (Panic, _) => False
  end.
Proof.
  intros Hd Hbh. pose proof (unmarshalBinaryConsumed_wp data mx0 Hd Hbh) as H. unfold wp in H.
  destruct (unmarshalBinaryConsumed data mx0) as [[n|e|] mx]; [|done..].
  destruct H as (Hok & out & rest & Hout & -> & Hrest & ->). split; [done|].
  rewrite to_nat_len, take_app_length. split; [len_lia|done].
Qed.

(** The precomputed capacity is exact: [MarshalBinary] writes precisely the
    bytes it reserved, so its single allocation never grows and never wastes. *)
Lemma message_size_exact mx out :
  message_typed mx → MarshalBinary mx = Ok out →
  len out = if decide (version mx = MessageVersionLegacy) then bodySize mx else marshalV0Size mx.
Proof.
  intros (Hk & _ & _ & _ & Hl) Hm. case_decide as Hv.
  - rewrite MarshalBinary_legacy in Hm by done. simplify_eq. by apply len_bodyBytes.
  - destruct (decide (version mx = MessageVersionV0)) as [Hv0|Hv0].
    + rewrite MarshalBinary_v0 in Hm by done. simplify_eq. by apply len_v0Bytes.
    + unfold MarshalBinary in Hm. by rewrite !decide_False in Hm.
Qed.

(** The header partitions the static keys: whenever the counts describe a
    split of the keys into writable signers, readonly signers, writable
    non-signers and readonly non-signers, [AccountMetaList] assigns exactly
    these roles, in this order. *)
Lemma roles_partition mx ws rs wn rn :
  AccountKeys mx = ws ++ rs ++ wn ++ rn →
  Header mx = mkMessageHeader (len ws + len rs) (len rs) (len rn) →
  AddressTableLookups mx = [] →
  AccountMetaList mx = Ok (metas_of true true ws ++ metas_of false true rs ++
                           metas_of true false wn ++ metas_of false false rn).
Proof.
  intros Hk Hh Hl. unfold AccountMetaList. rewrite Hl, decide_False by (unfold NumLookups; simpl; lia).
  f_equal. apply roles_partition_aux; by rewrite ?Hh.
Qed.

(** [IsSigner] and [Signers] agree: an account is reported a signer exactly
    when it is among the keys whose signatures the transaction requires. *)
Lemma IsSigner_Signers mx account :
  0 ≤ NumRequiredSignatures (Header mx) →
  IsSignerOf mx account = true ↔ account ∈ Signers mx.
Proof.
  intros Hn. rewrite Signers_eq by done. unfold IsSignerOf.
  pose proof (firstIndex_spec account (AccountKeys mx) 0) as H.
  destruct (firstIndex account (AccountKeys mx) 0) as [j|].
  - destruct H as (k & -> & Hk & Hnin). rewrite bool_decide_eq_true. split.
    + intros Hlt. apply list_elem_of_lookup. exists k. rewrite lookup_take_lt by lia. done.
    + intros Hin. apply Znot_ge_lt. intros Hge. apply Hnin.
      apply list_elem_of_lookup in Hin as [i Hi].
      apply lookup_take_Some in Hi as [Hi Hlt]. apply list_elem_of_lookup. exists i.
      rewrite lookup_take_lt by lia. done.
  - split; [done|]. intros [i [Hi _]%lookup_take_Some]%list_elem_of_lookup.
    exfalso. apply H. apply list_elem_of_lookup. eauto.
Qed.
