(* ===== verification/PrivateKey.v ===== *)
(** PrivateKey: ed25519 key pairs (private_key.go, wallet.go, Verify of
    signature.go). The curve arithmetic is curve25519-voi's: it enters as the
    class [Ed25519], with its documented behaviour as [Ed25519Laws]. *)
From Stdlib Require Import ZArith Lia.
From stdpp Require Import base numbers sets list.
From S2P Require Import Prelude Keys.

Open Scope Z_scope.

(** * The ed25519 library *)

(** [voied25519.Sign], [voied25519.VerifyWithOptions], [voied25519.NewKeyFromSeed]
    and the decompression test of [curve.EdwardsPoint]. *)
Class Ed25519 := {
  ed_Sign : bytes → bytes → bytes;
  ed_Verify : bytes → bytes → bytes → bool;
  ed_NewKeyFromSeed : bytes → bytes;
  ed_decompresses : bytes → bool;
}.

(** A key made from a 32-byte seed is the seed followed by the 32-byte public
    key, and a signature made with it verifies under that public key. *)
Class Ed25519Laws (ed : Ed25519) : Prop := {
  ed_key_length : ∀ seed, length seed = 32%nat → length (ed_NewKeyFromSeed seed) = 64%nat;
  ed_key_seed : ∀ seed, length seed = 32%nat → take 32 (ed_NewKeyFromSeed seed) = seed;
  ed_sign_length : ∀ key msg, length key = 64%nat → length (ed_Sign key msg) = 64%nat;
  ed_sign_bytes : ∀ key msg, length key = 64%nat → bytes_ok (ed_Sign key msg);
  ed_verify_sign : ∀ seed msg, length seed = 32%nat →
    ed_Verify (drop 32 (ed_NewKeyFromSeed seed)) msg (ed_Sign (ed_NewKeyFromSeed seed) msg) = true;
}.

Definition SeedSize : Z := 32.
Definition PrivateKeySize : Z := 64.

Inductive key_err :=
  | errKeySize (n : Z)
  | errSeedSize (n : Z)
  | errMismatchOffCurve
  | errMismatch
  | errNotArray
  | errByteRange (start : Z)
  | errExpectedByte (pos : Z)
  | errUnexpectedEnd
  | errUnexpectedChar (c : Z) (pos : Z)
  | errTrailing (pos : Z)
  | errKeyLength (n : Z).

Section keys.
Context `{ed : Ed25519}.

Definition IsValid (k : bytes) : bool := bool_decide (len k = PrivateKeySize).

(** [k.PublicKey()] copies the stored public half; it panics on a bad size. *)
Definition PublicKey_of {E} (k : bytes) : outcome E PublicKey :=
  if IsValid k then s ← slice_from k SeedSize; mret (copy_into zeroKey s) else Panic.

Definition PrivateKeyFromSeed (seed : bytes) : outcome key_err bytes :=
  if decide (len seed ≠ SeedSize) then Err (errSeedSize (len seed))
  else Ok (ed_NewKeyFromSeed seed).

Definition Sign (k msg : bytes) : outcome key_err Signature :=
  if IsValid k then Ok (SignatureFromBytes (ed_Sign k msg)) else Err (errKeySize (len k)).

(** [Signature.Verify]. *)
Definition Verify (s : Signature) (pubkey : PublicKey) (msg : bytes) : bool :=
  ed_Verify pubkey msg s.

Definition isOnCurve (b : bytes) : bool :=
  if decide (len b ≠ PublicKeyLength) then false else ed_decompresses b.

Definition Validate (k : bytes) : outcome key_err unit :=
  if decide (len k ≠ PrivateKeySize) then Err (errKeySize (len k)) else
  seed ← slice_to k SeedSize;
  if decide (ed_NewKeyFromSeed seed ≠ k) then
    pub ← slice_from k SeedSize;
    if isOnCurve pub then Err errMismatch else Err errMismatchOffCurve
  else Ok tt.

(** [Wallet.PrivateKeyFor]: the key of [publicKey], if it is this wallet's. *)
Definition PrivateKeyFor {E} (k : bytes) (publicKey : PublicKey) : outcome E (option bytes) :=
  pub ← PublicKey_of k;
  mret (if decide (publicKey ≠ pub) then None else Some k).

(** * The solana-keygen file format: a JSON array of 64 byte values *)

(** [skipSpace] from [pos]: the new position. *)
Fixpoint skipSpace (fuel : nat) (content : bytes) (pos : Z) : Z :=
  match fuel with
  | O => pos
  | S fuel' =>
    if decide (pos < len content) then
      match content !! Z.to_nat pos with
      | Some c => if decide (c = 32 ∨ c = 9 ∨ c = 10 ∨ c = 13) then skipSpace fuel' content (pos + 1) else pos
      | None => pos
      end
    else pos
  end.

(** The digit loop: position and value after the digits from [pos]. *)
Fixpoint scanByte (fuel : nat) (content : bytes) (start pos value : Z) : outcome key_err (Z * Z) :=
  match fuel with
  | O => Ok (pos, value)
  | S fuel' =>
    if decide (pos < len content) then
      c ← idx content pos;
      if decide (48 ≤ c ≤ 57) then
        let value := value * 10 + (c - 48) in
        if decide (255 < value) then Err (errByteRange start)
        else scanByte fuel' content start (pos + 1) value
      else Ok (pos, value)
    else Ok (pos, value)
  end.

(** The element loop: each round reads one value and its separator. *)
Fixpoint scanElements (fuel : nat) (content : bytes) (pos : Z) (key : bytes) : outcome key_err (Z * bytes) :=
  match fuel with
  | O => Err errUnexpectedEnd
  | S fuel' =>
    let pos := skipSpace (length content) content pos in
    '(pos', value) ← scanByte (length content) content pos pos 0;
    if decide (pos' = pos) then Err (errExpectedByte pos') else
    let key := key ++ [u8 value] in
    let pos := skipSpace (length content) content pos' in
    if decide (pos = len content) then Err errUnexpectedEnd else
    c ← idx content pos;
    if decide (c = 44) then scanElements fuel' content (pos + 1) key else
    if decide (c = 93) then Ok (pos + 1, key) else
    Err (errUnexpectedChar c pos)
  end.

Definition PrivateKeyFromSolanaKeygenFileBytes (content : bytes) : outcome key_err bytes :=
  let n := length content in
  let pos := skipSpace n content 0 in
  if decide (pos = len content) then Err errNotArray else
  c ← idx content pos;
  if decide (c ≠ 91) then Err errNotArray else
  let pos := skipSpace n content (pos + 1) in
  '(pos, key) ←
    (match (if decide (pos < len content) then content !! Z.to_nat pos else None) with
     | Some c => if decide (c = 93) then Ok (pos + 1, []) else scanElements (S n) content pos []
     | None => scanElements (S n) content pos []
     end);
  let pos := skipSpace n content pos in
  if decide (pos ≠ len content) then Err (errTrailing pos) else
  if decide (len key ≠ PrivateKeySize) then Err (errKeyLength (len key)) else
  _ ← Validate key;
  Ok key.

End keys.

(** * The keygen parser *)

(** The file solana-keygen writes: the 64 values in decimal, separated by
    commas, between brackets. *)
Definition decimal (b : Z) : bytes :=
  if decide (b < 10) then [48 + b]
  else if decide (b < 100) then [48 + b / 10; 48 + b mod 10]
  else [48 + b / 100; 48 + (b / 10) mod 10; 48 + b mod 10].

Fixpoint renderElements (key : bytes) : bytes :=
  match key with
  | [] => [93]
  | [b] => decimal b ++ [93]
  | b :: key' => decimal b ++ 44 :: renderElements key'
  end.

Definition renderKey (key : bytes) : bytes := 91 :: renderElements key.

Definition digit (c : Z) : Prop := 48 ≤ c ≤ 57.
#[global] Instance digit_dec c : Decision (digit c).
Proof. unfold digit. apply _. Defined.

Definition isSpace (c : Z) : Prop := c = 32 ∨ c = 9 ∨ c = 10 ∨ c = 13.

Lemma at_boundary (pre rest : bytes) c : (pre ++ c :: rest) !! Z.to_nat (len pre) = Some c.
Proof. rewrite to_nat_len. by apply list_lookup_middle. Qed.

(** No space at [pos]: the scanner stays. *)
Lemma skipSpace_stay fuel (pre rest : bytes) c :
  ¬ isSpace c → skipSpace fuel (pre ++ c :: rest) (len pre) = len pre.
Proof.
  intros Hc. destruct fuel; [done|]. cbn [skipSpace]. rewrite decide_True by len_lia.
  rewrite at_boundary. by rewrite decide_False.
Qed.

Lemma skipSpace_end fuel (content : bytes) : skipSpace fuel content (len content) = len content.
Proof. destruct fuel; [done|]. cbn [skipSpace]. by rewrite decide_False by lia. Qed.

Section parser.
Context `{ed : Ed25519}.

(** The digit loop on a run of digits. *)
Lemma scanByte_digits fuel (pre ds rest : bytes) c start v :
  Forall digit ds → ¬ digit c → (length ds < fuel)%nat →
  (∀ k, foldl (λ v d, v * 10 + (d - 48)) v (take k ds) ≤ 255) →
  scanByte fuel (pre ++ ds ++ c :: rest) start (len pre) v =
    Ok (len pre + len ds, foldl (λ v d, v * 10 + (d - 48)) v ds).
Proof.
  intros Hd Hc. revert pre fuel v. induction Hd as [|d ds Hdig _ IH]; intros pre fuel v Hf Hb;
    (destruct fuel as [|fuel]; [simpl in Hf; lia|]); cbn [scanByte app].
  - rewrite decide_True by len_lia. rewrite (obind_ok _ _ c) by (apply idx_ok; [apply len_nonneg|apply at_boundary]).
    rewrite decide_False by done. by rewrite Z.add_0_r.
  - rewrite decide_True by len_lia. rewrite (obind_ok _ _ d) by (apply idx_ok; [apply len_nonneg|apply at_boundary]).
    rewrite decide_True by done. cbv zeta. assert (v * 10 + (d - 48) ≤ 255) as H1 by exact (Hb 1%nat). rewrite decide_False by lia.
    specialize (IH (pre ++ [d]) fuel (v * 10 + (d - 48))). rewrite <- app_assoc in IH. cbn [app] in IH.
    replace (len (pre ++ [d])) with (len pre + 1) in IH by len_lia. rewrite IH.
    + cbn [foldl]. f_equal. f_equal. len_lia.
    + simpl in Hf. lia.
    + intros k. apply (Hb (S k)).
Qed.

(** Decimal digits of a byte: checked on all of them. *)
Definition decimal_checked (b : Z) : bool :=
  bool_decide (Forall digit (decimal b)) &&
  forallb (λ k, bool_decide (foldl (λ v d, v * 10 + (d - 48)) 0 (take k (decimal b)) ≤ 255)) (seq 0 4) &&
  bool_decide (foldl (λ v d, v * 10 + (d - 48)) 0 (decimal b) = b) &&
  bool_decide (decimal b ≠ []) && bool_decide (length (decimal b) ≤ 3)%nat.

Lemma decimal_spec b : is_byte b →
  Forall digit (decimal b) ∧ (∀ k, foldl (λ v d, v * 10 + (d - 48)) 0 (take k (decimal b)) ≤ 255) ∧
  foldl (λ v d, v * 10 + (d - 48)) 0 (decimal b) = b ∧ decimal b ≠ [].
Proof.
  intros Hb. assert (decimal_checked b = true) as H.
  { revert b Hb. apply byte_forall. by vm_compute. }
  unfold decimal_checked in H. rewrite !andb_true_iff, !bool_decide_eq_true, forallb_forall in H.
  destruct H as ((((H1 & H2) & H3) & H4) & H5). split_and!; [done| |done|done].
  intros k. destruct (decide (k < 4)%nat) as [Hk|Hk].
  - specialize (H2 k). rewrite bool_decide_eq_true in H2. apply H2. apply in_seq. lia.
  - rewrite take_ge by lia. rewrite H3. unfold is_byte in Hb. lia.
Qed.

Lemma digit_not_space c : digit c → ¬ isSpace c.
Proof. unfold digit, isSpace. lia. Qed.

(** One value and the character behind it. *)
Lemma scan_value fuel (pre rest : bytes) b c :
  is_byte b → ¬ digit c → ¬ isSpace c →
  let content := pre ++ decimal b ++ c :: rest in
  skipSpace fuel content (len pre) = len pre ∧
  scanByte (length content) content (len pre) (len pre) 0 = Ok (len pre + len (decimal b), b) ∧
  skipSpace fuel content (len pre + len (decimal b)) = len pre + len (decimal b) ∧
  content !! Z.to_nat (len pre + len (decimal b)) = Some c ∧ 0 < len (decimal b).
Proof.
  intros Hb Hc Hs content. destruct (decimal_spec b Hb) as (Hd & Hbound & Hv & Hne).
  assert (content = (pre ++ decimal b) ++ c :: rest) as Hsplit by (unfold content; by rewrite <- app_assoc).
  replace (len pre + len (decimal b)) with (len (pre ++ decimal b)) by len_lia. split_and!.
  - unfold content. destruct (decimal b) as [|d ds]; [done|]. apply skipSpace_stay, digit_not_space.
    by apply Forall_cons in Hd as [? _].
  - unfold content at 2. rewrite scanByte_digits; [by rewrite Hv, len_app|done|done| |done].
    unfold content. rewrite !length_app. simpl. lia.
  - rewrite Hsplit. by apply skipSpace_stay.
  - rewrite Hsplit. apply at_boundary.
  - destruct (decimal b); [done|]. len_lia.
Qed.

Lemma scanElements_render fuel (pre key acc : bytes) :
  bytes_ok key → key ≠ [] → (length key ≤ fuel)%nat →
  scanElements fuel (pre ++ renderElements key) (len pre) acc = Ok (len (pre ++ renderElements key), acc ++ key).
Proof.
  intros Hk. revert fuel pre acc. induction Hk as [|b key Hb Hk IH]; intros fuel pre acc Hne Hf; [done|].
  destruct fuel as [|fuel]; [simpl in Hf; lia|]. cbn [scanElements].
  destruct key as [|b' key'].
  - destruct (scan_value (length (pre ++ renderElements [b])) pre [] b 93 Hb) as (H1 & H2 & H3 & H4 & H5);
      [unfold digit; lia|unfold isSpace; lia|]. cbn [renderElements] in *.
    rewrite H1, (obind_ok _ _ _ H2). rewrite decide_False by lia. rewrite H3.
    rewrite decide_False by len_lia. rewrite (obind_ok _ _ 93) by (apply idx_ok; [len_lia|done]).
    rewrite decide_False, decide_True by lia. rewrite u8_small by done. f_equal. f_equal. len_lia.
  - change (renderElements (b :: b' :: key')) with (decimal b ++ 44 :: renderElements (b' :: key')).
    set (tail := renderElements (b' :: key')) in *.
    destruct (scan_value (length (pre ++ decimal b ++ 44 :: tail)) pre tail b 44 Hb) as (H1 & H2 & H3 & H4 & H5);
      [unfold digit; lia|unfold isSpace; lia|].
    rewrite H1, (obind_ok _ _ _ H2). rewrite decide_False by lia. rewrite H3.
    rewrite decide_False by len_lia. rewrite (obind_ok _ _ 44) by (apply idx_ok; [len_lia|done]).
    rewrite decide_True by lia. rewrite u8_small by done.
    replace (pre ++ decimal b ++ 44 :: tail) with ((pre ++ decimal b ++ [44]) ++ tail) by (by rewrite <- !app_assoc).
    replace (len pre + len (decimal b) + 1) with (len (pre ++ decimal b ++ [44])) by len_lia.
    rewrite IH; [|done|simpl in *; lia].
    f_equal. f_equal. by rewrite <- (app_assoc acc).
Qed.

Lemma renderElements_length key : (length key ≤ length (renderElements key))%nat.
Proof.
  induction key as [|b key IH]; [simpl; lia|]. destruct key as [|b' key'].
  - cbn [renderElements]. rewrite length_app. simpl. lia.
  - change (renderElements (b :: b' :: key')) with (decimal b ++ 44 :: renderElements (b' :: key')).
    rewrite length_app. simpl length in *. lia.
Qed.

(** Positions stay in the content, and the index never panics. *)
Lemma skipSpace_range fuel content pos : 0 ≤ pos ≤ len content → pos ≤ skipSpace fuel content pos ≤ len content.
Proof.
  revert pos. induction fuel as [|fuel IH]; intros pos Hp; cbn [skipSpace]; [lia|].
  destruct (decide (pos < len content)); [|lia].
  destruct (content !! Z.to_nat pos) as [c|]; [|lia].
  destruct (decide (c = 32 ∨ c = 9 ∨ c = 10 ∨ c = 13)); [|lia]. specialize (IH (pos + 1)). lia.
Qed.

Lemma idx_owp (content : bytes) pos (Q : Z → Prop) (R : key_err → Prop) :
  bytes_ok content → 0 ≤ pos < len content → (∀ c, is_byte c → Q c) → owp (idx content pos) Q R.
Proof.
  intros Hc Hp HQ. destruct (idx_in_range content pos Hp) as [c Hl]. rewrite (idx_ok _ _ c) by (done || lia).
  apply HQ. by eapply Forall_lookup_1.
Qed.

Lemma scanByte_range fuel content start pos v :
  bytes_ok content → 0 ≤ pos ≤ len content → 0 ≤ v ≤ 255 →
  owp (scanByte fuel content start pos v) (λ r, pos ≤ r.1 ≤ len content ∧ is_byte r.2) (λ _, True).
Proof.
  intros Hc. revert pos v. induction fuel as [|fuel IH]; intros pos v Hp Hv; cbn [scanByte];
    [cbn; unfold is_byte; lia|].
  destruct (decide (pos < len content)); [|split; cbn [fst snd]; unfold is_byte; lia].
  apply owp_bind, idx_owp; [done|lia|]. intros c _.
  destruct (decide (48 ≤ c ≤ 57)); [|split; cbn [fst snd]; unfold is_byte; lia]. cbv zeta.
  destruct (decide (255 < v * 10 + (c - 48))); [done|].
  eapply owp_mono; [apply IH; lia| |done]. intros r [? ?]. split; [lia|done].
Qed.

Lemma scanElements_range fuel content pos key :
  bytes_ok content → 0 ≤ pos ≤ len content → bytes_ok key →
  owp (scanElements fuel content pos key) (λ r, 0 ≤ r.1 ≤ len content ∧ bytes_ok r.2) (λ _, True).
Proof.
  intros Hc. revert pos key. induction fuel as [|fuel IH]; intros pos key Hp Hk; [done|]. cbn [scanElements].
  set (n := length content). pose proof (skipSpace_range n content pos Hp) as H1. apply owp_bind.
  eapply owp_mono; [apply scanByte_range; [done|lia|lia]| |done].
  intros [pos' v] [H2 H3]. cbn in H2, H3. destruct (decide (pos' = _)); [done|]. cbv zeta.
  pose proof (skipSpace_range n content pos' ltac:(lia)) as H4.
  destruct (decide (skipSpace n content pos' = len content)); [done|].
  apply owp_bind, idx_owp; [done|lia|]. intros c _.
  assert (bytes_ok (key ++ [u8 v])) by (apply Forall_app_2; [done|]; constructor; [apply is_byte_u8|done]).
  destruct (decide (c = 44)); [apply IH; [lia|done]|].
  destruct (decide (c = 93)); [|done]. split; cbn [fst snd]; [lia|done].
Qed.

(** The fuel of each loop is the distance to the end of the content: more of it
    changes nothing. *)
Lemma skipSpace_fuel f1 f2 content pos :
  0 ≤ pos → len content - pos ≤ Z.of_nat f1 → len content - pos ≤ Z.of_nat f2 →
  skipSpace f1 content pos = skipSpace f2 content pos.
Proof.
  revert f2 pos. induction f1 as [|f1 IH]; intros [|f2] pos Hp H1 H2; cbn [skipSpace];
    try (destruct (decide (pos < len content)); [lia|done]).
  destruct (decide (pos < len content)); [|done]. destruct (content !! Z.to_nat pos); [|done].
  destruct (decide (_ ∨ _)); [|done]. apply IH; lia.
Qed.

Lemma scanByte_fuel f1 f2 content start pos v :
  0 ≤ pos → len content - pos ≤ Z.of_nat f1 → len content - pos ≤ Z.of_nat f2 →
  scanByte f1 content start pos v = scanByte f2 content start pos v.
Proof.
  revert f2 pos v. induction f1 as [|f1 IH]; intros [|f2] pos v Hp H1 H2; cbn [scanByte];
    try (destruct (decide (pos < len content)); [lia|done]).
  destruct (decide (pos < len content)); [|done]. destruct (idx content pos) as [c|e|]; cbn; [|done..].
  destruct (decide (48 ≤ c ≤ 57)); [|done]. destruct (decide (255 < _)); [done|]. apply IH; lia.
Qed.

Lemma scanElements_fuel f1 f2 content pos key :
  bytes_ok content → 0 ≤ pos ≤ len content →
  len content - pos < Z.of_nat f1 → len content - pos < Z.of_nat f2 →
  scanElements f1 content pos key = scanElements f2 content pos key.
Proof.
  intros Hc. revert f2 pos key. induction f1 as [|f1 IH]; intros [|f2] pos key Hp H1 H2; [lia..|].
  cbn [scanElements]. set (n := length content). pose proof (skipSpace_range n content pos Hp) as Hr.
  pose proof (scanByte_range n content (skipSpace n content pos) (skipSpace n content pos) 0 Hc ltac:(lia) ltac:(lia)) as Hs.
  destruct (scanByte n content _ _ 0) as [[pos' v]|e|]; cbn; [|done..]. destruct Hs as [Hs _]. cbn [fst] in Hs.
  destruct (decide (pos' = _)); [done|].
  pose proof (skipSpace_range n content pos' ltac:(lia)) as Hr'.
  destruct (decide (skipSpace n content pos' = len content)); [done|].
  destruct (idx content _) as [c|e|]; cbn; [|done..].
  destruct (decide (c = 44)); [|done]. apply IH; lia.
Qed.

Lemma Validate_length key : Validate key = Ok tt → len key = 64.
Proof. unfold Validate, PrivateKeySize. case_decide; [done|]. intros _. lia. Qed.

Lemma parse_render key :
  bytes_ok key → Validate key = Ok tt → PrivateKeyFromSolanaKeygenFileBytes (renderKey key) = Ok key.
Proof.
  intros Hk Hv. pose proof (Validate_length key Hv) as Hl. unfold PrivateKeyFromSolanaKeygenFileBytes, renderKey.
  set (content := 91 :: renderElements key). set (n := length content).
  assert (key ≠ []) as Hne by (intros ->; done).
  assert (∃ d rest, digit d ∧ renderElements key = d :: rest) as (d & rest & Hd & Hrender).
  { destruct key as [|b key']; [done|]. apply Forall_cons in Hk as [Hb _].
    destruct (decimal_spec b Hb) as (Hdig & _ & _ & Hnil). destruct (decimal b) as [|d ds] eqn:E; [done|].
    apply Forall_cons in Hdig as [? _]. exists d. destruct key'; cbn [renderElements]; rewrite E; eexists; (split; [done|reflexivity]). }
  assert (skipSpace n content 0 = 0) as Hp0 by (apply (skipSpace_stay n [] (renderElements key) 91); unfold isSpace; lia).
  rewrite Hp0.
  rewrite decide_False by (unfold content; len_lia).
  rewrite (obind_ok _ _ 91) by done. rewrite decide_False by (intros H; by apply H).
  assert (skipSpace n content (0 + 1) = 1) as Hp1.
  { unfold content. rewrite Hrender. apply (skipSpace_stay n [91] rest d), digit_not_space, Hd. }
  rewrite Hp1. rewrite decide_True by (unfold content; rewrite Hrender; len_lia).
  assert (content !! Z.to_nat 1 = Some d) as Hat by (unfold content; by rewrite Hrender).
  rewrite Hat. rewrite decide_False by (unfold digit in Hd; lia).
  assert (length key ≤ S n)%nat as Hfuel by (unfold n, content; simpl; pose proof (renderElements_length key); lia).
  rewrite (scanElements_render (S n) [91] key [] Hk Hne Hfuel : scanElements (S n) content 1 [] = Ok (len content, key)).
  cbn [mbind outcome_bind]. rewrite skipSpace_end. rewrite decide_False by (intros H; by apply H).
  unfold PrivateKeySize. rewrite decide_False by lia. by rewrite Hv.
Qed.

Lemma renderElements_ok key : bytes_ok key → bytes_ok (renderElements key).
Proof.
  induction 1 as [|b key Hb Hk IH]; [by repeat constructor|].
  assert (bytes_ok (decimal b)) as Hd.
  { destruct (decimal_spec b Hb) as (Hd & _). eapply Forall_impl; [exact Hd|]. unfold digit, is_byte. lia. }
  destruct key as [|b' key']; (apply Forall_app_2; [done|]); [by repeat constructor|].
  constructor; [done|exact IH].
Qed.

Lemma Validate_owp k : owp (Validate k) (λ _, Validate k = Ok tt) (λ _, True).
Proof.
  unfold Validate, PrivateKeySize, SeedSize. case_decide; [done|]. rewrite slice_to_ok by lia. cbn [mbind outcome_bind].
  case_decide; [|done]. rewrite slice_from_ok by lia. cbn. by destruct (isOnCurve _).
Qed.

Lemma parse_safe content :
  bytes_ok content →
  owp (PrivateKeyFromSolanaKeygenFileBytes content) (λ k, bytes_ok k ∧ Validate k = Ok tt) (λ _, True).
Proof.
  intros Hc. unfold PrivateKeyFromSolanaKeygenFileBytes. set (n := length content).
  pose proof (len_nonneg content). pose proof (skipSpace_range n content 0 ltac:(lia)) as H0.
  case_decide; [done|]. apply owp_bind, idx_owp; [done|lia|]. intros c _. case_decide; [done|].
  pose proof (skipSpace_range n content (skipSpace n content 0 + 1) ltac:(lia)) as Hpos.
  set (pos := skipSpace n content (_ + 1)) in *. apply owp_bind.
  assert (owp (match (if decide (pos < len content) then content !! Z.to_nat pos else None) with
     | Some c => if decide (c = 93) then Ok (pos + 1, []) else scanElements (S n) content pos []
     | None => scanElements (S n) content pos []
     end) (λ r, 0 ≤ r.1 ≤ len content ∧ bytes_ok r.2) (λ _, True)) as Hel.
  { assert (owp (scanElements (S n) content pos []) (λ r, 0 ≤ r.1 ≤ len content ∧ bytes_ok r.2) (λ _, True)) as Hs
      by (apply scanElements_range; [done|lia|constructor]).
    destruct (decide (pos < len content)); [|done]. destruct (content !! _) as [c'|]; [|done].
    case_decide; [|done]. split; [cbn [fst]; lia|constructor]. }
  eapply owp_mono; [exact Hel| |done]. intros [p key] [Hp Hk]. cbn [fst snd] in *. clear Hel.
  do 2 (case_decide; [done|]). apply owp_bind. eapply owp_mono; [apply Validate_owp| |done]. intros u Hv. done.
Qed.

Lemma Validate_derived k : Validate k = Ok tt → len k = 64 ∧ ed_NewKeyFromSeed (take 32 k) = k.
Proof.
  intros Hv. pose proof (Validate_length k Hv) as Hl. split; [done|].
  unfold Validate, PrivateKeySize, SeedSize in Hv. rewrite decide_False, slice_to_ok in Hv by lia.
  cbn [mbind outcome_bind] in Hv. change (Z.to_nat 32) with 32%nat in Hv.
  destruct (decide (ed_NewKeyFromSeed (take 32 k) = k)) as [|Hne]; [done|]. rewrite decide_True in Hv by done.
  rewrite slice_from_ok in Hv by lia. cbn in Hv. by destruct (isOnCurve _).
Qed.

End parser.

(** * Properties *)

(** Keypair files: parsing never panics, a key it accepts is 64 bytes whose
    public half is the one derived from its seed, and the file solana-keygen
    writes for a key is read back to that key exactly when the key is valid. *)
Lemma keygen_file_spec (ed : Ed25519) (content key : bytes) :
  bytes_ok content → bytes_ok key →
  match PrivateKeyFromSolanaKeygenFileBytes content with
  | Ok k => len k = 64 ∧ bytes_ok k ∧ ed_NewKeyFromSeed (take 32 k) = k
  | Err _ => True
  | Panic => False
  end ∧
  (Validate key = Ok tt ↔ PrivateKeyFromSolanaKeygenFileBytes (renderKey key) = Ok key).
Proof.
  intros Hc Hk. split.
  - pose proof (parse_safe content Hc) as H. destruct (PrivateKeyFromSolanaKeygenFileBytes content) as [k| |]; [|done..].
    destruct H as [Hb Hv]. by destruct (Validate_derived k Hv).
  - split; [by apply parse_render|]. intros Hp.
    assert (bytes_ok (renderKey key)) as Hr by (constructor; [done|by apply renderElements_ok]).
    pose proof (parse_safe _ Hr) as H. rewrite Hp in H. apply H.
Qed.

(** A toy key pair: the public half repeats the seed. *)
Definition doubling : Ed25519 := {|
  ed_Sign := λ _ _, zeroSignature;
  ed_Verify := λ _ _ _, true;
  ed_NewKeyFromSeed := λ seed, seed ++ seed;
  ed_decompresses := λ _, true;
|}.
