(* ===== verification/Sha256.v ===== *)
(** Sha256: [sha256.Sum256] of Go's crypto/sha256, which address derivation
    (pda.go) and the mnemonic checksum (mnemonic.go) call: FIPS 180-4 on 32-bit
    words, executable, so that the derivations can be evaluated. *)
From Stdlib Require Import ZArith Lia.
From stdpp Require Import base numbers list.
From S2P Require Import Prelude.

Open Scope Z_scope.

(** * Words *)

Definition rotr (n x : Z) : Z := Z.lor (Z.shiftr x n) (u32 (Z.shiftl x (32 - n))).
Definition not32 (x : Z) : Z := Z.lxor x 4294967295.

Definition Ch (x y z : Z) : Z := Z.lxor (Z.land x y) (Z.land (not32 x) z).
Definition Maj (x y z : Z) : Z := Z.lxor (Z.lxor (Z.land x y) (Z.land x z)) (Z.land y z).
Definition bigSigma0 (x : Z) : Z := Z.lxor (Z.lxor (rotr 2 x) (rotr 13 x)) (rotr 22 x).
Definition bigSigma1 (x : Z) : Z := Z.lxor (Z.lxor (rotr 6 x) (rotr 11 x)) (rotr 25 x).
Definition sigma0 (x : Z) : Z := Z.lxor (Z.lxor (rotr 7 x) (rotr 18 x)) (Z.shiftr x 3).
Definition sigma1 (x : Z) : Z := Z.lxor (Z.lxor (rotr 17 x) (rotr 19 x)) (Z.shiftr x 10).

(** Big-endian words. *)
Definition be_val (l : bytes) : Z := foldl (λ acc b, acc * 256 + b) 0 l.
Definition be_bytes (n : nat) (v : Z) : bytes := reverse (le_bytes n v).

(** The constants of the standard: 32 fractional bits of roots of primes. *)
Fixpoint primesFrom (fuel : nat) (n : Z) (found : list Z) : list Z :=
  match fuel with
  | O => found
  | S fuel' => primesFrom fuel' (n + 1) (if forallb (λ p, bool_decide (n mod p ≠ 0)) found then found ++ [n] else found)
  end.

(** The 64 primes below 312. *)
Definition primes : list Z := primesFrom 310 2 [].

(** The largest [r + x] with [x < 2 ^ bits] whose cube is at most [n]. *)
Fixpoint cubeRoot (bits : nat) (n r : Z) : Z :=
  match bits with
  | O => r
  | S bits' =>
    let r' := r + 2 ^ Z.of_nat bits' in
    cubeRoot bits' n (if bool_decide (r' * r' * r' ≤ n) then r' else r)
  end.

Definition roundConstants : list Z := Eval vm_compute in (λ p, u32 (cubeRoot 36 (p * 2 ^ 96) 0)) <$> primes.

(** The eight chaining words. *)
Record state := mkState { sa : Z; sb : Z; sc : Z; sd : Z; se : Z; sf : Z; sg : Z; sh : Z }.

Definition initial : state :=
  Eval vm_compute in
  let h i := u32 (Z.sqrt (nth i primes 0 * 2 ^ 64)) in mkState (h 0%nat) (h 1%nat) (h 2%nat) (h 3%nat) (h 4%nat) (h 5%nat) (h 6%nat) (h 7%nat).

(** * One block *)

(** The message schedule; [ws] holds the words so far, latest first. *)
Fixpoint expand (n : nat) (ws : list Z) : list Z :=
  match n with
  | O => reverse ws
  | S n' =>
    let w i := nth i ws 0 in
    expand n' (u32 (sigma1 (w 1%nat) + w 6%nat + sigma0 (w 14%nat) + w 15%nat) :: ws)
  end.

Definition schedule (ws : list Z) : list Z := expand 48 (reverse ws).

Definition round (s : state) (kw : Z * Z) : state :=
  let t1 := sh s + bigSigma1 (se s) + Ch (se s) (sf s) (sg s) + kw.1 + kw.2 in
  let t2 := bigSigma0 (sa s) + Maj (sa s) (sb s) (sc s) in
  mkState (u32 (t1 + t2)) (sa s) (sb s) (sc s) (u32 (sd s + t1)) (se s) (sf s) (sg s).

Definition add_state (s t : state) : state :=
  mkState (u32 (sa s + sa t)) (u32 (sb s + sb t)) (u32 (sc s + sc t)) (u32 (sd s + sd t))
    (u32 (se s + se t)) (u32 (sf s + sf t)) (u32 (sg s + sg t)) (u32 (sh s + sh t)).

Definition compress (s : state) (ws : list Z) : state :=
  add_state s (foldl round s (zip roundConstants (schedule ws))).

(** * The whole message *)

(** Groups of [n] elements. *)
Fixpoint chunks {A} (fuel n : nat) (l : list A) : list (list A) :=
  match fuel with
  | O => []
  | S fuel' => match l with [] => [] | _ => take n l :: chunks fuel' n (drop n l) end
  end.

Definition pad (msg : bytes) : bytes :=
  msg ++ [128] ++ zeros (Z.to_nat ((55 - len msg) mod 64)) ++ be_bytes 8 (u64 (8 * len msg)).

Definition words (block : bytes) : list Z := be_val <$> chunks 16 4 block.

Definition Sum256 (data : bytes) : bytes :=
  let s := foldl (λ s block, compress s (words block)) initial
             (chunks (S (length data)) 64 (pad data)) in
  be_bytes 4 (sa s) ++ be_bytes 4 (sb s) ++ be_bytes 4 (sc s) ++ be_bytes 4 (sd s)
  ++ be_bytes 4 (se s) ++ be_bytes 4 (sf s) ++ be_bytes 4 (sg s) ++ be_bytes 4 (sh s).

(** * Test vectors *)

(** FIPS 180-4: the digest of "abc", and of the empty message. *)
Example Sum256_abc :
  Sum256 [97; 98; 99] = be_bytes 32 0xba7816bf8f01cfea414140de5dae2223b00361a396177a9cb410ff61f20015ad.
Proof. by vm_compute. Qed.

Example Sum256_empty :
  Sum256 [] = be_bytes 32 0xe3b0c44298fc1c149afbf4c8996fb92427ae41e4649b934ca495991b7852b855.
Proof. by vm_compute. Qed.

(** Two blocks: 56 bytes of message need a second block for the length. *)
Example Sum256_two_blocks :
  Sum256 (replicate 56 97) = be_bytes 32 0xb35439a4ac6f0948b6d6f9e3c6af0f5f590ce20f1bde7090ef7970686ec6738a.
Proof. by vm_compute. Qed.

(** * Facts *)

Lemma length_be_bytes n v : length (be_bytes n v) = n.
Proof. unfold be_bytes. by rewrite length_reverse, le_bytes_length. Qed.

Lemma be_bytes_ok n v : bytes_ok (be_bytes n v).
Proof. unfold be_bytes. apply Forall_reverse, le_bytes_ok. Qed.

(** A digest is a [[32]byte]. *)
Lemma length_Sum256 data : length (Sum256 data) = 32%nat.
Proof. unfold Sum256. by rewrite !length_app, !length_be_bytes. Qed.

Lemma Sum256_ok data : bytes_ok (Sum256 data).
Proof. unfold Sum256. repeat apply Forall_app_2; apply be_bytes_ok. Qed.

(** The padding fills whole blocks. *)
Lemma len_pad msg : len (pad msg) mod 64 = 0.
Proof.
  unfold pad, zeros. rewrite !len_app, len_replicate, len_cons, len_nil.
  unfold len at 3. rewrite length_be_bytes. rewrite Z2Nat.id by (apply Z.mod_pos_bound; lia).
  pose proof (len_nonneg msg). dlia.
Qed.

(** The fuel of [chunks] covers the padded message. *)
Lemma concat_chunks {A} fuel n (l : list A) :
  (0 < n)%nat → (length l ≤ fuel * n)%nat → concat (chunks fuel n l) = l.
Proof.
  intros Hn. revert l. induction fuel as [|fuel IH]; intros l Hl.
  - destruct l; simpl in *; [done|lia].
  - destruct l as [|x l]; [done|]. cbn [chunks concat]. rewrite IH by (rewrite length_drop; lia).
    apply take_drop.
Qed.

Lemma pad_chunks msg : concat (chunks (S (length msg)) 64 (pad msg)) = pad msg.
Proof.
  apply concat_chunks; [lia|]. unfold pad, zeros.
  rewrite !length_app, length_replicate, length_be_bytes. simpl length.
  pose proof (Z.mod_pos_bound (55 - len msg) 64 ltac:(lia)). unfold len in *.
  destruct msg as [|x [|y msg]]; simpl length in *; [vm_compute; lia..|]. lia.
Qed.
