(* ===== verification/Sha512.v ===== *)
(** Sha512: what mnemonic.go uses of Go's crypto packages besides SHA-256:
    [sha512.New], [hmac.New] and [pbkdf2.Key], executable. *)
From Stdlib Require Import ZArith Lia.
From stdpp Require Import base numbers strings list.
From S2P Require Import Prelude Sha256.

Open Scope Z_scope.

(** * SHA-512 (FIPS 180-4) *)

Definition rotr64 (n x : Z) : Z := Z.lor (Z.shiftr x n) (u64 (Z.shiftl x (64 - n))).
Definition not64 (x : Z) : Z := Z.lxor x 18446744073709551615.

Definition Ch64 (x y z : Z) : Z := Z.lxor (Z.land x y) (Z.land (not64 x) z).
Definition BigSigma0 (x : Z) : Z := Z.lxor (Z.lxor (rotr64 28 x) (rotr64 34 x)) (rotr64 39 x).
Definition BigSigma1 (x : Z) : Z := Z.lxor (Z.lxor (rotr64 14 x) (rotr64 18 x)) (rotr64 41 x).
Definition Sigma0 (x : Z) : Z := Z.lxor (Z.lxor (rotr64 1 x) (rotr64 8 x)) (Z.shiftr x 7).
Definition Sigma1 (x : Z) : Z := Z.lxor (Z.lxor (rotr64 19 x) (rotr64 61 x)) (Z.shiftr x 6).

(** The 80 primes below 410. *)
Definition primes80 : list Z := primesFrom 408 2 [].

Definition roundConstants64 : list Z := Eval vm_compute in (λ p, u64 (cubeRoot 68 (p * 2 ^ 192) 0)) <$> primes80.

Definition initial64 : state :=
  Eval vm_compute in
  let h i := u64 (Z.sqrt (nth i primes80 0 * 2 ^ 128)) in
  mkState (h 0%nat) (h 1%nat) (h 2%nat) (h 3%nat) (h 4%nat) (h 5%nat) (h 6%nat) (h 7%nat).

Fixpoint expand64 (n : nat) (ws : list Z) : list Z :=
  match n with
  | O => reverse ws
  | S n' =>
    let w i := nth i ws 0 in
    expand64 n' (u64 (Sigma1 (w 1%nat) + w 6%nat + Sigma0 (w 14%nat) + w 15%nat) :: ws)
  end.

Definition round64 (s : state) (kw : Z * Z) : state :=
  let t1 := sh s + BigSigma1 (se s) + Ch64 (se s) (sf s) (sg s) + kw.1 + kw.2 in
  let t2 := BigSigma0 (sa s) + Maj (sa s) (sb s) (sc s) in
  mkState (u64 (t1 + t2)) (sa s) (sb s) (sc s) (u64 (sd s + t1)) (se s) (sf s) (sg s).

Definition add_state64 (s t : state) : state :=
  mkState (u64 (sa s + sa t)) (u64 (sb s + sb t)) (u64 (sc s + sc t)) (u64 (sd s + sd t))
    (u64 (se s + se t)) (u64 (sf s + sf t)) (u64 (sg s + sg t)) (u64 (sh s + sh t)).

Definition compress64 (s : state) (ws : list Z) : state :=
  add_state64 s (foldl round64 s (zip roundConstants64 (expand64 64 (reverse ws)))).

Definition pad128 (msg : bytes) : bytes :=
  msg ++ [128] ++ zeros (Z.to_nat ((111 - len msg) mod 128)) ++ be_bytes 16 (8 * len msg).

Definition words64 (block : bytes) : list Z := be_val <$> chunks 16 8 block.

Definition Sum512 (data : bytes) : bytes :=
  let s := foldl (λ s block, compress64 s (words64 block)) initial64
             (chunks (S (length data)) 128 (pad128 data)) in
  be_bytes 8 (sa s) ++ be_bytes 8 (sb s) ++ be_bytes 8 (sc s) ++ be_bytes 8 (sd s)
  ++ be_bytes 8 (se s) ++ be_bytes 8 (sf s) ++ be_bytes 8 (sg s) ++ be_bytes 8 (sh s).

(** * HMAC (FIPS 198-1) and PBKDF2 (RFC 8018) over it *)

Definition hmacKey (key : bytes) : bytes :=
  let key := if decide (128 < len key) then Sum512 key else key in
  key ++ zeros (Z.to_nat (128 - len key)).

(** [hmac.New(sha512.New, key)], [Write(data)], [Sum(nil)]. *)
Definition HmacSha512 (key data : bytes) : bytes :=
  let key := hmacKey key in
  Sum512 ((Z.lxor 92 <$> key) ++ Sum512 ((Z.lxor 54 <$> key) ++ data)).

Fixpoint pbkdf2Rounds (n : nat) (password u acc : bytes) : bytes :=
  match n with
  | O => acc
  | S n' => let u := HmacSha512 password u in pbkdf2Rounds n' password u (zip_with Z.lxor acc u)
  end.

(** [pbkdf2.Key(sha512.New, password, salt, iter, 64)]: one block. *)
Definition Pbkdf2Sha512 (password salt : bytes) (iter : nat) : bytes :=
  let u := HmacSha512 password (salt ++ be_bytes 4 1) in pbkdf2Rounds (iter - 1) password u u.

(** * Test vectors *)

Example Sum512_abc :
  Sum512 (str "abc") = be_bytes 64 0xddaf35a193617abacc417349ae20413112e6fa4e89a97ea20a9eeee64b55d39a2192992a274fc1a836ba3c23a3feebbd454d4423643ce80e2a9ac94fa54ca49f.
Proof. by vm_compute. Qed.

(** RFC 4231, test case 2. *)
Example HmacSha512_jefe :
  HmacSha512 (str "Jefe") (str "what do ya want for nothing?") =
  be_bytes 64 0x164b7a7bfcf819e2e395fbe73b56e0a387bd64222e831fd610270cd7ea2505549758bf75c05a994a6d034f65f8f0e6fdcaeab1a34d4a6b4b636e070a38bce737.
Proof. by vm_compute. Qed.

Example Pbkdf2Sha512_password :
  Pbkdf2Sha512 (str "password") (str "salt") 2 =
  be_bytes 64 0xe1d9c16aa681708a45f5c7c4e215ceb66e011a2e9f0040713f18aefdb866d53cf76cab2868a39b9f7840edce4fef5a82be67335c77a6068e04112754f27ccf4e.
Proof. by vm_compute. Qed.

(** * Facts *)

(** A digest is a [[64]byte]. *)
Lemma length_Sum512 data : length (Sum512 data) = 64%nat.
Proof. unfold Sum512. by rewrite !length_app, !length_be_bytes. Qed.

Lemma length_HmacSha512 key data : length (HmacSha512 key data) = 64%nat.
Proof. apply length_Sum512. Qed.

Lemma length_pbkdf2Rounds n password u acc : length acc = 64%nat → length (pbkdf2Rounds n password u acc) = 64%nat.
Proof.
  revert u acc. induction n as [|n IH]; intros u acc Ha; [exact Ha|]. cbn [pbkdf2Rounds]. apply IH.
  rewrite length_zip_with, length_HmacSha512, Ha. apply Nat.min_id.
Qed.

Lemma length_Pbkdf2 password salt iter : length (Pbkdf2Sha512 password salt iter) = 64%nat.
Proof. unfold Pbkdf2Sha512. apply length_pbkdf2Rounds, length_HmacSha512. Qed.
