(* ===== verification/Sha3.v ===== *)
(** Sha3: what the confidential-transfer code uses of Go's crypto packages besides
    SHA-2: [sha3.Sum512] (FIPS 202) and [hkdf.Key] over SHA-512 (RFC 5869),
    executable. *)
From Stdlib Require Import ZArith Lia.
From stdpp Require Import base numbers strings list.
From S2P Require Import Prelude Sha256 Sha512.

Open Scope Z_scope.

(** * Keccak-f[1600]: 25 lanes of 64 bits, lane [(x, y)] at [x + 5y] *)

Definition rotl64 (n x : Z) : Z := Z.lor (u64 (Z.shiftl x n)) (Z.shiftr x (64 - n)).
Definition lane (a : list Z) (x y : nat) : Z := nth (x mod 5 + 5 * (y mod 5)) a 0.
Definition lanes (f : nat → nat → Z) : list Z := (λ i, f (i mod 5)%nat (i / 5)%nat) <$> seq 0 25.

Definition rotations : list Z :=
  [0; 1; 62; 28; 27; 36; 44; 6; 55; 20; 3; 10; 43; 25; 39; 41; 45; 15; 21; 8; 18; 2; 61; 56; 14].
Definition iotaConstants : list Z :=
  [0x1; 0x8082; 0x800000000000808a; 0x8000000080008000; 0x808b; 0x80000001; 0x8000000080008081; 0x8000000000008009;
   0x8a; 0x88; 0x80008009; 0x8000000a; 0x8000808b; 0x800000000000008b; 0x8000000000008089; 0x8000000000008003;
   0x8000000000008002; 0x8000000000000080; 0x800a; 0x800000008000000a; 0x8000000080008081; 0x8000000000008080;
   0x80000001; 0x8000000080008008].

Definition theta (a : list Z) : list Z :=
  let c := (λ x, foldl Z.lxor 0 ((lane a x) <$> seq 0 5)) <$> seq 0 5 in
  let d := (λ x, Z.lxor (nth ((x + 4) mod 5) c 0) (rotl64 1 (nth ((x + 1) mod 5) c 0))) <$> seq 0 5 in
  lanes (λ x y, Z.lxor (lane a x y) (nth x d 0)).
Definition rhoPi (a : list Z) : list Z :=
  lanes (λ x y, rotl64 (lane rotations (x + 3 * y) x) (lane a (x + 3 * y) x)).
Definition chi (a : list Z) : list Z :=
  lanes (λ x y, Z.lxor (lane a x y) (Z.land (not64 (lane a (x + 1) y)) (lane a (x + 2) y))).
Definition iota (rc : Z) (a : list Z) : list Z :=
  match a with x :: a' => Z.lxor x rc :: a' | [] => [] end.
Definition keccakRound (a : list Z) (rc : Z) : list Z := iota rc (chi (rhoPi (theta a))).
Definition keccakF (a : list Z) : list Z := foldl keccakRound a iotaConstants.

(** The sponge with a rate of [72] bytes. *)
Definition absorb (a : list Z) (block : bytes) : list Z :=
  let ws := le_val <$> chunks 9 8 block in
  keccakF (zip_with Z.lxor a (ws ++ replicate 16 0)).
Definition padSha3 (data : bytes) : bytes :=
  let k := Z.to_nat (71 - len data mod 72) in
  match k with
  | O => data ++ [134]
  | S k' => data ++ [6] ++ zeros k' ++ [128]
  end.

(** [sha3.Sum512(data)]. *)
Definition Sum3_512 (data : bytes) : bytes :=
  let a := foldl absorb (replicate 25 0) (chunks (S (length data)) 72 (padSha3 data)) in
  concat (le_bytes 8 <$> take 8 a).

(** * HKDF *)

(** The blocks [T(i) = HMAC(prk, T(i-1) | info | i)]. *)
Fixpoint hkdfBlocks (n : nat) (i : Z) (prk info prev : bytes) : bytes :=
  match n with
  | O => []
  | S n' => let t := HmacSha512 prk (prev ++ info ++ [i]) in t ++ hkdfBlocks n' (i + 1) prk info t
  end.

(** [hkdf.Key(sha512.New, secret, salt, info, keyLength)]; the lengths used are
    below the limit of 255 blocks, so it never fails. *)
Definition hkdfKey (secret salt info : bytes) (keyLength : Z) : bytes :=
  let prk := HmacSha512 salt secret in
  take (Z.to_nat keyLength) (hkdfBlocks (Z.to_nat ((keyLength + 63) / 64)) 1 prk info []).

Lemma length_lanes f : length (lanes f) = 25%nat.
Proof. unfold lanes. by rewrite length_fmap, length_seq. Qed.

Lemma length_keccakRound a rc : length (keccakRound a rc) = 25%nat.
Proof.
  unfold keccakRound, iota. pose proof (length_lanes (λ x y, Z.lxor (lane (rhoPi (theta a)) x y)
    (Z.land (not64 (lane (rhoPi (theta a)) (x + 1) y)) (lane (rhoPi (theta a)) (x + 2) y)))) as H.
  unfold chi. destruct (lanes _); done.
Qed.

Lemma length_keccakF a : length (keccakF a) = 25%nat.
Proof.
  assert (H : ∀ l a, length a = 25%nat → length (foldl keccakRound a l) = 25%nat).
  { induction l as [|rc l IH]; intros b Hb; [exact Hb|]. cbn [foldl]. apply IH, length_keccakRound. }
  unfold keccakF, iotaConstants. cbn [foldl]. apply (H []), length_keccakRound.
Qed.

Lemma length_concat_le (l : list Z) : length (concat (le_bytes 8 <$> l)) = (8 * length l)%nat.
Proof. induction l as [|x l IH]; [done|]. rewrite fmap_cons. cbn [concat]. rewrite length_app, le_bytes_length, IH. cbn [length]. lia. Qed.

Lemma length_Sum3_512 data : length (Sum3_512 data) = 64%nat.
Proof.
  unfold Sum3_512. rewrite length_concat_le, length_take.
  assert (H : ∀ l a, length a = 25%nat → length (foldl absorb a l) = 25%nat).
  { induction l as [|b l IH]; intros a Ha; [exact Ha|]. cbn [foldl]. apply IH, length_keccakF. }
  rewrite H by (by rewrite length_replicate). reflexivity.
Qed.

(** The digest of the empty string. *)
Example Sum3_512_empty :
  take 8 (Sum3_512 []) = [0xa6; 0x9f; 0x73; 0xcc; 0xa2; 0x3a; 0x9a; 0xc5].
Proof. vm_compute. reflexivity. Qed.
