(* ===== verification/Ristretto.v ===== *)
(** Ristretto: the interface of the cryptographic packages that
    programs/token-2022 calls (curve25519-voi scalars and ristretto255 points,
    Merlin transcripts, SHAKE256, AES-GCM-SIV, a random source) as operations and
    their documented laws, with the linear algebra over the group that the
    proof systems share. *)
From Stdlib Require Import ZArith Lia Field.
From stdpp Require Import base numbers list.
From S2P Require Import Prelude.

Open Scope Z_scope.

(** * Operations *)

(** Scalars modulo the group order and points of the group. A constructor that
    can fail returns an option. *)
Class Ristretto := {
  Scalar : Type;
  Point : Type;
  Scalar_eq_dec :: EqDecision Scalar;
  Point_eq_dec :: EqDecision Point;
  sNew : Scalar;
  sOne : Scalar;
  sAdd : Scalar → Scalar → Scalar;
  sSub : Scalar → Scalar → Scalar;
  sMul : Scalar → Scalar → Scalar;
  sNeg : Scalar → Scalar;
  sInvert : Scalar → Scalar;
  BatchInvert : list Scalar → list Scalar * Scalar;
  SetUint64 : Z → Scalar;
  NewFromCanonicalBytes : bytes → option Scalar;
  NewFromBytesModOrderWide : bytes → option Scalar;
  ToBytes : Scalar → bytes;
  identity : Point;
  BASEPOINT : Point;
  pAdd : Point → Point → Point;
  pSub : Point → Point → Point;
  pMul : Point → Scalar → Point;
  MulBasepoint : Scalar → Point;
  MultiscalarMul : list Scalar → list Point → Point;
  MultiscalarMulVartime : list Scalar → list Point → Point;
  SetRistrettoPoint : Point → bytes;
  UnmarshalBinary : bytes → option Point;
  SetUniformBytes : bytes → option Point;
}.

(** Randomness is read from a source that is passed along: [SetRandom] draws a
    scalar, [ReadRandom] some bytes. *)
Class Random `{R : Ristretto} := {
  Reader : Type;
  SetRandom : Reader → option (Scalar * Reader);
  ReadRandom : Reader → Z → option (bytes * Reader);
}.

(** Merlin transcripts; extracting challenge bytes changes the transcript. *)
Class Merlin := {
  Transcript : Type;
  NewTranscript : bytes → Transcript;
  AppendMessage : Transcript → bytes → bytes → Transcript;
  ExtractBytes : Transcript → bytes → Z → bytes * Transcript;
}.

(** The SHAKE256 sponge of golang.org/x/crypto/sha3. *)
Class Shake := {
  ShakeState : Type;
  NewShake256 : ShakeState;
  ShakeWrite : ShakeState → bytes → option ShakeState;
  ShakeRead : ShakeState → Z → option (bytes * ShakeState);
}.

(** AES-GCM-SIV of ericlagergren/siv: [Seal key nonce plaintext] and its inverse. *)
Class GcmSiv := {
  NewGCM : bytes → bool;
  Seal : bytes → bytes → bytes → bytes;
  Open_ : bytes → bytes → bytes → option bytes;
}.

(** * Laws *)

(** The sum [Σ s_i • p_i]. *)
Fixpoint msm `{Ristretto} (ss : list Scalar) (ps : list Point) : Point :=
  match ss, ps with
  | s :: ss', p :: ps' => pAdd (pMul p s) (msm ss' ps')
  | _, _ => identity
  end.

Class RistrettoLaws (R : Ristretto) : Prop := {
  scalar_field : field_theory sNew sOne sAdd sMul sSub sNeg (λ a b, sMul a (sInvert b)) sInvert eq;
  BatchInvert_spec : ∀ l, Forall (λ s, s ≠ sNew) l → BatchInvert l = (sInvert <$> l, sInvert (foldr sMul sOne l));
  SetUint64_0 : SetUint64 0 = sNew;
  SetUint64_1 : SetUint64 1 = sOne;
  SetUint64_add : ∀ a b, 0 ≤ a → 0 ≤ b → a + b < 2 ^ 64 → SetUint64 (a + b) = sAdd (SetUint64 a) (SetUint64 b);
  ToBytes_length : ∀ s, length (ToBytes s) = 32%nat;
  NewFromCanonicalBytes_ToBytes : ∀ s, NewFromCanonicalBytes (ToBytes s) = Some s;
  ToBytes_NewFromCanonicalBytes : ∀ b s, NewFromCanonicalBytes b = Some s → ToBytes s = b;
  NewFromBytesModOrderWide_ok : ∀ b, length b = 64%nat → is_Some (NewFromBytesModOrderWide b);
  pAdd_assoc : ∀ p q r, pAdd p (pAdd q r) = pAdd (pAdd p q) r;
  pAdd_comm : ∀ p q, pAdd p q = pAdd q p;
  pAdd_identity : ∀ p, pAdd p identity = p;
  pSub_pAdd : ∀ p q, pAdd (pSub p q) q = p;
  pMul_sAdd : ∀ p a b, pMul p (sAdd a b) = pAdd (pMul p a) (pMul p b);
  pMul_pAdd : ∀ p q a, pMul (pAdd p q) a = pAdd (pMul p a) (pMul q a);
  pMul_sMul : ∀ p a b, pMul p (sMul a b) = pMul (pMul p a) b;
  pMul_sOne : ∀ p, pMul p sOne = p;
  MulBasepoint_spec : ∀ s, MulBasepoint s = pMul BASEPOINT s;
  MultiscalarMul_spec : ∀ ss ps, length ss = length ps → MultiscalarMul ss ps = msm ss ps;
  MultiscalarMulVartime_spec : ∀ ss ps, length ss = length ps → MultiscalarMulVartime ss ps = msm ss ps;
  SetRistrettoPoint_length : ∀ p, length (SetRistrettoPoint p) = 32%nat;
  SetRistrettoPoint_ok : ∀ p, bytes_ok (SetRistrettoPoint p);
  SetRistrettoPoint_identity : SetRistrettoPoint identity = zeros 32;
  UnmarshalBinary_SetRistrettoPoint : ∀ p, UnmarshalBinary (SetRistrettoPoint p) = Some p;
  SetRistrettoPoint_UnmarshalBinary : ∀ b p, UnmarshalBinary b = Some p → SetRistrettoPoint p = b;
  SetUniformBytes_ok : ∀ b, length b = 64%nat → is_Some (SetUniformBytes b);
}.

(** The order of the base point is larger than any 32-bit amount. *)
Class LargeOrder (R : Ristretto) : Prop :=
  basepoint_order : ∀ n, 0 < n < 2 ^ 32 → pMul BASEPOINT (SetUint64 n) ≠ identity.

Class MerlinLaws (M : Merlin) : Prop :=
  ExtractBytes_length : ∀ t l n, 0 ≤ n → len (ExtractBytes t l n).1 = n.

Class ShakeLaws (S : Shake) : Prop := {
  ShakeWrite_ok : ∀ st b, is_Some (ShakeWrite st b);
  ShakeRead_ok : ∀ st n, 0 ≤ n → ∃ b st', ShakeRead st n = Some (b, st') ∧ len b = n;
}.

Class GcmSivLaws (C : GcmSiv) : Prop := {
  NewGCM_ok : ∀ key, length key = 16%nat → NewGCM key = true;
  Seal_length : ∀ key nonce pt, len (Seal key nonce pt) = len pt + 16;
  Open_Seal : ∀ key nonce pt, NewGCM key = true → len nonce = 12 → Open_ key nonce (Seal key nonce pt) = Some pt;
}.

(** * Linear algebra *)

Section linear.
Context `{R : Ristretto} {L : RistrettoLaws R}.

#[local] Definition sDiv (a b : Scalar) : Scalar := sMul a (sInvert b).
#[local] Lemma scalar_field' : field_theory sNew sOne sAdd sMul sSub sNeg sDiv sInvert eq.
Proof. exact scalar_field. Qed.
Add Field linear_field : scalar_field'.

Lemma pAdd_cancel p q r : pAdd p r = pAdd q r → p = q.
Proof.
  intros H.
  assert (E : ∀ x, pAdd (pAdd x r) (pSub identity r) = x).
  { intros x. rewrite <-pAdd_assoc, (pAdd_comm r), pSub_pAdd. apply pAdd_identity. }
  rewrite <-(E p), <-(E q). by rewrite H.
Qed.

Lemma pMul_sNew p : pMul p sNew = identity.
Proof.
  apply (pAdd_cancel _ _ (pMul p sNew)). rewrite <-pMul_sAdd.
  replace (sAdd sNew sNew) with (sNew : Scalar) by ring. by rewrite pAdd_comm, pAdd_identity.
Qed.

Lemma pMul_identity a : pMul identity a = identity.
Proof.
  apply (pAdd_cancel _ _ (pMul identity a)). rewrite <-pMul_pAdd, pAdd_identity.
  by rewrite pAdd_comm, pAdd_identity.
Qed.

Lemma pSub_spec p q : pSub p q = pAdd p (pMul q (sNeg sOne)).
Proof.
  apply (pAdd_cancel _ _ q). rewrite pSub_pAdd, <-pAdd_assoc.
  rewrite <-(pMul_sOne q) at 2. rewrite <-pMul_sAdd.
  replace (sAdd (sNeg sOne) sOne) with (sNew : Scalar) by ring.
  by rewrite pMul_sNew, pAdd_identity.
Qed.

Lemma pMul_identity_inv p k : pMul p k = identity → k = sNew ∨ p = identity.
Proof.
  intros H. destruct (decide (k = sNew)) as [|Hk]; [by left|right].
  rewrite <-(pMul_sOne p). replace (sOne : Scalar) with (sMul k (sInvert k)) by (field; done).
  by rewrite pMul_sMul, H, pMul_identity.
Qed.

(** An expression over points; [coef n e] is the coefficient of the point [n]. *)
Inductive pexp :=
  | PVar (n : nat)
  | PZero
  | PAdd (a b : pexp)
  | PSub (a b : pexp)
  | PMul (a : pexp) (k : Scalar).

Fixpoint denote (env : list Point) (e : pexp) : Point :=
  match e with
  | PVar n => nth n env identity
  | PZero => identity
  | PAdd a b => pAdd (denote env a) (denote env b)
  | PSub a b => pSub (denote env a) (denote env b)
  | PMul a k => pMul (denote env a) k
  end.

Fixpoint coef (n : nat) (e : pexp) : Scalar :=
  match e with
  | PVar m => if Nat.eqb n m then sOne else sNew
  | PZero => sNew
  | PAdd a b => sAdd (coef n a) (coef n b)
  | PSub a b => sSub (coef n a) (coef n b)
  | PMul a k => sMul (coef n a) k
  end.

(** [Σ c_i • env_i] for the indices from [k]. *)
Fixpoint combination (c : nat → Scalar) (k : nat) (env : list Point) : Point :=
  match env with
  | [] => identity
  | p :: env' => pAdd (pMul p (c k)) (combination c (S k) env')
  end.

Lemma pAdd_shuffle a b c d : pAdd (pAdd a b) (pAdd c d) = pAdd (pAdd a c) (pAdd b d).
Proof. by rewrite <-!pAdd_assoc, (pAdd_assoc b), (pAdd_comm b c), <-(pAdd_assoc c). Qed.

Lemma combination_add c d k env :
  combination (λ n, sAdd (c n) (d n)) k env = pAdd (combination c k env) (combination d k env).
Proof.
  revert k. induction env as [|p env IH]; intros k; cbn; [by rewrite pAdd_identity|].
  by rewrite IH, pMul_sAdd, pAdd_shuffle.
Qed.

Lemma combination_mul c a k env :
  combination (λ n, sMul (c n) a) k env = pMul (combination c k env) a.
Proof.
  revert k. induction env as [|p env IH]; intros k; cbn; [by rewrite pMul_identity|].
  by rewrite IH, pMul_sMul, pMul_pAdd.
Qed.

Lemma combination_ext c d k env :
  (∀ n, (k ≤ n < k + length env)%nat → c n = d n) → combination c k env = combination d k env.
Proof.
  revert k. induction env as [|p env IH]; intros k H; cbn; [done|].
  rewrite (H k), (IH (S k)); [done| |cbn; lia]. intros n Hn. apply H. cbn. lia.
Qed.

Lemma combination_zero k env : combination (λ _, sNew) k env = identity.
Proof.
  revert k. induction env as [|p env IH]; intros k; cbn; [done|].
  by rewrite IH, pMul_sNew, pAdd_identity.
Qed.

Lemma combination_var n k env :
  combination (λ m, if Nat.eqb m (k + n) then sOne else sNew) k env = nth n env identity.
Proof.
  revert n k. induction env as [|p env IH]; intros [|n] k; cbn; try done.
  - rewrite Nat.add_0_r, Nat.eqb_refl, pMul_sOne.
    rewrite (combination_ext _ (λ _, sNew)), combination_zero; [by rewrite pAdd_identity|].
    intros m Hm. by destruct (Nat.eqb_spec m k); [lia|].
  - destruct (Nat.eqb_spec k (k + S n)); [lia|]. rewrite pMul_sNew, pAdd_comm, pAdd_identity.
    rewrite <-(IH n (S k)). apply combination_ext. intros m _. by replace (k + S n)%nat with (S k + n)%nat by lia.
Qed.

Lemma denote_combination env e : denote env e = combination (λ n, coef n e) 0 env.
Proof.
  induction e as [n| |a IHa b IHb|a IHa b IHb|a IHa k]; cbn.
  - by rewrite <-(combination_var n 0 env).
  - by rewrite combination_zero.
  - by rewrite IHa, IHb, <-combination_add.
  - rewrite IHa, IHb, pSub_spec, <-combination_mul, <-combination_add.
    apply combination_ext. intros n _. ring.
  - by rewrite IHa, <-combination_mul.
Qed.

(** The coefficients of two expressions agree on the first [k] points. *)
Fixpoint agree (k : nat) (e1 e2 : pexp) : Prop :=
  match k with O => True | S k' => coef k' e1 = coef k' e2 ∧ agree k' e1 e2 end.

Lemma denote_eq env e1 e2 : agree (length env) e1 e2 → denote env e1 = denote env e2.
Proof.
  intros H. rewrite !denote_combination. apply combination_ext. intros n Hn.
  assert (G : ∀ k, agree k e1 e2 → (n < k)%nat → coef n e1 = coef n e2).
  { induction k as [|k IH]; [lia|]. intros [Hk Hr] Hlt.
    destruct (decide (n = k)) as [->|]; [done|]. apply IH; [done|lia]. }
  apply (G (length env)); [done|lia].
Qed.

Lemma UnmarshalBinary_length b p : UnmarshalBinary b = Some p → length b = 32%nat.
Proof. intros H. by rewrite <-(SetRistrettoPoint_UnmarshalBinary b p H), SetRistrettoPoint_length. Qed.

Lemma NewFromCanonicalBytes_length b s : NewFromCanonicalBytes b = Some s → length b = 32%nat.
Proof. intros H. by rewrite <-(ToBytes_NewFromCanonicalBytes b s H), ToBytes_length. Qed.

Lemma SetRistrettoPoint_inj p q : SetRistrettoPoint p = SetRistrettoPoint q → p = q.
Proof.
  intros H. pose proof (UnmarshalBinary_SetRistrettoPoint p) as E.
  rewrite H, UnmarshalBinary_SetRistrettoPoint in E. by injection E.
Qed.

Lemma SetUint64_mul a b :
  0 ≤ a → 0 ≤ b → a * b < 2 ^ 64 → SetUint64 (a * b) = sMul (SetUint64 a) (SetUint64 b).
Proof.
  intros Ha Hb. revert a Ha. apply (natlike_ind (λ a, a * b < 2 ^ 64 → SetUint64 (a * b) = sMul (SetUint64 a) (SetUint64 b))).
  - intros _. rewrite Z.mul_0_l, SetUint64_0. ring.
  - intros a Ha IH Hlt. destruct (decide (b = 0)) as [->|].
    { rewrite Z.mul_0_r, SetUint64_0. ring. }
    replace (Z.succ a * b) with (a * b + b) by lia.
    rewrite SetUint64_add, IH by nia.
    rewrite <-Z.add_1_r, SetUint64_add, SetUint64_1 by nia. ring.
Qed.
End linear.

(** Reification of a goal [p = q] between points into [denote_eq]; the goals left
    are the equations between the coefficients. *)
Ltac in_list x l :=
  match l with
  | nil => constr:(false)
  | ?y :: ?l' => match constr:(Set) with
                 | _ => let _ := constr:(eq_refl : x = y) in constr:(true)
                 | _ => in_list x l'
                 end
  end.
Ltac points e acc :=
  lazymatch e with
  | pAdd ?a ?b => let acc := points a acc in points b acc
  | pSub ?a ?b => let acc := points a acc in points b acc
  | pMul ?a _ => points a acc
  | identity => acc
  | ?x => match in_list x acc with
          | true => acc
          | false => constr:(x :: acc)
          end
  end.
Ltac position x l :=
  match l with
  | ?y :: ?l' => match constr:(Set) with
                 | _ => let _ := constr:(eq_refl : x = y) in constr:(O)
                 | _ => let n := position x l' in constr:(S n)
                 end
  end.
Ltac reify env e :=
  lazymatch e with
  | pAdd ?a ?b => let a := reify env a in let b := reify env b in constr:(PAdd a b)
  | pSub ?a ?b => let a := reify env a in let b := reify env b in constr:(PSub a b)
  | pMul ?a ?k => let a := reify env a in constr:(PMul a k)
  | identity => constr:(PZero)
  | ?x => let n := position x env in constr:(PVar n)
  end.
Ltac module_eq :=
  lazymatch goal with
  | |- ?p = ?q =>
    let T := type of p in
    let env := points p (@nil T) in
    let env := points q env in
    let e1 := reify env p in
    let e2 := reify env q in
    change (denote env e1 = denote env e2);
    apply denote_eq; cbn [agree length coef Nat.eqb]; repeat split
  end.
