(* ===== verification/ToyGroup.v ===== *)
(** ToyGroup: a model of the interface of [Ristretto], which shows that its laws can
    hold and on which witnesses are evaluated: scalars and points are the integers
    modulo a prime, the base point is one. The transcript, the random source, the
    sponge and the cipher are the simplest functions with the required shapes. *)
From Stdlib Require Import ZArith Lia Znumtheory Field Zmod.Zmod.
From stdpp Require Import base numbers list.
From S2P Require Import Prelude Ristretto.

Open Scope Z_scope.

(** * Primality *)

Lemma prime_divisor n : 1 < n → ∃ r, Z.prime r ∧ (r | n) ∧ r ≤ n.
Proof.
  intros H1. pose proof H1 as H0. revert H0.
  apply (Z_lt_induction (λ n, 1 < n → ∃ r, Z.prime r ∧ (r | n) ∧ r ≤ n)); [|lia].
  clear n H1. intros n IH Hn. destruct (prime_dec n) as [Hp|Hp].
  - exists n. split; [by apply prime_alt|]. split; [apply Z.divide_refl|lia].
  - destruct (not_prime_divide n Hn Hp) as (m & Hm & Hd).
    destruct (IH m) as (r & Hr & Hrm & Hle); [lia|lia|]. exists r. split; [done|]. split; [by transitivity m|lia].
Qed.

(** A number without a prime divisor up to its square root is prime. *)
Lemma prime_by_divisors n : 1 < n → (∀ r, Z.prime r → r * r ≤ n → ¬ (r | n)) → Z.prime n.
Proof.
  intros Hn H. split; [done|]. intros m Hm [k Hk].
  assert (1 < k) by nia.
  destruct (Z.le_ge_cases m k).
  - destruct (prime_divisor m) as (r & Hr & Hd & Hle); [lia|]. apply (H r Hr).
    + pose proof (Z.prime_ge_2 r Hr). nia.
    + transitivity m; [done|]. by exists k.
  - destruct (prime_divisor k) as (r & Hr & Hd & Hle); [lia|]. apply (H r Hr).
    + pose proof (Z.prime_ge_2 r Hr). nia.
    + transitivity k; [done|]. exists m. lia.
Qed.

(** Trial division by the numbers from [k]. *)
Fixpoint noDivisor (fuel : nat) (k n : Z) : bool :=
  match fuel with
  | O => false
  | S fuel' => if n <? k * k then true else if n mod k =? 0 then false else noDivisor fuel' (k + 1) n
  end.

Lemma noDivisor_spec fuel k n : 1 < k → noDivisor fuel k n = true → ∀ r, k ≤ r → r * r ≤ n → ¬ (r | n).
Proof.
  revert k. induction fuel as [|fuel IH]; intros k Hk H r Hr Hsq; cbn in H; [done|].
  destruct (Z.ltb_spec n (k * k)); [nia|]. destruct (Z.eqb_spec (n mod k) 0) as [|Hmod]; [done|].
  destruct (decide (r = k)) as [->|].
  - intros Hd. apply Hmod. by apply Z.mod_divide; [lia|].
  - apply (IH (k + 1)); lia || done.
Qed.

Lemma prime_trial fuel n : 1 < n → noDivisor fuel 2 n = true → Z.prime n.
Proof.
  intros Hn H. apply prime_by_divisors; [done|]. intros r Hr Hsq.
  apply (noDivisor_spec fuel 2); [lia|done|by apply Z.prime_ge_2|done].
Qed.

Lemma pow_mod_one b e m : 1 < m → 0 ≤ e → b mod m = 1 → b ^ e mod m = 1.
Proof.
  intros Hm He Hb. rewrite <-Z.mod_pow_l, Hb, Z.pow_1_l by lia. by apply Z.mod_1_l.
Qed.

(** Pocklington's criterion with one large prime factor [q] of [n - 1]. *)
Lemma prime_pocklington n q k a :
  1 < n → Z.prime q → n = k * q + 1 → 0 < k → n < q * q → 0 < a →
  a ^ (k * q) mod n = 1 → Z.gcd (a ^ k - 1) n = 1 → Z.prime n.
Proof.
  intros Hn Hq Hkq Hk Hlt Ha Hpow Hgcd. apply prime_by_divisors; [done|]. intros r Hr Hsq [t Ht].
  pose proof (Z.prime_ge_2 r Hr). pose proof (Z.prime_ge_2 q Hq).
  assert (r - 1 < q) by nia.
  assert (Hb : (a ^ k) ^ q mod r = 1).
  { rewrite <-Z.pow_mul_r by lia. pose proof (Z.div_mod (a ^ (k * q)) n ltac:(lia)) as E. rewrite Hpow in E.
    rewrite E, Ht. replace (t * r * (a ^ (k * q) / (t * r)) + 1) with (1 + (t * (a ^ (k * q) / (t * r))) * r) by lia.
    rewrite Z_mod_plus_full. apply Z.mod_1_l. lia. }
  assert (Hnz : a ^ k mod r ≠ 0).
  { intros E. rewrite <-Z.mod_pow_l, E, Z.pow_0_l, Zmod_0_l in Hb by lia. done. }
  pose proof (Z.fermat_nz r (a ^ k) Hr Hnz) as Hf.
  destruct (Z.Bezout_coprime q (r - 1)) as (u & v & Huv).
  { apply Z.coprime_prime_small; [done|lia]. }
  set (u' := u mod (r - 1) + (r - 1)).
  assert (Hu' : r - 1 ≤ u') by (pose proof (Z.mod_pos_bound u (r - 1)); lia).
  assert (∃ w, u' * q = 1 + w * (r - 1)) as [w Hw].
  { exists (q - v - u / (r - 1) * q). unfold u'. rewrite Z.mod_eq by lia. nia. }
  assert (0 ≤ w) by nia.
  assert (E1 : (a ^ k) ^ (u' * q) mod r = 1).
  { rewrite Z.mul_comm, Z.pow_mul_r by lia. apply pow_mod_one; lia. }
  assert (E2 : (a ^ k) ^ (u' * q) mod r = a ^ k mod r).
  { rewrite Hw, Z.pow_add_r, Z.pow_1_r by nia. rewrite Z.mul_comm, Z.mul_mod, (Z.mul_comm w), Z.pow_mul_r by lia.
    rewrite (pow_mod_one ((a ^ k) ^ (r - 1))) by lia. by rewrite Z.mul_1_l, Z.mod_mod by lia. }
  assert (Hd : (r | a ^ k - 1)).
  { apply Z.mod_divide; [lia|]. rewrite Zminus_mod, <-E2, E1, Z.mod_1_l by lia. done. }
  assert (Hg : (r | Z.gcd (a ^ k - 1) n)) by (apply Z.gcd_greatest; [done|by exists t]).
  rewrite Hgcd in Hg. apply Z.divide_1_r in Hg. lia.
Qed.

(** The same with the powers computed modulo [n]. *)
Lemma prime_certificate n q k a :
  1 < n → Z.prime q → n = k * q + 1 → 0 < k → n < q * q → 0 < a < n →
  Zmod.to_Z (Zmod.pow (Zmod.of_Z n a) (k * q)) = 1 →
  Z.gcd (Zmod.to_Z (Zmod.pow (Zmod.of_Z n a) k) - 1) n = 1 → Z.prime n.
Proof.
  intros Hn Hq Hkq Hk Hlt Ha Hp Hg. pose proof (Z.prime_ge_2 q Hq).
  rewrite Zmod.unsigned_pow_nonneg_r, Zmod.unsigned_of_Z_small in Hp by nia.
  rewrite Zmod.unsigned_pow_nonneg_r, Zmod.unsigned_of_Z_small in Hg by nia.
  apply (prime_pocklington n q k a); try done; try lia.
  etrans; [|exact Hg]. rewrite <-(Z.gcd_mod_l (a ^ k - 1)), <-(Z.gcd_mod_l (_ mod _ - 1)).
  f_equal. by rewrite Zminus_mod_idemp_l.
Qed.

(** * The group *)

Definition toyEncode {p} (z : Zmod p) : bytes := le_bytes 32 (Zmod.to_Z z).
Definition toyDecode (p : Z) (b : bytes) : option (Zmod p) :=
  if decide (length b = 32%nat ∧ Forall is_byte b ∧ le_val b < p) then Some (Zmod.of_Z p (le_val b)) else None.
Definition toyWide (p : Z) (b : bytes) : option (Zmod p) :=
  if decide (length b = 64%nat) then Some (Zmod.of_Z p (le_val b)) else None.

#[global] Instance Zmod_eq_decision p : EqDecision (Zmod p).
Proof. intros x y. destruct (Z.eq_dec (Zmod.to_Z x) (Zmod.to_Z y)) as [E|E].
  - left. by apply Zmod.unsigned_inj.
  - right. intros ->. done.
Defined.

Definition toySum {p} (ss ps : list (Zmod p)) : Zmod p :=
  foldr Zmod.add Zmod.zero (zip_with Zmod.mul ps ss).

Definition toyGroup (p : Z) : Ristretto := {|
  Scalar := Zmod p;
  Point := Zmod p;
  sNew := Zmod.zero;
  sOne := Zmod.one;
  sAdd := Zmod.add;
  sSub := Zmod.sub;
  sMul := Zmod.mul;
  sNeg := Zmod.opp;
  sInvert := Zmod.inv;
  BatchInvert := λ l, (Zmod.inv <$> l, Zmod.inv (foldr Zmod.mul Zmod.one l));
  SetUint64 := Zmod.of_Z p;
  NewFromCanonicalBytes := toyDecode p;
  NewFromBytesModOrderWide := toyWide p;
  ToBytes := toyEncode;
  identity := Zmod.zero;
  BASEPOINT := Zmod.one;
  pAdd := Zmod.add;
  pSub := Zmod.sub;
  pMul := Zmod.mul;
  MulBasepoint := λ s, s;
  MultiscalarMul := toySum;
  MultiscalarMulVartime := toySum;
  SetRistrettoPoint := toyEncode;
  UnmarshalBinary := toyDecode p;
  SetUniformBytes := toyWide p;
|}.

Section laws.
Context (p : Z) (Hp : Z.prime p) (Hb : p ≤ 2 ^ 64).

Lemma toy_bound (z : Zmod p) : 0 ≤ Zmod.to_Z z < p.
Proof. pose proof (Z.prime_ge_2 p Hp). pose proof (Zmod.unsigned_range z). lia. Qed.

Lemma toyDecode_encode (z : Zmod p) : toyDecode p (toyEncode z) = Some z.
Proof.
  pose proof (toy_bound z) as Hz. unfold toyDecode, toyEncode. rewrite le_val_le_bytes by lia.
  rewrite decide_True by (rewrite le_bytes_length; split_and!; [done|apply le_bytes_ok|lia]).
  by rewrite Zmod.of_Z_to_Z.
Qed.

Lemma toyEncode_decode b (z : Zmod p) : toyDecode p b = Some z → toyEncode z = b.
Proof.
  unfold toyDecode, toyEncode. case_decide as H; [|done]. destruct H as (Hl & Ho & Hlt). intros [= <-].
  rewrite Zmod.unsigned_of_Z_small by (pose proof (le_val_bound b Ho); lia). rewrite <-Hl. by apply le_bytes_le_val.
Qed.

Lemma toySum_msm (ss ps : list (Zmod p)) : toySum ss ps = msm (H := toyGroup p) ss ps.
Proof.
  revert ps. induction ss as [|s ss IH]; intros [|q ps]; [done|done|done|]. cbn. by rewrite <-IH.
Qed.

Lemma toy_laws : RistrettoLaws (toyGroup p).
Proof.
  pose proof (Zmod.field_theory p Hp) as F. pose proof (F_R F) as Rt.
  split; cbn -[toyEncode zeros le_bytes Z.pow].
  - destruct F as [F1 F2 F3 F4]. split; done.
  - done.
  - done.
  - done.
  - intros a b _ _ _. by rewrite Zmod.of_Z_add.
  - intros s. apply le_bytes_length.
  - apply toyDecode_encode.
  - apply toyEncode_decode.
  - intros b Hl. unfold toyWide. by rewrite decide_True.
  - intros. apply Zmod.add_assoc.
  - intros. apply Zmod.add_comm.
  - intros. apply Zmod.add_0_r.
  - intros x y. rewrite Rt.(Rsub_def), <-Zmod.add_assoc, (Zmod.add_comm (Zmod.opp y)), Rt.(Ropp_def). apply Zmod.add_0_r.
  - intros. apply Zmod.mul_add_r.
  - intros. apply Zmod.mul_add_l.
  - intros. apply Zmod.mul_assoc.
  - intros. apply Zmod.mul_1_r.
  - intros s. by rewrite Zmod.mul_1_l.
  - intros. apply toySum_msm.
  - intros. apply toySum_msm.
  - intros q. apply le_bytes_length.
  - intros q. apply le_bytes_ok.
  - pose proof (Z.prime_ge_2 p Hp). unfold toyEncode. by rewrite Zmod.unsigned_0.
  - apply toyDecode_encode.
  - apply toyEncode_decode.
  - intros b Hl. unfold toyWide. by rewrite decide_True.
Qed.
End laws.

(** A modulus above every 32-bit amount, and a small one. *)
Definition toyModulus : Z := 4295294963.
Lemma toyModulus_prime : Z.prime toyModulus.
Proof.
  apply (prime_certificate toyModulus 65543 65534 2); [done| |done|done|done|done| |].
  - apply (prime_trial 256); [done|]. vm_compute. reflexivity.
  - vm_compute. reflexivity.
  - vm_compute. reflexivity.
Qed.

#[global] Instance toy : Ristretto := toyGroup toyModulus.
Definition toyScalar (n : Z) : @Scalar toy := Zmod.of_Z toyModulus n.
#[global] Instance toy_RistrettoLaws : RistrettoLaws toy.
Proof. apply toy_laws; [apply toyModulus_prime|done]. Qed.
#[global] Instance toy_LargeOrder : LargeOrder toy.
Proof.
  intros n Hn. cbn. rewrite Zmod.mul_1_l. intros E. apply (f_equal Zmod.to_Z) in E.
  rewrite Zmod.unsigned_of_Z_small, Zmod.unsigned_0 in E; unfold toyModulus in *; lia.
Qed.

Lemma toy_nonzero n : 0 < n < toyModulus → toyScalar n ≠ sNew.
Proof.
  intros Hn E. apply (f_equal Zmod.to_Z) in E. unfold toyScalar in E.
  change (@sNew toy) with (@Zmod.zero toyModulus) in E. rewrite Zmod.unsigned_of_Z_small, Zmod.unsigned_0 in E by lia. lia.
Qed.

(** * The other packages *)

(** A running state of 61 bits. *)
Definition mix (st v : Z) : Z := (st * 1000003 + v + 12345) mod 2305843009213693951.

#[global] Instance toyRandom : Random := {|
  Reader := Z;
  SetRandom := λ r, let r := mix r 1 in Some (Zmod.of_Z toyModulus r, r);
  ReadRandom := λ r n, let r := mix r 2 in Some (le_bytes (Z.to_nat n) r, r);
|}.
#[global] Instance toyMerlin : Merlin := {|
  Transcript := Z;
  NewTranscript := λ l, mix 0 (le_val l);
  AppendMessage := λ t l m, mix (mix t (le_val l)) (le_val m);
  ExtractBytes := λ t l n, let t := mix t (le_val l) in (le_bytes (Z.to_nat n) t, t);
|}.
#[global] Instance toyShake : Shake := {|
  ShakeState := Z;
  NewShake256 := 1;
  ShakeWrite := λ st b, Some (mix st (le_val b));
  ShakeRead := λ st n, let st := mix st 3 in Some (le_bytes (Z.to_nat n) st, st);
|}.
#[global] Instance toyGcmSiv : GcmSiv := {|
  NewGCM := λ key, bool_decide (length key = 16%nat);
  Seal := λ _ _ pt, pt ++ zeros 16;
  Open_ := λ _ _ ct, Some (take (length ct - 16) ct);
|}.

#[global] Instance toy_MerlinLaws : MerlinLaws toyMerlin.
Proof. intros t l n Hn. cbn. rewrite len_le_bytes. lia. Qed.
#[global] Instance toy_ShakeLaws : ShakeLaws toyShake.
Proof.
  split; [done|]. intros st n Hn. cbn. eexists _, _. split; [done|]. rewrite len_le_bytes. lia.
Qed.
#[global] Instance toy_GcmSivLaws : GcmSivLaws toyGcmSiv.
Proof.
  split; cbn -[zeros].
  - intros key H. by apply bool_decide_eq_true.
  - intros. rewrite len_app. done.
  - intros key nonce pt _ _. rewrite length_app, length_zeros. rewrite take_app_le by lia. f_equal. apply take_ge. lia.
Qed.
