(* ===== verification/ProgramIds.v ===== *)
(** ProgramIds: the well-known addresses of program_ids.go. Each is a base58
    literal in the source; [literal] reads the same literal as the 32-byte
    big-endian number whose base-58 digits it lists. *)
From Stdlib Require Import ZArith Lia Ascii String.
From stdpp Require Import base numbers strings list.
From S2P Require Import Prelude Keys Sha256.

Open Scope Z_scope.

(** The digit a character of the base58 alphabet stands for: the digits without
    0, the upper-case letters without I and O, the lower-case ones without l. *)
Definition digit58 (c : ascii) : Z :=
  let n := Z.of_nat (nat_of_ascii c) in
  if decide (n ≤ 57) then n - 49
  else if decide (n ≤ 72) then n - 56
  else if decide (n ≤ 78) then n - 57
  else if decide (n ≤ 90) then n - 58
  else if decide (n ≤ 107) then n - 64
  else n - 65.

Definition literal (s : string) : PublicKey :=
  be_bytes 32 (foldl (λ n c, 58 * n + digit58 c) 0 (list_ascii_of_string s)).

Definition SystemProgramID : PublicKey := literal "11111111111111111111111111111111".
Definition ConfigProgramID : PublicKey := literal "Config1111111111111111111111111111111111111".
Definition StakeProgramID : PublicKey := literal "Stake11111111111111111111111111111111111111".
Definition VoteProgramID : PublicKey := literal "Vote111111111111111111111111111111111111111".
Definition BPFLoaderDeprecatedProgramID : PublicKey := literal "BPFLoader1111111111111111111111111111111111".
Definition BPFLoaderProgramID : PublicKey := literal "BPFLoader2111111111111111111111111111111111".
Definition BPFLoaderUpgradeableProgramID : PublicKey := literal "BPFLoaderUpgradeab1e11111111111111111111111".
Definition LoaderV4ProgramID : PublicKey := literal "LoaderV411111111111111111111111111111111111".
Definition NativeLoaderID : PublicKey := literal "NativeLoader1111111111111111111111111111111".
Definition Secp256k1ProgramID : PublicKey := literal "KeccakSecp256k11111111111111111111111111111".
Definition FeatureProgramID : PublicKey := literal "Feature111111111111111111111111111111111111".
Definition ComputeBudgetProgramID : PublicKey := literal "ComputeBudget111111111111111111111111111111".
Definition ComputeBudget : PublicKey := ComputeBudgetProgramID.
Definition AddressLookupTableProgramID : PublicKey := literal "AddressLookupTab1e1111111111111111111111111".
Definition TokenProgramID : PublicKey := literal "TokenkegQfeZyiNwAJbNbGKPFXCWuBvf9Ss623VQ5DA".
Definition Token2022ProgramID : PublicKey := literal "TokenzQdBNbLqP5VEhdkAS6EPFLC1PHnBqCXEpPxuEb".
Definition TokenSwapProgramID : PublicKey := literal "SwaPpA9LAaLfeLi3a68M4DjnLqgtticKg6CnyNwgAC8".
Definition TokenSwapFeeOwner : PublicKey := literal "HfoTxFR1Tm6kGmWgYWD6J7YHVy1UwqSULUGVLXkJqaKN".
Definition TokenLendingProgramID : PublicKey := literal "LendZqTs8gn5CTSJU1jWKhKuVpjJGom45nnwPb2AMTi".
Definition SPLAssociatedTokenAccountProgramID : PublicKey := literal "ATokenGPvbdGVxr1b2hvZbsiqW5xWH25efTNsLJA8knL".
Definition MemoProgramID : PublicKey := literal "MemoSq4gqABAXKb96qnH8TysNcWxMyWCqXgDLGmfcHr".
Definition MemoProgramIDV1 : PublicKey := literal "Memo1UhkJRfHyvLMcVucJwxXeuD728EqVDDwQDxFMNo".
Definition TokenMetadataProgramID : PublicKey := literal "metaqbxxUerdq28cj1RbAWkYQm3ybzjb6a8bt518x1s".
Definition SolMint : PublicKey := literal "So11111111111111111111111111111111111111111".
Definition WrappedSol : PublicKey := literal "So11111111111111111111111111111111111111112".
Definition SysVarPubkey : PublicKey := literal "Sysvar1111111111111111111111111111111111111".
Definition SysVarClockPubkey : PublicKey := literal "SysvarC1ock11111111111111111111111111111111".
Definition SysVarEpochRewardsPubkey : PublicKey := literal "SysvarEpochRewards1111111111111111111111111".
Definition SysVarEpochSchedulePubkey : PublicKey := literal "SysvarEpochSchedu1e111111111111111111111111".
Definition SysVarFeesPubkey : PublicKey := literal "SysvarFees111111111111111111111111111111111".
Definition SysVarInstructionsPubkey : PublicKey := literal "Sysvar1nstructions1111111111111111111111111".
Definition SysVarLastRestartSlotPubkey : PublicKey := literal "SysvarLastRestartS1ot1111111111111111111111".
Definition SysVarRecentBlockHashesPubkey : PublicKey := literal "SysvarRecentB1ockHashes11111111111111111111".
Definition SysVarRentPubkey : PublicKey := literal "SysvarRent111111111111111111111111111111111".
Definition SysVarRewardsPubkey : PublicKey := literal "SysvarRewards111111111111111111111111111111".
Definition SysVarSlotHashesPubkey : PublicKey := literal "SysvarS1otHashes111111111111111111111111111".
Definition SysVarSlotHistoryPubkey : PublicKey := literal "SysvarS1otHistory11111111111111111111111111".
Definition SysVarStakeHistoryPubkey : PublicKey := literal "SysvarStakeHistory1111111111111111111111111".
Definition SysVarStakeConfigPubkey : PublicKey := literal "StakeConfig11111111111111111111111111111111".

(** The 38 literals denote 32-byte keys, no two the same. *)
Definition wellKnown : list PublicKey :=
  [SystemProgramID; ConfigProgramID; StakeProgramID; VoteProgramID; BPFLoaderDeprecatedProgramID; BPFLoaderProgramID;
   BPFLoaderUpgradeableProgramID; LoaderV4ProgramID; NativeLoaderID; Secp256k1ProgramID; FeatureProgramID;
   ComputeBudgetProgramID; AddressLookupTableProgramID; TokenProgramID; Token2022ProgramID; TokenSwapProgramID;
   TokenSwapFeeOwner; TokenLendingProgramID; SPLAssociatedTokenAccountProgramID; MemoProgramID; MemoProgramIDV1;
   TokenMetadataProgramID; SolMint; WrappedSol; SysVarPubkey; SysVarClockPubkey; SysVarEpochRewardsPubkey;
   SysVarEpochSchedulePubkey; SysVarFeesPubkey; SysVarInstructionsPubkey; SysVarLastRestartSlotPubkey;
   SysVarRecentBlockHashesPubkey; SysVarRentPubkey; SysVarRewardsPubkey; SysVarSlotHashesPubkey;
   SysVarSlotHistoryPubkey; SysVarStakeHistoryPubkey; SysVarStakeConfigPubkey].

Lemma wellKnown_ok : NoDup wellKnown ∧ Forall key_ok wellKnown.
Proof. split; apply (bool_decide_unpack _); by vm_compute. Qed.
