(* ===== verification/Pda.v ===== *)
(** Pda: program-derived addresses (pda.go): [CreateWithSeed],
    [CreateProgramAddress], [FindProgramAddress] and the associated-token and
    token-metadata derivations. Curve membership is curve25519-voi's
    decompression test, the [ed_decompresses] of class [Ed25519]. *)
From Stdlib Require Import ZArith Lia.
From stdpp Require Import base numbers list.
From S2P Require Import Prelude Keys PrivateKey Sha256 ProgramIds.

Open Scope Z_scope.

Definition MaxSeedLength : Z := 32.
Definition MaxSeeds : Z := 16.

(** "ProgramDerivedAddress" and "metadata" in ASCII. *)
Definition PDA_MARKER : bytes :=
  [80; 114; 111; 103; 114; 97; 109; 68; 101; 114; 105; 118; 101; 100; 65; 100; 100; 114; 101; 115; 115].
Definition metadataSeed : bytes := [109; 101; 116; 97; 100; 97; 116; 97].

Inductive pda_err := ErrMaxSeedLengthExceeded | ErrNoValidProgramAddress | errAddressOnCurve.

Definition pdaPreimageSize : Z := MaxSeeds * MaxSeedLength + PublicKeyLength + len PDA_MARKER.

Section pda.
Context `{ed : Ed25519}.

Definition IsOnCurve (p : PublicKey) : bool := isOnCurve p.

Definition CreateWithSeed (base : PublicKey) (seed : bytes) (owner : PublicKey)
    : outcome pda_err PublicKey :=
  if decide (MaxSeedLength < len seed) then Err ErrMaxSeedLengthExceeded else
  let buf := base in
  let buf := buf ++ seed in
  let buf := buf ++ owner in
  Ok (Sum256 buf).

Fixpoint appendPDAPreimage (buf : bytes) (seeds : list bytes) : outcome pda_err bytes :=
  match seeds with
  | [] => Ok buf
  | seed :: seeds' =>
    if decide (MaxSeedLength < len seed) then Err ErrMaxSeedLengthExceeded
    else appendPDAPreimage (buf ++ seed) seeds'
  end.

Definition CreateProgramAddress (programID : PublicKey) (seeds : list bytes)
    : outcome pda_err PublicKey :=
  if decide (MaxSeeds < len seeds) then Err ErrMaxSeedLengthExceeded else
  buf ← appendPDAPreimage [] seeds;
  let buf := buf ++ programID in
  let buf := buf ++ PDA_MARKER in
  let hash := Sum256 buf in
  if isOnCurve hash then Err errAddressOnCurve else Ok hash.

(** [for bump := n; bump > 0; bump-- { buf[bumpIdx] = byte(bump); ... }]. *)
Fixpoint searchBump (n : nat) (buf : bytes) (bumpIdx : nat) : outcome pda_err (PublicKey * Z) :=
  match n with
  | O => Err ErrNoValidProgramAddress
  | S n' =>
    let bump := Z.of_nat n in
    let buf := <[bumpIdx := u8 bump]> buf in
    let hash := Sum256 buf in
    if isOnCurve hash then searchBump n' buf bumpIdx else Ok (hash, u8 bump)
  end.

Definition FindProgramAddress (programID : PublicKey) (seeds : list bytes)
    : outcome pda_err (PublicKey * Z) :=
  if decide (MaxSeeds ≤ len seeds) then Err ErrMaxSeedLengthExceeded else
  buf ← appendPDAPreimage [] seeds;
  let bumpIdx := length buf in
  let buf := buf ++ [0] in
  let buf := buf ++ programID in
  let buf := buf ++ PDA_MARKER in
  searchBump 255 buf bumpIdx.

Definition FindAssociatedTokenAddressWithProgram (wallet mint tokenProgram : PublicKey)
    : outcome pda_err (PublicKey * Z) :=
  FindProgramAddress SPLAssociatedTokenAccountProgramID [wallet; tokenProgram; mint].

Definition FindAssociatedTokenAddress (wallet mint : PublicKey) : outcome pda_err (PublicKey * Z) :=
  FindAssociatedTokenAddressWithProgram wallet mint TokenProgramID.

Definition FindTokenMetadataAddress (mint : PublicKey) : outcome pda_err (PublicKey * Z) :=
  FindProgramAddress TokenMetadataProgramID [metadataSeed; TokenMetadataProgramID; mint].

End pda.

(** * Facts *)

Section facts.
Context `{ed : Ed25519}.

(** Seeds that fit are concatenated; one that does not is refused. *)
Definition seeds_fit (seeds : list bytes) : Prop := Forall (λ s, len s ≤ MaxSeedLength) seeds.

#[global] Instance seeds_fit_dec seeds : Decision (seeds_fit seeds).
Proof. unfold seeds_fit. apply _. Defined.

Lemma appendPDAPreimage_eq buf seeds :
  appendPDAPreimage buf seeds =
    if decide (seeds_fit seeds) then Ok (buf ++ concat seeds) else Err ErrMaxSeedLengthExceeded.
Proof.
  revert buf. induction seeds as [|s seeds IH]; intros buf; cbn [appendPDAPreimage].
  - rewrite decide_True by constructor. by rewrite app_nil_r.
  - destruct (decide (MaxSeedLength < len s)) as [Hs|Hs].
    + rewrite decide_False; [done|]. intros Hf. apply Forall_cons in Hf as [? _]. lia.
    + rewrite IH. destruct (decide (seeds_fit seeds)) as [Hf|Hf].
      * rewrite decide_True by (constructor; [cbn; lia|done]). cbn [concat]. by rewrite app_assoc.
      * rewrite decide_False; [done|]. intros Hf'. apply Hf. by apply Forall_cons in Hf' as [_ ?].
Qed.

(** The hash input of the derivation with seed list [seeds]. *)
Definition preimage (programID : PublicKey) (seeds : list bytes) : bytes :=
  concat seeds ++ programID ++ PDA_MARKER.

Lemma CreateProgramAddress_eq programID seeds :
  len seeds ≤ MaxSeeds → seeds_fit seeds →
  CreateProgramAddress programID seeds =
    let hash := Sum256 (preimage programID seeds) in
    if isOnCurve hash then Err errAddressOnCurve else Ok hash.
Proof.
  intros Hn Hf. unfold CreateProgramAddress, preimage. rewrite decide_False by lia.
  rewrite appendPDAPreimage_eq, decide_True by done. cbn [mbind outcome_bind].
  by rewrite <- app_assoc.
Qed.

(** One round of the search tries the seeds with the bump appended. *)
Lemma set_bump programID seeds x b :
  <[length (concat seeds) := b]> (concat seeds ++ [x] ++ programID ++ PDA_MARKER) =
  preimage programID (seeds ++ [[b]]).
Proof.
  unfold preimage. rewrite concat_app. cbn [concat]. rewrite app_nil_r, <- app_assoc.
  rewrite insert_app_r_alt by lia. by rewrite Nat.sub_diag.
Qed.

(** What [FindProgramAddress] promises of its loop from bump [n] down. *)
Definition found (programID : PublicKey) (seeds : list bytes) (n : Z) (r : outcome pda_err (PublicKey * Z)) : Prop :=
  match r with
  | Ok (addr, bump) =>
      1 ≤ bump ≤ n ∧ IsOnCurve addr = false ∧
      CreateProgramAddress programID (seeds ++ [[bump]]) = Ok addr ∧
      ∀ b, bump < b ≤ n → CreateProgramAddress programID (seeds ++ [[b]]) = Err errAddressOnCurve
  | Err ErrNoValidProgramAddress =>
      ∀ b, 1 ≤ b ≤ n → CreateProgramAddress programID (seeds ++ [[b]]) = Err errAddressOnCurve
  | _ => False
  end.

Lemma searchBump_found programID seeds n x :
  len seeds < MaxSeeds → seeds_fit seeds → (n ≤ 255)%nat →
  found programID seeds (Z.of_nat n)
    (searchBump n (concat seeds ++ [x] ++ programID ++ PDA_MARKER) (length (concat seeds))).
Proof.
  intros Hn Hf. revert x. induction n as [|n IH]; intros x Hb; [cbn; lia|].
  cbn [searchBump]. rewrite u8_small, set_bump by lia. set (b := Z.of_nat (S n)) in *.
  assert (CreateProgramAddress programID (seeds ++ [[b]]) =
    let hash := Sum256 (preimage programID (seeds ++ [[b]])) in
    if isOnCurve hash then Err errAddressOnCurve else Ok hash) as Hc.
  { apply CreateProgramAddress_eq; [len_lia|]. apply Forall_app_2; [done|].
    constructor; [unfold MaxSeedLength; by vm_compute|done]. }
  cbv zeta in Hc. destruct (isOnCurve (Sum256 _)) eqn:Hon.
  - specialize (IH b ltac:(lia)). unfold preimage at 1. rewrite concat_app. cbn [concat].
    rewrite app_nil_r, <- app_assoc. unfold found in *.
    destruct (searchBump n _ _) as [[addr bump]|[]|]; try done.
    + destruct IH as (? & ? & ? & H). split_and!; [lia..|done|done|]. intros b' ?.
      destruct (decide (b' = b)) as [->|]; [done|]. apply H. lia.
    + intros b' ?. destruct (decide (b' = b)) as [->|]; [done|]. apply IH. lia.
  - cbn. split_and!; [lia..|done|done|lia].
Qed.

Lemma FindProgramAddress_found programID seeds :
  len seeds < MaxSeeds → seeds_fit seeds →
  found programID seeds 255 (FindProgramAddress programID seeds).
Proof.
  intros Hn Hf. unfold FindProgramAddress. rewrite decide_False by lia.
  rewrite appendPDAPreimage_eq, decide_True by done.
  cbn [mbind outcome_bind app]. rewrite <- !app_assoc.
  change 255 with (Z.of_nat 255). by apply searchBump_found.
Qed.

End facts.

(** * A concrete curve *)

(** The decompression test of RFC 8032: [y] has an [x] with
    [x^2 (d y^2 + 1) = y^2 - 1] modulo [p] when [(y^2 - 1) (d y^2 + 1)] is a
    square, that is, when its Jacobi symbol is not [-1]. *)
Module Curve25519.

Definition p : Z := 2 ^ 255 - 19.
Definition d : Z := 37095705934669439343138083508754565189542113879843219016388785533085940283555.

(** The Jacobi symbol of [a] and an odd [n], with [sign] so far. *)
Fixpoint jacobi (fuel : nat) (a n sign : Z) : Z :=
  match fuel with
  | O => 0
  | S fuel' =>
    if bool_decide (a = 0) then if bool_decide (n = 1) then sign else 0 else
    if Z.even a then
      let r := Z.land n 7 in
      jacobi fuel' (Z.div2 a) n (if bool_decide (r = 3 ∨ r = 5) then - sign else sign)
    else if bool_decide (a < n) then
      jacobi fuel' (n - a) a (if bool_decide (Z.land a 3 = 3 ∧ Z.land n 3 = 3) then - sign else sign)
    else jacobi fuel' (a - n) n sign
  end.

Definition decompresses (b : bytes) : bool :=
  let y := Z.land (le_val b) (Z.ones 255) in
  let q := ((y * y - 1) * (d * (y * y) + 1)) mod p in
  bool_decide (0 ≤ jacobi 1024 q p 1).

(** Only the decompression test matters to address derivation. *)
Definition ed : Ed25519 := {|
  ed_Sign := λ _ _, zeroSignature;
  ed_Verify := λ _ _ _, false;
  ed_NewKeyFromSeed := λ seed, seed;
  ed_decompresses := decompresses;
|}.

(** The wallet and the mint of pda_test.go. *)
Definition wallet : PublicKey := be_bytes 32 0x03ded230b9efce9700e2b4c5b00c7661da68ca00248a2bdc8151592e4158f906.
Definition mint : PublicKey := be_bytes 32 0xc6fa7af3bedbad3a3d65f36aabc97431b1bbe4c2d2f6e0e47ca60203452f5d61.

(** The vectors of pda_test.go. *)
Example FindAssociatedTokenAddress_vector :
  FindAssociatedTokenAddress (ed:=ed) wallet mint =
  Ok (be_bytes 32 0xea1ba3e197245332c64bec4420e2b5bbd7f55e87a22b86c263910793c0d591a4, 255).
Proof. by vm_compute. Qed.

Example FindTokenMetadataAddress_vector :
  FindTokenMetadataAddress (ed:=ed) mint =
  Ok (be_bytes 32 0x498818ad986972f77c11ba8787819367d62e8924f6db6b6bd37dc74c2fd9613a, 255).
Proof. by vm_compute. Qed.

(** A bump other than 255: the first candidates land on the curve. *)
Example FindProgramAddress_lower_bump :
  FindProgramAddress (ed:=ed) zeroKey [[8]] =
  Ok (be_bytes 32 0x27867d4e5224e29a79762b8445aaf599503e3ac0acfd7a205ee7a60a5948be6c, 252).
Proof. by vm_compute. Qed.

End Curve25519.

(** * Properties *)

(** C14. [FindProgramAddress] finds the highest usable bump: on success the bump
    is in 1..255, the address is the one [CreateProgramAddress] derives from the
    seeds with that bump appended, it is off the curve, and every higher bump
    lands on the curve; the search is exhausted only when all 255 bumps do, and
    seeds are refused exactly when there are 16 or more or one exceeds 32 bytes. *)
Theorem find_program_address_spec (ed : Ed25519) programID seeds :
  if decide (len seeds < MaxSeeds ∧ seeds_fit seeds)
  then found programID seeds 255 (FindProgramAddress programID seeds)
  else FindProgramAddress programID seeds = Err ErrMaxSeedLengthExceeded.
Proof.
  case_decide as H; [destruct H; by apply FindProgramAddress_found|].
  unfold FindProgramAddress. case_decide; [done|]. rewrite appendPDAPreimage_eq, decide_False; [done|].
  intros Hf. apply H. split; [lia|done].
Qed.

(** The derivation preimage never outgrows its stack array: for accepted
    seeds the hash input of [CreateProgramAddress], and that of
    [FindProgramAddress] with its bump byte, fit in [pdaPreimageSize] bytes. *)
Lemma pda_preimage_fits programID seeds :
  key_ok programID → len seeds ≤ MaxSeeds →
  match appendPDAPreimage [] seeds with
  | Ok buf => len (buf ++ programID ++ PDA_MARKER) ≤ pdaPreimageSize ∧
      (len seeds < MaxSeeds → len (buf ++ [0] ++ programID ++ PDA_MARKER) ≤ pdaPreimageSize)
  | Err e => e = ErrMaxSeedLengthExceeded
  | Panic => False
  end.
Proof.
  intros Hp Hn. rewrite appendPDAPreimage_eq. case_decide as Hf; [|done]. cbn [app].
  assert (len (concat seeds) ≤ MaxSeedLength * len seeds) as Hc.
  { clear Hn. induction Hf as [|s l Hs _ IH]; [done|]. cbn [concat]. rewrite len_app, len_cons. lia. }
  rewrite !len_app, !len_cons, (len_key _ Hp).
  change (len PDA_MARKER) with 21. change pdaPreimageSize with 565. change (len (@nil Z)) with 0.
  unfold MaxSeeds, MaxSeedLength in *. rewrite len_app, (len_key _ Hp). change (len PDA_MARKER) with 21. lia.
Qed.

(** Associated-token and token-metadata derivation never fail on their seeds:
    for well-formed keys each returns what the bump search finds, so it errs
    only when all 255 bumps land on the curve. *)
Lemma token_addresses_found (ed : Ed25519) wallet mint tokenProgram :
  key_ok wallet → key_ok mint → key_ok tokenProgram →
  found SPLAssociatedTokenAccountProgramID [wallet; tokenProgram; mint] 255
    (FindAssociatedTokenAddressWithProgram wallet mint tokenProgram) ∧
  found TokenMetadataProgramID [metadataSeed; TokenMetadataProgramID; mint] 255
    (FindTokenMetadataAddress mint).
Proof.
  intros Hw Hm Ht. unfold FindAssociatedTokenAddressWithProgram, FindTokenMetadataAddress.
  split; apply FindProgramAddress_found; first [by vm_compute | repeat constructor; cbn -[TokenMetadataProgramID]].
  all: rewrite ?len_key by done; by vm_compute.
Qed.
