(* ===== verification/Mnemonic.v ===== *)
(** Mnemonic: BIP-39 phrases and SLIP-0010 key derivation (mnemonic.go). Strings
    are their bytes. *)
From Stdlib Require Import ZArith Lia.
From stdpp Require Import base numbers strings gmap sorting list.
From S2P Require Import Prelude Keys PrivateKey Sha256 Sha512 Bip39.

Open Scope Z_scope.

(** * Go's strings package *)

(** The UTF-8 encodings of the white space of Unicode. A lead byte is never a
    continuation byte, so an encoding found anywhere in a string is a rune of it. *)
Definition spaces : list bytes :=
  [[9]; [10]; [11]; [12]; [13]; [32]; [194; 133]; [194; 160]; [225; 154; 128];
   [226; 128; 128]; [226; 128; 129]; [226; 128; 130]; [226; 128; 131]; [226; 128; 132]; [226; 128; 133];
   [226; 128; 134]; [226; 128; 135]; [226; 128; 136]; [226; 128; 137]; [226; 128; 138];
   [226; 128; 168]; [226; 128; 169]; [226; 128; 175]; [226; 129; 159]; [227; 128; 128]].

(** [strings.HasPrefix]. *)
Fixpoint HasPrefix (s prefix : bytes) : bool :=
  match prefix, s with
  | [], _ => true
  | p :: prefix', c :: s' => bool_decide (c = p) && HasPrefix s' prefix'
  | _ :: _, [] => false
  end.

(** The first of [runes] the string begins with. *)
Definition leading (runes : list bytes) (s : bytes) : option bytes :=
  snd <$> list_find (λ r, HasPrefix s r = true) runes.

(** [strings.Fields]: maximal runs without white space; [skip] bytes of a space
    are still to be passed. *)
Fixpoint fieldsLoop (skip : nat) (cur s : bytes) : list bytes :=
  match s with
  | [] => if decide (cur = []) then [] else [cur]
  | c :: s' =>
    match skip with
    | S k => fieldsLoop k cur s'
    | O => match leading spaces s with
           | None => fieldsLoop 0 (cur ++ [c]) s'
           | Some r => (if decide (cur = []) then [] else [cur]) ++ fieldsLoop (length r - 1) [] s'
           end
    end
  end.
Definition Fields (s : bytes) : list bytes := fieldsLoop 0 [] s.

Fixpoint trimLeft (fuel : nat) (runes : list bytes) (s : bytes) : bytes :=
  match fuel with
  | O => s
  | S fuel' => match leading runes s with
               | Some r => trimLeft fuel' runes (drop (length r) s)
               | None => s
               end
  end.

(** [strings.TrimSpace], [strings.TrimPrefix] and [strings.TrimRight]. *)
Definition TrimSpace (s : bytes) : bytes :=
  let s := trimLeft (length s) spaces s in
  reverse (trimLeft (length s) (reverse <$> spaces) (reverse s)).
Definition TrimPrefix (s prefix : bytes) : bytes := if HasPrefix s prefix then drop (length prefix) s else s.
Definition TrimRight (s cutset : bytes) : bytes :=
  reverse (trimLeft (length s) ((λ c, [c]) <$> cutset) (reverse s)).

(** [strings.Split(s, sep)] for a separator of one byte. *)
Fixpoint Split (s : bytes) (sep : Z) : list bytes :=
  match s with
  | [] => [[]]
  | c :: s' => if decide (c = sep) then [] :: Split s' sep
               else match Split s' sep with
                    | [] => [[c]]
                    | seg :: segs => (c :: seg) :: segs
                    end
  end.

(** [strings.Lines]: the lines with their newlines. *)
Fixpoint Lines (s : bytes) : list bytes :=
  match s with
  | [] => []
  | c :: s' => if decide (c = 10) then [10] :: Lines s'
               else match Lines s' with
                    | [] => [[c]]
                    | l :: ls => (c :: l) :: ls
                    end
  end.

(** * The phrase *)

Definition indexLines (lines : list bytes) : gmap bytes Z :=
  (foldl (λ '(index, i) word, (<[TrimRight word [13; 10] := i]> index, u16 (i + 1))) (∅, 0) lines).1.
Definition bip39WordIndex : gmap bytes Z := indexLines (Lines (str bip39EnglishRaw)).

(** [buf[pos/8] |= 1 << (7 - pos%8)]. *)
Definition setBit {E} (buf : bytes) (pos : Z) : outcome E bytes :=
  v ← idx buf (pos / 8);
  Ok (<[Z.to_nat (pos / 8) := u8 (Z.lor v (Z.shiftl 1 (7 - pos mod 8)))]> buf).

(** The bit loop over the word at [i]. *)
Fixpoint wordBits {E} (rounds : nat) (i b index : Z) (buf : bytes) : outcome E bytes :=
  match rounds with
  | O => Ok buf
  | S rounds' =>
    buf ← (if decide (Z.land index (Z.shiftl 1 (10 - b)) ≠ 0) then setBit buf (i * 11 + b) else Ok buf);
    wordBits rounds' i (b + 1) index buf
  end.

(** The loop over the words; [None] is the early [return false]. *)
Fixpoint packWords {E} (i : Z) (words : list bytes) (buf : bytes) : outcome E (option bytes) :=
  match words with
  | [] => Ok (Some buf)
  | word :: words' =>
    match bip39WordIndex !! word with
    | None => Ok None
    | Some index => buf ← wordBits 11 i 0 index buf; packWords (i + 1) words' buf
    end
  end.

(** [buf[pos/8]>>(7-pos%8)&1]. *)
Definition getBit {E} (buf : bytes) (pos : Z) : outcome E Z :=
  v ← idx buf (pos / 8); Ok (Z.land (Z.shiftr v (7 - pos mod 8)) 1).

Fixpoint checkBits {E} (rounds : nat) (entropyBits b : Z) (buf hash : bytes) : outcome E bool :=
  match rounds with
  | O => Ok true
  | S rounds' =>
    x ← getBit buf (entropyBits + b);
    y ← getBit hash b;
    if decide (x ≠ y) then Ok false else checkBits rounds' entropyBits (b + 1) buf hash
  end.

Definition IsMnemonicValid {E} (mnemonic : bytes) : outcome E bool :=
  let words := Fields mnemonic in
  if decide (len words = 12 ∨ len words = 15 ∨ len words = 18 ∨ len words = 21 ∨ len words = 24) then
    let totalBits := len words * 11 in
    let checksumBits := totalBits / 33 in
    let entropyBits := totalBits - checksumBits in
    packed ← packWords 0 words (zeros (Z.to_nat ((totalBits + 7) / 8)));
    match packed with
    | None => Ok false
    | Some buf =>
      entropy ← slice_to buf (entropyBits / 8);
      checkBits (Z.to_nat checksumBits) entropyBits 0 buf (Sum256 entropy)
    end
  else Ok false.

Definition MnemonicToSeed (mnemonic passphrase : bytes) : bytes :=
  Pbkdf2Sha512 mnemonic (str "mnemonic" ++ passphrase) 2048.

(** * Derivation paths *)

Definition SolanaDerivationPath : bytes := str "m/44'/501'/0'/0'".
Definition slip10HardenedOffset : Z := 2147483648.

Inductive num_err := ErrSyntax | ErrRange.
Inductive mnemonic_err :=
  | errInvalidMnemonic
  | errSeedLength (l : Z)
  | errEmptySegment
  | errNotHardened
  | errNumber (e : num_err)
  | errIndexRange (n : Z).

(** [strconv.ParseUint(s, 10, 32)]. *)
Fixpoint parseDigits (n : Z) (s : bytes) : outcome num_err Z :=
  match s with
  | [] => Ok n
  | c :: s' =>
    if decide (48 ≤ c ≤ 57) then
      let n1 := n * 10 + (c - 48) in
      if decide (4294967295 < n1) then Err ErrRange else parseDigits n1 s'
    else Err ErrSyntax
  end.
Definition ParseUint32 (s : bytes) : outcome num_err Z :=
  match s with [] => Err ErrSyntax | _ => parseDigits 0 s end.

Definition parseSegment (seg : bytes) : outcome mnemonic_err Z :=
  let seg := TrimSpace seg in
  if decide (seg = []) then Err errEmptySegment else
  last ← idx seg (len seg - 1);
  if decide (last = 39 ∨ last = 104 ∨ last = 72) then
    seg ← slice_to seg (len seg - 1);
    n ← wrap_err errNumber (ParseUint32 seg);
    if decide (slip10HardenedOffset ≤ n) then Err (errIndexRange n)
    else Ok (u32 (u32 n + slip10HardenedOffset))
  else Err errNotHardened.

Definition parseDerivationPath (path : bytes) : outcome mnemonic_err (list Z) :=
  let trimmed := TrimSpace path in
  if decide (trimmed = [] ∨ trimmed = str "m" ∨ trimmed = str "/") then Ok [] else
  let trimmed := TrimPrefix trimmed (str "m") in
  let trimmed := TrimPrefix trimmed (str "/") in
  mapM parseSegment (Split trimmed 47).

(** * Keys *)

Definition slip10MasterKey (seed : bytes) : outcome mnemonic_err (bytes * bytes) :=
  if decide (len seed < 16 ∨ 64 < len seed) then Err (errSeedLength (len seed)) else
  let sum := HmacSha512 (str "ed25519 seed") seed in
  Ok (take 32 sum, drop 32 sum).

Definition slip10ChildKey (parentKey parentChainCode : bytes) (index : Z) : bytes * bytes :=
  let sum := HmacSha512 parentChainCode ([0] ++ parentKey ++ be_bytes 4 index) in
  (take 32 sum, drop 32 sum).

Section derivation.
Context `{ed : Ed25519}.

Definition PrivateKeyFromSeedAtPath (seed path : bytes) : outcome mnemonic_err bytes :=
  indices ← parseDerivationPath path;
  '(key, chainCode) ← slip10MasterKey seed;
  let '(key, _) := foldl (λ '(key, chainCode) index, slip10ChildKey key chainCode index) (key, chainCode) indices in
  Ok (ed_NewKeyFromSeed key).

Definition PrivateKeyFromMnemonicAtPath (mnemonic passphrase path : bytes) : outcome mnemonic_err bytes :=
  valid ← IsMnemonicValid mnemonic;
  if negb valid then Err errInvalidMnemonic
  else PrivateKeyFromSeedAtPath (MnemonicToSeed mnemonic passphrase) path.

Definition PrivateKeyFromMnemonic (mnemonic passphrase : bytes) : outcome mnemonic_err bytes :=
  PrivateKeyFromMnemonicAtPath mnemonic passphrase SolanaDerivationPath.

End derivation.
