(* ===== verification/ElGamal.v ===== *)
(** ElGamal: the errors, keys, twisted ElGamal encryption and discrete logarithms of
    Token-2022 confidential transfers (programs/token-2022: confidential_errors.go,
    confidential_service.go, confidential_keys.go, confidential_kdf.go,
    confidential_encryption.go, confidential_arithmetic.go,
    confidential_discrete_log.go, confidential_cipher.go). A method that draws
    random values is a computation over the random source. *)
From Stdlib Require Import ZArith Lia.
From stdpp Require Import base numbers gmap strings list.
From S2P Require Import Prelude Keys Sha3 ProgramIds Ristretto Mnemonic.

Open Scope Z_scope.

(** * Errors *)

(** Go errors of the package: a message, a message with numbers in it, an error
    wrapped with [%w] under a prefix, one classified by [ConfidentialTransferError],
    and one of a package that is called. *)
Inductive error :=
  | errLibrary
  | errNew (msg : string)
  | errNewf (msg : string) (args : list Z)
  | errWrap (prefix : string) (err : error)
  | ConfidentialTransferError (err : error) (kind : Z).

(** [errors.As(err, &classified)] along the chain of wrapped errors. *)
Fixpoint classified (err : error) : option Z :=
  match err with
  | ConfidentialTransferError _ kind => Some kind
  | errWrap _ err => classified err
  | _ => None
  end.

Definition confidentialTransferError (err : error) (kind : Z) : error :=
  match classified err with Some _ => err | None => ConfidentialTransferError err kind end.
Definition invalidInputError (err : error) : error := confidentialTransferError err 1.
Definition invalidProofError (err : error) : error := confidentialTransferError err 2.
Definition insufficientFundsError (err : error) : error := confidentialTransferError err 3.
Definition decryptionError (err : error) : error := confidentialTransferError err 4.

(** [defer service.classifyInvalidProof(&err)]. *)
Definition classifyInvalidProof {A} (m : outcome error A) : outcome error A := wrap_err invalidProofError m.

(** [if err != nil { return fmt.Errorf("prefix: %w", err) }]. *)
Definition wrapf {A} (prefix : string) (m : outcome error A) : outcome error A := wrap_err (errWrap prefix) m.
Definition library {A} (o : option A) : outcome error A := match o with Some x => Ok x | None => Err errLibrary end.

(** The slice [l[a:b]] of an array or of a slice whose length has been checked. *)
Definition sub (a b : nat) (l : bytes) : bytes := take (b - a) (drop a l).

(** * Types *)

(** Fixed-size arrays. *)
Abbreviation AEKey := (list Z) (only parsing).
Abbreviation ElGamalSecretKey := (list Z) (only parsing).
Abbreviation ElGamalPubkey := (list Z) (only parsing).
Abbreviation ElGamalCiphertext := (list Z) (only parsing).
Abbreviation AeCiphertext := (list Z) (only parsing).
Abbreviation PedersenOpening := (list Z) (only parsing).
Abbreviation PedersenCommitment := (list Z) (only parsing).
Abbreviation GroupedElGamalCiphertext2Handles := (list Z) (only parsing).
Abbreviation GroupedElGamalCiphertext3Handles := (list Z) (only parsing).

Record ElGamalKeypair := mkKeypair { kp_PublicKey : ElGamalPubkey; kp_SecretKey : ElGamalSecretKey }.
Record ConfidentialKeys := mkConfidentialKeys {
  ck_AEKey : AEKey; ck_ElGamalSecretKey : ElGamalSecretKey; ck_ElGamalPubkey : ElGamalPubkey }.

(** [Sign] of a [ConfidentialTransferSigner]. *)
Abbreviation Signer := (list Z → outcome error (list Z)) (only parsing).

Section elgamal.
Context `{R : Ristretto} {Rnd : Random} `{G : GcmSiv} {Sh : Shake}.

Record rangeProofGenerators := mkGenerators { gens_g : list Point; gens_h : list Point }.

Record ConfidentialTransferService := mkService {
  ProofProgramID : PublicKey;
  RegistryProgramID : PublicKey;
  RecordProgramID : PublicKey;
  discreteLog : gmap bytes Z;
  rangeGens : rangeProofGenerators;
  pedersenOpeningPoint : option Point;
}.

(** * Scalars and points in bytes *)

Definition scalarFromBytes (data : bytes) (name : string) : outcome error Scalar :=
  wrapf name (library (NewFromCanonicalBytes data)).
Definition ristrettoPoint (data : bytes) (name : string) : outcome error Point :=
  wrapf name (library (UnmarshalBinary data)).

Definition pedersenCommitment (point : Point) : PedersenCommitment :=
  copy_into (zeros 32) (SetRistrettoPoint point).
Definition pedersenOpening (value : Scalar) : outcome error PedersenOpening := Ok (ToBytes value).
Definition elGamalSecretKey (value : Scalar) : outcome error ElGamalSecretKey := Ok (ToBytes value).
Definition compressedRistrettoKey (point : Point) : bytes := SetRistrettoPoint point.

Fixpoint validatePointsLoop (count : nat) (index : nat) (data : bytes) (name : string) : outcome error unit :=
  match count with
  | O => Ok tt
  | S count' =>
    _ ← ristrettoPoint (sub (index * 32) ((index + 1) * 32) data) name;
    validatePointsLoop count' (index + 1) data name
  end.
Definition validateRistrettoPoints (data : bytes) (count : nat) (name : string) : outcome error unit :=
  if decide (len data ≠ Z.of_nat count * 32) then Err (errNewf name [len data])
  else validatePointsLoop count 0 data name.

(** [SetUniformBytes] of the hash of the compressed base point: the generator for
    openings, cached by a started service. *)
Definition hashedBasepoint : outcome error Point :=
  library (SetUniformBytes (Sum3_512 (SetRistrettoPoint BASEPOINT))).
Definition pedersenOpeningBasepoint (service : ConfidentialTransferService) : outcome error Point :=
  match pedersenOpeningPoint service with Some point => Ok point | None => hashedBasepoint end.

Definition SetRandomM : GoM Reader error Scalar := λ random,
  match SetRandom random with Some (s, random) => (Ok s, random) | None => (Err errLibrary, random) end.
Definition wrapM {A} (prefix : string) (m : GoM Reader error A) : GoM Reader error A := λ random,
  let '(r, random) := m random in (wrapf prefix r, random).

(** * Keys *)

Definition GenerateAEKey : GoM Reader error AEKey := λ random,
  match ReadRandom random 16 with
  | Some (key, random) => (Ok (copy_into (zeros 16) key), random)
  | None => (Err (errWrap "generate AE key" errLibrary), random)
  end.

Definition DeriveAEKeyFromSeedLegacy (seed : bytes) : outcome error AEKey :=
  if decide (len seed < 16) then Err (errNew "derive AE key: seed must contain at least 16 bytes") else
  if decide (65535 < len seed) then Err (errNew "derive AE key: seed exceeds 65535 bytes") else
  Ok (copy_into (zeros 16) (take 16 (Sum3_512 seed))).

Definition DeriveAEKeyFromSignatureLegacy (signature : Signature) : outcome error AEKey :=
  if decide (signature = zeroSignature) then Err (errNew "derive legacy AE key: default signature") else
  DeriveAEKeyFromSeedLegacy (Sum3_512 signature).

Definition DeriveAEKeyFromSignerLegacy (signer : Signer) (publicSeed : bytes) : outcome error AEKey :=
  signature ← wrapf "derive AE key: sign public seed" (signer (str "AeKey" ++ publicSeed));
  if decide (signature = zeroSignature) then Err (errNew "derive AE key: default signature") else
  DeriveAEKeyFromSignatureLegacy signature.

Definition DeriveAEKeyFromMnemonicLegacy (mnemonic passphrase : bytes) : outcome error AEKey :=
  DeriveAEKeyFromSeedLegacy (MnemonicToSeed mnemonic passphrase).

Definition DeriveElGamalSecretKeyFromSeedLegacy (seed : bytes) : outcome error ElGamalSecretKey :=
  if decide (len seed < 32) then Err (errNew "derive ElGamal secret key: seed must contain at least 32 bytes") else
  if decide (65535 < len seed) then Err (errNew "derive ElGamal secret key: seed exceeds 65535 bytes") else
  value ← wrapf "derive ElGamal secret key" (library (NewFromBytesModOrderWide (Sum3_512 seed)));
  Ok (ToBytes value).

Definition DeriveElGamalSecretKeyFromSignatureLegacy (signature : Signature) : outcome error ElGamalSecretKey :=
  if decide (signature = zeroSignature) then Err (errNew "derive legacy ElGamal secret key: default signature") else
  DeriveElGamalSecretKeyFromSeedLegacy (Sum3_512 signature).

Definition DeriveElGamalSecretKeyFromSignerLegacy (signer : Signer) (publicSeed : bytes) : outcome error ElGamalSecretKey :=
  signature ← wrapf "derive ElGamal secret key: sign public seed" (signer (str "ElGamalSecretKey" ++ publicSeed));
  if decide (signature = zeroSignature) then Err (errNew "derive ElGamal secret key: default signature") else
  DeriveElGamalSecretKeyFromSignatureLegacy signature.

Definition DeriveElGamalSecretKeyFromMnemonicLegacy (mnemonic passphrase : bytes) : outcome error ElGamalSecretKey :=
  DeriveElGamalSecretKeyFromSeedLegacy (MnemonicToSeed mnemonic passphrase).

Definition DeriveElGamalPubkey (secret : ElGamalSecretKey) : outcome error ElGamalPubkey :=
  secretScalar ← wrapf "derive ElGamal public key" (library (NewFromCanonicalBytes secret));
  if decide (secretScalar = sNew) then Err (errNew "derive ElGamal public key: zero secret key") else
  basepoint ← wrapf "derive ElGamal public key" hashedBasepoint;
  Ok (copy_into (zeros 32) (SetRistrettoPoint (pMul basepoint (sInvert secretScalar)))).

Definition DeriveConfidentialKeysFromIKM (ikm : bytes) : outcome error ConfidentialKeys :=
  if decide (len ikm < 32) then Err (errNew "derive confidential keys: input must contain at least 32 bytes") else
  if decide (65535 < len ikm) then Err (errNew "derive confidential keys: input exceeds 65535 bytes") else
  let aeBytes := hkdfKey ikm (str "solana-conf-bal/v1") (str "ae") 16 in
  let secretBytes := hkdfKey ikm (str "solana-conf-bal/v1") (str "elgamal") 64 in
  secretScalar ← wrapf "derive confidential ElGamal key" (library (NewFromBytesModOrderWide secretBytes));
  let secretKey := ToBytes secretScalar in
  pubkey ← DeriveElGamalPubkey secretKey;
  Ok (mkConfidentialKeys (copy_into (zeros 16) aeBytes) secretKey pubkey).

Definition DeriveConfidentialKeysFromSignature (signature : Signature) : outcome error ConfidentialKeys :=
  if decide (signature = zeroSignature) then Err (errNew "derive confidential keys: default signature") else
  DeriveConfidentialKeysFromIKM signature.

Definition DeriveConfidentialKeys (signer : Signer) (publicSeed : bytes) : outcome error ConfidentialKeys :=
  signature ← wrapf "derive confidential keys: sign public seed" (signer (str "solana-conf-bal/v1" ++ publicSeed));
  DeriveConfidentialKeysFromSignature signature.

Definition PDAWalletPublicSeed (programID wallet mint tokenAccount : PublicKey) : bytes :=
  programID ++ wallet ++ mint ++ tokenAccount.

Definition ElGamalKeypairFromSecret (secret : ElGamalSecretKey) : outcome error ElGamalKeypair :=
  publicKey ← DeriveElGamalPubkey secret;
  Ok (mkKeypair publicKey secret).

Definition GenerateElGamalKeypair : GoM Reader error ElGamalKeypair :=
  secretScalar ← wrapM "generate ElGamal keypair" SetRandomM;
  secret ← lift (wrapf "generate ElGamal keypair" (elGamalSecretKey secretScalar));
  lift (ElGamalKeypairFromSecret secret).

Definition ElGamalSecretKeyFromBytes (data : bytes) : outcome error ElGamalSecretKey :=
  value ← scalarFromBytes data "ElGamal secret key";
  if decide (value = sNew) then Err (errNew "decode ElGamal secret key: zero scalar") else
  elGamalSecretKey value.
Definition ElGamalPubkeyFromBytes (data : bytes) : outcome error ElGamalPubkey :=
  _ ← ristrettoPoint data "ElGamal public key";
  Ok (copy_into (zeros 32) data).

(** * Commitments *)

Definition GeneratePedersenOpening : GoM Reader error PedersenOpening :=
  value ← wrapM "generate Pedersen opening" SetRandomM;
  lift (pedersenOpening value).
Definition PedersenOpeningFromBytes (data : bytes) : outcome error PedersenOpening :=
  value ← scalarFromBytes data "Pedersen opening";
  pedersenOpening value.
Definition PedersenCommitmentFromBytes (data : bytes) : outcome error PedersenCommitment :=
  _ ← ristrettoPoint data "Pedersen commitment";
  Ok (copy_into (zeros 32) data).

Definition pedersenCommitmentPoint (amount : Z) (opening : Scalar) (basepoint : Point) : Point :=
  MultiscalarMul [SetUint64 amount; opening] [BASEPOINT; basepoint].

Definition CommitPedersen (service : ConfidentialTransferService) (amount : Z) (opening : PedersenOpening)
  : outcome error PedersenCommitment :=
  openingScalar ← scalarFromBytes opening "Pedersen opening";
  basepoint ← wrapf "commit Pedersen" (pedersenOpeningBasepoint service);
  Ok (pedersenCommitment (pedersenCommitmentPoint amount openingScalar basepoint)).

(** * Encryption *)

(** The handle of each public key, in order. *)
Fixpoint encryptHandles (openingScalar : Scalar) (publicKeys : list ElGamalPubkey) : outcome error bytes :=
  match publicKeys with
  | [] => Ok []
  | publicKey :: publicKeys' =>
    point ← ristrettoPoint publicKey "ElGamal public key";
    rest ← encryptHandles openingScalar publicKeys';
    Ok (pedersenCommitment (pMul point openingScalar) ++ rest)
  end.

Definition encryptGroupedElGamal (service : ConfidentialTransferService) (publicKeys : list ElGamalPubkey)
  (amount : Z) (opening : PedersenOpening) : outcome error bytes :=
  openingScalar ← scalarFromBytes opening "Pedersen opening";
  basepoint ← wrapf "encrypt grouped ElGamal" (pedersenOpeningBasepoint service);
  let commitment := pedersenCommitment (pedersenCommitmentPoint amount openingScalar basepoint) in
  handles ← encryptHandles openingScalar publicKeys;
  Ok (commitment ++ handles).

Definition EncryptElGamalWithOpening (service : ConfidentialTransferService) (publicKey : ElGamalPubkey)
  (amount : Z) (opening : PedersenOpening) : outcome error ElGamalCiphertext :=
  grouped ← encryptGroupedElGamal service [publicKey] amount opening;
  Ok (copy_into (zeros 64) grouped).
Definition EncryptElGamal (service : ConfidentialTransferService) (publicKey : ElGamalPubkey) (amount : Z)
  : GoM Reader error (ElGamalCiphertext * PedersenOpening) :=
  opening ← GeneratePedersenOpening;
  ciphertext ← lift (EncryptElGamalWithOpening service publicKey amount opening);
  mret (ciphertext, opening).

Definition EncryptGroupedElGamal2WithOpening (service : ConfidentialTransferService) (publicKeys : list ElGamalPubkey)
  (amount : Z) (opening : PedersenOpening) : outcome error GroupedElGamalCiphertext2Handles :=
  grouped ← encryptGroupedElGamal service publicKeys amount opening;
  Ok (copy_into (zeros 96) grouped).
Definition EncryptGroupedElGamal2 (service : ConfidentialTransferService) (publicKeys : list ElGamalPubkey) (amount : Z)
  : GoM Reader error (GroupedElGamalCiphertext2Handles * PedersenOpening) :=
  opening ← GeneratePedersenOpening;
  ciphertext ← lift (EncryptGroupedElGamal2WithOpening service publicKeys amount opening);
  mret (ciphertext, opening).
Definition EncryptGroupedElGamal3WithOpening (service : ConfidentialTransferService) (publicKeys : list ElGamalPubkey)
  (amount : Z) (opening : PedersenOpening) : outcome error GroupedElGamalCiphertext3Handles :=
  grouped ← encryptGroupedElGamal service publicKeys amount opening;
  Ok (copy_into (zeros 128) grouped).
Definition EncryptGroupedElGamal3 (service : ConfidentialTransferService) (publicKeys : list ElGamalPubkey) (amount : Z)
  : GoM Reader error (GroupedElGamalCiphertext3Handles * PedersenOpening) :=
  opening ← GeneratePedersenOpening;
  ciphertext ← lift (EncryptGroupedElGamal3WithOpening service publicKeys amount opening);
  mret (ciphertext, opening).

Definition ElGamalCiphertextFromBytes (data : bytes) : outcome error ElGamalCiphertext :=
  _ ← validateRistrettoPoints data 2 "ElGamal ciphertext";
  Ok (copy_into (zeros 64) data).
Definition GroupedElGamalCiphertext2FromBytes (data : bytes) : outcome error GroupedElGamalCiphertext2Handles :=
  _ ← validateRistrettoPoints data 3 "grouped ElGamal ciphertext with 2 handles";
  Ok (copy_into (zeros 96) data).
Definition GroupedElGamalCiphertext3FromBytes (data : bytes) : outcome error GroupedElGamalCiphertext3Handles :=
  _ ← validateRistrettoPoints data 4 "grouped ElGamal ciphertext with 3 handles";
  Ok (copy_into (zeros 128) data).

Definition groupedElGamalHandle (data : bytes) (handles index : Z) : outcome error ElGamalCiphertext :=
  if decide (index < 0 ∨ handles ≤ index) then Err (errNewf "grouped ElGamal handle: index out of bounds" [index]) else
  let i := Z.to_nat index in
  Ok (sub 0 32 data ++ sub ((i + 1) * 32) ((i + 2) * 32) data).
Definition GroupedElGamalCiphertext2Handle (ciphertext : GroupedElGamalCiphertext2Handles) (index : Z) :=
  groupedElGamalHandle ciphertext 2 index.
Definition GroupedElGamalCiphertext3Handle (ciphertext : GroupedElGamalCiphertext3Handles) (index : Z) :=
  groupedElGamalHandle ciphertext 3 index.

(** * Ciphertext arithmetic *)

Definition elGamalCiphertextPoints (ciphertext : ElGamalCiphertext) : outcome error (Point * Point) :=
  commitment ← ristrettoPoint (sub 0 32 ciphertext) "ElGamal ciphertext commitment";
  handle ← ristrettoPoint (sub 32 64 ciphertext) "ElGamal ciphertext handle";
  Ok (commitment, handle).

Definition elGamalCiphertext (commitment handle : Point) : ElGamalCiphertext :=
  pedersenCommitment commitment ++ pedersenCommitment handle.

Definition DecryptElGamalTarget (secret : ElGamalSecretKey) (ciphertext : ElGamalCiphertext)
  : outcome error PedersenCommitment :=
  secretScalar ← scalarFromBytes secret "ElGamal secret key";
  '(commitment, handle) ← elGamalCiphertextPoints ciphertext;
  Ok (pedersenCommitment (pSub commitment (pMul handle secretScalar))).

Definition combineElGamalCiphertexts (left right : ElGamalCiphertext) (subtract : bool) : outcome error ElGamalCiphertext :=
  '(leftCommitment, leftHandle) ← elGamalCiphertextPoints left;
  '(rightCommitment, rightHandle) ← elGamalCiphertextPoints right;
  if subtract then Ok (elGamalCiphertext (pSub leftCommitment rightCommitment) (pSub leftHandle rightHandle))
  else Ok (elGamalCiphertext (pAdd leftCommitment rightCommitment) (pAdd leftHandle rightHandle)).
Definition AddElGamalCiphertexts (left right : ElGamalCiphertext) := combineElGamalCiphertexts left right false.
Definition SubtractElGamalCiphertexts (left right : ElGamalCiphertext) := combineElGamalCiphertexts left right true.

Definition combineElGamalAmount (ciphertext : ElGamalCiphertext) (amount : Z) (subtract : bool)
  : outcome error ElGamalCiphertext :=
  '(commitment, handle) ← elGamalCiphertextPoints ciphertext;
  let encodedAmount := pMul BASEPOINT (SetUint64 amount) in
  if subtract then Ok (elGamalCiphertext (pSub commitment encodedAmount) handle)
  else Ok (elGamalCiphertext (pAdd commitment encodedAmount) handle).
Definition AddElGamalAmount (ciphertext : ElGamalCiphertext) (amount : Z) := combineElGamalAmount ciphertext amount false.
Definition SubtractElGamalAmount (ciphertext : ElGamalCiphertext) (amount : Z) := combineElGamalAmount ciphertext amount true.

Definition ScaleElGamalCiphertext (ciphertext : ElGamalCiphertext) (multiplier : Z) : outcome error ElGamalCiphertext :=
  '(commitment, handle) ← elGamalCiphertextPoints ciphertext;
  let factor := SetUint64 multiplier in
  Ok (elGamalCiphertext (pMul commitment factor) (pMul handle factor)).
Definition CombineElGamalAmountCiphertexts (low high : ElGamalCiphertext) : outcome error ElGamalCiphertext :=
  scaled ← ScaleElGamalCiphertext high 65536;
  AddElGamalCiphertexts low scaled.

Definition combinePedersenCommitments (left right : PedersenCommitment) (subtract : bool)
  : outcome error PedersenCommitment :=
  leftPoint ← ristrettoPoint left "left Pedersen commitment";
  rightPoint ← ristrettoPoint right "right Pedersen commitment";
  if subtract then Ok (pedersenCommitment (pSub leftPoint rightPoint))
  else Ok (pedersenCommitment (pAdd leftPoint rightPoint)).
Definition AddPedersenCommitments (left right : PedersenCommitment) := combinePedersenCommitments left right false.
Definition SubtractPedersenCommitments (left right : PedersenCommitment) := combinePedersenCommitments left right true.
Definition ScalePedersenCommitment (commitment : PedersenCommitment) (multiplier : Z) : outcome error PedersenCommitment :=
  point ← ristrettoPoint commitment "Pedersen commitment";
  Ok (pedersenCommitment (pMul point (SetUint64 multiplier))).

Definition combinePedersenOpenings (left right : PedersenOpening) (subtract : bool) : outcome error PedersenOpening :=
  leftScalar ← scalarFromBytes left "left Pedersen opening";
  rightScalar ← scalarFromBytes right "right Pedersen opening";
  if subtract then pedersenOpening (sSub leftScalar rightScalar)
  else pedersenOpening (sAdd leftScalar rightScalar).
Definition AddPedersenOpenings (left right : PedersenOpening) := combinePedersenOpenings left right false.
Definition SubtractPedersenOpenings (left right : PedersenOpening) := combinePedersenOpenings left right true.
Definition ScalePedersenOpening (opening : PedersenOpening) (multiplier : Z) : outcome error PedersenOpening :=
  value ← scalarFromBytes opening "Pedersen opening";
  pedersenOpening (sMul value (SetUint64 multiplier)).

Definition CombinePedersenAmount (commitmentLow commitmentHigh : PedersenCommitment)
  (openingLow openingHigh : PedersenOpening) : outcome error (PedersenCommitment * PedersenOpening) :=
  scaledCommitment ← wrapf "combine Pedersen amount" (ScalePedersenCommitment commitmentHigh 65536);
  commitment ← wrapf "combine Pedersen amount" (AddPedersenCommitments commitmentLow scaledCommitment);
  scaledOpening ← wrapf "combine Pedersen amount" (ScalePedersenOpening openingHigh 65536);
  opening ← wrapf "combine Pedersen amount" (AddPedersenOpenings openingLow scaledOpening);
  Ok (commitment, opening).

(** * Amounts *)

Definition SplitAmount (amount : Z) : outcome error (Z * Z) :=
  if decide (2 ^ 48 ≤ amount) then Err (invalidInputError (errNew "split confidential amount: amount exceeds 48 bits"))
  else Ok (u16 amount, u32 (Z.shiftr amount 16)).
Definition CombineAmount (low high : Z) : Z := Z.lor low (u64 (Z.shiftl high 16)).

(** * Discrete logarithms of 32-bit amounts *)

Record discreteLogEntry := mkEntry { de_key : bytes; de_value : Z }.

(** The writes of [builder.build(start, end)]: entry [value] for each value from
    [value] on, [n] of them, with the worker's own running point. *)
Fixpoint buildLoop (n : nat) (value : Z) (point : Point) : list (Z * discreteLogEntry) :=
  match n with
  | O => []
  | S n' => (value, mkEntry (compressedRistrettoKey point) (u16 value)) :: buildLoop n' (value + 1) (pAdd point BASEPOINT)
  end.
Definition build (start stop : Z) : list (Z * discreteLogEntry) :=
  buildLoop (Z.to_nat (stop - start)) start (MulBasepoint (SetUint64 start)).

(** [for start := 0; start < size; start += chunk]: the ranges of the workers. *)
Fixpoint workerRanges (fuel : nat) (start chunk size : Z) : list (Z * Z) :=
  match fuel with
  | O => []
  | S fuel' => if decide (start < size) then (start, Z.min (start + chunk) size) :: workerRanges fuel' (start + chunk) chunk size
               else []
  end.

Definition tableSize : Z := 65536.
Definition workerWrites (procs : Z) : list (list (Z * discreteLogEntry)) :=
  let workers := Z.min procs tableSize in
  let chunk := (tableSize + workers - 1) / workers in
  (λ '(start, stop), build start stop) <$> workerRanges (Z.to_nat tableSize) 0 chunk tableSize.

Definition applyWrites (writes : list (Z * discreteLogEntry)) (entries : list discreteLogEntry) : list discreteLogEntry :=
  foldl (λ entries '(i, e), <[Z.to_nat i := e]> entries) entries writes.

(** [GOMAXPROCS(0)] is [procs]; [schedule] is the order in which the writes of the
    goroutines happen. *)
Definition buildDiscreteLogTable (procs : Z) (schedule : list (list (Z * discreteLogEntry)) → list (Z * discreteLogEntry))
  : gmap bytes Z :=
  let entries := applyWrites (schedule (workerWrites procs)) (replicate (Z.to_nat tableSize) (mkEntry (zeros 32) 0)) in
  foldl (λ table entry, <[de_key entry := de_value entry]> table) ∅ entries.

Fixpoint decodeLoop (n : nat) (high : Z) (point step : Point) (table : gmap bytes Z) : outcome error Z :=
  match n with
  | O => Err (errNew "decode Pedersen decrypt target: discrete log outside u32 range")
  | S n' =>
    match table !! compressedRistrettoKey point with
    | Some low => Ok (Z.lor (u32 (Z.shiftl high 16)) low)
    | None => decodeLoop n' (high + 1) (pSub point step) step table
    end
  end.
Definition decodePedersenCommitmentU32 (target : PedersenCommitment) (table : gmap bytes Z) : outcome error Z :=
  point ← ristrettoPoint target "Pedersen decrypt target";
  decodeLoop (Z.to_nat 65536) 0 point (pMul BASEPOINT (SetUint64 65536)) table.

Definition decryptElGamalU32 (secret : ElGamalSecretKey) (ciphertext : ElGamalCiphertext) (table : gmap bytes Z)
  : outcome error Z :=
  target ← DecryptElGamalTarget secret ciphertext;
  decodePedersenCommitmentU32 target table.

Definition DecodePedersenCommitmentU32 (service : ConfidentialTransferService) (target : PedersenCommitment) :=
  decodePedersenCommitmentU32 target (discreteLog service).
Definition DecryptElGamalU32 (service : ConfidentialTransferService) (secret : ElGamalSecretKey)
  (ciphertext : ElGamalCiphertext) : outcome error Z :=
  target ← wrap_err decryptionError (DecryptElGamalTarget secret ciphertext);
  wrap_err decryptionError (DecodePedersenCommitmentU32 service target).
Definition DecryptGroupedElGamal2U32 (service : ConfidentialTransferService) (secret : ElGamalSecretKey)
  (ciphertext : GroupedElGamalCiphertext2Handles) (index : Z) : outcome error Z :=
  elGamalCiphertext ← GroupedElGamalCiphertext2Handle ciphertext index;
  DecryptElGamalU32 service secret elGamalCiphertext.
Definition DecryptGroupedElGamal3U32 (service : ConfidentialTransferService) (secret : ElGamalSecretKey)
  (ciphertext : GroupedElGamalCiphertext3Handles) (index : Z) : outcome error Z :=
  elGamalCiphertext ← GroupedElGamalCiphertext3Handle ciphertext index;
  DecryptElGamalU32 service secret elGamalCiphertext.

Definition DecryptPendingBalance (service : ConfidentialTransferService) (secret : ElGamalSecretKey)
  (low high : ElGamalCiphertext) : outcome error Z :=
  lowAmount ← wrap_err decryptionError (decryptElGamalU32 secret low (discreteLog service));
  if decide (65535 < lowAmount) then
    Err (decryptionError (errNew "decrypt pending balance: low amount exceeds 16 bits"))
  else
  highAmount ← wrap_err decryptionError (decryptElGamalU32 secret high (discreteLog service));
  Ok (CombineAmount (u16 lowAmount) highAmount).

(** * Authenticated encryption *)

Definition EncryptAEAmountWithNonce (key : AEKey) (amount : Z) (nonce : bytes) : outcome error AeCiphertext :=
  if NewGCM key then
    let sealed := Seal key nonce (le_bytes 8 amount) in
    Ok (nonce ++ copy_into (zeros 24) sealed)
  else Err (errWrap "encrypt confidential amount" errLibrary).
Definition EncryptAEAmount (key : AEKey) (amount : Z) : GoM Reader error AeCiphertext := λ random,
  match ReadRandom random 12 with
  | Some (nonce, random) => (EncryptAEAmountWithNonce key amount (copy_into (zeros 12) nonce), random)
  | None => (Err (errWrap "encrypt confidential amount: nonce" errLibrary), random)
  end.
Definition DecryptAEAmount (key : AEKey) (ciphertext : AeCiphertext) : outcome error Z :=
  if NewGCM key then
    match Open_ key (sub 0 12 ciphertext) (sub 12 36 ciphertext) with
    | Some plaintext => readUint 8 plaintext
    | None => Err (decryptionError (errWrap "decrypt confidential amount: authenticate" errLibrary))
    end
  else Err (decryptionError (errWrap "decrypt confidential amount" errLibrary)).

(** * Generators and the service *)

Fixpoint chainLoop (n : nat) (shake : ShakeState) : outcome error (list Point) :=
  match n with
  | O => Ok []
  | S n' =>
    '(uniform, shake) ← wrapf "range proof generators" (library (ShakeRead shake 64));
    point ← wrapf "range proof generators" (library (SetUniformBytes uniform));
    points ← chainLoop n' shake;
    Ok (point :: points)
  end.
Definition rangeGeneratorChain (label : bytes) (size : nat) : outcome error (list Point) :=
  shake ← wrapf "range proof generators" (library (ShakeWrite NewShake256 (str "GeneratorsChain")));
  shake ← wrapf "range proof generators" (library (ShakeWrite shake label));
  chainLoop size shake.
Definition newRangeProofGenerators (size : nat) : outcome error rangeProofGenerators :=
  g ← rangeGeneratorChain (str "G") size;
  h ← rangeGeneratorChain (str "H") size;
  Ok (mkGenerators g h).
Definition rangeGenerators (service : ConfidentialTransferService) (size : nat) : outcome error rangeProofGenerators :=
  if decide (Z.of_nat size ≤ len (gens_g (rangeGens service))) then
    g ← slice_to (gens_g (rangeGens service)) (Z.of_nat size);
    h ← slice_to (gens_h (rangeGens service)) (Z.of_nat size);
    Ok (mkGenerators g h)
  else newRangeProofGenerators size.

(** The zero value of the service, and [Start] on a service, which panics when a
    generator cannot be made. *)
Definition zeroService : ConfidentialTransferService :=
  mkService zeroKey zeroKey zeroKey ∅ (mkGenerators [] []) None.
Definition Start (service : ConfidentialTransferService) (procs : Z) (schedule : list (list (Z * discreteLogEntry)) → list (Z * discreteLogEntry))
  : outcome error ConfidentialTransferService :=
  let table := buildDiscreteLogTable procs schedule in
  match newRangeProofGenerators 256 with
  | Ok gens =>
    match pedersenOpeningBasepoint service with
    | Ok point => Ok (mkService (literal "ZkE1Gama1Proof11111111111111111111111111111")
                       (literal "regVYJW7tcT8zipN5YiBvHsvR5jXW1uLFxaHSbugABg")
                       (literal "recr1L3PCGKLbckBqMNcJhuuyU1zgo8nBhfLVsJNwr5") table gens (Some point))
    | _ => Panic
    end
  | _ => Panic
  end.
End elgamal.
