(* ===== verification/ElGamalSpec.v ===== *)
(** ElGamalSpec: what the encryption of [ElGamal] promises. The decoding table is
    the same under every schedule of its workers and decoding inverts
    [v ↦ v • BASEPOINT] exactly on 32-bit amounts; decryption inverts encryption for
    every recipient; the ciphertext operations are homomorphic; split amounts are
    recovered. *)
From Stdlib Require Import ZArith Lia Field.
From stdpp Require Import base numbers gmap strings list.
From S2P Require Import Prelude Keys Sha3 Ristretto ToyGroup Mnemonic ElGamal.

Open Scope Z_scope.

(** One bound call that is known to succeed. *)
Ltac obind := cbn [mbind outcome_bind library wrapf wrap_err].
Ltac obind_in H := cbn [mbind outcome_bind library wrapf wrap_err] in H.

Section spec.
Context `{R : Ristretto} {L : RistrettoLaws R} {Sh : Shake} {C : GcmSiv} {Rnd : Random}.

#[local] Definition sDiv (a b : Scalar) : Scalar := sMul a (sInvert b).
#[local] Lemma spec_field : field_theory sNew sOne sAdd sMul sSub sNeg sDiv sInvert eq.
Proof. exact scalar_field. Qed.
Add Field spec_field : spec_field.

Implicit Types service : ConfidentialTransferService.

(** The generator for openings. *)
Definition openingPoint : Point := default identity (SetUniformBytes (Sum3_512 (SetRistrettoPoint BASEPOINT))).

(** A service caches no other point than the one it would compute. *)
Definition service_ok service : Prop :=
  match pedersenOpeningPoint service with Some p => p = openingPoint | None => True end.

Lemma hashedBasepoint_ok : hashedBasepoint = Ok openingPoint.
Proof.
  unfold hashedBasepoint, openingPoint.
  destruct (SetUniformBytes_ok (Sum3_512 (SetRistrettoPoint BASEPOINT)) (length_Sum3_512 _)) as [p ->]. done.
Qed.

Lemma pedersenOpeningBasepoint_ok service : service_ok service → pedersenOpeningBasepoint service = Ok openingPoint.
Proof.
  unfold service_ok, pedersenOpeningBasepoint. destruct (pedersenOpeningPoint service); [by intros ->|].
  intros _. apply hashedBasepoint_ok.
Qed.

(** * Bytes of points and scalars *)

Lemma pedersenCommitment_eq p : pedersenCommitment p = SetRistrettoPoint p.
Proof. unfold pedersenCommitment. apply copy_into_full. by rewrite SetRistrettoPoint_length. Qed.

Lemma ristrettoPoint_encoded p name : ristrettoPoint (SetRistrettoPoint p) name = Ok p.
Proof. unfold ristrettoPoint. by rewrite UnmarshalBinary_SetRistrettoPoint. Qed.

Lemma ristrettoPoint_inv data name p : ristrettoPoint data name = Ok p → data = SetRistrettoPoint p.
Proof.
  unfold ristrettoPoint, wrapf, wrap_err, library. destruct (UnmarshalBinary data) as [q|] eqn:E; [|done].
  intros [= <-]. by rewrite (SetRistrettoPoint_UnmarshalBinary _ _ E).
Qed.

Lemma ristrettoPoint_panic data name : ristrettoPoint data name ≠ Panic.
Proof. unfold ristrettoPoint, wrapf, wrap_err, library. by destruct (UnmarshalBinary data). Qed.

Lemma scalarFromBytes_encoded s name : scalarFromBytes (ToBytes s) name = Ok s.
Proof. unfold scalarFromBytes. by rewrite NewFromCanonicalBytes_ToBytes. Qed.

Lemma scalarFromBytes_inv data name s : scalarFromBytes data name = Ok s → data = ToBytes s.
Proof.
  unfold scalarFromBytes, wrapf, wrap_err, library. destruct (NewFromCanonicalBytes data) as [q|] eqn:E; [|done].
  intros [= <-]. by rewrite (ToBytes_NewFromCanonicalBytes _ _ E).
Qed.

Lemma sub_app_l a b (l k : bytes) : (b ≤ length l)%nat → sub a b (l ++ k) = sub a b l.
Proof.
  intros H. unfold sub. destruct (decide (a ≤ length l)%nat).
  - rewrite drop_app_le by lia. rewrite take_app_le; [done|]. rewrite length_drop. lia.
  - replace (b - a)%nat with 0%nat by lia. done.
Qed.

Lemma sub_app_r a b (l k : bytes) : (length l ≤ a)%nat → sub a b (l ++ k) = sub (a - length l) (b - length l) k.
Proof.
  intros H. unfold sub. rewrite drop_app_ge by lia. f_equal. lia.
Qed.

Lemma sub_all n (l : bytes) : length l = n → sub 0 n l = l.
Proof. intros <-. unfold sub. rewrite drop_0, Nat.sub_0_r. by apply take_ge. Qed.

(** * Multiples of the base point *)

Lemma SetUint64_sub a b : 0 ≤ b ≤ a → a < 2 ^ 64 → SetUint64 (a - b) = sSub (SetUint64 a) (SetUint64 b).
Proof.
  intros Hb Ha. replace (SetUint64 a) with (sAdd (SetUint64 (a - b)) (SetUint64 b)); [ring|].
  rewrite <-SetUint64_add by lia. f_equal. lia.
Qed.

Lemma pMul_sub p a b : pMul p (sSub a b) = pSub (pMul p a) (pMul p b).
Proof. module_eq. ring. Qed.

Definition times (v : Z) : Point := pMul BASEPOINT (SetUint64 v).
Definition entryOf (v : Z) : discreteLogEntry := mkEntry (SetRistrettoPoint (times v)) v.

Lemma buildLoop_spec n v :
  0 ≤ v → v + Z.of_nat n ≤ 65536 → buildLoop n v (times v) = (λ i, (i, entryOf i)) <$> seqZ v (Z.of_nat n).
Proof.
  revert v. induction n as [|n IH]; intros v H1 H2; [done|].
  rewrite seqZ_cons by lia. cbn [buildLoop fmap list_fmap]. f_equal.
  - unfold compressedRistrettoKey, entryOf. rewrite u16_small by lia. done.
  - replace (Z.succ v) with (v + 1) by lia. replace (Z.pred (Z.of_nat (S n))) with (Z.of_nat n) by lia.
    rewrite <-IH by lia. f_equal. unfold times. rewrite SetUint64_add, SetUint64_1 by lia. module_eq. ring.
Qed.

Lemma workerRanges_cover fuel start chunk :
  0 < chunk → 0 ≤ start → 65536 - start ≤ chunk * Z.of_nat fuel →
  concat ((λ '(s, e), build s e) <$> workerRanges fuel start chunk 65536)
  = (λ i, (i, entryOf i)) <$> seqZ start (65536 - start).
Proof.
  intros Hc. revert start. induction fuel as [|fuel IH]; intros start Hs Hf; cbn [workerRanges].
  { rewrite seqZ_nil by lia. done. }
  destruct (decide (start < 65536)) as [Hlt|Hge]; [|rewrite seqZ_nil by lia; done].
  rewrite fmap_cons. cbn [concat]. rewrite IH by lia.
  unfold build. rewrite MulBasepoint_spec. fold (times start). rewrite buildLoop_spec by lia.
  rewrite <-fmap_app. f_equal. destruct (decide (start + chunk ≤ 65536)).
  - rewrite Z.min_l by lia. replace (65536 - start) with (chunk + (65536 - (start + chunk))) by lia.
    rewrite seqZ_app by lia. f_equal. f_equal; lia.
  - rewrite Z.min_r by lia. rewrite (seqZ_nil (start + chunk)) by lia. rewrite app_nil_r.
    f_equal. lia.
Qed.

Lemma workerWrites_all procs : 1 ≤ procs → concat (workerWrites procs) = (λ i, (i, entryOf i)) <$> seqZ 0 65536.
Proof.
  intros Hp. unfold workerWrites, tableSize. set (w := Z.min procs 65536).
  assert (Hw : 1 ≤ w ≤ 65536) by lia.
  rewrite workerRanges_cover; [done| |lia|]; dlia.
Qed.

(** Writes to distinct entries commute: an entry holds what the only write to it
    stored. *)
Lemma applyWrites_length ws es : length (applyWrites ws es) = length es.
Proof.
  unfold applyWrites. revert es. induction ws as [|[j e] ws IH]; intros es; [done|]. cbn [foldl]. rewrite IH.
  apply length_insert.
Qed.

Lemma applyWrites_lookup ws es i :
  (i < length es)%nat →
  applyWrites ws es !! i = foldl (λ o '(j, e), if decide (Z.to_nat j = i) then Some e else o) (es !! i) ws.
Proof.
  unfold applyWrites. revert es. induction ws as [|[j e] ws IH]; intros es Hi; [done|]. cbn [foldl].
  rewrite IH by (by rewrite length_insert). f_equal.
  destruct (decide (Z.to_nat j = i)) as [->|Hne]; [by rewrite list_lookup_insert_eq|by rewrite list_lookup_insert_ne].
Qed.

Lemma applyWrites_entries ws :
  ws ≡ₚ ((λ i, (i, entryOf i)) <$> seqZ 0 65536) →
  applyWrites ws (replicate (Z.to_nat tableSize) (mkEntry (zeros 32) 0)) = entryOf <$> seqZ 0 65536.
Proof.
  intros Hp.
  assert (Hin : ∀ j e, (j, e) ∈ ws → e = entryOf j ∧ 0 ≤ j < 65536).
  { intros j e He. rewrite Hp in He. apply list_elem_of_fmap in He as [k [[= -> ->] Hk]].
    apply elem_of_seqZ in Hk. split; [done|lia]. }
  assert (Hlast : ∀ i l (o : option discreteLogEntry), (∀ j e, (j, e) ∈ l → e = entryOf j ∧ 0 ≤ j < 65536) → 0 ≤ i < 65536 →
    foldl (λ o '(j, e), if decide (Z.to_nat j = Z.to_nat i) then Some e else o) o l
    = if decide (i ∈ l.*1) then Some (entryOf i) else o).
  { intros i l. induction l as [|[j e] l IH]; intros o Hl Hi; [done|]. cbn [foldl fmap list_fmap].
    destruct (Hl j e) as [-> Hj]; [by left|]. rewrite IH; [|by intros; apply Hl; right|done].
    destruct (decide (Z.to_nat j = Z.to_nat i)) as [E|E].
    - assert (j = i) as -> by lia. rewrite (decide_True (P := i ∈ i :: l.*1)) by (by left). by case_decide.
    - case_decide as H1; case_decide as H2; try done; exfalso; apply H2 || apply H1;
        [by right|apply elem_of_cons in H2 as [->|]; [done|done]]. }
  apply list_eq. intros i. destruct (decide (i < Z.to_nat tableSize)%nat) as [Hi|Hi]; unfold tableSize in Hi.
  - rewrite applyWrites_lookup by (rewrite length_replicate; exact Hi).
    assert (∃ z, 0 ≤ z < 65536 ∧ i = Z.to_nat z) as [z [Hz ->]] by (exists (Z.of_nat i); lia).
    rewrite Hlast by done. rewrite decide_True.
    + rewrite list_lookup_fmap, lookup_seqZ_lt by lia. cbn. do 2 f_equal. lia.
    + rewrite Hp, <-list_fmap_compose. apply list_elem_of_fmap. exists z. split; [done|].
      apply elem_of_seqZ. lia.
  - rewrite !lookup_ge_None_2; [done| |].
    + rewrite length_fmap, length_seqZ. lia.
    + rewrite applyWrites_length, length_replicate. unfold tableSize. lia.
Qed.

Section log.
Context {LO : LargeOrder R}.

Lemma times_inj a b : 0 ≤ a < 2 ^ 32 → 0 ≤ b < 2 ^ 32 → times a = times b → a = b.
Proof.
  assert (H : ∀ a b, 0 ≤ a → a < b → b < 2 ^ 32 → times a ≠ times b).
  { intros x y Hx Hxy Hy E. apply (basepoint_order (y - x)); [lia|].
    rewrite SetUint64_sub, pMul_sub by lia. unfold times in E. rewrite <-E. module_eq. ring. }
  intros Ha Hb E. destruct (Z.lt_trichotomy a b) as [?|[?|?]]; [|done|].
  - by destruct (H a b); try lia.
  - by destruct (H b a); try lia.
Qed.

(** A decoding table of a service: exactly the multiples below [2^16]. *)
Definition table_ok (table : gmap bytes Z) : Prop :=
  ∀ p v, table !! SetRistrettoPoint p = Some v ↔ 0 ≤ v < 65536 ∧ p = times v.

Lemma insert_entries (l : list Z) (table : gmap bytes Z) p v :
  NoDup l → Forall (λ i, 0 ≤ i < 65536) l → (∀ i, i ∈ l → table !! SetRistrettoPoint (times i) = None) →
  foldl (λ table entry, <[de_key entry := de_value entry]> table) table (entryOf <$> l) !! SetRistrettoPoint p = Some v
  ↔ table !! SetRistrettoPoint p = Some v ∨ (v ∈ l ∧ p = times v).
Proof.
  revert table. induction l as [|i l IH]; intros table Hnd Hb Hf.
  { cbn. split; [by left|]. intros [H|[H _]]; [done|]. by apply not_elem_of_nil in H. }
  apply NoDup_cons in Hnd as [Hi Hnd]. apply Forall_cons in Hb as [Hib Hb]. cbn [fmap list_fmap foldl].
  rewrite IH; [|done|done|].
  - cbn [entryOf de_key de_value]. destruct (decide (p = times i)) as [->|Hp].
    + rewrite lookup_insert_eq. split.
      * intros [[= <-]|[Hv E]]; [right; split; [by left|done]|right; split; [by right|done]].
      * intros [H|[Hv E]]; [rewrite Hf in H; [done|by left]|].
        apply elem_of_cons in Hv as [->|Hv]; [by left|]. by right.
    + rewrite lookup_insert_ne by (intros E; apply Hp; by apply SetRistrettoPoint_inj). split.
      * intros [H|[Hv E]]; [by left|]. right. split; [by right|done].
      * intros [H|[Hv E]]; [by left|]. apply elem_of_cons in Hv as [->|Hv]; [done|]. by right.
  - intros j Hj. cbn [entryOf de_key de_value]. rewrite lookup_insert_ne; [apply Hf; by right|].
    intros E%SetRistrettoPoint_inj. rewrite Forall_forall in Hb.
    apply times_inj in E; [by subst|lia|]. specialize (Hb j Hj). lia.
Qed.

Lemma buildDiscreteLogTable_ok procs schedule :
  1 ≤ procs → (∀ l, schedule l ≡ₚ concat l) → table_ok (buildDiscreteLogTable procs schedule).
Proof.
  intros Hp Hs p v. unfold buildDiscreteLogTable.
  rewrite applyWrites_entries by (rewrite Hs; by rewrite workerWrites_all).
  rewrite insert_entries.
  - rewrite lookup_empty, elem_of_seqZ. naive_solver lia.
  - apply NoDup_seqZ.
  - apply Forall_forall. intros i Hi. apply elem_of_seqZ in Hi. lia.
  - intros i _. apply lookup_empty.
Qed.

(** * Decoding *)

Lemma lor_high_low high low :
  0 ≤ high < 65536 → 0 ≤ low < 65536 → Z.lor (u32 (Z.shiftl high 16)) low = high * 65536 + low.
Proof.
  intros Hh Hl. unfold u32. rewrite Z.mod_small by (rewrite Z.shiftl_mul_pow2 by lia; lia).
  rewrite Z.lor_comm, lor_shiftl_add by lia. lia.
Qed.

Lemma decodeLoop_found table n high v p :
  table_ok table → 0 ≤ high → high + Z.of_nat n = 65536 → 0 ≤ v → high * 65536 + v < 2 ^ 32 → p = times v →
  decodeLoop n high p (times 65536) table = Ok (high * 65536 + v).
Proof.
  intros Ht. revert high v p. induction n as [|n IH]; intros high v p Hh Hn Hv Hlt ->; [lia|].
  cbn [decodeLoop]. unfold compressedRistrettoKey.
  destruct (table !! SetRistrettoPoint (times v)) as [low|] eqn:E.
  - apply Ht in E as [Hl E]. apply times_inj in E as <-; [|lia|lia]. rewrite lor_high_low by lia. done.
  - assert (65536 ≤ v).
    { apply Z.nlt_ge. intros Hs. assert (table !! SetRistrettoPoint (times v) = Some v) by (by apply Ht). congruence. }
    rewrite (IH (high + 1) (v - 65536)); [f_equal; lia|lia|lia|lia|lia|].
    unfold times. rewrite SetUint64_sub, pMul_sub by lia. done.
Qed.

Lemma decodeLoop_sound table n high p v :
  table_ok table → 0 ≤ high → high + Z.of_nat n ≤ 65536 → decodeLoop n high p (times 65536) table = Ok v →
  high * 65536 ≤ v < 2 ^ 32 ∧ p = times (v - high * 65536).
Proof.
  intros Ht. revert high p. induction n as [|n IH]; intros high p Hh Hn; cbn [decodeLoop]; [done|].
  unfold compressedRistrettoKey. destruct (table !! SetRistrettoPoint p) as [low|] eqn:E.
  - apply Ht in E as [Hl ->]. intros [= <-]. rewrite lor_high_low by lia. split; [lia|]. f_equal. lia.
  - intros H. apply IH in H as [Hv Hp]; [|lia|lia]. split; [lia|].
    replace (v - high * 65536) with (v - (high + 1) * 65536 + 65536) by lia.
    unfold times in *. rewrite SetUint64_add by lia. rewrite pMul_sAdd, <-Hp. by rewrite pSub_pAdd.
Qed.

Lemma decodeLoop_no_panic table n high p step : decodeLoop n high p step table ≠ Panic.
Proof. revert high p. induction n as [|n IH]; intros high p; cbn; [done|]. case_match; [done|]. apply IH. Qed.

(** What [decodePedersenCommitmentU32] computes on the encoding of a point. *)
Lemma decode_spec table p :
  table_ok table →
  (∀ v, decodePedersenCommitmentU32 (SetRistrettoPoint p) table = Ok v ↔ 0 ≤ v < 2 ^ 32 ∧ p = times v)
  ∧ decodePedersenCommitmentU32 (SetRistrettoPoint p) table ≠ Panic.
Proof.
  intros Ht. unfold decodePedersenCommitmentU32. rewrite ristrettoPoint_encoded. cbn [mbind outcome_bind].
  fold (times 65536). split; [|apply decodeLoop_no_panic]. intros v. split.
  - intros H. apply decodeLoop_sound in H as [Hv Hp]; [|done|lia|lia]. split; [lia|]. rewrite Hp. f_equal. lia.
  - intros [Hv ->]. rewrite (decodeLoop_found _ _ 0 v) by (done || lia). f_equal.
Qed.

(** * Encryption *)

(** [ct] is the ciphertext made of two points; [decrypts secret ct m] when its
    target under the secret scalar is [m • BASEPOINT]. *)
Definition ciphertextOf (c d : Point) : bytes := SetRistrettoPoint c ++ SetRistrettoPoint d.
Definition decrypts (secret : Scalar) (ct : bytes) (m : Scalar) : Prop :=
  ∃ c d, ct = ciphertextOf c d ∧ pSub c (pMul d secret) = pMul BASEPOINT m.

Lemma elGamalCiphertext_eq c d : elGamalCiphertext c d = ciphertextOf c d.
Proof. unfold elGamalCiphertext, ciphertextOf. by rewrite !pedersenCommitment_eq. Qed.

Lemma elGamalCiphertextPoints_of c d : elGamalCiphertextPoints (ciphertextOf c d) = Ok (c, d).
Proof.
  unfold elGamalCiphertextPoints, ciphertextOf. pose proof (SetRistrettoPoint_length c) as Hc.
  pose proof (SetRistrettoPoint_length d) as Hd.
  rewrite (sub_app_l 0 32), (sub_app_r 32 64) by lia. rewrite Hc. cbn [Nat.sub]. rewrite !sub_all by done.
  rewrite !ristrettoPoint_encoded. done.
Qed.

Lemma DecryptElGamalTarget_of secret ct m :
  decrypts secret ct m → DecryptElGamalTarget (ToBytes secret) ct = Ok (SetRistrettoPoint (pMul BASEPOINT m)).
Proof.
  intros (c & d & -> & E). unfold DecryptElGamalTarget. rewrite scalarFromBytes_encoded. cbn [mbind outcome_bind].
  rewrite elGamalCiphertextPoints_of. cbn [mbind outcome_bind]. by rewrite pedersenCommitment_eq, E.
Qed.

Lemma DecryptElGamalU32_of service secret ct v :
  table_ok (discreteLog service) → decrypts secret ct (SetUint64 v) → 0 ≤ v < 2 ^ 32 →
  DecryptElGamalU32 service (ToBytes secret) ct = Ok v.
Proof.
  intros Ht Hd Hv. unfold DecryptElGamalU32. rewrite (DecryptElGamalTarget_of _ _ _ Hd). cbn.
  unfold DecodePedersenCommitmentU32. by rewrite (proj2 (proj1 (decode_spec _ _ Ht) v)).
Qed.

Lemma decryptElGamalU32_of secret ct v table :
  table_ok table → decrypts secret ct (SetUint64 v) → 0 ≤ v < 2 ^ 32 →
  decryptElGamalU32 (ToBytes secret) ct table = Ok v.
Proof.
  intros Ht Hd Hv. unfold decryptElGamalU32. rewrite (DecryptElGamalTarget_of _ _ _ Hd). obind.
  by rewrite (proj2 (proj1 (decode_spec _ _ Ht) v)).
Qed.
End log.

(** The public key of a secret scalar. *)
Definition pubkeyOf (secret : Scalar) : Point := pMul openingPoint (sInvert secret).

Lemma DeriveElGamalPubkey_of secret :
  secret ≠ sNew → DeriveElGamalPubkey (ToBytes secret) = Ok (SetRistrettoPoint (pubkeyOf secret)).
Proof.
  intros Hs. unfold DeriveElGamalPubkey. rewrite NewFromCanonicalBytes_ToBytes. obind.
  rewrite decide_False by done. rewrite hashedBasepoint_ok. obind. f_equal. apply copy_into_full.
  by rewrite SetRistrettoPoint_length.
Qed.

Lemma DeriveElGamalPubkey_inv secretKey pubkey :
  DeriveElGamalPubkey secretKey = Ok pubkey →
  ∃ secret, secretKey = ToBytes secret ∧ secret ≠ sNew ∧ pubkey = SetRistrettoPoint (pubkeyOf secret).
Proof.
  intros H. unfold DeriveElGamalPubkey in H. destruct (NewFromCanonicalBytes secretKey) as [secret|] eqn:E; [|done].
  exists secret. pose proof (ToBytes_NewFromCanonicalBytes _ _ E) as <-.
  obind_in H. destruct (decide (secret = sNew)) as [|Hs]; [done|]. split_and!; [done|done|].
  rewrite hashedBasepoint_ok in H. obind_in H. injection H as <-. apply copy_into_full. by rewrite SetRistrettoPoint_length.
Qed.

Lemma pedersenCommitmentPoint_eq amount r :
  pedersenCommitmentPoint amount r openingPoint = pAdd (pMul BASEPOINT (SetUint64 amount)) (pMul openingPoint r).
Proof. unfold pedersenCommitmentPoint. rewrite MultiscalarMul_spec by done. cbn [msm]. module_eq; ring. Qed.

Lemma CommitPedersen_of service amount r :
  service_ok service →
  CommitPedersen service amount (ToBytes r) = Ok (SetRistrettoPoint (pAdd (pMul BASEPOINT (SetUint64 amount)) (pMul openingPoint r))).
Proof.
  intros Hs. unfold CommitPedersen. rewrite scalarFromBytes_encoded. obind. rewrite pedersenOpeningBasepoint_ok by done. obind.
  by rewrite pedersenCommitment_eq, pedersenCommitmentPoint_eq.
Qed.

Lemma encryptHandles_of r keys :
  encryptHandles r (SetRistrettoPoint <$> keys) = Ok (concat ((λ p, SetRistrettoPoint (pMul p r)) <$> keys)).
Proof.
  induction keys as [|k keys IH]; [done|]. rewrite !fmap_cons. cbn [encryptHandles]. rewrite ristrettoPoint_encoded.
  obind. rewrite IH. obind. by rewrite pedersenCommitment_eq.
Qed.

Definition groupedOf (amount r : Scalar) (keys : list Point) : bytes :=
  SetRistrettoPoint (pAdd (pMul BASEPOINT amount) (pMul openingPoint r))
  ++ concat ((λ p, SetRistrettoPoint (pMul p r)) <$> keys).

Lemma encryptGroupedElGamal_of service keys amount r :
  service_ok service →
  encryptGroupedElGamal service (SetRistrettoPoint <$> keys) amount (ToBytes r) = Ok (groupedOf (SetUint64 amount) r keys).
Proof.
  intros Hs. unfold encryptGroupedElGamal. rewrite scalarFromBytes_encoded. obind.
  rewrite pedersenOpeningBasepoint_ok by done. obind. rewrite encryptHandles_of. obind.
  by rewrite pedersenCommitment_eq, pedersenCommitmentPoint_eq.
Qed.

Lemma EncryptElGamalWithOpening_of service key amount r :
  service_ok service →
  EncryptElGamalWithOpening service (SetRistrettoPoint key) amount (ToBytes r)
  = Ok (ciphertextOf (pAdd (pMul BASEPOINT (SetUint64 amount)) (pMul openingPoint r)) (pMul key r)).
Proof.
  intros Hs. unfold EncryptElGamalWithOpening. rewrite (encryptGroupedElGamal_of service [key]) by done. obind.
  unfold groupedOf. cbn [fmap list_fmap concat]. rewrite app_nil_r. f_equal. apply copy_into_full.
  unfold ciphertextOf. rewrite length_app, !SetRistrettoPoint_length. done.
Qed.

Lemma fresh_decrypts secret amount r :
  secret ≠ sNew →
  decrypts secret (ciphertextOf (pAdd (pMul BASEPOINT amount) (pMul openingPoint r)) (pMul (pubkeyOf secret) r)) amount.
Proof.
  intros Hs. eexists _, _. split; [done|]. unfold pubkeyOf. module_eq; field; done.
Qed.

Lemma zero_decrypts secret : decrypts secret (zeros 64) (SetUint64 0).
Proof.
  exists identity, identity. split; [unfold ciphertextOf; by rewrite SetRistrettoPoint_identity|].
  rewrite SetUint64_0, pMul_sNew. module_eq; ring.
Qed.

(** The homomorphism of every operation on ciphertexts. *)
Lemma combine_decrypts secret c1 c2 m1 m2 subtract :
  decrypts secret c1 m1 → decrypts secret c2 m2 →
  ∃ c, combineElGamalCiphertexts c1 c2 subtract = Ok c
       ∧ decrypts secret c (if subtract then sSub m1 m2 else sAdd m1 m2).
Proof.
  intros (p1 & d1 & -> & E1) (p2 & d2 & -> & E2). unfold combineElGamalCiphertexts.
  rewrite !elGamalCiphertextPoints_of. obind.
  destruct subtract; rewrite elGamalCiphertext_eq; (eexists; split; [done|]); eexists _, _; (split; [done|]).
  - rewrite pMul_sub, <-E1, <-E2. module_eq; ring.
  - rewrite pMul_sAdd, <-E1, <-E2. module_eq; ring.
Qed.

Lemma amount_decrypts secret c m v subtract :
  decrypts secret c m →
  ∃ c', combineElGamalAmount c v subtract = Ok c'
        ∧ decrypts secret c' (if subtract then sSub m (SetUint64 v) else sAdd m (SetUint64 v)).
Proof.
  intros (p & d & -> & E). unfold combineElGamalAmount. rewrite elGamalCiphertextPoints_of. obind.
  destruct subtract; rewrite elGamalCiphertext_eq; (eexists; split; [done|]); eexists _, _; (split; [done|]).
  - rewrite pMul_sub, <-E. module_eq; ring.
  - rewrite pMul_sAdd, <-E. module_eq; ring.
Qed.

Lemma scale_decrypts secret c m k :
  decrypts secret c m →
  ∃ c', ScaleElGamalCiphertext c k = Ok c' ∧ decrypts secret c' (sMul m (SetUint64 k)).
Proof.
  intros (p & d & -> & E). unfold ScaleElGamalCiphertext. rewrite elGamalCiphertextPoints_of. obind.
  rewrite elGamalCiphertext_eq. eexists. split; [done|]. eexists _, _. split; [done|].
  rewrite pMul_sMul, <-E. module_eq; ring.
Qed.

Lemma combineAmounts_decrypts secret c1 c2 m1 m2 :
  decrypts secret c1 m1 → decrypts secret c2 m2 →
  ∃ c, CombineElGamalAmountCiphertexts c1 c2 = Ok c ∧ decrypts secret c (sAdd m1 (sMul m2 (SetUint64 65536))).
Proof.
  intros H1 H2. unfold CombineElGamalAmountCiphertexts.
  destruct (scale_decrypts _ _ _ 65536 H2) as (c' & -> & H'). cbn.
  apply (combine_decrypts secret c1 c' _ _ false); done.
Qed.

(** Recipient [i] of a grouped ciphertext. *)
Lemma concat_block (f : Point → bytes) (keys : list Point) i k :
  (∀ p, length (f p) = 32%nat) → keys !! i = Some k → sub (i * 32) ((i + 1) * 32) (concat (f <$> keys)) = f k.
Proof.
  intros Hf. revert i. induction keys as [|k0 keys IH]; intros [|i] Hi; try done; rewrite fmap_cons; cbn [concat].
  - injection Hi as ->. rewrite sub_app_l by (rewrite Hf; lia). by apply sub_all.
  - rewrite sub_app_r by (rewrite Hf; lia). rewrite Hf. rewrite <-(IH i Hi). f_equal; lia.
Qed.

Lemma groupedElGamalHandle_of amount r keys n i k :
  keys !! Z.to_nat i = Some k → 0 ≤ i < n →
  groupedElGamalHandle (groupedOf amount r keys) n i
  = Ok (ciphertextOf (pAdd (pMul BASEPOINT amount) (pMul openingPoint r)) (pMul k r)).
Proof.
  intros Hk Hi. unfold groupedElGamalHandle. rewrite decide_False by lia. f_equal. unfold groupedOf, ciphertextOf.
  f_equal.
  - rewrite sub_app_l by (rewrite SetRistrettoPoint_length; lia). apply sub_all, SetRistrettoPoint_length.
  - rewrite sub_app_r by (rewrite SetRistrettoPoint_length; lia). rewrite SetRistrettoPoint_length.
    rewrite <-(concat_block (λ p, SetRistrettoPoint (pMul p r)) keys (Z.to_nat i) k) by (done || intros; apply SetRistrettoPoint_length).
    f_equal; lia.
Qed.
End spec.

(** * What a started service promises *)

Section service.
Context `{R : Ristretto} {L : RistrettoLaws R} {LO : LargeOrder R} {Sh : Shake} {ShL : ShakeLaws Sh}.

Implicit Types service : ConfidentialTransferService.

(** Any order of the workers' writes. *)
Definition fair (schedule : list (list (Z * discreteLogEntry)) → list (Z * discreteLogEntry)) : Prop :=
  ∀ l, schedule l ≡ₚ concat l.

Lemma chainLoop_ok n st : ∃ points, chainLoop n st = Ok points ∧ length points = n.
Proof.
  revert st. induction n as [|n IH]; intros st; [by exists []|]. cbn [chainLoop].
  destruct (ShakeRead_ok st 64) as (b & st' & -> & Hb); [lia|]. obind.
  destruct (SetUniformBytes_ok b) as [p ->]; [by apply length_of_len|]. obind.
  destruct (IH st') as (points & -> & Hl). obind. exists (p :: points). split; [done|]. cbn. by rewrite Hl.
Qed.

Lemma newRangeProofGenerators_ok n :
  ∃ g h, newRangeProofGenerators n = Ok (mkGenerators g h) ∧ length g = n ∧ length h = n.
Proof.
  unfold newRangeProofGenerators, rangeGeneratorChain.
  destruct (ShakeWrite_ok NewShake256 (str "GeneratorsChain")) as [st ->]. obind.
  destruct (ShakeWrite_ok st (str "G")) as [st1 ->]. destruct (ShakeWrite_ok st (str "H")) as [st2 ->]. obind.
  destruct (chainLoop_ok n st1) as (g & -> & Hg). obind. destruct (chainLoop_ok n st2) as (h & -> & Hh). obind.
  by exists g, h.
Qed.

Lemma Start_ok service0 procs schedule :
  service_ok service0 → 1 ≤ procs → fair schedule →
  ∃ service, Start service0 procs schedule = Ok service ∧ service_ok service ∧ table_ok (discreteLog service)
             ∧ len (gens_g (rangeGens service)) = 256 ∧ len (gens_h (rangeGens service)) = 256.
Proof.
  intros Hs Hp Hf. unfold Start. destruct (newRangeProofGenerators_ok 256) as (g & h & -> & Hg & Hh).
  rewrite pedersenOpeningBasepoint_ok by done. eexists. split; [done|]. cbn. unfold service_ok. cbn.
  split_and!; [done|by apply buildDiscreteLogTable_ok| |]; unfold len; lia.
Qed.
End service.

Section properties.
Context `{R : Ristretto} {L : RistrettoLaws R} {LO : LargeOrder R} {Sh : Shake} {ShL : ShakeLaws Sh}.

(** C6. A service is started once, from any number of processors and under any
    interleaving of the goroutines that fill the table of discrete logarithms: it
    does not panic, and afterwards [DecodePedersenCommitmentU32] on the encoding of a
    point returns [v] exactly when the point is [v] times the base point for a
    32-bit [v], and an error for every other point. *)
Theorem discrete_log_exact (service0 : ConfidentialTransferService) (procs : Z) schedule :
  service_ok service0 → 1 ≤ procs → fair schedule →
  ∃ service, Start service0 procs schedule = Ok service ∧
    ∀ p, DecodePedersenCommitmentU32 service (SetRistrettoPoint p) ≠ Panic ∧
      ∀ v, DecodePedersenCommitmentU32 service (SetRistrettoPoint p) = Ok v
           ↔ 0 ≤ v < 2 ^ 32 ∧ p = pMul BASEPOINT (SetUint64 v).
Proof.
  intros Hs Hp Hf. destruct (Start_ok service0 procs schedule Hs Hp Hf) as (service & HS & _ & Ht & _).
  exists service. split; [done|]. intros p. unfold DecodePedersenCommitmentU32.
  destruct (decode_spec _ p Ht) as [H1 H2]. split; [done|]. exact H1.
Qed.

(** Decryption inverts encryption for every recipient: a 32-bit amount encrypted
    with any canonical opening to the public keys derived from a list of secret keys
    is recovered by each of those secret keys from its handle of the grouped
    ciphertext, and from the ciphertext for that key alone. *)
Lemma elgamal_roundtrip (service0 service : ConfidentialTransferService) (procs : Z) schedule
  (secretKeys publicKeys : list bytes) (amount : Z) (opening : bytes) :
  service_ok service0 → 1 ≤ procs → fair schedule → Start service0 procs schedule = Ok service →
  Forall2 (λ secretKey publicKey, DeriveElGamalPubkey secretKey = Ok publicKey) secretKeys publicKeys →
  0 ≤ amount < 2 ^ 32 → PedersenOpeningFromBytes opening = Ok opening →
  ∃ grouped, encryptGroupedElGamal service publicKeys amount opening = Ok grouped ∧
    ∀ i secretKey publicKey, secretKeys !! i = Some secretKey → publicKeys !! i = Some publicKey →
      (∃ ct, groupedElGamalHandle grouped (len publicKeys) (Z.of_nat i) = Ok ct
             ∧ DecryptElGamalU32 service secretKey ct = Ok amount)
      ∧ (∃ ct, EncryptElGamalWithOpening service publicKey amount opening = Ok ct
               ∧ DecryptElGamalU32 service secretKey ct = Ok amount).
Proof.
  intros Hs Hp Hf HS Hk Ha Ho.
  destruct (Start_ok service0 procs schedule Hs Hp Hf) as (service' & E & Hok & Ht & _).
  rewrite HS in E. injection E as <-.
  assert (∃ r, opening = ToBytes r) as [r ->].
  { unfold PedersenOpeningFromBytes in Ho. destruct (scalarFromBytes opening _) as [r| |] eqn:Er; [|done|done].
    exists r. by apply scalarFromBytes_inv in Er. }
  assert (∃ secrets, secretKeys = ToBytes <$> secrets ∧ Forall (λ s, s ≠ sNew) secrets
                     ∧ publicKeys = (λ s, SetRistrettoPoint (pubkeyOf s)) <$> secrets) as (secrets & -> & Hnz & ->).
  { clear -Hk L. induction Hk as [|sk pk sks pks Hd _ (secrets & -> & Hnz & ->)]; [by exists []|].
    apply DeriveElGamalPubkey_inv in Hd as (s & -> & Hs & ->). exists (s :: secrets).
    split_and!; [done|by constructor|done]. }
  rewrite (list_fmap_compose pubkeyOf SetRistrettoPoint secrets : (λ s, SetRistrettoPoint (pubkeyOf s)) <$> secrets = _).
  rewrite (encryptGroupedElGamal_of _ (pubkeyOf <$> secrets)) by done.
  eexists. split; [done|]. intros i sk pk Hsk Hpk.
  rewrite list_lookup_fmap in Hsk. rewrite !list_lookup_fmap in Hpk. destruct (secrets !! i) as [s|] eqn:Hi; [|done].
  injection Hsk as <-. injection Hpk as <-. rewrite Forall_lookup in Hnz. specialize (Hnz i s Hi).
  split.
  - rewrite (groupedElGamalHandle_of _ _ _ _ _ (pubkeyOf s)).
    + eexists. split; [done|]. apply DecryptElGamalU32_of; [done| |done]. by apply fresh_decrypts.
    + rewrite Nat2Z.id, list_lookup_fmap, Hi. done.
    + rewrite !len_fmap. apply lookup_lt_Some in Hi. unfold len. lia.
  - rewrite EncryptElGamalWithOpening_of by done. eexists. split; [done|].
    apply DecryptElGamalU32_of; [done| |done]. by apply fresh_decrypts.
Qed.

Lemma SplitAmount_spec amount :
  0 ≤ amount < 2 ^ 48 → SplitAmount amount = Ok (amount mod 65536, amount / 65536).
Proof.
  intros Ha. unfold SplitAmount. rewrite decide_False by lia. unfold u16, u32.
  rewrite Z.shiftr_div_pow2 by lia. change (2 ^ 16) with 65536. rewrite (Z.mod_small (amount / 65536)) by dlia. done.
Qed.

Lemma CombineAmount_spec low high :
  0 ≤ low < 65536 → 0 ≤ high < 2 ^ 32 → CombineAmount low high = low + high * 65536.
Proof.
  intros Hl Hh. unfold CombineAmount, u64. rewrite Z.mod_small by (rewrite Z.shiftl_mul_pow2 by lia; lia).
  rewrite lor_shiftl_add by lia. lia.
Qed.

(** A pending balance is the pair of a low and a high ciphertext, at first the ones of
    zero. A credit of an amount is split, both halves are encrypted under the owner's
    key with fresh openings, and the ledger adds the ciphertexts to the pair. *)
Record credit := mkCredit { cr_amount : Z; cr_lowOpening : Scalar; cr_highOpening : Scalar }.

Definition creditPending service (pubkey : ElGamalPubkey) (pending : ElGamalCiphertext * ElGamalCiphertext) (c : credit)
  : outcome error (ElGamalCiphertext * ElGamalCiphertext) :=
  '(low, high) ← SplitAmount (cr_amount c);
  ctLow ← EncryptElGamalWithOpening service pubkey low (ToBytes (cr_lowOpening c));
  ctHigh ← EncryptElGamalWithOpening service pubkey high (ToBytes (cr_highOpening c));
  pendingLow ← AddElGamalCiphertexts pending.1 ctLow;
  pendingHigh ← AddElGamalCiphertexts pending.2 ctHigh;
  Ok (pendingLow, pendingHigh).
Fixpoint creditAll service (pubkey : ElGamalPubkey) (pending : ElGamalCiphertext * ElGamalCiphertext) (credits : list credit)
  : outcome error (ElGamalCiphertext * ElGamalCiphertext) :=
  match credits with
  | [] => Ok pending
  | c :: credits => pending ← creditPending service pubkey pending c; creditAll service pubkey pending credits
  end.

Definition totalOf (credits : list credit) : Z := foldr (λ c t, cr_amount c + t) 0 credits.
Definition lowSum (credits : list credit) : Z := foldr (λ c t, cr_amount c mod 65536 + t) 0 credits.
Definition highSum (credits : list credit) : Z := foldr (λ c t, cr_amount c / 65536 + t) 0 credits.

Lemma sums_total credits : totalOf credits = lowSum credits + highSum credits * 65536.
Proof. unfold totalOf, lowSum, highSum. induction credits as [|c credits IH]; cbn [foldr]; [done|dlia]. Qed.
Lemma sums_nonneg credits : Forall (λ c, 0 ≤ cr_amount c < 2 ^ 48) credits → 0 ≤ lowSum credits ∧ 0 ≤ highSum credits.
Proof. unfold lowSum, highSum. induction 1 as [|c credits Hc _ IH]; cbn [foldr]; [done|dlia]. Qed.

Lemma creditAll_decrypts service secret credits low high vl vh :
  service_ok service → secret ≠ sNew → Forall (λ c, 0 ≤ cr_amount c < 2 ^ 48) credits →
  0 ≤ vl → 0 ≤ vh → vl + lowSum credits < 2 ^ 64 → vh + highSum credits < 2 ^ 64 →
  decrypts secret low (SetUint64 vl) → decrypts secret high (SetUint64 vh) →
  ∃ low' high', creditAll service (SetRistrettoPoint (pubkeyOf secret)) (low, high) credits = Ok (low', high') ∧
    decrypts secret low' (SetUint64 (vl + lowSum credits)) ∧ decrypts secret high' (SetUint64 (vh + highSum credits)).
Proof.
  intros Hs Hn Hc. revert low high vl vh. induction Hc as [|c credits Hc Hcs IH]; intros low high vl vh Hl Hh Hl64 Hh64 Dl Dh.
  { exists low, high. unfold lowSum, highSum. cbn [foldr]. by rewrite !Z.add_0_r. }
  change (lowSum (c :: credits)) with (cr_amount c mod 65536 + lowSum credits) in *.
  change (highSum (c :: credits)) with (cr_amount c / 65536 + highSum credits) in *.
  destruct (sums_nonneg _ Hcs) as [Nl Nh]. cbn [creditAll]. unfold creditPending. rewrite SplitAmount_spec by done. obind.
  rewrite !EncryptElGamalWithOpening_of by done. obind. cbn [fst snd].
  destruct (combine_decrypts secret _ _ _ _ false Dl (fresh_decrypts secret (SetUint64 (cr_amount c mod 65536)) (cr_lowOpening c) Hn)) as (low' & E1 & D1).
  destruct (combine_decrypts secret _ _ _ _ false Dh (fresh_decrypts secret (SetUint64 (cr_amount c / 65536)) (cr_highOpening c) Hn)) as (high' & E2 & D2).
  unfold AddElGamalCiphertexts. rewrite E1. obind. rewrite E2. obind. rewrite <-SetUint64_add in D1, D2 by dlia.
  destruct (IH low' high' (vl + cr_amount c mod 65536) (vh + cr_amount c / 65536)) as (low2 & high2 & H1 & H2 & H3); [dlia|dlia|lia|lia|done|done|].
  exists low2, high2. rewrite !Z.add_assoc. done.
Qed.

(** C32. A pending balance: any sequence of credits below [2^48], added to the
    ciphertexts of zero as the ledger does, whose high halves sum to less than
    [2^32]. When the low halves sum to at most 16 bits, [DecryptPendingBalance]
    returns the sum of the credits; when they sum to more, it fails with a decryption
    error, though that sum, too, is within the 32 bits that can be decoded. *)
Theorem pending_balance_credits (service0 service : ConfidentialTransferService) (procs : Z) schedule
  (secret : Scalar) (credits : list credit) :
  service_ok service0 → 1 ≤ procs → fair schedule → Start service0 procs schedule = Ok service →
  secret ≠ sNew → Forall (λ c, 0 ≤ cr_amount c < 2 ^ 48) credits → highSum credits < 2 ^ 32 → lowSum credits < 2 ^ 32 →
  ∃ pubkey low high,
    DeriveElGamalPubkey (ToBytes secret) = Ok pubkey ∧ creditAll service pubkey (zeros 64, zeros 64) credits = Ok (low, high) ∧
    (lowSum credits ≤ 65535 → DecryptPendingBalance service (ToBytes secret) low high = Ok (totalOf credits)) ∧
    (65535 < lowSum credits → ∃ e, DecryptPendingBalance service (ToBytes secret) low high = Err e ∧ classified e = Some 4).
Proof.
  intros Hs Hp Hf HS Hn Hc Hh Hl.
  destruct (Start_ok service0 procs schedule Hs Hp Hf) as (service' & E & Hok & Ht & _).
  rewrite HS in E. injection E as <-. destruct (sums_nonneg _ Hc) as [Nl Nh].
  destruct (creditAll_decrypts service secret credits (zeros 64) (zeros 64) 0 0) as (low & high & E & Dl & Dh);
    [done|done|done|lia|lia|lia|lia|apply zero_decrypts..|]. rewrite Z.add_0_l in Dl, Dh.
  exists (SetRistrettoPoint (pubkeyOf secret)), low, high. split_and!; [by apply DeriveElGamalPubkey_of|done| |]; intros Hs16;
    unfold DecryptPendingBalance; rewrite (decryptElGamalU32_of secret low _ _ Ht Dl) by lia; obind.
  - rewrite decide_False by lia. rewrite (decryptElGamalU32_of secret high _ _ Ht Dh) by lia. obind.
    f_equal. rewrite u16_small, CombineAmount_spec by lia. by rewrite sums_total.
  - rewrite decide_True by lia. eexists. split; [done|]. done.
Qed.

(** The operations on ciphertexts are homomorphic: from ciphertexts whose targets
    under a secret key are [m1] and [m2] times the base point, adding, subtracting,
    adding or subtracting a plain amount, scaling and combining a low and a high half
    succeed, and the result decrypts to the corresponding combination. *)
Lemma ciphertext_homomorphism (secret : Scalar) (c1 c2 : bytes) (m1 m2 : Scalar) (k : Z) :
  decrypts secret c1 m1 → decrypts secret c2 m2 →
  let target c m := DecryptElGamalTarget (ToBytes secret) c = Ok (SetRistrettoPoint (pMul BASEPOINT m)) in
  (∃ c, AddElGamalCiphertexts c1 c2 = Ok c ∧ target c (sAdd m1 m2)) ∧
  (∃ c, SubtractElGamalCiphertexts c1 c2 = Ok c ∧ target c (sSub m1 m2)) ∧
  (∃ c, AddElGamalAmount c1 k = Ok c ∧ target c (sAdd m1 (SetUint64 k))) ∧
  (∃ c, SubtractElGamalAmount c1 k = Ok c ∧ target c (sSub m1 (SetUint64 k))) ∧
  (∃ c, ScaleElGamalCiphertext c1 k = Ok c ∧ target c (sMul m1 (SetUint64 k))) ∧
  (∃ c, CombineElGamalAmountCiphertexts c1 c2 = Ok c ∧ target c (sAdd m1 (sMul m2 (SetUint64 65536)))).
Proof.
  intros H1 H2 target.
  assert (T : ∀ m c, decrypts secret c m → target c m) by (intros; by apply DecryptElGamalTarget_of).
  split_and!.
  - destruct (combine_decrypts _ _ _ _ _ false H1 H2) as (c & E & Hc). eauto.
  - destruct (combine_decrypts _ _ _ _ _ true H1 H2) as (c & E & Hc). eauto.
  - destruct (amount_decrypts _ _ _ k false H1) as (c & E & Hc). eauto.
  - destruct (amount_decrypts _ _ _ k true H1) as (c & E & Hc). eauto.
  - destruct (scale_decrypts _ _ _ k H1) as (c & E & Hc). eauto.
  - destruct (combineAmounts_decrypts _ _ _ _ _ H1 H2) as (c & E & Hc). eauto.
Qed.
End properties.

(** * Witnesses *)

Lemma fair_concat `{R : Ristretto} : fair (λ l, concat l).
Proof. intros l. reflexivity. Qed.

Lemma discrete_log_exact_witness :
  ∃ service, Start zeroService 4 (λ l, concat l) = Ok service ∧
    DecodePedersenCommitmentU32 service (SetRistrettoPoint (pMul BASEPOINT (SetUint64 70000))) = Ok 70000.
Proof.
  destruct (discrete_log_exact zeroService 4 (λ l, concat l)) as (service & HS & H); [exact I|lia|apply fair_concat|].
  exists service. split; [exact HS|]. apply H. split; [lia|reflexivity].
Defined.

(** A service started with three workers whose writes come out in another order. *)
Lemma fair_reverse `{R : Ristretto} : fair (λ l, concat (reverse l)).
Proof. intros l. by rewrite (reverse_Permutation l). Qed.

Lemma toy_pubkey n : 0 < n < toyModulus →
  DeriveElGamalPubkey (ToBytes (toyScalar n)) = Ok (SetRistrettoPoint (pubkeyOf (toyScalar n))).
Proof. intros H. by apply DeriveElGamalPubkey_of, toy_nonzero. Qed.

Lemma toy_opening n : PedersenOpeningFromBytes (ToBytes (toyScalar n)) = Ok (ToBytes (toyScalar n)).
Proof. unfold PedersenOpeningFromBytes. by rewrite scalarFromBytes_encoded. Qed.

Definition toyCredits (amounts : list Z) : list (@credit toy) := (λ a, mkCredit a (toyScalar 1) (toyScalar 3)) <$> amounts.

Lemma pending_balance_credits_witness :
  (∃ service low high, Start zeroService 1 (λ l, concat l) = Ok service ∧
    DecryptPendingBalance service (ToBytes (toyScalar 5)) low high = Ok 200006) ∧
  (∃ service low high e, Start zeroService 1 (λ l, concat l) = Ok service ∧
    DecryptPendingBalance service (ToBytes (toyScalar 5)) low high = Err e ∧ classified e = Some 4).
Proof.
  destruct (Start_ok zeroService 1 (λ l, concat l) I ltac:(lia) fair_concat) as (service & HS & _). split.
  - destruct (pending_balance_credits zeroService service 1 (λ l, concat l) (toyScalar 5) (toyCredits [200000; 1; 5]))
      as (pk & low & high & _ & _ & H & _);
      [exact I|lia|apply fair_concat|exact HS|apply toy_nonzero; unfold toyModulus; lia|repeat constructor; cbn; lia|reflexivity|reflexivity|].
    exists service, low, high. split; [exact HS|]. apply H. vm_compute. discriminate.
  - destruct (pending_balance_credits zeroService service 1 (λ l, concat l) (toyScalar 5) (toyCredits [40000; 40000]))
      as (pk & low & high & _ & _ & _ & H);
      [exact I|lia|apply fair_concat|exact HS|apply toy_nonzero; unfold toyModulus; lia|repeat constructor; cbn; lia|reflexivity|reflexivity|].
    destruct (H eq_refl) as (e & He & Hk). exists service, low, high, e. exact (conj HS (conj He Hk)).
Defined.
