(* ===== verification/Sigma.v ===== *)
(** Sigma: the sigma proofs of confidential transfers (programs/token-2022:
    confidential_sigma.go, confidential_equality.go): for each statement a generator, which draws nonces
    from the random source, and the verifier. Challenges come from a Merlin
    transcript over the statement and the commitments. *)
From Stdlib Require Import ZArith Lia.
From stdpp Require Import base numbers strings list.
From S2P Require Import Prelude Keys Ristretto ElGamal.

Open Scope Z_scope.

Record ZKProofData := mkProofData { Discriminator : Z; Context_ : bytes; Proof_ : bytes }.

Section sigma.
Context `{R : Ristretto} {Rnd : Random} {M : Merlin}.

Implicit Types service : ConfidentialTransferService.

(** * Transcripts *)

Definition newZKElGamalTranscript (label : bytes) : Transcript :=
  AppendMessage (NewTranscript (str "solana-zk-elgamal-proof-program-v1")) (str "dom-sep") label.
Definition appendProofDomainSeparator (transcript : Transcript) (label : bytes) : Transcript :=
  AppendMessage transcript (str "dom-sep") label.
Definition appendTranscriptScalar (transcript : Transcript) (label value : bytes) : Transcript :=
  AppendMessage transcript label value.
Definition appendTranscriptPoint (transcript : Transcript) (label value : bytes) : Transcript :=
  AppendMessage transcript label value.
Definition appendTranscriptUint64 (transcript : Transcript) (label : bytes) (value : Z) : Transcript :=
  AppendMessage transcript label (le_bytes 8 value).
Definition transcriptChallengeScalar (transcript : Transcript) (label : bytes) : outcome error (Scalar * Transcript) :=
  let '(wide, transcript) := ExtractBytes transcript label 64 in
  s ← library (NewFromBytesModOrderWide wide);
  Ok (s, transcript).

(** [appendTranscriptPoint] for each commitment with the label of its index. *)
Fixpoint appendPoints (label : nat → bytes) (index : nat) (transcript : Transcript) (points : list bytes) : Transcript :=
  match points with
  | [] => transcript
  | p :: points' => appendPoints label (S index) (appendTranscriptPoint transcript (label index) p) points'
  end.
Fixpoint appendScalars (label : nat → bytes) (index : nat) (transcript : Transcript) (values : list bytes) : Transcript :=
  match values with
  | [] => transcript
  | v :: values' => appendScalars label (S index) (appendTranscriptScalar transcript (label index) v) values'
  end.

Definition IsIdentity (p : Point) : bool := bool_decide (p = identity).

Definition elGamalKeypairValues (keypair : ElGamalKeypair) : outcome error (Scalar * Point) :=
  secret ← scalarFromBytes (kp_SecretKey keypair) "ElGamal secret key";
  if decide (secret = sNew) then Err (errNew "zero ElGamal secret key") else
  derived ← DeriveElGamalPubkey (kp_SecretKey keypair);
  if decide (derived ≠ kp_PublicKey keypair) then Err (errNew "ElGamal keypair mismatch") else
  publicKey ← ristrettoPoint (kp_PublicKey keypair) "ElGamal public key";
  Ok (secret, publicKey).

(** * Public key validity *)

Definition pubkeyValidityTranscript (pubkey commitment : bytes) : Transcript :=
  let transcript := newZKElGamalTranscript (str "pubkey-validity-instruction") in
  let transcript := AppendMessage transcript (str "pubkey") pubkey in
  let transcript := appendProofDomainSeparator transcript (str "pubkey-proof") in
  appendTranscriptPoint transcript (str "Y") commitment.

Definition GeneratePubkeyValidityProof service (keypair : ElGamalKeypair) : GoM Reader error ZKProofData :=
  let prefix := "generate public key validity proof"%string in
  '(secret, _) ← lift (wrapf prefix (elGamalKeypairValues keypair));
  openingBasepoint ← lift (wrapf prefix (pedersenOpeningBasepoint service));
  nonce ← wrapM prefix SetRandomM;
  let commitment := pMul openingBasepoint nonce in
  let commitmentBytes := pedersenCommitment commitment in
  let transcript := pubkeyValidityTranscript (kp_PublicKey keypair) commitmentBytes in
  '(challenge, _) ← lift (wrapf prefix (transcriptChallengeScalar transcript (str "c")));
  let response := sAdd (sMul challenge (sInvert secret)) nonce in
  mret (mkProofData 4 (copy_into (zeros 32) (kp_PublicKey keypair)) (commitmentBytes ++ ToBytes response)).

Definition VerifyPubkeyValidityProof service (data : ZKProofData) : outcome error unit :=
  classifyInvalidProof (
  let prefix := "verify public key validity proof"%string in
  if decide (Discriminator data ≠ 4 ∨ len (Context_ data) ≠ 32 ∨ len (Proof_ data) ≠ 64) then
    Err (errNew "verify public key validity proof: invalid proof data") else
  publicKey ← wrapf prefix (ristrettoPoint (Context_ data) "public key validity context");
  if IsIdentity publicKey then Err (errNew "verify public key validity proof: identity public key") else
  commitment ← wrapf prefix (ristrettoPoint (sub 0 32 (Proof_ data)) "public key validity commitment");
  if IsIdentity commitment then Err (errNew "verify public key validity proof: identity commitment") else
  response ← wrapf prefix (scalarFromBytes (sub 32 64 (Proof_ data)) "public key validity response");
  let transcript := pubkeyValidityTranscript (Context_ data) (sub 0 32 (Proof_ data)) in
  '(challenge, _) ← wrapf prefix (transcriptChallengeScalar transcript (str "c"));
  openingBasepoint ← wrapf prefix (pedersenOpeningBasepoint service);
  let check := MultiscalarMul [response; sNeg challenge; sNeg sOne] [openingBasepoint; publicKey; commitment] in
  if IsIdentity check then Ok tt else Err (errNew "verify public key validity proof: algebraic relation")).

(** * Zero ciphertext *)

Definition zeroCiphertextTranscript (pubkey ciphertext publicCommitment handleCommitment : bytes) : Transcript :=
  let transcript := newZKElGamalTranscript (str "zero-ciphertext-instruction") in
  let transcript := AppendMessage transcript (str "pubkey") pubkey in
  let transcript := AppendMessage transcript (str "ciphertext") ciphertext in
  let transcript := appendProofDomainSeparator transcript (str "zero-ciphertext-proof") in
  let transcript := appendTranscriptPoint transcript (str "Y_P") publicCommitment in
  appendTranscriptPoint transcript (str "Y_D") handleCommitment.

Definition GenerateZeroCiphertextProof (keypair : ElGamalKeypair) (ciphertext : ElGamalCiphertext)
  : GoM Reader error ZKProofData :=
  let prefix := "generate zero ciphertext proof"%string in
  '(secret, publicKey) ← lift (wrapf prefix (elGamalKeypairValues keypair));
  '(commitment, handle) ← lift (wrapf prefix (elGamalCiphertextPoints ciphertext));
  if negb (IsIdentity (pSub commitment (pMul handle secret))) then
    throw (errNew "generate zero ciphertext proof: ciphertext is not zero") else
  nonce ← wrapM prefix SetRandomM;
  let publicCommitment := pedersenCommitment (pMul publicKey nonce) in
  let handleCommitment := pedersenCommitment (pMul handle nonce) in
  let context := kp_PublicKey keypair ++ ciphertext in
  let transcript := zeroCiphertextTranscript (sub 0 32 context) (sub 32 96 context) publicCommitment handleCommitment in
  '(challenge, transcript) ← lift (wrapf prefix (transcriptChallengeScalar transcript (str "c")));
  let response := sAdd (sMul challenge secret) nonce in
  let responseBytes := ToBytes response in
  let transcript := appendTranscriptScalar transcript (str "z") responseBytes in
  _ ← lift (wrapf prefix (transcriptChallengeScalar transcript (str "w")));
  mret (mkProofData 1 context (publicCommitment ++ handleCommitment ++ responseBytes)).

Definition VerifyZeroCiphertextProof service (data : ZKProofData) : outcome error unit :=
  classifyInvalidProof (
  let prefix := "verify zero ciphertext proof"%string in
  let ctx := Context_ data in
  let prf := Proof_ data in
  if decide (Discriminator data ≠ 1 ∨ len ctx ≠ 96 ∨ len prf ≠ 96) then
    Err (errNew "verify zero ciphertext proof: invalid proof data") else
  publicKey ← wrapf prefix (ristrettoPoint (sub 0 32 ctx) "zero ciphertext public key");
  commitment ← wrapf prefix (ristrettoPoint (sub 32 64 ctx) "zero ciphertext commitment");
  handle ← wrapf prefix (ristrettoPoint (sub 64 96 ctx) "zero ciphertext handle");
  if IsIdentity publicKey || IsIdentity commitment || IsIdentity handle then
    Err (errNew "verify zero ciphertext proof: identity context point") else
  publicCommitment ← wrapf prefix (ristrettoPoint (sub 0 32 prf) "zero ciphertext public commitment");
  if IsIdentity publicCommitment then Err (errNew "verify zero ciphertext proof: identity public commitment") else
  handleCommitment ← wrapf prefix (ristrettoPoint (sub 32 64 prf) "zero ciphertext handle commitment");
  response ← wrapf prefix (scalarFromBytes (sub 64 96 prf) "zero ciphertext response");
  let transcript := zeroCiphertextTranscript (sub 0 32 ctx) (sub 32 96 ctx) (sub 0 32 prf) (sub 32 64 prf) in
  '(challenge, transcript) ← wrapf prefix (transcriptChallengeScalar transcript (str "c"));
  let transcript := appendTranscriptScalar transcript (str "z") (sub 64 96 prf) in
  '(batching, _) ← wrapf prefix (transcriptChallengeScalar transcript (str "w"));
  openingBasepoint ← wrapf prefix (pedersenOpeningBasepoint service);
  let negativeChallenge := sNeg challenge in
  let negativeOne := sNeg sOne in
  let batchedResponse := sMul batching response in
  let negativeBatchedChallenge := sNeg (sMul batching challenge) in
  let negativeBatching := sNeg batching in
  let check := MultiscalarMul
    [response; negativeChallenge; negativeOne; batchedResponse; negativeBatchedChallenge; negativeBatching]
    [publicKey; openingBasepoint; publicCommitment; handle; commitment; handleCommitment] in
  if IsIdentity check then Ok tt else Err (errNew "verify zero ciphertext proof: algebraic relation")).

(** * Equality of ciphertexts and commitments *)

Definition elGamalDecryptionMatchesAmount (secret : Scalar) (commitment handle : Point) (amount : Z) : bool :=
  bool_decide (pSub commitment (pMul handle secret) = pMul BASEPOINT (SetUint64 amount)).

Definition equalityProofNonces : GoM Reader error (Scalar * Scalar * Scalar) :=
  secretNonce ← SetRandomM;
  amountNonce ← SetRandomM;
  openingNonce ← SetRandomM;
  mret (secretNonce, amountNonce, openingNonce).

Definition ciphertextCiphertextEqualityTranscript (context : bytes) : Transcript :=
  let transcript := newZKElGamalTranscript (str "ciphertext-ciphertext-equality-instruction") in
  let transcript := AppendMessage transcript (str "first-pubkey") (sub 0 32 context) in
  let transcript := AppendMessage transcript (str "second-pubkey") (sub 32 64 context) in
  let transcript := AppendMessage transcript (str "first-ciphertext") (sub 64 128 context) in
  let transcript := AppendMessage transcript (str "second-ciphertext") (sub 128 192 context) in
  appendProofDomainSeparator transcript (str "ciphertext-ciphertext-equality-proof").
Definition ciphertextCommitmentEqualityTranscript (context : bytes) : Transcript :=
  let transcript := newZKElGamalTranscript (str "ciphertext-commitment-equality-instruction") in
  let transcript := AppendMessage transcript (str "pubkey") (sub 0 32 context) in
  let transcript := AppendMessage transcript (str "ciphertext") (sub 32 96 context) in
  let transcript := AppendMessage transcript (str "commitment") (sub 96 128 context) in
  appendProofDomainSeparator transcript (str "ciphertext-commitment-equality-proof").

Definition equalityCommitmentLabel (index : nat) : bytes :=
  match index with O => str "Y_0" | S O => str "Y_1" | S (S O) => str "Y_2" | _ => str "Y_3" end.
Definition equalityResponseLabel (index : nat) : bytes :=
  match index with O => str "z_s" | S O => str "z_x" | _ => str "z_r" end.

(** The bytes of a proof: the commitments, then the responses, which also go into
    the transcript; a last challenge is drawn and dropped. The same code for [3]
    and [4] commitments. *)
Definition equalityProofBytes (commitments : list PedersenCommitment) (responses : list Scalar) (transcript : Transcript)
  : outcome error bytes :=
  let encoded := ToBytes <$> responses in
  let transcript := appendScalars equalityResponseLabel 0 transcript encoded in
  _ ← transcriptChallengeScalar transcript (str "w");
  Ok (concat commitments ++ concat encoded).
Definition ciphertextCiphertextEqualityProofBytes := equalityProofBytes.
Definition ciphertextCommitmentEqualityProofBytes := equalityProofBytes.

(** [n] points from the block [index] on, none the identity. *)
Fixpoint parseCommitments (n index : nat) (data : bytes) (name : string) (identityError : error)
  : outcome error (list Point) :=
  match n with
  | O => Ok []
  | S n' =>
    point ← ristrettoPoint (sub (index * 32) ((index + 1) * 32) data) name;
    if IsIdentity point then Err identityError else
    points ← parseCommitments n' (S index) data name identityError;
    Ok (point :: points)
  end.
Fixpoint parseScalars (n index : nat) (data : bytes) (name : string) : outcome error (list Scalar) :=
  match n with
  | O => Ok []
  | S n' =>
    value ← scalarFromBytes (sub (index * 32) ((index + 1) * 32) data) name;
    values ← parseScalars n' (S index) data name;
    Ok (value :: values)
  end.
Definition parseCiphertextCiphertextEqualityProof (data : bytes) : outcome error (list Point * list Scalar) :=
  commitments ← parseCommitments 4 0 data "ciphertext equality proof commitment"
                  (errNew "identity ciphertext equality proof commitment");
  responses ← parseScalars 3 4 data "ciphertext equality proof response";
  Ok (commitments, responses).
Definition parseCiphertextCommitmentEqualityProof (data : bytes) : outcome error (list Point * list Scalar) :=
  commitments ← parseCommitments 3 0 data "ciphertext commitment equality proof commitment"
                  (errNew "identity ciphertext commitment equality proof commitment");
  responses ← parseScalars 3 3 data "ciphertext commitment equality proof response";
  Ok (commitments, responses).

Definition appendEqualityResponses (transcript : Transcript) (responses : list Scalar) : outcome error Scalar :=
  let transcript := appendScalars equalityResponseLabel 0 transcript (ToBytes <$> responses) in
  '(batching, _) ← transcriptChallengeScalar transcript (str "w");
  Ok batching.

(** The [n] blocks of 32 bytes from block [index] on. *)
Definition blocks (n index : nat) (data : bytes) : list bytes :=
  (λ i, sub (i * 32) ((i + 1) * 32) data) <$> seq index n.

(** Array and slice elements whose index the code has made sure of. *)
Definition at_s (l : list Scalar) (i : nat) : Scalar := nth i l sNew.
Definition at_p (l : list Point) (i : nat) : Point := nth i l identity.

Definition GenerateCiphertextCiphertextEqualityProof service (firstKeypair : ElGamalKeypair) (secondPubkey : ElGamalPubkey)
  (firstCiphertext secondCiphertext : ElGamalCiphertext) (secondOpening : PedersenOpening) (amount : Z)
  : GoM Reader error ZKProofData :=
  let prefix := "generate ciphertext equality proof"%string in
  '(secret, firstPubkey) ← lift (wrapf prefix (elGamalKeypairValues firstKeypair));
  secondPubkeyPoint ← lift (wrapf prefix (ristrettoPoint secondPubkey "second ElGamal public key"));
  '(firstCommitment, firstHandle) ← lift (wrapf prefix (elGamalCiphertextPoints firstCiphertext));
  if negb (elGamalDecryptionMatchesAmount secret firstCommitment firstHandle amount) then
    throw (errNew "generate ciphertext equality proof: first ciphertext amount mismatch") else
  expectedSecondCiphertext ← lift (wrapf prefix (EncryptElGamalWithOpening service secondPubkey amount secondOpening));
  if decide (expectedSecondCiphertext ≠ secondCiphertext) then
    throw (errNew "generate ciphertext equality proof: second ciphertext amount mismatch") else
  secondOpeningScalar ← lift (wrapf prefix (scalarFromBytes secondOpening "second Pedersen opening"));
  '(secretNonce, amountNonce, openingNonce) ← wrapM prefix equalityProofNonces;
  openingBasepoint ← lift (wrapf prefix (pedersenOpeningBasepoint service));
  let commitments := [
    pedersenCommitment (pMul firstPubkey secretNonce);
    pedersenCommitment (MultiscalarMul [amountNonce; secretNonce] [BASEPOINT; firstHandle]);
    pedersenCommitment (MultiscalarMul [amountNonce; openingNonce] [BASEPOINT; openingBasepoint]);
    pedersenCommitment (pMul secondPubkeyPoint openingNonce)] in
  let context := kp_PublicKey firstKeypair ++ secondPubkey ++ firstCiphertext ++ secondCiphertext in
  let transcript := ciphertextCiphertextEqualityTranscript context in
  let transcript := appendPoints equalityCommitmentLabel 0 transcript commitments in
  '(challenge, transcript) ← lift (wrapf prefix (transcriptChallengeScalar transcript (str "c")));
  let responses := [
    sAdd (sMul challenge secret) secretNonce;
    sAdd (sMul challenge (SetUint64 amount)) amountNonce;
    sAdd (sMul challenge secondOpeningScalar) openingNonce] in
  proof ← lift (wrapf prefix (ciphertextCiphertextEqualityProofBytes commitments responses transcript));
  mret (mkProofData 2 context proof).

Definition VerifyCiphertextCiphertextEqualityProof service (data : ZKProofData) : outcome error unit :=
  classifyInvalidProof (
  let prefix := "verify ciphertext equality proof"%string in
  let ctx := Context_ data in
  if decide (Discriminator data ≠ 2 ∨ len ctx ≠ 192 ∨ len (Proof_ data) ≠ 224) then
    Err (errNew "verify ciphertext equality proof: invalid proof data") else
  firstPubkey ← wrapf prefix (ristrettoPoint (sub 0 32 ctx) "first ElGamal public key");
  secondPubkey ← wrapf prefix (ristrettoPoint (sub 32 64 ctx) "second ElGamal public key");
  firstCommitment ← wrapf prefix (ristrettoPoint (sub 64 96 ctx) "first ciphertext commitment");
  firstHandle ← wrapf prefix (ristrettoPoint (sub 96 128 ctx) "first ciphertext handle");
  secondCommitment ← wrapf prefix (ristrettoPoint (sub 128 160 ctx) "second ciphertext commitment");
  secondHandle ← wrapf prefix (ristrettoPoint (sub 160 192 ctx) "second ciphertext handle");
  if IsIdentity firstPubkey || IsIdentity secondPubkey || IsIdentity firstCommitment || IsIdentity firstHandle then
    Err (errNew "verify ciphertext equality proof: identity context point") else
  '(commitments, responses) ← wrapf prefix (parseCiphertextCiphertextEqualityProof (Proof_ data));
  let transcript := ciphertextCiphertextEqualityTranscript ctx in
  let transcript := appendPoints equalityCommitmentLabel 0 transcript (blocks 4 0 (Proof_ data)) in
  '(challenge, transcript) ← wrapf prefix (transcriptChallengeScalar transcript (str "c"));
  batching ← wrapf prefix (appendEqualityResponses transcript responses);
  openingBasepoint ← wrapf prefix (pedersenOpeningBasepoint service);
  let batchingSquared := sMul batching batching in
  let batchingCubed := sMul batching batchingSquared in
  let negativeChallenge := sNeg challenge in
  let negativeOne := sNeg sOne in
  let negativeBatching := sNeg batching in
  let negativeBatchingSquared := sNeg batchingSquared in
  let negativeBatchingCubed := sNeg batchingCubed in
  let check := MultiscalarMul
    [at_s responses 0; negativeChallenge; negativeOne;
     sMul batching (at_s responses 1); sMul batching (at_s responses 0); sMul negativeBatching challenge; negativeBatching;
     sMul batchingSquared (at_s responses 1); sMul batchingSquared (at_s responses 2);
     sMul negativeBatchingSquared challenge; negativeBatchingSquared;
     sMul batchingCubed (at_s responses 2); sMul negativeBatchingCubed challenge; negativeBatchingCubed]
    [firstPubkey; openingBasepoint; at_p commitments 0;
     BASEPOINT; firstHandle; firstCommitment; at_p commitments 1;
     BASEPOINT; openingBasepoint; secondCommitment; at_p commitments 2;
     secondPubkey; secondHandle; at_p commitments 3] in
  if IsIdentity check then Ok tt else Err (errNew "verify ciphertext equality proof: algebraic relation")).

Definition GenerateCiphertextCommitmentEqualityProof service (keypair : ElGamalKeypair) (ciphertext : ElGamalCiphertext)
  (commitment : PedersenCommitment) (opening : PedersenOpening) (amount : Z) : GoM Reader error ZKProofData :=
  let prefix := "generate ciphertext commitment equality proof"%string in
  '(secret, publicKey) ← lift (wrapf prefix (elGamalKeypairValues keypair));
  '(ciphertextCommitment, handle) ← lift (wrapf prefix (elGamalCiphertextPoints ciphertext));
  if negb (elGamalDecryptionMatchesAmount secret ciphertextCommitment handle amount) then
    throw (errNew "generate ciphertext commitment equality proof: ciphertext amount mismatch") else
  expectedCommitment ← lift (wrapf prefix (CommitPedersen service amount opening));
  if decide (expectedCommitment ≠ commitment) then
    throw (errNew "generate ciphertext commitment equality proof: commitment amount mismatch") else
  openingScalar ← lift (wrapf prefix (scalarFromBytes opening "Pedersen opening"));
  '(secretNonce, amountNonce, openingNonce) ← wrapM prefix equalityProofNonces;
  openingBasepoint ← lift (wrapf prefix (pedersenOpeningBasepoint service));
  let commitments := [
    pedersenCommitment (pMul publicKey secretNonce);
    pedersenCommitment (MultiscalarMul [amountNonce; secretNonce] [BASEPOINT; handle]);
    pedersenCommitment (MultiscalarMul [amountNonce; openingNonce] [BASEPOINT; openingBasepoint])] in
  let context := kp_PublicKey keypair ++ ciphertext ++ commitment in
  let transcript := ciphertextCommitmentEqualityTranscript context in
  let transcript := appendPoints equalityCommitmentLabel 0 transcript commitments in
  '(challenge, transcript) ← lift (wrapf prefix (transcriptChallengeScalar transcript (str "c")));
  let responses := [
    sAdd (sMul challenge secret) secretNonce;
    sAdd (sMul challenge (SetUint64 amount)) amountNonce;
    sAdd (sMul challenge openingScalar) openingNonce] in
  proof ← lift (wrapf prefix (ciphertextCommitmentEqualityProofBytes commitments responses transcript));
  mret (mkProofData 3 context proof).

Definition VerifyCiphertextCommitmentEqualityProof service (data : ZKProofData) : outcome error unit :=
  classifyInvalidProof (
  let prefix := "verify ciphertext commitment equality proof"%string in
  let ctx := Context_ data in
  if decide (Discriminator data ≠ 3 ∨ len ctx ≠ 128 ∨ len (Proof_ data) ≠ 192) then
    Err (errNew "verify ciphertext commitment equality proof: invalid proof data") else
  publicKey ← wrapf prefix (ristrettoPoint (sub 0 32 ctx) "ElGamal public key");
  ciphertextCommitment ← wrapf prefix (ristrettoPoint (sub 32 64 ctx) "ciphertext commitment");
  handle ← wrapf prefix (ristrettoPoint (sub 64 96 ctx) "ciphertext handle");
  commitment ← wrapf prefix (ristrettoPoint (sub 96 128 ctx) "Pedersen commitment");
  if IsIdentity publicKey || IsIdentity ciphertextCommitment || IsIdentity handle || IsIdentity commitment then
    Err (errNew "verify ciphertext commitment equality proof: identity context point") else
  '(commitments, responses) ← wrapf prefix (parseCiphertextCommitmentEqualityProof (Proof_ data));
  let transcript := ciphertextCommitmentEqualityTranscript ctx in
  let transcript := appendPoints equalityCommitmentLabel 0 transcript (blocks 3 0 (Proof_ data)) in
  '(challenge, transcript) ← wrapf prefix (transcriptChallengeScalar transcript (str "c"));
  batching ← wrapf prefix (appendEqualityResponses transcript responses);
  openingBasepoint ← wrapf prefix (pedersenOpeningBasepoint service);
  let batchingSquared := sMul batching batching in
  let negativeChallenge := sNeg challenge in
  let negativeOne := sNeg sOne in
  let negativeBatching := sNeg batching in
  let negativeBatchingSquared := sNeg batchingSquared in
  let check := MultiscalarMul
    [at_s responses 0; negativeChallenge; negativeOne;
     sMul batching (at_s responses 1); sMul batching (at_s responses 0); sMul negativeBatching challenge; negativeBatching;
     sMul batchingSquared (at_s responses 1); sMul batchingSquared (at_s responses 2);
     sMul negativeBatchingSquared challenge; negativeBatchingSquared]
    [publicKey; openingBasepoint; at_p commitments 0;
     BASEPOINT; handle; ciphertextCommitment; at_p commitments 1;
     BASEPOINT; openingBasepoint; commitment; at_p commitments 2] in
  if IsIdentity check then Ok tt
  else Err (errNew "verify ciphertext commitment equality proof: algebraic relation")).
End sigma.
