(* ===== verification/SigmaSpec.v ===== *)
(** SigmaSpec: the proofs of [Sigma] are complete - what a generator returns is
    accepted by its verifier unless one of the points the verifier looks at is the
    identity - and the verifier of public keys is sound in the sense of special
    soundness: two accepting answers to different challenges reveal the secret. *)
From Stdlib Require Import ZArith Lia Field Zmod.Zmod.
From stdpp Require Import base numbers gmap strings list.
From S2P Require Import Prelude Keys Sha3 Ristretto ToyGroup Mnemonic ElGamal ElGamalSpec Sigma.

Open Scope Z_scope.

(** * Running a generator backwards *)

Lemma gom_bind_inv {S E A B} (m : GoM S E A) (f : A → GoM S E B) s b s' :
  (m ≫= f) s = (Ok b, s') → ∃ a s1, m s = (Ok a, s1) ∧ f a s1 = (Ok b, s').
Proof.
  unfold mbind, gom_bind. destruct (m s) as [[a|e|] s1]; [|done|done]. intros H. by exists a, s1.
Qed.

Lemma obind_inv {E A B} (m : outcome E A) (f : A → outcome E B) b :
  (m ≫= f) = Ok b → ∃ a, m = Ok a ∧ f a = Ok b.
Proof. destruct m as [a|e|]; [|done|done]. intros H. by exists a. Qed.

Lemma lift_inv {S E A} (m : outcome E A) (s : S) a s' : lift m s = (Ok a, s') → m = Ok a ∧ s' = s.
Proof. unfold lift. by intros [= -> ->]. Qed.

Lemma mret_inv {S E A} (a b : A) (s s' : S) : (mret a : GoM S E A) s = (Ok b, s') → a = b ∧ s' = s.
Proof. by intros [= -> ->]. Qed.

Lemma wrap_ok {E F A} (f : E → F) (m : outcome E A) a : wrap_err f m = Ok a ↔ m = Ok a.
Proof. destruct m; cbn; naive_solver. Qed.

Lemma wrapf_ok {A} prefix (m : outcome error A) a : wrapf prefix m = Ok a ↔ m = Ok a.
Proof. apply wrap_ok. Qed.

Lemma classify_ok (m : outcome error unit) : classifyInvalidProof m = Ok tt ↔ m = Ok tt.
Proof. apply wrap_ok. Qed.

Lemma wrapM_inv {R : Ristretto} {Rnd : Random} {A} prefix (m : GoM Reader error A) r a r' :
  wrapM prefix m r = (Ok a, r') → m r = (Ok a, r').
Proof.
  unfold wrapM. destruct (m r) as [o r1]. intros [= Ho ->]. by apply wrapf_ok in Ho as ->.
Qed.

(** One step of a generator's run, named. *)
Ltac step H x E :=
  let r := fresh "random" in
  apply gom_bind_inv in H as (x & r & E & H);
  try (apply lift_inv in E as [E ->]; try rewrite wrapf_ok in E);
  try (apply wrapM_inv in E).
Ltac ostep H x E := apply obind_inv in H as (x & E & H).
Ltac gcheck H := match type of H with (if decide ?P then _ else _) _ = _ => destruct (decide P); [done|]
                                   | (if ?b then _ else _) _ = _ => destruct b eqn:?; [done|]
                                   | (if decide ?P then _ else _) = _ => destruct (decide P); [done|]
                                   | (if ?b then _ else _) = _ => destruct b eqn:?; [done|] end.

(** * Blocks of 32 bytes *)

Section lengths.
Context `{R : Ristretto} {L : RistrettoLaws R}.
Lemma ciphertextOf_length c d : length (ciphertextOf c d) = 64%nat.
Proof. unfold ciphertextOf. by rewrite length_app, !SetRistrettoPoint_length. Qed.
End lengths.

Lemma sub_skip a b n (l k : bytes) : length l = n → (n ≤ a)%nat → sub a b (l ++ k) = sub (a - n) (b - n) k.
Proof. intros <- H. by apply sub_app_r. Qed.

Lemma sub_hit n (l k : bytes) : length l = n → sub 0 n (l ++ k) = l.
Proof. intros H. rewrite sub_app_l by lia. by apply sub_all. Qed.

Ltac length_tac :=
  rewrite ?length_app, ?SetRistrettoPoint_length, ?ToBytes_length, ?ciphertextOf_length, ?le_bytes_length, ?length_zeros;
  cbn [length Nat.add]; first [reflexivity | lia].

(** [sub] over concatenations of parts of known lengths. *)
Ltac sub_parts :=
  repeat match goal with
  | |- context [sub ?a ?b ([] ++ ?k)] => change (sub a b ([] ++ k)) with (sub a b k)
  | |- context [sub (S ?a) ?b (?l ++ ?k)] =>
    first [ erewrite (sub_skip (S a) b _ l k); [|length_tac|lia]; cbn [Nat.sub]
          | rewrite (sub_app_l (S a) b l k) by length_tac ]
  | |- context [sub 0 ?b (?l ++ ?k)] =>
    first [ rewrite (sub_hit b l k) by length_tac | rewrite (sub_all b (l ++ k)) by length_tac | rewrite (sub_app_l 0 b l k) by length_tac ]
  | |- context [sub 0 ?b (SetRistrettoPoint ?l)] => rewrite (sub_all b (SetRistrettoPoint l)) by length_tac
  | |- context [sub 0 ?b (ToBytes ?l)] => rewrite (sub_all b (ToBytes l)) by length_tac
  end.

Section sigma.
Context `{R : Ristretto} {L : RistrettoLaws R} {Rnd : Random} {M : Merlin} {ML : MerlinLaws M}.

#[local] Definition sDiv (a b : Scalar) : Scalar := sMul a (sInvert b).
#[local] Lemma sigma_field : field_theory sNew sOne sAdd sMul sSub sNeg sDiv sInvert eq.
Proof. exact scalar_field. Qed.
Add Field sigma_field : sigma_field.

Implicit Types service : ConfidentialTransferService.

Lemma IsIdentity_encoded p : IsIdentity p = bool_decide (SetRistrettoPoint p = zeros 32).
Proof.
  unfold IsIdentity. apply bool_decide_ext. rewrite <-SetRistrettoPoint_identity. split; [by intros ->|].
  apply SetRistrettoPoint_inj.
Qed.

Lemma encoded_identity p : SetRistrettoPoint p ≠ zeros 32 ↔ p ≠ identity.
Proof.
  rewrite <-SetRistrettoPoint_identity. split; intros H E; apply H; [by rewrite E|by apply SetRistrettoPoint_inj].
Qed.

Lemma pSub_identity p q : pSub p q = identity ↔ p = q.
Proof.
  split; [|intros ->; module_eq; ring]. intros H. apply (f_equal (λ x, pAdd x q)) in H.
  by rewrite pSub_pAdd, pAdd_comm, pAdd_identity in H.
Qed.

Lemma pSub_pAdd' p q r : pSub p q = r → p = pAdd r q.
Proof. intros <-. by rewrite pSub_pAdd. Qed.

Lemma IsIdentity_true p : p = identity → IsIdentity p = true.
Proof. intros ->. by apply bool_decide_eq_true. Qed.

Lemma elGamalKeypairValues_inv keypair secret P :
  elGamalKeypairValues keypair = Ok (secret, P) →
  secret ≠ sNew ∧ P = pubkeyOf secret ∧ kp_SecretKey keypair = ToBytes secret ∧ kp_PublicKey keypair = SetRistrettoPoint P.
Proof.
  unfold elGamalKeypairValues. intros H. ostep H s Hs. apply scalarFromBytes_inv in Hs. gcheck H.
  ostep H d Hd. gcheck H. ostep H p Hp. injection H as <- <-. rewrite Hs in Hd.
  rewrite DeriveElGamalPubkey_of in Hd by done. apply ristrettoPoint_inv in Hp.
  assert (Hk : kp_PublicKey keypair = d) by (by symmetry; apply dec_stable).
  injection Hd as <-. split_and!; [done| |done|done].
  apply SetRistrettoPoint_inj. by rewrite <-Hk, <-Hp.
Qed.

Lemma elGamalKeypairValues_of secret :
  secret ≠ sNew →
  elGamalKeypairValues (mkKeypair (SetRistrettoPoint (pubkeyOf secret)) (ToBytes secret)) = Ok (secret, pubkeyOf secret).
Proof.
  intros Hn. unfold elGamalKeypairValues. cbn [kp_SecretKey kp_PublicKey]. rewrite scalarFromBytes_encoded. obind.
  rewrite decide_False by done. rewrite DeriveElGamalPubkey_of by done. obind. rewrite decide_False by (intros H; by apply H).
  by rewrite ristrettoPoint_encoded.
Qed.

Lemma elGamalCiphertextPoints_inv ct c d :
  length ct = 64%nat → elGamalCiphertextPoints ct = Ok (c, d) → ct = ciphertextOf c d.
Proof.
  unfold elGamalCiphertextPoints. intros Hl H. ostep H p Hp. ostep H q Hq. injection H as -> ->.
  apply ristrettoPoint_inv in Hp, Hq. unfold ciphertextOf. rewrite <-Hp, <-Hq. unfold sub.
  rewrite drop_0, Nat.sub_0_r. rewrite (take_ge (drop 32 ct)) by (rewrite length_drop; lia). by rewrite take_drop.
Qed.

(** * Public keys *)

Lemma GeneratePubkeyValidityProof_inv service keypair random data random' :
  service_ok service → GeneratePubkeyValidityProof service keypair random = (Ok data, random') →
  ∃ secret nonce challenge t',
    secret ≠ sNew ∧
    let P := SetRistrettoPoint (pubkeyOf secret) in
    let Y := SetRistrettoPoint (pMul openingPoint nonce) in
    transcriptChallengeScalar (pubkeyValidityTranscript P Y) (str "c") = Ok (challenge, t') ∧
    data = mkProofData 4 P (Y ++ ToBytes (sAdd (sMul challenge (sInvert secret)) nonce)).
Proof.
  intros Hs H. unfold GeneratePubkeyValidityProof in H.
  step H p E1. destruct p as [secret P]. apply elGamalKeypairValues_inv in E1 as (Hn & -> & _ & Hpk).
  step H B E2. rewrite pedersenOpeningBasepoint_ok in E2 by done. injection E2 as <-.
  step H nonce E3. step H c E4. destruct c as [challenge t'].
  apply mret_inv in H as [<- _]. rewrite Hpk, pedersenCommitment_eq in E4.
  rewrite Hpk, !pedersenCommitment_eq.
  exists secret, nonce, challenge, t'. cbv zeta. split_and!; [done|done|].
  f_equal. apply copy_into_full. by rewrite SetRistrettoPoint_length.
Qed.

(** The verifier on three encoded parts: the points are not the identity and the
    answer satisfies the relation under the challenge of the transcript. *)
Lemma pubkey_accepts service P Y z challenge t' :
  service_ok service →
  transcriptChallengeScalar (pubkeyValidityTranscript (SetRistrettoPoint P) (SetRistrettoPoint Y)) (str "c") = Ok (challenge, t') →
  VerifyPubkeyValidityProof service (mkProofData 4 (SetRistrettoPoint P) (SetRistrettoPoint Y ++ ToBytes z)) = Ok tt
  ↔ P ≠ identity ∧ Y ≠ identity ∧ pMul openingPoint z = pAdd (pMul P challenge) Y.
Proof.
  intros Hs Hc. unfold VerifyPubkeyValidityProof. rewrite classify_ok. cbn [Discriminator Context_ Proof_]. sub_parts.
  rewrite decide_False by (unfold len; rewrite length_app, !SetRistrettoPoint_length, ToBytes_length; lia).
  rewrite !ristrettoPoint_encoded, scalarFromBytes_encoded, pedersenOpeningBasepoint_ok by done. rewrite Hc. obind.
  assert (Hcheck : MultiscalarMul [z; sNeg challenge; sNeg sOne] [openingPoint; P; Y]
                   = pSub (pMul openingPoint z) (pAdd (pMul P challenge) Y)).
  { rewrite MultiscalarMul_spec by done. cbn [msm]. module_eq; ring. }
  rewrite Hcheck. unfold IsIdentity. pose proof (pSub_identity (pMul openingPoint z) (pAdd (pMul P challenge) Y)) as Hsub.
  repeat case_bool_decide; naive_solver.
Qed.

Lemma VerifyPubkeyValidityProof_inv service data :
  VerifyPubkeyValidityProof service data = Ok tt →
  ∃ P Y z, data = mkProofData 4 (SetRistrettoPoint P) (SetRistrettoPoint Y ++ ToBytes z).
Proof.
  unfold VerifyPubkeyValidityProof. rewrite classify_ok. intros H. gcheck H. ostep H P E1.
  rewrite wrapf_ok in E1. gcheck H. ostep H Y E2. rewrite wrapf_ok in E2. gcheck H. ostep H z E3. rewrite wrapf_ok in E3.
  apply ristrettoPoint_inv in E1, E2. apply scalarFromBytes_inv in E3.
  exists P, Y, z. destruct data as [d ctx prf]. cbn [Discriminator Context_ Proof_] in *. f_equal; [lia|done|].
  rewrite <-E2, <-E3. unfold sub. rewrite drop_0, Nat.sub_0_r.
  rewrite (take_ge (drop 32 prf)) by (rewrite length_drop; unfold len in *; lia). by rewrite take_drop.
Qed.

(** A challenge can always be drawn. *)
Lemma challenge_ok t label : ∃ c t', transcriptChallengeScalar t label = Ok (c, t').
Proof.
  unfold transcriptChallengeScalar. pose proof (ExtractBytes_length t label 64 ltac:(lia)) as Hl.
  destruct (ExtractBytes t label 64) as [wide t']. cbn in Hl.
  destruct (NewFromBytesModOrderWide_ok wide) as [s ->]; [by apply length_of_len|]. by exists s, t'.
Qed.

(** Public-key validity proofs are complete: a proof that
    [GeneratePubkeyValidityProof] returns is accepted by the verifier exactly when
    neither the public key nor the commitment of the proof is the identity, that is,
    unless the random nonce is zero. *)
Lemma pubkey_validity_complete service (keypair : ElGamalKeypair) (random random' : Reader) (data : ZKProofData) :
  service_ok service → GeneratePubkeyValidityProof service keypair random = (Ok data, random') →
  (VerifyPubkeyValidityProof service data = Ok tt ↔ Context_ data ≠ zeros 32 ∧ sub 0 32 (Proof_ data) ≠ zeros 32).
Proof.
  intros Hs H. apply GeneratePubkeyValidityProof_inv in H as (secret & nonce & challenge & t' & Hn & Hc & ->); [|done].
  cbv zeta in Hc. rewrite (pubkey_accepts _ _ _ _ _ _ Hs Hc). cbn [Context_ Proof_]. sub_parts.
  rewrite !encoded_identity.
  assert (Hrel : pMul openingPoint (sAdd (sMul challenge (sInvert secret)) nonce)
                 = pAdd (pMul (pubkeyOf secret) challenge) (pMul openingPoint nonce)).
  { unfold pubkeyOf. module_eq; field; done. }
  naive_solver.
Qed.
(** * Zero ciphertexts *)

(** Zero-ciphertext proofs are complete: what [GenerateZeroCiphertextProof]
    returns is accepted exactly when none of the public key, the two points of the
    ciphertext and the first commitment is the identity. *)
Lemma zero_ciphertext_complete service (keypair : ElGamalKeypair) (ciphertext : bytes) (random random' : Reader)
  (data : ZKProofData) :
  service_ok service → length ciphertext = 64%nat →
  GenerateZeroCiphertextProof keypair ciphertext random = (Ok data, random') →
  (VerifyZeroCiphertextProof service data = Ok tt ↔
   sub 0 32 (Context_ data) ≠ zeros 32 ∧ sub 32 64 (Context_ data) ≠ zeros 32 ∧ sub 64 96 (Context_ data) ≠ zeros 32
   ∧ sub 0 32 (Proof_ data) ≠ zeros 32).
Proof.
  intros Hs Hl H. unfold GenerateZeroCiphertextProof in H.
  step H p E1. destruct p as [secret P]. apply elGamalKeypairValues_inv in E1 as (Hn & -> & _ & Hpk).
  step H q E2. destruct q as [C D]. apply elGamalCiphertextPoints_inv in E2 as ->; [|done].
  gcheck H. apply negb_false_iff, bool_decide_eq_true in Heqb. rewrite pSub_identity in Heqb.
  step H nonce E3. rewrite Hpk, !pedersenCommitment_eq in H.
  step H c E4. destruct c as [challenge t1]. step H w E5. destruct w as [batching t2].
  apply mret_inv in H as [<- _].
  unfold VerifyZeroCiphertextProof. rewrite classify_ok. cbn [Discriminator Context_ Proof_].
  unfold ciphertextOf in *. sub_parts.
  revert E4 E5. sub_parts. intros E4 E5.
  rewrite decide_False by (unfold len; rewrite !length_app, !SetRistrettoPoint_length, ToBytes_length; lia).
  rewrite !ristrettoPoint_encoded, scalarFromBytes_encoded, pedersenOpeningBasepoint_ok by done.
  rewrite E4. obind. rewrite E5. obind.
  rewrite (IsIdentity_true (MultiscalarMul _ _)).
  - rewrite !IsIdentity_encoded. repeat case_bool_decide; cbn; naive_solver.
  - rewrite MultiscalarMul_spec by done. cbn [msm]. rewrite Heqb. unfold pubkeyOf. module_eq; field; done.
Qed.
(** * Equality *)

Lemma EncryptElGamalWithOpening_inv service key amount opening ct :
  service_ok service → EncryptElGamalWithOpening service key amount opening = Ok ct →
  ∃ K r, key = SetRistrettoPoint K ∧ opening = ToBytes r
         ∧ ct = ciphertextOf (pAdd (pMul BASEPOINT (SetUint64 amount)) (pMul openingPoint r)) (pMul K r).
Proof.
  intros Hs H. assert (H0 := H). unfold EncryptElGamalWithOpening, encryptGroupedElGamal in H.
  ostep H g E1. clear H. ostep E1 r E2. ostep E1 B E3. ostep E1 hs E4. clear E1 E3. cbn [encryptHandles] in E4.
  ostep E4 K E5. clear E4. apply scalarFromBytes_inv in E2 as ->. apply ristrettoPoint_inv in E5 as ->.
  rewrite EncryptElGamalWithOpening_of in H0 by done. injection H0 as <-. by exists K, r.
Qed.

Lemma CommitPedersen_inv service amount opening c :
  service_ok service → CommitPedersen service amount opening = Ok c →
  ∃ r, opening = ToBytes r ∧ c = SetRistrettoPoint (pAdd (pMul BASEPOINT (SetUint64 amount)) (pMul openingPoint r)).
Proof.
  intros Hs H. assert (H0 := H). unfold CommitPedersen in H. ostep H r E. apply scalarFromBytes_inv in E as ->.
  rewrite CommitPedersen_of in H0 by done. injection H0 as <-. by exists r.
Qed.

Lemma equalityProofNonces_inv random v random' :
  equalityProofNonces random = (Ok v, random') → ∃ a b c, v = (a, b, c).
Proof. intros _. destruct v as [[a b] c]. by exists a, b, c. Qed.

Lemma dec_stable_eq {A} `{EqDecision A} (x y : A) : ¬ (x ≠ y) → x = y.
Proof. apply dec_stable. Qed.

(** The parse and the labels of a proof over its blocks. *)
Ltac unfold_blocks :=
  cbn [parseCommitments parseScalars blocks seq fmap list_fmap concat app Nat.mul Nat.add mbind outcome_bind].

(** The verifier stops at the first identity; past all of them the goal is the
    algebraic relation. *)
Ltac by_identity :=
  rewrite ?Forall_cons, ?Forall_nil; cbn [Nat.mul Nat.add]; sub_parts; rewrite ?IsIdentity_encoded;
  repeat (case_bool_decide; cbn [orb]; obind; [split; [done|]; naive_solver|]);
  rewrite ?app_nil_r, ?ristrettoPoint_encoded, ?scalarFromBytes_encoded; obind; rewrite ?IsIdentity_encoded;
  repeat (case_bool_decide; cbn [orb]; obind; [split; [done|]; naive_solver|]).

(** Ciphertext-commitment equality proofs are complete: for a ciphertext that
    decrypts to the amount of the commitment, the proof is accepted exactly when the
    points of the context and the three commitments of the proof are not the
    identity. *)
Lemma commitment_equality_complete service (keypair : ElGamalKeypair) (ciphertext commitment opening : bytes) (amount : Z)
  (random random' : Reader) (data : ZKProofData) :
  service_ok service → length ciphertext = 64%nat →
  GenerateCiphertextCommitmentEqualityProof service keypair ciphertext commitment opening amount random = (Ok data, random') →
  (VerifyCiphertextCommitmentEqualityProof service data = Ok tt ↔
   Forall (λ i, sub (i * 32) (i * 32 + 32) (Context_ data) ≠ zeros 32) [0; 1; 2; 3]%nat ∧
   Forall (λ i, sub (i * 32) (i * 32 + 32) (Proof_ data) ≠ zeros 32) [0; 1; 2]%nat).
Proof.
  intros Hs Hl H. unfold GenerateCiphertextCommitmentEqualityProof in H.
  step H p E1. destruct p as [secret P]. apply elGamalKeypairValues_inv in E1 as (Hn & -> & _ & Hpk).
  step H q E2. destruct q as [C D]. apply elGamalCiphertextPoints_inv in E2 as ->; [|done].
  gcheck H. apply negb_false_iff, bool_decide_eq_true in Heqb.
  step H c0 E3. gcheck H. apply dec_stable_eq in n as <-. apply CommitPedersen_inv in E3 as (r & -> & ->); [|done].
  step H r' E4. rewrite scalarFromBytes_encoded in E4. injection E4 as <-.
  step H nonces E5. apply equalityProofNonces_inv in E5 as (sn & an & on & ->).
  step H B E6. rewrite pedersenOpeningBasepoint_ok in E6 by done. injection E6 as <-.
  rewrite Hpk, !pedersenCommitment_eq in H. step H c E7. destruct c as [challenge t1].
  step H prf E8. apply mret_inv in H as [<- _]. unfold ciphertextCommitmentEqualityProofBytes, equalityProofBytes in E8.
  ostep E8 w E9. destruct w as [batching t2]. injection E8 as <-.
  unfold VerifyCiphertextCommitmentEqualityProof. rewrite classify_ok. cbn [Discriminator Context_ Proof_].
  unfold ciphertextOf in *. unfold parseCiphertextCommitmentEqualityProof, ciphertextCommitmentEqualityTranscript, blocks,
    appendEqualityResponses in *. unfold_blocks. revert E7 E9. unfold_blocks. sub_parts. intros E7 E9.
  rewrite decide_False by (unfold len; rewrite !length_app, !SetRistrettoPoint_length, !ToBytes_length; cbn; lia).
  rewrite !ristrettoPoint_encoded, !scalarFromBytes_encoded, pedersenOpeningBasepoint_ok by done. obind.
  by_identity. rewrite E7. obind. cbn [fmap list_fmap]. rewrite E9. obind. unfold at_s, at_p. cbn [nth].
  rewrite (IsIdentity_true (MultiscalarMul _ _)); [naive_solver|].
  rewrite !MultiscalarMul_spec by done. cbn [msm]. rewrite (pSub_pAdd' _ _ _ Heqb). unfold pubkeyOf. module_eq; field; done.
Qed.

(** Ciphertext-ciphertext equality proofs are complete: for a ciphertext that
    decrypts to the amount encrypted to a second key, the proof is accepted exactly
    when the public keys, the first ciphertext and the four commitments of the proof
    are not the identity. *)
Lemma ciphertext_equality_complete service (keypair : ElGamalKeypair) (pubkey2 ciphertext1 ciphertext2 opening2 : bytes)
  (amount : Z) (random random' : Reader) (data : ZKProofData) :
  service_ok service → length ciphertext1 = 64%nat →
  GenerateCiphertextCiphertextEqualityProof service keypair pubkey2 ciphertext1 ciphertext2 opening2 amount random = (Ok data, random') →
  (VerifyCiphertextCiphertextEqualityProof service data = Ok tt ↔
   Forall (λ i, sub (i * 32) (i * 32 + 32) (Context_ data) ≠ zeros 32) [0; 1; 2; 3]%nat ∧
   Forall (λ i, sub (i * 32) (i * 32 + 32) (Proof_ data) ≠ zeros 32) [0; 1; 2; 3]%nat).
Proof.
  intros Hs Hl H. unfold GenerateCiphertextCiphertextEqualityProof in H.
  step H p E1. destruct p as [secret P]. apply elGamalKeypairValues_inv in E1 as (Hn & -> & _ & Hpk).
  step H K2 E0. apply ristrettoPoint_inv in E0 as ->.
  step H q E2. destruct q as [C D]. apply elGamalCiphertextPoints_inv in E2 as ->; [|done].
  gcheck H. apply negb_false_iff, bool_decide_eq_true in Heqb.
  step H c0 E3. gcheck H. apply dec_stable_eq in n as <-.
  apply EncryptElGamalWithOpening_inv in E3 as (K & r & HK & -> & ->); [|done]. apply SetRistrettoPoint_inj in HK as ->.
  step H r' E4. rewrite scalarFromBytes_encoded in E4. injection E4 as <-.
  step H nonces E5. apply equalityProofNonces_inv in E5 as (sn & an & on & ->).
  step H B E6. rewrite pedersenOpeningBasepoint_ok in E6 by done. injection E6 as <-.
  rewrite Hpk, !pedersenCommitment_eq in H. step H c E7. destruct c as [challenge t1].
  step H prf E8. apply mret_inv in H as [<- _]. unfold ciphertextCiphertextEqualityProofBytes, equalityProofBytes in E8.
  ostep E8 w E9. destruct w as [batching t2]. injection E8 as <-.
  unfold VerifyCiphertextCiphertextEqualityProof. rewrite classify_ok. cbn [Discriminator Context_ Proof_].
  unfold ciphertextOf in *. unfold parseCiphertextCiphertextEqualityProof, ciphertextCiphertextEqualityTranscript, blocks,
    appendEqualityResponses in *. unfold_blocks. revert E7 E9. unfold_blocks. rewrite ?app_assoc_reverse. sub_parts. intros E7 E9.
  rewrite decide_False by (unfold len; rewrite !length_app, !SetRistrettoPoint_length, !ToBytes_length; cbn; lia).
  rewrite !ristrettoPoint_encoded, !scalarFromBytes_encoded, pedersenOpeningBasepoint_ok by done. obind.
  by_identity. rewrite E7. obind. cbn [fmap list_fmap]. rewrite E9. obind. unfold at_s, at_p. cbn [nth].
  rewrite (IsIdentity_true (MultiscalarMul _ _)); [naive_solver|].
  rewrite !MultiscalarMul_spec by done. cbn [msm]. rewrite (pSub_pAdd' _ _ _ Heqb). unfold pubkeyOf. module_eq; field; done.
Qed.
End sigma.

Section soundness.
Context `{R : Ristretto} {L : RistrettoLaws R}.

#[local] Definition sDiv' (a b : Scalar) : Scalar := sMul a (sInvert b).
#[local] Lemma sound_field : field_theory sNew sOne sAdd sMul sSub sNeg sDiv' sInvert eq.
Proof. exact scalar_field. Qed.
Add Field sound_field : sound_field.

(** The secret that two answers to different challenges give away: the answers are
    [c • s⁻¹ + nonce], so their difference over that of the challenges is [s⁻¹]. *)
Definition extractSecret (z1 z2 c1 c2 : Scalar) : Scalar := sInvert (sMul (sSub z1 z2) (sInvert (sSub c1 c2))).

(** What acceptance means, for any data: the sizes and the discriminator are those of
    the proof, neither point is the identity, and the answer satisfies the equation
    under the challenge of the transcript over this key and this commitment. *)
Definition pubkeyEquation {M : Merlin} (data : ZKProofData) : Prop :=
  ∃ P Y z challenge t, data = mkProofData 4 (SetRistrettoPoint P) (SetRistrettoPoint Y ++ ToBytes z) ∧
    transcriptChallengeScalar (pubkeyValidityTranscript (SetRistrettoPoint P) (SetRistrettoPoint Y)) (str "c") = Ok (challenge, t) ∧
    P ≠ identity ∧ Y ≠ identity ∧ pMul openingPoint z = pAdd (pMul P challenge) Y.

Lemma pubkey_equation {M : Merlin} {ML : MerlinLaws M} service data :
  service_ok service → VerifyPubkeyValidityProof service data = Ok tt ↔ pubkeyEquation data.
Proof.
  intros Hs. split.
  - intros H. destruct (VerifyPubkeyValidityProof_inv _ _ H) as (P & Y & z & ->).
    destruct (challenge_ok (pubkeyValidityTranscript (SetRistrettoPoint P) (SetRistrettoPoint Y)) (str "c")) as (c & t & E).
    destruct (proj1 (pubkey_accepts _ _ _ _ _ _ Hs E) H) as (? & ? & ?). by exists P, Y, z, c, t.
  - intros (P & Y & z & c & t & -> & E & H). by apply (pubkey_accepts _ _ _ _ _ _ Hs E).
Qed.

Lemma ToBytes_inj (a b : Scalar) : ToBytes a = ToBytes b → a = b.
Proof. intros H. apply (f_equal NewFromCanonicalBytes) in H. rewrite !NewFromCanonicalBytes_ToBytes in H. by injection H. Qed.

(** The secret that [extractSecret] computes from two solutions with the same points. *)
Lemma extractSecret_derives P Y z1 z2 c1 c2 :
  P ≠ identity → c1 ≠ c2 →
  pMul openingPoint z1 = pAdd (pMul P c1) Y → pMul openingPoint z2 = pAdd (pMul P c2) Y →
  extractSecret z1 z2 c1 c2 ≠ sNew ∧ P = pubkeyOf (extractSecret z1 z2 c1 c2).
Proof.
  intros HP Hne H1 H2. unfold extractSecret. set (k := sMul (sSub z1 z2) (sInvert (sSub c1 c2))).
  assert (Hd : sSub c1 c2 ≠ sNew).
  { intros E. apply Hne. transitivity (sAdd (sSub c1 c2) c2); [ring|]. rewrite E. ring. }
  assert (HPk : P = pMul openingPoint k).
  { unfold k. rewrite pMul_sMul, pMul_sub, H1, H2. rewrite <-(pMul_sOne P) at 1. module_eq; field; done. }
  assert (Hk : k ≠ sNew) by (intros E; apply HP; rewrite HPk, E; apply pMul_sNew).
  split.
  - intros E. pose proof (F_1_neq_0 sound_field) as H10. apply H10.
    transitivity (sMul (sInvert k) k); [by field|]. rewrite E. ring.
  - unfold pubkeyOf. rewrite HPk. f_equal. clearbody k. field. split; [done|apply (F_1_neq_0 sound_field)].
Qed.

(** C33. Public-key validity proofs are sound. What the verifier accepts is exactly
    the solutions of its equation: a key and a commitment that are not the identity,
    and an answer that satisfies the equation under the challenge of the transcript
    over this key and this commitment. And the answers hold the secret (special
    soundness): from the answers of two accepted proofs with the same key and the
    same commitment, under two transcript functions whose challenges differ,
    [extractSecret] computes a secret key, from which the public key derives. *)
Theorem pubkey_validity_sound (M1 M2 : Merlin) (ML1 : MerlinLaws M1) (service : ConfidentialTransferService) (data1 data2 : ZKProofData)
  (c1 c2 z1 z2 : Scalar) t1 t2 :
  service_ok service →
  (VerifyPubkeyValidityProof (M := M1) service data1 = Ok tt ↔ pubkeyEquation (M := M1) data1) ∧
  (VerifyPubkeyValidityProof (M := M1) service data1 = Ok tt → VerifyPubkeyValidityProof (M := M2) service data2 = Ok tt →
   Context_ data1 = Context_ data2 → sub 0 32 (Proof_ data1) = sub 0 32 (Proof_ data2) →
   drop 32 (Proof_ data1) = ToBytes z1 → drop 32 (Proof_ data2) = ToBytes z2 →
   transcriptChallengeScalar (M := M1) (pubkeyValidityTranscript (Context_ data1) (sub 0 32 (Proof_ data1))) (str "c") = Ok (c1, t1) →
   transcriptChallengeScalar (M := M2) (pubkeyValidityTranscript (Context_ data2) (sub 0 32 (Proof_ data2))) (str "c") = Ok (c2, t2) →
   c1 ≠ c2 →
   extractSecret z1 z2 c1 c2 ≠ sNew ∧ DeriveElGamalPubkey (ToBytes (extractSecret z1 z2 c1 c2)) = Ok (Context_ data1)).
Proof.
  intros Hs. split; [by apply pubkey_equation|]. intros H1 H2 Hctx Hcom Hz1 Hz2 E1 E2 Hne.
  destruct (VerifyPubkeyValidityProof_inv _ _ H1) as (P & Y & z1' & ->).
  destruct (VerifyPubkeyValidityProof_inv _ _ H2) as (P2 & Y2 & z2' & ->).
  cbn [Context_ Proof_] in *.
  rewrite (sub_app_l 0 32 (SetRistrettoPoint Y)), (sub_app_l 0 32 (SetRistrettoPoint Y2)) in * by length_tac.
  rewrite !sub_all in * by length_tac. rewrite drop_app_length' in Hz1, Hz2 by length_tac.
  apply SetRistrettoPoint_inj in Hctx as <-. apply SetRistrettoPoint_inj in Hcom as <-. apply ToBytes_inj in Hz1 as <-, Hz2 as <-.
  rewrite (pubkey_accepts _ _ _ _ _ _ Hs E1) in H1. rewrite (pubkey_accepts _ _ _ _ _ _ Hs E2) in H2.
  destruct H1 as (HP & _ & H1), H2 as (_ & _ & H2). destruct (extractSecret_derives P Y z1' z2' c1 c2 HP Hne H1 H2) as [Hn HPk].
  split; [done|]. rewrite DeriveElGamalPubkey_of by done. by rewrite <-HPk.
Qed.
End soundness.

(** * Witnesses *)

Definition toyKeypair : ElGamalKeypair := mkKeypair (SetRistrettoPoint (pubkeyOf (toyScalar 5))) (ToBytes (toyScalar 5)).
(** The state of the random source the witnesses start from. *)
Definition toyReader : @Reader toy toyRandom := 7.
Definition ran {A} (r : outcome error A * @Reader toy toyRandom) (d : A) : A * @Reader toy toyRandom := match r with (Ok a, s) => (a, s) | (_, s) => (d, s) end.

Definition toyPubkeyProof : ZKProofData * @Reader toy toyRandom :=
  Eval vm_compute in ran (GeneratePubkeyValidityProof zeroService toyKeypair toyReader) (mkProofData 0 [] []).

(** An encryption of 42 for that key. *)
Definition toyCiphertext : bytes :=
  Eval vm_compute in ciphertextOf (pAdd (pMul BASEPOINT (SetUint64 42)) (pMul openingPoint (toyScalar 3))) (pMul (pubkeyOf (toyScalar 5)) (toyScalar 3)).

(** A second transcript function, and the proof it leads to with the same nonce. *)
Definition toyMerlin2 : Merlin := {|
  Transcript := Z;
  NewTranscript := λ l, mix 1 (le_val l);
  AppendMessage := λ t l m, mix (mix t (le_val l)) (le_val m);
  ExtractBytes := λ t l n, let t := mix t (le_val l) in (le_bytes (Z.to_nat n) t, t);
|}.
Definition toyPubkeyProof2 : ZKProofData * @Reader toy toyRandom :=
  Eval vm_compute in ran (GeneratePubkeyValidityProof (M := toyMerlin2) zeroService toyKeypair toyReader) (mkProofData 0 [] []).
Definition toyChallenge (m : Merlin) (data : ZKProofData) : Scalar :=
  match transcriptChallengeScalar (M := m) (pubkeyValidityTranscript (Context_ data) (sub 0 32 (Proof_ data))) (str "c") with
  | Ok (c, _) => c
  | _ => sNew
  end.

(** The answer of a proof, as a scalar. *)
Definition toyAnswer (data : ZKProofData) : @Scalar toy :=
  match scalarFromBytes (drop 32 (Proof_ data)) "response" with Ok z => z | _ => sNew end.
Definition toySecret : @Scalar toy :=
  extractSecret (toyAnswer toyPubkeyProof.1) (toyAnswer toyPubkeyProof2.1)
    (toyChallenge toyMerlin toyPubkeyProof.1) (toyChallenge toyMerlin2 toyPubkeyProof2.1).

Lemma pubkey_validity_sound_witness :
  pubkeyEquation (M := toyMerlin) toyPubkeyProof.1 ∧ Zmod.to_Z toySecret = 5 ∧
  toySecret ≠ sNew ∧ DeriveElGamalPubkey (ToBytes toySecret) = Ok (Context_ toyPubkeyProof.1).
Proof.
  destruct (pubkey_validity_sound toyMerlin toyMerlin2 toy_MerlinLaws zeroService toyPubkeyProof.1 toyPubkeyProof2.1
    (toyChallenge toyMerlin toyPubkeyProof.1) (toyChallenge toyMerlin2 toyPubkeyProof2.1)
    (toyAnswer toyPubkeyProof.1) (toyAnswer toyPubkeyProof2.1)
    (match transcriptChallengeScalar (M := toyMerlin) (pubkeyValidityTranscript (Context_ toyPubkeyProof.1) (sub 0 32 (Proof_ toyPubkeyProof.1))) (str "c") with
     | Ok (_, t) => t | _ => NewTranscript [] end)
    (match transcriptChallengeScalar (M := toyMerlin2) (pubkeyValidityTranscript (Context_ toyPubkeyProof2.1) (sub 0 32 (Proof_ toyPubkeyProof2.1))) (str "c") with
     | Ok (_, t) => t | _ => NewTranscript [] end) I) as [H1 H2].
  split; [|split].
  - apply H1. vm_compute. reflexivity.
  - vm_compute. reflexivity.
  - apply H2; try (vm_compute; reflexivity). intros E. apply (f_equal Zmod.to_Z) in E. vm_compute in E. inversion E.
Defined.
