(* ===== verification/Validity.v ===== *)
(** Validity: proofs that grouped ciphertexts are well formed and that a fee is a
    percentage with a cap (programs/token-2022: confidential_validity.go,
    confidential_percentage.go). *)
From Stdlib Require Import ZArith Lia.
From stdpp Require Import base numbers strings list.
From S2P Require Import Prelude Keys Ristretto ElGamal Sigma.

Open Scope Z_scope.

Section validity.
Context `{R : Ristretto} {Rnd : Random} {M : Merlin}.

Implicit Types service : ConfidentialTransferService.

(** * Grouped ciphertext validity *)

Definition validityPublicKeyLabel (index : nat) : bytes :=
  match index with O => str "first-pubkey" | S O => str "second-pubkey" | _ => str "third-pubkey" end.
Definition validityResponseLabel (index : nat) : bytes :=
  match index with O => str "z_r" | _ => str "z_x" end.

Definition groupedCiphertextValidityTranscript (context : bytes) (handles ciphertextCount : nat) (instructionLabel : bytes)
  : Transcript :=
  let transcript := newZKElGamalTranscript instructionLabel in
  let transcript := appendPoints validityPublicKeyLabel 0 transcript (blocks handles 0 context) in
  let offset := (handles * 32)%nat in
  if decide (ciphertextCount = 1%nat) then AppendMessage transcript (str "grouped-ciphertext") (drop offset context)
  else
    let ciphertextSize := ((handles + 1) * 32)%nat in
    let transcript := AppendMessage transcript (str "grouped-ciphertext-lo") (sub offset (offset + ciphertextSize) context) in
    AppendMessage transcript (str "grouped-ciphertext-hi") (drop (offset + ciphertextSize) context).

Definition appendValidityDomainSeparator (transcript : Transcript) (handles : nat) : Transcript :=
  appendTranscriptUint64 (appendProofDomainSeparator transcript (str "validity-proof")) (str "handles") (Z.of_nat handles).
Definition appendBatchedValidityDomainSeparator (transcript : Transcript) (handles : nat) : Transcript :=
  appendTranscriptUint64 (appendProofDomainSeparator transcript (str "batched-validity-proof")) (str "handles")
    (Z.of_nat handles).

(** The commitments [openingNonce • key] for the public keys, in order. *)
Fixpoint validityCommitments (openingNonce : Scalar) (publicKeys : list ElGamalPubkey) : outcome error (list PedersenCommitment) :=
  match publicKeys with
  | [] => Ok []
  | key :: publicKeys' =>
    publicKey ← ristrettoPoint key "grouped ciphertext public key";
    rest ← validityCommitments openingNonce publicKeys';
    Ok (pedersenCommitment (pMul publicKey openingNonce) :: rest)
  end.

Definition generateGroupedCiphertextValidityProofDirect service (publicKeys : list ElGamalPubkey) (amount opening : Scalar)
  (transcript : Transcript) : GoM Reader error bytes :=
  let transcript := appendValidityDomainSeparator transcript (length publicKeys) in
  openingNonce ← SetRandomM;
  amountNonce ← SetRandomM;
  openingBasepoint ← lift (pedersenOpeningBasepoint service);
  let commitment := pedersenCommitment (MultiscalarMul [openingNonce; amountNonce] [openingBasepoint; BASEPOINT]) in
  rest ← lift (validityCommitments openingNonce publicKeys);
  let commitments := commitment :: rest in
  let transcript := appendPoints equalityCommitmentLabel 0 transcript commitments in
  '(challenge, transcript) ← lift (transcriptChallengeScalar transcript (str "c"));
  let responses := [sAdd (sMul challenge opening) openingNonce; sAdd (sMul challenge amount) amountNonce] in
  let encoded := ToBytes <$> responses in
  let transcript := appendScalars validityResponseLabel 0 transcript encoded in
  _ ← lift (transcriptChallengeScalar transcript (str "w"));
  mret (concat commitments ++ concat encoded).

(** Every ciphertext is the encryption of its amount under its opening. *)
Fixpoint checkCiphertexts service (publicKeys : list ElGamalPubkey) (index : Z) (ciphertexts : list bytes) (amounts : list Z)
  (openings : list PedersenOpening) : outcome error unit :=
  match ciphertexts, amounts, openings with
  | ciphertext :: ciphertexts', amount :: amounts', opening :: openings' =>
    expected ← wrapf "generate grouped ciphertext validity proof" (encryptGroupedElGamal service publicKeys amount opening);
    if decide (expected ≠ ciphertext) then Err (errNewf "generate grouped ciphertext validity proof: ciphertext mismatch" [index])
    else checkCiphertexts service publicKeys (index + 1) ciphertexts' amounts' openings'
  | [], _, _ => Ok tt
  | _, _, _ => Panic
  end.

(** The amount and opening proved: the first ones, or their combination with the
    second ones under the challenge [t]. *)
Definition batchedValues (publicKeys : list ElGamalPubkey) (amounts : list Z) (openings : list PedersenOpening)
  (count : nat) (transcript : Transcript) : outcome error (Scalar * Scalar * Transcript) :=
  let prefix := "generate grouped ciphertext validity proof"%string in
  amount0 ← idx amounts 0;
  opening0 ← idx openings 0;
  let amountScalar := SetUint64 amount0 in
  openingScalar ← wrapf prefix (scalarFromBytes opening0 "Pedersen opening");
  if decide (count = 2%nat) then
    let transcript := appendBatchedValidityDomainSeparator transcript (length publicKeys) in
    '(batching, transcript) ← wrapf prefix (transcriptChallengeScalar transcript (str "t"));
    amount1 ← idx amounts 1;
    opening1 ← idx openings 1;
    highOpening ← wrapf prefix (scalarFromBytes opening1 "high Pedersen opening");
    Ok (sAdd amountScalar (sMul (SetUint64 amount1) batching), sAdd openingScalar (sMul highOpening batching), transcript)
  else Ok (amountScalar, openingScalar, transcript).

Definition generateGroupedCiphertextValidityProof service (publicKeys : list ElGamalPubkey) (ciphertexts : list bytes)
  (amounts : list Z) (openings : list PedersenOpening) (discriminator : Z) (instructionLabel : bytes)
  : GoM Reader error ZKProofData :=
  _ ← lift (checkCiphertexts service publicKeys 0 ciphertexts amounts openings);
  let context := concat publicKeys ++ concat ciphertexts in
  let transcript := groupedCiphertextValidityTranscript context (length publicKeys) (length ciphertexts) instructionLabel in
  '(amountScalar, openingScalar, transcript) ← lift (batchedValues publicKeys amounts openings (length ciphertexts) transcript);
  proof ← wrapM "generate grouped ciphertext validity proof"
            (generateGroupedCiphertextValidityProofDirect service publicKeys amountScalar openingScalar transcript);
  mret (mkProofData discriminator context proof).

(** The commitments of the proof go into the transcript as they are parsed; only
    the last one may be the identity. *)
Fixpoint parseValidityCommitments (n index handles : nat) (proof : bytes) (transcript : Transcript)
  : outcome error (list Point * Transcript) :=
  match n with
  | O => Ok ([], transcript)
  | S n' =>
    let encoded := sub (index * 32) ((index + 1) * 32) proof in
    point ← ristrettoPoint encoded "grouped ciphertext validity proof commitment";
    if bool_decide (index < handles)%nat && IsIdentity point then
      Err (errNew "identity grouped ciphertext validity proof commitment") else
    let transcript := appendTranscriptPoint transcript (equalityCommitmentLabel index) encoded in
    '(points, transcript) ← parseValidityCommitments n' (S index) handles proof transcript;
    Ok (point :: points, transcript)
  end.
Fixpoint parseValidityResponses (n index offset : nat) (proof : bytes) (transcript : Transcript)
  : outcome error (list Scalar * Transcript) :=
  match n with
  | O => Ok ([], transcript)
  | S n' =>
    let encoded := sub ((offset + index) * 32) ((offset + index + 1) * 32) proof in
    response ← scalarFromBytes encoded "grouped ciphertext validity proof response";
    let transcript := appendTranscriptScalar transcript (validityResponseLabel index) encoded in
    '(responses, transcript) ← parseValidityResponses n' (S index) offset proof transcript;
    Ok (response :: responses, transcript)
  end.

(** The scalars and points added for each handle, under growing powers of the
    batching challenge. *)
Fixpoint handleTerms (batching batchingPower response challenge : Scalar) (publicKeys handles commitments : list Point)
  : list Scalar * list Point :=
  match publicKeys, handles, commitments with
  | key :: publicKeys', handle :: handles', commitment :: commitments' =>
    let batchingPower := sMul batchingPower batching in
    let negativePower := sNeg batchingPower in
    let '(scalars, points) := handleTerms batching batchingPower response challenge publicKeys' handles' commitments' in
    (sMul batchingPower response :: sMul negativePower challenge :: negativePower :: scalars,
     key :: handle :: commitment :: points)
  | _, _, _ => ([], [])
  end.

Definition verifyGroupedCiphertextValidityProofDirect service (publicKeys ciphertext : list Point) (proof : bytes)
  (transcript : Transcript) : outcome error unit :=
  let handles := length publicKeys in
  let transcript := appendValidityDomainSeparator transcript handles in
  '(commitments, transcript) ← parseValidityCommitments (handles + 1) 0 handles proof transcript;
  '(challenge, transcript) ← transcriptChallengeScalar transcript (str "c");
  '(responses, transcript) ← parseValidityResponses 2 0 (handles + 1) proof transcript;
  '(batching, _) ← transcriptChallengeScalar transcript (str "w");
  openingBasepoint ← pedersenOpeningBasepoint service;
  let negativeChallenge := sNeg challenge in
  let negativeOne := sNeg sOne in
  let '(scalars, points) :=
    handleTerms batching sOne (at_s responses 0) challenge publicKeys (drop 1 ciphertext) (drop 1 commitments) in
  let check := MultiscalarMul
    ([at_s responses 0; at_s responses 1; negativeChallenge; negativeOne] ++ scalars)
    ([openingBasepoint; BASEPOINT; at_p ciphertext 0; at_p commitments 0] ++ points) in
  if IsIdentity check then Ok tt else Err (errNew "algebraic relation").

(** [n] points from the block [index] on. *)
Fixpoint parsePoints (n index : nat) (data : bytes) (name : string) : outcome error (list Point) :=
  match n with
  | O => Ok []
  | S n' =>
    point ← ristrettoPoint (sub (index * 32) ((index + 1) * 32) data) name;
    points ← parsePoints n' (S index) data name;
    Ok (point :: points)
  end.
Fixpoint parseCiphertexts (n index handles : nat) (data : bytes) : outcome error (list (list Point)) :=
  match n with
  | O => Ok []
  | S n' =>
    points ← wrapf "verify grouped ciphertext validity proof" (parsePoints (handles + 1) index data "grouped ciphertext");
    if IsIdentity (at_p points 0) then Err (errNew "verify grouped ciphertext validity proof: identity commitment") else
    rest ← parseCiphertexts n' (index + handles + 1) handles data;
    Ok (points :: rest)
  end.

Definition verifyGroupedCiphertextValidityProof service (data : ZKProofData) (handles ciphertextCount : nat)
  (discriminator : Z) (instructionLabel : bytes) : outcome error unit :=
  let prefix := "verify grouped ciphertext validity proof"%string in
  let ctx := Context_ data in
  let ciphertextSize := ((handles + 1) * 32)%nat in
  let contextSize := (handles * 32 + ciphertextCount * ciphertextSize)%nat in
  let proofSize := ((handles + 3) * 32)%nat in
  if decide (Discriminator data ≠ discriminator ∨ len ctx ≠ Z.of_nat contextSize ∨ len (Proof_ data) ≠ Z.of_nat proofSize) then
    Err (errNew "verify grouped ciphertext validity proof: invalid proof data") else
  publicKeys ← wrapf prefix (parsePoints handles 0 ctx "grouped ciphertext public key");
  if IsIdentity (at_p publicKeys 0) || bool_decide (handles = 3)%nat && IsIdentity (at_p publicKeys 1) then
    Err (errNew "verify grouped ciphertext validity proof: identity public key") else
  ciphertexts ← parseCiphertexts ciphertextCount handles handles ctx;
  let transcript := groupedCiphertextValidityTranscript ctx handles ciphertextCount instructionLabel in
  '(batchedCiphertext, transcript) ←
    (if decide (ciphertextCount = 2%nat) then
       let transcript := appendBatchedValidityDomainSeparator transcript handles in
       '(batching, transcript) ← wrapf prefix (transcriptChallengeScalar transcript (str "t"));
       Ok (zip_with (λ lo hi, pAdd lo (pMul hi batching)) (nth 0 ciphertexts []) (nth 1 ciphertexts []), transcript)
     else Ok (nth 0 ciphertexts [], transcript));
  wrapf prefix (verifyGroupedCiphertextValidityProofDirect service publicKeys batchedCiphertext (Proof_ data) transcript).

Definition GenerateGroupedCiphertext2HandlesValidityProof service (publicKeys : list ElGamalPubkey) (ciphertext : bytes)
  (amount : Z) (opening : PedersenOpening) : GoM Reader error ZKProofData :=
  generateGroupedCiphertextValidityProof service publicKeys [ciphertext] [amount] [opening] 9
    (str "grouped-ciphertext-validity-2-handles-instruction").
Definition VerifyGroupedCiphertext2HandlesValidityProof service (data : ZKProofData) : outcome error unit :=
  classifyInvalidProof (verifyGroupedCiphertextValidityProof service data 2 1 9
    (str "grouped-ciphertext-validity-2-handles-instruction")).
Definition GenerateBatchedGroupedCiphertext2HandlesValidityProof service (publicKeys : list ElGamalPubkey)
  (ciphertexts : bytes * bytes) (amounts : Z * Z) (openings : PedersenOpening * PedersenOpening) : GoM Reader error ZKProofData :=
  generateGroupedCiphertextValidityProof service publicKeys [ciphertexts.1; ciphertexts.2] [amounts.1; amounts.2]
    [openings.1; openings.2] 10 (str "batched-grouped-ciphertext-validity-2-handles-instruction").
Definition VerifyBatchedGroupedCiphertext2HandlesValidityProof service (data : ZKProofData) : outcome error unit :=
  classifyInvalidProof (verifyGroupedCiphertextValidityProof service data 2 2 10
    (str "batched-grouped-ciphertext-validity-2-handles-instruction")).
Definition GenerateGroupedCiphertext3HandlesValidityProof service (publicKeys : list ElGamalPubkey) (ciphertext : bytes)
  (amount : Z) (opening : PedersenOpening) : GoM Reader error ZKProofData :=
  generateGroupedCiphertextValidityProof service publicKeys [ciphertext] [amount] [opening] 11
    (str "grouped-ciphertext-validity-3-handles-instruction").
Definition VerifyGroupedCiphertext3HandlesValidityProof service (data : ZKProofData) : outcome error unit :=
  classifyInvalidProof (verifyGroupedCiphertextValidityProof service data 3 1 11
    (str "grouped-ciphertext-validity-3-handles-instruction")).
Definition GenerateBatchedGroupedCiphertext3HandlesValidityProof service (publicKeys : list ElGamalPubkey)
  (ciphertexts : bytes * bytes) (amounts : Z * Z) (openings : PedersenOpening * PedersenOpening) : GoM Reader error ZKProofData :=
  generateGroupedCiphertextValidityProof service publicKeys [ciphertexts.1; ciphertexts.2] [amounts.1; amounts.2]
    [openings.1; openings.2] 12 (str "batched-grouped-ciphertext-validity-3-handles-instruction").
Definition VerifyBatchedGroupedCiphertext3HandlesValidityProof service (data : ZKProofData) : outcome error unit :=
  classifyInvalidProof (verifyGroupedCiphertextValidityProof service data 3 2 12
    (str "batched-grouped-ciphertext-validity-3-handles-instruction")).

(** * Percentage with a cap *)

Record percentageWithCapProofValues := mkPercentage {
  yMax : Point; zMax : Scalar; cMax : Scalar; yDelta : Point; yClaimed : Point;
  zX : Scalar; zDelta : Scalar; zClaimed : Scalar }.

Definition percentageWithCapScalars : GoM Reader error (Scalar * Scalar * Scalar * Scalar * Scalar) :=
  v0 ← SetRandomM; v1 ← SetRandomM; v2 ← SetRandomM; v3 ← SetRandomM; v4 ← SetRandomM;
  mret (v0, v1, v2, v3, v4).
Definition percentageWithCapContext (percentage delta claimed : PedersenCommitment) (maxValue : Z) : bytes :=
  percentage ++ delta ++ claimed ++ le_bytes 8 maxValue.
Definition percentageWithCapTranscript (context : bytes) : Transcript :=
  let transcript := newZKElGamalTranscript (str "percentage-with-cap-instruction") in
  let transcript := AppendMessage transcript (str "percentage-commitment") (sub 0 32 context) in
  let transcript := AppendMessage transcript (str "delta-commitment") (sub 32 64 context) in
  let transcript := AppendMessage transcript (str "claimed-commitment") (sub 64 96 context) in
  let transcript := appendTranscriptUint64 transcript (str "max-value") (le_val (sub 96 104 context)) in
  appendProofDomainSeparator transcript (str "percentage-with-cap-proof").
Definition appendPercentageWithCapCommitments (transcript : Transcript) (yMax yDelta yClaimed : Point) : Transcript :=
  let transcript := appendTranscriptPoint transcript (str "Y_max_proof") (pedersenCommitment yMax) in
  let transcript := appendTranscriptPoint transcript (str "Y_delta") (pedersenCommitment yDelta) in
  appendTranscriptPoint transcript (str "Y_claimed") (pedersenCommitment yClaimed).

Definition percentageWithCapAboveProof (percentageOpening : Scalar) (delta claimed openingBasepoint : Point) (context : bytes)
  : GoM Reader error percentageWithCapProofValues :=
  '(zX, zDelta, zClaimed, equalityChallenge, yMaxScalar) ← percentageWithCapScalars;
  let yDelta := MultiscalarMul [zX; zDelta; sNeg equalityChallenge] [BASEPOINT; openingBasepoint; delta] in
  let yClaimed := MultiscalarMul [zX; zClaimed; sNeg equalityChallenge] [BASEPOINT; openingBasepoint; claimed] in
  let yMax := pMul openingBasepoint yMaxScalar in
  let transcript := percentageWithCapTranscript context in
  let transcript := appendPercentageWithCapCommitments transcript yMax yDelta yClaimed in
  '(challenge, _) ← lift (transcriptChallengeScalar transcript (str "c"));
  let cMax := sSub challenge equalityChallenge in
  let zMax := sAdd (sMul cMax percentageOpening) yMaxScalar in
  mret (mkPercentage yMax zMax cMax yDelta yClaimed zX zDelta zClaimed).

Definition percentageWithCapBelowProof (percentage : Point) (deltaOpening : Scalar) (deltaAmount : Z) (claimedOpening : Scalar)
  (maxValue : Z) (openingBasepoint : Point) (context : bytes) : GoM Reader error percentageWithCapProofValues :=
  '(zMax, cMax, yX, yDeltaScalar, yClaimedScalar) ← percentageWithCapScalars;
  let yMax := MultiscalarMul [zMax; sNeg cMax; sMul cMax (SetUint64 maxValue)] [openingBasepoint; percentage; BASEPOINT] in
  let yDelta := MultiscalarMul [yX; yDeltaScalar] [BASEPOINT; openingBasepoint] in
  let yClaimed := MultiscalarMul [yX; yClaimedScalar] [BASEPOINT; openingBasepoint] in
  let transcript := percentageWithCapTranscript context in
  let transcript := appendPercentageWithCapCommitments transcript yMax yDelta yClaimed in
  '(challenge, _) ← lift (transcriptChallengeScalar transcript (str "c"));
  let equalityChallenge := sSub challenge cMax in
  let zX := sAdd (sMul equalityChallenge (SetUint64 deltaAmount)) yX in
  let zDelta := sAdd (sMul equalityChallenge deltaOpening) yDeltaScalar in
  let zClaimed := sAdd (sMul equalityChallenge claimedOpening) yClaimedScalar in
  mret (mkPercentage yMax zMax cMax yDelta yClaimed zX zDelta zClaimed).

(** Written at the offsets 0, 32, 64, 96, 128, 160, 192 and 224. *)
Definition percentageWithCapProofBytes (values : percentageWithCapProofValues) : bytes :=
  pedersenCommitment (yMax values) ++ ToBytes (zMax values) ++ ToBytes (cMax values)
  ++ pedersenCommitment (yDelta values) ++ pedersenCommitment (yClaimed values)
  ++ ToBytes (zX values) ++ ToBytes (zDelta values) ++ ToBytes (zClaimed values).

Definition parsePercentageWithCapProof (data : bytes) : outcome error percentageWithCapProofValues :=
  yMax ← ristrettoPoint (sub 0 32 data) "maximum proof commitment";
  yDelta ← ristrettoPoint (sub 96 128 data) "delta proof commitment";
  yClaimed ← ristrettoPoint (sub 128 160 data) "claimed proof commitment";
  if IsIdentity yMax || IsIdentity yDelta || IsIdentity yClaimed then Err (errNew "identity proof commitment") else
  zMax ← scalarFromBytes (sub 32 64 data) "maximum proof response";
  cMax ← scalarFromBytes (sub 64 96 data) "maximum proof challenge";
  zX ← scalarFromBytes (sub 160 192 data) "equality proof amount response";
  zDelta ← scalarFromBytes (sub 192 224 data) "equality proof delta response";
  zClaimed ← scalarFromBytes (sub 224 256 data) "equality proof claimed response";
  Ok (mkPercentage yMax zMax cMax yDelta yClaimed zX zDelta zClaimed).

(** [subtle.ConstantTimeSelect(v, x, y)] on each byte; [v] is the borrow of
    [bits.Sub64(percentageAmount, maxValue, 0)]. *)
Definition ConstantTimeSelect (v x y : Z) : Z := if decide (v = 1) then x else y.

Definition GeneratePercentageWithCapProof service (percentageCommitment : PedersenCommitment)
  (percentageOpening : PedersenOpening) (percentageAmount : Z) (deltaCommitment : PedersenCommitment)
  (deltaOpening : PedersenOpening) (deltaAmount : Z) (claimedCommitment : PedersenCommitment)
  (claimedOpening : PedersenOpening) (maxValue : Z) : GoM Reader error ZKProofData :=
  let prefix := "generate percentage with cap proof"%string in
  expectedPercentage ← lift (wrapf prefix (CommitPedersen service percentageAmount percentageOpening));
  if decide (expectedPercentage ≠ percentageCommitment) then
    throw (errNew "generate percentage with cap proof: percentage commitment mismatch") else
  expectedClaimed ← lift (wrapf prefix (CommitPedersen service deltaAmount claimedOpening));
  if decide (expectedClaimed ≠ claimedCommitment) then
    throw (errNew "generate percentage with cap proof: claimed commitment mismatch") else
  if decide (maxValue < percentageAmount) then
    throw (errNew "generate percentage with cap proof: capped amount exceeds maximum") else
  expectedDelta ← lift (wrapf prefix (CommitPedersen service deltaAmount deltaOpening));
  if decide (percentageAmount < maxValue ∧ expectedDelta ≠ deltaCommitment) then
    throw (errNew "generate percentage with cap proof: delta commitment mismatch for percentage branch") else
  percentageOpeningScalar ← lift (wrapf prefix (scalarFromBytes percentageOpening "percentage opening"));
  deltaOpeningScalar ← lift (wrapf prefix (scalarFromBytes deltaOpening "delta opening"));
  claimedOpeningScalar ← lift (wrapf prefix (scalarFromBytes claimedOpening "claimed opening"));
  percentagePoint ← lift (wrapf prefix (ristrettoPoint percentageCommitment "percentage commitment"));
  deltaPoint ← lift (wrapf prefix (ristrettoPoint deltaCommitment "delta commitment"));
  claimedPoint ← lift (wrapf prefix (ristrettoPoint claimedCommitment "claimed commitment"));
  openingBasepoint ← lift (wrapf prefix (pedersenOpeningBasepoint service));
  let context := percentageWithCapContext percentageCommitment deltaCommitment claimedCommitment maxValue in
  above ← wrapM prefix (percentageWithCapAboveProof percentageOpeningScalar deltaPoint claimedPoint openingBasepoint context);
  below ← wrapM prefix (percentageWithCapBelowProof percentagePoint deltaOpeningScalar deltaAmount claimedOpeningScalar maxValue
            openingBasepoint context);
  let aboveBytes := percentageWithCapProofBytes above in
  let belowBytes := percentageWithCapProofBytes below in
  let belowMax := if decide (percentageAmount < maxValue) then 1 else 0 in
  mret (mkProofData 5 context (zip_with (ConstantTimeSelect belowMax) belowBytes aboveBytes)).

Definition VerifyPercentageWithCapProof service (data : ZKProofData) : outcome error unit :=
  classifyInvalidProof (
  let prefix := "verify percentage with cap proof"%string in
  let ctx := Context_ data in
  let prf := Proof_ data in
  if decide (Discriminator data ≠ 5 ∨ len ctx ≠ 104 ∨ len prf ≠ 256) then
    Err (errNew "verify percentage with cap proof: invalid proof data") else
  percentage ← wrapf prefix (ristrettoPoint (sub 0 32 ctx) "percentage commitment");
  delta ← wrapf prefix (ristrettoPoint (sub 32 64 ctx) "delta commitment");
  claimed ← wrapf prefix (ristrettoPoint (sub 64 96 ctx) "claimed commitment");
  if IsIdentity percentage || IsIdentity delta || IsIdentity claimed then
    Err (errNew "verify percentage with cap proof: identity context point") else
  proof ← wrapf prefix (parsePercentageWithCapProof prf);
  let transcript := percentageWithCapTranscript ctx in
  let transcript := appendTranscriptPoint transcript (str "Y_max_proof") (sub 0 32 prf) in
  let transcript := appendTranscriptPoint transcript (str "Y_delta") (sub 96 128 prf) in
  let transcript := appendTranscriptPoint transcript (str "Y_claimed") (sub 128 160 prf) in
  '(challenge, transcript) ← wrapf prefix (transcriptChallengeScalar transcript (str "c"));
  let equalityChallenge := sSub challenge (cMax proof) in
  let transcript := appendTranscriptScalar transcript (str "z_max") (sub 32 64 prf) in
  let transcript := appendTranscriptScalar transcript (str "c_max_proof") (sub 64 96 prf) in
  let transcript := appendTranscriptScalar transcript (str "z_x") (sub 160 192 prf) in
  let transcript := appendTranscriptScalar transcript (str "z_delta_real") (sub 192 224 prf) in
  let transcript := appendTranscriptScalar transcript (str "z_claimed") (sub 224 256 prf) in
  '(batching, _) ← wrapf prefix (transcriptChallengeScalar transcript (str "w"));
  openingBasepoint ← wrapf prefix (pedersenOpeningBasepoint service);
  let maxValue := SetUint64 (le_val (sub 96 104 ctx)) in
  let batchingSquared := sMul batching batching in
  let check := MultiscalarMulVartime
    [cMax proof; sNeg (sMul (cMax proof) maxValue); sNeg (zMax proof); sOne;
     sMul batching (zX proof); sMul batching (zDelta proof); sNeg (sMul batching equalityChallenge); sNeg batching;
     sMul batchingSquared (zX proof); sMul batchingSquared (zClaimed proof);
     sNeg (sMul batchingSquared equalityChallenge); sNeg batchingSquared]
    [percentage; BASEPOINT; openingBasepoint; yMax proof;
     BASEPOINT; openingBasepoint; delta; yDelta proof;
     BASEPOINT; openingBasepoint; claimed; yClaimed proof] in
  if IsIdentity check then Ok tt else Err (errNew "verify percentage with cap proof: algebraic relation")).
End validity.
