(* ===== verification/ValiditySpec.v ===== *)
(** ValiditySpec: the proofs of [Validity] are complete: grouped-ciphertext validity
    for any number of handles, alone or batched, and percentage with a cap on both of
    its branches. *)
From Stdlib Require Import ZArith Lia Field.
From stdpp Require Import base numbers gmap strings list.
From S2P Require Import Prelude Keys Sha3 Ristretto ToyGroup Mnemonic ElGamal ElGamalSpec Sigma SigmaSpec Validity.

Open Scope Z_scope.

Section validity.
Context `{R : Ristretto} {L : RistrettoLaws R} {Rnd : Random} {M : Merlin} {ML : MerlinLaws M}.

#[local] Definition sDiv (a b : Scalar) : Scalar := sMul a (sInvert b).
#[local] Lemma validity_field : field_theory sNew sOne sAdd sMul sSub sNeg sDiv sInvert eq.
Proof. exact scalar_field. Qed.
Add Field validity_field : validity_field.

Implicit Types service : ConfidentialTransferService.

(** * Data in blocks of 32 bytes *)

Definition block (i : nat) (data : bytes) : bytes := sub (i * 32) ((i + 1) * 32) data.
Abbreviation blocks_ok := (Forall (λ b : bytes, length b = 32%nat)).

Lemma block_concat bs i b : blocks_ok bs → bs !! i = Some b → block i (concat bs) = b.
Proof.
  unfold block. revert i. induction bs as [|b0 bs IH]; intros [|i] Hb Hi; try done; apply Forall_cons in Hb as [H0 Hb]; cbn [concat].
  - injection Hi as ->. by apply sub_hit.
  - rewrite (sub_skip _ _ 32) by lia. rewrite <-(IH i Hb Hi). f_equal; lia.
Qed.

Lemma length_concat_blocks bs : blocks_ok bs → length (concat bs) = (32 * length bs)%nat.
Proof. induction 1 as [|b bs Hb _ IH]; [done|]. cbn. rewrite length_app, IH, Hb. lia. Qed.

Lemma encoded_blocks ps : blocks_ok (SetRistrettoPoint <$> ps).
Proof. apply Forall_fmap, Forall_true. intros p. apply SetRistrettoPoint_length. Qed.

Lemma scalar_blocks ss : blocks_ok (ToBytes <$> ss).
Proof. apply Forall_fmap, Forall_true. intros s. apply ToBytes_length. Qed.

Lemma drop_cons_lookup {A} (l : list A) i x k : drop i l = x :: k → l !! i = Some x ∧ drop (S i) l = k.
Proof.
  intros H. split.
  - rewrite <-(Nat.add_0_r i), <-lookup_drop, H. done.
  - replace (S i) with (i + 1)%nat by lia. rewrite <-drop_drop, H. done.
Qed.

Lemma parsePoints_blocks bs n i ps rest name :
  blocks_ok bs → drop i bs = (SetRistrettoPoint <$> ps) ++ rest → length ps = n → parsePoints n i (concat bs) name = Ok ps.
Proof.
  intros Hb. revert n i. induction ps as [|p ps IH]; intros n i Hd <-; [done|]. cbn [parsePoints length].
  apply drop_cons_lookup in Hd as [Hi Hd]. fold (block i (concat bs)). rewrite (block_concat _ _ _ Hb Hi), ristrettoPoint_encoded.
  obind. rewrite (IH _ (S i)) by done. done.
Qed.

Lemma parseCommitments_validity bs handles n i ps rest t :
  blocks_ok bs → drop i bs = (SetRistrettoPoint <$> ps) ++ rest → length ps = n →
  (∀ j p, ps !! j = Some p → (i + j < handles)%nat → p ≠ identity) →
  parseValidityCommitments n i handles (concat bs) t = Ok (ps, appendPoints equalityCommitmentLabel i t (SetRistrettoPoint <$> ps)).
Proof.
  intros Hb. revert n i t. induction ps as [|p ps IH]; intros n i t Hd <- Hid; [done|]. cbn [parseValidityCommitments length].
  apply drop_cons_lookup in Hd as [Hi Hd]. fold (block i (concat bs)). rewrite (block_concat _ _ _ Hb Hi), ristrettoPoint_encoded.
  obind. replace (bool_decide (i < handles)%nat && IsIdentity p) with false.
  - rewrite (IH _ (S i)); [done|done|done|]. intros j q Hj Hlt. apply (Hid (S j)); [done|lia].
  - symmetry. apply andb_false_iff. destruct (decide (i < handles)%nat) as [Hlt|]; [right|left; by apply bool_decide_eq_false].
    apply bool_decide_eq_false. apply (Hid 0%nat); [done|lia].
Qed.

Lemma parseResponses_validity bs n i offset ss rest t :
  blocks_ok bs → drop (offset + i) bs = (ToBytes <$> ss) ++ rest → length ss = n →
  parseValidityResponses n i offset (concat bs) t = Ok (ss, appendScalars validityResponseLabel i t (ToBytes <$> ss)).
Proof.
  intros Hb. revert n i t. induction ss as [|s ss IH]; intros n i t Hd <-; [done|]. cbn [parseValidityResponses length].
  apply drop_cons_lookup in Hd as [Hi Hd]. fold (block (offset + i) (concat bs)).
  rewrite (block_concat _ _ _ Hb Hi), scalarFromBytes_encoded. obind.
  rewrite (IH _ (S i)); [done| |done]. by replace (offset + S i)%nat with (S (offset + i)) by lia.
Qed.

(** * Grouped ciphertexts *)

Definition groupPoints (amount r : Scalar) (keys : list Point) : list Point :=
  pAdd (pMul BASEPOINT amount) (pMul openingPoint r) :: ((λ k, pMul k r) <$> keys).

Lemma groupedOf_blocks amount r keys : groupedOf amount r keys = concat (SetRistrettoPoint <$> groupPoints amount r keys).
Proof. unfold groupedOf, groupPoints. rewrite fmap_cons. cbn [concat]. by rewrite <-list_fmap_compose. Qed.

Lemma encryptHandles_inv r keys hs : encryptHandles r keys = Ok hs → ∃ ks, keys = SetRistrettoPoint <$> ks.
Proof.
  revert hs. induction keys as [|k keys IH]; intros hs H; [by exists []|]. cbn [encryptHandles] in H.
  ostep H p Hp. ostep H rest Hr. apply ristrettoPoint_inv in Hp as ->. destruct (IH _ Hr) as [ks ->]. by exists (p :: ks).
Qed.

Lemma encryptGroupedElGamal_inv service keys amount opening ct :
  service_ok service → encryptGroupedElGamal service keys amount opening = Ok ct →
  ∃ ks r, keys = SetRistrettoPoint <$> ks ∧ opening = ToBytes r ∧ ct = groupedOf (SetUint64 amount) r ks.
Proof.
  intros Hs H. assert (H0 := H). unfold encryptGroupedElGamal in H. ostep H r E. ostep H B E2. ostep H hs E3.
  apply scalarFromBytes_inv in E as ->. apply encryptHandles_inv in E3 as [ks ->].
  rewrite encryptGroupedElGamal_of in H0 by done. injection H0 as <-. by exists ks, r.
Qed.

(** What [checkCiphertexts] establishes, against the keys found by the first one. *)
Lemma checkCiphertexts_inv service ks index ciphertexts amounts openings :
  service_ok service →
  checkCiphertexts service (SetRistrettoPoint <$> ks) index ciphertexts amounts openings = Ok tt →
  length amounts = length ciphertexts → length openings = length ciphertexts →
  ∃ rs, openings = ToBytes <$> rs ∧ ciphertexts = zip_with (λ a r, groupedOf (SetUint64 a) r ks) amounts rs.
Proof.
  intros Hs. revert index amounts openings.
  induction ciphertexts as [|ct cts IH]; intros index [|a amounts] [|o openings] H Ha Ho; try done; [by exists []|].
  cbn [checkCiphertexts] in H. ostep H expected E. rewrite wrapf_ok in E. gcheck H. apply dec_stable_eq in n as <-.
  apply encryptGroupedElGamal_inv in E as (ks' & r & Hk & -> & ->); [|done].
  assert (ks' = ks) as ->.
  { symmetry. exact (list_fmap_eq_inj _ SetRistrettoPoint_inj _ _ Hk). }
  destruct (IH _ _ _ H) as (rs & -> & ->); [by injection Ha|by injection Ho|]. by exists (r :: rs).
Qed.

Lemma msm_app s1 s2 p1 p2 : length s1 = length p1 → msm (s1 ++ s2) (p1 ++ p2) = pAdd (msm s1 p1) (msm s2 p2).
Proof.
  revert p1. induction s1 as [|s s1 IH]; intros [|p p1] Hl; try done; cbn.
  - by rewrite pAdd_comm, pAdd_identity.
  - rewrite IH by (by injection Hl). by rewrite pAdd_assoc.
Qed.

Lemma handleTerms_zero w p z c r nonce keys :
  z = sAdd (sMul c r) nonce →
  let '(scalars, points) := handleTerms w p z c keys ((λ k, pMul k r) <$> keys) ((λ k, pMul k nonce) <$> keys) in
  length scalars = length points ∧ msm scalars points = identity.
Proof.
  intros ->. revert p. induction keys as [|k keys IH]; intros p; [done|]. rewrite !fmap_cons. cbn [handleTerms].
  specialize (IH (sMul p w)). destruct (handleTerms w (sMul p w) _ c keys _ _) as [ss ps]. destruct IH as [Hl Hz].
  split; [cbn; by rewrite Hl|]. cbn [msm]. rewrite Hz. module_eq; ring.
Qed.

Lemma validityCommitments_of nonce keys :
  validityCommitments nonce (SetRistrettoPoint <$> keys) = Ok (SetRistrettoPoint <$> ((λ k, pMul k nonce) <$> keys)).
Proof.
  induction keys as [|k keys IH]; [done|]. rewrite !fmap_cons. cbn [validityCommitments]. rewrite ristrettoPoint_encoded. obind.
  rewrite IH. obind. by rewrite pedersenCommitment_eq.
Qed.

(** The core of the proof, for the points of a grouped ciphertext. *)
Lemma validity_direct_complete service keys amount opening t random proof random' :
  service_ok service →
  generateGroupedCiphertextValidityProofDirect service (SetRistrettoPoint <$> keys) amount opening t random = (Ok proof, random') →
  length proof = ((length keys + 3) * 32)%nat ∧
  ((∀ i, (i < length keys)%nat → block i proof ≠ zeros 32) →
   verifyGroupedCiphertextValidityProofDirect service keys (groupPoints amount opening keys) proof t = Ok tt).
Proof.
  intros Hs H. unfold generateGroupedCiphertextValidityProofDirect in H. rewrite length_fmap in H.
  step H on E1. step H an E2. step H B E3. rewrite pedersenOpeningBasepoint_ok in E3 by done. injection E3 as <-.
  step H rest E4. rewrite validityCommitments_of in E4. injection E4 as <-. rewrite pedersenCommitment_eq in H.
  rewrite MultiscalarMul_spec in H by done.
  set (Ys := msm [on; an] [openingPoint; BASEPOINT] :: ((λ k, pMul k on) <$> keys)).
  change (SetRistrettoPoint (msm [on; an] [openingPoint; BASEPOINT]) :: _) with (SetRistrettoPoint <$> Ys) in H.
  step H c E5. destruct c as [challenge t1]. step H w E6. destruct w as [batching t2]. apply mret_inv in H as [<- _].
  set (zs := [sAdd (sMul challenge opening) on; sAdd (sMul challenge amount) an]) in *.
  rewrite <-concat_app. set (bs := (SetRistrettoPoint <$> Ys) ++ (ToBytes <$> zs)).
  assert (Hb : blocks_ok bs) by (apply Forall_app; split; [apply encoded_blocks|apply scalar_blocks]).
  assert (HY : length Ys = (length keys + 1)%nat) by (unfold Ys; cbn; rewrite length_fmap; lia).
  split; [rewrite length_concat_blocks by done; unfold bs; rewrite length_app, !length_fmap, HY; cbn; lia|].
  intros Hid. unfold verifyGroupedCiphertextValidityProofDirect.
  rewrite (parseCommitments_validity bs _ _ 0 Ys (ToBytes <$> zs)); [|done|done|done|].
  - obind. rewrite E5. obind. rewrite (parseResponses_validity bs 2 0 _ zs []); [|done| |done].
    + obind. rewrite E6. obind. rewrite pedersenOpeningBasepoint_ok by done. obind.
      cbn [groupPoints drop Ys]. unfold at_s, at_p. cbn [nth zs groupPoints Ys].
      pose proof (handleTerms_zero batching sOne (sAdd (sMul challenge opening) on) challenge opening on keys eq_refl) as Ht.
      destruct (handleTerms _ _ _ _ _ _ _) as [ss ps]. destruct Ht as [Hl Hz].
      rewrite IsIdentity_true; [done|]. rewrite MultiscalarMul_spec by (rewrite !length_app, Hl; done).
      rewrite msm_app by done. rewrite Hz. cbn [msm]. module_eq; ring.
    + unfold bs. rewrite drop_app_length' by (rewrite length_fmap, HY; lia). by rewrite app_nil_r.
  - intros j p Hj Hlt E. apply (Hid j); [lia|]. rewrite (block_concat bs j (SetRistrettoPoint p)); [|done|].
    + rewrite E. apply SetRistrettoPoint_identity.
    + unfold bs. apply lookup_app_l_Some. by rewrite list_lookup_fmap, Hj.
Qed.

Lemma parseCiphertexts_blocks bs handles i gs :
  blocks_ok bs → drop i bs = SetRistrettoPoint <$> concat gs →
  Forall (λ g, length g = (handles + 1)%nat ∧ at_p g 0 ≠ identity) gs →
  parseCiphertexts (length gs) i handles (concat bs) = Ok gs.
Proof.
  intros Hb. revert i. induction gs as [|g gs IH]; intros i Hd Hg; [done|]. apply Forall_cons in Hg as [[Hl Hi] Hg].
  cbn [parseCiphertexts length]. cbn [concat] in Hd. rewrite fmap_app in Hd.
  rewrite (parsePoints_blocks bs _ i g (SetRistrettoPoint <$> concat gs)) by done. obind.
  replace (IsIdentity (at_p g 0)) with false by (symmetry; by apply bool_decide_eq_false).
  rewrite (IH (i + handles + 1)%nat); [done| |done].
  replace (i + handles + 1)%nat with (i + (handles + 1))%nat by lia. rewrite <-drop_drop, Hd.
  rewrite drop_app_length' by (by rewrite length_fmap). done.
Qed.

Lemma batchedValues_inv (keys : list bytes) amounts rs count t a r t' :
  batchedValues keys amounts (ToBytes <$> rs) count t = Ok (a, r, t') →
  ∃ a0 r0, head amounts = Some a0 ∧ head rs = Some r0 ∧
    if decide (count = 2)%nat then
      ∃ a1 r1 batching, amounts !! 1%nat = Some a1 ∧ rs !! 1%nat = Some r1
        ∧ transcriptChallengeScalar (appendBatchedValidityDomainSeparator t (length keys)) (str "t") = Ok (batching, t')
        ∧ a = sAdd (SetUint64 a0) (sMul (SetUint64 a1) batching) ∧ r = sAdd r0 (sMul r1 batching)
    else a = SetUint64 a0 ∧ r = r0 ∧ t' = t.
Proof.
  intros H. unfold batchedValues in H. ostep H a0 E0. ostep H o0 E1. ostep H r0 E2. rewrite wrapf_ok in E2.
  apply scalarFromBytes_inv in E2 as ->.
  destruct amounts as [|a0' amounts]; [done|]. destruct rs as [|r0' rs]; [done|].
  cbn in E0, E1. injection E0 as ->. injection E1 as E1. apply (f_equal NewFromCanonicalBytes) in E1.
  rewrite !NewFromCanonicalBytes_ToBytes in E1. injection E1 as ->.
  exists a0, r0. split; [done|]. split; [done|]. case_decide as Hc; [|by injection H as <- <- <-].
  ostep H cb E3. destruct cb as [batching t1]. rewrite wrapf_ok in E3. ostep H a1 E4. ostep H o1 E5. ostep H r1 E6. rewrite wrapf_ok in E6.
  apply scalarFromBytes_inv in E6 as ->. injection H as <- <- <-.
  unfold idx in E4, E5. cbn in E4, E5. destruct amounts as [|a1' amounts]; [done|]. destruct rs as [|r1' rs]; [done|].
  cbn in E4, E5. injection E4 as ->. injection E5 as E5. apply (f_equal NewFromCanonicalBytes) in E5.
  rewrite !NewFromCanonicalBytes_ToBytes in E5. injection E5 as ->.
  exists a1, r1, batching. done.
Qed.

Lemma groupPoints_batched a0 r0 a1 r1 t keys :
  zip_with (λ lo hi, pAdd lo (pMul hi t)) (groupPoints a0 r0 keys) (groupPoints a1 r1 keys)
  = groupPoints (sAdd a0 (sMul a1 t)) (sAdd r0 (sMul r1 t)) keys.
Proof.
  unfold groupPoints. cbn [zip_with]. f_equal; [module_eq; ring|].
  induction keys as [|k keys IH]; [done|]. rewrite !fmap_cons. cbn [zip_with]. rewrite IH. f_equal. module_eq; ring.
Qed.

(** The blocks of the context that may not be the identity: the first public key,
    the second of three, and the commitment of every ciphertext. *)
Definition checkedContext (handles count : nat) : list nat :=
  0%nat :: (if decide (handles = 3)%nat then [1%nat] else []) ++ ((λ j, handles + j * (handles + 1))%nat <$> seq 0 count).

Lemma checkedContext_keys handles count :
  0%nat ∈ checkedContext handles count ∧ (handles = 3%nat → 1%nat ∈ checkedContext handles count).
Proof.
  unfold checkedContext. split; [by left|]. intros ->. rewrite decide_True by done. right. by left.
Qed.

Lemma keys_checked keys (checked : list nat) :
  (length keys = 2 ∨ length keys = 3)%nat → (∀ i p, keys !! i = Some p → i ∈ checked → p ≠ identity) →
  0%nat ∈ checked ∧ (length keys = 3%nat → 1%nat ∈ checked) →
  IsIdentity (at_p keys 0) || bool_decide (length keys = 3)%nat && IsIdentity (at_p keys 1) = false.
Proof.
  intros Hh Hat [H0 H1]. destruct keys as [|k0 [|k1 keys]]; [cbn in Hh; lia|cbn in Hh; lia|]. unfold at_p. cbn [nth].
  apply orb_false_iff. split; [apply bool_decide_eq_false, (Hat 0%nat); done|].
  apply andb_false_iff. destruct (decide (length (k0 :: k1 :: keys) = 3%nat)) as [H3|H3]; [right|left; by apply bool_decide_eq_false].
  apply bool_decide_eq_false, (Hat 1%nat); [done|]. by apply H1.
Qed.

Lemma concat_lookup_head {A} (gs : list (list A)) n j p g :
  Forall (λ g, length g = n) gs → gs !! j = Some (p :: g) → concat gs !! (j * n)%nat = Some p.
Proof.
  revert j. induction gs as [|g0 gs IH]; intros [|j] Hf Hj; try done; apply Forall_cons in Hf as [H0 Hf]; cbn [concat].
  - injection Hj as ->. done.
  - rewrite lookup_app_r by lia. replace (S j * n - length g0)%nat with (j * n)%nat by lia. by apply IH.
Qed.

(** Grouped-ciphertext validity proofs are complete, for two or three handles
    and for one ciphertext or a batch of two: the proof generated for encryptions of
    the amounts under the openings is accepted when no checked point of the context
    and none of the first commitments of the proof is the identity. *)
Lemma validity_complete service (publicKeys ciphertexts : list bytes) (amounts : list Z) (openings : list bytes)
  (discriminator : Z) (label : bytes) (random random' : Reader) (data : ZKProofData) :
  service_ok service → (length publicKeys = 2 ∨ length publicKeys = 3)%nat → (length ciphertexts = 1 ∨ length ciphertexts = 2)%nat →
  length amounts = length ciphertexts → length openings = length ciphertexts →
  generateGroupedCiphertextValidityProof service publicKeys ciphertexts amounts openings discriminator label random = (Ok data, random') →
  Forall (λ i, block i (Context_ data) ≠ zeros 32) (checkedContext (length publicKeys) (length ciphertexts)) →
  Forall (λ i, block i (Proof_ data) ≠ zeros 32) (seq 0 (length publicKeys)) →
  verifyGroupedCiphertextValidityProof service data (length publicKeys) (length ciphertexts) discriminator label = Ok tt.
Proof.
  intros Hs Hh Hc Ha Ho H. unfold generateGroupedCiphertextValidityProof in H. step H u E1. destruct u.
  assert (∃ keys, publicKeys = SetRistrettoPoint <$> keys) as [keys ->].
  { destruct ciphertexts as [|ct cts]; [cbn in Hc; lia|]. destruct amounts as [|a amounts]; [done|]. destruct openings as [|o openings]; [done|].
    cbn [checkCiphertexts] in E1. ostep E1 e E. rewrite wrapf_ok in E. apply encryptGroupedElGamal_inv in E as (ks & _ & -> & _); [|done]. by exists ks. }
  apply checkCiphertexts_inv in E1 as (rs & -> & ->); [|done|done|done].
  rewrite length_fmap in *.
  assert (Hlen : length (zip_with (λ a r, groupedOf (SetUint64 a) r keys) amounts rs) = length amounts) by done.
  rewrite Hlen in *. clear Hlen.
  step H v E2. destruct v as [[a r] t']. step H proof E3. apply mret_inv in H as [<- _]. cbn [Context_ Proof_].
  apply validity_direct_complete in E3 as [Hlp Hdirect]; [|done].
  set (gs := zip_with (λ a r, groupPoints (SetUint64 a) r keys) amounts rs).
  assert (Hgs : concat (zip_with (λ a r, groupedOf (SetUint64 a) r keys) amounts rs) = concat (SetRistrettoPoint <$> concat gs)).
  { unfold gs. clear. revert rs. induction amounts as [|a amounts IH]; intros [|r rs]; try done. cbn [zip_with concat].
    rewrite IH, groupedOf_blocks, fmap_app, concat_app. done. }
  rewrite Hgs, <-concat_app in *. rewrite <-fmap_app in *. set (bs := SetRistrettoPoint <$> keys ++ concat gs) in *.
  assert (Hb : blocks_ok bs) by apply encoded_blocks.
  rewrite length_fmap in Ho. intros Hctx Hprf.
  assert (Hat : ∀ i p, (keys ++ concat gs) !! i = Some p → i ∈ checkedContext (length keys) (length amounts) → p ≠ identity).
  { intros i p Hi Hin E. rewrite Forall_forall in Hctx. apply (Hctx i Hin).
    rewrite (block_concat bs i (SetRistrettoPoint p)); [by rewrite E; apply SetRistrettoPoint_identity|done|].
    unfold bs. by rewrite list_lookup_fmap, Hi. }
  assert (Hlg : Forall (λ g, length g = (length keys + 1)%nat) gs).
  { unfold gs. clear. revert rs. induction amounts as [|a amounts IH]; intros [|r rs]; try constructor; [|apply IH].
    unfold groupPoints. cbn. rewrite length_fmap. lia. }
  assert (Hln : length gs = length amounts) by (unfold gs; rewrite length_zip_with; lia).
  assert (Hlc : length (concat gs) = (length amounts * (length keys + 1))%nat).
  { rewrite <-Hln. clear -Hlg. induction Hlg as [|g gs Hg _ IH]; [done|]. cbn. rewrite length_app, IH, Hg. lia. }
  unfold verifyGroupedCiphertextValidityProof. cbn [Discriminator Context_ Proof_].
  rewrite decide_False.
  2:{ unfold len. rewrite length_concat_blocks by done. unfold bs. rewrite length_fmap, length_app, Hlc, Hlp. lia. }
  rewrite (parsePoints_blocks bs _ 0 keys (SetRistrettoPoint <$> concat gs)); [|done|by unfold bs; rewrite fmap_app|done]. obind.
  rewrite (keys_checked keys _ Hh (λ i p Hi, Hat i p (lookup_app_l_Some _ _ _ _ Hi))) by (apply checkedContext_keys).
  rewrite <-Hln at 1. rewrite (parseCiphertexts_blocks bs (length keys) (length keys) gs); [|done| |].
  - obind. apply batchedValues_inv in E2 as (a0 & r0 & Ha0 & Hr0 & Hcase). rewrite length_fmap in Hcase.
    assert (Hdir := Hdirect ltac:(intros i Hi; rewrite Forall_forall in Hprf; apply Hprf, elem_of_seq; lia)).
    destruct (decide (length amounts = 2%nat)) as [H2|H2].
    + destruct Hcase as (a1 & r1 & batching & Ha1 & Hr1 & Et & -> & ->). rewrite Et. obind.
      destruct amounts as [|? [|? ?]]; try done. destruct rs as [|? [|? ?]]; try done.
      cbn in Ha0, Hr0, Ha1, Hr1. simplify_eq. cbn [gs zip_with nth]. rewrite groupPoints_batched. by rewrite Hdir.
    + destruct Hcase as (-> & -> & ->). obind. destruct amounts as [|? ?]; [done|]. destruct rs as [|? ?]; [done|].
      cbn in Ha0, Hr0. simplify_eq. cbn [gs zip_with nth]. by rewrite Hdir.
  - unfold bs. rewrite fmap_app. by rewrite drop_app_length' by (by rewrite length_fmap).
  - apply Forall_lookup. intros j g Hj. pose proof (proj1 (Forall_lookup _ _) Hlg j g Hj) as Hg. split; [done|].
    destruct g as [|p g]; [cbn in Hg; lia|]. unfold at_p. cbn [nth]. apply (Hat (length keys + j * (length keys + 1))%nat).
    + rewrite lookup_app_r by lia. replace (_ - _)%nat with (j * (length keys + 1))%nat by lia.
      by apply (concat_lookup_head _ _ _ _ g).
    + unfold checkedContext. apply elem_of_cons. right. apply elem_of_app. right. apply list_elem_of_fmap.
      exists j. split; [done|]. apply elem_of_seq. apply lookup_lt_Some in Hj. lia.
Qed.

(** What is accepted has none of the checked points the identity. *)
Lemma parsePoints_inv n i data name ps :
  parsePoints n i data name = Ok ps → length ps = n ∧ ∀ j p, ps !! j = Some p → block (i + j) data = SetRistrettoPoint p.
Proof.
  revert i ps. induction n as [|n IH]; intros i ps H; cbn [parsePoints] in H; [by injection H as <-|].
  ostep H p E1. apply ristrettoPoint_inv in E1. ostep H ps' E2. injection H as <-. apply IH in E2 as [Hl Hp].
  split; [cbn; lia|]. intros [|j] q Hj; cbn in Hj.
  - injection Hj as <-. by rewrite Nat.add_0_r.
  - rewrite <- (Hp j q Hj). f_equal. lia.
Qed.

Lemma head_proper (ps : list Point) i data :
  (∀ j p, ps !! j = Some p → block (i + j) data = SetRistrettoPoint p) → (0 < length ps)%nat →
  IsIdentity (at_p ps 0) = false → block i data ≠ zeros 32.
Proof.
  intros Hp Hl Hid. destruct ps as [|p ps]; [cbn in Hl; lia|]. pose proof (Hp 0%nat p eq_refl) as H. rewrite Nat.add_0_r in H.
  rewrite H. apply encoded_identity. by apply bool_decide_eq_false in Hid.
Qed.

Lemma parseCiphertexts_proper n i handles data gs :
  parseCiphertexts n i handles data = Ok gs → ∀ j, (j < n)%nat → block (i + j * (handles + 1)) data ≠ zeros 32.
Proof.
  revert i gs. induction n as [|n IH]; intros i gs H j Hj; [lia|]. cbn [parseCiphertexts] in H.
  ostep H ps E1. rewrite wrapf_ok in E1. apply parsePoints_inv in E1 as [Hl Hp].
  destruct (IsIdentity (at_p ps 0)) eqn:Hid; [done|]. ostep H rest E2. destruct j as [|j].
  - rewrite Nat.add_0_r. eapply head_proper; [exact Hp|lia|done].
  - replace (i + S j * (handles + 1))%nat with (i + handles + 1 + j * (handles + 1))%nat by lia. eapply IH; [exact E2|lia].
Qed.

Lemma parseCommitments_proper n i handles proof t r :
  parseValidityCommitments n i handles proof t = Ok r → ∀ j, (j < n)%nat → (i + j < handles)%nat → block (i + j) proof ≠ zeros 32.
Proof.
  revert i t r. induction n as [|n IH]; intros i t r H j Hj Hlt; [lia|]. cbn [parseValidityCommitments] in H.
  ostep H p E1. apply ristrettoPoint_inv in E1. destruct (bool_decide (i < handles)%nat && IsIdentity p) eqn:Hid; [done|].
  ostep H r' E2. destruct j as [|j].
  - rewrite Nat.add_0_r in *. fold (block i proof) in E1. rewrite E1. apply encoded_identity. intros ->.
    rewrite bool_decide_true in Hid by lia. unfold IsIdentity in Hid. by rewrite bool_decide_true in Hid.
  - replace (i + S j)%nat with (S i + j)%nat in * by lia. destruct r' as [ps t']. eapply IH; [exact E2|lia|lia].
Qed.

Lemma validity_proper service data handles count discriminator label :
  (handles = 2 ∨ handles = 3)%nat →
  verifyGroupedCiphertextValidityProof service data handles count discriminator label = Ok tt →
  Forall (λ i, block i (Context_ data) ≠ zeros 32) (checkedContext handles count) ∧
  Forall (λ i, block i (Proof_ data) ≠ zeros 32) (seq 0 handles).
Proof.
  intros Hh H. unfold verifyGroupedCiphertextValidityProof in H. gcheck H.
  ostep H keys E1. rewrite wrapf_ok in E1. apply parsePoints_inv in E1 as [Hl Hp].
  destruct (IsIdentity (at_p keys 0)) eqn:Hid; [done|]. cbn [orb] in H.
  destruct (bool_decide (handles = 3)%nat && IsIdentity (at_p keys 1)) eqn:H1; [done|].
  ostep H gs E2. pose proof (parseCiphertexts_proper _ _ _ _ _ E2) as Hg. ostep H b E3. destruct b as [ct t].
  rewrite wrapf_ok in H. unfold verifyGroupedCiphertextValidityProofDirect in H. rewrite Hl in H. ostep H cs E4.
  pose proof (parseCommitments_proper _ _ _ _ _ _ E4) as Hc. split.
  - unfold checkedContext. apply Forall_cons. split; [eapply head_proper; [exact Hp|lia|done]|]. apply Forall_app. split.
    + destruct (decide (handles = 3%nat)) as [H3|H3]; [|done]. apply Forall_singleton. rewrite bool_decide_true in H1 by done. cbn in H1. subst handles.
      destruct keys as [|k0 [|k1 keys]]; [done|done|]. pose proof (Hp 1%nat k1 eq_refl) as Hb. cbn [Nat.add] in Hb. rewrite Hb.
      apply encoded_identity. by apply bool_decide_eq_false in H1.
    + apply Forall_fmap, Forall_forall. intros j Hj%elem_of_seq. apply Hg. lia.
  - apply Forall_forall. intros j Hj%elem_of_seq. apply (Hc j); lia.
Qed.

(** * Percentage with a cap *)

Lemma pAdd_eq_sub p q r : pAdd p q = r → q = pSub r p.
Proof. intros <-. module_eq; ring. Qed.

(** The points of a percentage proof that the verifier checks: the context and the
    blocks 0, 3 and 4 of the proof. *)
Definition percentage_points (data : ZKProofData) : Prop :=
  sub 0 32 (Context_ data) ≠ zeros 32 ∧ sub 32 64 (Context_ data) ≠ zeros 32 ∧ sub 64 96 (Context_ data) ≠ zeros 32 ∧
  sub 0 32 (Proof_ data) ≠ zeros 32 ∧ sub 96 128 (Proof_ data) ≠ zeros 32 ∧ sub 128 160 (Proof_ data) ≠ zeros 32.

Lemma percentage_accepts service Pc Dc Cc maxValue v challenge t' :
  service_ok service → 0 ≤ maxValue < 2 ^ 64 →
  let context := SetRistrettoPoint Pc ++ SetRistrettoPoint Dc ++ SetRistrettoPoint Cc ++ le_bytes 8 maxValue in
  transcriptChallengeScalar (appendPercentageWithCapCommitments (percentageWithCapTranscript context) (yMax v) (yDelta v) (yClaimed v))
    (str "c") = Ok (challenge, t') →
  pAdd (pMul Pc (cMax v)) (yMax v) = pAdd (pMul BASEPOINT (sMul (cMax v) (SetUint64 maxValue))) (pMul openingPoint (zMax v)) →
  pAdd (pMul Dc (sSub challenge (cMax v))) (yDelta v) = pAdd (pMul BASEPOINT (zX v)) (pMul openingPoint (zDelta v)) →
  pAdd (pMul Cc (sSub challenge (cMax v))) (yClaimed v) = pAdd (pMul BASEPOINT (zX v)) (pMul openingPoint (zClaimed v)) →
  let data := mkProofData 5 context (percentageWithCapProofBytes v) in
  VerifyPercentageWithCapProof service data = Ok tt ↔ percentage_points data.
Proof.
  intros Hs Hm context Ec H1 H2 H3. subst context. unfold VerifyPercentageWithCapProof, percentage_points.
  rewrite classify_ok. cbn [Discriminator Context_ Proof_].
  destruct v as [vYMax vZMax vCMax vYDelta vYClaimed vZX vZDelta vZClaimed]. unfold percentageWithCapProofBytes.
  unfold appendPercentageWithCapCommitments in Ec. cbn [yMax zMax cMax yDelta yClaimed zX zDelta zClaimed] in *.
  rewrite !pedersenCommitment_eq in *. unfold parsePercentageWithCapProof. sub_parts.
  rewrite decide_False by (unfold len; rewrite !length_app, !SetRistrettoPoint_length, !ToBytes_length, le_bytes_length; lia).
  rewrite !ristrettoPoint_encoded, !scalarFromBytes_encoded, pedersenOpeningBasepoint_ok by done. obind.
  rewrite !IsIdentity_encoded.
  case_bool_decide; cbn [orb]; [split; [done|naive_solver]|]. case_bool_decide; cbn [orb]; [split; [done|naive_solver]|].
  case_bool_decide; cbn [orb]; [split; [done|naive_solver]|]. obind.
  case_bool_decide; cbn [orb]; obind; [split; [done|naive_solver]|]. case_bool_decide; cbn [orb]; obind; [split; [done|naive_solver]|].
  case_bool_decide; cbn [orb]; obind; [split; [done|naive_solver]|].
  rewrite Ec. obind. match goal with |- context [transcriptChallengeScalar ?t ?l] => destruct (challenge_ok t l) as (w & t2 & ->) end. obind.
  rewrite (IsIdentity_true (MultiscalarMulVartime _ _)); [naive_solver|].
  rewrite MultiscalarMulVartime_spec by done.
  cbn [msm yMax zMax cMax yDelta yClaimed zX zDelta zClaimed]. rewrite (sub_all 8 (le_bytes 8 maxValue)) by done.
  rewrite le_val_le_bytes by (change (256 ^ Z.of_nat 8) with (2 ^ 64); lia).
  rewrite (pAdd_eq_sub _ _ _ H1), (pAdd_eq_sub _ _ _ H2), (pAdd_eq_sub _ _ _ H3). module_eq; ring.
Qed.

Lemma zip_select (v : Z) (x y : bytes) :
  length x = length y → zip_with (ConstantTimeSelect v) x y = if decide (v = 1) then x else y.
Proof.
  revert y. induction x as [|a x IH]; intros [|b y] Hl; try done; cbn [zip_with]; [by case_decide|].
  rewrite IH by (by injection Hl). unfold ConstantTimeSelect. by case_decide.
Qed.

Lemma percentageWithCapProofBytes_length v : length (percentageWithCapProofBytes v) = 256%nat.
Proof.
  unfold percentageWithCapProofBytes. rewrite !pedersenCommitment_eq, !length_app, !SetRistrettoPoint_length, !ToBytes_length. done.
Qed.

(** Percentage-with-cap proofs are complete on both branches: for a percentage
    commitment at the cap, or below it with matching delta and claimed commitments,
    the proof selected is accepted exactly when the three commitments of the context
    and the three of the proof are not the identity. *)
Lemma percentage_complete service (percentageC percentageO : bytes) (percentageAmount : Z) (deltaC deltaO : bytes) (deltaAmount : Z)
  (claimedC claimedO : bytes) (maxValue : Z) (random random' : Reader) (data : ZKProofData) :
  service_ok service → 0 ≤ maxValue < 2 ^ 64 →
  GeneratePercentageWithCapProof service percentageC percentageO percentageAmount deltaC deltaO deltaAmount claimedC claimedO maxValue
    random = (Ok data, random') →
  (VerifyPercentageWithCapProof service data = Ok tt ↔ percentage_points data).
Proof.
  intros Hs Hm H. unfold GeneratePercentageWithCapProof in H.
  step H e1 E1. gcheck H. apply dec_stable_eq in n as <-. apply CommitPedersen_inv in E1 as (rp & -> & ->); [|done].
  step H e2 E2. gcheck H. apply dec_stable_eq in n as <-. apply CommitPedersen_inv in E2 as (rc & -> & ->); [|done].
  gcheck H. step H e3 E3. gcheck H. apply CommitPedersen_inv in E3 as (rd & -> & ->); [|done].
  step H rp' E4. rewrite scalarFromBytes_encoded in E4. injection E4 as <-.
  step H rd' E4. rewrite scalarFromBytes_encoded in E4. injection E4 as <-.
  step H rc' E4. rewrite scalarFromBytes_encoded in E4. injection E4 as <-.
  step H Pc E4. rewrite ristrettoPoint_encoded in E4. injection E4 as <-.
  step H Dc E4. apply ristrettoPoint_inv in E4 as ->.
  step H Cc E4. rewrite ristrettoPoint_encoded in E4. injection E4 as <-.
  step H B E4. rewrite pedersenOpeningBasepoint_ok in E4 by done. injection E4 as <-.
  step H above E5. step H below E6. apply mret_inv in H as [<- _]. unfold percentageWithCapContext in *.
  rewrite zip_select by (by rewrite !percentageWithCapProofBytes_length).
  destruct (decide (percentageAmount < maxValue)) as [Hlt|Hge].
  - rewrite decide_True by done. unfold percentageWithCapBelowProof in E6.
    step E6 ss E7. destruct ss as [[[[zM cM] yX] yD] yC]. step E6 c E8. destruct c as [challenge t1]. apply mret_inv in E6 as [<- _].
    assert (Hdc : pAdd (pMul BASEPOINT (SetUint64 deltaAmount)) (pMul openingPoint rd) = Dc).
    { apply SetRistrettoPoint_inj. destruct (decide (SetRistrettoPoint (pAdd (pMul BASEPOINT (SetUint64 deltaAmount)) (pMul openingPoint rd)) = SetRistrettoPoint Dc)); [done|].
      exfalso. apply n0. split; [exact Hlt|done]. }
    eapply percentage_accepts; [done|done|exact E8| | |]; cbn [yMax zMax cMax yDelta yClaimed zX zDelta zClaimed];
      rewrite !MultiscalarMul_spec by done; cbn [msm]; rewrite <-?Hdc; module_eq; ring.
  - rewrite decide_False by done. unfold percentageWithCapAboveProof in E5.
    assert (percentageAmount = maxValue) as -> by lia.
    step E5 ss E7. destruct ss as [[[[vX vD] vC] vE] vM]. step E5 c E8. destruct c as [challenge t1]. apply mret_inv in E5 as [<- _].
    eapply percentage_accepts; [done|done|exact E8| | |]; cbn [yMax zMax cMax yDelta yClaimed zX zDelta zClaimed];
      rewrite ?MultiscalarMul_spec by done; cbn [msm]; module_eq; ring.
Qed.
End validity.

(** * Witnesses *)

(** The three keys of a transfer with an auditor, and the halves of an amount. *)
Definition toyKeys : list bytes := Eval vm_compute in (λ n, SetRistrettoPoint (pubkeyOf (toyScalar n))) <$> [5; 9; 11].
Definition toyGrouped : list bytes :=
  Eval vm_compute in (λ '(a, r), groupedOf (SetUint64 a) (toyScalar r) ((λ n, pubkeyOf (toyScalar n)) <$> [5; 9; 11])) <$> [(42, 3); (6, 8)].
Definition toyOpenings : list bytes := Eval vm_compute in (λ n, ToBytes (toyScalar n)) <$> [3; 8].
Definition toyValidity : ZKProofData * @Reader toy toyRandom :=
  Eval vm_compute in
  ran (GenerateBatchedGroupedCiphertext3HandlesValidityProof zeroService toyKeys (nth 0 toyGrouped [], nth 1 toyGrouped []) (42, 6)
         (nth 0 toyOpenings [], nth 1 toyOpenings []) toyReader) (mkProofData 0 [] []).

(** A fee of 7 below a cap of 10, with a delta and a claimed value of 4. *)
Definition toyPedersen (amount r : Z) : bytes :=
  SetRistrettoPoint (pAdd (pMul BASEPOINT (SetUint64 amount)) (pMul openingPoint (toyScalar r))).
Definition toyPercentages : list bytes := Eval vm_compute in [toyPedersen 7 3; toyPedersen 4 8; toyPedersen 4 6].
Definition toyPercentage : ZKProofData * @Reader toy toyRandom :=
  Eval vm_compute in
  ran (GeneratePercentageWithCapProof zeroService (nth 0 toyPercentages []) (ToBytes (toyScalar 3)) 7 (nth 1 toyPercentages [])
         (ToBytes (toyScalar 8)) 4 (nth 2 toyPercentages []) (ToBytes (toyScalar 6)) 10 toyReader) (mkProofData 0 [] []).
