(* ===== verification/RangeProof.v ===== *)
(** RangeProof: aggregated Bulletproofs range proofs (programs/token-2022:
    confidential_range.go, confidential_range_generators.go,
    confidential_range_inner_product.go). A loop with a running position over the
    generators consumes their lists; running out of them is the panic of the index. *)
From Stdlib Require Import ZArith Lia.
From stdpp Require Import base numbers strings list.
From S2P Require Import Prelude Keys Ristretto ElGamal Sigma.

Open Scope Z_scope.

Section range.
Context `{R : Ristretto} {Rnd : Random} {M : Merlin} {Sh : Shake}.

Implicit Types service : ConfidentialTransferService.

(** * Scalar vectors *)

Record rangeVectorPolynomial := mkPolynomial { constant : list Scalar; linear : list Scalar }.

Definition scalarInnerProduct (left right : list Scalar) : outcome error Scalar :=
  if decide (len left ≠ len right) then Err (errNew "range proof inner product length mismatch")
  else Ok (foldl (λ result '(l, r), sAdd result (sMul l r)) sNew (zip left right)).

Fixpoint powersLoop (size : nat) (current value : Scalar) : list Scalar :=
  match size with
  | O => []
  | S size' => current :: powersLoop size' (sMul current value) value
  end.
Definition scalarPowers (value : Scalar) (size : nat) : list Scalar := powersLoop size sOne value.
Definition scalarPowerSum (value : Scalar) (size : nat) : Scalar := foldl sAdd sNew (scalarPowers value size).

Definition evaluateRangeVectorPolynomial (polynomial : rangeVectorPolynomial) (x : Scalar) : list Scalar :=
  zip_with (λ c l, sAdd c (sMul l x)) (constant polynomial) (linear polynomial).
Definition evaluateRangeScalarPolynomial (c l q x : Scalar) : Scalar := sAdd c (sMul x (sAdd l (sMul x q))).

Definition rangeVectorPolynomialInnerProduct (left right : rangeVectorPolynomial)
  : outcome error (Scalar * Scalar * Scalar) :=
  if decide (len (constant left) ≠ len (constant right) ∨ len (linear left) ≠ len (linear right)
             ∨ len (constant left) ≠ len (linear left)) then
    Err (errNew "range proof polynomial length mismatch") else
  t0 ← scalarInnerProduct (constant left) (constant right);
  t2 ← scalarInnerProduct (linear left) (linear right);
  let leftSum := zip_with sAdd (constant left) (linear left) in
  let rightSum := zip_with sAdd (constant right) (linear right) in
  t1 ← scalarInnerProduct leftSum rightSum;
  Ok (t0, sSub (sSub t1 t0) t2, t2).

Fixpoint randomScalars (size : nat) : GoM Reader error (list Scalar) :=
  match size with
  | O => mret []
  | S size' => value ← SetRandomM; values ← randomScalars size'; mret (value :: values)
  end.

(** [for value > 1 { value >>= 1; logarithm++ }]; [fuel] halvings are enough for a
    value below [2 ^ fuel]. *)
Fixpoint log2Loop (fuel value logarithm : nat) : nat :=
  match fuel with
  | O => logarithm
  | S fuel' => if decide (1 < value)%nat then log2Loop fuel' (Nat.div2 value) (S logarithm) else logarithm
  end.
Definition rangeLog2 (value : nat) : nat := log2Loop value value 0.

Definition powerOfTwo (size : Z) : bool := bool_decide (size ≠ 0) && bool_decide (Z.land size (size - 1) = 0).

(** * The inner product argument *)

Record rangeInnerProductProof := mkInnerProduct {
  ip_left : list PedersenCommitment; ip_right : list PedersenCommitment; ip_a : Scalar; ip_b : Scalar }.

Definition appendRangeScalar (transcript : Transcript) (label : bytes) (value : Scalar) : Transcript :=
  AppendMessage transcript label (ToBytes value).
Definition appendRangeInnerProductDomainSeparator (transcript : Transcript) (size : Z) : Transcript :=
  appendTranscriptUint64 (appendProofDomainSeparator transcript (str "inner-product")) (str "n") size.

(** One iteration of the folding loop: the commitments [L] and [R] of the round. *)
Definition roundCommitments (first : bool) (half : nat) (q : Point) (hFactors : list Scalar) (g h : list Point) (a b : list Scalar)
  : outcome error (PedersenCommitment * PedersenCommitment) :=
  let aLeft := take half a in let aRight := drop half a in
  let bLeft := take half b in let bRight := drop half b in
  let gLeft := take half g in let gRight := drop half g in
  let hLeft := take half h in let hRight := drop half h in
  cLeft ← scalarInnerProduct aLeft bRight;
  cRight ← scalarInnerProduct aRight bLeft;
  let leftScalars := if first then aLeft ++ zip_with sMul bRight (take half hFactors) else aLeft ++ bRight in
  let rightScalars := if first then aRight ++ zip_with sMul bLeft (drop half hFactors) else aRight ++ bLeft in
  let leftPoints := gRight ++ hLeft ++ [q] in
  let rightPoints := gLeft ++ hRight ++ [q] in
  Ok (pedersenCommitment (MultiscalarMul (leftScalars ++ [cLeft]) leftPoints),
      pedersenCommitment (MultiscalarMul (rightScalars ++ [cRight]) rightPoints)).

(** The folding of the four vectors under the challenge of the round. *)
Definition foldScalars (x y : Scalar) (left right : list Scalar) : list Scalar :=
  zip_with (λ l r, sAdd (sMul l x) (sMul y r)) left right.
Definition foldPoints (x y : Scalar) (left right : list Point) : list Point :=
  zip_with (λ l r, MultiscalarMul [x; y] [l; r]) left right.
Definition foldFactored (x y : Scalar) (leftFactors rightFactors : list Scalar) (left right : list Point) : list Point :=
  zip_with (λ '(fl, fr) '(l, r), MultiscalarMul [sMul x fl; sMul y fr] [l; r]) (zip leftFactors rightFactors) (zip left right).

Fixpoint innerProductLoop (fuel size : nat) (first : bool) (q : Point) (hFactors : list Scalar) (g h : list Point)
  (a b : list Scalar) (transcript : Transcript) : outcome error (rangeInnerProductProof * Transcript) :=
  match fuel with
  | O => Panic
  | S fuel' =>
    if decide (1 < size)%nat then
      let half := Nat.div2 size in
      '(leftC, rightC) ← roundCommitments first half q hFactors g h a b;
      let transcript := appendTranscriptPoint transcript (str "L") leftC in
      let transcript := appendTranscriptPoint transcript (str "R") rightC in
      '(u, transcript) ← transcriptChallengeScalar transcript (str "u");
      let uInverse := sInvert u in
      let a' := foldScalars u uInverse (take half a) (drop half a) in
      let b' := foldScalars uInverse u (take half b) (drop half b) in
      let g' := foldPoints uInverse u (take half g) (drop half g) in
      let h' := if first then foldFactored u uInverse (take half hFactors) (drop half hFactors) (take half h) (drop half h)
                else foldPoints u uInverse (take half h) (drop half h) in
      '(proof, transcript) ← innerProductLoop fuel' half false q hFactors g' h' a' b' transcript;
      Ok (mkInnerProduct (leftC :: ip_left proof) (rightC :: ip_right proof) (ip_a proof) (ip_b proof), transcript)
    else
      a0 ← idx a 0;
      b0 ← idx b 0;
      Ok (mkInnerProduct [] [] a0 b0, transcript)
  end.

Definition newRangeInnerProductProof (q : Point) (hFactors : list Scalar) (generators : rangeProofGenerators)
  (a b : list Scalar) (transcript : Transcript) : outcome error (rangeInnerProductProof * Transcript) :=
  let size := len (gens_g generators) in
  if decide (len (gens_h generators) ≠ size ∨ len a ≠ size ∨ len b ≠ size ∨ len hFactors ≠ size ∨ powerOfTwo size = false) then
    Err (errNew "generate range inner product proof: invalid vector length") else
  let transcript := appendRangeInnerProductDomainSeparator transcript size in
  innerProductLoop (Z.to_nat size) (Z.to_nat size) true q hFactors (gens_g generators) (gens_h generators) a b transcript.

(** The challenge of every round, replayed from the commitments. *)
Fixpoint verificationChallenges (left right : list PedersenCommitment) (transcript : Transcript)
  : outcome error (list Scalar * Transcript) :=
  match left, right with
  | l :: left', r :: right' =>
    (match ristrettoPoint l "range inner product L" with
     | Ok p => if IsIdentity p then Err (errNew "verify range inner product proof: invalid L point") else Ok tt
     | _ => Err (errNew "verify range inner product proof: invalid L point")
     end);;
    (match ristrettoPoint r "range inner product R" with
     | Ok p => if IsIdentity p then Err (errNew "verify range inner product proof: invalid R point") else Ok tt
     | _ => Err (errNew "verify range inner product proof: invalid R point")
     end);;
    let transcript := appendTranscriptPoint transcript (str "L") l in
    let transcript := appendTranscriptPoint transcript (str "R") r in
    '(u, transcript) ← transcriptChallengeScalar transcript (str "u");
    '(challenges, transcript) ← verificationChallenges left' right' transcript;
    Ok (u :: challenges, transcript)
  | _, _ => Ok ([], transcript)
  end.

(** [s[index] = s[index-power] * challengeSquares[logSize-1-logIndex]] from [index] on. *)
Fixpoint tableLoop (n index logSize : nat) (challengeSquares s : list Scalar) : outcome error (list Scalar) :=
  match n with
  | O => Ok s
  | S n' =>
    let logIndex := rangeLog2 index in
    let power := (2 ^ logIndex)%nat in
    challenge ← idx challengeSquares (Z.of_nat logSize - 1 - Z.of_nat logIndex);
    prev ← idx s (Z.of_nat index - Z.of_nat power);
    tableLoop n' (S index) logSize challengeSquares (s ++ [sMul prev challenge])
  end.

Definition rangeInnerProductVerificationScalars (proof : rangeInnerProductProof) (size : nat) (transcript : Transcript)
  : outcome error (list Scalar * list Scalar * list Scalar * Transcript) :=
  let logSize := length (ip_left proof) in
  if decide (logSize = 0%nat ∨ logSize ≠ length (ip_right proof) ∨ (32 ≤ logSize)%nat ∨ size ≠ (2 ^ logSize)%nat) then
    Err (errNew "verify range inner product proof: invalid vector length") else
  let transcript := appendRangeInnerProductDomainSeparator transcript (Z.of_nat size) in
  '(challenges, transcript) ← verificationChallenges (ip_left proof) (ip_right proof) transcript;
  let '(inverses, allInverse) := BatchInvert challenges in
  let challengeSquares := (λ u, sMul u u) <$> challenges in
  let inverseSquares := (λ u, sMul u u) <$> inverses in
  s ← tableLoop (size - 1) 1 logSize challengeSquares [allInverse];
  Ok (challengeSquares, inverseSquares, s, transcript).

Fixpoint interleave (left right : list bytes) : bytes :=
  match left, right with
  | l :: left', r :: right' => l ++ r ++ interleave left' right'
  | _, _ => []
  end.
Definition marshalRangeInnerProductProof (proof : rangeInnerProductProof) : bytes :=
  interleave (ip_left proof) (ip_right proof) ++ ToBytes (ip_a proof) ++ ToBytes (ip_b proof).
Definition parseRangeInnerProductProof (data : bytes) : outcome error rangeInnerProductProof :=
  if decide (len data mod 32 ≠ 0 ∨ len data < 64 ∨ (len data / 32 - 2) mod 2 ≠ 0) then
    Err (errNew "decode range inner product proof: invalid length") else
  let logSize := (len data / 32 - 2) / 2 in
  if decide (32 ≤ logSize) then Err (errNew "decode range inner product proof: invalid length") else
  let n := Z.to_nat logSize in
  let left := (λ i, sub (i * 64) (i * 64 + 32) data) <$> seq 0 n in
  let right := (λ i, sub (i * 64 + 32) (i * 64 + 64) data) <$> seq 0 n in
  let position := (n * 64)%nat in
  a ← scalarFromBytes (sub position (position + 32) data) "range inner product a";
  b ← scalarFromBytes (drop (position + 32) data) "range inner product b";
  Ok (mkInnerProduct left right a b).

(** * The range proof *)

Record batchedRangeProof := mkRangeProof {
  rp_a : PedersenCommitment; rp_s : PedersenCommitment; rp_t1 : PedersenCommitment; rp_t2 : PedersenCommitment;
  rp_tx : Scalar; rp_txBlinding : Scalar; rp_eBlinding : Scalar; rp_innerProduct : rangeInnerProductProof }.

Definition batchedRangeProofParameters (bitLengths : list Z) : outcome error (Z * Z * Z) :=
  let total := foldl (λ total b, total + b) 0 bitLengths in
  if decide (total = 64) then Ok (6, 672, 64)
  else if decide (total = 128) then Ok (7, 736, 128)
  else if decide (total = 256) then Ok (8, 800, 256)
  else Err (errNew "bit lengths must total 64, 128, or 256").
Definition batchedRangeVerificationParameters (discriminator : Z) : outcome error (Z * Z) :=
  if decide (discriminator = 6) then Ok (672, 64)
  else if decide (discriminator = 7) then Ok (736, 128)
  else if decide (discriminator = 8) then Ok (800, 256)
  else Err (errNew "invalid discriminator").

(** The loop over the commitments: opening scalars of the entries that pass. *)
Fixpoint contextLoop (commitments : list PedersenCommitment) (bitLengths : list Z) (openings : list PedersenOpening)
  : outcome error (list Scalar) :=
  match commitments, bitLengths, openings with
  | commitment :: commitments', bitLength :: bitLengths', opening :: openings' =>
    (match ristrettoPoint commitment "range proof commitment" with
     | Ok p => if IsIdentity p then Err (errNew "invalid commitment") else Ok tt
     | _ => Err (errNew "invalid commitment")
     end);;
    if decide (bitLength = 0 ∨ 64 < bitLength) then Err (errNew "illegal amount bit length") else
    value ← scalarFromBytes opening "range proof opening";
    values ← contextLoop commitments' bitLengths' openings';
    Ok (value :: values)
  | _, _, _ => Ok []
  end.
Definition batchedRangeProofContext (commitments : list PedersenCommitment) (amounts bitLengths : list Z)
  (openings : list PedersenOpening) : outcome error (bytes * list Scalar * list Z) :=
  let count := len commitments in
  if decide (count = 0 ∨ 8 < count ∨ len amounts ≠ count ∨ len bitLengths ≠ count ∨ len openings ≠ count) then
    Err (errNew "illegal commitment length") else
  openingScalars ← contextLoop commitments bitLengths openings;
  let context := concat commitments ++ zeros (256 - 32 * length commitments)
                 ++ bitLengths ++ zeros (8 - length bitLengths) in
  Ok (context, openingScalars, bitLengths).

Fixpoint parseContextLoop (n index : nat) (padding : bool) (context : bytes) : outcome error (list Point * list Z) :=
  match n with
  | O => Ok ([], [])
  | S n' =>
    let encoded := sub (index * 32) ((index + 1) * 32) context in
    bitLength ← idx context (256 + Z.of_nat index);
    if bool_decide (Forall (λ v, v = 0) encoded) then
      if decide (bitLength ≠ 0) then Err (errNew "invalid range proof context padding")
      else parseContextLoop n' (S index) true context
    else if padding then Err (errNew "invalid range proof context padding")
    else
      point ← (match ristrettoPoint encoded "range proof commitment" with
               | Ok p => if IsIdentity p then Err (errNew "invalid range proof commitment") else Ok p
               | _ => Err (errNew "invalid range proof commitment")
               end);
      if decide (bitLength = 0 ∨ 64 < bitLength) then Err (errNew "illegal amount bit length") else
      '(commitments, lengths) ← parseContextLoop n' (S index) false context;
      Ok (point :: commitments, bitLength :: lengths)
  end.
Definition parseBatchedRangeProofContext (context : bytes) : outcome error (list Point * list Z) :=
  '(commitments, lengths) ← parseContextLoop 8 0 false context;
  if decide (len commitments = 0) then Err (errNew "illegal commitment length") else Ok (commitments, lengths).

Definition batchedRangeProofTranscript (context : bytes) : Transcript :=
  let transcript := newZKElGamalTranscript (str "batched-range-proof-instruction") in
  let transcript := AppendMessage transcript (str "commitments") (sub 0 256 context) in
  AppendMessage transcript (str "bit-lengths") (drop 256 context).
Definition appendRangeProofDomainSeparator (transcript : Transcript) (size : Z) : Transcript :=
  appendTranscriptUint64 (appendProofDomainSeparator transcript (str "range-proof")) (str "n") size.

(** [amount>>bitIndex&1]. *)
Definition bitOf (amount bitIndex : Z) : Z := Z.land (Z.shiftr amount bitIndex) 1.

(** [aPoint] after the bits of one amount, then of all. *)
Fixpoint commitBits (n : nat) (bitIndex amount : Z) (aPoint : Point) (g h : list Point)
  : outcome error (Point * list Point * list Point) :=
  match n with
  | O => Ok (aPoint, g, h)
  | S n' =>
    match g, h with
    | gp :: g', hp :: h' =>
      let aPoint := if decide (bitOf amount bitIndex = 1) then pAdd aPoint gp else pSub aPoint hp in
      commitBits n' (bitIndex + 1) amount aPoint g' h'
    | _, _ => Panic
    end
  end.
Fixpoint commitAmounts (amounts bitLengths : list Z) (aPoint : Point) (g h : list Point) : outcome error Point :=
  match amounts, bitLengths with
  | amount :: amounts', bitLength :: bitLengths' =>
    '(aPoint, g, h) ← commitBits (Z.to_nat bitLength) 0 amount aPoint g h;
    commitAmounts amounts' bitLengths' aPoint g h
  | _, _ => Ok aPoint
  end.

(** The entries of the two polynomials for the bits of one amount; [yPower] runs on
    to the next amount. *)
Fixpoint polynomialBits (n : nat) (bitIndex amount : Z) (z zPower y yPower twoPower : Scalar) (sLeft sRight : list Scalar)
  : outcome error (rangeVectorPolynomial * rangeVectorPolynomial * Scalar * list Scalar * list Scalar) :=
  match n with
  | O => Ok (mkPolynomial [] [], mkPolynomial [] [], yPower, sLeft, sRight)
  | S n' =>
    match sLeft, sRight with
    | sl :: sLeft', sr :: sRight' =>
      let bit := SetUint64 (bitOf amount bitIndex) in
      let rightBit := sSub bit sOne in
      let lc := sSub bit z in
      let rc := sAdd (sMul yPower (sAdd rightBit z)) (sMul zPower twoPower) in
      let rl := sMul yPower sr in
      '(lp, rp, yEnd, sl', sr') ←
        polynomialBits n' (bitIndex + 1) amount z zPower y (sMul yPower y) (sAdd twoPower twoPower) sLeft' sRight';
      Ok (mkPolynomial (lc :: constant lp) (sl :: linear lp), mkPolynomial (rc :: constant rp) (rl :: linear rp), yEnd, sl', sr')
    | _, _ => Panic
    end
  end.
Fixpoint polynomialAmounts (amounts bitLengths : list Z) (z zPower y yPower : Scalar) (sLeft sRight : list Scalar)
  : outcome error (rangeVectorPolynomial * rangeVectorPolynomial) :=
  match amounts, bitLengths with
  | amount :: amounts', bitLength :: bitLengths' =>
    '(lp, rp, yEnd, sl, sr) ← polynomialBits (Z.to_nat bitLength) 0 amount z zPower y yPower sOne sLeft sRight;
    '(lp', rp') ← polynomialAmounts amounts' bitLengths' z (sMul zPower z) y yEnd sl sr;
    Ok (mkPolynomial (constant lp ++ constant lp') (linear lp ++ linear lp'),
        mkPolynomial (constant rp ++ constant rp') (linear rp ++ linear rp'))
  | _, _ => Ok (mkPolynomial [] [], mkPolynomial [] [])
  end.

(** The positions of [newRangeVectorPolynomial(size)] that the loop leaves at zero. *)
Definition padPolynomial (size : nat) (p : rangeVectorPolynomial) : rangeVectorPolynomial :=
  mkPolynomial (constant p ++ replicate (size - length (constant p)) sNew)
               (linear p ++ replicate (size - length (linear p)) sNew).

(** [zPower = z; for opening { zPower *= z; sum += zPower * opening }]. *)
Definition aggregateOpenings (z : Scalar) (openings : list Scalar) : Scalar :=
  (foldl (λ '(sum, zPower) opening, let zPower := sMul zPower z in (sAdd sum (sMul zPower opening), zPower))
         (sNew, z) openings).1.

Definition newBatchedRangeProof service (amounts bitLengths : list Z) (openings : list Scalar) (totalBits : nat)
  (transcript : Transcript) : GoM Reader error batchedRangeProof :=
  if decide (len amounts ≠ len bitLengths ∨ len amounts ≠ len openings ∨ powerOfTwo (Z.of_nat totalBits) = false) then
    throw (errNew "invalid vector length") else
  generators ← lift (rangeGenerators service totalBits);
  let transcript := appendRangeProofDomainSeparator transcript (Z.of_nat totalBits) in
  openingBasepoint ← lift (pedersenOpeningBasepoint service);
  aBlinding ← SetRandomM;
  aPoint ← lift (commitAmounts amounts bitLengths (pMul openingBasepoint aBlinding) (gens_g generators) (gens_h generators));
  let aCommitment := pedersenCommitment aPoint in
  sLeft ← randomScalars totalBits;
  sRight ← randomScalars totalBits;
  sBlinding ← SetRandomM;
  let sScalars := [sBlinding] ++ sLeft ++ sRight in
  let sPoints := [openingBasepoint] ++ gens_g generators ++ gens_h generators in
  let sCommitment := pedersenCommitment (MultiscalarMul sScalars sPoints) in
  let transcript := appendTranscriptPoint transcript (str "A") aCommitment in
  let transcript := appendTranscriptPoint transcript (str "S") sCommitment in
  '(y, transcript) ← lift (transcriptChallengeScalar transcript (str "y"));
  '(z, transcript) ← lift (transcriptChallengeScalar transcript (str "z"));
  '(leftPolynomial, rightPolynomial) ←
    lift (polynomialAmounts amounts bitLengths z (sMul z z) y sOne sLeft sRight);
  let leftPolynomial := padPolynomial totalBits leftPolynomial in
  let rightPolynomial := padPolynomial totalBits rightPolynomial in
  '(t0, t1, t2) ← lift (rangeVectorPolynomialInnerProduct leftPolynomial rightPolynomial);
  t1Blinding ← SetRandomM;
  t2Blinding ← SetRandomM;
  let t1Commitment := pedersenCommitment (MultiscalarMul [t1; t1Blinding] [BASEPOINT; openingBasepoint]) in
  let t2Commitment := pedersenCommitment (MultiscalarMul [t2; t2Blinding] [BASEPOINT; openingBasepoint]) in
  let transcript := appendTranscriptPoint transcript (str "T_1") t1Commitment in
  let transcript := appendTranscriptPoint transcript (str "T_2") t2Commitment in
  '(x, transcript) ← lift (transcriptChallengeScalar transcript (str "x"));
  let aggregatedOpening := aggregateOpenings z openings in
  let tx := evaluateRangeScalarPolynomial t0 t1 t2 x in
  let txBlinding := evaluateRangeScalarPolynomial aggregatedOpening t1Blinding t2Blinding x in
  let transcript := appendRangeScalar transcript (str "t_x") tx in
  let transcript := appendRangeScalar transcript (str "t_x_blinding") txBlinding in
  let eBlinding := sAdd aBlinding (sMul sBlinding x) in
  let transcript := appendRangeScalar transcript (str "e_blinding") eBlinding in
  '(w, transcript) ← lift (transcriptChallengeScalar transcript (str "w"));
  let q := pMul BASEPOINT w in
  let hFactors := scalarPowers (sInvert y) totalBits in
  '(_, transcript) ← lift (transcriptChallengeScalar transcript (str "c"));
  '(innerProduct, transcript) ← lift (newRangeInnerProductProof q hFactors generators
    (evaluateRangeVectorPolynomial leftPolynomial x) (evaluateRangeVectorPolynomial rightPolynomial x) transcript);
  let transcript := appendRangeScalar transcript (str "ipp_a") (ip_a innerProduct) in
  let transcript := appendRangeScalar transcript (str "ipp_b") (ip_b innerProduct) in
  _ ← lift (transcriptChallengeScalar transcript (str "d"));
  mret (mkRangeProof aCommitment sCommitment t1Commitment t2Commitment tx txBlinding eBlinding innerProduct).

(** [zPower * twoPower] for each bit; [zPower] starts at one. *)
Fixpoint zAndTwoBits (n : nat) (zPower twoPower : Scalar) : list Scalar :=
  match n with O => [] | S n' => sMul zPower twoPower :: zAndTwoBits n' zPower (sAdd twoPower twoPower) end.
Fixpoint zAndTwoLoop (bitLengths : list Z) (zPower z : Scalar) : list Scalar :=
  match bitLengths with
  | [] => []
  | bitLength :: bitLengths' => zAndTwoBits (Z.to_nat bitLength) zPower sOne ++ zAndTwoLoop bitLengths' (sMul zPower z) z
  end.

Fixpoint deltaLoop (bitLengths : list Z) (delta zPower z : Scalar) : Scalar :=
  match bitLengths with
  | [] => delta
  | bitLength :: bitLengths' =>
    deltaLoop bitLengths' (sSub delta (sMul zPower (scalarPowerSum (SetUint64 2) (Z.to_nat bitLength)))) (sMul zPower z) z
  end.
Definition rangeProofDelta (bitLengths : list Z) (y z : Scalar) : Scalar :=
  let totalBits := foldl (λ total b, total + b) 0 bitLengths in
  let zSquared := sMul z z in
  let delta := sMul (sSub z zSquared) (scalarPowerSum y (Z.to_nat totalBits)) in
  deltaLoop bitLengths delta (sMul zSquared z) z.

Fixpoint valueScalars (n : nat) (d zSquared zPower z : Scalar) : list Scalar :=
  match n with
  | O => []
  | S n' => sMul d (sMul zSquared zPower) :: valueScalars n' d zSquared (sMul zPower z) z
  end.

Fixpoint proofPointsLoop (encoded : list PedersenCommitment) : outcome error (list Point) :=
  match encoded with
  | [] => Ok []
  | e :: encoded' =>
    p ← (match ristrettoPoint e "range proof point" with
         | Ok p => if IsIdentity p then Err (errNew "invalid range proof point") else Ok p
         | _ => Err (errNew "invalid range proof point")
         end);
    points ← proofPointsLoop encoded';
    Ok (p :: points)
  end.
Fixpoint parseEach (encoded : list PedersenCommitment) (name : string) : outcome error (list Point) :=
  match encoded with
  | [] => Ok []
  | e :: encoded' => p ← ristrettoPoint e name; points ← parseEach encoded' name; Ok (p :: points)
  end.

(** The coefficients of the generators, for each position. *)
Definition gCoefficient (minusZ a : Scalar) (si : Scalar) : Scalar := sSub minusZ (sMul a si).
Definition hCoefficient (z zSquared b : Scalar) (yInversePower zTwo sRev : Scalar) : Scalar :=
  sAdd z (sMul yInversePower (sSub (sMul zSquared zTwo) (sMul b sRev))).

Definition verifyBatchedRangeProof service (proof : batchedRangeProof) (commitments : list Point) (bitLengths : list Z)
  (totalBits : nat) (transcript : Transcript) : outcome error unit :=
  if decide (len commitments ≠ len bitLengths ∨ powerOfTwo (Z.of_nat totalBits) = false) then
    Err (errNew "invalid vector length") else
  generators ← rangeGenerators service totalBits;
  let transcript := appendRangeProofDomainSeparator transcript (Z.of_nat totalBits) in
  proofPoints ← proofPointsLoop [rp_a proof; rp_s proof; rp_t1 proof; rp_t2 proof];
  let transcript := appendTranscriptPoint transcript (str "A") (rp_a proof) in
  let transcript := appendTranscriptPoint transcript (str "S") (rp_s proof) in
  '(y, transcript) ← transcriptChallengeScalar transcript (str "y");
  '(z, transcript) ← transcriptChallengeScalar transcript (str "z");
  let transcript := appendTranscriptPoint transcript (str "T_1") (rp_t1 proof) in
  let transcript := appendTranscriptPoint transcript (str "T_2") (rp_t2 proof) in
  '(x, transcript) ← transcriptChallengeScalar transcript (str "x");
  let transcript := appendRangeScalar transcript (str "t_x") (rp_tx proof) in
  let transcript := appendRangeScalar transcript (str "t_x_blinding") (rp_txBlinding proof) in
  let transcript := appendRangeScalar transcript (str "e_blinding") (rp_eBlinding proof) in
  '(w, transcript) ← transcriptChallengeScalar transcript (str "w");
  '(_, transcript) ← transcriptChallengeScalar transcript (str "c");
  let ipp := rp_innerProduct proof in
  '(challengeSquares, inverseSquares, s, transcript) ← rangeInnerProductVerificationScalars ipp totalBits transcript;
  let transcript := appendRangeScalar transcript (str "ipp_a") (ip_a ipp) in
  let transcript := appendRangeScalar transcript (str "ipp_b") (ip_b ipp) in
  '(d, _) ← transcriptChallengeScalar transcript (str "d");
  let zSquared := sMul z z in
  let minusZ := sNeg z in
  let zAndTwo := zAndTwoLoop bitLengths sOne z in
  let yInversePowers := scalarPowers (sInvert y) totalBits in
  if decide (length zAndTwo < totalBits)%nat then Panic else
  let gs := gCoefficient minusZ (ip_a ipp) <$> take totalBits s in
  let hs := zip_with (λ '(yi, zt) sr, hCoefficient z zSquared (ip_b ipp) yi zt sr)
              (zip yInversePowers zAndTwo) (reverse (take totalBits s)) in
  let basepointScalar := sAdd (sMul w (sSub (rp_tx proof) (sMul (ip_a ipp) (ip_b ipp))))
                              (sMul d (sSub (rangeProofDelta bitLengths y z) (rp_tx proof))) in
  let values := valueScalars (length commitments) d zSquared sOne z in
  openingBasepoint ← pedersenOpeningBasepoint service;
  let xSquared := sMul x x in
  let scalars := [sOne; x; sMul d x; sMul d xSquared; sNeg (sAdd (rp_eBlinding proof) (sMul d (rp_txBlinding proof)));
                  basepointScalar]
                 ++ challengeSquares ++ inverseSquares ++ gs ++ hs ++ values in
  lefts ← parseEach (ip_left ipp) "range inner product L";
  rights ← parseEach (ip_right ipp) "range inner product R";
  let points := proofPoints ++ [openingBasepoint; BASEPOINT] ++ lefts ++ rights ++ gens_g generators ++ gens_h generators
                ++ commitments in
  if decide (len scalars ≠ len points) then Err (errNew "range proof multiscalar length mismatch") else
  if IsIdentity (MultiscalarMulVartime scalars points) then Ok tt else Err (errNew "algebraic relation").

(** * Bytes *)

Definition marshalBatchedRangeProof (proof : batchedRangeProof) : bytes :=
  rp_a proof ++ rp_s proof ++ rp_t1 proof ++ rp_t2 proof
  ++ ToBytes (rp_tx proof) ++ ToBytes (rp_txBlinding proof) ++ ToBytes (rp_eBlinding proof)
  ++ marshalRangeInnerProductProof (rp_innerProduct proof).
Definition parseBatchedRangeProof (data : bytes) : outcome error batchedRangeProof :=
  if decide (len data < 224 ∨ len data mod 32 ≠ 0) then Err (errNew "decode batched range proof: invalid length") else
  tx ← scalarFromBytes (sub 128 160 data) "range proof t_x";
  txBlinding ← scalarFromBytes (sub 160 192 data) "range proof t_x blinding";
  eBlinding ← scalarFromBytes (sub 192 224 data) "range proof e blinding";
  innerProduct ← parseRangeInnerProductProof (drop 224 data);
  Ok (mkRangeProof (sub 0 32 data) (sub 32 64 data) (sub 64 96 data) (sub 96 128 data) tx txBlinding eBlinding innerProduct).

Definition GenerateBatchedRangeProof service (commitments : list PedersenCommitment) (amounts bitLengths : list Z)
  (openings : list PedersenOpening) : GoM Reader error ZKProofData :=
  let prefix := "generate batched range proof"%string in
  '(discriminator, proofSize, totalBits) ← lift (wrapf prefix (batchedRangeProofParameters bitLengths));
  '(context, openingScalars, lengths) ← lift (wrapf prefix (batchedRangeProofContext commitments amounts bitLengths openings));
  let transcript := batchedRangeProofTranscript context in
  proof ← wrapM prefix (newBatchedRangeProof service amounts lengths openingScalars (Z.to_nat totalBits) transcript);
  let encoded := marshalBatchedRangeProof proof in
  if decide (len encoded ≠ proofSize) then throw (errNewf "generate batched range proof: invalid proof length" [len encoded])
  else mret (mkProofData discriminator context encoded).

Definition VerifyBatchedRangeProof service (data : ZKProofData) : outcome error unit :=
  classifyInvalidProof (
  let prefix := "verify batched range proof"%string in
  let invalid := Err (errNew "verify batched range proof: invalid proof data") in
  match batchedRangeVerificationParameters (Discriminator data) with
  | Ok (proofSize, totalBits) =>
    if decide (len (Context_ data) ≠ 264 ∨ len (Proof_ data) ≠ proofSize) then invalid else
    '(commitments, bitLengths) ← wrapf prefix (parseBatchedRangeProofContext (Context_ data));
    let sum := foldl (λ sum b, sum + b) 0 bitLengths in
    if decide (sum ≠ totalBits) then Err (errNew "verify batched range proof: invalid commitment length") else
    proof ← wrapf prefix (parseBatchedRangeProof (Proof_ data));
    let transcript := batchedRangeProofTranscript (Context_ data) in
    wrapf prefix (verifyBatchedRangeProof service proof commitments bitLengths (Z.to_nat totalBits) transcript)
  | _ => invalid
  end).
End range.
