(* ===== verification/InnerProductSpec.v ===== *)
(** InnerProductSpec: the inner product argument of [RangeProof]. The algebra of
    scalar vectors and multiscalar sums, the invariant of the folding loop, and the
    verifier's table of generator coefficients against its recursive definition. *)
From Stdlib Require Import ZArith Lia Field.
From stdpp Require Import base numbers gmap strings list.
From S2P Require Import Prelude Keys Sha3 Ristretto Mnemonic ElGamal ElGamalSpec Sigma SigmaSpec Validity ValiditySpec RangeProof.

Open Scope Z_scope.

Section inner.
Context `{R : Ristretto} {L : RistrettoLaws R} {Rnd : Random} {M : Merlin} {ML : MerlinLaws M} {Sh : Shake}.

#[local] Definition sDiv (a b : Scalar) : Scalar := sMul a (sInvert b).
#[local] Lemma inner_field : field_theory sNew sOne sAdd sMul sSub sNeg sDiv sInvert eq.
Proof. exact scalar_field. Qed.
Add Field inner_field : inner_field.

(** * Vectors *)

Fixpoint dot (a b : list Scalar) : Scalar :=
  match a, b with
  | x :: a', y :: b' => sAdd (sMul x y) (dot a' b')
  | _, _ => sNew
  end.
Definition scale (k : Scalar) (a : list Scalar) : list Scalar := sMul k <$> a.

Lemma scalarInnerProduct_ok a b : length a = length b → scalarInnerProduct a b = Ok (dot a b).
Proof.
  intros Hl. unfold scalarInnerProduct, len. rewrite decide_False by lia. f_equal. clear Hl.
  enough (∀ s, foldl (λ result '(l, r), sAdd result (sMul l r)) s (zip a b) = sAdd s (dot a b)) as -> by ring.
  revert b. induction a as [|x a IH]; intros [|y b] s; cbn; try ring. rewrite IH. ring.
Qed.

Lemma dot_app a1 a2 b1 b2 : length a1 = length b1 → dot (a1 ++ a2) (b1 ++ b2) = sAdd (dot a1 b1) (dot a2 b2).
Proof. revert b1. induction a1 as [|x a1 IH]; intros [|y b1] Hl; try done; cbn; [ring|]. rewrite IH by (by injection Hl). ring. Qed.

Lemma dot_fold u v x y aL aR bL bR :
  length aR = length aL → length bL = length aL → length bR = length aL →
  dot (foldScalars u v aL aR) (foldScalars x y bL bR)
  = sAdd (sAdd (sMul (sMul u x) (dot aL bL)) (sMul (sMul v y) (dot aR bR)))
         (sAdd (sMul (sMul u y) (dot aL bR)) (sMul (sMul v x) (dot aR bL))).
Proof.
  unfold foldScalars. revert aR bL bR. induction aL as [|a aL IH]; intros [|a' aR] [|b bL] [|b' bR] H1 H2 H3; try done; cbn; [ring|].
  injection H1 as H1. injection H2 as H2. injection H3 as H3. rewrite IH by done. ring.
Qed.

Lemma msm_scale k s p : msm (scale k s) p = pMul (msm s p) k.
Proof.
  revert p. induction s as [|x s IH]; intros [|q p]; cbn; try (by rewrite pMul_identity).
  fold (scale k s). rewrite IH. module_eq; ring.
Qed.

Lemma msm_add a b p : length a = length b → msm (zip_with sAdd a b) p = pAdd (msm a p) (msm b p).
Proof.
  revert b p. induction a as [|x a IH]; intros [|y b] [|q p] Hl; try done; cbn; try (by rewrite pAdd_identity).
  rewrite IH by (by injection Hl). module_eq; ring.
Qed.

(** Folding the scalars against one half of the points. *)
Lemma msm_fold u v aL aR p : length aR = length aL → msm (foldScalars u v aL aR) p = pAdd (pMul (msm aL p) u) (pMul (msm aR p) v).
Proof.
  unfold foldScalars. revert aR p. induction aL as [|a aL IH]; intros [|a' aR] [|q p] Hl; try done; cbn;
    try (by rewrite !pMul_identity, pAdd_identity). rewrite IH by (by injection Hl). module_eq; ring.
Qed.

(** Folding the points. *)
Lemma msm_foldPoints u v s pL pR :
  length pL = length s → length pR = length s →
  msm s (foldPoints u v pL pR) = pAdd (pMul (msm s pL) u) (pMul (msm s pR) v).
Proof.
  unfold foldPoints. revert pL pR. induction s as [|x s IH]; intros [|p pL] [|q pR] H1 H2; try done; cbn;
    [by rewrite !pMul_identity, pAdd_identity|].
  injection H1 as H1. injection H2 as H2. rewrite IH by done. rewrite MultiscalarMul_spec by done. cbn [msm]. module_eq; ring.
Qed.

(** The points under their factors. *)
Definition factored (f : list Scalar) (h : list Point) : list Point := zip_with (λ k p, pMul p k) f h.

Lemma msm_factored b f h : length f = length b → msm b (factored f h) = msm (zip_with sMul b f) h.
Proof.
  unfold factored. revert f h. induction b as [|x b IH]; intros [|k f] [|p h] Hl; try done; cbn. rewrite IH by (by injection Hl).
  module_eq; ring.
Qed.

Lemma foldFactored_eq u v fL fR hL hR : foldFactored u v fL fR hL hR = foldPoints u v (factored fL hL) (factored fR hR).
Proof.
  unfold foldFactored, foldPoints, factored. revert fR hL hR.
  induction fL as [|f fL IH]; intros [|f' fR] [|h hL] [|h' hR]; cbn; try done; try (by destruct (zip_with _ _ _)).
  rewrite IH. f_equal. rewrite !MultiscalarMul_spec by done. cbn [msm]. module_eq; ring.
Qed.

Lemma factored_take n f h : factored (take n f) (take n h) = take n (factored f h).
Proof. unfold factored. by rewrite zip_with_take. Qed.
Lemma factored_drop n f h : factored (drop n f) (drop n h) = drop n (factored f h).
Proof. unfold factored. by rewrite zip_with_drop. Qed.

(** * The folding loop *)

(** The value the argument is about: [⟨a, g⟩ + ⟨b, h⟩ + ⟨a, b⟩ q]. *)
Definition relation (q : Point) (g h : list Point) (a b : list Scalar) : Point :=
  pAdd (pAdd (msm a g) (msm b h)) (pMul q (dot a b)).

Definition roundLeft (half : nat) (q : Point) (g h : list Point) (a b : list Scalar) : Point :=
  relation q (drop half g) (take half h) (take half a) (drop half b).
Definition roundRight (half : nat) (q : Point) (g h : list Point) (a b : list Scalar) : Point :=
  relation q (take half g) (drop half h) (drop half a) (take half b).

Abbreviation sized n := (λ l, length l = n) (only parsing).

Lemma msm_three s1 s2 c p1 p2 q :
  length s1 = length p1 → length s2 = length p2 →
  MultiscalarMul ((s1 ++ s2) ++ [c]) (p1 ++ p2 ++ [q]) = pAdd (pAdd (msm s1 p1) (msm s2 p2)) (pMul q c).
Proof.
  intros H1 H2. rewrite MultiscalarMul_spec by (rewrite !length_app; cbn; lia).
  rewrite <-app_assoc, msm_app, msm_app by done. cbn [msm]. module_eq; ring.
Qed.

Lemma roundCommitments_ok half q f g h a b :
  length g = (half + half)%nat → length h = (half + half)%nat → length a = (half + half)%nat → length b = (half + half)%nat →
  roundCommitments false half q f g h a b
  = Ok (SetRistrettoPoint (roundLeft half q g h a b), SetRistrettoPoint (roundRight half q g h a b)).
Proof.
  intros Hg Hh Ha Hb. unfold roundCommitments.
  rewrite !scalarInnerProduct_ok by (rewrite length_take, length_drop; lia). obind.
  rewrite !msm_three by (rewrite length_take, length_drop; lia). by rewrite !pedersenCommitment_eq.
Qed.

Lemma div2_twice n : Nat.div2 (n + n) = n.
Proof. replace (n + n)%nat with (2 * n)%nat by lia. apply Nat.div2_double. Qed.

(** The first round applies the factors that the next rounds find in the points. *)
Lemma roundCommitments_first half q f g h a b :
  length f = (half + half)%nat → length g = (half + half)%nat → length h = (half + half)%nat →
  length a = (half + half)%nat → length b = (half + half)%nat →
  roundCommitments true half q f g h a b = roundCommitments false half q f g (factored f h) a b.
Proof.
  intros Hf Hg Hh Ha Hb. assert (Hl : length (factored f h) = (half + half)%nat) by (unfold factored; rewrite length_zip_with; lia).
  rewrite roundCommitments_ok by done. unfold roundCommitments.
  rewrite !scalarInnerProduct_ok by (rewrite length_take, length_drop; lia). obind.
  rewrite !msm_three by (rewrite ?length_zip_with, ?length_take, ?length_drop; lia). rewrite !pedersenCommitment_eq.
  unfold roundLeft, roundRight, relation. rewrite <-!factored_take, <-!factored_drop.
  rewrite !msm_factored by (rewrite ?length_take, ?length_drop; lia). done.
Qed.

Lemma innerProductLoop_first fuel half q f g h a b t :
  (0 < half)%nat → length f = (half + half)%nat → length g = (half + half)%nat → length h = (half + half)%nat →
  length a = (half + half)%nat → length b = (half + half)%nat →
  innerProductLoop fuel (half + half) true q f g h a b t = innerProductLoop fuel (half + half) false q f g (factored f h) a b t.
Proof.
  intros H0 Hf Hg Hh Ha Hb. destruct fuel as [|fuel]; [done|]. cbn [innerProductLoop].
  rewrite !decide_True by lia. rewrite div2_twice. rewrite roundCommitments_first by done.
  destruct (roundCommitments false half q f g (factored f h) a b) as [[l r]|e|]; [|done|done]. obind.
  destruct (transcriptChallengeScalar _ (str "u")) as [[u t']|e|]; [|done|done]. obind.
  by rewrite foldFactored_eq, factored_take, factored_drop.
Qed.

(** The coefficients of the generators after the rounds with the challenges [us]. *)
Fixpoint foldedCoefficients (us : list Scalar) : list Scalar :=
  match us with
  | [] => [sOne]
  | u :: us' => scale (sInvert u) (foldedCoefficients us') ++ scale u (foldedCoefficients us')
  end.

Lemma foldedCoefficients_length us : length (foldedCoefficients us) = (2 ^ length us)%nat.
Proof. induction us as [|u us IH]; [done|]. cbn. rewrite length_app. unfold scale. rewrite !length_fmap, IH. lia. Qed.

Lemma foldedCoefficients_reverse u us :
  reverse (foldedCoefficients (u :: us)) = scale u (reverse (foldedCoefficients us)) ++ scale (sInvert u) (reverse (foldedCoefficients us)).
Proof. cbn [foldedCoefficients]. rewrite reverse_app. unfold scale. by rewrite !fmap_reverse. Qed.

Lemma msm_split n s p : length s = length p → msm s p = pAdd (msm (take n s) (take n p)) (msm (drop n s) (drop n p)).
Proof. intros Hl. rewrite <-msm_app by (rewrite !length_take; lia). by rewrite !take_drop. Qed.

Lemma dot_split n a b : length a = length b → dot a b = sAdd (dot (take n a) (take n b)) (dot (drop n a) (drop n b)).
Proof. intros Hl. rewrite <-dot_app by (rewrite !length_take; lia). by rewrite !take_drop. Qed.

Lemma sInvert_r u : u ≠ sNew → sMul u (sInvert u) = sOne.
Proof. intros. field. done. Qed.

(** One round keeps the relation up to its two commitments. *)
Lemma round_relation half q g h a b u :
  u ≠ sNew → length g = (half + half)%nat → length h = (half + half)%nat → length a = (half + half)%nat → length b = (half + half)%nat →
  relation q (foldPoints (sInvert u) u (take half g) (drop half g)) (foldPoints u (sInvert u) (take half h) (drop half h))
    (foldScalars u (sInvert u) (take half a) (drop half a)) (foldScalars (sInvert u) u (take half b) (drop half b))
  = pAdd (relation q g h a b)
      (pAdd (pMul (roundLeft half q g h a b) (sMul u u)) (pMul (roundRight half q g h a b) (sMul (sInvert u) (sInvert u)))).
Proof.
  intros Hu Hg Hh Ha Hb. unfold roundLeft, roundRight, relation.
  rewrite (msm_split half a g), (msm_split half b h), (dot_split half a b) by lia.
  assert (length (take half g) = half ∧ length (drop half g) = half) as [G1 G2] by (rewrite length_take, length_drop; lia).
  assert (length (take half h) = half ∧ length (drop half h) = half) as [H1 H2] by (rewrite length_take, length_drop; lia).
  assert (length (take half a) = half ∧ length (drop half a) = half) as [A1 A2] by (rewrite length_take, length_drop; lia).
  assert (length (take half b) = half ∧ length (drop half b) = half) as [B1 B2] by (rewrite length_take, length_drop; lia).
  rewrite !msm_foldPoints by (unfold foldScalars; rewrite ?length_zip_with; lia).
  rewrite !msm_fold, dot_fold by lia. pose proof (sInvert_r u Hu) as Hi.
  module_eq; try ring [Hi].
Qed.

(** What the verifier makes of a run of the loop: it replays the challenges, and the
    relation of the two vectors is the one of the two scalars left, over the folded
    generators, corrected by the commitments of the rounds. *)
Definition argued (q : Point) (g h : list Point) (a b : list Scalar) (proof : rangeInnerProductProof) (us : list Scalar)
  (ls rs : list Point) : Prop :=
  pAdd (relation q g h a b)
    (pAdd (msm ((λ u, sMul u u) <$> us) ls) (msm ((λ u, sMul (sInvert u) (sInvert u)) <$> us) rs))
  = pAdd (pAdd (pMul (msm (foldedCoefficients us) g) (ip_a proof)) (pMul (msm (reverse (foldedCoefficients us)) h) (ip_b proof)))
      (pMul q (sMul (ip_a proof) (ip_b proof))).

Lemma argued_step half q g h a b u proof us ls rs :
  u ≠ sNew → half = (2 ^ length us)%nat →
  length g = (half + half)%nat → length h = (half + half)%nat → length a = (half + half)%nat → length b = (half + half)%nat →
  argued q (foldPoints (sInvert u) u (take half g) (drop half g)) (foldPoints u (sInvert u) (take half h) (drop half h))
    (foldScalars u (sInvert u) (take half a) (drop half a)) (foldScalars (sInvert u) u (take half b) (drop half b)) proof us ls rs →
  argued q g h a b
    (mkInnerProduct (SetRistrettoPoint (roundLeft half q g h a b) :: ip_left proof)
       (SetRistrettoPoint (roundRight half q g h a b) :: ip_right proof) (ip_a proof) (ip_b proof))
    (u :: us) (roundLeft half q g h a b :: ls) (roundRight half q g h a b :: rs).
Proof.
  intros Hu Hhalf Hg Hh Ha Hb. unfold argued. rewrite round_relation by done. cbn [ip_a ip_b]. rewrite foldedCoefficients_reverse.
  cbn [foldedCoefficients]. intros H. rewrite !fmap_cons. cbn [msm].
  assert (Hlen : length (foldedCoefficients us) = half) by (by rewrite foldedCoefficients_length).
  rewrite (msm_split half _ g), (msm_split half _ h) by (rewrite length_app; unfold scale; rewrite !length_fmap, ?length_reverse; lia).
  rewrite !take_app_length', !drop_app_length' by (unfold scale; rewrite length_fmap, ?length_reverse; lia).
  rewrite !msm_scale. rewrite !msm_foldPoints in H by (rewrite ?length_reverse, ?length_take, ?length_drop; lia).
  etransitivity; [|etransitivity; [exact H|]]; module_eq; ring.
Qed.

Abbreviation nonzero := (λ s : Scalar, s ≠ sNew).
Abbreviation proper := (λ p : Point, p ≠ identity).

Lemma innerProductLoop_spec k fuel q f g h a b t proof t' :
  (k < fuel)%nat → length g = (2 ^ k)%nat → length h = (2 ^ k)%nat → length a = (2 ^ k)%nat → length b = (2 ^ k)%nat →
  innerProductLoop fuel (2 ^ k) false q f g h a b t = Ok (proof, t') →
  ∃ ls rs, ip_left proof = SetRistrettoPoint <$> ls ∧ ip_right proof = SetRistrettoPoint <$> rs ∧ length ls = k ∧ length rs = k ∧
    (Forall proper ls → Forall proper rs →
     ∃ us, length us = k ∧ verificationChallenges (ip_left proof) (ip_right proof) t = Ok (us, t') ∧
       (Forall nonzero us → argued q g h a b proof us ls rs)).
Proof.
  revert fuel g h a b t proof t'. induction k as [|k IH]; intros fuel g h a b t proof t' Hf Hg Hh Ha Hb H.
  - destruct fuel as [|fuel]; [lia|]. cbn in Hg, Hh, Ha, Hb. destruct g as [|g []], h as [|h []], a as [|a []], b as [|b []]; try done.
    cbn in H. injection H as <- <-. exists [], []. do 4 (split; [done|]). intros _ _. exists []. do 2 (split; [done|]). intros _.
    unfold argued, relation. cbn. module_eq; ring.
  - destruct fuel as [|fuel]; [lia|]. cbn [innerProductLoop] in H.
    assert (E2 : (2 ^ S k)%nat = (2 ^ k + 2 ^ k)%nat) by (cbn; lia). rewrite E2 in *.
    assert (0 < 2 ^ k)%nat by (pose proof (Nat.pow_nonzero 2 k); lia).
    rewrite decide_True in H by lia. rewrite div2_twice in H. rewrite roundCommitments_ok in H by done. obind_in H.
    ostep H c Ec. destruct c as [u t1]. ostep H p Ep. destruct p as [proof1 t2]. injection H as <- <-.
    apply IH in Ep as (ls & rs & El & Er & Hl & Hr & Hv); [|lia|..];
      try (unfold foldPoints, foldScalars; rewrite length_zip_with, length_take, length_drop; lia).
    exists (roundLeft (2 ^ k) q g h a b :: ls), (roundRight (2 ^ k) q g h a b :: rs). cbn [ip_left ip_right]. rewrite El, Er.
    do 2 (split; [done|]). do 2 (split; [cbn; lia|]). intros [P1 P2]%Forall_cons [P3 P4]%Forall_cons.
    destruct (Hv P2 P4) as (us & Hu & Ev & Hg'). exists (u :: us). split; [cbn; lia|]. split.
    + cbn [fmap list_fmap verificationChallenges]. rewrite !ristrettoPoint_encoded. unfold IsIdentity.
      rewrite !bool_decide_eq_false_2 by done. obind. rewrite Ec. obind. rewrite <-El, <-Er, Ev. done.
    + intros [U1 U2]%Forall_cons. rewrite <-El, <-Er. apply argued_step; [done|by rewrite Hu|done|done|done|done|by apply Hg'].
Qed.

(** * The verifier's table *)

Lemma log2Loop_spec fuel v l : (v ≤ fuel)%nat → log2Loop fuel v l = (l + Nat.log2 v)%nat.
Proof.
  revert v l. induction fuel as [|fuel IH]; intros v l Hv; cbn [log2Loop].
  - replace v with 0%nat by lia. cbn. lia.
  - case_decide as Hd.
    + rewrite IH by (pose proof (Nat.lt_div2 v); lia).
      rewrite Nat.div2_spec, Nat.log2_shiftr. pose proof (Nat.log2_pos v ltac:(lia)). lia.
    + destruct v as [|[|v]]; [cbn; lia|cbn; lia|lia].
Qed.

Lemma rangeLog2_spec k j : (j < 2 ^ k)%nat → rangeLog2 (2 ^ k + j) = k.
Proof.
  intros Hj. unfold rangeLog2. rewrite log2Loop_spec by done. cbn. apply Nat.log2_unique; [lia|]. split; [lia|]. cbn. lia.
Qed.

(** The table by doubling, the last challenge first. *)
Fixpoint doubled (c : Scalar) (us : list Scalar) : list Scalar :=
  match us with
  | [] => [c]
  | u :: us' => doubled c us' ++ ((λ s, sMul s (sMul u u)) <$> doubled c us')
  end.

Lemma doubled_length c us : length (doubled c us) = (2 ^ length us)%nat.
Proof. induction us as [|u us IH]; [done|]. cbn [doubled length]. rewrite length_app, length_fmap, IH. cbn. lia. Qed.

Lemma doubled_scale c k us : doubled (sMul c k) us = scale k (doubled c us).
Proof.
  unfold scale. induction us as [|u us IH]; cbn [doubled]; [cbn; f_equal; ring|]. rewrite IH, fmap_app, <-!list_fmap_compose. f_equal.
  apply list_fmap_ext. intros _ s _. cbn. ring.
Qed.

Lemma nonzero_mul a b : a ≠ sNew → b ≠ sNew → sMul a b ≠ sNew.
Proof.
  intros Ha Hb E. apply Hb. transitivity (sMul (sInvert a) (sMul a b)); [by field|]. rewrite E. ring.
Qed.

Lemma nonzero_product us : Forall nonzero us → foldr sMul sOne us ≠ sNew.
Proof. induction 1 as [|u us Hu _ IH]; cbn; [apply (F_1_neq_0 inner_field)|]. by apply nonzero_mul. Qed.

(** The table the verifier computes is the one the folding of the generators needs. *)
Lemma doubled_folded us : Forall nonzero us → doubled (sInvert (foldr sMul sOne us)) us = foldedCoefficients us.
Proof.
  induction 1 as [|u us Hu Hus IH]; cbn [doubled foldedCoefficients foldr].
  - f_equal. field. apply (F_1_neq_0 inner_field).
  - assert (E : sInvert (sMul u (foldr sMul sOne us)) = sMul (sInvert (foldr sMul sOne us)) (sInvert u)).
    { pose proof (nonzero_product us Hus). field. done. }
    rewrite E, doubled_scale, IH. f_equal. unfold scale. rewrite <-list_fmap_compose. apply list_fmap_ext. intros _ s _. cbn. by field.
Qed.

Lemma idx_nat {E A} (l : list A) (n : nat) x : l !! n = Some x → idx (E := E) l (Z.of_nat n) = Ok x.
Proof. intros H. unfold idx. rewrite decide_True by lia. by rewrite Nat2Z.id, H. Qed.

Lemma tableLoop_app n m i ls sq s : tableLoop (n + m) i ls sq s = (tableLoop n i ls sq s ≫= tableLoop m (i + n) ls sq).
Proof.
  revert i s. induction n as [|n IH]; intros i s; cbn [Nat.add tableLoop]; [by rewrite Nat.add_0_r|].
  destruct (idx sq _) as [c|e|]; [|done|done]. obind. destruct (idx s _) as [p|e|]; [|done|done]. obind. rewrite IH.
  by replace (S i + n)%nat with (i + S n)%nat by lia.
Qed.

(** The entries [2^k + j] on, while the first [2^k] ones are [s]. *)
Lemma tableLoop_row m j k ls us u s :
  length us = ls → (k < ls)%nat → us !! (ls - 1 - k)%nat = Some u → length s = (2 ^ k)%nat → (j + m ≤ 2 ^ k)%nat →
  tableLoop m (2 ^ k + j) ls ((λ u, sMul u u) <$> us) (s ++ take j ((λ s, sMul s (sMul u u)) <$> s))
  = Ok (s ++ take (j + m) ((λ s, sMul s (sMul u u)) <$> s)).
Proof.
  intros Hus Hk Hu Hs. revert j. induction m as [|m IH]; intros j Hj; cbn [tableLoop]; [by rewrite Nat.add_0_r|].
  rewrite rangeLog2_spec by lia.
  replace (Z.of_nat ls - 1 - Z.of_nat k) with (Z.of_nat (ls - 1 - k)) by lia.
  erewrite idx_nat by (rewrite list_lookup_fmap, Hu; reflexivity). obind.
  replace (Z.of_nat (2 ^ k + j) - Z.of_nat (2 ^ k)) with (Z.of_nat j) by lia.
  destruct (lookup_lt_is_Some_2 s j) as [x Hx]; [lia|].
  erewrite idx_nat by (rewrite lookup_app_l by lia; exact Hx). obind.
  rewrite <-app_assoc. replace (S (2 ^ k + j)) with (2 ^ k + S j)%nat by lia.
  replace (j + S m)%nat with (S j + m)%nat by lia. rewrite <-(IH (S j)) by lia. f_equal. f_equal.
  symmetry. apply take_S_r. by rewrite list_lookup_fmap, Hx.
Qed.

Lemma tableLoop_doubled k ls us c :
  length us = ls → (k ≤ ls)%nat →
  tableLoop (2 ^ k - 1) 1 ls ((λ u, sMul u u) <$> us) [c] = Ok (doubled c (drop (ls - k) us)).
Proof.
  intros Hus. induction k as [|k IH]; intros Hk.
  - rewrite Nat.sub_0_r, <-Hus, drop_all. done.
  - assert (0 < 2 ^ k)%nat by (pose proof (Nat.pow_nonzero 2 k); lia).
    replace (2 ^ S k - 1)%nat with ((2 ^ k - 1) + 2 ^ k)%nat by (cbn; lia). rewrite tableLoop_app, IH by lia. obind.
    replace (1 + (2 ^ k - 1))%nat with (2 ^ k + 0)%nat by lia.
    destruct (lookup_lt_is_Some_2 us (ls - 1 - k)) as [u Hu]; [lia|].
    set (s := doubled c (drop (ls - k) us)).
    assert (Hs : length s = (2 ^ k)%nat) by (unfold s; rewrite doubled_length, length_drop; f_equal; lia).
    pose proof (tableLoop_row (2 ^ k) 0 k ls us u s Hus ltac:(lia) Hu Hs ltac:(lia)) as Hrow.
    rewrite take_0, app_nil_r in Hrow. rewrite Hrow. rewrite take_ge by (rewrite length_fmap; lia).
    replace (ls - S k)%nat with (ls - 1 - k)%nat by lia. rewrite (drop_S _ _ _ Hu). cbn [doubled].
    replace (S (ls - 1 - k)) with (ls - k)%nat by lia. done.
Qed.

Lemma verificationScalars_ok ls rs k t us t' :
  (0 < k < 32)%nat → length ls = k → length rs = k → Forall nonzero us → length us = k →
  ∀ a b, verificationChallenges ls rs (appendRangeInnerProductDomainSeparator t (Z.of_nat (2 ^ k))) = Ok (us, t') →
  rangeInnerProductVerificationScalars (mkInnerProduct ls rs a b) (2 ^ k) t
  = Ok ((λ u, sMul u u) <$> us, (λ u, sMul (sInvert u) (sInvert u)) <$> us, foldedCoefficients us, t').
Proof.
  intros Hk Hl Hr Hn Hus a b Hv. unfold rangeInnerProductVerificationScalars. cbn [ip_left ip_right]. rewrite Hl, Hr.
  rewrite decide_False by lia. rewrite Hv. obind. rewrite BatchInvert_spec by done.
  rewrite (tableLoop_doubled k k us) by lia. obind. rewrite Nat.sub_diag, drop_0, doubled_folded by done.
  by rewrite <-list_fmap_compose.
Qed.
End inner.
