(* ===== verification/RangeProofSpec.v ===== *)
(** RangeProofSpec: the aggregated range proofs of [RangeProof] are complete. The
    loops over the bits in closed form, the identity between the constant term of the
    two polynomials and the committed amounts, the byte layout, and the verifier's
    single multiscalar equation. *)
From Stdlib Require Import ZArith Lia Field.
From stdpp Require Import base numbers gmap strings list.
From S2P Require Import Prelude Keys Sha3 Ristretto ToyGroup Mnemonic ElGamal ElGamalSpec Sigma SigmaSpec Validity ValiditySpec RangeProof InnerProductSpec.

Open Scope Z_scope.

Section range.
Context `{R : Ristretto} {L : RistrettoLaws R} {Rnd : Random} {M : Merlin} {ML : MerlinLaws M} {Sh : Shake}.

#[local] Definition sDiv (a b : Scalar) : Scalar := sMul a (sInvert b).
#[local] Lemma range_field : field_theory sNew sOne sAdd sMul sSub sNeg sDiv sInvert eq.
Proof. exact scalar_field. Qed.
Add Field range_field : range_field.

Implicit Types service : ConfidentialTransferService.

(** * Bits *)

Fixpoint bitScalars (n : nat) (bitIndex amount : Z) : list Scalar :=
  match n with O => [] | S n' => SetUint64 (bitOf amount bitIndex) :: bitScalars n' (bitIndex + 1) amount end.
Fixpoint allBits (amounts lengths : list Z) : list Scalar :=
  match amounts, lengths with
  | a :: amounts', l :: lengths' => bitScalars (Z.to_nat l) 0 a ++ allBits amounts' lengths'
  | _, _ => []
  end.
Definition bitTotal (lengths : list Z) : nat := sum_list_with Z.to_nat lengths.
Definition lessOne (bits : list Scalar) : list Scalar := (λ b, sSub b sOne) <$> bits.

Lemma bitScalars_length n i a : length (bitScalars n i a) = n.
Proof. revert i. induction n as [|n IH]; intros i; [done|]. cbn. by rewrite IH. Qed.
Lemma allBits_length amounts lengths : length amounts = length lengths → length (allBits amounts lengths) = bitTotal lengths.
Proof.
  unfold bitTotal. revert lengths. induction amounts as [|a amounts IH]; intros [|l lengths] Hl; try done. cbn.
  rewrite length_app, bitScalars_length, IH by (by injection Hl). done.
Qed.

Lemma bitOf_cases a i : bitOf a i = 0 ∨ bitOf a i = 1.
Proof.
  unfold bitOf. rewrite (Z.land_ones _ 1) by lia. pose proof (Z.mod_pos_bound (Z.shiftr a i) (2 ^ 1)). lia.
Qed.

(** A bit as a scalar is idempotent. *)
Abbreviation bit := (λ b : Scalar, sMul b b = b).
Lemma allBits_bits amounts lengths : Forall bit (allBits amounts lengths).
Proof.
  revert lengths. induction amounts as [|a amounts IH]; intros [|l lengths]; cbn; try constructor. apply Forall_app_2; [|apply IH].
  generalize 0. induction (Z.to_nat l) as [|n IHn]; intros i; cbn; constructor; [|apply IHn].
  destruct (bitOf_cases a i) as [-> | ->]; rewrite ?SetUint64_0, ?SetUint64_1; ring.
Qed.

Lemma commitBits_ok n i a p g1 g2 h1 h2 :
  length g1 = n → length h1 = n →
  commitBits n i a p (g1 ++ g2) (h1 ++ h2)
  = Ok (pAdd p (pAdd (msm (bitScalars n i a) g1) (msm (lessOne (bitScalars n i a)) h1)), g2, h2).
Proof.
  revert i p g1 h1. induction n as [|n IH]; intros i p [|g g1] [|h h1] Hg Hh; try done; cbn [app commitBits bitScalars lessOne fmap list_fmap msm].
  - by rewrite !pAdd_identity.
  - injection Hg as Hg. injection Hh as Hh. rewrite IH by done. do 3 f_equal. unfold lessOne.
    destruct (bitOf_cases a i) as [E|E]; rewrite E; [rewrite decide_False by done|rewrite decide_True by done];
      rewrite ?SetUint64_0, ?SetUint64_1; module_eq; ring.
Qed.

Lemma commitAmounts_ok amounts lengths p g h :
  length amounts = length lengths → length g = bitTotal lengths → length h = bitTotal lengths →
  commitAmounts amounts lengths p g h = Ok (pAdd p (pAdd (msm (allBits amounts lengths) g) (msm (lessOne (allBits amounts lengths)) h))).
Proof.
  unfold bitTotal. revert lengths p g h. induction amounts as [|a amounts IH]; intros [|l lengths] p g h Hl Hg Hh; try done.
  { cbn. by rewrite !pAdd_identity. }
  cbn in Hg, Hh. injection Hl as Hl. cbn [commitAmounts allBits].
  rewrite <-(take_drop (Z.to_nat l) g), <-(take_drop (Z.to_nat l) h) at 1.
  rewrite commitBits_ok by (rewrite length_take; lia). obind. rewrite IH by (rewrite ?length_drop; lia). f_equal.
  unfold lessOne. rewrite fmap_app.
  rewrite (msm_split (Z.to_nat l) (_ ++ _) g), (msm_split (Z.to_nat l) (_ ++ _) h)
    by (rewrite length_app, ?length_fmap, bitScalars_length, allBits_length by done; unfold bitTotal; lia).
  rewrite !take_app_length', !drop_app_length' by (rewrite ?length_fmap, bitScalars_length; done). module_eq; ring.
Qed.

(** * The two polynomials *)

Fixpoint powerEnd (n : nat) (c v : Scalar) : Scalar := match n with O => c | S n' => powerEnd n' (sMul c v) v end.

Lemma powersLoop_length n c v : length (powersLoop n c v) = n.
Proof. revert c. induction n as [|n IH]; intros c; [done|]. cbn. by rewrite IH. Qed.
Lemma powersLoop_add n m c v : powersLoop (n + m) c v = powersLoop n c v ++ powersLoop m (powerEnd n c v) v.
Proof. revert c. induction n as [|n IH]; intros c; [done|]. cbn. by rewrite IH. Qed.
Lemma zAndTwoBits_length n c v : length (zAndTwoBits n c v) = n.
Proof. revert v. induction n as [|n IH]; intros v; [done|]. cbn. by rewrite IH. Qed.
Lemma zAndTwoLoop_length lengths c z : length (zAndTwoLoop lengths c z) = bitTotal lengths.
Proof.
  unfold bitTotal. revert c. induction lengths as [|l lengths IH]; intros c; [done|]. cbn. by rewrite length_app, zAndTwoBits_length, IH.
Qed.

Definition rightConstants (z : Scalar) (ys bits zs : list Scalar) : list Scalar :=
  zip_with (λ '(y, b) t, sAdd (sMul y (sAdd (sSub b sOne) z)) t) (zip ys bits) zs.

Lemma polynomialBits_ok n i a z zp y yp two sl1 sl2 sr1 sr2 :
  length sl1 = n → length sr1 = n →
  polynomialBits n i a z zp y yp two (sl1 ++ sl2) (sr1 ++ sr2)
  = Ok (mkPolynomial ((λ b, sSub b z) <$> bitScalars n i a) sl1,
        mkPolynomial (rightConstants z (powersLoop n yp y) (bitScalars n i a) (zAndTwoBits n zp two)) (zip_with sMul (powersLoop n yp y) sr1),
        powerEnd n yp y, sl2, sr2).
Proof.
  revert i yp two sl1 sr1. induction n as [|n IH]; intros i yp two [|s sl1] [|s' sr1] H1 H2; try done. cbn [app polynomialBits].
  injection H1 as H1. injection H2 as H2. rewrite IH by done. obind. done.
Qed.

Lemma rightConstants_app z y1 y2 b1 b2 t1 t2 :
  length b1 = length y1 → length t1 = length y1 →
  rightConstants z (y1 ++ y2) (b1 ++ b2) (t1 ++ t2) = rightConstants z y1 b1 t1 ++ rightConstants z y2 b2 t2.
Proof.
  intros Hb Ht. unfold rightConstants. rewrite zip_with_app by done. apply zip_with_app. rewrite length_zip_with. lia.
Qed.

Lemma polynomialAmounts_ok amounts lengths z zp y yp sl sr :
  length amounts = length lengths → length sl = bitTotal lengths → length sr = bitTotal lengths →
  polynomialAmounts amounts lengths z zp y yp sl sr
  = Ok (mkPolynomial ((λ b, sSub b z) <$> allBits amounts lengths) sl,
        mkPolynomial (rightConstants z (powersLoop (bitTotal lengths) yp y) (allBits amounts lengths) (zAndTwoLoop lengths zp z))
          (zip_with sMul (powersLoop (bitTotal lengths) yp y) sr)).
Proof.
  unfold bitTotal. revert lengths zp yp sl sr. induction amounts as [|a amounts IH]; intros [|l lengths] zp yp sl sr Hl H1 H2; try done.
  { by destruct sl, sr. }
  cbn in H1, H2. injection Hl as Hl. cbn [polynomialAmounts allBits zAndTwoLoop sum_list_with].
  rewrite <-(take_drop (Z.to_nat l) sl), <-(take_drop (Z.to_nat l) sr) at 1.
  rewrite polynomialBits_ok by (rewrite length_take; lia). obind. rewrite IH by (rewrite ?length_drop; lia). obind.
  cbn [constant linear]. rewrite take_drop, <-fmap_app, powersLoop_add.
  rewrite rightConstants_app by (rewrite powersLoop_length, ?bitScalars_length, ?zAndTwoBits_length; done).
  rewrite <-(take_drop (Z.to_nat l) sr) at 3. rewrite zip_with_app by (rewrite powersLoop_length, length_take; lia). done.
Qed.

(** * The constant term *)

Definition total (l : list Scalar) : Scalar := foldr sAdd sNew l.

Lemma total_foldl l s : foldl sAdd s l = sAdd s (total l).
Proof. revert s. induction l as [|x l IH]; intros s; cbn; [ring|]. rewrite IH. unfold total. ring. Qed.
Lemma total_app l k : total (l ++ k) = sAdd (total l) (total k).
Proof. unfold total. induction l as [|x l IH]; cbn; [ring|]. rewrite IH. ring. Qed.
Lemma total_scale c l : total (scale c l) = sMul c (total l).
Proof. unfold total, scale. induction l as [|x l IH]; cbn; [ring|]. rewrite IH. ring. Qed.
Lemma dot_scale c a b : dot a (scale c b) = sMul c (dot a b).
Proof.
  unfold scale. revert b. induction a as [|x a IH]; intros [|y b]; cbn; try ring. rewrite IH. ring.
Qed.

Lemma constant_term z ys bs zs :
  Forall bit bs → length bs = length ys → length zs = length ys →
  dot ((λ b, sSub b z) <$> bs) (rightConstants z ys bs zs)
  = sAdd (sMul (sSub z (sMul z z)) (total ys)) (sSub (dot bs zs) (sMul z (total zs))).
Proof.
  unfold rightConstants, total. intros Hb. revert ys zs. induction Hb as [|b bs Hb _ IH]; intros [|y ys] [|t zs] H1 H2; try done; cbn; [ring|].
  injection H1 as H1. injection H2 as H2. rewrite IH by done. ring [Hb].
Qed.

(** [Σ zp z^j v_j]. *)
Fixpoint weighted (zp z : Scalar) (vs : list Scalar) : Scalar :=
  match vs with [] => sNew | v :: vs' => sAdd (sMul zp v) (weighted (sMul zp z) z vs') end.

Lemma aggregateOpenings_weighted z os : aggregateOpenings z os = weighted (sMul z z) z os.
Proof.
  unfold aggregateOpenings.
  enough (∀ s zp, (foldl (λ '(sum, zPower) opening, let zPower := sMul zPower z in (sAdd sum (sMul zPower opening), zPower)) (s, zp) os).1
                  = sAdd s (weighted (sMul zp z) z os)) as -> by ring.
  induction os as [|o os IH]; intros s zp; cbn; [ring|]. rewrite IH. ring.
Qed.

Lemma zAndTwoLoop_scale k lengths zp z : zAndTwoLoop lengths (sMul k zp) z = scale k (zAndTwoLoop lengths zp z).
Proof.
  unfold scale. revert zp. induction lengths as [|l lengths IH]; intros zp; [done|]. cbn [zAndTwoLoop]. rewrite fmap_app, <-IH. f_equal.
  - generalize (sOne : Scalar). induction (Z.to_nat l) as [|n IHn]; intros two; [done|]. cbn. rewrite IHn. f_equal. ring.
  - f_equal. ring.
Qed.

(** An amount is the sum of its bits under the powers of two. *)
Lemma bits_amount n i a zp two :
  0 ≤ a < 2 ^ 64 → 0 ≤ i → Z.shiftr a i < 2 ^ Z.of_nat n →
  dot (bitScalars n i a) (zAndTwoBits n zp two) = sMul (sMul zp two) (SetUint64 (Z.shiftr a i)).
Proof.
  intros Ha. revert i two. induction n as [|n IH]; intros i two Hi Hn.
  - assert (0 ≤ Z.shiftr a i) by (apply Z.shiftr_nonneg; lia). change (2 ^ Z.of_nat 0) with 1 in Hn.
    replace (Z.shiftr a i) with 0 by lia. rewrite SetUint64_0. cbn. ring.
  - cbn [bitScalars zAndTwoBits dot].
    assert (E : Z.shiftr a i = bitOf a i + 2 * Z.shiftr a (i + 1)).
    { unfold bitOf. rewrite (Z.land_ones _ 1) by lia. rewrite <-Z.shiftr_shiftr by lia. rewrite (Z.shiftr_div_pow2 _ 1) by lia.
      change (2 ^ 1) with 2. pose proof (Z.div_mod (Z.shiftr a i) 2). lia. }
    assert (0 ≤ Z.shiftr a (i + 1)) by (apply Z.shiftr_nonneg; lia).
    assert (Z.shiftr a i ≤ a).
    { rewrite Z.shiftr_div_pow2 by lia. apply Z.div_le_upper_bound; [apply Z.pow_pos_nonneg; lia|].
      pose proof (Z.pow_pos_nonneg 2 i ltac:(lia) Hi). nia. }
    pose proof (bitOf_cases a i) as Hb.
    rewrite IH; [|lia|rewrite Nat2Z.inj_succ, Z.pow_succ_r in Hn by lia; lia].
    rewrite E. rewrite SetUint64_add, SetUint64_mul by lia.
    replace (SetUint64 2) with (sAdd sOne sOne : Scalar) by (by rewrite <-SetUint64_1, <-SetUint64_add).
    ring.
Qed.

Lemma bits_amounts amounts lengths zp z :
  Forall2 (λ a l, 0 ≤ a < 2 ^ l) amounts lengths → Forall (λ l, 0 ≤ l ≤ 64) lengths →
  dot (allBits amounts lengths) (zAndTwoLoop lengths zp z) = weighted zp z (SetUint64 <$> amounts).
Proof.
  intros H. revert zp. induction H as [|a l amounts lengths Ha H IH]; intros zp Hl; [done|]. apply Forall_cons in Hl as [Hl Hr].
  cbn [allBits zAndTwoLoop fmap list_fmap weighted].
  rewrite dot_app by (by rewrite bitScalars_length, zAndTwoBits_length). rewrite IH by done.
  assert (2 ^ l ≤ 2 ^ 64) by (apply Z.pow_le_mono_r; lia).
  rewrite bits_amount by (rewrite ?Z.shiftr_0_r, ?Z2Nat.id; lia). rewrite Z.shiftr_0_r. ring.
Qed.

Lemma twoPowers n zp : sMul zp (scalarPowerSum (SetUint64 2) n) = total (zAndTwoBits n zp sOne).
Proof.
  unfold scalarPowerSum, scalarPowers. rewrite total_foldl. transitivity (sMul zp (total (powersLoop n sOne (SetUint64 2)))); [ring|].
  enough (G : ∀ two, sMul zp (total (powersLoop n two (SetUint64 2))) = total (zAndTwoBits n zp two)) by apply G.
  induction n as [|n IH]; intros two; cbn [powersLoop zAndTwoBits]; unfold total in *; cbn [foldr]; [ring|].
  rewrite <-IH. replace (sMul two (SetUint64 2)) with (sAdd two two); [ring|].
  replace (SetUint64 2) with (sAdd sOne sOne : Scalar) by (by rewrite <-SetUint64_1, <-SetUint64_add). ring.
Qed.

Lemma deltaLoop_total lengths d zp z : deltaLoop lengths d zp z = sSub d (total (zAndTwoLoop lengths zp z)).
Proof.
  revert d zp. induction lengths as [|l lengths IH]; intros d zp; cbn [deltaLoop zAndTwoLoop]; [unfold total; cbn; ring|].
  rewrite IH, total_app, twoPowers. ring.
Qed.

Lemma foldl_total lengths s : foldl (λ total b, total + b) s lengths = s + foldl (λ total b, total + b) 0 lengths.
Proof. revert s. induction lengths as [|l lengths IH]; intros s; cbn [foldl]; [lia|]. rewrite (IH (s + l)), (IH (0 + l)). lia. Qed.
Lemma bitTotal_foldl lengths : Forall (λ l, 0 ≤ l) lengths → Z.of_nat (bitTotal lengths) = foldl (λ total b, total + b) 0 lengths.
Proof.
  unfold bitTotal. induction 1 as [|l lengths Hl _ IH]; [done|]. cbn [sum_list_with foldl]. rewrite foldl_total. lia.
Qed.

(** [t0 = Σ z^(2+j) v_j + δ(y, z)]. *)
Lemma constant_term_delta amounts lengths y z :
  Forall2 (λ a l, 0 ≤ a < 2 ^ l) amounts lengths → Forall (λ l, 0 ≤ l ≤ 64) lengths →
  dot ((λ b, sSub b z) <$> allBits amounts lengths)
    (rightConstants z (powersLoop (bitTotal lengths) sOne y) (allBits amounts lengths) (zAndTwoLoop lengths (sMul z z) z))
  = sAdd (weighted (sMul z z) z (SetUint64 <$> amounts)) (rangeProofDelta lengths y z).
Proof.
  intros Ha Hl. rewrite constant_term
    by (rewrite ?powersLoop_length, ?zAndTwoLoop_length, ?allBits_length by (by eapply Forall2_length); first [done|apply allBits_bits]).
  rewrite bits_amounts by done. unfold rangeProofDelta. rewrite deltaLoop_total.
  rewrite <-bitTotal_foldl, Nat2Z.id by (eapply Forall_impl; [exact Hl|intros ? [? _]; assumption]).
  replace (sMul (sMul z z) z) with (sMul z (sMul z z)) by ring. rewrite (zAndTwoLoop_scale z _ (sMul z z)), total_scale.
  unfold scalarPowerSum, scalarPowers. rewrite total_foldl. ring.
Qed.

(** * The verifier's equation *)

Definition ones (n : nat) : list Scalar := replicate n sOne.

(** The left vector at [x], over the generators. *)
Lemma left_vector z x bs sl g :
  length sl = length bs → length g = length bs →
  msm (evaluateRangeVectorPolynomial (mkPolynomial ((λ b, sSub b z) <$> bs) sl) x) g
  = pAdd (pSub (msm bs g) (pMul (msm (ones (length bs)) g) z)) (pMul (msm sl g) x).
Proof.
  unfold evaluateRangeVectorPolynomial, ones. cbn [constant linear]. revert sl g.
  induction bs as [|b bs IH]; intros [|s sl] [|p g] H1 H2; try done; cbn; [by module_eq; ring|].
  injection H1 as H1. injection H2 as H2. rewrite IH by done. module_eq; ring.
Qed.

(** The right vector at [x], over the generators divided by the powers of [y]. *)
Lemma right_vector z k x y c ci n bs zs sr h :
  sMul c ci = sOne → y ≠ sNew → length bs = n → length zs = n → length sr = n → length h = n →
  msm (evaluateRangeVectorPolynomial
         (mkPolynomial (rightConstants z (powersLoop n c y) bs (scale k zs)) (zip_with sMul (powersLoop n c y) sr)) x)
    (factored (powersLoop n ci (sInvert y)) h)
  = pAdd (pAdd (pAdd (msm (lessOne bs) h) (pMul (msm (ones n) h) z)) (pMul (msm sr h) x))
      (pMul (msm (zip_with sMul (powersLoop n ci (sInvert y)) zs) h) k).
Proof.
  intros Hc Hy. unfold evaluateRangeVectorPolynomial, rightConstants, ones, scale, factored, lessOne. cbn [constant linear].
  revert c ci Hc bs zs sr h.
  induction n as [|n IH]; intros c ci Hc [|b bs] [|t zs] [|s sr] [|p h] H1 H2 H3 H4; try done; cbn; [by module_eq; ring|].
  injection H1 as H1. injection H2 as H2. injection H3 as H3. injection H4 as H4.
  rewrite IH; [|pose proof (sInvert_r y Hy) as Hi; ring [Hc Hi]|done..]. module_eq; ring [Hc].
Qed.

Lemma g_coefficients z a s g :
  length g = length s → msm (gCoefficient (sNeg z) a <$> s) g = pSub (pMul (msm (ones (length s)) g) (sNeg z)) (pMul (msm s g) a).
Proof.
  unfold gCoefficient, ones. revert g. induction s as [|x s IH]; intros [|p g] Hl; try done; cbn; [by module_eq; ring|].
  injection Hl as Hl. rewrite IH by done. module_eq; ring.
Qed.

Lemma h_coefficients z b n ys zs s h :
  length ys = n → length zs = n → length s = n → length h = n →
  msm (zip_with (λ '(yi, zt) sr, hCoefficient z (sMul z z) b yi zt sr) (zip ys zs) s) h
  = pAdd (pMul (msm (ones n) h) z) (pSub (pMul (msm (zip_with sMul ys zs) h) (sMul z z)) (pMul (msm s (factored ys h)) b)).
Proof.
  unfold hCoefficient, ones, factored. revert ys zs s h.
  induction n as [|n IH]; intros [|y ys] [|t zs] [|x s] [|p h] H1 H2 H3 H4; try done; cbn; [by module_eq; ring|].
  injection H1 as H1. injection H2 as H2. injection H3 as H3. injection H4 as H4. rewrite IH by done. module_eq; ring.
Qed.

(** The commitments under the powers of [z]. *)
Lemma value_scalars d zz zp z vs rs :
  length rs = length vs →
  msm (valueScalars (length vs) d zz zp z) (zip_with (λ v r, pAdd (pMul BASEPOINT v) (pMul openingPoint r)) vs rs)
  = pMul (pAdd (pMul BASEPOINT (weighted (sMul zz zp) z vs)) (pMul openingPoint (weighted (sMul zz zp) z rs))) d.
Proof.
  revert zp rs. induction vs as [|v vs IH]; intros zp [|r rs] Hl; try done; cbn [valueScalars length zip_with msm weighted].
  { module_eq; ring. }
  injection Hl as Hl. rewrite IH by done. replace (sMul zz (sMul zp z)) with (sMul (sMul zz zp) z) by ring. module_eq; ring.
Qed.

(** The product of the two vectors at [x]. *)
Lemma product_at lc ll rc rl x :
  length ll = length lc → length rc = length lc → length rl = length lc →
  let t0 := dot lc rc in
  let t2 := dot ll rl in
  let t1 := sSub (sSub (dot (zip_with sAdd lc ll) (zip_with sAdd rc rl)) t0) t2 in
  dot (evaluateRangeVectorPolynomial (mkPolynomial lc ll) x) (evaluateRangeVectorPolynomial (mkPolynomial rc rl) x)
  = evaluateRangeScalarPolynomial t0 t1 t2 x.
Proof.
  unfold evaluateRangeVectorPolynomial, evaluateRangeScalarPolynomial. cbn [constant linear]. intros H1 H2 H3. cbv zeta.
  revert ll rc rl H1 H2 H3. induction lc as [|a lc IH]; intros [|b ll] [|c rc] [|e rl] H1 H2 H3; try done; cbn; [ring|].
  injection H1 as H1. injection H2 as H2. injection H3 as H3. rewrite IH by done. ring.
Qed.

(** * Generating, then verifying *)

Abbreviation nonzero := (λ s : Scalar, s ≠ sNew).
Abbreviation proper := (λ p : Point, p ≠ identity).

Lemma chainLoop_length n shake ps : chainLoop n shake = Ok ps → length ps = n.
Proof.
  revert shake ps. induction n as [|n IH]; intros shake ps H; cbn [chainLoop] in H; [by injection H as <-|].
  ostep H u E. destruct u as [uniform shake']. ostep H p Ep. ostep H qs Eqs. injection H as <-. cbn. f_equal. by eapply IH.
Qed.

Lemma slice_to_length {E A} (l : list A) n l' : slice_to (E := E) l (Z.of_nat n) = Ok l' → length l' = n.
Proof. unfold slice_to, len. case_decide; [|done]. intros [= <-]. rewrite length_take. lia. Qed.

Lemma rangeGenerators_length service n gens : rangeGenerators service n = Ok gens → length (gens_g gens) = n ∧ length (gens_h gens) = n.
Proof.
  unfold rangeGenerators, newRangeProofGenerators, rangeGeneratorChain. case_decide; intros Hr.
  - ostep Hr g Eg. ostep Hr h Eh. injection Hr as <-. split; by eapply slice_to_length.
  - ostep Hr g Eg. ostep Hr h Eh. injection Hr as <-. ostep Eg s1 E1. ostep Eg s2 E2. ostep Eh s3 E3. ostep Eh s4 E4.
    split; by eapply chainLoop_length.
Qed.

Lemma randomScalars_length n r l r' : randomScalars n r = (Ok l, r') → length l = n.
Proof.
  revert r l r'. induction n as [|n IH]; intros r l r' H; cbn [randomScalars] in H; [by apply mret_inv in H as [<- _]|].
  step H v E. step H vs Ev. apply mret_inv in H as [<- _]. cbn. f_equal. by eapply IH.
Qed.

Lemma padPolynomial_full n c l : length c = n → length l = n → padPolynomial n (mkPolynomial c l) = mkPolynomial c l.
Proof. intros <- Hl. unfold padPolynomial. cbn [constant linear]. by rewrite Hl, Nat.sub_diag, !app_nil_r. Qed.

(** The challenges [y], [z], [x] and [w] of a proof, and the transcript the inner
    product argument starts from. *)
Definition rangeChallenges (proof : batchedRangeProof) (size : nat) (t : Transcript)
  : outcome error (Scalar * Scalar * Scalar * Scalar * Transcript) :=
  let t := appendRangeProofDomainSeparator t (Z.of_nat size) in
  let t := appendTranscriptPoint t (str "A") (rp_a proof) in
  let t := appendTranscriptPoint t (str "S") (rp_s proof) in
  '(y, t) ← transcriptChallengeScalar t (str "y");
  '(z, t) ← transcriptChallengeScalar t (str "z");
  let t := appendTranscriptPoint t (str "T_1") (rp_t1 proof) in
  let t := appendTranscriptPoint t (str "T_2") (rp_t2 proof) in
  '(x, t) ← transcriptChallengeScalar t (str "x");
  let t := appendRangeScalar t (str "t_x") (rp_tx proof) in
  let t := appendRangeScalar t (str "t_x_blinding") (rp_txBlinding proof) in
  let t := appendRangeScalar t (str "e_blinding") (rp_eBlinding proof) in
  '(w, t) ← transcriptChallengeScalar t (str "w");
  '(_, t) ← transcriptChallengeScalar t (str "c");
  Ok (y, z, x, w, t).
(** The challenges that have to be inverted: [y] and those of the rounds. *)
Definition invertedChallenges (proof : batchedRangeProof) (size : nat) (t : Transcript) : outcome error (list Scalar) :=
  '(y, z, x, w, t) ← rangeChallenges proof size t;
  '(us, _) ← verificationChallenges (ip_left (rp_innerProduct proof)) (ip_right (rp_innerProduct proof))
               (appendRangeInnerProductDomainSeparator t (Z.of_nat size));
  Ok (y :: us).

Definition valueCommitments (amounts : list Z) (rs : list Scalar) : list Point :=
  zip_with (λ v r, pAdd (pMul BASEPOINT v) (pMul openingPoint r)) (SetUint64 <$> amounts) rs.

Lemma newRangeInnerProductProof_spec q f gens a b t k proof t' :
  (0 < k)%nat → length (gens_g gens) = (2 ^ k)%nat →
  newRangeInnerProductProof q f gens a b t = Ok (proof, t') →
  ∃ ls rs, ip_left proof = SetRistrettoPoint <$> ls ∧ ip_right proof = SetRistrettoPoint <$> rs ∧ length ls = k ∧ length rs = k ∧
    (Forall proper ls → Forall proper rs →
     ∃ us, length us = k ∧
       verificationChallenges (ip_left proof) (ip_right proof) (appendRangeInnerProductDomainSeparator t (Z.of_nat (2 ^ k))) = Ok (us, t') ∧
       (Forall nonzero us → argued q (gens_g gens) (factored f (gens_h gens)) a b proof us ls rs)).
Proof.
  intros Hk Hg H. unfold newRangeInnerProductProof in H.
  destruct (decide _) as [|Hd]; [done|]. unfold len in *. rewrite Hg in *. rewrite Nat2Z.id in H.
  destruct k as [|k]; [lia|]. assert (E2 : (2 ^ S k)%nat = (2 ^ k + 2 ^ k)%nat) by (cbn; lia).
  assert (0 < 2 ^ k)%nat by (pose proof (Nat.pow_nonzero 2 k); lia).
  assert (S k < 2 ^ S k)%nat by (apply Nat.pow_gt_lin_r; lia).
  pose proof (λ t, innerProductLoop_first (2 ^ S k) (2 ^ k) q f (gens_g gens) (gens_h gens) a b t) as F.
  rewrite <-E2 in F. rewrite F in H by lia.
  apply innerProductLoop_spec in H; [exact H|lia| |unfold factored; rewrite length_zip_with| |]; lia.
Qed.

Lemma sum_solve X A B C : pAdd X (pAdd A B) = C → A = pSub (pSub C X) B.
Proof. intros <-. module_eq; ring. Qed.

Section equation.
Context (amounts lengths : list Z) (rs : list Scalar) (g h : list Point) (sl sr : list Scalar) (y z x w d : Scalar).
Context (aBlinding sBlinding tau1 tau2 : Scalar) (ipp : rangeInnerProductProof) (us : list Scalar) (ls rrs : list Point).

Let n := bitTotal lengths.
Let bits := allBits amounts lengths.
Let leftP := mkPolynomial ((λ b, sSub b z) <$> bits) sl.
Let rightP := mkPolynomial (rightConstants z (powersLoop n sOne y) bits (zAndTwoLoop lengths (sMul z z) z))
                (zip_with sMul (powersLoop n sOne y) sr).
Let t0 := dot (constant leftP) (constant rightP).
Let t2 := dot (linear leftP) (linear rightP).
Let t1 := sSub (sSub (dot (zip_with sAdd (constant leftP) (linear leftP)) (zip_with sAdd (constant rightP) (linear rightP))) t0) t2.
Let tx := evaluateRangeScalarPolynomial t0 t1 t2 x.
Let txBlinding := evaluateRangeScalarPolynomial (weighted (sMul z z) z rs) tau1 tau2 x.
Let eBlinding := sAdd aBlinding (sMul sBlinding x).
Let pointA := pAdd (pMul openingPoint aBlinding) (pAdd (msm bits g) (msm (lessOne bits) h)).
Let pointS := msm ([sBlinding] ++ sl ++ sr) ([openingPoint] ++ g ++ h).
Let pointT1 := msm [t1; tau1] [BASEPOINT; openingPoint].
Let pointT2 := msm [t2; tau2] [BASEPOINT; openingPoint].
Let s := foldedCoefficients us.

Definition equationScalars : list Scalar :=
  [sOne; x; sMul d x; sMul d (sMul x x); sNeg (sAdd eBlinding (sMul d txBlinding));
   sAdd (sMul w (sSub tx (sMul (ip_a ipp) (ip_b ipp)))) (sMul d (sSub (rangeProofDelta lengths y z) tx))]
  ++ ((λ u, sMul u u) <$> us) ++ ((λ u, sMul (sInvert u) (sInvert u)) <$> us)
  ++ (gCoefficient (sNeg z) (ip_a ipp) <$> s)
  ++ zip_with (λ '(yi, zt) sr, hCoefficient z (sMul z z) (ip_b ipp) yi zt sr)
       (zip (scalarPowers (sInvert y) n) (zAndTwoLoop lengths sOne z)) (reverse s)
  ++ valueScalars (length amounts) d (sMul z z) sOne z.
Definition equationPoints : list Point :=
  [pointA; pointS; pointT1; pointT2] ++ [openingPoint; BASEPOINT] ++ ls ++ rrs ++ g ++ h ++ valueCommitments amounts rs.

Context (Hamounts : Forall2 (λ a l, 0 ≤ a < 2 ^ l) amounts lengths) (Hlengths : Forall (λ l, 0 ≤ l ≤ 64) lengths).
Context (Hrs : length rs = length amounts) (Hg : length g = n) (Hh : length h = n) (Hsl : length sl = n) (Hsr : length sr = n).
Context (Hus : n = (2 ^ length us)%nat) (Hls : length ls = length us) (Hrrs : length rrs = length us).

Lemma bits_length : length bits = n.
Proof using Hamounts. apply allBits_length. by eapply Forall2_length. Qed.
Lemma s_length : length s = n.
Proof using Hus. unfold s. by rewrite foldedCoefficients_length. Qed.

Lemma equation_sizes : length equationScalars = length equationPoints.
Proof using All.
  unfold equationScalars, equationPoints, scalarPowers, valueCommitments.
  assert (Hv : ∀ m a b c e, length (valueScalars m a b c e) = m).
  { induction m as [|m IH]; intros a b c e; [done|]. cbn. by rewrite IH. }
  rewrite !length_app, !length_zip_with, !length_fmap, Hv, powersLoop_length, zAndTwoLoop_length, length_reverse, s_length, Hls, Hrrs, Hg, Hh, Hrs.
  fold n. cbn. lia.
Qed.

(** The sum of the proof's points under the scalars of the verifier vanishes. *)
Lemma equation_holds :
  y ≠ sNew →
  argued (pMul BASEPOINT w) g (factored (scalarPowers (sInvert y) n) h) (evaluateRangeVectorPolynomial leftP x)
    (evaluateRangeVectorPolynomial rightP x) ipp us ls rrs →
  msm equationScalars equationPoints = identity.
Proof using All.
  intros Hy Harg. unfold argued, relation in Harg. fold s in Harg.
  assert (Hb := bits_length). assert (Hs := s_length).
  assert (Hprod : dot (evaluateRangeVectorPolynomial leftP x) (evaluateRangeVectorPolynomial rightP x) = tx).
  { unfold leftP, rightP, tx, t0, t1, t2. cbn [constant linear]. apply product_at; unfold leftP, rightP; cbn [constant linear].
    - by rewrite length_fmap, Hb.
    - unfold rightConstants. rewrite !length_zip_with, length_fmap, powersLoop_length, zAndTwoLoop_length. fold n. lia.
    - rewrite length_zip_with, length_fmap, powersLoop_length. lia. }
  rewrite Hprod in Harg. unfold leftP in Harg. rewrite left_vector in Harg by lia.
  assert (Hzz : zAndTwoLoop lengths (sMul z z) z = scale (sMul z z) (zAndTwoLoop lengths sOne z)).
  { rewrite <-zAndTwoLoop_scale. f_equal. ring. }
  unfold rightP in Harg. rewrite Hzz in Harg. unfold scalarPowers in Harg.
  rewrite (right_vector z (sMul z z) x y sOne sOne n) in Harg by (first [ring|done|apply zAndTwoLoop_length|lia]).
  unfold equationScalars, equationPoints.
  change ([pointA; pointS; pointT1; pointT2] ++ [openingPoint; BASEPOINT] ++ ls ++ rrs ++ g ++ h ++ valueCommitments amounts rs)
    with ([pointA; pointS; pointT1; pointT2; openingPoint; BASEPOINT] ++ ls ++ rrs ++ g ++ h ++ valueCommitments amounts rs).
  rewrite msm_app by done. rewrite msm_app by (by rewrite length_fmap). rewrite msm_app by (by rewrite length_fmap).
  rewrite msm_app by (by rewrite length_fmap, Hs).
  unfold scalarPowers.
  rewrite msm_app by (rewrite !length_zip_with, powersLoop_length, zAndTwoLoop_length, length_reverse, Hs; fold n; lia).
  rewrite g_coefficients by lia.
  rewrite (h_coefficients z (ip_b ipp) n) by (rewrite ?powersLoop_length, ?zAndTwoLoop_length, ?length_reverse; done).
  unfold valueCommitments. rewrite <-(length_fmap SetUint64 amounts), value_scalars by (by rewrite length_fmap).
  replace (sMul (sMul z z) sOne) with (sMul z z) by ring.
  pose proof (constant_term_delta amounts lengths y z Hamounts Hlengths) as Hdelta. fold bits n in Hdelta.
  change (dot _ _ = _) with (t0 = sAdd (weighted (sMul z z) z (SetUint64 <$> amounts)) (rangeProofDelta lengths y z)) in Hdelta.
  rewrite Hb in Harg. rewrite Hs. apply sum_solve in Harg. rewrite Harg.
  assert (HS : pointS = pAdd (pMul openingPoint sBlinding) (pAdd (msm sl g) (msm sr h))).
  { unfold pointS. cbn [app msm]. by rewrite msm_app by lia. }
  rewrite HS. unfold pointA, pointT1, pointT2, eBlinding, txBlinding, tx, evaluateRangeScalarPolynomial. cbn [msm].
  rewrite Hdelta. clearbody t1 t2. module_eq; ring.
Qed.
End equation.

Lemma proofPointsLoop_ok ps : Forall proper ps → proofPointsLoop (SetRistrettoPoint <$> ps) = Ok ps.
Proof.
  induction 1 as [|p ps Hp _ IH]; [done|]. rewrite fmap_cons. cbn [proofPointsLoop]. rewrite ristrettoPoint_encoded.
  unfold IsIdentity. rewrite bool_decide_eq_false_2 by done. obind. by rewrite IH.
Qed.

Lemma parseEach_ok ps name : parseEach (SetRistrettoPoint <$> ps) name = Ok ps.
Proof. induction ps as [|p ps IH]; [done|]. rewrite fmap_cons. cbn [parseEach]. rewrite ristrettoPoint_encoded. obind. by rewrite IH. Qed.

Lemma rangeVectorPolynomialInnerProduct_ok l r n :
  length (constant l) = n → length (linear l) = n → length (constant r) = n → length (linear r) = n →
  rangeVectorPolynomialInnerProduct l r
  = Ok (dot (constant l) (constant r),
        sSub (sSub (dot (zip_with sAdd (constant l) (linear l)) (zip_with sAdd (constant r) (linear r))) (dot (constant l) (constant r)))
          (dot (linear l) (linear r)),
        dot (linear l) (linear r)).
Proof.
  intros H1 H2 H3 H4. unfold rangeVectorPolynomialInnerProduct, len. rewrite decide_False by lia.
  rewrite !scalarInnerProduct_ok by (rewrite ?length_zip_with; lia). done.
Qed.

Lemma verify_with service proof commitments lengths n t gens ps ls rrs y z x w t5 sq isq s t6 d t7 :
  service_ok service → length commitments = length lengths → powerOfTwo (Z.of_nat n) = true → bitTotal lengths = n → length s = n →
  rangeGenerators service n = Ok gens →
  proofPointsLoop [rp_a proof; rp_s proof; rp_t1 proof; rp_t2 proof] = Ok ps →
  rangeChallenges proof n t = Ok (y, z, x, w, t5) →
  let ipp := rp_innerProduct proof in
  rangeInnerProductVerificationScalars ipp n t5 = Ok (sq, isq, s, t6) →
  transcriptChallengeScalar (appendRangeScalar (appendRangeScalar t6 (str "ipp_a") (ip_a ipp)) (str "ipp_b") (ip_b ipp)) (str "d") = Ok (d, t7) →
  parseEach (ip_left ipp) "range inner product L" = Ok ls → parseEach (ip_right ipp) "range inner product R" = Ok rrs →
  let scalars := [sOne; x; sMul d x; sMul d (sMul x x); sNeg (sAdd (rp_eBlinding proof) (sMul d (rp_txBlinding proof)));
       sAdd (sMul w (sSub (rp_tx proof) (sMul (ip_a ipp) (ip_b ipp)))) (sMul d (sSub (rangeProofDelta lengths y z) (rp_tx proof)))]
      ++ sq ++ isq ++ (gCoefficient (sNeg z) (ip_a ipp) <$> s)
      ++ zip_with (λ '(yi, zt) sr, hCoefficient z (sMul z z) (ip_b ipp) yi zt sr)
           (zip (scalarPowers (sInvert y) n) (zAndTwoLoop lengths sOne z)) (reverse s)
      ++ valueScalars (length commitments) d (sMul z z) sOne z in
  let points := ps ++ [openingPoint; BASEPOINT] ++ ls ++ rrs ++ gens_g gens ++ gens_h gens ++ commitments in
  length scalars = length points → msm scalars points = identity →
  verifyBatchedRangeProof service proof commitments lengths n t = Ok tt.
Proof.
  intros Hs Hc Hp Hn Hl Eg Eps Ech ipp Ei Ed Els Errs scalars points Hlen Hmsm.
  unfold verifyBatchedRangeProof. rewrite decide_False by (unfold len; rewrite Hp; intros [?|?]; [lia|done]).
  rewrite Eg. obind. rewrite Eps. obind. unfold rangeChallenges in Ech.
  ostep Ech c Ey. destruct c as [y' t1]. ostep Ech c Ez. destruct c as [z' t2]. ostep Ech c Ex. destruct c as [x' t3].
  ostep Ech c Ew. destruct c as [w' t4]. ostep Ech c Ec. destruct c as [c' t5']. injection Ech as <- <- <- <- <-.
  rewrite Ey. obind. rewrite Ez. obind. rewrite Ex. obind. rewrite Ew. obind. rewrite Ec. obind. fold ipp. rewrite Ei. obind. rewrite Ed. obind.
  rewrite decide_False by (rewrite zAndTwoLoop_length, Hn; lia). rewrite pedersenOpeningBasepoint_ok by done. obind.
  rewrite Els. obind. rewrite Errs. obind. rewrite (take_ge s) by lia. fold scalars points.
  rewrite decide_False by (unfold len; lia). rewrite MultiscalarMulVartime_spec by done. rewrite Hmsm.
  unfold IsIdentity. by rewrite bool_decide_eq_true_2.
Qed.

(** What a generated proof consists of, and when it is accepted. *)
Lemma range_direct service amounts lengths rs k t random proof random' :
  service_ok service → (0 < k < 32)%nat → bitTotal lengths = (2 ^ k)%nat →
  Forall2 (λ a l, 0 ≤ a < 2 ^ l) amounts lengths → Forall (λ l, 0 ≤ l ≤ 64) lengths →
  newBatchedRangeProof service amounts lengths rs (2 ^ k) t random = (Ok proof, random') →
  ∃ ps ls rrs,
    [rp_a proof; rp_s proof; rp_t1 proof; rp_t2 proof] = SetRistrettoPoint <$> ps ∧
    ip_left (rp_innerProduct proof) = SetRistrettoPoint <$> ls ∧ ip_right (rp_innerProduct proof) = SetRistrettoPoint <$> rrs ∧
    length ls = k ∧ length rrs = k ∧
    (Forall proper ps → Forall proper ls → Forall proper rrs →
     ∃ cs, invertedChallenges proof (2 ^ k) t = Ok cs ∧
       (Forall nonzero cs → verifyBatchedRangeProof service proof (valueCommitments amounts rs) lengths (2 ^ k) t = Ok tt)).
Proof.
  intros Hs Hk Hn Ha Hl H. unfold newBatchedRangeProof in H. destruct (decide _) as [|Hd] in H; [done|].
  assert (Hal := Forall2_length _ _ _ Ha).
  assert (Hrs : length rs = length amounts) by (unfold len in Hd; lia).
  step H gens Eg. destruct (rangeGenerators_length _ _ _ Eg) as [Hg Hh].
  step H B E. rewrite pedersenOpeningBasepoint_ok in E by done. injection E as <-.
  step H aBlinding E1. step H pA E2. rewrite commitAmounts_ok in E2 by (rewrite ?Hn; done). injection E2 as <-.
  step H sl E3. apply randomScalars_length in E3. step H sr E4. apply randomScalars_length in E4.
  step H sBlinding E5. step H c Ey. destruct c as [y t1]. step H c Ez. destruct c as [z t2].
  step H pq Ep. rewrite polynomialAmounts_ok in Ep by (rewrite ?Hn; done). injection Ep as <-.
  rewrite Hn in H.
  assert (Hbits : length (allBits amounts lengths) = (2 ^ k)%nat) by (by rewrite allBits_length).
  assert (Hrc : ∀ zp, length (rightConstants z (powersLoop (2 ^ k) sOne y) (allBits amounts lengths) (zAndTwoLoop lengths zp z)) = (2 ^ k)%nat).
  { intros zp. unfold rightConstants. rewrite !length_zip_with, powersLoop_length, zAndTwoLoop_length. lia. }
  assert (Hrl : length (zip_with sMul (powersLoop (2 ^ k) sOne y) sr) = (2 ^ k)%nat) by (rewrite length_zip_with, powersLoop_length; lia).
  rewrite !padPolynomial_full in H by (rewrite ?length_fmap; done).
  step H ts Et. rewrite (rangeVectorPolynomialInnerProduct_ok _ _ (2 ^ k)) in Et by (cbn [constant linear]; rewrite ?length_fmap; done).
  injection Et as <-. step H tau1 E6. step H tau2 E7. rewrite aggregateOpenings_weighted in H.
  rewrite !MultiscalarMul_spec in H by (rewrite ?length_app; cbn; lia).
  rewrite !pedersenCommitment_eq in *.
  step H c Ex. destruct c as [x t3].
  step H c Ew. destruct c as [w t4]. step H c Ec. destruct c as [c5 t5].
  step H c Ei. destruct c as [ipp t6].
  apply (newRangeInnerProductProof_spec _ _ _ _ _ _ k) in Ei as (ls & rrs & El & Er & Hls & Hrrs & Hv); [|lia|done].
  step H c Ed. destruct c as [d t7]. apply mret_inv in H as [Hproof _].
  rewrite MultiscalarMul_spec in Ey by (rewrite !length_app; cbn; lia).
  assert (Ech : rangeChallenges proof (2 ^ k) t = Ok (y, z, x, w, t5)).
  { rewrite <-Hproof. unfold rangeChallenges. cbn [rp_a rp_s rp_t1 rp_t2 rp_tx rp_txBlinding rp_eBlinding].
    rewrite Ey. obind. rewrite Ez. obind. rewrite Ex. obind. rewrite Ew. obind. by rewrite Ec. }
  eexists [_; _; _; _], ls, rrs. subst proof. cbn [rp_a rp_s rp_t1 rp_t2 rp_innerProduct].
  do 3 (split; [done|]). do 2 (split; [done|]). intros Pp Pl Pr. destruct (Hv Pl Pr) as (us & Hus & Ev & Harg).
  exists (y :: us). split.
  { unfold invertedChallenges. rewrite Ech. obind. cbn [rp_innerProduct]. by rewrite Ev. }
  intros [Hy Hnz]%Forall_cons. specialize (Harg Hnz).
  assert (Hok : powerOfTwo (Z.of_nat (2 ^ k)) = true) by (destruct (powerOfTwo _); [done|]; exfalso; apply Hd; by right; right).
  assert (Hv2 : length (valueCommitments amounts rs) = length amounts) by (unfold valueCommitments; rewrite length_zip_with, length_fmap; lia).
  assert (Hn2 : bitTotal lengths = (2 ^ length us)%nat) by (by rewrite Hus).
  eapply (verify_with service _ _ lengths (2 ^ k) t gens _ ls rrs y z x w t5); [done|lia|done|done| |exact Eg| |exact Ech| | | | | |].
  - rewrite foldedCoefficients_length. by rewrite Hus.
  - cbn [rp_a rp_s rp_t1 rp_t2]. apply (proofPointsLoop_ok [_; _; _; _]). exact Pp.
  - cbn [rp_innerProduct]. destruct ipp as [ipl ipr ipa ipb]. cbn [ip_left ip_right] in *. subst ipl ipr.
    eapply verificationScalars_ok; [done|by rewrite length_fmap|by rewrite length_fmap|done|done|exact Ev].
  - exact Ed.
  - cbn [rp_innerProduct]. rewrite El. apply parseEach_ok.
  - cbn [rp_innerProduct]. rewrite Er. apply parseEach_ok.
  - pose proof (equation_sizes amounts lengths rs (gens_g gens) (gens_h gens) sl sr y z x w d aBlinding sBlinding tau1 tau2 ipp us ls rrs) as Hsz.
    unfold equationScalars, equationPoints in Hsz. rewrite !Hn in Hsz. rewrite Hv2. apply Hsz; (done || lia).
  - pose proof (equation_holds amounts lengths rs (gens_g gens) (gens_h gens) sl sr y z x w d aBlinding sBlinding tau1 tau2 ipp us ls rrs) as Heq.
    unfold equationScalars, equationPoints in Heq. rewrite !Hn in Heq. rewrite Hv2. apply Heq; (done || lia).
Qed.

(** * Bytes *)

Abbreviation blocks_ok := (Forall (λ b : bytes, length b = 32%nat)).

Lemma interleave_length l r : blocks_ok l → blocks_ok r → length r = length l → length (interleave l r) = (64 * length l)%nat.
Proof.
  intros Hl. revert r. induction Hl as [|b l Hb _ IH]; intros [|c r] Hr Hlen; try done. apply Forall_cons in Hr as [Hc Hr]. injection Hlen as Hlen.
  cbn [interleave length]. rewrite !length_app, IH by done. lia.
Qed.

Lemma interleave_parts l r i b c rest :
  blocks_ok l → blocks_ok r → l !! i = Some b → r !! i = Some c →
  sub (i * 64) (i * 64 + 32) (interleave l r ++ rest) = b ∧ sub (i * 64 + 32) (i * 64 + 64) (interleave l r ++ rest) = c.
Proof.
  intros Hl. revert r i. induction Hl as [|b0 l Hb _ IH]; intros [|c0 r] [|i] Hr Hi Hj; try done; apply Forall_cons in Hr as [Hc Hr]; cbn [interleave].
  - injection Hi as ->. injection Hj as ->. rewrite <-!app_assoc. split; [by apply sub_hit|].
    rewrite (sub_skip _ _ 32) by lia. by apply sub_hit.
  - rewrite <-!app_assoc. destruct (IH r i Hr Hi Hj) as [H1 H2].
    rewrite !(sub_skip _ _ 32 b0) by lia. rewrite !(sub_skip _ _ 32 c0) by lia. split; [etransitivity; [|exact H1]|etransitivity; [|exact H2]]; f_equal; lia.
Qed.

Lemma fmap_seq_eq {A} (f : nat → A) l : (∀ i x, l !! i = Some x → f i = x) → f <$> seq 0 (length l) = l.
Proof.
  intros H. apply list_eq. intros i. rewrite list_lookup_fmap. destruct (l !! i) as [x|] eqn:E.
  - rewrite lookup_seq_lt by (by eapply lookup_lt_Some). cbn. f_equal. by apply H.
  - rewrite lookup_seq_ge; [done|]. by apply lookup_ge_None.
Qed.

Lemma parseRangeInnerProductProof_marshal l r a b :
  blocks_ok l → blocks_ok r → length r = length l → (length l < 32)%nat →
  parseRangeInnerProductProof (marshalRangeInnerProductProof (mkInnerProduct l r a b)) = Ok (mkInnerProduct l r a b).
Proof.
  intros Hl Hr Hlen H32. unfold marshalRangeInnerProductProof. cbn [ip_left ip_right ip_a ip_b].
  assert (Hi := interleave_length l r Hl Hr Hlen).
  set (data := interleave l r ++ ToBytes a ++ ToBytes b).
  assert (Hd : len data = 32 * (2 * Z.of_nat (length l) + 2)).
  { unfold data, len. rewrite !length_app, !ToBytes_length, Hi. lia. }
  unfold parseRangeInnerProductProof. rewrite Hd. rewrite (Z.mul_comm 32), Z.mod_mul, Z.div_mul by lia.
  replace (2 * Z.of_nat (length l) + 2 - 2) with (Z.of_nat (length l) * 2) by lia. rewrite Z.mod_mul, Z.div_mul by lia.
  rewrite decide_False by lia. rewrite decide_False by lia. rewrite Nat2Z.id.
  assert (E1 : sub (length l * 64) (length l * 64 + 32) data = ToBytes a).
  { unfold data. rewrite (sub_skip _ _ (length l * 64)) by lia. rewrite Nat.sub_diag. replace (length l * 64 + 32 - length l * 64)%nat with 32%nat by lia.
    apply sub_hit. apply ToBytes_length. }
  assert (E2 : drop (length l * 64 + 32) data = ToBytes b).
  { unfold data. rewrite app_assoc. apply drop_app_length'. rewrite length_app, ToBytes_length. lia. }
  rewrite E1, E2, !scalarFromBytes_encoded. obind.
  assert (Hparts : ∀ i x y, l !! i = Some x → r !! i = Some y →
            sub (i * 64) (i * 64 + 32) data = x ∧ sub (i * 64 + 32) (i * 64 + 64) data = y).
  { intros i x y Hx Hy. apply (interleave_parts l r i x y (ToBytes a ++ ToBytes b) Hl Hr Hx Hy). }
  f_equal. f_equal.
  - apply fmap_seq_eq. intros i x Hx. assert (i < length r)%nat as [y Hy]%lookup_lt_is_Some_2 by (rewrite Hlen; by eapply lookup_lt_Some).
    by apply (Hparts i x y).
  - rewrite <-Hlen. apply fmap_seq_eq. intros i y Hy. assert (i < length l)%nat as [x Hx]%lookup_lt_is_Some_2 by (rewrite <-Hlen; by eapply lookup_lt_Some).
    by apply (Hparts i x y).
Qed.

Fixpoint pairs (l r : list bytes) : list bytes :=
  match l, r with b :: l', c :: r' => b :: c :: pairs l' r' | _, _ => [] end.

Lemma interleave_pairs l r : interleave l r = concat (pairs l r).
Proof. revert r. induction l as [|b l IH]; intros [|c r]; try done. cbn. by rewrite IH. Qed.
Lemma pairs_length l r : length r = length l → length (pairs l r) = (2 * length l)%nat.
Proof. revert r. induction l as [|b l IH]; intros [|c r] H; try done. injection H as H. cbn. rewrite IH by done. lia. Qed.
Lemma pairs_forall (P : bytes → Prop) l r : length r = length l → Forall P (pairs l r) ↔ Forall P l ∧ Forall P r.
Proof.
  revert r. induction l as [|b l IH]; intros [|c r] H; try done. injection H as H. cbn. rewrite !Forall_cons, IH by done. naive_solver.
Qed.

(** The blocks of an encoded proof. *)
Definition proofBlocks (proof : batchedRangeProof) : list bytes :=
  [rp_a proof; rp_s proof; rp_t1 proof; rp_t2 proof] ++ (ToBytes <$> [rp_tx proof; rp_txBlinding proof; rp_eBlinding proof])
  ++ pairs (ip_left (rp_innerProduct proof)) (ip_right (rp_innerProduct proof))
  ++ (ToBytes <$> [ip_a (rp_innerProduct proof); ip_b (rp_innerProduct proof)]).

Lemma marshal_blocks proof : marshalBatchedRangeProof proof = concat (proofBlocks proof).
Proof.
  unfold marshalBatchedRangeProof, marshalRangeInnerProductProof, proofBlocks.
  rewrite !concat_app, interleave_pairs. cbn [concat fmap list_fmap]. by rewrite !app_nil_r, <-!app_assoc.
Qed.

(** The encodings of points in a proof of [k] rounds are its first four blocks and
    the [2 k] ones from the seventh on. *)
Definition pointBlocks (k : nat) : list nat := [0; 1; 2; 3]%nat ++ seq 7 (2 * k).

Section layout.
Context (proof : batchedRangeProof) (k : nat) (ps ls rrs : list Point).
Context (Hps : [rp_a proof; rp_s proof; rp_t1 proof; rp_t2 proof] = SetRistrettoPoint <$> ps).
Context (Hl : ip_left (rp_innerProduct proof) = SetRistrettoPoint <$> ls) (Hr : ip_right (rp_innerProduct proof) = SetRistrettoPoint <$> rrs).
Context (Hlk : length ls = k) (Hrk : length rrs = k) (Hk : (k < 32)%nat).

Lemma proofBlocks_ok : blocks_ok (proofBlocks proof).
Proof using All.
  unfold proofBlocks. apply Forall_app_2; [rewrite Hps; apply encoded_blocks|]. apply Forall_app_2; [apply scalar_blocks|].
  apply Forall_app_2; [|apply scalar_blocks]. apply pairs_forall; [rewrite Hl, Hr, !length_fmap; lia|].
  rewrite Hl, Hr. split; apply encoded_blocks.
Qed.

Lemma proofBlocks_length : length (proofBlocks proof) = (9 + 2 * k)%nat.
Proof using All. unfold proofBlocks. rewrite !length_app, pairs_length by (rewrite Hl, Hr, !length_fmap; lia). rewrite Hl, !length_fmap. cbn. lia. Qed.

Lemma marshal_length : len (marshalBatchedRangeProof proof) = 32 * (9 + 2 * Z.of_nat k).
Proof using All.
  unfold len. rewrite marshal_blocks, length_concat_blocks, proofBlocks_length by apply proofBlocks_ok. lia.
Qed.

Lemma parseBatchedRangeProof_marshal : parseBatchedRangeProof (marshalBatchedRangeProof proof) = Ok proof.
Proof using All.
  assert (Hlen := marshal_length). unfold parseBatchedRangeProof. rewrite Hlen.
  rewrite decide_False by (rewrite (Z.mul_comm 32), Z.mod_mul by lia; lia).
  assert (Hat : ∀ i b, proofBlocks proof !! i = Some b → sub (i * 32) (i * 32 + 32) (marshalBatchedRangeProof proof) = b).
  { intros i b Hb. rewrite marshal_blocks. replace (i * 32 + 32)%nat with ((i + 1) * 32)%nat by lia. apply block_concat; [apply proofBlocks_ok|done]. }
  pose proof (Hat 0%nat _ eq_refl) as B0. pose proof (Hat 1%nat _ eq_refl) as B1. pose proof (Hat 2%nat _ eq_refl) as B2.
  pose proof (Hat 3%nat _ eq_refl) as B3. pose proof (Hat 4%nat _ eq_refl) as B4. pose proof (Hat 5%nat _ eq_refl) as B5.
  pose proof (Hat 6%nat _ eq_refl) as B6. cbn [Nat.mul Nat.add] in B0, B1, B2, B3, B4, B5, B6.
  rewrite B4, B5, B6, !scalarFromBytes_encoded. obind.
  assert (Hdrop : drop 224 (marshalBatchedRangeProof proof) = marshalRangeInnerProductProof (rp_innerProduct proof)).
  { unfold marshalBatchedRangeProof. rewrite !app_assoc. apply drop_app_length'.
    assert (Hb4 : blocks_ok [rp_a proof; rp_s proof; rp_t1 proof; rp_t2 proof]) by (rewrite Hps; apply encoded_blocks).
    rewrite !Forall_cons in Hb4. destruct Hb4 as (L1 & L2 & L3 & L4 & _). by rewrite !length_app, !ToBytes_length, L1, L2, L3, L4. }
  rewrite Hdrop. destruct proof as [a s t1 t2 tx txb eb [il ir ia ib]]. cbn [rp_innerProduct ip_left ip_right] in *.
  rewrite parseRangeInnerProductProof_marshal by (subst il ir; rewrite ?length_fmap; first [apply encoded_blocks|lia]). obind.
  by rewrite B0, B1, B2, B3.
Qed.

(** Points that are not encoded as zeros are not the identity. *)
Lemma pointBlocks_proper :
  Forall (λ i, block i (marshalBatchedRangeProof proof) ≠ zeros 32) (pointBlocks k) → Forall proper ps ∧ Forall proper ls ∧ Forall proper rrs.
Proof using All.
  intros H. assert (Henc : ∀ qs, Forall (λ b, b ≠ zeros 32) (SetRistrettoPoint <$> qs) → Forall proper qs).
  { intros qs Hq. rewrite Forall_fmap in Hq. eapply Forall_impl; [exact Hq|]. intros q Hne. by apply encoded_identity. }
  assert (Hat : ∀ i b, proofBlocks proof !! i = Some b → i ∈ pointBlocks k → b ≠ zeros 32).
  { intros i b Hb Hi. rewrite Forall_forall in H. specialize (H i Hi). rewrite marshal_blocks in H.
    by rewrite (block_concat _ _ _ proofBlocks_ok Hb) in H. }
  assert (Hlr : Forall (λ b, b ≠ zeros 32) (pairs (ip_left (rp_innerProduct proof)) (ip_right (rp_innerProduct proof)))).
  { apply Forall_lookup_2. intros j b Hj. apply (Hat (7 + j)%nat).
    - unfold proofBlocks. rewrite app_assoc, lookup_app_r by (cbn; lia). cbn [length app fmap list_fmap]. replace (7 + j - 7)%nat with j by lia.
      by rewrite lookup_app_l by (by eapply lookup_lt_Some).
    - apply elem_of_app. right. apply elem_of_seq. apply lookup_lt_Some in Hj.
      rewrite pairs_length in Hj by (rewrite Hl, Hr, !length_fmap; lia). rewrite Hl, length_fmap in Hj. lia. }
  apply pairs_forall in Hlr as [H1 H2]; [|rewrite Hl, Hr, !length_fmap; lia]. rewrite Hl in H1. rewrite Hr in H2.
  split_and!; [|by apply Henc|by apply Henc]. apply Henc. rewrite <-Hps.
  repeat constructor; [apply (Hat 0%nat)|apply (Hat 1%nat)|apply (Hat 2%nat)|apply (Hat 3%nat)]; try reflexivity;
    apply elem_of_app; left; set_solver.
Qed.
End layout.

(** * The context *)

Lemma zeros_forall l : Forall (λ v, v = 0) l → l = zeros (length l).
Proof. unfold zeros. induction 1 as [|v l -> _ IH]; [done|]. cbn. by rewrite <-IH. Qed.

Lemma contextLoop_inv cs lengths openings rs :
  length lengths = length cs → length openings = length cs → contextLoop cs lengths openings = Ok rs →
  ∃ ps, cs = SetRistrettoPoint <$> ps ∧ Forall proper ps ∧ openings = ToBytes <$> rs ∧ Forall (λ l, l ≠ 0 ∧ l ≤ 64) lengths.
Proof.
  revert lengths openings rs. induction cs as [|c cs IH]; intros [|l lengths] [|o openings] rs H1 H2 H; try done.
  { injection H as <-. exists []. repeat constructor. }
  cbn [contextLoop] in H. ostep H u E. destruct (ristrettoPoint c _) as [p|e|] eqn:Ep; [|done|done]. apply ristrettoPoint_inv in Ep as ->.
  destruct (IsIdentity p) eqn:Ei; [done|]. gcheck H. ostep H r Eo. apply scalarFromBytes_inv in Eo as ->. ostep H rs' Er. injection H as <-.
  injection H1 as H1. injection H2 as H2. destruct (IH _ _ _ H1 H2 Er) as (ps & -> & Hp & -> & Hl). exists (p :: ps).
  unfold IsIdentity in Ei. apply bool_decide_eq_false in Ei. repeat (constructor; try done); lia.
Qed.

Lemma parseContextLoop_ok (ps : list Point) (lengths : list Z) (context : bytes) n i :
  Forall proper ps → length lengths = length ps → Forall (λ l, l ≠ 0 ∧ l ≤ 64) lengths → (i + n = 8)%nat → (length ps ≤ 8)%nat →
  (∀ j p l, ps !! j = Some p → lengths !! j = Some l →
     block j context = SetRistrettoPoint p ∧ idx (E := error) context (256 + Z.of_nat j) = Ok l) →
  (∀ j, (length ps ≤ j < 8)%nat → block j context = zeros 32 ∧ idx (E := error) context (256 + Z.of_nat j) = Ok 0) →
  parseContextLoop n i (bool_decide (length ps < i)%nat) context = Ok (drop i ps, drop i lengths).
Proof.
  intros Hp Hlen Hl Hn H8 Hin Hout. revert i Hn. induction n as [|n IH]; intros i Hn; cbn [parseContextLoop].
  { by rewrite !drop_ge by lia. }
  fold (block i context). specialize (IH (S i) ltac:(lia)). destruct (decide (i < length ps)%nat) as [Hi|Hi].
  - destruct (lookup_lt_is_Some_2 ps i Hi) as [p Ep]. destruct (lookup_lt_is_Some_2 lengths i ltac:(lia)) as [l El].
    destruct (Hin i p l Ep El) as [-> ->]. obind. assert (Hpp : p ≠ identity) by (eapply (Forall_lookup_1 _ _ _ _ Hp), Ep).
    rewrite bool_decide_eq_false_2; [|intros Hz%zeros_forall; rewrite SetRistrettoPoint_length in Hz; by apply encoded_identity in Hz].
    rewrite bool_decide_eq_false_2 by lia. rewrite ristrettoPoint_encoded. unfold IsIdentity. rewrite bool_decide_eq_false_2 by done. obind.
    pose proof (Forall_lookup_1 _ _ _ _ Hl El) as [? ?]. rewrite decide_False by lia. rewrite bool_decide_eq_false_2 in IH by lia. rewrite IH. obind.
    by rewrite (drop_S _ _ _ Ep), (drop_S _ _ _ El).
  - destruct (Hout i ltac:(lia)) as [-> ->]. obind. rewrite bool_decide_eq_true_2 by (apply Forall_replicate; done).
    rewrite decide_False by (intros H; by apply H). rewrite bool_decide_eq_true_2 in IH by lia. rewrite IH. by rewrite !drop_ge by lia.
Qed.

Lemma sub_zeros a b n : (b ≤ n)%nat → sub a b (zeros n) = zeros (b - a).
Proof. intros H. unfold sub, zeros. rewrite drop_replicate, take_replicate. f_equal. lia. Qed.

Lemma parse_context ps lengths :
  Forall proper ps → length lengths = length ps → Forall (λ l, l ≠ 0 ∧ l ≤ 64) lengths → (0 < length ps ≤ 8)%nat →
  let cs := SetRistrettoPoint <$> ps in
  let context := concat cs ++ zeros (256 - 32 * length cs) ++ lengths ++ zeros (8 - length lengths) in
  length context = 264%nat ∧ parseBatchedRangeProofContext context = Ok (ps, lengths).
Proof.
  intros Hp Hlen Hl H8. cbv zeta. rewrite length_fmap.
  assert (Hc : length (concat (SetRistrettoPoint <$> ps)) = (32 * length ps)%nat).
  { rewrite length_concat_blocks by apply encoded_blocks. by rewrite length_fmap. }
  set (context := _ ++ _). split; [unfold context; rewrite !length_app, Hc, !length_zeros; lia|].
  assert (Hidx : ∀ j l, (lengths ++ zeros (8 - length lengths)) !! j = Some l → idx (E := error) context (256 + Z.of_nat j) = Ok l).
  { intros j l Hj. replace (256 + Z.of_nat j) with (Z.of_nat (256 + j)) by lia. apply idx_nat. unfold context. rewrite app_assoc.
    rewrite lookup_app_r by (rewrite length_app, Hc, length_zeros; lia). rewrite length_app, Hc, length_zeros.
    replace (256 + j - (32 * length ps + (256 - 32 * length ps)))%nat with j by lia. exact Hj. }
  unfold parseBatchedRangeProofContext.
  replace false with (bool_decide (length ps < 0)%nat) by (by apply bool_decide_eq_false_2; lia).
  rewrite (parseContextLoop_ok ps lengths); [|done|done|done|done|lia| |].
  - obind. rewrite !drop_0. rewrite decide_False by (unfold len; lia). done.
  - intros j p l Hj Hlj. split; [|apply Hidx; by apply lookup_app_l_Some].
    assert (j < length ps)%nat by (by eapply lookup_lt_Some).
    unfold context, block. rewrite sub_app_l by lia. apply block_concat; [apply encoded_blocks|]. by rewrite list_lookup_fmap, Hj.
  - intros j Hj. split.
    + unfold context, block. rewrite (sub_skip _ _ (32 * length ps)) by (done || lia).
      rewrite sub_app_l by (rewrite length_zeros; lia). rewrite sub_zeros by lia. f_equal. lia.
    + apply Hidx. rewrite lookup_app_r by lia. unfold zeros. apply lookup_replicate. split; [done|lia].
Qed.

Lemma parameters_inv lengths d size tot :
  batchedRangeProofParameters lengths = Ok (d, size, tot) →
  ∃ k : nat, (0 < k < 32)%nat ∧ tot = 2 ^ Z.of_nat k ∧ foldl (λ total b, total + b) 0 lengths = tot ∧
    size = 32 * (9 + 2 * Z.of_nat k) ∧ batchedRangeVerificationParameters d = Ok (size, tot).
Proof.
  unfold batchedRangeProofParameters. repeat case_decide; try done; intros [= <- <- <-].
  - exists 6%nat. repeat split; (done || lia).
  - exists 7%nat. repeat split; (done || lia).
  - exists 8%nat. repeat split; (done || lia).
Qed.

(** The challenges the verifier inverts, replayed from a proof. *)
Definition proofChallenges (data : ZKProofData) : outcome error (list Scalar) :=
  proof ← parseBatchedRangeProof (Proof_ data);
  '(_, totalBits) ← batchedRangeVerificationParameters (Discriminator data);
  invertedChallenges proof (Z.to_nat totalBits) (batchedRangeProofTranscript (Context_ data)).

Lemma commitments_values service commitments amounts (ps : list Point) (rs : list Scalar) :
  service_ok service → commitments = SetRistrettoPoint <$> ps → length rs = length amounts →
  Forall2 (λ ao c, CommitPedersen service ao.1 ao.2 = Ok c) (zip amounts (ToBytes <$> rs)) commitments →
  ps = valueCommitments amounts rs.
Proof.
  intros Hs -> Hlen H. unfold valueCommitments. revert amounts rs Hlen H.
  induction ps as [|p ps IH]; intros [|a amounts] [|r rs] Hlen H; try done; try (by inversion H).
  cbn in H. apply Forall2_cons in H as [Hc H]. cbn. injection Hlen as Hlen. rewrite (IH amounts rs Hlen H) at 1. f_equal.
  cbn in Hc. rewrite CommitPedersen_of in Hc by done. injection Hc as Hc. by apply SetRistrettoPoint_inj in Hc.
Qed.

(** The statement of the property below, for the proofs that build on it. *)
Lemma range_complete service (commitments : list PedersenCommitment) (amounts bitLengths : list Z)
  (openings : list PedersenOpening) (random random' : Reader) (data : ZKProofData) :
  service_ok service →
  Forall2 (λ ao c, CommitPedersen service ao.1 ao.2 = Ok c) (zip amounts openings) commitments →
  Forall2 (λ a l, 0 ≤ a < 2 ^ l) amounts bitLengths →
  GenerateBatchedRangeProof service commitments amounts bitLengths openings random = (Ok data, random') →
  (∀ cs, proofChallenges data = Ok cs → Forall (λ c, c ≠ sNew) cs) →
  Forall (λ i, block i (Proof_ data) ≠ zeros 32) (pointBlocks ((length (Proof_ data) / 32 - 9) / 2)) →
  VerifyBatchedRangeProof service data = Ok tt.
Proof.
  intros Hs Hc Ha H Hch Hpts. unfold GenerateBatchedRangeProof in H.
  step H par E1. destruct par as [[d size] tot]. apply parameters_inv in E1 as (k & Hk & Htot & Hsum & Hsize & Hver).
  step H ctx E2. destruct ctx as [[context rs] lengths]. unfold batchedRangeProofContext in E2. gcheck E2. ostep E2 rs' E3. injection E2 as <- <- <-.
  unfold len in n. apply contextLoop_inv in E3 as (ps & -> & Hp & -> & Hl); [|lia|lia]. rewrite !length_fmap in *.
  destruct (parse_context ps bitLengths Hp ltac:(lia) Hl ltac:(lia)) as [Hclen Hctx]. rewrite length_fmap in Hclen, Hctx.
  set (context := _ ++ _) in *. clearbody context.
  apply (commitments_values service _ amounts ps rs' Hs eq_refl) in Hc as ->; [|lia].
  assert (Hl2 : Forall (λ l, 0 ≤ l ≤ 64) bitLengths).
  { apply Forall_lookup_2. intros i l Hi. destruct (Forall_lookup_1 _ _ _ _ Hl Hi). split; [|done].
    destruct (Forall2_lookup_r _ _ _ _ _ Ha Hi) as (a & _ & Hb). destruct (decide (0 ≤ l)) as [|Hneg]; [done|].
    rewrite Z.pow_neg_r in Hb by lia. lia. }
  assert (Hto : Z.to_nat tot = (2 ^ k)%nat).
  { rewrite Htot. apply Nat2Z.inj. rewrite Nat2Z.inj_pow, Z2Nat.id by (apply Z.pow_nonneg; lia). reflexivity. }
  assert (Hbits : bitTotal bitLengths = (2 ^ k)%nat).
  { rewrite <-Hto, <-Hsum, <-bitTotal_foldl, Nat2Z.id; [done|]. eapply Forall_impl; [exact Hl2|]. intros ? [? _]. assumption. }
  step H proof E4. rewrite Hto in E4. gcheck H. apply mret_inv in H as [<- _]. cbn [Proof_ Context_ Discriminator] in *.
  destruct (range_direct _ _ _ _ _ _ _ _ _ Hs Hk Hbits Ha Hl2 E4) as (qs & ls & rrs & Eqs & El & Er & Hlk & Hrk & Hv).
  pose proof (marshal_length proof k qs ls rrs Eqs El Er Hlk Hrk ltac:(lia)) as Hml.
  pose proof (parseBatchedRangeProof_marshal proof k qs ls rrs Eqs El Er Hlk Hrk ltac:(lia)) as Hparse.
  assert (Hkk : ((length (marshalBatchedRangeProof proof) / 32 - 9) / 2)%nat = k).
  { unfold len in Hml. replace (length (marshalBatchedRangeProof proof)) with ((9 + k * 2) * 32)%nat by lia.
    rewrite Nat.div_mul by lia. replace (9 + k * 2 - 9)%nat with (k * 2)%nat by lia. apply Nat.div_mul. lia. }
  rewrite Hkk in Hpts. destruct (pointBlocks_proper proof k qs ls rrs Eqs El Er Hlk Hrk ltac:(lia) Hpts) as (Pq & Pl & Pr).
  destruct (Hv Pq Pl Pr) as (cs & Hcs & Hver2).
  unfold VerifyBatchedRangeProof. rewrite classify_ok. cbn [Discriminator Proof_ Context_]. rewrite Hver.
  rewrite decide_False by (unfold len in *; lia). rewrite Hctx. obind. rewrite Hsum, decide_False by (intros E; by apply E).
  rewrite Hparse. obind. rewrite Hto, wrapf_ok. apply Hver2. apply Hch. unfold proofChallenges. cbn [Proof_ Context_ Discriminator].
  rewrite Hparse. obind. rewrite Hver. obind. by rewrite Hto.
Qed.

(** C2. Aggregated range proofs are complete. For commitments to amounts that fit
    their bit lengths, the proof generated over 64, 128 or 256 bits is accepted,
    unless a point of the proof is the identity or a challenge that has to be
    inverted is zero: the folding of the inner product, the verifier's table of
    coefficients, its single multiscalar equation and the byte layout agree. *)
Theorem range_proof_complete service (commitments : list PedersenCommitment) (amounts bitLengths : list Z)
  (openings : list PedersenOpening) (random random' : Reader) (data : ZKProofData) :
  service_ok service →
  Forall2 (λ ao c, CommitPedersen service ao.1 ao.2 = Ok c) (zip amounts openings) commitments →
  Forall2 (λ a l, 0 ≤ a < 2 ^ l) amounts bitLengths →
  GenerateBatchedRangeProof service commitments amounts bitLengths openings random = (Ok data, random') →
  (∀ cs, proofChallenges data = Ok cs → Forall (λ c, c ≠ sNew) cs) →
  Forall (λ i, block i (Proof_ data) ≠ zeros 32) (pointBlocks ((length (Proof_ data) / 32 - 9) / 2)) →
  VerifyBatchedRangeProof service data = Ok tt.
Proof. apply range_complete. Qed.
End range.

(** * Witness *)

(** Two amounts in 48 and 16 bits. *)
Definition toyRangeCommitments : list bytes := Eval vm_compute in [toyPedersen 70000 3; toyPedersen 6 8].
Definition toyRange : ZKProofData * @Reader toy toyRandom :=
  Eval vm_compute in
  ran (GenerateBatchedRangeProof zeroService toyRangeCommitments [70000; 6] [48; 16] toyOpenings toyReader) (mkProofData 0 [] []).
Definition scalarList (o : outcome error (list Scalar)) : list Scalar := match o with Ok l => l | _ => [] end.
Definition toyChallenges : list (@Scalar toy) := Eval vm_compute in scalarList (proofChallenges toyRange.1).

Lemma range_proof_complete_witness :
  GenerateBatchedRangeProof zeroService toyRangeCommitments [70000; 6] [48; 16] toyOpenings toyReader = (Ok toyRange.1, toyRange.2) ∧
  VerifyBatchedRangeProof zeroService toyRange.1 = Ok tt.
Proof.
  assert (H : GenerateBatchedRangeProof zeroService toyRangeCommitments [70000; 6] [48; 16] toyOpenings toyReader
              = (Ok toyRange.1, toyRange.2)) by (vm_compute; reflexivity).
  split; [exact H|].
  apply (range_proof_complete zeroService toyRangeCommitments [70000; 6] [48; 16] toyOpenings toyReader toyRange.2 toyRange.1 I).
  - repeat constructor; vm_compute; reflexivity.
  - repeat (apply Forall2_cons_2; [lia|]). apply Forall2_nil_2.
  - exact H.
  - intros cs Hcs. assert (E : proofChallenges toyRange.1 = Ok toyChallenges) by (vm_compute; reflexivity).
    rewrite E in Hcs. injection Hcs as <-. repeat constructor; vm_compute; intros F; inversion F.
  - repeat constructor; vm_compute; intros E; inversion E.
Defined.
