(* ===== verification/Transaction.v ===== *)
(** Transaction: a legacy or v0 transaction (transaction.go): the signatures and
    the message they sign, the wire format, and the signing workflow. *)
From Stdlib Require Import ZArith Lia.
From stdpp Require Import base numbers sets list.
From S2P Require Import Prelude Shortvec Keys Message PrivateKey.

Open Scope Z_scope.

Record Transaction := mkTransaction {
  Signatures : list Signature;
  TxMessage : Message;
}.

Definition zeroTransaction : Transaction := mkTransaction [] zeroMessage.

Definition set_Signatures v tx := mkTransaction v (TxMessage tx).

Inductive transaction_err :=
  | errEncodeMessage (e : message_err)
  | errSignaturesLength (e : shortvec_err)
  | errSignaturesTooLarge (numSigs remaining : Z)
  | errDecodeMessage (e : message_err)
  | errSignerCount (expected actual : Z)
  | errSignWith (key : PublicKey) (e : key_err)
  | errSignerNotFound (key : PublicKey)
  | errInvalidSignature (key : PublicKey).

(** A method of the embedded message, run on [tx.Message]. *)
Definition on_message {A} (m : GoM Message message_err A) : GoM Transaction transaction_err A :=
  λ tx, let '(r, mx) := m (TxMessage tx) in
        (wrap_err errDecodeMessage r, mkTransaction (Signatures tx) mx).

(** * Encoding *)

Definition MarshalBinary (tx : Transaction) : outcome transaction_err bytes :=
  messageContent ← wrap_err errEncodeMessage (Message.MarshalBinary (TxMessage tx));
  let numSigs := len (Signatures tx) in
  let required := NumRequiredSignatures (Header (TxMessage tx)) in
  let numSigs := if decide (numSigs < required) then required else numSigs in
  let buf := appendShortvecLen [] numSigs in
  let buf := foldl (λ buf sig, buf ++ sig) buf (Signatures tx) in
  let buf := foldl (λ buf _, buf ++ zeroSignature) buf
               (seq (length (Signatures tx)) (Z.to_nat (numSigs - len (Signatures tx)))) in
  Ok (buf ++ messageContent).

(** * Decoding *)

Definition unmarshalBinaryConsumed (data : bytes) : GoM Transaction transaction_err Z :=
  '(numSigs, n) ← lift (wrap_err errSignaturesLength (decodeShortvecLen data));
  rest ← lift (slice_from data n);
  if decide (len rest / SignatureLength < numSigs)
  then throw (errSignaturesTooLarge numSigs (len rest)) else
  sigs ← lift (readArrays SignatureLength numSigs rest);
  _ ← modify (set_Signatures sigs);
  rest ← lift (slice_from rest (numSigs * SignatureLength));
  msgConsumed ← on_message (Message.unmarshalBinaryConsumed rest);
  mret (n + numSigs * SignatureLength + msgConsumed).

Definition UnmarshalBinary (data : bytes) : GoM Transaction transaction_err unit :=
  _ ← unmarshalBinaryConsumed data; mret tt.

Definition TransactionFromBytes (data : bytes) : outcome transaction_err Transaction :=
  match UnmarshalBinary data zeroTransaction with
  | (Ok _, tx) => Ok tx
  | (Err e, _) => Err e
  | (Panic, _) => Panic
  end.

Definition TransactionFromBytesConsumed (data : bytes) : outcome transaction_err (Transaction * Z) :=
  match unmarshalBinaryConsumed data zeroTransaction with
  | (Ok n, tx) => Ok (tx, n)
  | (Err e, _) => Err e
  | (Panic, _) => Panic
  end.

(** * Signing *)

Section signing.
Context `{ed : Ed25519}.

(** [privateKeyGetter]: the private key of a public key, nil if unavailable. *)
Definition privateKeyGetter : Type := PublicKey → option bytes.

(** The loop of [PartialSign] from index [i] on. *)
Fixpoint signLoop (getter : privateKeyGetter) (messageContent : bytes) (i : nat)
    (keys : list PublicKey) : GoM Transaction transaction_err unit :=
  match keys with
  | [] => mret tt
  | key :: keys' =>
    match getter key with
    | None => signLoop getter messageContent (S i) keys'
    | Some privateKey =>
      s ← lift (wrap_err (errSignWith key) (Sign privateKey messageContent));
      _ ← modify (λ tx, set_Signatures (<[i := s]> (Signatures tx)) tx);
      signLoop getter messageContent (S i) keys'
    end
  end.

Definition PartialSign (getter : privateKeyGetter) : GoM Transaction transaction_err (list Signature) :=
  tx ← get;
  messageContent ← lift (wrap_err errEncodeMessage (Message.MarshalBinary (TxMessage tx)));
  let signerKeys := Signers (TxMessage tx) in
  _ ← (if decide (len (Signatures tx) = 0)
       then modify (set_Signatures (replicate (length signerKeys) zeroSignature))
       else if decide (len (Signatures tx) ≠ len signerKeys)
       then throw (errSignerCount (len signerKeys) (len (Signatures tx)))
       else mret tt);
  _ ← signLoop getter messageContent 0 signerKeys;
  tx ← get;
  mret (Signatures tx).

(** [Transaction.Sign]: every required signer must be available. *)
Fixpoint checkSigners (getter : privateKeyGetter) (keys : list PublicKey) : outcome transaction_err unit :=
  match keys with
  | [] => Ok tt
  | key :: keys' =>
    match getter key with
    | None => Err (errSignerNotFound key)
    | Some _ => checkSigners getter keys'
    end
  end.

Definition SignTx (getter : privateKeyGetter) : GoM Transaction transaction_err (list Signature) :=
  tx ← get;
  _ ← lift (checkSigners getter (Signers (TxMessage tx)));
  PartialSign getter.

(** The verification loop; [signers[i]] is in range because the counts agree. *)
Fixpoint verifyLoop (signers : list PublicKey) (msg : bytes) (i : nat) (sigs : list Signature)
    : outcome transaction_err unit :=
  match sigs with
  | [] => Ok tt
  | sig :: sigs' =>
    signer ← idx signers (Z.of_nat i);
    if Verify sig signer msg then verifyLoop signers msg (S i) sigs'
    else Err (errInvalidSignature signer)
  end.

Definition VerifySignatures (tx : Transaction) : outcome transaction_err unit :=
  msg ← wrap_err errEncodeMessage (Message.MarshalBinary (TxMessage tx));
  let signers := Signers (TxMessage tx) in
  if decide (len signers ≠ len (Signatures tx))
  then Err (errSignerCount (len signers) (len (Signatures tx)))
  else verifyLoop signers msg 0 (Signatures tx).

End signing.

(** * The wire format *)

(** Missing signatures travel as zeros. *)
Definition padSignatures (tx : Transaction) : list Signature :=
  Signatures tx ++
  replicate (Z.to_nat (NumRequiredSignatures (Header (TxMessage tx)) - len (Signatures tx))) zeroSignature.

Definition transaction_ok (tx : Transaction) : Prop :=
  message_ok (TxMessage tx) ∧ Forall sig_ok (Signatures tx) ∧ fits (Signatures tx).

#[global] Instance transaction_ok_dec tx : Decision (transaction_ok tx).
Proof. unfold transaction_ok. apply _. Defined.

Lemma foldl_const_append {A} (l : list A) (z buf : bytes) :
  foldl (λ buf _, buf ++ z) buf l = buf ++ concat (replicate (length l) z).
Proof.
  revert buf. induction l as [|x l IH]; intros; simpl; [by rewrite app_nil_r|].
  rewrite IH. by rewrite <- app_assoc.
Qed.

Lemma len_padSignatures tx :
  len (padSignatures tx) =
    if decide (len (Signatures tx) < NumRequiredSignatures (Header (TxMessage tx)))
    then NumRequiredSignatures (Header (TxMessage tx)) else len (Signatures tx).
Proof. unfold padSignatures. rewrite len_app, len_replicate. case_decide; lia. Qed.

Lemma MarshalBinary_eq tx msg :
  Message.MarshalBinary (TxMessage tx) = Ok msg →
  MarshalBinary tx = Ok (appendShortvecLen [] (len (padSignatures tx)) ++
                         concat (padSignatures tx) ++ msg).
Proof.
  intros Hm. unfold MarshalBinary. rewrite Hm. simpl. f_equal.
  rewrite foldl_const_append, foldl_append_app, length_seq.
  rewrite <- (len_padSignatures tx).
  replace (len (padSignatures tx) - len (Signatures tx)) with
    (Z.max (NumRequiredSignatures (Header (TxMessage tx)) - len (Signatures tx)) 0)
    by (rewrite len_padSignatures; case_decide; lia).
  unfold padSignatures at 3. rewrite concat_app, <- !app_assoc.
  do 5 f_equal. lia.
Qed.

Lemma padded_sigs_ok tx :
  transaction_ok tx → Forall sig_ok (padSignatures tx) ∧ fits (padSignatures tx).
Proof.
  intros (((_ & (Hn & _) & _) & _) & Hs & Hf). unfold is_byte in Hn. split.
  - unfold padSignatures. apply Forall_app_2; [done|]. apply Forall_replicate. auto with bytes_db.
  - unfold fits in *. rewrite len_padSignatures. case_decide; lia.
Qed.

Lemma run_on_message {A} (m : GoM Message message_err A) tx a mx :
  m (TxMessage tx) = (Ok a, mx) → on_message m tx = (Ok a, mkTransaction (Signatures tx) mx).
Proof. intros H. unfold on_message. by rewrite H. Qed.

Lemma unmarshal_marshal_tx tx tx0 rest :
  transaction_ok tx → len (RecentBlockhash (TxMessage tx0)) = 32 →
  ∃ out, MarshalBinary tx = Ok out ∧
    unmarshalBinaryConsumed (out ++ rest) tx0 =
      (Ok (len out), mkTransaction (padSignatures tx) (TxMessage tx)).
Proof.
  intros Hok Hbh. pose proof (padded_sigs_ok tx Hok) as [Hs Hf]. destruct Hok as (Hm & _ & _).
  destruct (unmarshal_marshal (TxMessage tx) (TxMessage tx0) rest Hm Hbh) as (msg & Hmsg & Hun).
  rewrite (MarshalBinary_eq tx msg Hmsg). eexists. split; [done|]. rewrite <- !app_assoc.
  assert (Forall (λ s, len s = SignatureLength) (padSignatures tx)) as H64
    by (eapply Forall_impl; [exact Hs|apply len_sig]).
  assert (len (concat (padSignatures tx)) = len (padSignatures tx) * SignatureLength) as Hc
    by (rewrite len_concat, (sumZ_const len _ SignatureLength) by done; lia).
  unfold unmarshalBinaryConsumed.
  erewrite run_lift by (by apply decode_len). cbv beta iota.
  erewrite run_lift by (by apply slice_from_app).
  rewrite decide_False.
  2: { unfold SignatureLength in *. apply Z.nlt_ge, Z.div_le_lower_bound; len_lia. }
  erewrite run_lift by (by apply readArrays_concat). rewrite run_modify.
  erewrite run_lift by (by apply slice_from_app).
  erewrite run_bind by (by apply run_on_message).
  unfold mret, gom_ret. do 2 f_equal. len_lia.
Qed.

Lemma wp_on_message {A} (m : GoM Message message_err A) tx Q R :
  wp m (λ a mx, Q a (mkTransaction (Signatures tx) mx))
    (λ e mx, R (errDecodeMessage e) (mkTransaction (Signatures tx) mx)) (TxMessage tx) →
  wp (on_message m) Q R tx.
Proof. unfold wp, on_message. by destruct (m (TxMessage tx)) as [[a|e|] mx]. Qed.

Lemma unmarshalTx_wp data tx0 :
  bytes_ok data → len (RecentBlockhash (TxMessage tx0)) = 32 →
  wp (unmarshalBinaryConsumed data)
    (λ n tx, transaction_ok tx ∧ ∃ msg rest, Message.MarshalBinary (TxMessage tx) = Ok msg ∧
       data = appendShortvecLen [] (len (Signatures tx)) ++ concat (Signatures tx) ++ msg ++ rest ∧
       n = len data - len rest)
    (λ _ _, True) tx0.
Proof.
  intros Hd Hbh. unfold unmarshalBinaryConsumed, SignatureLength.
  apply wp_decode; [done..|]. intros ns d1 Hns Hd1 ->. cbv beta iota.
  eapply wp_run_lift; [by apply slice_from_app|].
  case_decide as Hl; [by apply wp_throw|]. apply Z.nlt_ge in Hl.
  destruct (chunks_exist 64 (Z.to_nat ns) d1) as (sigs & d2 & -> & Hls & Hsigs); [lia|dlia|].
  apply Forall_app in Hd1 as [Hcs Hd2]. rewrite Forall_concat in Hcs.
  assert (len sigs = ns) as <- by (unfold len; lia).
  assert (len (concat sigs) = len sigs * 64) as Hc
    by (rewrite len_concat, (sumZ_const len _ 64) by done; lia).
  eapply wp_run_lift; [by apply readArrays_concat|]. apply wp_run_modify.
  eapply wp_run_lift; [by apply slice_from_app|].
  apply wp_bind, wp_on_message.
  eapply wp_mono; [by apply unmarshalBinaryConsumed_wp| |done].
  intros n mx (Hmx & msg & rest & Hmsg & -> & Hrest & ->). apply wp_ret. simpl. split.
  - split_and!; [done| |unfold fits; simpl; lia]. simpl. apply Forall_forall. intros s Hs.
    rewrite Forall_forall in Hsigs, Hcs. split; [|by apply Hcs].
    specialize (Hsigs s Hs). unfold len in Hsigs. lia.
  - exists msg, rest. split_and!; [done|done|]. len_lia.
Qed.

(** * Signing *)

Section signing_facts.
Context `{ed : Ed25519} {laws : Ed25519Laws ed}.

(** The signature slot of [key] after signing [content]: fresh when the getter
    has the key, untouched otherwise. *)
Definition slotAfter (getter : privateKeyGetter) (content : bytes) (key : PublicKey)
    (old : Signature) : Signature :=
  match getter key with Some pk => ed_Sign pk content | None => old end.

(** Every key the getter hands out has the size of a private key. *)
Definition getter_valid (getter : privateKeyGetter) (keys : list PublicKey) : Prop :=
  Forall (λ key, match getter key with Some pk => length pk = 64%nat | None => True end) keys.

Lemma Sign_ok pk content :
  length pk = 64%nat → Sign pk content = Ok (ed_Sign pk content).
Proof.
  intros H. unfold Sign, IsValid. rewrite bool_decide_true by (unfold len, PrivateKeySize; lia).
  f_equal. unfold SignatureFromBytes, zeroSignature.
  pose proof (ed_sign_length pk content H) as Hl.
  rewrite copy_into_eq, length_zeros by (rewrite length_zeros; lia).
  by rewrite take_ge by lia.
Qed.

Lemma insert_middle {A} (pre : list A) o x rest :
  <[length pre := x]> (pre ++ o :: rest) = (pre ++ [x]) ++ rest.
Proof. rewrite <- app_assoc. induction pre; simpl; [done|]. by f_equal. Qed.

Lemma signLoop_ok getter content keys pre olds tx :
  getter_valid getter keys → length olds = length keys → Signatures tx = pre ++ olds →
  signLoop getter content (length pre) keys tx =
    (Ok tt, set_Signatures (pre ++ zip_with (slotAfter getter content) keys olds) tx).
Proof.
  intros Hg. revert pre olds tx.
  induction Hg as [|key keys Hk Hg IH]; intros pre [|old olds] tx Hl Htx; try done.
  - simpl. rewrite app_nil_r in *. destruct tx; simpl in *. by subst.
  - simpl. unfold slotAfter at 1. destruct (getter key) as [pk|].
    + erewrite run_lift by (by rewrite Sign_ok). rewrite run_modify.
      replace (S (length pre)) with (length (pre ++ [ed_Sign pk content]))
        by (rewrite length_app; simpl; lia).
      rewrite (IH _ olds); [|simpl in Hl; lia|by simpl; rewrite Htx, insert_middle].
      unfold set_Signatures. simpl. by rewrite <- app_assoc.
    + replace (S (length pre)) with (length (pre ++ [old])) by (rewrite length_app; simpl; lia).
      rewrite (IH _ olds); [|simpl in Hl; lia|by rewrite Htx, <- app_assoc].
      by rewrite <- app_assoc.
Qed.

(** The slots [PartialSign] starts from. *)
Definition slotsBefore (tx : Transaction) : list Signature :=
  if decide (len (Signatures tx) = 0)
  then replicate (length (Signers (TxMessage tx))) zeroSignature else Signatures tx.

Lemma PartialSign_ok getter tx content :
  Message.MarshalBinary (TxMessage tx) = Ok content →
  getter_valid getter (Signers (TxMessage tx)) →
  Signatures tx = [] ∨ len (Signatures tx) = len (Signers (TxMessage tx)) →
  let sigs := zip_with (slotAfter getter content) (Signers (TxMessage tx)) (slotsBefore tx) in
  PartialSign getter tx = (Ok sigs, set_Signatures sigs tx).
Proof.
  intros Hc Hg Hl sigs. unfold PartialSign. rewrite run_get.
  erewrite run_lift by (by rewrite Hc). cbv zeta.
  set (keys := Signers (TxMessage tx)) in *.
  assert (length (slotsBefore tx) = length keys) as Hlen.
  { unfold slotsBefore. case_decide as H0; [apply length_replicate|].
    destruct Hl as [Hl|Hl]; [by rewrite Hl in H0 | unfold len in Hl; lia]. }
  erewrite run_bind.
  2: { instantiate (1 := set_Signatures (slotsBefore tx) tx). instantiate (1 := tt).
       unfold slotsBefore. case_decide as H0; [done|].
       rewrite decide_False by (destruct Hl as [Hl|Hl]; [by rewrite Hl in H0 | lia]).
       by destruct tx. }
  erewrite run_bind by (by apply (signLoop_ok _ _ _ [] (slotsBefore tx))). done.
Qed.

(** [key] has a well-formed private key at the getter. *)
Definition holdsKey (getter : privateKeyGetter) (key : PublicKey) : Prop :=
  ∃ seed, length seed = 32%nat ∧ getter key = Some (ed_NewKeyFromSeed seed) ∧
          drop 32 (ed_NewKeyFromSeed seed) = key.

Lemma holdsKey_valid getter keys : Forall (holdsKey getter) keys → getter_valid getter keys.
Proof.
  intros H. eapply Forall_impl; [exact H|]. intros key (seed & Hs & -> & _). by apply ed_key_length.
Qed.

Lemma checkSigners_ok getter keys : Forall (holdsKey getter) keys → checkSigners getter keys = Ok tt.
Proof.
  induction 1 as [|key keys (seed & _ & Hg & _) _ IH]; [done|]. simpl. by rewrite Hg.
Qed.

Lemma verifyLoop_ok getter content keys pre olds :
  Forall (holdsKey getter) keys → length olds = length keys →
  verifyLoop (pre ++ keys) content (length pre)
    (zip_with (slotAfter getter content) keys olds) = Ok tt.
Proof.
  intros Hk. revert pre olds.
  induction Hk as [|key keys (seed & Hs & Hg & Hkey) _ IH]; intros pre [|old olds] Hl; try done.
  simpl. rewrite (idx_ok _ _ key) by (lia || by rewrite Nat2Z.id, list_lookup_middle).
  simpl. unfold slotAfter at 1, Verify. rewrite Hg, <- Hkey, ed_verify_sign by done.
  rewrite Hkey. replace (pre ++ key :: keys) with ((pre ++ [key]) ++ keys) by (by rewrite <- app_assoc).
  replace (S (length pre)) with (length (pre ++ [key])) by (rewrite length_app; simpl; lia).
  apply IH. simpl in Hl. lia.
Qed.

End signing_facts.

(** * A concrete signature scheme, to evaluate the signing theorems *)

(** Keys are the seed twice; a signature is the seed, then zeros. *)
Definition toy_ed25519 : Ed25519 := {|
  ed_Sign key msg := (λ b, u8 b) <$> (take 32 key ++ zeros 32);
  ed_Verify pub msg sig := bool_decide (sig = (λ b, u8 b) <$> (pub ++ zeros 32));
  ed_NewKeyFromSeed seed := seed ++ seed;
  ed_decompresses b := true;
|}.

Lemma toy_ed25519_laws : Ed25519Laws toy_ed25519.
Proof.
  split; simpl.
  - intros. rewrite length_app. lia.
  - intros seed H. by rewrite <- H, take_app_length.
  - intros. rewrite length_fmap, length_app, length_take, length_zeros. lia.
  - intros. apply Forall_fmap, Forall_true. intros. apply is_byte_u8.
  - intros seed msg H. by rewrite <- H, drop_app_length, take_app_length, bool_decide_true.
Qed.

Definition sampleGetter (b : Z) : privateKeyGetter :=
  λ key, if decide (key = sampleKey b) then Some (sampleKey b ++ sampleKey b) else None.

Definition sampleTransaction : Transaction := mkTransaction [] sampleMessage.

(** * Properties *)

(** C7. Transactions round-trip: decoding the encoding of a transaction, with any
    bytes behind it, yields its message and its signatures, the missing ones
    as zeros, and the number of bytes the encoding has; a buffer of
    concatenated transactions can therefore be walked one by one. *)
Theorem transaction_roundtrip tx rest :
  transaction_ok tx →
  ∃ out, MarshalBinary tx = Ok out ∧
    TransactionFromBytesConsumed (out ++ rest) =
      Ok (mkTransaction (padSignatures tx) (TxMessage tx), len out).
Proof.
  intros Hok. destruct (unmarshal_marshal_tx tx zeroTransaction rest Hok eq_refl) as (out & Hout & Hun).
  exists out. split; [done|]. unfold TransactionFromBytesConsumed. by rewrite Hun.
Qed.

Lemma transaction_roundtrip_witness :
  ∃ out, MarshalBinary sampleTransaction = Ok out ∧
    TransactionFromBytesConsumed (out ++ [1; 2]) =
      Ok (mkTransaction (padSignatures sampleTransaction) sampleMessage, len out).
Proof. apply (transaction_roundtrip sampleTransaction [1; 2]). decide_by_compute. Defined.

(** Decoding a transaction never panics, and an accepted transaction that
    carries at least the signatures its header requires re-encodes to exactly
    the bytes it was decoded from. *)
Lemma transaction_decode_canonical data :
  bytes_ok data →
  match TransactionFromBytesConsumed data with
  | Ok (tx, n) => transaction_ok tx ∧
      (NumRequiredSignatures (Header (TxMessage tx)) ≤ len (Signatures tx) →
       MarshalBinary tx = Ok (take (Z.to_nat n) data))
  | Err _ => True
  | Panic => False
  end.
Proof.
  intros Hd. pose proof (unmarshalTx_wp data zeroTransaction Hd eq_refl) as H.
  unfold wp in H. unfold TransactionFromBytesConsumed.
  destruct (unmarshalBinaryConsumed data zeroTransaction) as [[n|e|] tx]; [|done..].
  destruct H as (Hok & msg & rest & Hmsg & -> & ->). split; [done|]. intros Hreq.
  rewrite (MarshalBinary_eq tx msg Hmsg). f_equal.
  assert (padSignatures tx = Signatures tx) as ->.
  { unfold padSignatures. replace (Z.to_nat _) with 0%nat by lia. simpl. by rewrite app_nil_r. }
  rewrite !app_assoc. set (out := (_ ++ _) ++ msg).
  replace (len (out ++ rest) - len rest) with (len out) by len_lia.
  by rewrite to_nat_len, take_app_length.
Qed.

(** Partial signing fills exactly the slots whose private key the getter has,
    with signatures of the encoded message, and leaves every other slot as it
    was (zero if the transaction had no signatures yet). *)
Lemma partial_sign_slots `{ed : Ed25519} (laws : Ed25519Laws ed) getter tx content :
  Message.MarshalBinary (TxMessage tx) = Ok content →
  getter_valid getter (Signers (TxMessage tx)) →
  Signatures tx = [] ∨ len (Signatures tx) = len (Signers (TxMessage tx)) →
  ∃ sigs, PartialSign getter tx = (Ok sigs, mkTransaction sigs (TxMessage tx)) ∧
    length sigs = length (Signers (TxMessage tx)) ∧
    ∀ i key, Signers (TxMessage tx) !! i = Some key →
      sigs !! i = match getter key with
                  | Some pk => Some (ed_Sign pk content)
                  | None => if decide (Signatures tx = []) then Some zeroSignature
                            else Signatures tx !! i
                  end.
Proof.
  intros Hc Hg Hl. eexists. split; [by apply PartialSign_ok|].
  assert (len (Signatures tx) = 0 ↔ Signatures tx = []) as Hnil
    by (split; [apply len_0|by intros ->]).
  assert (length (slotsBefore tx) = length (Signers (TxMessage tx))) as Hlen.
  { unfold slotsBefore. case_decide; [apply length_replicate|].
    destruct Hl as [Hl|Hl]; [tauto | unfold len in Hl; lia]. }
  split; [rewrite length_zip_with; lia|]. intros i key Hi.
  rewrite lookup_zip_with, Hi. simpl. unfold slotAfter.
  destruct (lookup_lt_is_Some_2 (slotsBefore tx) i) as [o Ho];
    [apply lookup_lt_Some in Hi; lia|].
  rewrite Ho. simpl. destruct (getter key); [done|]. unfold slotsBefore in Ho.
  repeat case_decide; try tauto; [|by rewrite Ho].
  apply lookup_replicate in Ho as [-> _]. done.
Qed.

(** C9. Signing works: when the getter holds a key pair for every required
    signer, [Sign] succeeds, changes nothing but the signatures, and the
    signed transaction passes [VerifySignatures]. *)
Theorem sign_then_verify `{ed : Ed25519} (laws : Ed25519Laws ed) getter tx content :
  Message.MarshalBinary (TxMessage tx) = Ok content →
  Forall (holdsKey getter) (Signers (TxMessage tx)) →
  Signatures tx = [] ∨ len (Signatures tx) = len (Signers (TxMessage tx)) →
  ∃ sigs, SignTx getter tx = (Ok sigs, mkTransaction sigs (TxMessage tx)) ∧
    VerifySignatures (mkTransaction sigs (TxMessage tx)) = Ok tt.
Proof.
  intros Hc Hk Hl. eexists. unfold SignTx. rewrite run_get.
  erewrite run_lift by (exact (checkSigners_ok _ _ Hk)).
  split; [by apply PartialSign_ok; [|apply holdsKey_valid|]|].
  assert (length (slotsBefore tx) = length (Signers (TxMessage tx))) as Hlen.
  { unfold slotsBefore. case_decide as H0; [apply length_replicate|].
    destruct Hl as [Hl|Hl]; [by rewrite Hl in H0 | unfold len in Hl; lia]. }
  unfold VerifySignatures. simpl. rewrite Hc. simpl.
  rewrite decide_False by (unfold len; rewrite length_zip_with; lia).
  by apply (verifyLoop_ok _ _ _ []).
Qed.

Lemma sign_then_verify_witness :
  ∃ sigs, @SignTx toy_ed25519 (sampleGetter 1) sampleTransaction = (Ok sigs, mkTransaction sigs sampleMessage) ∧
    @VerifySignatures toy_ed25519 (mkTransaction sigs sampleMessage) = Ok tt.
Proof.
  eapply (sign_then_verify toy_ed25519_laws (sampleGetter 1) sampleTransaction);
    [reflexivity| |left; reflexivity].
  apply Forall_singleton. exists (sampleKey 1). split_and!; reflexivity.
Defined.
