(* ===== verification/MnemonicSpec.v ===== *)
(** MnemonicSpec: [IsMnemonicValid] against a reference encoder of BIP-39, and the
    derivation paths and keys of SLIP-0010. *)
From Stdlib Require Import ZArith Lia.
From stdpp Require Import base numbers strings gmap sorting list.
From S2P Require Import Prelude Keys PrivateKey Sha256 Sha512 Bip39 Mnemonic Transaction.

Open Scope Z_scope.

(** * The word list *)

Definition wordsOf (lines : list bytes) : list bytes := (λ l, TrimRight l [13; 10]) <$> lines.
Definition wordList : list bytes := wordsOf (Lines (str bip39EnglishRaw)).

(** Unfolded before anything that would run over the list. *)
#[global] Strategy expand [wordList bip39WordIndex].

(** The lexicographic order of byte strings. *)
Fixpoint bytes_lt (x y : bytes) : bool :=
  match x, y with
  | [], _ :: _ => true
  | a :: x', b :: y' => (a <? b) || ((a =? b) && bytes_lt x' y')
  | _, [] => false
  end.

Fixpoint ascending (l : list bytes) : bool :=
  match l with
  | x :: (y :: _) as l' => bytes_lt x y && ascending l'
  | _ => true
  end.

Lemma bytes_lt_trans x y z : bytes_lt x y = true → bytes_lt y z = true → bytes_lt x z = true.
Proof.
  revert y z. induction x as [|a x IH]; intros [|b y] [|c z]; cbn; try done.
  rewrite !orb_true_iff, !andb_true_iff, !Z.ltb_lt, !Z.eqb_eq. intros [?|[-> ?]] [?|[-> ?]]; eauto with lia.
Qed.

Lemma bytes_lt_irrefl x : bytes_lt x x = false.
Proof. induction x as [|a x IH]; [done|]. cbn. by rewrite Z.ltb_irrefl, Z.eqb_refl, IH. Qed.

Lemma ascending_NoDup l : ascending l = true → NoDup l.
Proof.
  assert (∀ l x, ascending (x :: l) = true → Forall (λ y, bytes_lt x y = true) l) as Hall.
  { clear l. induction l as [|y l IH]; intros x H; [done|]. apply andb_true_iff in H as [Hxy Hl]. constructor; [done|].
    eapply Forall_impl; [by apply IH|]. intros z Hz. by eapply bytes_lt_trans. }
  induction l as [|x l IH]; intros H; constructor.
  - intros Hx. pose proof (Hall _ _ H) as Hf. rewrite Forall_forall in Hf. specialize (Hf x Hx).
    by rewrite bytes_lt_irrefl in Hf.
  - apply IH. destruct l; [done|]. by apply andb_true_iff in H as [_ ?].
Qed.

Lemma wordList_ascending : ascending wordList = true.
Proof. by vm_compute. Qed.

Lemma length_wordList : length wordList = 2048%nat.
Proof. by vm_compute. Qed.

(** The index built line by line is the position in the list. *)
Lemma index_fold (lines : list bytes) (m : gmap bytes Z) (i : nat) :
  NoDup (wordsOf lines) → Z.of_nat i + len lines < 65536 →
  ∀ w, (foldl (λ '(index, j) word, (<[TrimRight word [13; 10] := j]> index, u16 (j + 1))) (m, Z.of_nat i) lines).1 !! w
       = match list_find (.= w) (wordsOf lines) with Some (j, _) => Some (Z.of_nat (i + j)) | None => m !! w end.
Proof.
  revert m i. induction lines as [|l lines IH]; intros m i Hn Hi w; [done|].
  cbn [foldl]. unfold wordsOf in *. rewrite fmap_cons in *. apply NoDup_cons in Hn as [Hl Hn].
  replace (u16 (Z.of_nat i + 1)) with (Z.of_nat (S i)) by (rewrite len_cons in Hi; pose proof (len_nonneg lines); rewrite u16_small; lia).
  rewrite IH by (done || rewrite len_cons in Hi; pose proof (len_nonneg lines); lia). cbn [list_find].
  case_decide as Hw; cbn [fmap option_fmap option_map prod_map].
  - destruct (list_find (.= w) _) as [[j x]|] eqn:Hf.
    + apply list_find_Some in Hf as (Hx & -> & _). exfalso. apply Hl. rewrite Hw. by eapply list_elem_of_lookup_2.
    + rewrite <- Hw, lookup_insert_eq. do 2 f_equal. lia.
  - destruct (list_find (.= w) _) as [[j x]|]; cbn; [f_equal; lia|]. by rewrite lookup_insert_ne.
Qed.

Lemma list_find_NoDup (l : list bytes) w j : NoDup l → l !! j = Some w → list_find (.= w) l = Some (j, w).
Proof.
  intros Hn Hj. apply list_find_Some. split_and!; [done..|]. intros k y Hk Hlt ->.
  pose proof (NoDup_lookup _ _ _ _ Hn Hj Hk). lia.
Qed.

Lemma indexLines_lookup lines w k :
  NoDup (wordsOf lines) → len lines < 65536 →
  indexLines lines !! w = Some k ↔ 0 ≤ k ∧ wordsOf lines !! Z.to_nat k = Some w.
Proof.
  intros Hn Hl. unfold indexLines. rewrite (index_fold lines ∅ 0 Hn Hl), lookup_empty. split.
  - destruct (list_find (.= w) (wordsOf lines)) as [[j x]|] eqn:Hf; [|done]. intros [= <-].
    apply list_find_Some in Hf as (Hx & -> & _). rewrite Nat2Z.id. split; [lia|done].
  - intros [Hk Hw]. rewrite (list_find_NoDup _ w _ Hn Hw). f_equal. lia.
Qed.

Lemma few_lines : len (Lines (str bip39EnglishRaw)) < 65536.
Proof. apply Z.ltb_lt. by vm_compute. Qed.

Lemma wordIndex w k : bip39WordIndex !! w = Some k ↔ 0 ≤ k ∧ wordList !! Z.to_nat k = Some w.
Proof. exact (indexLines_lookup _ w k (ascending_NoDup _ wordList_ascending) few_lines). Qed.

Lemma wordIndex_bound w k : bip39WordIndex !! w = Some k → 0 ≤ k < 2048.
Proof.
  intros [Hk Hw]%wordIndex. apply lookup_lt_Some in Hw. rewrite length_wordList in Hw. lia.
Qed.

#[global] Opaque wordList bip39WordIndex.

(** * Bits *)

(** The bit at [pos], the most significant of each byte first. *)
Definition bitAt (buf : bytes) (pos : Z) : bool := Z.testbit (nth (Z.to_nat (pos / 8)) buf 0) (7 - pos mod 8).

(** The number the first [n] bits of [f] spell. *)
Fixpoint bitsVal (f : Z → bool) (n : nat) : Z :=
  match n with
  | O => 0
  | S n' => Z.b2z (f (Z.of_nat n')) + 2 * bitsVal f n'
  end.

Lemma bitsVal_bound f n : 0 ≤ bitsVal f n < 2 ^ Z.of_nat n.
Proof.
  induction n as [|n IH]; [cbn; lia|]. cbn [bitsVal]. rewrite Nat2Z.inj_succ, Z.pow_succ_r by lia.
  destruct (f (Z.of_nat n)); cbn [Z.b2z]; lia.
Qed.

Lemma bitsVal_bit f n k : 0 ≤ k < Z.of_nat n → Z.testbit (bitsVal f n) k = f (Z.of_nat n - 1 - k).
Proof.
  revert k. induction n as [|n IH]; intros k Hk; [lia|]. cbn [bitsVal]. destruct (decide (k = 0)) as [->|].
  - rewrite Z.add_b2z_double_bit0. f_equal. lia.
  - replace k with (Z.succ (k - 1)) at 1 by lia. rewrite Z.add_comm.
    assert (Z.testbit (2 * bitsVal f n + Z.b2z (f (Z.of_nat n))) (Z.succ (k - 1)) = Z.testbit (bitsVal f n) (k - 1)) as ->.
    { destruct (f (Z.of_nat n)); cbn [Z.b2z]; [by apply Z.testbit_odd_succ; lia|].
      rewrite Z.add_0_r. apply Z.testbit_even_succ. lia. }
    rewrite IH by lia. f_equal. lia.
Qed.

Lemma bitsVal_ext f g n : (∀ b, 0 ≤ b < Z.of_nat n → f b = g b) → bitsVal f n = bitsVal g n.
Proof.
  induction n as [|n IH]; intros H; [done|]. cbn [bitsVal].
  rewrite IH, (H (Z.of_nat n)) by (intros; try apply H; lia). done.
Qed.

Lemma testbit_above n v k : 0 ≤ v < 2 ^ n → 0 ≤ n ≤ k → Z.testbit v k = false.
Proof. intros Hv Hk. rewrite <- (Z.mod_small v (2 ^ n)) by done. apply Z.mod_pow2_bits_high. lia. Qed.

Lemma bitsVal_testbit v n : 0 ≤ v < 2 ^ Z.of_nat n → bitsVal (λ b, Z.testbit v (Z.of_nat n - 1 - b)) n = v.
Proof.
  intros Hv. pose proof (bitsVal_bound (λ b, Z.testbit v (Z.of_nat n - 1 - b)) n).
  apply Z.bits_inj'. intros k Hk. destruct (decide (k < Z.of_nat n)).
  - rewrite bitsVal_bit by lia. f_equal. lia.
  - by rewrite !(testbit_above (Z.of_nat n)) by lia.
Qed.

Lemma land_bit v k : 0 ≤ k → Z.land v (Z.shiftl 1 k) ≠ 0 ↔ Z.testbit v k = true.
Proof.
  intros Hk. rewrite Z.shiftl_1_l. split.
  - intros H. destruct (Z.testbit v k) eqn:Hv; [done|]. exfalso. apply H. apply Z.bits_inj'. intros i Hi.
    rewrite Z.land_spec, Z.bits_0, Z.pow2_bits_eqb by done. destruct (Z.eqb_spec k i) as [->|]; [by rewrite Hv|apply andb_false_r].
  - intros Hv H. assert (Z.testbit (Z.land v (2 ^ k)) k = false) as Hx by (by rewrite H, Z.bits_0).
    by rewrite Z.land_spec, Z.pow2_bits_true, Hv in Hx by done.
Qed.

Lemma land_1_bit v k : 0 ≤ k → Z.land (Z.shiftr v k) 1 = Z.b2z (Z.testbit v k).
Proof.
  intros Hk. change 1 with (Z.ones 1). rewrite Z.land_ones by lia. rewrite Z.pow_1_r.
  rewrite Z.shiftr_div_pow2 by done. by rewrite Z.testbit_spec'.
Qed.

Lemma idx_nth {E} (l : bytes) i : 0 ≤ i < len l → idx (E:=E) l i = Ok (nth (Z.to_nat i) l 0).
Proof.
  intros H. destruct (idx_in_range l i H) as [x Hx]. rewrite (idx_ok l i x) by (done || lia).
  f_equal. symmetry. by apply nth_lookup_Some.
Qed.

Lemma nth_insert (l : bytes) i j x : (i < length l)%nat → nth j (<[i := x]> l) 0 = if decide (i = j) then x else nth j l 0.
Proof.
  intros Hi. rewrite !nth_lookup. case_decide as Hij.
  - subst. by rewrite list_lookup_insert_eq.
  - by rewrite list_lookup_insert_ne.
Qed.

(** A packed buffer: bytes, with room for [n] bits. *)
Definition room (n : Z) (buf : bytes) : Prop := bytes_ok buf ∧ n ≤ 8 * len buf.

Lemma setBit_spec {E} buf pos n :
  room n buf → 0 ≤ pos < n →
  ∃ buf', setBit (E:=E) buf pos = Ok buf' ∧ room n buf' ∧ len buf' = len buf ∧
    ∀ q, 0 ≤ q → bitAt buf' q = bitAt buf q || bool_decide (q = pos).
Proof.
  intros [Hok Hn] Hp. assert (0 ≤ pos / 8 < len buf) as Hi by dlia. unfold setBit. rewrite idx_nth by done.
  eexists. split; [done|]. set (v := nth _ buf 0). set (u := u8 _).
  assert (length (<[Z.to_nat (pos / 8) := u]> buf) = length buf) as Hl by apply length_insert.
  split_and!; [split; [apply Forall_insert; [done|apply is_byte_u8]|unfold len in *; lia]|unfold len; lia|].
  intros q Hq. unfold bitAt. rewrite nth_insert by (unfold len in Hi; lia). case_decide as Hd.
  - assert (q / 8 = pos / 8) as Hqp by (apply Z2Nat.inj in Hd; [done|dlia|dlia]). rewrite Hqp. fold v. unfold u, u8.
    change 256 with (2 ^ 8). rewrite Z.mod_pow2_bits_low by dlia. rewrite Z.lor_spec, Z.shiftl_1_l, Z.pow2_bits_eqb by dlia.
    f_equal. destruct (Z.eqb_spec (7 - pos mod 8) (7 - q mod 8)); symmetry; [apply bool_decide_true|apply bool_decide_false]; dlia.
  - rewrite bool_decide_false by (intros ->; done). by rewrite orb_false_r.
Qed.

Lemma wordBits_spec {E} rounds i b index buf n :
  room n buf → 0 ≤ i → 0 ≤ b → b + Z.of_nat rounds = 11 → i * 11 + 11 ≤ n →
  ∃ buf', wordBits (E:=E) rounds i b index buf = Ok buf' ∧ room n buf' ∧ len buf' = len buf ∧
    ∀ q, 0 ≤ q → bitAt buf' q = bitAt buf q || (bool_decide (i * 11 + b ≤ q < i * 11 + 11) && Z.testbit index (10 - (q - i * 11))).
Proof.
  revert b buf. induction rounds as [|rounds IH]; intros b buf Hr Hi Hb Hb11 Hn.
  { exists buf. split_and!; [done..|]. intros q Hq. rewrite bool_decide_false by lia. by rewrite orb_false_r. }
  cbn [wordBits].
  assert (∃ buf1, (if decide (Z.land index (Z.shiftl 1 (10 - b)) ≠ 0) then setBit (E:=E) buf (i * 11 + b) else Ok buf) = Ok buf1 ∧
    room n buf1 ∧ len buf1 = len buf ∧ ∀ q, 0 ≤ q → bitAt buf1 q = bitAt buf q || (bool_decide (q = i * 11 + b) && Z.testbit index (10 - b)))
    as (buf1 & -> & Hr1 & Hl1 & Hq1).
  { case_decide as Hd.
    - apply land_bit in Hd; [|lia]. destruct (setBit_spec (E:=E) buf (i * 11 + b) n Hr) as (buf1 & ? & ? & ? & Hq); [lia|].
      exists buf1. split_and!; [done..|]. intros q Hq0. by rewrite Hq, Hd, andb_true_r by done.
    - exists buf. split_and!; [done..|]. intros q Hq0. destruct (Z.testbit index (10 - b)) eqn:Ht.
      + apply land_bit in Ht; [done|lia].
      + by rewrite andb_false_r, orb_false_r. }
  destruct (IH (b + 1) buf1) as (buf' & Hw & Hr' & Hl' & Hq'); [done|done|lia|lia|lia|].
  exists buf'. split_and!; [done|done|lia|]. intros q Hq0. rewrite Hq', Hq1, <- orb_assoc by done. f_equal.
  destruct (decide (q = i * 11 + b)) as [->|Hne].
  - rewrite bool_decide_true by done. rewrite (bool_decide_false (_ ≤ _ < _)) by lia. rewrite (bool_decide_true (_ ≤ _ < _)) by lia.
    rewrite orb_false_r. do 2 f_equal. lia.
  - rewrite bool_decide_false by done. cbn [andb orb]. f_equal. apply bool_decide_ext. lia.
Qed.

(** The bit at [q] of the words with the indices [ks], eleven bits each. *)
Definition indexBit (ks : list Z) (q : Z) : bool := Z.testbit (nth (Z.to_nat (q / 11)) ks 0) (10 - q mod 11).

Lemma packWords_spec {E} words i buf n :
  room n buf → 0 ≤ i → (i + len words) * 11 ≤ n →
  match mapM (λ w, bip39WordIndex !! w) words with
  | None => packWords (E:=E) i words buf = Ok None
  | Some ks => ∃ buf', packWords (E:=E) i words buf = Ok (Some buf') ∧ room n buf' ∧ len buf' = len buf ∧
      ∀ q, 0 ≤ q → bitAt buf' q = bitAt buf q ||
        (bool_decide (i * 11 ≤ q < (i + len words) * 11) && indexBit ks (q - i * 11))
  end.
Proof.
  revert i buf. induction words as [|w words IH]; intros i buf Hr Hi Hn; cbn [mapM].
  { exists buf. split_and!; [done..|]. intros q Hq. rewrite bool_decide_false by (rewrite len_nil; lia). by rewrite orb_false_r. }
  cbn [packWords]. destruct (bip39WordIndex !! w) as [k|] eqn:Hk; [|done].
  rewrite len_cons in Hn. pose proof (len_nonneg words).
  destruct (wordBits_spec (E:=E) 11 i 0 k buf n Hr) as (buf1 & Hw & Hr1 & Hl1 & Hq1); [lia..|].
  cbn [mbind option_bind outcome_bind] in *. rewrite Hw. cbn [mbind outcome_bind].
  specialize (IH (i + 1) buf1 Hr1). destruct (mapM _ words) as [ks|]; [|apply IH; lia].
  destruct IH as (buf' & Hp & Hr' & Hl' & Hq'); [lia|lia|]. exists buf'.
  split_and!; [done|done|lia|]. intros q Hq. rewrite Hq', Hq1, <- orb_assoc, len_cons by done. f_equal. unfold indexBit.
  destruct (decide (i * 11 ≤ q < i * 11 + 11)) as [Hin|Hout].
  - rewrite (bool_decide_false (_ ≤ _ < (i + 1 + len words) * 11)) by lia. rewrite !bool_decide_true by lia.
    cbn [andb]. rewrite orb_false_r. rewrite (Z.div_small (q - i * 11)), (Z.mod_small (q - i * 11)) by lia. done.
  - rewrite (bool_decide_false (_ ≤ _ < i * 11 + 11)) by lia. cbn [andb orb].
    destruct (decide ((i + 1) * 11 ≤ q < (i + 1 + len words) * 11)) as [Hin2|].
    + rewrite !bool_decide_true by lia. cbn [andb].
      replace (q - i * 11) with (q - (i + 1) * 11 + 1 * 11) by lia. rewrite Z.div_add, Z.mod_add by lia.
      rewrite Z2Nat.inj_add by (try apply Z.div_pos; lia). change (Z.to_nat 1) with 1%nat. by rewrite Nat.add_1_r.
    + by rewrite !bool_decide_false by lia.
Qed.

Lemma getBit_spec {E} buf pos n : room n buf → 0 ≤ pos < n → getBit (E:=E) buf pos = Ok (Z.b2z (bitAt buf pos)).
Proof.
  intros [_ Hn] Hp. unfold getBit. rewrite idx_nth by dlia. cbn. by rewrite land_1_bit by dlia.
Qed.

Lemma checkBits_spec {E} rounds eb b buf hash n m :
  room n buf → room m hash → 0 ≤ eb → 0 ≤ b → eb + b + Z.of_nat rounds ≤ n → b + Z.of_nat rounds ≤ m →
  ∃ v, checkBits (E:=E) rounds eb b buf hash = Ok v ∧
    (v = true ↔ ∀ k, b ≤ k < b + Z.of_nat rounds → bitAt buf (eb + k) = bitAt hash k).
Proof.
  intros Hr Hh Heb. revert b. induction rounds as [|rounds IH]; intros b Hb Hn Hm; cbn [checkBits].
  { exists true. split; [done|]. split; [intros _ k Hk; lia|done]. }
  rewrite (getBit_spec buf _ n), (getBit_spec hash _ m) by (done || lia). cbn [mbind outcome_bind].
  case_decide as Hd.
  - exists false. split; [done|]. split; [done|]. intros H. exfalso. apply Hd. f_equal. apply H. lia.
  - assert (bitAt buf (eb + b) = bitAt hash b) as Hbit by (by destruct (bitAt buf _), (bitAt hash b)).
    destruct (IH (b + 1)) as (v & Hv & Hiff); [lia..|]. exists v. split; [done|]. rewrite Hiff. split; intros H k Hk.
    + destruct (decide (k = b)) as [->|]; [done|]. apply H. lia.
    + apply H. lia.
Qed.

(** * The reference encoder *)

(** The bits of the entropy, then those of its SHA-256 digest. *)
Definition entropyBit (e : bytes) (q : Z) : bool :=
  if decide (q < 8 * len e) then bitAt e q else bitAt (Sum256 e) (q - 8 * len e).

(** The words of an entropy: eleven bits each, the checksum having one bit for
    every four bytes of entropy. *)
Definition encodeWord (e : bytes) (j : Z) : Z := bitsVal (λ b, entropyBit e (11 * j + b)) 11.
Definition bip39Encode (e : bytes) : list bytes :=
  (λ j, nth (Z.to_nat (encodeWord e j)) wordList []) <$> seqZ 0 (len e * 3 / 4).

Definition entropy_ok (e : bytes) : Prop := bytes_ok e ∧ len e ∈ [16; 20; 24; 28; 32].

Lemma encodeWord_bound e j : 0 ≤ encodeWord e j < 2048.
Proof. apply (bitsVal_bound _ 11). Qed.

Lemma encodeWord_bit e q : 0 ≤ q → Z.testbit (encodeWord e (q / 11)) (10 - q mod 11) = entropyBit e q.
Proof.
  intros Hq. unfold encodeWord. rewrite bitsVal_bit by dlia. f_equal. dlia.
Qed.

Lemma bitAt_take buf k q : 0 ≤ q < 8 * Z.of_nat k → bitAt (take k buf) q = bitAt buf q.
Proof. intros Hq. unfold bitAt. rewrite !nth_lookup, lookup_take_lt by dlia. done. Qed.

Lemma bytes_by_bits (a b : bytes) :
  bytes_ok a → bytes_ok b → len a = len b → (∀ q, 0 ≤ q < 8 * len a → bitAt a q = bitAt b q) → a = b.
Proof.
  intros Ha Hb Hl Hbits. apply list_eq_same_length with (length a); [unfold len in Hl; lia|done|].
  intros i x y Hi Hx Hy. assert (is_byte x ∧ is_byte y) as [Hbx Hby]
    by (split; [apply (Forall_lookup_1 _ _ _ _ Ha Hx)|apply (Forall_lookup_1 _ _ _ _ Hb Hy)]).
  apply Z.bits_inj'. intros k Hk. destruct (decide (k < 8)) as [Hk8|].
  - specialize (Hbits (8 * Z.of_nat i + (7 - k)) ltac:(unfold len; lia)). unfold bitAt in Hbits.
    replace ((8 * Z.of_nat i + (7 - k)) / 8) with (Z.of_nat i) in Hbits by dlia.
    replace (7 - (8 * Z.of_nat i + (7 - k)) mod 8) with k in Hbits by dlia.
    rewrite Nat2Z.id, !nth_lookup, Hx, Hy in Hbits. done.
  - unfold is_byte in *. by rewrite !(testbit_above 8) by (change (2 ^ 8) with 256; lia).
Qed.

Lemma digest_room e : room 256 (Sum256 e).
Proof. split; [apply Sum256_ok|]. unfold len. rewrite length_Sum256. lia. Qed.

(** The sizes of a phrase of [3 * c] words. *)
Lemma phrase_sizes n :
  n = 12 ∨ n = 15 ∨ n = 18 ∨ n = 21 ∨ n = 24 →
  ∃ c, 4 ≤ c ≤ 8 ∧ n = 3 * c ∧ n * 11 / 33 = c ∧ n * 11 - n * 11 / 33 = 32 * c ∧ (n * 11 - n * 11 / 33) / 8 = 4 * c.
Proof. intros H. exists (n / 3). destruct H as [->|[->|[->|[->| ->]]]]; by vm_compute. Qed.

(** The words packed by the code are the ones the reference writes, bit by bit. *)
Lemma packed_bits c words ks buf :
  len words = 3 * c → mapM (λ w, bip39WordIndex !! w) words = Some ks →
  (∀ q, 0 ≤ q → bitAt buf q = bool_decide (0 ≤ q < 33 * c) && indexBit ks q) →
  ∀ j, 0 ≤ j < 3 * c → 0 ≤ nth (Z.to_nat j) ks 0 < 2048 ∧
    words !! Z.to_nat j = Some (nth (Z.to_nat (nth (Z.to_nat j) ks 0)) wordList []) ∧
    nth (Z.to_nat j) ks 0 = bitsVal (λ b, bitAt buf (11 * j + b)) 11.
Proof.
  intros Hl Hks Hbits j Hj. apply mapM_Some_1 in Hks.
  destruct (lookup_lt_is_Some_2 words (Z.to_nat j)) as [w Hw]; [unfold len in Hl; lia|].
  destruct (Forall2_lookup_l _ _ _ _ _ Hks Hw) as (k & Hk & Hidx).
  rewrite (nth_lookup_Some ks _ 0 k Hk). pose proof (wordIndex_bound _ _ Hidx) as Hkb.
  apply wordIndex in Hidx as [_ Hword]. split_and!; [lia|lia|by rewrite (nth_lookup_Some _ _ _ _ Hword)|].
  symmetry. etrans; [|apply (bitsVal_testbit k 11); done].
  apply bitsVal_ext. intros b Hb. rewrite Hbits, bool_decide_true by lia. cbn [andb]. unfold indexBit.
  replace ((11 * j + b) / 11) with j by dlia. replace ((11 * j + b) mod 11) with b by dlia.
  by rewrite (nth_lookup_Some ks _ 0 k Hk).
Qed.

Lemma len_seqZ m n : 0 ≤ n → len (seqZ m n) = n.
Proof. intros. unfold len. rewrite length_seqZ. lia. Qed.

Lemma lookup_nth {A} (l : list A) i d : (i < length l)%nat → l !! i = Some (nth i l d).
Proof. intros H. destruct (lookup_lt_is_Some_2 l i H) as [x Hx]. by rewrite (nth_lookup_Some _ _ _ _ Hx). Qed.

Lemma encode_length e : entropy_ok e → ∃ c, 4 ≤ c ≤ 8 ∧ len e = 4 * c ∧ len (bip39Encode e) = 3 * c.
Proof.
  intros [_ He]. exists (len e / 4). unfold bip39Encode. pose proof (len_nonneg e).
  rewrite len_fmap, len_seqZ by dlia. rewrite !elem_of_cons, elem_of_nil in He.
  destruct He as [->|[->|[->|[->|[->|[]]]]]]; by vm_compute.
Qed.

Lemma encode_lookup e j : 0 ≤ j < len (bip39Encode e) →
  bip39Encode e !! Z.to_nat j = Some (nth (Z.to_nat (encodeWord e j)) wordList []).
Proof.
  unfold bip39Encode. pose proof (len_nonneg e). rewrite len_fmap, len_seqZ by dlia. intros Hj.
  rewrite list_lookup_fmap, lookup_seqZ_lt by lia. cbn [fmap option_fmap option_map].
  by rewrite Z.add_0_l, Z2Nat.id by lia.
Qed.

(** Accepted words are those of the entropy in front of the checksum. *)
Lemma accepted_words c words ks buf :
  4 ≤ c ≤ 8 → len words = 3 * c → mapM (λ w, bip39WordIndex !! w) words = Some ks →
  room (33 * c) buf → (∀ q, 0 ≤ q → bitAt buf q = bool_decide (0 ≤ q < 33 * c) && indexBit ks q) →
  let e := take (Z.to_nat (4 * c)) buf in
  (∀ k, 0 ≤ k < c → bitAt buf (32 * c + k) = bitAt (Sum256 e) k) →
  entropy_ok e ∧ words = bip39Encode e.
Proof.
  intros Hc Hl Hks [Hok Hroom] Hbits e Hcheck.
  assert (len e = 4 * c) as He by (unfold e; rewrite len_take; lia).
  assert (entropy_ok e) as Heok.
  { split; [by apply Forall_take|]. rewrite He. rewrite !elem_of_cons.
    assert (c = 4 ∨ c = 5 ∨ c = 6 ∨ c = 7 ∨ c = 8) as Hc' by lia. destruct Hc' as [->|[->|[->|[->| ->]]]]; naive_solver. }
  split; [done|]. destruct (encode_length e Heok) as (c' & _ & Hc' & Hlen). assert (c' = c) as -> by lia.
  apply list_eq_same_length with (length words); [unfold len in *; lia|done|]. intros i x y Hi Hx Hy.
  rewrite <- (Nat2Z.id i) in Hx, Hy. rewrite encode_lookup in Hy by (unfold len in *; lia).
  destruct (packed_bits c words ks buf Hl Hks Hbits (Z.of_nat i)) as (_ & Hw & Hv); [unfold len in *; lia|].
  rewrite Hw in Hx. injection Hx as <-. injection Hy as <-. do 3 f_equal.
  rewrite Nat2Z.id in Hv |- *. rewrite Hv. unfold encodeWord. apply bitsVal_ext. intros b Hb. unfold entropyBit. rewrite He.
  case_decide.
  - unfold e. rewrite bitAt_take by lia. done.
  - rewrite <- Hcheck by (unfold len in *; lia). f_equal. lia.
Qed.

(** The words of an entropy pass the check. *)
Lemma encoded_accepted c e ks buf :
  4 ≤ c ≤ 8 → entropy_ok e → len e = 4 * c → len (bip39Encode e) = 3 * c →
  mapM (λ w, bip39WordIndex !! w) (bip39Encode e) = Some ks →
  room (33 * c) buf → (∀ q, 0 ≤ q → bitAt buf q = bool_decide (0 ≤ q < 33 * c) && indexBit ks q) →
  take (Z.to_nat (4 * c)) buf = e ∧ ∀ k, 0 ≤ k < c → bitAt buf (32 * c + k) = bitAt (Sum256 e) k.
Proof.
  intros Hc [Hok _] He Hlen Hks [Hbok Hroom] Hbits.
  assert (∀ q, 0 ≤ q < 33 * c → bitAt buf q = entropyBit e q) as Hbuf.
  { intros q Hq. rewrite Hbits, bool_decide_true by lia. cbn [andb]. unfold indexBit.
    destruct (packed_bits c _ ks buf Hlen Hks Hbits (q / 11)) as (Hkb & Hw & _); [dlia|].
    rewrite encode_lookup in Hw by dlia. injection Hw as Hw. rewrite <- (encodeWord_bit e q) by lia. f_equal.
    pose proof (encodeWord_bound e (q / 11)) as Heb. apply Z2Nat.inj; [lia|lia|].
    eapply (NoDup_lookup wordList); [exact (ascending_NoDup _ wordList_ascending)|..].
    - apply (lookup_nth _ _ []). rewrite length_wordList. lia.
    - rewrite <- Hw. apply (lookup_nth _ _ []). rewrite length_wordList. lia. }
  split.
  - apply bytes_by_bits; [by apply Forall_take|done|rewrite len_take; lia|]. rewrite len_take by lia. intros q Hq.
    rewrite bitAt_take, Hbuf by lia. unfold entropyBit. by rewrite decide_True by lia.
  - intros k Hk. rewrite Hbuf by lia. unfold entropyBit. rewrite decide_False by lia. f_equal. lia.
Qed.

Lemma valid_iff {E} m :
  ∃ v, IsMnemonicValid (E:=E) m = Ok v ∧ (v = true ↔ ∃ e, entropy_ok e ∧ Fields m = bip39Encode e).
Proof.
  unfold IsMnemonicValid. set (words := Fields m). case_decide as Hn.
  2: { exists false. split; [done|]. split; [done|]. intros (e & He & Hw). exfalso. apply Hn. rewrite Hw.
       destruct (encode_length e He) as (c & Hc & _ & ->). lia. }
  destruct (phrase_sizes _ Hn) as (c & Hc & Hl & H33 & H32 & H8). cbv zeta. rewrite H8, H32, H33. rewrite Hl.
  assert (room (33 * c) (zeros (Z.to_nat ((3 * c * 11 + 7) / 8)))) as Hroom.
  { split; [apply zeros_ok|]. unfold zeros. rewrite len_replicate. dlia. }
  assert (∀ q, bitAt (zeros (Z.to_nat ((3 * c * 11 + 7) / 8))) q = false) as Hz.
  { intros q. unfold bitAt, zeros. rewrite nth_lookup. destruct (_ !! _) as [x|] eqn:Hx; cbn [default]; [|apply Z.bits_0].
    apply lookup_replicate in Hx as [-> _]. apply Z.bits_0. }
  pose proof (packWords_spec (E:=E) words 0 _ _ Hroom) as Hp.
  destruct (mapM (λ w, bip39WordIndex !! w) words) as [ks|] eqn:Hks.
  2: { rewrite Hp by (try rewrite Hl; lia). exists false. split; [done|]. split; [done|]. intros (e & He & Hw). exfalso.
       apply mapM_None_1 in Hks. fold words in Hw. rewrite Hw in Hks. apply Exists_exists in Hks as (w & Hin & Hnone).
       unfold bip39Encode in Hin. apply list_elem_of_fmap in Hin as (j & -> & _).
       pose proof (encodeWord_bound e j) as Hb.
       assert (bip39WordIndex !! nth (Z.to_nat (encodeWord e j)) wordList [] = Some (encodeWord e j)) as Hs.
       { apply wordIndex. split; [lia|]. apply lookup_nth. rewrite length_wordList. lia. }
       cbv beta in Hnone. rewrite Hs in Hnone. discriminate Hnone. }
  destruct Hp as (buf & -> & Hr & Hlen & Hbits); [lia|rewrite Hl; lia|]. cbn [mbind outcome_bind].
  assert (∀ q, 0 ≤ q → bitAt buf q = bool_decide (0 ≤ q < 33 * c) && indexBit ks q) as Hb.
  { intros q Hq. rewrite Hbits, Hz, Hl by done. cbn [orb]. f_equal; [apply bool_decide_ext; lia|f_equal; lia]. }
  destruct Hr as [Hok Hroom8]. rewrite slice_to_ok by lia. cbn [mbind outcome_bind].
  destruct (checkBits_spec (E:=E) (Z.to_nat c) (32 * c) 0 buf (Sum256 (take (Z.to_nat (4 * c)) buf)) (33 * c) 256)
    as (v & Hv & Hiff); [done|apply digest_room|lia..|]. exists v. split; [done|]. rewrite Hiff. split.
  - intros Hcheck. exists (take (Z.to_nat (4 * c)) buf). apply (accepted_words c words ks buf Hc Hl Hks (conj Hok Hroom8) Hb). intros k Hk. apply Hcheck. lia.
  - intros (e & He & Hw). fold words in Hw. destruct (encode_length e He) as (c' & _ & Hec & Hlc).
    assert (c' = c) as -> by (rewrite Hw in Hl; lia). rewrite Hw in Hks.
    destruct (encoded_accepted c e ks buf Hc He Hec) as [-> Hcheck]; [lia|done|by split|done|]. intros k Hk. apply Hcheck. lia.
Qed.

(** * Derivation paths *)

Definition is_digit (c : Z) : Prop := 48 ≤ c ≤ 57.
Definition decVal (n : Z) (ds : bytes) : Z := foldl (λ n c, n * 10 + (c - 48)) n ds.

Lemma decVal_ge ds n : Forall is_digit ds → 0 ≤ n → n ≤ decVal n ds.
Proof.
  intros Hd. revert n. induction Hd as [|c ds Hc _ IH]; intros n Hn; [done|]. cbn. unfold is_digit in Hc.
  specialize (IH (n * 10 + (c - 48)) ltac:(lia)). unfold decVal in IH. lia.
Qed.

Lemma parseDigits_ok n ds v :
  0 ≤ n ≤ 4294967295 → parseDigits n ds = Ok v ↔ Forall is_digit ds ∧ v = decVal n ds ∧ v ≤ 4294967295.
Proof.
  revert n. induction ds as [|c ds IH]; intros n Hn; cbn [parseDigits].
  - split; [intros [= <-]; split_and!; [done|done|lia]|by intros (_ & -> & _)].
  - case_decide as Hc.
    + case_decide as Hr.
      * split; [done|]. intros (Hd & -> & Hv). apply Forall_cons in Hd as [_ Hd].
        pose proof (decVal_ge ds (n * 10 + (c - 48)) Hd ltac:(lia)). cbn in Hv. unfold decVal in *. lia.
      * rewrite IH by lia. cbn. split; [intros (? & ? & ?); split_and!; [by constructor|done|done]|].
        intros (Hd & ? & ?). apply Forall_cons in Hd as [_ Hd]. done.
    + split; [done|]. intros (Hd & _). apply Forall_cons in Hd as [Hd _]. unfold is_digit in Hd. lia.
Qed.

(** A segment: decimal digits and a mark, with white space around. *)
Definition segment_ok (seg : bytes) (i : Z) : Prop :=
  ∃ ds c, TrimSpace seg = ds ++ [c] ∧ c ∈ [39; 104; 72] ∧ ds ≠ [] ∧ Forall is_digit ds ∧
    decVal 0 ds < slip10HardenedOffset ∧ i = decVal 0 ds + slip10HardenedOffset.

Definition path_ok (path : bytes) (indices : list Z) : Prop :=
  let t := TrimSpace path in
  if decide (t = [] ∨ t = str "m" ∨ t = str "/") then indices = []
  else Forall2 segment_ok (Split (TrimPrefix (TrimPrefix t (str "m")) (str "/")) 47) indices.

Lemma parseSegment_ok seg : parseSegment seg ≠ Panic ∧ ∀ i, parseSegment seg = Ok i ↔ segment_ok seg i.
Proof.
  unfold parseSegment, segment_ok. set (s := TrimSpace seg). clearbody s. case_decide as Hs.
  { split; [done|]. intros i. split; [done|]. intros (ds & c & -> & _). by destruct ds. }
  destruct (exists_last Hs) as (ds & c & ->).
  assert (idx (E:=mnemonic_err) (ds ++ [c]) (len (ds ++ [c]) - 1) = Ok c) as ->.
  { apply idx_ok; [len_lia|]. rewrite len_app, len_cons, len_nil. replace (len ds + (1 + 0) - 1) with (len ds) by lia.
    by rewrite to_nat_len, list_lookup_middle. }
  cbn [mbind outcome_bind]. assert ((c = 39 ∨ c = 104 ∨ c = 72) ↔ c ∈ [39; 104; 72]) as Hmark
    by (rewrite !elem_of_cons, elem_of_nil; naive_solver).
  assert (∀ ds' c', ds ++ [c] = ds' ++ [c'] → ds' = ds ∧ c' = c) as Hinj.
  { intros ds' c' H. apply app_inj_tail in H as [-> ->]. done. }
  case_decide as Hc.
  2: { split; [done|]. intros i. split; [done|]. intros (ds' & c' & [-> ->]%Hinj & ? & _). naive_solver. }
  rewrite slice_to_app by len_lia. cbn [mbind outcome_bind].
  assert (ParseUint32 ds ≠ Panic ∧ ∀ v, ParseUint32 ds = Ok v ↔ ds ≠ [] ∧ Forall is_digit ds ∧ v = decVal 0 ds ∧ v ≤ 4294967295) as [Hnp Hp].
  { unfold ParseUint32. destruct ds as [|d ds]; [split; [done|]; naive_solver|]. split.
    - generalize 0. generalize (d :: ds). clear. intros l. induction l as [|x l IH]; intros n; cbn; [done|]. repeat case_decide; try done; apply IH.
    - intros v. rewrite parseDigits_ok by lia. naive_solver. }
  destruct (ParseUint32 ds) as [n|e|]; [| |done]; cbn [wrap_err mbind outcome_bind].
  - destruct (proj1 (Hp n) eq_refl) as (Hne & Hd & -> & Hmax).
    pose proof (decVal_ge ds 0 Hd ltac:(lia)). case_decide as Hr.
    + split; [done|]. intros i. split; [done|]. intros (ds' & c' & [-> ->]%Hinj & _ & _ & _ & Hlt & _). lia.
    + unfold slip10HardenedOffset in *. replace (u32 (u32 (decVal 0 ds) + 2147483648)) with (decVal 0 ds + 2147483648)
        by (unfold u32; rewrite (Z.mod_small (decVal 0 ds)) by lia; rewrite Z.mod_small; lia). split; [done|]. intros i. split.
      * intros [= <-]. exists ds, c. split_and!; try done; [naive_solver|lia].
      * intros (ds' & c' & [-> ->]%Hinj & _ & _ & _ & _ & ->). done.
  - split; [done|]. intros i. split; [done|]. intros (ds' & c' & [-> ->]%Hinj & _ & Hne & Hd & Hlt & _).
    unfold slip10HardenedOffset in Hlt. assert (Err e = Ok (decVal 0 ds)) as [=]. apply Hp. split_and!; try done. lia.
Qed.

Lemma parsePath_ok path : parseDerivationPath path ≠ Panic ∧ ∀ ixs, parseDerivationPath path = Ok ixs ↔ path_ok path ixs.
Proof.
  unfold parseDerivationPath, path_ok. cbv zeta. case_decide; [split; [done|]; naive_solver|].
  generalize (Split (TrimPrefix (TrimPrefix (TrimSpace path) (str "m")) (str "/")) 47). intros segs. clear.
  induction segs as [|seg segs [IHp IH]]; cbn [mapM].
  { split; [done|]. intros ixs. split; [intros [= <-]; constructor|]. by intros ->%Forall2_nil_inv_l. }
  assert (∀ ixs, Forall2 segment_ok (seg :: segs) ixs ↔ ∃ i l, segment_ok seg i ∧ Forall2 segment_ok segs l ∧ ixs = i :: l) as Hcons.
  { intros ixs. split; [apply Forall2_cons_inv_l|]. intros (i & l & ? & ? & ->). by constructor. }
  destruct (parseSegment_ok seg) as [Hp Hs]. destruct (parseSegment seg) as [i|e|]; [| |done]; cbn [mbind outcome_bind].
  - destruct (mapM parseSegment segs) as [ixs'|e|] eqn:Hm; [| |done]; cbn [mbind outcome_bind mret outcome_ret].
    + split; [done|]. intros ixs. rewrite Hcons. split.
      * intros [= <-]. exists i, ixs'. split_and!; [by apply Hs|by apply IH|done].
      * intros (i' & ixs2 & Hi & His & ->). apply Hs in Hi as [= ->]. apply IH in His as [= ->]. done.
    + split; [done|]. intros ixs. rewrite Hcons. split; [done|].
      intros (i' & ixs2 & Hi & His & ->). by apply IH in His.
  - split; [done|]. intros ixs. rewrite Hcons. split; [done|]. intros (i' & ixs2 & Hi & _). by apply Hs in Hi.
Qed.

(** * Printing a path *)

Fixpoint showDigits (fuel : nat) (n : Z) (acc : bytes) : bytes :=
  match fuel with
  | O => acc
  | S fuel' => let acc := 48 + n mod 10 :: acc in if decide (n < 10) then acc else showDigits fuel' (n / 10) acc
  end.

(** The segment of index [i]. *)
Definition showSegment (i : Z) : bytes := showDigits 10 i [] ++ [39].
Definition printPath (indices : list Z) : bytes := str "m" ++ (indices ≫= λ i, 47 :: showSegment i).

Lemma showDigits_ok fuel n acc :
  0 ≤ n < 10 ^ Z.of_nat fuel → Forall is_digit acc → (0 < fuel)%nat →
  Forall is_digit (showDigits fuel n acc) ∧ showDigits fuel n acc ≠ [] ∧ decVal 0 (showDigits fuel n acc) = decVal n acc.
Proof.
  revert n acc. induction fuel as [|fuel IH]; intros n acc Hn Ha Hf; [lia|]. cbn [showDigits].
  assert (Forall is_digit (48 + n mod 10 :: acc)) as Hd by (constructor; [unfold is_digit; dlia|done]).
  case_decide.
  - split_and!; [done|done|]. cbn. unfold decVal. f_equal. dlia.
  - destruct fuel as [|fuel]; [cbn in Hn; lia|].
    destruct (IH (n / 10) (48 + n mod 10 :: acc)) as (H1 & H2 & H3); [|done|lia|].
    { rewrite Nat2Z.inj_succ, Z.pow_succ_r in Hn by lia. split; [dlia|]. apply Z.div_lt_upper_bound; lia. }
    split_and!; [done|done|]. rewrite H3. cbn. unfold decVal. f_equal. dlia.
Qed.

Definition visible (c : Z) : Prop := 33 ≤ c < 127.
Definition blanks (runes : list bytes) : bool :=
  forallb (λ r, match r with c :: _ => negb (bool_decide (visible c)) | [] => false end) runes.

#[global] Instance visible_dec c : Decision (visible c).
Proof. unfold visible. apply _. Defined.

Lemma leading_none runes c s : blanks runes = true → visible c → leading runes (c :: s) = None.
Proof.
  intros Hb Hc. unfold leading. rewrite (proj2 (list_find_None _ _)); [done|].
  unfold blanks in Hb. apply Forall_forall. intros r Hr Hp. rewrite forallb_forall in Hb.
  specialize (Hb r (proj1 (list_elem_of_In _ _) Hr)). destruct r as [|d r]; [done|]. cbn in Hp.
  apply andb_true_iff in Hp as [Hd _]. apply bool_decide_eq_true in Hd as ->. by rewrite bool_decide_true in Hb.
Qed.

Lemma trimLeft_visible fuel runes c s : blanks runes = true → visible c → trimLeft fuel runes (c :: s) = c :: s.
Proof. intros. destruct fuel; [done|]. cbn [trimLeft]. by rewrite leading_none. Qed.

Lemma TrimSpace_visible c s d : visible c → visible d → TrimSpace (c :: s ++ [d]) = c :: s ++ [d].
Proof.
  intros Hc Hd. unfold TrimSpace. rewrite trimLeft_visible by done.
  replace (reverse (c :: s ++ [d])) with (d :: reverse (c :: s)) by (by rewrite <- reverse_snoc, app_comm_cons).
  rewrite trimLeft_visible by (done || by vm_compute). by rewrite reverse_cons, reverse_involutive.
Qed.

Lemma Split_seg seg rest : 47 ∉ seg → Split (seg ++ 47 :: rest) 47 = seg :: Split rest 47.
Proof.
  induction seg as [|c seg IH]; intros H; [done|]. cbn [app Split]. apply not_elem_of_cons in H as [Hc H].
  rewrite decide_False, IH by (done || congruence). done.
Qed.

Lemma Split_last seg : 47 ∉ seg → Split seg 47 = [seg].
Proof.
  induction seg as [|c seg IH]; intros H; [done|]. cbn [Split]. apply not_elem_of_cons in H as [Hc H].
  rewrite decide_False, IH by (done || congruence). done.
Qed.

Lemma Split_segs seg segs :
  47 ∉ seg → Forall (λ s, 47 ∉ s) segs → Split (seg ++ (segs ≫= λ s, 47 :: s)) 47 = seg :: segs.
Proof.
  intros Hs Hf. revert seg Hs. induction Hf as [|s segs H _ IH]; intros seg Hs.
  - cbn. rewrite app_nil_r. by apply Split_last.
  - cbn [mbind list_bind]. rewrite <- app_comm_cons. rewrite Split_seg by done. f_equal. by apply IH.
Qed.

Definition index_ok (i : Z) : Prop := 0 ≤ i < slip10HardenedOffset.

Lemma digits_segment s :
  Forall is_digit s → s ≠ [] → decVal 0 s < slip10HardenedOffset →
  ∃ d ds, s ++ [39] = d :: ds ++ [39] ∧ visible d ∧ 47 ∉ s ++ [39] ∧ segment_ok (s ++ [39]) (decVal 0 s + slip10HardenedOffset).
Proof.
  intros Hd Hne Hv. destruct s as [|d ds]; [done|].
  assert (is_digit d) as Hd1 by (by apply Forall_cons in Hd as [? _]).
  exists d, ds. split_and!; [done|unfold visible, is_digit in *; lia| |].
  - intros [Hin|Hin]%elem_of_app; [|set_solver]. rewrite Forall_forall in Hd. specialize (Hd _ Hin). unfold is_digit in Hd. lia.
  - exists (d :: ds), 39. split_and!; [|set_solver|done|done|done|done].
    apply TrimSpace_visible; unfold visible, is_digit in *; lia.
Qed.

Lemma showSegment_ok i : index_ok i →
  ∃ d ds, showSegment i = d :: ds ++ [39] ∧ visible d ∧ 47 ∉ showSegment i ∧ segment_ok (showSegment i) (i + slip10HardenedOffset).
Proof.
  unfold index_ok, slip10HardenedOffset. intros Hi.
  destruct (showDigits_ok 10 i []) as (Hd & Hne & Hv); [split; [lia|]; eapply Z.lt_trans; [apply Hi|by vm_compute]|done|lia|].
  change (decVal i []) with i in Hv. pose proof (digits_segment _ Hd Hne) as Hseg. rewrite Hv in Hseg.
  apply Hseg. apply Hi.
Qed.

Lemma TrimPrefix_app p s : TrimPrefix (p ++ s) p = s.
Proof.
  unfold TrimPrefix. assert (HasPrefix (p ++ s) p = true) as ->; [|by rewrite drop_app_length].
  induction p as [|c p IH]; [by destruct s|]. cbn. by rewrite bool_decide_true.
Qed.

Lemma ends_marked (indices : list Z) s :
  (∃ l, s = l ++ [39]) → ∃ l, s ++ (indices ≫= λ i, 47 :: showSegment i) = l ++ [39].
Proof.
  revert s. induction indices as [|i indices IH]; intros s Hs; cbn [mbind list_bind]; [by rewrite app_nil_r|].
  rewrite app_assoc. apply IH. exists (s ++ 47 :: showDigits 10 i []). unfold showSegment.
  by rewrite app_comm_cons, app_assoc.
Qed.

Lemma printPath_ok indices :
  Forall index_ok indices → path_ok (printPath indices) ((λ i, i + slip10HardenedOffset) <$> indices).
Proof.
  intros Hf. unfold path_ok. cbv zeta. destruct Hf as [|i indices Hi Hf]; [by vm_compute|].
  set (body := indices ≫= λ i, 47 :: showSegment i).
  assert (printPath (i :: indices) = str "m" ++ 47 :: showSegment i ++ body) as Hp by done.
  destruct (showSegment_ok i Hi) as (d & ds & Hseg & Hd & H47 & Hok).
  assert (∃ l, 47 :: showSegment i ++ body = l ++ [39]) as [l Hl].
  { apply (ends_marked indices (47 :: showSegment i)). by exists (47 :: showDigits 10 i []). }
  assert (TrimSpace (printPath (i :: indices)) = printPath (i :: indices)) as ->.
  { rewrite Hp, Hl. by apply (TrimSpace_visible 109 l 39). }
  rewrite decide_False by (rewrite Hp, Hseg; intros [?|[?|?]]; done). rewrite Hp.
  rewrite TrimPrefix_app. change (47 :: showSegment i ++ body) with (str "/" ++ showSegment i ++ body). rewrite TrimPrefix_app.
  replace body with ((showSegment <$> indices) ≫= λ s, 47 :: s) by (unfold body; clear; induction indices as [|x l IH]; cbn [fmap list_fmap mbind list_bind]; [done|by rewrite IH]).
  rewrite Split_segs; [|done|].
  - rewrite fmap_cons. constructor; [done|]. clear -Hf. induction Hf as [|j indices Hj _ IH]; constructor; [|done].
    by destruct (showSegment_ok j Hj) as (? & ? & ? & ? & ? & ?).
  - clear -Hf. apply Forall_fmap. eapply Forall_impl; [exact Hf|]. intros j Hj.
    by destruct (showSegment_ok j Hj) as (? & ? & ? & ? & ? & ?).
Qed.

(** * Properties *)

(** C30. BIP-39 phrases: [IsMnemonicValid] never panics, and accepts exactly the
    phrases whose words, however they are separated, are the encoding of an
    entropy of 16, 20, 24, 28 or 32 bytes followed by the first bits of its
    SHA-256 digest, over the embedded list of 2048 distinct words. *)
Theorem mnemonic_valid_spec {E} m :
  length wordList = 2048%nat ∧ NoDup wordList ∧
  ∃ v, IsMnemonicValid (E:=E) m = Ok v ∧ (v = true ↔ ∃ e, entropy_ok e ∧ Fields m = bip39Encode e).
Proof.
  split_and!; [exact length_wordList|exact (ascending_NoDup _ wordList_ascending)|exact (valid_iff m)].
Qed.

(** A derived key is a valid key pair. *)
Lemma derived_valid `{ed : Ed25519} (laws : Ed25519Laws ed) seed path indices :
  16 ≤ len seed ≤ 64 → path_ok path indices →
  ∃ key, PrivateKeyFromSeedAtPath seed path = Ok key ∧ Validate key = Ok tt.
Proof.
  intros Hs Hp. apply (proj2 (parsePath_ok path) indices) in Hp. unfold PrivateKeyFromSeedAtPath, slip10MasterKey.
  rewrite Hp, decide_False by lia. cbn [mbind outcome_bind]. set (sum := HmacSha512 _ _).
  assert (∀ ixs key cc, length key = 32%nat →
    length (foldl (λ '(key, chainCode) index, slip10ChildKey key chainCode index) (key, cc) ixs).1 = 32%nat) as Hlen.
  { clear. intros ixs. induction ixs as [|i ixs IH]; intros key cc Hk; [done|]. cbn [foldl]. unfold slip10ChildKey at 2.
    apply IH. rewrite length_take, length_HmacSha512. done. }
  specialize (Hlen indices (take 32 sum) (drop 32 sum)). destruct (foldl _ _ indices) as [key cc]. cbn [fst] in Hlen.
  assert (length key = 32%nat) as Hk by (apply Hlen; unfold sum; rewrite length_take, length_HmacSha512; done).
  eexists. split; [done|]. unfold Validate, PrivateKeySize, SeedSize.
  assert (len (ed_NewKeyFromSeed key) = 64) as H64 by (unfold len; rewrite ed_key_length by done; done).
  rewrite decide_False by lia. rewrite slice_to_ok by lia. cbn [mbind outcome_bind].
  change (Z.to_nat 32) with 32%nat. rewrite ed_key_seed by done. by rewrite decide_False by tauto.
Qed.

(** C31. SLIP-0010 derivation: [parseDerivationPath] never panics and accepts
    exactly the paths whose segments are decimal numbers below 2^31 with a
    hardening mark, as the hardened indices; the usual spelling of any list of
    indices is read back; and at every accepted path a phrase that is valid yields
    a key pair that passes [Validate]. *)
Theorem derivation_spec `{ed : Ed25519} (laws : Ed25519Laws ed) path indices m passphrase :
  parseDerivationPath path ≠ Panic ∧
  (parseDerivationPath path = Ok indices ↔ path_ok path indices) ∧
  (Forall index_ok indices →
     parseDerivationPath (printPath indices) = Ok ((λ i, i + slip10HardenedOffset) <$> indices)) ∧
  (IsMnemonicValid (E:=mnemonic_err) m = Ok true → path_ok path indices →
     ∃ key, PrivateKeyFromMnemonicAtPath m passphrase path = Ok key ∧ Validate key = Ok tt).
Proof.
  destruct (parsePath_ok path) as [Hnp Hiff]. split_and!; [done|by apply Hiff| |].
  - intros Hi. apply parsePath_ok. by apply printPath_ok.
  - intros Hv Hp. unfold PrivateKeyFromMnemonicAtPath. rewrite Hv. cbn [mbind outcome_bind negb].
    eapply derived_valid; [done| |done]. unfold MnemonicToSeed, len. rewrite length_Pbkdf2. lia.
Qed.

Lemma derivation_spec_witness :
  printPath [44; 501; 0; 0] = SolanaDerivationPath ∧
  parseDerivationPath (printPath [44; 501; 0; 0]) = Ok ((λ i, i + slip10HardenedOffset) <$> [44; 501; 0; 0]).
Proof.
  split; [reflexivity|].
  refine (proj1 (proj2 (proj2 (derivation_spec toy_ed25519_laws [] [44; 501; 0; 0] [] []))) _).
  repeat constructor; by vm_compute.
Defined.
