(* ===== verification/Builder.v ===== *)
(** Builder: compiling instructions into an unsigned transaction
    (transaction_builder.go): collecting, sorting and deduplicating the account
    metas, placing the fee payer, moving eligible accounts into address lookup
    tables, and resolving every account reference to its message index. *)
From Stdlib Require Import ZArith Lia.
From stdpp Require Import base numbers gmap sorting sets list.
From S2P Require Import Prelude Keys Message Transaction.

Open Scope Z_scope.

(** * Options and the incremental builder *)

(** [addressTables] is a Go map that may be nil; [NewTransactionV1] tells nil
    from empty. *)
Record transactionOptions := mkOptions {
  payer : PublicKey;
  addressTables : option (gmap PublicKey (list PublicKey));
}.

Definition zeroOptions : transactionOptions := mkOptions zeroKey None.

(** The [apply] method of an option. *)
Definition TransactionOption : Type := transactionOptions → transactionOptions.

Definition TransactionPayer (p : PublicKey) : TransactionOption :=
  λ opts, mkOptions p (addressTables opts).
Definition TransactionAddressTables (tables : option (gmap PublicKey (list PublicKey))) : TransactionOption :=
  λ opts, mkOptions (payer opts) tables.

Record TransactionBuilder := mkBuilder {
  b_instructions : list Instruction;
  b_recentBlockHash : Hash;
  b_opts : list TransactionOption;
}.

Definition NewTransactionBuilder : TransactionBuilder := mkBuilder [] zeroKey [].
Definition AddInstruction (ins : Instruction) (b : TransactionBuilder) : TransactionBuilder :=
  mkBuilder (b_instructions b ++ [ins]) (b_recentBlockHash b) (b_opts b).
Definition SetRecentBlockHash (h : Hash) (b : TransactionBuilder) : TransactionBuilder :=
  mkBuilder (b_instructions b) h (b_opts b).
Definition WithOpt (opt : TransactionOption) (b : TransactionBuilder) : TransactionBuilder :=
  mkBuilder (b_instructions b) (b_recentBlockHash b) (b_opts b ++ [opt]).
Definition SetFeePayer (feePayer : PublicKey) (b : TransactionBuilder) : TransactionBuilder :=
  mkBuilder (b_instructions b) (b_recentBlockHash b) (b_opts b ++ [TransactionPayer feePayer]).

Inductive builder_err :=
  | errNoInstructions
  | errNoFeePayer
  | errMaxLookupTableIndex (tableKey : PublicKey)
  | errInstructionData (txIdx : nat).

(** * Fee payer *)

(** The first signer among the first instruction's accounts. *)
Fixpoint firstSigner (metas : list AccountMeta) : option PublicKey :=
  match metas with
  | [] => None
  | meta :: metas' => if IsSigner meta then Some (PublicKeyOf meta) else firstSigner metas'
  end.

Definition chooseFeePayer (options : transactionOptions) (first : Instruction)
    : outcome builder_err PublicKey :=
  if IsZero (payer options) then
    match firstSigner (Accounts first) with
    | Some key => Ok key
    | None => Err errNoFeePayer
    end
  else Ok (payer options).

(** * Lookup tables *)

Record lookupTableEntry := mkEntry { e_table : PublicKey; e_index : Z }.

Record loadedAccount := mkLoaded {
  l_key : PublicKey;
  l_table : PublicKey;
  l_index : Z;
  l_writable : bool;
}.

(** [slices.SortFunc] with [bytes.Compare]: [bytes_le] is a total order, so the
    sorted permutation is unique and the algorithm does not matter. *)
Definition sortKeys (keys : list PublicKey) : list PublicKey := merge_sort bytes_le keys.

(** One table: an address already indexed keeps its earlier entry. *)
Fixpoint indexTable (tableKey : PublicKey) (table : list PublicKey) (i : Z)
    (entries : gmap PublicKey lookupTableEntry) : gmap PublicKey lookupTableEntry :=
  match table with
  | [] => entries
  | address :: table' =>
    let entries := match entries !! address with
                   | Some _ => entries
                   | None => <[address := mkEntry tableKey (u8 i)]> entries
                   end in
    indexTable tableKey table' (i + 1) entries
  end.

Fixpoint indexTables (tables : gmap PublicKey (list PublicKey)) (sortedTableKeys : list PublicKey)
    (entries : gmap PublicKey lookupTableEntry)
    : outcome builder_err (gmap PublicKey lookupTableEntry) :=
  match sortedTableKeys with
  | [] => Ok entries
  | tableKey :: keys' =>
    let table := default [] (tables !! tableKey) in
    if decide (256 < len table) then Err (errMaxLookupTableIndex tableKey)
    else indexTables tables keys' (indexTable tableKey table 0 entries)
  end.

Definition lookupEntriesOf (options : transactionOptions)
    : outcome builder_err (gmap PublicKey lookupTableEntry) :=
  let tables := default ∅ (addressTables options) in
  if decide (0 < len (map_to_list tables))
  then indexTables tables (sortKeys ((map_to_list tables).*1)) ∅
  else Ok ∅.

(** * Account metas *)

(** [metas] and [programIDs] after the collecting loop. *)
Definition collectMetas (instructions : list Instruction) : list AccountMeta * list PublicKey :=
  let '(metas, programIDs) :=
    foldl (λ '(metas, programIDs) ins,
             (metas ++ Accounts ins,
              if decide (ProgramID ins ∈ programIDs) then programIDs
              else programIDs ++ [ProgramID ins])) ([], []) instructions in
  (metas ++ (Meta <$> programIDs), programIDs).

(** The comparison function of the sort: signers first, then writable, ties
    broken by the key. *)
Definition metaCompare (a b : AccountMeta) : Z :=
  if decide (IsSigner a ≠ IsSigner b) then (if IsSigner a then -1 else 1)
  else if decide (IsWritable a ≠ IsWritable b) then (if IsWritable a then -1 else 1)
  else match bytes_Compare (PublicKeyOf a) (PublicKeyOf b) with Lt => -1 | Eq => 0 | Gt => 1 end.

Definition meta_le (a b : AccountMeta) : Prop := metaCompare a b ≤ 0.

#[global] Instance meta_le_dec : RelDecision meta_le.
Proof. intros a b. unfold meta_le. apply _. Defined.

(** [slices.SortStableFunc]: metas that compare equal are equal. *)
Definition sortMetas (metas : list AccountMeta) : list AccountMeta := merge_sort meta_le metas.

(** ** Deduplication in place

    [uniq := metas[:0]] shares its array with [metas], which the loop is
    reading: [d_arr] is that one array, [d_len] the length of [uniq]. *)
Record dedupState := mkDedup {
  d_arr : list AccountMeta;
  d_len : nat;
  d_index : gmap PublicKey nat;
}.

Definition orWritable (w : bool) (m : AccountMeta) : AccountMeta :=
  mkAccountMeta (PublicKeyOf m) (IsWritable m || w) (IsSigner m).

Definition dedupStep (i : nat) (st : dedupState) : outcome builder_err dedupState :=
  meta ← idx (d_arr st) (Z.of_nat i);
  match d_index st !! PublicKeyOf meta with
  | Some at_ =>
    _ ← idx (take (d_len st) (d_arr st)) (Z.of_nat at_);
    Ok (mkDedup (alter (orWritable (IsWritable meta)) at_ (d_arr st)) (d_len st) (d_index st))
  | None =>
    Ok (mkDedup (<[d_len st := meta]> (d_arr st)) (S (d_len st))
          (<[PublicKeyOf meta := d_len st]> (d_index st)))
  end.

(** The loop over the remaining [k] elements from index [i]. *)
Fixpoint dedupLoop (k i : nat) (st : dedupState) : outcome builder_err dedupState :=
  match k with
  | O => Ok st
  | S k' => st ← dedupStep i st; dedupLoop k' (S i) st
  end.

(** ** The fee payer goes to the front *)

(** [copy(arr[lo:hi], src)] on the array [arr]; [src] may overlap. *)
Definition copyRange (arr : list AccountMeta) (lo hi : nat) (src : list AccountMeta) : list AccountMeta :=
  take lo arr ++ copy_into (drop lo (take hi arr)) src ++ drop hi arr.

Definition zeroMeta : AccountMeta := mkAccountMeta zeroKey false false.

Definition placeFeePayer (feePayer : PublicKey) (uniqIndex : gmap PublicKey nat)
    (uniq : list AccountMeta) : list AccountMeta :=
  let allKeys :=
    match uniqIndex !! feePayer with
    | Some feePayerAt => copyRange uniq 1 (S feePayerAt) (take feePayerAt uniq)
    | None => let fresh := replicate (S (length uniq)) zeroMeta in
              copyRange fresh 1 (length fresh) uniq
    end in
  <[0%nat := mkAccountMeta feePayer true true]> allKeys.

(** * Static and table-loaded keys *)

Record splitState := mkSplit {
  s_keyIndex : gmap PublicKey Z;
  s_keys : list PublicKey;
  s_header : MessageHeader;
  s_loaded : list loadedAccount;
  s_next : Z;
}.

(** The header counters are uint8 and wrap. *)
Definition countRole (meta : AccountMeta) (h : MessageHeader) : MessageHeader :=
  if IsSigner meta then
    mkMessageHeader (u8 (NumRequiredSignatures h + 1))
      (if IsWritable meta then NumReadonlySignedAccounts h else u8 (NumReadonlySignedAccounts h + 1))
      (NumReadonlyUnsignedAccounts h)
  else
    mkMessageHeader (NumRequiredSignatures h) (NumReadonlySignedAccounts h)
      (if IsWritable meta then NumReadonlyUnsignedAccounts h else u8 (NumReadonlyUnsignedAccounts h + 1)).

(** Only an account that lives in a table, is not the payer, does not sign and
    is not invoked may be loaded through the table. *)
Definition loadableEntry (lookupEntries : gmap PublicKey lookupTableEntry)
    (programIDs : list PublicKey) (i : nat) (meta : AccountMeta) : option lookupTableEntry :=
  match lookupEntries !! PublicKeyOf meta with
  | Some entry =>
    if decide (i ≠ 0%nat ∧ IsSigner meta = false ∧ PublicKeyOf meta ∉ programIDs)
    then Some entry else None
  | None => None
  end.

(** One round of the splitting loop; [next] is a uint16. *)
Definition splitStep (lookupEntries : gmap PublicKey lookupTableEntry) (programIDs : list PublicKey)
    (i : nat) (meta : AccountMeta) (st : splitState) : splitState :=
  match loadableEntry lookupEntries programIDs i meta with
  | Some entry =>
    mkSplit (s_keyIndex st) (s_keys st) (s_header st)
      (s_loaded st ++ [mkLoaded (PublicKeyOf meta) (e_table entry) (e_index entry) (IsWritable meta)])
      (s_next st)
  | None =>
    mkSplit (<[PublicKeyOf meta := s_next st]> (s_keyIndex st)) (s_keys st ++ [PublicKeyOf meta])
      (countRole meta (s_header st)) (s_loaded st) (u16 (s_next st + 1))
  end.

Fixpoint splitLoop (lookupEntries : gmap PublicKey lookupTableEntry) (programIDs : list PublicKey)
    (i : nat) (metas : list AccountMeta) (st : splitState) : splitState :=
  match metas with
  | [] => st
  | meta :: metas' =>
    splitLoop lookupEntries programIDs (S i) metas' (splitStep lookupEntries programIDs i meta st)
  end.

(** * Lookups *)

(** The tables the loaded accounts use, each once, then sorted. *)
Definition usedTables (loaded : list loadedAccount) : list PublicKey :=
  sortKeys (foldl (λ keys l, if decide (l_table l ∈ keys) then keys else keys ++ [l_table l]) [] loaded).

(** [idxBacking] serves every lookup's index slice; [t_pos] is its fill mark. *)
Record tableState := mkTableState {
  t_keyIndex : gmap PublicKey Z;
  t_next : Z;
  t_backing : list Z;
  t_pos : nat;
}.

(** The inner loop: the accounts of one table with one writability. *)
Fixpoint tableRound (tableKey : PublicKey) (writable : bool) (loaded : list loadedAccount)
    (st : tableState) : outcome builder_err tableState :=
  match loaded with
  | [] => Ok st
  | l :: loaded' =>
    if decide (l_table l = tableKey ∧ l_writable l = writable) then
      if decide (t_pos st < length (t_backing st))%nat then
        tableRound tableKey writable loaded'
          (mkTableState (<[l_key l := t_next st]> (t_keyIndex st)) (u16 (t_next st + 1))
             (<[t_pos st := l_index l]> (t_backing st)) (S (t_pos st)))
      else Panic
    else tableRound tableKey writable loaded' st
  end.

(** The outer loop over the tables: [idxBacking[start:pos:pos]] of each. *)
Fixpoint tableLoop (writable : bool) (loaded : list loadedAccount) (tableKeys : list PublicKey)
    (st : tableState) : outcome builder_err (list (list Z) * tableState) :=
  match tableKeys with
  | [] => Ok ([], st)
  | tableKey :: tableKeys' =>
    st' ← tableRound tableKey writable loaded st;
    '(rest, st'') ← tableLoop writable loaded tableKeys' st';
    Ok (drop (t_pos st) (take (t_pos st') (t_backing st')) :: rest, st'')
  end.

(** All writable lookups first, then all readonly ones. *)
Definition loadTables (loaded : list loadedAccount) (keyIndex : gmap PublicKey Z) (next : Z)
    : outcome builder_err (list MessageAddressTableLookup * gmap PublicKey Z) :=
  let tableKeys := usedTables loaded in
  '(ws, st) ← tableLoop true loaded tableKeys
                (mkTableState keyIndex next (replicate (length loaded) 0) 0);
  '(rs, st) ← tableLoop false loaded tableKeys st;
  Ok (zip_with (λ key '(w, r), mkLookup key w r) tableKeys (zip ws rs), t_keyIndex st).

(** * Compiled instructions *)

(** A missing key of the map reads as 0. *)
Definition indexOf (keyIndex : gmap PublicKey Z) (key : PublicKey) : Z := default 0 (keyIndex !! key).

Fixpoint compileInstructions (keyIndex : gmap PublicKey Z) (txIdx : nat) (instructions : list Instruction)
    : outcome builder_err (list CompiledInstruction) :=
  match instructions with
  | [] => Ok []
  | ins :: instructions' =>
    let accountIndexes := (λ meta, indexOf keyIndex (PublicKeyOf meta)) <$> Accounts ins in
    data ← wrap_err (λ _, errInstructionData txIdx) (Data ins);
    rest ← compileInstructions keyIndex (S txIdx) instructions';
    Ok (mkCompiledInstruction (indexOf keyIndex (ProgramID ins)) accountIndexes data :: rest)
  end.

(** * NewTransaction *)

(** An instruction's accounts are metas, not pointers to metas: a nil one, which the
    code would dereference, is not among the arguments. *)
Definition NewTransaction (instructions : list Instruction) (recentBlockHash : Hash)
    (opts : list TransactionOption) : outcome builder_err Transaction :=
  match instructions with
  | [] => Err errNoInstructions
  | first :: _ =>
    let options := foldl (λ options opt, opt options) zeroOptions opts in
    feePayer ← chooseFeePayer options first;
    lookupEntries ← lookupEntriesOf options;
    let '(metas, programIDs) := collectMetas instructions in
    let metas := sortMetas metas in
    st ← dedupLoop (length metas) 0 (mkDedup metas 0 ∅);
    let uniq := take (d_len st) (d_arr st) in
    let allKeys := placeFeePayer feePayer (d_index st) uniq in
    let sp := splitLoop lookupEntries programIDs 0 allKeys (mkSplit ∅ [] zeroHeader [] 0) in
    let message := mkMessage 0 (s_keys sp) (s_header sp) recentBlockHash [] [] in
    '(message, keyIndex) ←
      (if decide (0 < len (s_loaded sp)) then
         '(tableLookups, keyIndex) ← loadTables (s_loaded sp) (s_keyIndex sp) (s_next sp);
         Ok (SetAddressTableLookups tableLookups message, keyIndex)
       else Ok (message, s_keyIndex sp));
    compiled ← compileInstructions keyIndex 0 instructions;
    Ok (mkTransaction [] (set_Instructions compiled message))
  end.

Definition Build (b : TransactionBuilder) : outcome builder_err Transaction :=
  NewTransaction (b_instructions b) (b_recentBlockHash b) (b_opts b).
