(* ===== verification/BuilderSpec.v ===== *)
(** BuilderSpec: the correctness of [NewTransaction]. The in-place
    deduplication merges the roles of equal keys, the compiled indexes resolve
    to the keys the instructions name (through the lookup tables where the
    builder moved them there), the header counts describe the merged roles, and
    no run panics. *)
From Stdlib Require Import ZArith Lia.
From stdpp Require Import base numbers gmap sorting sets list.
From S2P Require Import Prelude Keys Message Transaction Builder.

Open Scope Z_scope.

(** * Duplicate removal, abstractly *)

(** Append what is new: the shape of three loops of [NewTransaction]. *)
Definition addNew {A} `{EqDecision A} (acc : list A) (x : A) : list A :=
  if decide (x ∈ acc) then acc else acc ++ [x].

(** The elements of [l] in the order of their first occurrences. *)
Definition nub {A} `{EqDecision A} (l : list A) : list A := foldl addNew [] l.

Section nub.
Context {A : Type} `{EqDecision A}.
Implicit Types l acc : list A.

Lemma nub_snoc l (x : A) : nub (l ++ [x]) = addNew (nub l) x.
Proof. unfold nub. by rewrite foldl_app. Qed.

Lemma elem_of_addNew acc (x y : A) : y ∈ addNew acc x ↔ y ∈ acc ∨ y = x.
Proof. unfold addNew. case_decide; set_solver. Qed.

Lemma elem_of_nub l (y : A) : y ∈ nub l ↔ y ∈ l.
Proof.
  induction l as [|x l IH] using rev_ind; [done|].
  rewrite nub_snoc, elem_of_addNew, IH. set_solver.
Qed.

Lemma NoDup_addNew acc (x : A) : NoDup acc → NoDup (addNew acc x).
Proof.
  intros Hnd. unfold addNew. case_decide; [done|].
  apply NoDup_app. split_and!; [done|set_solver|apply NoDup_singleton].
Qed.

Lemma NoDup_nub l : NoDup (nub l).
Proof.
  induction l as [|x l IH] using rev_ind; [constructor|].
  rewrite nub_snoc. by apply NoDup_addNew.
Qed.

Lemma length_nub l : (length (nub l) ≤ length l)%nat.
Proof.
  induction l as [|x l IH] using rev_ind; [done|].
  rewrite nub_snoc, length_app. unfold addNew. case_decide; rewrite ?length_app; simpl; lia.
Qed.
End nub.

Lemma foldl_addNew_fmap {A B} `{EqDecision B} (f : A → B) (l : list A) acc :
  foldl (λ acc x, if decide (f x ∈ acc) then acc else acc ++ [f x]) acc l = foldl addNew acc (f <$> l).
Proof. revert acc. induction l; intros; simpl; auto. Qed.

(** * Sorting *)

#[global] Instance meta_le_total : Total meta_le.
Proof.
  intros a b. unfold meta_le, metaCompare. rewrite (bytes_Compare_antisym (PublicKeyOf a)).
  destruct (IsSigner a), (IsSigner b), (IsWritable a), (IsWritable b);
    repeat case_decide; try congruence; try lia;
    destruct (bytes_Compare (PublicKeyOf a) (PublicKeyOf b)); simpl; lia.
Qed.

Lemma meta_le_spec a b :
  meta_le a b ↔
    (IsSigner a = true ∧ IsSigner b = false) ∨
    (IsSigner a = IsSigner b ∧
      ((IsWritable a = true ∧ IsWritable b = false) ∨
       (IsWritable a = IsWritable b ∧ bytes_le (PublicKeyOf a) (PublicKeyOf b)))).
Proof.
  unfold meta_le, metaCompare, bytes_le.
  destruct (IsSigner a), (IsSigner b), (IsWritable a), (IsWritable b); repeat case_decide;
    try congruence; destruct (bytes_Compare (PublicKeyOf a) (PublicKeyOf b)); naive_solver lia.
Qed.

#[global] Instance meta_le_trans : Transitive meta_le.
Proof.
  intros a b c. rewrite !meta_le_spec. intros Hab Hbc.
  destruct Hab as [[? ?]|[? [[? ?]|[? Hab]]]], Hbc as [[? ?]|[? [[? ?]|[? Hbc]]]];
    try (left; split; congruence); right; (split; [congruence|]);
    try (left; split; congruence).
  right. split; [congruence|]. by trans (PublicKeyOf b).
Qed.

Lemma sortMetas_sorted metas : StronglySorted meta_le (sortMetas metas).
Proof. apply StronglySorted_merge_sort; apply _. Qed.

Lemma sortMetas_perm metas : sortMetas metas ≡ₚ metas.
Proof. apply merge_sort_Permutation. Qed.

Lemma sortKeys_perm keys : sortKeys keys ≡ₚ keys.
Proof. apply merge_sort_Permutation. Qed.

(** * Deduplication in place computes the merged roles *)

Definition keysOf (metas : list AccountMeta) : list PublicKey := PublicKeyOf <$> metas.

(** The strongest signer and writable role any meta asks for [k]. *)
Definition anySigner (metas : list AccountMeta) (k : PublicKey) : bool :=
  existsb (λ m, bool_decide (PublicKeyOf m = k) && IsSigner m) metas.
Definition anyWritable (metas : list AccountMeta) (k : PublicKey) : bool :=
  existsb (λ m, bool_decide (PublicKeyOf m = k) && IsWritable m) metas.
Definition merged (metas : list AccountMeta) (k : PublicKey) : AccountMeta :=
  mkAccountMeta k (anyWritable metas k) (anySigner metas k).

Lemma anySigner_true metas k :
  anySigner metas k = true ↔ ∃ m, m ∈ metas ∧ PublicKeyOf m = k ∧ IsSigner m = true.
Proof.
  unfold anySigner. rewrite existsb_exists. setoid_rewrite <- list_elem_of_In.
  setoid_rewrite andb_true_iff. setoid_rewrite bool_decide_eq_true. naive_solver.
Qed.

Lemma anyWritable_true metas k :
  anyWritable metas k = true ↔ ∃ m, m ∈ metas ∧ PublicKeyOf m = k ∧ IsWritable m = true.
Proof.
  unfold anyWritable. rewrite existsb_exists. setoid_rewrite <- list_elem_of_In.
  setoid_rewrite andb_true_iff. setoid_rewrite bool_decide_eq_true. naive_solver.
Qed.

Lemma merged_perm metas metas' k : metas ≡ₚ metas' → merged metas k = merged metas' k.
Proof.
  intros Hp. unfold merged. f_equal; apply eq_bool_prop_intro; rewrite !Is_true_true.
  - rewrite !anyWritable_true. by setoid_rewrite Hp.
  - rewrite !anySigner_true. by setoid_rewrite Hp.
Qed.

Lemma merged_snoc_ne metas m k : PublicKeyOf m ≠ k → merged (metas ++ [m]) k = merged metas k.
Proof.
  intros H. unfold merged, anyWritable, anySigner. rewrite !existsb_app. simpl.
  rewrite bool_decide_eq_false_2 by done. simpl. by rewrite !orb_false_r.
Qed.

Lemma merged_snoc_new metas m : PublicKeyOf m ∉ keysOf metas → merged (metas ++ [m]) (PublicKeyOf m) = m.
Proof.
  intros H. unfold merged, anyWritable, anySigner. rewrite !existsb_app. simpl.
  rewrite bool_decide_eq_true_2 by done. simpl. rewrite !orb_false_r.
  assert (∀ f, existsb (λ m', bool_decide (PublicKeyOf m' = PublicKeyOf m) && f m') metas = false) as Hn.
  { intros f. apply not_true_is_false. rewrite existsb_exists.
    intros (x & Hx & [Hk _]%andb_true_iff). apply bool_decide_eq_true in Hk. apply H.
    apply list_elem_of_fmap. exists x. by rewrite list_elem_of_In. }
  rewrite !Hn. by destruct m.
Qed.

(** In a sorted list an earlier meta of the same key signs if a later one does. *)
Lemma merged_snoc_old metas m :
  StronglySorted meta_le (metas ++ [m]) → PublicKeyOf m ∈ keysOf metas →
  merged (metas ++ [m]) (PublicKeyOf m) = orWritable (IsWritable m) (merged metas (PublicKeyOf m)).
Proof.
  intros Hs Hin. unfold merged, orWritable. simpl. unfold anyWritable, anySigner.
  rewrite !existsb_app. simpl. rewrite bool_decide_eq_true_2 by done. simpl. rewrite !orb_false_r.
  f_equal. destruct (IsSigner m) eqn:E; [|by rewrite orb_false_r]. rewrite orb_true_r. symmetry.
  apply list_elem_of_fmap in Hin as (m0 & Hk & Hm0). change (anySigner metas (PublicKeyOf m) = true).
  apply anySigner_true. exists m0. split_and!; [done|done|].
  apply StronglySorted_app in Hs as (Hle & _ & _). specialize (Hle m0 m Hm0 ltac:(set_solver)).
  apply meta_le_spec in Hle. destruct (IsSigner m0); naive_solver.
Qed.

(** What the loop has built after the prefix [P] of the array. *)
Definition dedup_inv (metas P : list AccountMeta) (st : dedupState) : Prop :=
  length (d_arr st) = length metas ∧
  drop (length P) (d_arr st) = drop (length P) metas ∧
  take (d_len st) (d_arr st) = merged P <$> nub (keysOf P) ∧
  d_len st = length (nub (keysOf P)) ∧
  ∀ k i, d_index st !! k = Some i ↔ nub (keysOf P) !! i = Some k.

Lemma dedupStep_inv metas P m Q st :
  metas = P ++ m :: Q → StronglySorted meta_le metas → dedup_inv metas P st →
  ∃ st', dedupStep (length P) st = Ok st' ∧ dedup_inv metas (P ++ [m]) st'.
Proof.
  intros Hm Hs (Hlen & Hdrop & Htake & Hdl & Hidx).
  assert (length (nub (keysOf P)) ≤ length P)%nat as Hle
    by (etrans; [apply length_nub|]; unfold keysOf; by rewrite length_fmap).
  assert (d_arr st !! length P = Some m) as Hread.
  { rewrite <- (Nat.add_0_r (length P)), <- lookup_drop, Hdrop, lookup_drop, Nat.add_0_r.
    rewrite Hm. by apply list_lookup_middle. }
  assert (StronglySorted meta_le (P ++ [m])) as HsP.
  { rewrite Hm in Hs. apply StronglySorted_app in Hs as (H1 & H2 & H3).
    apply StronglySorted_app. split_and!; [|done|repeat constructor].
    intros x y Hx Hy. apply H1; set_solver. }
  assert (length P < length metas)%nat as HltP by (rewrite Hm, length_app; simpl; lia).
  unfold dedupStep. rewrite (idx_ok _ _ m) by (lia || by rewrite Nat2Z.id).
  unfold mbind at 1, outcome_bind at 1.
  assert (keysOf (P ++ [m]) = keysOf P ++ [PublicKeyOf m]) as Hks by (unfold keysOf; by rewrite fmap_app).
  destruct (d_index st !! PublicKeyOf m) as [at_|] eqn:Hat.
  - apply Hidx in Hat. pose proof (lookup_lt_Some _ _ _ Hat) as Hlt.
    assert (PublicKeyOf m ∈ nub (keysOf P)) as Hin by (apply list_elem_of_lookup; eauto).
    assert (nub (keysOf (P ++ [m])) = nub (keysOf P)) as Hnub.
    { rewrite Hks, nub_snoc. unfold addNew. by rewrite decide_True. }
    rewrite (idx_ok _ _ (merged P (PublicKeyOf m))); [|lia|].
    2: { rewrite Nat2Z.id, Htake, list_lookup_fmap, Hat. done. }
    eexists. split; [done|]. unfold dedup_inv. simpl. rewrite Hnub. split_and!.
    + by rewrite length_alter.
    + rewrite length_app. simpl. rewrite drop_alter_lt by lia.
      by rewrite <- !drop_drop, Hdrop.
    + rewrite take_alter_lt, Htake by lia. apply list_eq. intros j.
      rewrite list_lookup_alter, !list_lookup_fmap.
      destruct (decide (at_ = j)) as [<-|Hne].
      * rewrite Hat. simpl. rewrite merged_snoc_old; [done|done|].
        by rewrite <- elem_of_nub.
      * destruct (nub (keysOf P) !! j) as [k|] eqn:Hj; simpl; [|done].
        rewrite merged_snoc_ne; [done|]. intros Hk. apply Hne. subst k.
        by apply (NoDup_lookup _ _ _ _ (NoDup_nub (keysOf P)) Hat Hj).
    + done.
    + done.
  - assert (PublicKeyOf m ∉ nub (keysOf P)) as Hnin.
    { intros [i Hi]%list_elem_of_lookup. apply Hidx in Hi. congruence. }
    assert (nub (keysOf (P ++ [m])) = nub (keysOf P) ++ [PublicKeyOf m]) as Hnub.
    { rewrite Hks, nub_snoc. unfold addNew. by rewrite decide_False. }
    eexists. split; [done|]. unfold dedup_inv. simpl. rewrite Hnub. split_and!.
    + by rewrite length_insert.
    + rewrite length_app. simpl. rewrite drop_insert_lt by lia.
      by rewrite <- !drop_drop, Hdrop.
    + rewrite (take_S_r _ _ m), take_insert_ge, Htake, fmap_app by (lia || apply list_lookup_insert_eq; lia).
      simpl. f_equal.
      * apply list_fmap_ext. intros j k Hj. symmetry. apply merged_snoc_ne. intros Hk. subst k.
        apply Hnin, list_elem_of_lookup; eauto.
      * f_equal. symmetry. apply merged_snoc_new. by rewrite <- elem_of_nub.
    + rewrite length_app. simpl. lia.
    + intros k i. rewrite lookup_insert. case_decide as Hk.
      * subst k. split.
        -- intros [= <-]. rewrite Hdl. by apply list_lookup_middle.
        -- intros Hi. apply lookup_app_Some in Hi as [Hi|[Hi Hx]].
           ++ exfalso. apply Hnin, list_elem_of_lookup; eauto.
           ++ apply list_lookup_singleton_Some in Hx as [Hx _]. f_equal. lia.
      * rewrite Hidx, lookup_app_Some. split; [auto|]. intros [Hi|[Hi Hx]]; [done|].
        apply list_lookup_singleton_Some in Hx as [_ Hx]. congruence.
Qed.

Lemma dedupLoop_inv metas P Q st :
  metas = P ++ Q → StronglySorted meta_le metas → dedup_inv metas P st →
  ∃ st', dedupLoop (length Q) (length P) st = Ok st' ∧ dedup_inv metas metas st'.
Proof.
  revert P st. induction Q as [|m Q IH]; intros P st Hm Hs Hinv; simpl.
  - rewrite app_nil_r in Hm. subst. eauto.
  - destruct (dedupStep_inv metas P m Q st) as (st' & Hstep & Hinv'); [done..|].
    rewrite Hstep. simpl. replace (S (length P)) with (length (P ++ [m])) by (rewrite length_app; simpl; lia).
    apply IH; [|done|done]. by rewrite <- app_assoc.
Qed.

Lemma dedupLoop_ok metas :
  StronglySorted meta_le metas →
  ∃ st, dedupLoop (length metas) 0 (mkDedup metas 0 ∅) = Ok st ∧
    take (d_len st) (d_arr st) = merged metas <$> nub (keysOf metas) ∧
    ∀ k i, d_index st !! k = Some i ↔ nub (keysOf metas) !! i = Some k.
Proof.
  intros Hs. destruct (dedupLoop_inv metas [] metas (mkDedup metas 0 ∅)) as (st & Hrun & _ & _ & ? & _ & ?);
    [done|done| |by eauto].
  unfold dedup_inv. simpl. split_and!; auto. by intros.
Qed.

(** * The fee payer *)

Definition payerMeta (p : PublicKey) : AccountMeta := mkAccountMeta p true true.

Definition notPayer (p : PublicKey) (m : AccountMeta) : Prop := PublicKeyOf m ≠ p.
#[global] Instance notPayer_dec p m : Decision (notPayer p m).
Proof. unfold notPayer. apply _. Defined.

Lemma filter_all {A} (P : A → Prop) `{∀ x, Decision (P x)} l : Forall P l → filter P l = l.
Proof. induction 1; [done|]. rewrite filter_cons_True by done. by f_equal. Qed.

Lemma copyRange_shift (u1 u2 : list AccountMeta) x :
  ∃ y, copyRange (u1 ++ x :: u2) 1 (S (length u1)) u1 = y :: u1 ++ u2.
Proof.
  unfold copyRange.
  replace (take (S (length u1)) (u1 ++ x :: u2)) with (u1 ++ [x]).
  2: { rewrite (cons_middle x u1 u2), app_assoc. by rewrite take_app_length' by (rewrite ?length_app; simpl; lia). }
  replace (drop (S (length u1)) (u1 ++ x :: u2)) with u2.
  2: { rewrite (cons_middle x u1 u2), app_assoc. by rewrite drop_app_length' by (rewrite ?length_app; simpl; lia). }
  rewrite copy_into_full by (rewrite length_drop, length_app; simpl; lia).
  destruct u1; simpl; eauto.
Qed.

Lemma placeFeePayer_eq p (f : PublicKey → AccountMeta) ks idx :
  (∀ k, PublicKeyOf (f k) = k) → NoDup ks →
  (∀ k i, idx !! k = Some i ↔ ks !! i = Some k) →
  placeFeePayer p idx (f <$> ks) = payerMeta p :: filter (notPayer p) (f <$> ks).
Proof.
  intros Hf Hnd Hidx. unfold placeFeePayer.
  assert (∀ l : list PublicKey, p ∉ l → filter (notPayer p) (f <$> l) = f <$> l) as Hfilter.
  { intros l Hl. apply filter_all, Forall_fmap, Forall_forall. intros k Hk. unfold notPayer; simpl.
    rewrite Hf. intros ->. done. }
  destruct (idx !! p) as [at_|] eqn:Hat.
  - apply Hidx in Hat. apply list_elem_of_split_length in Hat as (l1 & l2 & -> & ->).
    rewrite fmap_app, fmap_cons. apply NoDup_app in Hnd as (_ & Hnin & Hnd2).
    apply NoDup_cons in Hnd2 as [Hp2 _].
    rewrite <- (length_fmap f l1), take_app_length.
    destruct (copyRange_shift (f <$> l1) (f <$> l2) (f p)) as [y ->]. simpl.
    rewrite filter_app, filter_cons_False by (unfold notPayer; rewrite Hf; auto).
    rewrite !Hfilter; [done|done|]. intros ?. eapply Hnin; [done|set_solver].
  - unfold copyRange. rewrite length_replicate. simpl.
    rewrite drop_0, take_ge, drop_ge, app_nil_r by (rewrite length_replicate; lia).
    rewrite copy_into_full by (by rewrite length_replicate).
    rewrite Hfilter; [done|]. intros [i Hi]%list_elem_of_lookup. apply Hidx in Hi. congruence.
Qed.

(** * Index assignment *)

(** Keys receive consecutive uint16 indexes: what the splitting loop and the
    table loops do to [keyIndex] and [next]. *)
Definition assign (ks : list PublicKey) (st : gmap PublicKey Z * Z) : gmap PublicKey Z * Z :=
  foldl (λ '(ki, n) k, (<[k := n]> ki, u16 (n + 1))) st ks.

Lemma assign_app ks ks' st : assign (ks ++ ks') st = assign ks' (assign ks st).
Proof. apply foldl_app. Qed.

Lemma assign_snoc ks k st :
  assign (ks ++ [k]) st =
    (<[k := (assign ks st).2]> (assign ks st).1, u16 ((assign ks st).2 + 1)).
Proof. rewrite assign_app. by destruct (assign ks st). Qed.

Lemma assign_next ks : (assign ks (∅, 0)).2 = u16 (len ks).
Proof.
  induction ks as [|k ks IH] using rev_ind; [done|].
  rewrite assign_snoc. simpl. rewrite IH. unfold u16. rewrite len_app, Zplus_mod_idemp_l. done.
Qed.

Lemma assign_lookup ks k :
  NoDup ks → len ks ≤ 65536 → k ∈ ks →
  ∃ i : nat, (assign ks (∅, 0)).1 !! k = Some (Z.of_nat i) ∧ ks !! i = Some k.
Proof.
  induction ks as [|k' ks IH] using rev_ind; [set_solver|].
  intros Hnd Hlen Hin. apply NoDup_app in Hnd as (Hnd & Hdis & _).
  rewrite assign_snoc. simpl. rewrite len_app in Hlen. change (len [k']) with 1 in Hlen.
  destruct (decide (k = k')) as [->|Hne].
  - exists (length ks). rewrite lookup_insert_eq, assign_next, u16_small by (unfold len in *; lia).
    split; [done|]. by apply list_lookup_middle.
  - destruct IH as (i & Hi & Hki); [done|lia|set_solver|].
    exists i. rewrite lookup_insert_ne by done. split; [done|]. by apply lookup_app_l_Some.
Qed.

(** * Static and table-loaded keys *)

Section split.
Context (entries : gmap PublicKey lookupTableEntry) (programIDs : list PublicKey).

Definition isStatic (m : AccountMeta) : Prop := loadableEntry entries programIDs 1 m = None.
#[global] Instance isStatic_dec m : Decision (isStatic m).
Proof. unfold isStatic. destruct (loadableEntry _ _ _ m); [right; congruence|by left]. Defined.

Definition loadedOf (m : AccountMeta) : option loadedAccount :=
  (λ entry, mkLoaded (PublicKeyOf m) (e_table entry) (e_index entry) (IsWritable m)) <$>
    loadableEntry entries programIDs 1 m.

Definition countRoles (ms : list AccountMeta) (h : MessageHeader) : MessageHeader :=
  foldl (λ h m, countRole m h) h ms.

Lemma loadableEntry_S i m :
  loadableEntry entries programIDs (S i) m = loadableEntry entries programIDs 1 m.
Proof.
  unfold loadableEntry. destruct (_ !! _); [|done]. apply decide_ext. naive_solver.
Qed.

Lemma splitLoop_eq i metas st :
  splitLoop entries programIDs (S i) metas st =
    let ss := filter isStatic metas in
    mkSplit (assign (keysOf ss) (s_keyIndex st, s_next st)).1
      (s_keys st ++ keysOf ss) (countRoles ss (s_header st))
      (s_loaded st ++ omap loadedOf metas)
      (assign (keysOf ss) (s_keyIndex st, s_next st)).2.
Proof.
  revert i st. induction metas as [|m metas IH]; intros i st; simpl.
  - rewrite !app_nil_r. by destruct st.
  - rewrite IH. unfold splitStep. rewrite loadableEntry_S.
    unfold loadedOf at 2. destruct (loadableEntry entries programIDs 1 m) eqn:E; simpl.
    + rewrite filter_cons_False by (unfold isStatic; congruence). by rewrite <- app_assoc.
    + rewrite filter_cons_True by done. simpl. by rewrite <- app_assoc.
Qed.

Lemma split_keys_perm metas :
  keysOf (filter isStatic metas) ++ (l_key <$> omap loadedOf metas) ≡ₚ keysOf metas.
Proof.
  induction metas as [|m metas IH]; [done|]. simpl. unfold loadedOf at 1.
  destruct (loadableEntry entries programIDs 1 m) eqn:E; simpl.
  - rewrite filter_cons_False by (unfold isStatic; congruence). rewrite <- IH.
    by rewrite <- Permutation_middle.
  - rewrite filter_cons_True by done. simpl. by rewrite IH.
Qed.

Lemma loadedOf_entry m l :
  loadedOf m = Some l →
  entries !! l_key l = Some (mkEntry (l_table l) (l_index l)) ∧
  IsSigner m = false ∧ PublicKeyOf m ∉ programIDs ∧ l_key l = PublicKeyOf m.
Proof.
  unfold loadedOf, loadableEntry. destruct (entries !! PublicKeyOf m) as [[t i]|] eqn:E; [|done].
  case_decide as H; [|done]. intros [= <-]. simpl. naive_solver.
Qed.
End split.

(** * Table lookups *)

(** The loaded accounts of table [t] with writability [w]. *)
Definition inRound (t : PublicKey) (w : bool) (l : loadedAccount) : Prop :=
  l_table l = t ∧ l_writable l = w.
#[global] Instance inRound_dec t w l : Decision (inRound t w l).
Proof. unfold inRound. apply _. Defined.

Definition sel (loaded : list loadedAccount) (w : bool) (t : PublicKey) : list loadedAccount :=
  filter (inRound t w) loaded.

(** The accounts of all the tables, in the order the rounds visit them. *)
Definition selAll (loaded : list loadedAccount) (w : bool) (ts : list PublicKey) : list loadedAccount :=
  concat (sel loaded w <$> ts).

Lemma tableRound_ok t w loaded st :
  (t_pos st + length (sel loaded w t) ≤ length (t_backing st))%nat →
  let xs := sel loaded w t in
  tableRound t w loaded st =
    Ok (mkTableState (assign (l_key <$> xs) (t_keyIndex st, t_next st)).1
          (assign (l_key <$> xs) (t_keyIndex st, t_next st)).2
          (take (t_pos st) (t_backing st) ++ (l_index <$> xs) ++
             drop (t_pos st + length xs) (t_backing st))
          (t_pos st + length xs)).
Proof.
  unfold sel. revert st. induction loaded as [|l loaded IH]; intros st Hlen; simpl.
  - rewrite Nat.add_0_r, take_drop. by destruct st.
  - change (l_table l = t ∧ l_writable l = w) with (inRound t w l).
    destruct (decide (inRound t w l)) as [Hl|Hl].
    + rewrite filter_cons_True in * by done. simpl in Hlen. rewrite decide_True by lia.
      rewrite IH by (simpl; rewrite length_insert; lia). simpl. do 2 f_equal.
      * rewrite (take_S_r _ _ (l_index l)) by (apply list_lookup_insert_eq; lia).
        rewrite take_insert_ge, drop_insert_lt by lia. rewrite <- app_assoc. simpl.
        by rewrite Nat.add_succ_r.
      * lia.
    + rewrite filter_cons_False in * by done. by apply IH.
Qed.

Lemma selAll_cons loaded w t ts : selAll loaded w (t :: ts) = sel loaded w t ++ selAll loaded w ts.
Proof. done. Qed.

Lemma tableLoop_ok w loaded ts st :
  (t_pos st + length (selAll loaded w ts) ≤ length (t_backing st))%nat →
  let ks := l_key <$> selAll loaded w ts in
  ∃ backing, length backing = length (t_backing st) ∧
    tableLoop w loaded ts st =
      Ok ((λ t, l_index <$> sel loaded w t) <$> ts,
          mkTableState (assign ks (t_keyIndex st, t_next st)).1 (assign ks (t_keyIndex st, t_next st)).2
            backing (t_pos st + length ks)).
Proof.
  revert st. induction ts as [|t ts IH]; intros st Hlen; simpl.
  - exists (t_backing st). rewrite Nat.add_0_r. by destruct st.
  - rewrite selAll_cons, length_app in *.
    rewrite tableRound_ok by lia. simpl.
    match goal with |- context [tableLoop w loaded ts ?s] => destruct (IH s) as (bk & Hbk & ->) end.
    { simpl. rewrite !length_app, length_take, length_fmap, length_drop. lia. }
    cbn [t_backing t_pos] in *. exists bk. split.
    { rewrite Hbk, !length_app, length_take, length_fmap, length_drop. lia. }
    cbn [t_keyIndex t_next]. unfold mbind, outcome_bind.
    rewrite fmap_app, assign_app, length_app, !length_fmap, <- !surjective_pairing. do 2 f_equal.
    + rewrite app_assoc, take_app_length', drop_app_length'; [done| |];
        rewrite ?length_app, length_take, ?length_fmap; lia.
    + f_equal; lia.
Qed.

Lemma selAll_skip l loaded w ts :
  Forall (λ t, ¬ inRound t w l) ts → selAll (l :: loaded) w ts = selAll loaded w ts.
Proof.
  intros H. unfold selAll. f_equal. apply Forall_fmap_ext_1. eapply Forall_impl; [exact H|].
  intros t Ht. unfold sel. by rewrite filter_cons_False.
Qed.

Lemma selAll_cons_in l loaded w ts :
  NoDup ts → l_table l ∈ ts → l_writable l = w → selAll (l :: loaded) w ts ≡ₚ l :: selAll loaded w ts.
Proof.
  intros Hnd Hin Hw. induction Hnd as [|t ts Hnin Hnd IH]; [set_solver|]. rewrite !selAll_cons.
  destruct (decide (l_table l = t)) as [<-|Hne]; unfold sel at 1.
  - rewrite filter_cons_True by done. rewrite selAll_skip; [done|].
    apply Forall_forall. intros t Ht [<- _]. done.
  - rewrite filter_cons_False by (intros [? _]; done). rewrite IH by set_solver.
    by rewrite Permutation_middle.
Qed.

Lemma selAll_cons_notin l loaded w ts :
  l_writable l ≠ w → selAll (l :: loaded) w ts = selAll loaded w ts.
Proof. intros Hw. apply selAll_skip, Forall_forall. intros t Ht [_ ?]. done. Qed.

(** Every loaded account is visited in exactly one round. *)
Lemma selAll_perm loaded ts :
  NoDup ts → Forall (λ l, l_table l ∈ ts) loaded →
  selAll loaded true ts ++ selAll loaded false ts ≡ₚ loaded.
Proof.
  intros Hnd Hall. induction Hall as [|l loaded Hl Hall IH].
  - assert (∀ w, selAll [] w ts = []) as Hnil; [|by rewrite !Hnil].
    intros w. clear. unfold selAll. induction ts; done.
  - destruct (l_writable l) eqn:Hw.
    + rewrite selAll_cons_in, (selAll_cons_notin l loaded false) by congruence. simpl. by f_equiv.
    + rewrite selAll_cons_notin, selAll_cons_in by congruence.
      rewrite <- Permutation_middle. by f_equiv.
Qed.

Lemma usedTables_eq loaded : usedTables loaded = sortKeys (nub (l_table <$> loaded)).
Proof. unfold usedTables, nub. by rewrite <- foldl_addNew_fmap. Qed.

Lemma usedTables_ok loaded :
  NoDup (usedTables loaded) ∧ Forall (λ l, l_table l ∈ usedTables loaded) loaded.
Proof.
  rewrite usedTables_eq. split.
  - rewrite sortKeys_perm. apply NoDup_nub.
  - apply Forall_forall. intros l Hl. rewrite sortKeys_perm, elem_of_nub. set_solver.
Qed.

(** The keys behind the lookups: the writable rounds, then the readonly ones. *)
Definition tableKeyOrder (loaded : list loadedAccount) : list loadedAccount :=
  selAll loaded true (usedTables loaded) ++ selAll loaded false (usedTables loaded).

Lemma tableKeyOrder_perm loaded : tableKeyOrder loaded ≡ₚ loaded.
Proof. destruct (usedTables_ok loaded). by apply selAll_perm. Qed.

Definition lookupOf (loaded : list loadedAccount) (t : PublicKey) : MessageAddressTableLookup :=
  mkLookup t (l_index <$> sel loaded true t) (l_index <$> sel loaded false t).

Lemma loadTables_ok loaded ki next :
  loadTables loaded ki next =
    Ok (lookupOf loaded <$> usedTables loaded,
        (assign (l_key <$> tableKeyOrder loaded) (ki, next)).1).
Proof.
  pose proof (Permutation_length (tableKeyOrder_perm loaded)) as Hlen.
  unfold tableKeyOrder in *. rewrite length_app in Hlen. unfold loadTables.
  edestruct (tableLoop_ok true loaded (usedTables loaded)) as (bk & Hbk & ->);
    [simpl; rewrite length_replicate; lia|].
  simpl in *. rewrite length_replicate in Hbk.
  match goal with |- context [tableLoop false loaded _ ?s] =>
    destruct (tableLoop_ok false loaded (usedTables loaded) s) as (bk2 & Hbk2 & ->) end.
  { simpl. rewrite length_fmap. lia. }
  simpl. rewrite fmap_app, assign_app, <- surjective_pairing. f_equal. f_equal.
  clear. induction (usedTables loaded) as [|t ts IH]; simpl; [done|]. f_equal. apply IH.
Qed.

(** * Locating an address in the tables *)

Definition tableAt (tables : gmap PublicKey (list PublicKey)) (t : PublicKey) : list PublicKey :=
  default [] (tables !! t).

(** The first table of [ts] that holds [a], and the first position there. *)
Fixpoint locate (tables : gmap PublicKey (list PublicKey)) (ts : list PublicKey) (a : PublicKey)
    : option lookupTableEntry :=
  match ts with
  | [] => None
  | t :: ts' =>
    match firstIndex a (tableAt tables t) 0 with
    | Some j => Some (mkEntry t j)
    | None => locate tables ts' a
    end
  end.

Definition orElse {A} (x y : option A) : option A := match x with Some _ => x | None => y end.

Lemma firstIndex_range a table i j : firstIndex a table i = Some j → i ≤ j < i + len table.
Proof.
  pose proof (firstIndex_spec a table i) as H. intros E. rewrite E in H.
  destruct H as (k & -> & Hk & _). apply lookup_lt_Some in Hk. unfold len. lia.
Qed.

Lemma indexTable_lookup t table i entries a :
  0 ≤ i → i + len table ≤ 256 →
  indexTable t table i entries !! a = orElse (entries !! a) (mkEntry t <$> firstIndex a table i).
Proof.
  revert i entries. induction table as [|x table IH]; intros i entries Hi Hlen; simpl.
  - by destruct (entries !! a).
  - rewrite len_cons in Hlen. pose proof (len_nonneg table). rewrite IH by lia.
    destruct (entries !! x) eqn:Ex; case_decide as Hx; subst.
    + by rewrite Ex.
    + done.
    + rewrite lookup_insert_eq, Ex, u8_small by lia. done.
    + by rewrite lookup_insert_ne by done.
Qed.

Lemma indexTables_spec tables ts entries :
  match indexTables tables ts entries with
  | Ok entries' =>
    Forall (λ t, len (tableAt tables t) ≤ 256) ts ∧
    ∀ a, entries' !! a = orElse (entries !! a) (locate tables ts a)
  | Err e => ∃ t, e = errMaxLookupTableIndex t ∧ t ∈ ts ∧ 256 < len (tableAt tables t)
  | Panic => False
  end.
Proof.
  revert entries. induction ts as [|t ts IH]; intros entries; simpl.
  - split; [constructor|]. intros a. by destruct (entries !! a).
  - fold (tableAt tables t). case_decide as Hlen; [set_solver|].
    specialize (IH (indexTable t (tableAt tables t) 0 entries)).
    destruct (indexTables tables ts _) as [entries'|e|]; [|set_solver|done].
    destruct IH as [Hall IH]. split; [constructor; [lia|done]|].
    intros a. rewrite IH, indexTable_lookup by lia.
    destruct (entries !! a); [done|]. by destruct (firstIndex a (tableAt tables t) 0).
Qed.

Lemma locate_sound tables ts a e :
  locate tables ts a = Some e →
  e_table e ∈ ts ∧ 0 ≤ e_index e < len (tableAt tables (e_table e)) ∧
  tableAt tables (e_table e) !! Z.to_nat (e_index e) = Some a.
Proof.
  induction ts as [|t ts IH]; simpl; [done|].
  destruct (firstIndex a (tableAt tables t) 0) as [j|] eqn:E; [|set_solver].
  intros [= <-]. simpl. pose proof (firstIndex_range _ _ _ _ E).
  pose proof (firstIndex_spec a (tableAt tables t) 0) as H0. rewrite E in H0.
  destruct H0 as (k & -> & Hk & _). split_and!; [set_solver|lia|lia|].
  by replace (Z.to_nat (0 + Z.of_nat k)) with k by lia.
Qed.

Lemma locate_first tables ts a :
  StronglySorted bytes_le ts →
  match locate tables ts a with
  | Some e => ∀ t, t ∈ ts → a ∈ tableAt tables t → bytes_le (e_table e) t
  | None => ∀ t, t ∈ ts → a ∉ tableAt tables t
  end.
Proof.
  induction 1 as [|t ts Hs IH Hall]; simpl; [set_solver|].
  pose proof (firstIndex_spec a (tableAt tables t) 0) as Hf.
  destruct (firstIndex a (tableAt tables t) 0).
  - simpl. intros t' [->|Ht']%elem_of_cons _.
    + unfold bytes_le. by rewrite (proj2 (bytes_Compare_Eq t t) eq_refl).
    + by eapply Forall_forall in Hall.
  - destruct (locate tables ts a); set_solver.
Qed.

(** The option's tables, a nil map being empty. *)
Definition tablesOf (options : transactionOptions) : gmap PublicKey (list PublicKey) :=
  default ∅ (addressTables options).

Lemma elem_of_tableKeys (tables : gmap PublicKey (list PublicKey)) t :
  t ∈ sortKeys ((map_to_list tables).*1) ↔ is_Some (tables !! t).
Proof.
  rewrite sortKeys_perm, list_elem_of_fmap. split.
  - intros ([t' x] & -> & Hx%elem_of_map_to_list). simpl. eauto.
  - intros [x Hx]. exists (t, x). by rewrite elem_of_map_to_list.
Qed.

Lemma lookupEntriesOf_spec options :
  match lookupEntriesOf options with
  | Ok entries =>
    (∀ t table, tablesOf options !! t = Some table → len table ≤ 256) ∧
    ∀ a, entries !! a = locate (tablesOf options) (sortKeys ((map_to_list (tablesOf options)).*1)) a
  | Err e => ∃ t table, e = errMaxLookupTableIndex t ∧ tablesOf options !! t = Some table ∧ 256 < len table
  | Panic => False
  end.
Proof.
  unfold lookupEntriesOf. fold (tablesOf options). set (tables := tablesOf options).
  case_decide as Hlen.
  - pose proof (indexTables_spec tables (sortKeys ((map_to_list tables).*1)) ∅) as H.
    destruct (indexTables _ _ _) as [entries|e|]; [| |done].
    + destruct H as [Hall H]. split; [|done]. intros t table Ht.
      eapply Forall_forall in Hall; [|apply elem_of_tableKeys; eauto].
      unfold tableAt in Hall. by rewrite Ht in Hall.
    + destruct H as (t & -> & [table Ht]%elem_of_tableKeys & Hlt). exists t, table.
      unfold tableAt in Hlt. by rewrite Ht in Hlt.
  - assert (map_to_list tables = []) as Hnil by (apply len_0; pose proof (len_nonneg (map_to_list tables)); lia).
    rewrite Hnil. apply map_to_list_empty_iff in Hnil. rewrite Hnil. split; [by intros ? ?|done].
Qed.

(** * The compiled message *)

Definition collected (instructions : list Instruction) : list AccountMeta :=
  concat (Accounts <$> instructions) ++ (Meta <$> nub (ProgramID <$> instructions)).

Lemma collectMetas_eq instructions :
  collectMetas instructions = (collected instructions, nub (ProgramID <$> instructions)).
Proof.
  unfold collectMetas, collected.
  assert (∀ ms ps, foldl (λ '(metas, programIDs) ins,
             (metas ++ Accounts ins,
              if decide (ProgramID ins ∈ programIDs) then programIDs
              else programIDs ++ [ProgramID ins])) (ms, ps) instructions =
     (ms ++ concat (Accounts <$> instructions), foldl addNew ps (ProgramID <$> instructions))) as H.
  { induction instructions as [|ins instructions IH]; intros ms ps; simpl; [by rewrite app_nil_r|].
    by rewrite IH, <- app_assoc. }
  by rewrite H.
Qed.

Section message.
Context (instructions : list Instruction) (p : PublicKey) (entries : gmap PublicKey lookupTableEntry).

(** The account list after deduplication and with the payer in front. *)
Definition otherMetas : list AccountMeta :=
  let metas := sortMetas (collected instructions) in
  filter (notPayer p) (merged metas <$> nub (keysOf metas)).

Definition staticMetas : list AccountMeta :=
  payerMeta p :: filter (isStatic entries (nub (ProgramID <$> instructions))) otherMetas.

Definition loadedAccounts : list loadedAccount :=
  omap (loadedOf entries (nub (ProgramID <$> instructions))) otherMetas.

(** Every key in the order of its index. *)
Definition keyOrder : list PublicKey := keysOf staticMetas ++ (l_key <$> tableKeyOrder loadedAccounts).

Definition finalIndex : gmap PublicKey Z := (assign keyOrder (∅, 0)).1.

Definition compiledMessage (h : Hash) (compiled : list CompiledInstruction) : Message :=
  mkMessage (if decide (loadedAccounts = []) then MessageVersionLegacy else MessageVersionV0)
    (keysOf staticMetas) (countRoles staticMetas zeroHeader) h compiled
    (lookupOf loadedAccounts <$> usedTables loadedAccounts).

Lemma splitLoop_all :
  splitLoop entries (nub (ProgramID <$> instructions)) 0 (payerMeta p :: otherMetas)
    (mkSplit ∅ [] zeroHeader [] 0) =
  mkSplit (assign (keysOf staticMetas) (∅, 0)).1 (keysOf staticMetas)
    (countRoles staticMetas zeroHeader) loadedAccounts (assign (keysOf staticMetas) (∅, 0)).2.
Proof.
  simpl. rewrite splitLoop_eq. unfold splitStep.
  replace (loadableEntry _ _ 0 (payerMeta p)) with (@None lookupTableEntry); [done|].
  unfold loadableEntry. destruct (_ !! _); [|done]. by rewrite decide_False by naive_solver.
Qed.

Lemma keyOrder_perm : keyOrder ≡ₚ p :: keysOf otherMetas.
Proof.
  unfold keyOrder, staticMetas. simpl. f_equiv. rewrite tableKeyOrder_perm.
  apply split_keys_perm.
Qed.

Lemma elem_of_keyOrder k :
  k ∈ keyOrder ↔ k = p ∨ k ∈ keysOf (collected instructions).
Proof.
  rewrite keyOrder_perm, elem_of_cons. unfold otherMetas, keysOf.
  rewrite list_elem_of_fmap. setoid_rewrite list_elem_of_filter. setoid_rewrite list_elem_of_fmap.
  setoid_rewrite elem_of_nub. unfold notPayer.
  assert (∀ k', k' ∈ PublicKeyOf <$> sortMetas (collected instructions) ↔
                k' ∈ PublicKeyOf <$> collected instructions) as Hp.
  { intros k'. by rewrite sortMetas_perm. }
  destruct (decide (k = p)) as [->|Hne]; [naive_solver|]. rewrite <- list_elem_of_fmap, <- Hp. split.
  - intros [->|(m & -> & Hn & k' & -> & Hk')]; [done|]. by right.
  - intros [->|Hk]; [done|]. right. exists (merged (sortMetas (collected instructions)) k).
    split_and!; [done|done|]. eauto.
Qed.

Lemma NoDup_keyOrder : NoDup keyOrder.
Proof.
  rewrite keyOrder_perm. unfold otherMetas. set (metas := sortMetas _).
  apply NoDup_cons. split.
  - unfold keysOf. rewrite list_elem_of_fmap. intros (m & -> & [Hm _]%list_elem_of_filter). done.
  - apply (sublist_NoDup _ (keysOf (merged metas <$> nub (keysOf metas)))).
    + unfold keysOf at 1. rewrite <- list_fmap_compose, list_fmap_id. apply NoDup_nub.
    + apply fmap_sublist, sublist_filter.
Qed.
End message.

Lemma NewTransaction_eq first rest h opts p entries :
  let options := foldl (λ options opt, opt options) zeroOptions opts in
  let instructions := first :: rest in
  chooseFeePayer options first = Ok p → lookupEntriesOf options = Ok entries →
  NewTransaction instructions h opts =
    compiled ← compileInstructions (finalIndex instructions p entries) 0 instructions;
    Ok (mkTransaction [] (compiledMessage instructions p entries h compiled)).
Proof.
  intros options instructions Hp He. unfold NewTransaction, instructions. fold options.
  rewrite Hp. unfold mbind at 1, outcome_bind at 1. rewrite He. unfold mbind at 1, outcome_bind at 1.
  fold instructions. rewrite collectMetas_eq.
  destruct (dedupLoop_ok (sortMetas (collected instructions))) as (st & -> & Huniq & Hidx);
    [apply sortMetas_sorted|].
  unfold mbind at 1, outcome_bind at 1. rewrite Huniq.
  rewrite placeFeePayer_eq by (done || apply NoDup_nub).
  change (filter (notPayer p) _) with (otherMetas instructions p). rewrite splitLoop_all.
  unfold finalIndex, keyOrder. rewrite assign_app. cbn [s_loaded s_keys s_header s_keyIndex s_next].
  unfold compiledMessage. set (loaded := loadedAccounts instructions p entries).
  destruct (decide (loaded = [])) as [Hnil|Hnil].
  - rewrite Hnil. simpl. done.
  - rewrite decide_True by (destruct loaded; [done|len_lia]).
    rewrite loadTables_ok, <- surjective_pairing. done.
Qed.

(** ** Resolving compiled indexes *)

(** What the runtime does with a message: the static keys, then the keys the
    lookups name in the tables, all writable ones before all readonly ones. *)
Definition resolveRound (tables : gmap PublicKey (list PublicKey))
    (indexes : MessageAddressTableLookup → list Z) (lookups : list MessageAddressTableLookup)
    : option (list PublicKey) :=
  @concat PublicKey <$> mapM (λ lk, mapM (λ i, tables !! AccountKey lk ≫= (λ table, table !! Z.to_nat i)) (indexes lk)) lookups.

Definition resolvedKeys (tables : gmap PublicKey (list PublicKey)) (mx : Message) : option (list PublicKey) :=
  ws ← resolveRound tables WritableIndexes (AddressTableLookups mx);
  rs ← resolveRound tables ReadonlyIndexes (AddressTableLookups mx);
  Some (AccountKeys mx ++ ws ++ rs).

(** A compiled instruction names the same program, accounts and data. *)
Definition resolves (keys : list PublicKey) (ins : Instruction) (c : CompiledInstruction) : Prop :=
  keys !! Z.to_nat (ProgramIDIndex c) = Some (ProgramID ins) ∧
  mapM (λ i, keys !! Z.to_nat i) (AccountIndexes c) = Some (PublicKeyOf <$> Accounts ins) ∧
  Data ins = Ok (InsData c).

Lemma compileInstructions_spec ki i inss :
  match compileInstructions ki i inss with
  | Ok cs => Forall2 (λ ins c,
      ProgramIDIndex c = indexOf ki (ProgramID ins) ∧
      AccountIndexes c = (λ m, indexOf ki (PublicKeyOf m)) <$> Accounts ins ∧
      Data ins = Ok (InsData c)) inss cs
  | Err e => ∃ j ins, inss !! j = Some ins ∧ Data ins = Err tt ∧ e = errInstructionData (i + j)
  | Panic => ∃ ins, ins ∈ inss ∧ Data ins = Panic
  end.
Proof.
  revert i. induction inss as [|ins inss IH]; intros i; simpl; [constructor|].
  destruct (Data ins) as [d|[]|] eqn:Hd; simpl.
  - specialize (IH (S i)). destruct (compileInstructions ki (S i) inss) as [cs|e|]; simpl.
    + by constructor.
    + destruct IH as (j & ins' & Hj & Hd' & ->). exists (S j), ins'.
      split_and!; [done|done|]. f_equal. lia.
    + set_solver.
  - exists 0%nat, ins. split_and!; [done|done|]. f_equal. lia.
  - exists ins. set_solver.
Qed.

Lemma mapM_cons {A B} (f : A → option B) x l :
  mapM f (x :: l) = (y ← f x; k ← mapM f l; Some (y :: k)).
Proof. done. Qed.

Lemma mapM_Some_fmap {A B C} (f : B → option C) (g : A → B) (h : A → C) l :
  Forall (λ x, f (g x) = Some (h x)) l → mapM f (g <$> l) = Some (h <$> l).
Proof. induction 1 as [|x l Hx _ IH]; [done|]. rewrite fmap_cons, mapM_cons, Hx. simpl. by rewrite IH. Qed.

Lemma selAll_concat loaded w ts :
  concat ((λ t, l_key <$> sel loaded w t) <$> ts) = l_key <$> selAll loaded w ts.
Proof. induction ts as [|t ts IH]; [done|]. rewrite selAll_cons, fmap_app, <- IH. done. Qed.

Lemma resolveRound_ok tables loaded w (indexes : MessageAddressTableLookup → list Z) ts :
  Forall (λ l, tables !! l_table l ≫= (λ table, table !! Z.to_nat (l_index l)) = Some (l_key l)) loaded →
  (∀ t, indexes (lookupOf loaded t) = l_index <$> sel loaded w t) →
  resolveRound tables indexes (lookupOf loaded <$> ts) = Some (l_key <$> selAll loaded w ts).
Proof.
  intros Hall Hix. unfold resolveRound.
  rewrite (mapM_Some_fmap _ _ (λ t, l_key <$> sel loaded w t)).
  - simpl. by rewrite selAll_concat.
  - apply Forall_forall. intros t _. rewrite Hix. apply mapM_Some_fmap, Forall_forall.
    intros l [[<- _] Hl]%list_elem_of_filter.
    rewrite Forall_forall in Hall. by apply Hall.
Qed.

Lemma loaded_located instructions p options entries :
  lookupEntriesOf options = Ok entries →
  Forall (λ l, tablesOf options !! l_table l ≫= (λ table, table !! Z.to_nat (l_index l)) = Some (l_key l))
    (loadedAccounts instructions p entries).
Proof.
  intros He. pose proof (lookupEntriesOf_spec options) as Hs. rewrite He in Hs. destruct Hs as [_ Hs].
  apply Forall_forall. intros l (m & _ & Hm)%list_elem_of_omap.
  apply loadedOf_entry in Hm as (Hl & _). rewrite Hs in Hl.
  apply locate_sound in Hl as ([table Ht]%elem_of_tableKeys & _ & Hidx). simpl in *.
  unfold tableAt in Hidx. rewrite Ht in *. done.
Qed.

Lemma compiled_resolvedKeys instructions p options entries h compiled :
  lookupEntriesOf options = Ok entries →
  resolvedKeys (tablesOf options) (compiledMessage instructions p entries h compiled) =
    Some (keyOrder instructions p entries).
Proof.
  intros He. pose proof (loaded_located instructions p options entries He) as Hall.
  unfold resolvedKeys. simpl.
  rewrite (resolveRound_ok _ _ true WritableIndexes _ Hall) by reflexivity. simpl.
  rewrite (resolveRound_ok _ _ false ReadonlyIndexes _ Hall) by reflexivity. simpl.
  unfold keyOrder, tableKeyOrder. by rewrite fmap_app.
Qed.

Lemma finalIndex_resolves instructions p entries k :
  len (keyOrder instructions p entries) ≤ 65536 → k ∈ keyOrder instructions p entries →
  keyOrder instructions p entries !! Z.to_nat (indexOf (finalIndex instructions p entries) k) = Some k.
Proof.
  intros Hlen Hk. destruct (assign_lookup (keyOrder instructions p entries) k) as (i & Hi & Hki);
    [apply NoDup_keyOrder|done|done|].
  unfold indexOf, finalIndex. rewrite Hi. simpl. by rewrite Nat2Z.id.
Qed.

Lemma elem_of_concat_fmap {A B} (f : A → list B) l x :
  x ∈ concat (f <$> l) ↔ ∃ y, y ∈ l ∧ x ∈ f y.
Proof. induction l as [|y l IH]; csimpl; [set_solver|]. rewrite elem_of_app, IH. set_solver. Qed.

Lemma elem_of_collected instructions k :
  k ∈ keysOf (collected instructions) ↔
    ∃ ins, ins ∈ instructions ∧ (k = ProgramID ins ∨ ∃ m, m ∈ Accounts ins ∧ PublicKeyOf m = k).
Proof.
  unfold collected, keysOf. rewrite fmap_app, elem_of_app, <- list_fmap_compose.
  rewrite !list_elem_of_fmap. setoid_rewrite elem_of_concat_fmap. setoid_rewrite elem_of_nub.
  setoid_rewrite list_elem_of_fmap. simpl. naive_solver.
Qed.

Lemma Forall2_impl_l {A B} (P Q : A → B → Prop) l k :
  Forall2 P l k → (∀ x y, x ∈ l → P x y → Q x y) → Forall2 Q l k.
Proof.
  induction 1 as [|x y l k Hxy _ IH]; intros H; constructor; [by apply H; [set_solver|]|].
  apply IH. intros. apply H; [set_solver|done].
Qed.

Lemma compiled_resolves instructions p entries compiled :
  let ki := finalIndex instructions p entries in
  let keys := keyOrder instructions p entries in
  len keys ≤ 65536 → compileInstructions ki 0 instructions = Ok compiled →
  Forall2 (resolves keys) instructions compiled.
Proof.
  intros ki keys Hlen Hc. pose proof (compileInstructions_spec ki 0 instructions) as H.
  rewrite Hc in H. eapply Forall2_impl_l; [exact H|].
  intros ins c Hins (Hpid & Hacc & Hd). unfold resolves. rewrite Hpid, Hacc. split_and!; [| |done].
  - apply finalIndex_resolves; [done|]. apply elem_of_keyOrder. right. apply elem_of_collected.
    exists ins. auto.
  - apply mapM_Some_fmap, Forall_forall. intros m Hm. apply finalIndex_resolves; [done|].
    apply elem_of_keyOrder. right. apply elem_of_collected. exists ins. eauto.
Qed.

(** * Roles and the header *)

Definition hasRole (w s : bool) (m : AccountMeta) : Prop := IsWritable m = w ∧ IsSigner m = s.
#[global] Instance hasRole_dec w s m : Decision (hasRole w s m).
Proof. unfold hasRole. apply _. Defined.

Definition ofRole (w s : bool) (ms : list AccountMeta) : list AccountMeta := filter (hasRole w s) ms.

(** The order of the four classes: what [meta_le] says of roles. *)
Definition role_le (a b : AccountMeta) : Prop :=
  (IsSigner a = true ∧ IsSigner b = false) ∨
  (IsSigner a = IsSigner b ∧ (IsWritable a = true ∨ IsWritable b = false)).

Lemma meta_le_role_le a b : meta_le a b → role_le a b.
Proof.
  rewrite meta_le_spec. unfold role_le. destruct (IsWritable a), (IsWritable b); naive_solver.
Qed.

Lemma ofRole_nil w s ms : Forall (λ m, ¬ hasRole w s m) ms → ofRole w s ms = [].
Proof. unfold ofRole. induction 1; [done|]. by rewrite filter_cons_False. Qed.

Lemma sorted_by_role ms :
  StronglySorted role_le ms →
  ms = ofRole true true ms ++ ofRole false true ms ++ ofRole true false ms ++ ofRole false false ms.
Proof.
  induction 1 as [|m ms Hs IH Hall]; [done|].
  assert (∀ w s, ¬ role_le m (mkAccountMeta zeroKey w s) → ofRole w s ms = []) as Hnil.
  { intros w s Hno. apply ofRole_nil. eapply Forall_impl; [exact Hall|].
    intros m' Hle [<- <-]. by apply Hno. }
  unfold ofRole in *. destruct (IsWritable m) eqn:W, (IsSigner m) eqn:S;
    repeat first [ rewrite (filter_cons_True (hasRole (IsWritable m) (IsSigner m)))
                 | rewrite (filter_cons_True _ m) by (by split)
                 | rewrite (filter_cons_False _ m) by (intros [? ?]; congruence) ];
    repeat match goal with |- context [filter (hasRole ?w ?s) ms] =>
             rewrite (Hnil w s) in * by (unfold role_le; simpl; rewrite W, S; naive_solver) end;
    simpl in *; by f_equal.
Qed.

Lemma u8_add x y : u8 (u8 x + y) = u8 (x + y).
Proof. unfold u8. apply Zplus_mod_idemp_l. Qed.

Lemma len_ofRole_snoc w s ms m :
  len (ofRole w s (ms ++ [m])) =
    len (ofRole w s ms) + (if Bool.eqb (IsWritable m) w && Bool.eqb (IsSigner m) s then 1 else 0).
Proof.
  unfold ofRole. rewrite filter_app, len_app, filter_cons. f_equal. case_decide as H.
  - destruct H as [-> ->]. by rewrite !eqb_reflx.
  - unfold hasRole in H. destruct (IsWritable m), (IsSigner m), w, s; simpl; naive_solver.
Qed.

Lemma countRoles_eq ms :
  countRoles ms zeroHeader =
    mkMessageHeader (u8 (len (ofRole true true ms) + len (ofRole false true ms)))
      (u8 (len (ofRole false true ms))) (u8 (len (ofRole false false ms))).
Proof.
  induction ms as [|m ms IH] using rev_ind; [done|].
  unfold countRoles in *. rewrite foldl_app, IH, !len_ofRole_snoc. simpl. unfold countRole.
  destruct (IsWritable m), (IsSigner m); simpl; rewrite ?u8_add, ?Z.add_0_r; f_equal; f_equal; lia.
Qed.

Lemma metas_of_keys w s ms : metas_of w s (keysOf (ofRole w s ms)) = ofRole w s ms.
Proof.
  unfold metas_of, keysOf, ofRole. induction ms as [|m ms IH]; [done|]. rewrite filter_cons.
  case_decide as H; [|done]. simpl. f_equal; [|done]. destruct m, H; simpl in *; congruence.
Qed.

(** When the list is sorted by role and no counter overflows, position [i] has
    exactly the roles of the [i]-th meta. *)
Lemma header_roles mx ms :
  AccountKeys mx = keysOf ms → Header mx = countRoles ms zeroHeader →
  StronglySorted role_le ms → len ms ≤ 255 →
  imap (λ i key, mkAccountMeta key (staticIndexIsWritable mx (Z.of_nat i))
                   (bool_decide (Z.of_nat i < NumRequiredSignatures (Header mx)))) (AccountKeys mx) = ms.
Proof.
  intros Hk Hh Hs Hlen. pose proof (sorted_by_role ms Hs) as Hms.
  assert (len ms = len (ofRole true true ms) + len (ofRole false true ms) +
            len (ofRole true false ms) + len (ofRole false false ms)) as Hsum.
  { rewrite Hms at 1. rewrite !len_app. lia. }
  pose proof (len_nonneg (ofRole true true ms)). pose proof (len_nonneg (ofRole false true ms)).
  pose proof (len_nonneg (ofRole true false ms)). pose proof (len_nonneg (ofRole false false ms)).
  rewrite countRoles_eq, !u8_small in Hh by lia.
  rewrite (roles_partition_aux mx (keysOf (ofRole true true ms)) (keysOf (ofRole false true ms))
             (keysOf (ofRole true false ms)) (keysOf (ofRole false false ms))).
  - rewrite !metas_of_keys. by symmetry.
  - rewrite Hk. unfold keysOf. rewrite <- !fmap_app. by f_equal.
  - rewrite Hh. unfold keysOf. simpl. rewrite !len_fmap. done.
  - rewrite Hh. unfold keysOf. simpl. rewrite !len_fmap. done.
  - rewrite Hh. unfold keysOf. simpl. rewrite !len_fmap. done.
Qed.

Lemma header_roles_of mx ms m :
  AccountKeys mx = keysOf ms → NoDup (keysOf ms) → Header mx = countRoles ms zeroHeader →
  StronglySorted role_le ms → len ms ≤ 255 → m ∈ ms →
  IsSignerOf mx (PublicKeyOf m) = IsSigner m ∧ IsWritableStatic mx (PublicKeyOf m) = IsWritable m.
Proof.
  intros Hk Hnd Hh Hs Hlen [i Hi]%list_elem_of_lookup.
  pose proof (header_roles mx ms Hk Hh Hs Hlen) as Hroles.
  assert (AccountKeys mx !! i = Some (PublicKeyOf m)) as Hki
    by (rewrite Hk; unfold keysOf; by rewrite list_lookup_fmap, Hi).
  rewrite <- Hroles, list_lookup_imap, Hki in Hi. simpl in Hi. injection Hi as Hm.
  unfold IsSignerOf, IsWritableStatic.
  pose proof (firstIndex_spec (PublicKeyOf m) (AccountKeys mx) 0) as Hf.
  destruct (firstIndex (PublicKeyOf m) (AccountKeys mx) 0) as [j|].
  - destruct Hf as (k & -> & Hkk & _).
    rewrite <- Hk in Hnd. pose proof (NoDup_lookup _ _ _ _ Hnd Hkk Hki) as ->.
    rewrite <- Hm. simpl. done.
  - exfalso. apply Hf, list_elem_of_lookup. eauto.
Qed.

(** A key is free of conflict when one of its metas already asks for every role
    any of its metas asks for; the payer's own metas do not matter. *)
Definition noConflict (metas : list AccountMeta) (p : PublicKey) : Prop :=
  Forall (λ m, PublicKeyOf m = p ∨ merged metas (PublicKeyOf m) ∈ metas) metas.
#[global] Instance noConflict_dec metas p : Decision (noConflict metas p).
Proof. unfold noConflict. apply _. Defined.

Lemma merged_strongest metas m : m ∈ metas → meta_le (merged metas (PublicKeyOf m)) m.
Proof.
  intros Hm. rewrite meta_le_spec. simpl.
  assert (IsSigner m = true → anySigner metas (PublicKeyOf m) = true) as HS
    by (intros; apply anySigner_true; eauto).
  assert (IsWritable m = true → anyWritable metas (PublicKeyOf m) = true) as HW
    by (intros; apply anyWritable_true; eauto).
  assert (bytes_le (PublicKeyOf m) (PublicKeyOf m)) as HB
    by (by destruct (total bytes_le (PublicKeyOf m) (PublicKeyOf m))).
  destruct (anySigner metas (PublicKeyOf m)), (anyWritable metas (PublicKeyOf m)),
    (IsSigner m), (IsWritable m); clear Hm; intuition congruence.
Qed.

#[global] Instance meta_le_antisymm : AntiSymm (=) meta_le.
Proof.
  intros [ka wa sa] [kb wb sb]. rewrite !meta_le_spec. simpl. intros Hab Hba.
  destruct wa, wb, sa, sb; try naive_solver; f_equal; apply (anti_symm bytes_le); naive_solver.
Qed.

(** Without conflicts the merged list is a subsequence of the sorted metas. *)
Lemma merged_sorted metas p P Q :
  StronglySorted meta_le metas → noConflict metas p → metas = P ++ Q →
  let ms := filter (notPayer p) (merged metas <$> nub (keysOf P)) in
  Forall (.∈ P) ms ∧ StronglySorted meta_le ms.
Proof.
  intros Hs Hnc. revert Q. induction P as [|m P IH] using rev_ind; intros Q Hm; simpl.
  { by repeat constructor. }
  rewrite <- app_assoc in Hm. destruct (IH _ Hm) as [Hin Hsrt]. clear IH.
  unfold keysOf. rewrite fmap_app. simpl. fold (keysOf P). rewrite nub_snoc. unfold addNew.
  assert (Forall (.∈ P ++ [m]) (filter (notPayer p) (merged metas <$> nub (keysOf P)))) as Hin'
    by (eapply Forall_impl; [exact Hin|set_solver]).
  case_decide as Hold; [done|]. rewrite fmap_app, filter_app. simpl. rewrite filter_cons.
  case_decide as Hp; [|by rewrite app_nil_r].
  assert (merged metas (PublicKeyOf m) = m) as Heq.
  { assert (m ∈ metas) as Hmm by (rewrite Hm; set_solver).
    pose proof (proj1 (Forall_forall _ _) Hnc m Hmm) as [?|Hf]; [done|].
    apply (anti_symm meta_le); [by apply merged_strongest|].
    rewrite Hm in Hf at 2. rewrite elem_of_app in Hf. rewrite elem_of_nub in Hold.
    rewrite Hm in Hs. apply StronglySorted_app in Hs as (_ & _ & Hs).
    apply StronglySorted_cons in Hs as [Hall _]. destruct Hf as [Hf|Hf].
    - exfalso. apply Hold, list_elem_of_fmap. eexists. by split; [|exact Hf].
    - simpl in Hf. apply elem_of_cons in Hf as [->|Hf]; [by destruct (total meta_le m m)|].
      by eapply Forall_forall in Hall. }
  rewrite Heq. simpl. split.
  - apply Forall_app. split; [done|]. repeat constructor. set_solver.
  - apply StronglySorted_app. split_and!; [|done|repeat constructor].
    intros x y Hx Hy. rewrite Forall_forall in Hin. specialize (Hin x Hx).
    rewrite Hm in Hs. apply StronglySorted_app in Hs as (Hle & _ & _).
    apply Hle; set_solver.
Qed.

Lemma StronglySorted_filter {A} (R : A → A → Prop) (P : A → Prop) `{∀ x, Decision (P x)} l :
  StronglySorted R l → StronglySorted R (filter P l).
Proof.
  induction 1 as [|x l Hs IH Hall]; [constructor|]. rewrite filter_cons. case_decide; [|done].
  constructor; [done|]. apply Forall_forall. intros y [_ Hy]%list_elem_of_filter.
  rewrite Forall_forall in Hall. by apply Hall.
Qed.

Lemma StronglySorted_mono {A} (R R' : A → A → Prop) l :
  (∀ x y, R x y → R' x y) → StronglySorted R l → StronglySorted R' l.
Proof. intros H. induction 1; constructor; [done|]. eapply Forall_impl; eauto. Qed.

Lemma noConflict_perm metas metas' p : metas ≡ₚ metas' → noConflict metas p → noConflict metas' p.
Proof.
  intros Hp. unfold noConflict. rewrite Hp. intros H. eapply Forall_impl; [exact H|]. intros m.
  simpl. rewrite (merged_perm metas metas') by done. by rewrite Hp.
Qed.

Lemma staticMetas_sorted instructions p entries :
  noConflict (collected instructions) p → StronglySorted role_le (staticMetas instructions p entries).
Proof.
  intros Hnc. unfold staticMetas. set (metas := sortMetas (collected instructions)).
  destruct (merged_sorted metas p metas []) as [_ Hs].
  - apply sortMetas_sorted.
  - apply (noConflict_perm (collected instructions)); [|done]. symmetry. apply sortMetas_perm.
  - by rewrite app_nil_r.
  - constructor.
    + apply StronglySorted_filter. eapply StronglySorted_mono; [apply meta_le_role_le|exact Hs].
    + apply Forall_forall. intros m _. unfold role_le. simpl. destruct (IsSigner m); auto.
Qed.

Lemma merged_collected instructions k :
  merged (sortMetas (collected instructions)) k = merged (collected instructions) k.
Proof. apply merged_perm, sortMetas_perm. Qed.

Lemma elem_of_otherMetas instructions p m :
  m ∈ otherMetas instructions p ↔
    PublicKeyOf m ≠ p ∧ PublicKeyOf m ∈ keysOf (collected instructions) ∧
    m = merged (collected instructions) (PublicKeyOf m).
Proof.
  unfold otherMetas. rewrite list_elem_of_filter, list_elem_of_fmap. unfold notPayer.
  setoid_rewrite elem_of_nub. setoid_rewrite merged_collected.
  assert (∀ k, k ∈ keysOf (sortMetas (collected instructions)) ↔ k ∈ keysOf (collected instructions)) as Hperm
    by (intros k; unfold keysOf; by rewrite sortMetas_perm).
  setoid_rewrite Hperm. split.
  - intros (Hne & k & -> & Hk). done.
  - intros (Hne & Hk & Hm). eauto.
Qed.

Lemma isStatic_signer entries programIDs m : IsSigner m = true → isStatic entries programIDs m.
Proof.
  intros Hs. unfold isStatic, loadableEntry. destruct (_ !! _); [|done].
  rewrite decide_False; [done|]. rewrite Hs. naive_solver.
Qed.

Lemma isStatic_program entries programIDs m : PublicKeyOf m ∈ programIDs → isStatic entries programIDs m.
Proof.
  intros Hs. unfold isStatic, loadableEntry. destruct (_ !! _); [|done].
  rewrite decide_False; [done|]. naive_solver.
Qed.

Lemma elem_of_static instructions p entries k :
  k = p ∨ (k ∈ keysOf (collected instructions) ∧
           (anySigner (collected instructions) k = true ∨ k ∈ ProgramID <$> instructions)) →
  k ∈ keysOf (staticMetas instructions p entries).
Proof.
  intros [->|[Hk Hst]]; [by left|]. destruct (decide (k = p)) as [->|Hne]; [by left|]. right.
  apply list_elem_of_fmap. exists (merged (collected instructions) k). split; [done|].
  apply list_elem_of_filter. split; [|by apply elem_of_otherMetas].
  destruct Hst as [Hst|Hst]; [by apply isStatic_signer|]. apply isStatic_program. by apply elem_of_nub.
Qed.

Lemma NoDup_staticKeys instructions p entries : NoDup (keysOf (staticMetas instructions p entries)).
Proof.
  pose proof (NoDup_keyOrder instructions p entries) as Hnd.
  unfold keyOrder in Hnd. by apply NoDup_app in Hnd as [? _].
Qed.

(** The options an [opts] list amounts to. *)
Definition optionsOf (opts : list TransactionOption) : transactionOptions :=
  foldl (λ options opt, opt options) zeroOptions opts.

(** The fee payer of a compilation that gets past choosing one. *)
Definition feePayerOf (instructions : list Instruction) (opts : list TransactionOption) : PublicKey :=
  match instructions with
  | [] => zeroKey
  | first :: _ => match chooseFeePayer (optionsOf opts) first with Ok p => p | _ => zeroKey end
  end.

(** The intermediate values of a successful run. *)
Lemma NewTransaction_inv instructions h opts tx :
  NewTransaction instructions h opts = Ok tx →
  let p := feePayerOf instructions opts in
  ∃ entries compiled,
    lookupEntriesOf (optionsOf opts) = Ok entries ∧
    compileInstructions (finalIndex instructions p entries) 0 instructions = Ok compiled ∧
    tx = mkTransaction [] (compiledMessage instructions p entries h compiled).
Proof.
  intros Hrun. destruct instructions as [|first rest]; [done|].
  assert (∃ p, chooseFeePayer (optionsOf opts) first = Ok p) as [p Hp].
  { unfold NewTransaction in Hrun. fold (optionsOf opts) in Hrun.
    destruct (chooseFeePayer (optionsOf opts) first); [eauto|done..]. }
  assert (∃ entries, lookupEntriesOf (optionsOf opts) = Ok entries) as [entries He].
  { unfold NewTransaction in Hrun. fold (optionsOf opts) in Hrun. rewrite Hp in Hrun. simpl in Hrun.
    destruct (lookupEntriesOf (optionsOf opts)); [eauto|done..]. }
  rewrite (NewTransaction_eq _ _ _ _ p entries) in Hrun by done. simpl. rewrite Hp.
  destruct (compileInstructions _ 0 (first :: rest)) as [compiled| |] eqn:Hc; [|done..].
  injection Hrun as <-. exists entries, compiled. done.
Qed.

Lemma firstSigner_spec metas :
  match firstSigner metas with
  | Some k => ∃ m, m ∈ metas ∧ IsSigner m = true ∧ PublicKeyOf m = k
  | None => ∀ m, m ∈ metas → IsSigner m = false
  end.
Proof.
  induction metas as [|m metas IH]; simpl; [set_solver|].
  destruct (IsSigner m) eqn:E; [exists m; set_solver|]. destruct (firstSigner metas); set_solver.
Qed.

Lemma chooseFeePayer_spec options first :
  match chooseFeePayer options first with
  | Ok _ => payer options ≠ zeroKey ∨ ∃ m, m ∈ Accounts first ∧ IsSigner m = true
  | Err e => e = errNoFeePayer ∧ payer options = zeroKey ∧ ∀ m, m ∈ Accounts first → IsSigner m = false
  | Panic => False
  end.
Proof.
  unfold chooseFeePayer, IsZero. case_bool_decide as Hz; [|by left].
  pose proof (firstSigner_spec (Accounts first)). destruct (firstSigner (Accounts first)); naive_solver.
Qed.

Lemma loaded_roles instructions p entries w ts l :
  l ∈ selAll (loadedAccounts instructions p entries) w ts →
  anyWritable (collected instructions) (l_key l) = w ∧
  anySigner (collected instructions) (l_key l) = false.
Proof.
  intros (t & _ & [[_ Hw] Hl]%list_elem_of_filter)%elem_of_concat_fmap.
  apply list_elem_of_omap in Hl as (m & Hm & Hl).
  pose proof (loadedOf_entry _ _ _ _ Hl) as (_ & Hs & _ & ->).
  assert (l_writable l = IsWritable m) as Hlw.
  { unfold loadedOf in Hl. destruct (loadableEntry _ _ _ _); [|done]. by injection Hl as <-. }
  apply elem_of_otherMetas in Hm as (_ & _ & Heq). rewrite Heq in Hs, Hlw. simpl in *. by rewrite <- Hw, Hlw.
Qed.

(** * Theorems *)

(** The number of distinct keys a transaction touches. *)
Definition distinctKeys (instructions : list Instruction) (p : PublicKey) : list PublicKey :=
  nub (p :: keysOf (collected instructions)).

Lemma len_keyOrder instructions p entries :
  len (keyOrder instructions p entries) = len (distinctKeys instructions p).
Proof.
  unfold len, distinctKeys. f_equal. apply Permutation_length. apply NoDup_Permutation.
  - apply NoDup_keyOrder.
  - apply NoDup_nub.
  - intros k. rewrite elem_of_keyOrder, elem_of_nub. set_solver.
Qed.

(** Keys of two instructions, one of them reachable only through a table. *)
Definition sampleInstructions : list Instruction :=
  [ NewInstruction (sampleKey 9)
      [ mkAccountMeta (sampleKey 5) true true; mkAccountMeta (sampleKey 3) true false;
        mkAccountMeta (sampleKey 4) false false ] [1; 2];
    NewInstruction (sampleKey 8)
      [ mkAccountMeta (sampleKey 4) false false; mkAccountMeta (sampleKey 6) false true;
        mkAccountMeta (sampleKey 3) false false ] [] ].
Definition sampleTables : gmap PublicKey (list PublicKey) :=
  {[ sampleKey 20 := [sampleKey 7; sampleKey 4]; sampleKey 10 := [sampleKey 3; sampleKey 9] ]}.
Definition sampleOpts : list TransactionOption := [TransactionAddressTables (Some sampleTables)].

(** C1. Compilation preserves every reference: the message's static keys,
    followed by the keys its lookups name in the tables (writable ones first),
    are duplicate-free, and each compiled instruction's program index, account
    indexes and data resolve in that list to the program, accounts and data of
    the instruction it came from. *)
Theorem builder_resolves instructions h opts tx :
  let p := feePayerOf instructions opts in
  NewTransaction instructions h opts = Ok tx →
  len (distinctKeys instructions p) ≤ 65536 →
  ∃ keys, resolvedKeys (tablesOf (optionsOf opts)) (TxMessage tx) = Some keys ∧
    NoDup keys ∧ keys ≡ₚ distinctKeys instructions p ∧
    Forall2 (resolves keys) instructions (Instructions (TxMessage tx)).
Proof.
  intros p Hrun Hlen. apply NewTransaction_inv in Hrun as (entries & compiled & He & Hc & ->). fold p in Hc.
  exists (keyOrder instructions p entries). split_and!.
  - by apply compiled_resolvedKeys.
  - apply NoDup_keyOrder.
  - apply NoDup_Permutation; [apply NoDup_keyOrder|apply NoDup_nub|].
    intros k. unfold distinctKeys. rewrite elem_of_keyOrder, elem_of_nub. set_solver.
  - simpl. apply (compiled_resolves _ p entries); [by rewrite len_keyOrder|done].
Qed.

Lemma builder_resolves_witness :
  ∃ tx keys, NewTransaction sampleInstructions (sampleKey 1) sampleOpts = Ok tx ∧
    AddressTableLookups (TxMessage tx) ≠ [] ∧
    resolvedKeys (tablesOf (optionsOf sampleOpts)) (TxMessage tx) = Some keys ∧
    Forall2 (resolves keys) sampleInstructions (Instructions (TxMessage tx)).
Proof.
  eexists. edestruct (builder_resolves sampleInstructions (sampleKey 1) sampleOpts) as (keys & Hk & _ & _ & Hf);
    [vm_compute; reflexivity|vm_compute; congruence|].
  exists keys. split_and!; [vm_compute; reflexivity|vm_compute; congruence|exact Hk|exact Hf].
Defined.

(** What [NewTransaction] needs to succeed. *)
Definition compilable (instructions : list Instruction) (opts : list TransactionOption) : Prop :=
  (∃ first, head instructions = Some first ∧
     (payer (optionsOf opts) ≠ zeroKey ∨ ∃ m, m ∈ Accounts first ∧ IsSigner m = true)) ∧
  (∀ t table, tablesOf (optionsOf opts) !! t = Some table → len table ≤ 256) ∧
  Forall (λ ins, ∃ data, Data ins = Ok data) instructions.

(** C21. [NewTransaction] never panics, and it succeeds exactly when there is an
    instruction, a fee payer can be determined (the option, or a signer of the
    first instruction), no lookup table has more than 256 entries and every
    instruction's data encodes. *)
Theorem builder_total instructions h opts :
  Forall (λ ins, Data ins ≠ Panic) instructions →
  NewTransaction instructions h opts ≠ Panic ∧
  ((∃ tx, NewTransaction instructions h opts = Ok tx) ↔ compilable instructions opts).
Proof.
  intros Hnp. unfold compilable. destruct instructions as [|first rest].
  { split; [done|]. split; [by intros [tx ?]|]. by intros [(? & ? & _) _]. }
  pose proof (chooseFeePayer_spec (optionsOf opts) first) as Hp.
  destruct (chooseFeePayer (optionsOf opts) first) as [p|e|] eqn:Ep; [| |done].
  2: { unfold NewTransaction. fold (optionsOf opts). rewrite Ep. simpl. split; [done|].
       split; [by intros [? ?]|]. destruct Hp as (_ & Hz & Hn). intros [(? & [= <-] & [?|(m & Hm & Hs)]) _]; [done|].
       rewrite Hn in Hs by done. done. }
  pose proof (lookupEntriesOf_spec (optionsOf opts)) as He.
  destruct (lookupEntriesOf (optionsOf opts)) as [entries|e|] eqn:Ee; [| |done].
  2: { unfold NewTransaction. fold (optionsOf opts). rewrite Ep. simpl. rewrite Ee. simpl. split; [done|].
       split; [by intros [? ?]|]. destruct He as (t & table & _ & Ht & Hlt). intros (_ & Hle & _).
       specialize (Hle t table Ht). lia. }
  rewrite (NewTransaction_eq _ _ _ _ p entries) by done.
  pose proof (compileInstructions_spec (finalIndex (first :: rest) p entries) 0 (first :: rest)) as Hc.
  destruct (compileInstructions _ 0 (first :: rest)) as [cs|e|].
  - split; [done|]. split; [|by eauto]. intros _. split_and!; [by eauto|apply He|].
    clear -Hc. induction Hc as [|? ? ? ? (_ & _ & ?)]; constructor; eauto.
  - simpl. split; [done|]. split; [by intros [? ?]|]. intros (_ & _ & Hd).
    destruct Hc as (j & ins & Hj & Hbad & _). rewrite Forall_lookup in Hd.
    destruct (Hd j ins Hj) as [? ?]. congruence.
  - exfalso. destruct Hc as (ins & Hin & Hd). rewrite Forall_forall in Hnp. by eapply Hnp.
Qed.

Lemma builder_total_witness :
  ∃ tx, NewTransaction sampleInstructions (sampleKey 1) sampleOpts = Ok tx ∧
        compilable sampleInstructions sampleOpts.
Proof.
  eexists. split; [vm_compute; reflexivity|].
  apply (builder_total sampleInstructions (sampleKey 1) sampleOpts);
    [repeat constructor; discriminate|]. eexists. vm_compute. reflexivity.
Defined.

(** The static keys start with the fee payer, hold no key twice, and hold
    every signer and every invoked program: only other accounts are ever moved
    into lookup tables. *)
Lemma builder_static_keys instructions h opts tx :
  NewTransaction instructions h opts = Ok tx →
  let keys := AccountKeys (TxMessage tx) in
  head keys = Some (feePayerOf instructions opts) ∧ NoDup keys ∧
  (∀ ins, ins ∈ instructions → ProgramID ins ∈ keys) ∧
  (∀ ins m, ins ∈ instructions → m ∈ Accounts ins → IsSigner m = true → PublicKeyOf m ∈ keys).
Proof.
  intros Hrun. apply NewTransaction_inv in Hrun as (entries & compiled & He & Hc & ->). simpl.
  split_and!; [done| | |].
  - apply NoDup_staticKeys.
  - intros ins Hins. apply elem_of_static. right. split; [apply elem_of_collected; eauto|]. right. set_solver.
  - intros ins m Hins Hm Hs. apply elem_of_static. right. split; [apply elem_of_collected; eauto 6|]. left.
    apply anySigner_true. exists m. split_and!; [|done|done]. unfold collected.
    apply elem_of_app. left. apply elem_of_concat_fmap. eauto.
Qed.

(** C22. The header gives every static key the strongest roles its metas ask
    for: when no key is asked for as a readonly signer in one place and as a
    writable non-signer in another, and at most 255 keys are static, a key
    signs (is writable) in the message exactly when it is the payer or some
    instruction asks for it as a signer (as writable). *)
Theorem builder_roles instructions h opts tx :
  let p := feePayerOf instructions opts in
  let mx := TxMessage tx in
  NewTransaction instructions h opts = Ok tx →
  noConflict (collected instructions) p → len (AccountKeys mx) ≤ 255 →
  ∀ k, k ∈ AccountKeys mx →
    IsSignerOf mx k = bool_decide (k = p) || anySigner (collected instructions) k ∧
    IsWritableStatic mx k = bool_decide (k = p) || anyWritable (collected instructions) k.
Proof.
  intros p mx Hrun Hnc Hlen k Hk. subst mx p.
  apply NewTransaction_inv in Hrun as (entries & compiled & He & Hc & ->). simpl in *.
  set (p := feePayerOf instructions opts) in *.
  set (mx := compiledMessage instructions p entries h compiled) in *.
  change (k ∈ keysOf (staticMetas instructions p entries)) in Hk.
  apply list_elem_of_fmap in Hk as (m & -> & Hm).
  edestruct (header_roles_of mx (staticMetas instructions p entries) m) as [-> ->];
    [done|apply NoDup_staticKeys|done|by apply staticMetas_sorted| |done|].
  { change (len (keysOf (staticMetas instructions p entries)) ≤ 255) in Hlen.
    unfold keysOf in Hlen. by rewrite len_fmap in Hlen. }
  apply elem_of_cons in Hm as [->|[_ Hm]%list_elem_of_filter].
  - simpl. by rewrite bool_decide_eq_true_2.
  - apply elem_of_otherMetas in Hm as (Hne & _ & Heq). rewrite bool_decide_eq_false_2 by done.
    rewrite Heq. done.
Qed.

Lemma builder_roles_witness :
  ∃ tx, NewTransaction sampleInstructions (sampleKey 1) sampleOpts = Ok tx ∧
        IsSignerOf (TxMessage tx) (sampleKey 6) = true ∧
        IsWritableStatic (TxMessage tx) (sampleKey 6) = false.
Proof.
  eexists. split; [vm_compute; reflexivity|].
  apply (builder_roles sampleInstructions (sampleKey 1) sampleOpts);
    [vm_compute; reflexivity|decide_by_compute|vm_compute; congruence|decide_by_compute].
Defined.

(** Accounts behind lookup tables keep their writability: a key loaded
    through a writable index is one some instruction writes, a key loaded
    through a readonly index is one no instruction writes, and none of them
    signs. *)
Lemma builder_loaded_roles instructions h opts tx ws rs :
  let tables := tablesOf (optionsOf opts) in
  let lookups := AddressTableLookups (TxMessage tx) in
  NewTransaction instructions h opts = Ok tx →
  resolveRound tables WritableIndexes lookups = Some ws →
  resolveRound tables ReadonlyIndexes lookups = Some rs →
  Forall (λ k, anyWritable (collected instructions) k = true ∧ anySigner (collected instructions) k = false) ws ∧
  Forall (λ k, anyWritable (collected instructions) k = false ∧ anySigner (collected instructions) k = false) rs.
Proof.
  intros tables lookups Hrun Hws Hrs. subst tables lookups.
  apply NewTransaction_inv in Hrun as (entries & compiled & He & Hc & ->). simpl in *.
  set (p := feePayerOf instructions opts) in *.
  pose proof (loaded_located instructions p _ entries He) as Hall.
  rewrite (resolveRound_ok _ _ true WritableIndexes _ Hall) in Hws by reflexivity.
  rewrite (resolveRound_ok _ _ false ReadonlyIndexes _ Hall) in Hrs by reflexivity.
  injection Hws as <-. injection Hrs as <-.
  split; apply Forall_fmap, Forall_forall; intros l Hl; by apply loaded_roles in Hl.
Qed.

(** The table index points at the address: an indexed address is stored at
    the recorded position of the recorded table, that table is the smallest key
    among the tables holding it, and an address left out is in no table. *)
Lemma lookup_entries_correct options entries a :
  lookupEntriesOf options = Ok entries →
  match entries !! a with
  | Some e =>
    tablesOf options !! e_table e ≫= (λ table, table !! Z.to_nat (e_index e)) = Some a ∧
    0 ≤ e_index e < 256 ∧
    ∀ t table, tablesOf options !! t = Some table → a ∈ table → bytes_le (e_table e) t
  | None => ∀ t table, tablesOf options !! t = Some table → a ∉ table
  end.
Proof.
  intros He. pose proof (lookupEntriesOf_spec options) as Hs. rewrite He in Hs. destruct Hs as [H256 Hs].
  rewrite Hs. set (ts := sortKeys ((map_to_list (tablesOf options)).*1)).
  pose proof (locate_first (tablesOf options) ts a (StronglySorted_merge_sort _ _)) as Hfirst.
  assert (∀ t table, tablesOf options !! t = Some table → t ∈ ts ∧ tableAt (tablesOf options) t = table) as Hts.
  { intros t table Ht. split; [apply elem_of_tableKeys; eauto|]. unfold tableAt. by rewrite Ht. }
  destruct (locate (tablesOf options) ts a) as [e|] eqn:Hl.
  - apply locate_sound in Hl as ([table Ht]%elem_of_tableKeys & Hr & Hidx).
    unfold tableAt in Hr, Hidx. rewrite Ht in *. simpl in *. specialize (H256 _ _ Ht).
    split_and!; [done|lia|lia|]. intros t table' Ht' Ha. destruct (Hts _ _ Ht') as [? <-]. auto.
  - intros t table Ht. destruct (Hts _ _ Ht) as [? <-]. auto.
Qed.

(** The in-place deduplication, which writes into the array it is still
    reading, computes what a fresh list would: each key once, in the order of
    its first occurrence in the sorted metas, a signer (writable) when any of
    its metas is; the index map locates exactly these keys. *)
Lemma dedup_in_place metas :
  ∃ st, dedupLoop (length (sortMetas metas)) 0 (mkDedup (sortMetas metas) 0 ∅) = Ok st ∧
    take (d_len st) (d_arr st) = merged metas <$> nub (keysOf (sortMetas metas)) ∧
    ∀ k i, d_index st !! k = Some i ↔ nub (keysOf (sortMetas metas)) !! i = Some k.
Proof.
  destruct (dedupLoop_ok (sortMetas metas) (sortMetas_sorted metas)) as (st & Hrun & Htake & Hidx).
  exists st. split_and!; [done| |done]. rewrite Htake. apply list_fmap_ext. intros.
  apply merged_perm, sortMetas_perm.
Qed.

(** Key 7 signs readonly in the first instruction and is written by the
    second; key 6 signs readonly. *)
Definition conflictInstructions : list Instruction :=
  [ NewInstruction (sampleKey 9)
      [ mkAccountMeta (sampleKey 5) true true; mkAccountMeta (sampleKey 6) false true;
        mkAccountMeta (sampleKey 7) false true ] [];
    NewInstruction (sampleKey 8) [ mkAccountMeta (sampleKey 7) true false ] [] ].

(** The exclusion of conflicts in the roles theorem is needed: a key that
    one instruction needs as a readonly signer and another as writable keeps the
    sort position of its readonly-signer meta, so the header makes it readonly
    although an instruction writes it, and makes writable a key that every
    instruction asks for as readonly. *)
Lemma builder_role_conflict :
  ∃ tx, NewTransaction conflictInstructions (sampleKey 1) [] = Ok tx ∧
    anyWritable (collected conflictInstructions) (sampleKey 7) = true ∧
    IsWritableStatic (TxMessage tx) (sampleKey 7) = false ∧
    anyWritable (collected conflictInstructions) (sampleKey 6) = false ∧
    IsWritableStatic (TxMessage tx) (sampleKey 6) = true.
Proof. eexists. split_and!; vm_compute; reflexivity. Qed.
