(* ===== verification/TransactionV1.v ===== *)
(** TransactionV1: the SIMD-0385 v1 transaction (transaction_v1.go): its config
    mask and values, the sanitization rules, the wire format with trailing
    signatures, signing, and compilation from instructions. *)
From Stdlib Require Import ZArith Lia.
From stdpp Require Import base numbers gmap sets list.
From S2P Require Import Prelude Keys Message PrivateKey Transaction Builder.

Open Scope Z_scope.

Definition TransactionV1VersionByte : Z := 129.
Definition TransactionV1MaxSize : Z := 4096.
Definition transactionV1MaxSignatures : Z := 12.
Definition transactionV1MaxAddresses : Z := 64.
Definition transactionV1MaxInstructions : Z := 64.
Definition transactionV1HeapSizeMin : Z := 32 * 1024.
Definition transactionV1HeapSizeMax : Z := 256 * 1024.
Definition transactionV1HeapSizeUnit : Z := 1024.

Definition configBitPriorityFeeLo : Z := 1.
Definition configBitPriorityFeeHi : Z := 2.
Definition configBitComputeUnits : Z := 4.
Definition configBitLoadedDataSz : Z := 8.
Definition configBitHeapSize : Z := 16.
Definition configKnownBits : Z :=
  Z.lor (Z.lor (Z.lor (Z.lor configBitPriorityFeeLo configBitPriorityFeeHi) configBitComputeUnits)
    configBitLoadedDataSz) configBitHeapSize.

(** The pointer fields: nil is [None]. *)
Record TransactionConfig := mkConfig {
  PriorityFeeLamports : option Z;
  ComputeUnitLimit : option Z;
  LoadedAccountsDataSizeLimit : option Z;
  HeapSize : option Z;
}.

Definition zeroConfig : TransactionConfig := mkConfig None None None None.

Record TransactionV1 := mkTransactionV1 {
  V1Header : MessageHeader;
  Config : TransactionConfig;
  LifetimeSpecifier : Hash;
  V1AccountKeys : list PublicKey;
  V1Instructions : list CompiledInstruction;
  V1Signatures : list Signature;
}.

Definition zeroTransactionV1 : TransactionV1 := mkTransactionV1 zeroHeader zeroConfig zeroKey [] [] [].

Definition set_V1Header v tx := mkTransactionV1 v (Config tx) (LifetimeSpecifier tx)
  (V1AccountKeys tx) (V1Instructions tx) (V1Signatures tx).
Definition set_Config v tx := mkTransactionV1 (V1Header tx) v (LifetimeSpecifier tx)
  (V1AccountKeys tx) (V1Instructions tx) (V1Signatures tx).
Definition set_LifetimeSpecifier v tx := mkTransactionV1 (V1Header tx) (Config tx) v
  (V1AccountKeys tx) (V1Instructions tx) (V1Signatures tx).
Definition set_V1AccountKeys v tx := mkTransactionV1 (V1Header tx) (Config tx) (LifetimeSpecifier tx)
  v (V1Instructions tx) (V1Signatures tx).
Definition set_V1Instructions v tx := mkTransactionV1 (V1Header tx) (Config tx) (LifetimeSpecifier tx)
  (V1AccountKeys tx) v (V1Signatures tx).
Definition set_V1Signatures v tx := mkTransactionV1 (V1Header tx) (Config tx) (LifetimeSpecifier tx)
  (V1AccountKeys tx) (V1Instructions tx) v.

Inductive v1_err :=
  | errHeapSize (h : Z)
  | errNoSignatures
  | errTooManySignatures (n : Z)
  | errReadonlyPayer
  | errTooManyAddresses (n : Z)
  | errFewerAddresses
  | errDuplicateAddress (key : PublicKey)
  | errTooManyInstructions (n : Z)
  | errProgramIndex (i : nat) (index : Z)
  | errAccountsCount (i : nat) (n : Z)
  | errAccountIndex (i : nat) (index : Z)
  | errDataLength (i : nat) (n : Z)
  | errSignatureCount (n required : Z)
  | errV1Size (size : Z)
  | errTruncatedHeader
  | errVersionByte (b : Z)
  | errUnknownMaskBits (unknown : Z)
  | errPriorityFeeBits
  | errTruncatedAddresses
  | errTruncatedConfig
  | errTruncatedInstructionHeaders
  | errTruncatedPayload (i : nat)
  | errTruncatedSignatures
  | errTrailingData
  | errV1SignWith (key : PublicKey) (e : key_err)
  | errV1KeyNotFound (key : PublicKey)
  | errV1InvalidSignature (key : PublicKey)
  | errV1AddressTables
  | errV1Compile (e : builder_err).

(** * Config *)

Definition orIf {A} (field : option A) (bitsOf m : Z) : Z :=
  match field with Some _ => Z.lor m bitsOf | None => m end.

Definition mask (c : TransactionConfig) : Z :=
  orIf (HeapSize c) configBitHeapSize
    (orIf (LoadedAccountsDataSizeLimit c) configBitLoadedDataSz
      (orIf (ComputeUnitLimit c) configBitComputeUnits
        (orIf (PriorityFeeLamports c) (Z.lor configBitPriorityFeeLo configBitPriorityFeeHi) 0))).

Definition validate (c : TransactionConfig) : outcome v1_err unit :=
  match HeapSize c with
  | Some h =>
    if decide (h < transactionV1HeapSizeMin ∨ transactionV1HeapSizeMax < h ∨
               h mod transactionV1HeapSizeUnit ≠ 0)
    then Err (errHeapSize h) else Ok tt
  | None => Ok tt
  end.

Definition appendIf (n : nat) (field : option Z) (buf : bytes) : bytes :=
  match field with Some v => buf ++ le_bytes n v | None => buf end.

Definition appendValues (c : TransactionConfig) (buf : bytes) : bytes :=
  let buf := appendIf 8 (PriorityFeeLamports c) buf in
  let buf := appendIf 4 (ComputeUnitLimit c) buf in
  let buf := appendIf 4 (LoadedAccountsDataSizeLimit c) buf in
  appendIf 4 (HeapSize c) buf.

(** [bits.OnesCount32]. *)
Definition OnesCount32 (m : Z) : Z :=
  sumZ ((λ i, if Z.testbit m (Z.of_nat i) then 1 else 0) <$> seq 0 32).

(** * Sanitization *)

(** The loop over the keys with its [seen] set. *)
Fixpoint findDuplicate (keys : list PublicKey) (seen : gset PublicKey) : outcome v1_err unit :=
  match keys with
  | [] => Ok tt
  | key :: keys' =>
    if decide (key ∈ seen) then Err (errDuplicateAddress key)
    else findDuplicate keys' ({[key]} ∪ seen)
  end.

Fixpoint checkIndexes (i : nat) (numAddresses : Z) (indexes : list Z) : outcome v1_err unit :=
  match indexes with
  | [] => Ok tt
  | index :: indexes' =>
    if decide (numAddresses ≤ index) then Err (errAccountIndex i index)
    else checkIndexes i numAddresses indexes'
  end.

Fixpoint checkInstructions (i : nat) (numAddresses : Z) (ixs : list CompiledInstruction)
    : outcome v1_err unit :=
  match ixs with
  | [] => Ok tt
  | ix :: ixs' =>
    if decide (numAddresses ≤ ProgramIDIndex ix) then Err (errProgramIndex i (ProgramIDIndex ix)) else
    if decide (255 < len (AccountIndexes ix)) then Err (errAccountsCount i (len (AccountIndexes ix))) else
    _ ← checkIndexes i numAddresses (AccountIndexes ix);
    if decide (65535 < len (InsData ix)) then Err (errDataLength i (len (InsData ix))) else
    checkInstructions (S i) numAddresses ixs'
  end.

Definition sanitize (tx : TransactionV1) : outcome v1_err unit :=
  let h := V1Header tx in
  if decide (NumRequiredSignatures h < 1) then Err errNoSignatures else
  if decide (transactionV1MaxSignatures < NumRequiredSignatures h)
  then Err (errTooManySignatures (NumRequiredSignatures h)) else
  if decide (NumRequiredSignatures h ≤ NumReadonlySignedAccounts h) then Err errReadonlyPayer else
  let numAddresses := len (V1AccountKeys tx) in
  if decide (transactionV1MaxAddresses < numAddresses) then Err (errTooManyAddresses numAddresses) else
  if decide (numAddresses < NumRequiredSignatures h + NumReadonlyUnsignedAccounts h)
  then Err errFewerAddresses else
  _ ← findDuplicate (V1AccountKeys tx) ∅;
  if decide (transactionV1MaxInstructions < len (V1Instructions tx))
  then Err (errTooManyInstructions (len (V1Instructions tx))) else
  _ ← checkInstructions 0 numAddresses (V1Instructions tx);
  validate (Config tx).

(** * Encoding *)

Definition signedSize (tx : TransactionV1) : Z :=
  let size := 1 + 3 + 4 + 32 + 1 + 1 in
  let size := size + 32 * len (V1AccountKeys tx) in
  let size := size + 4 * OnesCount32 (mask (Config tx)) in
  let size := size + 4 * len (V1Instructions tx) in
  foldl (λ size ix, size + (len (AccountIndexes ix) + len (InsData ix))) size (V1Instructions tx).

Definition appendIxHeader (buf : bytes) (ix : CompiledInstruction) : bytes :=
  let buf := buf ++ [u8 (ProgramIDIndex ix); u8 (len (AccountIndexes ix))] in
  buf ++ le_bytes 2 (u16 (len (InsData ix))).

Definition appendIxPayload (buf : bytes) (ix : CompiledInstruction) : bytes :=
  let buf := foldl (λ buf index, buf ++ [u8 index]) buf (AccountIndexes ix) in
  buf ++ InsData ix.

Definition appendSigned (tx : TransactionV1) (buf : bytes) : bytes :=
  let buf := buf ++ [TransactionV1VersionByte; NumRequiredSignatures (V1Header tx);
                     NumReadonlySignedAccounts (V1Header tx); NumReadonlyUnsignedAccounts (V1Header tx)] in
  let buf := buf ++ le_bytes 4 (mask (Config tx)) in
  let buf := buf ++ LifetimeSpecifier tx in
  let buf := buf ++ [u8 (len (V1Instructions tx)); u8 (len (V1AccountKeys tx))] in
  let buf := foldl (λ buf key, buf ++ key) buf (V1AccountKeys tx) in
  let buf := appendValues (Config tx) buf in
  let buf := foldl appendIxHeader buf (V1Instructions tx) in
  foldl appendIxPayload buf (V1Instructions tx).

Definition MarshalBinary (tx : TransactionV1) : outcome v1_err bytes :=
  _ ← sanitize tx;
  if decide (len (V1Signatures tx) ≠ NumRequiredSignatures (V1Header tx))
  then Err (errSignatureCount (len (V1Signatures tx)) (NumRequiredSignatures (V1Header tx))) else
  let size := signedSize tx + 64 * len (V1Signatures tx) in
  if decide (TransactionV1MaxSize < size) then Err (errV1Size size) else
  let buf := appendSigned tx [] in
  Ok (foldl (λ buf sig, buf ++ sig) buf (V1Signatures tx)).

(** * Decoding *)

(** [for i := range xs { xs[i] = T(data[size*i : size*i+size]) }] over [n] fresh
    [[size]byte] arrays. *)
Definition readChunks {E} (size n : Z) (data : bytes) : outcome E (list bytes) :=
  mapM (λ i : nat, slice data (size * Z.of_nat i) (size * Z.of_nat i + size)) (seq 0 (Z.to_nat n)).

(** One optional config value, and the values behind it. *)
Definition readValue (present : bool) (n : nat) (values : bytes) : outcome v1_err (option Z * bytes) :=
  if present then
    v ← readUint n values;
    values ← slice_from values (Z.of_nat n);
    Ok (Some v, values)
  else Ok (None, values).

Definition hasBits (m bitsOf : Z) : bool := bool_decide (Z.land m bitsOf ≠ 0).

(** The last value is read without advancing. *)
Definition readConfig (m : Z) (values : bytes) : outcome v1_err TransactionConfig :=
  '(fee, values) ← readValue (hasBits m configBitPriorityFeeLo) 8 values;
  '(units, values) ← readValue (hasBits m configBitComputeUnits) 4 values;
  '(loaded, values) ← readValue (hasBits m configBitLoadedDataSz) 4 values;
  heap ← (if hasBits m configBitHeapSize then v ← readUint 4 values; Ok (Some v) else Ok None);
  Ok (mkConfig fee units loaded heap).

(** Instruction [i] from its 4-byte header [h] and the payloads [rest]. *)
Definition readIx (i : nat) (h rest : bytes) : outcome v1_err (CompiledInstruction * bytes) :=
  program ← idx h 0;
  numAccounts ← idx h 1;
  h2 ← slice h 2 4;
  dataLen ← readUint 2 h2;
  if decide (len rest < numAccounts + dataLen) then Err (errTruncatedPayload i) else
  accounts ← readIndexes numAccounts rest;
  data ← slice rest numAccounts (numAccounts + dataLen);
  rest ← slice_from rest (numAccounts + dataLen);
  Ok (mkCompiledInstruction (u16 program) accounts data, rest).

(** The loop over the [k] remaining instructions, from instruction [i]. *)
Fixpoint readIxs (k i : nat) (headers rest : bytes) : GoM TransactionV1 v1_err bytes :=
  match k with
  | O => mret rest
  | S k' =>
    h ← lift (slice headers (4 * Z.of_nat i) (4 * Z.of_nat i + 4));
    '(ix, rest) ← lift (readIx i h rest);
    _ ← modify (λ tx, set_V1Instructions (<[i := ix]> (V1Instructions tx)) tx);
    readIxs k' (S i) headers rest
  end.

Definition UnmarshalBinary (data : bytes) : GoM TransactionV1 v1_err unit :=
  if decide (TransactionV1MaxSize < len data) then throw (errV1Size (len data)) else
  if decide (len data < 42) then throw errTruncatedHeader else
  b0 ← lift (idx data 0);
  if decide (b0 ≠ TransactionV1VersionByte) then throw (errVersionByte b0) else
  b1 ← lift (idx data 1);
  b2 ← lift (idx data 2);
  b3 ← lift (idx data 3);
  _ ← modify (set_V1Header (mkMessageHeader b1 b2 b3));
  m4 ← lift (slice data 4 8);
  m ← lift (readUint 4 m4);
  lifetime ← lift (slice data 8 40);
  _ ← modify (set_LifetimeSpecifier lifetime);
  numInstructions ← lift (idx data 40);
  numAddresses ← lift (idx data 41);
  rest ← lift (slice_from data 42);
  let unknown := Z.ldiff m configKnownBits in
  if decide (unknown ≠ 0) then throw (errUnknownMaskBits unknown) else
  if decide (hasBits m configBitPriorityFeeLo ≠ hasBits m configBitPriorityFeeHi)
  then throw errPriorityFeeBits else
  if decide (len rest < 32 * numAddresses) then throw errTruncatedAddresses else
  keys ← lift (readChunks 32 numAddresses rest);
  _ ← modify (set_V1AccountKeys keys);
  rest ← lift (slice_from rest (32 * numAddresses));
  let configLen := 4 * OnesCount32 m in
  if decide (len rest < configLen) then throw errTruncatedConfig else
  _ ← modify (set_Config zeroConfig);
  values ← lift (slice_to rest configLen);
  config ← lift (readConfig m values);
  _ ← modify (set_Config config);
  rest ← lift (slice_from rest configLen);
  if decide (len rest < 4 * numInstructions) then throw errTruncatedInstructionHeaders else
  headers ← lift (slice_to rest (4 * numInstructions));
  rest ← lift (slice_from rest (4 * numInstructions));
  _ ← modify (set_V1Instructions (replicate (Z.to_nat numInstructions) zeroInstruction));
  rest ← readIxs (Z.to_nat numInstructions) 0 headers rest;
  tx ← get;
  let numSignatures := NumRequiredSignatures (V1Header tx) in
  if decide (len rest < 64 * numSignatures) then throw errTruncatedSignatures else
  sigs ← lift (readChunks 64 numSignatures rest);
  _ ← modify (set_V1Signatures sigs);
  if decide (len rest ≠ 64 * numSignatures) then throw errTrailingData else
  tx ← get;
  lift (sanitize tx).

Definition TransactionV1FromBytes (data : bytes) : outcome v1_err TransactionV1 :=
  match UnmarshalBinary data zeroTransactionV1 with
  | (Ok _, tx) => Ok tx
  | (Err e, _) => Err e
  | (Panic, _) => Panic
  end.

(** * Signing *)

Section signing.
Context `{ed : Ed25519}.

(** The loop of [PartialSign] from index [i] on. *)
Fixpoint signLoopV1 (getter : privateKeyGetter) (payload : bytes) (i : nat)
    (keys : list PublicKey) : GoM TransactionV1 v1_err unit :=
  match keys with
  | [] => mret tt
  | key :: keys' =>
    match getter key with
    | None => signLoopV1 getter payload (S i) keys'
    | Some privateKey =>
      sig ← lift (wrap_err (errV1SignWith key) (Sign privateKey payload));
      _ ← modify (λ tx, set_V1Signatures (<[i := sig]> (V1Signatures tx)) tx);
      signLoopV1 getter payload (S i) keys'
    end
  end.

(** [AccountKeys[i]] for the first [numSigners] keys, which [sanitize] has
    checked to exist. *)
Definition PartialSignV1 (getter : privateKeyGetter) : GoM TransactionV1 v1_err (list Signature) :=
  tx ← get;
  _ ← lift (sanitize tx);
  let numSigners := NumRequiredSignatures (V1Header tx) in
  let payload := appendSigned tx [] in
  if decide (TransactionV1MaxSize < len payload + 64 * numSigners)
  then throw (errV1Size (len payload + 64 * numSigners)) else
  _ ← (if decide (len (V1Signatures tx) = 0)
       then modify (set_V1Signatures (replicate (Z.to_nat numSigners) zeroSignature))
       else if decide (len (V1Signatures tx) ≠ numSigners)
       then throw (errSignatureCount (len (V1Signatures tx)) numSigners)
       else mret tt);
  signers ← lift (slice_to (V1AccountKeys tx) numSigners);
  _ ← signLoopV1 getter payload 0 signers;
  tx ← get;
  mret (V1Signatures tx).

(** The check that no slot is left zero; [keys] are the remaining account keys. *)
Fixpoint checkNonzero (sigs : list Signature) (keys : list PublicKey) : outcome v1_err unit :=
  match sigs with
  | [] => Ok tt
  | sig :: sigs' =>
    if decide (sig = zeroSignature) then key ← idx keys 0; Err (errV1KeyNotFound key)
    else checkNonzero sigs' (drop 1 keys)
  end.

Definition SignV1 (getter : privateKeyGetter) : GoM TransactionV1 v1_err (list Signature) :=
  sigs ← PartialSignV1 getter;
  tx ← get;
  _ ← lift (checkNonzero sigs (V1AccountKeys tx));
  mret sigs.

Fixpoint verifyLoopV1 (keys : list PublicKey) (payload : bytes) (i : nat) (sigs : list Signature)
    : outcome v1_err unit :=
  match sigs with
  | [] => Ok tt
  | sig :: sigs' =>
    key ← idx keys (Z.of_nat i);
    if Verify sig key payload then verifyLoopV1 keys payload (S i) sigs'
    else Err (errV1InvalidSignature key)
  end.

Definition VerifySignaturesV1 (tx : TransactionV1) : outcome v1_err unit :=
  _ ← sanitize tx;
  if decide (len (V1Signatures tx) ≠ NumRequiredSignatures (V1Header tx))
  then Err (errSignatureCount (len (V1Signatures tx)) (NumRequiredSignatures (V1Header tx))) else
  verifyLoopV1 (V1AccountKeys tx) (appendSigned tx []) 0 (V1Signatures tx).

End signing.

(** * Compilation *)

Definition NewTransactionV1 (instructions : list Instruction) (lifetime : Hash)
    (config : TransactionConfig) (opts : list TransactionOption) : outcome v1_err TransactionV1 :=
  let probe := foldl (λ options opt, opt options) zeroOptions opts in
  match addressTables probe with
  | Some _ => Err errV1AddressTables
  | None =>
    compiled ← wrap_err errV1Compile (NewTransaction instructions lifetime opts);
    let mx := TxMessage compiled in
    let tx := mkTransactionV1 (Header mx) config lifetime (AccountKeys mx) (Instructions mx) [] in
    _ ← sanitize tx;
    let size := signedSize tx + 64 * NumRequiredSignatures (V1Header tx) in
    if decide (TransactionV1MaxSize < size) then Err (errV1Size size) else Ok tx
  end.

(** * Sanitization, declaratively *)

(** What Go's types guarantee of the fields. *)
Definition config_typed (c : TransactionConfig) : Prop :=
  from_option (is_uint 8) True (PriorityFeeLamports c) ∧
  from_option (is_uint 4) True (ComputeUnitLimit c) ∧
  from_option (is_uint 4) True (LoadedAccountsDataSizeLimit c) ∧
  from_option (is_uint 4) True (HeapSize c).
Definition v1_typed (tx : TransactionV1) : Prop :=
  header_typed (V1Header tx) ∧ config_typed (Config tx) ∧ key_ok (LifetimeSpecifier tx) ∧
  Forall key_ok (V1AccountKeys tx) ∧ Forall ins_typed (V1Instructions tx) ∧
  Forall sig_ok (V1Signatures tx).

#[global] Instance config_typed_dec c : Decision (config_typed c).
Proof. unfold config_typed. destruct c as [[] [] [] []]; simpl; apply _. Defined.
#[global] Instance v1_typed_dec tx : Decision (v1_typed tx).
Proof. unfold v1_typed. apply _. Defined.

Definition ix_sane (n : Z) (ix : CompiledInstruction) : Prop :=
  ProgramIDIndex ix < n ∧ len (AccountIndexes ix) ≤ 255 ∧
  Forall (λ j, j < n) (AccountIndexes ix) ∧ len (InsData ix) ≤ 65535.

Definition config_sane (c : TransactionConfig) : Prop :=
  from_option (λ h, 32768 ≤ h ≤ 262144 ∧ h mod 1024 = 0) True (HeapSize c).

Definition sane (tx : TransactionV1) : Prop :=
  let h := V1Header tx in
  1 ≤ NumRequiredSignatures h ≤ 12 ∧ NumReadonlySignedAccounts h < NumRequiredSignatures h ∧
  NumRequiredSignatures h + NumReadonlyUnsignedAccounts h ≤ len (V1AccountKeys tx) ≤ 64 ∧
  NoDup (V1AccountKeys tx) ∧ len (V1Instructions tx) ≤ 64 ∧
  Forall (ix_sane (len (V1AccountKeys tx))) (V1Instructions tx) ∧ config_sane (Config tx).

Lemma findDuplicate_ok keys seen :
  findDuplicate keys seen = Ok tt ↔ NoDup keys ∧ ∀ k, k ∈ keys → k ∉ seen.
Proof.
  revert seen. induction keys as [|key keys IH]; intros seen; simpl.
  - split; [|done]. intros _. split; [constructor|set_solver].
  - case_decide as Hin.
    + split; [done|]. intros [_ H]. exfalso. apply (H key); set_solver.
    + rewrite IH, NoDup_cons. set_solver.
Qed.

Lemma checkIndexes_ok i n indexes : checkIndexes i n indexes = Ok tt ↔ Forall (λ j, j < n) indexes.
Proof.
  induction indexes as [|index indexes IH]; simpl; [split; [constructor|done]|].
  rewrite Forall_cons. case_decide; [|rewrite IH; intuition lia]. split; [done|intuition lia].
Qed.

Lemma checkInstructions_ok i n ixs : checkInstructions i n ixs = Ok tt ↔ Forall (ix_sane n) ixs.
Proof.
  revert i. induction ixs as [|ix ixs IH]; intros i; simpl; [split; [constructor|done]|].
  rewrite Forall_cons. unfold ix_sane at 1. rewrite <- (checkIndexes_ok i).
  do 2 (case_decide; [split; [done|intuition lia]|]).
  destruct (checkIndexes i n (AccountIndexes ix)) as [[]| |]; simpl;
    [|split; [done|intros [(_ & _ & ? & _) _]; done]..].
  case_decide; [split; [done|intuition lia]|]. rewrite IH. intuition lia.
Qed.

Lemma validate_ok c : validate c = Ok tt ↔ config_sane c.
Proof.
  unfold validate, config_sane, transactionV1HeapSizeMin, transactionV1HeapSizeMax, transactionV1HeapSizeUnit.
  destruct (HeapSize c) as [h|]; simpl; [|done]. case_decide; [split; [done|lia]|]. split; [intros _; lia|done].
Qed.

Lemma sanitize_ok tx : sanitize tx = Ok tt ↔ sane tx.
Proof.
  unfold sanitize, sane, transactionV1MaxSignatures, transactionV1MaxAddresses, transactionV1MaxInstructions.
  do 5 (case_decide; [split; [done|intuition lia]|]).
  pose proof (findDuplicate_ok (V1AccountKeys tx) ∅) as Hd.
  destruct (findDuplicate (V1AccountKeys tx) ∅) as [[]|e|]; simpl;
    [|split; [done|intros (_ & _ & _ & Hnd & _); by assert (Err e = Ok tt) by (apply Hd; set_solver)]
     |split; [done|intros (_ & _ & _ & Hnd & _); by assert (Panic (E := v1_err) = Ok tt) by (apply Hd; set_solver)]].
  destruct Hd as [Hnd _]. specialize (Hnd eq_refl) as [Hnd _].
  case_decide; [split; [done|intuition lia]|].
  pose proof (checkInstructions_ok 0 (len (V1AccountKeys tx)) (V1Instructions tx)) as Hi.
  destruct (checkInstructions 0 _ _) as [[]|e|]; simpl; rewrite <- Hi;
    [|split; [done|naive_solver]..].
  rewrite validate_ok. intuition lia.
Qed.

Lemma sanitize_no_panic tx : sanitize tx ≠ Panic.
Proof.
  assert (∀ keys seen, findDuplicate keys seen ≠ Panic) as H1.
  { induction keys as [|k keys IH]; intros; simpl; [done|]. by case_decide. }
  assert (∀ i n l, checkIndexes i n l ≠ Panic) as H2.
  { induction l; simpl; [done|]. by case_decide. }
  assert (∀ n ixs i, checkInstructions i n ixs ≠ Panic) as H3.
  { induction ixs as [|ix ixs IH]; intros i; simpl; [done|]. repeat case_decide; try done.
    all: specialize (H2 i n (AccountIndexes ix)); destruct (checkIndexes i n _); simpl; done. }
  unfold sanitize. repeat case_decide; try done.
  all: specialize (H1 (V1AccountKeys tx) ∅); destruct (findDuplicate _ _); simpl; try done.
  specialize (H3 (len (V1AccountKeys tx)) (V1Instructions tx) 0%nat).
  destruct (checkInstructions _ _ _); simpl; try done.
  unfold validate. destruct (HeapSize _); [by case_decide|done].
Qed.

(** * The wire format *)

Definition ixHeader (ix : CompiledInstruction) : bytes := appendIxHeader [] ix.
Definition ixPayload (ix : CompiledInstruction) : bytes := appendIxPayload [] ix.

(** The fixed-size prefix: version, header, mask, lifetime and counts. *)
Definition fixedPart (tx : TransactionV1) : bytes :=
  [TransactionV1VersionByte; NumRequiredSignatures (V1Header tx);
   NumReadonlySignedAccounts (V1Header tx); NumReadonlyUnsignedAccounts (V1Header tx)] ++
  le_bytes 4 (mask (Config tx)) ++ LifetimeSpecifier tx ++
  [u8 (len (V1Instructions tx)); u8 (len (V1AccountKeys tx))].

Definition signedBytes (tx : TransactionV1) : bytes :=
  fixedPart tx ++ concat (V1AccountKeys tx) ++ appendValues (Config tx) [] ++
  concat (ixHeader <$> V1Instructions tx) ++ concat (ixPayload <$> V1Instructions tx).

Definition wire (tx : TransactionV1) : bytes := signedBytes tx ++ concat (V1Signatures tx).

Lemma appendValues_app c buf : appendValues c buf = buf ++ appendValues c [].
Proof.
  unfold appendValues, appendIf.
  destruct c as [[] [] [] []]; cbn [PriorityFeeLamports ComputeUnitLimit LoadedAccountsDataSizeLimit HeapSize];
    rewrite <- ?app_assoc, ?app_nil_r; done.
Qed.

Lemma ixPayload_eq ix : ixPayload ix = (u8 <$> AccountIndexes ix) ++ InsData ix.
Proof. unfold ixPayload, appendIxPayload. by rewrite foldl_append_u8. Qed.

Lemma appendSigned_eq tx buf : appendSigned tx buf = buf ++ signedBytes tx.
Proof.
  unfold appendSigned, signedBytes, fixedPart.
  rewrite (foldl_append appendIxPayload), (foldl_append appendIxHeader).
  - rewrite appendValues_app, foldl_append_app. by rewrite <- !app_assoc.
  - intros b ix. unfold appendIxHeader. by rewrite <- !app_assoc.
  - intros b ix. unfold appendIxPayload. by rewrite !foldl_append_u8, <- app_assoc.
Qed.

Lemma len_ixHeader ix : len (ixHeader ix) = 4.
Proof. unfold ixHeader, appendIxHeader. by rewrite !len_app, len_le_bytes. Qed.

Lemma len_ixHeaders ixs : len (concat (ixHeader <$> ixs)) = 4 * len ixs.
Proof.
  rewrite len_concat, (sumZ_const len _ 4); [by rewrite len_fmap|].
  apply Forall_fmap, Forall_true. intros. apply len_ixHeader.
Qed.

Lemma len_ixPayload ix : len (ixPayload ix) = len (AccountIndexes ix) + len (InsData ix).
Proof. by rewrite ixPayload_eq, len_app, len_fmap. Qed.

(** The value slots are as long as the mask's bits say. *)
Lemma len_appendValues c : len (appendValues c []) = 4 * OnesCount32 (mask c).
Proof. destruct c as [[] [] [] []]; reflexivity. Qed.

Lemma len_signedBytes tx :
  key_ok (LifetimeSpecifier tx) → Forall key_ok (V1AccountKeys tx) → len (signedBytes tx) = signedSize tx.
Proof.
  intros Hl Hk. unfold signedBytes, fixedPart, signedSize.
  rewrite foldl_sum, !len_app, len_appendValues, len_le_bytes, len_ixHeaders, (len_key (LifetimeSpecifier tx)) by done.
  rewrite !len_concat, (sumZ_const len (V1AccountKeys tx) 32) by (eapply Forall_impl; [exact Hk|apply len_key]).
  rewrite <- list_fmap_compose.
  replace (len ∘ ixPayload <$> V1Instructions tx) with
    ((λ ix, len (AccountIndexes ix) + len (InsData ix)) <$> V1Instructions tx).
  - rewrite !len_cons, !len_nil. lia.
  - apply list_fmap_ext. intros i ix _. simpl. by rewrite len_ixPayload.
Qed.

(** What the wire format can represent. *)
Definition ix_wire (ix : CompiledInstruction) : Prop :=
  is_byte (ProgramIDIndex ix) ∧ bytes_ok (AccountIndexes ix) ∧ len (AccountIndexes ix) ≤ 255 ∧
  bytes_ok (InsData ix) ∧ len (InsData ix) ≤ 65535.

Definition wire_ok (tx : TransactionV1) : Prop :=
  header_typed (V1Header tx) ∧ config_typed (Config tx) ∧ key_ok (LifetimeSpecifier tx) ∧
  Forall key_ok (V1AccountKeys tx) ∧ len (V1AccountKeys tx) ≤ 255 ∧
  Forall ix_wire (V1Instructions tx) ∧ len (V1Instructions tx) ≤ 255 ∧
  Forall sig_ok (V1Signatures tx) ∧ len (V1Signatures tx) = NumRequiredSignatures (V1Header tx) ∧
  len (wire tx) ≤ 4096.

Lemma sane_ix_wire n ix : n ≤ 64 → ins_typed ix → ix_sane n ix → ix_wire ix.
Proof.
  unfold ins_typed, ix_sane, ix_wire, is_u16, is_byte. intros Hn (Hp & Ha & Hd) (Hp' & Hl & Ha' & Hd').
  split_and!; try done; try lia. rewrite Forall_forall in *. intros x Hx.
  specialize (Ha x Hx). specialize (Ha' x Hx). unfold is_byte, is_u16 in *. lia.
Qed.

(** A transaction that [MarshalBinary] accepts is in the format's range, and its
    encoding is [wire]. *)
Lemma MarshalBinary_inv tx out :
  v1_typed tx → MarshalBinary tx = Ok out → sane tx ∧ wire_ok tx ∧ out = wire tx.
Proof.
  intros (Hh & Hc & Hl & Hk & Hi & Hs) Hm. unfold MarshalBinary in Hm.
  destruct (sanitize tx) as [[]| |] eqn:Esan; [|done..]. apply sanitize_ok in Esan. simpl in Hm.
  case_decide as Hsig; [done|]. case_decide as Hsz; [done|]. injection Hm as <-.
  rewrite foldl_append_app, appendSigned_eq. simpl. fold (wire tx).
  assert (len (wire tx) ≤ 4096) as Hlen.
  { unfold wire. rewrite len_app, len_signedBytes, len_concat, (sumZ_const len (V1Signatures tx) 64);
      [unfold TransactionV1MaxSize in Hsz; lia| |done..].
    eapply Forall_impl; [exact Hs|apply len_sig]. }
  split_and!; [done| |done]. destruct Esan as (? & ? & ? & ? & ? & Hix & ?). unfold wire_ok.
  split_and!; try done; try lia.
  rewrite Forall_forall in *. intros ix Hin. eapply sane_ix_wire; [|by apply Hi|by apply Hix]. lia.
Qed.

Lemma sane_MarshalBinary tx :
  sane tx → wire_ok tx → MarshalBinary tx = Ok (wire tx).
Proof.
  intros Hsane (_ & _ & Hl & Hk & _ & _ & _ & Hs & Hsig & Hlen). unfold MarshalBinary.
  rewrite (proj2 (sanitize_ok tx) Hsane). simpl. rewrite decide_False by lia. rewrite decide_False.
  - by rewrite foldl_append_app, appendSigned_eq.
  - revert Hlen. unfold wire, TransactionV1MaxSize.
    rewrite len_app, len_signedBytes, len_concat, (sumZ_const len (V1Signatures tx) 64); [lia| |done..].
    eapply Forall_impl; [exact Hs|apply len_sig].
Qed.

(** * Decoding what was encoded *)

Definition valueBytes (n : nat) (field : option Z) : bytes := appendIf n field [].

Lemma appendValues_eq c :
  appendValues c [] = valueBytes 8 (PriorityFeeLamports c) ++ valueBytes 4 (ComputeUnitLimit c) ++
    valueBytes 4 (LoadedAccountsDataSizeLimit c) ++ valueBytes 4 (HeapSize c).
Proof.
  unfold appendValues, valueBytes, appendIf.
  destruct c as [[] [] [] []]; cbn [PriorityFeeLamports ComputeUnitLimit LoadedAccountsDataSizeLimit HeapSize];
    rewrite <- ?app_assoc, ?app_nil_r, ?app_nil_l; done.
Qed.

Lemma readValue_ok n field rest :
  from_option (is_uint n) True field →
  readValue (bool_decide (is_Some field)) n (valueBytes n field ++ rest) = Ok (field, rest).
Proof.
  intros Hf. unfold readValue, valueBytes. destruct field as [v|]; simpl in *.
  - rewrite readUint_app by done. simpl. by rewrite slice_from_app by (by rewrite len_le_bytes).
  - done.
Qed.

Lemma readLast_ok {E} n field :
  from_option (is_uint n) True field →
  (if bool_decide (is_Some field) then v ← readUint (E:=E) n (valueBytes n field); Ok (Some v) else Ok None)
    = Ok field.
Proof.
  intros Hf. unfold valueBytes. destruct field as [v|]; simpl in *; [|done].
  by rewrite <- (app_nil_r (le_bytes n v)), readUint_app.
Qed.

(** The mask records which fields are set. *)
Lemma mask_bits c :
  hasBits (mask c) configBitPriorityFeeLo = bool_decide (is_Some (PriorityFeeLamports c)) ∧
  hasBits (mask c) configBitPriorityFeeHi = bool_decide (is_Some (PriorityFeeLamports c)) ∧
  hasBits (mask c) configBitComputeUnits = bool_decide (is_Some (ComputeUnitLimit c)) ∧
  hasBits (mask c) configBitLoadedDataSz = bool_decide (is_Some (LoadedAccountsDataSizeLimit c)) ∧
  hasBits (mask c) configBitHeapSize = bool_decide (is_Some (HeapSize c)) ∧
  Z.ldiff (mask c) configKnownBits = 0 ∧ 0 ≤ mask c < 32.
Proof. destruct c as [[] [] [] []]; cbv; split_and!; (done || congruence). Qed.

Lemma readConfig_ok c : config_typed c → readConfig (mask c) (appendValues c []) = Ok c.
Proof.
  intros (H1 & H2 & H3 & H4). unfold readConfig.
  destruct (mask_bits c) as (-> & _ & -> & -> & -> & _). rewrite appendValues_eq.
  do 3 (rewrite readValue_ok by done; simpl).
  rewrite readLast_ok by done. by destruct c.
Qed.

Lemma readChunks_from {E} size (ks : list bytes) (rest pre : bytes) i :
  0 ≤ size → Forall (λ k, len k = size) ks → len pre = size * Z.of_nat i →
  mapM (M:=outcome E) (λ i : nat, slice (pre ++ concat ks ++ rest) (size * Z.of_nat i)
         (size * Z.of_nat i + size)) (seq i (length ks)) = Ok ks.
Proof.
  intros Hs Hks. revert pre i. induction Hks as [|k ks Hk Hks IH]; intros pre i Hpre; [done|].
  simpl. rewrite <- app_assoc, slice_app by lia. simpl.
  rewrite (app_assoc pre), (IH (pre ++ k) (S i)) by (rewrite len_app; lia). done.
Qed.

Lemma readChunks_concat {E} size n ks rest :
  0 ≤ size → Forall (λ k, len k = size) ks → n = len ks →
  readChunks (E:=E) size n (concat ks ++ rest) = Ok ks.
Proof.
  intros Hs Hks ->. unfold readChunks. rewrite to_nat_len.
  apply (readChunks_from size ks rest [] 0); [done|done|]. by rewrite Z.mul_0_r.
Qed.

Lemma ixHeader_eq ix :
  ixHeader ix = [u8 (ProgramIDIndex ix); u8 (len (AccountIndexes ix))] ++ le_bytes 2 (u16 (len (InsData ix))).
Proof. done. Qed.

Lemma readIx_ok i ix rest :
  ix_wire ix → readIx i (ixHeader ix) (ixPayload ix ++ rest) = Ok (ix, rest).
Proof.
  intros (Hp & Ha & Hla & Hd & Hld). unfold is_byte in Hp.
  pose proof (len_nonneg (AccountIndexes ix)). pose proof (len_nonneg (InsData ix)).
  unfold readIx. rewrite ixHeader_eq, (u8_small (ProgramIDIndex ix)), (u8_small (len _)) by lia.
  replace (u16 (len (InsData ix))) with (len (InsData ix)) by (symmetry; apply Z.mod_small; lia).
  erewrite obind_ok by (by apply idx_ok). erewrite obind_ok by (by apply idx_ok).
  erewrite obind_ok.
  2: { rewrite <- (app_nil_r (le_bytes 2 _)). apply slice_app; [done|]. by rewrite len_le_bytes. }
  erewrite obind_ok.
  2: { rewrite <- (app_nil_r (le_bytes 2 _)). apply readUint_app. unfold is_uint. simpl. lia. }
  rewrite decide_False by (rewrite len_app, len_ixPayload; pose_lens; lia).
  rewrite ixPayload_eq, fmap_u8_bytes, <- app_assoc by done.
  erewrite obind_ok by (by apply readIndexes_app).
  erewrite obind_ok by (apply slice_app; lia).
  erewrite obind_ok by (rewrite app_assoc; apply slice_from_app; rewrite len_app; lia).
  rewrite u16_byte by done. by destruct ix.
Qed.

Lemma readIxs_ok ixs don rest tx :
  Forall ix_wire ixs →
  V1Instructions tx = don ++ replicate (length ixs) zeroInstruction →
  readIxs (length ixs) (length don) (concat (ixHeader <$> don ++ ixs))
    (concat (ixPayload <$> ixs) ++ rest) tx = (Ok rest, set_V1Instructions (don ++ ixs) tx).
Proof.
  intros Hall. revert don tx. induction Hall as [|ix ixs Hix Hall IH]; intros don tx Htx.
  - simpl in Htx. rewrite app_nil_r in *. simpl. destruct tx; simpl in *. by subst.
  - simpl length. rewrite (fmap_app _ don), !fmap_cons, concat_app.
    cbn [concat readIxs]. rewrite <- app_assoc.
    erewrite run_lift.
    2: { apply slice_app; rewrite ?len_ixHeaders, ?len_ixHeader; unfold len; lia. }
    erewrite run_lift by (by apply readIx_ok). cbv beta iota. rewrite run_modify.
    replace (S (length don)) with (length (don ++ [ix])) by (rewrite length_app; simpl; lia).
    replace (concat (ixHeader <$> don) ++ ixHeader ix ++ concat (ixHeader <$> ixs))
      with (concat (ixHeader <$> (don ++ [ix]) ++ ixs)).
    2: { rewrite <- app_assoc. simpl. by rewrite fmap_app, concat_app. }
    rewrite IH.
    + unfold set_V1Instructions. simpl. by rewrite <- app_assoc.
    + simpl. rewrite Htx. simpl. apply insert_middle.
Qed.

(** The reads of the fixed-size prefix. *)
Lemma prefix_reads {E} v a b c (M L : bytes) ni na rest data :
  len M = 4 → len L = 32 → data = ([v; a; b; c] ++ M ++ L ++ [ni; na]) ++ rest →
  idx (E:=E) data 0 = Ok v ∧ idx (E:=E) data 1 = Ok a ∧ idx (E:=E) data 2 = Ok b ∧
  idx (E:=E) data 3 = Ok c ∧ slice (E:=E) data 4 8 = Ok M ∧ slice (E:=E) data 8 40 = Ok L ∧
  idx (E:=E) data 40 = Ok ni ∧ idx (E:=E) data 41 = Ok na ∧ slice_from (E:=E) data 42 = Ok rest.
Proof.
  intros HM HL ->. do 4 (split; [by apply idx_ok|]). split_and!.
  - rewrite <- !app_assoc. apply slice_app; [done|]. by rewrite HM.
  - rewrite <- !app_assoc. rewrite (app_assoc _ M). apply slice_app; rewrite len_app; change (len [v; a; b; c]) with 4; lia.
  - apply idx_ok; [done|].
    replace (([v; a; b; c] ++ M ++ L ++ [ni; na]) ++ rest)
      with (([v; a; b; c] ++ M ++ L) ++ ni :: na :: rest) by (by rewrite <- !app_assoc).
    apply list_lookup_middle. unfold len in *. rewrite !length_app. simpl. lia.
  - apply idx_ok; [done|].
    replace (([v; a; b; c] ++ M ++ L ++ [ni; na]) ++ rest)
      with (([v; a; b; c] ++ M ++ L ++ [ni]) ++ na :: rest) by (by rewrite <- !app_assoc).
    apply list_lookup_middle. unfold len in *. rewrite !length_app. simpl. lia.
  - apply slice_from_app. rewrite !len_app. change (len [v; a; b; c]) with 4. change (len [ni; na]) with 2. lia.
Qed.

Lemma len_fixedPart tx : key_ok (LifetimeSpecifier tx) → len (fixedPart tx) = 42.
Proof.
  intros H. unfold fixedPart. rewrite !len_app, len_le_bytes, (len_key (LifetimeSpecifier tx)) by done. done.
Qed.

Lemma fixed_reads tx rest :
  key_ok (LifetimeSpecifier tx) →
  let data := fixedPart tx ++ rest in
  let h := V1Header tx in
  idx (E:=v1_err) data 0 = Ok TransactionV1VersionByte ∧
  idx (E:=v1_err) data 1 = Ok (NumRequiredSignatures h) ∧
  idx (E:=v1_err) data 2 = Ok (NumReadonlySignedAccounts h) ∧
  idx (E:=v1_err) data 3 = Ok (NumReadonlyUnsignedAccounts h) ∧
  slice (E:=v1_err) data 4 8 = Ok (le_bytes 4 (mask (Config tx))) ∧
  slice (E:=v1_err) data 8 40 = Ok (LifetimeSpecifier tx) ∧
  idx (E:=v1_err) data 40 = Ok (u8 (len (V1Instructions tx))) ∧
  idx (E:=v1_err) data 41 = Ok (u8 (len (V1AccountKeys tx))) ∧
  slice_from (E:=v1_err) data 42 = Ok rest.
Proof. intros Hl. by apply prefix_reads; [rewrite len_le_bytes|apply len_key|]. Qed.

Lemma Forall_len_key ks : Forall key_ok ks → Forall (λ k, len k = 32) ks ∧ len (concat ks) = 32 * len ks.
Proof.
  intros H. assert (Forall (λ k, len k = 32) ks) as Hl by (eapply Forall_impl; [exact H|apply len_key]).
  split; [done|]. by rewrite len_concat, (sumZ_const len _ 32).
Qed.

Lemma Forall_len_sig ks : Forall sig_ok ks → Forall (λ k, len k = 64) ks ∧ len (concat ks) = 64 * len ks.
Proof.
  intros H. assert (Forall (λ k, len k = 64) ks) as Hl by (eapply Forall_impl; [exact H|apply len_sig]).
  split; [done|]. by rewrite len_concat, (sumZ_const len _ 64).
Qed.

(** Decoding the wire form of a transaction restores it, whatever was in the
    receiver, and ends in the sanitization check. *)
Lemma Unmarshal_wire tx tx0 : wire_ok tx → UnmarshalBinary (wire tx) tx0 = (sanitize tx, tx).
Proof.
  intros ((Ha & Hb & Hc) & Hcfg & Hl & Hk & Hnk & Hix & Hnix & Hs & Hns & Hlen).
  destruct (Forall_len_key _ Hk) as [Hk32 Hck]. destruct (Forall_len_sig _ Hs) as [Hs64 Hcs].
  pose proof (len_nonneg (V1AccountKeys tx)). pose proof (len_nonneg (V1Instructions tx)).
  destruct (mask_bits (Config tx)) as (Hlo & Hhi & _ & _ & _ & Hld & Hm).
  unfold UnmarshalBinary. rewrite decide_False by (unfold TransactionV1MaxSize; lia).
  unfold wire, signedBytes. rewrite <- !app_assoc.
  rewrite decide_False by (rewrite len_app, len_fixedPart by done; pose_lens; lia).
  match goal with |- context [fixedPart tx ++ ?r] =>
    destruct (fixed_reads tx r Hl) as (R0 & R1 & R2 & R3 & R4 & R5 & R6 & R7 & R8) end.
  erewrite run_lift by exact R0. rewrite decide_False by (unfold TransactionV1VersionByte; lia).
  erewrite run_lift by exact R1. erewrite run_lift by exact R2. erewrite run_lift by exact R3.
  rewrite run_modify. erewrite run_lift by exact R4.
  erewrite run_lift.
  2: { rewrite <- (app_nil_r (le_bytes 4 _)). apply readUint_app. unfold is_uint. simpl. lia. }
  erewrite run_lift by exact R5. rewrite run_modify.
  erewrite run_lift by exact R6. erewrite run_lift by exact R7. erewrite run_lift by exact R8.
  clear R0 R1 R2 R3 R4 R5 R6 R7 R8. rewrite !u8_small by lia.
  rewrite Hld, Hlo, Hhi, decide_False by lia. rewrite decide_False by tauto.
  rewrite decide_False by (rewrite len_app; pose_lens; lia).
  erewrite run_lift by (by apply readChunks_concat). rewrite run_modify.
  erewrite run_lift by (by apply slice_from_app).
  rewrite decide_False by (rewrite len_app, len_appendValues; pose_lens; lia). rewrite run_modify.
  erewrite run_lift by (apply slice_to_app; by rewrite len_appendValues).
  erewrite run_lift by (by apply readConfig_ok). rewrite run_modify.
  erewrite run_lift by (apply slice_from_app; by rewrite len_appendValues).
  rewrite decide_False by (rewrite len_app, len_ixHeaders; pose_lens; lia).
  erewrite run_lift by (apply slice_to_app; by rewrite len_ixHeaders).
  erewrite run_lift by (apply slice_from_app; by rewrite len_ixHeaders). rewrite run_modify.
  rewrite to_nat_len. erewrite run_bind by (by apply (readIxs_ok _ [])). rewrite run_get.
  cbn [V1Header set_V1Instructions set_Config set_V1AccountKeys set_LifetimeSpecifier set_V1Header].
  cbn [NumRequiredSignatures]. rewrite <- Hns, decide_False by lia.
  erewrite run_lift by (rewrite <- (app_nil_r (concat (V1Signatures tx))); by apply readChunks_concat).
  rewrite run_modify, decide_False by lia. rewrite run_get, Hns. unfold lift.
  by destruct tx as [[] [] ? ? ? ?].
Qed.

(** * What the decoder accepts *)

(** The mask as a function of the four fields' presence. *)
Definition maskOf (fee units loaded heap : bool) : Z :=
  (if fee then 3 else 0) + (if units then 4 else 0) + (if loaded then 8 else 0) + (if heap then 16 else 0).

Lemma mask_maskOf c :
  mask c = maskOf (bool_decide (is_Some (PriorityFeeLamports c))) (bool_decide (is_Some (ComputeUnitLimit c)))
    (bool_decide (is_Some (LoadedAccountsDataSizeLimit c))) (bool_decide (is_Some (HeapSize c))).
Proof. by destruct c as [[] [] [] []]. Qed.

Lemma OnesCount_maskOf a b c d :
  OnesCount32 (maskOf a b c d) =
    (if a then 2 else 0) + (if b then 1 else 0) + (if c then 1 else 0) + (if d then 1 else 0).
Proof. by destruct a, b, c, d. Qed.

Lemma known_maskOf m :
  0 ≤ m → Z.ldiff m configKnownBits = 0 →
  hasBits m configBitPriorityFeeLo = hasBits m configBitPriorityFeeHi →
  m = maskOf (hasBits m configBitPriorityFeeLo) (hasBits m configBitComputeUnits)
        (hasBits m configBitLoadedDataSz) (hasBits m configBitHeapSize).
Proof.
  intros Hm Hld Heq.
  assert (0 ≤ m < 32) as Hr.
  { rewrite <- (Z.lor_ldiff_and m configKnownBits), Hld, Z.lor_0_l.
    change configKnownBits with (Z.ones 5). rewrite Z.land_ones by lia. apply Z.mod_pos_bound. lia. }
  assert (Forall (λ k, let m := Z.of_nat k in
     hasBits m configBitPriorityFeeLo = hasBits m configBitPriorityFeeHi →
     m = maskOf (hasBits m configBitPriorityFeeLo) (hasBits m configBitComputeUnits)
        (hasBits m configBitLoadedDataSz) (hasBits m configBitHeapSize)) (seq 0 32)) as Hall.
  { repeat constructor; vm_compute; congruence. }
  rewrite Forall_forall in Hall. specialize (Hall (Z.to_nat m)). cbv zeta in Hall.
  rewrite Z2Nat.id in Hall by lia. apply Hall; [|done]. apply elem_of_seq. lia.
Qed.

Lemma field_exists (b : bool) (n : nat) (data : bytes) :
  bytes_ok data → (if b then Z.of_nat n else 0) ≤ len data →
  ∃ field rest, data = valueBytes n field ++ rest ∧ from_option (is_uint n) True field ∧
    bool_decide (is_Some field) = b ∧ bytes_ok rest ∧ len rest = len data - (if b then Z.of_nat n else 0).
Proof.
  intros Hd Hn. destruct b.
  - destruct (take_uint n data) as (v & rest & -> & Hv & Hr); [done..|]. exists (Some v), rest.
    split_and!; [done|done|done|done|]. rewrite len_app, len_le_bytes. lia.
  - exists None, data. split_and!; [done..|lia].
Qed.

Lemma config_exists m (values : bytes) :
  0 ≤ m → Z.ldiff m configKnownBits = 0 →
  hasBits m configBitPriorityFeeLo = hasBits m configBitPriorityFeeHi →
  bytes_ok values → len values = 4 * OnesCount32 m →
  ∃ c, config_typed c ∧ mask c = m ∧ appendValues c [] = values.
Proof.
  intros Hm Hld Heq Hv Hlen. pose proof (known_maskOf m Hm Hld Heq) as Hmask.
  rewrite Hmask, OnesCount_maskOf in Hlen.
  set (f := hasBits m configBitPriorityFeeLo) in *. set (u := hasBits m configBitComputeUnits) in *.
  set (l := hasBits m configBitLoadedDataSz) in *. set (h := hasBits m configBitHeapSize) in *.
  destruct (field_exists f 8 values) as (fee & v1 & -> & Tf & Bf & Hv1 & L1); [done|destruct f, u, l, h; lia|].
  destruct (field_exists u 4 v1) as (units & v2 & -> & Tu & Bu & Hv2 & L2); [done|destruct f, u, l, h; lia|].
  destruct (field_exists l 4 v2) as (loaded & v3 & -> & Tl & Bl & Hv3 & L3); [done|destruct f, u, l, h; lia|].
  destruct (field_exists h 4 v3) as (heap & v4 & -> & Th & Bh & Hv4 & L4); [done|destruct f, u, l, h; lia|].
  assert (v4 = []) as -> by (apply len_0; destruct f, u, l, h; lia).
  exists (mkConfig fee units loaded heap). split_and!.
  - done.
  - rewrite mask_maskOf. cbn [PriorityFeeLamports ComputeUnitLimit LoadedAccountsDataSizeLimit HeapSize].
    by rewrite Bf, Bu, Bl, Bh.
  - rewrite appendValues_eq. cbn [PriorityFeeLamports ComputeUnitLimit LoadedAccountsDataSizeLimit HeapSize].
    by rewrite app_nil_r.
Qed.

Lemma readIx_wp i (h rest : bytes) :
  len h = 4 → bytes_ok h → bytes_ok rest →
  owp (readIx i h rest)
    (λ '(ix, rest'), ix_wire ix ∧ h = ixHeader ix ∧ rest = ixPayload ix ++ rest' ∧ bytes_ok rest')
    (λ _, True).
Proof.
  intros Hl Hh Hr.
  destruct h as [|p [|na h2]]; try (unfold len in Hl; simpl in Hl; lia).
  apply Forall_cons in Hh as [Hp [Hna Hh2]%Forall_cons].
  destruct (take_uint 2 h2) as (dl & tl & -> & Hdl & _); [done|len_lia|].
  assert (tl = []) as -> by (apply len_0; len_lia). rewrite app_nil_r in *.
  unfold readIx. erewrite obind_ok by (by apply idx_ok). erewrite obind_ok by (by apply idx_ok).
  erewrite obind_ok.
  2: { rewrite <- (app_nil_r (le_bytes 2 dl)). apply (slice_app [p; na]); [done|]. by rewrite len_le_bytes. }
  erewrite obind_ok by (rewrite <- (app_nil_r (le_bytes 2 dl)); by apply readUint_app).
  unfold is_byte, is_uint in *. simpl in Hdl. case_decide as Hlen; [done|].
  destruct (split_at rest na) as (accs & r1 & -> & Hla & Haccs & Hr1); [done|lia|].
  rewrite len_app in Hlen.
  destruct (split_at r1 dl) as (dat & r2 & -> & Hld & Hdat & Hr2); [done|lia|].
  erewrite obind_ok by (by apply readIndexes_app).
  erewrite obind_ok by (apply slice_app; lia).
  erewrite obind_ok by (rewrite app_assoc; apply slice_from_app; rewrite len_app; lia).
  cbn [owp]. rewrite u16_byte by done. rewrite ixHeader_eq, ixPayload_eq.
  cbn [ProgramIDIndex AccountIndexes InsData]. unfold ix_wire, is_byte.
  cbn [ProgramIDIndex AccountIndexes InsData].
  rewrite fmap_u8_bytes, Hla, Hld, !u8_small, u16_small, <- app_assoc by (done || lia).
  split_and!; (done || lia).
Qed.

Lemma OnesCount_nonneg m : 0 ≤ OnesCount32 m.
Proof.
  unfold OnesCount32. induction (seq 0 32) as [|i l IH]; [done|]. rewrite fmap_cons. simpl.
  destruct (Z.testbit m _); lia.
Qed.

Lemma readIxs_wp k i (hpre hs rest : bytes) tx :
  len hpre = 4 * Z.of_nat i → len hs = 4 * Z.of_nat k → bytes_ok hs → bytes_ok rest →
  wp (readIxs k i (hpre ++ hs) rest)
    (λ rest' tx', V1Header tx' = V1Header tx ∧ ∃ ixs, length ixs = k ∧ Forall ix_wire ixs ∧
       hs = concat (ixHeader <$> ixs) ∧ rest = concat (ixPayload <$> ixs) ++ rest' ∧ bytes_ok rest')
    (λ _ _, True) tx.
Proof.
  revert i hpre hs rest tx. induction k as [|k IH]; intros i hpre hs rest tx Hpre Hhs Bhs Br; cbn [readIxs].
  - apply wp_ret. split; [done|]. exists []. assert (hs = []) as -> by (apply len_0; lia). done.
  - destruct (split_at hs 4) as (h & hs' & -> & Hh & Bh & Bhs'); [done|lia|]. rewrite len_app in Hhs.
    eapply wp_run_lift; [apply slice_app; lia|].
    apply wp_bind, wp_lift. eapply owp_mono; [by apply readIx_wp| |done].
    intros [ix rest'] (Hix & -> & -> & Br'). apply wp_run_modify. rewrite app_assoc.
    eapply wp_mono; [apply IH; [rewrite len_app, len_ixHeader; lia|lia|done|done]| |done].
    intros rest'' tx' (Htx & ixs & Hlen & Hall & -> & -> & Br''). split; [done|].
    exists (ix :: ixs). rewrite !fmap_cons. cbn [concat length]. rewrite <- !app_assoc.
    split_and!; [lia|by constructor|done|done|done].
Qed.

Lemma Unmarshal_wp data tx0 :
  bytes_ok data →
  wp (UnmarshalBinary data) (λ _ _, ∃ tx, wire_ok tx ∧ data = wire tx) (λ _ _, True) tx0.
Proof.
  intros Hd. unfold UnmarshalBinary. case_decide as Hmax; [by apply wp_throw|].
  case_decide as H42; [by apply wp_throw|]. unfold TransactionV1MaxSize in Hmax.
  destruct (split_at data 4) as (h & d1 & -> & Hh & Bh & B1); [done|lia|]. rewrite len_app in H42.
  destruct h as [|v [|a [|b [|c [|]]]]]; try (unfold len in Hh; simpl in Hh; lia).
  destruct (take_uint 4 d1) as (m & d2 & -> & Hm & B2); [done|lia|]. rewrite len_app, len_le_bytes in H42.
  destruct (split_at d2 32) as (L & d3 & -> & HL & BL & B3); [done|lia|]. rewrite len_app in H42.
  destruct d3 as [|ni [|na rest]]; try (rewrite ?len_cons, ?len_nil in H42; lia).
  apply Forall_cons in B3 as [Hni [Hna Br]%Forall_cons].
  set (data := [v; a; b; c] ++ le_bytes 4 m ++ L ++ ni :: na :: rest) in *.
  destruct (prefix_reads (E := v1_err) v a b c (le_bytes 4 m) L ni na rest data)
    as (R0 & R1 & R2 & R3 & R4 & R5 & R6 & R7 & R8);
    [by rewrite len_le_bytes|done|by unfold data; rewrite <- !app_assoc|].
  eapply wp_run_lift; [exact R0|]. case_decide as Hv; [by apply wp_throw|].
  assert (v = TransactionV1VersionByte) as -> by (destruct (decide (v = TransactionV1VersionByte)); tauto).
  do 3 (eapply wp_run_lift; [eassumption|]). apply wp_run_modify.
  eapply wp_run_lift; [exact R4|].
  eapply wp_run_lift; [rewrite <- (app_nil_r (le_bytes 4 m)); by apply readUint_app|].
  eapply wp_run_lift; [exact R5|]. apply wp_run_modify.
  do 3 (eapply wp_run_lift; [eassumption|]). clear R0 R1 R2 R3 R4 R5 R6 R7 R8.
  cbv zeta. case_decide as Hld; [by apply wp_throw|]. case_decide as Hlo; [by apply wp_throw|].
  case_decide as Hlk; [by apply wp_throw|]. unfold is_byte in Hni, Hna.
  destruct (chunks_exist 32 (Z.to_nat na) rest) as (keys & r1 & -> & Hnk & Hk32); [lia|lia|].
  apply Forall_app in Br as [Bk Br1]. rewrite Forall_concat in Bk.
  assert (len keys = na) as <- by (unfold len; lia).
  assert (Forall key_ok keys) as Hk.
  { apply Forall_forall. intros k Hin. rewrite Forall_forall in Hk32, Bk. split; [|by apply Bk].
    specialize (Hk32 k Hin). unfold len in Hk32. lia. }
  destruct (Forall_len_key keys Hk) as [_ Hck].
  eapply wp_run_lift; [by apply readChunks_concat|]. apply wp_run_modify.
  eapply wp_run_lift; [by apply slice_from_app|].
  case_decide as Hlv; [by apply wp_throw|]. apply wp_run_modify.
  destruct (split_at r1 (4 * OnesCount32 m)) as (values & r2 & -> & Hlval & Bv & Br2);
    [done|pose proof (OnesCount_nonneg m); lia|].
  eapply wp_run_lift; [by apply slice_to_app|].
  unfold is_uint in Hm.
  destruct (config_exists m values) as (cfg & Hcfg & Hmask & Hval);
    [lia|tauto|by destruct (hasBits m configBitPriorityFeeLo), (hasBits m configBitPriorityFeeHi); tauto|done|done|].
  eapply wp_run_lift; [rewrite <- Hmask, <- Hval; by apply readConfig_ok|]. apply wp_run_modify.
  eapply wp_run_lift; [by apply slice_from_app|].
  case_decide as Hlh; [by apply wp_throw|].
  destruct (split_at r2 (4 * ni)) as (hs & r3 & -> & Hlhs & Bhs & Br3); [done|lia|].
  eapply wp_run_lift; [by apply slice_to_app|]. eapply wp_run_lift; [by apply slice_from_app|].
  apply wp_run_modify. apply wp_bind.
  eapply wp_mono; [apply (readIxs_wp _ 0 []); [done|lia|done|done]| |done].
  intros r4 tx1 (Hhdr & ixs & Hnix & Hix & -> & -> & Br4). apply wp_run_get. rewrite Hhdr.
  cbn [V1Header set_V1Instructions set_Config set_V1AccountKeys set_LifetimeSpecifier set_V1Header NumRequiredSignatures].
  assert (len ixs = ni) as <- by (unfold len; lia).
  case_decide as Hls; [by apply wp_throw|].
  apply Forall_cons in Bh as [_ [Ha [Hb [Hc _]%Forall_cons]%Forall_cons]%Forall_cons]. unfold is_byte in Ha.
  destruct (chunks_exist 64 (Z.to_nat a) r4) as (sigs & r5 & -> & Hns & Hs64); [lia|lia|].
  apply Forall_app in Br4 as [Bs Br5]. rewrite Forall_concat in Bs.
  assert (Forall sig_ok sigs) as Hs.
  { apply Forall_forall. intros s Hin. rewrite Forall_forall in Hs64, Bs. split; [|by apply Bs].
    specialize (Hs64 s Hin). unfold len in Hs64. lia. }
  destruct (Forall_len_sig sigs Hs) as [_ Hcs].
  assert (len sigs = a) as <- by (unfold len; lia).
  eapply wp_run_lift; [by apply readChunks_concat|]. apply wp_run_modify.
  case_decide as Htr; [by apply wp_throw|]. rewrite len_app in Htr.
  assert (r5 = []) as -> by (apply len_0; lia). apply wp_run_get. apply wp_lift.
  eapply owp_mono; [apply owp_no_panic, sanitize_no_panic| |done]. intros _ _. simpl.
  exists (mkTransactionV1 (mkMessageHeader (len sigs) b c) cfg L keys ixs sigs).
  assert (data = wire (mkTransactionV1 (mkMessageHeader (len sigs) b c) cfg L keys ixs sigs)) as Hwire.
  { subst data. unfold wire, signedBytes, fixedPart. simpl V1Header.
    cbn [V1Header V1AccountKeys V1Instructions V1Signatures Config LifetimeSpecifier NumRequiredSignatures
         NumReadonlySignedAccounts NumReadonlyUnsignedAccounts].
    rewrite Hmask, Hval, !u8_small, <- !app_assoc by lia. rewrite app_nil_r. done. }
  split; [|done]. unfold wire_ok. rewrite <- Hwire. simpl.
  split_and!; try done; try lia. split; [unfold len in HL; lia|done].
Qed.

(** * Signing *)

Section signing_facts.
Context `{ed : Ed25519} {laws : Ed25519Laws ed}.

Lemma signLoopV1_ok getter payload keys pre olds tx :
  getter_valid getter keys → length olds = length keys → V1Signatures tx = pre ++ olds →
  signLoopV1 getter payload (length pre) keys tx =
    (Ok tt, set_V1Signatures (pre ++ zip_with (slotAfter getter payload) keys olds) tx).
Proof.
  intros Hg. revert pre olds tx.
  induction Hg as [|key keys Hk Hg IH]; intros pre [|old olds] tx Hl Htx; try done.
  - simpl. rewrite app_nil_r in *. destruct tx; simpl in *. by subst.
  - simpl. unfold slotAfter at 1. destruct (getter key) as [pk|].
    + erewrite run_lift by (by rewrite Sign_ok). rewrite run_modify.
      replace (S (length pre)) with (length (pre ++ [ed_Sign pk payload]))
        by (rewrite length_app; simpl; lia).
      rewrite (IH _ olds); [|simpl in Hl; lia|by simpl; rewrite Htx, insert_middle].
      unfold set_V1Signatures. simpl. by rewrite <- app_assoc.
    + replace (S (length pre)) with (length (pre ++ [old])) by (rewrite length_app; simpl; lia).
      rewrite (IH _ olds); [|simpl in Hl; lia|by rewrite Htx, <- app_assoc].
      by rewrite <- app_assoc.
Qed.

(** The keys that must sign. *)
Definition signersV1 (tx : TransactionV1) : list PublicKey :=
  take (Z.to_nat (NumRequiredSignatures (V1Header tx))) (V1AccountKeys tx).

Lemma length_signersV1 tx :
  sane tx → 0 ≤ NumReadonlyUnsignedAccounts (V1Header tx) →
  len (signersV1 tx) = NumRequiredSignatures (V1Header tx).
Proof. intros (? & ? & ? & _) Hn. unfold signersV1. apply len_take. lia. Qed.

Lemma PartialSignV1_ok getter tx :
  sane tx → v1_typed tx → V1Signatures tx = [] →
  signedSize tx + 64 * NumRequiredSignatures (V1Header tx) ≤ 4096 →
  getter_valid getter (signersV1 tx) →
  let sigs := zip_with (slotAfter getter (signedBytes tx)) (signersV1 tx)
                (replicate (length (signersV1 tx)) zeroSignature) in
  PartialSignV1 getter tx = (Ok sigs, set_V1Signatures sigs tx).
Proof.
  intros Hsane ((Hh1 & Hh2 & Hh3) & _ & Hl & Hk & _) Hnil Hsz Hg sigs.
  pose proof (length_signersV1 tx Hsane (proj1 Hh3)) as Hn.
  unfold PartialSignV1. rewrite run_get.
  erewrite run_lift by (by apply sanitize_ok). cbv zeta.
  rewrite appendSigned_eq, decide_False by (simpl; rewrite len_signedBytes by done; unfold TransactionV1MaxSize; lia).
  rewrite Hnil, decide_True by done.
  erewrite run_bind by reflexivity.
  erewrite run_lift.
  2: { apply slice_to_ok. destruct Hsane as (? & ? & ? & _). unfold is_byte in Hh3. lia. }
  fold (signersV1 tx). rewrite <- Hn, to_nat_len.
  erewrite run_bind.
  2: { apply (signLoopV1_ok _ _ _ [] (replicate (length (signersV1 tx)) zeroSignature));
         [done|apply length_replicate|done]. }
  done.
Qed.

Lemma checkNonzero_ok sigs keys : Forall (.≠ zeroSignature) sigs → checkNonzero sigs keys = Ok tt.
Proof.
  intros H. revert keys. induction H as [|s sigs Hs _ IH]; intros keys; [done|]. simpl.
  by rewrite decide_False.
Qed.

Lemma verifyLoopV1_ok getter payload keys pre post olds :
  Forall (holdsKey getter) keys → length olds = length keys →
  verifyLoopV1 (pre ++ keys ++ post) payload (length pre)
    (zip_with (slotAfter getter payload) keys olds) = Ok tt.
Proof.
  intros Hk. revert pre olds.
  induction Hk as [|key keys (seed & Hs & Hg & Hkey) _ IH]; intros pre [|old olds] Hl; try done.
  simpl. rewrite (idx_ok _ _ key) by (lia || by rewrite Nat2Z.id, list_lookup_middle).
  simpl. unfold slotAfter at 1, Verify. rewrite Hg, <- Hkey, ed_verify_sign by done.
  rewrite Hkey. replace (pre ++ key :: keys ++ post) with ((pre ++ [key]) ++ keys ++ post) by (by rewrite <- app_assoc).
  replace (S (length pre)) with (length (pre ++ [key])) by (rewrite length_app; simpl; lia).
  apply IH. simpl in Hl. lia.
Qed.

Lemma signed_slots_ok getter payload keys olds :
  Forall (holdsKey getter) keys →
  (∀ key pk, key ∈ keys → getter key = Some pk → ed_Sign pk payload ≠ zeroSignature) →
  Forall (λ s, sig_ok s ∧ s ≠ zeroSignature) (zip_with (slotAfter getter payload) keys olds).
Proof.
  intros Hk. revert olds. induction Hk as [|key keys (seed & Hs & Hg & _) _ IH]; intros [|old olds] Hnz; [done..|].
  simpl. constructor.
  - unfold slotAfter. rewrite Hg. pose proof (ed_key_length seed Hs).
    split; [split; [by apply ed_sign_length|by apply ed_sign_bytes]|].
    apply (Hnz key); [set_solver|done].
  - apply IH. intros key' pk Hin. apply Hnz. set_solver.
Qed.

End signing_facts.

(** The fields the signed payload covers. *)
Lemma signedBytes_sigs sigs tx : signedBytes (set_V1Signatures sigs tx) = signedBytes tx.
Proof. done. Qed.

Lemma sane_sigs sigs tx : sane (set_V1Signatures sigs tx) ↔ sane tx.
Proof. done. Qed.

Lemma sane_wire_ok tx :
  sane tx → v1_typed tx → len (V1Signatures tx) = NumRequiredSignatures (V1Header tx) →
  signedSize tx + 64 * NumRequiredSignatures (V1Header tx) ≤ 4096 → wire_ok tx.
Proof.
  intros Hsane (Hh & Hc & Hl & Hk & Hi & Hs) Hns Hsz.
  destruct Hsane as (? & ? & ? & ? & ? & Hix & ?). unfold wire_ok. split_and!; try done; try lia.
  - rewrite Forall_forall in *. intros ix Hin. eapply sane_ix_wire; [|by apply Hi|by apply Hix]. lia.
  - unfold wire. destruct (Forall_len_sig _ Hs) as [_ Hcs]. rewrite len_app, len_signedBytes by done. lia.
Qed.

Lemma NewTransactionV1_inv instructions lifetime config opts tx :
  NewTransactionV1 instructions lifetime config opts = Ok tx →
  sane tx ∧ V1Signatures tx = [] ∧ LifetimeSpecifier tx = lifetime ∧ Config tx = config ∧
  signedSize tx + 64 * NumRequiredSignatures (V1Header tx) ≤ 4096 ∧
  ∃ compiled, NewTransaction instructions lifetime opts = Ok compiled ∧
    V1Header tx = Header (TxMessage compiled) ∧ V1AccountKeys tx = AccountKeys (TxMessage compiled) ∧
    V1Instructions tx = Instructions (TxMessage compiled).
Proof.
  unfold NewTransactionV1. destruct (addressTables _); [done|].
  destruct (NewTransaction instructions lifetime opts) as [compiled| |]; [|done..].
  cbn [wrap_err mbind outcome_bind].
  match goal with |- context [sanitize ?t] => set (tx' := t); destruct (sanitize tx') as [[]| |] eqn:Es end; [|done..].
  apply sanitize_ok in Es. cbn [mbind outcome_bind]. case_decide as Hsz; [done|]. intros [= <-].
  unfold TransactionV1MaxSize in Hsz. split_and!; [done..|lia|]. exists compiled. done.
Qed.

(** * Properties *)

Definition sampleConfig : TransactionConfig := mkConfig (Some 5000) None (Some 70000) (Some 65536).

Definition sampleV1 : TransactionV1 :=
  mkTransactionV1 (mkMessageHeader 1 0 1) sampleConfig (sampleKey 9)
    [sampleKey 1; sampleKey 2; sampleKey 3]
    [mkCompiledInstruction 2 [0; 1] [7; 8; 9]; mkCompiledInstruction 2 [] []] [replicate 64 4].

(** C12. v1 transactions round-trip: whatever [MarshalBinary] emits for a
    transaction, [UnmarshalBinary] accepts and turns back into the same
    transaction, whatever the receiver held before. *)
Theorem v1_roundtrip tx tx0 out :
  v1_typed tx → MarshalBinary tx = Ok out → UnmarshalBinary out tx0 = (Ok tt, tx).
Proof.
  intros Ht Hm. destruct (MarshalBinary_inv tx out Ht Hm) as (Hsane & Hw & ->).
  rewrite Unmarshal_wire by done. by rewrite (proj2 (sanitize_ok tx) Hsane).
Qed.

Lemma v1_roundtrip_witness :
  ∃ out, MarshalBinary sampleV1 = Ok out ∧ UnmarshalBinary out zeroTransactionV1 = (Ok tt, sampleV1).
Proof.
  eexists. split; [vm_compute; reflexivity|].
  apply (v1_roundtrip sampleV1 zeroTransactionV1); [decide_by_compute|vm_compute; reflexivity].
Defined.

(** Decoding a v1 transaction never panics and accepts one byte string per
    transaction: whatever is accepted satisfies the sanitization rules and
    re-encodes to exactly the bytes it was decoded from. *)
Lemma v1_decode_canonical data :
  bytes_ok data →
  match TransactionV1FromBytes data with
  | Ok tx => sane tx ∧ MarshalBinary tx = Ok data
  | Err _ => True
  | Panic => False
  end.
Proof.
  intros Hd. pose proof (Unmarshal_wp data zeroTransactionV1 Hd) as H. unfold wp in H.
  unfold TransactionV1FromBytes.
  destruct (UnmarshalBinary data zeroTransactionV1) as [[[]|e|] tx] eqn:E; [|done..].
  destruct H as (tx' & Hw & ->). rewrite Unmarshal_wire in E by done. injection E as Hs <-.
  apply sanitize_ok in Hs. split; [done|]. by apply sane_MarshalBinary.
Qed.

(** C15. [sanitize] accepts a transaction exactly when it has one to twelve
    signatures with a writable fee payer, at most 64 distinct addresses covering
    the header's counts, at most 64 instructions whose indexes are in range and
    whose lengths fit the wire format, and a heap size that is unset or a
    multiple of 1 KiB between 32 and 256 KiB. *)
Theorem v1_sanitize_spec tx : sanitize tx = Ok tt ↔ sane tx.
Proof. apply sanitize_ok. Qed.

(** The encoder fills its single allocation exactly: the encoding has the
    precomputed size, signatures included, and never exceeds 4096 bytes. *)
Lemma v1_size_exact tx out :
  v1_typed tx → MarshalBinary tx = Ok out →
  len out = signedSize tx + 64 * len (V1Signatures tx) ∧ len out ≤ TransactionV1MaxSize.
Proof.
  intros Ht Hm. destruct (MarshalBinary_inv tx out Ht Hm) as (_ & Hw & ->).
  destruct Hw as (_ & _ & Hl & Hk & _ & _ & _ & Hs & _ & Hlen). split; [|done].
  unfold wire. rewrite len_app, len_signedBytes by done. by destruct (Forall_len_sig _ Hs) as [_ ->].
Qed.

(** From instructions to the wire: a transaction [NewTransactionV1] returns
    can be signed when the getter holds a key pair for every required signer;
    the signed transaction verifies, encodes, and decodes to itself. *)
Lemma v1_compile_sign_send `{ed : Ed25519} (laws : Ed25519Laws ed) getter
    instructions lifetime config opts tx :
  NewTransactionV1 instructions lifetime config opts = Ok tx → v1_typed tx →
  Forall (holdsKey getter) (signersV1 tx) →
  (∀ key pk, key ∈ signersV1 tx → getter key = Some pk →
     ed_Sign pk (appendSigned tx []) ≠ zeroSignature) →
  ∃ sigs tx' out, SignV1 getter tx = (Ok sigs, tx') ∧ tx' = set_V1Signatures sigs tx ∧
    VerifySignaturesV1 tx' = Ok tt ∧ MarshalBinary tx' = Ok out ∧ TransactionV1FromBytes out = Ok tx'.
Proof.
  intros Hnew Ht Hk Hnz. apply NewTransactionV1_inv in Hnew as (Hsane & Hnil & _ & _ & Hsz & _).
  rewrite appendSigned_eq in Hnz.
  pose proof (length_signersV1 tx Hsane ltac:(by destruct Ht as ((_ & _ & [? _]) & _))) as Hn.
  pose proof (PartialSignV1_ok getter tx Hsane Ht Hnil Hsz (holdsKey_valid _ _ Hk)) as Hps. cbv zeta in Hps.
  pose proof (signed_slots_ok getter (signedBytes tx) _
    (replicate (length (signersV1 tx)) zeroSignature) Hk Hnz) as Hsigs.
  pose proof (verifyLoopV1_ok getter (signedBytes tx) (signersV1 tx) []
    (drop (Z.to_nat (NumRequiredSignatures (V1Header tx))) (V1AccountKeys tx))
    (replicate (length (signersV1 tx)) zeroSignature) Hk (length_replicate _ _)) as Hv.
  unfold signersV1 at 1 in Hv. rewrite app_nil_l, take_drop in Hv.
  set (sigs := zip_with _ _ _) in *.
  assert (len sigs = NumRequiredSignatures (V1Header tx)) as Hls.
  { rewrite <- Hn. subst sigs. unfold len. rewrite length_zip_with, length_replicate. lia. }
  assert (wire_ok (set_V1Signatures sigs tx)) as Hw.
  { apply sane_wire_ok; [done| |done|done]. destruct Ht as (? & ? & ? & ? & ? & _).
    split_and!; try done. simpl. eapply Forall_impl; [exact Hsigs|]. by intros s [? _]. }
  exists sigs, (set_V1Signatures sigs tx), (wire (set_V1Signatures sigs tx)). split_and!; [|done| | |].
  - unfold SignV1. erewrite run_bind by exact Hps. rewrite run_get.
    erewrite run_lift; [done|]. apply checkNonzero_ok. eapply Forall_impl; [exact Hsigs|]. by intros s [_ ?].
  - unfold VerifySignaturesV1. rewrite (proj2 (sanitize_ok (set_V1Signatures sigs tx)) Hsane). simpl.
    rewrite decide_False by lia. rewrite appendSigned_eq. exact Hv.
  - by apply sane_MarshalBinary.
  - unfold TransactionV1FromBytes. rewrite Unmarshal_wire by done.
    by rewrite (proj2 (sanitize_ok (set_V1Signatures sigs tx)) Hsane).
Qed.

Definition sampleV1Instructions : list Instruction :=
  [NewInstruction (sampleKey 9) [mkAccountMeta (sampleKey 1) true true; mkAccountMeta (sampleKey 2) true false] [1; 2]].
