(* ===== verification/Base64.v ===== *)
(** Base64: Go's encoding/base64, StdEncoding, which is part of the language's
    standard library: the encoder, the decoder with its results on a bad text, and
    that decoding inverts encoding. *)
From Stdlib Require Import ZArith Lia.
From stdpp Require Import base numbers list.
From S2P Require Import Prelude.

Open Scope Z_scope.

(** * Package encoding/base64: StdEncoding *)

(** The digit a value stands for, and the value of a digit. *)
Definition digit64 (v : Z) : Z :=
  if decide (v < 26) then v + 65 else if decide (v < 52) then v + 71 else if decide (v < 62) then v - 4
  else if decide (v = 62) then 43 else 47.
Definition value64 (c : Z) : option Z :=
  if decide (65 ≤ c ≤ 90) then Some (c - 65) else if decide (97 ≤ c ≤ 122) then Some (c - 71)
  else if decide (48 ≤ c ≤ 57) then Some (c + 4) else if decide (c = 43) then Some 62
  else if decide (c = 47) then Some 63 else None.

Definition padChar : Z := 61.

(** [EncodeToString]. *)
Fixpoint encode64 (b : bytes) : bytes :=
  match b with
  | [] => []
  | [x] => [digit64 (Z.shiftr x 2); digit64 (Z.shiftl (Z.land x 3) 4); padChar; padChar]
  | [x; y] => [digit64 (Z.shiftr x 2); digit64 (Z.lor (Z.shiftl (Z.land x 3) 4) (Z.shiftr y 4));
               digit64 (Z.shiftl (Z.land y 15) 2); padChar]
  | x :: y :: z :: b' =>
    [digit64 (Z.shiftr x 2); digit64 (Z.lor (Z.shiftl (Z.land x 3) 4) (Z.shiftr y 4));
     digit64 (Z.lor (Z.shiftl (Z.land y 15) 2) (Z.shiftr z 6)); digit64 (Z.land z 63)] ++ encode64 b'
  end.

(** The bytes of a quantum of four values. *)
Definition quantum (a b c d : Z) : bytes :=
  [u8 (Z.lor (Z.shiftl a 2) (Z.shiftr b 4)); u8 (Z.lor (Z.shiftl b 4) (Z.shiftr c 2)); u8 (Z.lor (Z.shiftl c 6) d)].

(** The quanta of a text without line ends: the bytes decoded, and whether all of
    it was accepted. Padding ends the text. *)
Fixpoint decodeQuanta (s : bytes) : bytes * bool :=
  match s with
  | [] => ([], true)
  | a :: b :: c :: d :: s' =>
    match value64 a, value64 b, value64 c, value64 d with
    | Some a, Some b, Some c, Some d => let '(out, ok) := decodeQuanta s' in (quantum a b c d ++ out, ok)
    | Some a, Some b, Some c, None =>
      if decide (d = padChar) then (take 2 (quantum a b c 0), bool_decide (s' = [])) else ([], false)
    | Some a, Some b, None, _ =>
      if decide (c = padChar ∧ d = padChar) then (take 1 (quantum a b 0 0), bool_decide (s' = [])) else ([], false)
    | _, _, _, _ => ([], false)
    end
  | _ => ([], false)
  end.

(** [DecodeString]: line ends are skipped wherever they are; what was decoded
    before an error is returned with it. *)
Definition decode64 (s : bytes) : bytes * bool := decodeQuanta (filter (λ c, c ≠ 10 ∧ c ≠ 13) s).

(** * Decoding inverts encoding *)

Lemma value64_digit v : 0 ≤ v < 64 → value64 (digit64 v) = Some v.
Proof.
  intros Hv. unfold digit64, value64.
  repeat case_decide; try lia; f_equal; lia.
Qed.

(** Neither a digit nor the padding needs an escape in JSON. *)
Definition char64 (c : Z) : Prop := 43 ≤ c < 127 ∧ c ≠ 92.

Lemma digit64_char v : 0 ≤ v < 64 → char64 (digit64 v).
Proof. intros Hv. unfold char64, digit64. repeat case_decide; lia. Qed.

Lemma padChar_char : char64 padChar.
Proof. unfold char64, padChar. lia. Qed.

(** The six-bit values of three bytes. *)
Lemma sextets x y z :
  is_byte x → is_byte y → is_byte z →
  Z.shiftr x 2 = x / 4 ∧ Z.lor (Z.shiftl (Z.land x 3) 4) (Z.shiftr y 4) = x mod 4 * 16 + y / 16 ∧
  Z.lor (Z.shiftl (Z.land y 15) 2) (Z.shiftr z 6) = y mod 16 * 4 + z / 64 ∧ Z.land z 63 = z mod 64 ∧
  Z.shiftl (Z.land x 3) 4 = x mod 4 * 16 ∧ Z.shiftl (Z.land y 15) 2 = y mod 16 * 4.
Proof.
  intros Hx Hy Hz. unfold is_byte in *.
  change 3 with (Z.ones 2). change 15 with (Z.ones 4). change 63 with (Z.ones 6).
  rewrite !Z.land_ones, !Z.shiftr_div_pow2, !(Z.lor_comm (Z.shiftl _ _)) by lia.
  rewrite !lor_shiftl_add by dlia. rewrite !Z.shiftl_mul_pow2 by lia.
  change (2 ^ 2) with 4. change (2 ^ 4) with 16. change (2 ^ 6) with 64. dlia.
Qed.

(** The bytes back from the values of three bytes; a missing byte counts as 0. *)
Lemma quantum_sextets x y z :
  is_byte x → is_byte y → is_byte z →
  quantum (x / 4) (x mod 4 * 16 + y / 16) (y mod 16 * 4 + z / 64) (z mod 64) = [x; y; z].
Proof.
  intros Hx Hy Hz. unfold is_byte in *. unfold quantum, u8.
  rewrite !Z.shiftr_div_pow2 by lia. rewrite !(Z.lor_comm (Z.shiftl _ _)).
  rewrite !lor_shiftl_add by dlia. change (2 ^ 2) with 4. change (2 ^ 4) with 16. change (2 ^ 6) with 64.
  repeat f_equal; dlia.
Qed.

(** Induction three bytes at a time. *)
Lemma triples_ind (P : bytes → Prop) :
  P [] → (∀ x, P [x]) → (∀ x y, P [x; y]) → (∀ x y z b, P b → P (x :: y :: z :: b)) → ∀ b, P b.
Proof.
  intros H0 H1 H2 H3 b. remember (length b) as n eqn:Hn. revert b Hn.
  induction (lt_wf n) as [n _ IH]. intros [|x [|y [|z b]]] ->; [done..|].
  apply H3. eapply IH; [|done]. simpl. lia.
Qed.

(** One quantum is decoded at a time. *)
Lemma decodeQuanta_quantum a b c d s :
  0 ≤ a < 64 → 0 ≤ b < 64 → 0 ≤ c < 64 → 0 ≤ d < 64 →
  decodeQuanta (digit64 a :: digit64 b :: digit64 c :: digit64 d :: s) =
    ((quantum a b c d ++ (decodeQuanta s).1), (decodeQuanta s).2).
Proof.
  intros. cbn [decodeQuanta]. rewrite !value64_digit by done. by destruct (decodeQuanta s).
Qed.

(** The alphabet, and the text decoded. *)
Lemma encode64_shape b :
  bytes_ok b →
  Forall char64 (encode64 b) ∧ decodeQuanta (encode64 b) = (b, true).
Proof.
  assert (is_byte 0) as H0 by (unfold is_byte; lia).
  induction b as [|x|x y|x y z b IH] using triples_ind; intros Hok.
  - done.
  - apply Forall_cons in Hok as [Hx _]. destruct (sextets x 0 0 Hx H0 H0) as (E1 & E2 & E3 & _ & E4 & _).
    pose proof (quantum_sextets x 0 0 Hx H0 H0) as Hq. unfold is_byte in Hx. cbn [encode64].
    rewrite E1, E4. assert (x mod 4 * 16 + 0 / 16 = x mod 4 * 16) as E5 by dlia. rewrite E5 in Hq.
    split.
    + repeat (constructor; [first [apply padChar_char | apply digit64_char; dlia]|]). constructor.
    + cbn [decodeQuanta]. rewrite !value64_digit by dlia. change (value64 padChar) with (@None Z). cbn [mbind].
      rewrite decide_True by done. change (0 mod 16 * 4 + 0 / 64) with 0 in Hq. change (0 mod 64) with 0 in Hq.
      by rewrite Hq.
  - apply Forall_cons in Hok as [Hx Hok]. apply Forall_cons in Hok as [Hy _].
    destruct (sextets x y 0 Hx Hy H0) as (E1 & E2 & E3 & _ & _ & E4).
    pose proof (quantum_sextets x y 0 Hx Hy H0) as Hq. unfold is_byte in Hx, Hy. cbn [encode64].
    rewrite E1, E2, E4. assert (y mod 16 * 4 + 0 / 64 = y mod 16 * 4) as E5 by dlia. rewrite E5 in Hq.
    split.
    + repeat (constructor; [first [apply padChar_char | apply digit64_char; dlia]|]). constructor.
    + cbn [decodeQuanta]. rewrite !value64_digit by dlia. change (value64 padChar) with (@None Z).
      rewrite decide_True by done. change (0 mod 64) with 0 in Hq. by rewrite Hq.
  - apply Forall_cons in Hok as [Hx Hok]. apply Forall_cons in Hok as [Hy Hok]. apply Forall_cons in Hok as [Hz Hok].
    destruct (sextets x y z Hx Hy Hz) as (E1 & E2 & E3 & E4 & _).
    pose proof (quantum_sextets x y z Hx Hy Hz) as Hq. destruct (IH Hok) as [IH1 IH2].
    unfold is_byte in Hx, Hy, Hz. cbn [encode64 app]. rewrite E1, E2, E3, E4. split.
    + do 4 (constructor; [apply digit64_char; dlia|]). done.
    + rewrite decodeQuanta_quantum by dlia. by rewrite Hq, IH2.
Qed.

Lemma encode64_clean b : bytes_ok b → Forall char64 (encode64 b).
Proof. apply encode64_shape. Qed.

Lemma decode_encode64 b : bytes_ok b → decode64 (encode64 b) = (b, true).
Proof.
  intros Hok. destruct (encode64_shape b Hok) as [Hc Hd]. unfold decode64. rewrite <- Hd. f_equal.
  clear Hd. set (t := encode64 b) in *. clearbody t. induction Hc as [|c s Hc _ IH]; [done|].
  destruct Hc as [Hc _]. rewrite filter_cons, decide_True by lia. by rewrite IH.
Qed.

Lemma encode64_nil b : encode64 b = [] → b = [].
Proof. by destruct b as [|x [|y [|z b]]]. Qed.

(** Line ends may stand anywhere in an encoded text. *)
Lemma decode64_line_ends s s' :
  filter (λ c, c ≠ 10 ∧ c ≠ 13) s = filter (λ c, c ≠ 10 ∧ c ≠ 13) s' → decode64 s = decode64 s'.
Proof. unfold decode64. by intros ->. Qed.
