(* ===== verification/TextForms.v ===== *)
(** TextForms: how the values of the root package are written as text (json.go,
    data.go, encoding.go and the text methods of public_key.go, hash.go, signature.go
    and private_key.go). The base58 and zstd codecs and the JSON decoder (sonic) are
    third-party packages and enter as classes. *)
From Stdlib Require Import ZArith Lia.
From stdpp Require Import base numbers strings list.
From S2P Require Import Prelude Keys PrivateKey Base64.

Open Scope Z_scope.

(** * The packages that are not under src/ *)

(** fluxrpc/base58, with the maximal lengths of an encoded value. A decoder returns
    its bytes and whether it succeeded; those of the fixed sizes have none of use on
    an error. *)
Class Base58Codec := {
  EncodedMaxLen32 : Z;
  Encode : bytes → bytes;
  Decode : bytes → bytes * bool;
  Encode32 : bytes → bytes;
  Decode32 : bytes → option bytes;
  Encode64 : bytes → bytes;
  Decode64 : bytes → option bytes;
}.

(** klauspost/compress/zstd: [EncodeAll] and [DecodeAll]. *)
Class ZstdCodec := {
  zstdEncodeAll : bytes → bytes;
  zstdDecodeAll : bytes → bytes * bool;
}.

(** bytedance/sonic, one level at a time: what a JSON document is, with the raw text
    of its elements and members. [sonicNames field key] tells whether the key of an
    object names the struct field, and [nullCallsMethod] whether an UnmarshalJSON
    method is called for a null. *)
Class SonicJSON := {
  sonicNull : bytes → bool;
  sonicString : bytes → option bytes;
  sonicNumber : bytes → option Z;
  sonicArray : bytes → option (list bytes);
  sonicObject : bytes → option (list (bytes * bytes));
  sonicNames : bytes → bytes → bool;
  nullCallsMethod : bool;
}.

Inductive text_err :=
  | errBase58
  | errBase64
  | errZstd
  | errSonic
  | errEncodedLength (n : Z)
  | errDecodedLength (n : Z)
  | errPrivateKeySize (n : Z)
  | errMarshalEncoding (encoding : bytes)
  | errEncoding (encoding : bytes)
  | errTupleLength (n : Z)
  | errUint8Range (v : Z) (index : nat)
  | errUnknownKind (data : bytes)
  | errInvalid (what : string) (s : bytes) (e : text_err).

Definition ofOption {A} (e : text_err) (o : option A) : outcome text_err A :=
  match o with Some a => Ok a | None => Err e end.

(** A double quote, and a JSON string without escapes around it. *)
Definition quote : Z := 34.
Definition quoted (s : bytes) : bytes := [quote] ++ s ++ [quote].

(** A call that returns a value beside its error: the value, and the error. *)
Definition withError (e : text_err) (r : bytes * bool) : bytes * option text_err :=
  (r.1, if r.2 then None else Some e).
Definition checked (e : text_err) (r : bytes * bool) : outcome text_err bytes :=
  if r.2 then Ok r.1 else Err e.
(** [*t, err = f(s); return err]: the value is assigned with its error. *)
Definition assign (r : bytes * option text_err) : GoM bytes text_err unit := λ _,
  (match r.2 with Some e => Err e | None => Ok tt end, r.1).

Section text.
Context {b58 : Base58Codec} {zst : ZstdCodec} {son : SonicJSON}.

(** * json.go *)

(** [sonic.Unmarshal(data, &s)] into a string: null leaves it empty. *)
Definition unmarshalString (data : bytes) : outcome text_err bytes :=
  if sonicNull data then Ok [] else ofOption errSonic (sonicString data).

Definition cleanChar (c : Z) : bool := negb (bool_decide (c = 92 ∨ c = quote ∨ c < 32)).

Definition jsonUnquote (data : bytes) : outcome text_err bytes :=
  let slow := unmarshalString data in
  if decide (2 ≤ len data ∧ data !! 0%nat = Some quote ∧ data !! (length data - 1)%nat = Some quote) then
    let raw := take (length data - 2) (drop 1 data) in
    if forallb cleanChar raw then Ok raw else slow
  else slow.

(** * public_key.go, hash.go, signature.go, private_key.go *)

Definition publicKeyMinEncodedLength : Z := PublicKeyLength.

Definition PublicKeyFromBase58 (input : bytes) : outcome text_err PublicKey :=
  if decide (len input < publicKeyMinEncodedLength ∨ EncodedMaxLen32 < len input) then Err (errEncodedLength (len input)) else
  match Decode32 input with
  | Some decoded => Ok decoded
  | None =>
    val ← checked errBase58 (Decode input);
    if decide (len val ≠ PublicKeyLength) then Err (errDecodedLength (len val)) else Err errBase58
  end.
Definition must {E F A} (m : outcome E A) : outcome F A := match m with Ok a => Ok a | _ => Panic end.
Definition MustPublicKeyFromBase58 {F} (input : bytes) : outcome F PublicKey := must (PublicKeyFromBase58 input).
Definition MPK {F} (input : bytes) : outcome F PublicKey := MustPublicKeyFromBase58 input.
Definition PublicKey_Equals (p pb : PublicKey) : bool := bool_decide (p = pb).
Definition PublicKey_Bytes (p : PublicKey) : bytes := p.
Definition PublicKey_String (p : PublicKey) : bytes := Encode32 p.
Definition PublicKeySlice_ToBase58 (slice : list PublicKey) : list bytes := PublicKey_String <$> slice.
Definition PublicKey_MarshalJSON (p : PublicKey) : bytes := quoted (Encode32 p).
Definition PublicKey_MarshalText (p : PublicKey) : bytes := PublicKey_String p.
Definition PublicKey_UnmarshalText (text : bytes) : outcome text_err PublicKey :=
  wrap_err (errInvalid "public key" text) (PublicKeyFromBase58 text).
(** The receiver changes only on success. *)
Definition PublicKey_UnmarshalJSON (data : bytes) : outcome text_err PublicKey :=
  s ← jsonUnquote data;
  wrap_err (errInvalid "public key" s) (PublicKeyFromBase58 s).

Definition HashFromBytes {E} (input : bytes) : outcome E Hash := PublicKeyFromBytes input.
Definition Hash_IsZero (h : Hash) : bool := bool_decide (h = zeroKey).
Definition Hash_Equals (h other : Hash) : bool := bool_decide (h = other).
Definition HashFromBase58 (input : bytes) : outcome text_err Hash := PublicKeyFromBase58 input.
Definition MustHashFromBase58 {F} (input : bytes) : outcome F Hash := must (HashFromBase58 input).
Definition Hash_MarshalJSON (h : Hash) : bytes := PublicKey_MarshalJSON h.
Definition Hash_UnmarshalJSON (data : bytes) : outcome text_err Hash :=
  s ← jsonUnquote data;
  wrap_err (errInvalid "hash" s) (HashFromBase58 s).
Definition Hash_String (h : Hash) : bytes := Encode32 h.

Definition Signature_IsZero (s : Signature) : bool := bool_decide (s = zeroSignature).
Definition Signature_Equals (s other : Signature) : bool := bool_decide (s = other).
Definition SignatureFromBase58 (input : bytes) : outcome text_err Signature := ofOption errBase58 (Decode64 input).
Definition MustSignatureFromBase58 {F} (input : bytes) : outcome F Signature := must (SignatureFromBase58 input).
Definition Signature_MarshalJSON (s : Signature) : bytes := quoted (Encode64 s).
Definition Signature_UnmarshalJSON (data : bytes) : outcome text_err Signature :=
  str ← jsonUnquote data;
  wrap_err (errInvalid "signature" str) (SignatureFromBase58 str).
Definition Signature_String (s : Signature) : bytes := Encode64 s.

Definition PrivateKeyFromBase58 (input : bytes) : outcome text_err bytes :=
  out ← checked errBase58 (Decode input);
  if decide (len out ≠ 64) then Err (errPrivateKeySize (len out)) else Ok out.
Definition MustPrivateKeyFromBase58 {F} (input : bytes) : outcome F bytes := must (PrivateKeyFromBase58 input).
Definition PrivateKey_MarshalJSON (k : bytes) : bytes := quoted (Encode k).
Definition PrivateKey_UnmarshalJSON (data : bytes) : outcome text_err bytes :=
  s ← jsonUnquote data;
  wrap_err (errInvalid "private key" s) (PrivateKeyFromBase58 s).
Definition PrivateKey_String (k : bytes) : bytes := Encode k.

(** [PrivateKeyFromSolanaKeygenFile] on what [os.ReadFile] returned. *)
Definition PrivateKeyFromSolanaKeygenFile {ed : Ed25519} (content : option bytes) : outcome (option key_err) bytes :=
  match content with
  | None => Err None
  | Some content => wrap_err Some (PrivateKeyFromSolanaKeygenFileBytes content)
  end.

(** * data.go *)

(** The types [Base58] and [Base64] of byte slices. *)
Definition Base58_MarshalJSON (t : bytes) : bytes := quoted (Encode t).
Definition Base58_UnmarshalJSON (data : bytes) : GoM bytes text_err unit :=
  s ← lift (jsonUnquote data);
  if decide (s = []) then assign ([], None) else assign (withError errBase58 (Decode s)).
Definition Base58_String (t : bytes) : bytes := Encode t.
Definition Base64_MarshalJSON (t : bytes) : bytes := quoted (encode64 t).
Definition Base64_UnmarshalJSON (data : bytes) : GoM bytes text_err unit :=
  s ← lift (jsonUnquote data);
  if decide (s = []) then assign ([], None) else assign (withError errBase64 (decode64 s)).
Definition Base64_String (t : bytes) : bytes := encode64 t.

(** Encoding names. *)
Definition EncodingBase58 : bytes := str "base58".
Definition EncodingBase64 : bytes := str "base64".
Definition EncodingBase64Zstd : bytes := str "base64+zstd".
Definition EncodingJSONParsed : bytes := str "jsonParsed".
Definition EncodingJSON : bytes := str "json".
Definition IsAnyOf (candidate : bytes) (allowed : list bytes) : bool := existsb (λ v, bool_decide (candidate = v)) allowed.

Record Data := mkData { Content : bytes; Encoding : bytes }.

(** [["content","encoding"]] around escape-free halves. *)
Definition pairJSON (content encoding : bytes) : bytes := [91; 34] ++ content ++ [34; 44; 34] ++ encoding ++ [34; 93].

Definition Data_MarshalJSON (t : Data) : outcome text_err bytes :=
  if decide (Encoding t = EncodingBase58) then Ok (pairJSON (Encode (Content t)) (Encoding t))
  else if decide (Encoding t = EncodingBase64) then Ok (pairJSON (encode64 (Content t)) (Encoding t))
  else if decide (Encoding t = EncodingBase64Zstd) then
    if decide (len (Content t) = 0) then Ok (pairJSON [] EncodingBase64Zstd)
    else Ok (pairJSON (encode64 (zstdEncodeAll (Content t))) (Encoding t))
  else if decide (Encoding t = []) then
    if decide (0 < len (Content t)) then Err (errMarshalEncoding (Encoding t)) else Ok (pairJSON [] [])
  else Err (errMarshalEncoding (Encoding t)).

(** [for i < len(data) { switch data[i] ... }]: [fuel] is the length of [data]. *)
Definition jsonSpace (c : Z) : Prop := c = 32 ∨ c = 9 ∨ c = 10 ∨ c = 13.
#[global] Instance jsonSpace_dec c : Decision (jsonSpace c).
Proof. unfold jsonSpace. apply _. Defined.
Fixpoint skipSpaceLoop (fuel : nat) (data : bytes) (i : nat) : nat :=
  match fuel with
  | O => i
  | S fuel' =>
    match data !! i with
    | Some c => if decide (jsonSpace c) then skipSpaceLoop fuel' data (S i) else i
    | None => i
    end
  end.
Definition skipJSONSpace (data : bytes) (i : nat) : nat := skipSpaceLoop (length data) data i.

(** The loop of [parseSimpleJSONString] from [i], where the string began at [start]. *)
Fixpoint simpleStringLoop (fuel : nat) (data : bytes) (start i : nat) : option (bytes * nat) :=
  match fuel with
  | O => None
  | S fuel' =>
    match data !! i with
    | None => None
    | Some c =>
      if decide (c = quote) then Some (take (i - start) (drop start data), S i)
      else if decide (c = 92 ∨ c < 32) then None
      else simpleStringLoop fuel' data start (S i)
    end
  end.
Definition parseSimpleJSONString (data : bytes) (i : nat) : option (bytes * nat) :=
  if decide (data !! i = Some quote) then simpleStringLoop (length data) data (S i) (S i) else None.

Definition parseStringPair (data : bytes) : option (bytes * bytes) :=
  let i := skipJSONSpace data 0 in
  if decide (data !! i ≠ Some 91) then None else
  '(first, i) ← parseSimpleJSONString data (skipJSONSpace data (S i));
  let i := skipJSONSpace data i in
  if decide (data !! i ≠ Some 44) then None else
  '(second, i) ← parseSimpleJSONString data (skipJSONSpace data (S i));
  let i := skipJSONSpace data i in
  if decide (data !! i ≠ Some 93) then None else
  if decide (skipJSONSpace data (S i) ≠ length data) then None else
  Some (first, second).

(** [sonic.Unmarshal(data, &in)] into a slice of strings: null elements leave them
    empty, null itself leaves no slice. *)
Fixpoint each {A} (f : bytes → outcome text_err A) (vs : list bytes) : outcome text_err (list A) :=
  match vs with
  | [] => Ok []
  | v :: vs' => a ← f v; l ← each f vs'; Ok (a :: l)
  end.
Definition unmarshalSlice {A} (f : bytes → outcome text_err A) (data : bytes) : outcome text_err (list A) :=
  if sonicNull data then Ok [] else vs ← ofOption errSonic (sonicArray data); each f vs.

Definition set_Encoding (e : bytes) (t : Data) : Data := mkData (Content t) e.
Definition set_Content (c : bytes) (t : Data) : Data := mkData c (Encoding t).

(** The two strings of the tuple. *)
Definition tupleOf (data : bytes) : outcome text_err (bytes * bytes) :=
  match parseStringPair data with
  | Some p => Ok p
  | None =>
    input ← unmarshalSlice unmarshalString data;
    match input with
    | [content; encoding] => Ok (content, encoding)
    | _ => Err (errTupleLength (len input))
    end
  end.

(** The content a non-empty text decodes to. An error of base64 in front of zstd
    leaves the receiver's content, [old], as it was. *)
Definition decodeContent (encoding content old : bytes) : bytes * option text_err :=
  if decide (encoding = EncodingBase58) then withError errBase58 (Decode content)
  else if decide (encoding = EncodingBase64) then withError errBase64 (decode64 content)
  else
    let '(compressed, ok) := decode64 content in
    if ok then withError errZstd (zstdDecodeAll compressed) else (old, Some errBase64).

Definition Data_UnmarshalJSON (data : bytes) : GoM Data text_err unit :=
  '(content, encoding) ← lift (tupleOf data);
  _ ← (if decide (encoding = EncodingBase58 ∨ encoding = EncodingBase64 ∨ encoding = EncodingBase64Zstd)
       then modify (set_Encoding encoding)
       else if decide (encoding = [] ∧ content = []) then modify (set_Encoding [])
       else throw (errEncoding encoding));
  if decide (content = []) then modify (set_Content []) else
  t ← get;
  let '(decoded, err) := decodeContent encoding content (Content t) in
  _ ← modify (set_Content decoded);
  match err with Some e => throw e | None => mret tt end.

Definition Data_String (t : Data) : bytes :=
  if decide (Encoding t = EncodingBase58) then Encode (Content t)
  else if decide (Encoding t = EncodingBase64) then encode64 (Content t)
  else if decide (Encoding t = EncodingBase64Zstd) then encode64 (zstdEncodeAll (Content t))
  else [].
Definition Data_GetBinary (t : Data) : bytes := Content t.
End text.
