(* ===== verification/RpcTypes.v ===== *)
(** RpcTypes: the result types of the RPC that the caches and the stream conversions
    build (rpc/account.go, data_bytes_or_json.go, transaction_meta.go,
    inner_instruction.go, token_balance.go, reward.go, loaded_addresses.go,
    return_data.go). *)
From Stdlib Require Import ZArith Lia.
From stdpp Require Import base numbers strings list.
From S2P Require Import Prelude Keys Base64 TextForms.

Open Scope Z_scope.

(** * data_bytes_or_json.go *)

(** Data that came as an encoded pair, or as JSON whose text is kept; no text is
    [None]. *)
Record DataBytesOrJSON := mkDataBytesOrJSON {
  rawDataEncoding : bytes;
  asDecodedBinary : Data;
  asJSON : option bytes;
}.
Definition zeroDataBytesOrJSON : DataBytesOrJSON := mkDataBytesOrJSON [] (mkData [] []) None.

Definition DataBytesOrJSONFromBytes (data : bytes) : DataBytesOrJSON :=
  mkDataBytesOrJSON EncodingBase64 (mkData data EncodingBase64) None.

Definition DataBytesOrJSONFromBase64 (stringBase64 : bytes) : outcome text_err DataBytesOrJSON :=
  decodedData ← checked errBase64 (Base64.decode64 stringBase64);
  Ok (DataBytesOrJSONFromBytes decodedData).

Section json.
Context {b58 : Base58Codec} {zst : ZstdCodec} {son : SonicJSON}.

Definition DataBytesOrJSON_MarshalJSON (dt : DataBytesOrJSON) : outcome text_err bytes :=
  if decide (rawDataEncoding dt = EncodingJSONParsed ∨ rawDataEncoding dt = EncodingJSON) then
    match asJSON dt with None => Ok (str "null") | Some text => Ok text end
  else Data_MarshalJSON (asDecodedBinary dt).

Definition set_rawDataEncoding e (w : DataBytesOrJSON) := mkDataBytesOrJSON e (asDecodedBinary w) (asJSON w).
Definition set_asDecodedBinary d (w : DataBytesOrJSON) := mkDataBytesOrJSON (rawDataEncoding w) d (asJSON w).
Definition set_asJSON t (w : DataBytesOrJSON) := mkDataBytesOrJSON (rawDataEncoding w) (asDecodedBinary w) (Some t).

(** A method of the embedded data, run on [wrap.asDecodedBinary]. *)
Definition on_data (m : GoM Data text_err unit) : GoM DataBytesOrJSON text_err unit := λ w,
  let '(r, d) := m (asDecodedBinary w) in (r, set_asDecodedBinary d w).

Definition DataBytesOrJSON_UnmarshalJSON (data : bytes) : GoM DataBytesOrJSON text_err unit :=
  if decide (len data = 0 ∨ data = str "null") then mret tt else
  c ← lift (idx data 0);
  if decide (c = 91) then
    _ ← on_data (Data_UnmarshalJSON data);
    modify (λ w, set_rawDataEncoding (Encoding (asDecodedBinary w)) w)
  else if decide (c = 123) then
    _ ← modify (set_asJSON data);
    modify (set_rawDataEncoding EncodingJSONParsed)
  else throw (errUnknownKind data).
End json.

(** On a nil pointer there is nothing. *)
Definition GetBinary (dt : option DataBytesOrJSON) : bytes :=
  match dt with None => [] | Some dt => Content (asDecodedBinary dt) end.
Definition GetRawJSON (dt : DataBytesOrJSON) : option bytes := asJSON dt.

(** * The accounts, and the results of a transaction *)

Record Account := mkAccount {
  Lamports : Z;
  Owner : PublicKey;
  AccountData : option DataBytesOrJSON;
  Executable : bool;
  RentEpoch : option Z;
  Space : Z;
}.

Record CompiledInstruction := mkCompiledInstruction {
  ProgramIDIndex : Z;
  Accounts : list Z;
  InsData : bytes;
  StackHeight : Z;
}.

Record InnerInstruction := mkInnerInstruction {
  Index : Z;
  Instructions : list CompiledInstruction;
}.

(** A float64 is its 64 bits. *)
Record UiTokenAmount := mkUiTokenAmount {
  Amount : bytes;
  Decimals : Z;
  UiAmount : option Z;
  UiAmountString : bytes;
}.

Record TokenBalance := mkTokenBalance {
  AccountIndex : Z;
  BalanceOwner : option PublicKey;
  BalanceProgramId : option PublicKey;
  Mint : PublicKey;
  UiTokenAmountOf : option UiTokenAmount;
}.

Record BlockReward := mkBlockReward {
  Pubkey : PublicKey;
  RewardLamports : Z;
  PostBalance : Z;
  RewardType : bytes;
  Commission : option Z;
  CommissionBps : option Z;
}.

Record LoadedAddresses := mkLoadedAddresses {
  ReadOnly : list PublicKey;
  Writable : list PublicKey;
}.

Record ReturnData := mkReturnData {
  ProgramId : PublicKey;
  ReturnBytes : Data;
}.
Definition zeroReturnData : ReturnData := mkReturnData zeroKey (mkData [] []).

(** [Err] is nil or what the source of the transaction reports, an [any]; the
    deprecated [Status] is never set here. *)
Record TransactionMeta {error : Type} := mkTransactionMeta {
  Err_ : option error;
  Fee : Z;
  PreBalances : list Z;
  PostBalances : list Z;
  InnerInstructions : list InnerInstruction;
  PreTokenBalances : list TokenBalance;
  PostTokenBalances : list TokenBalance;
  LogMessages : list bytes;
  Rewards : list BlockReward;
  LoadedAddressesOf : LoadedAddresses;
  ReturnDataOf : ReturnData;
  ComputeUnitsConsumed : option Z;
  CostUnits : option Z;
}.
Arguments TransactionMeta : clear implicits.
