(* ===== verification/MessageJson.v ===== *)
(** MessageJson: the JSON and base64 forms of messages and transactions (message.go,
    transaction.go, transaction_v1.go): the writers that append the document to one
    buffer, and the readers on top of sonic's decoding of the struct types. *)
From Stdlib Require Import ZArith Lia.
From stdpp Require Import base numbers strings list.
From S2P Require Import Prelude Keys Message PrivateKey Transaction TransactionV1 Base64 TextForms.

Open Scope Z_scope.

(** * Package strconv: AppendUint in base 10 *)

(** [fuel] digits at most; 20 are enough for an uint64. *)
Fixpoint uintDigits (fuel : nat) (n : Z) : bytes :=
  match fuel with
  | O => []
  | S fuel' => (if decide (n < 10) then [] else uintDigits fuel' (n / 10)) ++ [48 + n mod 10]
  end.
Definition AppendUint (buf : bytes) (n : Z) : bytes := buf ++ uintDigits 20 n.

Section json.
Context {b58 : Base58Codec} {zst : ZstdCodec} {son : SonicJSON}.

(** * Writers *)

(** [for i := range xs { if i > 0 { buf = append(buf, ',') }; ... }]. *)
Fixpoint appendFrom {A} (put : bytes → A → bytes) (i : nat) (xs : list A) (buf : bytes) : bytes :=
  match xs with
  | [] => buf
  | x :: xs' => appendFrom put (S i) xs' (put (if decide (0 < i)%nat then buf ++ [44] else buf) x)
  end.
Definition appendList {A} (put : bytes → A → bytes) (xs : list A) (buf : bytes) : bytes := appendFrom put 0 xs buf.

Definition appendUint8Array (buf values : bytes) : bytes :=
  appendList AppendUint values (buf ++ str "[") ++ str "]".

Definition appendKey (buf : bytes) (k : PublicKey) : bytes := (buf ++ [quote]) ++ Encode32 k ++ [quote].

Definition appendInstructionJSON (buf : bytes) (ins : CompiledInstruction) : bytes :=
  let buf := buf ++ str "{" ++ quoted (str "programIdIndex") ++ str ":" in
  let buf := AppendUint buf (ProgramIDIndex ins) in
  let buf := buf ++ str "," ++ quoted (str "accounts") ++ str ":[" in
  let buf := appendList AppendUint (AccountIndexes ins) buf in
  let buf := buf ++ str "]," ++ quoted (str "data") ++ str ":" ++ [quote] in
  let buf := buf ++ Encode (InsData ins) in
  buf ++ [quote] ++ str "}".

Definition appendLookupJSON (buf : bytes) (lookup : MessageAddressTableLookup) : bytes :=
  let buf := buf ++ str "{" ++ quoted (str "accountKey") ++ str ":" ++ [quote] in
  let buf := buf ++ Encode32 (AccountKey lookup) in
  let buf := buf ++ [quote] ++ str "," ++ quoted (str "writableIndexes") ++ str ":" in
  let buf := appendUint8Array buf (WritableIndexes lookup) in
  let buf := buf ++ str "," ++ quoted (str "readonlyIndexes") ++ str ":" in
  let buf := appendUint8Array buf (ReadonlyIndexes lookup) in
  buf ++ str "}".

Definition Message_MarshalJSON (mx : Message) : bytes :=
  let buf := str "{" ++ quoted (str "accountKeys") ++ str ":[" in
  let buf := appendList appendKey (AccountKeys mx) buf in
  let buf := buf ++ str "]," ++ quoted (str "header") ++ str ":{" ++ quoted (str "numRequiredSignatures") ++ str ":" in
  let buf := AppendUint buf (NumRequiredSignatures (Header mx)) in
  let buf := buf ++ str "," ++ quoted (str "numReadonlySignedAccounts") ++ str ":" in
  let buf := AppendUint buf (NumReadonlySignedAccounts (Header mx)) in
  let buf := buf ++ str "," ++ quoted (str "numReadonlyUnsignedAccounts") ++ str ":" in
  let buf := AppendUint buf (NumReadonlyUnsignedAccounts (Header mx)) in
  let buf := buf ++ str "}," ++ quoted (str "recentBlockhash") ++ str ":" ++ [quote] in
  let buf := buf ++ Encode32 (RecentBlockhash mx) in
  let buf := buf ++ [quote] ++ str "," ++ quoted (str "instructions") ++ str ":[" in
  let buf := appendList appendInstructionJSON (Instructions mx) buf in
  let buf := buf ++ str "]" in
  let buf :=
    if decide (version mx ≠ MessageVersionLegacy) then
      let buf := buf ++ str "," ++ quoted (str "addressTableLookups") ++ str ":[" in
      let buf := appendList appendLookupJSON (AddressTableLookups mx) buf in
      buf ++ str "]"
    else buf in
  buf ++ str "}".

Definition appendSignature (buf : bytes) (s : Signature) : bytes := (buf ++ [quote]) ++ Encode64 s ++ [quote].

Definition Transaction_MarshalJSON (tx : Transaction) : bytes :=
  let message := Message_MarshalJSON (TxMessage tx) in
  let buf := str "{" ++ quoted (str "signatures") ++ str ":[" in
  let buf := appendList appendSignature (Signatures tx) buf in
  let buf := buf ++ str "]," ++ quoted (str "message") ++ str ":" in
  (buf ++ message) ++ str "}".

(** * Readers *)

(** How [sonic.Unmarshal] stores a value of a document over the old value of its
    target, by the target's type. *)
Definition Reader (A : Type) : Type := A → bytes → outcome text_err A.

(** An unsigned integer below [bound]. *)
Definition readUint (bound : Z) : Reader Z := λ old data,
  if sonicNull data then Ok old else
  n ← ofOption errSonic (sonicNumber data);
  if decide (0 ≤ n < bound) then Ok n else Err errSonic.

(** A type with an UnmarshalJSON method. *)
Definition viaMethod {A} (method : bytes → outcome text_err A) : Reader A := λ old data,
  if sonicNull data && negb nullCallsMethod then Ok old else method data.

Definition readSlice {A} (zero : A) (r : Reader A) : Reader (list A) := λ _ data, unmarshalSlice (r zero) data.

(** A struct: its fields by name, with the reader of each over the struct. The
    members of the object are stored in their order; those without a field are
    skipped. *)
Fixpoint readMembers {S} (fields : list (bytes * Reader S)) (members : list (bytes * bytes)) (s : S) : outcome text_err S :=
  match members with
  | [] => Ok s
  | (key, value) :: members' =>
    s ← match list_find (λ f, sonicNames f.1 key) fields with
        | Some (_, (_, r)) => r s value
        | None => Ok s
        end;
    readMembers fields members' s
  end.
Definition readStruct {S} (fields : list (bytes * Reader S)) : Reader S := λ old data,
  if sonicNull data then Ok old else
  members ← ofOption errSonic (sonicObject data);
  readMembers fields members old.

(** A field of a struct: [get] it, read over it, [set] it. *)
Definition readField {S A} (name : string) (get : S → A) (set : A → S → S) (r : Reader A) : bytes * Reader S :=
  (str name, λ s data, a ← r (get s) data; Ok (set a s)).

(** [Uint8SliceAsNum]. *)
Definition Uint8SliceAsNum_MarshalJSON (slice : bytes) : bytes := appendUint8Array [] slice.
Fixpoint checkUint8 (i : nat) (values : list Z) : outcome text_err bytes :=
  match values with
  | [] => Ok []
  | v :: values' =>
    if decide (255 < v) then Err (errUint8Range v i) else out ← checkUint8 (S i) values'; Ok (u8 v :: out)
  end.
Definition Uint8SliceAsNum_UnmarshalJSON (data : bytes) : outcome text_err bytes :=
  values ← unmarshalSlice (readUint 65536 0) data;
  checkUint8 0 values.

Definition readBase58 : Reader bytes := λ old data,
  if sonicNull data && negb nullCallsMethod then Ok old else
  match Base58_UnmarshalJSON data old with
  | (Ok _, t) => Ok t
  | (Err e, _) => Err e
  | (Panic, _) => Panic
  end.

Definition readHeader : Reader MessageHeader :=
  readStruct [
    readField "numRequiredSignatures" NumRequiredSignatures
      (λ v h, mkMessageHeader v (NumReadonlySignedAccounts h) (NumReadonlyUnsignedAccounts h)) (readUint 256);
    readField "numReadonlySignedAccounts" NumReadonlySignedAccounts
      (λ v h, mkMessageHeader (NumRequiredSignatures h) v (NumReadonlyUnsignedAccounts h)) (readUint 256);
    readField "numReadonlyUnsignedAccounts" NumReadonlyUnsignedAccounts
      (λ v h, mkMessageHeader (NumRequiredSignatures h) (NumReadonlySignedAccounts h) v) (readUint 256)].

Definition readInstruction : Reader CompiledInstruction :=
  readStruct [
    readField "programIdIndex" ProgramIDIndex
      (λ v ins, mkCompiledInstruction v (AccountIndexes ins) (InsData ins)) (readUint 65536);
    readField "accounts" AccountIndexes
      (λ v ins, mkCompiledInstruction (ProgramIDIndex ins) v (InsData ins)) (readSlice 0 (readUint 65536));
    readField "data" InsData
      (λ v ins, mkCompiledInstruction (ProgramIDIndex ins) (AccountIndexes ins) v) readBase58].

Definition readLookup : Reader MessageAddressTableLookup :=
  readStruct [
    readField "accountKey" AccountKey
      (λ v l, mkLookup v (WritableIndexes l) (ReadonlyIndexes l)) (viaMethod PublicKey_UnmarshalJSON);
    readField "writableIndexes" WritableIndexes
      (λ v l, mkLookup (AccountKey l) v (ReadonlyIndexes l)) (viaMethod Uint8SliceAsNum_UnmarshalJSON);
    readField "readonlyIndexes" ReadonlyIndexes
      (λ v l, mkLookup (AccountKey l) (WritableIndexes l) v) (viaMethod Uint8SliceAsNum_UnmarshalJSON)].

(** The struct [aux] of [Message.UnmarshalJSON]. *)
Record messageAux := mkAux {
  auxAccountKeys : list PublicKey;
  auxHeader : MessageHeader;
  auxRecentBlockhash : Hash;
  auxInstructions : list CompiledInstruction;
  auxLookups : option bytes;
}.
Definition zeroAux : messageAux := mkAux [] zeroHeader zeroKey [] None.

Definition readAux : Reader messageAux :=
  readStruct [
    readField "accountKeys" auxAccountKeys
      (λ v a, mkAux v (auxHeader a) (auxRecentBlockhash a) (auxInstructions a) (auxLookups a))
      (readSlice zeroKey (viaMethod PublicKey_UnmarshalJSON));
    readField "header" auxHeader
      (λ v a, mkAux (auxAccountKeys a) v (auxRecentBlockhash a) (auxInstructions a) (auxLookups a)) readHeader;
    readField "recentBlockhash" auxRecentBlockhash
      (λ v a, mkAux (auxAccountKeys a) (auxHeader a) v (auxInstructions a) (auxLookups a))
      (viaMethod Hash_UnmarshalJSON);
    readField "instructions" auxInstructions
      (λ v a, mkAux (auxAccountKeys a) (auxHeader a) (auxRecentBlockhash a) v (auxLookups a))
      (readSlice zeroInstruction readInstruction);
    readField "addressTableLookups" auxLookups
      (λ v a, mkAux (auxAccountKeys a) (auxHeader a) (auxRecentBlockhash a) (auxInstructions a) v)
      (λ _ data, Ok (if sonicNull data then None else Some data))].

(** The message on success: every field but the version's is one of the document's,
    so nothing of the old value is left. *)
Definition Message_UnmarshalJSON (data : bytes) : outcome text_err Message :=
  aux ← readAux zeroAux data;
  match auxLookups aux with
  | None =>
    Ok (mkMessage MessageVersionLegacy (auxAccountKeys aux) (auxHeader aux) (auxRecentBlockhash aux)
          (auxInstructions aux) [])
  | Some raw =>
    lookups ← unmarshalSlice (readLookup zeroLookup) raw;
    Ok (mkMessage MessageVersionV0 (auxAccountKeys aux) (auxHeader aux) (auxRecentBlockhash aux)
          (auxInstructions aux) lookups)
  end.

(** The transaction on success: a member that the document does not have keeps its
    old value. *)
Definition Transaction_UnmarshalJSON : Reader Transaction :=
  readStruct [
    readField "signatures" Signatures (λ v tx, mkTransaction v (TxMessage tx))
      (readSlice zeroSignature (viaMethod Signature_UnmarshalJSON));
    readField "message" TxMessage (λ v tx, mkTransaction (Signatures tx) v) (viaMethod Message_UnmarshalJSON)].

(** * Base64 and base58 of the wire formats *)

(** [out, _ := mx.MarshalBinary()]: nothing is encoded on an error. *)
Definition Message_ToBase64 (mx : Message) : bytes :=
  encode64 (match Message.MarshalBinary mx with Ok out => out | _ => [] end).
Definition UnmarshalBase64 (b64 : bytes) (mx : Message) : outcome text_err (outcome message_err unit * Message) :=
  data ← checked errBase64 (decode64 b64);
  Ok (Message.UnmarshalBinary data mx).

Context {ed : Ed25519}.

Definition Transaction_ToBase64 (tx : Transaction) : bytes :=
  encode64 (match Transaction.MarshalBinary tx with Ok out => out | _ => [] end).
Definition MustTransactionFromBytes {F} (data : bytes) : outcome F Transaction := must (TransactionFromBytes data).
Definition TransactionFromBase64 (b64 : bytes) : outcome text_err (outcome transaction_err Transaction) :=
  data ← checked errBase64 (decode64 b64);
  Ok (TransactionFromBytes data).
Definition TransactionFromBase58 (text : bytes) : outcome text_err (outcome transaction_err Transaction) :=
  data ← checked errBase58 (Decode text);
  Ok (TransactionFromBytes data).

Definition TransactionV1FromBase64 (b64 : bytes) : outcome text_err (outcome v1_err TransactionV1) :=
  data ← checked errBase64 (decode64 b64);
  Ok (TransactionV1FromBytes data).
Definition TransactionV1_ToBase64 (tx : TransactionV1) : outcome text_err bytes :=
  match TransactionV1.MarshalBinary tx with Ok data => Ok (encode64 data) | _ => Panic end.
End json.
