(* ===== verification/JsonText.v ===== *)
(** JsonText: the JSON grammar the writers of this module stay within, what their
    readers rely on of sonic, base58 and zstd ([SonicLaws], [Base58Laws],
    [ZstdLaws]), and instances of the three that keep these laws: a one-level JSON
    scanner, a toy base58 of two letters per byte and a toy zstd that stores. *)
From Stdlib Require Import ZArith Lia.
From stdpp Require Import base numbers strings sets list.
From S2P Require Import Prelude Keys Base64 TextForms MessageJson.

Open Scope Z_scope.

(** * The grammar *)

Abbreviation blank := (Forall jsonSpace).

(** A character that stands for itself in a JSON string. *)
Definition plainChar (c : Z) : Prop := 32 ≤ c ∧ c ≠ quote ∧ c ≠ 92.
#[global] Instance plainChar_dec c : Decision (plainChar c).
Proof. unfold plainChar. apply _. Defined.
Abbreviation plain := (Forall plainChar).

(** JSON texts of numbers without sign, plain strings, arrays and objects, with the
    elements of an array and the members of an object. *)
Inductive JSONText : bytes → Prop :=
  | json_number n : 0 ≤ n < 2 ^ 64 → JSONText (uintDigits 20 n)
  | json_string s : plain s → JSONText (quoted s)
  | json_array vs t : Elements vs t → JSONText (91 :: t ++ [93])
  | json_object ms t : Members ms t → JSONText (123 :: t ++ [125])
with Elements : list bytes → bytes → Prop :=
  | elements_none w : blank w → Elements [] w
  | elements_one v w w' : JSONText v → blank w → blank w' → Elements [v] (w ++ v ++ w')
  | elements_cons v w w' v' vs t :
    JSONText v → blank w → blank w' → Elements (v' :: vs) t → Elements (v :: v' :: vs) (w ++ v ++ w' ++ 44 :: t)
with Members : list (bytes * bytes) → bytes → Prop :=
  | members_one k v : plain k → JSONText v → Members [(k, v)] (quoted k ++ 58 :: v)
  | members_cons k v m ms t :
    plain k → JSONText v → Members (m :: ms) t → Members ((k, v) :: m :: ms) (quoted k ++ 58 :: v ++ 44 :: t).

Scheme JSONText_mind := Minimality for JSONText Sort Prop
  with Elements_mind := Minimality for Elements Sort Prop
  with Members_mind := Minimality for Members Sort Prop.
Combined Scheme json_mutind from JSONText_mind, Elements_mind, Members_mind.

(** * What is relied on *)

(** The names of the struct fields that JSON is read into. *)
Definition fieldNames : list bytes := str <$> [
  "accountKeys"; "header"; "recentBlockhash"; "instructions"; "addressTableLookups";
  "numRequiredSignatures"; "numReadonlySignedAccounts"; "numReadonlyUnsignedAccounts";
  "programIdIndex"; "accounts"; "data"; "accountKey"; "writableIndexes"; "readonlyIndexes";
  "signatures"; "message"]%string.

(** sonic decodes the documents of the grammar, white space around them included,
    and tells the names of the fields apart. *)
Class SonicLaws (son : SonicJSON) : Prop := {
  sonic_not_null w v w' : blank w → JSONText v → blank w' → sonicNull (w ++ v ++ w') = false;
  sonic_string w s w' : blank w → plain s → blank w' → sonicString (w ++ quoted s ++ w') = Some s;
  sonic_number n : 0 ≤ n < 2 ^ 64 → sonicNumber (uintDigits 20 n) = Some n;
  sonic_array w vs t w' : blank w → Elements vs t → blank w' → sonicArray (w ++ 91 :: t ++ 93 :: w') = Some vs;
  sonic_object ms t : Members ms t → sonicObject (123 :: t ++ [125]) = Some ms;
  sonic_names f k : f ∈ fieldNames → k ∈ fieldNames → sonicNames f k = bool_decide (f = k);
}.

Class Base58Laws (b58 : Base58Codec) : Prop := {
  Encode_plain b : bytes_ok b → plain (Encode b);
  Encode_nil b : bytes_ok b → Encode b = [] → b = [];
  Decode_Encode b : bytes_ok b → Decode (Encode b) = (b, true);
  Encode32_plain k : key_ok k → plain (Encode32 k);
  Encode32_length k : key_ok k → PublicKeyLength ≤ len (Encode32 k) ≤ EncodedMaxLen32;
  Decode32_Encode32 k : key_ok k → Decode32 (Encode32 k) = Some k;
  Encode64_plain s : sig_ok s → plain (Encode64 s);
  Decode64_Encode64 s : sig_ok s → Decode64 (Encode64 s) = Some s;
}.

(** The memory limit that data.go names for its decoder: what is compressed is
    recovered up to this size. *)
Definition zstdLimit : Z := 64 * 2 ^ 20.
Class ZstdLaws (zst : ZstdCodec) : Prop := {
  zstd_ok b : bytes_ok b → bytes_ok (zstdEncodeAll b);
  zstd_nil b : bytes_ok b → zstdEncodeAll b = [] → b = [];
  zstd_inverse b : bytes_ok b → len b ≤ zstdLimit → zstdDecodeAll (zstdEncodeAll b) = (b, true);
}.

(** * A scanner *)

(** The pieces of [t] between the separators [sep] outside of strings and brackets:
    [d] brackets are open, [q] tells whether a string is. *)
Fixpoint pieces (sep : Z) (d : nat) (q : bool) (cur t : bytes) : list bytes :=
  match t with
  | [] => [cur]
  | c :: t' =>
    if q then pieces sep d (negb (bool_decide (c = quote))) (cur ++ [c]) t'
    else if decide (c = quote) then pieces sep d true (cur ++ [c]) t'
    else if decide (c = 91 ∨ c = 123) then pieces sep (S d) false (cur ++ [c]) t'
    else if decide (c = 93 ∨ c = 125) then pieces sep (pred d) false (cur ++ [c]) t'
    else if decide (c = sep ∧ d = 0%nat) then cur :: pieces sep 0 false [] t'
    else pieces sep d false (cur ++ [c]) t'
  end.

Fixpoint trimLeft (t : bytes) : bytes :=
  match t with
  | c :: t' => if decide (jsonSpace c) then trimLeft t' else t
  | [] => []
  end.
Definition trim (t : bytes) : bytes := reverse (trimLeft (reverse (trimLeft t))).

(** The text between a first and a last character. *)
Definition between (o c : Z) (t : bytes) : option bytes :=
  match t with
  | x :: t' => if decide (x = o ∧ last t' = Some c) then Some (removelast t') else None
  | [] => None
  end.

Definition scanDigits (t : bytes) : option Z :=
  if decide (t ≠ [] ∧ Forall (λ c, 48 ≤ c ≤ 57) t) then Some (foldl (λ v c, v * 10 + (c - 48)) 0 t) else None.
Definition scanString (t : bytes) : option bytes :=
  s ← between quote quote (trim t); if decide (plain s) then Some s else None.
Definition scanArray (t : bytes) : option (list bytes) :=
  b ← between 91 93 (trim t);
  Some (if decide (trim b = []) then [] else trim <$> pieces 44 0 false [] b).
Definition scanMember (m : bytes) : option (bytes * bytes) :=
  match pieces 58 0 false [] m with
  | [k; v] => k ← scanString k; Some (k, v)
  | _ => None
  end.
Definition scanObject (t : bytes) : option (list (bytes * bytes)) :=
  b ← between 123 125 (trim t); mapM scanMember (pieces 44 0 false [] b).

Definition scanJSON : SonicJSON := {|
  sonicNull t := bool_decide (trim t = str "null");
  sonicString := scanString;
  sonicNumber := scanDigits;
  sonicArray := scanArray;
  sonicObject := scanObject;
  sonicNames f k := bool_decide (f = k);
  nullCallsMethod := false;
|}.

(** Two letters per byte. *)
Definition toyEncode (b : bytes) : bytes := b ≫= λ x, [97 + x / 16; 97 + x mod 16].
Fixpoint toyDecode (t : bytes) : option bytes :=
  match t with
  | [] => Some []
  | x :: y :: t' =>
    if decide (97 ≤ x < 113 ∧ 97 ≤ y < 113) then b ← toyDecode t'; Some (16 * (x - 97) + (y - 97) :: b) else None
  | _ => None
  end.
Definition sized (n : Z) (o : option bytes) : option bytes :=
  b ← o; if decide (len b = n) then Some b else None.
Definition toyBase58 : Base58Codec := {|
  EncodedMaxLen32 := 64;
  Encode := toyEncode;
  Decode t := match toyDecode t with Some b => (b, true) | None => ([], false) end;
  Encode32 := toyEncode;
  Decode32 t := sized 32 (toyDecode t);
  Encode64 := toyEncode;
  Decode64 t := sized 64 (toyDecode t);
|}.
Definition toyZstd : ZstdCodec := {|
  zstdEncodeAll b := 40 :: b;
  zstdDecodeAll t := match t with 40 :: b => (b, true) | _ => ([], false) end;
|}.

(** * Numbers *)

Lemma uintDigits_digits fuel n : 0 ≤ n → Forall (λ c, 48 ≤ c ≤ 57) (uintDigits fuel n).
Proof.
  revert n. induction fuel as [|fuel IH]; intros n Hn; [constructor|]. cbn [uintDigits].
  apply Forall_app_2; [|constructor; [dlia|constructor]].
  case_decide; [constructor|]. apply IH. dlia.
Qed.

Lemma uintDigits_nonempty fuel n : uintDigits (S fuel) n ≠ [].
Proof. cbn [uintDigits]. by intros [_ ?]%app_nil. Qed.

Lemma uintDigits_value fuel n :
  0 ≤ n < 10 ^ Z.of_nat fuel → foldl (λ v c, v * 10 + (c - 48)) 0 (uintDigits fuel n) = n.
Proof.
  revert n. induction fuel as [|fuel IH]; intros n Hn; [simpl in *; lia|]. cbn [uintDigits].
  rewrite foldl_app. cbn [foldl]. case_decide as Hs; cbn [foldl]; [dlia|].
  rewrite Nat2Z.inj_succ, Z.pow_succ_r in Hn by lia. rewrite IH by dlia. dlia.
Qed.

Lemma scanDigits_uint n : 0 ≤ n < 2 ^ 64 → scanDigits (uintDigits 20 n) = Some n.
Proof.
  intros Hn. unfold scanDigits. rewrite decide_True.
  - rewrite uintDigits_value; [done|]. change (10 ^ Z.of_nat 20) with 100000000000000000000.
    change (2 ^ 64) with 18446744073709551616 in Hn. lia.
  - split; [apply uintDigits_nonempty | apply uintDigits_digits; lia].
Qed.

(** * White space around a text *)

Lemma trimLeft_blank w t : blank w → trimLeft (w ++ t) = trimLeft t.
Proof. induction 1 as [|c w Hc _ IH]; [done|]. cbn [app trimLeft]. by rewrite decide_True. Qed.

Lemma trimLeft_stay t : (∀ c, head t = Some c → ¬ jsonSpace c) → trimLeft t = t.
Proof. destruct t as [|c t]; [done|]. intros H. cbn [trimLeft]. rewrite decide_False; [done|]. by apply H. Qed.

(** A text that neither begins nor ends with white space. *)
Definition tight (v : bytes) : Prop :=
  v ≠ [] ∧ (∀ c, head v = Some c → ¬ jsonSpace c) ∧ (∀ c, last v = Some c → ¬ jsonSpace c).

Lemma head_reverse {A} (l : list A) : head (reverse l) = last l.
Proof. induction l as [|x l _] using rev_ind; [done|]. by rewrite reverse_app, last_snoc. Qed.

Lemma trim_tight w v w' : blank w → tight v → blank w' → trim (w ++ v ++ w') = v.
Proof.
  intros Hw (Hne & Hh & Hl) Hw'. unfold trim. rewrite trimLeft_blank by done.
  rewrite (trimLeft_stay (v ++ w')) by (destruct v; [done|exact Hh]). rewrite reverse_app, trimLeft_blank.
  - rewrite trimLeft_stay; [by rewrite reverse_involutive|]. intros c Hc. apply Hl. by rewrite <- head_reverse.
  - by apply Forall_reverse.
Qed.

Lemma trim_blank w : blank w → trim w = [].
Proof. intros Hw. unfold trim. rewrite <- (app_nil_r w), trimLeft_blank by done. done. Qed.

Lemma tight_ends o u c : ¬ jsonSpace o → ¬ jsonSpace c → tight (o :: u ++ [c]).
Proof.
  intros Ho Hc. split; [done|]. split; [by intros ? [= <-]|].
  intros x. rewrite app_comm_cons, last_snoc. by intros [= <-].
Qed.

Lemma digit_no_space c : 48 ≤ c ≤ 57 → ¬ jsonSpace c.
Proof. unfold jsonSpace. lia. Qed.

Lemma JSONText_tight v : JSONText v → tight v.
Proof.
  destruct 1 as [n Hn|s _|vs t _|ms t _]; [|apply tight_ends; unfold jsonSpace, quote; lia..].
  pose proof (uintDigits_digits 20 n ltac:(lia)) as Hd. split; [apply uintDigits_nonempty|].
  split; intros c Hc; apply digit_no_space.
  - destruct (uintDigits 20 n) as [|d ds]; [done|]. injection Hc as ->. by apply Forall_cons in Hd as [? _].
  - apply last_Some in Hc as [l El]. rewrite El, Forall_app, Forall_singleton in Hd. by destruct Hd.
Qed.

Lemma between_ends o u c : between o c (o :: u ++ [c]) = Some u.
Proof.
  cbn [between]. rewrite decide_True by (split; [done|]; apply last_snoc).
  f_equal. by rewrite removelast_last.
Qed.

Lemma trim_between o u c w w' :
  ¬ jsonSpace o → ¬ jsonSpace c → blank w → blank w' → between o c (trim (w ++ o :: u ++ c :: w')) = Some u.
Proof.
  intros. replace (w ++ o :: u ++ c :: w') with (w ++ (o :: u ++ [c]) ++ w') by (by simpl; rewrite <- !app_assoc).
  rewrite trim_tight by auto using tight_ends. apply between_ends.
Qed.

(** * The pieces of a text *)

Lemma not_special c : c < 34 ∨ 34 < c < 91 → c ∉ [quote; 91; 123; 93; 125].
Proof. unfold quote. intros H Hc. set_unfold. lia. Qed.

Section pieces.
Context (sep : Z) (Hsep : sep = 44 ∨ sep = 58).

(** [v] holds no separator that splits at depth [d], and leaves the depth. *)
Definition passes (d : nat) (v : bytes) : Prop :=
  ∀ cur t, pieces sep d false cur (v ++ t) = pieces sep d false (cur ++ v) t.

Lemma passes_nil d : passes d [].
Proof. intros cur t. by rewrite app_nil_r. Qed.

Lemma passes_app d u v : passes d u → passes d v → passes d (u ++ v).
Proof. intros Hu Hv cur t. rewrite <- app_assoc, Hu, Hv. by rewrite app_assoc. Qed.

Lemma passes_char d c :
  c ∉ [quote; 91; 123; 93; 125] → (c ≠ sep ∨ d ≠ 0%nat) → passes d [c].
Proof.
  intros Hc Hs cur t. cbn [app pieces].
  rewrite !decide_False; [done|intros [??]; naive_solver|..]; intros ?; apply Hc; set_unfold; naive_solver.
Qed.

Lemma passes_Forall d v : Forall (λ c, c ∉ [quote; 91; 123; 93; 125] ∧ c ≠ sep) v → passes d v.
Proof.
  induction 1 as [|c v [Hc Hs] _ IH]; [apply passes_nil|].
  apply (passes_app d [c] v); [apply passes_char; auto|done].
Qed.

Lemma passes_bracket d o u c :
  o = 91 ∨ o = 123 → c = 93 ∨ c = 125 → passes (S d) u → passes d (o :: u ++ [c]).
Proof.
  intros Ho Hc Hu cur t. unfold quote in *. cbn [app pieces]. rewrite <- app_assoc.
  rewrite decide_False by (unfold quote; lia). rewrite decide_True by done. rewrite Hu. cbn [app pieces].
  rewrite decide_False by (unfold quote; lia). rewrite decide_False by lia. rewrite decide_True by done.
  cbn [pred]. by rewrite <- !app_assoc.
Qed.

Lemma pieces_in_string d cur s t : plain s → pieces sep d true cur (s ++ t) = pieces sep d true (cur ++ s) t.
Proof.
  intros Hs. revert cur. induction Hs as [|c s (H1 & H2 & H3) _ IH]; intros cur; [by rewrite app_nil_r|].
  cbn [app pieces]. rewrite bool_decide_eq_false_2 by done. cbn [negb]. by rewrite IH, <- app_assoc.
Qed.

Lemma passes_quoted d s : plain s → passes d (quoted s).
Proof.
  intros Hs cur t. unfold quoted. cbn [app pieces]. rewrite decide_True by done. rewrite <- app_assoc.
  rewrite pieces_in_string by done. cbn [app pieces]. rewrite bool_decide_eq_true_2 by done. cbn [negb].
  by rewrite <- !app_assoc.
Qed.

Lemma passes_blank d w : blank w → passes d w.
Proof.
  intros Hw. apply passes_Forall. eapply Forall_impl; [done|]. unfold jsonSpace. intros c Hc.
  split; [apply not_special; lia|lia].
Qed.

Lemma passes_grammar :
  (∀ v, JSONText v → ∀ d, passes d v) ∧ (∀ vs t, Elements vs t → ∀ d, passes (S d) t) ∧
  (∀ ms t, Members ms t → ∀ d, passes (S d) t).
Proof.
  assert (∀ d, passes (S d) [44]) as Hcomma by (intros d; apply passes_char; [apply not_special; lia|by right]).
  assert (∀ d, passes (S d) [58]) as Hcolon by (intros d; apply passes_char; [apply not_special; lia|by right]).
  apply json_mutind; intros; auto using passes_quoted, passes_bracket, passes_blank, passes_app.
  - apply passes_Forall. eapply Forall_impl; [apply uintDigits_digits; lia|]. intros c Hc.
    simpl in Hc. split; [apply not_special; lia|lia].
  - repeat (apply passes_app; [by auto using passes_blank|]). apply (passes_app _ [44]); auto.
  - apply passes_app; [by apply passes_quoted|]. apply (passes_app _ [58]); auto.
  - apply passes_app; [by apply passes_quoted|]. apply (passes_app _ [58]); [done|].
    apply passes_app; [done|]. apply (passes_app _ [44]); auto.
Qed.

(** The last piece, and the pieces at a separator. *)
Lemma pieces_last v : passes 0 v → pieces sep 0 false [] v = [v].
Proof. intros Hv. rewrite <- (app_nil_r v) at 1. by rewrite Hv. Qed.

Lemma pieces_sep v t : passes 0 v → pieces sep 0 false [] (v ++ sep :: t) = v :: pieces sep 0 false [] t.
Proof.
  intros Hv. rewrite Hv. cbn [app pieces].
  do 3 (rewrite decide_False by (unfold quote; lia)). by rewrite decide_True.
Qed.
End pieces.

Lemma passes_text sep d v : sep = 44 ∨ sep = 58 → JSONText v → passes sep d v.
Proof. intros H Hv. by apply passes_grammar. Qed.

(** The elements of an array, and the members of an object. *)
Lemma pieces_elements vs t : Elements vs t → vs ≠ [] → trim <$> pieces 44 0 false [] t = vs.
Proof.
  induction 1 as [|v w w' Hv Hw Hw'|v w w' v' vs t Hv Hw Hw' _ IH]; intros Hne; [done|..].
  - rewrite pieces_last by auto 6 using passes_app, passes_blank, passes_text.
    cbn. by rewrite trim_tight by auto using JSONText_tight.
  - replace (w ++ v ++ w' ++ 44 :: t) with ((w ++ v ++ w') ++ 44 :: t) by (by rewrite <- !app_assoc).
    rewrite pieces_sep by auto 6 using passes_app, passes_blank, passes_text. rewrite fmap_cons, IH by done.
    by rewrite trim_tight by auto using JSONText_tight.
Qed.

Lemma elements_trim vs t : Elements vs t → vs ≠ [] → trim t ≠ [].
Proof.
  destruct 1 as [|v w w' Hv Hw Hw'|v w w' v' vs t Hv Hw Hw' _]; intros Hne; [done|..].
  - rewrite trim_tight by auto using JSONText_tight. by apply JSONText_tight.
  - destruct (JSONText_tight v Hv) as (Hn & Hh & _). unfold trim. rewrite trimLeft_blank by done.
    rewrite (trimLeft_stay (v ++ _)) by (destruct v; [done|exact Hh]). destruct v as [|c v]; [done|].
    cbn [app]. rewrite reverse_cons. intros E. apply (f_equal reverse) in E. revert E.
    rewrite reverse_involutive.
    assert (∀ l, trimLeft (l ++ [c]) ≠ []) as H.
    { induction l as [|x l IH]; cbn [app trimLeft].
      - rewrite decide_False by (by apply Hh). done.
      - by case_decide. }
    intros E. by apply (H (reverse (v ++ w' ++ 44 :: t))).
Qed.

Lemma scanString_ok w s w' : blank w → plain s → blank w' → scanString (w ++ quoted s ++ w') = Some s.
Proof.
  intros Hw Hs Hw'. unfold scanString. change (quoted s) with (quote :: s ++ [quote]).
  rewrite trim_tight; [|done|apply tight_ends; unfold jsonSpace, quote; lia|done].
  rewrite between_ends. cbn. by rewrite decide_True.
Qed.

Lemma scanArray_ok w vs t w' : blank w → Elements vs t → blank w' → scanArray (w ++ 91 :: t ++ 93 :: w') = Some vs.
Proof.
  intros Hw Ht Hw'. unfold scanArray. rewrite trim_between by (done || unfold jsonSpace; lia). cbn.
  destruct vs as [|v vs].
  - inversion Ht; subst. by rewrite decide_True by (by apply trim_blank).
  - rewrite decide_False by (by eapply elements_trim). by rewrite (pieces_elements _ _ Ht).
Qed.

Lemma scanMember_ok k v : plain k → JSONText v → scanMember (quoted k ++ 58 :: v) = Some (k, v).
Proof.
  intros Hk Hv. unfold scanMember. rewrite pieces_sep by auto using passes_quoted.
  rewrite pieces_last by auto using passes_text.
  pose proof (scanString_ok [] k [] ltac:(done) Hk ltac:(done)) as E. rewrite app_nil_r in E. cbn [app] in E.
  by rewrite E.
Qed.

Lemma pieces_members ms t : Members ms t → mapM scanMember (pieces 44 0 false [] t) = Some ms.
Proof.
  induction 1 as [k v Hk Hv|k v m ms t Hk Hv _ IH].
  - rewrite pieces_last; [unfold mapM; by rewrite scanMember_ok|].
    apply passes_app; [by apply passes_quoted|]. apply (passes_app 44 0 [58]); [apply passes_char; [auto|apply not_special; lia|by left]|].
    by apply passes_text; auto.
  - replace (quoted k ++ 58 :: v ++ 44 :: t) with ((quoted k ++ 58 :: v) ++ 44 :: t) by (by rewrite <- !app_assoc).
    rewrite pieces_sep.
    + cbn [mapM]. rewrite scanMember_ok by done. cbn [mbind option_bind]. by rewrite IH.
    + auto.
    + apply passes_app; [by apply passes_quoted|]. apply (passes_app 44 0 [58]); [apply passes_char; [auto|apply not_special; lia|by left]|].
      by apply passes_text; auto.
Qed.

#[export] Instance scanJSON_laws : SonicLaws scanJSON.
Proof.
  split; cbn.
  - intros w v w' Hw Hv Hw'. apply bool_decide_eq_false_2. rewrite trim_tight by auto using JSONText_tight. destruct Hv as [n Hn|s _|vs t _|ms t _]; [|done..].
    pose proof (uintDigits_digits 20 n ltac:(lia)) as Hd. intros En. rewrite En in Hd.
    change (str _) with [110; 117; 108; 108] in Hd. apply Forall_cons in Hd as [[_ Hd] _]. by apply Hd.
  - apply scanString_ok.
  - apply scanDigits_uint.
  - apply scanArray_ok.
  - intros ms t Ht. unfold scanObject.
    pose proof (trim_between 123 t 125 [] [] ltac:(unfold jsonSpace; lia) ltac:(unfold jsonSpace; lia)
                  ltac:(done) ltac:(done)) as E. cbn [app] in E. rewrite E. cbn. by apply pieces_members.
  - done.
Qed.

(** * The toy codecs *)

Lemma toyEncode_cons x b : toyEncode (x :: b) = [97 + x / 16; 97 + x mod 16] ++ toyEncode b.
Proof. done. Qed.

Lemma toyEncode_plain b : bytes_ok b → plain (toyEncode b).
Proof.
  unfold is_byte. induction 1 as [|x b Hx _ IH]; [constructor|]. rewrite toyEncode_cons. apply Forall_app_2; [|done].
  repeat (constructor; [unfold plainChar, quote; dlia|]). constructor.
Qed.

Lemma toyBase58_inverse b : bytes_ok b → toyDecode (toyEncode b) = Some b.
Proof.
  induction 1 as [|x b Hx _ IH]; [done|]. rewrite toyEncode_cons. cbn [app toyDecode].
  unfold is_byte in Hx. rewrite decide_True by dlia. rewrite IH. cbn. f_equal. f_equal. dlia.
Qed.

Lemma toyEncode_length b : length (toyEncode b) = (2 * length b)%nat.
Proof. induction b as [|x b IH]; [done|]. rewrite toyEncode_cons, length_app, IH. simpl. lia. Qed.

Lemma toySized n b : bytes_ok b → len b = n → sized n (toyDecode (toyEncode b)) = Some b.
Proof. intros Hb Hn. rewrite toyBase58_inverse by done. cbn. by rewrite decide_True. Qed.

#[export] Instance toyBase58_laws : Base58Laws toyBase58.
Proof.
  split; cbn [toyBase58 Encode Decode Encode32 Decode32 Encode64 Decode64 EncodedMaxLen32].
  - apply toyEncode_plain.
  - intros b _ E. apply (f_equal length) in E. rewrite toyEncode_length in E. destruct b; [done|simpl in E; lia].
  - intros b Hb. by rewrite toyBase58_inverse.
  - intros k [_ Hk]. by apply toyEncode_plain.
  - intros k [Hl _]. unfold len, PublicKeyLength. rewrite toyEncode_length, Hl. simpl. lia.
  - intros k [Hl Hk]. apply toySized; [done|]. unfold len. by rewrite Hl.
  - intros k [_ Hk]. by apply toyEncode_plain.
  - intros k [Hl Hk]. apply toySized; [done|]. unfold len. by rewrite Hl.
Qed.

#[export] Instance toyZstd_laws : ZstdLaws toyZstd.
Proof. split; cbn; [|done..]. intros b Hb. constructor; [unfold is_byte; lia|done]. Qed.
