(* ===== verification/TextFormsSpec.v ===== *)
(** TextFormsSpec: the texts of TextForms. The hand-written fast paths of the JSON
    readers give what the general decoder gives ([fast_paths_exact]), and an RPC data
    tuple reads back as the content it was written from ([data_json_roundtrip]). *)
From Stdlib Require Import ZArith Lia.
From stdpp Require Import base numbers strings sets list.
From S2P Require Import Prelude Keys PrivateKey Base64 TextForms RpcTypes MessageJson JsonText.

Open Scope Z_scope.

(** * The scanner of pairs *)

Lemma drop_cons_inv {A} (l : list A) i x r : drop i l = x :: r → l !! i = Some x ∧ drop (S i) l = r ∧ (i < length l)%nat.
Proof.
  intros E. assert (l !! i = Some x) as Hx.
  { rewrite <- (Nat.add_0_r i), <- lookup_drop, E. done. }
  split; [done|]. split; [|by apply lookup_lt_Some in Hx].
  rewrite <- Nat.add_1_r, <- drop_drop, E. done.
Qed.

Lemma drop_lookup {A} (l : list A) i x : l !! i = Some x → drop i l = x :: drop (S i) l.
Proof. intros Hx. by rewrite (drop_S _ x). Qed.

Lemma drop_app_inv {A} (l u r : list A) i : drop i l = u ++ r → drop (i + length u) l = r.
Proof. intros E. rewrite <- drop_drop, E. by rewrite drop_app_length. Qed.

Lemma skip_sound fuel data i :
  (length data - i ≤ fuel)%nat →
  ∃ w, blank w ∧ drop i data = w ++ drop (skipSpaceLoop fuel data i) data ∧ skipSpaceLoop fuel data i = (i + length w)%nat.
Proof.
  revert i. induction fuel as [|fuel IH]; intros i Hf; cbn [skipSpaceLoop].
  - exists []. split; [done|]. split; [done|simpl; lia].
  - destruct (data !! i) as [c|] eqn:Hc; [case_decide as Hs|].
    + destruct (IH (S i)) as (w & Hw & E & L); [lia|]. exists (c :: w). split; [by constructor|].
      split; [by rewrite (drop_lookup _ _ _ Hc), E at 1|]. rewrite L. simpl. lia.
    + exists []. split; [done|]. split; [done|simpl; lia].
    + exists []. split; [done|]. split; [done|simpl; lia].
Qed.

Lemma skip_complete fuel data i w r :
  blank w → drop i data = w ++ r → (∀ c, head r = Some c → ¬ jsonSpace c) → (length w ≤ fuel)%nat →
  skipSpaceLoop fuel data i = (i + length w)%nat.
Proof.
  intros Hw. revert fuel i. induction Hw as [|c w Hc _ IH]; intros fuel i E Hr Hf.
  - destruct fuel as [|fuel]; [simpl; lia|]. cbn [skipSpaceLoop].
    destruct (data !! i) as [c|] eqn:Hc; [|simpl; lia].
    rewrite (drop_lookup _ _ _ Hc) in E. cbn [app] in E. rewrite decide_False; [simpl; lia|].
    apply Hr. by rewrite <- E.
  - destruct fuel as [|fuel]; [simpl in Hf; lia|]. cbn [skipSpaceLoop].
    destruct (drop_cons_inv _ _ _ _ E) as (-> & E' & _). rewrite decide_True by done.
    rewrite (IH fuel (S i)); [simpl; lia|done..|simpl in Hf; lia].
Qed.

Lemma skipJSONSpace_at data i w r :
  blank w → drop i data = w ++ r → (∀ c, head r = Some c → ¬ jsonSpace c) →
  skipJSONSpace data i = (i + length w)%nat.
Proof.
  intros Hw E Hr. unfold skipJSONSpace. eapply skip_complete; try done.
  apply (f_equal length) in E. rewrite length_drop, length_app in E. lia.
Qed.

Lemma simple_sound fuel data start s0 i s j :
  drop start data = s0 ++ drop i data → i = (start + length s0)%nat →
  simpleStringLoop fuel data start i = Some (s, j) →
  ∃ s1, plain s1 ∧ s = s0 ++ s1 ∧ drop i data = s1 ++ quote :: drop j data ∧ j = (i + length s1 + 1)%nat.
Proof.
  revert s0 i. induction fuel as [|fuel IH]; intros s0 i E L H; [done|]. cbn [simpleStringLoop] in H.
  destruct (data !! i) as [c|] eqn:Hc; [|done]. pose proof (drop_lookup _ _ _ Hc) as Ed.
  repeat case_decide.
  - injection H as <- <-. subst c. exists []. split; [constructor|]. rewrite app_nil_r. split; [|split; [done|simpl; lia]].
    rewrite E. replace (i - start)%nat with (length s0) by lia. by rewrite take_app_length.
  - done.
  - destruct (IH (s0 ++ [c]) (S i)) as (s1 & Hs & -> & E1 & Lj).
    + by rewrite E, Ed, <- app_assoc.
    + rewrite length_app. simpl. lia.
    + done.
    + exists (c :: s1). split; [constructor; [unfold plainChar; lia|done]|]. rewrite <- app_assoc. split; [done|].
      split; [by rewrite Ed, E1|]. rewrite Lj. simpl. lia.
Qed.

Lemma simple_complete fuel data start s0 i s1 r :
  plain s1 → drop start data = s0 ++ drop i data → i = (start + length s0)%nat → drop i data = s1 ++ quote :: r →
  (length s1 < fuel)%nat → simpleStringLoop fuel data start i = Some (s0 ++ s1, (i + length s1 + 1)%nat).
Proof.
  intros Hs. revert fuel s0 i. induction Hs as [|c s1 (H1 & H2 & H3) _ IH]; intros fuel s0 i E L E1 Hf;
    (destruct fuel as [|fuel]; [simpl in Hf; lia|]); cbn [simpleStringLoop]; destruct (drop_cons_inv _ _ _ _ E1) as (-> & E' & _).
  - rewrite decide_True by done. rewrite E, app_nil_r. replace (i - start)%nat with (length s0) by lia.
    rewrite take_app_length. do 2 f_equal. simpl. lia.
  - rewrite !decide_False by (done || lia). rewrite (IH fuel (s0 ++ [c]) (S i)).
    + rewrite <- app_assoc. do 2 f_equal. simpl. lia.
    + rewrite E, E1. by rewrite E', <- app_assoc.
    + rewrite length_app. simpl. lia.
    + done.
    + simpl in Hf. lia.
Qed.

Lemma length_quoted s : length (quoted s) = (length s + 2)%nat.
Proof. unfold quoted. rewrite !length_app. simpl. lia. Qed.

Lemma quoted_app s r : quoted s ++ r = quote :: s ++ quote :: r.
Proof. unfold quoted. by rewrite <- !app_assoc. Qed.

Lemma parseSimple_sound data i s j :
  parseSimpleJSONString data i = Some (s, j) →
  plain s ∧ drop i data = quoted s ++ drop j data ∧ j = (i + length (quoted s))%nat.
Proof.
  unfold parseSimpleJSONString. case_decide as Hq; [|done]. intros H.
  destruct (simple_sound (length data) data (S i) [] (S i) s j) as (s1 & Hs & -> & E & ->); [done|simpl; lia|done|].
  split; [done|]. cbn [app]. rewrite quoted_app, length_quoted, (drop_lookup _ _ _ Hq), E. split; [done|lia].
Qed.

Lemma parseSimple_complete data i s r :
  plain s → drop i data = quoted s ++ r → parseSimpleJSONString data i = Some (s, (i + length (quoted s))%nat).
Proof.
  intros Hs E. rewrite quoted_app in E.
  destruct (drop_cons_inv _ _ _ _ E) as (Hq & E' & Hi). unfold parseSimpleJSONString. rewrite decide_True by done.
  rewrite (simple_complete _ _ _ [] _ s r); [|done..|simpl; lia|done|].
  - rewrite length_quoted. do 2 f_equal. lia.
  - apply (f_equal length) in E. rewrite length_drop in E. simpl in E. rewrite length_app in E. simpl in E. lia.
Qed.

(** A pair of plain strings, with white space between the tokens. *)
Inductive PairText (a b : bytes) : bytes → Prop :=
  pair_text w0 w1 w2 w3 w4 w5 :
    blank w0 → blank w1 → blank w2 → blank w3 → blank w4 → blank w5 → plain a → plain b →
    PairText a b (w0 ++ 91 :: w1 ++ quoted a ++ w2 ++ 44 :: w3 ++ quoted b ++ w4 ++ 93 :: w5).

Lemma not_space_head c r : ¬ jsonSpace c → ∀ x, head (c :: r) = Some x → ¬ jsonSpace x.
Proof. intros Hc x. by intros [= <-]. Qed.

Lemma skip_sound_at data i :
  ∃ w, blank w ∧ drop i data = w ++ drop (skipJSONSpace data i) data ∧ skipJSONSpace data i = (i + length w)%nat.
Proof. apply skip_sound. lia. Qed.

Lemma parseStringPair_sound data a b : parseStringPair data = Some (a, b) → PairText a b data.
Proof.
  unfold parseStringPair. cbv zeta.
  destruct (skip_sound_at data 0) as (w0 & Hw0 & E0 & _). set (i0 := skipJSONSpace data 0) in *.
  case_decide as H0; [done|]. destruct (decide (data !! i0 = Some 91)) as [Hb|]; [|done]. clear H0.
  destruct (skip_sound_at data (S i0)) as (w1 & Hw1 & E1 & _). set (i1 := skipJSONSpace data (S i0)) in *.
  destruct (parseSimpleJSONString data i1) as [[a' i2]|] eqn:H1; [|done]. cbn.
  destruct (parseSimple_sound _ _ _ _ H1) as (Ha & E2 & _).
  destruct (skip_sound_at data i2) as (w2 & Hw2 & E3 & _). set (i3 := skipJSONSpace data i2) in *.
  case_decide as H2; [done|]. destruct (decide (data !! i3 = Some 44)) as [Hc|]; [|done]. clear H2.
  destruct (skip_sound_at data (S i3)) as (w3 & Hw3 & E4 & _). set (i4 := skipJSONSpace data (S i3)) in *.
  destruct (parseSimpleJSONString data i4) as [[b' i5]|] eqn:H3; [|done]. cbn.
  destruct (parseSimple_sound _ _ _ _ H3) as (Hb' & E5 & _).
  destruct (skip_sound_at data i5) as (w4 & Hw4 & E6 & _). set (i6 := skipJSONSpace data i5) in *.
  case_decide as H4; [done|]. destruct (decide (data !! i6 = Some 93)) as [Hd|]; [|done]. clear H4.
  destruct (skip_sound_at data (S i6)) as (w5 & Hw5 & E7 & _). set (i7 := skipJSONSpace data (S i6)) in *.
  case_decide as H5; [done|]. destruct (decide (i7 = length data)) as [He|]; [|done]. clear H5. intros [= <- <-].
  rewrite He, drop_all, app_nil_r in E7. rewrite drop_0 in E0.
  rewrite E0, (drop_lookup _ _ _ Hb), E1, E2, E3, (drop_lookup _ _ _ Hc), E4, E5, E6, (drop_lookup _ _ _ Hd), E7.
  by constructor.
Qed.

(** A step of the scanner, over a text of which [u] was read. *)
Lemma drop_past {A} (data u v : list A) i : drop i data = u ++ v → drop (i + length u) data = v.
Proof. apply drop_app_inv. Qed.

Lemma parseStringPair_complete data a b : PairText a b data → parseStringPair data = Some (a, b).
Proof.
  destruct 1 as [w0 w1 w2 w3 w4 w5 Hw0 Hw1 Hw2 Hw3 Hw4 Hw5 Ha Hb].
  set (data := w0 ++ _). unfold parseStringPair. cbv zeta.
  assert (drop 0 data = data) as E0 by apply drop_0. unfold data in E0 at 2.
  rewrite (skipJSONSpace_at _ _ _ _ Hw0 E0) by (apply not_space_head; unfold jsonSpace; lia).
  apply drop_past in E0. set (i0 := (0 + _)%nat) in *. destruct (drop_cons_inv _ _ _ _ E0) as (H0 & E1 & _).
  rewrite decide_False by (rewrite H0; auto).
  rewrite (skipJSONSpace_at _ _ _ _ Hw1 E1) by (apply not_space_head; unfold jsonSpace, quote; lia).
  apply drop_past in E1. rewrite (parseSimple_complete _ _ _ _ Ha E1). cbn [mbind option_bind].
  apply drop_past in E1.
  rewrite (skipJSONSpace_at _ _ _ _ Hw2 E1) by (apply not_space_head; unfold jsonSpace; lia).
  apply drop_past in E1. set (i1 := (_ + length w2)%nat) in *. destruct (drop_cons_inv _ _ _ _ E1) as (H1 & E2 & _).
  rewrite decide_False by (rewrite H1; auto).
  rewrite (skipJSONSpace_at _ _ _ _ Hw3 E2) by (apply not_space_head; unfold jsonSpace, quote; lia).
  apply drop_past in E2. rewrite (parseSimple_complete _ _ _ _ Hb E2). cbn [mbind option_bind].
  apply drop_past in E2.
  rewrite (skipJSONSpace_at _ _ _ _ Hw4 E2) by (apply not_space_head; unfold jsonSpace; lia).
  apply drop_past in E2. set (i2 := (_ + length w4)%nat) in *. destruct (drop_cons_inv _ _ _ _ E2) as (H2 & E3 & L).
  rewrite decide_False by (rewrite H2; auto).
  rewrite <- (app_nil_r w5) in E3. rewrite (skipJSONSpace_at _ _ _ _ Hw5 E3) by done.
  rewrite decide_False; [done|]. intros H. apply H. apply (f_equal length) in E3.
  rewrite app_nil_r, length_drop in E3. lia.
Qed.

Lemma parseStringPair_exact data a b : parseStringPair data = Some (a, b) ↔ PairText a b data.
Proof. split; [apply parseStringPair_sound | apply parseStringPair_complete]. Qed.

(** * The fast paths *)

(** The tuple as the general decoder reads it. *)
Definition generalTuple {son : SonicJSON} (data : bytes) : outcome text_err (bytes * bytes) :=
  input ← unmarshalSlice unmarshalString data;
  match input with
  | [content; encoding] => Ok (content, encoding)
  | _ => Err (errTupleLength (len input))
  end.

Section fast.
Context {son : SonicJSON} {laws : SonicLaws son}.

Lemma unmarshalString_quoted s : plain s → unmarshalString (quoted s) = Ok s.
Proof.
  intros Hs. unfold unmarshalString.
  pose proof (sonic_not_null [] (quoted s) [] ltac:(done) (json_string s Hs) ltac:(done)) as Hn.
  pose proof (sonic_string [] s [] ltac:(done) Hs ltac:(done)) as Hv. rewrite app_nil_r in Hn, Hv.
  cbn [app] in Hn, Hv. by rewrite Hn, Hv.
Qed.

Lemma forallb_clean s : forallb cleanChar s = true ↔ plain s.
Proof.
  rewrite forallb_forall, Forall_forall. split; intros H c Hc.
  - specialize (H c (proj1 (list_elem_of_In _ _) Hc)). unfold cleanChar in H.
    apply negb_true_iff, bool_decide_eq_false in H. unfold plainChar. lia.
  - apply list_elem_of_In in Hc. specialize (H c Hc). unfold cleanChar, plainChar in *.
    apply negb_true_iff, bool_decide_eq_false. lia.
Qed.

Lemma jsonUnquote_shape data :
  (∃ s, data = quoted s ∧ plain s ∧ jsonUnquote data = Ok s) ∨ jsonUnquote data = unmarshalString data.
Proof.
  unfold jsonUnquote. cbv zeta. case_decide as H; [|by right]. destruct H as (Hl & H0 & Hz).
  destruct (forallb cleanChar _) eqn:Hc; [|by right]. left. eexists. split; [|split; [by apply forallb_clean|done]].
  destruct data as [|q data]; [done|]. injection H0 as ->.
  destruct data as [|y data _] using rev_ind; [unfold len in Hl; simpl in Hl; lia|].
  simpl length in *. rewrite length_app in *. simpl length in *.
  replace (S (length data + 1) - 1)%nat with (S (length data)) in Hz by lia. simpl in Hz.
  rewrite list_lookup_middle in Hz by done. injection Hz as ->.
  replace (S (length data + 1) - 2)%nat with (length data) by lia. cbn [drop]. rewrite drop_0, take_app_length. done.
Qed.

Lemma jsonUnquote_exact data : jsonUnquote data = unmarshalString data.
Proof.
  destruct (jsonUnquote_shape data) as [(s & -> & Hs & ->)|E]; [|done].
  by rewrite unmarshalString_quoted.
Qed.

Lemma pair_elements a b w1 w2 w3 w4 :
  blank w1 → blank w2 → blank w3 → blank w4 → plain a → plain b →
  Elements [quoted a; quoted b] (w1 ++ quoted a ++ w2 ++ 44 :: w3 ++ quoted b ++ w4).
Proof. intros. apply elements_cons; [by constructor|done..|]. apply elements_one; [by constructor|done..]. Qed.

Lemma generalTuple_pair a b data : PairText a b data → generalTuple data = Ok (a, b).
Proof.
  destruct 1 as [w0 w1 w2 w3 w4 w5 Hw0 Hw1 Hw2 Hw3 Hw4 Hw5 Ha Hb].
  pose proof (pair_elements a b w1 w2 w3 w4 Hw1 Hw2 Hw3 Hw4 Ha Hb) as He.
  set (t := w1 ++ _) in He.
  replace (w0 ++ _) with (w0 ++ 91 :: t ++ 93 :: w5) 
    by (unfold t; by rewrite <- ?app_assoc, <- ?app_comm_cons, <- ?app_assoc, <- ?app_comm_cons, <- ?app_assoc).
  unfold generalTuple, unmarshalSlice. 
  pose proof (sonic_not_null w0 (91 :: t ++ [93]) w5 Hw0 (json_array _ _ He) Hw5) as Hn.
  cbn [app] in Hn. rewrite <- app_assoc in Hn. cbn [app] in Hn. rewrite Hn.
  rewrite (sonic_array _ _ _ _ Hw0 He Hw5). cbn [ofOption each mbind outcome_bind].
  by rewrite !unmarshalString_quoted.
Qed.

Lemma tupleOf_exact data : tupleOf data = generalTuple data.
Proof.
  unfold tupleOf. destruct (parseStringPair data) as [[a b]|] eqn:H; [|done].
  symmetry. by apply generalTuple_pair, parseStringPair_sound.
Qed.
End fast.

(** * Data *)

(** The encodings a Data is written in: the empty one for no content only. *)
Definition supported (t : Data) : Prop :=
  Encoding t ∈ [EncodingBase58; EncodingBase64; EncodingBase64Zstd] ∨ Encoding t = [] ∧ Content t = [].

Lemma encode64_plain b : bytes_ok b → plain (encode64 b).
Proof.
  intros Hb. eapply Forall_impl; [by apply encode64_clean|]. unfold char64, plainChar, quote. intros c Hc. lia.
Qed.

Lemma encodings_plain e : e ∈ [EncodingBase58; EncodingBase64; EncodingBase64Zstd] → plain e.
Proof.
  intros H. apply (bool_decide_unpack _). rewrite !elem_of_cons in H.
  by destruct H as [->|[->|[->|[]%not_elem_of_nil]]]; vm_compute.
Qed.

Lemma supported_plain t : supported t → plain (Encoding t).
Proof. intros [H|[-> _]]; [by apply encodings_plain|constructor]. Qed.

Lemma pairJSON_pair a b : plain a → plain b → PairText a b (pairJSON a b).
Proof.
  intros Ha Hb. replace (pairJSON a b) with ([] ++ 91 :: [] ++ quoted a ++ [] ++ 44 :: [] ++ quoted b ++ [] ++ 93 :: []).
  - by constructor.
  - cbn [app]. by rewrite !quoted_app.
Qed.

Section data.
Context {b58 : Base58Codec} {zst : ZstdCodec} {son : SonicJSON} {Hb58 : Base58Laws b58} {Hzst : ZstdLaws zst}.

(** Content that the zstd decoder can hold. *)
Definition withinLimit (t : Data) : Prop := Encoding t = EncodingBase64Zstd → len (Content t) ≤ zstdLimit.

(** The text of the content. *)
Definition contentText (t : Data) : bytes :=
  if decide (Encoding t = EncodingBase58) then Encode (Content t)
  else if decide (Encoding t = EncodingBase64) then encode64 (Content t)
  else if decide (Content t = []) then [] else encode64 (zstdEncodeAll (Content t)).

Lemma marshal_supported t : supported t → Data_MarshalJSON t = Ok (pairJSON (contentText t) (Encoding t)).
Proof.
  unfold supported, Data_MarshalJSON, contentText. destruct t as [content e]. cbn [Content Encoding].
  intros [H|[-> ->]]; [|done]. rewrite !elem_of_cons in H. destruct H as [->|[->|[->|[]%not_elem_of_nil]]]; [done..|].
  do 2 (rewrite (decide_False (P:=EncodingBase64Zstd = _)) by done). rewrite decide_True by done.
  destruct content as [|c content]; [done|]. rewrite decide_False by len_lia. by rewrite decide_False.
Qed.

Lemma contentText_plain t : bytes_ok (Content t) → plain (contentText t).
Proof.
  intros Hb. unfold contentText. repeat case_decide; auto using Encode_plain, encode64_plain, zstd_ok.
Qed.

Lemma contentText_nil t : bytes_ok (Content t) → contentText t = [] → Content t = [].
Proof.
  intros Hb. unfold contentText. repeat case_decide; intros E;
    [by apply Encode_nil | by apply encode64_nil | done | by apply zstd_nil, encode64_nil].
Qed.

Lemma decodeContent_text t old :
  supported t → bytes_ok (Content t) → withinLimit t → contentText t ≠ [] →
  decodeContent (Encoding t) (contentText t) old = (Content t, None).
Proof.
  intros Hs Hb Hlim. unfold decodeContent, contentText. case_decide; [by rewrite Decode_Encode|].
  case_decide as H1; [by rewrite decode_encode64|]. case_decide as H2; [done|].
  intros _. rewrite decode_encode64 by auto using zstd_ok. rewrite zstd_inverse; [done|done|]. apply Hlim.
  destruct Hs as [Hs|[_ Hc]]; [|done]. rewrite !elem_of_cons in Hs. pose proof (not_elem_of_nil (Encoding t)). tauto.
Qed.

Lemma unmarshal_pair t t0 text :
  supported t → bytes_ok (Content t) → withinLimit t → PairText (contentText t) (Encoding t) text →
  Data_UnmarshalJSON text t0 = (Ok tt, t).
Proof.
  intros Hs Hb Hlim Ht. unfold Data_UnmarshalJSON, tupleOf. rewrite (parseStringPair_complete _ _ _ Ht).
  rewrite (run_lift _ _ _ _ eq_refl).
  assert ((if decide (Encoding t = EncodingBase58 ∨ Encoding t = EncodingBase64 ∨ Encoding t = EncodingBase64Zstd)
           then modify (set_Encoding (Encoding t))
           else if decide (Encoding t = [] ∧ contentText t = []) then modify (set_Encoding [])
           else throw (errEncoding (Encoding t))) t0 = (Ok tt, set_Encoding (Encoding t) t0)) as E.
  { destruct Hs as [He|[He Hc]].
    - rewrite decide_True by (rewrite !elem_of_cons in He; pose proof (not_elem_of_nil (Encoding t)); tauto). done.
    - rewrite decide_False by (rewrite He; naive_solver). rewrite decide_True; [by rewrite He|].
      split; [done|]. unfold contentText. rewrite He. by rewrite Hc. }
  rewrite (run_bind _ _ _ _ _ E). clear E. case_decide as Hn.
  - apply contentText_nil in Hn; [|done]. destruct t as [c e]. cbn in *. by subst c.
  - rewrite run_get, decodeContent_text by done. by destruct t.
Qed.
End data.

(** A pair that Data reads is the binary data of DataBytesOrJSON. *)
Lemma unmarshal_binary {b58 : Base58Codec} {zst : ZstdCodec} {son : SonicJSON} a b t w :
  (∀ t0, Data_UnmarshalJSON (pairJSON a b) t0 = (Ok tt, t)) →
  DataBytesOrJSON_UnmarshalJSON (pairJSON a b) w = (Ok tt, mkDataBytesOrJSON (Encoding t) t (asJSON w)).
Proof.
  intros H. unfold DataBytesOrJSON_UnmarshalJSON. rewrite decide_False by (intros [E|E]; [unfold pairJSON in E; len_lia|done]).
  rewrite (run_lift _ _ _ 91) by done. rewrite decide_True by done.
  rewrite (run_bind _ _ _ tt (set_asDecodedBinary t w)); [done|]. unfold on_data. by rewrite H.
Qed.

(** * The properties *)

(** C19. The fast paths of the JSON readers change nothing. [jsonUnquote], which every
    key, hash, signature and byte-string type reads with, gives on every document
    what sonic's string decoder gives, its errors included; the in-place scanner of
    Data accepts exactly the pairs of escape-free strings with any white space
    between their tokens, and the tuple that Data is read from is always the one of
    the general decoder. *)
Theorem fast_paths_exact {son : SonicJSON} (laws : SonicLaws son) (data : bytes) :
  jsonUnquote data = unmarshalString data ∧
  (∀ content encoding, parseStringPair data = Some (content, encoding) ↔ PairText content encoding data) ∧
  tupleOf data = generalTuple data.
Proof.
  split; [apply jsonUnquote_exact|]. split; [intros; apply parseStringPair_exact | apply tupleOf_exact].
Qed.

(** A pair with spaces, and one the scanner leaves to the general decoder. *)
Lemma fast_paths_exact_witness :
  let text := str " [ " ++ quoted (str "ab") ++ str " , " ++ quoted (str "base58") ++ str "] " in
  parseStringPair text = Some (str "ab", EncodingBase58) ∧ @generalTuple scanJSON text = Ok (str "ab", EncodingBase58).
Proof.
  split; [vm_compute; reflexivity|].
  rewrite <- (proj2 (proj2 (@fast_paths_exact scanJSON scanJSON_laws _))). vm_compute. reflexivity.
Defined.

(** C18. The RPC data tuple round trip. A Data in a supported encoding is written as
    a pair of plain strings, and read back, over any old value and with any white
    space between the tokens, it is the same content under the same encoding:
    base58, base64, zstd below base64, and no content at all; DataBytesOrJSON takes
    the pair as binary data in that encoding. Compressed content is read back when it
    is at most 64 MiB, the limit the source names for its zstd decoder; about larger
    content nothing is said but how it is written. A Data in any other encoding, or
    with content and no encoding, is refused by the writer. *)
Theorem data_json_roundtrip {b58 : Base58Codec} {zst : ZstdCodec} {son : SonicJSON}
    (Hb58 : Base58Laws b58) (Hzst : ZstdLaws zst) (t : Data) (Hok : bytes_ok (Content t)) :
  (supported t →
   ∃ content,
     Data_MarshalJSON t = Ok (pairJSON content (Encoding t)) ∧
     PairText content (Encoding t) (pairJSON content (Encoding t)) ∧
     (withinLimit t →
      (∀ text t0, PairText content (Encoding t) text → Data_UnmarshalJSON text t0 = (Ok tt, t)) ∧
      ∀ w, DataBytesOrJSON_UnmarshalJSON (pairJSON content (Encoding t)) w =
             (Ok tt, mkDataBytesOrJSON (Encoding t) t (asJSON w)))) ∧
  (¬ supported t → Data_MarshalJSON t = Err (errMarshalEncoding (Encoding t))).
Proof.
  split.
  - intros Hs. exists (contentText t). split; [by apply marshal_supported|]. split.
    + by apply pairJSON_pair; [apply contentText_plain|apply supported_plain].
    + intros Hlim. split; [intros text t0; by apply unmarshal_pair|].
      intros w. assert (∀ t0, Data_UnmarshalJSON (pairJSON (contentText t) (Encoding t)) t0 = (Ok tt, t)) as Hd.
      { intros t0. apply unmarshal_pair; [done..|]. apply pairJSON_pair; [by apply contentText_plain|by apply supported_plain]. }
      by apply unmarshal_binary.
  - unfold supported, Data_MarshalJSON. rewrite !elem_of_cons. intros Hn.
    do 3 (rewrite decide_False by tauto). case_decide; [|done]. rewrite decide_True; [done|].
    destruct (Content t); [tauto|len_lia].
Qed.

Lemma data_json_roundtrip_witness :
  let t := mkData [7; 200; 0] EncodingBase64Zstd in
  let text := pairJSON (encode64 [40; 7; 200; 0]) EncodingBase64Zstd in
  @Data_MarshalJSON toyBase58 toyZstd t = Ok text ∧
  @Data_UnmarshalJSON toyBase58 toyZstd scanJSON text (mkData [1] EncodingBase58) = (Ok tt, t).
Proof.
  cbv zeta.
  assert (bytes_ok (Content (mkData [7; 200; 0] EncodingBase64Zstd))) as Hok
    by (repeat constructor; vm_compute; congruence).
  destruct (@data_json_roundtrip toyBase58 toyZstd scanJSON toyBase58_laws toyZstd_laws _ Hok) as [H _].
  destruct H as (content & E & Ht & H); [left; right; right; left|].
  destruct H as [H _]; [intros _; vm_compute; discriminate|].
  split; [vm_compute; reflexivity|].
  assert (@Data_MarshalJSON toyBase58 toyZstd (mkData [7; 200; 0] EncodingBase64Zstd) =
          Ok (pairJSON (encode64 [40; 7; 200; 0]) EncodingBase64Zstd)) as E' by (vm_compute; reflexivity).
  rewrite E' in E. apply H. rewrite <- (f_equal (λ o, match o with Ok x => x | _ => [] end) E) in Ht. exact Ht.
Defined.
