(* ===== verification/MessageJsonSpec.v ===== *)
(** MessageJsonSpec: a message and a transaction read back from the JSON, and a
    transaction from the base64, they were written as. *)
From Stdlib Require Import ZArith Lia.
From stdpp Require Import base numbers strings sets list.
From S2P Require Import Prelude Shortvec Keys Message PrivateKey Transaction Base64 TextForms MessageJson JsonText TextFormsSpec.

Open Scope Z_scope.

(** * Texts *)

(** Texts between commas, arrays, members and objects without white space. *)
Fixpoint joined (vs : list bytes) : bytes :=
  match vs with
  | [] => []
  | [v] => v
  | v :: vs' => v ++ 44 :: joined vs'
  end.
Definition arrayText (vs : list bytes) : bytes := 91 :: joined vs ++ [93].
Definition memberText (m : bytes * bytes) : bytes := quoted m.1 ++ 58 :: m.2.
Definition objectText (ms : list (bytes * bytes)) : bytes := 123 :: joined (memberText <$> ms) ++ [125].

Lemma joined_cons v v' vs : joined (v :: v' :: vs) = v ++ 44 :: joined (v' :: vs).
Proof. done. Qed.

Lemma joined_elements vs : Forall JSONText vs → Elements vs (joined vs).
Proof.
  induction 1 as [|v vs Hv Hvs IH]; [by apply elements_none|].
  destruct vs as [|v' vs].
  - pose proof (elements_one v [] [] Hv) as H. cbn [app] in H. rewrite app_nil_r in H. by apply H.
  - rewrite joined_cons. by apply (elements_cons v [] [] v' vs).
Qed.

Lemma joined_members ms :
  ms ≠ [] → Forall (λ m, plain m.1 ∧ JSONText m.2) ms → Members ms (joined (memberText <$> ms)).
Proof.
  intros Hne Hms. induction Hms as [|[k v] ms [Hk Hv] Hms IH]; [done|].
  destruct ms as [|m ms]; [by apply members_one|].
  rewrite !fmap_cons, joined_cons. unfold memberText at 1. cbn [fst snd]. rewrite <- app_assoc.
  apply members_cons; [done..|]. by apply IH.
Qed.

Lemma arrayText_json vs : Forall JSONText vs → JSONText (arrayText vs).
Proof. intros H. eapply json_array. by apply joined_elements. Qed.

Lemma objectText_json ms : ms ≠ [] → Forall (λ m, plain m.1 ∧ JSONText m.2) ms → JSONText (objectText ms).
Proof. intros Hne H. eapply json_object. by apply joined_members. Qed.

(** The writers append the text of each element. *)
Lemma appendFrom_joined {A} (put : bytes → A → bytes) (f : A → bytes) i x xs buf :
  (∀ buf x, put buf x = buf ++ f x) →
  appendFrom put i (x :: xs) buf = buf ++ (if decide (0 < i)%nat then [44] else []) ++ joined (f <$> x :: xs).
Proof.
  intros Hput. revert i x buf. induction xs as [|y xs IH]; intros i x buf.
  - cbn [appendFrom fmap list_fmap joined]. rewrite Hput. case_decide; by rewrite <- ?app_assoc.
  - change (appendFrom put i (x :: y :: xs) buf) with
      (appendFrom put (S i) (y :: xs) (put (if decide (0 < i)%nat then buf ++ [44] else buf) x)).
    rewrite IH, Hput, !fmap_cons, joined_cons, (decide_True (P:=(0 < S i)%nat)) by lia. case_decide; by rewrite <- ?app_assoc.
Qed.

Lemma appendList_joined {A} (put : bytes → A → bytes) (f : A → bytes) xs buf :
  (∀ buf x, put buf x = buf ++ f x) → appendList put xs buf = buf ++ joined (f <$> xs).
Proof.
  intros Hput. unfold appendList. destruct xs as [|x xs]; [cbn; by rewrite app_nil_r|].
  by rewrite (appendFrom_joined put f).
Qed.

Section read.
Context {b58 : Base58Codec} {zst : ZstdCodec} {son : SonicJSON}.
Context {Hb58 : Base58Laws b58} {Hson : SonicLaws son}.

Lemma not_null v : JSONText v → sonicNull v = false.
Proof.
  intros Hv. pose proof (sonic_not_null [] v [] ltac:(done) Hv ltac:(done)) as H. cbn [app] in H.
  by rewrite app_nil_r in H.
Qed.

(** * Values *)

Lemma uint_json n : 0 ≤ n < 2 ^ 64 → JSONText (uintDigits 20 n).
Proof. apply json_number. Qed.

Lemma readUint_digits bound old n : bound ≤ 2 ^ 64 → 0 ≤ n < bound → readUint bound old (uintDigits 20 n) = Ok n.
Proof.
  intros Hb Hn. unfold readUint. rewrite not_null by (apply uint_json; lia). rewrite sonic_number by lia.
  cbn [ofOption mbind outcome_bind]. by rewrite decide_True.
Qed.

Lemma via_text {A} (m : bytes → outcome text_err A) old v : JSONText v → viaMethod m old v = m v.
Proof. intros Hv. unfold viaMethod. by rewrite not_null. Qed.

Lemma unquote_quoted s : plain s → jsonUnquote (quoted s) = Ok s.
Proof. intros Hs. by rewrite jsonUnquote_exact, unmarshalString_quoted. Qed.

Lemma keyFromBase58 k : key_ok k → PublicKeyFromBase58 (Encode32 k) = Ok k.
Proof.
  intros Hk. unfold PublicKeyFromBase58. pose proof (Encode32_length k Hk).
  rewrite decide_False by (unfold publicKeyMinEncodedLength; lia). by rewrite Decode32_Encode32.
Qed.

Lemma key_json k : key_ok k → JSONText (quoted (Encode32 k)).
Proof. intros Hk. by apply json_string, Encode32_plain. Qed.

Lemma readKey old k : key_ok k → viaMethod PublicKey_UnmarshalJSON old (quoted (Encode32 k)) = Ok k.
Proof.
  intros Hk. rewrite via_text by by apply key_json. unfold PublicKey_UnmarshalJSON.
  rewrite unquote_quoted by by apply Encode32_plain. cbn [mbind outcome_bind]. by rewrite keyFromBase58.
Qed.

Lemma readHash old k : key_ok k → viaMethod Hash_UnmarshalJSON old (quoted (Encode32 k)) = Ok k.
Proof.
  intros Hk. rewrite via_text by by apply key_json. unfold Hash_UnmarshalJSON, HashFromBase58.
  rewrite unquote_quoted by by apply Encode32_plain. cbn [mbind outcome_bind]. by rewrite keyFromBase58.
Qed.

Lemma readSignature old s : sig_ok s → viaMethod Signature_UnmarshalJSON old (quoted (Encode64 s)) = Ok s.
Proof.
  intros Hs. rewrite via_text by by apply json_string, Encode64_plain. unfold Signature_UnmarshalJSON, SignatureFromBase58.
  rewrite unquote_quoted by by apply Encode64_plain. cbn [mbind outcome_bind]. by rewrite Decode64_Encode64.
Qed.

Lemma readBase58_quoted old b : bytes_ok b → readBase58 old (quoted (Encode b)) = Ok b.
Proof.
  intros Hb. unfold readBase58, Base58_UnmarshalJSON. rewrite not_null by by apply json_string, Encode_plain.
  cbn [andb]. rewrite (run_lift _ _ _ (Encode b)) by by apply unquote_quoted, Encode_plain.
  case_decide as Hn; [by rewrite (Encode_nil b Hb Hn)|]. unfold assign, withError. by rewrite Decode_Encode.
Qed.

Lemma each_fmap {A} (r : bytes → outcome text_err A) (f : A → bytes) xs :
  Forall (λ x, r (f x) = Ok x) xs → each r (f <$> xs) = Ok xs.
Proof.
  induction 1 as [|x xs Hx _ IH]; [done|]. rewrite fmap_cons. cbn [each].
  rewrite (obind_ok _ _ _ Hx). by rewrite (obind_ok _ _ _ IH).
Qed.

Lemma unmarshalSlice_array {A} (r : bytes → outcome text_err A) (f : A → bytes) xs :
  Forall (λ x, JSONText (f x)) xs → Forall (λ x, r (f x) = Ok x) xs →
  unmarshalSlice r (arrayText (f <$> xs)) = Ok xs.
Proof.
  intros Hj Hr. assert (Forall JSONText (f <$> xs)) as Hj' by by apply Forall_fmap.
  unfold unmarshalSlice. rewrite not_null by by apply arrayText_json.
  pose proof (sonic_array [] _ _ [] ltac:(done) (joined_elements _ Hj') ltac:(done)) as E.
  change ([] ++ 91 :: joined (f <$> xs) ++ [93]) with (arrayText (f <$> xs)) in E. rewrite E. cbn [ofOption mbind outcome_bind].
  by apply each_fmap.
Qed.

Lemma checkUint8_bytes i b : bytes_ok b → checkUint8 i b = Ok b.
Proof.
  intros Hb. revert i. induction Hb as [|x b Hx _ IH]; intros i; [done|]. cbn [checkUint8]. unfold is_byte in Hx.
  rewrite decide_False by lia. rewrite IH. cbn [mbind outcome_bind]. unfold u8. by rewrite Z.mod_small.
Qed.

Lemma uints_json (ns : list Z) : Forall (λ n, 0 ≤ n < 65536) ns → Forall (λ n, JSONText (uintDigits 20 n)) ns.
Proof. intros H. eapply Forall_impl; [done|]. intros n Hn. apply uint_json. simpl in Hn. lia. Qed.

Lemma readUint8s old b :
  bytes_ok b → viaMethod Uint8SliceAsNum_UnmarshalJSON old (arrayText (uintDigits 20 <$> b)) = Ok b.
Proof.
  intros Hb. assert (Forall (λ n, 0 ≤ n < 65536) b) as Hn by (eapply Forall_impl; [done|]; unfold is_byte; lia).
  rewrite via_text by by apply arrayText_json, Forall_fmap, uints_json.
  unfold Uint8SliceAsNum_UnmarshalJSON. rewrite (obind_ok _ _ b); [by apply checkUint8_bytes|].
  apply unmarshalSlice_array; [by apply uints_json|]. eapply Forall_impl; [done|]. intros n Hn'. by apply readUint_digits.
Qed.

(** * Structs *)

(** The field a key names. *)
Definition fieldAt {S} (fields : list (bytes * Reader S)) (key : bytes) : option nat :=
  fst <$> list_find (λ f, f.1 = key) fields.

Lemma find_names {S} (fields : list (bytes * Reader S)) key :
  Forall (λ f, f.1 ∈ fieldNames) fields → key ∈ fieldNames →
  list_find (λ f, sonicNames f.1 key) fields = list_find (λ f, f.1 = key) fields.
Proof.
  intros Hf Hk. induction Hf as [|f fields Hn _ IH]; [done|]. cbn [list_find]. rewrite IH.
  rewrite (sonic_names f.1 key) by done. by repeat case_decide.
Qed.

(** One member, stored to field [i]. *)
Lemma readMembers_cons {S A} (i : nat) (fields : list (bytes * Reader S)) name get set (rd : Reader A) key value ms s a :
  Forall (λ f, f.1 ∈ fieldNames) fields → key ∈ fieldNames → fieldAt fields key = Some i →
  fields !! i = Some (readField name get set rd) → rd (get s) value = Ok a →
  readMembers fields ((key, value) :: ms) s = readMembers fields ms (set a s).
Proof.
  intros Hf Hk Hr Hi Ha. cbn [readMembers]. rewrite find_names by done. unfold fieldAt in Hr.
  destruct (list_find _ fields) as [[i' f]|] eqn:E; [|done]. injection Hr as ->.
  apply list_find_Some in E as (E & _). rewrite Hi in E. injection E as <-. cbn. by rewrite (obind_ok _ _ _ Ha).
Qed.

Lemma readStruct_object {S} (fields : list (bytes * Reader S)) ms old :
  ms ≠ [] → Forall (λ m, plain m.1 ∧ JSONText m.2) ms →
  readStruct fields old (objectText ms) = readMembers fields ms old.
Proof.
  intros Hne Hms. unfold readStruct. rewrite not_null by by apply objectText_json.
  unfold objectText. by rewrite (sonic_object _ _ (joined_members ms Hne Hms)).
Qed.

End read.

(** Membership in the concrete name lists, and the fields of the structs. *)
Ltac names := apply (bool_decide_unpack _); vm_compute; exact I.
Ltac member i lem :=
  erewrite (readMembers_cons i); [|names|names|reflexivity|reflexivity|apply lem].

Section structs.
Context {b58 : Base58Codec} {zst : ZstdCodec} {son : SonicJSON}.
Context {Hb58 : Base58Laws b58} {Hson : SonicLaws son}.

Abbreviation uint := (uintDigits 20).

Lemma name_plain n : n ∈ fieldNames → plain n.
Proof.
  assert (Forall plain fieldNames) as H by (apply (bool_decide_unpack _); vm_compute; exact I).
  rewrite Forall_forall in H. apply H.
Qed.

(** The members a value is written as. *)
Definition headerMembers (h : MessageHeader) : list (bytes * bytes) := [
  (str "numRequiredSignatures", uint (NumRequiredSignatures h));
  (str "numReadonlySignedAccounts", uint (NumReadonlySignedAccounts h));
  (str "numReadonlyUnsignedAccounts", uint (NumReadonlyUnsignedAccounts h))].
Definition insMembers (ins : CompiledInstruction) : list (bytes * bytes) := [
  (str "programIdIndex", uint (ProgramIDIndex ins));
  (str "accounts", arrayText (uint <$> AccountIndexes ins));
  (str "data", quoted (Encode (InsData ins)))].
Definition lookupMembers (l : MessageAddressTableLookup) : list (bytes * bytes) := [
  (str "accountKey", quoted (Encode32 (AccountKey l)));
  (str "writableIndexes", arrayText (uint <$> WritableIndexes l));
  (str "readonlyIndexes", arrayText (uint <$> ReadonlyIndexes l))].
Definition keyText (k : PublicKey) : bytes := quoted (Encode32 k).
Definition bodyMembers (mx : Message) : list (bytes * bytes) := [
  (str "accountKeys", arrayText (keyText <$> AccountKeys mx));
  (str "header", objectText (headerMembers (Header mx)));
  (str "recentBlockhash", keyText (RecentBlockhash mx));
  (str "instructions", arrayText ((λ ins, objectText (insMembers ins)) <$> Instructions mx))].
Definition messageMembers (mx : Message) : list (bytes * bytes) :=
  bodyMembers mx ++
  (if decide (version mx = MessageVersionLegacy) then [] else
     [(str "addressTableLookups", arrayText ((λ l, objectText (lookupMembers l)) <$> AddressTableLookups mx))]).
Definition transactionMembers (tx : Transaction) : list (bytes * bytes) := [
  (str "signatures", arrayText ((λ s, quoted (Encode64 s)) <$> Signatures tx));
  (str "message", objectText (messageMembers (TxMessage tx)))].

(** Names are plain and values are JSON. *)
Abbreviation members_ok := (Forall (λ m : bytes * bytes, plain m.1 ∧ JSONText m.2)).

Lemma members_ok_cons n v ms : n ∈ fieldNames → JSONText v → members_ok ms → members_ok ((n, v) :: ms).
Proof. intros Hn Hv Hms. constructor; [split; [by apply name_plain|done]|done]. Qed.

Lemma uint16_json n : is_u16 n → JSONText (uint n).
Proof. unfold is_u16. intros. apply uint_json. lia. Qed.

Lemma byte_u16 b : is_byte b → is_u16 b.
Proof. unfold is_byte, is_u16. lia. Qed.

Lemma array_fmap_json {A} (f : A → bytes) (P : A → Prop) xs :
  (∀ x, P x → JSONText (f x)) → Forall P xs → JSONText (arrayText (f <$> xs)).
Proof. intros Hf Hxs. apply arrayText_json, Forall_fmap. by eapply Forall_impl. Qed.

Lemma bytes_json b : bytes_ok b → JSONText (arrayText (uint <$> b)).
Proof. apply array_fmap_json. intros x Hx. by apply uint16_json, byte_u16. Qed.

Ltac members := repeat (apply members_ok_cons; [names| |]); [..|constructor].

Lemma headerMembers_ok h : header_typed h → members_ok (headerMembers h).
Proof. intros (H1 & H2 & H3). unfold headerMembers. members; by apply uint16_json, byte_u16. Qed.

Lemma insMembers_ok ins : ins_typed ins → members_ok (insMembers ins).
Proof.
  intros (H1 & H2 & H3). unfold insMembers. members; [by apply uint16_json| |by apply json_string, Encode_plain].
  eapply array_fmap_json; [apply uint16_json|done].
Qed.

Lemma lookupMembers_ok l : lookup_typed l → members_ok (lookupMembers l).
Proof. intros (H1 & H2 & H3). unfold lookupMembers. members; [by apply key_json|by apply bytes_json..]. Qed.

Lemma object_json ms : ms ≠ [] → members_ok ms → JSONText (objectText ms).
Proof. apply objectText_json. Qed.

Lemma ins_json ins : ins_typed ins → JSONText (objectText (insMembers ins)).
Proof. intros H. apply object_json; [done|by apply insMembers_ok]. Qed.

Lemma lookup_json l : lookup_typed l → JSONText (objectText (lookupMembers l)).
Proof. intros H. apply object_json; [done|by apply lookupMembers_ok]. Qed.

Lemma lookups_json ls : Forall lookup_typed ls → JSONText (arrayText ((λ l, objectText (lookupMembers l)) <$> ls)).
Proof. apply array_fmap_json, lookup_json. Qed.

Lemma messageMembers_ok mx : message_typed mx → members_ok (messageMembers mx).
Proof.
  intros (Hk & Hh & Hb & Hi & Hl). unfold messageMembers, bodyMembers. cbn [app].
  repeat (apply members_ok_cons; [names| |]); [| | | |case_decide; members].
  - eapply array_fmap_json; [apply key_json|done].
  - apply object_json; [done|by apply headerMembers_ok].
  - by apply key_json.
  - eapply array_fmap_json; [apply ins_json|done].
  - by apply lookups_json.
Qed.

Lemma messageMembers_nonempty mx : messageMembers mx ≠ [].
Proof. done. Qed.

Lemma message_json mx : message_typed mx → JSONText (objectText (messageMembers mx)).
Proof. intros H. apply object_json; [done|by apply messageMembers_ok]. Qed.

Lemma transactionMembers_ok tx :
  Forall sig_ok (Signatures tx) → message_typed (TxMessage tx) → members_ok (transactionMembers tx).
Proof.
  intros Hs Hm. unfold transactionMembers. members; [|by apply message_json].
  eapply array_fmap_json; [|done]. intros s H. by apply json_string, Encode64_plain.
Qed.

(** * Reading the members *)

Lemma readHeader_text old h : header_typed h → readHeader old (objectText (headerMembers h)) = Ok h.
Proof.
  intros Hh. pose proof Hh as (H1 & H2 & H3). unfold is_byte in *. unfold readHeader.
  rewrite readStruct_object by (done || by apply headerMembers_ok). unfold headerMembers.
  member 0%nat readUint_digits; [|lia|exact H1]. member 1%nat readUint_digits; [|lia|exact H2].
  member 2%nat readUint_digits; [|lia|exact H3]. by destruct h.
Qed.

Lemma readSlice_array {A} (zero : A) (r : Reader A) (f : A → bytes) (P : A → Prop) old xs :
  (∀ x, P x → JSONText (f x)) → (∀ x, P x → r zero (f x) = Ok x) → Forall P xs →
  readSlice zero r old (arrayText (f <$> xs)) = Ok xs.
Proof. intros Hj Hr Hxs. apply unmarshalSlice_array; by eapply Forall_impl. Qed.

Lemma readUint16s old (ns : list Z) :
  Forall is_u16 ns → readSlice 0 (readUint 65536) old (arrayText (uint <$> ns)) = Ok ns.
Proof.
  apply readSlice_array; [apply uint16_json|]. intros n Hn. by apply readUint_digits.
Qed.

Lemma readInstruction_text old ins : ins_typed ins → readInstruction old (objectText (insMembers ins)) = Ok ins.
Proof.
  intros Hi. pose proof Hi as (H1 & H2 & H3). unfold readInstruction.
  rewrite readStruct_object by (done || by apply insMembers_ok). unfold insMembers.
  member 0%nat readUint_digits; [|done|exact H1]. member 1%nat readUint16s; [|exact H2].
  member 2%nat readBase58_quoted; [|exact H3]. by destruct ins.
Qed.

Lemma readLookup_text old l : lookup_typed l → readLookup old (objectText (lookupMembers l)) = Ok l.
Proof.
  intros Hl. pose proof Hl as (H1 & H2 & H3). unfold readLookup.
  rewrite readStruct_object by (done || by apply lookupMembers_ok). unfold lookupMembers.
  member 0%nat readKey; [|exact H1]. member 1%nat readUint8s; [|exact H2].
  member 2%nat readUint8s; [|exact H3]. by destruct l.
Qed.

Lemma readAux_text mx :
  message_typed mx →
  readAux zeroAux (objectText (messageMembers mx)) =
    Ok (mkAux (AccountKeys mx) (Header mx) (RecentBlockhash mx) (Instructions mx)
          (if decide (version mx = MessageVersionLegacy) then None
           else Some (arrayText ((λ l, objectText (lookupMembers l)) <$> AddressTableLookups mx)))).
Proof.
  intros Hm. pose proof Hm as (Hk & Hh & Hb & Hi & Hl). unfold readAux.
  rewrite readStruct_object by (done || by apply messageMembers_ok). unfold messageMembers, bodyMembers. cbn [app].
  member 0%nat (readSlice_array zeroKey (viaMethod PublicKey_UnmarshalJSON) keyText key_ok);
    [|apply key_json|intros; by apply readKey|exact Hk].
  member 1%nat readHeader_text; [|exact Hh]. member 2%nat readHash; [|exact Hb].
  member 3%nat (readSlice_array zeroInstruction readInstruction (λ ins, objectText (insMembers ins)) ins_typed);
    [|apply ins_json|intros; by apply readInstruction_text|exact Hi].
  case_decide; [done|]. erewrite (readMembers_cons 4); [|names|names|reflexivity|reflexivity|].
  2: { cbn beta. rewrite not_null by by apply lookups_json. done. }
  done.
Qed.

(** What a document says of a message: a legacy message has no lookups. *)
Definition json_ok (mx : Message) : Prop :=
  message_typed mx ∧
  (version mx = MessageVersionV0 ∨ version mx = MessageVersionLegacy ∧ AddressTableLookups mx = []).

Lemma readMessage_text mx : json_ok mx → Message_UnmarshalJSON (objectText (messageMembers mx)) = Ok mx.
Proof.
  intros [Hm Hv]. unfold Message_UnmarshalJSON. rewrite (obind_ok _ _ _ (readAux_text mx Hm)). cbn [auxLookups].
  destruct Hv as [Hv|[Hv Hl]]; rewrite Hv; cbn [decide decide_rel].
  - rewrite decide_False by done.
    rewrite (obind_ok _ _ (AddressTableLookups mx)); [by destruct mx; cbn in *; subst|].
    destruct Hm as (_ & _ & _ & _ & Hl). apply (readSlice_array zeroLookup readLookup _ lookup_typed []);
      [apply lookup_json|intros; by apply readLookup_text|exact Hl].
  - rewrite decide_True by done. destruct mx; cbn in *. by subst.
Qed.

Lemma readTransaction_text old tx :
  Forall sig_ok (Signatures tx) → json_ok (TxMessage tx) →
  Transaction_UnmarshalJSON old (objectText (transactionMembers tx)) = Ok tx.
Proof.
  intros Hs Hm. pose proof Hm as [Ht _]. unfold Transaction_UnmarshalJSON.
  rewrite readStruct_object by (done || by apply transactionMembers_ok). unfold transactionMembers.
  member 0%nat (readSlice_array zeroSignature (viaMethod Signature_UnmarshalJSON) (λ s, quoted (Encode64 s)) sig_ok);
    [|intros; by apply json_string, Encode64_plain|intros; by apply readSignature|exact Hs].
  erewrite (readMembers_cons 1); [|names|names|reflexivity|reflexivity|].
  2: { rewrite via_text by by apply message_json. by apply readMessage_text. }
  by destruct tx.
Qed.
End structs.

(** * The writers *)

Section writers.
Context {b58 : Base58Codec}.

Lemma AppendUint_eq buf n : AppendUint buf n = buf ++ uintDigits 20 n.
Proof. done. Qed.

(** Texts without white space, written out. *)
Lemma array_append buf vs rest : buf ++ 91 :: joined vs ++ 93 :: rest = buf ++ arrayText vs ++ rest.
Proof. unfold arrayText. cbn [app]. by rewrite <- app_assoc. Qed.

Ltac flat :=
  unfold objectText, memberText, arrayText, quoted, keyText; cbn [app]; cbn [fmap list_fmap joined fst snd];
  repeat (rewrite <- ?app_assoc; cbn [app]); rewrite <- ?app_assoc; try reflexivity.

Lemma appendUint8Array_eq buf b : appendUint8Array buf b = buf ++ arrayText (uintDigits 20 <$> b).
Proof.
  unfold appendUint8Array. rewrite (appendList_joined AppendUint (uintDigits 20)) by done.
  unfold arrayText. by rewrite <- !app_assoc.
Qed.

Lemma appendInstructionJSON_eq buf ins : appendInstructionJSON buf ins = buf ++ objectText (insMembers ins).
Proof.
  unfold appendInstructionJSON. cbv zeta. rewrite (appendList_joined AppendUint (uintDigits 20)) by done.
  rewrite !AppendUint_eq. unfold insMembers. set (d := uintDigits 20 <$> _). set (n := uintDigits 20 _).
  set (e := Encode _). clearbody d n e. flat.
Qed.

Lemma appendLookupJSON_eq buf l : appendLookupJSON buf l = buf ++ objectText (lookupMembers l).
Proof.
  unfold appendLookupJSON. cbv zeta. rewrite !appendUint8Array_eq. unfold lookupMembers.
  set (w := uintDigits 20 <$> WritableIndexes l). set (r := uintDigits 20 <$> ReadonlyIndexes l).
  set (e := Encode32 _). clearbody w r e. flat.
Qed.

Lemma appendKey_eq buf k : appendKey buf k = buf ++ keyText k.
Proof. unfold appendKey, keyText, quoted. by rewrite <- !app_assoc. Qed.

Lemma appendSignature_eq buf s : appendSignature buf s = buf ++ quoted (Encode64 s).
Proof. unfold appendSignature, quoted. by rewrite <- !app_assoc. Qed.

Lemma Message_MarshalJSON_eq mx : Message_MarshalJSON mx = objectText (messageMembers mx).
Proof.
  unfold Message_MarshalJSON. cbv zeta.
  rewrite (appendList_joined appendKey keyText) by apply appendKey_eq.
  rewrite (appendList_joined appendInstructionJSON (λ ins, objectText (insMembers ins))) by apply appendInstructionJSON_eq.
  rewrite (appendList_joined appendLookupJSON (λ l, objectText (lookupMembers l))) by apply appendLookupJSON_eq.
  rewrite !AppendUint_eq. unfold messageMembers, bodyMembers, headerMembers.
  set (ks := keyText <$> AccountKeys mx). set (xs := _ <$> Instructions mx). set (ls := _ <$> AddressTableLookups mx).
  set (a := uintDigits 20 _). set (b := uintDigits 20 _). set (c := uintDigits 20 _).
  unfold keyText. set (e := Encode32 _). clearbody ks xs ls a b c e.
  destruct (decide (version mx = MessageVersionLegacy)) as [Hv|Hv].
  - rewrite decide_False by tauto. flat.
  - rewrite decide_True by done. flat.
Qed.

Lemma Transaction_MarshalJSON_eq tx : Transaction_MarshalJSON tx = objectText (transactionMembers tx).
Proof.
  unfold Transaction_MarshalJSON. cbv zeta. rewrite Message_MarshalJSON_eq.
  rewrite (appendList_joined appendSignature (λ s, quoted (Encode64 s))) by apply appendSignature_eq.
  unfold transactionMembers. set (ss := _ <$> Signatures tx). set (m := objectText (messageMembers _)). clearbody ss m. flat.
Qed.
End writers.

(** * The wire format under base64 *)

Lemma insBytes_ok ins : ins_ok ins → bytes_ok (insBytes ins).
Proof.
  intros (H1 & H2 & H3 & _). rewrite insBytes_eq. rewrite !Forall_app, Forall_singleton.
  split_and!; try (by apply appendShortvecLen_ok, len_nonneg); [apply is_byte_u8| |done].
  apply Forall_fmap. eapply Forall_impl; [done|]. intros. apply is_byte_u8.
Qed.

Lemma lookupBytes_ok l : lookup_ok l → bytes_ok (lookupBytes l).
Proof.
  intros (([_ H1] & H2 & H3) & _). rewrite lookupBytes_eq, !Forall_app.
  split_and!; try done; by apply appendShortvecLen_ok, len_nonneg.
Qed.

Lemma concat_fmap_ok {A} (f : A → bytes) (P : A → Prop) xs :
  (∀ x, P x → bytes_ok (f x)) → Forall P xs → bytes_ok (concat (f <$> xs)).
Proof. intros Hf Hxs. apply Forall_concat, Forall_fmap. by eapply Forall_impl. Qed.

Lemma bodyBytes_ok mx : body_ok mx → bytes_ok (bodyBytes mx).
Proof.
  intros (Hk & (H1 & H2 & H3) & [_ Hb] & Hi & _). rewrite bodyBytes_eq, !Forall_app.
  split_and!; try (by apply appendShortvecLen_ok, len_nonneg); [by rewrite !Forall_cons| |done|].
  - apply Forall_concat. eapply Forall_impl; [done|]. by intros k [_ H].
  - eapply concat_fmap_ok; [apply insBytes_ok|done].
Qed.

Lemma wire_ok mx msg : message_ok mx → Message.MarshalBinary mx = Ok msg → bytes_ok msg.
Proof.
  intros [Hb [(Hv & _)|(Hv & Hl & _)]].
  - rewrite MarshalBinary_legacy by done. intros [= <-]. by apply bodyBytes_ok.
  - rewrite MarshalBinary_v0 by done. intros [= <-]. constructor; [unfold is_byte; lia|].
    rewrite !Forall_app. split_and!; [by apply bodyBytes_ok|by apply appendShortvecLen_ok, len_nonneg|].
    eapply concat_fmap_ok; [apply lookupBytes_ok|done].
Qed.

Lemma wire_tx_ok tx out : transaction_ok tx → Transaction.MarshalBinary tx = Ok out → bytes_ok out.
Proof.
  intros Hok. pose proof (padded_sigs_ok tx Hok) as [Hs _]. destruct Hok as (Hm & _).
  destruct (unmarshal_marshal (TxMessage tx) zeroMessage [] Hm eq_refl) as (msg & Hmsg & _).
  rewrite (MarshalBinary_eq tx msg Hmsg). intros [= <-]. rewrite !Forall_app.
  split_and!; [by apply appendShortvecLen_ok, len_nonneg| |by eapply wire_ok].
  apply Forall_concat. eapply Forall_impl; [done|]. by intros s [_ H].
Qed.

Lemma fromBytes_marshal tx out :
  transaction_ok tx → Transaction.MarshalBinary tx = Ok out →
  TransactionFromBytes out = Ok (mkTransaction (padSignatures tx) (TxMessage tx)).
Proof.
  intros Hok Ho. destruct (unmarshal_marshal_tx tx zeroTransaction [] Hok eq_refl) as (out' & Ho' & H).
  rewrite Ho in Ho'. injection Ho' as <-. rewrite app_nil_r in H.
  unfold TransactionFromBytes, Transaction.UnmarshalBinary. by rewrite (run_bind _ _ _ _ _ H).
Qed.

(** What the JSON of a transaction can carry: values of the Go types. *)
Definition tx_json_ok (tx : Transaction) : Prop := Forall sig_ok (Signatures tx) ∧ json_ok (TxMessage tx).

(** C17. A transaction survives its text forms. The JSON document that the
    hand-written writer appends to one buffer - the signatures, then the message with
    its keys, header, blockhash, instructions and, for a version other than legacy,
    its lookups - is a JSON text that reads back, over any old transaction, as the
    same transaction, legacy or v0; the message's own document reads back as the
    message. The base64 of its wire format reads back as the transaction with its
    missing signatures filled with zeros. *)
Theorem transaction_text_roundtrip {b58 : Base58Codec} {son : SonicJSON}
    (Hb58 : Base58Laws b58) (Hson : SonicLaws son) (old tx : Transaction) (Hok : tx_json_ok tx) :
  JSONText (Transaction_MarshalJSON tx) ∧
  Transaction_UnmarshalJSON old (Transaction_MarshalJSON tx) = Ok tx ∧
  Message_UnmarshalJSON (Message_MarshalJSON (TxMessage tx)) = Ok (TxMessage tx) ∧
  (transaction_ok tx →
   TransactionFromBase64 (Transaction_ToBase64 tx) = Ok (Ok (mkTransaction (padSignatures tx) (TxMessage tx)))).
Proof.
  destruct Hok as [Hs Hm]. rewrite Transaction_MarshalJSON_eq. pose proof Hm as [Ht _].
  split; [apply objectText_json; [done|by apply transactionMembers_ok]|].
  split; [by apply readTransaction_text|]. split; [rewrite Message_MarshalJSON_eq; by apply readMessage_text|].
  intros Hw. destruct (unmarshal_marshal_tx tx zeroTransaction [] Hw eq_refl) as (out & Ho & _).
  unfold TransactionFromBase64, Transaction_ToBase64. rewrite Ho, decode_encode64 by by eapply wire_tx_ok.
  cbn. by rewrite (fromBytes_marshal tx out).
Qed.

(** A v0 transaction with a lookup and one signature. *)
Definition textTransaction : Transaction :=
  mkTransaction [replicate 64 9]
    (mkMessage MessageVersionV0 [sampleKey 1; sampleKey 2] (mkMessageHeader 1 0 1) (sampleKey 7)
       [mkCompiledInstruction 1 [0; 2; 300] [255; 0]] [mkLookup (sampleKey 3) [4] []]).

Lemma transaction_text_roundtrip_witness :
  @Transaction_UnmarshalJSON toyBase58 scanJSON zeroTransaction (@Transaction_MarshalJSON toyBase58 textTransaction) =
    Ok textTransaction ∧
  TransactionFromBase64 (Transaction_ToBase64 sampleTransaction) =
    Ok (Ok (mkTransaction (padSignatures sampleTransaction) (TxMessage sampleTransaction))).
Proof.
  assert (tx_json_ok textTransaction) as H by (split; [|split; [|by left]]; decide_by_compute).
  assert (tx_json_ok sampleTransaction) as H' by (split; [|split; [|by left]]; decide_by_compute).
  split.
  - apply (@transaction_text_roundtrip toyBase58 scanJSON toyBase58_laws scanJSON_laws zeroTransaction _ H).
  - apply (@transaction_text_roundtrip toyBase58 scanJSON toyBase58_laws scanJSON_laws zeroTransaction _ H').
    decide_by_compute.
Defined.
