(* ===== verification/Wire.v ===== *)
(** Wire: the little-endian and Borsh [Encoder] and [Decoder] of the binary
    package (binary/encoder.go, binary/decoder.go). Both have sticky errors: the
    first failure is recorded with its position, and everything after it does
    nothing. [Codec] is the interface the instruction codecs are proved
    against: a reader and the bytes it stands for. *)
From Stdlib Require Import ZArith Lia.
From stdpp Require Import base numbers list.
From S2P Require Import Prelude Shortvec Keys.

Open Scope Z_scope.

(** The package's sentinel errors. *)
Inductive sentinel := ErrUnexpectedEOF | ErrInvalidTag | ErrNonCanonical | ErrOverflow | ErrInvalidUTF8.

#[global] Instance sentinel_eq_dec : EqDecision sentinel.
Proof. solve_decision. Defined.

(** A recorded error: the bare sentinel a read or write stores, or the one
    [Err] has wrapped with the argument, offset and remaining length. *)
Inductive recorded :=
  | Bare (s : sentinel)
  | Wrapped (s : sentinel) (arg pos have : Z).

#[global] Instance recorded_eq_dec : EqDecision recorded.
Proof. solve_decision. Defined.

(** [errors.Is] against the sentinels. *)
Definition sentinelOf (r : recorded) : sentinel :=
  match r with Bare s => s | Wrapped s _ _ _ => s end.

(** * [utf8.Valid] *)

Definition inRange (lo hi b : Z) : bool := bool_decide (lo ≤ b ≤ hi).

(** The well-formed byte sequences of the Unicode standard: no overlong forms,
    no surrogates, nothing above U+10FFFF. *)
Fixpoint utf8_Valid (s : bytes) : bool :=
  match s with
  | [] => true
  | b0 :: r0 =>
    if decide (b0 < 128) then utf8_Valid r0 else
    match r0 with
    | [] => false
    | b1 :: r1 =>
      if inRange 194 223 b0 then inRange 128 191 b1 && utf8_Valid r1 else
      match r1 with
      | [] => false
      | b2 :: r2 =>
        if inRange 224 239 b0 then
          (if decide (b0 = 224) then inRange 160 191 b1
           else if decide (b0 = 237) then inRange 128 159 b1
           else inRange 128 191 b1) && inRange 128 191 b2 && utf8_Valid r2 else
        match r2 with
        | [] => false
        | b3 :: r3 =>
          inRange 240 244 b0 &&
          (if decide (b0 = 240) then inRange 144 191 b1
           else if decide (b0 = 244) then inRange 128 143 b1
           else inRange 128 191 b1) && inRange 128 191 b2 && inRange 128 191 b3 && utf8_Valid r3
        end
      end
    end
  end.

(** * Encoder *)

Record Encoder := mkEncoder {
  e_data : bytes;
  e_err : option recorded;
  e_failPos : Z;
  e_failArg : Z;
}.

Definition NewEncoder (dst : bytes) : Encoder := mkEncoder dst None 0 0.
Definition EncReset (dst : bytes) (e : Encoder) : Encoder := mkEncoder dst None (e_failPos e) (e_failArg e).
Definition Bytes (e : Encoder) : bytes := e_data e.
Definition EncLen (e : Encoder) : Z := len (e_data e).
Definition EncPos (e : Encoder) : Z := len (e_data e).

(** [Err] wraps the two sentinels the encoder records, once. *)
Definition EncErr (e : Encoder) : option recorded * Encoder :=
  match e_err e with
  | None => (None, e)
  | Some r =>
    let r := match r with
             | Bare ErrOverflow => Wrapped ErrOverflow (e_failArg e) (e_failPos e) 0
             | Bare ErrInvalidUTF8 => Wrapped ErrInvalidUTF8 0 (e_failPos e) 0
             | _ => r
             end in
    (Some r, mkEncoder (e_data e) (Some r) (e_failPos e) (e_failArg e))
  end.

Definition encFail (s : sentinel) (arg : Z) (e : Encoder) : Encoder :=
  match e_err e with
  | None => mkEncoder (e_data e) (Some (Bare s)) (len (e_data e)) arg
  | Some _ => e
  end.

(** [if e.err != nil { return }; e.data = append(e.data, bs...)]. *)
Definition encAppend (bs : bytes) (e : Encoder) : Encoder :=
  match e_err e with
  | None => mkEncoder (e_data e ++ bs) None (e_failPos e) (e_failArg e)
  | Some _ => e
  end.

Definition WriteUint8 (v : Z) : Encoder → Encoder := encAppend [v].
Definition WriteUint16 (v : Z) : Encoder → Encoder := encAppend (le_bytes 2 v).
Definition WriteUint32 (v : Z) : Encoder → Encoder := encAppend (le_bytes 4 v).
Definition WriteUint64 (v : Z) : Encoder → Encoder := encAppend (le_bytes 8 v).
Definition WriteInt64 (v : Z) : Encoder → Encoder := WriteUint64 (u64 v).
Definition WriteBool (v : bool) : Encoder → Encoder := encAppend (if v then [1] else [0]).
Definition WriteBytes (v : bytes) : Encoder → Encoder := encAppend v.
Definition WritePublicKey (v : PublicKey) : Encoder → Encoder := encAppend v.
Definition WriteSignature (v : Signature) : Encoder → Encoder := encAppend v.
Definition WriteHash (v : Hash) : Encoder → Encoder := encAppend v.

Definition WriteBorshString (v : bytes) (e : Encoder) : Encoder :=
  match e_err e with
  | Some _ => e
  | None =>
    if decide (4294967295 < u64 (len v)) then encFail ErrOverflow (len v) e
    else encAppend v (encAppend (le_bytes 4 (u32 (len v))) e)
  end.

Definition WriteBincodeString (v : bytes) (e : Encoder) : Encoder :=
  match e_err e with
  | Some _ => e
  | None =>
    if utf8_Valid v then encAppend v (encAppend (le_bytes 8 (u64 (len v))) e)
    else encFail ErrInvalidUTF8 (len v) e
  end.

Definition WriteOption (v : bool) : Encoder → Encoder := WriteBool v.
Definition WriteCOption (v : bool) : Encoder → Encoder :=
  encAppend (if v then [1; 0; 0; 0] else [0; 0; 0; 0]).

Definition WriteCompactU16 (v : Z) (e : Encoder) : Encoder :=
  match e_err e with
  | Some _ => e
  | None =>
    if decide (v < 0 ∨ 65535 < v) then encFail ErrOverflow v e else
    if decide (v < Z.shiftl 1 7) then encAppend [u8 v] e else
    if decide (v < Z.shiftl 1 14) then encAppend [Z.lor (u8 v) 128; u8 (Z.shiftr v 7)] e else
    encAppend [Z.lor (u8 v) 128; Z.lor (u8 (Z.shiftr v 7)) 128; u8 (Z.shiftr v 14)] e
  end.

(** [for v >= 0x80]: a uint64 loses seven bits per round, so ten rounds do. *)
Fixpoint writeVarLoop (fuel : nat) (v : Z) (e : Encoder) : Encoder :=
  match fuel with
  | O => e
  | S fuel' =>
    if decide (128 ≤ v) then writeVarLoop fuel' (Z.shiftr v 7) (encAppend [Z.lor (u8 v) 128] e)
    else encAppend [u8 v] e
  end.

Definition WriteVarUint64 (v : Z) (e : Encoder) : Encoder :=
  match e_err e with
  | Some _ => e
  | None => writeVarLoop 10 v e
  end.

(** * Decoder *)

Record Decoder := mkDecoder {
  d_data : bytes;
  d_pos : Z;
  d_err : option recorded;
  d_failPos : Z;
  d_failArg : Z;
}.

Definition NewDecoder (data : bytes) : Decoder := mkDecoder data 0 None 0 0.
Definition DecLen (d : Decoder) : Z := len (d_data d).
Definition Remaining (d : Decoder) : Z := len (d_data d) - d_pos d.
Definition set_pos (p : Z) (d : Decoder) : Decoder :=
  mkDecoder (d_data d) p (d_err d) (d_failPos d) (d_failArg d).

(** The reads run in the decoder's state; their callers add their own errors. *)
Section reads.
Context {E : Type}.
Abbreviation Dec := (GoM Decoder E) (only parsing).

Definition wrapErr (r : recorded) (d : Decoder) : recorded :=
  match r with
  | Bare ErrUnexpectedEOF => Wrapped ErrUnexpectedEOF (d_failArg d) (d_failPos d) (len (d_data d) - d_failPos d)
  | Bare ErrInvalidTag => Wrapped ErrInvalidTag (d_failArg d) (d_failPos d) 0
  | Bare ErrNonCanonical => Wrapped ErrNonCanonical 0 (d_failPos d) 0
  | Bare ErrOverflow => Wrapped ErrOverflow (d_failArg d) (d_failPos d) 0
  | Bare ErrInvalidUTF8 => Wrapped ErrInvalidUTF8 0 (d_failPos d) 0
  | Wrapped _ _ _ _ => r
  end.

Definition DecErr : Dec (option recorded) :=
  d ← get;
  match d_err d with
  | None => mret None
  | Some r =>
    let r := wrapErr r d in
    _ ← modify (λ d, mkDecoder (d_data d) (d_pos d) (Some r) (d_failPos d) (d_failArg d));
    mret (Some r)
  end.

Definition decFail (s : sentinel) (arg : Z) : Dec unit :=
  modify (λ d, match d_err d with
               | None => mkDecoder (d_data d) (d_pos d) (Some (Bare s)) (d_pos d) arg
               | Some _ => d
               end).

(** [d.err != nil || len(d.data)-p < n]. *)
Definition short (n : Z) (d : Decoder) : bool :=
  bool_decide (d_err d ≠ None ∨ len (d_data d) - d_pos d < n).

Definition Skip (n : Z) : Dec unit :=
  d ← get;
  match d_err d with
  | Some _ => mret tt
  | None =>
    if decide (n < 0) then decFail ErrOverflow n else
    if decide (len (d_data d) - d_pos d < n) then decFail ErrUnexpectedEOF n else
    modify (set_pos (d_pos d + n))
  end.

Definition ReadUint8 : Dec Z :=
  d ← get;
  let p := d_pos d in
  if short 1 d then _ ← decFail ErrUnexpectedEOF 1; mret 0 else
  _ ← modify (set_pos (p + 1));
  lift (idx (d_data d) p).

(** [ReadUint16], [ReadUint32] and [ReadUint64] differ in the width only. *)
Definition readLE (n : nat) : Dec Z :=
  d ← get;
  let p := d_pos d in
  if short (Z.of_nat n) d then _ ← decFail ErrUnexpectedEOF (Z.of_nat n); mret 0 else
  _ ← modify (set_pos (p + Z.of_nat n));
  s ← lift (slice_from (d_data d) p);
  lift (readUint n s).

Definition ReadUint16 : Dec Z := readLE 2.
Definition ReadUint32 : Dec Z := readLE 4.
Definition ReadUint64 : Dec Z := readLE 8.

(** [int64(v)] of a uint64. *)
Definition int64 (v : Z) : Z := if decide (9223372036854775808 ≤ v) then v - 18446744073709551616 else v.
Definition ReadInt64 : Dec Z := v ← ReadUint64; mret (int64 v).

Definition ReadBool : Dec bool :=
  d ← get;
  let p := d_pos d in
  if short 1 d then _ ← decFail ErrUnexpectedEOF 1; mret false else
  v ← lift (idx (d_data d) p);
  if decide (1 < v) then _ ← decFail ErrInvalidTag v; mret false else
  _ ← modify (set_pos (p + 1));
  mret (bool_decide (v = 1)).

(** A failed read returns nil, an empty slice here. *)
Definition ReadBytes (n : Z) : Dec bytes :=
  d ← get;
  let p := d_pos d in
  if decide (d_err d ≠ None ∨ n < 0 ∨ len (d_data d) - p < n) then
    _ ← (if decide (n < 0) then decFail ErrOverflow n else decFail ErrUnexpectedEOF n);
    mret []
  else
  _ ← modify (set_pos (p + n));
  lift (slice (d_data d) p (p + n)).

Definition ReadBytesCopy (n : Z) : Dec bytes :=
  v ← ReadBytes n;
  mret (copy_into (zeros (length v)) v).

(** [ReadPublicKey], [ReadSignature]: the next [n] bytes as an array. *)
Definition readArray (n : Z) : Dec bytes :=
  d ← get;
  let p := d_pos d in
  if short n d then _ ← decFail ErrUnexpectedEOF n; mret (zeros (Z.to_nat n)) else
  _ ← modify (set_pos (p + n));
  lift (slice (d_data d) p (p + n)).

Definition ReadPublicKey : Dec PublicKey := readArray PublicKeyLength.
Definition ReadSignature : Dec Signature := readArray SignatureLength.
Definition ReadHash : Dec Hash := ReadPublicKey.

Definition ReadBorshString : Dec bytes := n ← ReadUint32; ReadBytes n.
Definition ReadBorshStringCopy : Dec bytes := n ← ReadUint32; ReadBytes n.

Definition maxInt : Z := 9223372036854775807.

Definition readBincodeStringBytes : Dec bytes :=
  n ← ReadUint64;
  d ← get;
  match d_err d with
  | Some _ => mret []
  | None =>
    if decide (maxInt < n) then _ ← decFail ErrOverflow maxInt; mret [] else
    b ← ReadBytes n;
    d ← get;
    if decide (d_err d = None ∧ utf8_Valid b = false) then
      _ ← modify (set_pos (d_pos d - len b));
      _ ← decFail ErrInvalidUTF8 (len b);
      mret []
    else mret b
  end.

Definition ReadBincodeString : Dec bytes := readBincodeStringBytes.
Definition ReadBincodeStringCopy : Dec bytes := readBincodeStringBytes.
Definition ReadOption : Dec bool := ReadBool.

Definition ReadCOption : Dec bool :=
  d ← get;
  let p := d_pos d in
  if short 4 d then _ ← decFail ErrUnexpectedEOF 4; mret false else
  s ← lift (slice_from (d_data d) p);
  v ← lift (readUint 4 s);
  if decide (1 < v) then _ ← decFail ErrInvalidTag v; mret false else
  _ ← modify (set_pos (p + 4));
  mret (bool_decide (v = 1)).

Definition readCompactU16Slow : Dec Z :=
  d ← get;
  let p := d_pos d in
  if short 1 d then _ ← decFail ErrUnexpectedEOF 1; mret 0 else
  b0 ← lift (idx (d_data d) p);
  if decide (b0 < 128) then _ ← modify (set_pos (p + 1)); mret b0 else
  let value := Z.land b0 127 in
  rest ← lift (slice_from (d_data d) (p + 1));
  if decide (len rest < 1) then _ ← decFail ErrUnexpectedEOF 2; mret 0 else
  b1 ← lift (idx rest 0);
  if decide (b1 = 0) then _ ← decFail ErrNonCanonical b1; mret 0 else
  let value := Z.lor value (Z.shiftl (Z.land b1 127) 7) in
  if decide (b1 < 128) then _ ← modify (set_pos (p + 2)); mret value else
  if decide (len rest < 2) then _ ← decFail ErrUnexpectedEOF 3; mret 0 else
  b2 ← lift (idx rest 1);
  if decide (b2 = 0) then _ ← decFail ErrNonCanonical b2; mret 0 else
  let value := Z.lor value (Z.shiftl (Z.land b2 127) 14) in
  if decide (128 ≤ b2 ∨ 65535 < value) then _ ← decFail ErrOverflow value; mret 0 else
  _ ← modify (set_pos (p + 3)); mret value.

Definition ReadCompactU16 : Dec Z :=
  d ← get;
  let p := d_pos d in
  if decide (d_err d = None ∧ 1 ≤ len (d_data d) - p) then
    b0 ← lift (idx (d_data d) p);
    if decide (b0 < 128) then _ ← modify (set_pos (p + 1)); mret b0 else readCompactU16Slow
  else readCompactU16Slow.

(** [rounds] counts down [for index := 0; index < 10; index++]. *)
Fixpoint readVarLoop (rounds : nat) (index value p : Z) : Dec Z :=
  match rounds with
  | O => _ ← decFail ErrOverflow 10; mret 0
  | S rounds' =>
    d ← get;
    if decide (len (d_data d) - p ≤ index) then _ ← decFail ErrUnexpectedEOF (index + 1); mret 0 else
    current ← lift (idx (d_data d) (p + index));
    if decide (index = 9 ∧ 1 < current) then _ ← decFail ErrOverflow (index + 1); mret 0 else
    let value := Z.lor value (u64 (Z.shiftl (Z.land current 127) (7 * index))) in
    if decide (current < 128) then
      if decide (0 < index ∧ current = 0) then _ ← decFail ErrNonCanonical (index + 1); mret 0 else
      _ ← modify (set_pos (p + index + 1)); mret value
    else readVarLoop rounds' (index + 1) value p
  end.

Definition ReadVarUint64 : Dec Z :=
  d ← get;
  match d_err d with
  | Some _ => mret 0
  | None => readVarLoop 10 0 0 (d_pos d)
  end.

End reads.

(** * The two directions of a codec *)

(** A decoder without errors at offset [p]. *)
Definition at_ (data : bytes) (p : Z) : Decoder := mkDecoder data p None 0 0.

(** [m] reads [x] off the bytes [bs], wherever they are. *)
Definition reads {E A} (m : GoM Decoder E A) (x : A) (bs : bytes) : Prop :=
  bytes_ok bs ∧ ∀ pre rest, bytes_ok pre → bytes_ok rest →
    m (at_ (pre ++ bs ++ rest) (len pre)) = (Ok x, at_ (pre ++ bs ++ rest) (len pre + len bs)).

Definition dec_inv (d : Decoder) : Prop := bytes_ok (d_data d) ∧ 0 ≤ d_pos d ≤ len (d_data d).

(** The unread bytes. *)
Definition unread (d : Decoder) : bytes := drop (Z.to_nat (d_pos d)) (d_data d).

(** What a read may do to a decoder: keep the buffer and a valid position; do
    nothing after an error; and, if it does not fail, consume bytes that [P]
    relates to its result. *)
Definition post {A} (P : A → bytes → Prop) (d : Decoder) (x : A) (d' : Decoder) : Prop :=
  dec_inv d' ∧ d_data d' = d_data d ∧ (d_err d ≠ None → d' = d) ∧
  (d_err d = None → d_err d' = None → ∃ bs, unread d = bs ++ unread d' ∧ P x bs).

Definition parses {E A} (m : GoM Decoder E A) (P : A → bytes → Prop) : Prop :=
  ∀ d, dec_inv d → wp m (post P d) (λ _ _, True) d.

(** The interface between the decoder and the instruction codecs: [rd] reads
    back the encoding of every value in [dom], never panics, and what it accepts
    is an encoding of what it returns. *)
Class Codec {E A} (rd : GoM Decoder E A) (enc : A → bytes) (dom : A → Prop) : Prop := {
  codec_reads x : dom x → reads rd x (enc x);
  codec_parses : parses rd (λ x bs, dom x ∧ bs = enc x);
}.

Lemma reads_ret {E A} (x : A) : reads (E:=E) (mret x) x [].
Proof. split; [constructor|]. intros pre rest _ _. rewrite len_nil, Z.add_0_r. done. Qed.

Lemma reads_bind {E A B} (m : GoM Decoder E A) (f : A → GoM Decoder E B) x y b1 b2 bs :
  reads m x b1 → reads (f x) y b2 → bs = b1 ++ b2 → reads (m ≫= f) y bs.
Proof.
  intros [H1 Hm] [H2 Hf] ->. split; [by apply Forall_app_2|]. intros pre rest Hpre Hrest.
  erewrite run_bind by (rewrite <- app_assoc; apply Hm; [done|by apply Forall_app_2]).
  specialize (Hf (pre ++ b1) rest (Forall_app_2 _ _ _ Hpre H1) Hrest). rewrite len_app in Hf. rewrite <- !app_assoc in *.
  rewrite Hf. by rewrite len_app, Z.add_assoc.
Qed.

Lemma parses_ret {E A} (x : A) : parses (E:=E) (mret x) (λ y bs, y = x ∧ bs = []).
Proof. intros d Hd. apply wp_ret. split_and!; [done..|]. intros _ _. by exists []. Qed.

Lemma post_trans {A B} (P : A → bytes → Prop) (Q : B → bytes → Prop) d x d' y d'' :
  post P d x d' → post Q d' y d'' →
  post (λ y bs, ∃ b1 b2, bs = b1 ++ b2 ∧ P x b1 ∧ Q y b2) d y d''.
Proof.
  intros (Hi & Hd & Hs & Hp) (Hi' & Hd' & Hs' & Hp'). split_and!; [done|congruence| |].
  - intros He. specialize (Hs He). subst d'. auto.
  - intros He He''. destruct (d_err d') eqn:He'.
    + rewrite Hs' in He'' by congruence. congruence.
    + destruct (Hp He eq_refl) as (b1 & H1 & ?). destruct (Hp' eq_refl He'') as (b2 & H2 & ?).
      exists (b1 ++ b2). rewrite <- app_assoc, <- H2. split; [done|]. eauto.
Qed.

Lemma parses_bind {E A B} (m : GoM Decoder E A) (f : A → GoM Decoder E B) P Q :
  parses m P → (∀ x, parses (f x) (Q x)) →
  parses (m ≫= f) (λ y bs, ∃ x b1 b2, bs = b1 ++ b2 ∧ P x b1 ∧ Q x y b2).
Proof.
  intros Hm Hf d Hd. apply wp_bind. eapply wp_mono; [by apply Hm| |done].
  intros x d' Hp. assert (dec_inv d') as Hd' by apply Hp.
  eapply wp_mono; [by apply Hf| |done]. intros y d'' Hq.
  destruct (post_trans _ _ _ _ _ _ _ Hp Hq) as (? & ? & ? & H). split_and!; [done..|].
  intros He He''. destruct (H He He'') as (bs & ? & b1 & b2 & ?). eauto 8.
Qed.

Lemma parses_mono {E A} (m : GoM Decoder E A) (P Q : A → bytes → Prop) :
  parses m P → (∀ x bs, P x bs → Q x bs) → parses m Q.
Proof.
  intros Hm HPQ d Hd. eapply wp_mono; [by apply Hm| |done].
  intros x d' (? & ? & ? & H). split_and!; [done..|]. intros He He'. destruct (H He He') as (bs & ? & ?). eauto.
Qed.

(** ** Steps of the readers *)

Lemma wp_fail {E A} (P : A → bytes → Prop) s arg (x : A) d :
  dec_inv d → wp (E:=E) (_ ← decFail s arg; mret x) (post P d) (λ _ _, True) d.
Proof.
  intros Hd. apply wp_run_modify, wp_ret. destruct (d_err d) eqn:He; (split_and!; [done|done|done|]); simpl; congruence.
Qed.

Lemma post_advance {A} (P : A → bytes → Prop) d x bs rest :
  dec_inv d → d_err d = None → unread d = bs ++ rest → P x bs →
  post P d x (set_pos (d_pos d + len bs) d).
Proof.
  intros (Hb & Hp) He Hu HP. unfold unread in *.
  assert (len bs + len rest = len (d_data d) - d_pos d) as Hlen.
  { rewrite <- len_app, <- Hu. apply len_drop. lia. }
  pose proof (len_nonneg bs). pose proof (len_nonneg rest).
  split_and!; [split; [done|simpl; lia]|done|congruence|]. intros _ _. exists bs. split; [|done].
  unfold unread. simpl. rewrite Hu. f_equal. rewrite Z2Nat.inj_add, <- drop_drop, Hu, to_nat_len, drop_app_length by lia. done.
Qed.

Lemma short_false n d : short n d = false ↔ d_err d = None ∧ n ≤ len (d_data d) - d_pos d.
Proof.
  unfold short. rewrite bool_decide_eq_false. destruct (d_err d); [naive_solver|].
  split; [intros H; split; [done|lia]|intros [_ H] [?|?]; [done|lia]].
Qed.

Lemma short_at n pre bs rest : n = len bs → short n (at_ (pre ++ bs ++ rest) (len pre)) = false.
Proof. intros ->. apply short_false. simpl. split; [done|]. rewrite !len_app. pose_lens. lia. Qed.

(** The unread bytes split off [n] bytes when there are as many. *)
Lemma unread_split d n :
  dec_inv d → 0 ≤ n ≤ len (d_data d) - d_pos d →
  ∃ pre bs rest, d_data d = pre ++ bs ++ rest ∧ d_pos d = len pre ∧ len bs = n ∧
    unread d = bs ++ rest ∧ bytes_ok bs ∧ bytes_ok rest.
Proof.
  intros (Hb & Hp) Hn. destruct (split_at (d_data d) (d_pos d)) as (pre & tl & Heq & Hl & Hpre & Htl); [done|lia|].
  rewrite Heq, len_app in Hn. destruct (split_at tl n) as (bs & rest & -> & Hlb & Hbs & Hr); [done|lia|].
  exists pre, bs, rest. split_and!; [done|done|done| |done|done].
  unfold unread. by rewrite Heq, <- Hl, to_nat_len, drop_app_length.
Qed.

Lemma idx_at {E} (pre rest : bytes) b : idx (E:=E) (pre ++ b :: rest) (len pre) = Ok b.
Proof. apply idx_ok; [apply len_nonneg|]. rewrite to_nat_len. by apply list_lookup_middle. Qed.

Ltac start_reads :=
  split; [auto with bytes_db|]; intros pre rest Hpre Hrest; unfold ReadUint8, readLE, ReadBool, readArray, ReadCOption;
  rewrite run_get; cbn [d_pos d_data d_err at_]; cbv zeta;
  rewrite ?short_at by (rewrite ?len_le_bytes; done || lia).

Ltac start_parses d Hd :=
  intros d Hd; unfold ReadUint8, readLE, ReadBool, readArray, ReadCOption;
  apply wp_run_get; cbv zeta;
  match goal with |- context [short ?n d] =>
    let Hs := fresh "Hs" in
    destruct (short n d) eqn:Hs; [by apply wp_fail|]; apply short_false in Hs as [? ?] end.

#[global] Instance codec_uint8 {E} : Codec (E:=E) ReadUint8 (λ v, [v]) is_byte.
Proof.
  split.
  - intros v Hv. start_reads. rewrite run_modify. unfold lift.
    cbn [app]. by rewrite idx_at.
  - start_parses d Hd. destruct (unread_split d 1) as (pre & bs & rest & Hdata & Hpos & Hl & Hu & Hbs & _); [done|lia|].
    destruct bs as [|b [|]]; try (unfold len in Hl; simpl in Hl; lia).
    apply Forall_cons in Hbs as [Hb _]. apply wp_run_modify, wp_lift.
    rewrite Hdata, Hpos. cbn [app]. rewrite idx_at, <- Hpos. by apply (post_advance _ d b [b] rest).
Qed.

(** Any [n] bytes are a little-endian number. *)
Lemma le_prefix (n : nat) l :
  bytes_ok l → Z.of_nat n ≤ len l → ∃ v r, l = le_bytes n v ++ r ∧ is_uint n v ∧ bytes_ok r.
Proof.
  intros Hl Hn. destruct (split_at l (Z.of_nat n)) as (a & r & -> & Hla & Ha & Hr); [done|lia|].
  assert (length a = n) as <- by (unfold len in Hla; lia).
  exists (le_val a), r. split_and!; [by rewrite le_bytes_le_val|by apply le_val_bound|done].
Qed.

#[global] Instance codec_le {E} (n : nat) : Codec (E:=E) (readLE n) (le_bytes n) (is_uint n).
Proof.
  split.
  - intros v Hv. start_reads. rewrite run_modify. erewrite run_lift by (by apply slice_from_app).
    unfold lift. rewrite readUint_app by done. by rewrite len_le_bytes.
  - start_parses d Hd. destruct (unread_split d (Z.of_nat n)) as (pre & bs & rest & Hdata & Hpos & Hl & Hu & Hbs & _); [done|lia|].
    destruct (take_uint n bs) as (v & tl & -> & Hv & _); [done|lia|].
    assert (tl = []) as -> by (apply len_0; rewrite len_app, len_le_bytes in Hl; lia).
    rewrite app_nil_r in *. apply wp_run_modify.
    eapply wp_run_lift; [rewrite Hdata, Hpos; by apply slice_from_app|]. apply wp_lift.
    rewrite readUint_app by done. rewrite <- Hl. by apply (post_advance _ d v _ rest).
Qed.

#[global] Instance codec_uint16 {E} : Codec (E:=E) ReadUint16 (le_bytes 2) (is_uint 2) := codec_le 2.
#[global] Instance codec_uint32 {E} : Codec (E:=E) ReadUint32 (le_bytes 4) (is_uint 4) := codec_le 4.
#[global] Instance codec_uint64 {E} : Codec (E:=E) ReadUint64 (le_bytes 8) (is_uint 8) := codec_le 8.

Definition boolByte (v : bool) : bytes := if v then [1] else [0].

#[global] Instance codec_bool {E} : Codec (E:=E) ReadBool boolByte (λ _, True).
Proof.
  split.
  - intros v _. split; [by destruct v; repeat constructor|]. intros pre rest _ _. unfold ReadBool. rewrite run_get. cbv zeta. rewrite short_at by (by destruct v).
    erewrite run_lift.
    2: { instantiate (1 := if v then 1 else 0). destruct v; apply idx_at. }
    rewrite decide_False by (destruct v; lia). rewrite run_modify. by destruct v.
  - start_parses d Hd. destruct (unread_split d 1) as (pre & bs & rest & Hdata & Hpos & Hl & Hu & Hbs & _); [done|lia|].
    destruct bs as [|b [|]]; try (unfold len in Hl; simpl in Hl; lia).
    apply Forall_cons in Hbs as [Hb _]. unfold is_byte in Hb.
    eapply wp_run_lift; [rewrite Hdata, Hpos; apply idx_at|].
    case_decide; [by apply wp_fail|]. apply wp_run_modify, wp_ret.
    apply (post_advance _ d _ [b] rest); [done..|]. split; [done|].
    unfold boolByte. case_bool_decide; f_equal; lia.
Qed.

#[global] Instance codec_option {E} : Codec (E:=E) ReadOption boolByte (λ _, True) := codec_bool.

(** An array of [n] bytes. *)
Definition array_ok (n : Z) (x : bytes) : Prop := len x = n ∧ bytes_ok x.

Lemma codec_array {E} n : 0 ≤ n → Codec (E:=E) (readArray n) (λ x, x) (array_ok n).
Proof.
  intros Hn. split.
  - intros x [Hl Hx]. start_reads. rewrite run_modify. unfold lift.
    rewrite slice_app by lia. by rewrite Hl.
  - start_parses d Hd.
    destruct (unread_split d n) as (pre & bs & rest & Hdata & Hpos & Hl & Hu & Hbs & _); [done|lia|].
    apply wp_run_modify, wp_lift. rewrite Hdata, slice_app by lia. rewrite <- Hl.
    by apply (post_advance _ d bs bs rest).
Qed.

#[global] Instance codec_signature {E} : Codec (E:=E) ReadSignature (λ x, x) (array_ok 64).
Proof. by apply codec_array. Qed.
#[global] Instance codec_publicKey {E} : Codec (E:=E) ReadPublicKey (λ x, x) (array_ok 32).
Proof. by apply codec_array. Qed.
#[global] Instance codec_hash {E} : Codec (E:=E) ReadHash (λ x, x) (array_ok 32) := codec_publicKey.

#[global] Instance codec_bytes {E} n : Codec (E:=E) (ReadBytes n) (λ x, x) (array_ok n).
Proof.
  split.
  - intros x [Hl Hx]. split; [done|]. intros pre rest _ _. unfold ReadBytes. rewrite run_get. cbn [d_pos d_data d_err at_]. cbv zeta.
    rewrite decide_False.
    2: { pose proof (len_nonneg x). intros [?|[?|?]]; [done|lia|]. rewrite !len_app in *. pose_lens. lia. }
    rewrite run_modify. unfold lift. rewrite slice_app by lia. by rewrite Hl.
  - intros d Hd. unfold ReadBytes. apply wp_run_get. cbv zeta. case_decide as Hs.
    { case_decide; by apply wp_fail. }
    assert (d_err d = None ∧ 0 ≤ n ≤ len (d_data d) - d_pos d) as [He Hle].
    { destruct (d_err d); [exfalso; apply Hs; by left|]. split; [done|].
      split; apply Z.nlt_ge; intros ?; apply Hs; auto. }
    destruct (unread_split d n) as (pre & bs & rest & Hdata & Hpos & Hl & Hu & Hbs & _); [done|lia|].
    apply wp_run_modify, wp_lift. rewrite Hdata, slice_app by lia. rewrite <- Hl.
    by apply (post_advance _ d bs bs rest).
Qed.

Lemma codec_bytes_run {E} pre x rest :
  ReadBytes (E:=E) (len x) (at_ (pre ++ x ++ rest) (len pre)) = (Ok x, at_ (pre ++ x ++ rest) (len pre + len x)).
Proof.
  unfold ReadBytes. rewrite run_get. cbn [d_pos d_data d_err at_]. cbv zeta. rewrite decide_False.
  2: { pose proof (len_nonneg x). intros [?|[?|?]]; [done|lia|]. rewrite !len_app in *. pose_lens. lia. }
  rewrite run_modify. unfold lift. by rewrite slice_app by lia.
Qed.

(** A Borsh string of at most 2^32 - 1 bytes. *)
Definition borshString (v : bytes) : bytes := le_bytes 4 (len v) ++ v.
Definition borsh_ok (v : bytes) : Prop := len v < 2 ^ 32 ∧ bytes_ok v.

#[global] Instance codec_borshString {E} : Codec (E:=E) ReadBorshString borshString borsh_ok.
Proof.
  split.
  - intros v [Hl Hv]. eapply reads_bind; [apply codec_reads|apply codec_bytes|done].
    + pose proof (len_nonneg v). unfold is_uint. simpl. lia.
    + done.
  - eapply parses_mono; [eapply parses_bind; [apply codec_parses|intros n; apply codec_parses]|].
    intros v bs (n & b1 & b2 & -> & (Hn & ->) & (Hl & Hv) & ->). simpl in *. unfold is_uint in Hn. simpl in Hn.
    unfold borsh_ok, borshString. rewrite Hl. split; [split; [lia|done]|done].
Qed.

(** A bincode string: valid UTF-8 behind its uint64 length. *)
Definition bincodeString (v : bytes) : bytes := le_bytes 8 (len v) ++ v.
Definition bincode_ok (v : bytes) : Prop := len v ≤ maxInt ∧ bytes_ok v ∧ utf8_Valid v = true.

Lemma is_uint8_int v : 0 ≤ v ≤ maxInt → is_uint 8 v.
Proof.
  unfold is_uint, maxInt. change (256 ^ Z.of_nat 8) with 18446744073709551616. lia.
Qed.

#[global] Instance codec_bincodeString {E} : Codec (E:=E) ReadBincodeString bincodeString bincode_ok.
Proof.
  unfold ReadBincodeString, readBincodeStringBytes, maxInt. split.
  - intros v (Hl & Hv & Hu). pose proof (len_nonneg v). unfold maxInt in *.
    eapply reads_bind; [apply codec_reads; by apply is_uint8_int| |done].
    split; [done|]. intros pre rest _ _. rewrite run_get. cbn [d_err at_]. rewrite decide_False by lia.
    erewrite run_bind by (apply codec_bytes_run; done). rewrite run_get. rewrite decide_False; [done|].
    intros [_ ?]. congruence.
  - intros d Hd. apply wp_bind. eapply wp_mono; [apply codec_parses; done| |done].
    intros n d1 Hp1. assert (dec_inv d1) as Hd1 by apply Hp1. apply wp_run_get.
    assert (∀ y d2, post (λ v bs, bincode_ok v ∧ le_bytes 8 n ++ bs = bincodeString v) d1 y d2 →
                    post (λ v bs, bincode_ok v ∧ bs = bincodeString v) d y d2) as Htrans.
    { intros y d2 Hp2. destruct (post_trans _ _ _ _ _ _ _ Hp1 Hp2) as (? & ? & ? & H).
      split_and!; [done..|]. intros He He2. destruct (H He He2) as (bs & ? & b1 & b2 & -> & [_ ->] & ? & <-). eauto. }
    destruct (d_err d1) as [r|] eqn:He1.
    { apply wp_ret, Htrans. split_and!; [done..|]. congruence. }
    case_decide as Hmax. { eapply wp_mono; [by apply wp_fail|apply Htrans|done]. }
    apply wp_bind. eapply wp_mono; [apply codec_parses; done| |done].
    intros b d2 Hp2. apply wp_run_get. case_decide as Hv.
    + destruct Hp2 as (Hd2 & Hdata & _ & Hok). destruct Hv as [He2 Hv].
      destruct (Hok He1 He2) as (bs & Hu & (Hlb & Hbb) & ->).
      apply wp_run_modify, wp_run_modify, wp_ret, Htrans. simpl. rewrite He2. unfold set_pos. simpl.
      destruct Hd1 as [Hb1 Hq1], Hd2 as [Hb2 Hq2]. pose proof (len_nonneg b).
      assert (len (unread d1) = len b + len (unread d2)) as Hlen by (by rewrite Hu, len_app).
      rewrite Hdata in *. unfold unread in Hlen. rewrite Hdata in Hlen. rewrite !len_drop in Hlen by lia.
      split_and!; [split; [done|simpl; lia]|done|congruence|]. simpl. congruence.
    + apply wp_ret, Htrans. destruct Hp2 as (? & ? & ? & Hok). split_and!; [done..|].
      intros _ He2. destruct (Hok He1 He2) as (bs & Hu & (Hlb & Hbb) & ->).
      exists b. split; [done|]. unfold bincode_ok, bincodeString, maxInt.
      destruct (utf8_Valid b); [|exfalso; apply Hv; done]. rewrite Hlb. split; [|done]. split_and!; [lia|done|done].
Qed.

#[global] Instance codec_coption {E} :
  Codec (E:=E) ReadCOption (λ v : bool, if v then [1; 0; 0; 0] else [0; 0; 0; 0]) (λ _, True).
Proof.
  split.
  - intros v _. split; [by destruct v; repeat constructor|]. intros pre rest _ _. unfold ReadCOption. rewrite run_get. cbv zeta. rewrite short_at by (by destruct v).
    erewrite run_lift by (by apply slice_from_app).
    replace (if v then [1; 0; 0; 0] else [0; 0; 0; 0]) with (le_bytes 4 (if v then 1 else 0)) by (by destruct v).
    erewrite run_lift by (apply readUint_app; destruct v; done).
    rewrite decide_False by (destruct v; lia). rewrite run_modify. by destruct v.
  - start_parses d Hd. destruct (unread_split d 4) as (pre & bs & rest & Hdata & Hpos & Hl & Hu & Hbs & _); [done|lia|].
    destruct (take_uint 4 bs) as (v & tl & -> & Hv & _); [done|lia|].
    assert (tl = []) as -> by (apply len_0; rewrite len_app, len_le_bytes in Hl; lia).
    rewrite app_nil_r in *. eapply wp_run_lift; [rewrite Hdata, Hpos; by apply slice_from_app|].
    eapply wp_run_lift; [by apply readUint_app|]. unfold is_uint in Hv.
    case_decide; [by apply wp_fail|]. apply wp_run_modify, wp_ret. rewrite <- Hl.
    apply (post_advance _ d _ _ rest); [done..|]. split; [done|].
    assert (v = 0 ∨ v = 1) as [->| ->] by lia; done.
Qed.

(** ** Compact-u16 *)

(** The sentinel of each error of the root package's length decoder. *)
Definition compactSentinel (e : shortvec_err) : sentinel :=
  match e with
  | errShortvecTruncated => ErrUnexpectedEOF
  | errShortvecTooLarge => ErrOverflow
  | errShortvecNonCanonical => ErrNonCanonical
  end.

(** The outcome of a read that agrees with [r] on the unread bytes. *)
Definition agrees {E} (r : outcome shortvec_err (Z * Z)) (d : Decoder) (res : outcome E Z * Decoder) : Prop :=
  match r with
  | Ok (v, n) => res = (Ok v, set_pos (d_pos d + n) d)
  | Err e => ∃ arg, res = (Ok 0, mkDecoder (d_data d) (d_pos d) (Some (Bare (compactSentinel e))) (d_pos d) arg)
  | Panic => False
  end.

Lemma fail_agrees {E} d e s arg :
  d_err d = None → compactSentinel e = s → agrees (E:=E) (Err e) d ((_ ← decFail s arg; mret 0) d).
Proof. intros He <-. unfold decFail. rewrite run_modify, He. by exists arg. Qed.

Lemma ReadCompactU16_slow {E} d : dec_inv d → ReadCompactU16 (E:=E) d = readCompactU16Slow d.
Proof.
  intros Hd. unfold ReadCompactU16. rewrite run_get. cbv zeta. case_decide as H; [|done].
  destruct H as [He Hl]. unfold readCompactU16Slow.
  destruct (unread_split d 1) as (pre & bs & rest & Hdata & Hpos & Hlb & _); [done|lia|].
  destruct bs as [|b [|]]; try (unfold len in Hlb; simpl in Hlb; lia). cbn [app] in Hdata.
  assert (idx (E:=E) (d_data d) (d_pos d) = Ok b) as Hidx by (rewrite Hdata, Hpos; apply idx_at).
  erewrite run_lift by exact Hidx. case_decide; [|done].
  rewrite run_get. cbv zeta. assert (short 1 d = false) as -> by (apply short_false; split; [done|lia]).
  erewrite run_lift by exact Hidx. by rewrite decide_True.
Qed.

Lemma readCompactU16Slow_agrees {E} d :
  dec_inv d → d_err d = None → agrees (E:=E) (decode_spec (unread d)) d (readCompactU16Slow d).
Proof.
  intros Hd He. destruct (unread_split d 0) as (pre & bs & rest & Hdata & Hpos & Hlb & Hu & _ & Hr);
    [done|destruct Hd; lia|].
  apply len_0 in Hlb as ->. cbn [app] in *. rewrite Hu.
  unfold readCompactU16Slow. rewrite run_get. cbv zeta.
  destruct rest as [|b0 d1].
  { assert (short 1 d = true) as ->.
    { apply not_false_iff_true. rewrite short_false, Hdata, Hpos, app_nil_r. lia. }
    by apply fail_agrees. }
  apply Forall_cons in Hr as [Hb0 Hr]. unfold is_byte in Hb0.
  assert (short 1 d = false) as ->.
  { apply short_false. rewrite Hdata, Hpos, len_app, len_cons. pose proof (len_nonneg d1). split; [done|lia]. }
  erewrite run_lift by (rewrite Hdata, Hpos; apply idx_at). unfold decode_spec.
  case_decide as H0; [done|].
  erewrite run_lift.
  2: { rewrite Hdata, Hpos, cons_middle, app_assoc. apply slice_from_app. by rewrite len_app. }
  destruct d1 as [|b1 d2]; [by apply fail_agrees|].
  apply Forall_cons in Hr as [Hb1 Hr]. unfold is_byte in Hb1.
  rewrite (decide_False (P := len (b1 :: d2) < 1)) by (rewrite len_cons; pose proof (len_nonneg d2); lia).
  erewrite run_lift by (by apply idx_ok).
  case_decide as H1; [by apply fail_agrees|].
  assert (Z.land b0 127 = b0 mod 128) as Hv0 by (apply land_7f; lia).
  assert (Z.lor (Z.land b0 127) (Z.shiftl (Z.land b1 127) 7) = b0 mod 128 + 128 * (b1 mod 128)) as Hv1.
  { rewrite Hv0. change 7 with (7 * 1). rewrite lor_shift_7 by dlia. change (2 ^ (7 * 1)) with 128. lia. }
  rewrite Hv1. destruct (decide (b1 < 128)) as [H1'|H1'].
  { rewrite run_modify. rewrite (Z.mod_small b1) by lia. done. }
  destruct d2 as [|b2 d3]; [by apply fail_agrees|].
  apply Forall_cons in Hr as [Hb2 Hr]. unfold is_byte in Hb2. pose proof (len_nonneg d3).
  rewrite (decide_False (P := len (b1 :: b2 :: d3) < 2)) by (rewrite !len_cons; lia).
  erewrite run_lift by (by apply idx_ok). case_decide as H2; [by apply fail_agrees|].
  assert (Z.lor (b0 mod 128 + 128 * (b1 mod 128)) (Z.shiftl (Z.land b2 127) 14) =
          b0 mod 128 + 128 * (b1 mod 128) + 16384 * (b2 mod 128)) as Hv2.
  { change 14 with (7 * 2). rewrite lor_shift_7 by dlia. change (2 ^ (7 * 2)) with 16384. lia. }
  rewrite Hv2. destruct (decide (128 ≤ b2 ∨ _)) as [H3|H3].
  - rewrite decide_False; [by apply fail_agrees|]. intros [? ?]. rewrite (Z.mod_small b2) in H3; lia.
  - rewrite (Z.mod_small b2) in * by lia. rewrite decide_True by lia. rewrite run_modify. done.
Qed.

Lemma ReadCompactU16_agrees {E} d :
  dec_inv d → d_err d = None → agrees (E:=E) (decodeShortvecLen (unread d)) d (ReadCompactU16 d).
Proof.
  intros Hd He. rewrite ReadCompactU16_slow by done.
  rewrite decodeShortvecLen_eq by (apply Forall_drop, Hd). by apply readCompactU16Slow_agrees.
Qed.

Definition is_len (v : Z) : Prop := 0 ≤ v ≤ 65535.

Lemma post_error {A} (P : A → bytes → Prop) d x s arg :
  dec_inv d → d_err d = None →
  post P d x (mkDecoder (d_data d) (d_pos d) (Some (Bare s)) (d_pos d) arg).
Proof. intros Hd He. split_and!; [done|done|congruence|done]. Qed.

Lemma unread_at pre bs rest : unread (at_ (pre ++ bs ++ rest) (len pre)) = bs ++ rest.
Proof. unfold unread. simpl. by rewrite to_nat_len, drop_app_length. Qed.

Lemma ReadCompactU16_err {E} d r : d_err d = Some r → ReadCompactU16 (E:=E) d = (Ok 0, d).
Proof.
  intros He. unfold ReadCompactU16. rewrite run_get. cbv zeta. rewrite decide_False by (rewrite He; naive_solver).
  unfold readCompactU16Slow. rewrite run_get. cbv zeta.
  assert (short 1 d = true) as -> by (unfold short; apply bool_decide_eq_true; left; congruence).
  unfold decFail. by rewrite run_modify, He.
Qed.

#[global] Instance codec_compactU16 {E} : Codec (E:=E) ReadCompactU16 (appendShortvecLen []) is_len.
Proof.
  split.
  - intros v Hv. assert (bytes_ok (appendShortvecLen [] v)) as Hb
      by (apply appendShortvecLen_ok; unfold is_len in Hv; lia).
    split; [done|]. intros pre rest Hpre Hrest. set (d := at_ _ _).
    assert (dec_inv d) as Hd.
    { split; [apply Forall_app_2; [done|by apply Forall_app_2]|]. simpl. rewrite !len_app. pose_lens. lia. }
    pose proof (ReadCompactU16_agrees (E:=E) d Hd eq_refl) as H. subst d. rewrite unread_at in H.
    rewrite decode_append in H by done. simpl in H. rewrite H. unfold set_pos. simpl.
    rewrite (len_append v). done.
  - intros d Hd. destruct (d_err d) as [r|] eqn:He.
    { unfold wp. rewrite (ReadCompactU16_err d r) by done. split_and!; [done..|congruence]. }
    pose proof (ReadCompactU16_agrees (E:=E) d Hd He) as H. unfold wp.
    pose proof (decode_canonical (unread d) (Forall_drop _ _ _ (proj1 Hd))) as Hc.
    destruct (decodeShortvecLen (unread d)) as [[v n]|e|]; [| |done].
    + simpl in H. rewrite H. destruct Hc as (Hv & -> & _ & Hu).
      rewrite <- (len_append v). by eapply post_advance.
    + destruct H as [arg ->]. by apply post_error.
Qed.

(** ** LEB128 *)

(** The canonical unsigned LEB128 of [v]: the compact-u16 scheme, unbounded. *)
Definition varint (v : Z) : bytes := appendShortvecLen [] v.

Lemma pow_7_bound i : 0 ≤ i ≤ 8 → 128 * 2 ^ (7 * i) ≤ 2 ^ 63.
Proof.
  intros Hi. change 128 with (2 ^ 7). rewrite <- Z.pow_add_r by lia. apply Z.pow_le_mono_r; lia.
Qed.

Lemma pow_7_succ i : 0 ≤ i → 2 ^ (7 * (i + 1)) = 128 * 2 ^ (7 * i).
Proof. intros. replace (7 * (i + 1)) with (7 + 7 * i) by lia. by rewrite Z.pow_add_r by lia. Qed.

Lemma var_step value cur i :
  0 ≤ i ≤ 9 → is_byte cur → (i = 9 → cur ≤ 1) → 0 ≤ value < 2 ^ (7 * i) →
  Z.lor value (u64 (Z.shiftl (Z.land cur 127) (7 * i))) = value + cur mod 128 * 2 ^ (7 * i).
Proof.
  unfold is_byte. intros Hi Hc H9 Hv.
  assert (0 ≤ Z.shiftl (Z.land cur 127) (7 * i) < 18446744073709551616) as Hr.
  { rewrite land_7f, Z.shiftl_mul_pow2 by lia. pose proof (Z.mod_pos_bound cur 128 eq_refl).
    destruct (decide (i = 9)) as [->|Hne].
    - rewrite Z.mod_small by lia. change (2 ^ (7 * 9)) with 9223372036854775808. lia.
    - pose proof (pow_7_bound i ltac:(lia)) as Hp. change (2 ^ 63) with 9223372036854775808 in Hp.
      pose proof (Z.pow_nonneg 2 (7 * i)). nia. }
  unfold u64. rewrite Z.mod_small by done. apply lor_shift_7; lia.
Qed.

Lemma varint_small v : 0 ≤ v < 128 → varint v = [v].
Proof. apply append_small. Qed.

Lemma varint_step v : 128 ≤ v → varint v = (v mod 128 + 128) :: varint (v / 128).
Proof. apply append_step. Qed.

Lemma varint_len_pos v : 0 ≤ v → 1 ≤ len (varint v).
Proof.
  intros Hv. destruct (decide (v < 128)); [rewrite varint_small by lia; done|].
  rewrite varint_step by lia. rewrite len_cons. pose proof (len_nonneg (varint (v / 128))). lia.
Qed.

Lemma varint_ok v : 0 ≤ v → bytes_ok (varint v).
Proof. apply appendShortvecLen_ok. Qed.

Lemma encAppend_app b1 b2 e : encAppend b2 (encAppend b1 e) = encAppend (b1 ++ b2) e.
Proof.
  unfold encAppend. destruct (e_err e) eqn:He; [by rewrite He|]. simpl. by rewrite app_assoc.
Qed.

Lemma writeVarLoop_S fuel v e :
  writeVarLoop (S fuel) v e =
    if decide (128 ≤ v) then writeVarLoop fuel (Z.shiftr v 7) (encAppend [Z.lor (u8 v) 128] e)
    else encAppend [u8 v] e.
Proof. done. Qed.

Lemma writeVarLoop_ok fuel v e :
  0 ≤ v < 2 ^ (7 * (Z.of_nat fuel + 1)) → writeVarLoop (S fuel) v e = encAppend (varint v) e.
Proof.
  revert v e. induction fuel as [|fuel IH]; intros v e Hv; rewrite writeVarLoop_S; case_decide as H.
  - change (2 ^ _) with 128 in Hv. lia.
  - by rewrite varint_small, u8_small by lia.
  - rewrite Nat2Z.inj_succ, <- Z.add_1_r, pow_7_succ in Hv by lia.
    assert (0 ≤ v / 128 < 2 ^ (7 * (Z.of_nat fuel + 1))) as Hq
      by (split; [apply Z.div_pos; lia|apply Z.div_lt_upper_bound; lia]).
    rewrite shiftr_7, IH, encAppend_app, (varint_step v), low7 by done. done.
  - by rewrite varint_small, u8_small by lia.
Qed.

Lemma readVarLoop_reads {E} rounds i w value p pre rest :
  0 ≤ i → i + Z.of_nat rounds = 10 → len pre = p + i → 0 ≤ p →
  0 ≤ value < 2 ^ (7 * i) → 0 ≤ w → value + w * 2 ^ (7 * i) < 2 ^ 64 → (0 < i → w ≠ 0) →
  let data := pre ++ varint w ++ rest in
  readVarLoop (E:=E) rounds i value p (at_ data p) =
    (Ok (value + w * 2 ^ (7 * i)), at_ data (len pre + len (varint w))).
Proof.
  intros Hi Hr Hp Hp0 Hv Hw Hlt Hnz. revert i w value pre Hi Hr Hp Hv Hw Hlt Hnz.
  induction rounds as [|rounds IH]; intros i w value pre Hi Hr Hp Hv Hw Hlt Hnz data.
  { exfalso. assert (i = 10) as -> by lia. change (2 ^ (7 * 10)) with 1180591620717411303424 in *.
    specialize (Hnz ltac:(lia)). change (2 ^ 64) with 18446744073709551616 in Hlt. lia. }
  cbn [readVarLoop]. rewrite run_get. cbn [d_data at_].
  assert (0 < 2 ^ (7 * i)) as Hpow by (apply Z.pow_pos_nonneg; lia).
  assert (i = 9 → w ≤ 1) as H9.
  { intros ->. change (2 ^ (7 * 9)) with 9223372036854775808 in *. change (2 ^ 64) with 18446744073709551616 in Hlt. lia. }
  destruct (decide (w < 128)) as [Hs|Hs].
  - subst data. rewrite varint_small by lia. cbn [app].
    rewrite decide_False by (rewrite !len_app, len_cons; pose_lens; lia).
    erewrite run_lift by (rewrite <- Hp; apply idx_at).
    rewrite decide_False by lia. rewrite var_step by (unfold is_byte; lia).
    rewrite decide_True by lia. rewrite decide_False by lia. rewrite run_modify.
    rewrite Z.mod_small by lia. unfold set_pos. simpl. rewrite <- Hp. done.
  - subst data. rewrite (varint_step w) by lia. cbn [app].
    pose proof (Z.mod_pos_bound w 128 eq_refl).
    rewrite decide_False by (rewrite !len_app, len_cons; pose_lens; lia).
    erewrite run_lift by (rewrite <- Hp; apply idx_at).
    assert (i ≠ 9) as Hi9 by lia. rewrite decide_False by lia.
    rewrite var_step by (unfold is_byte; lia). rewrite decide_False by lia.
    replace ((w mod 128 + 128) mod 128) with (w mod 128) by dlia.
    specialize (IH (i + 1) (w / 128) (value + w mod 128 * 2 ^ (7 * i)) (pre ++ [w mod 128 + 128])).
    rewrite pow_7_succ in IH by lia. rewrite <- app_assoc in IH. cbn [app] in IH.
    rewrite IH; [|lia|lia|rewrite len_app, len_cons, len_nil; lia|nia|apply Z.div_pos; lia| |].
    + rewrite len_app, !len_cons, len_nil. f_equal; [f_equal; pose proof (Z.div_mod w 128); nia|f_equal; lia].
    + pose proof (Z.div_mod w 128 ltac:(lia)). nia.
    + intros _. assert (1 ≤ w / 128) by (apply Z.div_le_lower_bound; lia). lia.
Qed.

Lemma readVarLoop_parses {E} rounds i value d pre rest :
  0 ≤ i → i + Z.of_nat rounds = 10 → d_err d = None → d_data d = pre ++ rest → bytes_ok rest →
  len pre = d_pos d + i → 0 ≤ d_pos d → 0 ≤ value < 2 ^ (7 * i) →
  wp (E:=E) (readVarLoop rounds i value (d_pos d))
    (λ v d', (∃ s arg, d' = mkDecoder (d_data d) (d_pos d) (Some (Bare s)) (d_pos d) arg) ∨
       ∃ w tl, rest = varint w ++ tl ∧ 0 ≤ w ∧ v = value + w * 2 ^ (7 * i) ∧ v < 2 ^ 64 ∧
               (0 < i → w ≠ 0) ∧ d' = set_pos (len pre + len (varint w)) d) (λ _ _, True) d.
Proof.
  intros Hi Hr He Hd Hb Hp Hp0 Hv. revert i value pre rest Hi Hr Hd Hb Hp Hv.
  induction rounds as [|rounds IH]; intros i value pre rest Hi Hr Hd Hb Hp Hv; cbn [readVarLoop].
  { apply wp_run_modify, wp_ret. rewrite He. left. eauto. }
  apply wp_run_get. case_decide as Hl. { apply wp_run_modify, wp_ret. rewrite He. left. eauto. }
  rewrite Hd, len_app in Hl. destruct rest as [|b rest]; [rewrite len_nil in Hl; lia|].
  apply Forall_cons in Hb as [Hb Hrest].
  eapply wp_run_lift; [rewrite Hd, <- Hp; apply idx_at|].
  case_decide as H9. { apply wp_run_modify, wp_ret. rewrite He. left. eauto. }
  assert (i = 9 → b ≤ 1) as Hb9 by lia. rewrite var_step by (done || lia). unfold is_byte in Hb.
  assert (0 < 2 ^ (7 * i)) as Hpow by (apply Z.pow_pos_nonneg; lia).
  case_decide as Hs.
  - case_decide as Hz. { apply wp_run_modify, wp_ret. rewrite He. left. eauto. }
    apply wp_run_modify, wp_ret. right. exists b, rest. rewrite varint_small, Z.mod_small by lia.
    split_and!; [done|lia|done| |lia|by rewrite len_cons, len_nil, Hp].
    destruct (decide (i = 9)) as [->|Hi9].
    + change (2 ^ (7 * 9)) with 9223372036854775808 in *. change (2 ^ 64) with 18446744073709551616. lia.
    + pose proof (pow_7_bound i ltac:(lia)) as Hpb. change (2 ^ 64) with (2 * 2 ^ 63). nia.
  - assert (i ≠ 9) as Hi9 by lia. pose proof (Z.mod_pos_bound b 128 eq_refl).
    eapply wp_mono; [apply (IH (i + 1) _ (pre ++ [b]) rest)| |done].
    + lia.
    + lia.
    + by rewrite Hd, <- app_assoc.
    + done.
    + rewrite len_app, len_cons, len_nil. lia.
    + rewrite pow_7_succ by lia. nia.
    + intros v d' [?|(w & tl & -> & Hw & -> & Hlt & Hnz & ->)]; [by left|right].
      specialize (Hnz ltac:(lia)). rewrite pow_7_succ in * by lia.
      exists (b mod 128 + 128 * w), tl.
      assert ((b mod 128 + 128 * w) / 128 = w) as Hq by dlia.
      assert ((b mod 128 + 128 * w) mod 128 + 128 = b) as Hm by dlia.
      rewrite (varint_step (b mod 128 + 128 * w)), Hq, Hm by lia.
      split_and!; [done|lia|ring|done|lia|]. f_equal. rewrite len_app, !len_cons, len_nil. lia.
Qed.

Definition is_u64 (v : Z) : Prop := 0 ≤ v < 2 ^ 64.

#[global] Instance codec_varUint64 {E} : Codec (E:=E) ReadVarUint64 varint is_u64.
Proof.
  split.
  - intros v [Hv0 Hv]. split; [by apply varint_ok|]. intros pre rest _ _. unfold ReadVarUint64.
    rewrite run_get. cbn [d_err d_pos at_].
    rewrite (readVarLoop_reads 10 0 v 0 (len pre) pre rest);
      [|lia|lia|lia|apply len_nonneg|lia|lia|lia|lia].
    rewrite Z.mul_0_r, Z.mul_1_r. done.
  - intros d Hd. unfold ReadVarUint64. apply wp_run_get. destruct (d_err d) as [r|] eqn:He.
    { apply wp_ret. split_and!; [done..|congruence]. }
    destruct (unread_split d 0) as (pre & bs & rest & Hdata & Hpos & Hlb & Hu & _ & Hr); [done|destruct Hd; lia|].
    apply len_0 in Hlb as ->. cbn [app] in *.
    eapply wp_mono; [apply (readVarLoop_parses 10 0 0 d pre rest)| |done]; try done; try lia.
    { rewrite Hpos. apply len_nonneg. }
    intros v d' [(s & arg & ->)|(w & tl & -> & Hw & -> & Hlt & _ & ->)]; [by apply post_error|].
    change (2 ^ (7 * 0)) with 1 in *. rewrite <- Hpos.
    eapply post_advance; [done|done|exact Hu|]. unfold is_u64.
    replace (0 + w * 1) with w in * by lia. split; [lia|done].
Qed.

(** ** Signed integers *)

Definition is_int64 (v : Z) : Prop := - 2 ^ 63 ≤ v < 2 ^ 63.

Lemma int64_u64 v : is_int64 v → is_uint 8 (u64 v) ∧ int64 (u64 v) = v.
Proof.
  unfold is_int64, is_uint, int64, u64. change (2 ^ 63) with 9223372036854775808.
  change (256 ^ Z.of_nat 8) with 18446744073709551616. intros Hv. split; [apply Z.mod_pos_bound; lia|].
  destruct (decide (0 ≤ v)).
  - rewrite Z.mod_small by lia. by rewrite decide_False by lia.
  - replace (v mod 18446744073709551616) with (v + 18446744073709551616)
      by (apply (Z.mod_unique_pos _ _ (-1)); lia).
    rewrite decide_True by lia. lia.
Qed.

Lemma u64_int64 v : is_uint 8 v → is_int64 (int64 v) ∧ u64 (int64 v) = v.
Proof.
  unfold is_int64, is_uint, int64, u64. change (2 ^ 63) with 9223372036854775808.
  change (256 ^ Z.of_nat 8) with 18446744073709551616. intros Hv. case_decide.
  - split; [lia|]. symmetry. apply (Z.mod_unique_pos _ _ (-1)); lia.
  - split; [lia|]. by apply Z.mod_small.
Qed.

#[global] Instance codec_int64 {E} : Codec (E:=E) ReadInt64 (λ v, le_bytes 8 (u64 v)) is_int64.
Proof.
  split.
  - intros v Hv. destruct (int64_u64 v Hv) as [Hu Hi]. unfold ReadInt64.
    eapply reads_bind; [apply codec_reads, Hu|rewrite Hi; apply reads_ret|by rewrite app_nil_r].
  - eapply parses_mono; [eapply parses_bind; [apply codec_parses|intros x; apply parses_ret]|].
    intros v bs (x & b1 & b2 & -> & (Hx & ->) & -> & ->). destruct (u64_int64 x Hx) as [? ->].
    by rewrite app_nil_r.
Qed.

(** ** Writers *)

(** [w] appends [bs] to any encoder without an error. *)
Definition writes (w : Encoder → Encoder) (bs : bytes) : Prop :=
  ∀ e, e_err e = None → w e = encAppend bs e.

Lemma writes_append bs : writes (encAppend bs) bs.
Proof. by intros e He. Qed.

Lemma encAppend_err bs e : e_err (encAppend bs e) = e_err e.
Proof. unfold encAppend. by destruct (e_err e) eqn:E. Qed.

Lemma writes_then w1 w2 b1 b2 : writes w1 b1 → writes w2 b2 → writes (λ e, w2 (w1 e)) (b1 ++ b2).
Proof. intros H1 H2 e He. rewrite H1, H2 by (rewrite ?encAppend_err; done). apply encAppend_app. Qed.

Lemma writes_borshString v : borsh_ok v → writes (WriteBorshString v) (borshString v).
Proof.
  intros [Hl _] e He. unfold WriteBorshString. rewrite He. pose proof (len_nonneg v).
  change (2 ^ 32) with 4294967296 in Hl. unfold u64, u32. rewrite !Z.mod_small by lia.
  rewrite decide_False by lia. apply encAppend_app.
Qed.

Lemma writes_bincodeString v : bincode_ok v → writes (WriteBincodeString v) (bincodeString v).
Proof.
  intros (Hl & _ & Hu) e He. unfold WriteBincodeString. rewrite He, Hu. pose proof (len_nonneg v).
  unfold maxInt in Hl. unfold u64. rewrite Z.mod_small by lia. apply encAppend_app.
Qed.

Lemma writes_compactU16 v : is_len v → writes (WriteCompactU16 v) (appendShortvecLen [] v).
Proof.
  intros Hv e He. unfold is_len in Hv. unfold WriteCompactU16. rewrite He, decide_False by lia.
  change (Z.shiftl 1 7) with 128. change (Z.shiftl 1 14) with 16384.
  case_decide; [by rewrite append_small, u8_small by lia|].
  rewrite append_step, low7, shiftr_7 by lia. case_decide.
  - rewrite append_small, u8_small by dlia. done.
  - rewrite (append_step (v / 128)), low7, append_small by dlia.
    rewrite Z.shiftr_div_pow2 by lia. change (2 ^ 14) with 16384. rewrite u8_small by dlia.
    by replace (v / 128 / 128) with (v / 16384) by dlia.
Qed.

Lemma writes_varUint64 v : is_u64 v → writes (WriteVarUint64 v) (varint v).
Proof.
  intros [Hv0 Hv] e He. unfold WriteVarUint64. rewrite He. apply (writeVarLoop_ok 9).
  split; [done|]. etrans; [exact Hv|]. by apply Z.pow_lt_mono_r.
Qed.

(** * Sequences of fields *)

(** A field of any of the supported kinds. *)
Inductive value :=
  | VUint8 (v : Z) | VUint16 (v : Z) | VUint32 (v : Z) | VUint64 (v : Z) | VInt64 (v : Z)
  | VBool (v : bool) | VOption (v : bool) | VCOption (v : bool)
  | VBytes (v : bytes) | VPublicKey (v : PublicKey) | VSignature (v : Signature) | VHash (v : Hash)
  | VBorshString (v : bytes) | VBincodeString (v : bytes)
  | VCompactU16 (v : Z) | VVarUint64 (v : Z).

Inductive kind :=
  | KUint8 | KUint16 | KUint32 | KUint64 | KInt64 | KBool | KOption | KCOption
  | KBytes (n : Z) | KPublicKey | KSignature | KHash | KBorshString | KBincodeString
  | KCompactU16 | KVarUint64.

Definition kindOf (v : value) : kind :=
  match v with
  | VUint8 _ => KUint8 | VUint16 _ => KUint16 | VUint32 _ => KUint32 | VUint64 _ => KUint64
  | VInt64 _ => KInt64 | VBool _ => KBool | VOption _ => KOption | VCOption _ => KCOption
  | VBytes v => KBytes (len v) | VPublicKey _ => KPublicKey | VSignature _ => KSignature
  | VHash _ => KHash | VBorshString _ => KBorshString | VBincodeString _ => KBincodeString
  | VCompactU16 _ => KCompactU16 | VVarUint64 _ => KVarUint64
  end.

Definition writeValue (v : value) : Encoder → Encoder :=
  match v with
  | VUint8 v => WriteUint8 v | VUint16 v => WriteUint16 v | VUint32 v => WriteUint32 v
  | VUint64 v => WriteUint64 v | VInt64 v => WriteInt64 v | VBool v => WriteBool v
  | VOption v => WriteOption v | VCOption v => WriteCOption v | VBytes v => WriteBytes v
  | VPublicKey v => WritePublicKey v | VSignature v => WriteSignature v | VHash v => WriteHash v
  | VBorshString v => WriteBorshString v | VBincodeString v => WriteBincodeString v
  | VCompactU16 v => WriteCompactU16 v | VVarUint64 v => WriteVarUint64 v
  end.

Definition readKind {E} (k : kind) : GoM Decoder E value :=
  match k with
  | KUint8 => v ← ReadUint8; mret (VUint8 v) | KUint16 => v ← ReadUint16; mret (VUint16 v)
  | KUint32 => v ← ReadUint32; mret (VUint32 v) | KUint64 => v ← ReadUint64; mret (VUint64 v)
  | KInt64 => v ← ReadInt64; mret (VInt64 v) | KBool => v ← ReadBool; mret (VBool v)
  | KOption => v ← ReadOption; mret (VOption v) | KCOption => v ← ReadCOption; mret (VCOption v)
  | KBytes n => v ← ReadBytes n; mret (VBytes v) | KPublicKey => v ← ReadPublicKey; mret (VPublicKey v)
  | KSignature => v ← ReadSignature; mret (VSignature v) | KHash => v ← ReadHash; mret (VHash v)
  | KBorshString => v ← ReadBorshString; mret (VBorshString v)
  | KBincodeString => v ← ReadBincodeString; mret (VBincodeString v)
  | KCompactU16 => v ← ReadCompactU16; mret (VCompactU16 v)
  | KVarUint64 => v ← ReadVarUint64; mret (VVarUint64 v)
  end.

(** The values a field can hold, and the bytes it takes. *)
Definition value_ok (v : value) : Prop :=
  match v with
  | VUint8 v => is_byte v | VUint16 v => is_uint 2 v | VUint32 v => is_uint 4 v
  | VUint64 v => is_uint 8 v | VInt64 v => is_int64 v
  | VBool _ | VOption _ | VCOption _ => True
  | VBytes v => bytes_ok v | VPublicKey v | VHash v => array_ok 32 v | VSignature v => array_ok 64 v
  | VBorshString v => borsh_ok v | VBincodeString v => bincode_ok v
  | VCompactU16 v => is_len v | VVarUint64 v => is_u64 v
  end.

Definition valueBytes (v : value) : bytes :=
  match v with
  | VUint8 v => [v] | VUint16 v => le_bytes 2 v | VUint32 v => le_bytes 4 v | VUint64 v => le_bytes 8 v
  | VInt64 v => le_bytes 8 (u64 v) | VBool v | VOption v => boolByte v
  | VCOption v => if v then [1; 0; 0; 0] else [0; 0; 0; 0]
  | VBytes v | VPublicKey v | VHash v | VSignature v => v
  | VBorshString v => borshString v | VBincodeString v => bincodeString v
  | VCompactU16 v => appendShortvecLen [] v | VVarUint64 v => varint v
  end.

Lemma codec_map {E A B} (rd : GoM Decoder E A) enc dom (f : A → B) x :
  Codec rd enc dom → dom x → reads (v ← rd; mret (f v)) (f x) (enc x).
Proof. intros Hc Hx. eapply reads_bind; [by apply Hc|apply reads_ret|by rewrite app_nil_r]. Qed.

Lemma parses_map {E A B} (rd : GoM Decoder E A) enc dom (f : A → B) (P : B → bytes → Prop) :
  Codec rd enc dom → (∀ x, dom x → P (f x) (enc x)) → parses (v ← rd; mret (f v)) P.
Proof.
  intros Hc HP. eapply parses_mono; [eapply parses_bind; [apply Hc|intros x; apply parses_ret]|].
  intros y bs (x & b1 & b2 & -> & (Hx & ->) & -> & ->). rewrite app_nil_r. auto.
Qed.

(** Find the codec of a field. *)
Ltac by_codec E tac :=
  first [ tac (@codec_uint8 E)
        | tac (@codec_uint16 E)
        | tac (@codec_uint32 E)
        | tac (@codec_uint64 E)
        | tac (@codec_int64 E)
        | tac (@codec_bool E)
        | tac (@codec_option E)
        | tac (@codec_coption E)
        | (let n := match goal with v : list Z |- _ => constr:(len v) | n : Z |- _ => n end in tac (@codec_bytes E n))
        | tac (@codec_publicKey E)
        | tac (@codec_signature E)
        | tac (@codec_hash E)
        | tac (@codec_borshString E)
        | tac (@codec_bincodeString E)
        | tac (@codec_compactU16 E)
        | tac (@codec_varUint64 E) ].

Lemma readKind_reads {E} v : value_ok v → reads (E:=E) (readKind (kindOf v)) v (valueBytes v).
Proof.
  destruct v; simpl; intros Hv;
    by_codec E ltac:(fun c => first [exact (codec_map _ _ _ _ _ c Hv) | exact (codec_map _ _ _ _ _ c (conj eq_refl Hv))]).
Qed.

Lemma readKind_parses {E} k :
  parses (E:=E) (readKind k) (λ v bs, kindOf v = k ∧ value_ok v ∧ bs = valueBytes v).
Proof.
  destruct k; by_codec E ltac:(fun c => solve [eapply (parses_map _ _ _ _ _ c); simpl;
    first [done | intros x [<- Hx]; done]]).
Qed.

Lemma writeValue_writes v : value_ok v → writes (writeValue v) (valueBytes v).
Proof.
  destruct v; simpl; intros Hv;
    first [ apply writes_append | by apply writes_borshString | by apply writes_bincodeString
          | by apply writes_compactU16 | by apply writes_varUint64 ].
Qed.

Fixpoint writeValues (vs : list value) (e : Encoder) : Encoder :=
  match vs with
  | [] => e
  | v :: vs' => writeValues vs' (writeValue v e)
  end.

Fixpoint readKinds {E} (ks : list kind) : GoM Decoder E (list value) :=
  match ks with
  | [] => mret []
  | k :: ks' => v ← readKind k; vs ← readKinds ks'; mret (v :: vs)
  end.

Lemma writeValues_app vs ws e : writeValues (vs ++ ws) e = writeValues ws (writeValues vs e).
Proof. revert e. induction vs as [|v vs IH]; intros e; [done|]. apply IH. Qed.

Lemma writeValues_writes vs :
  Forall value_ok vs → writes (writeValues vs) (concat (valueBytes <$> vs)).
Proof.
  induction 1 as [|v vs Hv _ IH]; [|by apply (writes_then _ _ _ _ (writeValue_writes v Hv) IH)].
  intros e He. unfold encAppend. rewrite He, app_nil_r. destruct e; simpl in *. by subst.
Qed.

Lemma readKinds_reads {E} vs :
  Forall value_ok vs → reads (E:=E) (readKinds (kindOf <$> vs)) vs (concat (valueBytes <$> vs)).
Proof.
  induction 1 as [|v vs Hv _ IH]; [apply reads_ret|]. rewrite !fmap_cons. simpl.
  eapply reads_bind; [by apply readKind_reads| |done].
  eapply reads_bind; [apply IH|apply reads_ret|by rewrite app_nil_r].
Qed.

Lemma readKinds_parses {E} ks :
  parses (E:=E) (readKinds ks)
    (λ vs bs, kindOf <$> vs = ks ∧ Forall value_ok vs ∧ bs = concat (valueBytes <$> vs)).
Proof.
  induction ks as [|k ks IH]; simpl.
  { eapply parses_mono; [apply parses_ret|]. by intros vs bs [-> ->]. }
  eapply parses_mono.
  { eapply parses_bind; [apply readKind_parses|]. intros v.
    eapply parses_bind; [apply IH|]. intros vs. apply parses_ret. }
  intros vs bs (v & b1 & b2 & -> & (Hk & Hv & ->) & vs' & b3 & b4 & -> & (Hks & Hvs & ->) & -> & ->).
  rewrite app_nil_r, fmap_cons. split_and!; [by f_equal|by constructor|done].
Qed.

(** * Stickiness *)

Lemma encFail_sticky s arg e r : e_err e = Some r → encFail s arg e = e.
Proof. intros He. unfold encFail. by rewrite He. Qed.

Lemma encAppend_sticky bs e r : e_err e = Some r → encAppend bs e = e.
Proof. intros He. unfold encAppend. by rewrite He. Qed.

Lemma writeValue_sticky v e r : e_err e = Some r → writeValue v e = e.
Proof.
  intros He. destruct v; simpl; try (by eapply encAppend_sticky);
    unfold WriteBorshString, WriteBincodeString, WriteCompactU16, WriteVarUint64; by rewrite He.
Qed.

Lemma writeVarLoop_extends fuel v e :
  e_err e = None → ∃ bs, writeVarLoop fuel v e = encAppend bs e.
Proof.
  revert v e. induction fuel as [|fuel IH]; intros v e He; simpl.
  - exists []. unfold encAppend. rewrite He, app_nil_r. destruct e; simpl in *. by subst.
  - case_decide; [|eauto]. destruct (IH (Z.shiftr v 7) (encAppend [Z.lor (u8 v) 128] e)) as [bs ->];
      [by rewrite encAppend_err|]. rewrite encAppend_app. eauto.
Qed.

(** A write either appends or records an error. *)
Lemma writeValue_step v e :
  e_err e = None → (∃ bs, writeValue v e = encAppend bs e) ∨ (∃ s arg, writeValue v e = encFail s arg e).
Proof.
  intros He. destruct v; simpl; eauto;
    unfold WriteBorshString, WriteBincodeString, WriteCompactU16, WriteVarUint64; rewrite He;
    repeat case_decide; rewrite ?encAppend_app; eauto.
  - destruct (utf8_Valid v); rewrite ?encAppend_app; eauto.
  - left. by apply writeVarLoop_extends.
Qed.

Lemma NewDecoder_inv data : bytes_ok data → dec_inv (NewDecoder data).
Proof. intros Hd. split; [done|]. simpl. pose proof (len_nonneg data). lia. Qed.

Lemma writeValues_new vs :
  Forall value_ok vs → writeValues vs (NewEncoder []) = NewEncoder (concat (valueBytes <$> vs)).
Proof. intros Hv. by rewrite (writeValues_writes vs Hv (NewEncoder [])). Qed.

(** * Properties *)

Definition sampleValues : list value :=
  [ VUint32 2; VUint64 1000; VCompactU16 300; VVarUint64 18446744073709551615; VBool true;
    VBincodeString [115; 101; 101; 100]; VInt64 (-5); VCOption false; VBytes [1; 2; 3] ].

#[global] Instance value_ok_dec v : Decision (value_ok v).
Proof.
  destruct v; simpl; unfold is_uint, is_int64, array_ok, borsh_ok, bincode_ok, is_len, is_u64; apply _.
Defined.

(** C13. Encoding and decoding are inverse: any sequence of fields in the range
    of their types is written without an error, and reading the same sequence of
    kinds from the written bytes returns the fields and leaves nothing over. *)
Theorem wire_roundtrip vs :
  Forall value_ok vs →
  let e := writeValues vs (NewEncoder []) in
  e_err e = None ∧
  ∃ d, readKinds (E:=Empty_set) (kindOf <$> vs) (NewDecoder (Bytes e)) = (Ok vs, d) ∧
       d_err d = None ∧ Remaining d = 0.
Proof.
  intros Hv. cbv zeta. rewrite writeValues_new by done. split; [done|]. unfold Bytes. simpl e_data.
  destruct (readKinds_reads (E:=Empty_set) vs Hv) as [_ Hr].
  specialize (Hr [] [] (Forall_nil_2 _) (Forall_nil_2 _)). rewrite app_nil_r in Hr. cbn [app] in Hr.
  eexists. split; [exact Hr|]. split; [done|]. unfold Remaining. simpl. rewrite len_nil. lia.
Qed.

Lemma wire_roundtrip_witness :
  let e := writeValues sampleValues (NewEncoder []) in
  e_err e = None ∧
  ∃ d, readKinds (E:=Empty_set) (kindOf <$> sampleValues) (NewDecoder (Bytes e)) = (Ok sampleValues, d) ∧
       d_err d = None ∧ Remaining d = 0.
Proof.
  apply (wire_roundtrip sampleValues). apply (bool_decide_unpack _). by vm_compute.
Defined.

(** Decoding is safe and canonical: on any buffer, reading any sequence of
    kinds never panics and keeps the position inside the buffer; when no error
    was recorded, the fields are in range and their encoding is exactly the
    bytes consumed. *)
Lemma wire_decode_canonical ks data :
  bytes_ok data →
  match readKinds (E:=Empty_set) ks (NewDecoder data) with
  | (Ok vs, d) =>
    0 ≤ d_pos d ≤ len data ∧
    (d_err d = None → kindOf <$> vs = ks ∧ Forall value_ok vs ∧
       take (Z.to_nat (d_pos d)) data = Bytes (writeValues vs (NewEncoder [])))
  | _ => False
  end.
Proof.
  intros Hd. pose proof (readKinds_parses (E:=Empty_set) ks _ (NewDecoder_inv data Hd)) as H.
  unfold wp in H. destruct (readKinds ks (NewDecoder data)) as [[vs|[]|] d]; [|done].
  destruct H as ((_ & Hp) & Hdata & _ & H). simpl in Hdata. rewrite Hdata in Hp. split; [done|].
  intros He. destruct (H eq_refl He) as (bs & Hu & Hk & Hv & ->). split_and!; [done|done|].
  rewrite writeValues_new by done. simpl. unfold unread in Hu. rewrite Hdata in Hu. simpl in Hu.
  rewrite drop_0 in Hu. apply (app_inv_tail (drop (Z.to_nat (d_pos d)) data)).
  by rewrite take_drop, <- Hu.
Qed.

(** Decoder errors are sticky: after the first failed read, every further
    read returns without touching the decoder, so [Err] reports the first
    failure and its position. *)
Lemma decoder_sticky ks ks' data vs d :
  bytes_ok data →
  readKinds (E:=Empty_set) ks (NewDecoder data) = (Ok vs, d) → d_err d ≠ None →
  ∃ vs', readKinds (E:=Empty_set) ks' d = (Ok vs', d).
Proof.
  intros Hd Hr He. pose proof (readKinds_parses (E:=Empty_set) ks _ (NewDecoder_inv data Hd)) as H.
  unfold wp in H. rewrite Hr in H. destruct H as (Hinv & _).
  pose proof (readKinds_parses (E:=Empty_set) ks' d Hinv) as H. unfold wp in H.
  destruct (readKinds ks' d) as [[vs'|[]|] d']; [|done].
  destruct H as (_ & _ & Hst & _). rewrite (Hst He). eauto.
Qed.

(** The encoder only ever appends, and its errors are sticky: a sequence of
    writes extends the buffer, and does nothing at all once an error is
    recorded. *)
Lemma encoder_append_only vs e :
  (∃ bs, e_data (writeValues vs e) = e_data e ++ bs) ∧
  (∀ r, e_err e = Some r → writeValues vs e = e).
Proof.
  split.
  - revert e. induction vs as [|v vs IH]; intros e; simpl; [exists []; by rewrite app_nil_r|].
    destruct (e_err e) as [r|] eqn:He; [by rewrite (writeValue_sticky v e r)|].
    destruct (IH (writeValue v e)) as [bs' ->]. destruct (writeValue_step v e He) as [[bs ->]|(s & arg & ->)].
    + unfold encAppend. rewrite He. simpl. rewrite <- app_assoc. eauto.
    + unfold encFail. rewrite He. simpl. eauto.
  - intros r He. induction vs as [|v vs IH]; simpl; [done|]. by rewrite (writeValue_sticky v e r).
Qed.

(** The package's compact-u16 reader, with its single-byte fast path, and
    the root package's length decoder agree on every input: the same values, the
    same number of bytes, and matching errors (truncated, non-canonical, too
    large). *)
Lemma compactU16_agrees d :
  dec_inv d → d_err d = None →
  agrees (E:=Empty_set) (decodeShortvecLen (unread d)) d (ReadCompactU16 d).
Proof. apply ReadCompactU16_agrees. Qed.
