(* ===== verification/Program.v ===== *)
(** Program: what the instruction packages under programs/ share: finishing an
    encoder, running a decoder and checking its error, and the proof automation
    for straight-line codecs. *)
From Stdlib Require Import ZArith Lia.
From stdpp Require Import base numbers list.
From S2P Require Import Prelude Shortvec Keys Wire.

Open Scope Z_scope.

Declare Scope wire_scope.
Delimit Scope wire_scope with wire.

(** A sequence of writes to one encoder, in source order. *)
Notation "e ▷ w" := (w%function e) (at level 61, left associativity, only parsing) : wire_scope.
Open Scope wire_scope.

(** [return enc.Bytes(), enc.Err()]: callers look at the bytes only when the
    error is nil. *)
Definition finish {F} (wrap : recorded → F) (e : Encoder) : outcome F bytes :=
  match EncErr e with
  | (None, e) => Ok (Bytes e)
  | (Some r, _) => Err (wrap r)
  end.

(** [if err := dec.Err(); err != nil { return ..., wrap(err) }]. *)
Definition checkErr {F} (wrap : recorded → F) : GoM Decoder F unit :=
  r ← DecErr;
  match r with
  | Some r => throw (wrap r)
  | None => mret tt
  end.

(** Run a decoding function on a fresh decoder. *)
Definition runDecoder {F A} (m : GoM Decoder F A) (data : bytes) : outcome F A := (m (NewDecoder data)).1.

(** * Encoding *)

Lemma finish_values {F} (wrap : recorded → F) vs :
  Forall value_ok vs → finish wrap (writeValues vs (NewEncoder [])) = Ok (concat (valueBytes <$> vs)).
Proof. intros Hv. by rewrite writeValues_new. Qed.

(** * Decoding, forwards *)

Lemma reads_codec {E A B} (rd : GoM Decoder E A) enc dom {Hc : Codec rd enc dom} f (x : A) (y : B) b2 bs :
  reads (f x) y b2 → dom x → bs = enc x ++ b2 → reads (rd ≫= f) y bs.
Proof. intros Hf Hx ->. eapply reads_bind; [by apply Hc|exact Hf|done]. Qed.

Lemma reads_check {F B} (wrap : recorded → F) (f : unit → GoM Decoder F B) y bs :
  reads (f tt) y bs → reads (checkErr wrap ≫= f) y bs.
Proof. intros Hf. split; [apply Hf|]. intros pre rest Hp Hr. by rewrite <- (proj2 Hf pre rest Hp Hr). Qed.

Lemma runDecoder_reads {F A} (m : GoM Decoder F A) x bs rest :
  reads m x bs → bytes_ok rest → runDecoder m (bs ++ rest) = Ok x.
Proof.
  intros [_ Hm] Hr. unfold runDecoder. change (NewDecoder (bs ++ rest)) with (at_ ([] ++ bs ++ rest) (len (@nil Z))).
  by rewrite Hm by (done || constructor).
Qed.

(** The error check passes on a decoder without an error. *)
Lemma check_at {F B} (wrap : recorded → F) (f : unit → GoM Decoder F B) data p : (checkErr wrap ≫= f) (at_ data p) = f tt (at_ data p).
Proof. done. Qed.

(** * Decoding, backwards *)

Lemma parses_codec {E A B} (rd : GoM Decoder E A) enc dom {Hc : Codec rd enc dom} f (P : B → bytes → Prop) :
  (∀ x, parses (f x) (λ y bs, dom x → P y (enc x ++ bs))) → parses (rd ≫= f) P.
Proof.
  intros Hf. eapply parses_mono; [eapply parses_bind; [apply Hc|exact Hf]|].
  intros y bs (x & b1 & b2 & -> & (Hx & ->) & H). auto.
Qed.

Lemma parses_ret_spec {E A} (x : A) (P : A → bytes → Prop) : P x [] → parses (E:=E) (mret x) P.
Proof. intros HP. eapply parses_mono; [apply parses_ret|]. by intros y bs [-> ->]. Qed.

(** One step whose specification is not a codec. *)
Lemma parses_then {E A B} (m : GoM Decoder E A) (f : A → GoM Decoder E B) P (Q : B → bytes → Prop) :
  parses m P → (∀ x, parses (f x) (λ y bs, ∀ b1, P x b1 → Q y (b1 ++ bs))) → parses (m ≫= f) Q.
Proof.
  intros Hm Hf. eapply parses_mono; [exact (parses_bind m f _ _ Hm Hf)|]. intros y bs (x & b1 & b2 & -> & HP & HQ). auto.
Qed.

Lemma parses_throw {E A} (e : E) (P : A → bytes → Prop) : parses (throw e) P.
Proof. intros d Hd. by apply wp_throw. Qed.

Lemma check_run {F B} (wrap : recorded → F) (f : unit → GoM Decoder F B) Q d :
  (d_err d = None → wp (f tt) Q (λ _ _, True) d) → wp (checkErr wrap ≫= f) Q (λ _ _, True) d.
Proof.
  intros H. unfold checkErr, DecErr. apply wp_bind, wp_bind, wp_run_get. destruct (d_err d) eqn:He.
  - by apply wp_run_modify, wp_ret, wp_throw.
  - apply wp_ret, wp_ret. auto.
Qed.

Lemma parses_check {F B} (wrap : recorded → F) (f : unit → GoM Decoder F B) P :
  parses (f tt) P → parses (checkErr wrap ≫= f) P.
Proof. intros Hf d Hd. apply check_run. intros _. by apply Hf. Qed.

(** A decoding function that ends in a check: what it accepts starts with bytes
    that [P] relates to the result. *)
Definition accepts {F A} (m : GoM Decoder F A) (P : A → bytes → Prop) : Prop :=
  ∀ d, dec_inv d → wp m (λ x d', d_err d' = None ∧ post P d x d') (λ _ _, True) d.

Lemma accepts_codec {E A B} (rd : GoM Decoder E A) enc dom {Hc : Codec rd enc dom} f (P : B → bytes → Prop) :
  (∀ x, accepts (f x) (λ y bs, dom x → P y (enc x ++ bs))) → accepts (rd ≫= f) P.
Proof.
  intros Hf d Hd. apply wp_bind. eapply wp_mono; [by apply Hc| |done].
  intros x d' Hp. assert (dec_inv d') as Hd' by apply Hp.
  eapply wp_mono; [by apply Hf| |done]. intros y d'' [He Hq]. split; [done|].
  destruct (post_trans _ _ _ _ _ _ _ Hp Hq) as (? & ? & ? & H). split_and!; [done..|].
  intros Hn Hn'. destruct (H Hn Hn') as (bs & ? & b1 & b2 & -> & (Hx & ->) & HP). eauto.
Qed.

Lemma accepts_check {F B} (wrap : recorded → F) (f : unit → GoM Decoder F B) P :
  accepts (f tt) P → accepts (checkErr wrap ≫= f) P.
Proof. intros Hf d Hd. apply check_run. intros _. by apply Hf. Qed.

Lemma accepts_body {F A B} (m : GoM Decoder F A) (wrap : recorded → F) (g : A → B) P Q :
  parses m P → (∀ x bs, P x bs → Q (g x) bs) →
  accepts (x ← m; _ ← checkErr wrap; mret (g x)) Q.
Proof.
  intros Hm HPQ d Hd. apply wp_bind. eapply wp_mono; [by apply Hm| |done].
  intros x d' (? & ? & ? & H). apply check_run. intros He. apply wp_ret. split; [done|].
  split_and!; [done..|]. intros Hn Hn'. destruct (H Hn Hn') as (bs & ? & HP). eauto.
Qed.

Lemma accepts_check_ret {F B} (wrap : recorded → F) (x : B) (P : B → bytes → Prop) :
  P x [] → accepts (_ ← checkErr wrap; mret x) P.
Proof.
  intros HP. pose proof (accepts_body (mret tt) wrap (λ _, x) (λ _, P x) P) as H.
  apply H; [by apply parses_ret_spec|done].
Qed.

Lemma runDecoder_accepts {F A} (m : GoM Decoder F A) P data :
  accepts m P → bytes_ok data →
  match runDecoder m data with
  | Ok x => ∃ bs rest, data = bs ++ rest ∧ P x bs
  | Err _ => True
  | Panic => False
  end.
Proof.
  intros Hm Hd. specialize (Hm _ (NewDecoder_inv data Hd)). unfold wp in Hm. unfold runDecoder.
  destruct (m (NewDecoder data)) as [[x|e|] d]; simpl; [|done..].
  destruct Hm as (He & _ & _ & _ & H). destruct (H eq_refl He) as (bs & Hu & HP).
  exists bs, (unread d). split; [|done]. by rewrite <- Hu.
Qed.

(** A decoder of a fixed-size layout accepts exactly the encodings. *)
Lemma runDecoder_exact {F A} (m : GoM Decoder F A) (P : A → bytes → Prop) n data :
  (∀ x bs, P x bs → reads m x bs) → accepts m P → (∀ x bs, P x bs → len bs = n) →
  bytes_ok data → len data = n →
  match runDecoder m data with
  | Ok x => P x data
  | Err _ => ∀ x, ¬ P x data
  | Panic => False
  end.
Proof.
  intros Hreads Hacc Hlen Hd Hn. pose proof (runDecoder_accepts m P data Hacc Hd) as H.
  destruct (runDecoder m data) as [x|e|] eqn:E; [|intros x Hx|done].
  - destruct H as (bs & rest & -> & HP). pose proof (Hlen _ _ HP) as Hb. rewrite len_app in Hn.
    rewrite (len_0 rest) by lia. by rewrite app_nil_r.
  - pose proof (runDecoder_reads m x data [] (Hreads _ _ Hx) ltac:(constructor)) as Hr.
    rewrite app_nil_r in Hr. congruence.
Qed.

(** * Optional fields *)

(** A pointer field: the tag says whether it is non-nil, then the value. *)
Definition writeOpt {A} (write : A → Encoder → Encoder) (o : option A) (enc : Encoder) : Encoder :=
  let enc := WriteOption (bool_decide (is_Some o)) enc in
  match o with Some x => write x enc | None => enc end.

(** [if dec.ReadOption() { v := read(); x = &v }]. *)
Definition readOpt {E A} (read : GoM Decoder E A) : GoM Decoder E (option A) :=
  b ← ReadOption;
  if (b : bool) then x ← read; mret (Some x) else mret None.

Definition optValues {A} (mk : A → value) (o : option A) : list value :=
  match o with Some x => [VOption true; mk x] | None => [VOption false] end.

Definition optBytes {A} (enc : A → bytes) (o : option A) : bytes :=
  match o with Some x => boolByte true ++ enc x | None => boolByte false end.
Definition optDom {A} (dom : A → Prop) (o : option A) : Prop := match o with Some x => dom x | None => True end.

#[global] Instance readOpt_codec {E A} (read : GoM Decoder E A) enc dom :
  Codec read enc dom → Codec (readOpt read) (optBytes enc) (optDom dom).
Proof.
  intros Hc. split.
  - intros [x|] Hx; unfold readOpt.
    + eapply (reads_codec _ _ _ _ true); [|done|reflexivity]. eapply reads_codec; [exact Hc|apply reads_ret|exact Hx|by rewrite app_nil_r].
    + eapply (reads_codec _ _ _ _ false); [apply reads_ret|done|reflexivity].
  - unfold readOpt. eapply parses_codec; [apply _|]. intros [|].
    + eapply parses_codec; [exact Hc|]. intros x. apply parses_ret_spec. intros Hx _. split; [done|].
      cbn. by rewrite app_nil_r.
    + by apply parses_ret_spec.
Qed.

(** An optional field against its field list. *)
Lemma optValues_bytes {A} (mk : A → value) o : concat (valueBytes <$> optValues mk o) = optBytes (λ x, valueBytes (mk x)) o.
Proof. destruct o; [|done]. cbn. by rewrite app_nil_r. Qed.
Lemma optValues_ok {A} (mk : A → value) o : Forall value_ok (optValues mk o) ↔ optDom (λ x, value_ok (mk x)) o.
Proof. destruct o; cbn; rewrite ?Forall_cons, ?Forall_nil; cbn; tauto. Qed.
Lemma writeOpt_values {A} (mk : A → value) (o : option A) e :
  writeOpt (λ x, writeValue (mk x)) o e = writeValues (optValues mk o) e.
Proof. by destruct o. Qed.

(** * Length guards and counted lists *)

(** [if dec.Remaining() < n { return ..., e }]. *)
Definition needs {F} (n : Z) (e : F) : GoM Decoder F unit :=
  d ← get;
  if decide (Remaining d < n) then throw e else mret tt.

Lemma reads_needs {F B} n (e : F) (f : unit → GoM Decoder F B) y bs :
  reads (f tt) y bs → n ≤ len bs → reads (needs n e ≫= f) y bs.
Proof.
  intros [Hb Hf] Hn. split; [done|]. intros pre rest Hp Hr. rewrite <- (Hf pre rest Hp Hr).
  unfold needs, Remaining. unfold mbind, gom_bind, get. cbn [d_data d_pos at_]. rewrite decide_False; [done|].
  rewrite !len_app. pose_lens. lia.
Qed.

Lemma parses_needs {F B} n (e : F) (f : unit → GoM Decoder F B) P : parses (f tt) P → parses (needs n e ≫= f) P.
Proof.
  intros Hf d Hd. apply wp_bind. unfold needs. apply wp_run_get. case_decide; [by apply wp_throw|]. apply wp_ret. by apply Hf.
Qed.

(** A loop that reads [n] items in order. *)
Fixpoint readN {E A} (n : nat) (read : GoM Decoder E A) : GoM Decoder E (list A) :=
  match n with
  | O => mret []
  | S n' => x ← read; xs ← readN n' read; mret (x :: xs)
  end.

#[global] Instance readN_codec {E A} (n : nat) (read : GoM Decoder E A) enc dom :
  Codec read enc dom → Codec (readN n read) (λ xs, concat (enc <$> xs)) (λ xs, length xs = n ∧ Forall dom xs).
Proof.
  intros Hc. split.
  - intros xs [<- Hxs]. induction Hxs as [|x xs Hx Hxs IH]; [apply reads_ret|]. cbn [readN length].
    eapply reads_codec; [exact Hc| |exact Hx|reflexivity]. eapply reads_bind; [exact IH|apply reads_ret|by rewrite app_nil_r].
  - induction n as [|n IH]; cbn [readN]; [by apply parses_ret_spec|].
    eapply parses_codec; [exact Hc|]. intros x.
    eapply parses_mono; [eapply parses_bind; [exact IH|intros xs; apply parses_ret]|].
    intros y bs (xs & b1 & b2 & -> & ((Hl & Hv) & ->) & -> & ->) Hx. cbn. rewrite app_nil_r.
    split_and!; [by f_equal|by constructor|done].
Qed.

(** A run of keys as a field list. *)
Lemma keys_values (ks : list PublicKey) :
  concat (valueBytes <$> (VPublicKey <$> ks)) = concat ((λ x, x) <$> ks) ∧
  (Forall value_ok (VPublicKey <$> ks) ↔ Forall (array_ok 32) ks).
Proof. split; [by rewrite <- list_fmap_compose|]. by rewrite Forall_fmap. Qed.

Lemma len_array n x : array_ok n x → len x = n.
Proof. by intros [? _]. Qed.

Lemma concat_keys_len (ks : list PublicKey) :
  Forall value_ok (VPublicKey <$> ks) → len (concat (valueBytes <$> (VPublicKey <$> ks))) = 32 * len ks.
Proof.
  induction ks as [|k ks IH]; intros Hv; [done|]. apply Forall_cons in Hv as [Hk Hv]. cbn.
  rewrite len_app, IH, len_cons by done. apply len_array in Hk. lia.
Qed.

(** A byte string behind its uint64 length, which the decoder compares with what
    is left before reading: a longer one fails the read of one byte too many,
    whose error the check after the switch returns. Were the error missing, the
    caller would get an instruction with no field set. *)
Definition readSized {F} (wrap : recorded → F) : GoM Decoder F bytes :=
  length ← ReadUint64;
  d ← get;
  if decide (Remaining d < length) then
    _ ← ReadBytes (Remaining d + 1);
    _ ← checkErr wrap;
    lift Panic
  else ReadBytes length.

(** [uint64(len(x))] of a length that fits. *)
Lemma u64_uint n : is_uint 8 n → u64 n = n.
Proof. intros [? ?]. unfold u64. by apply Z.mod_small. Qed.

Definition sizedBytes (bs : bytes) : bytes := le_bytes 8 (len bs) ++ bs.
Definition sized_ok (bs : bytes) : Prop := is_uint 8 (len bs) ∧ bytes_ok bs.

Lemma readBytes_over {F A} (wrap : recorded → F) Q d :
  dec_inv d → wp (_ ← ReadBytes (Remaining d + 1); _ ← checkErr wrap; lift (A:=A) Panic) Q (λ _ _, True) d.
Proof.
  intros [Hd Hp]. apply wp_bind. unfold ReadBytes. apply wp_run_get. cbv zeta.
  rewrite decide_True by (right; right; unfold Remaining; lia).
  rewrite decide_False by (unfold Remaining; lia). unfold decFail. apply wp_run_modify, wp_ret, check_run.
  destruct (d_err d) eqn:E; [by rewrite E|done].
Qed.

#[global] Instance readSized_codec {F} (wrap : recorded → F) : Codec (readSized wrap) sizedBytes sized_ok.
Proof.
  split.
  - intros bs [Hl Hb]. eapply reads_bind; [by apply codec_reads| |reflexivity]. split; [done|]. intros pre rest Hp Hr.
    rewrite run_get. unfold Remaining. cbn [d_data d_pos at_]. rewrite decide_False by (rewrite !len_app; pose_lens; lia).
    by apply codec_bytes.
  - unfold readSized. eapply parses_codec; [apply _|]. intros n d Hd. apply wp_run_get.
    destruct (decide (Remaining d < n)); [by apply readBytes_over|].
    eapply wp_mono; [by apply codec_bytes| |done]. intros x d' (? & ? & ? & H). split_and!; [done..|].
    intros He He'. destruct (H He He') as (bs & Hu & [Hl Hx] & ->). exists x. split; [done|]. intros Hn.
    unfold sized_ok, sizedBytes. by rewrite Hl.
Qed.

(** * Instruction packages *)

(** [if err != nil { return ..., wrap(err) }] around a decoding method. *)
Definition mapErr {S E F A} (wrap : E → F) (m : GoM S E A) : GoM S F A :=
  λ s, match m s with
       | (Ok x, s') => (Ok x, s')
       | (Err e, s') => (Err (wrap e), s')
       | (Panic, s') => (Panic, s')
       end.

Lemma reads_mapErr {E F A} (wrap : E → F) (m : GoM Decoder E A) x bs : reads m x bs → reads (mapErr wrap m) x bs.
Proof. intros [Hb H]. split; [done|]. intros pre rest Hp Hr. unfold mapErr. by rewrite H. Qed.

Lemma parses_mapErr {E F A} (wrap : E → F) (m : GoM Decoder E A) P : parses m P → parses (mapErr wrap m) P.
Proof.
  intros H d Hd. specialize (H d Hd). unfold wp, mapErr in *. by destruct (m d) as [[x|e|] d'].
Qed.

#[global] Instance mapErr_codec {E F A} (wrap : E → F) (m : GoM Decoder E A) enc dom :
  Codec m enc dom → Codec (mapErr wrap m) enc dom.
Proof.
  intros Hc. split; [intros x Hx; by apply reads_mapErr, Hc|apply parses_mapErr, Hc].
Qed.

(** Reads and parses that depend on what follows: a decoder that looks at
    [Remaining] reads [x] only when the rest satisfies [Q]. *)
Definition readsWhen {E A} (Q : bytes → Prop) (m : GoM Decoder E A) (x : A) (bs : bytes) : Prop :=
  bytes_ok bs ∧ ∀ pre rest, bytes_ok pre → bytes_ok rest → Q rest →
    m (at_ (pre ++ bs ++ rest) (len pre)) = (Ok x, at_ (pre ++ bs ++ rest) (len pre + len bs)).

Definition postR {A} (R : A → bytes → bytes → Prop) (d : Decoder) (x : A) (d' : Decoder) : Prop :=
  dec_inv d' ∧ d_data d' = d_data d ∧ (d_err d ≠ None → d' = d) ∧
  (d_err d = None → d_err d' = None → ∃ bs, unread d = bs ++ unread d' ∧ R x bs (unread d')).
Definition parsesR {E A} (m : GoM Decoder E A) (R : A → bytes → bytes → Prop) : Prop :=
  ∀ d, dec_inv d → wp m (postR R d) (λ _ _, True) d.

Lemma reads_when {E A} (Q : bytes → Prop) (m : GoM Decoder E A) x bs : reads m x bs → readsWhen Q m x bs.
Proof. intros [Hb Hm]. split; [done|]. intros. by apply Hm. Qed.

Lemma readsWhen_bind {E A B} (Q : bytes → Prop) (m : GoM Decoder E A) (f : A → GoM Decoder E B) x y b1 b2 bs :
  reads m x b1 → readsWhen Q (f x) y b2 → bs = b1 ++ b2 → readsWhen Q (m ≫= f) y bs.
Proof.
  intros [H1 Hm] [H2 Hf] ->. split; [by apply Forall_app_2|]. intros pre rest Hpre Hrest HQ.
  erewrite run_bind by (rewrite <- app_assoc; apply Hm; [done|by apply Forall_app_2]).
  specialize (Hf (pre ++ b1) rest (Forall_app_2 _ _ _ Hpre H1) Hrest HQ). rewrite len_app in Hf. rewrite <- !app_assoc in *.
  rewrite Hf. by rewrite len_app, Z.add_assoc.
Qed.

Lemma readsWhen_codec {E A B} (Q : bytes → Prop) (rd : GoM Decoder E A) enc dom {Hc : Codec rd enc dom} f (x : A) (y : B) b2 bs :
  readsWhen Q (f x) y b2 → dom x → bs = enc x ++ b2 → readsWhen Q (rd ≫= f) y bs.
Proof. intros Hf Hx ->. eapply readsWhen_bind; [by apply Hc|exact Hf|done]. Qed.

Lemma readsWhen_map {E A B} (Q : bytes → Prop) (m : GoM Decoder E A) (f : A → B) x bs :
  readsWhen Q m x bs → readsWhen Q (y ← m; mret (f y)) (f x) bs.
Proof. intros [Hb Hm]. split; [done|]. intros pre rest ? ? ?. by erewrite run_bind by (by apply Hm). Qed.

Lemma parses_rest {E A} (m : GoM Decoder E A) P (R : A → bytes → bytes → Prop) :
  parses m P → (∀ x bs rest, P x bs → R x bs rest) → parsesR m R.
Proof.
  intros Hm HPR d Hd. eapply wp_mono; [by apply Hm| |done]. intros x d' (? & ? & ? & H). split_and!; [done..|].
  intros He He'. destruct (H He He') as (bs & ? & ?). eauto.
Qed.

Lemma parsesR_then {E A B} (m : GoM Decoder E A) (f : A → GoM Decoder E B) P (R : B → bytes → bytes → Prop) :
  parsesR m P → (∀ x, parsesR (f x) (λ y b2 rest, ∀ b1, P x b1 (b2 ++ rest) → R y (b1 ++ b2) rest)) → parsesR (m ≫= f) R.
Proof.
  intros Hm Hf d Hd. apply wp_bind. eapply wp_mono; [by apply Hm| |done]. intros x d1 (Hi1 & Hd1 & Hs1 & H1).
  eapply wp_mono; [by apply Hf| |done]. intros y d2 (Hi2 & Hd2 & Hs2 & H2). split_and!; [done|congruence| |].
  - intros He. rewrite Hs2; [auto|]. by rewrite Hs1.
  - intros He He2. destruct (d_err d1) eqn:He1; [rewrite Hs2 in He2 by congruence; congruence|].
    destruct (H1 He eq_refl) as (b1 & Hu1 & HP). destruct (H2 eq_refl He2) as (b2 & Hu2 & HR).
    exists (b1 ++ b2). rewrite <- app_assoc, <- Hu2. split; [done|]. apply HR. by rewrite <- Hu2.
Qed.

Lemma parsesR_codec {E A B} (rd : GoM Decoder E A) enc dom {Hc : Codec rd enc dom} f (R : B → bytes → bytes → Prop) :
  (∀ x, parsesR (f x) (λ y bs rest, dom x → R y (enc x ++ bs) rest)) → parsesR (rd ≫= f) R.
Proof.
  intros Hf. eapply parsesR_then; [eapply parses_rest; [apply Hc|]; intros x bs rest HP; exact HP|]. intros x.
  intros d Hd. eapply wp_mono; [by apply Hf| |done]. intros y d' (? & ? & ? & H). split_and!; [done..|].
  intros He He'. destruct (H He He') as (bs & ? & HR). exists bs. split; [done|]. intros b1 [Hx ->]. auto.
Qed.

(** A decoding function that ends in a check, both ways. *)
Lemma runDecoder_when {F A} (m : GoM Decoder F A) (wrap : recorded → F) Q x bs rest :
  readsWhen Q m x bs → bytes_ok rest → Q rest → runDecoder (y ← m; _ ← checkErr wrap; mret y) (bs ++ rest) = Ok x.
Proof.
  intros [_ Hm] Hr HQ. specialize (Hm [] rest ltac:(constructor) Hr HQ). unfold runDecoder.
  change (NewDecoder (bs ++ rest)) with (at_ ([] ++ bs ++ rest) (len (@nil Z))). by erewrite run_bind by exact Hm.
Qed.

Lemma runDecoder_checked {F A} (m : GoM Decoder F A) (wrap : recorded → F) R data :
  parsesR m R → bytes_ok data →
  match runDecoder (y ← m; _ ← checkErr wrap; mret y) data with
  | Ok x => ∃ bs rest, data = bs ++ rest ∧ R x bs rest
  | Err _ => True
  | Panic => False
  end.
Proof.
  intros Hm Hd. assert (wp (y ← m; _ ← checkErr wrap; mret y) (λ x d', ∃ bs rest, data = bs ++ rest ∧ R x bs rest)
    (λ _ _, True) (NewDecoder data)) as H.
  { apply wp_bind. eapply wp_mono; [by apply Hm, NewDecoder_inv| |done]. intros x d (_ & _ & _ & H). apply check_run.
    intros He. apply wp_ret. destruct (H eq_refl He) as (bs & Hu & HR). by exists bs, (unread d). }
  unfold wp in H. unfold runDecoder. by destruct ((y ← m; _ ← checkErr wrap; mret y) (NewDecoder data)) as [[x|e|] d].
Qed.

Lemma remaining_at pre bs rest : Remaining (at_ (pre ++ bs ++ rest) (len pre)) = len bs + len rest.
Proof. unfold Remaining. cbn. rewrite !len_app. lia. Qed.

(** What an instruction package promises of [decodeBody], the [switch] on the
    discriminator. A body has one or more wire forms [w]; under the form's
    discriminator [disc w] the decoder reads [enc w] as the body [val w] when
    what follows is one of the form's tails, and accepts nothing else. *)
Class FormCodec {F W B} (decodeBody : Z → GoM Decoder F B) (disc : W → Z) (enc : W → bytes) (val : W → B)
    (dom : W → Prop) (tail : W → bytes → Prop) : Prop := {
  form_reads w : dom w → readsWhen (tail w) (decodeBody (disc w)) (val w) (enc w);
  form_parses typ :
    parsesR (decodeBody typ) (λ b bs rest, ∃ w, b = val w ∧ disc w = typ ∧ dom w ∧ bs = enc w ∧ tail w rest);
}.

(** Most packages have one wire form per body and ignore what follows. *)
Class BodyCodec {F B} (decodeBody : Z → GoM Decoder F B) (disc : B → Z) (enc : B → bytes) (dom : B → Prop) : Prop := {
  body_reads b : dom b → reads (decodeBody (disc b)) b (enc b);
  body_parses typ : parses (decodeBody typ) (λ b bs, disc b = typ ∧ dom b ∧ bs = enc b);
}.

#[global] Instance body_form {F B} (decodeBody : Z → GoM Decoder F B) disc enc dom :
  BodyCodec decodeBody disc enc dom → FormCodec decodeBody disc enc (λ b, b) dom (λ _ _, True).
Proof.
  intros [Hr Hp]. split.
  - intros b Hb. by apply reads_when, Hr.
  - intros typ. eapply parses_rest; [apply Hp|]. naive_solver.
Qed.

(** A body given by its field list, whose head is the discriminator. *)
Definition tailBytes {B} (fields : B → list value) (b : B) : bytes := concat (valueBytes <$> drop 1 (fields b)).
Definition fieldsOk {B} (fields : B → list value) (b : B) : Prop := Forall value_ok (fields b).

(** A struct given by its field list: its bytes, a list of such structs, and one
    behind an option tag. *)
Definition wire {A} (fields : A → list value) (x : A) : bytes := concat (valueBytes <$> fields x).

Lemma bind_values {A} (f : A → list value) (xs : list A) :
  concat (valueBytes <$> (xs ≫= f)) = concat (wire f <$> xs) ∧ (Forall value_ok (xs ≫= f) ↔ Forall (fieldsOk f) xs).
Proof.
  induction xs as [|x xs [IHb IHv]]; [by split; [|rewrite !Forall_nil]|].
  rewrite bind_cons, fmap_app, concat_app, Forall_app, Forall_cons, IHb, IHv. done.
Qed.

Lemma foldl_values {A} (f : A → list value) (w : Encoder → A → Encoder) xs e :
  (∀ e x, w e x = writeValues (f x) e) → foldl w e xs = writeValues (xs ≫= f) e.
Proof.
  intros Hw. revert e. induction xs as [|x xs IH]; intros e; [done|]. cbn [foldl]. by rewrite bind_cons, writeValues_app, Hw, IH.
Qed.

Lemma bind_single {A} (f : A → value) xs : xs ≫= (λ x, [f x]) = f <$> xs.
Proof. induction xs as [|x xs IH]; [done|]. rewrite bind_cons, IH. done. Qed.

Lemma concat_len {A} (f : A → bytes) n (xs : list A) : (∀ x, len (f x) = n) → len (concat (f <$> xs)) = n * len xs.
Proof.
  intros Hf. induction xs as [|x xs IH]; [cbn; change (len (@nil A)) with 0; change (len (@nil Z)) with 0; lia|]. rewrite fmap_cons. cbn [concat].
  rewrite len_app, Hf, len_cons, IH. lia.
Qed.

Lemma len_optBytes {A} (f : A → bytes) o : 1 ≤ len (optBytes f o).
Proof.
  destruct o as [x|]; [|done]. unfold optBytes. rewrite len_app. pose proof (len_nonneg (f x)).
  change (len (boolByte true)) with 1. lia.
Qed.

Definition optFields {A} (f : A → list value) (o : option A) : list value :=
  match o with Some x => VOption true :: f x | None => [VOption false] end.
Lemma optFields_bytes {A} (f : A → list value) o : concat (valueBytes <$> optFields f o) = optBytes (wire f) o.
Proof. by destruct o. Qed.
Lemma optFields_ok {A} (f : A → list value) o : Forall value_ok (optFields f o) ↔ optDom (fieldsOk f) o.
Proof. destruct o; cbn; rewrite ?Forall_cons, ?Forall_nil; cbn; unfold fieldsOk; tauto. Qed.
Lemma writeOpt_fields {A} (f : A → list value) w (o : option A) e :
  (∀ x e, w x e = writeValues (f x) e) → writeOpt w o e = writeValues (optFields f o) e.
Proof. intros Hw. destruct o; [|done]. cbn. by rewrite Hw. Qed.

(** The shape every [DecodeInstruction] has: the discriminator, its error, the
    body, its error, and what the package checks of the decoded value. *)
Definition decodeTagged {F B C} (readTag : GoM Decoder F Z) (errType : recorded → F) (decodeBody : Z → GoM Decoder F B)
    (errDecode : Z → recorded → F) (check : Z → B → option F) (mk : B → C) : GoM Decoder F C :=
  typ ← readTag;
  _ ← checkErr errType;
  b ← decodeBody typ;
  _ ← checkErr (errDecode typ);
  match check typ b with
  | Some e => throw e
  | None => mret (mk b)
  end.

Section package.
Context {F W B C : Type} (readTag : GoM Decoder F Z) (tagEnc : Z → bytes) (tagDom : Z → Prop).
Context {Htag : Codec readTag tagEnc tagDom}.
Context (decodeBody : Z → GoM Decoder F B) (disc : W → Z) (enc : W → bytes) (val : W → B).
Context (dom : W → Prop) (tail : W → bytes → Prop).
Context {Hbody : FormCodec decodeBody disc enc val dom tail}.
Context (errType : recorded → F) (errDecode : Z → recorded → F) (check : Z → B → option F) (mk : B → C).

Let decode := decodeTagged readTag errType decodeBody errDecode check mk.
Let wire w := tagEnc (disc w) ++ enc w.

(** Both stages of the decoder on a form's bytes. *)
Lemma tagged_run w rest :
  tagDom (disc w) → dom w → bytes_ok rest → tail w rest →
  ∃ d, decode (NewDecoder (wire w ++ rest)) =
    match check (disc w) (val w) with Some e => throw e | None => mret (mk (val w)) end d.
Proof.
  intros Ht Hd Hr Htl. destruct (codec_reads (disc w) Ht) as [Hb Hread]. destruct (form_reads w Hd) as [Hbe Hform].
  specialize (Hread [] (enc w ++ rest) ltac:(constructor) ltac:(by apply Forall_app_2)).
  specialize (Hform (tagEnc (disc w)) rest Hb Hr Htl). cbn [app] in Hread. rewrite len_nil, Z.add_0_l in Hread.
  exists (at_ (tagEnc (disc w) ++ enc w ++ rest) (len (tagEnc (disc w)) + len (enc w))).
  unfold decode, decodeTagged, wire. rewrite <- app_assoc. change (NewDecoder ?x) with (at_ x 0).
  erewrite run_bind by exact Hread. rewrite check_at. erewrite run_bind by exact Hform. by rewrite check_at.
Qed.

(** Both directions of a package's codec. *)
Lemma tagged_form w rest :
  tagDom (disc w) → dom w → bytes_ok rest → tail w rest →
  runDecoder decode (wire w ++ rest) =
    match check (disc w) (val w) with Some e => Err e | None => Ok (mk (val w)) end.
Proof.
  intros Ht Hd Hr Htl. destruct (tagged_run w rest Ht Hd Hr Htl) as [d Hrun]. unfold runDecoder. rewrite Hrun.
  by destruct (check (disc w) (val w)).
Qed.

Lemma decodeTagged_wp d :
  dec_inv d → wp decode (λ c d', d_err d' = None ∧ postR (λ c bs rest, ∃ w, c = mk (val w) ∧ tagDom (disc w) ∧ dom w ∧
    check (disc w) (val w) = None ∧ bs = wire w ∧ tail w rest) d c d') (λ _ _, True) d.
Proof.
  intros Hd. apply wp_bind. eapply wp_mono; [by apply Htag| |done]. intros typ d1 (Hi1 & Hd1 & Hs1 & H1).
  apply check_run. intros He1. apply wp_bind. eapply wp_mono; [by apply Hbody| |done].
  intros b d2 (Hi2 & Hd2 & Hs2 & H2). apply check_run. intros He2.
  destruct (check typ b) as [e|] eqn:Ec; [by apply wp_throw|]. apply wp_ret. split; [done|].
  destruct (d_err d) eqn:He; [by rewrite Hs1 in He1 by done; congruence|].
  split_and!; [done|congruence|congruence|]. intros _ _.
  destruct (H1 eq_refl He1) as (b1 & Hu1 & Ht & ->). destruct (H2 He1 He2) as (b2 & Hu2 & w & -> & <- & Hw & -> & Htl).
  exists (wire w). unfold wire. rewrite <- app_assoc, <- Hu2. split; [done|]. eauto 10.
Qed.

Lemma tagged_accepts data :
  bytes_ok data →
  match runDecoder decode data with
  | Ok c => ∃ w rest, c = mk (val w) ∧ tagDom (disc w) ∧ dom w ∧ check (disc w) (val w) = None ∧
      data = wire w ++ rest ∧ bytes_ok rest ∧ tail w rest
  | Err _ => True
  | Panic => False
  end.
Proof.
  intros Hd. pose proof (decodeTagged_wp _ (NewDecoder_inv data Hd)) as H. unfold wp in H. unfold runDecoder.
  destruct (decode (NewDecoder data)) as [[c|e|] d]; simpl; [|done..].
  destruct H as (He & (Hi & Hdata) & _ & _ & H). destruct (H eq_refl He) as (bs & Hu & w & ? & ? & ? & ? & -> & ?).
  exists w, (unread d). split_and!; [done..| | |done].
  - by rewrite <- Hu.
  - unfold unread. by apply Forall_drop.
Qed.
End package.

(** The two directions for a package with one form per body. *)
Section single.
Context {F B C : Type} (readTag : GoM Decoder F Z) (tagEnc : Z → bytes) (tagDom : Z → Prop).
Context {Htag : Codec readTag tagEnc tagDom}.
Context (decodeBody : Z → GoM Decoder F B) (disc : B → Z) (enc : B → bytes) (dom : B → Prop).
Context {Hbody : BodyCodec decodeBody disc enc dom}.
Context (errType : recorded → F) (errDecode : Z → recorded → F) (check : Z → B → option F) (mk : B → C).

Let decode := decodeTagged readTag errType decodeBody errDecode check mk.

Lemma tagged_roundtrip b rest :
  tagDom (disc b) → dom b → check (disc b) b = None → bytes_ok rest →
  runDecoder decode ((tagEnc (disc b) ++ enc b) ++ rest) = Ok (mk b).
Proof.
  intros Ht Hd Hc Hr. pose proof (tagged_form readTag tagEnc tagDom decodeBody disc enc (λ b, b) dom (λ _ _, True)
    errType errDecode check mk b rest Ht Hd Hr I) as H. cbv beta in H. by rewrite Hc in H.
Qed.

Lemma tagged_refused b e rest :
  tagDom (disc b) → dom b → check (disc b) b = Some e → bytes_ok rest →
  runDecoder decode ((tagEnc (disc b) ++ enc b) ++ rest) = Err e.
Proof.
  intros Ht Hd Hc Hr. pose proof (tagged_form readTag tagEnc tagDom decodeBody disc enc (λ b, b) dom (λ _ _, True)
    errType errDecode check mk b rest Ht Hd Hr I) as H. cbv beta in H. by rewrite Hc in H.
Qed.

Lemma tagged_canonical data :
  bytes_ok data →
  match runDecoder decode data with
  | Ok c => ∃ b rest, c = mk b ∧ tagDom (disc b) ∧ dom b ∧ check (disc b) b = None ∧ data = (tagEnc (disc b) ++ enc b) ++ rest
  | Err _ => True
  | Panic => False
  end.
Proof.
  intros Hd. pose proof (tagged_accepts readTag tagEnc tagDom decodeBody disc enc (λ b, b) dom (λ _ _, True)
    errType errDecode check mk data Hd) as H. subst decode. destruct (runDecoder _ data); [|done..].
  destruct H as (b & rest & ? & ? & ? & ? & ? & _). by exists b, rest.
Qed.
End single.

(** Step through a straight-line reader. *)
Ltac step_reads := repeat (eapply reads_codec; [apply _| | |]); try apply reads_ret.
Ltac step_parses :=
  repeat (eapply parses_codec; [apply _|]; intros ?);
  apply parses_ret_spec.
Ltac fields_ok := repeat (apply Forall_cons_2; [first [assumption | exact I]|]); apply Forall_nil_2.

(** Field lists flattened into one predicate or one byte string per field. *)
Ltac layout_norm :=
  unfold fieldsOk, tailBytes, optDom, optBytes in *;
  cbn [drop app concat fmap list_fmap valueBytes value_ok] in *;
  rewrite ?drop_0, ?fmap_app, ?concat_app, ?optValues_bytes, ?optFields_bytes, ?Forall_cons, ?Forall_app, ?Forall_cons,
    ?optValues_ok, ?optFields_ok, ?Forall_nil in *;
  cbn [drop app concat fmap list_fmap valueBytes value_ok] in *;
  repeat match goal with H : _ ∧ _ |- _ => destruct H end.
Ltac layout_done :=
  try reflexivity; layout_norm; rewrite <- ?app_assoc, ?app_nil_r; rewrite <- ?app_assoc; split_and?; first [assumption | reflexivity | exact I | done].

(** The codec of a record read field by field. *)
Tactic Notation "record_codec" reference(m) reference(fs) :=
  split;
  [ intros x Hx; destruct x; unfold fieldsOk, fs in *; layout_norm; unfold m; step_reads; layout_done
  | unfold m; step_parses; intros; unfold fieldsOk, fs; layout_done ].
