(* ===== verification/System.v ===== *)
(** System: the System Program's instruction codec (programs/system): the
    fourteen instructions, their constructors with the roles of their accounts,
    the encoders and [DecodeInstruction]. *)
From Stdlib Require Import ZArith Lia.
From stdpp Require Import base numbers list.
From S2P Require Import Prelude Shortvec Keys ProgramIds Wire Program.

Open Scope Z_scope.
Open Scope wire_scope.

(** [solana.MaxSeedLength]. *)
Definition MaxSeedLength : Z := 32.

(** Discriminators, in [iota] order. *)
Definition CreateAccountInstruction : Z := 0.
Definition AssignInstruction : Z := 1.
Definition TransferInstruction : Z := 2.
Definition CreateAccountWithSeedInstruction : Z := 3.
Definition AdvanceNonceAccountInstruction : Z := 4.
Definition WithdrawNonceAccountInstruction : Z := 5.
Definition InitializeNonceAccountInstruction : Z := 6.
Definition AuthorizeNonceAccountInstruction : Z := 7.
Definition AllocateInstruction : Z := 8.
Definition AllocateWithSeedInstruction : Z := 9.
Definition AssignWithSeedInstruction : Z := 10.
Definition TransferWithSeedInstruction : Z := 11.
Definition UpgradeNonceAccountInstruction : Z := 12.
Definition CreateAccountAllowPrefundInstruction : Z := 13.

(** The instruction structs: exactly one field of [DecodedInstruction] is set,
    so the decoded value is one of these. *)
Inductive body :=
  | CreateAccount (Lamports Space : Z) (Owner : PublicKey)
  | Assign (Owner : PublicKey)
  | Transfer (Lamports : Z)
  | CreateAccountWithSeed (Base : PublicKey) (Seed : bytes) (Lamports Space : Z) (Owner : PublicKey)
  | AdvanceNonceAccount
  | WithdrawNonceAccount (Lamports : Z)
  | InitializeNonceAccount (Authorized : PublicKey)
  | AuthorizeNonceAccount (Authorized : PublicKey)
  | Allocate (Space : Z)
  | AllocateWithSeed (Base : PublicKey) (Seed : bytes) (Space : Z) (Owner : PublicKey)
  | AssignWithSeed (Base : PublicKey) (Seed : bytes) (Owner : PublicKey)
  | TransferWithSeed (Lamports : Z) (FromSeed : bytes) (FromOwner : PublicKey)
  | UpgradeNonceAccount
  | CreateAccountAllowPrefund (Lamports Space : Z) (Owner : PublicKey).

(** The embedded [instruction] carries the accounts. *)
Record SystemInstruction := mkSystem { s_accounts : AccountMetaSlice; s_body : body }.

Inductive system_err :=
  | ErrMaxSeedLengthExceeded
  | errSystemEncode (r : recorded)
  | errSystemType (r : recorded)
  | ErrUnknownInstruction (typ : Z)
  | errSystemDecode (typ : Z) (r : recorded).

(** * Constructors *)

Definition NewCreateAccountInstruction (lamports space : Z) (owner fundingAccount newAccount : PublicKey) :=
  mkSystem [NewAccountMeta fundingAccount true true; NewAccountMeta newAccount true true]
    (CreateAccount lamports space owner).
Definition NewAssignInstruction (owner assignedAccount : PublicKey) :=
  mkSystem [NewAccountMeta assignedAccount true true] (Assign owner).
Definition NewTransferInstruction (lamports : Z) (fundingAccount recipientAccount : PublicKey) :=
  mkSystem [NewAccountMeta fundingAccount true true; NewAccountMeta recipientAccount true false]
    (Transfer lamports).
Definition NewCreateAccountWithSeedInstruction (base : PublicKey) (seed : bytes) (lamports space : Z)
    (owner fundingAccount createdAccount baseAccount : PublicKey) : outcome system_err SystemInstruction :=
  if decide (MaxSeedLength < len seed) then Err ErrMaxSeedLengthExceeded else
  Ok (mkSystem [NewAccountMeta fundingAccount true true; NewAccountMeta createdAccount true false;
                NewAccountMeta baseAccount false true]
        (CreateAccountWithSeed base seed lamports space owner)).
Definition NewAdvanceNonceAccountInstruction (nonceAccount recentBlockhashesSysvar nonceAuthority : PublicKey) :=
  mkSystem [NewAccountMeta nonceAccount true false; NewAccountMeta recentBlockhashesSysvar false false;
            NewAccountMeta nonceAuthority false true] AdvanceNonceAccount.
Definition NewWithdrawNonceAccountInstruction (lamports : Z)
    (nonceAccount recipientAccount recentBlockhashesSysvar rentSysvar nonceAuthority : PublicKey) :=
  mkSystem [NewAccountMeta nonceAccount true false; NewAccountMeta recipientAccount true false;
            NewAccountMeta recentBlockhashesSysvar false false; NewAccountMeta rentSysvar false false;
            NewAccountMeta nonceAuthority false true] (WithdrawNonceAccount lamports).
Definition NewInitializeNonceAccountInstruction
    (authorized nonceAccount recentBlockhashesSysvar rentSysvar : PublicKey) :=
  mkSystem [NewAccountMeta nonceAccount true false; NewAccountMeta recentBlockhashesSysvar false false;
            NewAccountMeta rentSysvar false false] (InitializeNonceAccount authorized).
Definition NewAuthorizeNonceAccountInstruction (authorized nonceAccount nonceAuthority : PublicKey) :=
  mkSystem [NewAccountMeta nonceAccount true false; NewAccountMeta nonceAuthority false true]
    (AuthorizeNonceAccount authorized).
Definition NewAllocateInstruction (space : Z) (newAccount : PublicKey) :=
  mkSystem [NewAccountMeta newAccount true true] (Allocate space).
Definition NewAllocateWithSeedInstruction (base : PublicKey) (seed : bytes) (space : Z)
    (owner allocatedAccount baseAccount : PublicKey) : outcome system_err SystemInstruction :=
  if decide (MaxSeedLength < len seed) then Err ErrMaxSeedLengthExceeded else
  Ok (mkSystem [NewAccountMeta allocatedAccount true false; NewAccountMeta baseAccount false true]
        (AllocateWithSeed base seed space owner)).
Definition NewAssignWithSeedInstruction (base : PublicKey) (seed : bytes)
    (owner assignedAccount baseAccount : PublicKey) : outcome system_err SystemInstruction :=
  if decide (MaxSeedLength < len seed) then Err ErrMaxSeedLengthExceeded else
  Ok (mkSystem [NewAccountMeta assignedAccount true false; NewAccountMeta baseAccount false true]
        (AssignWithSeed base seed owner)).
Definition NewTransferWithSeedInstruction (lamports : Z) (fromSeed : bytes)
    (fromOwner fundingAccount baseForFundingAccount recipientAccount : PublicKey)
    : outcome system_err SystemInstruction :=
  if decide (MaxSeedLength < len fromSeed) then Err ErrMaxSeedLengthExceeded else
  Ok (mkSystem [NewAccountMeta fundingAccount true false; NewAccountMeta baseForFundingAccount false true;
                NewAccountMeta recipientAccount true false] (TransferWithSeed lamports fromSeed fromOwner)).
Definition NewUpgradeNonceAccountInstruction (nonceAccount : PublicKey) :=
  mkSystem [NewAccountMeta nonceAccount true false] UpgradeNonceAccount.
Definition NewCreateAccountAllowPrefundInstruction (lamports space : Z)
    (owner newAccount fundingAccount : PublicKey) :=
  mkSystem [NewAccountMeta newAccount true true; NewAccountMeta fundingAccount true true]
    (CreateAccountAllowPrefund lamports space owner).
Definition NewCreateAccountAllowPrefundWithoutFundingInstruction (space : Z) (owner newAccount : PublicKey) :=
  mkSystem [NewAccountMeta newAccount true true] (CreateAccountAllowPrefund 0 space owner).

(** * The [Data] methods *)

Definition encoded (e : Encoder) : outcome system_err bytes := finish errSystemEncode e.

Definition Data_CreateAccount (Lamports Space : Z) (Owner : PublicKey) : outcome system_err bytes :=
  encoded (NewEncoder [] ▷ WriteUint32 CreateAccountInstruction ▷ WriteUint64 Lamports ▷ WriteUint64 Space
        ▷ WritePublicKey Owner).
Definition Data_Assign (Owner : PublicKey) : outcome system_err bytes :=
  encoded (NewEncoder [] ▷ WriteUint32 AssignInstruction ▷ WritePublicKey Owner).
Definition Data_Transfer (Lamports : Z) : outcome system_err bytes :=
  encoded (NewEncoder [] ▷ WriteUint32 TransferInstruction ▷ WriteUint64 Lamports).
Definition Data_CreateAccountWithSeed (Base : PublicKey) (Seed : bytes) (Lamports Space : Z)
    (Owner : PublicKey) : outcome system_err bytes :=
  if decide (MaxSeedLength < len Seed) then Err ErrMaxSeedLengthExceeded else
  encoded (NewEncoder [] ▷ WriteUint32 CreateAccountWithSeedInstruction ▷ WritePublicKey Base
        ▷ WriteBincodeString Seed ▷ WriteUint64 Lamports ▷ WriteUint64 Space ▷ WritePublicKey Owner).
Definition Data_AdvanceNonceAccount : outcome system_err bytes :=
  Ok [u8 AdvanceNonceAccountInstruction; 0; 0; 0].
Definition Data_WithdrawNonceAccount (Lamports : Z) : outcome system_err bytes :=
  encoded (NewEncoder [] ▷ WriteUint32 WithdrawNonceAccountInstruction ▷ WriteUint64 Lamports).
Definition Data_InitializeNonceAccount (Authorized : PublicKey) : outcome system_err bytes :=
  encoded (NewEncoder [] ▷ WriteUint32 InitializeNonceAccountInstruction ▷ WritePublicKey Authorized).
Definition Data_AuthorizeNonceAccount (Authorized : PublicKey) : outcome system_err bytes :=
  encoded (NewEncoder [] ▷ WriteUint32 AuthorizeNonceAccountInstruction ▷ WritePublicKey Authorized).
Definition Data_Allocate (Space : Z) : outcome system_err bytes :=
  encoded (NewEncoder [] ▷ WriteUint32 AllocateInstruction ▷ WriteUint64 Space).
Definition Data_AllocateWithSeed (Base : PublicKey) (Seed : bytes) (Space : Z) (Owner : PublicKey)
    : outcome system_err bytes :=
  if decide (MaxSeedLength < len Seed) then Err ErrMaxSeedLengthExceeded else
  encoded (NewEncoder [] ▷ WriteUint32 AllocateWithSeedInstruction ▷ WritePublicKey Base
        ▷ WriteBincodeString Seed ▷ WriteUint64 Space ▷ WritePublicKey Owner).
Definition Data_AssignWithSeed (Base : PublicKey) (Seed : bytes) (Owner : PublicKey)
    : outcome system_err bytes :=
  if decide (MaxSeedLength < len Seed) then Err ErrMaxSeedLengthExceeded else
  encoded (NewEncoder [] ▷ WriteUint32 AssignWithSeedInstruction ▷ WritePublicKey Base
        ▷ WriteBincodeString Seed ▷ WritePublicKey Owner).
Definition Data_TransferWithSeed (Lamports : Z) (FromSeed : bytes) (FromOwner : PublicKey)
    : outcome system_err bytes :=
  if decide (MaxSeedLength < len FromSeed) then Err ErrMaxSeedLengthExceeded else
  encoded (NewEncoder [] ▷ WriteUint32 TransferWithSeedInstruction ▷ WriteUint64 Lamports
        ▷ WriteBincodeString FromSeed ▷ WritePublicKey FromOwner).
Definition Data_UpgradeNonceAccount : outcome system_err bytes :=
  Ok [u8 UpgradeNonceAccountInstruction; 0; 0; 0].
Definition Data_CreateAccountAllowPrefund (Lamports Space : Z) (Owner : PublicKey) : outcome system_err bytes :=
  encoded (NewEncoder [] ▷ WriteUint32 CreateAccountAllowPrefundInstruction ▷ WriteUint64 Lamports
        ▷ WriteUint64 Space ▷ WritePublicKey Owner).

(** The method selected by the dynamic type. *)
Definition Data (b : body) : outcome system_err bytes :=
  match b with
  | CreateAccount l s o => Data_CreateAccount l s o
  | Assign o => Data_Assign o
  | Transfer l => Data_Transfer l
  | CreateAccountWithSeed b s l sp o => Data_CreateAccountWithSeed b s l sp o
  | AdvanceNonceAccount => Data_AdvanceNonceAccount
  | WithdrawNonceAccount l => Data_WithdrawNonceAccount l
  | InitializeNonceAccount a => Data_InitializeNonceAccount a
  | AuthorizeNonceAccount a => Data_AuthorizeNonceAccount a
  | Allocate s => Data_Allocate s
  | AllocateWithSeed b s sp o => Data_AllocateWithSeed b s sp o
  | AssignWithSeed b s o => Data_AssignWithSeed b s o
  | TransferWithSeed l s o => Data_TransferWithSeed l s o
  | UpgradeNonceAccount => Data_UpgradeNonceAccount
  | CreateAccountAllowPrefund l s o => Data_CreateAccountAllowPrefund l s o
  end.

(** * Decoding *)

(** The [switch] of [DecodeInstruction]. *)
Definition decodeBody (typ : Z) : GoM Decoder system_err body :=
  if decide (typ = CreateAccountInstruction) then
    l ← ReadUint64; s ← ReadUint64; o ← ReadPublicKey; mret (CreateAccount l s o)
  else if decide (typ = AssignInstruction) then
    o ← ReadPublicKey; mret (Assign o)
  else if decide (typ = TransferInstruction) then
    l ← ReadUint64; mret (Transfer l)
  else if decide (typ = CreateAccountWithSeedInstruction) then
    b ← ReadPublicKey; s ← ReadBincodeString; l ← ReadUint64; sp ← ReadUint64; o ← ReadPublicKey;
    mret (CreateAccountWithSeed b s l sp o)
  else if decide (typ = AdvanceNonceAccountInstruction) then mret AdvanceNonceAccount
  else if decide (typ = WithdrawNonceAccountInstruction) then
    l ← ReadUint64; mret (WithdrawNonceAccount l)
  else if decide (typ = InitializeNonceAccountInstruction) then
    a ← ReadPublicKey; mret (InitializeNonceAccount a)
  else if decide (typ = AuthorizeNonceAccountInstruction) then
    a ← ReadPublicKey; mret (AuthorizeNonceAccount a)
  else if decide (typ = AllocateInstruction) then
    s ← ReadUint64; mret (Allocate s)
  else if decide (typ = AllocateWithSeedInstruction) then
    b ← ReadPublicKey; s ← ReadBincodeString; sp ← ReadUint64; o ← ReadPublicKey;
    mret (AllocateWithSeed b s sp o)
  else if decide (typ = AssignWithSeedInstruction) then
    b ← ReadPublicKey; s ← ReadBincodeString; o ← ReadPublicKey; mret (AssignWithSeed b s o)
  else if decide (typ = TransferWithSeedInstruction) then
    l ← ReadUint64; s ← ReadBincodeString; o ← ReadPublicKey; mret (TransferWithSeed l s o)
  else if decide (typ = UpgradeNonceAccountInstruction) then mret UpgradeNonceAccount
  else if decide (typ = CreateAccountAllowPrefundInstruction) then
    l ← ReadUint64; s ← ReadUint64; o ← ReadPublicKey; mret (CreateAccountAllowPrefund l s o)
  else throw (ErrUnknownInstruction typ).

Definition decodeSystem (accounts : AccountMetaSlice) : GoM Decoder system_err SystemInstruction :=
  typ ← ReadUint32;
  _ ← checkErr errSystemType;
  b ← decodeBody typ;
  _ ← checkErr (errSystemDecode typ);
  mret (mkSystem accounts b).

Definition DecodeInstruction (accounts : AccountMetaSlice) (data : bytes)
    : outcome system_err SystemInstruction :=
  runDecoder (decodeSystem accounts) data.

(** * Layouts *)

(** The fields of each instruction in wire order, the discriminator first. *)
Definition fields (b : body) : list value :=
  match b with
  | CreateAccount l s o => [VUint32 0; VUint64 l; VUint64 s; VPublicKey o]
  | Assign o => [VUint32 1; VPublicKey o]
  | Transfer l => [VUint32 2; VUint64 l]
  | CreateAccountWithSeed b s l sp o =>
    [VUint32 3; VPublicKey b; VBincodeString s; VUint64 l; VUint64 sp; VPublicKey o]
  | AdvanceNonceAccount => [VUint32 4]
  | WithdrawNonceAccount l => [VUint32 5; VUint64 l]
  | InitializeNonceAccount a => [VUint32 6; VPublicKey a]
  | AuthorizeNonceAccount a => [VUint32 7; VPublicKey a]
  | Allocate s => [VUint32 8; VUint64 s]
  | AllocateWithSeed b s sp o => [VUint32 9; VPublicKey b; VBincodeString s; VUint64 sp; VPublicKey o]
  | AssignWithSeed b s o => [VUint32 10; VPublicKey b; VBincodeString s; VPublicKey o]
  | TransferWithSeed l s o => [VUint32 11; VUint64 l; VBincodeString s; VPublicKey o]
  | UpgradeNonceAccount => [VUint32 12]
  | CreateAccountAllowPrefund l s o => [VUint32 13; VUint64 l; VUint64 s; VPublicKey o]
  end.

(** The length limit on seeds, which only the encoders enforce. *)
Definition seed_fits (b : body) : Prop :=
  match b with
  | CreateAccountWithSeed _ s _ _ _ | AllocateWithSeed _ s _ _ | AssignWithSeed _ s _
  | TransferWithSeed _ s _ => len s ≤ 32
  | _ => True
  end.

#[global] Instance seed_fits_dec b : Decision (seed_fits b).
Proof. destruct b; simpl; apply _. Defined.

Definition wireOf (b : body) : bytes := concat (valueBytes <$> fields b).

Lemma Data_eq b :
  Forall value_ok (fields b) → Data b = if decide (seed_fits b) then Ok (wireOf b) else Err ErrMaxSeedLengthExceeded.
Proof.
  intros Hv. pose proof (finish_values errSystemEncode _ Hv) as Hf.
  destruct b; cbn [Data seed_fits]; try (rewrite decide_True by done); try exact Hf; try reflexivity;
    unfold Data_CreateAccountWithSeed, Data_AllocateWithSeed, Data_AssignWithSeed, Data_TransferWithSeed,
      MaxSeedLength;
    (case_decide; [by rewrite decide_False by lia|rewrite decide_True by lia; exact Hf]).
Qed.

(** * Decoding against the layouts *)

Definition discriminator (b : body) : Z :=
  match fields b with VUint32 t :: _ => t | _ => 0 end.

Lemma decodeBody_reads b :
  Forall value_ok (fields b) →
  reads (decodeBody (discriminator b)) b (concat (valueBytes <$> drop 1 (fields b))).
Proof.
  intros Hv. apply Forall_drop with (n := 1%nat) in Hv.
  destruct b; cbn [fields drop discriminator] in *; rewrite ?Forall_cons in Hv; destruct_and? Hv;
    (step_reads; try done).
Qed.

Lemma decodeBody_parses typ :
  parses (decodeBody typ)
    (λ b bs, ∃ fs, fields b = VUint32 typ :: fs ∧ Forall value_ok fs ∧ bs = concat (valueBytes <$> fs)).
Proof.
  unfold decodeBody.
  repeat (case_decide; [subst typ; step_parses; intros;
    (eexists; split; [reflexivity|split; [fields_ok|reflexivity]])|]).
  apply parses_throw.
Qed.

#[global] Instance system_body :
  BodyCodec decodeBody discriminator (tailBytes fields) (fieldsOk fields).
Proof.
  split; [apply decodeBody_reads|]. intros typ. eapply parses_mono; [apply decodeBody_parses|].
  intros b bs (fs & Hf & Hv & ->). unfold discriminator, fieldsOk, tailBytes. rewrite Hf. split_and!; [done| |done].
  constructor; [|done]. destruct b; injection Hf as <-; done.
Qed.

Lemma wireOf_split b : wireOf b = le_bytes 4 (discriminator b) ++ tailBytes fields b.
Proof. by destruct b. Qed.

(** * Properties *)

(** System Program instructions: data that encodes decodes, whatever
    follows it, to the same instruction with the accounts given to the decoder,
    and only a seed longer than 32 bytes keeps data from encoding. Conversely
    decoding never panics, and an accepted instruction re-encodes to the bytes
    it was decoded from, except that the encoders refuse a seed longer than 32
    bytes, which the decoder accepts. *)
Lemma system_instruction_codec accounts b data rest :
  Forall value_ok (fields b) → bytes_ok rest → bytes_ok data →
  (if decide (seed_fits b)
   then ∃ bs, Data b = Ok bs ∧ DecodeInstruction accounts (bs ++ rest) = Ok (mkSystem accounts b)
   else Data b = Err ErrMaxSeedLengthExceeded) ∧
  match DecodeInstruction accounts data with
  | Ok i => s_accounts i = accounts ∧
      (if decide (seed_fits (s_body i))
       then ∃ bs tl, Data (s_body i) = Ok bs ∧ data = bs ++ tl
       else Data (s_body i) = Err ErrMaxSeedLengthExceeded)
  | Err _ => True
  | Panic => False
  end.
Proof.
  intros Hv Hr Hd. split.
  - rewrite (Data_eq _ Hv). case_decide; [|done]. eexists. split; [done|]. rewrite wireOf_split.
    apply (tagged_roundtrip ReadUint32 _ _ decodeBody discriminator (tailBytes fields) (fieldsOk fields) errSystemType errSystemDecode (λ _ _, None));
      [by destruct b|done..].
  - pose proof (tagged_canonical ReadUint32 _ _ decodeBody discriminator (tailBytes fields) (fieldsOk fields) errSystemType errSystemDecode (λ _ _, None)
      (mkSystem accounts) data Hd) as H.
    change (runDecoder _ data) with (DecodeInstruction accounts data) in H.
    destruct (DecodeInstruction accounts data) as [i|e|]; [|done..].
    destruct H as (b' & tl & -> & _ & Hv' & _ & ->). simpl. split; [done|].
    rewrite (Data_eq _ Hv'). case_decide; [|done]. exists (wireOf b'), tl. by rewrite wireOf_split.
Qed.
