(* ===== verification/Token.v ===== *)
(** Token: the SPL Token program's codecs (programs/token): the twenty-one
    instructions with their constructors and account roles, the encoders,
    [DecodeInstructionWithProgramID], and the mint, account and multisig state
    decoders. *)
From Stdlib Require Import ZArith Lia.
From stdpp Require Import base numbers list.
From S2P Require Import Prelude Shortvec Keys ProgramIds Wire Program.

Open Scope Z_scope.
Open Scope wire_scope.

Definition MaxSigners : Z := 11.

(** Discriminators, in [iota] order. *)
Definition InitializeMintInstruction : Z := 0.
Definition InitializeAccountInstruction : Z := 1.
Definition InitializeMultisigInstruction : Z := 2.
Definition TransferInstruction : Z := 3.
Definition ApproveInstruction : Z := 4.
Definition RevokeInstruction : Z := 5.
Definition SetAuthorityInstruction : Z := 6.
Definition MintToInstruction : Z := 7.
Definition BurnInstruction : Z := 8.
Definition CloseAccountInstruction : Z := 9.
Definition FreezeAccountInstruction : Z := 10.
Definition ThawAccountInstruction : Z := 11.
Definition TransferCheckedInstruction : Z := 12.
Definition ApproveCheckedInstruction : Z := 13.
Definition MintToCheckedInstruction : Z := 14.
Definition BurnCheckedInstruction : Z := 15.
Definition InitializeAccount2Instruction : Z := 16.
Definition SyncNativeInstruction : Z := 17.
Definition InitializeAccount3Instruction : Z := 18.
Definition InitializeMultisig2Instruction : Z := 19.
Definition InitializeMint2Instruction : Z := 20.

Definition MintSize : Z := 82.
Definition AccountSize : Z := 165.
Definition MultisigSize : Z := 355.

(** The instruction structs, without the embedded [instruction]. *)
Inductive body :=
  | InitializeMint (Decimals : Z) (MintAuthority : PublicKey) (FreezeAuthority : option PublicKey)
  | InitializeAccount
  | InitializeMultisig (M : Z)
  | Transfer (Amount : Z)
  | Approve (Amount : Z)
  | Revoke
  | SetAuthority (AuthorityType : Z) (NewAuthority : option PublicKey)
  | MintTo (Amount : Z)
  | Burn (Amount : Z)
  | CloseAccount
  | FreezeAccount
  | ThawAccount
  | TransferChecked (Amount Decimals : Z)
  | ApproveChecked (Amount Decimals : Z)
  | MintToChecked (Amount Decimals : Z)
  | BurnChecked (Amount Decimals : Z)
  | InitializeAccount2 (Owner : PublicKey)
  | SyncNative
  | InitializeAccount3 (Owner : PublicKey)
  | InitializeMultisig2 (M : Z)
  | InitializeMint2 (Decimals : Z) (MintAuthority : PublicKey) (FreezeAuthority : option PublicKey).

(** The embedded [instruction] carries the accounts and the program. *)
Record TokenInstruction := mkToken { t_accounts : AccountMetaSlice; t_programID : PublicKey; t_body : body }.

Inductive token_err :=
  | errTokenEncode (r : recorded)
  | errTokenType (r : recorded)
  | ErrUnknownInstruction (typ : Z)
  | errTokenDecode (typ : Z) (r : recorded)
  | ErrInvalidAccountSize (n : Z)
  | errDecodeMint (r : recorded)
  | errDecodeAccount (r : recorded)
  | errDecodeMultisig (r : recorded).

(** [instruction.ProgramID] falls back to the original program. *)
Definition tokenProgramID (i : TokenInstruction) : PublicKey :=
  if IsZero (t_programID i) then TokenProgramID else t_programID i.
Definition SetProgramID (programID : PublicKey) (i : TokenInstruction) : TokenInstruction :=
  mkToken (t_accounts i) programID (t_body i).

(** * Constructors *)

(** Without multisig signers the authority itself signs. *)
Definition authorityAccounts (authority : PublicKey) (signers : list PublicKey) : AccountMetaSlice :=
  foldl (λ accounts signer, accounts ++ [NewAccountMeta signer false true])
    [NewAccountMeta authority false (bool_decide (len signers = 0))] signers.
Definition appendAuthority (accounts : AccountMetaSlice) (authority : PublicKey) (signers : list PublicKey)
    : AccountMetaSlice := accounts ++ authorityAccounts authority signers.

(** A constructor leaves the program unset. *)
Definition construct (accounts : AccountMetaSlice) (b : body) : TokenInstruction := mkToken accounts zeroKey b.

(** A zero key stands for no authority. *)
Definition optionalKey (key : PublicKey) : option PublicKey := if IsZero key then None else Some key.

Definition NewInitializeMintInstruction (decimals : Z) (mintAuthority freezeAuthority mint rent : PublicKey) :=
  construct [NewAccountMeta mint true false; NewAccountMeta rent false false]
    (InitializeMint decimals mintAuthority (optionalKey freezeAuthority)).
Definition NewInitializeMint2Instruction (decimals : Z) (mintAuthority freezeAuthority mint : PublicKey) :=
  construct [NewAccountMeta mint true false]
    (InitializeMint2 decimals mintAuthority (optionalKey freezeAuthority)).
Definition NewInitializeAccountInstruction (account mint owner rent : PublicKey) :=
  construct [NewAccountMeta account true false; NewAccountMeta mint false false;
             NewAccountMeta owner false false; NewAccountMeta rent false false] InitializeAccount.
Definition NewInitializeAccount2Instruction (owner account mint rent : PublicKey) :=
  construct [NewAccountMeta account true false; NewAccountMeta mint false false;
             NewAccountMeta rent false false] (InitializeAccount2 owner).
Definition NewInitializeAccount3Instruction (owner account mint : PublicKey) :=
  construct [NewAccountMeta account true false; NewAccountMeta mint false false] (InitializeAccount3 owner).
Definition NewInitializeMultisigInstruction (m : Z) (account rent : PublicKey) (signers : list PublicKey) :=
  construct (foldl (λ accounts signer, accounts ++ [NewAccountMeta signer false false])
    [NewAccountMeta account true false; NewAccountMeta rent false false] signers) (InitializeMultisig m).
Definition NewInitializeMultisig2Instruction (m : Z) (account : PublicKey) (signers : list PublicKey) :=
  construct (foldl (λ accounts signer, accounts ++ [NewAccountMeta signer false false])
    [NewAccountMeta account true false] signers) (InitializeMultisig2 m).
Definition NewTransferInstruction (amount : Z) (source destination owner : PublicKey) (signers : list PublicKey) :=
  construct (appendAuthority [NewAccountMeta source true false; NewAccountMeta destination true false] owner signers)
    (Transfer amount).
Definition NewApproveInstruction (amount : Z) (source delegate owner : PublicKey) (signers : list PublicKey) :=
  construct (appendAuthority [NewAccountMeta source true false; NewAccountMeta delegate false false] owner signers)
    (Approve amount).
Definition NewMintToInstruction (amount : Z) (mint destination authority : PublicKey) (signers : list PublicKey) :=
  construct (appendAuthority [NewAccountMeta mint true false; NewAccountMeta destination true false] authority signers)
    (MintTo amount).
Definition NewBurnInstruction (amount : Z) (source mint owner : PublicKey) (signers : list PublicKey) :=
  construct (appendAuthority [NewAccountMeta source true false; NewAccountMeta mint true false] owner signers)
    (Burn amount).
Definition NewRevokeInstruction (source owner : PublicKey) (signers : list PublicKey) :=
  construct (appendAuthority [NewAccountMeta source true false] owner signers) Revoke.
Definition NewSetAuthorityInstruction (authorityType : Z) (newAuthority subject authority : PublicKey)
    (signers : list PublicKey) :=
  construct (appendAuthority [NewAccountMeta subject true false] authority signers)
    (SetAuthority authorityType (optionalKey newAuthority)).
Definition NewCloseAccountInstruction (account destination owner : PublicKey) (signers : list PublicKey) :=
  construct (appendAuthority [NewAccountMeta account true false; NewAccountMeta destination true false] owner signers)
    CloseAccount.
Definition NewFreezeAccountInstruction (account mint authority : PublicKey) (signers : list PublicKey) :=
  construct (appendAuthority [NewAccountMeta account true false; NewAccountMeta mint false false] authority signers)
    FreezeAccount.
Definition NewThawAccountInstruction (account mint authority : PublicKey) (signers : list PublicKey) :=
  construct (appendAuthority [NewAccountMeta account true false; NewAccountMeta mint false false] authority signers)
    ThawAccount.
Definition NewSyncNativeInstruction (account : PublicKey) :=
  construct [NewAccountMeta account true false] SyncNative.
Definition NewTransferCheckedInstruction (amount decimals : Z) (source mint destination owner : PublicKey)
    (signers : list PublicKey) :=
  construct (appendAuthority [NewAccountMeta source true false; NewAccountMeta mint false false;
                              NewAccountMeta destination true false] owner signers)
    (TransferChecked amount decimals).
Definition NewApproveCheckedInstruction (amount decimals : Z) (source mint delegate owner : PublicKey)
    (signers : list PublicKey) :=
  construct (appendAuthority [NewAccountMeta source true false; NewAccountMeta mint false false;
                              NewAccountMeta delegate false false] owner signers)
    (ApproveChecked amount decimals).
Definition NewMintToCheckedInstruction (amount decimals : Z) (mint destination authority : PublicKey)
    (signers : list PublicKey) :=
  construct (appendAuthority [NewAccountMeta mint true false; NewAccountMeta destination true false]
               authority signers) (MintToChecked amount decimals).
Definition NewBurnCheckedInstruction (amount decimals : Z) (source mint owner : PublicKey) (signers : list PublicKey) :=
  construct (appendAuthority [NewAccountMeta source true false; NewAccountMeta mint true false] owner signers)
    (BurnChecked amount decimals).

(** * The [Data] methods *)

Definition encoded (e : Encoder) : outcome token_err bytes := finish errTokenEncode e.

Definition amountData (typ Amount : Z) : outcome token_err bytes :=
  encoded (NewEncoder [] ▷ WriteUint8 typ ▷ WriteUint64 Amount).
Definition checkedData (typ Amount Decimals : Z) : outcome token_err bytes :=
  encoded (NewEncoder [] ▷ WriteUint8 typ ▷ WriteUint64 Amount ▷ WriteUint8 Decimals).
Definition writeOptionalKey (key : option PublicKey) (e : Encoder) : Encoder :=
  let e := WriteOption (bool_decide (is_Some key)) e in
  match key with Some k => WritePublicKey k e | None => e end.
Definition mintData (typ Decimals : Z) (MintAuthority : PublicKey) (FreezeAuthority : option PublicKey)
    : outcome token_err bytes :=
  encoded (NewEncoder [] ▷ WriteUint8 typ ▷ WriteUint8 Decimals ▷ WritePublicKey MintAuthority
           ▷ writeOptionalKey FreezeAuthority).
Definition setAuthorityData (AuthorityType : Z) (NewAuthority : option PublicKey) : outcome token_err bytes :=
  encoded (NewEncoder [] ▷ WriteUint8 SetAuthorityInstruction ▷ WriteUint8 AuthorityType
           ▷ writeOptionalKey NewAuthority).
Definition publicKeyData (typ : Z) (key : PublicKey) : outcome token_err bytes := Ok ([u8 typ] ++ key).

(** The method selected by the dynamic type. *)
Definition Data (b : body) : outcome token_err bytes :=
  match b with
  | InitializeMint d a f => mintData InitializeMintInstruction d a f
  | InitializeAccount => Ok [u8 InitializeAccountInstruction]
  | InitializeMultisig m => Ok [u8 InitializeMultisigInstruction; m]
  | Transfer a => amountData TransferInstruction a
  | Approve a => amountData ApproveInstruction a
  | Revoke => Ok [u8 RevokeInstruction]
  | SetAuthority t a => setAuthorityData t a
  | MintTo a => amountData MintToInstruction a
  | Burn a => amountData BurnInstruction a
  | CloseAccount => Ok [u8 CloseAccountInstruction]
  | FreezeAccount => Ok [u8 FreezeAccountInstruction]
  | ThawAccount => Ok [u8 ThawAccountInstruction]
  | TransferChecked a d => checkedData TransferCheckedInstruction a d
  | ApproveChecked a d => checkedData ApproveCheckedInstruction a d
  | MintToChecked a d => checkedData MintToCheckedInstruction a d
  | BurnChecked a d => checkedData BurnCheckedInstruction a d
  | InitializeAccount2 o => publicKeyData InitializeAccount2Instruction o
  | SyncNative => Ok [u8 SyncNativeInstruction]
  | InitializeAccount3 o => publicKeyData InitializeAccount3Instruction o
  | InitializeMultisig2 m => Ok [u8 InitializeMultisig2Instruction; m]
  | InitializeMint2 d a f => mintData InitializeMint2Instruction d a f
  end.

(** * Decoding instructions *)

(** [if dec.ReadOption() { key := dec.ReadPublicKey(); ... = &key }]. *)
Definition readOptionalKey {E} : GoM Decoder E (option PublicKey) :=
  b ← ReadOption;
  if (b : bool) then k ← ReadPublicKey; mret (Some k) else mret None.

Definition decodeBody (typ : Z) : GoM Decoder token_err body :=
  if decide (typ = InitializeMintInstruction ∨ typ = InitializeMint2Instruction) then
    d ← ReadUint8; a ← ReadPublicKey; f ← readOptionalKey;
    mret (if decide (typ = InitializeMintInstruction) then InitializeMint d a f else InitializeMint2 d a f)
  else if decide (typ = InitializeAccountInstruction) then mret InitializeAccount
  else if decide (typ = InitializeMultisigInstruction) then m ← ReadUint8; mret (InitializeMultisig m)
  else if decide (typ = TransferInstruction) then a ← ReadUint64; mret (Transfer a)
  else if decide (typ = ApproveInstruction) then a ← ReadUint64; mret (Approve a)
  else if decide (typ = RevokeInstruction) then mret Revoke
  else if decide (typ = SetAuthorityInstruction) then
    t ← ReadUint8; a ← readOptionalKey; mret (SetAuthority t a)
  else if decide (typ = MintToInstruction) then a ← ReadUint64; mret (MintTo a)
  else if decide (typ = BurnInstruction) then a ← ReadUint64; mret (Burn a)
  else if decide (typ = CloseAccountInstruction) then mret CloseAccount
  else if decide (typ = FreezeAccountInstruction) then mret FreezeAccount
  else if decide (typ = ThawAccountInstruction) then mret ThawAccount
  else if decide (typ = TransferCheckedInstruction) then
    a ← ReadUint64; d ← ReadUint8; mret (TransferChecked a d)
  else if decide (typ = ApproveCheckedInstruction) then
    a ← ReadUint64; d ← ReadUint8; mret (ApproveChecked a d)
  else if decide (typ = MintToCheckedInstruction) then
    a ← ReadUint64; d ← ReadUint8; mret (MintToChecked a d)
  else if decide (typ = BurnCheckedInstruction) then
    a ← ReadUint64; d ← ReadUint8; mret (BurnChecked a d)
  else if decide (typ = InitializeAccount2Instruction) then o ← ReadPublicKey; mret (InitializeAccount2 o)
  else if decide (typ = SyncNativeInstruction) then mret SyncNative
  else if decide (typ = InitializeAccount3Instruction) then o ← ReadPublicKey; mret (InitializeAccount3 o)
  else if decide (typ = InitializeMultisig2Instruction) then m ← ReadUint8; mret (InitializeMultisig2 m)
  else throw (ErrUnknownInstruction typ).

Definition decodeToken (accounts : AccountMetaSlice) (programID : PublicKey)
    : GoM Decoder token_err TokenInstruction :=
  typ ← ReadUint8;
  _ ← checkErr errTokenType;
  b ← decodeBody typ;
  _ ← checkErr (errTokenDecode typ);
  mret (mkToken accounts programID b).

Definition DecodeInstructionWithProgramID (accounts : AccountMetaSlice) (data : bytes) (programID : PublicKey)
    : outcome token_err TokenInstruction :=
  runDecoder (decodeToken accounts programID) data.

Definition DecodeInstruction (accounts : AccountMetaSlice) (data : bytes)
    : outcome token_err TokenInstruction :=
  DecodeInstructionWithProgramID accounts data TokenProgramID.

(** * Account state *)

Record Mint := mkMint {
  m_MintAuthority : option PublicKey;
  m_Supply : Z;
  m_Decimals : Z;
  m_IsInitialized : bool;
  m_FreezeAuthority : option PublicKey;
}.

Record Account := mkAccount {
  a_Mint : PublicKey;
  a_Owner : PublicKey;
  a_Amount : Z;
  a_Delegate : option PublicKey;
  a_State : Z;
  a_IsNative : option Z;
  a_DelegatedAmount : Z;
  a_CloseAuthority : option PublicKey;
}.

Record Multisig := mkMultisig {
  ms_M : Z;
  ms_N : Z;
  ms_IsInitialized : bool;
  ms_Signers : list PublicKey;
}.

(** The value behind a tag is read even when the tag says it is absent. *)
Definition present {A} (tag : bool) (x : A) : option A := if tag then Some x else None.

Definition decodeMint : GoM Decoder token_err Mint :=
  hasMintAuthority ← ReadCOption;
  authority ← ReadPublicKey;
  supply ← ReadUint64;
  decimals ← ReadUint8;
  isInitialized ← ReadBool;
  hasFreezeAuthority ← ReadCOption;
  freeze ← ReadPublicKey;
  _ ← checkErr errDecodeMint;
  mret (mkMint (present hasMintAuthority authority) supply decimals isInitialized
          (present hasFreezeAuthority freeze)).

Definition DecodeMint (data : bytes) : outcome token_err Mint :=
  if decide (len data ≠ MintSize) then Err (ErrInvalidAccountSize (len data)) else runDecoder decodeMint data.

Definition decodeAccount : GoM Decoder token_err Account :=
  mint ← ReadPublicKey;
  owner ← ReadPublicKey;
  amount ← ReadUint64;
  hasDelegate ← ReadCOption;
  delegate ← ReadPublicKey;
  state ← ReadUint8;
  isNative ← ReadCOption;
  reserve ← ReadUint64;
  delegated ← ReadUint64;
  hasCloseAuthority ← ReadCOption;
  authority ← ReadPublicKey;
  _ ← checkErr errDecodeAccount;
  mret (mkAccount mint owner amount (present hasDelegate delegate) state (present isNative reserve) delegated
          (present hasCloseAuthority authority)).

Definition DecodeAccount (data : bytes) : outcome token_err Account :=
  if decide (len data ≠ AccountSize) then Err (ErrInvalidAccountSize (len data)) else runDecoder decodeAccount data.

(** [for i := range multisig.Signers { ... }]. *)
Definition readSigners (n : nat) : GoM Decoder token_err (list PublicKey) := readN n ReadPublicKey.

Definition decodeMultisig : GoM Decoder token_err Multisig :=
  m ← ReadUint8;
  n ← ReadUint8;
  isInitialized ← ReadBool;
  signers ← readSigners (Z.to_nat MaxSigners);
  _ ← checkErr errDecodeMultisig;
  mret (mkMultisig m n isInitialized signers).

Definition DecodeMultisig (data : bytes) : outcome token_err Multisig :=
  if decide (len data ≠ MultisigSize) then Err (ErrInvalidAccountSize (len data)) else runDecoder decodeMultisig data.

(** * Layouts *)

(** An optional key: the tag, then the key when present. *)
Definition optFields (o : option PublicKey) : list value :=
  match o with Some k => [VOption true; VPublicKey k] | None => [VOption false] end.

(** The fields of each instruction in wire order, the discriminator first. *)
Definition fields (b : body) : list value :=
  match b with
  | InitializeMint d a f => [VUint8 0; VUint8 d; VPublicKey a] ++ optFields f
  | InitializeAccount => [VUint8 1]
  | InitializeMultisig m => [VUint8 2; VUint8 m]
  | Transfer a => [VUint8 3; VUint64 a]
  | Approve a => [VUint8 4; VUint64 a]
  | Revoke => [VUint8 5]
  | SetAuthority t a => [VUint8 6; VUint8 t] ++ optFields a
  | MintTo a => [VUint8 7; VUint64 a]
  | Burn a => [VUint8 8; VUint64 a]
  | CloseAccount => [VUint8 9]
  | FreezeAccount => [VUint8 10]
  | ThawAccount => [VUint8 11]
  | TransferChecked a d => [VUint8 12; VUint64 a; VUint8 d]
  | ApproveChecked a d => [VUint8 13; VUint64 a; VUint8 d]
  | MintToChecked a d => [VUint8 14; VUint64 a; VUint8 d]
  | BurnChecked a d => [VUint8 15; VUint64 a; VUint8 d]
  | InitializeAccount2 o => [VUint8 16; VPublicKey o]
  | SyncNative => [VUint8 17]
  | InitializeAccount3 o => [VUint8 18; VPublicKey o]
  | InitializeMultisig2 m => [VUint8 19; VUint8 m]
  | InitializeMint2 d a f => [VUint8 20; VUint8 d; VPublicKey a] ++ optFields f
  end.

Definition wireOf (b : body) : bytes := concat (valueBytes <$> fields b).
Definition discriminator (b : body) : Z := match fields b with VUint8 t :: _ => t | _ => 0 end.

Lemma tokenData_eq b : Forall value_ok (fields b) → Data b = Ok (wireOf b).
Proof.
  intros Hv. pose proof (finish_values errTokenEncode _ Hv) as Hf.
  destruct b as [d a [f|]| | | | | |t [a|]| | | | | | | | | | | | | |d a [f|]]; first [exact Hf|unfold wireOf; cbn; by rewrite ?app_nil_r].
Qed.

#[global] Instance readOptionalKey_codec {E} :
  Codec (readOptionalKey (E:=E)) (λ o, concat (valueBytes <$> optFields o)) (λ o, Forall value_ok (optFields o)).
Proof.
  split.
  - intros o Ho. unfold readOptionalKey. destruct o as [k|]; cbn [optFields] in Ho; rewrite ?Forall_cons in Ho; destruct_and? Ho.
    + eapply (reads_codec _ _ _ _ true); [|done|reflexivity]. step_reads; done.
    + eapply (reads_codec _ _ _ _ false); [|done|reflexivity]. apply reads_ret.
  - unfold readOptionalKey. eapply parses_codec; [apply _|]. intros [|].
    + step_parses. intros Hk _. split; [fields_ok|reflexivity].
    + apply parses_ret_spec. intros _. split; [fields_ok|reflexivity].
Qed.

(** * Decoding against the layouts *)

Lemma tokenBody_reads b :
  Forall value_ok (fields b) →
  reads (decodeBody (discriminator b)) b (concat (valueBytes <$> drop 1 (fields b))).
Proof.
  intros Hv. apply Forall_drop with (n := 1%nat) in Hv.
  destruct b; cbn [fields drop discriminator app] in *; rewrite ?Forall_cons in Hv; destruct_and? Hv;
    (step_reads; try done; try (cbn; rewrite ?app_nil_r; done)).
Qed.

Lemma tokenBody_parses typ :
  parses (decodeBody typ)
    (λ b bs, ∃ fs, fields b = VUint8 typ :: fs ∧ Forall value_ok fs ∧ bs = concat (valueBytes <$> fs)).
Proof.
  unfold decodeBody. case_decide as Hmint.
  { step_parses. intros Hf Ha Hd. eexists. split; [|split].
    - destruct Hmint as [-> | ->]; reflexivity.
    - repeat (constructor; [done|]). done.
    - cbn. by rewrite ?app_nil_r. }
  repeat (case_decide; [subst typ; step_parses; intros;
    (eexists; split; [reflexivity|split;
      [first [fields_ok | (constructor; [assumption|]; assumption)]|cbn; rewrite ?app_nil_r; reflexivity]])|]).
  apply parses_throw.
Qed.

#[global] Instance token_body :
  BodyCodec decodeBody discriminator (tailBytes fields) (fieldsOk fields).
Proof.
  split; [apply tokenBody_reads|]. intros typ. eapply parses_mono; [apply tokenBody_parses|].
  intros b bs (fs & Hf & Hv & ->). unfold discriminator, fieldsOk, tailBytes. rewrite Hf. split_and!; [done| |done].
  constructor; [|done]. destruct b; injection Hf as <-; done.
Qed.

Lemma tokenWire_split b : wireOf b = [discriminator b] ++ tailBytes fields b.
Proof. by destruct b. Qed.

(** * State layouts *)

(** The bytes of each state with its tags and the payloads behind them. *)
Definition mintLayout (m : Mint) (bs : bytes) : Prop :=
  ∃ ha a hf f,
    let vs := [VCOption ha; VPublicKey a; VUint64 (m_Supply m); VUint8 (m_Decimals m);
               VBool (m_IsInitialized m); VCOption hf; VPublicKey f] in
    Forall value_ok vs ∧ bs = concat (valueBytes <$> vs) ∧
    m_MintAuthority m = present ha a ∧ m_FreezeAuthority m = present hf f.

Definition accountLayout (x : Account) (bs : bytes) : Prop :=
  ∃ hd d hn r hc c,
    let vs := [VPublicKey (a_Mint x); VPublicKey (a_Owner x); VUint64 (a_Amount x); VCOption hd; VPublicKey d;
               VUint8 (a_State x); VCOption hn; VUint64 r; VUint64 (a_DelegatedAmount x); VCOption hc; VPublicKey c] in
    Forall value_ok vs ∧ bs = concat (valueBytes <$> vs) ∧
    a_Delegate x = present hd d ∧ a_IsNative x = present hn r ∧ a_CloseAuthority x = present hc c.

Definition multisigLayout (x : Multisig) (bs : bytes) : Prop :=
  let vs := [VUint8 (ms_M x); VUint8 (ms_N x); VBool (ms_IsInitialized x)] ++ (VPublicKey <$> ms_Signers x) in
  length (ms_Signers x) = 11%nat ∧ Forall value_ok vs ∧ bs = concat (valueBytes <$> vs).

Lemma decodeMint_reads m bs : mintLayout m bs → reads decodeMint m bs.
Proof.
  intros (ha & a & hf & f & Hv & -> & Hm & Hf). destruct m as [ma s d i fa]. cbn in *. subst.
  rewrite ?Forall_cons in Hv. destruct_and! Hv. unfold decodeMint.
  step_reads; first [apply reads_check, reads_ret | reflexivity | assumption | exact I].
Qed.

Lemma decodeAccount_reads x bs : accountLayout x bs → reads decodeAccount x bs.
Proof.
  intros (hd & d & hn & r & hc & c & Hv & -> & H1 & H2 & H3). destruct x. cbn in *. subst.
  rewrite ?Forall_cons in Hv. destruct_and! Hv. unfold decodeAccount.
  step_reads; first [apply reads_check, reads_ret | reflexivity | assumption | exact I].
Qed.

Lemma readSigners_reads ks :
  Forall value_ok (VPublicKey <$> ks) →
  reads (readSigners (length ks)) ks (concat (valueBytes <$> (VPublicKey <$> ks))).
Proof. destruct (keys_values ks) as [-> ->]. intros Hv. by apply (codec_reads (Codec:=readN_codec _ _ _ _ codec_publicKey)). Qed.

Lemma decodeMultisig_reads x bs : multisigLayout x bs → reads decodeMultisig x bs.
Proof.
  intros (Hn & Hv & ->). destruct x as [m n i ks]. cbn in *.
  rewrite ?Forall_cons in Hv. destruct Hv as (Hm & Hn' & Hi & Hks). unfold decodeMultisig.
  change (Z.to_nat MaxSigners) with 11%nat. rewrite <- Hn.
  eapply reads_codec; [apply _| |exact Hm|reflexivity]. eapply reads_codec; [apply _| |exact Hn'|reflexivity].
  eapply reads_codec; [apply _| |exact I|reflexivity].
  eapply reads_bind; [by apply readSigners_reads|apply reads_check, reads_ret|by rewrite app_nil_r].
Qed.

Lemma decodeMint_accepts : accepts decodeMint mintLayout.
Proof.
  unfold decodeMint. repeat (eapply accepts_codec; [apply _|]; intros ?). apply accepts_check_ret.
  intros. eexists _, _, _, _. split_and!; [|reflexivity..]. fields_ok.
Qed.

Lemma decodeAccount_accepts : accepts decodeAccount accountLayout.
Proof.
  unfold decodeAccount. repeat (eapply accepts_codec; [apply _|]; intros ?). apply accepts_check_ret.
  intros. eexists _, _, _, _, _, _. split_and!; [|reflexivity..]. fields_ok.
Qed.

Lemma decodeMultisig_accepts : accepts decodeMultisig multisigLayout.
Proof.
  unfold decodeMultisig. repeat (eapply accepts_codec; [apply _|]; intros ?). apply accepts_check_ret.
  intros [Hl Hv]. intros. unfold multisigLayout. cbn. destruct (keys_values x2) as [-> Hk]. split; [done|].
  split; [|by rewrite app_nil_r]. repeat (constructor; [assumption|]). by apply Hk.
Qed.

(** The sizes of the three layouts. *)
Ltac layout_len :=
  cbn [concat fmap list_fmap valueBytes boolByte] in *; rewrite ?Forall_cons in *; cbn [value_ok] in *;
  repeat match goal with H : _ ∧ _ |- _ => destruct H end;
  repeat match goal with H : array_ok _ ?x |- _ => apply len_array in H end;
  repeat match goal with |- context [boolByte ?b] => destruct b | |- context [if ?b then _ else _] => destruct b end;
  rewrite ?len_app, ?len_le_bytes; len_lia.

Lemma mintLayout_len m bs : mintLayout m bs → len bs = MintSize.
Proof.
  intros (ha & a & hf & f & Hv & -> & _). unfold MintSize. cbn in Hv.
  destruct (m_IsInitialized m), ha, hf; layout_len.
Qed.

Lemma accountLayout_len x bs : accountLayout x bs → len bs = AccountSize.
Proof.
  intros (hd & d & hn & r & hc & c & Hv & -> & _). unfold AccountSize. cbn in Hv.
  destruct hd, hn, hc; layout_len.
Qed.

Lemma multisigLayout_len x bs : multisigLayout x bs → len bs = MultisigSize.
Proof.
  intros (Hn & Hv & ->). unfold MultisigSize. rewrite !Forall_app in Hv. destruct Hv as [_ Hks].
  rewrite fmap_app, concat_app, len_app, (concat_keys_len _ Hks). unfold len at 2. rewrite Hn. cbn.
  by destruct (ms_IsInitialized x).
Qed.

(** A fixed-size decoder behind its length check. *)
Lemma sized_decoder {A} (m : GoM Decoder token_err A) (P : A → bytes → Prop) n data :
  (∀ x bs, P x bs → reads m x bs) → accepts m P → (∀ x bs, P x bs → len bs = n) → bytes_ok data →
  let r := if decide (len data ≠ n) then Err (ErrInvalidAccountSize (len data)) else runDecoder m data in
  (∀ x, r = Ok x ↔ P x data) ∧ r ≠ Panic.
Proof.
  intros Hr Ha Hl Hd r. subst r. case_decide as Hn.
  - split; [|done]. intros x. split; [done|]. intros HP. by apply Hl in HP.
  - pose proof (runDecoder_exact m P n data Hr Ha Hl Hd ltac:(lia)) as H.
    split; [|by intros E; rewrite E in H]. intros x. split.
    + intros E. by rewrite E in H.
    + intros HP. pose proof (runDecoder_reads m x data [] (Hr _ _ HP) ltac:(constructor)) as H'.
      by rewrite app_nil_r in H'.
Qed.

(** * Properties *)

(** The two directions of the instruction codec. *)
Lemma token_roundtrip accounts programID b rest :
  Forall value_ok (fields b) → bytes_ok rest →
  Data b = Ok (wireOf b) ∧ DecodeInstructionWithProgramID accounts (wireOf b ++ rest) programID = Ok (mkToken accounts programID b).
Proof.
  intros Hv Hr. split; [by apply tokenData_eq|]. rewrite tokenWire_split.
  apply (tagged_roundtrip ReadUint8 (λ v, [v]) _ decodeBody discriminator (tailBytes fields) (fieldsOk fields) errTokenType errTokenDecode
           (λ _ _, None) (mkToken accounts programID));
    [by destruct b|done..].
Qed.

Lemma token_accepts accounts programID data :
  bytes_ok data →
  match DecodeInstructionWithProgramID accounts data programID with
  | Ok i => ∃ b rest, i = mkToken accounts programID b ∧ Forall value_ok (fields b) ∧ data = wireOf b ++ rest
  | Err _ => True
  | Panic => False
  end.
Proof.
  intros Hd.
  pose proof (tagged_canonical ReadUint8 _ _ decodeBody discriminator (tailBytes fields) (fieldsOk fields) errTokenType errTokenDecode (λ _ _, None)
    (mkToken accounts programID) data Hd) as H.
  change (runDecoder _ data) with (DecodeInstructionWithProgramID accounts data programID) in H.
  destruct (DecodeInstructionWithProgramID accounts data programID) as [i|e|]; [|done..].
  destruct H as (b & rest & -> & _ & Hv & _ & ->). exists b, rest. by rewrite tokenWire_split.
Qed.

(** Token instructions: the data of a well-formed instruction always encodes
    and, whatever follows it, decodes to the same instruction with the accounts
    and the program given to the decoder; conversely decoding never panics and
    an accepted instruction re-encodes to the bytes it was decoded from. *)
Lemma token_instruction_codec accounts programID b data rest :
  Forall value_ok (fields b) → bytes_ok rest → bytes_ok data →
  (∃ bs, Data b = Ok bs ∧
     DecodeInstructionWithProgramID accounts (bs ++ rest) programID = Ok (mkToken accounts programID b)) ∧
  match DecodeInstructionWithProgramID accounts data programID with
  | Ok i => t_accounts i = accounts ∧ t_programID i = programID ∧
      ∃ bs tl, Data (t_body i) = Ok bs ∧ data = bs ++ tl
  | Err _ => True
  | Panic => False
  end.
Proof.
  intros Hv Hr Hd. split.
  - exists (wireOf b). by apply token_roundtrip.
  - pose proof (token_accepts accounts programID data Hd) as H.
    destruct (DecodeInstructionWithProgramID accounts data programID) as [i|e|]; [|done..].
    destruct H as (b' & tl & -> & Hv' & ->). split_and!; [done..|].
    exists (wireOf b'), tl. by rewrite tokenData_eq.
Qed.

(** Token state: the mint, account and multisig decoders never panic and
    accept exactly the byte strings of the program's 82, 165 and 355-byte
    layouts with valid tags, returning the fields at their offsets; a payload
    behind an absent tag is ignored. *)
Lemma token_state_layouts data :
  bytes_ok data →
  (∀ m, DecodeMint data = Ok m ↔ mintLayout m data) ∧
  (∀ x, DecodeAccount data = Ok x ↔ accountLayout x data) ∧
  (∀ x, DecodeMultisig data = Ok x ↔ multisigLayout x data) ∧
  DecodeMint data ≠ Panic ∧ DecodeAccount data ≠ Panic ∧ DecodeMultisig data ≠ Panic.
Proof.
  intros Hd.
  destruct (sized_decoder _ _ _ data decodeMint_reads decodeMint_accepts mintLayout_len Hd) as [Hm Hm'].
  destruct (sized_decoder _ _ _ data decodeAccount_reads decodeAccount_accepts accountLayout_len Hd) as [Ha Ha'].
  destruct (sized_decoder _ _ _ data decodeMultisig_reads decodeMultisig_accepts multisigLayout_len Hd) as [Hs Hs'].
  by split_and!.
Qed.
