(* ===== verification/Stake.v ===== *)
(** Stake: the Stake Program's codec (programs/stake): the eighteen instructions
    with their argument structs, constructors and account roles, the encoders
    with their checks, and [DecodeInstruction] with its final [validate]. *)
From Stdlib Require Import ZArith Lia.
From stdpp Require Import base numbers list.
From S2P Require Import Prelude Shortvec Keys ProgramIds Wire Program.

Open Scope Z_scope.
Open Scope wire_scope.

Definition ProgramID : PublicKey := StakeProgramID.

(** [solana.MaxSeedLength]. *)
Definition MaxSeedLength : Z := 32.

(** Discriminators, in [iota] order. *)
Definition InitializeInstruction : Z := 0.
Definition AuthorizeInstruction : Z := 1.
Definition DelegateStakeInstruction : Z := 2.
Definition SplitInstruction : Z := 3.
Definition WithdrawInstruction : Z := 4.
Definition DeactivateInstruction : Z := 5.
Definition SetLockupInstruction : Z := 6.
Definition MergeInstruction : Z := 7.
Definition AuthorizeWithSeedInstruction : Z := 8.
Definition InitializeCheckedInstruction : Z := 9.
Definition AuthorizeCheckedInstruction : Z := 10.
Definition AuthorizeCheckedWithSeedInstruction : Z := 11.
Definition SetLockupCheckedInstruction : Z := 12.
Definition GetMinimumDelegationInstruction : Z := 13.
Definition DeactivateDelinquentInstruction : Z := 14.
Definition RedelegateInstruction : Z := 15.
Definition MoveStakeInstruction : Z := 16.
Definition MoveLamportsInstruction : Z := 17.

Definition StakeAuthorizeStaker : Z := 0.
Definition StakeAuthorizeWithdrawer : Z := 1.

(** [StakeAuthorize.valid]. *)
Definition valid (authority : Z) : bool :=
  bool_decide (authority = StakeAuthorizeStaker) || bool_decide (authority = StakeAuthorizeWithdrawer).

(** * Argument structs *)

Record Authorized := mkAuthorized { Staker : PublicKey; Withdrawer : PublicKey }.
Record Lockup := mkLockup { UnixTimestamp : Z; Epoch : Z; Custodian : PublicKey }.
Record LockupArgs := mkLockupArgs {
  la_UnixTimestamp : option Z; la_Epoch : option Z; la_Custodian : option PublicKey;
}.
Record LockupCheckedArgs := mkLockupCheckedArgs { lc_UnixTimestamp : option Z; lc_Epoch : option Z }.
Record AuthorizeWithSeedArgs := mkAuthorizeWithSeedArgs {
  aw_NewAuthorized : PublicKey; aw_StakeAuthorize : Z; aw_AuthoritySeed : bytes; aw_AuthorityOwner : PublicKey;
}.
Record AuthorizeCheckedWithSeedArgs := mkAuthorizeCheckedWithSeedArgs {
  ac_StakeAuthorize : Z; ac_AuthoritySeed : bytes; ac_AuthorityOwner : PublicKey;
}.

(** The instruction structs, without the embedded [instruction]. *)
Inductive body :=
  | Initialize (authorized : Authorized) (lockup : Lockup)
  | Authorize (NewAuthorized : PublicKey) (StakeAuthorize : Z)
  | DelegateStake
  | Split (Lamports : Z)
  | Withdraw (Lamports : Z)
  | Deactivate
  | SetLockup (Args : LockupArgs)
  | Merge
  | AuthorizeWithSeed (Args : AuthorizeWithSeedArgs)
  | InitializeChecked
  | AuthorizeChecked (StakeAuthorize : Z)
  | AuthorizeCheckedWithSeed (Args : AuthorizeCheckedWithSeedArgs)
  | SetLockupChecked (Args : LockupCheckedArgs)
  | GetMinimumDelegation
  | DeactivateDelinquent
  | Redelegate
  | MoveStake (Lamports : Z)
  | MoveLamports (Lamports : Z).

Record StakeInstruction := mkStake { k_accounts : AccountMetaSlice; k_body : body }.

Inductive stake_err :=
  | ErrInvalidStakeAuthorize
  | ErrMaxSeedLengthExceeded
  | errStakeEncode (r : recorded)
  | errStakeType (r : recorded)
  | ErrUnknownInstruction (typ : Z)
  | errStakeDecode (typ : Z) (r : recorded)
  | errStakeInvalid (typ : Z) (e : stake_err).

(** * Constructors *)

(** [if custodian != nil { accounts = append(accounts, ...) }]. *)
Definition appendCustodian (accounts : AccountMetaSlice) (custodian : option PublicKey) : AccountMetaSlice :=
  match custodian with
  | Some k => accounts ++ [NewAccountMeta k false true]
  | None => accounts
  end.

Definition NewInitializeInstruction (authorized : Authorized) (lockup : Lockup) (stakeAccount : PublicKey) :=
  mkStake [NewAccountMeta stakeAccount true false; NewAccountMeta SysVarRentPubkey false false]
    (Initialize authorized lockup).
Definition NewAuthorizeInstruction (newAuthorized : PublicKey) (authorityType : Z) (stakeAccount authority : PublicKey)
    (custodian : option PublicKey) :=
  mkStake (appendCustodian [NewAccountMeta stakeAccount true false; NewAccountMeta SysVarClockPubkey false false;
                            NewAccountMeta authority false true] custodian)
    (Authorize newAuthorized authorityType).
Definition NewDelegateStakeInstruction (voteAccount stakeAuthority stakeAccount : PublicKey) :=
  mkStake [NewAccountMeta stakeAccount true false; NewAccountMeta voteAccount false false;
           NewAccountMeta SysVarClockPubkey false false; NewAccountMeta SysVarStakeHistoryPubkey false false;
           NewAccountMeta SysVarStakeConfigPubkey false false; NewAccountMeta stakeAuthority false true] DelegateStake.
Definition NewSplitInstruction (lamports : Z) (stakeAccount splitStakeAccount stakeAuthority : PublicKey) :=
  mkStake [NewAccountMeta stakeAccount true false; NewAccountMeta splitStakeAccount true false;
           NewAccountMeta stakeAuthority false true] (Split lamports).
Definition NewWithdrawInstruction (lamports : Z) (stakeAccount recipient withdrawAuthority : PublicKey)
    (custodian : option PublicKey) :=
  mkStake (appendCustodian [NewAccountMeta stakeAccount true false; NewAccountMeta recipient true false;
                            NewAccountMeta SysVarClockPubkey false false;
                            NewAccountMeta SysVarStakeHistoryPubkey false false;
                            NewAccountMeta withdrawAuthority false true] custodian) (Withdraw lamports).
Definition NewDeactivateInstruction (stakeAccount stakeAuthority : PublicKey) :=
  mkStake [NewAccountMeta stakeAccount true false; NewAccountMeta SysVarClockPubkey false false;
           NewAccountMeta stakeAuthority false true] Deactivate.
Definition NewSetLockupInstruction (args : LockupArgs) (stakeAccount authority : PublicKey) :=
  mkStake [NewAccountMeta stakeAccount true false; NewAccountMeta authority false true] (SetLockup args).
Definition NewMergeInstruction (destinationStake sourceStake stakeAuthority : PublicKey) :=
  mkStake [NewAccountMeta destinationStake true false; NewAccountMeta sourceStake true false;
           NewAccountMeta SysVarClockPubkey false false; NewAccountMeta SysVarStakeHistoryPubkey false false;
           NewAccountMeta stakeAuthority false true] Merge.
Definition NewAuthorizeWithSeedInstruction (args : AuthorizeWithSeedArgs) (stakeAccount authorityBase : PublicKey)
    (custodian : option PublicKey) : outcome stake_err StakeInstruction :=
  if negb (valid (aw_StakeAuthorize args)) then Err ErrInvalidStakeAuthorize else
  if decide (MaxSeedLength < len (aw_AuthoritySeed args)) then Err ErrMaxSeedLengthExceeded else
  Ok (mkStake (appendCustodian [NewAccountMeta stakeAccount true false; NewAccountMeta authorityBase false true;
                                NewAccountMeta SysVarClockPubkey false false] custodian)
        (AuthorizeWithSeed args)).
Definition NewInitializeCheckedInstruction (authorized : Authorized) (stakeAccount : PublicKey) :=
  mkStake [NewAccountMeta stakeAccount true false; NewAccountMeta SysVarRentPubkey false false;
           NewAccountMeta (Staker authorized) false false; NewAccountMeta (Withdrawer authorized) false true]
    InitializeChecked.
Definition NewAuthorizeCheckedInstruction (authorityType : Z) (stakeAccount authority newAuthority : PublicKey)
    (custodian : option PublicKey) :=
  mkStake (appendCustodian [NewAccountMeta stakeAccount true false; NewAccountMeta SysVarClockPubkey false false;
                            NewAccountMeta authority false true; NewAccountMeta newAuthority false true] custodian)
    (AuthorizeChecked authorityType).
Definition NewAuthorizeCheckedWithSeedInstruction (args : AuthorizeCheckedWithSeedArgs)
    (stakeAccount authorityBase newAuthority : PublicKey) (custodian : option PublicKey)
    : outcome stake_err StakeInstruction :=
  if negb (valid (ac_StakeAuthorize args)) then Err ErrInvalidStakeAuthorize else
  if decide (MaxSeedLength < len (ac_AuthoritySeed args)) then Err ErrMaxSeedLengthExceeded else
  Ok (mkStake (appendCustodian [NewAccountMeta stakeAccount true false; NewAccountMeta authorityBase false true;
                                NewAccountMeta SysVarClockPubkey false false;
                                NewAccountMeta newAuthority false true] custodian)
        (AuthorizeCheckedWithSeed args)).
Definition NewSetLockupCheckedInstruction (args : LockupCheckedArgs) (stakeAccount authority : PublicKey)
    (newCustodian : option PublicKey) :=
  mkStake (appendCustodian [NewAccountMeta stakeAccount true false; NewAccountMeta authority false true] newCustodian)
    (SetLockupChecked args).
Definition NewGetMinimumDelegationInstruction := mkStake [] GetMinimumDelegation.
Definition NewDeactivateDelinquentInstruction (stakeAccount delinquentVoteAccount referenceVoteAccount : PublicKey) :=
  mkStake [NewAccountMeta stakeAccount true false; NewAccountMeta delinquentVoteAccount false false;
           NewAccountMeta referenceVoteAccount false false] DeactivateDelinquent.
Definition NewRedelegateInstruction (stakeAccount uninitializedStakeAccount voteAccount stakeAuthority : PublicKey) :=
  mkStake [NewAccountMeta stakeAccount true false; NewAccountMeta uninitializedStakeAccount true false;
           NewAccountMeta voteAccount false false; NewAccountMeta SysVarStakeConfigPubkey false false;
           NewAccountMeta stakeAuthority false true] Redelegate.
Definition NewMoveStakeInstruction (lamports : Z)
    (sourceStakeAccount destinationStakeAccount stakeAuthority : PublicKey) :=
  mkStake [NewAccountMeta sourceStakeAccount true false; NewAccountMeta destinationStakeAccount true false;
           NewAccountMeta stakeAuthority false true] (MoveStake lamports).
Definition NewMoveLamportsInstruction (lamports : Z)
    (sourceStakeAccount destinationStakeAccount stakeAuthority : PublicKey) :=
  mkStake [NewAccountMeta sourceStakeAccount true false; NewAccountMeta destinationStakeAccount true false;
           NewAccountMeta stakeAuthority false true] (MoveLamports lamports).

(** * Writing and reading the argument structs *)

Definition write_Authorized (value : Authorized) (enc : Encoder) : Encoder :=
  enc ▷ WritePublicKey (Staker value) ▷ WritePublicKey (Withdrawer value).
Definition decode_Authorized {E} : GoM Decoder E Authorized :=
  s ← ReadPublicKey; w ← ReadPublicKey; mret (mkAuthorized s w).

Definition write_Lockup (value : Lockup) (enc : Encoder) : Encoder :=
  enc ▷ WriteInt64 (UnixTimestamp value) ▷ WriteUint64 (Epoch value) ▷ WritePublicKey (Custodian value).
Definition decode_Lockup {E} : GoM Decoder E Lockup :=
  t ← ReadInt64; e ← ReadUint64; c ← ReadPublicKey; mret (mkLockup t e c).

Definition write_LockupArgs (value : LockupArgs) (enc : Encoder) : Encoder :=
  enc ▷ writeOpt WriteInt64 (la_UnixTimestamp value) ▷ writeOpt WriteUint64 (la_Epoch value)
      ▷ writeOpt WritePublicKey (la_Custodian value).
Definition decode_LockupArgs {E} : GoM Decoder E LockupArgs :=
  t ← readOpt ReadInt64; e ← readOpt ReadUint64; c ← readOpt ReadPublicKey; mret (mkLockupArgs t e c).

Definition write_LockupCheckedArgs (value : LockupCheckedArgs) (enc : Encoder) : Encoder :=
  enc ▷ writeOpt WriteInt64 (lc_UnixTimestamp value) ▷ writeOpt WriteUint64 (lc_Epoch value).
Definition decode_LockupCheckedArgs {E} : GoM Decoder E LockupCheckedArgs :=
  t ← readOpt ReadInt64; e ← readOpt ReadUint64; mret (mkLockupCheckedArgs t e).

(** * The [Data] methods *)

Definition encoded (e : Encoder) : outcome stake_err bytes := finish errStakeEncode e.

Definition Data_Initialize (authorized : Authorized) (lockup : Lockup) : outcome stake_err bytes :=
  encoded (NewEncoder [] ▷ WriteUint32 InitializeInstruction ▷ write_Authorized authorized ▷ write_Lockup lockup).
Definition Data_Authorize (NewAuthorized : PublicKey) (StakeAuthorize : Z) : outcome stake_err bytes :=
  if negb (valid StakeAuthorize) then Err ErrInvalidStakeAuthorize else
  encoded (NewEncoder [] ▷ WriteUint32 AuthorizeInstruction ▷ WritePublicKey NewAuthorized
           ▷ WriteUint32 StakeAuthorize).
Definition Data_DelegateStake : outcome stake_err bytes := Ok [u8 DelegateStakeInstruction; 0; 0; 0].
Definition Data_Split (Lamports : Z) : outcome stake_err bytes :=
  encoded (NewEncoder [] ▷ WriteUint32 SplitInstruction ▷ WriteUint64 Lamports).
Definition Data_Withdraw (Lamports : Z) : outcome stake_err bytes :=
  encoded (NewEncoder [] ▷ WriteUint32 WithdrawInstruction ▷ WriteUint64 Lamports).
Definition Data_Deactivate : outcome stake_err bytes := Ok [u8 DeactivateInstruction; 0; 0; 0].
Definition Data_SetLockup (Args : LockupArgs) : outcome stake_err bytes :=
  encoded (NewEncoder [] ▷ WriteUint32 SetLockupInstruction ▷ write_LockupArgs Args).
Definition Data_Merge : outcome stake_err bytes := Ok [u8 MergeInstruction; 0; 0; 0].
Definition Data_AuthorizeWithSeed (Args : AuthorizeWithSeedArgs) : outcome stake_err bytes :=
  if negb (valid (aw_StakeAuthorize Args)) then Err ErrInvalidStakeAuthorize else
  if decide (MaxSeedLength < len (aw_AuthoritySeed Args)) then Err ErrMaxSeedLengthExceeded else
  encoded (NewEncoder [] ▷ WriteUint32 AuthorizeWithSeedInstruction ▷ WritePublicKey (aw_NewAuthorized Args)
           ▷ WriteUint32 (aw_StakeAuthorize Args) ▷ WriteBincodeString (aw_AuthoritySeed Args)
           ▷ WritePublicKey (aw_AuthorityOwner Args)).
Definition Data_InitializeChecked : outcome stake_err bytes := Ok [u8 InitializeCheckedInstruction; 0; 0; 0].
Definition Data_AuthorizeChecked (StakeAuthorize : Z) : outcome stake_err bytes :=
  if negb (valid StakeAuthorize) then Err ErrInvalidStakeAuthorize else
  encoded (NewEncoder [] ▷ WriteUint32 AuthorizeCheckedInstruction ▷ WriteUint32 StakeAuthorize).
Definition Data_AuthorizeCheckedWithSeed (Args : AuthorizeCheckedWithSeedArgs) : outcome stake_err bytes :=
  if negb (valid (ac_StakeAuthorize Args)) then Err ErrInvalidStakeAuthorize else
  if decide (MaxSeedLength < len (ac_AuthoritySeed Args)) then Err ErrMaxSeedLengthExceeded else
  encoded (NewEncoder [] ▷ WriteUint32 AuthorizeCheckedWithSeedInstruction ▷ WriteUint32 (ac_StakeAuthorize Args)
           ▷ WriteBincodeString (ac_AuthoritySeed Args) ▷ WritePublicKey (ac_AuthorityOwner Args)).
Definition Data_SetLockupChecked (Args : LockupCheckedArgs) : outcome stake_err bytes :=
  encoded (NewEncoder [] ▷ WriteUint32 SetLockupCheckedInstruction ▷ write_LockupCheckedArgs Args).
Definition Data_GetMinimumDelegation : outcome stake_err bytes := Ok [u8 GetMinimumDelegationInstruction; 0; 0; 0].
Definition Data_DeactivateDelinquent : outcome stake_err bytes := Ok [u8 DeactivateDelinquentInstruction; 0; 0; 0].
Definition Data_Redelegate : outcome stake_err bytes := Ok [u8 RedelegateInstruction; 0; 0; 0].
Definition Data_MoveStake (Lamports : Z) : outcome stake_err bytes :=
  encoded (NewEncoder [] ▷ WriteUint32 MoveStakeInstruction ▷ WriteUint64 Lamports).
Definition Data_MoveLamports (Lamports : Z) : outcome stake_err bytes :=
  encoded (NewEncoder [] ▷ WriteUint32 MoveLamportsInstruction ▷ WriteUint64 Lamports).

(** The method selected by the dynamic type. *)
Definition Data (b : body) : outcome stake_err bytes :=
  match b with
  | Initialize a l => Data_Initialize a l
  | Authorize k t => Data_Authorize k t
  | DelegateStake => Data_DelegateStake
  | Split l => Data_Split l
  | Withdraw l => Data_Withdraw l
  | Deactivate => Data_Deactivate
  | SetLockup a => Data_SetLockup a
  | Merge => Data_Merge
  | AuthorizeWithSeed a => Data_AuthorizeWithSeed a
  | InitializeChecked => Data_InitializeChecked
  | AuthorizeChecked t => Data_AuthorizeChecked t
  | AuthorizeCheckedWithSeed a => Data_AuthorizeCheckedWithSeed a
  | SetLockupChecked a => Data_SetLockupChecked a
  | GetMinimumDelegation => Data_GetMinimumDelegation
  | DeactivateDelinquent => Data_DeactivateDelinquent
  | Redelegate => Data_Redelegate
  | MoveStake l => Data_MoveStake l
  | MoveLamports l => Data_MoveLamports l
  end.

(** * Decoding *)

(** The [switch] of [DecodeInstruction]. *)
Definition decodeBody (typ : Z) : GoM Decoder stake_err body :=
  if decide (typ = InitializeInstruction) then a ← decode_Authorized; l ← decode_Lockup; mret (Initialize a l)
  else if decide (typ = AuthorizeInstruction) then k ← ReadPublicKey; t ← ReadUint32; mret (Authorize k t)
  else if decide (typ = DelegateStakeInstruction) then mret DelegateStake
  else if decide (typ = SplitInstruction) then l ← ReadUint64; mret (Split l)
  else if decide (typ = WithdrawInstruction) then l ← ReadUint64; mret (Withdraw l)
  else if decide (typ = DeactivateInstruction) then mret Deactivate
  else if decide (typ = SetLockupInstruction) then a ← decode_LockupArgs; mret (SetLockup a)
  else if decide (typ = MergeInstruction) then mret Merge
  else if decide (typ = AuthorizeWithSeedInstruction) then
    k ← ReadPublicKey; t ← ReadUint32; s ← ReadBincodeString; o ← ReadPublicKey;
    mret (AuthorizeWithSeed (mkAuthorizeWithSeedArgs k t s o))
  else if decide (typ = InitializeCheckedInstruction) then mret InitializeChecked
  else if decide (typ = AuthorizeCheckedInstruction) then t ← ReadUint32; mret (AuthorizeChecked t)
  else if decide (typ = AuthorizeCheckedWithSeedInstruction) then
    t ← ReadUint32; s ← ReadBincodeString; o ← ReadPublicKey;
    mret (AuthorizeCheckedWithSeed (mkAuthorizeCheckedWithSeedArgs t s o))
  else if decide (typ = SetLockupCheckedInstruction) then a ← decode_LockupCheckedArgs; mret (SetLockupChecked a)
  else if decide (typ = GetMinimumDelegationInstruction) then mret GetMinimumDelegation
  else if decide (typ = DeactivateDelinquentInstruction) then mret DeactivateDelinquent
  else if decide (typ = RedelegateInstruction) then mret Redelegate
  else if decide (typ = MoveStakeInstruction) then l ← ReadUint64; mret (MoveStake l)
  else if decide (typ = MoveLamportsInstruction) then l ← ReadUint64; mret (MoveLamports l)
  else throw (ErrUnknownInstruction typ).

(** [DecodedInstruction.validate]: [Type] and the non-nil field agree, so the
    switch on the type is one on the field. *)
Definition validate (out : body) : option stake_err :=
  match out with
  | Authorize _ t => if negb (valid t) then Some ErrInvalidStakeAuthorize else None
  | AuthorizeWithSeed a =>
    if negb (valid (aw_StakeAuthorize a)) then Some ErrInvalidStakeAuthorize else
    if decide (MaxSeedLength < len (aw_AuthoritySeed a)) then Some ErrMaxSeedLengthExceeded else None
  | AuthorizeChecked t => if negb (valid t) then Some ErrInvalidStakeAuthorize else None
  | AuthorizeCheckedWithSeed a =>
    if negb (valid (ac_StakeAuthorize a)) then Some ErrInvalidStakeAuthorize else
    if decide (MaxSeedLength < len (ac_AuthoritySeed a)) then Some ErrMaxSeedLengthExceeded else None
  | _ => None
  end.

Definition decodeStake (accounts : AccountMetaSlice) : GoM Decoder stake_err StakeInstruction :=
  typ ← ReadUint32;
  _ ← checkErr errStakeType;
  b ← decodeBody typ;
  _ ← checkErr (errStakeDecode typ);
  match errStakeInvalid typ <$> validate b with
  | Some e => throw e
  | None => mret (mkStake accounts b)
  end.

Definition DecodeInstruction (accounts : AccountMetaSlice) (data : bytes) : outcome stake_err StakeInstruction :=
  runDecoder (decodeStake accounts) data.

(** * Layouts *)

Definition fields_Authorized (a : Authorized) : list value := [VPublicKey (Staker a); VPublicKey (Withdrawer a)].
Definition fields_Lockup (l : Lockup) : list value :=
  [VInt64 (UnixTimestamp l); VUint64 (Epoch l); VPublicKey (Custodian l)].
Definition fields_LockupArgs (a : LockupArgs) : list value :=
  optValues VInt64 (la_UnixTimestamp a) ++ optValues VUint64 (la_Epoch a) ++ optValues VPublicKey (la_Custodian a).
Definition fields_LockupCheckedArgs (a : LockupCheckedArgs) : list value :=
  optValues VInt64 (lc_UnixTimestamp a) ++ optValues VUint64 (lc_Epoch a).

(** The fields of each instruction in wire order, the discriminator first. *)
Definition fields (b : body) : list value :=
  match b with
  | Initialize a l => VUint32 0 :: fields_Authorized a ++ fields_Lockup l
  | Authorize k t => [VUint32 1; VPublicKey k; VUint32 t]
  | DelegateStake => [VUint32 2]
  | Split l => [VUint32 3; VUint64 l]
  | Withdraw l => [VUint32 4; VUint64 l]
  | Deactivate => [VUint32 5]
  | SetLockup a => VUint32 6 :: fields_LockupArgs a
  | Merge => [VUint32 7]
  | AuthorizeWithSeed a =>
    [VUint32 8; VPublicKey (aw_NewAuthorized a); VUint32 (aw_StakeAuthorize a);
     VBincodeString (aw_AuthoritySeed a); VPublicKey (aw_AuthorityOwner a)]
  | InitializeChecked => [VUint32 9]
  | AuthorizeChecked t => [VUint32 10; VUint32 t]
  | AuthorizeCheckedWithSeed a =>
    [VUint32 11; VUint32 (ac_StakeAuthorize a); VBincodeString (ac_AuthoritySeed a); VPublicKey (ac_AuthorityOwner a)]
  | SetLockupChecked a => VUint32 12 :: fields_LockupCheckedArgs a
  | GetMinimumDelegation => [VUint32 13]
  | DeactivateDelinquent => [VUint32 14]
  | Redelegate => [VUint32 15]
  | MoveStake l => [VUint32 16; VUint64 l]
  | MoveLamports l => [VUint32 17; VUint64 l]
  end.

Definition wireOf (b : body) : bytes := concat (valueBytes <$> fields b).
Definition discriminator (b : body) : Z := match fields b with VUint32 t :: _ => t | _ => 0 end.

Lemma stakeWire_split b : wireOf b = le_bytes 4 (discriminator b) ++ tailBytes fields b.
Proof. by destruct b. Qed.

(** The encoders refuse exactly what [validate] refuses. *)
Lemma stakeData_eq b :
  Forall value_ok (fields b) → Data b = match validate b with Some e => Err e | None => Ok (wireOf b) end.
Proof.
  intros Hv. pose proof (finish_values errStakeEncode _ Hv) as Hf.
  destruct b as [? ?|k t| | | | |[[?|] [?|] [?|]]| |a| |t|a|[[?|] [?|]]| | | | | ]; cbn [Data validate];
    try exact Hf; try reflexivity;
    unfold Data_Authorize, Data_AuthorizeWithSeed, Data_AuthorizeChecked, Data_AuthorizeCheckedWithSeed;
    repeat match goal with |- context [valid ?t] => destruct (valid t) end; cbn [negb]; try done;
    try case_decide; try done; exact Hf.
Qed.

(** * Decoding against the layouts *)

#[global] Instance Authorized_codec {E} :
  Codec (decode_Authorized (E:=E)) (λ a, concat (valueBytes <$> fields_Authorized a)) (fieldsOk fields_Authorized).
Proof. record_codec decode_Authorized fields_Authorized. Qed.
#[global] Instance Lockup_codec {E} :
  Codec (decode_Lockup (E:=E)) (λ a, concat (valueBytes <$> fields_Lockup a)) (fieldsOk fields_Lockup).
Proof. record_codec decode_Lockup fields_Lockup. Qed.
#[global] Instance LockupArgs_codec {E} :
  Codec (decode_LockupArgs (E:=E)) (λ a, concat (valueBytes <$> fields_LockupArgs a)) (fieldsOk fields_LockupArgs).
Proof. record_codec decode_LockupArgs fields_LockupArgs. Qed.
#[global] Instance LockupCheckedArgs_codec {E} :
  Codec (decode_LockupCheckedArgs (E:=E)) (λ a, concat (valueBytes <$> fields_LockupCheckedArgs a))
    (fieldsOk fields_LockupCheckedArgs).
Proof. record_codec decode_LockupCheckedArgs fields_LockupCheckedArgs. Qed.

Lemma stakeBody_reads b :
  fieldsOk fields b → reads (decodeBody (discriminator b)) b (tailBytes fields b).
Proof.
  intros Hv. destruct b as [? ?|? ?| | | | |?| |[]| |?|[]|?| | | | |]; unfold fieldsOk, tailBytes in *;
    cbn [fields discriminator] in *; layout_norm; (step_reads; layout_done).
Qed.

Lemma stakeBody_parses typ :
  parses (decodeBody typ) (λ b bs, discriminator b = typ ∧ fieldsOk fields b ∧ bs = tailBytes fields b).
Proof.
  unfold decodeBody.
  repeat (case_decide; [subst typ; step_parses; intros; (split; [reflexivity|]); unfold fieldsOk, tailBytes;
    cbn [fields]; layout_done|]).
  apply parses_throw.
Qed.

#[global] Instance stake_body : BodyCodec decodeBody discriminator (tailBytes fields) (fieldsOk fields).
Proof. split; [apply stakeBody_reads|apply stakeBody_parses]. Qed.

(** * Properties *)

(** Stake Program instructions: an instruction with a valid authority type and
    a seed of at most 32 bytes encodes and, whatever follows its data, decodes to
    the same instruction with the accounts given to the decoder; any other is
    refused by the encoder and, for the same reason, by the decoder. Conversely
    decoding never panics and an accepted instruction re-encodes to the bytes it
    was decoded from. *)
Lemma stake_instruction_codec accounts b data rest :
  Forall value_ok (fields b) → bytes_ok rest → bytes_ok data →
  match validate b with
  | None => ∃ bs, Data b = Ok bs ∧ DecodeInstruction accounts (bs ++ rest) = Ok (mkStake accounts b)
  | Some e => Data b = Err e ∧
      DecodeInstruction accounts (wireOf b ++ rest) = Err (errStakeInvalid (discriminator b) e)
  end ∧
  match DecodeInstruction accounts data with
  | Ok i => k_accounts i = accounts ∧ ∃ bs tl, Data (k_body i) = Ok bs ∧ data = bs ++ tl
  | Err _ => True
  | Panic => False
  end.
Proof.
  intros Hv Hr Hd. assert (is_uint 4 (discriminator b)) as Ht by by destruct b. split.
  - rewrite (stakeData_eq _ Hv). destruct (validate b) as [e|] eqn:E; [split; [done|]|eexists; split; [done|]];
      rewrite stakeWire_split.
    + apply (tagged_refused ReadUint32 _ _ decodeBody discriminator (tailBytes fields) (fieldsOk fields) errStakeType
        errStakeDecode (λ typ b, errStakeInvalid typ <$> validate b) (mkStake accounts)); [done..|by rewrite E|done].
    + apply (tagged_roundtrip ReadUint32 _ _ decodeBody discriminator (tailBytes fields) (fieldsOk fields) errStakeType
        errStakeDecode (λ typ b, errStakeInvalid typ <$> validate b) (mkStake accounts)); [done..|by rewrite E|done].
  - pose proof (tagged_canonical ReadUint32 _ _ decodeBody discriminator (tailBytes fields) (fieldsOk fields) errStakeType
      errStakeDecode (λ typ b, errStakeInvalid typ <$> validate b) (mkStake accounts) data Hd) as H.
    change (runDecoder _ data) with (DecodeInstruction accounts data) in H.
    destruct (DecodeInstruction accounts data) as [i|e|]; [|done..].
    destruct H as (b' & tl & -> & _ & Hv' & Hc & ->). split; [done|]. cbn [k_body].
    rewrite (stakeData_eq _ Hv'). destruct (validate b'); [done|]. exists (wireOf b'), tl. by rewrite stakeWire_split.
Qed.
