(* ===== verification/LookupTable.v ===== *)
(** LookupTable: the Address Lookup Table Program's codec
    (programs/address-lookup-table): its five instructions, the derivation of a
    table's address, the encoders and [DecodeInstruction]. *)
From Stdlib Require Import ZArith Lia.
From stdpp Require Import base numbers list.
From S2P Require Import Prelude Shortvec Keys PrivateKey ProgramIds Pda Wire Program.

Open Scope Z_scope.
Open Scope wire_scope.

Definition ProgramID : PublicKey := AddressLookupTableProgramID.
Definition LookupTableMaxAddresses : Z := 256.

Definition CreateLookupTableInstruction : Z := 0.
Definition FreezeLookupTableInstruction : Z := 1.
Definition ExtendLookupTableInstruction : Z := 2.
Definition DeactivateLookupTableInstruction : Z := 3.
Definition CloseLookupTableInstruction : Z := 4.

Inductive body :=
  | CreateLookupTable (RecentSlot BumpSeed : Z)
  | FreezeLookupTable
  | ExtendLookupTable (Addresses : list PublicKey)
  | DeactivateLookupTable
  | CloseLookupTable.

Record LookupInstruction := mkLookup { l_accounts : AccountMetaSlice; l_body : body }.

Inductive lookup_err :=
  | ErrTooManyAddresses (n : Z)
  | errDerive (e : pda_err)
  | errLookupEncode (r : recorded)
  | errLookupType (r : recorded)
  | errAddressCount (r : recorded)
  | errAddressesMissing (count needed : Z)
  | ErrUnknownInstruction (typ : Z)
  | errLookupDecode (typ : Z) (r : recorded).

(** * Constructors *)

Section derive.
Context `{ed : Ed25519}.

Definition DeriveLookupTableAddress (authority : PublicKey) (recentSlot : Z) : outcome pda_err (PublicKey * Z) :=
  FindProgramAddress ProgramID [authority; le_bytes 8 recentSlot].

Definition NewCreateLookupTableInstruction (authority payer : PublicKey) (recentSlot : Z)
    : outcome lookup_err (LookupInstruction * PublicKey) :=
  match DeriveLookupTableAddress authority recentSlot with
  | Ok (lookupTable, bumpSeed) =>
    Ok (mkLookup [NewAccountMeta lookupTable true false; NewAccountMeta authority false true;
                  NewAccountMeta payer true true; NewAccountMeta SystemProgramID false false]
          (CreateLookupTable recentSlot bumpSeed), lookupTable)
  | Err e => Err (errDerive e)
  | Panic => Panic
  end.
End derive.

Definition NewFreezeLookupTableInstruction (lookupTable authority : PublicKey) :=
  mkLookup [NewAccountMeta lookupTable true false; NewAccountMeta authority false true] FreezeLookupTable.
Definition NewExtendLookupTableInstruction (lookupTable authority payer : PublicKey) (addresses : list PublicKey) :=
  mkLookup [NewAccountMeta lookupTable true false; NewAccountMeta authority false true;
            NewAccountMeta payer true true; NewAccountMeta SystemProgramID false false] (ExtendLookupTable addresses).
Definition NewExtendLookupTableInstructionWithoutPayer (lookupTable authority : PublicKey) (addresses : list PublicKey) :=
  mkLookup [NewAccountMeta lookupTable true false; NewAccountMeta authority false true] (ExtendLookupTable addresses).
Definition NewDeactivateLookupTableInstruction (lookupTable authority : PublicKey) :=
  mkLookup [NewAccountMeta lookupTable true false; NewAccountMeta authority false true] DeactivateLookupTable.
Definition NewCloseLookupTableInstruction (lookupTable authority recipient : PublicKey) :=
  mkLookup [NewAccountMeta lookupTable true false; NewAccountMeta authority false true;
            NewAccountMeta recipient true false] CloseLookupTable.

(** * The [Data] methods *)

Definition encoded (e : Encoder) : outcome lookup_err bytes := finish errLookupEncode e.

Definition Data_CreateLookupTable (RecentSlot BumpSeed : Z) : outcome lookup_err bytes :=
  encoded (NewEncoder [] ▷ WriteUint32 CreateLookupTableInstruction ▷ WriteUint64 RecentSlot ▷ WriteUint8 BumpSeed).
Definition Data_FreezeLookupTable : outcome lookup_err bytes := Ok [u8 FreezeLookupTableInstruction; 0; 0; 0].
Definition Data_ExtendLookupTable (Addresses : list PublicKey) : outcome lookup_err bytes :=
  if decide (LookupTableMaxAddresses < len Addresses) then Err (ErrTooManyAddresses (len Addresses)) else
  encoded (foldl (λ enc address, WritePublicKey address enc)
             (NewEncoder [] ▷ WriteUint32 ExtendLookupTableInstruction ▷ WriteUint64 (u64 (len Addresses))) Addresses).
Definition Data_DeactivateLookupTable : outcome lookup_err bytes := Ok [u8 DeactivateLookupTableInstruction; 0; 0; 0].
Definition Data_CloseLookupTable : outcome lookup_err bytes := Ok [u8 CloseLookupTableInstruction; 0; 0; 0].

Definition Data (b : body) : outcome lookup_err bytes :=
  match b with
  | CreateLookupTable s n => Data_CreateLookupTable s n
  | FreezeLookupTable => Data_FreezeLookupTable
  | ExtendLookupTable a => Data_ExtendLookupTable a
  | DeactivateLookupTable => Data_DeactivateLookupTable
  | CloseLookupTable => Data_CloseLookupTable
  end.

(** * Decoding *)

Definition decodeExtend : GoM Decoder lookup_err body :=
  count ← ReadUint64;
  _ ← checkErr errAddressCount;
  if decide (LookupTableMaxAddresses < count) then throw (ErrTooManyAddresses count) else
  let needed := count * PublicKeyLength in
  _ ← needs needed (errAddressesMissing count needed);
  addresses ← readN (Z.to_nat count) ReadPublicKey;
  mret (ExtendLookupTable addresses).

Definition decodeBody (typ : Z) : GoM Decoder lookup_err body :=
  if decide (typ = CreateLookupTableInstruction) then
    s ← ReadUint64; n ← ReadUint8; mret (CreateLookupTable s n)
  else if decide (typ = FreezeLookupTableInstruction) then mret FreezeLookupTable
  else if decide (typ = ExtendLookupTableInstruction) then decodeExtend
  else if decide (typ = DeactivateLookupTableInstruction) then mret DeactivateLookupTable
  else if decide (typ = CloseLookupTableInstruction) then mret CloseLookupTable
  else throw (ErrUnknownInstruction typ).

Definition decodeLookup (accounts : AccountMetaSlice) : GoM Decoder lookup_err LookupInstruction :=
  typ ← ReadUint32;
  _ ← checkErr errLookupType;
  b ← decodeBody typ;
  _ ← checkErr (errLookupDecode typ);
  mret (mkLookup accounts b).

Definition DecodeInstruction (accounts : AccountMetaSlice) (data : bytes) : outcome lookup_err LookupInstruction :=
  runDecoder (decodeLookup accounts) data.

(** * Layouts *)

Definition fields (b : body) : list value :=
  match b with
  | CreateLookupTable s n => [VUint32 0; VUint64 s; VUint8 n]
  | FreezeLookupTable => [VUint32 1]
  | ExtendLookupTable a => VUint32 2 :: VUint64 (len a) :: (VPublicKey <$> a)
  | DeactivateLookupTable => [VUint32 3]
  | CloseLookupTable => [VUint32 4]
  end.

(** What both sides limit. *)
Definition fits (b : body) : Prop :=
  match b with ExtendLookupTable a => len a ≤ 256 | _ => True end.
Definition addressCount (b : body) : Z := match b with ExtendLookupTable a => len a | _ => 0 end.
#[global] Instance fits_dec b : Decision (fits b).
Proof. destruct b; simpl; apply _. Defined.

Definition wireOf (b : body) : bytes := concat (valueBytes <$> fields b).
Definition discriminator (b : body) : Z := match fields b with VUint32 t :: _ => t | _ => 0 end.
Definition lookup_ok (b : body) : Prop := fieldsOk fields b ∧ fits b.

Lemma lookupWire_split b : wireOf b = le_bytes 4 (discriminator b) ++ tailBytes fields b.
Proof. by destruct b. Qed.

Lemma writeKeys_values ks e :
  foldl (λ enc address, WritePublicKey address enc) e ks = writeValues (VPublicKey <$> ks) e.
Proof. revert e. induction ks as [|k ks IH]; intros e; [done|]. apply IH. Qed.

Lemma lookupData_eq b :
  fieldsOk fields b →
  Data b = if decide (fits b) then Ok (wireOf b) else Err (ErrTooManyAddresses (addressCount b)).
Proof.
  intros Hv. pose proof (finish_values errLookupEncode _ Hv) as Hf.
  destruct b as [s n| |a| |]; cbn [Data fits]; try (rewrite decide_True by done; first [exact Hf|reflexivity]).
  unfold Data_ExtendLookupTable, LookupTableMaxAddresses.
  case_decide; [by rewrite decide_False by lia|]. rewrite decide_True by lia. rewrite writeKeys_values.
  unfold u64. rewrite Z.mod_small by (pose proof (len_nonneg a); lia). exact Hf.
Qed.

(** * Decoding against the layouts *)

Lemma decodeExtend_reads a :
  fieldsOk fields (ExtendLookupTable a) → len a ≤ 256 →
  reads decodeExtend (ExtendLookupTable a) (tailBytes fields (ExtendLookupTable a)).
Proof.
  unfold fieldsOk, tailBytes. cbn [fields drop]. rewrite !Forall_cons. intros (_ & Hl & Hv) Hn.
  destruct (keys_values a) as [Hb Hk]. apply Hk in Hv. cbn [fmap list_fmap concat]. change (list_fmap _ _ valueBytes) with (fmap (M:=list) valueBytes).
  eapply reads_codec; [apply _| |exact Hl|reflexivity]. apply reads_check.
  unfold LookupTableMaxAddresses. rewrite decide_False by lia. cbv zeta. rewrite Hb.
  apply reads_needs.
  - rewrite to_nat_len. eapply reads_codec; [apply _|apply reads_ret|done|by rewrite app_nil_r].
  - rewrite <- Hb, concat_keys_len by (by apply Hk). unfold PublicKeyLength. lia.
Qed.

Lemma decodeExtend_parses :
  parses decodeExtend (λ b bs, discriminator b = 2 ∧ lookup_ok b ∧ bs = tailBytes fields b).
Proof.
  unfold decodeExtend. eapply parses_codec; [apply _|]. intros n. apply parses_check.
  unfold LookupTableMaxAddresses. case_decide; [apply parses_throw|]. cbv zeta. apply parses_needs.
  eapply parses_codec; [apply _|]. intros ks. apply parses_ret_spec. intros [Hl Hk] Hn.
  assert (len ks = n) as <- by (unfold len; rewrite Hl; destruct Hn; lia).
  destruct (keys_values ks) as [Hb Hk']. unfold lookup_ok, fieldsOk, tailBytes. cbn [fields drop].
  split_and!; [done| |cbn; lia|].
  - constructor; [done|]. constructor; [exact Hn|]. by apply Hk'.
  - cbn [fmap list_fmap concat]. change (list_fmap _ _ valueBytes) with (fmap (M:=list) valueBytes). rewrite Hb, app_nil_r. done.
Qed.

#[global] Instance lookup_body : BodyCodec decodeBody discriminator (tailBytes fields) lookup_ok.
Proof.
  split.
  - intros b [Hv Hf]. destruct b as [s n| |a| |]; [| |by apply decodeExtend_reads|..];
      unfold fieldsOk, tailBytes in *; cbn [fields discriminator] in *; layout_norm; (step_reads; layout_done).
  - intros typ. unfold decodeBody.
    repeat (case_decide; [subst typ; first [exact decodeExtend_parses | step_parses; intros; (split; [reflexivity|]);
      unfold lookup_ok, fieldsOk, tailBytes; cbn [fields fits]; layout_done]|]).
    apply parses_throw.
Qed.

(** * Properties *)

(** Address Lookup Table instructions: with at most 256 addresses an
    instruction encodes and, whatever follows its data, decodes to itself with
    the accounts given to the decoder; with more the encoder refuses it.
    Conversely decoding never panics or reads past the data (a count the data
    cannot hold is an error before anything is allocated), and an accepted
    instruction re-encodes to the bytes it was decoded from. *)
Lemma lookup_instruction_codec accounts b data rest :
  Forall value_ok (fields b) → bytes_ok rest → bytes_ok data →
  (if decide (fits b)
   then ∃ bs, Data b = Ok bs ∧ DecodeInstruction accounts (bs ++ rest) = Ok (mkLookup accounts b)
   else Data b = Err (ErrTooManyAddresses (addressCount b))) ∧
  match DecodeInstruction accounts data with
  | Ok i => l_accounts i = accounts ∧ ∃ bs tl, Data (l_body i) = Ok bs ∧ data = bs ++ tl
  | Err _ => True
  | Panic => False
  end.
Proof.
  intros Hv Hr Hd. split.
  - rewrite lookupData_eq by done. case_decide as Hf; [|done]. eexists. split; [done|]. rewrite lookupWire_split.
    apply (tagged_roundtrip ReadUint32 _ _ decodeBody discriminator (tailBytes fields) lookup_ok errLookupType
      errLookupDecode (λ _ _, None) (mkLookup accounts)); [by destruct b|done..].
  - pose proof (tagged_canonical ReadUint32 _ _ decodeBody discriminator (tailBytes fields) lookup_ok errLookupType
      errLookupDecode (λ _ _, None) (mkLookup accounts) data Hd) as H.
    change (runDecoder _ data) with (DecodeInstruction accounts data) in H.
    destruct (DecodeInstruction accounts data) as [i|e|]; [|done..].
    destruct H as (b' & tl & -> & _ & [Hv' Hf'] & _ & ->). split; [done|].
    exists (wireOf b'), tl. rewrite lookupWire_split. split; [|done]. rewrite lookupData_eq by done.
    by rewrite decide_True, lookupWire_split.
Qed.
