(* ===== verification/ComputeBudget.v ===== *)
(** ComputeBudget: the Compute Budget Program's codec (programs/compute-budget).
    Tag zero has two readings, the reserved [Unused] and the retired
    [RequestUnitsDeprecated], which the decoder tells apart by how many bytes
    follow. *)
From Stdlib Require Import ZArith Lia.
From stdpp Require Import base numbers list.
From S2P Require Import Prelude Shortvec Keys ProgramIds Wire Program.

Open Scope Z_scope.
Open Scope wire_scope.

Definition ProgramID : PublicKey := ComputeBudgetProgramID.

Definition UnusedInstruction : Z := 0.
Definition RequestHeapFrameInstruction : Z := 1.
Definition SetComputeUnitLimitInstruction : Z := 2.
Definition SetComputeUnitPriceInstruction : Z := 3.
Definition SetLoadedAccountsDataSizeLimitInstruction : Z := 4.
Definition RequestUnitsDeprecatedInstruction : Z := UnusedInstruction.

(** The instruction structs; none carries accounts. *)
Inductive body :=
  | Unused
  | RequestUnitsDeprecated (Units AdditionalFee : Z)
  | RequestHeapFrame (HeapSize : Z)
  | SetComputeUnitLimit (Units : Z)
  | SetComputeUnitPrice (MicroLamports : Z)
  | SetLoadedAccountsDataSizeLimit (Bytes : Z).

Inductive budget_err :=
  | errBudgetEncode (r : recorded)
  | errBudgetType (r : recorded)
  | ErrUnknownInstruction (typ : Z)
  | errBudgetDecode (typ : Z) (r : recorded).

Definition NewUnusedInstruction : body := Unused.
Definition NewRequestUnitsDeprecatedInstruction (units additionalFee : Z) : body :=
  RequestUnitsDeprecated units additionalFee.
Definition NewRequestHeapFrameInstruction (heapSize : Z) : body := RequestHeapFrame heapSize.
Definition NewSetComputeUnitLimitInstruction (units : Z) : body := SetComputeUnitLimit units.
Definition NewSetComputeUnitPriceInstruction (microLamports : Z) : body := SetComputeUnitPrice microLamports.
Definition NewSetLoadedAccountsDataSizeLimitInstruction (bytes : Z) : body := SetLoadedAccountsDataSizeLimit bytes.

Definition encoded (e : Encoder) : outcome budget_err bytes := finish errBudgetEncode e.

Definition Data_Unused : outcome budget_err bytes := Ok [u8 UnusedInstruction].
Definition Data_RequestUnitsDeprecated (Units AdditionalFee : Z) : outcome budget_err bytes :=
  encoded (NewEncoder [] ▷ WriteUint8 (u8 RequestUnitsDeprecatedInstruction) ▷ WriteUint32 Units
           ▷ WriteUint32 AdditionalFee).
Definition Data_RequestHeapFrame (HeapSize : Z) : outcome budget_err bytes :=
  encoded (NewEncoder [] ▷ WriteUint8 (u8 RequestHeapFrameInstruction) ▷ WriteUint32 HeapSize).
Definition Data_SetComputeUnitLimit (Units : Z) : outcome budget_err bytes :=
  encoded (NewEncoder [] ▷ WriteUint8 (u8 SetComputeUnitLimitInstruction) ▷ WriteUint32 Units).
Definition Data_SetComputeUnitPrice (MicroLamports : Z) : outcome budget_err bytes :=
  encoded (NewEncoder [] ▷ WriteUint8 (u8 SetComputeUnitPriceInstruction) ▷ WriteUint64 MicroLamports).
Definition Data_SetLoadedAccountsDataSizeLimit (Bytes : Z) : outcome budget_err bytes :=
  encoded (NewEncoder [] ▷ WriteUint8 (u8 SetLoadedAccountsDataSizeLimitInstruction) ▷ WriteUint32 Bytes).

Definition Data (b : body) : outcome budget_err bytes :=
  match b with
  | Unused => Data_Unused
  | RequestUnitsDeprecated u f => Data_RequestUnitsDeprecated u f
  | RequestHeapFrame h => Data_RequestHeapFrame h
  | SetComputeUnitLimit u => Data_SetComputeUnitLimit u
  | SetComputeUnitPrice m => Data_SetComputeUnitPrice m
  | SetLoadedAccountsDataSizeLimit b => Data_SetLoadedAccountsDataSizeLimit b
  end.

Definition decodeBody (typ : Z) : GoM Decoder budget_err body :=
  if decide (typ = UnusedInstruction) then
    dec ← get;
    if decide (8 ≤ Remaining dec)
    then u ← ReadUint32; f ← ReadUint32; mret (RequestUnitsDeprecated u f)
    else mret Unused
  else if decide (typ = RequestHeapFrameInstruction) then h ← ReadUint32; mret (RequestHeapFrame h)
  else if decide (typ = SetComputeUnitLimitInstruction) then u ← ReadUint32; mret (SetComputeUnitLimit u)
  else if decide (typ = SetComputeUnitPriceInstruction) then m ← ReadUint64; mret (SetComputeUnitPrice m)
  else if decide (typ = SetLoadedAccountsDataSizeLimitInstruction) then
    b ← ReadUint32; mret (SetLoadedAccountsDataSizeLimit b)
  else throw (ErrUnknownInstruction typ).

Definition decodeBudget : GoM Decoder budget_err body :=
  typ ← ReadUint8;
  _ ← checkErr errBudgetType;
  b ← decodeBody typ;
  _ ← checkErr (errBudgetDecode typ);
  mret b.

Definition DecodeInstruction (accounts : AccountMetaSlice) (data : bytes) : outcome budget_err body :=
  runDecoder decodeBudget data.

(** * Layouts *)

Definition fields (b : body) : list value :=
  match b with
  | Unused => [VUint8 0]
  | RequestUnitsDeprecated u f => [VUint8 0; VUint32 u; VUint32 f]
  | RequestHeapFrame h => [VUint8 1; VUint32 h]
  | SetComputeUnitLimit u => [VUint8 2; VUint32 u]
  | SetComputeUnitPrice m => [VUint8 3; VUint64 m]
  | SetLoadedAccountsDataSizeLimit b => [VUint8 4; VUint32 b]
  end.

Definition wireOf (b : body) : bytes := concat (valueBytes <$> fields b).
Definition discriminator (b : body) : Z := match fields b with VUint8 t :: _ => t | _ => 0 end.

(** [Unused] is told from the retired instruction by fewer than eight bytes. *)
Definition tail (b : body) (rest : bytes) : Prop := match b with Unused => len rest < 8 | _ => True end.
#[global] Instance tail_dec b rest : Decision (tail b rest).
Proof. destruct b; simpl; apply _. Defined.

Lemma budgetWire_split b : wireOf b = [discriminator b] ++ tailBytes fields b.
Proof. by destruct b. Qed.

Lemma budgetData_eq b : fieldsOk fields b → Data b = Ok (wireOf b).
Proof.
  intros Hv. pose proof (finish_values errBudgetEncode _ Hv) as Hf. destruct b; first [exact Hf | reflexivity].
Qed.

Lemma budgetBody_reads b : fieldsOk fields b → readsWhen (tail b) (decodeBody (discriminator b)) b (tailBytes fields b).
Proof.
  intros Hv. unfold fieldsOk, tailBytes in *. destruct b; cbn [fields discriminator tail] in *; layout_norm.
  - split; [constructor|]. intros pre rest _ _ Hr. unfold tail in Hr. unfold decodeBody. rewrite decide_True by done. rewrite run_get, remaining_at, len_nil, decide_False by lia.
    by rewrite Z.add_0_r.
  - assert (reads (E:=budget_err) (u ← ReadUint32; f ← ReadUint32; mret (RequestUnitsDeprecated u f))
      (RequestUnitsDeprecated Units AdditionalFee) (le_bytes 4 Units ++ le_bytes 4 AdditionalFee ++ [])) as [Hb Hr]
      by (step_reads; layout_done).
    split; [done|]. intros pre rest Hp Hrest _. rewrite <- Hr by done. unfold decodeBody. rewrite decide_True by done.
    rewrite run_get, remaining_at, !len_app, !len_le_bytes, len_nil, decide_True; [done|]. pose_lens. lia.
  - apply reads_when. step_reads; layout_done.
  - apply reads_when. step_reads; layout_done.
  - apply reads_when. step_reads; layout_done.
  - apply reads_when. step_reads; layout_done.
Qed.

Lemma budgetBody_parses typ :
  parsesR (decodeBody typ) (λ b bs rest, ∃ w, b = w ∧ discriminator w = typ ∧ fieldsOk fields w ∧
    bs = tailBytes fields w ∧ tail w rest).
Proof.
  unfold decodeBody. case_decide as Hz.
  { subst typ. intros d Hd. apply wp_run_get. destruct (decide (8 ≤ Remaining d)) as [H8|H8].
    - clear H8. revert d Hd. change (parsesR (E:=budget_err) (u ← ReadUint32; f ← ReadUint32; mret (RequestUnitsDeprecated u f))
        (λ b bs rest, ∃ w, b = w ∧ discriminator w = 0 ∧ fieldsOk fields w ∧ bs = tailBytes fields w ∧ tail w rest)).
      eapply (parses_rest _ (λ b bs, ∃ u f, b = RequestUnitsDeprecated u f ∧ fieldsOk fields b ∧ bs = tailBytes fields b)).
      + step_parses. intros. eexists _, _. split; [done|]. unfold fieldsOk, tailBytes. cbn [fields]. layout_done.
      + intros b bs rest (u & f & -> & ? & ->). by eexists.
    - apply wp_ret. split_and!; [done..|]. intros _ _. exists []. split; [done|]. exists Unused. split_and!; [done|done| |done|].
      + by repeat constructor.
      + unfold tail, unread. destruct Hd as [? ?]. unfold Remaining in H8. rewrite len_drop by lia. lia. }
  repeat (case_decide;
    [eapply (parses_rest _ (λ b bs, b ≠ Unused ∧ discriminator b = typ ∧ fieldsOk fields b ∧ bs = tailBytes fields b));
     [step_parses; intros; subst typ; (split; [done|split; [reflexivity|]]); unfold fieldsOk, tailBytes;
      cbn [fields]; layout_done
     |intros b bs rest (? & ? & ? & ->); exists b; split_and!; [done..|by destruct b]]|]).
  intros d Hd. by apply wp_throw.
Qed.

#[global] Instance budget_body : FormCodec decodeBody discriminator (tailBytes fields) (λ b, b) (fieldsOk fields) tail.
Proof. split; [apply budgetBody_reads|apply budgetBody_parses]. Qed.

(** * Properties *)

(** Compute Budget instructions: every instruction encodes, and its data
    decodes to it whatever follows, except that [Unused] needs fewer than eight
    bytes after it: with eight or more the same tag reads as the retired
    request-units instruction. Conversely decoding never panics, and an accepted
    instruction re-encodes to the bytes it was decoded from, the tail being
    shorter than eight bytes for [Unused]. *)
Lemma budget_instruction_codec accounts b data rest :
  Forall value_ok (fields b) → bytes_ok rest → bytes_ok data →
  (∃ bs, Data b = Ok bs ∧
     (tail b rest → DecodeInstruction accounts (bs ++ rest) = Ok b) ∧
     (¬ tail b rest → b = Unused ∧ ∃ u f, DecodeInstruction accounts (bs ++ rest) = Ok (RequestUnitsDeprecated u f))) ∧
  match DecodeInstruction accounts data with
  | Ok b' => ∃ bs tl, Data b' = Ok bs ∧ data = bs ++ tl ∧ tail b' tl
  | Err _ => True
  | Panic => False
  end.
Proof.
  intros Hv Hr Hd.
  assert (∀ w tl, fieldsOk fields w → bytes_ok tl → tail w tl → DecodeInstruction accounts (wireOf w ++ tl) = Ok w) as Hform.
  { intros w tl Hw Htl Ht. rewrite budgetWire_split.
    apply (tagged_form ReadUint8 (λ v, [v]) _ decodeBody discriminator (tailBytes fields) (λ b, b) (fieldsOk fields) tail
      errBudgetType errBudgetDecode (λ _ _, None) (λ b, b)); [by destruct w|done..]. }
  split.
  - exists (wireOf b). split; [by apply budgetData_eq|]. split; [by apply Hform|].
    intros Hn. destruct b; try (exfalso; by apply Hn). split; [done|]. unfold tail in Hn.
    destruct (le_prefix 4 rest Hr ltac:(lia)) as (u & r1 & -> & Hu & Hr1).
    rewrite len_app, len_le_bytes in Hn.
    destruct (le_prefix 4 r1 Hr1 ltac:(lia)) as (f & r2 & -> & Hf & Hr2). exists u, f.
    apply (Hform (RequestUnitsDeprecated u f)); [|done|done]. unfold fieldsOk. cbn [fields]. by rewrite !Forall_cons, Forall_nil.
  - pose proof (tagged_accepts ReadUint8 (λ v, [v]) _ decodeBody discriminator (tailBytes fields) (λ b, b) (fieldsOk fields)
      tail errBudgetType errBudgetDecode (λ _ _, None) (λ b, b) data Hd) as H.
    change (runDecoder _ data) with (DecodeInstruction accounts data) in H.
    destruct (DecodeInstruction accounts data) as [b'|e|]; [|done..].
    destruct H as (w & tl & -> & _ & Hw & _ & -> & _ & Ht). exists (wireOf w), tl.
    rewrite <- budgetWire_split. split_and!; [by apply budgetData_eq|done|done].
Qed.
