(* ===== verification/LoaderV2.v ===== *)
(** LoaderV2: the codec of the original BPF loader (programs/loader-v2): writing a
    chunk of a program and finalizing it. *)
From Stdlib Require Import ZArith Lia.
From stdpp Require Import base numbers list.
From S2P Require Import Prelude Shortvec Keys ProgramIds Wire Program.

Open Scope Z_scope.
Open Scope wire_scope.

Definition ProgramID : PublicKey := BPFLoaderProgramID.

Definition WriteInstruction : Z := 0.
Definition FinalizeInstruction : Z := 1.

Inductive body :=
  | Write (Offset : Z) (Bytes : bytes)
  | Finalize.

Record LoaderInstruction := mkLoader { i_accounts : AccountMetaSlice; i_body : body }.

Inductive loader_err :=
  | errLoaderEncode (r : recorded)
  | errLoaderType (r : recorded)
  | ErrUnknownInstruction (typ : Z)
  | errLoaderDecode (typ : Z) (r : recorded).

Definition NewWriteInstruction (offset : Z) (data : bytes) (program : PublicKey) :=
  mkLoader [NewAccountMeta program true true] (Write offset data).
Definition NewFinalizeInstruction (program : PublicKey) :=
  mkLoader [NewAccountMeta program true true; NewAccountMeta SysVarRentPubkey false false] Finalize.

Definition encoded (e : Encoder) : outcome loader_err bytes := finish errLoaderEncode e.

Definition Data_Write (Offset : Z) (Bytes : bytes) : outcome loader_err bytes :=
  encoded (NewEncoder [] ▷ WriteUint32 WriteInstruction ▷ WriteUint32 Offset ▷ WriteUint64 (u64 (len Bytes))
           ▷ WriteBytes Bytes).
Definition Data_Finalize : outcome loader_err bytes := Ok [u8 FinalizeInstruction; 0; 0; 0].

Definition Data (b : body) : outcome loader_err bytes :=
  match b with
  | Write o bs => Data_Write o bs
  | Finalize => Data_Finalize
  end.

Definition decodeBody (typ : Z) : GoM Decoder loader_err body :=
  if decide (typ = WriteInstruction) then
    o ← ReadUint32; bs ← readSized (errLoaderDecode typ); mret (Write o bs)
  else if decide (typ = FinalizeInstruction) then mret Finalize
  else throw (ErrUnknownInstruction typ).

Definition decodeLoader (accounts : AccountMetaSlice) : GoM Decoder loader_err LoaderInstruction :=
  typ ← ReadUint32;
  _ ← checkErr errLoaderType;
  b ← decodeBody typ;
  _ ← checkErr (errLoaderDecode typ);
  mret (mkLoader accounts b).

Definition DecodeInstruction (accounts : AccountMetaSlice) (data : bytes) : outcome loader_err LoaderInstruction :=
  runDecoder (decodeLoader accounts) data.

(** * Layouts *)

Definition fields (b : body) : list value :=
  match b with
  | Write o bs => [VUint32 0; VUint32 o; VUint64 (len bs); VBytes bs]
  | Finalize => [VUint32 1]
  end.

Definition wireOf (b : body) : bytes := concat (valueBytes <$> fields b).
Definition discriminator (b : body) : Z := match fields b with VUint32 t :: _ => t | _ => 0 end.

Lemma loaderV2_wire b : wireOf b = le_bytes 4 (discriminator b) ++ tailBytes fields b.
Proof. by destruct b. Qed.

Lemma loaderV2_data b : fieldsOk fields b → Data b = Ok (wireOf b).
Proof.
  intros Hv. pose proof (finish_values errLoaderEncode _ Hv) as Hf.
  destruct b as [o bs|]; [|first [exact Hf|reflexivity]..]. unfold fieldsOk in Hv. cbn [fields] in Hv.
  layout_norm. cbn [Data]. unfold Data_Write. rewrite u64_uint by done. exact Hf.
Qed.

#[global] Instance loaderV2_body : BodyCodec decodeBody discriminator (tailBytes fields) (fieldsOk fields).
Proof.
  split.
  - intros b Hv. unfold fieldsOk, tailBytes in *. destruct b; cbn [fields discriminator] in *; layout_norm;
      (step_reads; first [layout_done | by unfold sizedBytes; rewrite ?app_nil_r]).
  - intros typ. unfold decodeBody.
    repeat (case_decide; [subst typ; step_parses; intros; (split; [reflexivity|]); unfold fieldsOk, tailBytes, sizedBytes, sized_ok in *;
      cbn [fields]; layout_done|]).
    apply parses_throw.
Qed.

(** * Properties *)

(** Loader v2 instructions: every instruction encodes and, whatever follows its
    data, decodes to itself with the accounts given to the decoder. Conversely
    decoding never panics (a chunk length beyond the data is an error, not a
    read out of bounds), and an accepted instruction re-encodes to the bytes it
    was decoded from. *)
Lemma loaderV2_instruction_codec accounts b data rest :
  Forall value_ok (fields b) → bytes_ok rest → bytes_ok data →
  (∃ bs, Data b = Ok bs ∧ DecodeInstruction accounts (bs ++ rest) = Ok (mkLoader accounts b)) ∧
  match DecodeInstruction accounts data with
  | Ok i => i_accounts i = accounts ∧ ∃ bs tl, Data (i_body i) = Ok bs ∧ data = bs ++ tl
  | Err _ => True
  | Panic => False
  end.
Proof.
  intros Hv Hr Hd. split.
  - exists (wireOf b). split; [by apply loaderV2_data|]. rewrite loaderV2_wire.
    apply (tagged_roundtrip ReadUint32 _ _ decodeBody discriminator (tailBytes fields) (fieldsOk fields) errLoaderType
      errLoaderDecode (λ _ _, None) (mkLoader accounts)); [by destruct b|done..].
  - pose proof (tagged_canonical ReadUint32 _ _ decodeBody discriminator (tailBytes fields) (fieldsOk fields) errLoaderType
      errLoaderDecode (λ _ _, None) (mkLoader accounts) data Hd) as H.
    change (runDecoder _ data) with (DecodeInstruction accounts data) in H.
    destruct (DecodeInstruction accounts data) as [i|e|]; [|done..].
    destruct H as (b' & tl & -> & _ & Hv' & _ & ->). split; [done|].
    exists (wireOf b'), tl. rewrite <- loaderV2_wire. split; [by apply loaderV2_data|done].
Qed.
