(* ===== verification/LoaderV3.v ===== *)
(** LoaderV3: the codec of the upgradeable BPF loader (programs/loader-v3). Three
    instructions end in a flag that older encoders leave out; the decoder takes
    its default when nothing follows. *)
From Stdlib Require Import ZArith Lia.
From stdpp Require Import base numbers list.
From S2P Require Import Prelude Shortvec Keys ProgramIds Wire Program.

Open Scope Z_scope.
Open Scope wire_scope.

Definition ProgramID : PublicKey := BPFLoaderUpgradeableProgramID.

Definition InitializeBufferInstruction : Z := 0.
Definition WriteInstruction : Z := 1.
Definition DeployWithMaxDataLenInstruction : Z := 2.
Definition UpgradeInstruction : Z := 3.
Definition SetAuthorityInstruction : Z := 4.
Definition CloseInstruction : Z := 5.
Definition ExtendProgramInstruction : Z := 6.
Definition SetAuthorityCheckedInstruction : Z := 7.

Inductive body :=
  | Write (Offset : Z) (Bytes : bytes)
  | InitializeBuffer
  | DeployWithMaxDataLen (MaxDataLen : Z) (CloseBuffer : bool)
  | Upgrade (CloseBuffer : bool)
  | SetAuthority
  | Close (Tombstone : bool)
  | ExtendProgram (AdditionalBytes : Z)
  | SetAuthorityChecked.

Record LoaderInstruction := mkLoader { i_accounts : AccountMetaSlice; i_body : body }.

Inductive loader_err :=
  | errLoaderEncode (r : recorded)
  | errLoaderType (r : recorded)
  | ErrUnknownInstruction (typ : Z)
  | errLoaderDecode (typ : Z) (r : recorded).

(** * Constructors *)

Definition NewInitializeBufferInstruction (buffer authority : PublicKey) :=
  mkLoader [NewAccountMeta buffer true false; NewAccountMeta authority false false] InitializeBuffer.
Definition NewInitializeImmutableBufferInstruction (buffer : PublicKey) :=
  mkLoader [NewAccountMeta buffer true false] InitializeBuffer.
Definition NewWriteInstruction (offset : Z) (data : bytes) (buffer authority : PublicKey) :=
  mkLoader [NewAccountMeta buffer true false; NewAccountMeta authority false true] (Write offset data).
Definition NewDeployWithMaxDataLenInstruction (maxDataLen : Z) (closeBuffer : bool)
    (payer programData program buffer authority : PublicKey) :=
  mkLoader [NewAccountMeta payer true true; NewAccountMeta programData true false; NewAccountMeta program true false;
            NewAccountMeta buffer true false; NewAccountMeta SysVarRentPubkey false false;
            NewAccountMeta SysVarClockPubkey false false; NewAccountMeta SystemProgramID false false;
            NewAccountMeta authority false true] (DeployWithMaxDataLen maxDataLen closeBuffer).
Definition NewUpgradeInstruction (closeBuffer : bool) (programData program buffer spill authority : PublicKey) :=
  mkLoader [NewAccountMeta programData true false; NewAccountMeta program true false; NewAccountMeta buffer true false;
            NewAccountMeta spill true false; NewAccountMeta SysVarRentPubkey false false;
            NewAccountMeta SysVarClockPubkey false false; NewAccountMeta authority false true] (Upgrade closeBuffer).
Definition NewSetAuthorityInstruction (target currentAuthority newAuthority : PublicKey) :=
  mkLoader [NewAccountMeta target true false; NewAccountMeta currentAuthority false true;
            NewAccountMeta newAuthority false false] SetAuthority.
Definition NewRemoveAuthorityInstruction (target currentAuthority : PublicKey) :=
  mkLoader [NewAccountMeta target true false; NewAccountMeta currentAuthority false true] SetAuthority.
Definition NewCloseInstruction (tombstone : bool) (closeAccount recipient authority : PublicKey) :=
  mkLoader [NewAccountMeta closeAccount true false; NewAccountMeta recipient true false;
            NewAccountMeta authority false true] (Close tombstone).
Definition NewCloseProgramInstruction (tombstone : bool) (programData recipient authority program : PublicKey) :=
  mkLoader [NewAccountMeta programData true false; NewAccountMeta recipient true false;
            NewAccountMeta authority false true; NewAccountMeta program true false] (Close tombstone).
Definition NewCloseUninitializedInstruction (tombstone : bool) (closeAccount recipient : PublicKey) :=
  mkLoader [NewAccountMeta closeAccount true false; NewAccountMeta recipient true false] (Close tombstone).
Definition NewExtendProgramInstruction (additionalBytes : Z) (programData program : PublicKey) :=
  mkLoader [NewAccountMeta programData true false; NewAccountMeta program true false] (ExtendProgram additionalBytes).
Definition NewExtendProgramWithPayerInstruction (additionalBytes : Z) (programData program payer : PublicKey) :=
  mkLoader [NewAccountMeta programData true false; NewAccountMeta program true false;
            NewAccountMeta SystemProgramID false false; NewAccountMeta payer true true] (ExtendProgram additionalBytes).
Definition NewSetAuthorityCheckedInstruction (target currentAuthority newAuthority : PublicKey) :=
  mkLoader [NewAccountMeta target true false; NewAccountMeta currentAuthority false true;
            NewAccountMeta newAuthority false true] SetAuthorityChecked.

(** * The [Data] methods *)

Definition encoded (e : Encoder) : outcome loader_err bytes := finish errLoaderEncode e.

Definition Data_InitializeBuffer : outcome loader_err bytes := Ok [u8 InitializeBufferInstruction; 0; 0; 0].
Definition Data_Write (Offset : Z) (Bytes : bytes) : outcome loader_err bytes :=
  encoded (NewEncoder [] ▷ WriteUint32 WriteInstruction ▷ WriteUint32 Offset ▷ WriteUint64 (u64 (len Bytes))
           ▷ WriteBytes Bytes).
Definition Data_DeployWithMaxDataLen (MaxDataLen : Z) (CloseBuffer : bool) : outcome loader_err bytes :=
  encoded (NewEncoder [] ▷ WriteUint32 DeployWithMaxDataLenInstruction ▷ WriteUint64 MaxDataLen ▷ WriteBool CloseBuffer).
Definition Data_Upgrade (CloseBuffer : bool) : outcome loader_err bytes :=
  encoded (NewEncoder [] ▷ WriteUint32 UpgradeInstruction ▷ WriteBool CloseBuffer).
Definition Data_SetAuthority : outcome loader_err bytes := Ok [u8 SetAuthorityInstruction; 0; 0; 0].
Definition Data_Close (Tombstone : bool) : outcome loader_err bytes :=
  encoded (NewEncoder [] ▷ WriteUint32 CloseInstruction ▷ WriteBool Tombstone).
Definition Data_ExtendProgram (AdditionalBytes : Z) : outcome loader_err bytes :=
  encoded (NewEncoder [] ▷ WriteUint32 ExtendProgramInstruction ▷ WriteUint32 AdditionalBytes).
Definition Data_SetAuthorityChecked : outcome loader_err bytes := Ok [u8 SetAuthorityCheckedInstruction; 0; 0; 0].

Definition Data (b : body) : outcome loader_err bytes :=
  match b with
  | InitializeBuffer => Data_InitializeBuffer
  | Write o bs => Data_Write o bs
  | DeployWithMaxDataLen n c => Data_DeployWithMaxDataLen n c
  | Upgrade c => Data_Upgrade c
  | SetAuthority => Data_SetAuthority
  | Close t => Data_Close t
  | ExtendProgram n => Data_ExtendProgram n
  | SetAuthorityChecked => Data_SetAuthorityChecked
  end.

(** * Decoding *)

(** [flag := dflt; if dec.Remaining() > 0 { flag = dec.ReadBool() }]. *)
Definition readFlag {E} (dflt : bool) : GoM Decoder E bool :=
  dec ← get;
  if decide (0 < Remaining dec) then ReadBool else mret dflt.

Definition decodeBody (typ : Z) : GoM Decoder loader_err body :=
  if decide (typ = InitializeBufferInstruction) then mret InitializeBuffer
  else if decide (typ = WriteInstruction) then
    o ← ReadUint32; bs ← readSized (errLoaderDecode typ); mret (Write o bs)
  else if decide (typ = DeployWithMaxDataLenInstruction) then
    n ← ReadUint64; c ← readFlag true; mret (DeployWithMaxDataLen n c)
  else if decide (typ = UpgradeInstruction) then c ← readFlag true; mret (Upgrade c)
  else if decide (typ = SetAuthorityInstruction) then mret SetAuthority
  else if decide (typ = CloseInstruction) then t ← readFlag false; mret (Close t)
  else if decide (typ = ExtendProgramInstruction) then n ← ReadUint32; mret (ExtendProgram n)
  else if decide (typ = SetAuthorityCheckedInstruction) then mret SetAuthorityChecked
  else throw (ErrUnknownInstruction typ).

Definition decodeLoader (accounts : AccountMetaSlice) : GoM Decoder loader_err LoaderInstruction :=
  typ ← ReadUint32;
  _ ← checkErr errLoaderType;
  b ← decodeBody typ;
  _ ← checkErr (errLoaderDecode typ);
  mret (mkLoader accounts b).

Definition DecodeInstruction (accounts : AccountMetaSlice) (data : bytes) : outcome loader_err LoaderInstruction :=
  runDecoder (decodeLoader accounts) data.

(** * Layouts *)

Definition fields (b : body) : list value :=
  match b with
  | InitializeBuffer => [VUint32 0]
  | Write o bs => [VUint32 1; VUint32 o; VUint64 (len bs); VBytes bs]
  | DeployWithMaxDataLen n c => [VUint32 2; VUint64 n; VBool c]
  | Upgrade c => [VUint32 3; VBool c]
  | SetAuthority => [VUint32 4]
  | Close t => [VUint32 5; VBool t]
  | ExtendProgram n => [VUint32 6; VUint32 n]
  | SetAuthorityChecked => [VUint32 7]
  end.

Definition wireOf (b : body) : bytes := concat (valueBytes <$> fields b).
Definition discriminator (b : body) : Z := match fields b with VUint32 t :: _ => t | _ => 0 end.

Lemma loaderV3_wire b : wireOf b = le_bytes 4 (discriminator b) ++ tailBytes fields b.
Proof. by destruct b. Qed.

Lemma loaderV3_data b : fieldsOk fields b → Data b = Ok (wireOf b).
Proof.
  intros Hv. pose proof (finish_values errLoaderEncode _ Hv) as Hf.
  destruct b as [o bs| |? ?|?| |?|?|]; [|first [exact Hf|reflexivity]..]. unfold fieldsOk in Hv. cbn [fields] in Hv.
  layout_norm. cbn [Data]. unfold Data_Write. rewrite u64_uint by done. exact Hf.
Qed.

(** ** The short forms *)

(** The flag an instruction has when the data leaves it out. *)
Definition defaultFlag (b : body) : option bool :=
  match b with
  | DeployWithMaxDataLen _ true | Upgrade true => Some true
  | Close false => Some false
  | _ => None
  end.

(** A body is written in full, or without its flag when that is the default and
    nothing follows. *)
Inductive form := Full (b : body) | Short (b : body).
Definition valOf (w : form) : body := match w with Full b | Short b => b end.
Definition fdisc (w : form) : Z := discriminator (valOf w).
Definition formBytes (w : form) : bytes :=
  match w with
  | Full b => tailBytes fields b
  | Short b => match b with DeployWithMaxDataLen n _ => le_bytes 8 n | _ => [] end
  end.
Definition formOk (w : form) : Prop :=
  fieldsOk fields (valOf w) ∧ match w with Full _ => True | Short b => is_Some (defaultFlag b) end.
Definition formTail (w : form) (rest : bytes) : Prop := match w with Full _ => True | Short _ => rest = [] end.

Lemma readFlag_full {E} dflt b : reads (E:=E) (readFlag dflt) b (boolByte b).
Proof.
  destruct (codec_bool (E:=E)) as [Hr _]. destruct (Hr b I) as [Hb Hm]. split; [done|]. intros pre rest Hp Hre.
  unfold readFlag. rewrite run_get, remaining_at, decide_True; [by apply Hm|].
  assert (len (boolByte b) = 1) as -> by by destruct b. pose proof (len_nonneg rest). lia.
Qed.

Lemma readFlag_short {E} dflt : readsWhen (λ rest, rest = []) (readFlag (E:=E) dflt) dflt [].
Proof.
  split; [constructor|]. intros pre rest _ _ ->. unfold readFlag. rewrite run_get, remaining_at, decide_False by (change (len (@nil Z)) with 0; lia).
  by rewrite len_nil, Z.add_0_r.
Qed.

(** What the flag reader accepts: the flag's byte, or nothing at the end. *)
Lemma readFlag_parses {E A} dflt (f : bool → A) (P : A → bytes → bytes → Prop) :
  (∀ b rest, P (f b) (boolByte b) rest) → P (f dflt) [] [] → parsesR (E:=E) (b ← readFlag dflt; mret (f b)) P.
Proof.
  intros Hfull Hshort d Hd. apply wp_bind. unfold readFlag. apply wp_run_get. case_decide as H0.
  - eapply wp_mono; [by apply codec_bool| |done]. intros b d' (? & ? & ? & H). apply wp_ret. split_and!; [done..|].
    intros He He'. destruct (H He He') as (bs & ? & _ & ->). eauto.
  - apply wp_ret, wp_ret. split_and!; [done..|]. intros _ _. exists []. split; [done|].
    destruct Hd as [? ?]. unfold Remaining in H0. assert (unread d = []) as ->; [|done].
    apply len_0. unfold unread. rewrite len_drop; lia.
Qed.

Lemma loaderV3_reads w : formOk w → readsWhen (formTail w) (decodeBody (fdisc w)) (valOf w) (formBytes w).
Proof.
  intros [Hv Hs]. destruct w as [b|b]; cbn [valOf formBytes fdisc] in *.
  - apply reads_when. unfold fieldsOk, tailBytes in *. destruct b; cbn [fields discriminator] in *; layout_norm.
    all: try (by step_reads; first [layout_done | by unfold sizedBytes; rewrite ?app_nil_r]).
    + eapply reads_codec; [apply _| |done|reflexivity]. eapply reads_bind; [apply readFlag_full|apply reads_ret|done].
    + eapply reads_bind; [apply readFlag_full|apply reads_ret|done].
    + eapply reads_bind; [apply readFlag_full|apply reads_ret|done].
  - destruct Hs as [dflt Hs]. unfold fieldsOk in Hv. unfold formTail.
    destruct b as [| |n [|]|[|]| |[|]| |]; try done; cbn [fields discriminator] in *; layout_norm.
    + eapply readsWhen_bind; [by apply codec_reads| |by rewrite app_nil_r].
      eapply readsWhen_map, readFlag_short.
    + eapply readsWhen_map, readFlag_short.
    + eapply readsWhen_map, readFlag_short.
Qed.

Lemma loaderV3_parses typ :
  parsesR (decodeBody typ) (λ b bs rest, ∃ w, b = valOf w ∧ fdisc w = typ ∧ formOk w ∧ bs = formBytes w ∧ formTail w rest).
Proof.
  assert (∀ m : GoM Decoder loader_err body,
    parses m (λ b bs, discriminator b = typ ∧ fieldsOk fields b ∧ bs = tailBytes fields b) →
    parsesR m (λ b bs rest, ∃ w, b = valOf w ∧ fdisc w = typ ∧ formOk w ∧ bs = formBytes w ∧ formTail w rest)) as Hfull.
  { intros m Hm. eapply parses_rest; [exact Hm|]. intros b bs rest (? & ? & ->). by exists (Full b). }
  unfold decodeBody. repeat case_decide; subst;
    try (apply Hfull; step_parses; intros; (split; [reflexivity|]); unfold fieldsOk, tailBytes, sizedBytes, sized_ok in *;
      cbn [fields]; layout_done).
  - eapply parsesR_codec; [apply _|]. intros n. apply readFlag_parses.
    + intros b rest Hn. exists (Full (DeployWithMaxDataLen n b)). split_and!; [done|done| |by destruct b|done].
      split; [|done]. unfold fieldsOk. cbn [valOf fields]. by rewrite !Forall_cons, Forall_nil.
    + intros Hn. exists (Short (DeployWithMaxDataLen n true)). split_and!; [done|done| |apply app_nil_r|done].
      split; [|done]. unfold fieldsOk. cbn [valOf fields]. by rewrite !Forall_cons, Forall_nil.
  - apply readFlag_parses; [intros b rest; exists (Full (Upgrade b))|exists (Short (Upgrade true))];
      (split_and!; [done|done|split; [by repeat constructor|done]|first [done | by destruct b]|done]).
  - apply readFlag_parses; [intros b rest; exists (Full (Close b))|exists (Short (Close false))];
      (split_and!; [done|done|split; [by repeat constructor|done]|first [done | by destruct b]|done]).
  - intros d Hd. by apply wp_throw.
Qed.

#[global] Instance loaderV3_body : FormCodec decodeBody fdisc formBytes valOf formOk formTail.
Proof. split; [apply loaderV3_reads|apply loaderV3_parses]. Qed.

(** * Properties *)

(** Loader v3 instructions: every instruction encodes and, whatever follows
    its data, decodes to itself with the accounts given to the decoder.
    Conversely decoding never panics, and an accepted instruction re-encodes to
    the bytes it was decoded from, or to those bytes and one more: its flag, left
    out of the data because it has the default. *)
Lemma loaderV3_instruction_codec accounts b data rest :
  Forall value_ok (fields b) → bytes_ok rest → bytes_ok data →
  (∃ bs, Data b = Ok bs ∧ DecodeInstruction accounts (bs ++ rest) = Ok (mkLoader accounts b)) ∧
  match DecodeInstruction accounts data with
  | Ok i => i_accounts i = accounts ∧ ∃ bs, Data (i_body i) = Ok bs ∧
      ((∃ tl, data = bs ++ tl) ∨ (∃ flag, defaultFlag (i_body i) = Some flag ∧ bs = data ++ boolByte flag))
  | Err _ => True
  | Panic => False
  end.
Proof.
  intros Hv Hr Hd. split.
  - exists (wireOf b). split; [by apply loaderV3_data|]. rewrite loaderV3_wire.
    apply (tagged_form ReadUint32 _ _ decodeBody fdisc formBytes valOf formOk formTail errLoaderType
      errLoaderDecode (λ _ _, None) (mkLoader accounts) (Full b)); [by destruct b|by split|done|done].
  - pose proof (tagged_accepts ReadUint32 _ _ decodeBody fdisc formBytes valOf formOk formTail errLoaderType
      errLoaderDecode (λ _ _, None) (mkLoader accounts) data Hd) as H.
    change (runDecoder _ data) with (DecodeInstruction accounts data) in H.
    destruct (DecodeInstruction accounts data) as [i|e|]; [|done..].
    destruct H as (w & tl & -> & _ & [Hw Hs] & _ & -> & _ & Ht). split; [done|].
    exists (wireOf (valOf w)). split; [by apply loaderV3_data|]. rewrite loaderV3_wire.
    destruct w as [b'|b']; [left; by exists tl|right]. cbn [formTail valOf] in *. subst tl. destruct Hs as [flag Hs].
    exists flag. split; [done|]. rewrite app_nil_r.
    destruct b' as [| |n [|]|[|]| |[|]| |]; try done; injection Hs as <-; cbn; by rewrite ?app_nil_r.
Qed.
