(* ===== verification/Vote.v ===== *)
(** Vote: the Vote Program's codec (programs/vote): the argument structs with
    their write and decode methods, among them the compact form of a vote state
    (slots as varint deltas), the twenty instructions with their constructors
    and account roles, the encoders and [DecodeInstruction]. *)
From Stdlib Require Import ZArith Lia.
From stdpp Require Import base numbers list.
From S2P Require Import Prelude Shortvec Keys ProgramIds Wire Program.

Open Scope Z_scope.
Open Scope wire_scope.

Definition ProgramID : PublicKey := VoteProgramID.

(** Discriminators, in [iota] order. *)
Definition InitializeAccountInstruction : Z := 0.
Definition AuthorizeInstruction : Z := 1.
Definition VoteInstruction : Z := 2.
Definition WithdrawInstruction : Z := 3.
Definition UpdateValidatorIdentityInstruction : Z := 4.
Definition UpdateCommissionInstruction : Z := 5.
Definition VoteSwitchInstruction : Z := 6.
Definition AuthorizeCheckedInstruction : Z := 7.
Definition UpdateVoteStateInstruction : Z := 8.
Definition UpdateVoteStateSwitchInstruction : Z := 9.
Definition AuthorizeWithSeedInstruction : Z := 10.
Definition AuthorizeCheckedWithSeedInstruction : Z := 11.
Definition CompactUpdateVoteStateInstruction : Z := 12.
Definition CompactUpdateVoteStateSwitchInstruction : Z := 13.
Definition TowerSyncInstruction : Z := 14.
Definition TowerSyncSwitchInstruction : Z := 15.
Definition InitializeAccountV2Instruction : Z := 16.
Definition UpdateCommissionCollectorInstruction : Z := 17.
Definition UpdateCommissionBpsInstruction : Z := 18.
Definition DepositDelegatorRewardsInstruction : Z := 19.

Definition MaxLockoutHistory : Z := 31.
Definition BLSPublicKeyCompressedSize : Z := 48.
Definition BLSProofOfPossessionCompressedSize : Z := 96.
Definition VoteAuthorizeVoter : Z := 0.
Definition VoteAuthorizeWithdrawer : Z := 1.
Definition VoteAuthorizeVoterWithBLS : Z := 2.
Definition CommissionKindInflationRewards : Z := 0.
Definition CommissionKindBlockRevenue : Z := 1.
Definition MaxUint64 : Z := 18446744073709551615.
Definition MaxSeedLength : Z := 32.

Inductive vote_err :=
  | ErrInvalidVoteAuthorize (kind : Z)
  | errBLSMissing
  | ErrInvalidCommissionKind (kind : Z)
  | ErrTooManyLockouts (n : Z)
  | ErrInvalidConfirmationCount (n : Z)
  | ErrSlotOverflow
  | ErrInvalidLockoutOrder (slot previous : Z)
  | ErrMaxSeedLengthExceeded
  | errTruncated
  | errWire (r : recorded)
  | errVoteType (r : recorded)
  | ErrUnknownInstruction (typ : Z)
  | errVoteDecode (typ : Z) (e : vote_err).

(** * Argument structs *)

Record VoteAuthorize := mkVoteAuthorize {
  Kind : Z;
  BLSPubkey : option bytes;
  BLSProofOfPossession : option bytes;
}.
Record VoteInit := mkVoteInit {
  NodePubkey : PublicKey; AuthorizedVoter : PublicKey; AuthorizedWithdrawer : PublicKey; Commission : Z;
}.
Record VoteInitV2 := mkVoteInitV2 {
  NodePubkeyV2 : PublicKey;
  AuthorizedVoterV2 : PublicKey;
  AuthorizedVoterBLSPubkey : bytes;
  AuthorizedVoterBLSProofOfPossession : bytes;
  AuthorizedWithdrawerV2 : PublicKey;
  InflationRewardsCommissionBps : Z;
  BlockRevenueCommissionBps : Z;
}.
Record Lockout := mkLockout { Slot : Z; ConfirmationCount : Z }.
Record voteData := mkVoteData { vd_Slots : list Z; vd_Hash : Hash; vd_Timestamp : option Z }.
Record VoteStateUpdate := mkVoteStateUpdate {
  Lockouts : list Lockout; Root : option Z; HashOf : Hash; Timestamp : option Z;
}.
Record TowerSyncUpdate := mkTowerSyncUpdate {
  ts_Lockouts : list Lockout; ts_Root : option Z; ts_Hash : Hash; ts_Timestamp : option Z; ts_BlockID : Hash;
}.
Record VoteAuthorizeWithSeedArgs := mkAuthorizeWithSeedArgs {
  ws_AuthorizationType : VoteAuthorize; ws_Owner : PublicKey; ws_Seed : bytes; ws_NewAuthority : PublicKey;
}.
Record VoteAuthorizeCheckedWithSeedArgs := mkAuthorizeCheckedWithSeedArgs {
  wc_AuthorizationType : VoteAuthorize; wc_Owner : PublicKey; wc_Seed : bytes;
}.

(** ** Writing: a method that can fail returns the encoder or the error *)

(** [return enc.Err()]. *)
Definition writeErr (e : Encoder) : outcome vote_err Encoder :=
  match EncErr e with
  | (None, e) => Ok e
  | (Some r, _) => Err (errWire r)
  end.

Definition write_VoteAuthorize (value : VoteAuthorize) (enc : Encoder) : outcome vote_err Encoder :=
  if decide (VoteAuthorizeVoterWithBLS < Kind value) then Err (ErrInvalidVoteAuthorize (Kind value)) else
  let enc := WriteUint32 (Kind value) enc in
  if decide (Kind value = VoteAuthorizeVoterWithBLS) then
    match BLSPubkey value, BLSProofOfPossession value with
    | Some key, Some proof => writeErr (enc ▷ WriteBytes key ▷ WriteBytes proof)
    | _, _ => Err errBLSMissing
    end
  else writeErr enc.

(** [CommissionKind.validate]. *)
Definition validateKind (kind : Z) : outcome vote_err unit :=
  if decide (CommissionKindBlockRevenue < kind) then Err (ErrInvalidCommissionKind kind) else Ok tt.

Definition write_VoteInit (value : VoteInit) (enc : Encoder) : Encoder :=
  enc ▷ WritePublicKey (NodePubkey value) ▷ WritePublicKey (AuthorizedVoter value)
      ▷ WritePublicKey (AuthorizedWithdrawer value) ▷ WriteUint8 (Commission value).

Definition write_VoteInitV2 (value : VoteInitV2) (enc : Encoder) : Encoder :=
  enc ▷ WritePublicKey (NodePubkeyV2 value) ▷ WritePublicKey (AuthorizedVoterV2 value)
      ▷ WriteBytes (AuthorizedVoterBLSPubkey value) ▷ WriteBytes (AuthorizedVoterBLSProofOfPossession value)
      ▷ WritePublicKey (AuthorizedWithdrawerV2 value) ▷ WriteUint16 (InflationRewardsCommissionBps value)
      ▷ WriteUint16 (BlockRevenueCommissionBps value).

Definition write_voteData (vote : voteData) (enc : Encoder) : outcome vote_err Encoder :=
  if decide (MaxLockoutHistory < len (vd_Slots vote)) then Err (ErrTooManyLockouts (len (vd_Slots vote))) else
  let enc := WriteUint64 (u64 (len (vd_Slots vote))) enc in
  let enc := foldl (λ enc slot, WriteUint64 slot enc) enc (vd_Slots vote) in
  writeErr (enc ▷ WriteHash (vd_Hash vote) ▷ writeOpt WriteInt64 (vd_Timestamp vote)).

Definition validate (update : VoteStateUpdate) : outcome vote_err unit :=
  if decide (MaxLockoutHistory < len (Lockouts update)) then Err (ErrTooManyLockouts (len (Lockouts update))) else Ok tt.

Definition write_VoteStateUpdate (update : VoteStateUpdate) (enc : Encoder) : outcome vote_err Encoder :=
  _ ← validate update;
  let enc := WriteUint64 (u64 (len (Lockouts update))) enc in
  let enc := foldl (λ enc l, enc ▷ WriteUint64 (Slot l) ▷ WriteUint32 (ConfirmationCount l)) enc (Lockouts update) in
  writeErr (enc ▷ writeOpt WriteUint64 (Root update) ▷ WriteHash (HashOf update)
                ▷ writeOpt WriteInt64 (Timestamp update)).

(** The loop of [writeCompact]: slots as deltas from the one before. *)
Fixpoint writeDeltas (previous : Z) (lockouts : list Lockout) (enc : Encoder) : outcome vote_err Encoder :=
  match lockouts with
  | [] => Ok enc
  | l :: rest =>
    if decide (Slot l < previous) then Err (ErrInvalidLockoutOrder (Slot l) previous) else
    let delta := Slot l - previous in
    if decide (255 < ConfirmationCount l) then Err (ErrInvalidConfirmationCount (ConfirmationCount l)) else
    writeDeltas (Slot l) rest (enc ▷ WriteVarUint64 delta ▷ WriteUint8 (u8 (ConfirmationCount l)))
  end.

Definition writeCompact (update : VoteStateUpdate) (enc : Encoder) : outcome vote_err Encoder :=
  _ ← validate update;
  let root := match Root update with Some r => r | None => MaxUint64 end in
  let enc := enc ▷ WriteUint64 root ▷ WriteCompactU16 (len (Lockouts update)) in
  let previous := match Root update with Some r => r | None => 0 end in
  enc ← writeDeltas previous (Lockouts update) enc;
  writeErr (enc ▷ WriteHash (HashOf update) ▷ writeOpt WriteInt64 (Timestamp update)).

Definition write_TowerSyncUpdate (sync : TowerSyncUpdate) (enc : Encoder) : outcome vote_err Encoder :=
  enc ← writeCompact (mkVoteStateUpdate (ts_Lockouts sync) (ts_Root sync) (ts_Hash sync) (ts_Timestamp sync)) enc;
  writeErr (WriteHash (ts_BlockID sync) enc).

Definition write_AuthorizeWithSeedArgs (value : VoteAuthorizeWithSeedArgs) (enc : Encoder) : outcome vote_err Encoder :=
  enc ← write_VoteAuthorize (ws_AuthorizationType value) enc;
  writeErr (enc ▷ WritePublicKey (ws_Owner value) ▷ WriteBincodeString (ws_Seed value)
                ▷ WritePublicKey (ws_NewAuthority value)).

Definition write_AuthorizeCheckedWithSeedArgs (value : VoteAuthorizeCheckedWithSeedArgs) (enc : Encoder)
    : outcome vote_err Encoder :=
  enc ← write_VoteAuthorize (wc_AuthorizationType value) enc;
  writeErr (enc ▷ WritePublicKey (wc_Owner value) ▷ WriteBincodeString (wc_Seed value)).

(** ** Decoding: a method returns the error of the first check that fails *)

Abbreviation Dec := (GoM Decoder vote_err) (only parsing).

(** [return dec.Err()] and [if err := dec.Err(); err != nil { return err }]. *)
Definition wireErr : Dec unit := checkErr errWire.

(** [copy(x[:], dec.ReadBytes(n))] into a zero array. *)
Definition readFixed {E} (n : Z) : GoM Decoder E bytes :=
  x ← ReadBytes n; mret (copy_into (zeros (Z.to_nat n)) x).

Definition decode_VoteAuthorize : Dec VoteAuthorize :=
  kind ← ReadUint32;
  _ ← wireErr;
  if decide (kind = VoteAuthorizeVoter ∨ kind = VoteAuthorizeWithdrawer) then mret (mkVoteAuthorize kind None None)
  else if decide (kind = VoteAuthorizeVoterWithBLS) then
    key ← readFixed BLSPublicKeyCompressedSize;
    proof ← readFixed BLSProofOfPossessionCompressedSize;
    _ ← wireErr;
    mret (mkVoteAuthorize kind (Some key) (Some proof))
  else throw (ErrInvalidVoteAuthorize kind).

Definition decode_VoteInit : Dec VoteInit :=
  n ← ReadPublicKey; v ← ReadPublicKey; w ← ReadPublicKey; c ← ReadUint8; mret (mkVoteInit n v w c).

Definition decode_VoteInitV2 : Dec VoteInitV2 :=
  n ← ReadPublicKey; v ← ReadPublicKey;
  key ← readFixed BLSPublicKeyCompressedSize; proof ← readFixed BLSProofOfPossessionCompressedSize;
  w ← ReadPublicKey; i ← ReadUint16; b ← ReadUint16;
  mret (mkVoteInitV2 n v key proof w i b).

(** The length guards compare in uint64 or int; both sides are small. *)
Definition decode_voteData : Dec voteData :=
  count ← ReadUint64;
  _ ← wireErr;
  if decide (MaxLockoutHistory < count) then throw (ErrTooManyLockouts count) else
  _ ← needs (count * 8 + 33) errTruncated;
  slots ← readN (Z.to_nat count) ReadUint64;
  hash ← ReadHash;
  timestamp ← readOpt ReadInt64;
  _ ← wireErr;
  mret (mkVoteData slots hash timestamp).

Definition readLockout : Dec Lockout := s ← ReadUint64; c ← ReadUint32; mret (mkLockout s c).

Definition decode_VoteStateUpdate : Dec VoteStateUpdate :=
  count ← ReadUint64;
  _ ← wireErr;
  if decide (MaxLockoutHistory < count) then throw (ErrTooManyLockouts count) else
  _ ← needs (count * 12 + 34) errTruncated;
  lockouts ← readN (Z.to_nat count) readLockout;
  root ← readOpt ReadUint64;
  hash ← ReadHash;
  timestamp ← readOpt ReadInt64;
  _ ← wireErr;
  mret (mkVoteStateUpdate lockouts root hash timestamp).

(** The loop of [decodeCompact]. *)
Fixpoint readDeltas (n : nat) (previous : Z) : Dec (list Lockout) :=
  match n with
  | O => mret []
  | S n' =>
    delta ← ReadVarUint64;
    confirmation ← ReadUint8;
    _ ← wireErr;
    if decide (MaxUint64 - previous < delta) then throw ErrSlotOverflow else
    rest ← readDeltas n' (previous + delta);
    mret (mkLockout (previous + delta) confirmation :: rest)
  end.

Definition decodeCompact : Dec VoteStateUpdate :=
  root ← ReadUint64;
  count ← ReadCompactU16;
  _ ← wireErr;
  if decide (MaxLockoutHistory < count) then throw (ErrTooManyLockouts count) else
  _ ← needs (count * 2 + 33) errTruncated;
  let Root := if decide (root ≠ MaxUint64) then Some root else None in
  let previous := match Root with Some r => r | None => 0 end in
  lockouts ← readDeltas (Z.to_nat count) previous;
  hash ← ReadHash;
  timestamp ← readOpt ReadInt64;
  _ ← wireErr;
  mret (mkVoteStateUpdate lockouts Root hash timestamp).

Definition decode_TowerSyncUpdate : Dec TowerSyncUpdate :=
  update ← decodeCompact;
  blockID ← ReadHash;
  _ ← wireErr;
  mret (mkTowerSyncUpdate (Lockouts update) (Root update) (HashOf update) (Timestamp update) blockID).

Definition decode_AuthorizeWithSeedArgs : Dec VoteAuthorizeWithSeedArgs :=
  a ← decode_VoteAuthorize; o ← ReadPublicKey; s ← ReadBincodeString; k ← ReadPublicKey;
  _ ← wireErr;
  mret (mkAuthorizeWithSeedArgs a o s k).

Definition decode_AuthorizeCheckedWithSeedArgs : Dec VoteAuthorizeCheckedWithSeedArgs :=
  a ← decode_VoteAuthorize; o ← ReadPublicKey; s ← ReadBincodeString;
  _ ← wireErr;
  mret (mkAuthorizeCheckedWithSeedArgs a o s).

(** * Instructions *)

Inductive body :=
  | InitializeAccount (init : VoteInit)
  | Authorize (NewAuthority : PublicKey) (AuthorizationType : VoteAuthorize)
  | Vote (Slots : list Z) (VoteHash : Hash) (timestamp : option Z)
  | Withdraw (Lamports : Z)
  | UpdateValidatorIdentity
  | UpdateCommission (commission : Z)
  | VoteSwitch (Slots : list Z) (VoteHash : Hash) (timestamp : option Z) (ProofHash : Hash)
  | AuthorizeChecked (AuthorizationType : VoteAuthorize)
  | UpdateVoteState (update : VoteStateUpdate)
  | UpdateVoteStateSwitch (update : VoteStateUpdate) (ProofHash : Hash)
  | AuthorizeWithSeed (args : VoteAuthorizeWithSeedArgs)
  | AuthorizeCheckedWithSeed (args : VoteAuthorizeCheckedWithSeedArgs)
  | CompactUpdateVoteState (update : VoteStateUpdate)
  | CompactUpdateVoteStateSwitch (update : VoteStateUpdate) (ProofHash : Hash)
  | TowerSync (sync : TowerSyncUpdate)
  | TowerSyncSwitch (sync : TowerSyncUpdate) (ProofHash : Hash)
  | InitializeAccountV2 (init : VoteInitV2)
  | UpdateCommissionCollector (kind : Z)
  | UpdateCommissionBps (CommissionBps kind : Z)
  | DepositDelegatorRewards (Deposit : Z).

Record VoteInstr := mkVote { v_accounts : AccountMetaSlice; v_body : body }.

(** ** Constructors *)

(** Most instructions name the vote account and one signer. *)
Definition voteAccounts (voteAccount authority : PublicKey) : AccountMetaSlice :=
  [NewAccountMeta voteAccount true false; NewAccountMeta authority false true].

Definition NewInitializeAccountInstruction (nodePubkey authorizedVoter authorizedWithdrawer : PublicKey) (commission : Z)
    (voteAccount : PublicKey) :=
  mkVote [NewAccountMeta voteAccount true false; NewAccountMeta SysVarRentPubkey false false;
          NewAccountMeta SysVarClockPubkey false false; NewAccountMeta nodePubkey false true]
    (InitializeAccount (mkVoteInit nodePubkey authorizedVoter authorizedWithdrawer commission)).
Definition NewAuthorizeInstruction (newAuthority : PublicKey) (authorizationType : VoteAuthorize)
    (voteAccount currentAuthority : PublicKey) :=
  mkVote [NewAccountMeta voteAccount true false; NewAccountMeta SysVarClockPubkey false false;
          NewAccountMeta currentAuthority false true] (Authorize newAuthority authorizationType).
Definition NewVoteInstruction (slots : list Z) (hash : Hash) (timestamp : option Z) (voteAccount voteAuthority : PublicKey) :=
  mkVote [NewAccountMeta voteAccount true false; NewAccountMeta SysVarSlotHashesPubkey false false;
          NewAccountMeta SysVarClockPubkey false false; NewAccountMeta voteAuthority false true]
    (Vote slots hash timestamp).
Definition NewWithdrawInstruction (lamports : Z) (voteAccount recipientAccount withdrawAuthority : PublicKey) :=
  mkVote [NewAccountMeta voteAccount true false; NewAccountMeta recipientAccount true false;
          NewAccountMeta withdrawAuthority false true] (Withdraw lamports).
Definition NewUpdateValidatorIdentityInstruction (voteAccount newIdentity withdrawAuthority : PublicKey) :=
  mkVote [NewAccountMeta voteAccount true false; NewAccountMeta newIdentity false true;
          NewAccountMeta withdrawAuthority false true] UpdateValidatorIdentity.
Definition NewUpdateCommissionInstruction (commission : Z) (voteAccount withdrawAuthority : PublicKey) :=
  mkVote (voteAccounts voteAccount withdrawAuthority) (UpdateCommission commission).
Definition NewVoteSwitchInstruction (slots : list Z) (voteHash : Hash) (timestamp : option Z) (proofHash : Hash)
    (voteAccount voteAuthority : PublicKey) :=
  mkVote [NewAccountMeta voteAccount true false; NewAccountMeta SysVarSlotHashesPubkey false false;
          NewAccountMeta SysVarClockPubkey false false; NewAccountMeta voteAuthority false true]
    (VoteSwitch slots voteHash timestamp proofHash).
Definition NewAuthorizeCheckedInstruction (authorizationType : VoteAuthorize)
    (voteAccount currentAuthority newAuthority : PublicKey) :=
  mkVote [NewAccountMeta voteAccount true false; NewAccountMeta SysVarClockPubkey false false;
          NewAccountMeta currentAuthority false true; NewAccountMeta newAuthority false true]
    (AuthorizeChecked authorizationType).
Definition NewUpdateVoteStateInstruction (update : VoteStateUpdate) (voteAccount voteAuthority : PublicKey) :=
  mkVote (voteAccounts voteAccount voteAuthority) (UpdateVoteState update).
Definition NewUpdateVoteStateSwitchInstruction (update : VoteStateUpdate) (proofHash : Hash)
    (voteAccount voteAuthority : PublicKey) :=
  mkVote (voteAccounts voteAccount voteAuthority) (UpdateVoteStateSwitch update proofHash).
Definition NewAuthorizeWithSeedInstruction (args : VoteAuthorizeWithSeedArgs) (voteAccount authorityBase : PublicKey)
    : outcome vote_err VoteInstr :=
  if decide (MaxSeedLength < len (ws_Seed args)) then Err ErrMaxSeedLengthExceeded else
  Ok (mkVote [NewAccountMeta voteAccount true false; NewAccountMeta SysVarClockPubkey false false;
              NewAccountMeta authorityBase false true] (AuthorizeWithSeed args)).
Definition NewAuthorizeCheckedWithSeedInstruction (args : VoteAuthorizeCheckedWithSeedArgs)
    (voteAccount authorityBase newAuthority : PublicKey) : outcome vote_err VoteInstr :=
  if decide (MaxSeedLength < len (wc_Seed args)) then Err ErrMaxSeedLengthExceeded else
  Ok (mkVote [NewAccountMeta voteAccount true false; NewAccountMeta SysVarClockPubkey false false;
              NewAccountMeta authorityBase false true; NewAccountMeta newAuthority false true]
        (AuthorizeCheckedWithSeed args)).
Definition NewCompactUpdateVoteStateInstruction (update : VoteStateUpdate) (voteAccount voteAuthority : PublicKey) :=
  mkVote (voteAccounts voteAccount voteAuthority) (CompactUpdateVoteState update).
Definition NewCompactUpdateVoteStateSwitchInstruction (update : VoteStateUpdate) (proofHash : Hash)
    (voteAccount voteAuthority : PublicKey) :=
  mkVote (voteAccounts voteAccount voteAuthority) (CompactUpdateVoteStateSwitch update proofHash).
Definition NewTowerSyncInstruction (sync : TowerSyncUpdate) (voteAccount voteAuthority : PublicKey) :=
  mkVote (voteAccounts voteAccount voteAuthority) (TowerSync sync).
Definition NewTowerSyncSwitchInstruction (sync : TowerSyncUpdate) (proofHash : Hash)
    (voteAccount voteAuthority : PublicKey) :=
  mkVote (voteAccounts voteAccount voteAuthority) (TowerSyncSwitch sync proofHash).
Definition NewInitializeAccountV2Instruction (voteInit : VoteInitV2)
    (voteAccount inflationRewardsCollector blockRevenueCollector : PublicKey) :=
  mkVote [NewAccountMeta voteAccount true false; NewAccountMeta (NodePubkeyV2 voteInit) false true;
          NewAccountMeta inflationRewardsCollector true false; NewAccountMeta blockRevenueCollector true false]
    (InitializeAccountV2 voteInit).
Definition NewUpdateCommissionCollectorInstruction (kind : Z) (voteAccount newCollector withdrawAuthority : PublicKey) :=
  mkVote [NewAccountMeta voteAccount true false; NewAccountMeta newCollector true false;
          NewAccountMeta withdrawAuthority false true] (UpdateCommissionCollector kind).
Definition NewUpdateCommissionBpsInstruction (commissionBps kind : Z) (voteAccount withdrawAuthority : PublicKey) :=
  mkVote (voteAccounts voteAccount withdrawAuthority) (UpdateCommissionBps commissionBps kind).
Definition NewDepositDelegatorRewardsInstruction (deposit : Z) (voteAccount depositor : PublicKey) :=
  mkVote [NewAccountMeta voteAccount true false; NewAccountMeta depositor true true] (DepositDelegatorRewards deposit).

(** ** The [Data] methods *)

(** [return enc.Bytes(), enc.Err()]. *)
Definition encoded (e : Encoder) : outcome vote_err bytes := finish errWire e.

Definition Data_InitializeAccount (init : VoteInit) : outcome vote_err bytes :=
  encoded (NewEncoder [] ▷ WriteUint32 InitializeAccountInstruction ▷ write_VoteInit init).
Definition Data_Authorize (NewAuthority : PublicKey) (AuthorizationType : VoteAuthorize) : outcome vote_err bytes :=
  enc ← write_VoteAuthorize AuthorizationType
          (NewEncoder [] ▷ WriteUint32 AuthorizeInstruction ▷ WritePublicKey NewAuthority);
  encoded enc.
Definition Data_Vote (Slots : list Z) (hash : Hash) (timestamp : option Z) : outcome vote_err bytes :=
  enc ← write_voteData (mkVoteData Slots hash timestamp) (NewEncoder [] ▷ WriteUint32 VoteInstruction);
  encoded enc.
Definition Data_Withdraw (Lamports : Z) : outcome vote_err bytes :=
  encoded (NewEncoder [] ▷ WriteUint32 WithdrawInstruction ▷ WriteUint64 Lamports).
Definition Data_UpdateValidatorIdentity : outcome vote_err bytes := Ok [u8 UpdateValidatorIdentityInstruction; 0; 0; 0].
Definition Data_UpdateCommission (commission : Z) : outcome vote_err bytes :=
  encoded (NewEncoder [] ▷ WriteUint32 UpdateCommissionInstruction ▷ WriteUint8 commission).
Definition Data_VoteSwitch (Slots : list Z) (hash : Hash) (timestamp : option Z) (ProofHash : Hash) : outcome vote_err bytes :=
  enc ← write_voteData (mkVoteData Slots hash timestamp) (NewEncoder [] ▷ WriteUint32 VoteSwitchInstruction);
  encoded (WriteHash ProofHash enc).
Definition Data_AuthorizeChecked (AuthorizationType : VoteAuthorize) : outcome vote_err bytes :=
  enc ← write_VoteAuthorize AuthorizationType (NewEncoder [] ▷ WriteUint32 AuthorizeCheckedInstruction);
  encoded enc.
Definition Data_UpdateVoteState (update : VoteStateUpdate) : outcome vote_err bytes :=
  enc ← write_VoteStateUpdate update (NewEncoder [] ▷ WriteUint32 UpdateVoteStateInstruction);
  encoded enc.
Definition Data_UpdateVoteStateSwitch (update : VoteStateUpdate) (ProofHash : Hash) : outcome vote_err bytes :=
  enc ← write_VoteStateUpdate update (NewEncoder [] ▷ WriteUint32 UpdateVoteStateSwitchInstruction);
  encoded (WriteHash ProofHash enc).
Definition Data_AuthorizeWithSeed (args : VoteAuthorizeWithSeedArgs) : outcome vote_err bytes :=
  if decide (MaxSeedLength < len (ws_Seed args)) then Err ErrMaxSeedLengthExceeded else
  enc ← write_AuthorizeWithSeedArgs args (NewEncoder [] ▷ WriteUint32 AuthorizeWithSeedInstruction);
  encoded enc.
Definition Data_AuthorizeCheckedWithSeed (args : VoteAuthorizeCheckedWithSeedArgs) : outcome vote_err bytes :=
  if decide (MaxSeedLength < len (wc_Seed args)) then Err ErrMaxSeedLengthExceeded else
  enc ← write_AuthorizeCheckedWithSeedArgs args (NewEncoder [] ▷ WriteUint32 AuthorizeCheckedWithSeedInstruction);
  encoded enc.
Definition Data_CompactUpdateVoteState (update : VoteStateUpdate) : outcome vote_err bytes :=
  enc ← writeCompact update (NewEncoder [] ▷ WriteUint32 CompactUpdateVoteStateInstruction);
  encoded enc.
Definition Data_CompactUpdateVoteStateSwitch (update : VoteStateUpdate) (ProofHash : Hash) : outcome vote_err bytes :=
  enc ← writeCompact update (NewEncoder [] ▷ WriteUint32 CompactUpdateVoteStateSwitchInstruction);
  encoded (WriteHash ProofHash enc).
Definition Data_TowerSync (sync : TowerSyncUpdate) : outcome vote_err bytes :=
  enc ← write_TowerSyncUpdate sync (NewEncoder [] ▷ WriteUint32 TowerSyncInstruction);
  encoded enc.
Definition Data_TowerSyncSwitch (sync : TowerSyncUpdate) (ProofHash : Hash) : outcome vote_err bytes :=
  enc ← write_TowerSyncUpdate sync (NewEncoder [] ▷ WriteUint32 TowerSyncSwitchInstruction);
  encoded (WriteHash ProofHash enc).
Definition Data_InitializeAccountV2 (init : VoteInitV2) : outcome vote_err bytes :=
  encoded (NewEncoder [] ▷ WriteUint32 InitializeAccountV2Instruction ▷ write_VoteInitV2 init).
Definition Data_UpdateCommissionCollector (kind : Z) : outcome vote_err bytes :=
  _ ← validateKind kind;
  encoded (NewEncoder [] ▷ WriteUint32 UpdateCommissionCollectorInstruction ▷ WriteUint32 kind).
Definition Data_UpdateCommissionBps (CommissionBps kind : Z) : outcome vote_err bytes :=
  _ ← validateKind kind;
  encoded (NewEncoder [] ▷ WriteUint32 UpdateCommissionBpsInstruction ▷ WriteUint16 CommissionBps ▷ WriteUint32 kind).
Definition Data_DepositDelegatorRewards (Deposit : Z) : outcome vote_err bytes :=
  encoded (NewEncoder [] ▷ WriteUint32 DepositDelegatorRewardsInstruction ▷ WriteUint64 Deposit).

Definition Data (b : body) : outcome vote_err bytes :=
  match b with
  | InitializeAccount i => Data_InitializeAccount i
  | Authorize k a => Data_Authorize k a
  | Vote s h t => Data_Vote s h t
  | Withdraw l => Data_Withdraw l
  | UpdateValidatorIdentity => Data_UpdateValidatorIdentity
  | UpdateCommission c => Data_UpdateCommission c
  | VoteSwitch s h t p => Data_VoteSwitch s h t p
  | AuthorizeChecked a => Data_AuthorizeChecked a
  | UpdateVoteState u => Data_UpdateVoteState u
  | UpdateVoteStateSwitch u p => Data_UpdateVoteStateSwitch u p
  | AuthorizeWithSeed a => Data_AuthorizeWithSeed a
  | AuthorizeCheckedWithSeed a => Data_AuthorizeCheckedWithSeed a
  | CompactUpdateVoteState u => Data_CompactUpdateVoteState u
  | CompactUpdateVoteStateSwitch u p => Data_CompactUpdateVoteStateSwitch u p
  | TowerSync s => Data_TowerSync s
  | TowerSyncSwitch s p => Data_TowerSyncSwitch s p
  | InitializeAccountV2 i => Data_InitializeAccountV2 i
  | UpdateCommissionCollector k => Data_UpdateCommissionCollector k
  | UpdateCommissionBps c k => Data_UpdateCommissionBps c k
  | DepositDelegatorRewards d => Data_DepositDelegatorRewards d
  end.

(** ** Decoding *)

(** [raw := dec.ReadUint32(); if raw > CommissionKindBlockRevenue { err = ... }]. *)
Definition readKind1 : Dec Z :=
  raw ← ReadUint32;
  if decide (CommissionKindBlockRevenue < raw) then throw (ErrInvalidCommissionKind raw) else mret raw.

(** The [switch] of [DecodeInstruction]. *)
Definition decodeCase (typ : Z) : Dec body :=
  if decide (typ = InitializeAccountInstruction) then i ← decode_VoteInit; mret (InitializeAccount i)
  else if decide (typ = AuthorizeInstruction) then k ← ReadPublicKey; a ← decode_VoteAuthorize; mret (Authorize k a)
  else if decide (typ = VoteInstruction) then
    v ← decode_voteData; mret (Vote (vd_Slots v) (vd_Hash v) (vd_Timestamp v))
  else if decide (typ = WithdrawInstruction) then l ← ReadUint64; mret (Withdraw l)
  else if decide (typ = UpdateValidatorIdentityInstruction) then mret UpdateValidatorIdentity
  else if decide (typ = UpdateCommissionInstruction) then c ← ReadUint8; mret (UpdateCommission c)
  else if decide (typ = VoteSwitchInstruction) then
    v ← decode_voteData; p ← ReadHash; mret (VoteSwitch (vd_Slots v) (vd_Hash v) (vd_Timestamp v) p)
  else if decide (typ = AuthorizeCheckedInstruction) then a ← decode_VoteAuthorize; mret (AuthorizeChecked a)
  else if decide (typ = UpdateVoteStateInstruction) then u ← decode_VoteStateUpdate; mret (UpdateVoteState u)
  else if decide (typ = UpdateVoteStateSwitchInstruction) then
    u ← decode_VoteStateUpdate; p ← ReadHash; mret (UpdateVoteStateSwitch u p)
  else if decide (typ = AuthorizeWithSeedInstruction) then
    a ← decode_AuthorizeWithSeedArgs; mret (AuthorizeWithSeed a)
  else if decide (typ = AuthorizeCheckedWithSeedInstruction) then
    a ← decode_AuthorizeCheckedWithSeedArgs; mret (AuthorizeCheckedWithSeed a)
  else if decide (typ = CompactUpdateVoteStateInstruction) then u ← decodeCompact; mret (CompactUpdateVoteState u)
  else if decide (typ = CompactUpdateVoteStateSwitchInstruction) then
    u ← decodeCompact; p ← ReadHash; mret (CompactUpdateVoteStateSwitch u p)
  else if decide (typ = TowerSyncInstruction) then s ← decode_TowerSyncUpdate; mret (TowerSync s)
  else if decide (typ = TowerSyncSwitchInstruction) then
    s ← decode_TowerSyncUpdate; p ← ReadHash; mret (TowerSyncSwitch s p)
  else if decide (typ = InitializeAccountV2Instruction) then i ← decode_VoteInitV2; mret (InitializeAccountV2 i)
  else if decide (typ = UpdateCommissionCollectorInstruction) then k ← readKind1; mret (UpdateCommissionCollector k)
  else if decide (typ = UpdateCommissionBpsInstruction) then
    c ← ReadUint16; k ← readKind1; mret (UpdateCommissionBps c k)
  else if decide (typ = DepositDelegatorRewardsInstruction) then d ← ReadUint64; mret (DepositDelegatorRewards d)
  else throw (ErrUnknownInstruction typ).

(** The default case returns at once; the other errors are wrapped with the
    type after the switch. *)
Definition decodeBody (typ : Z) : Dec body :=
  if decide (DepositDelegatorRewardsInstruction < typ) then throw (ErrUnknownInstruction typ)
  else mapErr (errVoteDecode typ) (decodeCase typ).

(** The seed limit is checked last. *)
Definition checkSeed (typ : Z) (out : body) : option vote_err :=
  match out with
  | AuthorizeWithSeed a =>
    if decide (MaxSeedLength < len (ws_Seed a)) then Some (errVoteDecode typ ErrMaxSeedLengthExceeded) else None
  | AuthorizeCheckedWithSeed a =>
    if decide (MaxSeedLength < len (wc_Seed a)) then Some (errVoteDecode typ ErrMaxSeedLengthExceeded) else None
  | _ => None
  end.

Definition decodeVote (accounts : AccountMetaSlice) : Dec VoteInstr :=
  typ ← ReadUint32;
  _ ← checkErr errVoteType;
  b ← decodeBody typ;
  _ ← checkErr (λ r, errVoteDecode typ (errWire r));
  match checkSeed typ b with
  | Some e => throw e
  | None => mret (mkVote accounts b)
  end.

Definition DecodeInstruction (accounts : AccountMetaSlice) (data : bytes) : outcome vote_err VoteInstr :=
  runDecoder (decodeVote accounts) data.

(** * Layouts *)

(** Each struct as its fields in wire order, and what its methods require beyond
    the ranges of the fields. *)
Definition fields_VoteAuthorize (a : VoteAuthorize) : list value :=
  VUint32 (Kind a) :: match BLSPubkey a, BLSProofOfPossession a with
                      | Some k, Some p => [VBytes k; VBytes p]
                      | _, _ => []
                      end.
(** The key and the proof go with the third kind, and with no other. *)
Definition authorize_shape (a : VoteAuthorize) : Prop :=
  match BLSPubkey a, BLSProofOfPossession a with
  | Some k, Some p => Kind a = 2 ∧ len k = 48 ∧ len p = 96
  | None, None => Kind a ≤ 1
  | _, _ => False
  end.
Definition fields_VoteInit (i : VoteInit) : list value :=
  [VPublicKey (NodePubkey i); VPublicKey (AuthorizedVoter i); VPublicKey (AuthorizedWithdrawer i); VUint8 (Commission i)].
Definition fields_VoteInitV2 (i : VoteInitV2) : list value :=
  [VPublicKey (NodePubkeyV2 i); VPublicKey (AuthorizedVoterV2 i); VBytes (AuthorizedVoterBLSPubkey i);
   VBytes (AuthorizedVoterBLSProofOfPossession i); VPublicKey (AuthorizedWithdrawerV2 i);
   VUint16 (InflationRewardsCommissionBps i); VUint16 (BlockRevenueCommissionBps i)].
Definition initV2_shape (i : VoteInitV2) : Prop :=
  len (AuthorizedVoterBLSPubkey i) = 48 ∧ len (AuthorizedVoterBLSProofOfPossession i) = 96.
Definition fields_voteData (v : voteData) : list value :=
  VUint64 (len (vd_Slots v)) :: (VUint64 <$> vd_Slots v) ++ VHash (vd_Hash v) :: optValues VInt64 (vd_Timestamp v).
Definition fields_Lockout (l : Lockout) : list value := [VUint64 (Slot l); VUint32 (ConfirmationCount l)].
Definition fields_VoteStateUpdate (u : VoteStateUpdate) : list value :=
  VUint64 (len (Lockouts u)) :: (Lockouts u ≫= fields_Lockout) ++ optValues VUint64 (Root u)
    ++ VHash (HashOf u) :: optValues VInt64 (Timestamp u).

(** Slots as deltas. *)
Fixpoint deltaFields (previous : Z) (ls : list Lockout) : list value :=
  match ls with
  | [] => []
  | l :: ls => VVarUint64 (Slot l - previous) :: VUint8 (ConfirmationCount l) :: deltaFields (Slot l) ls
  end.
Definition rootWire (u : VoteStateUpdate) : Z := match Root u with Some r => r | None => MaxUint64 end.
Definition rootBase (root : option Z) : Z := match root with Some r => r | None => 0 end.
Definition fields_compact (u : VoteStateUpdate) : list value :=
  VUint64 (rootWire u) :: VCompactU16 (len (Lockouts u)) :: deltaFields (rootBase (Root u)) (Lockouts u)
    ++ VHash (HashOf u) :: optValues VInt64 (Timestamp u).
(** A root of all ones is the wire's nil; slots are uint64. *)
Definition compact_shape (u : VoteStateUpdate) : Prop :=
  len (Lockouts u) ≤ 31 ∧ Root u ≠ Some MaxUint64 ∧ Forall (λ l, is_uint 8 (Slot l)) (Lockouts u).

Definition stateOf (s : TowerSyncUpdate) : VoteStateUpdate :=
  mkVoteStateUpdate (ts_Lockouts s) (ts_Root s) (ts_Hash s) (ts_Timestamp s).
Definition fields_TowerSyncUpdate (s : TowerSyncUpdate) : list value :=
  fields_compact (stateOf s) ++ [VHash (ts_BlockID s)].
Definition fields_AuthorizeWithSeedArgs (a : VoteAuthorizeWithSeedArgs) : list value :=
  fields_VoteAuthorize (ws_AuthorizationType a) ++
    [VPublicKey (ws_Owner a); VBincodeString (ws_Seed a); VPublicKey (ws_NewAuthority a)].
Definition fields_AuthorizeCheckedWithSeedArgs (a : VoteAuthorizeCheckedWithSeedArgs) : list value :=
  fields_VoteAuthorize (wc_AuthorizationType a) ++ [VPublicKey (wc_Owner a); VBincodeString (wc_Seed a)].

Definition shaped {A} (fields : A → list value) (shape : A → Prop) (x : A) : Prop := fieldsOk fields x ∧ shape x.

(** * Codecs of the structs *)

#[global] Instance readFixed_codec {E} n : Codec (E:=E) (readFixed n) (λ x, x) (array_ok n).
Proof.
  assert (∀ x, array_ok n x → copy_into (zeros (Z.to_nat n)) x = x) as Hcopy.
  { intros x [Hl _]. apply copy_into_full. unfold zeros. rewrite length_replicate. unfold len in Hl. lia. }
  split.
  - intros x Hx. rewrite <- (Hcopy x Hx) at 1. eapply reads_codec; [apply _|apply reads_ret|done|by rewrite app_nil_r].
  - unfold readFixed. eapply parses_codec; [apply _|]. intros x. apply parses_ret_spec. intros Hx. cbv beta.
    by rewrite (Hcopy x Hx), app_nil_r.
Qed.

#[global] Instance VoteAuthorize_codec :
  Codec decode_VoteAuthorize (wire fields_VoteAuthorize) (shaped fields_VoteAuthorize authorize_shape).
Proof.
  unfold wire, shaped, fieldsOk, fields_VoteAuthorize, authorize_shape. split.
  - intros [k [key|] [proof|]] [Hv Hs]; cbn [Kind BLSPubkey BLSProofOfPossession] in *; try done; layout_norm.
    + subst k. eapply reads_codec; [apply _| |done|reflexivity]. apply reads_check.
      rewrite decide_False by (unfold VoteAuthorizeVoter, VoteAuthorizeWithdrawer; lia). rewrite decide_True by done.
      eapply reads_codec; [apply _| |by split|reflexivity]. eapply reads_codec; [apply _| |by split|reflexivity].
      apply reads_check, reads_ret.
    + eapply reads_codec; [apply _| |done|reflexivity]. apply reads_check.
      rewrite decide_True by (unfold VoteAuthorizeVoter, VoteAuthorizeWithdrawer, is_uint in *; lia). apply reads_ret.
  - unfold decode_VoteAuthorize. eapply parses_codec; [apply _|]. intros kind. apply parses_check.
    case_decide as Hk; [|case_decide; [|apply parses_throw]].
    + apply parses_ret_spec. intros Hd. cbn. unfold VoteAuthorizeVoter, VoteAuthorizeWithdrawer in Hk.
      rewrite Forall_cons, Forall_nil. split_and!; [done|done|lia|done].
    + eapply parses_codec; [apply _|]. intros key. eapply parses_codec; [apply _|]. intros proof.
      apply parses_check, parses_ret_spec. intros [? ?] [? ?] Hd. cbn. rewrite !Forall_cons, Forall_nil.
      split_and!; done.
Qed.

#[global] Instance VoteInit_codec : Codec decode_VoteInit (wire fields_VoteInit) (fieldsOk fields_VoteInit).
Proof. unfold wire. record_codec decode_VoteInit fields_VoteInit. Qed.

#[global] Instance VoteInitV2_codec :
  Codec decode_VoteInitV2 (wire fields_VoteInitV2) (shaped fields_VoteInitV2 initV2_shape).
Proof.
  unfold wire, shaped, fieldsOk, fields_VoteInitV2, initV2_shape. split.
  - intros [n v k p w i b] [Hv [? ?]]. cbn [NodePubkeyV2 AuthorizedVoterV2 AuthorizedVoterBLSPubkey
      AuthorizedVoterBLSProofOfPossession AuthorizedWithdrawerV2 InflationRewardsCommissionBps BlockRevenueCommissionBps] in *.
    layout_norm. unfold decode_VoteInitV2. step_reads; first [reflexivity | assumption | by split].
  - unfold decode_VoteInitV2. step_parses. intros ? ? ? [? ?] [? ?] ? ?. cbn. rewrite !Forall_cons, Forall_nil. by split_and!.
Qed.

(** A run of fixed-layout items as fields. *)
Lemma uints_values (xs : list Z) :
  concat (valueBytes <$> (VUint64 <$> xs)) = concat (le_bytes 8 <$> xs) ∧
  (Forall value_ok (VUint64 <$> xs) ↔ Forall (is_uint 8) xs).
Proof. split; [by rewrite <- list_fmap_compose|]. by rewrite Forall_fmap. Qed.

#[global] Instance readLockout_codec : Codec readLockout (wire fields_Lockout) (fieldsOk fields_Lockout).
Proof. unfold wire. record_codec readLockout fields_Lockout. Qed.

#[global] Instance voteData_codec :
  Codec decode_voteData (wire fields_voteData) (shaped fields_voteData (λ v, len (vd_Slots v) ≤ 31)).
Proof.
  unfold wire, shaped, fieldsOk, fields_voteData. split.
  - intros [slots hash ts] [Hv Hn]. cbn [vd_Slots vd_Hash vd_Timestamp] in *. destruct (uints_values slots) as [Hb Hs].
    layout_norm. apply Hs in H0. unfold decode_voteData. eapply reads_codec; [apply _| |done|reflexivity]. apply reads_check.
    rewrite decide_False by (unfold MaxLockoutHistory; lia). rewrite Hb, to_nat_len. apply reads_needs.
    + eapply reads_codec; [apply _| |by split|reflexivity]. step_reads; first [by apply reads_check, reads_ret | done | by rewrite optValues_bytes, app_nil_r].
    + rewrite !len_app, (concat_len _ 8) by (intros; by rewrite len_le_bytes). rewrite optValues_bytes, (len_array _ _ H1).
      pose proof (len_optBytes (λ x, valueBytes (VInt64 x)) ts). lia.
  - unfold decode_voteData. eapply parses_codec; [apply _|]. intros n. apply parses_check. unfold MaxLockoutHistory.
    case_decide; [apply parses_throw|]. apply parses_needs. eapply parses_codec; [apply _|]. intros slots.
    eapply parses_codec; [apply _|]. intros hash. eapply parses_codec; [apply _|]. intros ts. apply parses_check, parses_ret_spec.
    intros Hts Hh [Hl Hs] Hn. assert (len slots = n) as <- by (unfold len; rewrite Hl; destruct Hn; lia).
    destruct (uints_values slots) as [Hb Hs']. cbn [vd_Slots vd_Hash vd_Timestamp].
    rewrite Forall_cons, Forall_app, Forall_cons, optValues_ok. split; [split; [split_and!; [done|by apply Hs'|done|done]|lia]|].
    cbn [fmap list_fmap concat]. rewrite fmap_app, concat_app. cbn [fmap list_fmap concat valueBytes].
    change (list_fmap _ _ valueBytes) with (fmap (M:=list) valueBytes). rewrite Hb, optValues_bytes, app_nil_r. done.
Qed.

Lemma wire_Lockout_len l : len (wire fields_Lockout l) = 12.
Proof.
  unfold wire, fields_Lockout. cbn [fmap list_fmap concat valueBytes]. by rewrite !len_app, !len_le_bytes.
Qed.

#[global] Instance VoteStateUpdate_codec :
  Codec decode_VoteStateUpdate (wire fields_VoteStateUpdate) (shaped fields_VoteStateUpdate (λ u, len (Lockouts u) ≤ 31)).
Proof.
  unfold wire, shaped, fieldsOk, fields_VoteStateUpdate. split.
  - intros [ls root hash ts] [Hv Hn]. cbn [Lockouts Root HashOf Timestamp] in *. destruct (bind_values fields_Lockout ls) as [Hb Hs].
    rewrite Forall_cons, !Forall_app, Forall_cons, !optValues_ok, Hs in Hv. destruct Hv as (H & H0 & H1 & H2 & H3).
    rewrite fmap_cons, !fmap_app, fmap_cons. cbn [concat]. rewrite !concat_app, Hb, !optValues_bytes. cbn [concat]. rewrite optValues_bytes.
    unfold decode_VoteStateUpdate. eapply reads_codec; [apply _| |done|reflexivity]. apply reads_check.
    rewrite decide_False by (unfold MaxLockoutHistory; lia). rewrite to_nat_len. apply reads_needs.
    + eapply reads_codec; [apply _| |by split|reflexivity]. step_reads; first [by apply reads_check, reads_ret | done | by rewrite app_nil_r].
    + cbn [valueBytes]. rewrite !len_app, (concat_len _ 12), (len_array _ _ H2) by apply wire_Lockout_len.
      pose proof (len_optBytes (λ x, valueBytes (VInt64 x)) ts). pose proof (len_optBytes (λ x, valueBytes (VUint64 x)) root).
      cbn [valueBytes] in *. lia.
  - unfold decode_VoteStateUpdate. eapply parses_codec; [apply _|]. intros n. apply parses_check. unfold MaxLockoutHistory.
    case_decide; [apply parses_throw|]. apply parses_needs. do 4 (eapply parses_codec; [apply _|]; intros ?). apply parses_check, parses_ret_spec.
    intros Hts Hh Hr [Hl Hs] Hn. assert (len x = n) as <- by (unfold len; rewrite Hl; destruct Hn; lia).
    destruct (bind_values fields_Lockout x) as [Hb Hs']. cbn [Lockouts Root HashOf Timestamp].
    rewrite Forall_cons, !Forall_app, Forall_cons, !optValues_ok, Hs'. split; [by split_and!; [..|lia]|].
    rewrite fmap_cons, !fmap_app, fmap_cons. cbn [concat]. rewrite !concat_app, Hb, !optValues_bytes. cbn [concat]. by rewrite optValues_bytes, app_nil_r.
Qed.

(** Reading deltas back from a base that is a uint64. *)
Lemma readDeltas_reads previous ls :
  previous ≤ MaxUint64 → Forall value_ok (deltaFields previous ls) → Forall (λ l, is_uint 8 (Slot l)) ls →
  reads (readDeltas (length ls) previous) ls (concat (valueBytes <$> deltaFields previous ls)).
Proof.
  intros Hp Hv Hs. revert previous Hp Hv. induction Hs as [|[s c] ls Hs1 Hs IH]; intros previous Hp Hv; [apply reads_ret|].
  cbn [readDeltas length deltaFields Slot ConfirmationCount] in *. rewrite !Forall_cons in Hv.
  destruct Hv as ([Hd1 Hd2] & Hc & Hv). cbn [value_ok] in *.
  eapply reads_codec; [apply _| |by split|reflexivity]. eapply reads_codec; [apply _| |exact Hc|reflexivity]. apply reads_check.
  unfold MaxUint64, is_uint in *. change (256 ^ Z.of_nat 8) with 18446744073709551616 in *.
  rewrite decide_False by lia. replace (previous + (s - previous)) with s by lia.
  eapply reads_bind; [apply IH; [lia|done]|apply reads_ret|by rewrite app_nil_r].
Qed.

Lemma readDeltas_parses n previous :
  parses (readDeltas n previous) (λ ls bs, length ls = n ∧ bs = concat (valueBytes <$> deltaFields previous ls) ∧
    (0 ≤ previous → Forall value_ok (deltaFields previous ls) ∧ Forall (λ l, is_uint 8 (Slot l)) ls)).
Proof.
  revert previous. induction n as [|n IH]; intros previous; cbn [readDeltas]; [apply parses_ret_spec; by repeat split; constructor|].
  eapply parses_codec; [apply _|]. intros delta. eapply parses_codec; [apply _|]. intros c. apply parses_check.
  case_decide; [apply parses_throw|].
  eapply parses_mono; [eapply parses_bind; [apply IH|intros ls; apply parses_ret]|].
  intros y bs (ls & b1 & b2 & -> & (Hl & -> & Hv) & -> & ->) Hc [Hd ?]. cbn [deltaFields Slot ConfirmationCount length].
  replace (previous + delta - previous) with delta by lia. rewrite app_nil_r. split_and!; [by f_equal|done|].
  intros Hprev. destruct (Hv ltac:(lia)) as [Hv1 Hv2]. rewrite !Forall_cons. split_and!; [by split|done|done| |done].
  unfold is_uint, MaxUint64 in *. cbn [Slot]. change (256 ^ Z.of_nat 8) with 18446744073709551616. lia.
Qed.

Lemma deltas_len previous ls :
  Forall value_ok (deltaFields previous ls) → 2 * len ls ≤ len (concat (valueBytes <$> deltaFields previous ls)).
Proof.
  revert previous. induction ls as [|l ls IH]; intros previous Hv; [done|]. cbn [deltaFields] in *.
  rewrite !Forall_cons in Hv. destruct Hv as ([Hd ?] & _ & Hv). rewrite !fmap_cons. cbn [concat valueBytes].
  rewrite !len_app, !len_cons, len_nil. specialize (IH _ Hv). pose proof (varint_len_pos (Slot l - previous) Hd). lia.
Qed.

#[global] Instance compact_codec : Codec decodeCompact (wire fields_compact) (shaped fields_compact compact_shape).
Proof.
  unfold wire, shaped, fieldsOk, fields_compact, compact_shape. split.
  - intros [ls root hash ts] (Hv & Hn & Hr & Hs). unfold rootWire in *. cbn [Lockouts Root HashOf Timestamp] in *.
    rewrite !Forall_cons, Forall_app, Forall_cons, !optValues_ok in Hv. destruct Hv as (H & H0 & H1 & H2 & H3).
    rewrite !fmap_cons, fmap_app, fmap_cons. cbn [concat]. rewrite concat_app. cbn [concat]. rewrite optValues_bytes.
    unfold decodeCompact. eapply reads_codec; [apply _| |exact H|reflexivity]. eapply reads_codec; [apply _| |exact H0|reflexivity].
    apply reads_check. rewrite decide_False by (unfold MaxLockoutHistory; lia). apply reads_needs.
    + cbv zeta. assert ((if decide ((match root with Some r => r | None => MaxUint64 end) ≠ MaxUint64)
        then Some (match root with Some r => r | None => MaxUint64 end) else None) = root) as ->.
      { destruct root as [r|]; [rewrite decide_True; congruence|rewrite decide_False; [done|by intros []]]. }
      fold (rootBase root). rewrite to_nat_len.
      eapply reads_bind; [apply readDeltas_reads; [|done|done]| |reflexivity].
      { destruct root as [r|]; unfold rootBase; [|done]. cbn [value_ok] in H. unfold is_uint, MaxUint64 in *.
        change (256 ^ Z.of_nat 8) with 18446744073709551616 in *. lia. }
      step_reads; first [by apply reads_check, reads_ret | done | by rewrite app_nil_r].
    + cbn [valueBytes]. rewrite !len_app, (len_array _ _ H2). pose proof (deltas_len _ _ H1).
      pose proof (len_optBytes (λ x, valueBytes (VInt64 x)) ts). cbn [valueBytes] in *. lia.
  - unfold decodeCompact. eapply parses_codec; [apply _|]. intros root. eapply parses_codec; [apply _|]. intros n. apply parses_check.
    unfold MaxLockoutHistory. case_decide; [apply parses_throw|]. apply parses_needs. cbv zeta.
    set (R := if decide (root ≠ MaxUint64) then Some root else None). fold (rootBase R).
    eapply parses_then; [apply readDeltas_parses|]. intros ls.
    do 2 (eapply parses_codec; [apply _|]; intros ?). apply parses_check, parses_ret_spec.
    intros Hts Hh b1 (Hl & -> & Hd) Hn Hroot. assert (len ls = n) as <- by (unfold len; rewrite Hl; destruct Hn; lia).
    assert (0 ≤ rootBase R) as HR by (subst R; unfold rootBase; destruct Hroot; case_decide; lia).
    destruct (Hd HR) as [Hv Hs]. unfold rootWire. cbn [Lockouts Root HashOf Timestamp].
    assert ((match R with Some r => r | None => MaxUint64 end) = root) as ->
      by (subst R; case_decide as Hmax; [done|by destruct (decide (root = MaxUint64))]).
    rewrite !Forall_cons, Forall_app, Forall_cons, !optValues_ok. split_and!; [done..|lia| |done|].
    + subst R. case_decide; congruence.
    + rewrite !fmap_cons, fmap_app, fmap_cons. cbn [concat]. rewrite concat_app. cbn [concat]. by rewrite optValues_bytes, app_nil_r.
Qed.

#[global] Instance TowerSyncUpdate_codec :
  Codec decode_TowerSyncUpdate (wire fields_TowerSyncUpdate)
    (shaped fields_TowerSyncUpdate (λ s, compact_shape (stateOf s))).
Proof.
  unfold wire, shaped, fieldsOk, fields_TowerSyncUpdate. split.
  - intros [ls root hash ts block] [Hv Hs]. unfold stateOf in *. cbn [ts_Lockouts ts_Root ts_Hash ts_Timestamp ts_BlockID] in *.
    rewrite Forall_app, Forall_cons in Hv. destruct Hv as (Hc & Hb & _). rewrite fmap_app, concat_app.
    eapply reads_codec; [apply compact_codec| |by split|reflexivity]. cbn [Lockouts Root HashOf Timestamp].
    eapply reads_codec; [apply _| |exact Hb|reflexivity]. apply reads_check, reads_ret.
  - unfold decode_TowerSyncUpdate. do 2 (eapply parses_codec; [apply _|]; intros ?). apply parses_check, parses_ret_spec.
    intros Hb [Hv Hs]. unfold stateOf. cbn [ts_Lockouts ts_Root ts_Hash ts_Timestamp ts_BlockID].
    destruct x as [ls root hash ts]. cbn [Lockouts Root HashOf Timestamp]. rewrite Forall_app, Forall_cons, Forall_nil, fmap_app, concat_app.
    split; [by split_and!|]. done.
Qed.

#[global] Instance AuthorizeWithSeedArgs_codec :
  Codec decode_AuthorizeWithSeedArgs (wire fields_AuthorizeWithSeedArgs)
    (shaped fields_AuthorizeWithSeedArgs (λ a, authorize_shape (ws_AuthorizationType a))).
Proof.
  unfold wire, shaped, fieldsOk, fields_AuthorizeWithSeedArgs. split.
  - intros [a o s k] [Hv Hs]. cbn [ws_AuthorizationType ws_Owner ws_Seed ws_NewAuthority] in *.
    rewrite Forall_app, !Forall_cons in Hv. destruct Hv as (Ha & Ho & Hse & Hk & _). rewrite fmap_app, concat_app.
    eapply reads_codec; [apply VoteAuthorize_codec| |by split|reflexivity].
    step_reads; first [by apply reads_check, reads_ret | done].
  - unfold decode_AuthorizeWithSeedArgs. do 4 (eapply parses_codec; [apply _|]; intros ?). apply parses_check, parses_ret_spec.
    intros ? ? ? [Hv Hs]. cbn [ws_AuthorizationType ws_Owner ws_Seed ws_NewAuthority].
    rewrite Forall_app, !Forall_cons, Forall_nil, fmap_app, concat_app. split; [by split_and!|]. done.
Qed.

#[global] Instance AuthorizeCheckedWithSeedArgs_codec :
  Codec decode_AuthorizeCheckedWithSeedArgs (wire fields_AuthorizeCheckedWithSeedArgs)
    (shaped fields_AuthorizeCheckedWithSeedArgs (λ a, authorize_shape (wc_AuthorizationType a))).
Proof.
  unfold wire, shaped, fieldsOk, fields_AuthorizeCheckedWithSeedArgs. split.
  - intros [a o s] [Hv Hs]. cbn [wc_AuthorizationType wc_Owner wc_Seed] in *.
    rewrite Forall_app, !Forall_cons in Hv. destruct Hv as (Ha & Ho & Hse & _). rewrite fmap_app, concat_app.
    eapply reads_codec; [apply VoteAuthorize_codec| |by split|reflexivity].
    step_reads; first [by apply reads_check, reads_ret | done].
  - unfold decode_AuthorizeCheckedWithSeedArgs. do 3 (eapply parses_codec; [apply _|]; intros ?). apply parses_check, parses_ret_spec.
    intros ? ? [Hv Hs]. cbn [wc_AuthorizationType wc_Owner wc_Seed].
    rewrite Forall_app, !Forall_cons, Forall_nil, fmap_app, concat_app. split; [by split_and!|]. done.
Qed.

#[global] Instance readKind1_codec : Codec readKind1 (le_bytes 4) (λ k, is_uint 4 k ∧ k ≤ 1).
Proof.
  split.
  - intros k [Hk H1]. eapply reads_codec; [apply _| |done|by rewrite app_nil_r].
    rewrite decide_False by (unfold CommissionKindBlockRevenue; lia). apply reads_ret.
  - unfold readKind1, CommissionKindBlockRevenue. eapply parses_codec; [apply _|]. intros k.
    case_decide; [apply parses_throw|]. apply parses_ret_spec. intros Hk. rewrite app_nil_r. split; [split; [done|lia]|done].
Qed.

(** * Layouts of the instructions *)

Definition fields (b : body) : list value :=
  match b with
  | InitializeAccount i => VUint32 0 :: fields_VoteInit i
  | Authorize k a => VUint32 1 :: VPublicKey k :: fields_VoteAuthorize a
  | Vote s h t => VUint32 2 :: fields_voteData (mkVoteData s h t)
  | Withdraw l => [VUint32 3; VUint64 l]
  | UpdateValidatorIdentity => [VUint32 4]
  | UpdateCommission c => [VUint32 5; VUint8 c]
  | VoteSwitch s h t p => VUint32 6 :: fields_voteData (mkVoteData s h t) ++ [VHash p]
  | AuthorizeChecked a => VUint32 7 :: fields_VoteAuthorize a
  | UpdateVoteState u => VUint32 8 :: fields_VoteStateUpdate u
  | UpdateVoteStateSwitch u p => VUint32 9 :: fields_VoteStateUpdate u ++ [VHash p]
  | AuthorizeWithSeed a => VUint32 10 :: fields_AuthorizeWithSeedArgs a
  | AuthorizeCheckedWithSeed a => VUint32 11 :: fields_AuthorizeCheckedWithSeedArgs a
  | CompactUpdateVoteState u => VUint32 12 :: fields_compact u
  | CompactUpdateVoteStateSwitch u p => VUint32 13 :: fields_compact u ++ [VHash p]
  | TowerSync s => VUint32 14 :: fields_TowerSyncUpdate s
  | TowerSyncSwitch s p => VUint32 15 :: fields_TowerSyncUpdate s ++ [VHash p]
  | InitializeAccountV2 i => VUint32 16 :: fields_VoteInitV2 i
  | UpdateCommissionCollector k => [VUint32 17; VUint32 k]
  | UpdateCommissionBps c k => [VUint32 18; VUint16 c; VUint32 k]
  | DepositDelegatorRewards d => [VUint32 19; VUint64 d]
  end.

(** What the structs require beyond the ranges of their fields. *)
Definition shape (b : body) : Prop :=
  match b with
  | Authorize _ a | AuthorizeChecked a => authorize_shape a
  | Vote s _ _ | VoteSwitch s _ _ _ => len s ≤ 31
  | UpdateVoteState u | UpdateVoteStateSwitch u _ => len (Lockouts u) ≤ 31
  | AuthorizeWithSeed a => authorize_shape (ws_AuthorizationType a)
  | AuthorizeCheckedWithSeed a => authorize_shape (wc_AuthorizationType a)
  | CompactUpdateVoteState u | CompactUpdateVoteStateSwitch u _ => compact_shape u
  | TowerSync s | TowerSyncSwitch s _ => compact_shape (stateOf s)
  | InitializeAccountV2 i => initV2_shape i
  | UpdateCommissionCollector k | UpdateCommissionBps _ k => k ≤ 1
  | _ => True
  end.

Definition discriminator (b : body) : Z := match fields b with VUint32 t :: _ => t | _ => 0 end.
Definition wireOf (b : body) : bytes := concat (valueBytes <$> fields b).
Definition vote_ok : body → Prop := shaped fields shape.

Lemma voteWire_split b : wireOf b = le_bytes 4 (discriminator b) ++ tailBytes fields b.
Proof. by destruct b. Qed.

Lemma voteCase_reads b : vote_ok b → reads (decodeCase (discriminator b)) b (tailBytes fields b).
Proof.
  unfold vote_ok, shaped, fieldsOk, tailBytes. intros [Hv Hs].
  destruct b as [| |s h t| | | |s h t p| | | | | | | | | | | | |]; cbn [fields discriminator shape] in *;
    rewrite ?Forall_cons, ?Forall_app, ?Forall_cons in Hv; destruct_and? Hv;
    cbn [drop]; rewrite ?drop_0, ?fmap_app, ?concat_app.
  all: try solve [step_reads; layout_done].
  all: try solve [eapply reads_codec; [apply _|apply reads_ret|by split|unfold wire; by rewrite app_nil_r]].
  all: try solve [eapply reads_codec; [apply _| |by split|reflexivity]; step_reads; layout_done].
  eapply (reads_codec _ _ _ _ (mkVoteData s h t)); [apply reads_ret|by split|unfold wire; by rewrite app_nil_r].
Qed.

Lemma voteCase_parses typ :
  parses (decodeCase typ) (λ b bs, discriminator b = typ ∧ vote_ok b ∧ bs = tailBytes fields b).
Proof.
  unfold decodeCase, vote_ok, shaped, fieldsOk, tailBytes.
  repeat (case_decide; [subst typ; step_parses; intros; (split; [reflexivity|]);
    cbn [fields shape drop]; unfold shaped, wire, fieldsOk in *; rewrite ?drop_0, ?Forall_cons, ?Forall_app, ?Forall_cons, ?Forall_nil,
      ?fmap_app, ?concat_app; destruct_and?; split_and?; first [done | by rewrite ?app_nil_r]|]).
  apply parses_throw.
Qed.

#[global] Instance vote_body : BodyCodec decodeBody discriminator (tailBytes fields) vote_ok.
Proof.
  split.
  - intros b Hb. unfold decodeBody. rewrite decide_False by (by destruct b). by apply reads_mapErr, voteCase_reads.
  - intros typ. unfold decodeBody. case_decide; [apply parses_throw|]. apply parses_mapErr, voteCase_parses.
Qed.

(** * The encoders *)

(** What an encoder refuses, in the order it checks. *)
Definition refuse_VoteAuthorize (a : VoteAuthorize) : option vote_err :=
  if decide (2 < Kind a) then Some (ErrInvalidVoteAuthorize (Kind a)) else
  if decide (Kind a = 2) then
    match BLSPubkey a, BLSProofOfPossession a with Some _, Some _ => None | _, _ => Some errBLSMissing end
  else None.
Definition refuse_count (n : Z) : option vote_err := if decide (31 < n) then Some (ErrTooManyLockouts n) else None.
Fixpoint refuse_deltas (previous : Z) (ls : list Lockout) : option vote_err :=
  match ls with
  | [] => None
  | l :: ls =>
    if decide (Slot l < previous) then Some (ErrInvalidLockoutOrder (Slot l) previous) else
    if decide (255 < ConfirmationCount l) then Some (ErrInvalidConfirmationCount (ConfirmationCount l)) else
    refuse_deltas (Slot l) ls
  end.
Definition orElse (a b : option vote_err) : option vote_err := match a with Some e => Some e | None => b end.
Definition refuse_compact (ls : list Lockout) (root : option Z) : option vote_err :=
  orElse (refuse_count (len ls)) (refuse_deltas (rootBase root) ls).
Definition refuse_seed (seed : bytes) : option vote_err :=
  if decide (32 < len seed) then Some ErrMaxSeedLengthExceeded else None.
Definition refuse_kind (k : Z) : option vote_err := if decide (1 < k) then Some (ErrInvalidCommissionKind k) else None.

Definition refuse (b : body) : option vote_err :=
  match b with
  | Authorize _ a | AuthorizeChecked a => refuse_VoteAuthorize a
  | Vote s _ _ | VoteSwitch s _ _ _ => refuse_count (len s)
  | UpdateVoteState u | UpdateVoteStateSwitch u _ => refuse_count (len (Lockouts u))
  | AuthorizeWithSeed a => orElse (refuse_seed (ws_Seed a)) (refuse_VoteAuthorize (ws_AuthorizationType a))
  | AuthorizeCheckedWithSeed a => orElse (refuse_seed (wc_Seed a)) (refuse_VoteAuthorize (wc_AuthorizationType a))
  | CompactUpdateVoteState u | CompactUpdateVoteStateSwitch u _ => refuse_compact (Lockouts u) (Root u)
  | TowerSync s | TowerSyncSwitch s _ => refuse_compact (ts_Lockouts s) (ts_Root s)
  | UpdateCommissionCollector k | UpdateCommissionBps _ k => refuse_kind k
  | _ => None
  end.

Lemma writeValues_none vs e : Forall value_ok vs → e_err e = None → e_err (writeValues vs e) = None.
Proof. intros Hv He. rewrite (writeValues_writes vs Hv e He). by rewrite encAppend_err. Qed.

Lemma writeErr_values vs e :
  Forall value_ok vs → e_err e = None → writeErr (writeValues vs e) = Ok (writeValues vs e).
Proof. intros Hv He. unfold writeErr, EncErr. by rewrite writeValues_none. Qed.

Lemma write_VoteAuthorize_eq a e :
  e_err e = None → Forall value_ok (fields_VoteAuthorize a) → authorize_shape a →
  write_VoteAuthorize a e = Ok (writeValues (fields_VoteAuthorize a) e).
Proof.
  intros He Hv Hs. pose proof (writeErr_values _ _ Hv He) as Hw. destruct a as [k [key|] [proof|]]; try done;
    unfold authorize_shape in Hs; unfold write_VoteAuthorize, VoteAuthorizeVoterWithBLS; cbn [Kind BLSPubkey BLSProofOfPossession] in *.
  - destruct Hs as (-> & _). exact Hw.
  - rewrite !decide_False by lia. exact Hw.
Qed.

Lemma write_voteData_eq v e :
  e_err e = None → Forall value_ok (fields_voteData v) → len (vd_Slots v) ≤ 31 →
  write_voteData v e = Ok (writeValues (fields_voteData v) e).
Proof.
  intros He Hv Hn. pose proof (writeErr_values _ _ Hv He) as Hw. destruct v as [s h t]. unfold write_voteData, fields_voteData in *.
  cbn [vd_Slots vd_Hash vd_Timestamp] in *. rewrite decide_False by (unfold MaxLockoutHistory; lia).
  assert (u64 (len s) = len s) as -> by (unfold u64; rewrite Z.mod_small; pose proof (len_nonneg s); lia).
  rewrite (foldl_values (λ x, [VUint64 x])) by done. rewrite bind_single. cbn [writeValues] in *. rewrite writeValues_app in *.
  cbn [writeValues] in *. rewrite <- writeOpt_values in *. exact Hw.
Qed.

Lemma write_VoteStateUpdate_eq u e :
  e_err e = None → Forall value_ok (fields_VoteStateUpdate u) → len (Lockouts u) ≤ 31 →
  write_VoteStateUpdate u e = Ok (writeValues (fields_VoteStateUpdate u) e).
Proof.
  intros He Hv Hn. pose proof (writeErr_values _ _ Hv He) as Hw. destruct u as [s r h t].
  unfold write_VoteStateUpdate, validate, fields_VoteStateUpdate in *. cbn [Lockouts Root HashOf Timestamp] in *.
  rewrite decide_False by (unfold MaxLockoutHistory; lia). cbn [mbind outcome_bind].
  assert (u64 (len s) = len s) as -> by (unfold u64; rewrite Z.mod_small; pose proof (len_nonneg s); lia).
  rewrite (foldl_values fields_Lockout) by done. cbn [writeValues] in *. rewrite !writeValues_app in *.
  cbn [writeValues] in *. rewrite <- !writeOpt_values in *. exact Hw.
Qed.

Lemma writeDeltas_eq previous ls e :
  Forall value_ok (deltaFields previous ls) → writeDeltas previous ls e = Ok (writeValues (deltaFields previous ls) e).
Proof.
  revert previous e. induction ls as [|l ls IH]; intros previous e Hv; [done|]. cbn [deltaFields writeDeltas writeValues] in *.
  rewrite !Forall_cons in Hv. destruct Hv as ([Hd _] & [Hc1 Hc2] & Hv). rewrite decide_False by lia.
  rewrite decide_False by lia. cbv zeta. rewrite IH by done. unfold u8. by rewrite Z.mod_small by lia.
Qed.

Lemma writeCompact_eq u e :
  e_err e = None → Forall value_ok (fields_compact u) → len (Lockouts u) ≤ 31 →
  writeCompact u e = Ok (writeValues (fields_compact u) e).
Proof.
  intros He Hv Hn. pose proof (writeErr_values _ _ Hv He) as Hw. destruct u as [s r h t].
  unfold writeCompact, validate, fields_compact, rootWire in *. cbn [Lockouts Root HashOf Timestamp] in *.
  rewrite decide_False by (unfold MaxLockoutHistory; lia). cbn [mbind outcome_bind]. fold (rootBase r).
  rewrite !Forall_cons, Forall_app in Hv. destruct Hv as (_ & _ & Hd & _). rewrite writeDeltas_eq by done. cbn [mbind outcome_bind].
  cbn [writeValues] in *. rewrite writeValues_app in *. cbn [writeValues] in *. rewrite <- writeOpt_values in *. exact Hw.
Qed.

Lemma write_TowerSyncUpdate_eq s e :
  e_err e = None → Forall value_ok (fields_TowerSyncUpdate s) → len (ts_Lockouts s) ≤ 31 →
  write_TowerSyncUpdate s e = Ok (writeValues (fields_TowerSyncUpdate s) e).
Proof.
  intros He Hv Hn. pose proof (writeErr_values _ _ Hv He) as Hw. unfold write_TowerSyncUpdate, fields_TowerSyncUpdate in *.
  fold (stateOf s). apply Forall_app in Hv as [Hv _]. rewrite (writeCompact_eq (stateOf s)) by done. cbn [mbind outcome_bind].
  rewrite writeValues_app in *. exact Hw.
Qed.

Lemma write_AuthorizeWithSeedArgs_eq a e :
  e_err e = None → Forall value_ok (fields_AuthorizeWithSeedArgs a) → authorize_shape (ws_AuthorizationType a) →
  write_AuthorizeWithSeedArgs a e = Ok (writeValues (fields_AuthorizeWithSeedArgs a) e).
Proof.
  intros He Hv Hn. pose proof (writeErr_values _ _ Hv He) as Hw. unfold write_AuthorizeWithSeedArgs, fields_AuthorizeWithSeedArgs in *.
  apply Forall_app in Hv as [Hv _]. rewrite write_VoteAuthorize_eq by done. cbn [mbind outcome_bind].
  rewrite writeValues_app in *. exact Hw.
Qed.

Lemma write_AuthorizeCheckedWithSeedArgs_eq a e :
  e_err e = None → Forall value_ok (fields_AuthorizeCheckedWithSeedArgs a) → authorize_shape (wc_AuthorizationType a) →
  write_AuthorizeCheckedWithSeedArgs a e = Ok (writeValues (fields_AuthorizeCheckedWithSeedArgs a) e).
Proof.
  intros He Hv Hn. pose proof (writeErr_values _ _ Hv He) as Hw.
  unfold write_AuthorizeCheckedWithSeedArgs, fields_AuthorizeCheckedWithSeedArgs in *.
  apply Forall_app in Hv as [Hv _]. rewrite write_VoteAuthorize_eq by done. cbn [mbind outcome_bind].
  rewrite writeValues_app in *. exact Hw.
Qed.

(** An instruction in the domain encodes to its layout unless its seed is too long. *)
Lemma voteData_ok b : vote_ok b → refuse b = None → Data b = Ok (wireOf b).
Proof.
  intros [Hv Hs] Hr. pose proof (finish_values errWire _ Hv) as Hf. unfold fieldsOk in Hv.
  destruct b; cbn [fields shape refuse Data] in *; try exact Hf; try reflexivity;
    unfold Data_Authorize, Data_Vote, Data_VoteSwitch, Data_AuthorizeChecked, Data_UpdateVoteState, Data_UpdateVoteStateSwitch,
      Data_AuthorizeWithSeed, Data_AuthorizeCheckedWithSeed, Data_CompactUpdateVoteState, Data_CompactUpdateVoteStateSwitch,
      Data_TowerSync, Data_TowerSyncSwitch, Data_UpdateCommissionCollector, Data_UpdateCommissionBps, validateKind,
      refuse_seed, MaxSeedLength, CommissionKindBlockRevenue, orElse in *;
    rewrite ?Forall_cons, ?Forall_app in Hv; destruct_and? Hv; try (rewrite decide_False by lia; exact Hf);
    try (case_decide; [done|]);
    (rewrite ?write_VoteAuthorize_eq, ?write_voteData_eq, ?write_VoteStateUpdate_eq, ?writeCompact_eq, ?write_TowerSyncUpdate_eq,
      ?write_AuthorizeWithSeedArgs_eq, ?write_AuthorizeCheckedWithSeedArgs_eq by (first [done | apply Hs]));
    cbn [mbind outcome_bind writeValues] in *; rewrite ?writeValues_app in Hf; exact Hf.
Qed.

(** What [refuse] names is what the encoder returns, whatever the other fields. *)
Lemma writeDeltas_refused previous ls e err : refuse_deltas previous ls = Some err → writeDeltas previous ls e = Err err.
Proof.
  revert previous e. induction ls as [|l ls IH]; intros previous e Hr; [done|]. cbn [refuse_deltas writeDeltas] in *.
  case_decide; [by injection Hr as <-|]. case_decide; [by injection Hr as <-|]. by apply IH.
Qed.

Lemma write_VoteAuthorize_refused a e err : refuse_VoteAuthorize a = Some err → write_VoteAuthorize a e = Err err.
Proof.
  unfold refuse_VoteAuthorize, write_VoteAuthorize, VoteAuthorizeVoterWithBLS. intros Hr. case_decide; [by injection Hr as <-|].
  cbv zeta. case_decide; [|done]. destruct (BLSPubkey a), (BLSProofOfPossession a); try done; by injection Hr as <-.
Qed.

Lemma writeCompact_refused u e err : refuse_compact (Lockouts u) (Root u) = Some err → writeCompact u e = Err err.
Proof.
  unfold refuse_compact, refuse_count, writeCompact, validate, MaxLockoutHistory. intros Hr.
  case_decide; [by injection Hr as <-|]. cbn [mbind outcome_bind orElse] in *. fold (rootBase (Root u)).
  by rewrite (writeDeltas_refused _ _ _ _ Hr).
Qed.

Lemma voteData_refused b e : refuse b = Some e → Data b = Err e.
Proof.
  intros Hr. destruct b as [| |s h t| | | |s h t p| |[ls ? ? ?]|[ls ? ? ?] ?| | | | |[]|[]| | | |]; cbn [refuse Data] in *; try done.
  all: unfold Data_Authorize, Data_Vote, Data_VoteSwitch, Data_AuthorizeChecked, Data_UpdateVoteState, Data_UpdateVoteStateSwitch,
      Data_AuthorizeWithSeed, Data_AuthorizeCheckedWithSeed, Data_CompactUpdateVoteState, Data_CompactUpdateVoteStateSwitch,
      Data_TowerSync, Data_TowerSyncSwitch, Data_UpdateCommissionCollector, Data_UpdateCommissionBps, validateKind,
      refuse_kind, refuse_count, write_voteData, write_VoteStateUpdate, validate, refuse_seed, MaxSeedLength, MaxLockoutHistory,
      CommissionKindBlockRevenue, write_TowerSyncUpdate, write_AuthorizeWithSeedArgs, write_AuthorizeCheckedWithSeedArgs in *;
    cbn [vd_Slots Lockouts ts_Lockouts ts_Root ts_Hash ts_Timestamp] in *.
  all: try (by rewrite (write_VoteAuthorize_refused _ _ _ Hr)).
  all: try (by rewrite (writeCompact_refused (mkVoteStateUpdate _ _ _ _) _ _ Hr)).
  all: try (by rewrite (writeCompact_refused _ _ _ Hr)).
  all: case_decide; [by injection Hr as <-|]; cbn [orElse] in Hr; try done; by rewrite (write_VoteAuthorize_refused _ _ _ Hr).
Qed.

Lemma authorize_accepted a : authorize_shape a → refuse_VoteAuthorize a = None.
Proof.
  unfold authorize_shape, refuse_VoteAuthorize. destruct (BLSPubkey a), (BLSProofOfPossession a); try done.
  - intros (-> & _). done.
  - intros ?. by rewrite !decide_False by lia.
Qed.

Lemma compact_accepted u :
  Forall value_ok (fields_compact u) → compact_shape u → refuse_compact (Lockouts u) (Root u) = None.
Proof.
  intros Hv (Hn & _). unfold refuse_compact, refuse_count. rewrite decide_False by lia. cbn [orElse].
  unfold fields_compact in Hv. rewrite !Forall_cons, Forall_app in Hv. destruct Hv as (_ & _ & Hv & _). clear Hn.
  revert Hv. generalize (rootBase (Root u)). induction (Lockouts u) as [|l ls IH]; intros previous Hv; [done|].
  cbn [deltaFields refuse_deltas] in *. rewrite !Forall_cons in Hv. destruct Hv as ([? _] & [_ ?] & Hv).
  rewrite !decide_False by lia. by apply IH.
Qed.

(** Past the decoder's seed check nothing is left for the encoder to refuse. *)
Lemma accepted_encodes b typ : vote_ok b → checkSeed typ b = None → refuse b = None.
Proof.
  intros [Hv Hs] Hc. unfold fieldsOk in Hv. destruct b as [| | | | | | | | | | | | | |sync|sync p| | | |];
    cbn [checkSeed refuse shape fields] in *; try done;
    unfold refuse_kind, refuse_count, refuse_seed, MaxSeedLength in *;
    rewrite ?Forall_cons, ?Forall_app in Hv; destruct_and? Hv.
  all: try (rewrite decide_False by lia; done).
  all: try (by apply authorize_accepted).
  all: try (by apply compact_accepted).
  1,2: case_decide; [done|by apply authorize_accepted].
  all: apply (compact_accepted (stateOf sync)); [|done].
  - unfold fields_TowerSyncUpdate in *. rewrite Forall_app in *. naive_solver.
  - unfold fields_TowerSyncUpdate in *. rewrite Forall_app in *. naive_solver.
Qed.

(** * Properties *)

(** Vote Program instructions, compact vote states included: an instruction
    whose fields are in range and whose lockouts, kinds and BLS keys fit (a root
    of 2^64 - 1 is the compact form's nil) either has a seed longer than 32
    bytes, which encoder and decoder both refuse, or encodes and, whatever
    follows its data, decodes to itself with the accounts given to the decoder.
    Too many or unordered lockouts, bad kinds, missing BLS keys and long seeds
    are refused whatever the other fields hold, with the first error in the
    order the encoder checks. Conversely decoding never panics, and an accepted
    instruction re-encodes to the bytes it was decoded from. *)
Lemma vote_instruction_codec accounts b bad data rest :
  Forall value_ok (fields b) ∧ shape b → bytes_ok rest → bytes_ok data →
  match checkSeed (discriminator b) b with
  | None => ∃ bs, Data b = Ok bs ∧ DecodeInstruction accounts (bs ++ rest) = Ok (mkVote accounts b)
  | Some e => Data b = Err ErrMaxSeedLengthExceeded ∧ DecodeInstruction accounts (wireOf b ++ rest) = Err e
  end ∧
  (∀ e, refuse bad = Some e → Data bad = Err e) ∧
  match DecodeInstruction accounts data with
  | Ok i => v_accounts i = accounts ∧ ∃ bs tl, Data (v_body i) = Ok bs ∧ data = bs ++ tl
  | Err _ => True
  | Panic => False
  end.
Proof.
  intros Hv Hr Hd. assert (is_uint 4 (discriminator b)) as Ht by by destruct b. split; [|split].
  - destruct (checkSeed (discriminator b) b) as [e|] eqn:E.
    + split; [apply voteData_refused; destruct b; try done; cbn [checkSeed refuse] in *; unfold refuse_seed;
        unfold MaxSeedLength in E; by case_decide|]. rewrite voteWire_split.
      apply (tagged_refused ReadUint32 _ _ decodeBody discriminator (tailBytes fields) vote_ok errVoteType
        (λ typ r, errVoteDecode typ (errWire r)) checkSeed (mkVote accounts)); done.
    + exists (wireOf b). split; [apply voteData_ok; [done|by eapply accepted_encodes]|]. rewrite voteWire_split.
      apply (tagged_roundtrip ReadUint32 _ _ decodeBody discriminator (tailBytes fields) vote_ok errVoteType
        (λ typ r, errVoteDecode typ (errWire r)) checkSeed (mkVote accounts)); done.
  - apply voteData_refused.
  - pose proof (tagged_canonical ReadUint32 _ _ decodeBody discriminator (tailBytes fields) vote_ok errVoteType
      (λ typ r, errVoteDecode typ (errWire r)) checkSeed (mkVote accounts) data Hd) as H.
    change (runDecoder _ data) with (DecodeInstruction accounts data) in H.
    destruct (DecodeInstruction accounts data) as [i|e|]; [|done..].
    destruct H as (b' & tl & -> & _ & Hv' & Hc & ->). split; [done|]. exists (wireOf b'), tl.
    rewrite <- voteWire_split. split; [|done]. apply voteData_ok; [done|by eapply accepted_encodes].
Qed.
