(* ===== verification/Metadata.v ===== *)
(** Metadata: the Metaplex Token Metadata codec (programs/token-metadata): the
    data structs, the instructions it builds and decodes (the others of the
    program are kept raw), and the decoders of metadata, master edition, edition
    and edition marker accounts. *)
From Stdlib Require Import ZArith Lia.
From stdpp Require Import base numbers list.
From S2P Require Import Prelude Shortvec Keys PrivateKey ProgramIds Pda Wire Program.

Open Scope Z_scope.
Open Scope wire_scope.

Definition ProgramID : PublicKey := TokenMetadataProgramID.

(** "edition" in ASCII. *)
Definition editionSeed : bytes := [101; 100; 105; 116; 105; 111; 110].

Definition FindMasterEditionAddress `{ed : Ed25519} (mint : PublicKey) : outcome pda_err (PublicKey * Z) :=
  FindProgramAddress ProgramID [metadataSeed; ProgramID; mint; editionSeed].

(** The discriminators the package names codecs for, and the last one. *)
Definition CreateMetadataAccountInstruction : Z := 0.
Definition UpdateMetadataAccountInstruction : Z := 1.
Definition UpdatePrimarySaleHappenedViaTokenInstruction : Z := 4.
Definition SignMetadataInstruction : Z := 7.
Definition CreateMasterEditionInstruction : Z := 10.
Definition PuffMetadataInstruction : Z := 14.
Definition UpdateMetadataAccountV2Instruction : Z := 15.
Definition CreateMetadataAccountV2Instruction : Z := 16.
Definition CreateMasterEditionV3Instruction : Z := 17.
Definition VerifyCollectionInstruction : Z := 18.
Definition UnverifyCollectionInstruction : Z := 22.
Definition RevokeCollectionAuthorityInstruction : Z := 24.

(** * Data structs *)

Record Creator := mkCreator { Address : PublicKey; Verified : bool; Share : Z }.
(** The struct [Data]. *)
Record TokenData := mkTokenData {
  Name : bytes; Symbol : bytes; URI : bytes; SellerFeeBasisPoints : Z; Creators : option (list Creator);
}.
Record Uses := mkUses { UseMethod : Z; UsesRemaining : Z; UsesTotal : Z }.
Record Collection := mkCollection { CollectionVerified : bool; CollectionKey : PublicKey }.
Record DataV2 := mkDataV2 { v2_Data : TokenData; v2_Collection : option Collection; v2_Uses : option Uses }.

Record UpdateMetadataAccountArgs := mkUpdateArgs {
  ua_Data : option TokenData; ua_UpdateAuthority : option PublicKey; ua_PrimarySaleHappened : option bool;
}.
Record UpdateMetadataAccountArgsV2 := mkUpdateArgsV2 {
  u2_Data : option DataV2; u2_UpdateAuthority : option PublicKey; u2_PrimarySaleHappened : option bool;
  u2_IsMutable : option bool;
}.

(** ** Encoding *)

Definition writeCreator (enc : Encoder) (creator : Creator) : Encoder :=
  enc ▷ WritePublicKey (Address creator) ▷ WriteBool (Verified creator) ▷ WriteUint8 (Share creator).
Definition encode_Data (data : TokenData) (enc : Encoder) : Encoder :=
  let enc := enc ▷ WriteBorshString (Name data) ▷ WriteBorshString (Symbol data) ▷ WriteBorshString (URI data)
                 ▷ WriteUint16 (SellerFeeBasisPoints data) ▷ WriteOption (bool_decide (is_Some (Creators data))) in
  match Creators data with
  | None => enc
  | Some creators => foldl writeCreator (WriteUint32 (u32 (len creators)) enc) creators
  end.
Definition writeCollection (c : Collection) (enc : Encoder) : Encoder :=
  enc ▷ WriteBool (CollectionVerified c) ▷ WritePublicKey (CollectionKey c).
Definition writeUses (u : Uses) (enc : Encoder) : Encoder :=
  enc ▷ WriteUint8 (UseMethod u) ▷ WriteUint64 (UsesRemaining u) ▷ WriteUint64 (UsesTotal u).
Definition encode_DataV2 (data : DataV2) (enc : Encoder) : Encoder :=
  enc ▷ encode_Data (v2_Data data) ▷ writeOpt writeCollection (v2_Collection data) ▷ writeOpt writeUses (v2_Uses data).
Definition writeOptionalPublicKey (value : option PublicKey) : Encoder → Encoder := writeOpt WritePublicKey value.
Definition writeOptionalBool (value : option bool) : Encoder → Encoder := writeOpt WriteBool value.

(** ** Decoding *)

Inductive metadata_err :=
  | errMetadataEncode (r : recorded)
  | errMetadataType (r : recorded)
  | errUnknownInstruction (typ : Z)
  | errMetadataDecode (typ : Z) (r : recorded)
  | errDecodeMetadata (r : recorded)
  | errDecodeMasterEditionV2 (r : recorded)
  | errDecodeEdition (r : recorded)
  | errDecodeEditionMarker (r : recorded).

Abbreviation Dec := (GoM Decoder metadata_err) (only parsing).

Definition readCreator : Dec Creator :=
  a ← ReadPublicKey; v ← ReadBool; s ← ReadUint8; mret (mkCreator a v s).
(** [make([]Creator, dec.ReadUint32())] and the loop that fills it. *)
Definition readCreators : Dec (list Creator) :=
  n ← ReadUint32; readN (Z.to_nat n) readCreator.
Definition decode_Data : Dec TokenData :=
  n ← ReadBorshString; s ← ReadBorshString; u ← ReadBorshString; f ← ReadUint16; c ← readOpt readCreators;
  mret (mkTokenData n s u f c).
Definition readCollection : Dec Collection := v ← ReadBool; k ← ReadPublicKey; mret (mkCollection v k).
Definition readUses : Dec Uses := m ← ReadUint8; r ← ReadUint64; t ← ReadUint64; mret (mkUses m r t).
Definition decode_DataV2 : Dec DataV2 :=
  d ← decode_Data; c ← readOpt readCollection; u ← readOpt readUses; mret (mkDataV2 d c u).
Definition decodeUpdateArgs : Dec UpdateMetadataAccountArgs :=
  d ← readOpt decode_Data; a ← readOpt ReadPublicKey; p ← readOpt ReadBool; mret (mkUpdateArgs d a p).
Definition decodeUpdateArgsV2 : Dec UpdateMetadataAccountArgsV2 :=
  d ← readOpt decode_DataV2; a ← readOpt ReadPublicKey; p ← readOpt ReadBool; m ← readOpt ReadBool;
  mret (mkUpdateArgsV2 d a p m).
Definition readOptionalUint64 : Dec (option Z) := readOpt ReadUint64.

(** * Instructions *)

Inductive body :=
  | CreateMetadataAccount (Args : TokenData) (IsMutable : bool)
  | UpdateMetadataAccount (Args : UpdateMetadataAccountArgs)
  | UpdatePrimarySaleHappenedViaToken
  | SignMetadata
  | CreateMasterEdition (MaxSupply : option Z)
  | PuffMetadata
  | UpdateMetadataAccountV2 (Args : UpdateMetadataAccountArgsV2)
  | CreateMetadataAccountV2 (Args : DataV2) (IsMutable : bool)
  | CreateMasterEditionV3 (MaxSupply : option Z)
  | VerifyCollection
  | UnverifyCollection
  | RawInstruction (DataBytes : bytes).

Record MetadataInstruction := mkMetadata { m_accounts : AccountMetaSlice; m_body : body }.

(** ** Constructors *)

Definition metadataAccounts (metadata mint mintAuthority payer updateAuthority system rent : PublicKey) : AccountMetaSlice :=
  [NewAccountMeta metadata true false; NewAccountMeta mint false false; NewAccountMeta mintAuthority false true;
   NewAccountMeta payer true true; NewAccountMeta updateAuthority false false; NewAccountMeta system false false;
   NewAccountMeta rent false false].
Definition updateAccounts (metadata updateAuthority : PublicKey) : AccountMetaSlice :=
  [NewAccountMeta metadata true false; NewAccountMeta updateAuthority false true].
Definition masterEditionAccounts
    (edition mint updateAuthority mintAuthority payer metadata tokenProgram system rent : PublicKey) : AccountMetaSlice :=
  [NewAccountMeta edition true false; NewAccountMeta mint true false; NewAccountMeta updateAuthority false true;
   NewAccountMeta mintAuthority false true; NewAccountMeta payer true true; NewAccountMeta metadata false false;
   NewAccountMeta tokenProgram false false; NewAccountMeta system false false; NewAccountMeta rent false false].
Definition collectionAccounts (metadata authority payer mint metadataCollection edition : PublicKey) : AccountMetaSlice :=
  [NewAccountMeta metadata true false; NewAccountMeta authority false true; NewAccountMeta payer true true;
   NewAccountMeta mint false false; NewAccountMeta metadataCollection false false; NewAccountMeta edition false false].

Definition NewCreateMetadataAccountInstruction (args : TokenData) (isMutable : bool)
    (metadata mint mintAuthority payer updateAuthority system rent : PublicKey) :=
  mkMetadata (metadataAccounts metadata mint mintAuthority payer updateAuthority system rent)
    (CreateMetadataAccount args isMutable).
Definition NewCreateMetadataAccountV2Instruction (args : DataV2) (isMutable : bool)
    (metadata mint mintAuthority payer updateAuthority system rent : PublicKey) :=
  mkMetadata (metadataAccounts metadata mint mintAuthority payer updateAuthority system rent)
    (CreateMetadataAccountV2 args isMutable).
Definition NewUpdateMetadataAccountInstruction (args : UpdateMetadataAccountArgs) (metadata updateAuthority : PublicKey) :=
  mkMetadata (updateAccounts metadata updateAuthority) (UpdateMetadataAccount args).
Definition NewUpdateMetadataAccountV2Instruction (args : UpdateMetadataAccountArgsV2) (metadata updateAuthority : PublicKey) :=
  mkMetadata (updateAccounts metadata updateAuthority) (UpdateMetadataAccountV2 args).
Definition NewCreateMasterEditionInstruction (maxSupply : option Z)
    (edition mint updateAuthority mintAuthority payer metadata tokenProgram system rent : PublicKey) :=
  mkMetadata (masterEditionAccounts edition mint updateAuthority mintAuthority payer metadata tokenProgram system rent)
    (CreateMasterEdition maxSupply).
Definition NewCreateMasterEditionV3Instruction (maxSupply : option Z)
    (edition mint updateAuthority mintAuthority payer metadata tokenProgram system rent : PublicKey) :=
  mkMetadata (masterEditionAccounts edition mint updateAuthority mintAuthority payer metadata tokenProgram system rent)
    (CreateMasterEditionV3 maxSupply).
Definition NewSignMetadataInstruction (metadata creator : PublicKey) :=
  mkMetadata [NewAccountMeta metadata true false; NewAccountMeta creator false true] SignMetadata.
Definition NewPuffMetadataInstruction (metadata : PublicKey) :=
  mkMetadata [NewAccountMeta metadata true false] PuffMetadata.
Definition NewUpdatePrimarySaleHappenedViaTokenInstruction (metadata owner tokenAccount : PublicKey) :=
  mkMetadata [NewAccountMeta metadata true false; NewAccountMeta owner false true; NewAccountMeta tokenAccount false false]
    UpdatePrimarySaleHappenedViaToken.
Definition NewVerifyCollectionInstruction
    (metadata collectionAuthority payer collectionMint collectionMetadata masterEdition : PublicKey) :=
  mkMetadata (collectionAccounts metadata collectionAuthority payer collectionMint collectionMetadata masterEdition)
    VerifyCollection.
Definition NewUnverifyCollectionInstruction
    (metadata collectionAuthority payer collectionMint collectionMetadata masterEdition : PublicKey) :=
  mkMetadata (collectionAccounts metadata collectionAuthority payer collectionMint collectionMetadata masterEdition)
    UnverifyCollection.

(** ** The [Data] methods *)

Definition encoded (e : Encoder) : outcome metadata_err bytes := finish errMetadataEncode e.

Definition Data_CreateMetadataAccount (args : TokenData) (isMutable : bool) : outcome metadata_err bytes :=
  encoded (NewEncoder [] ▷ WriteUint8 CreateMetadataAccountInstruction ▷ encode_Data args ▷ WriteBool isMutable).
Definition Data_CreateMetadataAccountV2 (args : DataV2) (isMutable : bool) : outcome metadata_err bytes :=
  encoded (NewEncoder [] ▷ WriteUint8 CreateMetadataAccountV2Instruction ▷ encode_DataV2 args ▷ WriteBool isMutable).
Definition Data_UpdateMetadataAccount (args : UpdateMetadataAccountArgs) : outcome metadata_err bytes :=
  encoded (NewEncoder [] ▷ WriteUint8 UpdateMetadataAccountInstruction ▷ writeOpt encode_Data (ua_Data args)
           ▷ writeOptionalPublicKey (ua_UpdateAuthority args) ▷ writeOptionalBool (ua_PrimarySaleHappened args)).
Definition Data_UpdateMetadataAccountV2 (args : UpdateMetadataAccountArgsV2) : outcome metadata_err bytes :=
  encoded (NewEncoder [] ▷ WriteUint8 UpdateMetadataAccountV2Instruction ▷ writeOpt encode_DataV2 (u2_Data args)
           ▷ writeOptionalPublicKey (u2_UpdateAuthority args) ▷ writeOptionalBool (u2_PrimarySaleHappened args)
           ▷ writeOptionalBool (u2_IsMutable args)).
Definition masterEditionData (typ : Z) (maxSupply : option Z) : outcome metadata_err bytes :=
  encoded (NewEncoder [] ▷ WriteUint8 typ ▷ writeOpt WriteUint64 maxSupply).
(** [instruction.Data] of an instruction without arguments. *)
Definition plainData (typ : Z) : outcome metadata_err bytes := Ok [u8 typ].

Definition Data (b : body) : outcome metadata_err bytes :=
  match b with
  | CreateMetadataAccount a m => Data_CreateMetadataAccount a m
  | UpdateMetadataAccount a => Data_UpdateMetadataAccount a
  | UpdatePrimarySaleHappenedViaToken => plainData UpdatePrimarySaleHappenedViaTokenInstruction
  | SignMetadata => plainData SignMetadataInstruction
  | CreateMasterEdition n => masterEditionData CreateMasterEditionInstruction n
  | PuffMetadata => plainData PuffMetadataInstruction
  | UpdateMetadataAccountV2 a => Data_UpdateMetadataAccountV2 a
  | CreateMetadataAccountV2 a m => Data_CreateMetadataAccountV2 a m
  | CreateMasterEditionV3 n => masterEditionData CreateMasterEditionV3Instruction n
  | VerifyCollection => plainData VerifyCollectionInstruction
  | UnverifyCollection => plainData UnverifyCollectionInstruction
  | RawInstruction data => Ok data
  end.

(** ** [DecodeInstruction] *)

(** The [switch]; the default case, here [None], keeps the data raw. *)
Definition decodeBody (typ : Z) : Dec (option body) :=
  if decide (RevokeCollectionAuthorityInstruction < typ) then throw (errUnknownInstruction typ)
  else if decide (typ = CreateMetadataAccountInstruction) then
    d ← decode_Data; m ← ReadBool; mret (Some (CreateMetadataAccount d m))
  else if decide (typ = UpdateMetadataAccountInstruction) then a ← decodeUpdateArgs; mret (Some (UpdateMetadataAccount a))
  else if decide (typ = UpdatePrimarySaleHappenedViaTokenInstruction) then mret (Some UpdatePrimarySaleHappenedViaToken)
  else if decide (typ = SignMetadataInstruction) then mret (Some SignMetadata)
  else if decide (typ = CreateMasterEditionInstruction) then
    n ← readOptionalUint64; mret (Some (CreateMasterEdition n))
  else if decide (typ = PuffMetadataInstruction) then mret (Some PuffMetadata)
  else if decide (typ = UpdateMetadataAccountV2Instruction) then
    a ← decodeUpdateArgsV2; mret (Some (UpdateMetadataAccountV2 a))
  else if decide (typ = CreateMetadataAccountV2Instruction) then
    d ← decode_DataV2; m ← ReadBool; mret (Some (CreateMetadataAccountV2 d m))
  else if decide (typ = CreateMasterEditionV3Instruction) then
    n ← readOptionalUint64; mret (Some (CreateMasterEditionV3 n))
  else if decide (typ = VerifyCollectionInstruction) then mret (Some VerifyCollection)
  else if decide (typ = UnverifyCollectionInstruction) then mret (Some UnverifyCollection)
  else mret None.

Definition decodeInstr (accounts : AccountMetaSlice) (data : bytes) : Dec MetadataInstruction :=
  typ ← ReadUint8;
  _ ← checkErr errMetadataType;
  b ← decodeBody typ;
  _ ← checkErr (errMetadataDecode typ);
  mret (mkMetadata accounts (default (RawInstruction data) b)).

Definition DecodeInstruction (accounts : AccountMetaSlice) (data : bytes) : outcome metadata_err MetadataInstruction :=
  runDecoder (decodeInstr accounts data) data.

(** * Accounts *)

Record Metadata := mkMeta {
  Key : Z; UpdateAuthority : PublicKey; Mint : PublicKey; DataOf : TokenData; PrimarySaleHappened : bool; IsMutable : bool;
  EditionNonce : option Z; TokenStandard : option Z; CollectionOf : option Collection; UsesOf : option Uses;
}.

(** [if dec.Remaining() > 0 && dec.ReadOption() { ... }]: the later fields were
    added over time, and an older account ends before them. *)
Definition readTail {A} (read : Dec A) : Dec (option A) :=
  dec ← get;
  if decide (0 < Remaining dec) then readOpt read else mret None.

Definition readMetadata : Dec Metadata :=
  k ← ReadUint8; u ← ReadPublicKey; m ← ReadPublicKey; d ← decode_Data; p ← ReadBool; i ← ReadBool;
  e ← readTail ReadUint8; t ← readTail ReadUint8; c ← readTail readCollection; s ← readTail readUses;
  mret (mkMeta k u m d p i e t c s).
Definition decodeMetadata : Dec Metadata :=
  metadata ← readMetadata;
  _ ← checkErr errDecodeMetadata;
  mret metadata.
Definition DecodeMetadata (data : bytes) : outcome metadata_err Metadata := runDecoder decodeMetadata data.

Record MasterEditionV2 := mkMasterEdition { me_Key : Z; me_Supply : Z; me_MaxSupply : option Z }.
Definition decodeMasterEditionV2 : Dec MasterEditionV2 :=
  k ← ReadUint8; s ← ReadUint64; m ← readOpt ReadUint64;
  _ ← checkErr errDecodeMasterEditionV2;
  mret (mkMasterEdition k s m).
Definition DecodeMasterEditionV2 (data : bytes) : outcome metadata_err MasterEditionV2 :=
  runDecoder decodeMasterEditionV2 data.

Record Edition := mkEdition { e_Key : Z; e_Parent : PublicKey; e_Edition : Z }.
Definition decodeEdition : Dec Edition :=
  k ← ReadUint8; p ← ReadPublicKey; e ← ReadUint64;
  _ ← checkErr errDecodeEdition;
  mret (mkEdition k p e).
Definition DecodeEdition (data : bytes) : outcome metadata_err Edition := runDecoder decodeEdition data.

Record EditionMarker := mkEditionMarker { mk_Key : Z; mk_Ledger : bytes }.
Definition decodeEditionMarker : Dec EditionMarker :=
  k ← ReadUint8; l ← ReadBytes 31;
  _ ← checkErr errDecodeEditionMarker;
  mret (mkEditionMarker k (copy_into (zeros 31) l)).
Definition DecodeEditionMarker (data : bytes) : outcome metadata_err EditionMarker := runDecoder decodeEditionMarker data.

(** * Layouts *)

(** Each struct as its fields in wire order. *)
Definition fields_Creator (c : Creator) : list value := [VPublicKey (Address c); VBool (Verified c); VUint8 (Share c)].
Definition fields_creators (cs : list Creator) : list value := VUint32 (len cs) :: (cs ≫= fields_Creator).
Definition fields_Data (d : TokenData) : list value :=
  [VBorshString (Name d); VBorshString (Symbol d); VBorshString (URI d); VUint16 (SellerFeeBasisPoints d)]
  ++ optFields fields_creators (Creators d).
Definition fields_Collection (c : Collection) : list value := [VBool (CollectionVerified c); VPublicKey (CollectionKey c)].
Definition fields_Uses (u : Uses) : list value := [VUint8 (UseMethod u); VUint64 (UsesRemaining u); VUint64 (UsesTotal u)].
Definition fields_DataV2 (d : DataV2) : list value :=
  fields_Data (v2_Data d) ++ optFields fields_Collection (v2_Collection d) ++ optFields fields_Uses (v2_Uses d).
Definition fields_UpdateArgs (a : UpdateMetadataAccountArgs) : list value :=
  optFields fields_Data (ua_Data a) ++ optValues VPublicKey (ua_UpdateAuthority a)
  ++ optValues VBool (ua_PrimarySaleHappened a).
Definition fields_UpdateArgsV2 (a : UpdateMetadataAccountArgsV2) : list value :=
  optFields fields_DataV2 (u2_Data a) ++ optValues VPublicKey (u2_UpdateAuthority a)
  ++ optValues VBool (u2_PrimarySaleHappened a) ++ optValues VBool (u2_IsMutable a).

(** The fields of each instruction, the discriminator first. *)
Definition fields (b : body) : list value :=
  match b with
  | CreateMetadataAccount d m => VUint8 0 :: fields_Data d ++ [VBool m]
  | UpdateMetadataAccount a => VUint8 1 :: fields_UpdateArgs a
  | UpdatePrimarySaleHappenedViaToken => [VUint8 4]
  | SignMetadata => [VUint8 7]
  | CreateMasterEdition n => VUint8 10 :: optValues VUint64 n
  | PuffMetadata => [VUint8 14]
  | UpdateMetadataAccountV2 a => VUint8 15 :: fields_UpdateArgsV2 a
  | CreateMetadataAccountV2 d m => VUint8 16 :: fields_DataV2 d ++ [VBool m]
  | CreateMasterEditionV3 n => VUint8 17 :: optValues VUint64 n
  | VerifyCollection => [VUint8 18]
  | UnverifyCollection => [VUint8 22]
  | RawInstruction data => [VBytes data]
  end.

Definition wireOf (b : body) : bytes := wire fields b.
Definition discriminator (b : body) : Z := match fields b with VUint8 t :: _ => t | _ => 0 end.
Definition isRaw (b : body) : bool := match b with RawInstruction _ => true | _ => false end.

(** The discriminators of the program that the package keeps raw. *)
Definition rawType (typ : Z) : bool :=
  bool_decide (typ ≤ 24 ∧ typ ∉ [0; 1; 4; 7; 10; 14; 15; 16; 17; 18; 22]).

(** ** Codecs of the structs *)

#[global] Instance Creator_codec : Codec readCreator (wire fields_Creator) (fieldsOk fields_Creator).
Proof. unfold wire. record_codec readCreator fields_Creator. Qed.
#[global] Instance creators_codec : Codec readCreators (wire fields_creators) (fieldsOk fields_creators).
Proof.
  unfold fields_creators. split.
  - intros cs Hcs. unfold fieldsOk, wire in *. destruct (bind_values fields_Creator cs) as [Hb Hv].
    rewrite Forall_cons in Hcs. destruct Hcs as [Hn Hcs]. rewrite fmap_cons. cbn [concat]. rewrite Hb. unfold readCreators.
    eapply reads_codec; [apply _| |exact Hn|reflexivity]. rewrite to_nat_len. apply (codec_reads (enc:=λ xs, concat (wire fields_Creator <$> xs))). split; [done|by apply Hv].
  - unfold readCreators. eapply parses_codec; [apply _|]. intros n.
    eapply parses_mono; [apply (readN_codec _ _ _ _ Creator_codec)|]. intros cs bs [[Hl Hv] ->] Hn. cbn [fields_creators].
    destruct (bind_values fields_Creator cs) as [Hb Hv']. assert (len cs = n) as <- by (unfold len; rewrite Hl; destruct Hn; lia).
    unfold fieldsOk, wire. rewrite Forall_cons, fmap_cons. cbn [concat]. rewrite Hb. split; [split; [done|by apply Hv']|done].
Qed.
#[global] Instance Data_codec : Codec decode_Data (wire fields_Data) (fieldsOk fields_Data).
Proof. unfold wire. record_codec decode_Data fields_Data. Qed.
#[global] Instance Collection_codec : Codec readCollection (wire fields_Collection) (fieldsOk fields_Collection).
Proof. unfold wire. record_codec readCollection fields_Collection. Qed.
#[global] Instance Uses_codec : Codec readUses (wire fields_Uses) (fieldsOk fields_Uses).
Proof. unfold wire. record_codec readUses fields_Uses. Qed.
#[global] Instance DataV2_codec : Codec decode_DataV2 (wire fields_DataV2) (fieldsOk fields_DataV2).
Proof. unfold wire. record_codec decode_DataV2 fields_DataV2. Qed.
#[global] Instance UpdateArgs_codec : Codec decodeUpdateArgs (wire fields_UpdateArgs) (fieldsOk fields_UpdateArgs).
Proof. unfold wire. record_codec decodeUpdateArgs fields_UpdateArgs. Qed.
#[global] Instance UpdateArgsV2_codec : Codec decodeUpdateArgsV2 (wire fields_UpdateArgsV2) (fieldsOk fields_UpdateArgsV2).
Proof. unfold wire. record_codec decodeUpdateArgsV2 fields_UpdateArgsV2. Qed.

(** ** The encoders write the layouts *)

Lemma u32_uint n : is_uint 4 n → u32 n = n.
Proof. intros [? ?]. unfold u32. by apply Z.mod_small. Qed.

Lemma encode_Data_eq d e : fieldsOk fields_Data d → encode_Data d e = writeValues (fields_Data d) e.
Proof.
  destruct d as [n s u f [cs|]]; [|done]. unfold fieldsOk, fields_Data, fields_creators. cbn [app optFields Name Symbol URI SellerFeeBasisPoints Creators].
  rewrite !Forall_cons. intros (_ & _ & _ & _ & _ & Hn & _). unfold encode_Data. cbn [Name Symbol URI SellerFeeBasisPoints Creators].
  rewrite u32_uint by exact Hn. by rewrite (foldl_values fields_Creator).
Qed.

Lemma encode_DataV2_eq d e : fieldsOk fields_DataV2 d → encode_DataV2 d e = writeValues (fields_DataV2 d) e.
Proof.
  intros Hd. unfold fieldsOk, fields_DataV2 in *. rewrite Forall_app in Hd. unfold encode_DataV2.
  rewrite !writeValues_app, <- encode_Data_eq by apply Hd.
  by rewrite (writeOpt_fields fields_Collection writeCollection), (writeOpt_fields fields_Uses writeUses).
Qed.

(** An optional struct whose encoder needs its fields in range. *)
Lemma writeOpt_struct {A} (f : A → list value) w (o : option A) e :
  (∀ x e, fieldsOk f x → w x e = writeValues (f x) e) → optDom (fieldsOk f) o → writeOpt w o e = writeValues (optFields f o) e.
Proof. intros Hw Ho. destruct o; [|done]. cbn in *. by rewrite Hw. Qed.

Lemma metadataData_eq b : fieldsOk fields b → Data b = Ok (wireOf b).
Proof.
  intros Hv. change (wireOf b) with (concat (valueBytes <$> fields b)). rewrite <- (finish_values errMetadataEncode _ Hv).
  unfold fieldsOk in Hv. destruct b as [d m|a| | |n| |a|d m|n| | |raw]; cbn [fields Data] in *; try reflexivity; unfold fields_UpdateArgs, fields_UpdateArgsV2 in *;
    rewrite ?Forall_cons, ?Forall_app, ?optFields_ok in Hv; destruct_and? Hv;
    cbn [writeValues]; rewrite ?writeValues_app.
  - unfold Data_CreateMetadataAccount. by rewrite encode_Data_eq.
  - unfold Data_UpdateMetadataAccount, writeOptionalPublicKey, writeOptionalBool. rewrite (writeOpt_struct fields_Data) by (done || apply encode_Data_eq).
    by rewrite <- !writeOpt_values.
  - unfold masterEditionData. by rewrite <- writeOpt_values.
  - unfold Data_UpdateMetadataAccountV2, writeOptionalPublicKey, writeOptionalBool.
    rewrite (writeOpt_struct fields_DataV2) by (done || apply encode_DataV2_eq). by rewrite <- !writeOpt_values.
  - unfold Data_CreateMetadataAccountV2. by rewrite encode_DataV2_eq.
  - unfold masterEditionData. by rewrite <- writeOpt_values.
Qed.

(** ** [decodeBody] against the layouts *)

(** The wire forms: the instructions with a codec, and the discriminators kept raw. *)
Inductive form := Coded (b : body) | Kept (typ : Z).
Definition formType (w : form) : Z := match w with Coded b => discriminator b | Kept typ => typ end.
Definition formBytes (w : form) : bytes := match w with Coded b => tailBytes fields b | Kept _ => [] end.
Definition formBody (w : form) : option body := match w with Coded b => Some b | Kept _ => None end.
Definition form_ok (w : form) : Prop :=
  match w with Coded b => fieldsOk fields b ∧ isRaw b = false | Kept typ => rawType typ = true end.

Lemma metadataWire_split b : isRaw b = false → wireOf b = [discriminator b] ++ tailBytes fields b.
Proof. by destruct b. Qed.

Lemma metadataBody_reads w : form_ok w → reads (decodeBody (formType w)) (formBody w) (formBytes w).
Proof.
  destruct w as [b|typ]; cbn [form_ok formType formBody formBytes].
  - intros [Hv Hraw]. destruct b; try done; unfold fieldsOk, tailBytes in *; cbn [fields discriminator] in *;
      layout_norm; (step_reads; layout_done).
  - intros Hr. unfold rawType in Hr. apply bool_decide_eq_true in Hr as [H24 Hr]. rewrite !not_elem_of_cons in Hr. destruct_and? Hr.
    unfold decodeBody. rewrite !decide_False by (unfold RevokeCollectionAuthorityInstruction; lia || done). apply reads_ret.
Qed.

Lemma metadataBody_parses typ :
  parses (decodeBody typ) (λ o bs, ∃ w, o = formBody w ∧ formType w = typ ∧ form_ok w ∧ bs = formBytes w).
Proof.
  unfold decodeBody. case_decide; [apply parses_throw|].
  repeat (case_decide; [subst typ; step_parses; intros; eexists (Coded _); cbn [formBody formType form_ok formBytes];
    (split; [reflexivity|]); (split; [reflexivity|]); (split; [split; [|reflexivity]|]); unfold fieldsOk, tailBytes, readOptionalUint64 in *;
    cbn [fields]; layout_done|]).
  apply parses_ret_spec. exists (Kept typ). split_and!; try done. apply bool_decide_eq_true.
  unfold RevokeCollectionAuthorityInstruction in *. rewrite !not_elem_of_cons. split_and!; try done; try lia. apply not_elem_of_nil.
Qed.

#[global] Instance metadata_form : FormCodec decodeBody formType formBytes formBody form_ok (λ _ _, True).
Proof.
  split.
  - intros w Hw. by apply reads_when, metadataBody_reads.
  - intros typ. eapply parses_rest; [apply metadataBody_parses|]. naive_solver.
Qed.

(** Either kind of form, run through the decoder. *)
Lemma metadataForm accounts w rest :
  is_uint 1 (formType w) → form_ok w → bytes_ok rest →
  let data := (formType w :: formBytes w) ++ rest in
  DecodeInstruction accounts data = Ok (mkMetadata accounts (default (RawInstruction data) (formBody w))).
Proof.
  intros Ht Hw Hr data. exact (tagged_form ReadUint8 _ _ decodeBody formType formBytes formBody form_ok (λ _ _, True) errMetadataType
    errMetadataDecode (λ _ _, None) (λ b, mkMetadata accounts (default (RawInstruction data) b)) w rest Ht Hw Hr I).
Qed.

(** * Properties *)

(** C26. Token Metadata instructions: an instruction with a codec encodes and,
    whatever follows its data, decodes to itself with the accounts given to the
    decoder; one of the discriminators without a codec is kept raw, with all of
    its data, and a discriminator past the last one is refused. Conversely
    decoding never panics, and an accepted instruction re-encodes to the bytes it
    was decoded from: to all of them when it was kept raw. *)
Theorem metadata_instruction_codec accounts b typ data rest :
  Forall value_ok (fields b) ∧ isRaw b = false → is_uint 1 typ → bytes_ok rest → bytes_ok data →
  (∃ bs, Data b = Ok bs ∧ DecodeInstruction accounts (bs ++ rest) = Ok (mkMetadata accounts b)) ∧
  (rawType typ = true → DecodeInstruction accounts (typ :: rest) = Ok (mkMetadata accounts (RawInstruction (typ :: rest)))) ∧
  (24 < typ → DecodeInstruction accounts (typ :: rest) = Err (errUnknownInstruction typ)) ∧
  match DecodeInstruction accounts data with
  | Ok i => m_accounts i = accounts ∧
      ∃ bs tl, Data (m_body i) = Ok bs ∧ data = bs ++ tl ∧ (isRaw (m_body i) = true → tl = [])
  | Err _ => True
  | Panic => False
  end.
Proof.
  intros [Hv Hb] Ht Hr Hd.
  split; [|split; [|split]].
  - exists (wireOf b). split; [by apply metadataData_eq|]. rewrite metadataWire_split by done.
    apply (metadataForm accounts (Coded b)); [by destruct b|done..].
  - intros Hraw. exact (metadataForm accounts (Kept typ) rest Ht Hraw Hr).
  - intros H24. destruct (codec_reads (rd:=ReadUint8 (E:=metadata_err)) typ Ht) as [_ Hread]. specialize (Hread [] rest ltac:(constructor) Hr).
    cbn [app] in Hread. unfold DecodeInstruction, runDecoder, decodeInstr. change (NewDecoder ?x) with (at_ x 0).
    erewrite run_bind by exact Hread. rewrite check_at. unfold decodeBody. by rewrite decide_True.
  - pose proof (tagged_accepts ReadUint8 _ _ decodeBody formType formBytes formBody form_ok (λ _ _, True) errMetadataType
      errMetadataDecode (λ _ _, None) (λ b, mkMetadata accounts (default (RawInstruction data) b)) data Hd) as H.
    change (runDecoder _ data) with (DecodeInstruction accounts data) in H.
    destruct (DecodeInstruction accounts data) as [i|e|]; [|done..].
    destruct H as ([b'|t'] & tl & -> & _ & Hw & _ & -> & _); (split; [done|]); cbn [m_body formBody default formType formBytes].
    + destruct Hw as [Hw Hw']. exists (wireOf b'), tl.
      split; [by apply metadataData_eq|]. split; [rewrite metadataWire_split by done; reflexivity|]. intros Hx. change (isRaw b' = true) in Hx. congruence.
    + eexists _, []. split_and!; [reflexivity|exact (eq_sym (app_nil_r _))|done].
Qed.

Lemma metadata_instruction_codec_witness :
  let d := mkTokenData [110] [115] [117] 500 (Some [mkCreator (replicate 32 7) true 100]) in
  let b := CreateMetadataAccountV2 (mkDataV2 d None (Some (mkUses 1 2 3))) true in
  let data := [10; 1; 5; 0; 0; 0; 0; 0; 0; 0; 77] in
  (∃ bs, Data b = Ok bs ∧ DecodeInstruction [] (bs ++ [3]) = Ok (mkMetadata [] b)) ∧
  (rawType 19 = true → DecodeInstruction [] [19; 3] = Ok (mkMetadata [] (RawInstruction [19; 3]))) ∧
  (24 < 19 → DecodeInstruction [] [19; 3] = Err (errUnknownInstruction 19)) ∧
  match DecodeInstruction [] data with
  | Ok i => m_accounts i = [] ∧
      ∃ bs tl, Data (m_body i) = Ok bs ∧ data = bs ++ tl ∧ (isRaw (m_body i) = true → tl = [])
  | Err _ => True
  | Panic => False
  end.
Proof.
  apply (metadata_instruction_codec [] (CreateMetadataAccountV2 (mkDataV2 (mkTokenData [110] [115] [117] 500
    (Some [mkCreator (replicate 32 7) true 100])) None (Some (mkUses 1 2 3))) true) 19 [10; 1; 5; 0; 0; 0; 0; 0; 0; 0; 77] [3]).
  - split; [apply (bool_decide_unpack _); by vm_compute|done].
  - done.
  - apply (bool_decide_unpack _). by vm_compute.
  - apply (bool_decide_unpack _). by vm_compute.
Defined.

(** ** Accounts *)

(** The layout of a metadata account: the fields every version has, then the
    optional ones, in the order they were added. *)
Definition fields_base (m : Metadata) : list value :=
  [VUint8 (Key m); VPublicKey (UpdateAuthority m); VPublicKey (Mint m)] ++ fields_Data (DataOf m)
  ++ [VBool (PrimarySaleHappened m); VBool (IsMutable m)].
Definition tailFields (m : Metadata) : list (list value) :=
  [optValues VUint8 (EditionNonce m); optValues VUint8 (TokenStandard m);
   optFields fields_Collection (CollectionOf m); optFields fields_Uses (UsesOf m)].
(** What an account that ends after the first [k] optional fields can say. *)
Definition upTo (k : nat) (m : Metadata) : Metadata :=
  mkMeta (Key m) (UpdateAuthority m) (Mint m) (DataOf m) (PrimarySaleHappened m) (IsMutable m)
    (if decide (0 < k)%nat then EditionNonce m else None) (if decide (1 < k)%nat then TokenStandard m else None)
    (if decide (2 < k)%nat then CollectionOf m else None) (if decide (3 < k)%nat then UsesOf m else None).
Definition metadataBytes (k : nat) (m : Metadata) : bytes :=
  concat (valueBytes <$> (fields_base m ++ concat (take k (tailFields m)))).

(** An optional field at the end of an account: present, or missing with
    everything after it. *)
Definition tailed {A} (enc : A → bytes) (dom : A → Prop) (o : option A) (bs rest : bytes) : Prop :=
  (optDom dom o ∧ bs = optBytes enc o) ∨ (o = None ∧ bs = [] ∧ rest = []).

Lemma readTail_reads {A} (read : Dec A) enc dom (Hc : Codec read enc dom) o : optDom dom o → reads (readTail read) o (optBytes enc o).
Proof.
  intros Ho. destruct (codec_reads (rd:=readOpt read) o Ho) as [Hb Hr]. split; [done|]. intros pre rest Hp Hrest.
  unfold readTail. rewrite run_get, remaining_at, decide_True by (pose proof (len_optBytes enc o); pose proof (len_nonneg rest); lia).
  by apply Hr.
Qed.

Lemma readTail_when {A B} Q (read : Dec A) enc dom {Hc : Codec read enc dom} f (o : option A) (y : B) b2 bs :
  readsWhen Q (f o) y b2 → optDom dom o → bs = optBytes enc o ++ b2 → readsWhen Q (readTail read ≫= f) y bs.
Proof. intros Hf Hx ->. eapply readsWhen_bind; [by eapply readTail_reads|exact Hf|done]. Qed.

Lemma readTail_end {A B} (Q : bytes → Prop) (read : Dec A) (f : option A → Dec B) y :
  (∀ rest, Q rest → rest = []) → readsWhen Q (f None) y [] → readsWhen Q (readTail read ≫= f) y [].
Proof.
  intros HQ [Hb Hf]. split; [done|]. intros pre rest Hp Hr HR. rewrite <- (Hf pre rest Hp Hr HR). rewrite (HQ rest HR).
  erewrite run_bind; [reflexivity|]. unfold readTail. rewrite run_get, remaining_at, decide_False by (unfold len; cbn; lia). done.
Qed.

Lemma readTail_parses {A} (read : Dec A) enc dom : Codec read enc dom → parsesR (readTail read) (tailed enc dom).
Proof.
  intros Hc d Hd. unfold readTail. apply wp_run_get. case_decide as Hrem.
  - eapply wp_mono; [by apply (codec_parses (rd:=readOpt read))| |done]. intros o d' (? & ? & ? & H). split_and!; [done..|].
    intros He He'. destruct (H He He') as (bs & ? & ?). exists bs. split; [done|by left].
  - apply wp_ret. split_and!; [done..|]. intros _ _. exists []. split; [done|]. right. split_and!; [done..|].
    unfold unread. apply drop_ge. destruct Hd. unfold Remaining, len in *. lia.
Qed.

Tactic Notation "tails" integer(n) :=
  repeat (eapply readsWhen_codec; [apply _| | |]); do n try (eapply readTail_when; [apply _| | |]);
  do 4 try (apply readTail_end; [intros ? HQ; apply HQ; lia|]); try apply reads_when, reads_ret; layout_done.

(** The forward direction: [k] optional fields, then the end of the data. *)
Lemma readMetadata_ends k m :
  (k ≤ 4)%nat → Forall value_ok (fields_base m ++ concat (take k (tailFields m))) →
  readsWhen (λ rest, (k < 4)%nat → rest = []) readMetadata (upTo k m) (metadataBytes k m).
Proof.
  intros Hk. destruct m as [key ua mint d p i en ts c u]. unfold metadataBytes, fields_base, tailFields, upTo, readMetadata.
  cbn [Key UpdateAuthority Mint DataOf PrimarySaleHappened IsMutable EditionNonce TokenStandard CollectionOf UsesOf].
  destruct k as [|[|[|[|[|k]]]]]; [..|lia]; intros Hv; cbn [take concat decide decide_rel] in Hv |- *; rewrite ?app_nil_r in *.
  1: tails 0. 1: tails 1. 1: tails 2. 1: tails 3. 1: tails 4.
Qed.

(** Nothing follows a missing optional field. *)
Lemma tailed_end {A} (enc : A → bytes) dom o bs rest : tailed enc dom o bs rest → bs ++ rest = [] → o = None ∧ bs = [] ∧ rest = [].
Proof.
  intros [[_ ->]|Ht] H; [|done]. exfalso. apply app_nil in H as [H _]. pose proof (len_optBytes enc o) as Hl. by rewrite H in Hl.
Qed.

(** The four optional fields of an accepted account. *)
Lemma tailed_all en ts c u b1 b2 b3 b4 rest :
  tailed (λ v, [v]) is_byte en b1 (b2 ++ b3 ++ b4 ++ rest) → tailed (λ v, [v]) is_byte ts b2 (b3 ++ b4 ++ rest) →
  tailed (wire fields_Collection) (fieldsOk fields_Collection) c b3 (b4 ++ rest) →
  tailed (wire fields_Uses) (fieldsOk fields_Uses) u b4 rest →
  ∀ m, EditionNonce m = en → TokenStandard m = ts → CollectionOf m = c → UsesOf m = u →
  ∃ k, (k ≤ 4)%nat ∧ m = upTo k m ∧ b1 ++ b2 ++ b3 ++ b4 = concat (valueBytes <$> concat (take k (tailFields m))) ∧
    Forall value_ok (concat (take k (tailFields m))) ∧ ((k < 4)%nat → rest = []).
Proof.
  intros H1 H2 H3 H4 [key ua mint d p i en' ts' c' u'] <- <- <- <-.
  unfold tailFields, upTo. cbn [EditionNonce TokenStandard CollectionOf UsesOf Key UpdateAuthority Mint DataOf PrimarySaleHappened IsMutable] in *.
  destruct H1 as [[H1 ->]|(-> & -> & E)].
  2: { apply (tailed_end _ _ _ _ _ H2) in E as (-> & -> & E). apply (tailed_end _ _ _ _ _ H3) in E as (-> & -> & E).
       apply (tailed_end _ _ _ _ _ H4) in E as (-> & -> & E). exists 0%nat. split_and!; [lia|done|done|constructor|done]. }
  destruct H2 as [[H2 ->]|(-> & -> & E)].
  2: { apply (tailed_end _ _ _ _ _ H3) in E as (-> & -> & E). apply (tailed_end _ _ _ _ _ H4) in E as (-> & -> & E).
       exists 1%nat. cbn [take concat]. layout_norm. rewrite !app_nil_r. by split_and!; [lia|..]. }
  destruct H3 as [[H3 ->]|(-> & -> & E)].
  2: { apply (tailed_end _ _ _ _ _ H4) in E as (-> & -> & E).
       exists 2%nat. cbn [take concat]. layout_norm. rewrite !app_nil_r. by split_and!; [lia|..]. }
  destruct H4 as [[H4 ->]|(-> & -> & E)].
  2: { exists 3%nat. cbn [take concat]. layout_norm. rewrite !app_nil_r. by split_and!; [lia|..]. }
  exists 4%nat. cbn [take concat]. layout_norm. rewrite !app_nil_r. split_and!; done || lia.
Qed.

Lemma readMetadata_parses :
  parsesR readMetadata (λ m bs rest, ∃ k, (k ≤ 4)%nat ∧ m = upTo k m ∧ bs = metadataBytes k m ∧
    Forall value_ok (fields_base m ++ concat (take k (tailFields m))) ∧ ((k < 4)%nat → rest = [])).
Proof.
  unfold readMetadata. do 6 (eapply parsesR_codec; [apply _|]; intros ?).
  do 4 (eapply parsesR_then; [eapply readTail_parses, _|]; intros ?).
  eapply parses_rest; [apply parses_ret|]. intros m bs rest [-> ->] b4 H4 b3 H3 b2 H2 b1 H1 Hi Hp Hd Hm Hu Hk.
  cbn [app] in *. rewrite !app_nil_r in *. rewrite <- !app_assoc in *.
  destruct (tailed_all _ _ _ _ _ _ _ _ _ H1 H2 H3 H4
    (mkMeta x x0 x1 x2 x3 x4 x5 x6 x7 x8) eq_refl eq_refl eq_refl eq_refl) as (k & Hk4 & Heq & Hbs & Hv & Hend).
  exists k. split; [done|]. split; [done|]. unfold metadataBytes, fields_base. split; [|split; [|done]].
  - rewrite !fmap_app, !concat_app, <- Hbs. cbn [fmap list_fmap concat valueBytes]. rewrite !app_nil_r, <- !app_assoc. reflexivity.
  - rewrite !Forall_app, !Forall_cons, !Forall_nil. split_and!; done.
Qed.

(** Metadata accounts: an account with the fields every version has and any
    number [k] of the optional ones, in the order they were added, decodes to
    those fields, the missing ones nil; other data may follow only when none is
    missing. Conversely decoding never panics, and the fields of an accepted
    account spell the bytes it was decoded from, up to the end of the data unless
    all of the optional ones are there. *)
Lemma metadata_account_decode k m data rest :
  (k ≤ 4)%nat → Forall value_ok (fields_base m ++ concat (take k (tailFields m))) →
  bytes_ok rest → bytes_ok data →
  ((k = 4)%nat ∨ rest = [] → DecodeMetadata (metadataBytes k m ++ rest) = Ok (upTo k m)) ∧
  match DecodeMetadata data with
  | Ok m => ∃ k tl, data = metadataBytes k m ++ tl ∧ m = upTo k m ∧ ((k < 4)%nat → tl = [])
  | Err _ => True
  | Panic => False
  end.
Proof.
  intros Hk Hv Hr Hd. split.
  - intros Hend. apply (runDecoder_when readMetadata errDecodeMetadata _ _ _ _ (readMetadata_ends k m Hk Hv) Hr).
    intros. destruct Hend; [lia|done].
  - pose proof (runDecoder_checked readMetadata errDecodeMetadata _ data readMetadata_parses Hd) as H.
    change (runDecoder _ data) with (DecodeMetadata data) in H. destruct (DecodeMetadata data) as [m'|e|]; [|done..].
    destruct H as (bs & tl & -> & k' & _ & Heq & -> & _ & Hend). by exists k', tl.
Qed.
