(* ===== verification/ZkProof.v ===== *)
(** ZkProof: the instructions that carry the proofs of confidential transfers
    (programs/token-2022: zk_elgamal_instructions.go, zk_elgamal_decode.go,
    confidential_verify.go, confidential_proof.go, confidential_auxiliary.go,
    confidential_auxiliary_decode.go, confidential_record.go,
    confidential_plan.go, confidential_registry.go): the proof program's
    instructions and context accounts, the record program that stages proofs
    larger than a transaction, the ElGamal registry, and where an instruction
    finds its proofs. *)
From Stdlib Require Import ZArith Lia.
From stdpp Require Import base numbers strings list.
From S2P Require Import Prelude Shortvec Keys ProgramIds Pda Wire Program System Ristretto ElGamal Sigma Validity RangeProof.

Open Scope Z_scope.
Open Scope wire_scope.

(** [int8(b)] of a byte and [byte(o)] of an int8. *)
Definition i8 (v : Z) : Z := (v + 128) mod 256 - 128.

(** [dec.Err()] wrapped with [%w] under a message. *)
Definition errDecoding (msg : string) (_ : recorded) : error := errWrap msg errLibrary.

(** [value := [n]byte{}; copy(value[:], dec.ReadBytes(n))]. *)
Definition readFixed {E} (n : nat) : GoM Decoder E bytes :=
  v ← ReadBytes (Z.of_nat n);
  mret (copy_into (zeros n) v).
Definition readElGamalPubkey {E} : GoM Decoder E ElGamalPubkey := readFixed 32.
Definition readElGamalCiphertext {E} : GoM Decoder E ElGamalCiphertext := readFixed 64.
Definition readAeCiphertext {E} : GoM Decoder E AeCiphertext := readFixed 36.
Definition readPedersenCommitment {E} : GoM Decoder E PedersenCommitment := readFixed 32.
Definition readGroupedElGamalCiphertext2Handles {E} : GoM Decoder E GroupedElGamalCiphertext2Handles := readFixed 96.
Definition readGroupedElGamalCiphertext3Handles {E} : GoM Decoder E GroupedElGamalCiphertext3Handles := readFixed 128.

(** [int8(dec.ReadUint8())]. *)
Definition readInt8 {E} : GoM Decoder E Z := v ← ReadUint8; mret (i8 v).

Definition validateStateSize (data : bytes) (size : Z) (name : string) : outcome error unit :=
  if decide (len data ≠ size) then
    Err (errNewf (("decode " +:+ name) +:+ ": expected bytes")%string [size; len data])
  else Ok tt.

(** * Proof contexts *)

Record ZeroCiphertextProofContext := mkZeroCiphertext { zc_Pubkey : ElGamalPubkey; zc_Ciphertext : ElGamalCiphertext }.
Record CiphertextCiphertextEqualityProofContext := mkCiphertextCiphertext {
  cc_FirstPubkey : ElGamalPubkey; cc_SecondPubkey : ElGamalPubkey;
  cc_FirstCiphertext : ElGamalCiphertext; cc_SecondCiphertext : ElGamalCiphertext }.
Record CiphertextCommitmentEqualityProofContext := mkCiphertextCommitment {
  cm_Pubkey : ElGamalPubkey; cm_Ciphertext : ElGamalCiphertext; cm_Commitment : PedersenCommitment }.
Record PubkeyValidityProofContext := mkPubkeyValidity { pv_Pubkey : ElGamalPubkey }.
Record PercentageWithCapProofContext := mkPercentageWithCap {
  pc_PercentageCommitment : PedersenCommitment; pc_DeltaCommitment : PedersenCommitment;
  pc_ClaimedCommitment : PedersenCommitment; pc_MaxValue : Z }.
Record BatchedRangeProofContext := mkBatchedRange {
  br_Commitments : list PedersenCommitment; br_BitLengths : list Z }.
Record GroupedCiphertext2HandlesValidityProofContext := mkGrouped2 {
  g2_FirstPubkey : ElGamalPubkey; g2_SecondPubkey : ElGamalPubkey;
  g2_GroupedCiphertext : GroupedElGamalCiphertext2Handles }.
Record BatchedGroupedCiphertext2HandlesValidityProofContext := mkBatchedGrouped2 {
  bg2_FirstPubkey : ElGamalPubkey; bg2_SecondPubkey : ElGamalPubkey;
  bg2_GroupedCiphertextLo : GroupedElGamalCiphertext2Handles; bg2_GroupedCiphertextHi : GroupedElGamalCiphertext2Handles }.
Record GroupedCiphertext3HandlesValidityProofContext := mkGrouped3 {
  g3_FirstPubkey : ElGamalPubkey; g3_SecondPubkey : ElGamalPubkey; g3_ThirdPubkey : ElGamalPubkey;
  g3_GroupedCiphertext : GroupedElGamalCiphertext3Handles }.
Record BatchedGroupedCiphertext3HandlesValidityProofContext := mkBatchedGrouped3 {
  bg3_FirstPubkey : ElGamalPubkey; bg3_SecondPubkey : ElGamalPubkey; bg3_ThirdPubkey : ElGamalPubkey;
  bg3_GroupedCiphertextLo : GroupedElGamalCiphertext3Handles; bg3_GroupedCiphertextHi : GroupedElGamalCiphertext3Handles }.

(** Exactly one pointer of the struct is set. *)
Inductive ZKProofContextData :=
  | ZeroCiphertext (c : ZeroCiphertextProofContext)
  | CiphertextCiphertextEquality (c : CiphertextCiphertextEqualityProofContext)
  | CiphertextCommitmentEquality (c : CiphertextCommitmentEqualityProofContext)
  | PubkeyValidity (c : PubkeyValidityProofContext)
  | PercentageWithCap (c : PercentageWithCapProofContext)
  | BatchedRange (c : BatchedRangeProofContext)
  | GroupedCiphertext2HandlesValidity (c : GroupedCiphertext2HandlesValidityProofContext)
  | BatchedGroupedCiphertext2HandlesValidity (c : BatchedGroupedCiphertext2HandlesValidityProofContext)
  | GroupedCiphertext3HandlesValidity (c : GroupedCiphertext3HandlesValidityProofContext)
  | BatchedGroupedCiphertext3HandlesValidity (c : BatchedGroupedCiphertext3HandlesValidityProofContext).

(** The sizes of a proof's context and of the proof. *)
Definition zkProofSizes (discriminator : Z) : option (Z * Z) :=
  if decide (discriminator = 1) then Some (96, 96)
  else if decide (discriminator = 2) then Some (192, 224)
  else if decide (discriminator = 3) then Some (128, 192)
  else if decide (discriminator = 4) then Some (32, 64)
  else if decide (discriminator = 5) then Some (104, 256)
  else if decide (discriminator = 6) then Some (264, 672)
  else if decide (discriminator = 7) then Some (264, 736)
  else if decide (discriminator = 8) then Some (264, 800)
  else if decide (discriminator = 9) then Some (160, 160)
  else if decide (discriminator = 10) then Some (256, 160)
  else if decide (discriminator = 11) then Some (224, 192)
  else if decide (discriminator = 12) then Some (352, 192)
  else None.

Definition decodeBatchedRangeProofContext {E} : GoM Decoder E BatchedRangeProofContext :=
  commitments ← readN 8 readPedersenCommitment;
  bitLengths ← readN 8 ReadUint8;
  mret (mkBatchedRange commitments bitLengths).

(** The [switch] of [decodeZKProofContext]. *)
Definition readZKProofContext (proofType : Z) : GoM Decoder error ZKProofContextData :=
  if decide (proofType = 1) then
    p ← readElGamalPubkey; c ← readElGamalCiphertext; mret (ZeroCiphertext (mkZeroCiphertext p c))
  else if decide (proofType = 2) then
    p1 ← readElGamalPubkey; p2 ← readElGamalPubkey; c1 ← readElGamalCiphertext; c2 ← readElGamalCiphertext;
    mret (CiphertextCiphertextEquality (mkCiphertextCiphertext p1 p2 c1 c2))
  else if decide (proofType = 3) then
    p ← readElGamalPubkey; c ← readElGamalCiphertext; m ← readPedersenCommitment;
    mret (CiphertextCommitmentEquality (mkCiphertextCommitment p c m))
  else if decide (proofType = 4) then p ← readElGamalPubkey; mret (PubkeyValidity (mkPubkeyValidity p))
  else if decide (proofType = 5) then
    p ← readPedersenCommitment; d ← readPedersenCommitment; c ← readPedersenCommitment; m ← ReadUint64;
    mret (PercentageWithCap (mkPercentageWithCap p d c m))
  else if decide (proofType = 6 ∨ proofType = 7 ∨ proofType = 8) then
    c ← decodeBatchedRangeProofContext; mret (BatchedRange c)
  else if decide (proofType = 9) then
    p1 ← readElGamalPubkey; p2 ← readElGamalPubkey; g ← readGroupedElGamalCiphertext2Handles;
    mret (GroupedCiphertext2HandlesValidity (mkGrouped2 p1 p2 g))
  else if decide (proofType = 10) then
    p1 ← readElGamalPubkey; p2 ← readElGamalPubkey;
    lo ← readGroupedElGamalCiphertext2Handles; hi ← readGroupedElGamalCiphertext2Handles;
    mret (BatchedGroupedCiphertext2HandlesValidity (mkBatchedGrouped2 p1 p2 lo hi))
  else if decide (proofType = 11) then
    p1 ← readElGamalPubkey; p2 ← readElGamalPubkey; p3 ← readElGamalPubkey; g ← readGroupedElGamalCiphertext3Handles;
    mret (GroupedCiphertext3HandlesValidity (mkGrouped3 p1 p2 p3 g))
  else if decide (proofType = 12) then
    p1 ← readElGamalPubkey; p2 ← readElGamalPubkey; p3 ← readElGamalPubkey;
    lo ← readGroupedElGamalCiphertext3Handles; hi ← readGroupedElGamalCiphertext3Handles;
    mret (BatchedGroupedCiphertext3HandlesValidity (mkBatchedGrouped3 p1 p2 p3 lo hi))
  else throw (errNewf "decode zk proof context: unknown proof type" [proofType]).

Definition decodeZKProofContext (proofType : Z) (data : bytes) : outcome error ZKProofContextData :=
  runDecoder (context ← readZKProofContext proofType;
              _ ← checkErr (errDecoding "decode zk proof context");
              mret context) data.

(** * Instructions of the proof program *)

Record ZKProofInstructionData := mkZKData {
  zd_Discriminator : Z; zd_ProofAccountOffset : option Z; zd_Context : option ZKProofContextData;
  zd_RawContext : bytes; zd_Proof : bytes }.
Record ZKProofInstruction := mkZK {
  zk_programID : PublicKey; zk_accounts : AccountMetaSlice; zk_data : bytes;
  zk_Decoded : option ZKProofInstructionData }.
Record ZKProofContextState := mkContextState {
  cs_Authority : PublicKey; cs_ProofType : Z; cs_Context : option ZKProofContextData; cs_RawContext : bytes }.

(** The struct seen through the [Instruction] interface. *)
Definition zkInstruction (inst : ZKProofInstruction) : Instruction :=
  mkInstruction (zk_programID inst) (zk_accounts inst) (Ok (zk_data inst)).

(** An instruction of the registry or the record program. *)
Record ConfidentialAuxiliaryInstruction := mkAuxiliary {
  au_programID : PublicKey; au_accounts : AccountMetaSlice; au_data : bytes }.
Definition auxiliaryInstruction (inst : ConfidentialAuxiliaryInstruction) : Instruction :=
  mkInstruction (au_programID inst) (au_accounts inst) (Ok (au_data inst)).

Definition systemInstruction (inst : SystemInstruction) : Instruction :=
  mkInstruction SystemProgramID (s_accounts inst) (wrap_err (λ _, tt) (System.Data (s_body inst))).

(** [ProofLocation]: the offset of an inline proof instruction, or 0 and the
    account of a context verified before. *)
Record ProofLocation := mkLocation {
  InstructionOffset : Z; ContextState : PublicKey; ProofOf : option ZKProofData }.

Definition proofAccounts (locations : list ProofLocation) : AccountMetaSlice :=
  (if existsb (λ location, bool_decide (InstructionOffset location ≠ 0)) locations
   then [NewAccountMeta SysVarInstructionsPubkey false false] else []) ++
  ((λ location, NewAccountMeta (ContextState location) false false) <$>
     filter (λ location, InstructionOffset location = 0) locations).

(** The accounts of a context: [contextAuthority] is dereferenced when
    [contextState] is set. *)
Definition contextAccounts (contextState contextAuthority : option PublicKey) : outcome error AccountMetaSlice :=
  match contextState, contextAuthority with
  | None, _ => Ok []
  | Some state, Some authority => Ok [NewAccountMeta state true false; NewAccountMeta authority false false]
  | Some _, None => Panic
  end.

(** * ElGamal registry and record accounts *)

Record ElGamalRegistry := mkRegistry { er_Owner : PublicKey; er_ElGamalPubkey : ElGamalPubkey }.
Record ElGamalRegistryInstructionData := mkRegistryData { ri_InstructionOffset : Z }.
Record ConfidentialRecord := mkRecord { cr_Version : Z; cr_Authority : PublicKey; cr_Data : bytes }.
Record ConfidentialRecordInstructionData := mkRecordData { rd_Offset : Z; rd_Data : bytes; rd_DataLength : Z }.
Record ConfidentialRecordPlan := mkRecordPlan { rp_CreateAndWrite : list Instruction; rp_Close : Instruction; rp_Space : Z }.
Record ProofContextPlan := mkContextPlan { pp_CreateAndVerify : list Instruction; pp_Close : Instruction }.

Definition validateZKProofData (data : ZKProofData) : outcome error unit :=
  match zkProofSizes (Discriminator data) with
  | None => Err (errNewf "verify ZK proof data: unsupported discriminator" [Discriminator data])
  | Some (contextSize, proofSize) =>
    if decide (len (Context_ data) ≠ contextSize ∨ len (Proof_ data) ≠ proofSize) then
      Err (errNewf "verify ZK proof data: expected context and proof bytes"
             [Discriminator data; contextSize; proofSize; len (Context_ data); len (Proof_ data)])
    else Ok tt
  end.

Definition ProofContextStateSize (discriminator : Z) : outcome error Z :=
  match zkProofSizes discriminator with
  | None => Err (errNewf "proof context state size: unknown discriminator" [discriminator])
  | Some (contextSize, _) => Ok (u64 (contextSize + 33))
  end.

Definition DecodeElGamalRegistry (data : bytes) : outcome error ElGamalRegistry :=
  _ ← validateStateSize data 64 "ElGamal registry";
  Ok (mkRegistry (copy_into zeroKey (sub 0 32 data)) (copy_into (zeros 32) (drop 32 data))).

Definition ConfidentialRecordDataOffset : Z := 33.

Definition DecodeConfidentialRecord (data : bytes) : outcome error ConfidentialRecord :=
  let offset := ConfidentialRecordDataOffset in
  if decide (len data < offset) then
    Err (errNewf "decode confidential record: expected at least bytes" [offset; len data])
  else
  version ← idx data 0;
  authority ← slice data 1 offset;
  content ← slice_from data offset;
  Ok (mkRecord version (copy_into zeroKey authority) content).

Section zk.
Context `{R : Ristretto} {Rnd : Random} {M : Merlin} {Sh : Shake} {ed : PrivateKey.Ed25519}.

Implicit Types service : ConfidentialTransferService.

(** * Building instructions *)

Definition VerifyProof service (data : ZKProofData) (contextState contextAuthority : option PublicKey)
  : outcome error ZKProofInstruction :=
  let payload := [Discriminator data] ++ Context_ data ++ Proof_ data in
  accounts ← contextAccounts contextState contextAuthority;
  Ok (mkZK (ProofProgramID service) accounts payload None).
Definition VerifyProofFromAccount service (discriminator : Z) (proofAccount : PublicKey) (offset : Z)
  (contextState contextAuthority : option PublicKey) : outcome error ZKProofInstruction :=
  let payload := [discriminator] ++ le_bytes 4 offset in
  accounts ← contextAccounts contextState contextAuthority;
  Ok (mkZK (ProofProgramID service) (NewAccountMeta proofAccount false false :: accounts) payload None).
Definition CloseProofContext service (contextState destination authority : PublicKey) : ZKProofInstruction :=
  mkZK (ProofProgramID service)
    [NewAccountMeta contextState true false; NewAccountMeta destination true false; NewAccountMeta authority false true]
    [0] None.

(** The proofs that follow an instruction, each at the offset its location names. *)
Fixpoint appendProofs service (locations : list ProofLocation) (instructions : list Instruction)
  : outcome error (list Instruction) :=
  match locations with
  | [] => Ok instructions
  | location :: locations' =>
    if decide (InstructionOffset location = 0) then appendProofs service locations' instructions else
    match ProofOf location with
    | None => Err (errNewf "build confidential instructions: missing proof at offset" [InstructionOffset location])
    | Some proof =>
      if decide (InstructionOffset location ≠ i8 (len instructions)) then
        Err (errNewf "build confidential instructions: expected proof offset" [len instructions; InstructionOffset location])
      else
      verify ← VerifyProof service proof None None;
      appendProofs service locations' (instructions ++ [zkInstruction verify])
    end
  end.
Definition ConfidentialInstructions service (instruction : Instruction) (locations : list ProofLocation)
  : outcome error (list Instruction) := appendProofs service locations [instruction].

(** * Decoding *)

Definition DecodeZKProofInstruction service (accounts : AccountMetaSlice) (data : bytes) : outcome error ZKProofInstruction :=
  if decide (len data = 0) then Err (errNew "decode zk proof instruction: expected discriminator") else
  discriminator ← idx data 0;
  let decode decoded := Ok (mkZK (ProofProgramID service) accounts data (Some decoded)) in
  if decide (discriminator = 0) then
    if decide (len data ≠ 1) then Err (errNewf "decode zk proof close context: expected 1 byte" [len data]) else
    decode (mkZKData discriminator None None [] [])
  else
  match zkProofSizes discriminator with
  | None => Err (errNewf "decode zk proof instruction: unknown discriminator" [discriminator])
  | Some (contextSize, proofSize) =>
    if decide (len data = 5) then
      tail ← slice_from data 1;
      offset ← runDecoder ReadUint32 tail;
      decode (mkZKData discriminator (Some offset) None [] [])
    else
    let expected := 1 + contextSize + proofSize in
    if decide (len data ≠ expected) then
      Err (errNewf "decode zk proof instruction: expected bytes" [discriminator; expected; len data])
    else
    rawContext ← slice data 1 (1 + contextSize);
    proof ← slice_from data (1 + contextSize);
    context ← decodeZKProofContext discriminator rawContext;
    decode (mkZKData discriminator None (Some context) rawContext proof)
  end.

Definition DecodeProofContextState (data : bytes) : outcome error ZKProofContextState :=
  if decide (len data < 33) then Err (errNewf "decode zk proof context state: expected at least 33 bytes" [len data]) else
  proofType ← idx data 32;
  rawContext ← slice_from data 33;
  authority ← slice_to data 32;
  let authority := copy_into zeroKey authority in
  if decide (proofType = 0) then Ok (mkContextState authority proofType None rawContext) else
  match zkProofSizes proofType with
  | None => Err (errNewf "decode zk proof context state: unknown proof type" [proofType])
  | Some (contextSize, _) =>
    if decide (len rawContext ≠ contextSize) then
      Err (errNewf "decode zk proof context state: expected bytes" [proofType; contextSize + 33; len data])
    else
    context ← decodeZKProofContext proofType rawContext;
    Ok (mkContextState authority proofType (Some context) rawContext)
  end.

(** * Verification *)

(** The [switch] on the discriminator; [validateZKProofData] has excluded others. *)
Definition verifyByDiscriminator service (data : ZKProofData) : outcome error unit :=
  let discriminator := Discriminator data in
  if decide (discriminator = 1) then VerifyZeroCiphertextProof service data
  else if decide (discriminator = 2) then VerifyCiphertextCiphertextEqualityProof service data
  else if decide (discriminator = 3) then VerifyCiphertextCommitmentEqualityProof service data
  else if decide (discriminator = 4) then VerifyPubkeyValidityProof service data
  else if decide (discriminator = 5) then VerifyPercentageWithCapProof service data
  else if decide (discriminator = 6 ∨ discriminator = 7 ∨ discriminator = 8) then VerifyBatchedRangeProof service data
  else if decide (discriminator = 9) then VerifyGroupedCiphertext2HandlesValidityProof service data
  else if decide (discriminator = 10) then VerifyBatchedGroupedCiphertext2HandlesValidityProof service data
  else if decide (discriminator = 11) then VerifyGroupedCiphertext3HandlesValidityProof service data
  else if decide (discriminator = 12) then VerifyBatchedGroupedCiphertext3HandlesValidityProof service data
  else Ok tt.
Definition VerifyZKProofData service (data : ZKProofData) : outcome error unit :=
  _ ← wrap_err invalidProofError (validateZKProofData data);
  wrap_err invalidProofError (verifyByDiscriminator service data).

(** * Record program *)

Definition InitializeConfidentialRecord service (record authority : PublicKey) : ConfidentialAuxiliaryInstruction :=
  mkAuxiliary (RecordProgramID service) [NewAccountMeta record true false; NewAccountMeta authority false false] [0].
Definition WriteConfidentialRecord service (record authority : PublicKey) (offset : Z) (data : bytes)
  : ConfidentialAuxiliaryInstruction :=
  mkAuxiliary (RecordProgramID service) [NewAccountMeta record true false; NewAccountMeta authority false true]
    ([1] ++ le_bytes 8 offset ++ le_bytes 4 (u32 (len data)) ++ data).
Definition SetConfidentialRecordAuthority service (record authority newAuthority : PublicKey)
  : ConfidentialAuxiliaryInstruction :=
  mkAuxiliary (RecordProgramID service)
    [NewAccountMeta record true false; NewAccountMeta authority false true; NewAccountMeta newAuthority false false] [2].
Definition CloseConfidentialRecord service (record authority destination : PublicKey) : ConfidentialAuxiliaryInstruction :=
  mkAuxiliary (RecordProgramID service)
    [NewAccountMeta record true false; NewAccountMeta authority false true; NewAccountMeta destination true false] [3].
Definition ReallocateConfidentialRecord service (record authority : PublicKey) (dataLength : Z)
  : ConfidentialAuxiliaryInstruction :=
  mkAuxiliary (RecordProgramID service) [NewAccountMeta record true false; NewAccountMeta authority false true]
    ([4] ++ le_bytes 8 dataLength).

(** [for offset := 0; offset < len(proofData); offset += chunkSize]: at most
    [len proofData] rounds. A round after the first has [chunkSize < len proofData],
    so the sum leaves the range of an int only for data of 2^62 bytes. *)
Fixpoint writeChunks (fuel : nat) service (record authority : PublicKey) (proofData : bytes) (offset chunkSize : Z)
  : outcome error (list Instruction) :=
  match fuel with
  | O => Ok []
  | S fuel' =>
    if decide (len proofData ≤ offset) then Ok [] else
    let stop := if decide (chunkSize < len proofData - offset) then offset + chunkSize else len proofData in
    chunk ← slice proofData offset stop;
    rest ← writeChunks fuel' service record authority proofData (i64 (offset + chunkSize)) chunkSize;
    Ok (auxiliaryInstruction (WriteConfidentialRecord service record authority (u64 offset) chunk) :: rest)
  end.

Definition ConfidentialProofRecordInstructions service (payer record authority destination : PublicKey) (lamports : Z)
  (proofData : bytes) (chunkSize : Z) : outcome error ConfidentialRecordPlan :=
  if decide (chunkSize ≤ 0) then Err (errNewf "create confidential proof record: invalid chunk size" [chunkSize]) else
  let space := u64 (u64 (len proofData) + ConfidentialRecordDataOffset) in
  writes ← writeChunks (S (length proofData)) service record authority proofData 0 chunkSize;
  Ok (mkRecordPlan
        ([systemInstruction (NewCreateAccountInstruction lamports space (RecordProgramID service) payer record);
          auxiliaryInstruction (InitializeConfidentialRecord service record authority)] ++ writes)
        (auxiliaryInstruction (CloseConfidentialRecord service record authority destination)) space).
Definition ConfidentialProofRecordInstructionsForProof service (payer record authority destination : PublicKey) (lamports : Z)
  (proof : ZKProofData) (chunkSize : Z) : outcome error ConfidentialRecordPlan :=
  _ ← wrapf "create confidential proof record" (validateZKProofData proof);
  let data := Context_ proof ++ Proof_ proof in
  ConfidentialProofRecordInstructions service payer record authority destination lamports data chunkSize.
Definition VerifyProofFromRecord service (discriminator : Z) (record : PublicKey)
  (contextState contextAuthority : option PublicKey) : outcome error ZKProofInstruction :=
  VerifyProofFromAccount service discriminator record ConfidentialRecordDataOffset contextState contextAuthority.

Definition DecodeConfidentialRecordInstruction service (accounts : AccountMetaSlice) (data : bytes)
  : outcome error (ConfidentialAuxiliaryInstruction * ConfidentialRecordInstructionData) :=
  let invalid := Err (errNew "decode confidential record instruction: invalid data") in
  if decide (len data = 0) then invalid else
  typ ← idx data 0;
  if decide (4 < typ) then invalid else
  decoded ←
    (if decide (typ = 0 ∨ typ = 2 ∨ typ = 3) then
       if decide (len data ≠ 1) then Err (errNewf "decode confidential record instruction: invalid data" [typ])
       else Ok (mkRecordData 0 [] 0)
     else if decide (typ = 1) then
       if decide (len data < 13) then Err (errNew "decode confidential record write: invalid data") else
       offset ← (o ← slice data 1 9; readUint 8 o);
       length ← (l ← slice data 9 13; readUint 4 l);
       if decide (length ≠ u64 (len data - 13)) then
         Err (errNew "decode confidential record write: invalid data length")
       else
       content ← slice_from data 13;
       Ok (mkRecordData offset content 0)
     else
       if decide (len data ≠ 9) then Err (errNew "decode confidential record reallocate: invalid data") else
       dataLength ← (l ← slice_from data 1; readUint 8 l);
       Ok (mkRecordData 0 [] dataLength));
  Ok (mkAuxiliary (RecordProgramID service) accounts data, decoded).

(** * Context accounts *)

Definition ProofContextInstructions service (payer contextState contextAuthority closeDestination : PublicKey) (lamports : Z)
  (data : ZKProofData) : outcome error ProofContextPlan :=
  _ ← wrapf "build proof context instructions" (validateZKProofData data);
  space ← ProofContextStateSize (Discriminator data);
  let create := NewCreateAccountInstruction lamports space (ProofProgramID service) payer contextState in
  verify ← VerifyProof service data (Some contextState) (Some contextAuthority);
  Ok (mkContextPlan [systemInstruction create; zkInstruction verify]
        (zkInstruction (CloseProofContext service contextState closeDestination contextAuthority))).
Definition ProofContextFromRecordInstructions service (payer contextState contextAuthority closeDestination record : PublicKey)
  (lamports discriminator : Z) : outcome error ProofContextPlan :=
  space ← ProofContextStateSize discriminator;
  let create := NewCreateAccountInstruction lamports space (ProofProgramID service) payer contextState in
  verify ← VerifyProofFromRecord service discriminator record (Some contextState) (Some contextAuthority);
  Ok (mkContextPlan [systemInstruction create; zkInstruction verify]
        (zkInstruction (CloseProofContext service contextState closeDestination contextAuthority))).

(** * Registry program *)

Definition ElGamalRegistryAddress service (owner : PublicKey) : outcome error (PublicKey * Z) :=
  wrap_err (λ _, errLibrary) (FindProgramAddress (RegistryProgramID service) [str "elgamal-registry"; owner]).

Definition elGamalRegistryInstructions service (instruction : Instruction) (proof : ProofLocation)
  : outcome error (list Instruction) :=
  match ProofOf proof with
  | Some data =>
    if decide (InstructionOffset proof ≠ 0 ∧ Discriminator data ≠ 4) then
      Err (errNewf "build ElGamal registry instructions: expected pubkey validity proof" [Discriminator data])
    else ConfidentialInstructions service instruction [proof]
  | None => ConfidentialInstructions service instruction [proof]
  end.
Definition CreateElGamalRegistry service (owner : PublicKey) (proof : ProofLocation) : outcome error (list Instruction) :=
  '(registry, _) ← wrapf "derive ElGamal registry" (ElGamalRegistryAddress service owner);
  let accounts := [NewAccountMeta registry true false; NewAccountMeta owner false true;
                   NewAccountMeta SystemProgramID false false] ++ proofAccounts [proof] in
  let instruction := mkAuxiliary (RegistryProgramID service) accounts [0; u8 (InstructionOffset proof)] in
  elGamalRegistryInstructions service (auxiliaryInstruction instruction) proof.
Definition UpdateElGamalRegistry service (owner : PublicKey) (proof : ProofLocation) : outcome error (list Instruction) :=
  '(registry, _) ← wrapf "derive ElGamal registry" (ElGamalRegistryAddress service owner);
  let accounts := [NewAccountMeta registry true false] ++ proofAccounts [proof] ++ [NewAccountMeta owner false true] in
  let instruction := mkAuxiliary (RegistryProgramID service) accounts [1; u8 (InstructionOffset proof)] in
  elGamalRegistryInstructions service (auxiliaryInstruction instruction) proof.
Definition DecodeElGamalRegistryInstruction service (accounts : AccountMetaSlice) (data : bytes)
  : outcome error (ConfidentialAuxiliaryInstruction * ElGamalRegistryInstructionData) :=
  let invalid := Err (errNew "decode ElGamal registry instruction: invalid data") in
  if decide (len data ≠ 2) then invalid else
  typ ← idx data 0;
  if decide (1 < typ) then invalid else
  offset ← idx data 1;
  Ok (mkAuxiliary (RegistryProgramID service) accounts data, mkRegistryData (i8 offset)).
End zk.
