(* ===== verification/ZkProofSpec.v ===== *)
(** ZkProofSpec: the proofs this package makes are the proofs it sends and accepts.
    [generated] is the set of proof data its generators return; every one of them
    has the sizes of its kind, is accepted by the dispatch of VerifyZKProofData under
    the conditions of [generated_verifies] and never as another kind, and reaches the
    proof program unchanged, inline or through a record account written in chunks. *)
From Stdlib Require Import ZArith Lia.
From stdpp Require Import base numbers strings list.
From S2P Require Import Prelude Shortvec Keys ProgramIds Pda Wire Program System Sha3 Ristretto ToyGroup Mnemonic ElGamal ElGamalSpec Sigma SigmaSpec Validity ValiditySpec RangeProof RangeProofSpec ZkProof.

Open Scope Z_scope.

(** * Codecs of the values a proof context is made of *)

#[global] Instance readFixed_codec {E} n : Codec (E:=E) (readFixed n) (λ x, x) (array_ok (Z.of_nat n)).
Proof.
  split.
  - intros x Hx. eapply reads_codec; [apply _| |exact Hx|by rewrite app_nil_r].
    rewrite copy_into_full; [apply reads_ret|]. destruct Hx as [Hl _]. rewrite length_zeros. unfold len in Hl. lia.
  - eapply parses_codec; [apply _|]. intros x. apply parses_ret_spec. intros [Hl Hx].
    rewrite copy_into_full by (rewrite length_zeros; unfold len in Hl; lia). rewrite app_nil_r. by split.
Qed.
#[global] Instance readElGamalPubkey_codec {E} : Codec (E:=E) readElGamalPubkey (λ x, x) (array_ok 32) := readFixed_codec 32.
#[global] Instance readElGamalCiphertext_codec {E} : Codec (E:=E) readElGamalCiphertext (λ x, x) (array_ok 64) := readFixed_codec 64.
#[global] Instance readAeCiphertext_codec {E} : Codec (E:=E) readAeCiphertext (λ x, x) (array_ok 36) := readFixed_codec 36.
#[global] Instance readPedersenCommitment_codec {E} : Codec (E:=E) readPedersenCommitment (λ x, x) (array_ok 32) := readFixed_codec 32.
#[global] Instance readGrouped2_codec {E} : Codec (E:=E) readGroupedElGamalCiphertext2Handles (λ x, x) (array_ok 96) := readFixed_codec 96.
#[global] Instance readGrouped3_codec {E} : Codec (E:=E) readGroupedElGamalCiphertext3Handles (λ x, x) (array_ok 128) := readFixed_codec 128.

(** A decoder that reads any [n] bytes. *)
Definition reads_any {E A} (n : nat) (m : GoM Decoder E A) : Prop :=
  ∀ data, bytes_ok data → length data = n → ∃ x, reads m x data.

Lemma reads_any_bind {E A B} n k (m : GoM Decoder E A) (f : A → GoM Decoder E B) :
  reads_any n m → (∀ x, reads_any k (f x)) → reads_any (n + k) (m ≫= f).
Proof.
  intros Hm Hf data Hd Hl. rewrite <-(take_drop n data) in Hd. apply Forall_app in Hd as [H1 H2].
  destruct (Hm _ H1) as [x Hx]; [rewrite length_take; lia|]. destruct (Hf x _ H2) as [y Hy]; [rewrite length_drop; lia|].
  exists y. eapply reads_bind; [exact Hx|exact Hy|by rewrite take_drop].
Qed.
Lemma reads_any_ret {E A} (x : A) : reads_any (E:=E) 0 (mret x).
Proof. intros [|? ?] _ Hl; [|done]. exists x. apply reads_ret. Qed.
Lemma reads_any_codec {E} (m : GoM Decoder E bytes) n dom :
  Codec m (λ x, x) dom → (∀ x, bytes_ok x → length x = n → dom x) → reads_any n m.
Proof. intros Hc Hdom data Hd Hl. exists data. apply Hc. auto. Qed.
Lemma reads_any_fixed {E} n : reads_any (E:=E) n (readFixed n).
Proof. eapply reads_any_codec; [apply _|]. intros x Hx <-. by split. Qed.
Lemma reads_any_uint8 {E} : reads_any (E:=E) 1 ReadUint8.
Proof.
  intros data Hd Hl. destruct data as [|b [|? ?]]; try done. exists b. apply Forall_cons in Hd as [Hb _].
  by apply (codec_reads (Codec:=codec_uint8)).
Qed.
Lemma reads_any_uint64 {E} : reads_any (E:=E) 8 ReadUint64.
Proof.
  intros data Hd Hl. exists (le_val data). rewrite <-(le_bytes_le_val data) at 2 by done. rewrite Hl. apply codec_reads.
  pose proof (le_val_bound data Hd) as Hb. unfold len in Hb. rewrite Hl in Hb. exact Hb.
Qed.
Lemma reads_any_N {E A} k n (m : GoM Decoder E A) : reads_any n m → reads_any (k * n) (readN k m).
Proof.
  intros Hm. induction k as [|k IH]; [apply reads_any_ret|]. cbn [readN Nat.mul]. apply reads_any_bind; [exact Hm|]. intros x.
  rewrite <-(Nat.add_0_r (k * n)). apply reads_any_bind; [exact IH|]. intros xs. apply reads_any_ret.
Qed.

Lemma reads_any_eq {E A} n k (m : GoM Decoder E A) : reads_any n m → n = k → reads_any k m.
Proof. by intros ? <-. Qed.

(** The kinds of proof and their sizes. *)
Lemma zkProofSizes_cases (P : Z → Z → Z → Prop) :
  P 1 96 96 → P 2 192 224 → P 3 128 192 → P 4 32 64 → P 5 104 256 → P 6 264 672 → P 7 264 736 → P 8 264 800 →
  P 9 160 160 → P 10 256 160 → P 11 224 192 → P 12 352 192 →
  ∀ d a b, zkProofSizes d = Some (a, b) → P d a b.
Proof. intros ? ? ? ? ? ? ? ? ? ? ? ? d a b H. unfold zkProofSizes in H. repeat case_decide; try done; by simplify_eq. Qed.

Lemma context_any d a b : zkProofSizes d = Some (a, b) → reads_any (Z.to_nat a) (readZKProofContext d).
Proof.
  revert d a b. apply zkProofSizes_cases; unfold readZKProofContext, decodeBatchedRangeProofContext;
    rewrite ?(decide_False (P := _ = _)), ?(decide_False (P := _ ∨ _)), decide_True by lia;
    (eapply reads_any_eq;
      [ repeat (eapply reads_any_bind;
          [first [apply reads_any_fixed | apply reads_any_uint64 | apply reads_any_N; first [apply reads_any_fixed | apply reads_any_uint8]
                 | repeat (eapply reads_any_bind; [apply reads_any_N; first [apply reads_any_fixed | apply reads_any_uint8]|intros ?]); apply reads_any_ret]
          |intros ?]); apply reads_any_ret
      | reflexivity]).
Qed.

(** The bytes of a context, field by field. *)
Definition contextBytes (c : ZKProofContextData) : bytes :=
  match c with
  | ZeroCiphertext c => zc_Pubkey c ++ zc_Ciphertext c
  | CiphertextCiphertextEquality c => cc_FirstPubkey c ++ cc_SecondPubkey c ++ cc_FirstCiphertext c ++ cc_SecondCiphertext c
  | CiphertextCommitmentEquality c => cm_Pubkey c ++ cm_Ciphertext c ++ cm_Commitment c
  | PubkeyValidity c => pv_Pubkey c
  | PercentageWithCap c => pc_PercentageCommitment c ++ pc_DeltaCommitment c ++ pc_ClaimedCommitment c ++ le_bytes 8 (pc_MaxValue c)
  | BatchedRange c => concat (br_Commitments c) ++ br_BitLengths c
  | GroupedCiphertext2HandlesValidity c => g2_FirstPubkey c ++ g2_SecondPubkey c ++ g2_GroupedCiphertext c
  | BatchedGroupedCiphertext2HandlesValidity c =>
    bg2_FirstPubkey c ++ bg2_SecondPubkey c ++ bg2_GroupedCiphertextLo c ++ bg2_GroupedCiphertextHi c
  | GroupedCiphertext3HandlesValidity c => g3_FirstPubkey c ++ g3_SecondPubkey c ++ g3_ThirdPubkey c ++ g3_GroupedCiphertext c
  | BatchedGroupedCiphertext3HandlesValidity c =>
    bg3_FirstPubkey c ++ bg3_SecondPubkey c ++ bg3_ThirdPubkey c ++ bg3_GroupedCiphertextLo c ++ bg3_GroupedCiphertextHi c
  end.

Lemma fmap_self {A} (xs : list A) : (λ x, x) <$> xs = xs.
Proof. apply list_fmap_id. Qed.
Lemma concat_singletons (xs : bytes) : concat ((λ v, [v]) <$> xs) = xs.
Proof. induction xs as [|x xs IH]; [done|]. cbn. by f_equal. Qed.

#[global] Instance decodeBatchedRangeProofContext_codec {E} :
  Codec (E:=E) decodeBatchedRangeProofContext (λ c, concat (br_Commitments c) ++ br_BitLengths c)
    (λ c, (length (br_Commitments c) = 8%nat ∧ Forall (array_ok 32) (br_Commitments c)) ∧
          (length (br_BitLengths c) = 8%nat ∧ bytes_ok (br_BitLengths c))).
Proof.
  split.
  - intros [cs bs] [Hc Hb]. cbn [br_Commitments br_BitLengths] in *. unfold decodeBatchedRangeProofContext.
    eapply reads_codec; [apply _| |exact Hc|by (cbn beta; rewrite fmap_self)].
    eapply reads_codec; [apply _|apply reads_ret|exact Hb|by (cbn beta; rewrite concat_singletons, app_nil_r)].
  - unfold decodeBatchedRangeProofContext. step_parses. intros. cbn [br_Commitments br_BitLengths].
    rewrite concat_singletons, app_nil_r, fmap_self. split; [by split|done].
Qed.

Lemma context_parses d a b :
  zkProofSizes d = Some (a, b) → parses (readZKProofContext d) (λ c bs, bs = contextBytes c).
Proof.
  revert d a b. apply zkProofSizes_cases; unfold readZKProofContext;
    rewrite ?(decide_False (P := _ = _)), ?(decide_False (P := _ ∨ _)), decide_True by lia;
    step_parses; intros; cbn [contextBytes]; layout_done.
Qed.

(** What a decoder reads is what its specification says. *)
Lemma reads_parses {E A} (m : GoM Decoder E A) x bs P : reads m x bs → parses m P → P x bs.
Proof.
  intros [Hb Hm] Hp. specialize (Hp (NewDecoder bs) (NewDecoder_inv bs Hb)). specialize (Hm [] [] ltac:(constructor) ltac:(constructor)).
  rewrite app_nil_r in Hm. change (at_ ([] ++ bs) (len [])) with (NewDecoder bs) in Hm. unfold wp in Hp. rewrite Hm in Hp.
  destruct Hp as (_ & _ & _ & H). destruct (H eq_refl eq_refl) as (bs' & Hu & HP). unfold unread in Hu. cbn [d_pos d_data at_ NewDecoder app] in Hu.
  rewrite drop_0, (drop_ge bs), app_nil_r in Hu by (rewrite len_nil; unfold len; lia). by rewrite Hu.
Qed.

(** A context of the right size decodes to fields that spell it out. *)
Lemma decode_context d a b data :
  zkProofSizes d = Some (a, b) → bytes_ok data → len data = a →
  ∃ c, decodeZKProofContext d data = Ok c ∧ contextBytes c = data.
Proof.
  intros Hz Hd Hl. destruct (context_any d a b Hz data Hd) as [c Hc]; [unfold len in Hl; lia|]. exists c. split.
  - unfold decodeZKProofContext. rewrite <-(app_nil_r data). apply (runDecoder_when _ _ (λ _, True)); [by apply reads_when|constructor|done].
  - symmetry. apply (reads_parses _ _ _ _ Hc (context_parses d a b Hz)).
Qed.

Section generated.
Context `{R : Ristretto} {L : RistrettoLaws R} {Rnd : Random} {M : Merlin} {ML : MerlinLaws M} {Sh : Shake} {ShL : ShakeLaws Sh}.

Implicit Types service : ConfidentialTransferService.
Implicit Types data : ZKProofData.

(** * What the generators return *)

(** The sigma proofs: every kind but the range proofs. The arrays of the code have
    their sizes, and amounts are unsigned; nothing else is asked of the arguments. *)
Inductive generated_sigma service : ZKProofData → Prop :=
  | generated_zero keypair ciphertext random data random' :
      length ciphertext = 64%nat →
      GenerateZeroCiphertextProof keypair ciphertext random = (Ok data, random') → generated_sigma service data
  | generated_ciphertexts keypair pubkey2 ciphertext1 ciphertext2 opening2 amount random data random' :
      length ciphertext1 = 64%nat →
      GenerateCiphertextCiphertextEqualityProof service keypair pubkey2 ciphertext1 ciphertext2 opening2 amount random
        = (Ok data, random') → generated_sigma service data
  | generated_commitment keypair ciphertext commitment opening amount random data random' :
      length ciphertext = 64%nat →
      GenerateCiphertextCommitmentEqualityProof service keypair ciphertext commitment opening amount random
        = (Ok data, random') → generated_sigma service data
  | generated_pubkey keypair random data random' :
      GeneratePubkeyValidityProof service keypair random = (Ok data, random') → generated_sigma service data
  | generated_percentage percentageC percentageO percentageAmount deltaC deltaO deltaAmount claimedC claimedO maxValue
      random data random' :
      0 ≤ maxValue < 2 ^ 64 →
      GeneratePercentageWithCapProof service percentageC percentageO percentageAmount deltaC deltaO deltaAmount claimedC
        claimedO maxValue random = (Ok data, random') → generated_sigma service data
  | generated_grouped2 publicKeys ciphertext amount opening random data random' :
      length publicKeys = 2%nat →
      GenerateGroupedCiphertext2HandlesValidityProof service publicKeys ciphertext amount opening random = (Ok data, random') →
      generated_sigma service data
  | generated_batched2 publicKeys ciphertexts amounts openings random data random' :
      length publicKeys = 2%nat →
      GenerateBatchedGroupedCiphertext2HandlesValidityProof service publicKeys ciphertexts amounts openings random
        = (Ok data, random') → generated_sigma service data
  | generated_grouped3 publicKeys ciphertext amount opening random data random' :
      length publicKeys = 3%nat →
      GenerateGroupedCiphertext3HandlesValidityProof service publicKeys ciphertext amount opening random = (Ok data, random') →
      generated_sigma service data
  | generated_batched3 publicKeys ciphertexts amounts openings random data random' :
      length publicKeys = 3%nat →
      GenerateBatchedGroupedCiphertext3HandlesValidityProof service publicKeys ciphertexts amounts openings random
        = (Ok data, random') → generated_sigma service data.

(** Every proof: [bitLengths] holds bytes and [amounts] unsigned 64-bit integers, as
    their Go types say. Whether the commitments open to the amounts, and whether the
    amounts fit their bit lengths, the generator of range proofs does not check. *)
Inductive generated service : ZKProofData → Prop :=
  | generated_kind data : generated_sigma service data → generated service data
  | generated_range commitments amounts bitLengths openings random data random' :
      bytes_ok bitLengths → Forall (λ a, 0 ≤ a < 2 ^ 64) amounts →
      GenerateBatchedRangeProof service commitments amounts bitLengths openings random = (Ok data, random') →
      generated service data.

(** * Sizes *)

(** A proof of kind [d] with the sizes of that kind. *)
Definition sized (d : Z) data : Prop :=
  Discriminator data = d ∧ zkProofSizes d = Some (len (Context_ data), len (Proof_ data)) ∧ bytes_ok (Context_ data).

Lemma sized_valid d data : sized d data → validateZKProofData data = Ok tt.
Proof. intros (Hd & Hz & _). unfold validateZKProofData. rewrite Hd, Hz. rewrite decide_False; [done|lia]. Qed.

Lemma encoded_ok ps : bytes_ok (concat (SetRistrettoPoint <$> ps)).
Proof. apply Forall_concat, Forall_fmap, Forall_true. apply SetRistrettoPoint_ok. Qed.

(** The bytes of a context are encoded points, numbers and zeros. *)
Ltac context_ok :=
  unfold ciphertextOf; repeat apply Forall_app_2;
  first [apply SetRistrettoPoint_ok | apply le_bytes_ok | apply zeros_ok | apply encoded_ok | assumption].
Ltac sizes :=
  split; [reflexivity|split; [|cbn [Context_]; context_ok]]; cbn [Context_ Proof_]; unfold len, ciphertextOf;
  rewrite ?length_app, ?SetRistrettoPoint_length, ?ToBytes_length, ?le_bytes_length; reflexivity.

Lemma pubkey_sized service keypair random data random' :
  service_ok service → GeneratePubkeyValidityProof service keypair random = (Ok data, random') → sized 4 data.
Proof.
  intros Hs H. apply GeneratePubkeyValidityProof_inv in H as (? & ? & ? & ? & ? & ? & ->); [|done]. cbv zeta in *. sizes.
Qed.

Lemma zero_sized keypair ciphertext random data random' :
  length ciphertext = 64%nat → GenerateZeroCiphertextProof keypair ciphertext random = (Ok data, random') → sized 1 data.
Proof.
  intros Hl H. unfold GenerateZeroCiphertextProof in H.
  step H p E1. destruct p as [secret P]. apply elGamalKeypairValues_inv in E1 as (_ & -> & _ & Hpk).
  step H q E2. destruct q as [C D]. apply elGamalCiphertextPoints_inv in E2 as ->; [|done].
  gcheck H. step H nonce E3. rewrite Hpk, !pedersenCommitment_eq in H. step H c E4. destruct c as [challenge t1].
  step H w E5. apply mret_inv in H as [<- _]. sizes.
Qed.

(** The proof bytes of an equality proof: a block for each commitment and response. *)
Lemma equalityProofBytes_length ps responses t proof :
  equalityProofBytes (SetRistrettoPoint <$> ps) responses t = Ok proof →
  length proof = (32 * (length ps + length responses))%nat.
Proof.
  unfold equalityProofBytes. intros H. ostep H w E. injection H as <-.
  rewrite length_app, !length_concat_blocks by (apply encoded_blocks || apply scalar_blocks). rewrite !length_fmap. lia.
Qed.

Lemma commitment_sized service keypair ciphertext commitment opening amount random data random' :
  service_ok service → length ciphertext = 64%nat →
  GenerateCiphertextCommitmentEqualityProof service keypair ciphertext commitment opening amount random = (Ok data, random') →
  sized 3 data.
Proof.
  intros Hs Hl H. unfold GenerateCiphertextCommitmentEqualityProof in H.
  step H p E1. destruct p as [secret P]. apply elGamalKeypairValues_inv in E1 as (_ & -> & _ & Hpk).
  step H q E2. destruct q as [C D]. apply elGamalCiphertextPoints_inv in E2 as ->; [|done].
  gcheck H. step H c0 E3. gcheck H. apply dec_stable_eq in n as <-. apply CommitPedersen_inv in E3 as (r & -> & ->); [|done].
  step H r' E4. step H nonces E5. apply equalityProofNonces_inv in E5 as (sn & an & on & ->).
  step H B E6. rewrite Hpk, !pedersenCommitment_eq in H. step H c E7. destruct c as [challenge t1].
  step H prf E8. apply mret_inv in H as [<- _].
  change [SetRistrettoPoint ?a; SetRistrettoPoint ?b; SetRistrettoPoint ?c] with (SetRistrettoPoint <$> [a; b; c]) in E8.
  apply equalityProofBytes_length in E8. split; [done|]. cbn [Context_ Proof_]. split; [|context_ok].
  unfold len. rewrite E8. unfold ciphertextOf. rewrite !length_app, !SetRistrettoPoint_length. reflexivity.
Qed.

Lemma ciphertexts_sized service keypair pubkey2 ciphertext1 ciphertext2 opening2 amount random data random' :
  service_ok service → length ciphertext1 = 64%nat →
  GenerateCiphertextCiphertextEqualityProof service keypair pubkey2 ciphertext1 ciphertext2 opening2 amount random
    = (Ok data, random') → sized 2 data.
Proof.
  intros Hs Hl H. unfold GenerateCiphertextCiphertextEqualityProof in H.
  step H p E1. destruct p as [secret P]. apply elGamalKeypairValues_inv in E1 as (_ & -> & _ & Hpk).
  step H K2 E0. apply ristrettoPoint_inv in E0 as ->.
  step H q E2. destruct q as [C D]. apply elGamalCiphertextPoints_inv in E2 as ->; [|done].
  gcheck H. step H c0 E3. gcheck H. apply dec_stable_eq in n as <-.
  apply EncryptElGamalWithOpening_inv in E3 as (K & r & _ & -> & ->); [|done].
  step H r' E4. step H nonces E5. apply equalityProofNonces_inv in E5 as (sn & an & on & ->).
  step H B E6. rewrite Hpk, !pedersenCommitment_eq in H. step H c E7. destruct c as [challenge t1].
  step H prf E8. apply mret_inv in H as [<- _].
  change [SetRistrettoPoint ?a; SetRistrettoPoint ?b; SetRistrettoPoint ?c; SetRistrettoPoint ?d]
    with (SetRistrettoPoint <$> [a; b; c; d]) in E8.
  apply equalityProofBytes_length in E8. split; [done|]. cbn [Context_ Proof_]. split; [|context_ok].
  unfold len. rewrite E8. unfold ciphertextOf. rewrite !length_app, !SetRistrettoPoint_length. reflexivity.
Qed.

Lemma percentage_sized service percentageC percentageO percentageAmount deltaC deltaO deltaAmount claimedC claimedO maxValue
  random data random' :
  service_ok service →
  GeneratePercentageWithCapProof service percentageC percentageO percentageAmount deltaC deltaO deltaAmount claimedC
    claimedO maxValue random = (Ok data, random') → sized 5 data.
Proof.
  intros Hs H. unfold GeneratePercentageWithCapProof in H.
  step H e1 E1. gcheck H. apply dec_stable_eq in n as <-. apply CommitPedersen_inv in E1 as (rp & -> & ->); [|done].
  step H e2 E2. gcheck H. apply dec_stable_eq in n as <-. apply CommitPedersen_inv in E2 as (rc & -> & ->); [|done].
  gcheck H. step H e3 E3. gcheck H. step H rp' Ep. step H rd' Ed. step H rc' Ec. step H Pc EP.
  step H Dc E4. apply ristrettoPoint_inv in E4 as ->. step H Cc EC. step H B EB.
  step H above E5. step H below E6. apply mret_inv in H as [<- _]. split; [done|]. cbn [Context_ Proof_].
  split; [|unfold percentageWithCapContext; context_ok]. rewrite zip_select by (by rewrite !percentageWithCapProofBytes_length).
  unfold len. replace (length (if decide _ then _ else _)) with 256%nat
    by (case_decide; by rewrite percentageWithCapProofBytes_length).
  unfold percentageWithCapContext. rewrite !length_app, !SetRistrettoPoint_length, le_bytes_length. reflexivity.
Qed.

Lemma range_sized service commitments amounts bitLengths openings random data random' :
  bytes_ok bitLengths →
  GenerateBatchedRangeProof service commitments amounts bitLengths openings random = (Ok data, random') →
  sized (Discriminator data) data ∧ (Discriminator data = 6 ∨ Discriminator data = 7 ∨ Discriminator data = 8).
Proof.
  intros Hok H. unfold GenerateBatchedRangeProof in H. step H par E1. destruct par as [[d size] tot].
  step H ctx E2. destruct ctx as [[context rs] lengths]. unfold batchedRangeProofContext in E2. gcheck E2.
  ostep E2 rs' E3. injection E2 as <- <- <-. unfold len in n. apply contextLoop_inv in E3 as (ps & -> & Hp & -> & Hl); [|lia|lia].
  rewrite !length_fmap in *. destruct (parse_context ps bitLengths Hp ltac:(lia) Hl ltac:(lia)) as [Hclen _].
  rewrite length_fmap in Hclen. step H proof E4. gcheck H. apply mret_inv in H as [<- _]. cbn [Context_ Proof_ Discriminator].
  assert (Hd : d = 6 ∨ d = 7 ∨ d = 8) by (clear -E1; unfold batchedRangeProofParameters in E1; repeat case_decide; try done; injection E1 as <- <- <-; auto).
  split; [split; [done|]|exact Hd]. cbn [Context_ Proof_ Discriminator]. split; [|context_ok]. replace (len (_ ++ _)) with 264 by (symmetry; exact (f_equal Z.of_nat Hclen)).
  apply Z.eq_dne in n0. rewrite n0.
  unfold batchedRangeProofParameters in E1. repeat case_decide; try done; by injection E1 as <- <- <-.
Qed.

Lemma validity_sized service publicKeys ciphertexts amounts openings discriminator label random data random' :
  service_ok service → length amounts = length ciphertexts → length openings = length ciphertexts → (0 < length ciphertexts)%nat →
  generateGroupedCiphertextValidityProof service publicKeys ciphertexts amounts openings discriminator label random = (Ok data, random') →
  Discriminator data = discriminator ∧
  length (Context_ data) = (32 * (length publicKeys + length ciphertexts * (length publicKeys + 1)))%nat ∧
  length (Proof_ data) = ((length publicKeys + 3) * 32)%nat ∧ bytes_ok (Context_ data).
Proof.
  intros Hs Ha Ho Hc H. unfold generateGroupedCiphertextValidityProof in H. step H u E1. destruct u.
  assert (∃ keys, publicKeys = SetRistrettoPoint <$> keys) as [keys ->].
  { destruct ciphertexts as [|ct cts]; [cbn in Hc; lia|]. destruct amounts as [|a amounts]; [done|]. destruct openings as [|o openings]; [done|].
    cbn [checkCiphertexts] in E1. ostep E1 e E. rewrite wrapf_ok in E. apply encryptGroupedElGamal_inv in E as (ks & _ & -> & _); [|done]. by exists ks. }
  apply checkCiphertexts_inv in E1 as (rs & -> & Hcts); [|done|done|done]. rewrite !length_fmap in *.
  step H v E2. destruct v as [[a r] t']. step H proof E3. apply mret_inv in H as [<- _]. cbn [Context_ Proof_ Discriminator].
  apply validity_direct_complete in E3 as [Hlp _]; [|done]. 
  assert (Hgs : ∀ l : list Z, bytes_ok (concat (zip_with (λ a r, groupedOf (SetUint64 a) r keys) l rs))).
  { clear -L. induction rs as [|r rs IH]; intros [|a l]; try constructor. cbn [zip_with concat].
    rewrite groupedOf_blocks. apply Forall_app_2; [apply encoded_ok|apply IH]. }
  split_and!; [done| |done|apply Forall_app_2; [apply encoded_ok|rewrite Hcts; apply Hgs]].
  rewrite length_app, length_concat_blocks, length_fmap by apply encoded_blocks.
  assert (Hl : ∀ l : list Z, length l = length rs →
    length (concat (zip_with (λ a r, groupedOf (SetUint64 a) r keys) l rs)) = (32 * (length l * (length keys + 1)))%nat).
  { clear -L. induction rs as [|r rs IH]; intros [|a l] Hl; try done. cbn [zip_with concat]. rewrite length_app.
    rewrite (IH l) by (by injection Hl). rewrite groupedOf_blocks, length_concat_blocks by apply encoded_blocks.
    rewrite length_fmap. unfold groupPoints. cbn [length]. rewrite length_fmap. lia. }
  rewrite Hcts at 1. rewrite Hl, Ha by lia. lia.
Qed.

Lemma sigma_sized service data : service_ok service → generated_sigma service data → sized (Discriminator data) data.
Proof.
  intros Hs H. destruct H as [| | | | | ? ? ? ? ? ? ? Hk H|? ? ? ? ? ? ? Hk H|? ? ? ? ? ? ? Hk H|? ? ? ? ? ? ? Hk H].
  6-9: apply validity_sized in H as (Hd & Hc & Hp & Hok); [|done|done|done|cbn; lia];
    rewrite Hd; split; [done|]; split; [|done]; unfold len; rewrite Hc, Hp, Hk; reflexivity.
  - assert (Hz := H0). apply zero_sized in Hz; [|done]. by rewrite (proj1 Hz).
  - assert (Hz := H0). apply ciphertexts_sized in Hz; [|done|done]. by rewrite (proj1 Hz).
  - assert (Hz := H0). apply commitment_sized in Hz; [|done|done]. by rewrite (proj1 Hz).
  - assert (Hz := H). apply pubkey_sized in Hz; [|done]. by rewrite (proj1 Hz).
  - assert (Hz := H0). apply percentage_sized in Hz; [|done]. by rewrite (proj1 Hz).
Qed.

Lemma generated_sized service data : service_ok service → generated service data → sized (Discriminator data) data.
Proof. intros Hs [data' H|? ? ? ? ? ? ? Hb _ H]; [by apply (sigma_sized service)|by eapply range_sized]. Qed.

(** * Verification *)

(** None of the blocks listed encodes the identity. *)
Definition nonzero_blocks (indices : list nat) (b : bytes) : Prop := Forall (λ i, block i b ≠ zeros 32) indices.

(** No point that the verifier of the kind refuses to be the identity is the identity.
    They are points of the proof, which are random, and points of the context, which
    are the caller's: public keys, commitments and ciphertexts. A caller who passes
    the identity as a key gets a proof, and the verifier refuses it. *)
Definition identityFree data : Prop :=
  let ctx := Context_ data in
  let prf := Proof_ data in
  match Discriminator data with
  | 1 => nonzero_blocks [0; 1; 2]%nat ctx ∧ nonzero_blocks [0]%nat prf
  | 2 => nonzero_blocks [0; 1; 2; 3]%nat ctx ∧ nonzero_blocks [0; 1; 2; 3]%nat prf
  | 3 => nonzero_blocks [0; 1; 2; 3]%nat ctx ∧ nonzero_blocks [0; 1; 2]%nat prf
  | 4 => nonzero_blocks [0]%nat ctx ∧ nonzero_blocks [0]%nat prf
  | 5 => nonzero_blocks [0; 1; 2]%nat ctx ∧ nonzero_blocks [0; 3; 4]%nat prf
  | 9 => nonzero_blocks (checkedContext 2 1) ctx ∧ nonzero_blocks (seq 0 2) prf
  | 10 => nonzero_blocks (checkedContext 2 2) ctx ∧ nonzero_blocks (seq 0 2) prf
  | 11 => nonzero_blocks (checkedContext 3 1) ctx ∧ nonzero_blocks (seq 0 3) prf
  | 12 => nonzero_blocks (checkedContext 3 2) ctx ∧ nonzero_blocks (seq 0 3) prf
  | _ => nonzero_blocks (pointBlocks ((length prf / 32 - 9) / 2)) prf
  end.

(** The challenges that the verifier of a range proof inverts are not zero. *)
Definition invertible data : Prop := ∀ cs, proofChallenges data = Ok cs → Forall (λ c, c ≠ sNew) cs.

Lemma nonzero_blocks_iff indices b :
  nonzero_blocks indices b ↔ Forall (λ i, sub (i * 32) (i * 32 + 32) b ≠ zeros 32) indices.
Proof. unfold nonzero_blocks, block. apply Forall_iff. intros i. by replace ((i + 1) * 32)%nat with (i * 32 + 32)%nat by lia. Qed.

Lemma validity_verifies service publicKeys ciphertexts amounts openings discriminator label random data random' :
  service_ok service →
  generateGroupedCiphertextValidityProof service publicKeys ciphertexts amounts openings discriminator label random = (Ok data, random') →
  (length publicKeys = 2 ∨ length publicKeys = 3)%nat → (length ciphertexts = 1 ∨ length ciphertexts = 2)%nat →
  length amounts = length ciphertexts → length openings = length ciphertexts →
  Discriminator data = discriminator ∧
  (classifyInvalidProof (verifyGroupedCiphertextValidityProof service data (length publicKeys) (length ciphertexts) discriminator label) = Ok tt ↔
   nonzero_blocks (checkedContext (length publicKeys) (length ciphertexts)) (Context_ data) ∧
   nonzero_blocks (seq 0 (length publicKeys)) (Proof_ data)).
Proof.
  intros Hs H Hk Hc Ha Ho. split; [eapply validity_sized; try done; lia|]. rewrite classify_ok. split.
  - apply validity_proper, Hk.
  - intros [Hx Hp]. by eapply validity_complete.
Qed.

Ltac dispatch Hd := unfold verifyByDiscriminator, identityFree; rewrite Hd; cbn [decide]; cbv zeta.

Lemma sigma_dispatch service data :
  service_ok service → generated_sigma service data → (verifyByDiscriminator service data = Ok tt ↔ identityFree data).
Proof.
  intros Hs H. destruct H.
  - destruct (zero_sized _ _ _ _ _ H H0) as [Hd _]. dispatch Hd. etransitivity; [apply (zero_ciphertext_complete _ _ _ _ _ _ Hs H H0)|].
    unfold nonzero_blocks. rewrite !Forall_cons, !Forall_nil. unfold block. tauto.
  - destruct (ciphertexts_sized _ _ _ _ _ _ _ _ _ _ Hs H H0) as [Hd _]. dispatch Hd.
    rewrite !nonzero_blocks_iff. apply (ciphertext_equality_complete _ _ _ _ _ _ _ _ _ _ Hs H H0).
  - destruct (commitment_sized _ _ _ _ _ _ _ _ _ Hs H H0) as [Hd _]. dispatch Hd.
    rewrite !nonzero_blocks_iff. apply (commitment_equality_complete _ _ _ _ _ _ _ _ _ Hs H H0).
  - destruct (pubkey_sized _ _ _ _ _ Hs H) as (Hd & Hz & _). dispatch Hd. etransitivity; [apply (pubkey_validity_complete _ _ _ _ _ Hs H)|].
    unfold nonzero_blocks. rewrite !Forall_cons, !Forall_nil. unfold block. change (sub (0 * 32) ((0 + 1) * 32) (Context_ data)) with (sub 0 32 (Context_ data)); rewrite (sub_all 32 (Context_ data)); [tauto|]. injection Hz as Hz _. unfold len in Hz. lia.
  - destruct (percentage_sized _ _ _ _ _ _ _ _ _ _ _ _ _ Hs H0) as [Hd _]. dispatch Hd.
    etransitivity; [apply (percentage_complete _ _ _ _ _ _ _ _ _ _ _ _ _ Hs H H0)|]. unfold nonzero_blocks, percentage_points.
    rewrite !Forall_cons, !Forall_nil. unfold block. tauto.
  - destruct (validity_verifies _ _ _ _ _ _ _ _ _ _ Hs H0 (or_introl H) (or_introl eq_refl) eq_refl eq_refl) as [Hd Hv].
    rewrite H in Hv. by dispatch Hd.
  - destruct (validity_verifies _ _ _ _ _ _ _ _ _ _ Hs H0 (or_introl H) (or_intror eq_refl) eq_refl eq_refl) as [Hd Hv].
    rewrite H in Hv. by dispatch Hd.
  - destruct (validity_verifies _ _ _ _ _ _ _ _ _ _ Hs H0 (or_intror H) (or_introl eq_refl) eq_refl eq_refl) as [Hd Hv].
    rewrite H in Hv. by dispatch Hd.
  - destruct (validity_verifies _ _ _ _ _ _ _ _ _ _ Hs H0 (or_intror H) (or_intror eq_refl) eq_refl eq_refl) as [Hd Hv].
    rewrite H in Hv. by dispatch Hd.
Qed.

Lemma verify_dispatch service data :
  sized (Discriminator data) data → (VerifyZKProofData service data = Ok tt ↔ verifyByDiscriminator service data = Ok tt).
Proof.
  intros Hz. unfold VerifyZKProofData. rewrite (sized_valid _ _ Hz). obind. by destruct (verifyByDiscriminator service data) as [[]|e|].
Qed.

Lemma sigma_verifies service data :
  service_ok service → generated_sigma service data → (VerifyZKProofData service data = Ok tt ↔ identityFree data).
Proof. intros Hs H. rewrite verify_dispatch by (by eapply sigma_sized). by apply sigma_dispatch. Qed.

Lemma range_verifies service commitments amounts bitLengths openings random data random' :
  service_ok service →
  GenerateBatchedRangeProof service commitments amounts bitLengths openings random = (Ok data, random') →
  Forall2 (λ ao c, CommitPedersen service ao.1 ao.2 = Ok c) (zip amounts openings) commitments →
  Forall2 (λ a l, 0 ≤ a < 2 ^ l) amounts bitLengths → bytes_ok bitLengths →
  identityFree data → invertible data → VerifyZKProofData service data = Ok tt.
Proof.
  intros Hs H Hc Ha Hok Hi Hch. destruct (range_sized _ _ _ _ _ _ _ _ Hok H) as [Hz Hd]. rewrite verify_dispatch by done.
  assert (Hv : VerifyBatchedRangeProof service data = Ok tt).
  { eapply (range_complete _ _ _ _ _ _ _ _ Hs Hc Ha H Hch). unfold identityFree in Hi. destruct Hd as [Hd|[Hd|Hd]]; rewrite Hd in Hi; exact Hi. }
  unfold verifyByDiscriminator. destruct Hd as [Hd|[Hd|Hd]]; rewrite Hd; exact Hv.
Qed.

(** No two kinds have the same sizes. *)
Lemma sizes_distinct d d' ab : zkProofSizes d = Some ab → zkProofSizes d' = Some ab → d = d'.
Proof. unfold zkProofSizes. repeat case_decide; congruence. Qed.

(** C35. The dispatch of VerifyZKProofData accepts what the generators make, and only
    as what it is. A sigma proof returned by a generator is accepted if and only if
    none of the points that its verifier inspects is the identity: random points of
    the proof, and the caller's keys, commitments and ciphertexts. A returned range
    proof is accepted when its commitments open to the amounts, every amount is
    within its bit length, none of its points is the identity, and no challenge that
    has to be inverted is zero. And no returned proof, range proofs of amounts out of
    range included, is ever accepted under a discriminator other than its own. *)
Theorem generated_verifies service data :
  service_ok service → generated service data →
  (generated_sigma service data → (VerifyZKProofData service data = Ok tt ↔ identityFree data)) ∧
  (∀ commitments amounts bitLengths openings random random',
    GenerateBatchedRangeProof service commitments amounts bitLengths openings random = (Ok data, random') → bytes_ok bitLengths →
    Forall2 (λ ao c, CommitPedersen service ao.1 ao.2 = Ok c) (zip amounts openings) commitments →
    Forall2 (λ a l, 0 ≤ a < 2 ^ l) amounts bitLengths →
    identityFree data → invertible data → VerifyZKProofData service data = Ok tt) ∧
  (∀ d, d ≠ Discriminator data → ∃ e, VerifyZKProofData service (mkProofData d (Context_ data) (Proof_ data)) = Err e).
Proof.
  intros Hs H. split_and!.
  - apply sigma_verifies, Hs.
  - intros commitments amounts bitLengths openings random random' Hr Hok Hc Ha. by eapply range_verifies.
  - intros d Hd. destruct (generated_sized _ _ Hs H) as (_ & Hz & _). unfold VerifyZKProofData, validateZKProofData. cbn [Discriminator Context_ Proof_].
    destruct (zkProofSizes d) as [[a b]|] eqn:Hd'; [|by eexists]. rewrite decide_True; [by eexists|].
    destruct (decide (len (Context_ data) = a)) as [Ea|]; [|by left]. destruct (decide (len (Proof_ data) = b)) as [Eb|]; [|by right].
    destruct Hd. subst. by eapply sizes_distinct.
Qed.

(** C34. What the generators return is well formed. The data of every proof that a
    generator of this package returns, of any kind and from any arguments (a range
    proof of amounts out of range or of commitments that do not match among them), has the sizes the proof program expects of its kind: it passes
    the check made before a proof is verified, sent or staged in a record, and its
    context decodes as the context of its kind, whose fields spell out its bytes. *)
Theorem generated_well_formed service data :
  service_ok service → generated service data →
  validateZKProofData data = Ok tt ∧
  ∃ context, decodeZKProofContext (Discriminator data) (Context_ data) = Ok context ∧ contextBytes context = Context_ data.
Proof.
  intros Hs H. pose proof (generated_sized _ _ Hs H) as Hz. split; [by eapply sized_valid|].
  destruct Hz as (_ & Hz & Hok). by eapply decode_context.
Qed.

(** * Instructions of the proof program *)

Lemma validate_inv data :
  validateZKProofData data = Ok tt → zkProofSizes (Discriminator data) = Some (len (Context_ data), len (Proof_ data)).
Proof.
  unfold validateZKProofData. destruct (zkProofSizes _) as [[a b]|]; [|done]. case_decide; [done|]. intros _. do 2 f_equal; lia.
Qed.

Lemma sizes_big d a b : zkProofSizes d = Some (a, b) → d ≠ 0 ∧ 32 ≤ a ∧ 64 ≤ b.
Proof. revert d a b. apply zkProofSizes_cases; lia. Qed.

(** The bytes of an instruction, from its decoded form. *)
Definition zkBytes (d : ZKProofInstructionData) : bytes :=
  zd_Discriminator d ::
  match zd_ProofAccountOffset d with Some offset => le_bytes 4 offset | None => zd_RawContext d ++ zd_Proof d end.

(** A decoded form is one of the three: closing a context, a proof in an account,
    or a proof in the instruction. *)
Definition zkForm (d : ZKProofInstructionData) : Prop :=
  d = mkZKData 0 None None [] [] ∨
  (∃ disc offset, is_Some (zkProofSizes disc) ∧ is_uint 4 offset ∧ d = mkZKData disc (Some offset) None [] []) ∨
  (∃ proof c, validateZKProofData proof = Ok tt ∧ contextBytes c = Context_ proof ∧
     d = mkZKData (Discriminator proof) None (Some c) (Context_ proof) (Proof_ proof)).

Lemma decode_inline service accounts proof :
  validateZKProofData proof = Ok tt → bytes_ok (Context_ proof) →
  ∃ c, contextBytes c = Context_ proof ∧
    DecodeZKProofInstruction service accounts (Discriminator proof :: Context_ proof ++ Proof_ proof)
    = Ok (mkZK (ProofProgramID service) accounts (Discriminator proof :: Context_ proof ++ Proof_ proof)
            (Some (mkZKData (Discriminator proof) None (Some c) (Context_ proof) (Proof_ proof)))).
Proof.
  intros Hv Hok. apply validate_inv in Hv. pose proof (sizes_big _ _ _ Hv) as (Hd & Ha & Hb).
  destruct (decode_context _ _ _ _ Hv Hok eq_refl) as (c & Hc & Hbytes). exists c. split; [done|].
  set (bs := Discriminator proof :: Context_ proof ++ Proof_ proof).
  assert (Hl : len bs = 1 + len (Context_ proof) + len (Proof_ proof)) by (unfold bs; rewrite len_cons, len_app; lia).
  unfold DecodeZKProofInstruction. rewrite decide_False by lia. rewrite (idx_ok _ _ (Discriminator proof)) by done. obind.
  rewrite decide_False by done. rewrite Hv. rewrite decide_False by lia. rewrite decide_False by lia.
  assert (Hc1 : slice (E := error) bs 1 (1 + len (Context_ proof)) = Ok (Context_ proof)) by (by apply (slice_app [_])).
  assert (Hp1 : slice_from (E := error) bs (1 + len (Context_ proof)) = Ok (Proof_ proof)).
  { apply (slice_from_app (_ :: _)). by rewrite len_cons. }
  rewrite Hc1. obind. rewrite Hp1. obind. by rewrite Hc.
Qed.

Lemma runDecoder_uint32 v : is_uint 4 v → runDecoder (F:=error) ReadUint32 (le_bytes 4 v) = Ok v.
Proof.
  intros Hv. rewrite <-(app_nil_r (le_bytes 4 v)). apply runDecoder_reads; [by apply codec_reads|constructor].
Qed.

Lemma decode_account service accounts disc offset :
  is_Some (zkProofSizes disc) → is_uint 4 offset →
  DecodeZKProofInstruction service accounts (disc :: le_bytes 4 offset)
  = Ok (mkZK (ProofProgramID service) accounts (disc :: le_bytes 4 offset) (Some (mkZKData disc (Some offset) None [] []))).
Proof.
  intros [[a b] Hz] Ho. pose proof (sizes_big _ _ _ Hz) as (Hd & _ & _). unfold DecodeZKProofInstruction.
  assert (Hl : len (disc :: le_bytes 4 offset) = 5) by done. rewrite Hl. rewrite decide_False by lia.
  rewrite (idx_ok _ _ disc) by done. obind. rewrite decide_False by done. rewrite Hz. rewrite decide_True by done.
  assert (Ht : slice_from (E := error) (disc :: le_bytes 4 offset) 1 = Ok (le_bytes 4 offset)) by (by apply (slice_from_app [_])).
  rewrite Ht. obind. by rewrite runDecoder_uint32.
Qed.

(** Instructions of the proof program round-trip. A proof of valid sizes sent
    in an instruction, a proof named by an account and offset, and the closing of a
    context decode to what was passed in, with or without a context account. For
    arbitrary bytes decoding never panics, and what it accepts has one of the three
    forms, whose fields are the bytes given, down to each field of the context. *)
Lemma zk_instruction_codec service (accounts : AccountMetaSlice) :
  (∀ proof contextState contextAuthority inst,
     validateZKProofData proof = Ok tt → bytes_ok (Context_ proof) →
     VerifyProof service proof contextState contextAuthority = Ok inst →
     ∃ c, contextBytes c = Context_ proof ∧
       DecodeZKProofInstruction service accounts (zk_data inst)
       = Ok (mkZK (ProofProgramID service) accounts (zk_data inst)
               (Some (mkZKData (Discriminator proof) None (Some c) (Context_ proof) (Proof_ proof))))) ∧
  (∀ discriminator account offset contextState contextAuthority inst,
     is_Some (zkProofSizes discriminator) → is_uint 4 offset →
     VerifyProofFromAccount service discriminator account offset contextState contextAuthority = Ok inst →
     DecodeZKProofInstruction service accounts (zk_data inst)
     = Ok (mkZK (ProofProgramID service) accounts (zk_data inst) (Some (mkZKData discriminator (Some offset) None [] [])))) ∧
  (∀ contextState destination authority,
     let inst := CloseProofContext service contextState destination authority in
     DecodeZKProofInstruction service accounts (zk_data inst)
     = Ok (mkZK (ProofProgramID service) accounts (zk_data inst) (Some (mkZKData 0 None None [] [])))) ∧
  (∀ data : bytes, bytes_ok data →
     match DecodeZKProofInstruction service accounts data with
     | Ok inst => ∃ d, inst = mkZK (ProofProgramID service) accounts data (Some d) ∧ zkForm d ∧ zkBytes d = data
     | Err _ => True
     | Panic => False
     end).
Proof.
  split_and!.
  - intros proof cs ca inst Hv Hok H. unfold VerifyProof in H. ostep H acc E. injection H as <-. cbn [zk_data].
    by apply decode_inline.
  - intros disc account offset cs ca inst Hz Ho H. unfold VerifyProofFromAccount in H. ostep H acc E. injection H as <-.
    cbn [zk_data]. by apply decode_account.
  - intros cs dst auth inst. reflexivity.
  - intros data Hok. destruct data as [|disc data]; [done|]. apply Forall_cons in Hok as [_ Hok].
    unfold DecodeZKProofInstruction. rewrite decide_False by (rewrite len_cons; pose proof (len_nonneg data); lia).
    rewrite (idx_ok _ _ disc) by done. obind. case_decide as Hd.
    { subst disc. case_decide as Hl; [done|]. rewrite len_cons in Hl. rewrite (len_0 data) by lia.
      eexists. split; [done|]. split; [by left|done]. }
    destruct (zkProofSizes disc) as [[a b]|] eqn:Hz; [|done]. pose proof (sizes_big _ _ _ Hz) as (_ & Ha & Hb).
    case_decide as H5.
    + rewrite len_cons in H5. destruct (take_uint 4 data) as (v & rest & -> & Hv & _); [done|lia|].
      rewrite len_app, len_le_bytes in H5. rewrite (len_0 rest) by lia. rewrite app_nil_r.
      rewrite slice_from_ok by (rewrite len_cons, len_le_bytes; lia). obind.
      change (drop _ _) with (le_bytes 4 v). rewrite runDecoder_uint32 by done. obind.
      eexists. split; [done|]. split; [|done]. right. left. exists disc, v. by rewrite Hz.
    + case_decide as Hl; [done|]. rewrite len_cons in Hl. destruct (split_at data a) as (ctx & prf & -> & Hca & Hco & _); [done|lia|].
      rewrite len_app in Hl. set (proof := mkProofData disc ctx prf).
      assert (Hv : validateZKProofData proof = Ok tt).
      { unfold validateZKProofData. cbn [Discriminator Context_ Proof_ proof]. rewrite Hz. rewrite decide_False; [done|lia]. }
      assert (Hc1 : slice (E := error) (disc :: ctx ++ prf) 1 (1 + a) = Ok ctx) by (apply (slice_app [_]); [done|by rewrite Hca]).
      assert (Hp1 : slice_from (E := error) (disc :: ctx ++ prf) (1 + a) = Ok prf) by (apply (slice_from_app (_ :: _)); by rewrite len_cons, Hca).
      rewrite Hc1. obind. rewrite Hp1. obind. destruct (decode_context _ _ _ _ Hz Hco Hca) as (c & -> & Hbytes). obind.
      eexists. split; [done|]. split; [|done]. right. right. by exists proof, c.
Qed.

(** * Staging a proof in a record account *)

(** What a write does to the content of the record. *)
Definition applyWrite (content : bytes) (w : ConfidentialRecordInstructionData) : bytes :=
  let offset := Z.to_nat (rd_Offset w) in
  take offset content ++ rd_Data w ++ drop (offset + length (rd_Data w)) content.

(** A write of a part of [content] at its place. *)
Definition part_of (content : bytes) (w : ConfidentialRecordInstructionData) : Prop :=
  0 ≤ rd_Offset w ∧ rd_Data w = sub (Z.to_nat (rd_Offset w)) (Z.to_nat (rd_Offset w) + length (rd_Data w)) content ∧
  rd_Offset w + len (rd_Data w) ≤ len content.
Definition covers (i : nat) (w : ConfidentialRecordInstructionData) : Prop :=
  (Z.to_nat (rd_Offset w) ≤ i < Z.to_nat (rd_Offset w) + length (rd_Data w))%nat.

Lemma applyWrite_lookup content buffer w i :
  part_of content w → length buffer = length content →
  length (applyWrite buffer w) = length content ∧
  (covers i w → applyWrite buffer w !! i = content !! i) ∧
  (buffer !! i = content !! i → applyWrite buffer w !! i = content !! i).
Proof.
  intros (Ho & Hd & Hl) Hb. unfold len in Hl. unfold applyWrite, covers.
  set (o := Z.to_nat (rd_Offset w)) in *. assert (Hol : (o + length (rd_Data w) ≤ length content)%nat) by lia. clearbody o.
  assert (Hin : (o ≤ i < o + length (rd_Data w))%nat → (take o buffer ++ rd_Data w ++ drop (o + length (rd_Data w)) buffer) !! i = content !! i).
  { intros Hi. rewrite lookup_app_r by (rewrite length_take; lia). rewrite length_take, Nat.min_l by lia.
    rewrite lookup_app_l by lia. rewrite Hd at 1. unfold sub. rewrite lookup_take_lt by lia. rewrite lookup_drop. f_equal. lia. }
  split_and!; [rewrite !length_app, length_take, length_drop; lia|exact Hin|].
  intros He. destruct (decide (o ≤ i < o + length (rd_Data w))%nat) as [Hi|Hi]; [by apply Hin|]. rewrite <-He.
  destruct (decide (i < o)%nat) as [Hlt|Hge].
  - rewrite lookup_app_l by (rewrite length_take; lia). by rewrite lookup_take_lt.
  - rewrite lookup_app_r by (rewrite length_take; lia). rewrite length_take, Nat.min_l by lia.
    rewrite lookup_app_r by lia. rewrite lookup_drop. f_equal. lia.
Qed.

(** Writes of parts that cover the content produce it, in whatever order. *)
Lemma writes_content content ws buffer :
  Forall (part_of content) ws → length buffer = length content →
  (∀ i, (i < length content)%nat → Exists (covers i) ws ∨ buffer !! i = content !! i) →
  foldl applyWrite buffer ws = content.
Proof.
  revert buffer. induction ws as [|w ws IH]; intros buffer Hp Hl Hc; cbn [foldl].
  - apply list_eq_same_length with (length content); [done|done|]. intros i x y Hi Hx Hy.
    destruct (Hc i Hi) as [H%Exists_nil|H]; [done|congruence].
  - apply Forall_cons in Hp as [Hw Hp]. apply IH; [done|by apply applyWrite_lookup with (i := 0%nat)|].
    intros i Hi. destruct (applyWrite_lookup _ buffer w i Hw Hl) as (_ & H1 & H2).
    destruct (Hc i Hi) as [[H|H]%Exists_cons|H]; auto.
Qed.

Definition writeData (record authority : PublicKey) service (w : ConfidentialRecordInstructionData) : Instruction :=
  auxiliaryInstruction (WriteConfidentialRecord service record authority (rd_Offset w) (rd_Data w)).

Lemma writeChunks_spec service record authority content chunkSize fuel offset :
  0 < chunkSize → len content < 2 ^ 32 → 0 ≤ offset → offset + chunkSize < 2 ^ 63 → len content - offset < Z.of_nat fuel →
  ∃ ws, writeChunks fuel service record authority content offset chunkSize = Ok (writeData record authority service <$> ws) ∧
    Forall (λ w, part_of content w ∧ 0 < len (rd_Data w) ≤ chunkSize ∧ rd_DataLength w = 0) ws ∧
    ∀ i, (Z.to_nat offset ≤ i < length content)%nat → Exists (covers i) ws.
Proof.
  intros Hc Hl. revert offset. induction fuel as [|fuel IH]; intros offset Ho Hb Hf.
  { exists []. split_and!; [done|constructor|]. intros i Hi. unfold len in Hf. lia. }
  cbn [writeChunks]. case_decide as Hend.
  { exists []. split_and!; [done|constructor|]. intros i Hi. unfold len in Hend. lia. }
  set (stop := if decide (chunkSize < len content - offset) then offset + chunkSize else len content).
  assert (Hstop : offset < stop ≤ len content ∧ stop ≤ offset + chunkSize ∧ (stop = len content ∨ stop = offset + chunkSize ∧ offset + chunkSize < len content)).
  { unfold stop. case_decide; lia. }
  clearbody stop. rewrite slice_ok by lia. obind. replace (i64 (offset + chunkSize)) with (offset + chunkSize).
  2:{ unfold i64. rewrite Z.mod_small by lia. lia. }
  set (chunk := drop _ (take _ content)).
  assert (Hlc : len chunk = stop - offset) by (unfold chunk, len in *; rewrite length_drop, length_take; lia).
  assert (Hrest : ∃ ws, writeChunks fuel service record authority content (offset + chunkSize) chunkSize = Ok (writeData record authority service <$> ws) ∧
    Forall (λ w, part_of content w ∧ 0 < len (rd_Data w) ≤ chunkSize ∧ rd_DataLength w = 0) ws ∧
    ∀ i, (Z.to_nat (offset + chunkSize) ≤ i < length content)%nat → Exists (covers i) ws).
  { destruct (decide (offset + chunkSize < len content)) as [Hlt|Hge]; [apply IH; lia|].
    exists []. split_and!; [|constructor|intros i Hi; unfold len in Hge; lia].
    destruct fuel; cbn [writeChunks]; [done|]. by rewrite decide_True by lia. }
  destruct Hrest as (ws & -> & Hws & Hcov). obind. exists (mkRecordData offset chunk 0 :: ws). split_and!.
  - rewrite fmap_cons. do 2 f_equal. unfold writeData. cbn [rd_Offset rd_Data]. do 2 f_equal. unfold u64. apply Z.mod_small. lia.
  - constructor; [|done]. cbn [rd_Data rd_DataLength]. split_and!; [|lia|lia|done]. unfold part_of. cbn [rd_Offset rd_Data]. split_and!; [done| |lia].
    unfold chunk, sub. unfold len in *. rewrite length_drop, length_take. rewrite skipn_firstn_comm. f_equal. lia.
  - intros i Hi. destruct (decide (i < Z.to_nat stop)%nat) as [Hlt|Hge].
    + left. unfold covers. cbn [rd_Offset rd_Data]. unfold len in Hlc. lia.
    + right. apply Hcov. unfold len in Hstop. lia.
Qed.

Lemma decode_write service (accounts : AccountMetaSlice) (record authority : PublicKey) w :
  is_uint 8 (rd_Offset w) → is_uint 4 (len (rd_Data w)) → rd_DataLength w = 0 →
  ∃ inst, Keys.Data (writeData record authority service w) = Ok (au_data inst) ∧
    DecodeConfidentialRecordInstruction service accounts (au_data inst) = Ok (mkAuxiliary (RecordProgramID service) accounts (au_data inst), w).
Proof.
  intros Ho Hl Hz. eexists. split; [done|]. unfold WriteConfidentialRecord. cbn [au_data].
  replace (u32 (len (rd_Data w))) with (len (rd_Data w)) by (unfold u32; rewrite Z.mod_small; [done|exact Hl]).
  set (bs := [1] ++ _). assert (Hlen : len bs = 13 + len (rd_Data w)) by (unfold bs; rewrite !len_app, !len_le_bytes; change (len [1]) with 1; lia).
  pose proof (len_nonneg (rd_Data w)) as Hn. unfold DecodeConfidentialRecordInstruction. rewrite decide_False by lia.
  rewrite (idx_ok _ _ 1) by done. obind. rewrite decide_False by lia. rewrite decide_False by lia. rewrite decide_True by done.
  rewrite decide_False by lia.
  assert (H1 : slice (E := error) bs 1 9 = Ok (le_bytes 8 (rd_Offset w))) by (by apply (slice_app [1])).
  assert (H2 : slice (E := error) bs 9 13 = Ok (le_bytes 4 (len (rd_Data w)))).
  { unfold bs. rewrite app_assoc. by apply slice_app. }
  assert (H3 : slice_from (E := error) bs 13 = Ok (rd_Data w)).
  { unfold bs. rewrite !app_assoc. by apply slice_from_app. }
  rewrite H1. obind. rewrite <-(app_nil_r (le_bytes 8 _)), readUint_app by done. obind.
  rewrite H2. obind. rewrite <-(app_nil_r (le_bytes 4 _)), readUint_app by done. obind.
  rewrite decide_False. 2:{ rewrite Hlen. unfold u64. rewrite Z.mod_small; [lia|]. unfold is_uint in Hl. change (256 ^ Z.of_nat 4) with (2 ^ 32) in Hl. lia. }
  rewrite H3. obind. destruct w as [o d l]. cbn in Hz |- *. by subst l.
Qed.

(** C36. A proof staged in a record arrives whole. For a proof of valid sizes and
    any positive chunk size, the plan creates an account of the size of the record's
    header and the proof, initializes it, and follows with writes of at most the
    chunk size that decode to parts of the context and proof; carried out in any
    order they leave exactly the context and the proof in the record, at the offset
    that VerifyProofFromRecord names, where decoding the record finds them. *)
Theorem record_plan_reassembles service (payer record authority destination : PublicKey) (lamports : Z) (proof : ZKProofData)
  (chunkSize : Z) (accounts : AccountMetaSlice) :
  validateZKProofData proof = Ok tt → 0 < chunkSize < 2 ^ 63 → length authority = 32%nat →
  let content := Context_ proof ++ Proof_ proof in
  ∃ plan create init writes ws,
    ConfidentialProofRecordInstructionsForProof service payer record authority destination lamports proof chunkSize = Ok plan ∧
    rp_CreateAndWrite plan = create :: init :: writes ∧ rp_Space plan = ConfidentialRecordDataOffset + len content ∧
    create = systemInstruction (NewCreateAccountInstruction lamports (rp_Space plan) (RecordProgramID service) payer record) ∧
    Forall2 (λ ins w, ∃ inst, Keys.Data ins = Ok (au_data inst) ∧ 0 < len (rd_Data w) ≤ chunkSize ∧
               DecodeConfidentialRecordInstruction service accounts (au_data inst)
               = Ok (mkAuxiliary (RecordProgramID service) accounts (au_data inst), w)) writes ws ∧
    ∀ order, order ≡ₚ ws →
      let stored := foldl applyWrite (zeros (length content)) order in
      stored = content ∧ DecodeConfidentialRecord (1 :: authority ++ stored) = Ok (mkRecord 1 authority content).
Proof.
  intros Hv Hc Ha content. pose proof (validate_inv _ Hv) as Hz.
  assert (Hl : len content ≤ 1200).
  { unfold content. rewrite len_app. revert Hz. generalize (Discriminator proof), (len (Context_ proof)), (len (Proof_ proof)).
    apply zkProofSizes_cases; lia. }
  destruct (writeChunks_spec service record authority content chunkSize (S (length content)) 0) as (ws & Hw & Hparts & Hcov);
    [lia|lia|lia|lia|unfold len; lia|].
  unfold ConfidentialProofRecordInstructionsForProof, ConfidentialProofRecordInstructions. rewrite Hv. obind.
  rewrite decide_False by lia. fold content. rewrite Hw. obind. pose proof (len_nonneg content) as Hn.
  replace (u64 (u64 (len content) + ConfidentialRecordDataOffset)) with (ConfidentialRecordDataOffset + len content).
  2:{ unfold ConfidentialRecordDataOffset, u64. rewrite (Z.mod_small (len content)) by lia. rewrite Z.mod_small by lia. lia. }
  do 3 eexists. exists (writeData record authority service <$> ws), ws. split; [reflexivity|]. cbn [rp_CreateAndWrite rp_Space app].
  split_and!; [done|done|done| |].
  - apply Forall2_fmap_l, Forall_Forall2_diag. eapply Forall_impl; [exact Hparts|]. intros w ((Ho & _ & Hlw) & Hb & Hd).
    destruct (decode_write service accounts record authority w) as (inst & H1 & H2); [| |done|by exists inst].
    + unfold is_uint. change (256 ^ Z.of_nat 8) with (2 ^ 64). lia.
    + unfold is_uint. change (256 ^ Z.of_nat 4) with (2 ^ 32). lia.
  - cbv zeta. intros order Hp. assert (Hs : foldl applyWrite (zeros (length content)) order = content).
    { apply writes_content; [rewrite Hp; eapply Forall_impl; [exact Hparts|]; by intros w [? _]|apply length_zeros|].
      intros i Hi. left. rewrite Hp. apply Hcov. lia. }
    split; [done|]. rewrite Hs. unfold DecodeConfidentialRecord. rewrite decide_False.
    2:{ rewrite len_cons, len_app. unfold ConfidentialRecordDataOffset, len. lia. }
    rewrite (idx_ok _ _ 1) by done. obind.
    assert (H1 : slice (E := error) (1 :: authority ++ content) 1 ConfidentialRecordDataOffset = Ok authority).
    { apply (slice_app [1]); [done|]. unfold len. by rewrite Ha. }
    assert (H2 : slice_from (E := error) (1 :: authority ++ content) ConfidentialRecordDataOffset = Ok content).
    { apply (slice_from_app (1 :: authority)). unfold len. cbn [length]. by rewrite Ha. }
    rewrite H1. obind. rewrite H2. obind. by rewrite copy_into_full by (rewrite Ha; reflexivity).
Qed.
End generated.

(** * Witnesses *)

(** A range proof of an amount that does not fit its 16 bits: it is returned. *)
Definition toyOutOfRange : ZKProofData * @Reader toy toyRandom :=
  Eval vm_compute in
  ran (GenerateBatchedRangeProof zeroService toyRangeCommitments [70000; 6] [16; 48] toyOpenings toyReader) (mkProofData 0 [] []).

Lemma generated_well_formed_witness :
  generated zeroService toyPercentage.1 ∧
  validateZKProofData toyPercentage.1 = Ok tt ∧
  (∃ context, decodeZKProofContext (Discriminator toyPercentage.1) (Context_ toyPercentage.1) = Ok context ∧
    contextBytes context = Context_ toyPercentage.1) ∧
  generated zeroService toyOutOfRange.1 ∧ VerifyZKProofData zeroService toyOutOfRange.1 ≠ Ok tt ∧
  validateZKProofData toyOutOfRange.1 = Ok tt.
Proof.
  assert (H : generated zeroService toyPercentage.1).
  { apply generated_kind, (generated_percentage zeroService (nth 0 toyPercentages []) (ToBytes (toyScalar 3)) 7 (nth 1 toyPercentages [])
      (ToBytes (toyScalar 8)) 4 (nth 2 toyPercentages []) (ToBytes (toyScalar 6)) 10 toyReader _ toyPercentage.2); [lia|].
    vm_compute. reflexivity. }
  assert (Hr : generated zeroService toyOutOfRange.1).
  { eapply (generated_range zeroService toyRangeCommitments [70000; 6] [16; 48] toyOpenings toyReader _ toyOutOfRange.2);
      [repeat constructor; unfold is_byte; lia|repeat constructor; lia|vm_compute; reflexivity]. }
  destruct (generated_well_formed zeroService toyPercentage.1 I H) as [H1 H2].
  split_and!; [exact H|exact H1|exact H2|exact Hr|vm_compute; discriminate|].
  exact (proj1 (generated_well_formed zeroService toyOutOfRange.1 I Hr)).
Defined.

Lemma generated_verifies_witness :
  generated zeroService toyValidity.1 ∧ VerifyZKProofData zeroService toyValidity.1 = Ok tt ∧
  VerifyZKProofData zeroService toyRange.1 = Ok tt ∧
  ∃ e, VerifyZKProofData zeroService (mkProofData 11 (Context_ toyValidity.1) (Proof_ toyValidity.1)) = Err e.
Proof.
  assert (H : generated_sigma zeroService toyValidity.1).
  { apply (generated_batched3 zeroService toyKeys (nth 0 toyGrouped [], nth 1 toyGrouped []) (42, 6)
      (nth 0 toyOpenings [], nth 1 toyOpenings []) toyReader _ toyValidity.2); [reflexivity|]. vm_compute. reflexivity. }
  assert (Hr : GenerateBatchedRangeProof zeroService toyRangeCommitments [70000; 6] [48; 16] toyOpenings toyReader
              = (Ok toyRange.1, toyRange.2)) by (vm_compute; reflexivity).
  assert (Hb : bytes_ok [48; 16]) by (repeat constructor; unfold is_byte; lia).
  split; [by apply generated_kind|]. split; [|split].
  - apply (generated_verifies zeroService toyValidity.1 I (generated_kind _ _ H)); [exact H|].
    split; repeat constructor; vm_compute; intros E; inversion E.
  - assert (Hg : generated zeroService toyRange.1) by (eapply generated_range; [exact Hb| |exact Hr]; repeat constructor; lia).
    apply (proj1 (proj2 (generated_verifies zeroService toyRange.1 I Hg)) toyRangeCommitments [70000; 6] [48; 16] toyOpenings toyReader toyRange.2 Hr Hb).
    + repeat constructor; vm_compute; reflexivity.
    + repeat (apply Forall2_cons_2; [lia|]). apply Forall2_nil_2.
    + repeat constructor; vm_compute; intros E; inversion E.
    + intros cs Hcs. assert (E : proofChallenges toyRange.1 = Ok toyChallenges) by (vm_compute; reflexivity).
      rewrite E in Hcs. injection Hcs as <-. repeat constructor; vm_compute; intros F; inversion F.
  - apply (generated_verifies zeroService toyValidity.1 I (generated_kind _ _ H)). vm_compute. discriminate.
Defined.

Lemma record_plan_reassembles_witness :
  validateZKProofData toyPercentage.1 = Ok tt ∧
  ∃ plan, ConfidentialProofRecordInstructionsForProof zeroService (zeros 32) (zeros 32) (zeros 32) (zeros 32) 5 toyPercentage.1 100 = Ok plan
    ∧ rp_Space plan = 393.
Proof.
  assert (H : validateZKProofData toyPercentage.1 = Ok tt) by (vm_compute; reflexivity). split; [exact H|].
  destruct (record_plan_reassembles zeroService (zeros 32) (zeros 32) (zeros 32) (zeros 32) 5 toyPercentage.1 100 [] H
    ltac:(lia) eq_refl) as (plan & create & init & writes & ws & E & _ & Hs & _).
  exists plan. split; [exact E|]. rewrite Hs. vm_compute. reflexivity.
Defined.
