(* ===== verification/ConfidentialState.v ===== *)
(** ConfidentialState: what a client reads of confidential-transfer accounts
    (programs/token-2022: confidential_state.go, confidential_balances.go,
    confidential_fee.go): the extension states, the balances they hide, the
    balances that follow an operation, and the fee of a transfer. *)
From Stdlib Require Import ZArith Lia.
From stdpp Require Import base numbers strings list.
From S2P Require Import Prelude Keys Wire Program Ristretto ElGamal ZkProof.

Open Scope Z_scope.

(** * Package math/bits *)

Definition Add64 (x y carry : Z) : Z * Z := (u64 (x + y + carry), (x + y + carry) / 18446744073709551616).
Definition Sub64 (x y borrow : Z) : Z * Z := (u64 (x - y - borrow), if decide (x < y + borrow) then 1 else 0).
Definition Mul64 (x y : Z) : Z * Z := (x * y / 18446744073709551616, u64 (x * y)).
(** [Div64] panics on a zero divisor and when the quotient does not fit. *)
Definition Div64 {E} (hi lo y : Z) : outcome E (Z * Z) :=
  if decide (y = 0 ∨ y ≤ hi) then Panic
  else Ok ((hi * 18446744073709551616 + lo) / y, (hi * 18446744073709551616 + lo) mod y).

(** * Extension states *)

Record ConfidentialTransferMint := mkTransferMint {
  tm_Authority : PublicKey; tm_AutoApproveNewAccounts : bool; tm_AuditorElGamalPubkey : ElGamalPubkey }.
Record ConfidentialTransferAccount := mkTransferAccount {
  ta_Approved : bool; ta_ElGamalPubkey : ElGamalPubkey;
  ta_PendingBalanceLo : ElGamalCiphertext; ta_PendingBalanceHi : ElGamalCiphertext;
  ta_AvailableBalance : ElGamalCiphertext; ta_DecryptableAvailableBalance : AeCiphertext;
  ta_AllowConfidentialCredits : bool; ta_AllowNonConfidentialCredits : bool;
  ta_PendingBalanceCreditCounter : Z; ta_MaximumPendingBalanceCreditCounter : Z;
  ta_ExpectedPendingBalanceCreditCounter : Z; ta_ActualPendingBalanceCreditCounter : Z }.
Record ConfidentialTransferFeeConfig := mkFeeConfig {
  fc_Authority : PublicKey; fc_WithdrawWithheldAuthorityElGamalPubkey : ElGamalPubkey;
  fc_HarvestToMintEnabled : bool; fc_WithheldAmount : ElGamalCiphertext }.
Record ConfidentialTransferFeeAmount := mkFeeAmount { fa_WithheldAmount : ElGamalCiphertext }.
Record ConfidentialMintBurn := mkMintBurn {
  mb_ConfidentialSupply : ElGamalCiphertext; mb_DecryptableSupply : AeCiphertext;
  mb_SupplyElGamalPubkey : ElGamalPubkey; mb_PendingBurn : ElGamalCiphertext }.

Definition readTransferMint : GoM Decoder error ConfidentialTransferMint :=
  authority ← ReadPublicKey;
  autoApprove ← ReadBool;
  auditor ← readElGamalPubkey;
  mret (mkTransferMint authority autoApprove auditor).
Definition readTransferAccount : GoM Decoder error ConfidentialTransferAccount :=
  approved ← ReadBool;
  pubkey ← readElGamalPubkey;
  lo ← readElGamalCiphertext;
  hi ← readElGamalCiphertext;
  available ← readElGamalCiphertext;
  decryptable ← readAeCiphertext;
  confidential ← ReadBool;
  nonConfidential ← ReadBool;
  counter ← ReadUint64;
  maximum ← ReadUint64;
  expected ← ReadUint64;
  actual ← ReadUint64;
  mret (mkTransferAccount approved pubkey lo hi available decryptable confidential nonConfidential
          counter maximum expected actual).
Definition readFeeConfig : GoM Decoder error ConfidentialTransferFeeConfig :=
  authority ← ReadPublicKey;
  pubkey ← readElGamalPubkey;
  harvest ← ReadBool;
  withheld ← readElGamalCiphertext;
  mret (mkFeeConfig authority pubkey harvest withheld).
Definition readMintBurn : GoM Decoder error ConfidentialMintBurn :=
  supply ← readElGamalCiphertext;
  decryptable ← readAeCiphertext;
  pubkey ← readElGamalPubkey;
  burn ← readElGamalCiphertext;
  mret (mkMintBurn supply decryptable pubkey burn).

(** The size check, the fields, the decoder's error. *)
Definition decodeState {A} (read : GoM Decoder error A) (size : Z) (name : string) (data : bytes) : outcome error A :=
  _ ← validateStateSize data size name;
  runDecoder (x ← read; _ ← checkErr (errDecoding ("decode " +:+ name)); mret x) data.

Definition DecodeConfidentialTransferMint (data : bytes) : outcome error ConfidentialTransferMint :=
  decodeState readTransferMint 65 "confidential transfer mint" data.
Definition DecodeConfidentialTransferAccount (data : bytes) : outcome error ConfidentialTransferAccount :=
  decodeState readTransferAccount 295 "confidential transfer account" data.
Definition DecodeConfidentialTransferFeeConfig (data : bytes) : outcome error ConfidentialTransferFeeConfig :=
  decodeState readFeeConfig 129 "confidential transfer fee config" data.
Definition DecodeConfidentialTransferFeeAmount (data : bytes) : outcome error ConfidentialTransferFeeAmount :=
  _ ← validateStateSize data 64 "confidential transfer fee amount";
  Ok (mkFeeAmount (copy_into (zeros 64) data)).
Definition DecodeConfidentialMintBurn (data : bytes) : outcome error ConfidentialMintBurn :=
  decodeState readMintBurn 196 "confidential mint burn" data.

(** * The fee of a transfer *)

Definition CalculateConfidentialTransferFee (amount basisPoints maximumFee : Z) : outcome error (Z * Z) :=
  if decide (10000 < basisPoints) then
    Err (invalidInputError (errNew "calculate confidential transfer fee: basis points exceed 10000"))
  else
  let '(hi, lo) := Mul64 amount basisPoints in
  let '(lo, carry) := Add64 lo 9999 0 in
  let hi := u64 (hi + carry) in
  '(rawFee, _) ← Div64 hi lo 10000;
  if decide (maximumFee < rawFee) then Ok (maximumFee, 0) else
  let '(feeHi, feeLo) := Mul64 rawFee 10000 in
  let '(numeratorHi, numeratorLo) := Mul64 amount basisPoints in
  let '(deltaLo, borrow) := Sub64 feeLo numeratorLo 0 in
  let '(deltaHi, _) := Sub64 feeHi numeratorHi borrow in
  if decide (deltaHi ≠ 0) then
    Err (invalidInputError (errNew "calculate confidential transfer fee: delta overflow"))
  else Ok (rawFee, deltaLo).

Section balances.
Context `{R : Ristretto} {Rnd : Random} `{G : GcmSiv} {Sh : Shake}.

Implicit Types service : ConfidentialTransferService.

(** * Balances *)

Definition DecryptConfidentialAvailableBalance (key : AEKey) (account : ConfidentialTransferAccount) : outcome error Z :=
  wrapf "decrypt confidential available balance" (DecryptAEAmount key (ta_DecryptableAvailableBalance account)).
Definition DecryptConfidentialPendingBalance service (secret : ElGamalSecretKey) (account : ConfidentialTransferAccount)
  : outcome error Z :=
  wrapf "decrypt confidential pending balance"
    (DecryptPendingBalance service secret (ta_PendingBalanceLo account) (ta_PendingBalanceHi account)).
Definition DecryptConfidentialTotalBalance service (secret : ElGamalSecretKey) (key : AEKey)
  (account : ConfidentialTransferAccount) : outcome error Z :=
  pending ← DecryptConfidentialPendingBalance service secret account;
  available ← DecryptConfidentialAvailableBalance key account;
  let '(total, carry) := Add64 available pending 0 in
  if decide (carry ≠ 0) then Err (errNew "decrypt confidential total balance: overflow") else Ok total.

Definition availableBalanceAfterPending service (secret : ElGamalSecretKey) (key : AEKey)
  (account : ConfidentialTransferAccount) : outcome error Z :=
  pending ← DecryptConfidentialPendingBalance service secret account;
  available ← DecryptConfidentialAvailableBalance key account;
  let '(balance, carry) := Add64 available pending 0 in
  if decide (carry ≠ 0) then Err (errNew "new decryptable available balance for apply pending: overflow") else Ok balance.
Definition availableBalanceAfterSpend (key : AEKey) (account : ConfidentialTransferAccount) (amount : Z) (underflow : string)
  : outcome error Z :=
  available ← DecryptConfidentialAvailableBalance key account;
  if decide (available < amount) then
    let err := errNew ("new decryptable available balance: " +:+ underflow)%string in
    if decide (underflow = "insufficient funds"%string) then Err (insufficientFundsError err)
    else Err (invalidInputError err)
  else Ok (available - amount).

Definition NewDecryptableAvailableBalanceForApplyPending service (secret : ElGamalSecretKey) (key : AEKey)
  (account : ConfidentialTransferAccount) : GoM Reader error AeCiphertext :=
  amount ← lift (availableBalanceAfterPending service secret key account);
  EncryptAEAmount key amount.
Definition NewDecryptableAvailableBalanceForApplyPendingWithNonce service (secret : ElGamalSecretKey) (key : AEKey)
  (account : ConfidentialTransferAccount) (nonce : bytes) : outcome error AeCiphertext :=
  amount ← availableBalanceAfterPending service secret key account;
  EncryptAEAmountWithNonce key amount nonce.
Definition NewDecryptableAvailableBalanceForSpend (key : AEKey) (account : ConfidentialTransferAccount) (amount : Z)
  : GoM Reader error AeCiphertext :=
  balance ← lift (availableBalanceAfterSpend key account amount "insufficient funds");
  EncryptAEAmount key balance.
Definition NewDecryptableAvailableBalanceForSpendWithNonce (key : AEKey) (account : ConfidentialTransferAccount)
  (amount : Z) (nonce : bytes) : outcome error AeCiphertext :=
  balance ← availableBalanceAfterSpend key account amount "insufficient funds";
  EncryptAEAmountWithNonce key balance nonce.
Definition NewDecryptableAvailableBalanceForBurn (key : AEKey) (account : ConfidentialTransferAccount) (amount : Z)
  : GoM Reader error AeCiphertext :=
  balance ← lift (availableBalanceAfterSpend key account amount "overflow");
  EncryptAEAmount key balance.
Definition NewDecryptableAvailableBalanceForBurnWithNonce (key : AEKey) (account : ConfidentialTransferAccount)
  (amount : Z) (nonce : bytes) : outcome error AeCiphertext :=
  balance ← availableBalanceAfterSpend key account amount "overflow";
  EncryptAEAmountWithNonce key balance nonce.

Definition DecryptConfidentialWithheldAmount service (secret : ElGamalSecretKey) (withheld : ElGamalCiphertext)
  : outcome error Z :=
  wrapf "decrypt confidential withheld amount" (DecryptElGamalU32 service secret withheld).

(** * Supply *)

(** The decryptable supply may exceed the encrypted one, by what has been burned
    since it was written: a difference small enough for a discrete logarithm. *)
Definition DecryptCurrentConfidentialSupply service (key : AEKey) (keypair : ElGamalKeypair) (state : ConfidentialMintBurn)
  : GoM Reader error Z :=
  let prefix := "decrypt current confidential supply"%string in
  decryptableSupply ← lift (wrapf prefix (DecryptAEAmount key (mb_DecryptableSupply state)));
  '(decryptableCiphertext, _) ← wrapM prefix (EncryptElGamal service (kp_PublicKey keypair) decryptableSupply);
  deltaCiphertext ← lift (wrapf prefix (SubtractElGamalCiphertexts decryptableCiphertext (mb_ConfidentialSupply state)));
  delta ← lift (wrapf prefix (DecryptElGamalU32 service (kp_SecretKey keypair) deltaCiphertext));
  if decide (decryptableSupply < delta) then throw (errNew "decrypt current confidential supply: overflow")
  else mret (decryptableSupply - delta).
Definition confidentialSupplyAfterMint service (key : AEKey) (keypair : ElGamalKeypair) (state : ConfidentialMintBurn)
  (mintAmount : Z) : GoM Reader error Z :=
  current ← DecryptCurrentConfidentialSupply service key keypair state;
  let '(supply, carry) := Add64 current mintAmount 0 in
  if decide (carry ≠ 0) then throw (errNew "new decryptable confidential supply: overflow") else mret supply.
Definition NewDecryptableSupply service (key : AEKey) (keypair : ElGamalKeypair) (state : ConfidentialMintBurn)
  (mintAmount : Z) : GoM Reader error AeCiphertext :=
  supply ← confidentialSupplyAfterMint service key keypair state mintAmount;
  EncryptAEAmount key supply.
Definition NewDecryptableSupplyWithNonce service (key : AEKey) (keypair : ElGamalKeypair) (state : ConfidentialMintBurn)
  (mintAmount : Z) (nonce : bytes) : GoM Reader error AeCiphertext :=
  supply ← confidentialSupplyAfterMint service key keypair state mintAmount;
  lift (EncryptAEAmountWithNonce key supply nonce).
End balances.
