(* ===== verification/ConfidentialIx.v ===== *)
(** ConfidentialIx: the confidential-transfer, confidential-transfer-fee and
    confidential-mint-burn instructions of Token-2022 (programs/token-2022:
    confidential.go, confidential_transfer_instructions.go,
    confidential_transfer_fee_instructions.go,
    confidential_mint_burn_instructions.go, confidential_decode.go): the
    constructors with their payloads and accounts, and the payload decoders. *)
From Stdlib Require Import ZArith Lia.
From stdpp Require Import base numbers strings list.
From S2P Require Import Prelude Keys ProgramIds Wire Program Ristretto ElGamal Sigma ZkProof.

Open Scope Z_scope.
Open Scope wire_scope.

Definition ConfidentialTransferExtensionInstruction : Z := 27.
Definition ConfidentialTransferFeeExtensionInstruction : Z := 37.
Definition ConfidentialMintBurnExtensionInstruction : Z := 42.

(** * Payloads *)

Record InitializeConfidentialTransferMintData := mkInitializeMintData {
  im_Authority : option PublicKey; im_AutoApproveNewAccounts : bool; im_AuditorElGamalPubkey : option ElGamalPubkey }.
Record UpdateConfidentialTransferMintData := mkUpdateMintData {
  um_AutoApproveNewAccounts : bool; um_AuditorElGamalPubkey : option ElGamalPubkey }.
Record ConfigureConfidentialTransferAccountData := mkConfigureData {
  ca_DecryptableZeroBalance : AeCiphertext; ca_MaximumPendingBalanceCreditCounter : Z; ca_ProofInstructionOffset : Z }.
Record EmptyConfidentialTransferAccountData := mkEmptyData { ea_ProofInstructionOffset : Z }.
Record ConfidentialDepositData := mkDepositData { dd_Amount : Z; dd_Decimals : Z }.
Record ConfidentialWithdrawData := mkWithdrawData {
  wd_Amount : Z; wd_Decimals : Z; wd_NewDecryptableAvailableBalance : AeCiphertext;
  wd_EqualityProofInstructionOffset : Z; wd_RangeProofInstructionOffset : Z }.
Record ConfidentialTransferData := mkTransferData {
  td_NewSourceDecryptableAvailableBalance : AeCiphertext;
  td_TransferAmountAuditorCiphertextLo : ElGamalCiphertext; td_TransferAmountAuditorCiphertextHi : ElGamalCiphertext;
  td_EqualityProofInstructionOffset : Z; td_CiphertextValidityProofInstructionOffset : Z;
  td_RangeProofInstructionOffset : Z }.
Record ApplyConfidentialPendingBalanceData := mkApplyData {
  ap_ExpectedPendingBalanceCreditCounter : Z; ap_NewDecryptableAvailableBalance : AeCiphertext }.
Record ConfidentialTransferWithFeeData := mkTransferWithFeeData {
  tf_NewSourceDecryptableAvailableBalance : AeCiphertext;
  tf_TransferAmountAuditorCiphertextLo : ElGamalCiphertext; tf_TransferAmountAuditorCiphertextHi : ElGamalCiphertext;
  tf_EqualityProofInstructionOffset : Z; tf_TransferAmountCiphertextValidityInstructionOffset : Z;
  tf_FeeSigmaProofInstructionOffset : Z; tf_FeeCiphertextValidityProofInstructionOffset : Z;
  tf_RangeProofInstructionOffset : Z }.

(** One pointer of the struct is set: the one of the instruction. *)
Inductive ConfidentialTransferInstructionData :=
  | InitializeMint (d : InitializeConfidentialTransferMintData)
  | UpdateMint (d : UpdateConfidentialTransferMintData)
  | ConfigureAccount (d : ConfigureConfidentialTransferAccountData)
  | ApproveAccount
  | EmptyAccount (d : EmptyConfidentialTransferAccountData)
  | Deposit (d : ConfidentialDepositData)
  | Withdraw (d : ConfidentialWithdrawData)
  | Transfer (d : ConfidentialTransferData)
  | ApplyPendingBalance (d : ApplyConfidentialPendingBalanceData)
  | EnableConfidentialCredits
  | DisableConfidentialCredits
  | EnableNonConfidentialCredits
  | DisableNonConfidentialCredits
  | TransferWithFee (d : ConfidentialTransferWithFeeData)
  | ConfigureAccountWithRegistry.

Record InitializeConfidentialTransferFeeData := mkInitializeFeeData {
  if_Authority : option PublicKey; if_WithdrawWithheldAuthorityElGamalPubkey : ElGamalPubkey }.
Record WithdrawConfidentialWithheldTokensFromMintData := mkWithheldMintData {
  wm_ProofInstructionOffset : Z; wm_NewDecryptableAvailableBalance : AeCiphertext }.
Record WithdrawConfidentialWithheldTokensFromAccountsData := mkWithheldAccountsData {
  wa_NumTokenAccounts : Z; wa_ProofInstructionOffset : Z; wa_NewDecryptableAvailableBalance : AeCiphertext }.

Inductive ConfidentialTransferFeeInstructionData :=
  | InitializeConfig (d : InitializeConfidentialTransferFeeData)
  | WithdrawWithheldTokensFromMint (d : WithdrawConfidentialWithheldTokensFromMintData)
  | WithdrawWithheldTokensFromAccounts (d : WithdrawConfidentialWithheldTokensFromAccountsData)
  | HarvestWithheldTokensToMint
  | EnableHarvestToMint
  | DisableHarvestToMint.

Record InitializeConfidentialMintBurnData := mkInitializeMintBurnData {
  ib_SupplyElGamalPubkey : ElGamalPubkey; ib_DecryptableSupply : AeCiphertext }.
Record RotateConfidentialSupplyKeyData := mkRotateData {
  rs_NewSupplyElGamalPubkey : ElGamalPubkey; rs_ProofInstructionOffset : Z }.
Record UpdateConfidentialSupplyData := mkUpdateSupplyData { us_NewDecryptableSupply : AeCiphertext }.
Record ConfidentialMintData := mkMintData {
  md_NewDecryptableSupply : AeCiphertext;
  md_MintAmountAuditorCiphertextLo : ElGamalCiphertext; md_MintAmountAuditorCiphertextHi : ElGamalCiphertext;
  md_EqualityProofInstructionOffset : Z; md_CiphertextValidityProofInstructionOffset : Z;
  md_RangeProofInstructionOffset : Z }.
Record ConfidentialBurnData := mkBurnData {
  bd_NewDecryptableAvailableBalance : AeCiphertext;
  bd_BurnAmountAuditorCiphertextLo : ElGamalCiphertext; bd_BurnAmountAuditorCiphertextHi : ElGamalCiphertext;
  bd_EqualityProofInstructionOffset : Z; bd_CiphertextValidityProofInstructionOffset : Z;
  bd_RangeProofInstructionOffset : Z }.

Inductive ConfidentialMintBurnInstructionData :=
  | InitializeMintBurn (d : InitializeConfidentialMintBurnData)
  | RotateSupplyKey (d : RotateConfidentialSupplyKeyData)
  | UpdateDecryptableSupply (d : UpdateConfidentialSupplyData)
  | Mint (d : ConfidentialMintData)
  | Burn (d : ConfidentialBurnData)
  | ApplyPendingBurn.

(** * Decoding payloads *)

Definition confidentialDecoder {A} (size : Z) (name : string) (read : GoM Decoder error A) (data : bytes)
  : outcome error A :=
  _ ← validateStateSize data size ("confidential transfer " +:+ name);
  runDecoder read data.

(** [if err := dec.Err(); err != nil] after the fields. *)
Definition checked {A} (msg : string) (read : GoM Decoder error A) : GoM Decoder error A :=
  x ← read; _ ← checkErr (errDecoding msg); mret x.

Definition readOptionalPublicKey {E} : GoM Decoder E (option PublicKey) :=
  key ← ReadPublicKey; mret (if IsZero key then None else Some key).
Definition readOptionalElGamalPubkey {E} : GoM Decoder E (option ElGamalPubkey) :=
  key ← readElGamalPubkey; mret (if bool_decide (key = zeros 32) then None else Some key).

Definition readInitializeMint : GoM Decoder error InitializeConfidentialTransferMintData :=
  authority ← readOptionalPublicKey; auto ← ReadBool; auditor ← readOptionalElGamalPubkey;
  mret (mkInitializeMintData authority auto auditor).
Definition readUpdateMint : GoM Decoder error UpdateConfidentialTransferMintData :=
  auto ← ReadBool; auditor ← readOptionalElGamalPubkey; mret (mkUpdateMintData auto auditor).
Definition readConfigureAccount : GoM Decoder error ConfigureConfidentialTransferAccountData :=
  zero ← readAeCiphertext; maximum ← ReadUint64; offset ← readInt8; mret (mkConfigureData zero maximum offset).
Definition readEmptyAccount : GoM Decoder error EmptyConfidentialTransferAccountData :=
  offset ← readInt8; mret (mkEmptyData offset).
Definition readDeposit : GoM Decoder error ConfidentialDepositData :=
  amount ← ReadUint64; decimals ← ReadUint8; mret (mkDepositData amount decimals).
Definition readWithdraw : GoM Decoder error ConfidentialWithdrawData :=
  amount ← ReadUint64; decimals ← ReadUint8; balance ← readAeCiphertext; equality ← readInt8; range ← readInt8;
  mret (mkWithdrawData amount decimals balance equality range).
Definition decodeConfidentialTransferData : GoM Decoder error ConfidentialTransferData :=
  balance ← readAeCiphertext; lo ← readElGamalCiphertext; hi ← readElGamalCiphertext;
  equality ← readInt8; validity ← readInt8; range ← readInt8;
  mret (mkTransferData balance lo hi equality validity range).
Definition readApplyPendingBalance : GoM Decoder error ApplyConfidentialPendingBalanceData :=
  expected ← ReadUint64; balance ← readAeCiphertext; mret (mkApplyData expected balance).
Definition readTransferWithFee : GoM Decoder error ConfidentialTransferWithFeeData :=
  balance ← readAeCiphertext; lo ← readElGamalCiphertext; hi ← readElGamalCiphertext;
  equality ← readInt8; validity ← readInt8; sigma ← readInt8; feeValidity ← readInt8; range ← readInt8;
  mret (mkTransferWithFeeData balance lo hi equality validity sigma feeValidity range).

Definition decodeConfidentialNoData (subInstruction : Z) (data : bytes) : outcome error ConfidentialTransferInstructionData :=
  if decide (len data ≠ 0) then
    Err (errNewf "decode confidential transfer instruction: expected 0 bytes" [subInstruction; len data])
  else if decide (subInstruction = 9) then Ok EnableConfidentialCredits
  else if decide (subInstruction = 10) then Ok DisableConfidentialCredits
  else if decide (subInstruction = 11) then Ok EnableNonConfidentialCredits
  else if decide (subInstruction = 12) then Ok DisableNonConfidentialCredits
  else Ok ConfigureAccountWithRegistry.

Definition DecodeConfidentialTransferInstruction (subInstruction : Z) (data : bytes)
  : outcome error ConfidentialTransferInstructionData :=
  let decoder {A} size name (read : GoM Decoder error A) (mk : A → ConfidentialTransferInstructionData) :=
    d ← confidentialDecoder size name (checked "decode token-2022 confidential transfer" read) data; Ok (mk d) in
  if decide (subInstruction = 0) then decoder 65 "initialize mint"%string readInitializeMint InitializeMint
  else if decide (subInstruction = 1) then decoder 33 "update mint"%string readUpdateMint UpdateMint
  else if decide (subInstruction = 2) then decoder 45 "configure account"%string readConfigureAccount ConfigureAccount
  else if decide (subInstruction = 3) then
    _ ← validateStateSize data 0 "confidential transfer approve account"; Ok ApproveAccount
  else if decide (subInstruction = 4) then decoder 1 "empty account"%string readEmptyAccount EmptyAccount
  else if decide (subInstruction = 5) then decoder 9 "deposit"%string readDeposit Deposit
  else if decide (subInstruction = 6) then decoder 47 "withdraw"%string readWithdraw Withdraw
  else if decide (subInstruction = 7) then decoder 167 "transfer"%string decodeConfidentialTransferData Transfer
  else if decide (subInstruction = 8) then
    decoder 44 "apply pending balance"%string readApplyPendingBalance ApplyPendingBalance
  else if decide (subInstruction = 9 ∨ subInstruction = 10 ∨ subInstruction = 11 ∨ subInstruction = 12 ∨ subInstruction = 14)
    then decodeConfidentialNoData subInstruction data
  else if decide (subInstruction = 13) then decoder 169 "transfer with fee"%string readTransferWithFee TransferWithFee
  else Err (errNewf "token-2022: unknown confidential-transfer instruction" [subInstruction]).

Definition readInitializeFee : GoM Decoder error InitializeConfidentialTransferFeeData :=
  authority ← readOptionalPublicKey; withdraw ← readElGamalPubkey; mret (mkInitializeFeeData authority withdraw).
Definition readWithheldMint : GoM Decoder error WithdrawConfidentialWithheldTokensFromMintData :=
  offset ← readInt8; balance ← readAeCiphertext; mret (mkWithheldMintData offset balance).
Definition readWithheldAccounts : GoM Decoder error WithdrawConfidentialWithheldTokensFromAccountsData :=
  n ← ReadUint8; offset ← readInt8; balance ← readAeCiphertext; mret (mkWithheldAccountsData n offset balance).

Definition decodeConfidentialFeeNoData (subInstruction : Z) (data : bytes) : outcome error ConfidentialTransferFeeInstructionData :=
  if decide (len data ≠ 0) then
    Err (errNewf "decode confidential transfer fee instruction: expected 0 bytes" [subInstruction; len data])
  else if decide (subInstruction = 3) then Ok HarvestWithheldTokensToMint
  else if decide (subInstruction = 4) then Ok EnableHarvestToMint
  else Ok DisableHarvestToMint.

Definition DecodeConfidentialTransferFeeInstruction (subInstruction : Z) (data : bytes)
  : outcome error ConfidentialTransferFeeInstructionData :=
  let decoder {A} size name (read : GoM Decoder error A) (mk : A → ConfidentialTransferFeeInstructionData) :=
    d ← confidentialDecoder size name (checked "decode token-2022 confidential transfer fee" read) data; Ok (mk d) in
  if decide (subInstruction = 0) then decoder 64 "fee initialize config"%string readInitializeFee InitializeConfig
  else if decide (subInstruction = 1) then
    decoder 37 "fee withdraw from mint"%string readWithheldMint WithdrawWithheldTokensFromMint
  else if decide (subInstruction = 2) then
    decoder 38 "fee withdraw from accounts"%string readWithheldAccounts WithdrawWithheldTokensFromAccounts
  else if decide (subInstruction = 3 ∨ subInstruction = 4 ∨ subInstruction = 5) then
    decodeConfidentialFeeNoData subInstruction data
  else Err (errNewf "token-2022: unknown confidential-transfer-fee instruction" [subInstruction]).

Definition readInitializeMintBurn : GoM Decoder error InitializeConfidentialMintBurnData :=
  pubkey ← readElGamalPubkey; supply ← readAeCiphertext; mret (mkInitializeMintBurnData pubkey supply).
Definition readRotateSupplyKey : GoM Decoder error RotateConfidentialSupplyKeyData :=
  pubkey ← readElGamalPubkey; offset ← readInt8; mret (mkRotateData pubkey offset).
Definition readUpdateSupply : GoM Decoder error UpdateConfidentialSupplyData :=
  supply ← readAeCiphertext; mret (mkUpdateSupplyData supply).
Definition decodeConfidentialMintData : GoM Decoder error ConfidentialMintData :=
  supply ← readAeCiphertext; lo ← readElGamalCiphertext; hi ← readElGamalCiphertext;
  equality ← readInt8; validity ← readInt8; range ← readInt8;
  mret (mkMintData supply lo hi equality validity range).
Definition decodeConfidentialBurnData : GoM Decoder error ConfidentialBurnData :=
  balance ← readAeCiphertext; lo ← readElGamalCiphertext; hi ← readElGamalCiphertext;
  equality ← readInt8; validity ← readInt8; range ← readInt8;
  mret (mkBurnData balance lo hi equality validity range).

Definition DecodeConfidentialMintBurnInstruction (subInstruction : Z) (data : bytes)
  : outcome error ConfidentialMintBurnInstructionData :=
  let decoder {A} size name (read : GoM Decoder error A) (mk : A → ConfidentialMintBurnInstructionData) :=
    d ← confidentialDecoder size name (checked "decode token-2022 confidential mint burn" read) data; Ok (mk d) in
  if decide (subInstruction = 0) then decoder 68 "mint burn initialize mint"%string readInitializeMintBurn InitializeMintBurn
  else if decide (subInstruction = 1) then decoder 33 "mint burn rotate supply key"%string readRotateSupplyKey RotateSupplyKey
  else if decide (subInstruction = 2) then
    decoder 36 "mint burn update decryptable supply"%string readUpdateSupply UpdateDecryptableSupply
  else if decide (subInstruction = 3) then decoder 167 "mint burn mint"%string decodeConfidentialMintData Mint
  else if decide (subInstruction = 4) then decoder 167 "mint burn burn"%string decodeConfidentialBurnData Burn
  else if decide (subInstruction = 5) then
    _ ← validateStateSize data 0 "confidential mint burn apply pending burn"; Ok ApplyPendingBurn
  else Err (errNewf "token-2022: unknown confidential-mint-burn instruction" [subInstruction]).

(** * Instructions *)

Record ConfidentialTransferExtension := mkTransferExtension {
  te_accounts : AccountMetaSlice; te_SubInstruction : Z; te_RawData : bytes;
  te_Decoded : option ConfidentialTransferInstructionData }.
Record ConfidentialTransferFeeExtension := mkFeeExtension {
  fe_accounts : AccountMetaSlice; fe_SubInstruction : Z; fe_RawData : bytes;
  fe_Decoded : option ConfidentialTransferFeeInstructionData }.
Record ConfidentialMintBurnExtension := mkMintBurnExtension {
  me_accounts : AccountMetaSlice; me_SubInstruction : Z; me_RawData : bytes;
  me_Decoded : option ConfidentialMintBurnInstructionData }.

Definition RawConfidentialTransferInstruction (subInstruction : Z) (rawData : bytes) (accounts : AccountMetaSlice) :=
  mkTransferExtension accounts subInstruction rawData None.
Definition RawConfidentialTransferFeeInstruction (subInstruction : Z) (rawData : bytes) (accounts : AccountMetaSlice) :=
  mkFeeExtension accounts subInstruction rawData None.
Definition RawConfidentialMintBurnInstruction (subInstruction : Z) (rawData : bytes) (accounts : AccountMetaSlice) :=
  mkMintBurnExtension accounts subInstruction rawData None.

(** The [Data] methods, and the structs through the [Instruction] interface. *)
Definition transferExtensionData (inst : ConfidentialTransferExtension) : bytes :=
  [u8 ConfidentialTransferExtensionInstruction; te_SubInstruction inst] ++ te_RawData inst.
Definition feeExtensionData (inst : ConfidentialTransferFeeExtension) : bytes :=
  [u8 ConfidentialTransferFeeExtensionInstruction; fe_SubInstruction inst] ++ fe_RawData inst.
Definition mintBurnExtensionData (inst : ConfidentialMintBurnExtension) : bytes :=
  [u8 ConfidentialMintBurnExtensionInstruction; me_SubInstruction inst] ++ me_RawData inst.
Definition transferInstruction (inst : ConfidentialTransferExtension) : Instruction :=
  mkInstruction Token2022ProgramID (te_accounts inst) (Ok (transferExtensionData inst)).
Definition feeInstruction (inst : ConfidentialTransferFeeExtension) : Instruction :=
  mkInstruction Token2022ProgramID (fe_accounts inst) (Ok (feeExtensionData inst)).
Definition mintBurnInstruction (inst : ConfidentialMintBurnExtension) : Instruction :=
  mkInstruction Token2022ProgramID (me_accounts inst) (Ok (mintBurnExtensionData inst)).

Definition authorityAccounts (authority : PublicKey) (signers : list PublicKey) : AccountMetaSlice :=
  foldl (λ accounts signer, accounts ++ [NewAccountMeta signer false true])
    [NewAccountMeta authority false (bool_decide (len signers = 0))] signers.
Definition publicKeyBytes (key : option PublicKey) : bytes := match key with Some key => key | None => zeros 32 end.
Definition elGamalPubkeyBytes (key : option ElGamalPubkey) : bytes := match key with Some key => key | None => zeros 32 end.

(** [byte(location.InstructionOffset)]. *)
Definition offsetByte (location : ProofLocation) : Z := u8 (InstructionOffset location).

(** ** Transfers *)

Definition InitializeConfidentialTransferMint (mint : PublicKey) (authority : option PublicKey) (autoApprove : bool)
  (auditor : option ElGamalPubkey) : ConfidentialTransferExtension :=
  let data := publicKeyBytes authority ++ [0] in
  let data := if autoApprove then <[32%nat := 1]> data else data in
  let data := data ++ elGamalPubkeyBytes auditor in
  RawConfidentialTransferInstruction 0 data [NewAccountMeta mint true false].
Definition UpdateConfidentialTransferMint (mint authority : PublicKey) (signers : list PublicKey) (autoApprove : bool)
  (auditor : option ElGamalPubkey) : ConfidentialTransferExtension :=
  let data := [if autoApprove then 1 else 0] ++ elGamalPubkeyBytes auditor in
  RawConfidentialTransferInstruction 1 data ([NewAccountMeta mint true false] ++ authorityAccounts authority signers).
Definition ConfigureConfidentialTransferAccount (tokenAccount mint authority : PublicKey) (signers : list PublicKey)
  (decryptableZeroBalance : AeCiphertext) (maximumPendingBalanceCreditCounter : Z) (proof : ProofLocation)
  : ConfidentialTransferExtension :=
  let enc := NewEncoder [] ▷ WriteBytes decryptableZeroBalance ▷ WriteUint64 maximumPendingBalanceCreditCounter
             ▷ WriteUint8 (offsetByte proof) in
  RawConfidentialTransferInstruction 2 (Bytes enc)
    ([NewAccountMeta tokenAccount true false; NewAccountMeta mint false false]
     ++ proofAccounts [proof] ++ authorityAccounts authority signers).
Definition ApproveConfidentialTransferAccount (tokenAccount mint authority : PublicKey) (signers : list PublicKey)
  : ConfidentialTransferExtension :=
  RawConfidentialTransferInstruction 3 []
    ([NewAccountMeta tokenAccount true false; NewAccountMeta mint false false] ++ authorityAccounts authority signers).
Definition EmptyConfidentialTransferAccount (tokenAccount authority : PublicKey) (signers : list PublicKey)
  (proof : ProofLocation) : ConfidentialTransferExtension :=
  RawConfidentialTransferInstruction 4 [offsetByte proof]
    ([NewAccountMeta tokenAccount true false] ++ proofAccounts [proof] ++ authorityAccounts authority signers).
Definition ConfidentialDeposit (tokenAccount mint authority : PublicKey) (signers : list PublicKey) (amount decimals : Z)
  : ConfidentialTransferExtension :=
  RawConfidentialTransferInstruction 5 (Bytes (NewEncoder [] ▷ WriteUint64 amount ▷ WriteUint8 decimals))
    ([NewAccountMeta tokenAccount true false; NewAccountMeta mint false false] ++ authorityAccounts authority signers).
Definition ConfidentialWithdraw (tokenAccount mint authority : PublicKey) (signers : list PublicKey) (amount decimals : Z)
  (decryptableBalance : AeCiphertext) (equality rangeProof : ProofLocation) : ConfidentialTransferExtension :=
  let enc := NewEncoder [] ▷ WriteUint64 amount ▷ WriteUint8 decimals ▷ WriteBytes decryptableBalance
             ▷ WriteUint8 (offsetByte equality) ▷ WriteUint8 (offsetByte rangeProof) in
  RawConfidentialTransferInstruction 6 (Bytes enc)
    ([NewAccountMeta tokenAccount true false; NewAccountMeta mint false false]
     ++ proofAccounts [equality; rangeProof] ++ authorityAccounts authority signers).

Definition transferAmountData (decryptable : AeCiphertext) (auditorCiphertextLo auditorCiphertextHi : ElGamalCiphertext)
  (equality validity rangeProof : ProofLocation) : bytes :=
  decryptable ++ auditorCiphertextLo ++ auditorCiphertextHi
  ++ [offsetByte equality; offsetByte validity; offsetByte rangeProof].
Definition ConfidentialTransfer (source mint destination authority : PublicKey) (signers : list PublicKey)
  (decryptableBalance : AeCiphertext) (auditorCiphertextLo auditorCiphertextHi : ElGamalCiphertext)
  (equality validity rangeProof : ProofLocation) : ConfidentialTransferExtension :=
  let data := transferAmountData decryptableBalance auditorCiphertextLo auditorCiphertextHi equality validity rangeProof in
  RawConfidentialTransferInstruction 7 data
    ([NewAccountMeta source true false; NewAccountMeta mint false false; NewAccountMeta destination true false]
     ++ proofAccounts [equality; validity; rangeProof] ++ authorityAccounts authority signers).
Definition ApplyConfidentialPendingBalance (tokenAccount authority : PublicKey) (signers : list PublicKey)
  (expectedPendingBalanceCreditCounter : Z) (decryptableBalance : AeCiphertext) : ConfidentialTransferExtension :=
  RawConfidentialTransferInstruction 8
    (Bytes (NewEncoder [] ▷ WriteUint64 expectedPendingBalanceCreditCounter ▷ WriteBytes decryptableBalance))
    ([NewAccountMeta tokenAccount true false] ++ authorityAccounts authority signers).

Definition balanceCreditsInstruction (subInstruction : Z) (tokenAccount authority : PublicKey) (signers : list PublicKey)
  : ConfidentialTransferExtension :=
  RawConfidentialTransferInstruction subInstruction []
    ([NewAccountMeta tokenAccount true false] ++ authorityAccounts authority signers).
Definition EnableConfidentialCreditsInstruction := balanceCreditsInstruction 9.
Definition DisableConfidentialCreditsInstruction := balanceCreditsInstruction 10.
Definition EnableNonConfidentialCreditsInstruction := balanceCreditsInstruction 11.
Definition DisableNonConfidentialCreditsInstruction := balanceCreditsInstruction 12.

Definition ConfidentialTransferWithFee (source mint destination authority : PublicKey) (signers : list PublicKey)
  (decryptableBalance : AeCiphertext) (auditorCiphertextLo auditorCiphertextHi : ElGamalCiphertext)
  (equality transferValidity feeSigma feeValidity rangeProof : ProofLocation) : ConfidentialTransferExtension :=
  let enc := NewEncoder [] ▷ WriteBytes decryptableBalance ▷ WriteBytes auditorCiphertextLo ▷ WriteBytes auditorCiphertextHi
             ▷ WriteUint8 (offsetByte equality) ▷ WriteUint8 (offsetByte transferValidity)
             ▷ WriteUint8 (offsetByte feeSigma) ▷ WriteUint8 (offsetByte feeValidity)
             ▷ WriteUint8 (offsetByte rangeProof) in
  RawConfidentialTransferInstruction 13 (Bytes enc)
    ([NewAccountMeta source true false; NewAccountMeta mint false false; NewAccountMeta destination true false]
     ++ proofAccounts [equality; transferValidity; feeSigma; feeValidity; rangeProof] ++ authorityAccounts authority signers).
Definition ConfigureConfidentialTransferAccountWithRegistry (tokenAccount mint registry : PublicKey)
  (payer : option PublicKey) : ConfidentialTransferExtension :=
  let accounts := [NewAccountMeta tokenAccount true false; NewAccountMeta mint false false;
                   NewAccountMeta registry false false] in
  let accounts := match payer with
                  | Some payer => accounts ++ [NewAccountMeta payer true true; NewAccountMeta SystemProgramID false false]
                  | None => accounts
                  end in
  RawConfidentialTransferInstruction 14 [] accounts.

(** ** Fees *)

Definition InitializeConfidentialTransferFee (mint : PublicKey) (authority : option PublicKey)
  (withdrawAuthority : ElGamalPubkey) : ConfidentialTransferFeeExtension :=
  RawConfidentialTransferFeeInstruction 0 (publicKeyBytes authority ++ withdrawAuthority) [NewAccountMeta mint true false].
Definition WithdrawConfidentialWithheldTokensFromMint (mint destination authority : PublicKey) (signers : list PublicKey)
  (decryptableBalance : AeCiphertext) (proof : ProofLocation) : ConfidentialTransferFeeExtension :=
  RawConfidentialTransferFeeInstruction 1 ([offsetByte proof] ++ decryptableBalance)
    ([NewAccountMeta mint true false; NewAccountMeta destination true false]
     ++ proofAccounts [proof] ++ authorityAccounts authority signers).

(** [accounts = append(accounts, NewAccountMeta(source, true, false))] for each. *)
Definition appendSources (accounts : AccountMetaSlice) (sourceAccounts : list PublicKey) : AccountMetaSlice :=
  foldl (λ accounts source, accounts ++ [NewAccountMeta source true false]) accounts sourceAccounts.
Definition WithdrawConfidentialWithheldTokensFromAccounts (mint destination authority : PublicKey) (signers : list PublicKey)
  (sourceAccounts : list PublicKey) (decryptableBalance : AeCiphertext) (proof : ProofLocation)
  : ConfidentialTransferFeeExtension :=
  RawConfidentialTransferFeeInstruction 2 ([u8 (len sourceAccounts); offsetByte proof] ++ decryptableBalance)
    (appendSources ([NewAccountMeta mint true false; NewAccountMeta destination true false]
                    ++ proofAccounts [proof] ++ authorityAccounts authority signers) sourceAccounts).
Definition HarvestConfidentialWithheldTokensToMint (mint : PublicKey) (sourceAccounts : list PublicKey)
  : ConfidentialTransferFeeExtension :=
  RawConfidentialTransferFeeInstruction 3 [] (appendSources [NewAccountMeta mint true false] sourceAccounts).
Definition confidentialHarvestInstruction (subInstruction : Z) (mint authority : PublicKey) (signers : list PublicKey)
  : ConfidentialTransferFeeExtension :=
  RawConfidentialTransferFeeInstruction subInstruction []
    ([NewAccountMeta mint true false] ++ authorityAccounts authority signers).
Definition EnableConfidentialHarvestToMint := confidentialHarvestInstruction 4.
Definition DisableConfidentialHarvestToMint := confidentialHarvestInstruction 5.

(** ** Minting and burning *)

Definition InitializeConfidentialMintBurn (mint : PublicKey) (supplyPubkey : ElGamalPubkey) (decryptableSupply : AeCiphertext)
  : ConfidentialMintBurnExtension :=
  RawConfidentialMintBurnInstruction 0 (supplyPubkey ++ decryptableSupply) [NewAccountMeta mint true false].
Definition RotateConfidentialSupplyKey (mint authority : PublicKey) (signers : list PublicKey) (supplyPubkey : ElGamalPubkey)
  (proof : ProofLocation) : ConfidentialMintBurnExtension :=
  RawConfidentialMintBurnInstruction 1 (supplyPubkey ++ [offsetByte proof])
    ([NewAccountMeta mint true false] ++ proofAccounts [proof] ++ authorityAccounts authority signers).
Definition UpdateConfidentialSupply (mint authority : PublicKey) (signers : list PublicKey) (decryptableSupply : AeCiphertext)
  : ConfidentialMintBurnExtension :=
  RawConfidentialMintBurnInstruction 2 decryptableSupply
    ([NewAccountMeta mint true false] ++ authorityAccounts authority signers).

Definition mintBurnAmountData (decryptable : AeCiphertext) (auditorCiphertextLo auditorCiphertextHi : ElGamalCiphertext)
  (equality validity rangeProof : ProofLocation) : bytes :=
  Bytes (NewEncoder [] ▷ WriteBytes decryptable ▷ WriteBytes auditorCiphertextLo ▷ WriteBytes auditorCiphertextHi
         ▷ WriteUint8 (offsetByte equality) ▷ WriteUint8 (offsetByte validity) ▷ WriteUint8 (offsetByte rangeProof)).
Definition ConfidentialMint (tokenAccount mint authority : PublicKey) (signers : list PublicKey) (decryptableSupply : AeCiphertext)
  (auditorCiphertextLo auditorCiphertextHi : ElGamalCiphertext) (equality validity rangeProof : ProofLocation)
  : ConfidentialMintBurnExtension :=
  let data := mintBurnAmountData decryptableSupply auditorCiphertextLo auditorCiphertextHi equality validity rangeProof in
  RawConfidentialMintBurnInstruction 3 data
    ([NewAccountMeta tokenAccount true false; NewAccountMeta mint true false]
     ++ proofAccounts [equality; validity; rangeProof] ++ authorityAccounts authority signers).
Definition ConfidentialBurn (tokenAccount mint authority : PublicKey) (signers : list PublicKey) (decryptableBalance : AeCiphertext)
  (auditorCiphertextLo auditorCiphertextHi : ElGamalCiphertext) (equality validity rangeProof : ProofLocation)
  : ConfidentialMintBurnExtension :=
  let data := mintBurnAmountData decryptableBalance auditorCiphertextLo auditorCiphertextHi equality validity rangeProof in
  RawConfidentialMintBurnInstruction 4 data
    ([NewAccountMeta tokenAccount true false; NewAccountMeta mint true false]
     ++ proofAccounts [equality; validity; rangeProof] ++ authorityAccounts authority signers).
Definition ApplyPendingConfidentialBurn (mint authority : PublicKey) (signers : list PublicKey)
  : ConfidentialMintBurnExtension :=
  RawConfidentialMintBurnInstruction 5 [] ([NewAccountMeta mint true false] ++ authorityAccounts authority signers).
