(* ===== verification/ConfidentialIxSpec.v ===== *)
(** ConfidentialIxSpec: the payloads of the confidential instructions: decoding is
    exact for every one of them, and the payload that each constructor builds
    decodes to the constructor's arguments. *)
From Stdlib Require Import ZArith Lia.
From stdpp Require Import base numbers strings list.
From S2P Require Import Prelude Shortvec Keys ProgramIds Pda Wire Program System Sha3 Ristretto ToyGroup Mnemonic ElGamal ElGamalSpec Sigma SigmaSpec Validity ValiditySpec RangeProof RangeProofSpec ZkProof ZkProofSpec ConfidentialIx.

Open Scope Z_scope.

(** * Fields of a payload *)

Definition is_int8 (v : Z) : Prop := -128 ≤ v < 128.

Lemma i8_u8 v : is_int8 v → i8 (u8 v) = v.
Proof.
  intros Hv. unfold i8, u8, is_int8 in *. destruct (decide (0 ≤ v)) as [Hp|Hn].
  - rewrite (Z.mod_small v) by lia. rewrite Z.mod_small; lia.
  - replace (v mod 256) with (v + 256) by (apply (Z.mod_unique _ _ (-1)); lia).
    replace (v + 256 + 128) with (v + 128 + 1 * 256) by lia. rewrite Z.mod_add, Z.mod_small; lia.
Qed.
Lemma u8_i8 v : is_byte v → u8 (i8 v) = v ∧ is_int8 (i8 v).
Proof.
  unfold is_byte, i8, u8, is_int8. intros Hv. destruct (decide (v < 128)) as [Hp|Hn].
  - rewrite (Z.mod_small (v + 128)) by lia. replace (v + 128 - 128) with v by lia. rewrite Z.mod_small; lia.
  - replace ((v + 128) mod 256) with (v - 128) by (apply (Z.mod_unique _ _ 1); lia).
    split; [|lia]. symmetry. apply (Z.mod_unique _ _ (-1)); lia.
Qed.

#[global] Instance readInt8_codec {E} : Codec (E:=E) readInt8 (λ v, [u8 v]) is_int8.
Proof.
  split.
  - intros v Hv. unfold readInt8. eapply (reads_codec _ _ _ _ (u8 v)); [|apply is_byte_u8|reflexivity].
    rewrite i8_u8 by done. apply reads_ret.
  - unfold readInt8. eapply parses_codec; [apply _|]. intros b. apply parses_ret_spec. intros Hb.
    destruct (u8_i8 b Hb) as [-> ?]. by split.
Qed.

(** A key whose zero value stands for none. *)
Definition optionalKeyOk (k : option bytes) : Prop := match k with Some k => array_ok 32 k ∧ k ≠ zeros 32 | None => True end.

#[global] Instance readOptionalElGamalPubkey_codec {E} : Codec (E:=E) readOptionalElGamalPubkey elGamalPubkeyBytes optionalKeyOk.
Proof.
  split.
  - intros k Hk. unfold readOptionalElGamalPubkey. destruct k as [k|]; cbn [elGamalPubkeyBytes optionalKeyOk] in *.
    + eapply (reads_codec _ _ _ _ k); [|apply Hk|by rewrite app_nil_r]. rewrite bool_decide_eq_false_2 by apply Hk. apply reads_ret.
    + eapply (reads_codec _ _ _ _ (zeros 32)); [|by split; [|apply zeros_ok]|by rewrite app_nil_r].
      rewrite bool_decide_eq_true_2 by done. apply reads_ret.
  - unfold readOptionalElGamalPubkey. eapply parses_codec; [apply _|]. intros k. apply parses_ret_spec. intros Hk.
    rewrite app_nil_r. case_bool_decide as Hz; [by rewrite Hz|done].
Qed.
#[global] Instance readOptionalPublicKey_codec {E} : Codec (E:=E) readOptionalPublicKey publicKeyBytes optionalKeyOk.
Proof.
  split.
  - intros k Hk. unfold readOptionalPublicKey. destruct k as [k|]; cbn [publicKeyBytes optionalKeyOk] in *.
    + eapply (reads_codec _ _ _ _ k); [|apply Hk|by rewrite app_nil_r]. unfold IsZero. rewrite bool_decide_eq_false_2 by apply Hk.
      apply reads_ret.
    + eapply (reads_codec _ _ _ _ (zeros 32)); [|by split; [|apply zeros_ok]|by rewrite app_nil_r].
      unfold IsZero. rewrite bool_decide_eq_true_2 by done. apply reads_ret.
  - unfold readOptionalPublicKey. eapply parses_codec; [apply _|]. intros k. apply parses_ret_spec. intros Hk.
    rewrite app_nil_r. unfold IsZero. case_bool_decide as Hz; [by rewrite Hz|done].
Qed.

(** A payload is a list of fields. *)
Inductive piece := PArray (n : Z) (b : bytes) | PUint64 (v : Z) | PByte (v : Z) | PInt8 (v : Z) | PBool (b : bool) | POptional (k : option bytes).
Definition pieceBytes (p : piece) : bytes :=
  match p with
  | PArray _ b => b | PUint64 v => le_bytes 8 v | PByte v => [v] | PInt8 v => [u8 v] | PBool b => boolByte b
  | POptional k => publicKeyBytes k
  end.
Definition pieceOk (p : piece) : Prop :=
  match p with
  | PArray n b => array_ok n b | PUint64 v => is_uint 8 v | PByte v => is_byte v | PInt8 v => is_int8 v | PBool _ => True
  | POptional k => optionalKeyOk k
  end.
Definition pieceSize (p : piece) : Z :=
  match p with PArray n _ => n | PUint64 _ => 8 | PByte _ | PInt8 _ | PBool _ => 1 | POptional _ => 32 end.
Definition payload (ps : list piece) : bytes := concat (pieceBytes <$> ps).
Definition payloadOk (ps : list piece) : Prop := Forall pieceOk ps.

Lemma payload_len ps : payloadOk ps → len (payload ps) = sumZ (pieceSize <$> ps).
Proof.
  intros Hp. unfold payload. rewrite len_concat. f_equal. induction Hp as [|p ps Hx _ IH]; [done|]. rewrite !fmap_cons. f_equal; [|exact IH].
  destruct p as [n b|v|v|v|b|k]; cbn [pieceBytes pieceSize pieceOk] in *; [by destruct Hx|by rewrite len_le_bytes|done|done|by destruct b|].
  destruct k as [k|]; [by destruct Hx as [[? _] _]|done].
Qed.

(** The codec of a record read field by field. *)
Ltac payload_norm := unfold payload, payloadOk in *; cbn [fmap list_fmap concat pieceBytes pieceOk app] in *; rewrite ?Forall_cons, ?Forall_nil in *; cbn [pieceOk pieceBytes] in *.
Tactic Notation "payload_codec" reference(m) reference(fs) :=
  split;
  [ intros x Hx; destruct x; unfold fs in *; payload_norm; unfold m; step_reads; layout_done
  | unfold m; step_parses; intros; unfold fs; payload_norm; layout_done ].

Definition initializeMintFields d := [POptional (im_Authority d); PBool (im_AutoApproveNewAccounts d); POptional (im_AuditorElGamalPubkey d)].
#[global] Instance readInitializeMint_codec : Codec readInitializeMint (λ d, payload (initializeMintFields d)) (λ d, payloadOk (initializeMintFields d)).
Proof. payload_codec readInitializeMint initializeMintFields. Qed.
Definition updateMintFields d := [PBool (um_AutoApproveNewAccounts d); POptional (um_AuditorElGamalPubkey d)].
#[global] Instance readUpdateMint_codec : Codec readUpdateMint (λ d, payload (updateMintFields d)) (λ d, payloadOk (updateMintFields d)).
Proof. payload_codec readUpdateMint updateMintFields. Qed.
Definition configureFields d := [PArray 36 (ca_DecryptableZeroBalance d); PUint64 (ca_MaximumPendingBalanceCreditCounter d); PInt8 (ca_ProofInstructionOffset d)].
#[global] Instance readConfigureAccount_codec : Codec readConfigureAccount (λ d, payload (configureFields d)) (λ d, payloadOk (configureFields d)).
Proof. payload_codec readConfigureAccount configureFields. Qed.
Definition emptyFields d := [PInt8 (ea_ProofInstructionOffset d)].
#[global] Instance readEmptyAccount_codec : Codec readEmptyAccount (λ d, payload (emptyFields d)) (λ d, payloadOk (emptyFields d)).
Proof. payload_codec readEmptyAccount emptyFields. Qed.
Definition depositFields d := [PUint64 (dd_Amount d); PByte (dd_Decimals d)].
#[global] Instance readDeposit_codec : Codec readDeposit (λ d, payload (depositFields d)) (λ d, payloadOk (depositFields d)).
Proof. payload_codec readDeposit depositFields. Qed.
Definition withdrawFields d := [PUint64 (wd_Amount d); PByte (wd_Decimals d); PArray 36 (wd_NewDecryptableAvailableBalance d);
   PInt8 (wd_EqualityProofInstructionOffset d); PInt8 (wd_RangeProofInstructionOffset d)].
#[global] Instance readWithdraw_codec : Codec readWithdraw (λ d, payload (withdrawFields d)) (λ d, payloadOk (withdrawFields d)).
Proof. payload_codec readWithdraw withdrawFields. Qed.
Definition transferFields d := [PArray 36 (td_NewSourceDecryptableAvailableBalance d); PArray 64 (td_TransferAmountAuditorCiphertextLo d);
   PArray 64 (td_TransferAmountAuditorCiphertextHi d); PInt8 (td_EqualityProofInstructionOffset d);
   PInt8 (td_CiphertextValidityProofInstructionOffset d); PInt8 (td_RangeProofInstructionOffset d)].
#[global] Instance decodeConfidentialTransferData_codec : Codec decodeConfidentialTransferData (λ d, payload (transferFields d)) (λ d, payloadOk (transferFields d)).
Proof. payload_codec decodeConfidentialTransferData transferFields. Qed.
Definition applyFields d := [PUint64 (ap_ExpectedPendingBalanceCreditCounter d); PArray 36 (ap_NewDecryptableAvailableBalance d)].
#[global] Instance readApplyPendingBalance_codec : Codec readApplyPendingBalance (λ d, payload (applyFields d)) (λ d, payloadOk (applyFields d)).
Proof. payload_codec readApplyPendingBalance applyFields. Qed.
Definition transferWithFeeFields d := [PArray 36 (tf_NewSourceDecryptableAvailableBalance d); PArray 64 (tf_TransferAmountAuditorCiphertextLo d);
   PArray 64 (tf_TransferAmountAuditorCiphertextHi d); PInt8 (tf_EqualityProofInstructionOffset d);
   PInt8 (tf_TransferAmountCiphertextValidityInstructionOffset d); PInt8 (tf_FeeSigmaProofInstructionOffset d);
   PInt8 (tf_FeeCiphertextValidityProofInstructionOffset d); PInt8 (tf_RangeProofInstructionOffset d)].
#[global] Instance readTransferWithFee_codec : Codec readTransferWithFee (λ d, payload (transferWithFeeFields d)) (λ d, payloadOk (transferWithFeeFields d)).
Proof. payload_codec readTransferWithFee transferWithFeeFields. Qed.
Definition initializeFeeFields d := [POptional (if_Authority d); PArray 32 (if_WithdrawWithheldAuthorityElGamalPubkey d)].
#[global] Instance readInitializeFee_codec : Codec readInitializeFee (λ d, payload (initializeFeeFields d)) (λ d, payloadOk (initializeFeeFields d)).
Proof. payload_codec readInitializeFee initializeFeeFields. Qed.
Definition withheldMintFields d := [PInt8 (wm_ProofInstructionOffset d); PArray 36 (wm_NewDecryptableAvailableBalance d)].
#[global] Instance readWithheldMint_codec : Codec readWithheldMint (λ d, payload (withheldMintFields d)) (λ d, payloadOk (withheldMintFields d)).
Proof. payload_codec readWithheldMint withheldMintFields. Qed.
Definition withheldAccountsFields d := [PByte (wa_NumTokenAccounts d); PInt8 (wa_ProofInstructionOffset d); PArray 36 (wa_NewDecryptableAvailableBalance d)].
#[global] Instance readWithheldAccounts_codec : Codec readWithheldAccounts (λ d, payload (withheldAccountsFields d)) (λ d, payloadOk (withheldAccountsFields d)).
Proof. payload_codec readWithheldAccounts withheldAccountsFields. Qed.
Definition initializeMintBurnFields d := [PArray 32 (ib_SupplyElGamalPubkey d); PArray 36 (ib_DecryptableSupply d)].
#[global] Instance readInitializeMintBurn_codec : Codec readInitializeMintBurn (λ d, payload (initializeMintBurnFields d)) (λ d, payloadOk (initializeMintBurnFields d)).
Proof. payload_codec readInitializeMintBurn initializeMintBurnFields. Qed.
Definition rotateFields d := [PArray 32 (rs_NewSupplyElGamalPubkey d); PInt8 (rs_ProofInstructionOffset d)].
#[global] Instance readRotateSupplyKey_codec : Codec readRotateSupplyKey (λ d, payload (rotateFields d)) (λ d, payloadOk (rotateFields d)).
Proof. payload_codec readRotateSupplyKey rotateFields. Qed.
Definition updateSupplyFields d := [PArray 36 (us_NewDecryptableSupply d)].
#[global] Instance readUpdateSupply_codec : Codec readUpdateSupply (λ d, payload (updateSupplyFields d)) (λ d, payloadOk (updateSupplyFields d)).
Proof. payload_codec readUpdateSupply updateSupplyFields. Qed.
Definition mintFields d := [PArray 36 (md_NewDecryptableSupply d); PArray 64 (md_MintAmountAuditorCiphertextLo d);
   PArray 64 (md_MintAmountAuditorCiphertextHi d); PInt8 (md_EqualityProofInstructionOffset d);
   PInt8 (md_CiphertextValidityProofInstructionOffset d); PInt8 (md_RangeProofInstructionOffset d)].
#[global] Instance decodeConfidentialMintData_codec : Codec decodeConfidentialMintData (λ d, payload (mintFields d)) (λ d, payloadOk (mintFields d)).
Proof. payload_codec decodeConfidentialMintData mintFields. Qed.
Definition burnFields d := [PArray 36 (bd_NewDecryptableAvailableBalance d); PArray 64 (bd_BurnAmountAuditorCiphertextLo d);
   PArray 64 (bd_BurnAmountAuditorCiphertextHi d); PInt8 (bd_EqualityProofInstructionOffset d);
   PInt8 (bd_CiphertextValidityProofInstructionOffset d); PInt8 (bd_RangeProofInstructionOffset d)].
#[global] Instance decodeConfidentialBurnData_codec : Codec decodeConfidentialBurnData (λ d, payload (burnFields d)) (λ d, payloadOk (burnFields d)).
Proof. payload_codec decodeConfidentialBurnData burnFields. Qed.

(** * Exact decoding *)

(** The size check and the fields: decoding a payload of the size of its fields. *)
Section payload.
Context {A : Type} (read : GoM Decoder error A) (fields : A → list piece).
Context {Hc : Codec read (λ d, payload (fields d)) (λ d, payloadOk (fields d))}.
Context (size : Z) (Hsize : ∀ d, sumZ (pieceSize <$> fields d) = size).

Lemma payload_reads name msg d :
  payloadOk (fields d) → confidentialDecoder size name (checked msg read) (payload (fields d)) = Ok d.
Proof.
  intros Hd. unfold confidentialDecoder, validateStateSize. rewrite (payload_len _ Hd), Hsize. rewrite decide_False by (intros H; by apply H).
  obind. rewrite <-(app_nil_r (payload _)). apply (runDecoder_when read _ (λ _, True)); [|constructor|done].
  apply reads_when. by apply (codec_reads (Codec := Hc)).
Qed.

Lemma payload_exact name msg raw :
  bytes_ok raw →
  match confidentialDecoder size name (checked msg read) raw with
  | Ok d => payloadOk (fields d) ∧ raw = payload (fields d)
  | Err _ => True
  | Panic => False
  end.
Proof.
  intros Hr. unfold confidentialDecoder, validateStateSize. case_decide as Hl; [done|]. obind.
  pose proof (runDecoder_checked read (errDecoding msg) (λ d bs _, payloadOk (fields d) ∧ bs = payload (fields d)) raw) as H.
  unfold checked. destruct (runDecoder _ raw) as [d|e|]; [|done|].
  - destruct H as (bs & rest & -> & Hd & ->); [eapply parses_rest; [apply Hc|auto]|done|]. split; [done|].
    rewrite len_app, (payload_len _ Hd), Hsize in Hl. rewrite (len_0 rest) by lia. by rewrite app_nil_r.
  - apply H; [eapply parses_rest; [apply Hc|auto]|done].
Qed.
End payload.

Definition transferPayload (d : ConfidentialTransferInstructionData) : Z * list piece :=
  match d with
  | InitializeMint d => (0, initializeMintFields d) | UpdateMint d => (1, updateMintFields d)
  | ConfigureAccount d => (2, configureFields d) | ApproveAccount => (3, []) | EmptyAccount d => (4, emptyFields d)
  | Deposit d => (5, depositFields d) | Withdraw d => (6, withdrawFields d) | Transfer d => (7, transferFields d)
  | ApplyPendingBalance d => (8, applyFields d) | EnableConfidentialCredits => (9, []) | DisableConfidentialCredits => (10, [])
  | EnableNonConfidentialCredits => (11, []) | DisableNonConfidentialCredits => (12, [])
  | TransferWithFee d => (13, transferWithFeeFields d) | ConfigureAccountWithRegistry => (14, [])
  end.
Definition feePayload (d : ConfidentialTransferFeeInstructionData) : Z * list piece :=
  match d with
  | InitializeConfig d => (0, initializeFeeFields d) | WithdrawWithheldTokensFromMint d => (1, withheldMintFields d)
  | WithdrawWithheldTokensFromAccounts d => (2, withheldAccountsFields d)
  | HarvestWithheldTokensToMint => (3, []) | EnableHarvestToMint => (4, []) | DisableHarvestToMint => (5, [])
  end.
Definition mintBurnPayload (d : ConfidentialMintBurnInstructionData) : Z * list piece :=
  match d with
  | InitializeMintBurn d => (0, initializeMintBurnFields d) | RotateSupplyKey d => (1, rotateFields d)
  | UpdateDecryptableSupply d => (2, updateSupplyFields d) | Mint d => (3, mintFields d) | Burn d => (4, burnFields d)
  | ApplyPendingBurn => (5, [])
  end.

(** What is promised of each of the three decoders. *)
Class PayloadDecoder {A} (decode : Z → bytes → outcome error A) (fields : A → Z * list piece) : Prop := {
  payload_decodes d : payloadOk (fields d).2 → decode (fields d).1 (payload (fields d).2) = Ok d;
  payload_decoded sub raw : bytes_ok raw →
    match decode sub raw with
    | Ok d => payloadOk (fields d).2 ∧ sub = (fields d).1 ∧ raw = payload (fields d).2
    | Err _ => True
    | Panic => False
    end;
}.

(** One case of a decoder: its sub-instruction is known. *)
Ltac payload_forward Hd :=
  rewrite ?(decide_False (P := _ = _)), ?(decide_False (P := _ ∨ _)), ?decide_True by lia;
  match goal with
  | |- context [confidentialDecoder ?s ?n (checked ?m ?r) (payload (?f ?d))] =>
    by rewrite (payload_reads r f s ltac:(intros []; reflexivity) n m d Hd)
  | |- _ => reflexivity
  end.
Ltac payload_backward Hr :=
  lazymatch goal with
  | |- context [confidentialDecoder ?s ?n (checked ?m ?r) ?raw] =>
    let H := fresh in
    pose proof (payload_exact r _ s ltac:(intros []; reflexivity) n m raw Hr) as H;
    destruct (confidentialDecoder s n (checked m r) raw); [by destruct H|done|done]
  | |- context [validateStateSize ?raw 0 _] => unfold validateStateSize; case_decide; [done|]; rewrite (len_0 raw) by lia; by split_and!; [constructor| |]
  | |- _ => idtac
  end.

(** The sub-instructions without data. *)
Ltac no_data raw :=
  case_decide; [done|]; rewrite (len_0 raw) by lia;
  repeat (case_decide; [by split_and!; [constructor| |]|]); split_and!; [constructor|cbn; lia|done].

#[global] Instance transferPayload_decoder : PayloadDecoder DecodeConfidentialTransferInstruction transferPayload.
Proof.
  split.
  - intros d Hd. destruct d; cbn [transferPayload fst snd] in *; unfold DecodeConfidentialTransferInstruction; payload_forward Hd.
  - intros sub raw Hr. unfold DecodeConfidentialTransferInstruction.
    repeat (case_decide; [subst sub; payload_backward Hr|]).
    case_decide as Hn.
    + unfold decodeConfidentialNoData. no_data raw.
    + case_decide; [subst sub; payload_backward Hr|done].
Qed.

#[global] Instance feePayload_decoder : PayloadDecoder DecodeConfidentialTransferFeeInstruction feePayload.
Proof.
  split.
  - intros d Hd. destruct d; cbn [feePayload fst snd] in *; unfold DecodeConfidentialTransferFeeInstruction; payload_forward Hd.
  - intros sub raw Hr. unfold DecodeConfidentialTransferFeeInstruction.
    repeat (case_decide; [subst sub; payload_backward Hr|]).
    case_decide as Hn; [|done]. unfold decodeConfidentialFeeNoData. no_data raw.
Qed.

#[global] Instance mintBurnPayload_decoder : PayloadDecoder DecodeConfidentialMintBurnInstruction mintBurnPayload.
Proof.
  split.
  - intros d Hd. destruct d; cbn [mintBurnPayload fst snd] in *; unfold DecodeConfidentialMintBurnInstruction; payload_forward Hd.
  - intros sub raw Hr. unfold DecodeConfidentialMintBurnInstruction.
    repeat (case_decide; [subst sub; payload_backward Hr|]). done.
Qed.

(** * Constructors *)

(** Which payload each constructor is meant to carry. *)
Inductive transfer_built : ConfidentialTransferExtension → ConfidentialTransferInstructionData → Prop :=
  | built_initialize_mint mint authority auto auditor :
      transfer_built (InitializeConfidentialTransferMint mint authority auto auditor)
        (InitializeMint (mkInitializeMintData authority auto auditor))
  | built_update_mint mint authority signers auto auditor :
      transfer_built (UpdateConfidentialTransferMint mint authority signers auto auditor) (UpdateMint (mkUpdateMintData auto auditor))
  | built_configure account mint authority signers zero maximum proof :
      transfer_built (ConfigureConfidentialTransferAccount account mint authority signers zero maximum proof)
        (ConfigureAccount (mkConfigureData zero maximum (InstructionOffset proof)))
  | built_approve account mint authority signers :
      transfer_built (ApproveConfidentialTransferAccount account mint authority signers) ApproveAccount
  | built_empty account authority signers proof :
      transfer_built (EmptyConfidentialTransferAccount account authority signers proof) (EmptyAccount (mkEmptyData (InstructionOffset proof)))
  | built_deposit account mint authority signers amount decimals :
      transfer_built (ConfidentialDeposit account mint authority signers amount decimals) (Deposit (mkDepositData amount decimals))
  | built_withdraw account mint authority signers amount decimals balance equality range :
      transfer_built (ConfidentialWithdraw account mint authority signers amount decimals balance equality range)
        (Withdraw (mkWithdrawData amount decimals balance (InstructionOffset equality) (InstructionOffset range)))
  | built_transfer source mint destination authority signers balance lo hi equality validity range :
      transfer_built (ConfidentialTransfer source mint destination authority signers balance lo hi equality validity range)
        (Transfer (mkTransferData balance lo hi (InstructionOffset equality) (InstructionOffset validity) (InstructionOffset range)))
  | built_apply account authority signers counter balance :
      transfer_built (ApplyConfidentialPendingBalance account authority signers counter balance) (ApplyPendingBalance (mkApplyData counter balance))
  | built_enable account authority signers :
      transfer_built (EnableConfidentialCreditsInstruction account authority signers) EnableConfidentialCredits
  | built_disable account authority signers :
      transfer_built (DisableConfidentialCreditsInstruction account authority signers) DisableConfidentialCredits
  | built_enable_plain account authority signers :
      transfer_built (EnableNonConfidentialCreditsInstruction account authority signers) EnableNonConfidentialCredits
  | built_disable_plain account authority signers :
      transfer_built (DisableNonConfidentialCreditsInstruction account authority signers) DisableNonConfidentialCredits
  | built_transfer_fee source mint destination authority signers balance lo hi equality validity sigma feeValidity range :
      transfer_built (ConfidentialTransferWithFee source mint destination authority signers balance lo hi equality validity sigma feeValidity range)
        (TransferWithFee (mkTransferWithFeeData balance lo hi (InstructionOffset equality) (InstructionOffset validity)
           (InstructionOffset sigma) (InstructionOffset feeValidity) (InstructionOffset range)))
  | built_configure_registry account mint registry payer :
      transfer_built (ConfigureConfidentialTransferAccountWithRegistry account mint registry payer) ConfigureAccountWithRegistry.

Inductive fee_built : ConfidentialTransferFeeExtension → ConfidentialTransferFeeInstructionData → Prop :=
  | built_initialize_fee mint authority withdraw :
      fee_built (InitializeConfidentialTransferFee mint authority withdraw) (InitializeConfig (mkInitializeFeeData authority withdraw))
  | built_withheld_mint mint destination authority signers balance proof :
      fee_built (WithdrawConfidentialWithheldTokensFromMint mint destination authority signers balance proof)
        (WithdrawWithheldTokensFromMint (mkWithheldMintData (InstructionOffset proof) balance))
  | built_withheld_accounts mint destination authority signers sources balance proof :
      len sources < 256 →
      fee_built (WithdrawConfidentialWithheldTokensFromAccounts mint destination authority signers sources balance proof)
        (WithdrawWithheldTokensFromAccounts (mkWithheldAccountsData (len sources) (InstructionOffset proof) balance))
  | built_harvest mint sources : fee_built (HarvestConfidentialWithheldTokensToMint mint sources) HarvestWithheldTokensToMint
  | built_enable_harvest mint authority signers :
      fee_built (EnableConfidentialHarvestToMint mint authority signers) EnableHarvestToMint
  | built_disable_harvest mint authority signers :
      fee_built (DisableConfidentialHarvestToMint mint authority signers) DisableHarvestToMint.

Inductive mint_burn_built : ConfidentialMintBurnExtension → ConfidentialMintBurnInstructionData → Prop :=
  | built_initialize_mint_burn mint pubkey supply :
      mint_burn_built (InitializeConfidentialMintBurn mint pubkey supply) (InitializeMintBurn (mkInitializeMintBurnData pubkey supply))
  | built_rotate mint authority signers pubkey proof :
      mint_burn_built (RotateConfidentialSupplyKey mint authority signers pubkey proof)
        (RotateSupplyKey (mkRotateData pubkey (InstructionOffset proof)))
  | built_update_supply mint authority signers supply :
      mint_burn_built (UpdateConfidentialSupply mint authority signers supply) (UpdateDecryptableSupply (mkUpdateSupplyData supply))
  | built_mint account mint authority signers supply lo hi equality validity range :
      mint_burn_built (ConfidentialMint account mint authority signers supply lo hi equality validity range)
        (Mint (mkMintData supply lo hi (InstructionOffset equality) (InstructionOffset validity) (InstructionOffset range)))
  | built_burn account mint authority signers balance lo hi equality validity range :
      mint_burn_built (ConfidentialBurn account mint authority signers balance lo hi equality validity range)
        (Burn (mkBurnData balance lo hi (InstructionOffset equality) (InstructionOffset validity) (InstructionOffset range)))
  | built_apply_burn mint authority signers :
      mint_burn_built (ApplyPendingConfidentialBurn mint authority signers) ApplyPendingBurn.

(** The payloads written by an encoder or by appending. *)
Ltac flat_payload := unfold payload; cbn; rewrite <-?app_assoc, ?app_nil_r; reflexivity.

Lemma initialize_mint_payload mint authority auto auditor :
  length (publicKeyBytes authority) = 32%nat →
  te_RawData (InitializeConfidentialTransferMint mint authority auto auditor)
  = payload (initializeMintFields (mkInitializeMintData authority auto auditor)).
Proof.
  intros Hl. unfold payload. cbn. rewrite app_nil_r. change (elGamalPubkeyBytes auditor) with (publicKeyBytes auditor).
  destruct auto; cbn [boolByte]; [|by rewrite <-app_assoc].
  rewrite <-Hl, <-(Nat.add_0_r (length _)), insert_app_r. by rewrite <-app_assoc.
Qed.

Lemma transfer_built_payload inst d :
  transfer_built inst d → payloadOk (transferPayload d).2 →
  te_SubInstruction inst = (transferPayload d).1 ∧ te_RawData inst = payload (transferPayload d).2.
Proof.
  intros H Hd. destruct H.
  all: cbn [transferPayload fst snd] in *.
  all: split; [reflexivity|].
  all: try reflexivity.
  - apply initialize_mint_payload. apply Forall_cons in Hd as [Hd _]. by destruct authority as [k|]; [destruct Hd as [[Hk _] _]; unfold len in Hk; cbn; lia|].
  - destruct auto; unfold payload; cbn; by rewrite app_nil_r.
  - flat_payload.
  - flat_payload.
  - flat_payload.
  - flat_payload.
Qed.

Lemma fee_built_payload inst d :
  fee_built inst d → payloadOk (feePayload d).2 → fe_SubInstruction inst = (feePayload d).1 ∧ fe_RawData inst = payload (feePayload d).2.
Proof.
  intros H Hd. destruct H as [| |? ? ? ? sources ? ? Hn| | |]; cbn [feePayload fst snd] in *; (split; [reflexivity|]);
    try reflexivity; try flat_payload.
  unfold payload, WithdrawConfidentialWithheldTokensFromAccounts. cbn. rewrite app_nil_r. f_equal.
  unfold u8. apply Z.mod_small. pose proof (len_nonneg sources). lia.
Qed.

Lemma mint_burn_built_payload inst d :
  mint_burn_built inst d → payloadOk (mintBurnPayload d).2 →
  me_SubInstruction inst = (mintBurnPayload d).1 ∧ me_RawData inst = payload (mintBurnPayload d).2.
Proof.
  intros H Hd. destruct H; cbn [mintBurnPayload fst snd] in *; (split; [reflexivity|]);
    try reflexivity; flat_payload.
Qed.

(** C38. Confidential instructions decode to what they were built from. For every
    constructor of the transfer, fee and mint-burn extensions, with arguments in
    range, the payload it builds decodes under its sub-instruction to exactly those
    arguments. Conversely the three decoders never panic, and a payload they accept
    is spelled out by the fields returned, to the last byte. *)
Theorem confidential_builders_decode :
  (∀ inst d, transfer_built inst d → payloadOk (transferPayload d).2 →
     DecodeConfidentialTransferInstruction (te_SubInstruction inst) (te_RawData inst) = Ok d) ∧
  (∀ inst d, fee_built inst d → payloadOk (feePayload d).2 →
     DecodeConfidentialTransferFeeInstruction (fe_SubInstruction inst) (fe_RawData inst) = Ok d) ∧
  (∀ inst d, mint_burn_built inst d → payloadOk (mintBurnPayload d).2 →
     DecodeConfidentialMintBurnInstruction (me_SubInstruction inst) (me_RawData inst) = Ok d) ∧
  ∀ sub raw, bytes_ok raw →
    match DecodeConfidentialTransferInstruction sub raw with
    | Ok d => sub = (transferPayload d).1 ∧ raw = payload (transferPayload d).2 | Err _ => True | Panic => False end ∧
    match DecodeConfidentialTransferFeeInstruction sub raw with
    | Ok d => sub = (feePayload d).1 ∧ raw = payload (feePayload d).2 | Err _ => True | Panic => False end ∧
    match DecodeConfidentialMintBurnInstruction sub raw with
    | Ok d => sub = (mintBurnPayload d).1 ∧ raw = payload (mintBurnPayload d).2 | Err _ => True | Panic => False end.
Proof.
  split_and!.
  - intros inst d H Hd. destruct (transfer_built_payload _ _ H Hd) as [-> ->]. by apply payload_decodes.
  - intros inst d H Hd. destruct (fee_built_payload _ _ H Hd) as [-> ->]. by apply payload_decodes.
  - intros inst d H Hd. destruct (mint_burn_built_payload _ _ H Hd) as [-> ->]. by apply payload_decodes.
  - intros sub raw Hr.
    pose proof (payload_decoded (decode := DecodeConfidentialTransferInstruction) sub raw Hr) as H1.
    pose proof (payload_decoded (decode := DecodeConfidentialTransferFeeInstruction) sub raw Hr) as H2.
    pose proof (payload_decoded (decode := DecodeConfidentialMintBurnInstruction) sub raw Hr) as H3.
    destruct (DecodeConfidentialTransferInstruction sub raw), (DecodeConfidentialTransferFeeInstruction sub raw),
      (DecodeConfidentialMintBurnInstruction sub raw); naive_solver.
Qed.
