(* ===== verification/ConfidentialPlan.v ===== *)
(** ConfidentialPlan: confidential operations with their proofs
    (programs/token-2022: confidential_composed.go, confidential_fee_composed.go,
    confidential_mint_burn_composed.go, confidential_workflows.go): generating
    the proofs of a withdrawal, transfer, transfer with fee, mint, burn, key
    rotation or withheld-fee withdrawal from the account state and the keys, and
    the instructions that carry them. *)
From Stdlib Require Import ZArith Lia.
From stdpp Require Import base numbers strings list.
From S2P Require Import Prelude Keys ProgramIds System Ristretto ElGamal Sigma Validity RangeProof ZkProof.
From S2P Require Import ConfidentialState ConfidentialIx.

Open Scope Z_scope.

Record ConfidentialWithdrawProofBundle := mkWithdrawProofs { wp_Equality : ZKProofData; wp_Range : ZKProofData }.
(** [ab_Range] is the zero value until the range proof is made. *)
Record ConfidentialAmountProofBundle := mkAmountProofs {
  ab_Equality : ZKProofData; ab_CiphertextValidity : ZKProofData; ab_Range : ZKProofData;
  ab_AuditorCiphertextLo : ElGamalCiphertext; ab_AuditorCiphertextHi : ElGamalCiphertext }.
Record ConfidentialWithdrawPlan := mkWithdrawPlan {
  wl_Instructions : list Instruction; wl_Proofs : ConfidentialWithdrawProofBundle;
  wl_NewDecryptableAvailableBalance : AeCiphertext }.
Record ConfidentialAmountPlan := mkAmountPlan {
  al_Instructions : list Instruction; al_Proofs : ConfidentialAmountProofBundle;
  al_NewDecryptableAvailableBalance : AeCiphertext }.
Record confidentialAmountProofValues := mkAmountValues {
  av_proofs : ConfidentialAmountProofBundle; av_amountLo : Z; av_amountHi : Z; av_newAmount : Z;
  av_commitmentLo : PedersenCommitment; av_commitmentHi : PedersenCommitment; av_newCommitment : PedersenCommitment;
  av_openingLo : PedersenOpening; av_openingHi : PedersenOpening; av_newOpening : PedersenOpening }.

Record ConfidentialTransferWithFeeProofBundle := mkFeeProofs {
  fb_Equality : ZKProofData; fb_TransferCiphertextValidity : ZKProofData; fb_FeeSigma : ZKProofData;
  fb_FeeCiphertextValidity : ZKProofData; fb_Range : ZKProofData;
  fb_AuditorCiphertextLo : ElGamalCiphertext; fb_AuditorCiphertextHi : ElGamalCiphertext }.
Record ConfidentialTransferWithFeePlan := mkFeePlan {
  fl_Instructions : list Instruction; fl_Proofs : ConfidentialTransferWithFeeProofBundle;
  fl_NewDecryptableAvailableBalance : AeCiphertext; fl_FeeAmount : Z }.
Record ConfidentialWithheldAccount := mkWithheldAccount {
  wc_Address : PublicKey; wc_State : ConfidentialTransferFeeAmount }.
Record ConfidentialWithheldProofBundle := mkWithheldProofs {
  wb_Equality : ZKProofData; wb_DestinationCiphertext : ElGamalCiphertext }.
Record ConfidentialWithheldPlan := mkWithheldPlan {
  wh_Instructions : list Instruction; wh_Proofs : ConfidentialWithheldProofBundle;
  wh_NewDecryptableAvailableBalance : AeCiphertext }.

Record ConfidentialMintPlan := mkMintPlan {
  ml_Instructions : list Instruction; ml_Proofs : ConfidentialAmountProofBundle; ml_NewDecryptableSupply : AeCiphertext }.
Record ConfidentialRotateSupplyProofBundle := mkRotateProofs {
  ro_Equality : ZKProofData; ro_NewSupplyCiphertext : ElGamalCiphertext }.
Record ConfidentialRotateSupplyPlan := mkRotatePlan {
  rl_Instructions : list Instruction; rl_Proofs : ConfidentialRotateSupplyProofBundle }.

Definition zeroProofData : ZKProofData := mkProofData 0 [] [].

(** [{InstructionOffset: offset, Proof: &proof}]. *)
Definition inlineProof (offset : Z) (proof : ZKProofData) : ProofLocation := mkLocation offset zeroKey (Some proof).

Definition confidentialAuditor (auditor : option ElGamalPubkey) : ElGamalPubkey :=
  match auditor with Some auditor => auditor | None => zeros 32 end.

Section plan.
Context `{R : Ristretto} {Rnd : Random} {M : Merlin} `{G : GcmSiv} {Sh : Shake} {ed : PrivateKey.Ed25519}.

Implicit Types service : ConfidentialTransferService.

(** * Withdrawals *)

Definition GenerateConfidentialWithdrawProofs service (account : ConfidentialTransferAccount) (amount : Z)
  (keypair : ElGamalKeypair) (key : AEKey) : GoM Reader error (ConfidentialWithdrawProofBundle * Z) :=
  let prefix := "generate confidential withdraw proofs"%string in
  current ← lift (DecryptConfidentialAvailableBalance key account);
  if decide (current < amount) then
    throw (insufficientFundsError (errNew "generate confidential withdraw proofs: insufficient funds"))
  else
  let remaining := current - amount in
  opening ← wrapM prefix GeneratePedersenOpening;
  commitment ← lift (wrapf prefix (CommitPedersen service remaining opening));
  ciphertext ← lift (wrapf prefix (SubtractElGamalAmount (ta_AvailableBalance account) amount));
  equality ← GenerateCiphertextCommitmentEqualityProof service keypair ciphertext commitment opening remaining;
  rangeProof ← GenerateBatchedRangeProof service [commitment] [remaining] [64] [opening];
  mret (mkWithdrawProofs equality rangeProof, remaining).

Definition ConfidentialWithdrawWithProofs service (tokenAccount mint authority : PublicKey) (signers : list PublicKey)
  (amount decimals : Z) (account : ConfidentialTransferAccount) (keypair : ElGamalKeypair) (key : AEKey)
  : GoM Reader error ConfidentialWithdrawPlan :=
  '(proofs, remaining) ← GenerateConfidentialWithdrawProofs service account amount keypair key;
  decryptable ← EncryptAEAmount key remaining;
  let equality := inlineProof 1 (wp_Equality proofs) in
  let range := inlineProof 2 (wp_Range proofs) in
  let instruction := ConfidentialWithdraw tokenAccount mint authority signers amount decimals decryptable equality range in
  instructions ← lift (ConfidentialInstructions service (transferInstruction instruction) [equality; range]);
  mret (mkWithdrawPlan instructions proofs decryptable).

(** * Amounts under three keys *)

Definition confidentialAmountAfterOperation (currentAmount amount : Z) (currentCiphertext amountCiphertext : ElGamalCiphertext)
  (add : bool) : outcome error (Z * ElGamalCiphertext) :=
  if add then
    let '(newAmount, carry) := Add64 currentAmount amount 0 in
    if decide (carry ≠ 0) then Err (errNew "generate confidential amount proofs: amount overflow") else
    ciphertext ← AddElGamalCiphertexts currentCiphertext amountCiphertext;
    Ok (newAmount, ciphertext)
  else if decide (currentAmount < amount) then
    Err (insufficientFundsError (errNew "generate confidential amount proofs: insufficient funds"))
  else
    ciphertext ← SubtractElGamalCiphertexts currentCiphertext amountCiphertext;
    Ok (currentAmount - amount, ciphertext).

Definition generateConfidentialAmountProofValues service (currentCiphertext : ElGamalCiphertext) (currentAmount amount : Z)
  (equalityKeypair : ElGamalKeypair) (publicKeys : list ElGamalPubkey) (equalityHandle : Z) (add : bool)
  : GoM Reader error confidentialAmountProofValues :=
  '(lo, hi) ← lift (SplitAmount amount);
  '(groupedLo, openingLo) ← EncryptGroupedElGamal3 service publicKeys lo;
  '(groupedHi, openingHi) ← EncryptGroupedElGamal3 service publicKeys hi;
  amountCipherLo ← lift (GroupedElGamalCiphertext3Handle groupedLo equalityHandle);
  amountCipherHi ← lift (GroupedElGamalCiphertext3Handle groupedHi equalityHandle);
  amountCiphertext ← lift (CombineElGamalAmountCiphertexts amountCipherLo amountCipherHi);
  '(newAmount, newCiphertext) ←
    lift (confidentialAmountAfterOperation currentAmount amount currentCiphertext amountCiphertext add);
  newOpening ← GeneratePedersenOpening;
  newCommitment ← lift (CommitPedersen service newAmount newOpening);
  equality ← GenerateCiphertextCommitmentEqualityProof service equalityKeypair newCiphertext newCommitment newOpening newAmount;
  validity ← GenerateBatchedGroupedCiphertext3HandlesValidityProof service publicKeys (groupedLo, groupedHi) (lo, hi)
               (openingLo, openingHi);
  auditorLo ← lift (GroupedElGamalCiphertext3Handle groupedLo 2);
  auditorHi ← lift (GroupedElGamalCiphertext3Handle groupedHi 2);
  let commitmentLo := copy_into (zeros 32) (sub 0 32 groupedLo) in
  let commitmentHi := copy_into (zeros 32) (sub 0 32 groupedHi) in
  mret (mkAmountValues (mkAmountProofs equality validity zeroProofData auditorLo auditorHi) lo hi newAmount
          commitmentLo commitmentHi newCommitment openingLo openingHi newOpening).

(** The range proof goes into the proofs of [values], which the result is. *)
Definition generateConfidentialAmountRangeProof service (values : confidentialAmountProofValues)
  : GoM Reader error confidentialAmountProofValues :=
  paddingOpening ← GeneratePedersenOpening;
  paddingCommitment ← lift (CommitPedersen service 0 paddingOpening);
  proof ← GenerateBatchedRangeProof service
    [av_newCommitment values; av_commitmentLo values; av_commitmentHi values; paddingCommitment]
    [av_newAmount values; av_amountLo values; av_amountHi values; 0]
    [64; 16; 32; 16]
    [av_newOpening values; av_openingLo values; av_openingHi values; paddingOpening];
  let p := av_proofs values in
  mret (mkAmountValues
    (mkAmountProofs (ab_Equality p) (ab_CiphertextValidity p) proof (ab_AuditorCiphertextLo p) (ab_AuditorCiphertextHi p))
    (av_amountLo values) (av_amountHi values) (av_newAmount values)
    (av_commitmentLo values) (av_commitmentHi values) (av_newCommitment values)
    (av_openingLo values) (av_openingHi values) (av_newOpening values)).

(** The three proofs an amount moves with, at the offsets after the instruction. *)
Definition amountLocations (proofs : ConfidentialAmountProofBundle) : list ProofLocation :=
  [inlineProof 1 (ab_Equality proofs); inlineProof 2 (ab_CiphertextValidity proofs); inlineProof 3 (ab_Range proofs)].

(** * Transfers *)

Definition GenerateConfidentialTransferProofs service (account : ConfidentialTransferAccount) (amount : Z)
  (keypair : ElGamalKeypair) (key : AEKey) (destination : ElGamalPubkey) (auditor : option ElGamalPubkey)
  : GoM Reader error (ConfidentialAmountProofBundle * Z) :=
  current ← lift (DecryptConfidentialAvailableBalance key account);
  let publicKeys := [kp_PublicKey keypair; destination; confidentialAuditor auditor] in
  values ← generateConfidentialAmountProofValues service (ta_AvailableBalance account) current amount keypair publicKeys 0 false;
  values ← generateConfidentialAmountRangeProof service values;
  mret (av_proofs values, av_newAmount values).

Definition ConfidentialTransferWithProofs service (source mint destination authority : PublicKey) (signers : list PublicKey)
  (amount : Z) (account : ConfidentialTransferAccount) (keypair : ElGamalKeypair) (key : AEKey)
  (destinationPubkey : ElGamalPubkey) (auditor : option ElGamalPubkey) : GoM Reader error ConfidentialAmountPlan :=
  '(proofs, remaining) ← GenerateConfidentialTransferProofs service account amount keypair key destinationPubkey auditor;
  decryptable ← EncryptAEAmount key remaining;
  let instruction := ConfidentialTransfer source mint destination authority signers decryptable
    (ab_AuditorCiphertextLo proofs) (ab_AuditorCiphertextHi proofs)
    (inlineProof 1 (ab_Equality proofs)) (inlineProof 2 (ab_CiphertextValidity proofs)) (inlineProof 3 (ab_Range proofs)) in
  instructions ← lift (ConfidentialInstructions service (transferInstruction instruction) (amountLocations proofs));
  mret (mkAmountPlan instructions proofs decryptable).

(** * Minting and burning *)

Definition GenerateConfidentialMintProofs service (state : ConfidentialMintBurn) (amount : Z) (supplyKeypair : ElGamalKeypair)
  (supplyKey : AEKey) (destination : ElGamalPubkey) (auditor : option ElGamalPubkey)
  : GoM Reader error (ConfidentialAmountProofBundle * Z) :=
  current ← DecryptCurrentConfidentialSupply service supplyKey supplyKeypair state;
  let publicKeys := [destination; kp_PublicKey supplyKeypair; confidentialAuditor auditor] in
  values ← generateConfidentialAmountProofValues service (mb_ConfidentialSupply state) current amount supplyKeypair publicKeys 1 true;
  values ← generateConfidentialAmountRangeProof service values;
  mret (av_proofs values, av_newAmount values).

Definition ConfidentialMintWithProofs service (tokenAccount mint authority : PublicKey) (signers : list PublicKey) (amount : Z)
  (state : ConfidentialMintBurn) (supplyKeypair : ElGamalKeypair) (supplyKey : AEKey) (destination : ElGamalPubkey)
  (auditor : option ElGamalPubkey) : GoM Reader error ConfidentialMintPlan :=
  '(proofs, newSupply) ← GenerateConfidentialMintProofs service state amount supplyKeypair supplyKey destination auditor;
  decryptable ← EncryptAEAmount supplyKey newSupply;
  let instruction := ConfidentialMint tokenAccount mint authority signers decryptable
    (ab_AuditorCiphertextLo proofs) (ab_AuditorCiphertextHi proofs)
    (inlineProof 1 (ab_Equality proofs)) (inlineProof 2 (ab_CiphertextValidity proofs)) (inlineProof 3 (ab_Range proofs)) in
  instructions ← lift (ConfidentialInstructions service (mintBurnInstruction instruction) (amountLocations proofs));
  mret (mkMintPlan instructions proofs decryptable).

Definition GenerateConfidentialBurnProofs service (account : ConfidentialTransferAccount) (amount : Z)
  (sourceKeypair : ElGamalKeypair) (sourceKey : AEKey) (supply : ElGamalPubkey) (auditor : option ElGamalPubkey)
  : GoM Reader error (ConfidentialAmountProofBundle * Z) :=
  current ← lift (DecryptConfidentialAvailableBalance sourceKey account);
  let publicKeys := [kp_PublicKey sourceKeypair; supply; confidentialAuditor auditor] in
  values ← generateConfidentialAmountProofValues service (ta_AvailableBalance account) current amount sourceKeypair publicKeys 0 false;
  values ← generateConfidentialAmountRangeProof service values;
  mret (av_proofs values, av_newAmount values).

Definition ConfidentialBurnWithProofs service (tokenAccount mint authority : PublicKey) (signers : list PublicKey) (amount : Z)
  (account : ConfidentialTransferAccount) (sourceKeypair : ElGamalKeypair) (sourceKey : AEKey) (supply : ElGamalPubkey)
  (auditor : option ElGamalPubkey) : GoM Reader error ConfidentialAmountPlan :=
  '(proofs, remaining) ← GenerateConfidentialBurnProofs service account amount sourceKeypair sourceKey supply auditor;
  decryptable ← EncryptAEAmount sourceKey remaining;
  let instruction := ConfidentialBurn tokenAccount mint authority signers decryptable
    (ab_AuditorCiphertextLo proofs) (ab_AuditorCiphertextHi proofs)
    (inlineProof 1 (ab_Equality proofs)) (inlineProof 2 (ab_CiphertextValidity proofs)) (inlineProof 3 (ab_Range proofs)) in
  instructions ← lift (ConfidentialInstructions service (mintBurnInstruction instruction) (amountLocations proofs));
  mret (mkAmountPlan instructions proofs decryptable).

Definition GenerateRotateConfidentialSupplyKeyProofs service (state : ConfidentialMintBurn) (currentKeypair : ElGamalKeypair)
  (currentKey : AEKey) (newPubkey : ElGamalPubkey) : GoM Reader error ConfidentialRotateSupplyProofBundle :=
  current ← DecryptCurrentConfidentialSupply service currentKey currentKeypair state;
  '(newCiphertext, newOpening) ← EncryptElGamal service newPubkey current;
  proof ← GenerateCiphertextCiphertextEqualityProof service currentKeypair newPubkey (mb_ConfidentialSupply state) newCiphertext
            newOpening current;
  mret (mkRotateProofs proof newCiphertext).

Definition RotateConfidentialSupplyKeyWithProofs service (mint authority : PublicKey) (signers : list PublicKey)
  (state : ConfidentialMintBurn) (currentKeypair : ElGamalKeypair) (currentKey : AEKey) (newPubkey : ElGamalPubkey)
  : GoM Reader error ConfidentialRotateSupplyPlan :=
  proofs ← GenerateRotateConfidentialSupplyKeyProofs service state currentKeypair currentKey newPubkey;
  let location := inlineProof 1 (ro_Equality proofs) in
  let instruction := RotateConfidentialSupplyKey mint authority signers newPubkey location in
  instructions ← lift (ConfidentialInstructions service (mintBurnInstruction instruction) [location]);
  mret (mkRotatePlan instructions proofs).

(** * Transfers with a fee *)

(** The commitment to [10000 * fee - basisPoints * amount] and its opening. *)
Definition confidentialFeeDelta (transferCommitment : PedersenCommitment) (transferOpening : PedersenOpening)
  (feeCommitment : PedersenCommitment) (feeOpening : PedersenOpening) (basisPoints : Z)
  : outcome error (PedersenCommitment * PedersenOpening) :=
  scaledFeeCommitment ← ScalePedersenCommitment feeCommitment 10000;
  scaledTransferCommitment ← ScalePedersenCommitment transferCommitment basisPoints;
  deltaCommitment ← SubtractPedersenCommitments scaledFeeCommitment scaledTransferCommitment;
  scaledFeeOpening ← ScalePedersenOpening feeOpening 10000;
  scaledTransferOpening ← ScalePedersenOpening transferOpening basisPoints;
  deltaOpening ← SubtractPedersenOpenings scaledFeeOpening scaledTransferOpening;
  Ok (deltaCommitment, deltaOpening).

Definition generateConfidentialTransferFeeRangeProof service (transfer : confidentialAmountProofValues) (claimedDelta : Z)
  (claimedCommitment : PedersenCommitment) (claimedOpening : PedersenOpening)
  (feeCommitmentLo feeCommitmentHi : PedersenCommitment) (feeOpeningLo feeOpeningHi : PedersenOpening)
  (feeLo feeHi netAmount : Z) (netCommitment : PedersenCommitment) (netOpening : PedersenOpening)
  : GoM Reader error ZKProofData :=
  if decide (9999 < claimedDelta) then
    throw (errNew "generate confidential transfer fee range proof: invalid claimed delta")
  else
  let zeroOpening := zeros 32 in
  maximumCommitment ← lift (CommitPedersen service 9999 zeroOpening);
  complementCommitment ← lift (SubtractPedersenCommitments maximumCommitment claimedCommitment);
  complementOpening ← lift (SubtractPedersenOpenings zeroOpening claimedOpening);
  GenerateBatchedRangeProof service
    [av_newCommitment transfer; av_commitmentLo transfer; av_commitmentHi transfer; claimedCommitment;
     complementCommitment; feeCommitmentLo; feeCommitmentHi; netCommitment]
    [av_newAmount transfer; av_amountLo transfer; av_amountHi transfer; claimedDelta; 9999 - claimedDelta;
     feeLo; feeHi; netAmount]
    [64; 16; 32; 16; 16; 16; 32; 64]
    [av_newOpening transfer; av_openingLo transfer; av_openingHi transfer; claimedOpening; complementOpening;
     feeOpeningLo; feeOpeningHi; netOpening].

Definition GenerateConfidentialTransferWithFeeProofs service (account : ConfidentialTransferAccount) (amount : Z)
  (keypair : ElGamalKeypair) (key : AEKey) (destination withdrawWithheldAuthority : ElGamalPubkey)
  (auditor : option ElGamalPubkey) (basisPoints maximumFee : Z)
  : GoM Reader error (ConfidentialTransferWithFeeProofBundle * Z * Z) :=
  current ← lift (DecryptConfidentialAvailableBalance key account);
  let publicKeys := [kp_PublicKey keypair; destination; confidentialAuditor auditor] in
  transfer ← generateConfidentialAmountProofValues service (ta_AvailableBalance account) current amount keypair publicKeys 0 false;
  '(fee, claimedDelta) ← lift (CalculateConfidentialTransferFee amount basisPoints maximumFee);
  '(feeLo, feeHi) ← lift (SplitAmount fee);
  let feeKeys := [destination; withdrawWithheldAuthority] in
  '(feeCipherLo, feeOpeningLo) ← EncryptGroupedElGamal2 service feeKeys feeLo;
  '(feeCipherHi, feeOpeningHi) ← EncryptGroupedElGamal2 service feeKeys feeHi;
  let feeCommitmentLo := copy_into (zeros 32) (sub 0 32 feeCipherLo) in
  let feeCommitmentHi := copy_into (zeros 32) (sub 0 32 feeCipherHi) in
  '(transferCommitment, transferOpening) ← lift (CombinePedersenAmount (av_commitmentLo transfer) (av_commitmentHi transfer)
                                                    (av_openingLo transfer) (av_openingHi transfer));
  '(feeCommitment, feeOpening) ← lift (CombinePedersenAmount feeCommitmentLo feeCommitmentHi feeOpeningLo feeOpeningHi);
  netCommitment ← lift (SubtractPedersenCommitments transferCommitment feeCommitment);
  netOpening ← lift (SubtractPedersenOpenings transferOpening feeOpening);
  '(deltaCommitment, deltaOpening) ←
    lift (confidentialFeeDelta transferCommitment transferOpening feeCommitment feeOpening basisPoints);
  claimedOpening ← GeneratePedersenOpening;
  claimedCommitment ← lift (CommitPedersen service claimedDelta claimedOpening);
  feeSigma ← GeneratePercentageWithCapProof service feeCommitment feeOpening fee deltaCommitment deltaOpening claimedDelta
               claimedCommitment claimedOpening maximumFee;
  feeValidity ← GenerateBatchedGroupedCiphertext2HandlesValidityProof service feeKeys (feeCipherLo, feeCipherHi)
                  (feeLo, feeHi) (feeOpeningLo, feeOpeningHi);
  rangeProof ← generateConfidentialTransferFeeRangeProof service transfer claimedDelta claimedCommitment claimedOpening
                 feeCommitmentLo feeCommitmentHi feeOpeningLo feeOpeningHi feeLo feeHi (u64 (amount - fee)) netCommitment netOpening;
  let p := av_proofs transfer in
  mret (mkFeeProofs (ab_Equality p) (ab_CiphertextValidity p) feeSigma feeValidity rangeProof
          (ab_AuditorCiphertextLo p) (ab_AuditorCiphertextHi p), av_newAmount transfer, fee).

Definition ConfidentialTransferWithFeeWithProofs service (source mint destination authority : PublicKey) (signers : list PublicKey)
  (amount : Z) (account : ConfidentialTransferAccount) (keypair : ElGamalKeypair) (key : AEKey)
  (destinationPubkey withdrawWithheldAuthority : ElGamalPubkey) (auditor : option ElGamalPubkey) (basisPoints maximumFee : Z)
  : GoM Reader error ConfidentialTransferWithFeePlan :=
  '(proofs, remaining, fee) ← GenerateConfidentialTransferWithFeeProofs service account amount keypair key destinationPubkey
                                withdrawWithheldAuthority auditor basisPoints maximumFee;
  decryptable ← EncryptAEAmount key remaining;
  let equality := inlineProof 1 (fb_Equality proofs) in
  let validity := inlineProof 2 (fb_TransferCiphertextValidity proofs) in
  let sigma := inlineProof 3 (fb_FeeSigma proofs) in
  let feeValidity := inlineProof 4 (fb_FeeCiphertextValidity proofs) in
  let range := inlineProof 5 (fb_Range proofs) in
  let instruction := ConfidentialTransferWithFee source mint destination authority signers decryptable
    (fb_AuditorCiphertextLo proofs) (fb_AuditorCiphertextHi proofs) equality validity sigma feeValidity range in
  instructions ← lift (ConfidentialInstructions service (transferInstruction instruction)
                         [equality; validity; sigma; feeValidity; range]);
  mret (mkFeePlan instructions proofs decryptable fee).

(** * Withheld fees *)

Definition GenerateConfidentialWithheldProof service (withheld : ElGamalCiphertext) (withdrawKeypair : ElGamalKeypair)
  (destination : ElGamalPubkey) : GoM Reader error (ConfidentialWithheldProofBundle * Z) :=
  amount ← lift (DecryptConfidentialWithheldAmount service (kp_SecretKey withdrawKeypair) withheld);
  '(destinationCiphertext, destinationOpening) ← EncryptElGamal service destination amount;
  proof ← GenerateCiphertextCiphertextEqualityProof service withdrawKeypair destination withheld destinationCiphertext
            destinationOpening amount;
  mret (mkWithheldProofs proof destinationCiphertext, amount).

(** [sources] is nil for a withdrawal from the mint. *)
Definition withdrawConfidentialWithheldWithProofs service (mint destination authority : PublicKey) (signers : list PublicKey)
  (sources : option (list PublicKey)) (withheld : ElGamalCiphertext) (destinationAccount : ConfidentialTransferAccount)
  (withdrawKeypair : ElGamalKeypair) (destinationKey : AEKey) : GoM Reader error ConfidentialWithheldPlan :=
  '(proofs, amount) ← GenerateConfidentialWithheldProof service withheld withdrawKeypair (ta_ElGamalPubkey destinationAccount);
  current ← lift (DecryptConfidentialAvailableBalance destinationKey destinationAccount);
  let '(newBalance, carry) := Add64 current amount 0 in
  if decide (carry ≠ 0) then throw (errNew "withdraw confidential withheld tokens: balance overflow") else
  decryptable ← EncryptAEAmount destinationKey newBalance;
  let location := inlineProof 1 (wb_Equality proofs) in
  let instruction := match sources with
    | None => WithdrawConfidentialWithheldTokensFromMint mint destination authority signers decryptable location
    | Some sources =>
      WithdrawConfidentialWithheldTokensFromAccounts mint destination authority signers sources decryptable location
    end in
  instructions ← lift (ConfidentialInstructions service (feeInstruction instruction) [location]);
  mret (mkWithheldPlan instructions proofs decryptable).

Definition WithdrawConfidentialWithheldFromMintWithProofs service (mint destination authority : PublicKey)
  (signers : list PublicKey) (config : ConfidentialTransferFeeConfig) (destinationAccount : ConfidentialTransferAccount)
  (withdrawKeypair : ElGamalKeypair) (destinationKey : AEKey) : GoM Reader error ConfidentialWithheldPlan :=
  withdrawConfidentialWithheldWithProofs service mint destination authority signers None (fc_WithheldAmount config)
    destinationAccount withdrawKeypair destinationKey.

(** The sum of the withheld ciphertexts, from the zero ciphertext on. *)
Fixpoint sumWithheld (withheld : ElGamalCiphertext) (sources : list ConfidentialWithheldAccount)
  : outcome error ElGamalCiphertext :=
  match sources with
  | [] => Ok withheld
  | source :: sources' =>
    withheld ← AddElGamalCiphertexts withheld (fa_WithheldAmount (wc_State source));
    sumWithheld withheld sources'
  end.
Definition WithdrawConfidentialWithheldFromAccountsWithProofs service (mint destination authority : PublicKey)
  (signers : list PublicKey) (sources : list ConfidentialWithheldAccount) (destinationAccount : ConfidentialTransferAccount)
  (withdrawKeypair : ElGamalKeypair) (destinationKey : AEKey) : GoM Reader error ConfidentialWithheldPlan :=
  if decide (255 < len sources) then
    throw (errNew "withdraw confidential withheld tokens: source account count exceeds 255")
  else
  withheld ← lift (sumWithheld (zeros 64) sources);
  withdrawConfidentialWithheldWithProofs service mint destination authority signers (Some (wc_Address <$> sources)) withheld
    destinationAccount withdrawKeypair destinationKey.

(** * Workflows *)

Definition ConfigureConfidentialTransferAccountWithKeys service (tokenAccount mint authority : PublicKey)
  (signers : list PublicKey) (keypair : ElGamalKeypair) (key : AEKey) (maximumPendingBalanceCreditCounter : Z)
  : GoM Reader error (list Instruction) :=
  decryptableZero ← EncryptAEAmount key 0;
  proof ← GeneratePubkeyValidityProof service keypair;
  let location := inlineProof 1 proof in
  let instruction := ConfigureConfidentialTransferAccount tokenAccount mint authority signers decryptableZero
    maximumPendingBalanceCreditCounter location in
  lift (ConfidentialInstructions service (transferInstruction instruction) [location]).
Definition EmptyConfidentialTransferAccountWithProof service (tokenAccount authority : PublicKey) (signers : list PublicKey)
  (keypair : ElGamalKeypair) (availableBalance : ElGamalCiphertext) : GoM Reader error (list Instruction) :=
  proof ← GenerateZeroCiphertextProof keypair availableBalance;
  let location := inlineProof 1 proof in
  let instruction := EmptyConfidentialTransferAccount tokenAccount authority signers location in
  lift (ConfidentialInstructions service (transferInstruction instruction) [location]).
Definition ApplyConfidentialPendingBalanceWithKeys service (tokenAccount authority : PublicKey) (signers : list PublicKey)
  (account : ConfidentialTransferAccount) (keypair : ElGamalKeypair) (key : AEKey)
  : GoM Reader error ConfidentialTransferExtension :=
  decryptableBalance ← NewDecryptableAvailableBalanceForApplyPending service (kp_SecretKey keypair) key account;
  mret (ApplyConfidentialPendingBalance tokenAccount authority signers (ta_PendingBalanceCreditCounter account)
          decryptableBalance).
Definition CreateElGamalRegistryWithKeypair service (owner : PublicKey) (keypair : ElGamalKeypair)
  : GoM Reader error (list Instruction) :=
  proof ← GeneratePubkeyValidityProof service keypair;
  lift (CreateElGamalRegistry service owner (inlineProof 1 proof)).
Definition CreateFundedElGamalRegistryWithKeypair service (payer owner : PublicKey) (lamports : Z) (keypair : ElGamalKeypair)
  : GoM Reader error (list Instruction) :=
  '(registry, _) ← lift (ElGamalRegistryAddress service owner);
  instructions ← CreateElGamalRegistryWithKeypair service owner keypair;
  mret (systemInstruction (NewTransferInstruction lamports payer registry) :: instructions).
Definition UpdateElGamalRegistryWithKeypair service (owner : PublicKey) (keypair : ElGamalKeypair)
  : GoM Reader error (list Instruction) :=
  proof ← GeneratePubkeyValidityProof service keypair;
  lift (UpdateElGamalRegistry service owner (inlineProof 1 proof)).
End plan.
