(* ===== verification/ConfidentialSpec.v ===== *)
(** ConfidentialSpec: what the confidential operations of [ConfidentialState] and
    [ConfidentialPlan] promise: the fee of a transfer is the rate rounded up under
    its cap, and the plan of a transfer, burn or mint is about one amount: its
    proofs are accepted and agree with each other, with the ciphertexts and with
    the balance, and its instructions carry them. *)
From Stdlib Require Import ZArith Lia Field.
From stdpp Require Import base numbers strings list.
From S2P Require Import Prelude Keys ProgramIds Pda Wire Program System Sha3 Ristretto ToyGroup Mnemonic ElGamal ElGamalSpec Sigma SigmaSpec Validity ValiditySpec RangeProof RangeProofSpec ZkProof ZkProofSpec.
From S2P Require Import ConfidentialState ConfidentialIx ConfidentialIxSpec ConfidentialPlan.

Open Scope Z_scope.

(** * The fee of a transfer *)

(** The fee rate on an amount, rounded up. *)
Definition feeCeiling (amount basisPoints : Z) : Z := (amount * basisPoints + 9999) / 10000.

Lemma feeCeiling_bounds amount bp :
  0 ≤ amount → 0 ≤ bp ≤ 10000 →
  amount * bp ≤ 10000 * feeCeiling amount bp ≤ amount * bp + 9999 ∧ 0 ≤ feeCeiling amount bp ≤ amount.
Proof.
  intros Ha Hb. unfold feeCeiling. pose proof (Z.div_mod (amount * bp + 9999) 10000 ltac:(lia)) as E.
  pose proof (Z.mod_pos_bound (amount * bp + 9999) 10000 ltac:(lia)). nia.
Qed.

(** The 128-bit sum of a product and a word. *)
Lemma wide_sum a b c :
  0 ≤ a < 2 ^ 64 → 0 ≤ b ≤ 10000 → 0 ≤ c < 10000 →
  let '(hi, lo) := Mul64 a b in
  let '(lo', carry) := Add64 lo c 0 in
  u64 (hi + carry) * 2 ^ 64 + lo' = a * b + c ∧ 0 ≤ u64 (hi + carry) < 10000 ∧ 0 ≤ lo' < 2 ^ 64.
Proof.
  intros Ha Hb Hc. unfold Mul64, Add64, u64. change 18446744073709551616 with (2 ^ 64).
  set (P := a * b). assert (HP : 0 ≤ P ≤ (2 ^ 64 - 1) * 10000) by (unfold P; nia). clearbody P.
  set (W := 2 ^ 64) in *. assert (HW : W = 2 ^ 64) by done. clearbody W.
  pose proof (Z.div_mod P W ltac:(lia)) as E1. pose proof (Z.mod_pos_bound P W ltac:(lia)) as B1.
  rewrite !Z.add_0_r. pose proof (Z.div_mod (P mod W + c) W ltac:(lia)) as E2.
  pose proof (Z.mod_pos_bound (P mod W + c) W ltac:(lia)) as B2.
  set (q := P / W) in *. set (r := P mod W) in *. set (q2 := (r + c) / W) in *. set (r2 := (r + c) mod W) in *.
  clearbody q r q2 r2. assert (Hq2 : 0 ≤ q2 ≤ 1) by nia. assert (Hq : 0 ≤ q < 10000) by nia.
  assert (Hs : 0 ≤ q + q2 < 10000) by nia. rewrite Z.mod_small by lia. lia.
Qed.

(** The 128-bit difference of two products that differ by less than a word. *)
Lemma wide_difference a b :
  0 ≤ b ≤ a → a - b < 2 ^ 64 →
  let '(deltaLo, borrow) := Sub64 (u64 a) (u64 b) 0 in
  deltaLo = a - b ∧ (Sub64 (a / 2 ^ 64) (b / 2 ^ 64) borrow).1 = 0.
Proof.
  intros Hb Hd. unfold Sub64, u64. change 18446744073709551616 with (2 ^ 64).
  set (W := 2 ^ 64) in *. assert (HW : W = 2 ^ 64) by done. clearbody W.
  pose proof (Z.div_mod a W ltac:(lia)) as E1. pose proof (Z.mod_pos_bound a W ltac:(lia)) as B1.
  pose proof (Z.div_mod b W ltac:(lia)) as E2. pose proof (Z.mod_pos_bound b W ltac:(lia)) as B2.
  set (qa := a / W) in *. set (ra := a mod W) in *. set (qb := b / W) in *. set (rb := b mod W) in *. clearbody qa ra qb rb.
  cbn [fst]. case_decide as Hlt.
  - assert (Hq : qa = qb + 1) by nia. split; [|by replace (qa - qb - 1) with 0 by lia].
    replace (ra - rb - 0) with (a - b + -1 * W) by lia. rewrite Z.mod_add by lia. apply Z.mod_small. lia.
  - assert (Hq : qa = qb) by nia. split; [|by replace (qa - qb - 0) with 0 by lia].
    replace (ra - rb - 0) with (a - b) by lia. apply Z.mod_small. lia.
Qed.

(** C37. The fee of a confidential transfer. For any amount, rate and cap the
    calculation does not panic and fails only for a rate above 10000 basis points.
    The fee is the rate on the amount rounded up, or the cap if that is lower; it is
    at most the amount, and the delta is at most 9999 and makes up the rounding
    exactly whenever the fee is below the cap. The overflow of the delta that the
    code guards against cannot occur. *)
Theorem transfer_fee_spec (amount basisPoints maximumFee : Z) :
  0 ≤ amount < 2 ^ 64 → 0 ≤ basisPoints < 2 ^ 16 → 0 ≤ maximumFee < 2 ^ 64 →
  match CalculateConfidentialTransferFee amount basisPoints maximumFee with
  | Ok (fee, delta) =>
    basisPoints ≤ 10000 ∧ fee = Z.min maximumFee (feeCeiling amount basisPoints) ∧ 0 ≤ fee ≤ amount ∧ 0 ≤ delta ≤ 9999 ∧
    (fee < maximumFee → 10000 * fee = basisPoints * amount + delta) ∧ (maximumFee < feeCeiling amount basisPoints → delta = 0)
  | Err _ => 10000 < basisPoints
  | Panic => False
  end.
Proof.
  intros Ha Hb Hm. unfold CalculateConfidentialTransferFee. case_decide as Hbp; [done|].
  pose proof (wide_sum amount basisPoints 9999 Ha ltac:(lia) ltac:(lia)) as Hsum.
  destruct (Mul64 amount basisPoints) as [hi lo] eqn:EP. destruct (Add64 lo 9999 0) as [lo' carry] eqn:EA.
  destruct Hsum as (Hsum & Hhi & Hlo). unfold Div64. rewrite decide_False by lia. obind.
  change 18446744073709551616 with (2 ^ 64). rewrite Hsum. fold (feeCeiling amount basisPoints).
  pose proof (feeCeiling_bounds amount basisPoints ltac:(lia) ltac:(lia)) as (Hf & Hfa).
  set (fee := feeCeiling amount basisPoints) in *. clearbody fee. case_decide as Hmax; [repeat split; lia|].
  clear EA lo' carry Hsum Hhi Hlo. unfold Mul64 in *. injection EP as <- <-. change 18446744073709551616 with (2 ^ 64).
  pose proof (wide_difference (fee * 10000) (amount * basisPoints) ltac:(nia) ltac:(lia)) as Hd.
  destruct (Sub64 (u64 (fee * 10000)) (u64 (amount * basisPoints)) 0) as [deltaLo borrow]. destruct Hd as [-> Hz].
  destruct (Sub64 (fee * 10000 / 2 ^ 64) _ borrow) as [deltaHi ?]. cbn [fst] in Hz. subst deltaHi. rewrite decide_False by (intros H; by apply H).
  repeat split; lia.
Qed.

Lemma transfer_fee_spec_witness :
  CalculateConfidentialTransferFee 18446744073709551615 9999 18446744073709551615 = Ok (18444899399302180660, 1615) ∧
  match CalculateConfidentialTransferFee 18446744073709551615 9999 18446744073709551615 with
  | Ok (fee, delta) => delta ≤ 9999
  | _ => False
  end.
Proof.
  assert (H : CalculateConfidentialTransferFee 18446744073709551615 9999 18446744073709551615 = Ok (18444899399302180660, 1615))
    by (vm_compute; reflexivity).
  split; [exact H|]. pose proof (transfer_fee_spec 18446744073709551615 9999 18446744073709551615 ltac:(lia) ltac:(lia) ltac:(lia)) as Hs.
  rewrite H in Hs |- *. apply Hs.
Defined.


(** * Amounts that move under a proof *)

Section plan.
Context `{R : Ristretto} {L : RistrettoLaws R} {Rnd : Random} {M : Merlin} {ML : MerlinLaws M}.
Context `{G : GcmSiv} {Sh : Shake} {ShL : ShakeLaws Sh} {ed : PrivateKey.Ed25519}.

Implicit Types service : ConfidentialTransferService.

(** The commitment to an amount. *)
Definition commitmentOf (amount : Z) (r : Scalar) : bytes :=
  SetRistrettoPoint (pAdd (pMul BASEPOINT (SetUint64 amount)) (pMul openingPoint r)).

Lemma EncryptGroupedElGamal3_inv service publicKeys amount random ct opening random' :
  service_ok service → length publicKeys = 3%nat →
  EncryptGroupedElGamal3 service publicKeys amount random = (Ok (ct, opening), random') →
  ∃ keys r, publicKeys = SetRistrettoPoint <$> keys ∧ opening = ToBytes r ∧ ct = groupedOf (SetUint64 amount) r keys.
Proof.
  intros Hs Hl H. unfold EncryptGroupedElGamal3 in H. step H o E1. clear E1. step H c E2.
  apply mret_inv in H as [[= <- <-] _]. unfold EncryptGroupedElGamal3WithOpening in E2. ostep E2 g E3.
  apply encryptGroupedElGamal_inv in E3 as (keys & r & -> & -> & ->); [|done].
  exists keys, r. split_and!; [done..|]. injection E2 as <-. apply copy_into_full. rewrite length_fmap in Hl.
  rewrite groupedOf_blocks, length_concat_blocks by apply encoded_blocks. rewrite length_fmap, length_zeros.
  unfold groupPoints. cbn [length]. by rewrite length_fmap, Hl.
Qed.

Lemma GeneratePedersenOpening_inv random opening random' :
  GeneratePedersenOpening random = (Ok opening, random') → ∃ r, opening = ToBytes r.
Proof. unfold GeneratePedersenOpening. intros H. step H v E. injection H as <- _. by exists v. Qed.

(** * Contexts *)

Lemma commitment_context service keypair ciphertext commitment opening amount random data random' :
  service_ok service → length ciphertext = 64%nat →
  GenerateCiphertextCommitmentEqualityProof service keypair ciphertext commitment opening amount random = (Ok data, random') →
  ∃ secret, secret ≠ sNew ∧ kp_SecretKey keypair = ToBytes secret ∧ kp_PublicKey keypair = SetRistrettoPoint (pubkeyOf secret) ∧
    decrypts secret ciphertext (SetUint64 amount) ∧
    Context_ data = contextBytes (CiphertextCommitmentEquality (mkCiphertextCommitment (kp_PublicKey keypair) ciphertext commitment)).
Proof.
  intros Hs Hl H. unfold GenerateCiphertextCommitmentEqualityProof in H.
  step H p E1. destruct p as [secret P]. apply elGamalKeypairValues_inv in E1 as (Hn & -> & Hsk & Hpk).
  step H q E2. destruct q as [C D]. apply elGamalCiphertextPoints_inv in E2 as ->; [|done].
  destruct (elGamalDecryptionMatchesAmount secret C D amount) eqn:Em; [|done]. cbn [negb] in H.
  step H c0 E3. gcheck H. step H r' E4. step H nonces E5. destruct nonces as [[? ?] ?].
  step H B E6. step H c E7. destruct c as [challenge t1]. step H prf E8. apply mret_inv in H as [<- _].
  exists secret. split_and!; try done. exists C, D. split; [done|]. 
  by apply bool_decide_eq_true in Em.
Qed.

Lemma validity_context service publicKeys ciphertexts amounts openings random data random' :
  GenerateBatchedGroupedCiphertext3HandlesValidityProof service publicKeys ciphertexts amounts openings random = (Ok data, random') →
  Context_ data = concat publicKeys ++ ciphertexts.1 ++ ciphertexts.2.
Proof.
  intros H. unfold GenerateBatchedGroupedCiphertext3HandlesValidityProof, generateGroupedCiphertextValidityProof in H.
  step H u E1. step H v E2. destruct v as [[? ?] ?]. step H prf E3. apply mret_inv in H as [<- _].
  cbn [Context_ concat]. by rewrite app_nil_r.
Qed.

Lemma range_context service commitments amounts bitLengths openings random data random' :
  GenerateBatchedRangeProof service commitments amounts bitLengths openings random = (Ok data, random') →
  Context_ data = concat commitments ++ zeros (256 - 32 * length commitments) ++ bitLengths ++ zeros (8 - length bitLengths).
Proof.
  intros H. unfold GenerateBatchedRangeProof in H. step H par E1. destruct par as [[d size] tot].
  step H ctx E2. destruct ctx as [[context rs] lengths]. unfold batchedRangeProofContext in E2. gcheck E2.
  ostep E2 rs' E3. injection E2 as <- <- <-. step H proof E4. gcheck H. by apply mret_inv in H as [<- _].
Qed.

(** * The proofs of an amount *)

(** The amount in two halves under the three keys. *)
Definition groupedHalves (amount : Z) (rLo rHi : Scalar) (keys : list Point) : bytes * bytes :=
  (groupedOf (SetUint64 (amount mod 65536)) rLo keys, groupedOf (SetUint64 (amount / 65536)) rHi keys).

(** The commitment under a key that opens it, as the ledger takes it from the
    grouped ciphertext and adds it to a balance. *)
Definition recipientCiphertext (grouped : bytes * bytes) (index : Z) (ct : bytes) : Prop :=
  ∃ lo hi, GroupedElGamalCiphertext3Handle grouped.1 index = Ok lo ∧ GroupedElGamalCiphertext3Handle grouped.2 index = Ok hi ∧
    CombineElGamalAmountCiphertexts lo hi = Ok ct.

(** What the three proofs are about: one amount, in halves that are encrypted under
    three keys, the balance after it, and the commitments that tie them together. *)
Record amountProved service (keypair : ElGamalKeypair) (publicKeys : list ElGamalPubkey) (index : Z) (balance : ElGamalCiphertext)
  (amount newAmount : Z) (add : bool) (proofs : ConfidentialAmountProofBundle)
  (secret : Scalar) (keys : list Point) (rLo rHi rNew rPad : Scalar) (amountCt newBalance : ElGamalCiphertext) : Prop := {
  proved_keypair : secret ≠ sNew ∧ kp_SecretKey keypair = ToBytes secret ∧ kp_PublicKey keypair = SetRistrettoPoint (pubkeyOf secret);
  proved_keys : publicKeys = SetRistrettoPoint <$> keys;
  proved_amount : recipientCiphertext (groupedHalves amount rLo rHi keys) index amountCt;
  proved_balance : (if add then AddElGamalCiphertexts balance amountCt else SubtractElGamalCiphertexts balance amountCt) = Ok newBalance;
  proved_holds : decrypts secret newBalance (SetUint64 newAmount);
  proved_equality : Context_ (ab_Equality proofs) = contextBytes (CiphertextCommitmentEquality
    (mkCiphertextCommitment (kp_PublicKey keypair) newBalance (commitmentOf newAmount rNew)));
  proved_validity : ∃ first second third, publicKeys = [first; second; third] ∧
    Context_ (ab_CiphertextValidity proofs) = contextBytes (BatchedGroupedCiphertext3HandlesValidity
      (mkBatchedGrouped3 first second third (groupedHalves amount rLo rHi keys).1 (groupedHalves amount rLo rHi keys).2));
  proved_range : Context_ (ab_Range proofs) = contextBytes (BatchedRange (mkBatchedRange
    ([commitmentOf newAmount rNew; commitmentOf (amount mod 65536) rLo; commitmentOf (amount / 65536) rHi; commitmentOf 0 rPad]
     ++ replicate 4 (zeros 32))
    ([64; 16; 32; 16] ++ zeros 4)));
  proved_auditor : GroupedElGamalCiphertext3Handle (groupedHalves amount rLo rHi keys).1 2 = Ok (ab_AuditorCiphertextLo proofs) ∧
    GroupedElGamalCiphertext3Handle (groupedHalves amount rLo rHi keys).2 2 = Ok (ab_AuditorCiphertextHi proofs);
  proved_generated : Forall (generated_sigma service) [ab_Equality proofs; ab_CiphertextValidity proofs];
  proved_kind : Discriminator (ab_CiphertextValidity proofs) = 12;
  proved_in_range : ∃ commitments amounts bitLengths openings random random',
    GenerateBatchedRangeProof service commitments amounts bitLengths openings random = (Ok (ab_Range proofs), random') ∧ bytes_ok bitLengths ∧
    Forall2 (λ ao c, CommitPedersen service ao.1 ao.2 = Ok c) (zip amounts openings) commitments ∧
    Forall2 (λ a l, 0 ≤ a < 2 ^ l) amounts bitLengths;
}.

Lemma newAmount_spec current amount balance amountCt add newAmount newBalance :
  0 ≤ current < 2 ^ 64 → 0 ≤ amount < 2 ^ 64 →
  confidentialAmountAfterOperation current amount balance amountCt add = Ok (newAmount, newBalance) →
  newAmount = (if add then current + amount else current - amount) ∧ 0 ≤ newAmount < 2 ^ 64 ∧
  (if add then AddElGamalCiphertexts balance amountCt else SubtractElGamalCiphertexts balance amountCt) = Ok newBalance.
Proof.
  intros Hc Ha H. unfold confidentialAmountAfterOperation in H. destruct add.
  - unfold Add64, u64 in H. rewrite Z.add_0_r in H. change 18446744073709551616 with (2 ^ 64) in H.
    gcheck H. ostep H c E. injection H as <- <-. apply dec_stable_eq in n.
    assert (current + amount < 2 ^ 64) by (apply Z.div_small_iff in n; lia). rewrite Z.mod_small by lia. split_and!; [done|lia|lia|done].
  - gcheck H. ostep H c E. injection H as <- <-. split_and!; [done|lia|lia|done].
Qed.

Lemma combine_length c1 c2 subtract c : combineElGamalCiphertexts c1 c2 subtract = Ok c → length c = 64%nat.
Proof.
  unfold combineElGamalCiphertexts. intros H. ostep H p E1. destruct p. ostep H q E2. destruct q. destruct subtract; injection H as <-;
    rewrite elGamalCiphertext_eq; unfold ciphertextOf; by rewrite length_app, !SetRistrettoPoint_length.
Qed.

Lemma groupedOf_commitment amount r keys : copy_into (zeros 32) (sub 0 32 (groupedOf (SetUint64 amount) r keys)) = commitmentOf amount r.
Proof.
  unfold groupedOf, commitmentOf. rewrite sub_app_l by (rewrite SetRistrettoPoint_length; lia). rewrite sub_all by apply SetRistrettoPoint_length.
  apply copy_into_full. by rewrite SetRistrettoPoint_length, length_zeros.
Qed.

Lemma amount_proved service balance current amount keypair publicKeys index add values values' random random1 random2 :
  service_ok service → length balance = 64%nat → length publicKeys = 3%nat → 0 ≤ current < 2 ^ 64 → 0 ≤ amount < 2 ^ 64 →
  generateConfidentialAmountProofValues service balance current amount keypair publicKeys index add random = (Ok values, random1) →
  generateConfidentialAmountRangeProof service values random1 = (Ok values', random2) →
  amount < 2 ^ 48 ∧ av_newAmount values' = (if add then current + amount else current - amount) ∧ 0 ≤ av_newAmount values' < 2 ^ 64 ∧
  ∃ secret keys rLo rHi rNew rPad amountCt newBalance,
    amountProved service keypair publicKeys index balance amount (av_newAmount values') add (av_proofs values')
      secret keys rLo rHi rNew rPad amountCt newBalance.
Proof.
  intros Hs Hb Hk Hc Ha H H2. unfold generateConfidentialAmountProofValues in H.
  step H p E1. destruct p as [lo hi]. assert (Ha48 : amount < 2 ^ 48).
  { unfold SplitAmount in E1. gcheck E1. lia. }
  rewrite SplitAmount_spec in E1 by lia. injection E1 as <- <-.
  step H p E2. destruct p as [groupedLo openingLo]. apply EncryptGroupedElGamal3_inv in E2 as (keys & rLo & Hkeys & -> & ->); [|done|done].
  step H p E3. destruct p as [groupedHi openingHi]. apply EncryptGroupedElGamal3_inv in E3 as (keys' & rHi & Hkeys' & -> & ->); [|done|done].
  assert (keys' = keys) as -> by (apply (list_fmap_eq_inj _ SetRistrettoPoint_inj); congruence). clear Hkeys'.
  step H ctLo E4. step H ctHi E5. step H amountCt E6. step H p E7. destruct p as [newAmount newBalance].
  apply newAmount_spec in E7 as (Hnew & Hrange & Hbal); [|done|done].
  step H o E8. apply GeneratePedersenOpening_inv in E8 as [rNew ->]. step H newCommitment E9.
  rewrite CommitPedersen_of in E9 by done. injection E9 as <-. fold (commitmentOf newAmount rNew) in *.
  step H equality E10. step H validity E11. step H audLo E12. step H audHi E13. cbv zeta in H. rewrite !groupedOf_commitment in H.
  apply mret_inv in H as [<- ->]. unfold generateConfidentialAmountRangeProof in H2. cbn [av_newCommitment av_commitmentLo av_commitmentHi
    av_newAmount av_amountLo av_amountHi av_newOpening av_openingLo av_openingHi av_proofs ab_Equality ab_CiphertextValidity
    ab_AuditorCiphertextLo ab_AuditorCiphertextHi] in H2.
  step H2 o E14. apply GeneratePedersenOpening_inv in E14 as [rPad ->]. step H2 padding E15.
  rewrite CommitPedersen_of in E15 by done. injection E15 as <-. fold (commitmentOf 0 rPad) in *.
  step H2 range E16. apply mret_inv in H2 as [<- ->]. cbn [av_newAmount av_proofs]. split_and!; [done|done|lia|lia|].
  assert (Hlb : length newBalance = 64%nat) by (destruct add; by eapply combine_length).
  pose proof (commitment_context _ _ _ _ _ _ _ _ _ Hs Hlb E10) as (secret & Hn & Hsk & Hpk & Hdec & Hctx).
  exists secret, keys, rLo, rHi, rNew, rPad, amountCt, newBalance. split; cbn [ab_Equality ab_CiphertextValidity ab_Range
    ab_AuditorCiphertextLo ab_AuditorCiphertextHi groupedHalves fst snd]; [by split_and!|done| |done|done|done| | |done| | |].
  - by exists ctLo, ctHi.
  - destruct publicKeys as [|k1 [|k2 [|k3 [|? ?]]]]; try done. exists k1, k2, k3. split; [done|].
    rewrite (validity_context _ _ _ _ _ _ _ _ E11). cbn [contextBytes concat fst snd bg3_FirstPubkey bg3_SecondPubkey bg3_ThirdPubkey
      bg3_GroupedCiphertextLo bg3_GroupedCiphertextHi]. by rewrite app_nil_r, <-!app_assoc.
  - rewrite (range_context _ _ _ _ _ _ _ _ E16). cbn [contextBytes br_Commitments br_BitLengths length]. rewrite concat_app, <-app_assoc.
    reflexivity.
  - repeat constructor; [by eapply generated_commitment|by eapply generated_batched3].
  - eapply (validity_verifies _ _ _ _ _ _ _ _ _ _ Hs); [exact E11|by right|by right|done..].
  - do 6 eexists. split; [exact E16|]. split_and!.
    + repeat constructor; unfold is_byte; lia.
    + repeat constructor; cbn [fst snd]; try done; by apply CommitPedersen_of.
    + repeat constructor; try lia; dlia.
Qed.

#[local] Definition sDiv (a b : Scalar) : Scalar := sMul a (sInvert b).
#[local] Lemma plan_field : field_theory sNew sOne sAdd sMul sSub sNeg sDiv sInvert eq.
Proof. exact scalar_field. Qed.
Add Field plan_field : plan_field.

(** Every recipient's halves decrypt to the halves of the amount. *)
Lemma halves_decrypt amount rLo rHi keys i s :
  keys !! Z.to_nat i = Some (pubkeyOf s) → 0 ≤ i < 3 → s ≠ sNew →
  ∃ lo hi, GroupedElGamalCiphertext3Handle (groupedHalves amount rLo rHi keys).1 i = Ok lo ∧
    GroupedElGamalCiphertext3Handle (groupedHalves amount rLo rHi keys).2 i = Ok hi ∧
    decrypts s lo (SetUint64 (amount mod 65536)) ∧ decrypts s hi (SetUint64 (amount / 65536)).
Proof.
  intros Hk Hi Hs. do 2 eexists. split_and!; [by apply groupedElGamalHandle_of|by apply groupedElGamalHandle_of|by apply fresh_decrypts..].
Qed.

Lemma SetUint64_halves amount :
  0 ≤ amount < 2 ^ 48 → sAdd (SetUint64 (amount mod 65536)) (sMul (SetUint64 (amount / 65536)) (SetUint64 65536)) = SetUint64 amount.
Proof. intros Ha. rewrite <-SetUint64_mul, <-SetUint64_add by dlia. f_equal. dlia. Qed.

Lemma recipient_decrypts amount rLo rHi keys i s ct :
  0 ≤ amount < 2 ^ 48 → keys !! Z.to_nat i = Some (pubkeyOf s) → 0 ≤ i < 3 → s ≠ sNew →
  recipientCiphertext (groupedHalves amount rLo rHi keys) i ct → decrypts s ct (SetUint64 amount).
Proof.
  intros Ha Hk Hi Hs (lo & hi & Hlo & Hhi & Hct).
  destruct (halves_decrypt amount rLo rHi keys i s Hk Hi Hs) as (lo' & hi' & Hlo' & Hhi' & Dlo & Dhi).
  rewrite Hlo in Hlo'. rewrite Hhi in Hhi'. injection Hlo' as <-. injection Hhi' as <-.
  destruct (combineAmounts_decrypts s lo hi _ _ Dlo Dhi) as (c & Hc & Dc). rewrite Hct in Hc. injection Hc as <-.
  by rewrite SetUint64_halves in Dc.
Qed.

(** An operation on ciphertexts can be undone: what the result holds says what the
    first operand held. *)
Lemma combine_held secret c1 c2 c m1 m2 subtract :
  length c1 = 64%nat → combineElGamalCiphertexts c1 c2 subtract = Ok c → decrypts secret c2 m2 →
  decrypts secret c (if subtract then sSub m1 m2 else sAdd m1 m2) → decrypts secret c1 m1.
Proof.
  intros Hl H (p2 & d2 & -> & E2) (p & d & Hc & E). unfold combineElGamalCiphertexts in H. ostep H q E1. destruct q as [p1 d1].
  apply elGamalCiphertextPoints_inv in E1 as ->; [|done]. rewrite elGamalCiphertextPoints_of in H. obind_in H.
  exists p1, d1. split; [done|].
  assert (Hx : ∀ a b a' b', ciphertextOf a b = ciphertextOf a' b' → a = a' ∧ b = b').
  { intros a b a' b' Eq. unfold ciphertextOf in Eq. apply app_inj_1 in Eq as [?%SetRistrettoPoint_inj ?%SetRistrettoPoint_inj]; [done|].
    by rewrite !SetRistrettoPoint_length. }
  destruct subtract; rewrite elGamalCiphertext_eq in H; injection H as H; rewrite <-H in Hc; apply Hx in Hc as [<- <-].
  - replace m1 with (sAdd (sSub m1 m2) m2) by ring. rewrite pMul_sAdd, <-E, <-E2. module_eq; ring.
  - replace m1 with (sSub (sAdd m1 m2) m2) by ring. rewrite pMul_sub, <-E, <-E2. module_eq; ring.
Qed.

(** * Authenticated encryption of the new balance *)

Lemma EncryptAEAmount_decrypts {GL : GcmSivLaws G} key amount random ct random' :
  0 ≤ amount < 2 ^ 64 → EncryptAEAmount key amount random = (Ok ct, random') →
  DecryptAEAmount key ct = Ok amount ∧ length ct = 36%nat.
Proof.
  intros Ha H. unfold EncryptAEAmount in H. destruct (ReadRandom random 12) as [[n r]|]; [|done].
  assert (Hn : length (copy_into (zeros 12) n) = 12%nat) by (rewrite length_copy_into; apply length_zeros).
  set (nonce := copy_into (zeros 12) n) in *. clearbody nonce. injection H as H _. unfold EncryptAEAmountWithNonce in H.
  destruct (NewGCM key) eqn:Hg; [|done].
  pose proof (Seal_length key nonce (le_bytes 8 amount)) as Hs. rewrite len_le_bytes in Hs.
  pose proof (Open_Seal key nonce (le_bytes 8 amount) Hg ltac:(unfold len; lia)) as Ho.
  assert (Hv : readUint (E := error) 8 (le_bytes 8 amount) = Ok amount) by (rewrite <-(app_nil_r (le_bytes 8 amount)); by apply readUint_app).
  set (plain := le_bytes 8 amount) in *. clearbody plain. set (sealed := Seal key nonce plain) in *. clearbody sealed. injection H as <-.
  rewrite copy_into_full by (rewrite length_zeros; unfold len in Hs; lia).
  split; [|rewrite length_app; unfold len in Hs; lia]. unfold DecryptAEAmount. rewrite Hg.
  rewrite sub_app_l, sub_all by lia. rewrite sub_app_r, Hn by lia. rewrite (sub_all 24) by (unfold len in Hs; lia).
  by rewrite Ho.
Qed.

(** * Instructions *)

(** The instruction that verifies an inline proof. *)
Definition verifyInstruction service (proof : ZKProofData) : Instruction :=
  mkInstruction (ProofProgramID service) [] (Ok (Discriminator proof :: Context_ proof ++ Proof_ proof)).

Lemma inline_instructions service main proofs :
  ConfidentialInstructions service main (amountLocations proofs)
  = Ok (main :: (verifyInstruction service <$> [ab_Equality proofs; ab_CiphertextValidity proofs; ab_Range proofs])).
Proof. reflexivity. Qed.

(** * Plans *)

(** What a plan promises whose proofs are about [amount], moved from or to
    [balance], which holds [current], under the key [keypair] at [index]. *)
Record amountPlan service (key : AEKey) (keypair : ElGamalKeypair) (publicKeys : list ElGamalPubkey) (index : Z)
  (balance : ElGamalCiphertext) (current amount newAmount : Z) (add : bool)
  (main : Instruction) (instructions : list Instruction) (proofs : ConfidentialAmountProofBundle) (decryptable : AeCiphertext) : Prop := {
  plan_amount : amount < 2 ^ 48 ∧ 0 ≤ newAmount < 2 ^ 64 ∧ newAmount = (if add then current + amount else current - amount);
  plan_proved : ∃ secret keys rLo rHi rNew rPad amountCt newBalance,
    amountProved service keypair publicKeys index balance amount newAmount add proofs secret keys rLo rHi rNew rPad amountCt newBalance ∧
    decrypts secret balance (SetUint64 current) ∧
    ∀ i s, s ≠ sNew → 0 ≤ i < 3 → publicKeys !! Z.to_nat i = Some (SetRistrettoPoint (pubkeyOf s)) →
      ∃ lo hi, GroupedElGamalCiphertext3Handle (groupedHalves amount rLo rHi keys).1 i = Ok lo ∧
        GroupedElGamalCiphertext3Handle (groupedHalves amount rLo rHi keys).2 i = Ok hi ∧
        decrypts s lo (SetUint64 (amount mod 65536)) ∧ decrypts s hi (SetUint64 (amount / 65536));
  plan_sigma_accepted : Forall (λ p, VerifyZKProofData service p = Ok tt ↔ identityFree p) [ab_Equality proofs; ab_CiphertextValidity proofs];
  plan_range_accepted : identityFree (ab_Range proofs) → invertible (ab_Range proofs) → VerifyZKProofData service (ab_Range proofs) = Ok tt;
  plan_identity_key : zeros 32 ∈ take 2 publicKeys → VerifyZKProofData service (ab_CiphertextValidity proofs) ≠ Ok tt;
  plan_instructions : instructions = main :: (verifyInstruction service <$> [ab_Equality proofs; ab_CiphertextValidity proofs; ab_Range proofs]);
  plan_new_balance : DecryptAEAmount key decryptable = Ok newAmount;
}.

(** An identity among the first two keys is among the points that the verifier of the
    validity proof inspects. *)
Lemma identity_key_refused {service keypair publicKeys index balance amount newAmount add proofs secret keys rLo rHi rNew rPad amountCt newBalance} :
  amountProved service keypair publicKeys index balance amount newAmount add proofs secret keys rLo rHi rNew rPad amountCt newBalance →
  zeros 32 ∈ take 2 publicKeys → ¬ identityFree (ab_CiphertextValidity proofs).
Proof.
  intros HP Hz. pose proof (proved_keys _ _ _ _ _ _ _ _ _ _ _ _ _ _ _ _ _ HP) as Hkeys.
  destruct (proved_validity _ _ _ _ _ _ _ _ _ _ _ _ _ _ _ _ _ HP) as (k1 & k2 & k3 & -> & Hctx).
  unfold identityFree. rewrite (proved_kind _ _ _ _ _ _ _ _ _ _ _ _ _ _ _ _ _ HP), Hctx. intros [Hn _].
  assert (length k1 = 32%nat ∧ length k2 = 32%nat) as [H1 H2].
  { destruct keys as [|p1 [|p2 ps]]; [done|done|]. injection Hkeys as -> -> _. by rewrite !SetRistrettoPoint_length. }
  cbn [contextBytes bg3_FirstPubkey bg3_SecondPubkey] in Hn. unfold nonzero_blocks, checkedContext in Hn. rewrite decide_True in Hn by done.
  apply Forall_cons in Hn as [Hb0 Hn]. apply Forall_app in Hn as [Hn _]. apply Forall_cons in Hn as [Hb1 _]. unfold block in Hb0, Hb1.
  change (0 * 32)%nat with 0%nat in Hb0. change ((0 + 1) * 32)%nat with 32%nat in Hb0.
  change (1 * 32)%nat with 32%nat in Hb1. change ((1 + 1) * 32)%nat with 64%nat in Hb1.
  rewrite sub_app_l, (sub_all 32 k1) in Hb0 by lia. rewrite (sub_app_r _ _ k1), H1, sub_app_l in Hb1 by lia.
  change (64 - 32)%nat with 32%nat in Hb1. rewrite Nat.sub_diag, (sub_all 32 k2) in Hb1 by lia.
  cbn [take] in Hz. rewrite !elem_of_cons in Hz. destruct Hz as [E|[E|E]]; [by destruct Hb0|by destruct Hb1|by apply not_elem_of_nil in E].
Qed.

Lemma amount_plan {GL : GcmSivLaws G} service key keypair publicKeys index balance current amount add main values values' decryptable instructions
  random random1 random2 random3 :
  service_ok service → length balance = 64%nat → length publicKeys = 3%nat → 0 ≤ current < 2 ^ 64 → 0 ≤ amount < 2 ^ 64 →
  0 ≤ index < 3 → publicKeys !! Z.to_nat index = Some (kp_PublicKey keypair) →
  generateConfidentialAmountProofValues service balance current amount keypair publicKeys index add random = (Ok values, random1) →
  generateConfidentialAmountRangeProof service values random1 = (Ok values', random2) →
  EncryptAEAmount key (av_newAmount values') random2 = (Ok decryptable, random3) →
  ConfidentialInstructions service main (amountLocations (av_proofs values')) = Ok instructions →
  amountPlan service key keypair publicKeys index balance current amount (av_newAmount values') add main instructions (av_proofs values') decryptable
  ∧ length decryptable = 36%nat.
Proof.
  intros Hs Hb Hk Hc Ha Hi Hpk H1 H2 H3 H4.
  destruct (amount_proved _ _ _ _ _ _ _ _ _ _ _ _ _ Hs Hb Hk Hc Ha H1 H2) as (Ha48 & Hnew & Hrange & secret & keys & rLo & rHi & rNew & rPad & amountCt & newBalance & HP).
  destruct (EncryptAEAmount_decrypts _ _ _ _ _ Hrange H3) as [Hdec Hl]. split; [|done].
  assert (Hkey : ∀ i s, publicKeys !! i = Some (SetRistrettoPoint (pubkeyOf s)) → keys !! i = Some (pubkeyOf s)).
  { intros i s Hx. rewrite (proved_keys _ _ _ _ _ _ _ _ _ _ _ _ _ _ _ _ _ HP), list_lookup_fmap in Hx.
    destruct (keys !! i) as [k|]; [|done]. injection Hx as Hx. by apply SetRistrettoPoint_inj in Hx as ->. }
  destruct (proved_keypair _ _ _ _ _ _ _ _ _ _ _ _ _ _ _ _ _ HP) as (Hn & _ & Hkp).
  pose proof (proved_generated _ _ _ _ _ _ _ _ _ _ _ _ _ _ _ _ _ HP) as Hgen.
  split; [done| | | | | |done].
  - exists secret, keys, rLo, rHi, rNew, rPad, amountCt, newBalance. split_and!; [done| |].
    + assert (Ham : decrypts secret amountCt (SetUint64 amount)).
      { eapply recipient_decrypts; [..|by apply HP]; [lia|by rewrite Hkp in Hpk; apply Hkey|done|done]. }
      pose proof (proved_balance _ _ _ _ _ _ _ _ _ _ _ _ _ _ _ _ _ HP) as Hbal.
      pose proof (proved_holds _ _ _ _ _ _ _ _ _ _ _ _ _ _ _ _ _ HP) as Hh. rewrite Hnew in Hh, Hrange.
      destruct add; [apply (combine_held secret balance amountCt newBalance _ (SetUint64 amount) false)
                    |apply (combine_held secret balance amountCt newBalance _ (SetUint64 amount) true)]; try done; cbn beta iota.
      * by rewrite <-SetUint64_add by lia.
      * by rewrite <-SetUint64_sub by lia.
    + intros i s Hs0 Hi3 Hps. apply halves_decrypt; [by apply Hkey|done|done].
  - eapply Forall_impl; [exact Hgen|]. intros p Hp. by apply sigma_verifies.
  - destruct (proved_in_range _ _ _ _ _ _ _ _ _ _ _ _ _ _ _ _ _ HP) as (cs & amounts & ls & os & r1 & r2 & Hg & Hok & Hcs & Ham).
    intros Hid Hinv. by eapply range_verifies.
  - intros Hz Hv. rewrite !Forall_cons in Hgen. apply sigma_verifies in Hv; [|done|apply Hgen]. by apply (identity_key_refused HP Hz).
  - rewrite inline_instructions in H4. by injection H4.
Qed.

(** The main instruction, with the payload [d] under [sub] of an extension. *)
Definition carries (extension sub : Z) {A} (decode : Z → bytes → outcome error A) (d : A) (main : Instruction) : Prop :=
  ∃ raw, Keys.Data main = Ok (extension :: sub :: raw) ∧ decode sub raw = Ok d.

(** A plan whose main instruction carries the new balance and the auditor's
    ciphertexts, and finds its proofs in the three instructions that follow. *)
Definition planned service (key : AEKey) keypair publicKeys index balance current amount (add : bool)
  (instructions : list Instruction) proofs (decryptable : AeCiphertext) (carried : AeCiphertext → ElGamalCiphertext → ElGamalCiphertext → Instruction → Prop) : Prop :=
  ∃ main, amountPlan service key keypair publicKeys index balance current amount (if add then current + amount else current - amount) add
            main instructions proofs decryptable ∧
    (bytes_ok decryptable → carried decryptable (ab_AuditorCiphertextLo proofs) (ab_AuditorCiphertextHi proofs) main).

Lemma amountPayload_ok balance lo hi :
  array_ok 36 balance → array_ok 64 lo → array_ok 64 hi → payloadOk [PArray 36 balance; PArray 64 lo; PArray 64 hi; PInt8 1; PInt8 2; PInt8 3].
Proof. intros ???. by repeat (apply Forall_cons; split). Qed.

Lemma auditor_ok {service keypair publicKeys index balance amount newAmount add proofs secret keys rLo rHi rNew rPad amountCt newBalance} :
  length publicKeys = 3%nat →
  amountProved service keypair publicKeys index balance amount newAmount add proofs secret keys rLo rHi rNew rPad amountCt newBalance →
  array_ok 64 (ab_AuditorCiphertextLo proofs) ∧ array_ok 64 (ab_AuditorCiphertextHi proofs).
Proof.
  intros Hl HP. destruct (proved_auditor _ _ _ _ _ _ _ _ _ _ _ _ _ _ _ _ _ HP) as [H1 H2].
  rewrite (proved_keys _ _ _ _ _ _ _ _ _ _ _ _ _ _ _ _ _ HP), length_fmap in Hl.
  destruct (lookup_lt_is_Some_2 keys 2) as [k Hk]; [lia|].
  assert (Hx : ∀ a r ct, GroupedElGamalCiphertext3Handle (groupedOf a r keys) 2 = Ok ct → array_ok 64 ct).
  { intros a r ct H. unfold GroupedElGamalCiphertext3Handle in H. rewrite (groupedElGamalHandle_of a r keys 3 2 k) in H by (exact Hk || lia).
    injection H as <-. unfold ciphertextOf. split; [unfold len; by rewrite length_app, !SetRistrettoPoint_length|].
    apply Forall_app_2; apply SetRistrettoPoint_ok. }
  split; [exact (Hx _ _ _ H1)|exact (Hx _ _ _ H2)].
Qed.

Lemma planned_intro {GL : GcmSivLaws G} service key keypair publicKeys index balance current amount add main
  (carried : AeCiphertext → ElGamalCiphertext → ElGamalCiphertext → Instruction → Prop) values values' decryptable instructions
  random random1 random2 random3 :
  service_ok service → length balance = 64%nat → length publicKeys = 3%nat → 0 ≤ current < 2 ^ 64 → 0 ≤ amount < 2 ^ 64 →
  0 ≤ index < 3 → publicKeys !! Z.to_nat index = Some (kp_PublicKey keypair) →
  generateConfidentialAmountProofValues service balance current amount keypair publicKeys index add random = (Ok values, random1) →
  generateConfidentialAmountRangeProof service values random1 = (Ok values', random2) →
  EncryptAEAmount key (av_newAmount values') random2 = (Ok decryptable, random3) →
  ConfidentialInstructions service main (amountLocations (av_proofs values')) = Ok instructions →
  (let lo := ab_AuditorCiphertextLo (av_proofs values') in let hi := ab_AuditorCiphertextHi (av_proofs values') in
   payloadOk [PArray 36 decryptable; PArray 64 lo; PArray 64 hi; PInt8 1; PInt8 2; PInt8 3] → carried decryptable lo hi main) →
  planned service key keypair publicKeys index balance current amount add instructions (av_proofs values') decryptable carried.
Proof.
  intros Hs Hb Hk Hc Ha Hi Hpk H1 H2 H3 H4 H5.
  destruct (amount_plan _ _ _ _ _ _ _ _ _ _ _ _ _ _ _ _ _ _ Hs Hb Hk Hc Ha Hi Hpk H1 H2 H3 H4) as [Hplan Hl].
  assert (Hnew : av_newAmount values' = if add then current + amount else current - amount) by apply Hplan. rewrite Hnew in Hplan.
  exists main. split; [exact Hplan|]. intros Hok. apply H5.
  destruct (plan_proved _ _ _ _ _ _ _ _ _ _ _ _ _ _ Hplan) as (secret & keys & rLo & rHi & rNew & rPad & amountCt & newBalance & HP & _).
  destruct (auditor_ok Hk HP) as [Hlo Hhi]. apply amountPayload_ok; [|done..]. split; [|done]. unfold len. by rewrite Hl.
Qed.

Lemma transfer_carried inst d : transfer_built inst d → payloadOk (transferPayload d).2 →
  carries ConfidentialTransferExtensionInstruction (transferPayload d).1 DecodeConfidentialTransferInstruction d (transferInstruction inst).
Proof.
  intros Hb Hd. destruct (transfer_built_payload _ _ Hb Hd) as [E1 E2]. exists (te_RawData inst). rewrite <-E1. split; [done|].
  rewrite E1, E2. by apply payload_decodes.
Qed.
Lemma mint_burn_carried inst d : mint_burn_built inst d → payloadOk (mintBurnPayload d).2 →
  carries ConfidentialMintBurnExtensionInstruction (mintBurnPayload d).1 DecodeConfidentialMintBurnInstruction d (mintBurnInstruction inst).
Proof.
  intros Hb Hd. destruct (mint_burn_built_payload _ _ Hb Hd) as [E1 E2]. exists (me_RawData inst). rewrite <-E1. split; [done|].
  rewrite E1, E2. by apply payload_decodes.
Qed.

(** C3. Confidential transfers, burns and mints are planned soundly. A plan that is
    made from keys, an account state and an amount: the funds suffice (the supply
    does not overflow), the amount fits 48 bits and the new decryptable balance
    decrypts to the new amount; the encrypted balance held what the decryptable one
    says, and the balance that the ledger will compute from it and the grouped
    ciphertexts holds the new amount; the three proofs are about that balance, those
    ciphertexts and the same commitments; the equality and the validity proof are
    accepted if and only if none of the points their verifiers inspect is the
    identity, and these points include the caller's keys: when one of the first two
    keys is the identity, the validity proof of the plan is refused; the range proof is accepted if none of its points is the
    identity and no challenge to be inverted is zero; the two halves decrypt
    to the amount for each recipient, the auditor's being the ciphertexts of the
    instruction; and the instruction names the three proof instructions that follow
    it, and decodes to these values. *)
Theorem confidential_amount_plans {GL : GcmSivLaws G} service (account : ConfidentialTransferAccount) (state : ConfidentialMintBurn)
  (amount : Z) (keypair : ElGamalKeypair) (key : AEKey) (other : ElGamalPubkey) (auditor : option ElGamalPubkey)
  (source mint destination authority : PublicKey) (signers : list PublicKey) random random' :
  service_ok service → length (ta_AvailableBalance account) = 64%nat → length (mb_ConfidentialSupply state) = 64%nat → 0 ≤ amount < 2 ^ 64 →
  let spend := [kp_PublicKey keypair; other; confidentialAuditor auditor] in
  (∀ current plan, DecryptConfidentialAvailableBalance key account = Ok current → 0 ≤ current < 2 ^ 64 →
     ConfidentialTransferWithProofs service source mint destination authority signers amount account keypair key other auditor random
       = (Ok plan, random') →
     planned service key keypair spend 0 (ta_AvailableBalance account) current amount false
       (al_Instructions plan) (al_Proofs plan) (al_NewDecryptableAvailableBalance plan)
       (λ balance lo hi, carries ConfidentialTransferExtensionInstruction 7 DecodeConfidentialTransferInstruction
                           (Transfer (mkTransferData balance lo hi 1 2 3)))) ∧
  (∀ current plan, DecryptConfidentialAvailableBalance key account = Ok current → 0 ≤ current < 2 ^ 64 →
     ConfidentialBurnWithProofs service source mint authority signers amount account keypair key other auditor random = (Ok plan, random') →
     planned service key keypair spend 0 (ta_AvailableBalance account) current amount false
       (al_Instructions plan) (al_Proofs plan) (al_NewDecryptableAvailableBalance plan)
       (λ balance lo hi, carries ConfidentialMintBurnExtensionInstruction 4 DecodeConfidentialMintBurnInstruction
                           (Burn (mkBurnData balance lo hi 1 2 3)))) ∧
  (∀ plan, ConfidentialMintWithProofs service source mint authority signers amount state keypair key other auditor random = (Ok plan, random') →
     ∃ current random0, DecryptCurrentConfidentialSupply service key keypair state random = (Ok current, random0) ∧
       (0 ≤ current < 2 ^ 64 →
        planned service key keypair [other; kp_PublicKey keypair; confidentialAuditor auditor] 1 (mb_ConfidentialSupply state) current amount true
          (ml_Instructions plan) (ml_Proofs plan) (ml_NewDecryptableSupply plan)
          (λ supply lo hi, carries ConfidentialMintBurnExtensionInstruction 3 DecodeConfidentialMintBurnInstruction
                             (Mint (mkMintData supply lo hi 1 2 3))))).
Proof.
  intros Hs Hb Hm Ha spend. split_and!.
  - intros current plan Hcur Hc H. unfold ConfidentialTransferWithProofs, GenerateConfidentialTransferProofs in H.
    step H p E1. destruct p as [proofs remaining]. step E1 c E2. rewrite Hcur in E2. injection E2 as <-.
    step E1 values E3. step E1 values' E4. apply mret_inv in E1 as [[= <- <-] ->].
    step H decryptable E5. step H instructions E6. apply mret_inv in H as [<- _].
    eapply planned_intro; [..|exact E3|exact E4|exact E5|exact E6|]; try done.
    intros lo hi Hok. refine (transfer_carried _ (Transfer (mkTransferData decryptable lo hi 1 2 3)) _ Hok). apply built_transfer.
  - intros current plan Hcur Hc H. unfold ConfidentialBurnWithProofs, GenerateConfidentialBurnProofs in H.
    step H p E1. destruct p as [proofs remaining]. step E1 c E2. rewrite Hcur in E2. injection E2 as <-.
    step E1 values E3. step E1 values' E4. apply mret_inv in E1 as [[= <- <-] ->].
    step H decryptable E5. step H instructions E6. apply mret_inv in H as [<- _].
    eapply planned_intro; [..|exact E3|exact E4|exact E5|exact E6|]; try done.
    intros lo hi Hok. refine (mint_burn_carried _ (Burn (mkBurnData decryptable lo hi 1 2 3)) _ Hok). apply built_burn.
  - intros plan H. unfold ConfidentialMintWithProofs, GenerateConfidentialMintProofs in H.
    step H p E1. destruct p as [proofs remaining]. step E1 current E2. do 2 eexists. split; [exact E2|]. intros Hc.
    step E1 values E3. step E1 values' E4. apply mret_inv in E1 as [[= <- <-] ->].
    step H decryptable E5. step H instructions E6. apply mret_inv in H as [<- _].
    eapply planned_intro; [..|exact E3|exact E4|exact E5|exact E6|]; try done.
    intros lo hi Hok. refine (mint_burn_carried _ (Mint (mkMintData decryptable lo hi 1 2 3)) _ Hok). apply built_mint.
Qed.
End plan.

(** * Witnesses *)

(** An account of the toy keypair that holds 100000, encrypted both ways. *)
Definition toyBalance : bytes :=
  Eval vm_compute in ciphertextOf (pAdd (pMul BASEPOINT (SetUint64 100000)) (pMul openingPoint (toyScalar 3))) (pMul (pubkeyOf (toyScalar 5)) (toyScalar 3)).
Definition toyDecryptable : bytes :=
  Eval vm_compute in match EncryptAEAmountWithNonce (zeros 16) 100000 (zeros 12) with Ok c => c | _ => [] end.
Definition toyAccount : ConfidentialTransferAccount :=
  mkTransferAccount true (kp_PublicKey toyKeypair) (zeros 64) (zeros 64) toyBalance toyDecryptable true true 0 65536 0 0.
Definition toySupply : ConfidentialMintBurn := mkMintBurn toyBalance toyDecryptable (kp_PublicKey toyKeypair) (zeros 64).

(** A transfer of 70000 out of it. *)
Abbreviation toyTransfer := (
  ConfidentialTransferWithProofs zeroService (zeros 32) (zeros 32) (zeros 32) (zeros 32) [] 70000 toyAccount toyKeypair (zeros 16)
    (nth 1 toyKeys []) (Some (nth 2 toyKeys []))) (only parsing).
Definition toyPlan : ConfidentialAmountPlan * @Reader toy toyRandom :=
  Eval vm_compute in
  ran (toyTransfer toyReader) (mkAmountPlan [] (mkAmountProofs (mkProofData 0 [] []) (mkProofData 0 [] []) (mkProofData 0 [] []) [] []) []).

Lemma confidential_amount_plans_witness :
  toyTransfer toyReader = (Ok toyPlan.1, toyPlan.2) ∧ DecryptConfidentialAvailableBalance (zeros 16) toyAccount = Ok 100000 ∧
  DecryptAEAmount (zeros 16) (al_NewDecryptableAvailableBalance toyPlan.1) = Ok 30000.
Proof.
  assert (H : toyTransfer toyReader = (Ok toyPlan.1, toyPlan.2)) by (vm_compute; reflexivity).
  assert (Hc : DecryptConfidentialAvailableBalance (zeros 16) toyAccount = Ok 100000) by (vm_compute; reflexivity).
  split; [exact H|split; [exact Hc|]].
  destruct (confidential_amount_plans zeroService toyAccount toySupply 70000 toyKeypair (zeros 16) (nth 1 toyKeys []) (Some (nth 2 toyKeys []))
    (zeros 32) (zeros 32) (zeros 32) (zeros 32) [] toyReader toyPlan.2 I eq_refl eq_refl ltac:(lia)) as [Ht _].
  destruct (Ht 100000 toyPlan.1 Hc ltac:(lia) H) as (main & Hp & _). apply plan_new_balance in Hp. rewrite Hp. reflexivity.
Defined.
