(* ===== verification/Token2022.v ===== *)
(** Token2022: the Token-2022 program (programs/token-2022: program.go, types.go,
    token.go, extensions.go, base_extensions.go, decode.go, accounts.go): the
    base instructions shared with the token program, the extension instructions
    with their constructors and encoders, [DecodeInstruction], and the states
    with their type-length-value extensions. *)
From Stdlib Require Import ZArith Lia.
From stdpp Require Import base numbers strings list.
From S2P Require Import Prelude Shortvec Keys ProgramIds Wire Program Token Ristretto ElGamal ZkProof.
From S2P Require Import ConfidentialIx.

Open Scope Z_scope.
Open Scope wire_scope.

Definition ProgramID : PublicKey := Token2022ProgramID.

(** * Base instructions *)

(** [useProgram]: the token program's instruction, for this program. *)
Definition useProgram (inst : TokenInstruction) : TokenInstruction := SetProgramID ProgramID inst.

Definition NewInitializeMintInstruction (decimals : Z) (mintAuthority freezeAuthority mint rent : PublicKey) :=
  useProgram (Token.NewInitializeMintInstruction decimals mintAuthority freezeAuthority mint rent).
Definition NewInitializeAccountInstruction (account mint owner rent : PublicKey) :=
  useProgram (Token.NewInitializeAccountInstruction account mint owner rent).
Definition NewInitializeMultisigInstruction (m : Z) (account rent : PublicKey) (signers : list PublicKey) :=
  useProgram (Token.NewInitializeMultisigInstruction m account rent signers).
Definition NewTransferInstruction (amount : Z) (source destination owner : PublicKey) (signers : list PublicKey) :=
  useProgram (Token.NewTransferInstruction amount source destination owner signers).
Definition NewApproveInstruction (amount : Z) (source delegate owner : PublicKey) (signers : list PublicKey) :=
  useProgram (Token.NewApproveInstruction amount source delegate owner signers).
Definition NewRevokeInstruction (source owner : PublicKey) (signers : list PublicKey) :=
  useProgram (Token.NewRevokeInstruction source owner signers).
Definition NewSetAuthorityInstruction (authorityType : Z) (newAuthority subject authority : PublicKey)
    (signers : list PublicKey) :=
  useProgram (Token.NewSetAuthorityInstruction authorityType newAuthority subject authority signers).
Definition NewMintToInstruction (amount : Z) (mint destination authority : PublicKey) (signers : list PublicKey) :=
  useProgram (Token.NewMintToInstruction amount mint destination authority signers).
Definition NewBurnInstruction (amount : Z) (source mint owner : PublicKey) (signers : list PublicKey) :=
  useProgram (Token.NewBurnInstruction amount source mint owner signers).
Definition NewCloseAccountInstruction (account destination owner : PublicKey) (signers : list PublicKey) :=
  useProgram (Token.NewCloseAccountInstruction account destination owner signers).
Definition NewFreezeAccountInstruction (account mint authority : PublicKey) (signers : list PublicKey) :=
  useProgram (Token.NewFreezeAccountInstruction account mint authority signers).
Definition NewThawAccountInstruction (account mint authority : PublicKey) (signers : list PublicKey) :=
  useProgram (Token.NewThawAccountInstruction account mint authority signers).
Definition NewTransferCheckedInstruction (amount decimals : Z) (source mint destination owner : PublicKey)
    (signers : list PublicKey) :=
  useProgram (Token.NewTransferCheckedInstruction amount decimals source mint destination owner signers).
Definition NewApproveCheckedInstruction (amount decimals : Z) (source mint delegate owner : PublicKey)
    (signers : list PublicKey) :=
  useProgram (Token.NewApproveCheckedInstruction amount decimals source mint delegate owner signers).
Definition NewMintToCheckedInstruction (amount decimals : Z) (mint destination authority : PublicKey)
    (signers : list PublicKey) :=
  useProgram (Token.NewMintToCheckedInstruction amount decimals mint destination authority signers).
Definition NewBurnCheckedInstruction (amount decimals : Z) (source mint owner : PublicKey) (signers : list PublicKey) :=
  useProgram (Token.NewBurnCheckedInstruction amount decimals source mint owner signers).
Definition NewInitializeAccount2Instruction (owner account mint rent : PublicKey) :=
  useProgram (Token.NewInitializeAccount2Instruction owner account mint rent).
Definition NewSyncNativeInstruction (account : PublicKey) := useProgram (Token.NewSyncNativeInstruction account).
Definition NewInitializeAccount3Instruction (owner account mint : PublicKey) :=
  useProgram (Token.NewInitializeAccount3Instruction owner account mint).
Definition NewInitializeMultisig2Instruction (m : Z) (account : PublicKey) (signers : list PublicKey) :=
  useProgram (Token.NewInitializeMultisig2Instruction m account signers).
Definition NewInitializeMint2Instruction (decimals : Z) (mintAuthority freezeAuthority mint : PublicKey) :=
  useProgram (Token.NewInitializeMint2Instruction decimals mintAuthority freezeAuthority mint).

(** * Extension instructions *)

(** Discriminators above those of the token program. *)
Definition GetAccountDataSizeInstruction : Z := 21.
Definition InitializeImmutableOwnerInstruction : Z := 22.
Definition AmountToUIAmountInstruction : Z := 23.
Definition UIAmountToAmountInstruction : Z := 24.
Definition InitializeMintCloseAuthorityInstruction : Z := 25.
Definition TransferFeeExtensionInstruction : Z := 26.
Definition MetadataPointerExtensionInstruction : Z := 39.

(** The structs without the embedded [extensionInstruction]. The confidential
    ones keep the raw payload beside the decoded one. *)
Inductive extension :=
  | GetAccountDataSize (ExtensionTypes : list Z)
  | InitializeImmutableOwner
  | AmountToUIAmount (Amount : Z)
  | UIAmountToAmount (UIAmount : bytes)
  | InitializeMintCloseAuthority (CloseAuthority : option PublicKey)
  | InitializeTransferFeeConfig (TransferFeeConfigAuthority WithdrawWithheldAuthority : option PublicKey)
      (TransferFeeBasisPoints MaximumFee : Z)
  | TransferCheckedWithFee (Amount Decimals Fee : Z)
  | WithdrawWithheldTokensFromMint
  | WithdrawWithheldTokensFromAccounts (NumTokenAccounts : Z)
  | HarvestWithheldTokensToMint
  | SetTransferFee (TransferFeeBasisPoints MaximumFee : Z)
  | ConfidentialTransfer (SubInstruction : Z) (RawData : bytes) (Decoded : option ConfidentialTransferInstructionData)
  | ConfidentialTransferFee (SubInstruction : Z) (RawData : bytes) (Decoded : option ConfidentialTransferFeeInstructionData)
  | ConfidentialMintBurn (SubInstruction : Z) (RawData : bytes) (Decoded : option ConfidentialMintBurnInstructionData)
  | InitializeMetadataPointer (SubInstruction : Z) (Authority : option PublicKey) (MetadataAddress : PublicKey)
  | InitializeMetadata (Name Symbol URI : bytes).

(** [extensionInstruction] carries the accounts; its program is this one. *)
Record ExtensionInstruction := mkExtension { x_accounts : AccountMetaSlice; x_body : extension }.

Inductive DecodedInstruction :=
  | Base (i : TokenInstruction)
  | Extended (i : ExtensionInstruction).

Inductive t22_err :=
  | errToken (e : token_err)
  | errExtension (e : error)
  | errT22Type (s : sentinel)
  | errT22Encode (r : recorded)
  | errT22Decode (r : recorded)
  | errT22Metadata (r : recorded)
  | errTransferFeeUnknown (sub : Z)
  | errMetadataPointerUnknown (sub : Z)
  | errT22Unknown (typ : Z)
  | errExtensionType (r : recorded)
  | errExtensionData (typ : Z) (r : recorded).

(** ** Constructors *)

Definition tokenAuthorityAccounts (authority : PublicKey) (signers : list PublicKey) : AccountMetaSlice :=
  foldl (λ accounts signer, accounts ++ [NewAccountMeta signer false true])
    [NewAccountMeta authority false (bool_decide (len signers = 0))] signers.
Definition appendAccounts (metas : AccountMetaSlice) (accounts : list PublicKey) : AccountMetaSlice :=
  foldl (λ metas account, metas ++ [NewAccountMeta account true false]) metas accounts.
(** [address := PublicKey{}; if p != nil { address = *p }]. *)
Definition keyOrZero (key : option PublicKey) : PublicKey := match key with Some key => key | None => zeroKey end.

Definition NewGetAccountDataSizeInstruction (extensionTypes : list Z) (mint : PublicKey) :=
  mkExtension [NewAccountMeta mint false false] (GetAccountDataSize extensionTypes).
Definition NewInitializeImmutableOwnerInstruction (account : PublicKey) :=
  mkExtension [NewAccountMeta account true false] InitializeImmutableOwner.
Definition NewAmountToUiAmountInstruction (amount : Z) (mint : PublicKey) :=
  mkExtension [NewAccountMeta mint false false] (AmountToUIAmount amount).
Definition NewUiAmountToAmountInstruction (uiAmount : bytes) (mint : PublicKey) :=
  mkExtension [NewAccountMeta mint false false] (UIAmountToAmount uiAmount).
Definition NewInitializeMintCloseAuthorityInstruction (closeAuthority mint : PublicKey) :=
  mkExtension [NewAccountMeta mint true false] (InitializeMintCloseAuthority (optionalKey closeAuthority)).

Definition NewInitializeTransferFeeConfig (mint : PublicKey) (configAuthority withdrawAuthority : option PublicKey)
    (basisPoints maximumFee : Z) :=
  mkExtension [NewAccountMeta mint true false]
    (InitializeTransferFeeConfig configAuthority withdrawAuthority basisPoints maximumFee).
Definition NewInitializeTransferFeeConfigInstruction (configAuthority withdrawAuthority : option PublicKey)
    (basisPoints maximumFee : Z) (mint : PublicKey) :=
  NewInitializeTransferFeeConfig mint configAuthority withdrawAuthority basisPoints maximumFee.
Definition NewTransferCheckedWithFeeInstruction (amount decimals fee : Z) (source mint destination authority : PublicKey)
    (signers : list PublicKey) :=
  mkExtension ([NewAccountMeta source true false; NewAccountMeta mint false false; NewAccountMeta destination true false]
               ++ tokenAuthorityAccounts authority signers) (TransferCheckedWithFee amount decimals fee).
Definition NewWithdrawWithheldTokensFromMint (mint authority destination : PublicKey) :=
  mkExtension [NewAccountMeta mint true false; NewAccountMeta destination true false; NewAccountMeta authority false true]
    WithdrawWithheldTokensFromMint.
Definition NewWithdrawWithheldTokensFromMintInstruction (mint destination authority : PublicKey)
    (signers : list PublicKey) :=
  let inst := NewWithdrawWithheldTokensFromMint mint authority destination in
  mkExtension (take 2 (x_accounts inst) ++ tokenAuthorityAccounts authority signers) (x_body inst).
Definition NewWithdrawWithheldTokensFromAccountsInstruction (mint destination authority : PublicKey)
    (signers sourceAccounts : list PublicKey) :=
  mkExtension (appendAccounts ([NewAccountMeta mint false false; NewAccountMeta destination true false]
                               ++ tokenAuthorityAccounts authority signers) sourceAccounts)
    (WithdrawWithheldTokensFromAccounts (u8 (len sourceAccounts))).
Definition NewWithdrawWithheldTokensFromAccounts (mint authority destination : PublicKey) (accounts : list PublicKey) :=
  mkExtension (appendAccounts [NewAccountMeta mint true false; NewAccountMeta destination true false;
                               NewAccountMeta authority false true] accounts)
    (WithdrawWithheldTokensFromAccounts (u8 (len accounts))).
Definition NewHarvestWithheldTokensToMint (mint : PublicKey) (accounts : list PublicKey) :=
  mkExtension (appendAccounts [NewAccountMeta mint true false] accounts) HarvestWithheldTokensToMint.
Definition NewHarvestWithheldTokensToMintInstruction (mint : PublicKey) (sourceAccounts : list PublicKey) :=
  NewHarvestWithheldTokensToMint mint sourceAccounts.
Definition NewSetTransferFeeInstruction (basisPoints maximumFee : Z) (mint authority : PublicKey)
    (signers : list PublicKey) :=
  mkExtension ([NewAccountMeta mint true false] ++ tokenAuthorityAccounts authority signers)
    (SetTransferFee basisPoints maximumFee).
Definition NewInitializeMetadataPointer (mint metadataAddress : PublicKey) (authority : option PublicKey) :=
  mkExtension [NewAccountMeta mint true false] (InitializeMetadataPointer 0 authority metadataAddress).
Definition NewInitializeMetadataPointerInstruction (authority metadataAddress : option PublicKey) (mint : PublicKey) :=
  NewInitializeMetadataPointer mint (keyOrZero metadataAddress) authority.
Definition NewUpdateMetadataPointerInstruction (metadataAddress : option PublicKey) (mint authority : PublicKey)
    (signers : list PublicKey) :=
  mkExtension ([NewAccountMeta mint true false] ++ tokenAuthorityAccounts authority signers)
    (InitializeMetadataPointer 1 None (keyOrZero metadataAddress)).
Definition NewInitializeMetadata (mint metadata mintAuthority : PublicKey) (updateAuthority : option PublicKey)
    (name symbol uri : bytes) :=
  mkExtension [NewAccountMeta metadata true false; NewAccountMeta (keyOrZero updateAuthority) false false;
               NewAccountMeta mint false false; NewAccountMeta mintAuthority false true]
    (InitializeMetadata name symbol uri).

(** ** The [Data] methods *)

Definition encodedExt (e : Encoder) : outcome t22_err bytes := finish errT22Encode e.

Definition metadataDiscriminator : bytes := [210; 225; 30; 162; 88; 184; 77; 141].

(** The option tag, then the key or 32 zeros. *)
Definition writePaddedKey (key : option PublicKey) (e : Encoder) : Encoder :=
  WritePublicKey (keyOrZero key) (WriteOption (bool_decide (is_Some key)) e).

Definition Data_GetAccountDataSize (ExtensionTypes : list Z) : outcome t22_err bytes :=
  encodedExt (foldl (λ enc typ, WriteUint16 typ enc) (NewEncoder [u8 GetAccountDataSizeInstruction]) ExtensionTypes).
Definition Data_AmountToUIAmount (Amount : Z) : outcome t22_err bytes :=
  encodedExt (NewEncoder [] ▷ WriteUint8 (u8 AmountToUIAmountInstruction) ▷ WriteUint64 Amount).
Definition Data_UIAmountToAmount (UIAmount : bytes) : outcome t22_err bytes :=
  Ok ([u8 UIAmountToAmountInstruction] ++ UIAmount).
Definition Data_InitializeMintCloseAuthority (CloseAuthority : option PublicKey) : outcome t22_err bytes :=
  encodedExt (NewEncoder [] ▷ WriteUint8 (u8 InitializeMintCloseAuthorityInstruction) ▷ writeOptionalKey CloseAuthority).
Definition Data_InitializeTransferFeeConfig (config withdraw : option PublicKey) (basisPoints maximumFee : Z)
    : outcome t22_err bytes :=
  encodedExt (NewEncoder [] ▷ WriteUint8 (u8 TransferFeeExtensionInstruction) ▷ WriteUint8 0 ▷ writePaddedKey config
              ▷ writePaddedKey withdraw ▷ WriteUint16 basisPoints ▷ WriteUint64 maximumFee).
Definition Data_TransferCheckedWithFee (Amount Decimals Fee : Z) : outcome t22_err bytes :=
  encodedExt (NewEncoder [] ▷ WriteUint8 (u8 TransferFeeExtensionInstruction) ▷ WriteUint8 1 ▷ WriteUint64 Amount
              ▷ WriteUint8 Decimals ▷ WriteUint64 Fee).
Definition Data_SetTransferFee (basisPoints maximumFee : Z) : outcome t22_err bytes :=
  encodedExt (NewEncoder [] ▷ WriteUint8 (u8 TransferFeeExtensionInstruction) ▷ WriteUint8 5 ▷ WriteUint16 basisPoints
              ▷ WriteUint64 maximumFee).
Definition Data_InitializeMetadataPointer (SubInstruction : Z) (Authority : option PublicKey) (MetadataAddress : PublicKey)
    : outcome t22_err bytes :=
  let enc := NewEncoder [] ▷ WriteUint8 (u8 MetadataPointerExtensionInstruction) ▷ WriteUint8 SubInstruction in
  let enc := if decide (SubInstruction = 0) then WritePublicKey (keyOrZero Authority) enc else enc in
  encodedExt (enc ▷ WritePublicKey MetadataAddress).
Definition Data_InitializeMetadata (Name Symbol URI : bytes) : outcome t22_err bytes :=
  encodedExt (NewEncoder [] ▷ WriteBytes metadataDiscriminator ▷ WriteBorshString Name ▷ WriteBorshString Symbol
              ▷ WriteBorshString URI).

Definition Data (b : extension) : outcome t22_err bytes :=
  match b with
  | GetAccountDataSize types => Data_GetAccountDataSize types
  | InitializeImmutableOwner => Ok [u8 InitializeImmutableOwnerInstruction]
  | AmountToUIAmount a => Data_AmountToUIAmount a
  | UIAmountToAmount s => Data_UIAmountToAmount s
  | InitializeMintCloseAuthority c => Data_InitializeMintCloseAuthority c
  | InitializeTransferFeeConfig c w bp m => Data_InitializeTransferFeeConfig c w bp m
  | TransferCheckedWithFee a d f => Data_TransferCheckedWithFee a d f
  | WithdrawWithheldTokensFromMint => Ok [u8 TransferFeeExtensionInstruction; 2]
  | WithdrawWithheldTokensFromAccounts n => Ok [u8 TransferFeeExtensionInstruction; 3; n]
  | HarvestWithheldTokensToMint => Ok [u8 TransferFeeExtensionInstruction; 4]
  | SetTransferFee bp m => Data_SetTransferFee bp m
  | ConfidentialTransfer sub raw d => Ok (transferExtensionData (mkTransferExtension [] sub raw d))
  | ConfidentialTransferFee sub raw d => Ok (feeExtensionData (mkFeeExtension [] sub raw d))
  | ConfidentialMintBurn sub raw d => Ok (mintBurnExtensionData (mkMintBurnExtension [] sub raw d))
  | InitializeMetadataPointer sub a m => Data_InitializeMetadataPointer sub a m
  | InitializeMetadata n s u => Data_InitializeMetadata n s u
  end.

(** ** Decoding *)

(** [for dec.Remaining() >= 2]: each round reads two bytes, so the length of the
    data bounds the rounds. *)
Fixpoint readExtensionTypes (fuel : nat) : GoM Decoder t22_err (list Z) :=
  match fuel with
  | O => lift Panic
  | S fuel' =>
    d ← get;
    if decide (2 ≤ Remaining d) then
      typ ← ReadUint16;
      types ← readExtensionTypes fuel';
      mret (typ :: types)
    else mret []
  end.

(** [dec.ReadBytes(dec.Remaining())]. *)
Definition readRest {E} : GoM Decoder E bytes := d ← get; ReadBytes (Remaining d).

(** [has := dec.ReadOption(); key := dec.ReadPublicKey(); if has { ... = &key }]. *)
Definition readPaddedKey {E} : GoM Decoder E (option PublicKey) :=
  has ← ReadOption;
  key ← ReadPublicKey;
  mret (present has key).

Definition decodeTransferFee : GoM Decoder t22_err extension :=
  sub ← ReadUint8;
  if decide (sub = 0) then
    config ← readPaddedKey; withdraw ← readPaddedKey; basisPoints ← ReadUint16; maximumFee ← ReadUint64;
    mret (InitializeTransferFeeConfig config withdraw basisPoints maximumFee)
  else if decide (sub = 1) then
    a ← ReadUint64; d ← ReadUint8; f ← ReadUint64; mret (TransferCheckedWithFee a d f)
  else if decide (sub = 2) then mret WithdrawWithheldTokensFromMint
  else if decide (sub = 3) then n ← ReadUint8; mret (WithdrawWithheldTokensFromAccounts n)
  else if decide (sub = 4) then mret HarvestWithheldTokensToMint
  else if decide (sub = 5) then bp ← ReadUint16; m ← ReadUint64; mret (SetTransferFee bp m)
  else throw (errTransferFeeUnknown sub).

Definition decodeMetadataPointer : GoM Decoder t22_err extension :=
  sub ← ReadUint8;
  if decide (1 < sub) then throw (errMetadataPointerUnknown sub) else
  authority ← (if decide (sub = 0) then authority ← ReadPublicKey; mret (if IsZero authority then None else Some authority)
               else mret None);
  address ← ReadPublicKey;
  mret (InitializeMetadataPointer sub authority address).

(** The payload of a confidential instruction, decoded. *)
Definition decodeConfidential {A} (decode : Z → bytes → outcome error A) (mk : Z → bytes → option A → extension)
    : GoM Decoder t22_err extension :=
  sub ← ReadUint8;
  raw ← readRest;
  decoded ← lift (wrap_err errExtension (decode sub raw));
  mret (mk sub raw (Some decoded)).

(** The [switch] on the first byte. *)
Definition decodeExtension (typ : Z) : GoM Decoder t22_err extension :=
  if decide (typ = GetAccountDataSizeInstruction) then
    d ← get;
    types ← readExtensionTypes (S (length (d_data d)));
    mret (GetAccountDataSize types)
  else if decide (typ = InitializeImmutableOwnerInstruction) then mret InitializeImmutableOwner
  else if decide (typ = AmountToUIAmountInstruction) then a ← ReadUint64; mret (AmountToUIAmount a)
  else if decide (typ = UIAmountToAmountInstruction) then s ← readRest; mret (UIAmountToAmount s)
  else if decide (typ = InitializeMintCloseAuthorityInstruction) then
    a ← readOptionalKey; mret (InitializeMintCloseAuthority a)
  else if decide (typ = TransferFeeExtensionInstruction) then decodeTransferFee
  else if decide (typ = ConfidentialTransferExtensionInstruction) then
    decodeConfidential DecodeConfidentialTransferInstruction ConfidentialTransfer
  else if decide (typ = ConfidentialTransferFeeExtensionInstruction) then
    decodeConfidential DecodeConfidentialTransferFeeInstruction ConfidentialTransferFee
  else if decide (typ = ConfidentialMintBurnExtensionInstruction) then
    decodeConfidential DecodeConfidentialMintBurnInstruction ConfidentialMintBurn
  else if decide (typ = MetadataPointerExtensionInstruction) then decodeMetadataPointer
  else throw (errT22Unknown typ).

Definition decodeMetadata : GoM Decoder t22_err extension :=
  n ← ReadBorshString; s ← ReadBorshString; u ← ReadBorshString; mret (InitializeMetadata n s u).

Definition DecodeInstruction (accounts : AccountMetaSlice) (data : bytes) : outcome t22_err DecodedInstruction :=
  match data with
  | [] => Err (errT22Type ErrUnexpectedEOF)
  | typ :: rest =>
    if decide (typ ≤ InitializeMint2Instruction) then
      base ← wrap_err errToken (DecodeInstructionWithProgramID accounts data ProgramID);
      Ok (Base base)
    else if decide (take 8 data = metadataDiscriminator) then
      b ← runDecoder (b ← decodeMetadata; _ ← checkErr errT22Metadata; mret b) (drop 8 data);
      Ok (Extended (mkExtension accounts b))
    else
      b ← runDecoder (b ← decodeExtension typ; _ ← checkErr errT22Decode; mret b) rest;
      Ok (Extended (mkExtension accounts b))
  end.

(** * States with extensions *)

Definition ExtensionUninitialized : Z := 0.

Record Extension := mkExt { ext_Type : Z; ext_Data : bytes }.
Abbreviation Extensions := (list Extension) (only parsing).

#[global] Instance Extension_eq_dec : EqDecision Extension.
Proof. solve_decision. Defined.

(** [for dec.Remaining() >= 2]: each round reads at least two bytes. *)
Fixpoint extensionsLoop (fuel : nat) : GoM Decoder t22_err Extensions :=
  match fuel with
  | O => lift Panic
  | S fuel' =>
    d ← get;
    if decide (2 ≤ Remaining d) then
      typ ← ReadUint16;
      _ ← checkErr errExtensionType;
      if decide (typ = ExtensionUninitialized) then mret [] else
      length ← ReadUint16;
      payload ← ReadBytes length;
      _ ← checkErr (errExtensionData typ);
      extensions ← extensionsLoop fuel';
      mret (mkExt typ payload :: extensions)
    else mret []
  end.
Definition decodeExtensions (data : bytes) : outcome t22_err Extensions :=
  runDecoder (extensionsLoop (S (length data))) data.

(** [Find] returns nil when there is none. *)
Fixpoint Find (extensions : Extensions) (typ : Z) : option bytes :=
  match extensions with
  | [] => None
  | extension :: extensions' => if decide (ext_Type extension = typ) then Some (ext_Data extension) else Find extensions' typ
  end.

Record Mint := mkMint2022 { mint_base : Token.Mint; mint_Extensions : Extensions }.
Record Account := mkAccount2022 { account_base : Token.Account; account_Extensions : Extensions }.

Definition DecodeMint (data : bytes) : outcome t22_err Mint :=
  if decide (len data ≠ MintSize ∧ len data < AccountSize + 1) then Err (errToken (ErrInvalidAccountSize (len data))) else
  head ← slice_to data MintSize;
  base ← wrap_err errToken (Token.DecodeMint head);
  if decide (len data = MintSize) then Ok (mkMint2022 base []) else
  tail ← slice_from data (AccountSize + 1);
  extensions ← decodeExtensions tail;
  Ok (mkMint2022 base extensions).
Definition DecodeAccount (data : bytes) : outcome t22_err Account :=
  if decide (len data ≠ AccountSize ∧ len data < AccountSize + 1) then Err (errToken (ErrInvalidAccountSize (len data))) else
  head ← slice_to data AccountSize;
  base ← wrap_err errToken (Token.DecodeAccount head);
  if decide (len data = AccountSize) then Ok (mkAccount2022 base []) else
  tail ← slice_from data (AccountSize + 1);
  extensions ← decodeExtensions tail;
  Ok (mkAccount2022 base extensions).
Definition DecodeMultisig (data : bytes) : outcome token_err Multisig := Token.DecodeMultisig data.
