(* ===== verification/Token2022Spec.v ===== *)
(** Token2022Spec: the instructions and states of the Token-2022 program: every
    instruction round-trips, base and extension alike, and the type-length-value
    extensions of a state are read back exactly. *)
From Stdlib Require Import ZArith Lia.
From stdpp Require Import base numbers strings list.
From S2P Require Import Prelude Shortvec Keys ProgramIds Wire Program Token Ristretto ElGamal ZkProof ZkProofSpec.
From S2P Require Import ConfidentialIx ConfidentialIxSpec Token2022.

Open Scope Z_scope.

(** * Decoders that look at what is left *)

Lemma readRest_reads {E} x : bytes_ok x → readsWhen (E:=E) (λ rest, rest = []) readRest x x.
Proof.
  intros Hx. split; [done|]. intros pre rest Hp Hr ->. unfold readRest. rewrite run_get, remaining_at. change (len []) with 0.
  rewrite Z.add_0_r. by apply codec_bytes_run.
Qed.

Lemma readRest_parses {E} : parsesR (E:=E) readRest (λ x bs rest, bytes_ok x ∧ bs = x ∧ rest = []).
Proof.
  intros d Hd. unfold readRest. apply wp_run_get. eapply wp_mono; [by apply (codec_parses (Codec := codec_bytes _))| |done].
  intros x d' (Hi & Hdata & He & H). split_and!; [done..|]. intros Hn Hn'. destruct (H Hn Hn') as (bs & Hu & [Hl Hx] & ->).
  exists x. split; [done|]. split_and!; [done..|]. apply len_0. apply (f_equal len) in Hu. rewrite len_app in Hu.
  destruct Hd as [_ Hd]. unfold Remaining in Hl. unfold unread in Hu at 1. rewrite len_drop in Hu by done. lia.
Qed.

Lemma readRest_wp {E} d :
  dec_inv d → wp (readRest (E:=E)) (λ x d', bytes_ok x ∧ postR (λ x bs rest, bytes_ok x ∧ bs = x ∧ rest = []) d x d') (λ _ _, True) d.
Proof.
  intros Hd. pose proof (readRest_parses (E:=E) d Hd) as H. unfold wp in *. destruct (readRest d) as [[x|e|] d'] eqn:E1; [|done|done].
  split; [|done]. unfold readRest in E1. rewrite run_get in E1. unfold ReadBytes in E1. rewrite run_get in E1. cbv zeta in E1.
  case_decide as Hc.
  - case_decide; cbn in E1; injection E1 as <- _; constructor.
  - rewrite run_modify in E1. unfold lift in E1. destruct Hd as [Hd Hp]. unfold Remaining in *. rewrite slice_ok in E1 by lia.
    injection E1 as <- _. by apply Forall_drop, Forall_take.
Qed.

(** A list of 16-bit types, as long as two bytes are left. *)
Definition typesBytes (types : list Z) : bytes := concat (le_bytes 2 <$> types).

Lemma typesBytes_length types : length (typesBytes types) = (2 * length types)%nat.
Proof.
  unfold typesBytes. induction types as [|t types IH]; [done|]. rewrite fmap_cons. cbn [concat length].
  rewrite length_app, le_bytes_length, IH. lia.
Qed.

Lemma readTypes_reads types fuel :
  Forall (is_uint 2) types → (length types < fuel)%nat →
  readsWhen (λ rest, len rest < 2) (readExtensionTypes fuel) types (typesBytes types).
Proof.
  intros Ht. revert fuel. induction Ht as [|t types Ht _ IH]; intros [|fuel] Hf; [cbn in Hf; lia..| |cbn in Hf; lia|].
  - split; [constructor|]. intros pre rest Hp Hr Hq. cbn [readExtensionTypes]. rewrite run_get, remaining_at, decide_False; [by rewrite Z.add_0_r|].
    change (len (typesBytes [])) with 0. lia.
  - destruct (IH fuel ltac:(cbn in Hf; lia)) as [Hb _].
    split; [apply Forall_app_2; [apply le_bytes_ok|exact Hb]|]. intros pre rest Hp Hr Hq. cbn [readExtensionTypes].
    rewrite run_get, remaining_at, decide_True.
    2:{ unfold typesBytes. rewrite fmap_cons. cbn [concat]. rewrite len_app, len_le_bytes. pose_lens. lia. }
    assert (Hstep : readsWhen (λ rest, len rest < 2) (typ ← ReadUint16; types ← readExtensionTypes fuel; mret (typ :: types))
      (t :: types) (typesBytes (t :: types))).
    { eapply (readsWhen_codec _ _ _ _ _ t); [|exact Ht|reflexivity]. apply readsWhen_map. apply IH. cbn in Hf. lia. }
    by apply Hstep.
Qed.

(** Any bytes are a list of types and less than two bytes more. *)
Lemma types_split data :
  bytes_ok data → ∃ types rest, data = typesBytes types ++ rest ∧ Forall (is_uint 2) types ∧ bytes_ok rest ∧ len rest < 2.
Proof.
  remember (length data) as n eqn:Hn. revert data Hn. induction n as [n IH] using lt_wf_ind. intros data -> Hd.
  destruct (decide (2 ≤ len data)) as [H2|H2]; [|exists [], data; split_and!; [done|constructor|done|lia]].
  destruct (take_uint 2 data) as (t & rest & -> & Ht & Hr); [done|lia|].
  destruct (IH (length rest)) with (data := rest) as (types & rest' & -> & Hts & Hr' & Hl); [rewrite length_app, le_bytes_length; lia|done|done|].
  exists (t :: types), rest'. split_and!; [|by constructor|done|done]. unfold typesBytes. rewrite fmap_cons. cbn [concat].
  by rewrite app_assoc.
Qed.

(** A key behind an option tag whose place is kept when it is absent. *)
Definition paddedBytes (k : option PublicKey) (padding : bytes) : bytes :=
  match k with Some k => boolByte true ++ k | None => boolByte false ++ padding end.
Definition keyOk (k : option PublicKey) : Prop := match k with Some k => array_ok 32 k | None => True end.

Lemma readPadded_reads {E} k padding :
  keyOk k → array_ok 32 padding → reads (E:=E) readPaddedKey k (paddedBytes k padding).
Proof.
  intros Hk Hp. unfold readPaddedKey. destruct k as [k|]; cbn [paddedBytes keyOk] in *.
  - eapply (reads_codec _ _ _ _ true); [|done|reflexivity]. eapply (reads_codec _ _ _ _ k); [apply reads_ret|done|by rewrite app_nil_r].
  - eapply (reads_codec _ _ _ _ false); [|done|reflexivity]. eapply (reads_codec _ _ _ _ padding); [apply reads_ret|done|by rewrite app_nil_r].
Qed.
Lemma readPadded_parses {E} :
  parses (E:=E) readPaddedKey (λ k bs, ∃ padding, keyOk k ∧ array_ok 32 padding ∧ bs = paddedBytes k padding).
Proof.
  unfold readPaddedKey. eapply parses_codec; [apply _|]. intros has. eapply parses_codec; [apply _|]. intros key.
  apply parses_ret_spec. intros Hk _. exists key. rewrite app_nil_r. destruct has; by split_and!.
Qed.

(** * Extension instructions *)

(** A body with the bytes in the place of the absent keys of a fee config. *)
Record form := mkForm { f_body : extension; f_pad1 : bytes; f_pad2 : bytes }.

(** Raw confidential data is the payload that was decoded. *)
Definition decodedOk {A} (fields : A → Z * list piece) (sub : Z) (raw : bytes) (decoded : option A) : Prop :=
  ∃ d, decoded = Some d ∧ payloadOk (fields d).2 ∧ sub = (fields d).1 ∧ raw = payload (fields d).2.

Definition extDisc (b : extension) : Z :=
  match b with
  | GetAccountDataSize _ => 21 | InitializeImmutableOwner => 22 | AmountToUIAmount _ => 23 | UIAmountToAmount _ => 24
  | InitializeMintCloseAuthority _ => 25
  | InitializeTransferFeeConfig _ _ _ _ | TransferCheckedWithFee _ _ _ | WithdrawWithheldTokensFromMint
  | WithdrawWithheldTokensFromAccounts _ | HarvestWithheldTokensToMint | SetTransferFee _ _ => 26
  | ConfidentialTransfer _ _ _ => 27 | ConfidentialTransferFee _ _ _ => 37 | ConfidentialMintBurn _ _ _ => 42
  | InitializeMetadataPointer _ _ _ => 39 | InitializeMetadata _ _ _ => 210
  end.

(** What follows the first byte. *)
Definition extBytes (w : form) : bytes :=
  match f_body w with
  | GetAccountDataSize types => typesBytes types
  | InitializeImmutableOwner => []
  | AmountToUIAmount a => le_bytes 8 a
  | UIAmountToAmount s => s
  | InitializeMintCloseAuthority c => concat (valueBytes <$> optFields c)
  | InitializeTransferFeeConfig c a bp m => [0] ++ paddedBytes c (f_pad1 w) ++ paddedBytes a (f_pad2 w) ++ le_bytes 2 bp ++ le_bytes 8 m
  | TransferCheckedWithFee a d f => [1] ++ le_bytes 8 a ++ [d] ++ le_bytes 8 f
  | WithdrawWithheldTokensFromMint => [2]
  | WithdrawWithheldTokensFromAccounts n => [3; n]
  | HarvestWithheldTokensToMint => [4]
  | SetTransferFee bp m => [5] ++ le_bytes 2 bp ++ le_bytes 8 m
  | ConfidentialTransfer sub raw _ | ConfidentialTransferFee sub raw _ | ConfidentialMintBurn sub raw _ => [sub] ++ raw
  | InitializeMetadataPointer sub a m => [sub] ++ (if decide (sub = 0) then publicKeyBytes a else []) ++ m
  | InitializeMetadata n s u => drop 1 metadataDiscriminator ++ valueBytes (VBorshString n) ++ valueBytes (VBorshString s) ++ valueBytes (VBorshString u)
  end.

Definition extOk (w : form) : Prop :=
  match f_body w with
  | GetAccountDataSize types => Forall (is_uint 2) types
  | InitializeImmutableOwner | WithdrawWithheldTokensFromMint | HarvestWithheldTokensToMint => True
  | AmountToUIAmount a => is_uint 8 a
  | UIAmountToAmount s => bytes_ok s
  | InitializeMintCloseAuthority c => Forall value_ok (optFields c)
  | InitializeTransferFeeConfig c a bp m =>
    keyOk c ∧ keyOk a ∧ array_ok 32 (f_pad1 w) ∧ array_ok 32 (f_pad2 w) ∧ is_uint 2 bp ∧ is_uint 8 m
  | TransferCheckedWithFee a d f => is_uint 8 a ∧ is_byte d ∧ is_uint 8 f
  | WithdrawWithheldTokensFromAccounts n => is_byte n
  | SetTransferFee bp m => is_uint 2 bp ∧ is_uint 8 m
  | ConfidentialTransfer sub raw d => decodedOk transferPayload sub raw d
  | ConfidentialTransferFee sub raw d => decodedOk feePayload sub raw d
  | ConfidentialMintBurn sub raw d => decodedOk mintBurnPayload sub raw d
  | InitializeMetadataPointer sub a m =>
    array_ok 32 m ∧ (sub = 0 ∧ optionalKeyOk a ∨ sub = 1 ∧ a = None)
  | InitializeMetadata n s u => value_ok (VBorshString n) ∧ value_ok (VBorshString s) ∧ value_ok (VBorshString u)
  end.

(** What may follow an instruction: nothing behind those that read to the end, one
    byte behind a list of types. *)
Definition extRest (b : extension) (rest : bytes) : Prop :=
  match b with
  | GetAccountDataSize _ => len rest < 2
  | UIAmountToAmount _ | ConfidentialTransfer _ _ _ | ConfidentialTransferFee _ _ _ | ConfidentialMintBurn _ _ _ => rest = []
  | _ => True
  end.

Section confidential.
Context {A : Type} (decode : Z → bytes → outcome error A) (fields : A → Z * list piece) {Hp : PayloadDecoder decode fields}.
Context (mk : Z → bytes → option A → extension).

Lemma confidential_reads sub raw d :
  is_byte sub → bytes_ok raw → decodedOk fields sub raw d →
  readsWhen (λ rest, rest = []) (decodeConfidential decode mk) (mk sub raw d) ([sub] ++ raw).
Proof.
  intros Hs Hr (x & -> & Hx & -> & ->). unfold decodeConfidential. eapply (readsWhen_codec _ _ _ _ _ (fields x).1); [|exact Hs|reflexivity].
  destruct (readRest_reads (E := t22_err) (payload (fields x).2) Hr) as [_ Hrun].
  split; [done|]. intros pre rest Hpre Hrest ->. erewrite run_bind by (by apply Hrun). by rewrite payload_decodes.
Qed.

Lemma confidential_parses :
  parsesR (decodeConfidential decode mk) (λ b bs rest, ∃ sub raw d, b = mk sub raw d ∧ bytes_ok raw ∧ is_byte sub ∧
    decodedOk fields sub raw d ∧ bs = [sub] ++ raw ∧ rest = []).
Proof.
  unfold decodeConfidential. eapply parsesR_codec; [apply _|]. intros sub d Hd.
  apply wp_bind. eapply wp_mono; [by apply readRest_wp| |done]. intros raw d1 (Hr & Hi & Hdata & He & H).
  pose proof (payload_decoded sub raw Hr) as Hdec. unfold wp, lift, wrap_err, mbind, gom_bind.
  destruct (decode sub raw) as [x|e|]; [|done|done]. destruct Hdec as (Hx & Hsub & Hraw).
  split_and!; [done..|]. intros Hn Hn'. destruct (H Hn Hn') as (bs & Hu & _ & -> & Hrest). exists raw. split; [done|].
  intros Hs. exists sub, raw, (Some x). split_and!; try done. by exists x.
Qed.
End confidential.

(** The case of a discriminator in the switch. *)
Ltac at_case := unfold decodeExtension; rewrite ?(decide_False (P := _ = _)), decide_True by done.

(** What an instruction decodes to, after its first byte. *)
Lemma ext_reads w :
  extOk w → extDisc (f_body w) ≠ 210 → bytes_ok (extBytes w) →
  readsWhen (extRest (f_body w)) (decodeExtension (extDisc (f_body w))) (f_body w) (extBytes w).
Proof.
  destruct w as [b p1 p2]. unfold extOk, extBytes. cbn [f_body f_pad1 f_pad2]. intros Hok Hd Hb.
  destruct b as [types| |a|s|c|c a bp m|a d f| |n| |bp m|sub raw d|sub raw d|sub raw d|sub a m|n s u]; cbn [extDisc extRest] in *; try done.
  - split; [done|]. intros pre rest Hpre Hrest Hl. at_case. rewrite run_get.
    set (fuel := S _). assert (Hf : (length types < fuel)%nat).
    { unfold fuel. cbn [d_data at_]. rewrite !length_app, typesBytes_length. lia. }
    clearbody fuel. destruct (readsWhen_map _ _ GetAccountDataSize _ _ (readTypes_reads types fuel Hok Hf)) as [_ Hrun]. by apply Hrun.
  - at_case. apply reads_when, reads_ret.
  - at_case. apply reads_when. step_reads; layout_done.
  - at_case. apply readsWhen_map, readRest_reads. done.
  - at_case. apply reads_when. step_reads; layout_done.
  - at_case. apply reads_when. unfold decodeTransferFee. destruct Hok as (? & ? & ? & ? & ? & ?).
    eapply (reads_codec _ _ _ _ 0); [|done|reflexivity]. rewrite decide_True by done.
    eapply reads_bind; [by apply (readPadded_reads c p1)| |reflexivity]. eapply reads_bind; [by apply (readPadded_reads a p2)| |reflexivity].
    step_reads; layout_done.
  - at_case. apply reads_when. unfold decodeTransferFee. destruct Hok as (? & ? & ?).
    eapply (reads_codec _ _ _ _ 1); [|done|reflexivity]. rewrite ?(decide_False (P := _ = _)), decide_True by done. step_reads; layout_done.
  - at_case. apply reads_when. unfold decodeTransferFee.
    eapply (reads_codec _ _ _ _ 2); [|done|reflexivity]. rewrite ?(decide_False (P := _ = _)), decide_True by done. step_reads; layout_done.
  - at_case. apply reads_when. unfold decodeTransferFee.
    eapply (reads_codec _ _ _ _ 3); [|done|reflexivity]. rewrite ?(decide_False (P := _ = _)), decide_True by done. step_reads; layout_done.
  - at_case. apply reads_when. unfold decodeTransferFee.
    eapply (reads_codec _ _ _ _ 4); [|done|reflexivity]. rewrite ?(decide_False (P := _ = _)), decide_True by done. step_reads; layout_done.
  - at_case. apply reads_when. unfold decodeTransferFee. destruct Hok as (? & ?).
    eapply (reads_codec _ _ _ _ 5); [|done|reflexivity]. rewrite ?(decide_False (P := _ = _)), decide_True by done. step_reads; layout_done.
  - at_case. apply Forall_app in Hb as [Hs Hb]. apply Forall_cons in Hs as [Hs _]. by apply (confidential_reads _ transferPayload).
  - at_case. apply Forall_app in Hb as [Hs Hb]. apply Forall_cons in Hs as [Hs _]. by apply (confidential_reads _ feePayload).
  - at_case. apply Forall_app in Hb as [Hs Hb]. apply Forall_cons in Hs as [Hs _]. by apply (confidential_reads _ mintBurnPayload).
  - at_case. apply reads_when. unfold decodeMetadataPointer. destruct Hok as (Hm & [[-> Ha]|[-> ->]]).
    + eapply (reads_codec _ _ _ _ 0); [|done|reflexivity]. rewrite decide_False by done. rewrite !decide_True by done.
      eapply reads_bind; [apply (codec_reads (Codec := readOptionalPublicKey_codec)); exact Ha| |reflexivity]. step_reads; layout_done.
    + eapply (reads_codec _ _ _ _ 1); [|done|reflexivity]. rewrite !decide_False by done.
      eapply reads_bind; [apply reads_ret| |reflexivity]. step_reads; layout_done.
Qed.

(** What is accepted, after the first byte. *)
Definition accepted (typ : Z) (b : extension) (bs rest : bytes) : Prop :=
  ∃ w, f_body w = b ∧ extDisc b = typ ∧ extOk w ∧ bs = extBytes w ∧ extRest b rest.

Lemma accepted_plain typ (m : GoM Decoder t22_err extension) :
  parses m (λ b bs, ∃ w, f_body w = b ∧ extDisc b = typ ∧ extOk w ∧ bs = extBytes w ∧ ∀ rest, extRest b rest) →
  parsesR m (accepted typ).
Proof. intros H. eapply parses_rest; [exact H|]. intros b bs rest (w & ? & ? & ? & ? & Hr). by exists w. Qed.

Ltac give b := exists (mkForm b (zeros 32) (zeros 32)); unfold extOk, extBytes; cbn [f_body]; split_and!; try done; layout_done.

Lemma transferFee_parses : parses decodeTransferFee (λ b bs, ∃ w, f_body w = b ∧ extDisc b = 26 ∧ extOk w ∧ bs = extBytes w ∧ ∀ rest, extRest b rest).
Proof.
  unfold decodeTransferFee. eapply parses_codec; [apply _|]. intros sub.
  case_decide as H0; [subst sub|].
  { eapply parses_then; [apply readPadded_parses|]. intros c. eapply parses_then; [apply readPadded_parses|]. intros a.
    step_parses. intros Hm Hb b1 (p2 & Ha & Hp2 & ->) b2 (p1 & Hc & Hp1 & ->) _. rewrite app_nil_r.
    by eexists (mkForm (InitializeTransferFeeConfig c a _ _) p1 p2). }
  case_decide as H1; [subst sub; step_parses; intros; give (TransferCheckedWithFee x x0 x1)|].
  case_decide as H2; [subst sub; step_parses; intros; give WithdrawWithheldTokensFromMint|].
  case_decide as H3; [subst sub; step_parses; intros; give (WithdrawWithheldTokensFromAccounts x)|].
  case_decide as H4; [subst sub; step_parses; intros; give HarvestWithheldTokensToMint|].
  case_decide as H5; [subst sub; step_parses; intros; give (SetTransferFee x x0)|].
  apply parses_throw.
Qed.

Lemma metadataPointer_parses :
  parses decodeMetadataPointer (λ b bs, ∃ w, f_body w = b ∧ extDisc b = 39 ∧ extOk w ∧ bs = extBytes w ∧ ∀ rest, extRest b rest).
Proof.
  unfold decodeMetadataPointer. eapply parses_codec; [apply _|]. intros sub. case_decide as H1; [apply parses_throw|].
  case_decide as H0.
  - subst sub. change (authority ← ReadPublicKey; mret (if IsZero authority then None else Some authority))
      with (readOptionalPublicKey (E := t22_err)). step_parses. intros. exists (mkForm (InitializeMetadataPointer 0 x x0) [] []).
    unfold extOk, extBytes. cbn [f_body]. rewrite app_nil_r. split_and!; [done..|by left|done|done].
  - eapply parses_then; [apply parses_ret|]. intros a. step_parses. intros Hx b1 [-> ->] Hs.
    assert (sub = 1) as -> by (unfold is_byte in Hs; lia). exists (mkForm (InitializeMetadataPointer 1 None x) [] []).
    unfold extOk, extBytes. cbn [f_body]. rewrite app_nil_r. split_and!; [done..|by right|done|done].
Qed.

Lemma parsesR_fresh {E A} (m : GoM Decoder E A) R data :
  parsesR m R → bytes_ok data →
  wp m (λ x d', d_err d' = None → ∃ bs rest, data = bs ++ rest ∧ R x bs rest) (λ _ _, True) (NewDecoder data).
Proof.
  intros Hm Hd. eapply wp_mono; [by apply Hm, NewDecoder_inv| |done]. intros x d' (_ & _ & _ & H) He.
  destruct (H eq_refl He) as (bs & Hu & HR). exists bs, (unread d'). by rewrite <-Hu.
Qed.

Lemma decodeExtension_accepts typ data :
  bytes_ok data →
  wp (decodeExtension typ) (λ b d', d_err d' = None → ∃ bs rest, data = bs ++ rest ∧ accepted typ b bs rest) (λ _ _, True) (NewDecoder data).
Proof.
  intros Hd. unfold decodeExtension.
  case_decide as H21.
  { subst typ. apply wp_run_get. destruct (types_split data Hd) as (types & rest & -> & Ht & Hr & Hl).
    destruct (readTypes_reads types (S (length (typesBytes types ++ rest))) Ht) as [_ Hrun];
      [rewrite length_app, typesBytes_length; lia|].
    specialize (Hrun [] rest ltac:(constructor) Hr Hl). unfold wp. cbn [d_data NewDecoder]. erewrite run_bind by exact Hrun.
    cbn. intros _. exists (typesBytes types), rest. split; [done|]. by exists (mkForm (GetAccountDataSize types) [] []). }
  case_decide as H22; [subst typ; apply parsesR_fresh; [apply accepted_plain; step_parses; intros; give InitializeImmutableOwner|done]|].
  case_decide as H23; [subst typ; apply parsesR_fresh; [apply accepted_plain; step_parses; intros; give (AmountToUIAmount x)|done]|].
  case_decide as H24.
  { subst typ. apply parsesR_fresh; [|done]. eapply parsesR_then; [apply readRest_parses|]. intros s.
    eapply parses_rest; [apply parses_ret|]. intros b bs rest [-> ->] b1 (Hs & -> & Hrest). rewrite app_nil_r in *.
    by exists (mkForm (UIAmountToAmount s) [] []). }
  case_decide as H25.
  { subst typ. apply parsesR_fresh; [|done]. apply accepted_plain. step_parses. intros Hx. rewrite app_nil_r.
    by exists (mkForm (InitializeMintCloseAuthority x) [] []). }
  case_decide as H26; [subst typ; apply parsesR_fresh; [apply accepted_plain, transferFee_parses|done]|].
  assert (Hconf : ∀ (A : Type) decode fields (Hp : PayloadDecoder (A := A) decode fields) mk,
    (∀ sub raw d, decodedOk fields sub raw d → extDisc (mk sub raw d) = typ ∧ extOk (mkForm (mk sub raw d) [] []) ∧
       extBytes (mkForm (mk sub raw d) [] []) = [sub] ++ raw ∧ extRest (mk sub raw d) []) →
    parsesR (decodeConfidential decode mk) (accepted typ)).
  { intros A decode fields Hp mk Hmk. intros d Hdd. eapply wp_mono; [by apply (confidential_parses decode fields mk)| |done].
    intros b d' (? & ? & ? & H). split_and!; [done..|]. intros Hn Hn'. destruct (H Hn Hn') as (bs & Hu & sub & raw & x & -> & _ & _ & Hok & -> & Hr).
    exists ([sub] ++ raw). split; [done|]. destruct (Hmk _ _ _ Hok) as (? & ? & E3 & ?). exists (mkForm (mk sub raw x) [] []).
    rewrite E3, Hr. done. }
  case_decide as H27; [apply parsesR_fresh; [eapply Hconf; [apply _|]; by subst typ|done]|].
  case_decide as H37; [apply parsesR_fresh; [eapply Hconf; [apply _|]; by subst typ|done]|].
  case_decide as H42; [apply parsesR_fresh; [eapply Hconf; [apply _|]; by subst typ|done]|].
  case_decide as H39; [subst typ; apply parsesR_fresh; [apply accepted_plain, metadataPointer_parses|done]|].
  by apply wp_throw.
Qed.

(** * Encoding *)

Lemma encoded_values vs e : e = writeValues vs (NewEncoder []) → Forall value_ok vs → encodedExt e = Ok (concat (valueBytes <$> vs)).
Proof. intros -> Hv. by apply finish_values. Qed.

(** An instruction's data, its absent keys written as zeros. *)
Lemma extData w :
  extOk w → f_pad1 w = zeros 32 → f_pad2 w = zeros 32 → Data (f_body w) = Ok (extDisc (f_body w) :: extBytes w).
Proof.
  destruct w as [b p1 p2]. unfold extOk, extBytes. cbn [f_body f_pad1 f_pad2]. intros Hok -> ->.
  destruct b as [types| |a|s|c|c a bp m|a d f| |n| |bp m|sub raw d|sub raw d|sub raw d|sub a m|n s u]; cbn [extDisc Data]; try reflexivity.
  - unfold Data_GetAccountDataSize.
    rewrite (encoded_values (VUint8 21 :: (VUint16 <$> types))).
    + rewrite fmap_cons, <-list_fmap_compose. reflexivity.
    + rewrite (foldl_values (λ t, [VUint16 t])) by reflexivity. rewrite bind_single. reflexivity.
    + constructor; [done|]. apply Forall_fmap. exact Hok.
  - unfold Data_InitializeMintCloseAuthority. rewrite (encoded_values (VUint8 25 :: optFields c)); [done| |].
    + destruct c; reflexivity.
    + by constructor.
  - unfold Data_InitializeTransferFeeConfig. destruct Hok as (Hc & Ha & Hz & _ & Hb & Hm).
    rewrite (encoded_values [VUint8 26; VUint8 0; VOption (bool_decide (is_Some c)); VPublicKey (keyOrZero c);
      VOption (bool_decide (is_Some a)); VPublicKey (keyOrZero a); VUint16 bp; VUint64 m]).
    + destruct c, a; cbn [fmap list_fmap valueBytes concat]; rewrite app_nil_r; reflexivity.
    + reflexivity.
    + repeat (apply Forall_cons_2; [first [exact I | by destruct c | by destruct a | done]|]). apply Forall_nil_2.
  - unfold Data_InitializeMetadataPointer. destruct Hok as (Hm & [[-> Ha]|[-> ->]]).
    + rewrite decide_True by done.
      rewrite (encoded_values [VUint8 39; VUint8 0; VPublicKey (keyOrZero a); VPublicKey m]).
      * cbn [fmap list_fmap valueBytes concat]. by rewrite app_nil_r.
      * reflexivity.
      * repeat (apply Forall_cons_2; [first [destruct a as [k|]; [exact (proj1 Ha)|split; [done|apply (zeros_ok 32)]] | done]|]). apply Forall_nil_2.
    + rewrite decide_False by done.
      rewrite (encoded_values [VUint8 39; VUint8 1; VPublicKey m]).
      * cbn [fmap list_fmap valueBytes concat]. by rewrite app_nil_r.
      * reflexivity.
      * repeat (apply Forall_cons_2; [done|]). apply Forall_nil_2.
  - unfold Data_InitializeMetadata. destruct Hok as (Hn & Hs & Hu).
    rewrite (encoded_values [VBytes metadataDiscriminator; VBorshString n; VBorshString s; VBorshString u]).
    + cbn [fmap list_fmap concat]. by rewrite app_nil_r.
    + reflexivity.
    + repeat (apply Forall_cons_2; [first [done | by apply (bool_decide_unpack _)]|]). apply Forall_nil_2.
Qed.

(** * The codec of the program *)

Lemma payload_bytes_ok ps : payloadOk ps → bytes_ok (payload ps).
Proof.
  intros H. unfold payload. induction H as [|p ps Hp _ IH]; [constructor|]. rewrite fmap_cons. cbn [concat]. apply Forall_app_2; [|exact IH].
  destruct p as [n b|v|v|v|b|k]; cbn [pieceBytes pieceOk] in *.
  - apply Hp.
  - apply le_bytes_ok.
  - by constructor.
  - constructor; [apply is_byte_u8|constructor].
  - destruct b; by repeat constructor.
  - destruct k; [apply Hp|apply (zeros_ok 32)].
Qed.

Lemma decoded_bytes_ok {A} (fields : A → Z * list piece) sub raw d :
  (∀ x, is_byte (fields x).1) → decodedOk fields sub raw d → bytes_ok ([sub] ++ raw).
Proof. intros Hf (x & _ & Hx & -> & ->). constructor; [apply Hf|by apply payload_bytes_ok]. Qed.

Lemma padded_bytes_ok k padding : keyOk k → array_ok 32 padding → bytes_ok (paddedBytes k padding).
Proof. intros Hk Hp. apply (readPadded_reads (E := error) k padding Hk Hp). Qed.

Lemma borsh_bytes_ok s : value_ok (VBorshString s) → bytes_ok (valueBytes (VBorshString s)).
Proof. intros H. apply (codec_reads (Codec := codec_borshString (E := error)) s H). Qed.

Lemma extBytes_ok w : extOk w → bytes_ok (extBytes w).
Proof.
  destruct w as [b p1 p2]. unfold extOk, extBytes. cbn [f_body f_pad1 f_pad2]. intros Hok.
  assert (Hone : ∀ v, is_byte v → bytes_ok [v]) by (intros; constructor; [done|constructor]).
  destruct b as [types| |a|s|c|c a bp m|a d f| |n| |bp m|sub raw d|sub raw d|sub raw d|sub a m|n s u];
    repeat match goal with H : _ ∧ _ |- _ => destruct H end.
  12: apply (decoded_bytes_ok transferPayload _ _ d); [by intros []|done].
  12: apply (decoded_bytes_ok feePayload _ _ d); [by intros []|done].
  12: apply (decoded_bytes_ok mintBurnPayload _ _ d); [by intros []|done].
  1: apply (readTypes_reads types (S (length types)) Hok); lia.
  4: apply (codec_reads (Codec := readOptionalKey_codec (E := error)) c Hok).
  all: try (repeat lazymatch goal with |- Forall _ (_ ++ _) => apply Forall_app_2 end;
    first [assumption | by apply padded_bytes_ok | by apply borsh_bytes_ok | apply le_bytes_ok | by apply Hone | constructor; [done|by apply Hone] | by constructor]).
  - destruct H0 as [[-> Ha]|[-> ->]]; cbn [decide].
    + apply Forall_app_2; [by apply Hone|]. rewrite decide_True by done. apply Forall_app_2; [|apply H].
      destruct a; [apply Ha|apply (zeros_ok 32)].
    + apply Forall_app_2; [by apply Hone|]. rewrite decide_False by done. apply H.
  - apply Forall_app_2; [by apply (bool_decide_unpack _)|]. apply Forall_app_2; [by apply borsh_bytes_ok|]. apply Forall_app_2; by apply borsh_bytes_ok.
Qed.

(** A well-formed extension instruction. *)
Definition wellFormed (b : extension) : Prop := extOk (mkForm b (zeros 32) (zeros 32)).

Lemma extOk_wellFormed w : extOk w → wellFormed (f_body w).
Proof.
  destruct w as [b p1 p2]. unfold wellFormed, extOk. cbn [f_body f_pad1 f_pad2]. destruct b; try done.
  intros (? & ? & _ & _ & ? & ?). split_and!; try done; split; (done || apply (zeros_ok 32)).
Qed.

Lemma metadata_head (typ : Z) (rest : bytes) : typ ≠ 210 → take 8 (typ :: rest) ≠ metadataDiscriminator.
Proof. intros H E. by injection E. Qed.

Lemma metadata_reads n s u :
  value_ok (VBorshString n) → value_ok (VBorshString s) → value_ok (VBorshString u) →
  reads decodeMetadata (InitializeMetadata n s u)
    (valueBytes (VBorshString n) ++ valueBytes (VBorshString s) ++ valueBytes (VBorshString u)).
Proof. intros Hn Hs Hu. unfold decodeMetadata. step_reads; try done; try (by rewrite app_nil_r). Qed.

Lemma ext_decode accounts w rest :
  extOk w → bytes_ok rest → extRest (f_body w) rest →
  DecodeInstruction accounts ((extDisc (f_body w) :: extBytes w) ++ rest) = Ok (Extended (mkExtension accounts (f_body w))).
Proof.
  intros Hok Hr Htail. pose proof (extBytes_ok w Hok) as Hb. cbn [app]. unfold DecodeInstruction.
  rewrite decide_False by (unfold InitializeMint2Instruction; destruct (f_body w); cbn; lia).
  destruct (decide (extDisc (f_body w) = 210)) as [E|E].
  - destruct w as [b p1 p2]. destruct b; try done. unfold extBytes in *. cbn [f_body extDisc] in *.
    rewrite decide_True by reflexivity. destruct Hok as (Hn & Hs & Hu).
    change (drop 8 _) with ((valueBytes (VBorshString Name) ++ valueBytes (VBorshString Symbol) ++ valueBytes (VBorshString URI)) ++ rest).
    rewrite (runDecoder_when _ _ (λ _, True) (InitializeMetadata Name Symbol URI)); [done|apply reads_when; by apply metadata_reads|done|done].
  - rewrite decide_False by (by apply metadata_head).
    rewrite (runDecoder_when _ _ _ _ _ _ (ext_reads w Hok E Hb)) by done. done.
Qed.

Lemma metadata_parses :
  parsesR decodeMetadata (λ b bs rest, ∃ n s u, b = InitializeMetadata n s u ∧
    (value_ok (VBorshString n) ∧ value_ok (VBorshString s) ∧ value_ok (VBorshString u)) ∧
    bs = valueBytes (VBorshString n) ++ valueBytes (VBorshString s) ++ valueBytes (VBorshString u)).
Proof.
  eapply parses_rest with (P := λ b bs, ∃ n s u, b = InitializeMetadata n s u ∧ _ ∧ _); [|by intros ? ? ?; eauto].
  unfold decodeMetadata. step_parses. intros Hu Hs Hn. exists x, x0, x1. rewrite app_nil_r. by split_and!.
Qed.

Lemma runDecoder_fresh {F A} (m : GoM Decoder F A) (wrap : recorded → F) (P : A → Prop) data :
  wp m (λ x d', d_err d' = None → P x) (λ _ _, True) (NewDecoder data) →
  match runDecoder (x ← m; _ ← checkErr wrap; mret x) data with Ok x => P x | Err _ => True | Panic => False end.
Proof.
  intros H. assert (Hw : wp (x ← m; _ ← checkErr wrap; mret x) (λ x _, P x) (λ _ _, True) (NewDecoder data)).
  { apply wp_bind. eapply wp_mono; [exact H| |done]. intros x d' Hx. apply check_run. intros He. apply wp_ret. auto. }
  unfold wp in Hw. unfold runDecoder. by destruct ((x ← m; _ ← checkErr wrap; mret x) (NewDecoder data)) as [[x|e|] d].
Qed.

(** C39. Instructions of the Token-2022 program round-trip, with whatever may follow
    them. Every well-formed base instruction is decoded as the token program's under
    this program's address; every well-formed extension instruction, with its
    confidential payload, decodes to itself. For arbitrary bytes decoding never
    panics; a decoded instruction is well formed and its encoding is the bytes
    given, up to the places that absent keys of a fee config keep, which are
    written as zeros, and up to what may follow: nothing behind a payload that
    extends to the end, less than two bytes behind a list of types. *)
Theorem token2022_instruction_codec (accounts : AccountMetaSlice) :
  (∀ b rest, Forall value_ok (fields b) → bytes_ok rest →
     ∃ bs, Token.Data b = Ok bs ∧ DecodeInstruction accounts (bs ++ rest) = Ok (Base (mkToken accounts Token2022ProgramID b))) ∧
  (∀ b rest, wellFormed b → bytes_ok rest → extRest b rest →
     ∃ bs, Data b = Ok bs ∧ DecodeInstruction accounts (bs ++ rest) = Ok (Extended (mkExtension accounts b))) ∧
  (∀ data, bytes_ok data →
     match DecodeInstruction accounts data with
     | Ok (Base i) => ∃ b bs rest, i = mkToken accounts Token2022ProgramID b ∧ Token.Data b = Ok bs ∧ data = bs ++ rest
     | Ok (Extended i) => x_accounts i = accounts ∧ wellFormed (x_body i) ∧
         ∃ w rest, f_body w = x_body i ∧ extOk w ∧ extRest (x_body i) rest ∧
           data = extDisc (x_body i) :: extBytes w ++ rest ∧
           Data (x_body i) = Ok (extDisc (x_body i) :: extBytes (mkForm (x_body i) (zeros 32) (zeros 32)))
     | Err _ => True
     | Panic => False
     end).
Proof.
  split_and!.
  - intros b rest Hv Hr. destruct (token_roundtrip accounts ProgramID b rest Hv Hr) as [E1 E2]. exists (wireOf b). split; [done|].
    rewrite tokenWire_split in *. cbn [app] in *. unfold DecodeInstruction. rewrite decide_True.
    + by rewrite E2.
    + unfold InitializeMint2Instruction. by destruct b.
  - intros b rest Hw Hr Ht. exists (extDisc b :: extBytes (mkForm b (zeros 32) (zeros 32))). split.
    + by apply (extData (mkForm b (zeros 32) (zeros 32))).
    + by apply (ext_decode accounts (mkForm b (zeros 32) (zeros 32))).
  - intros data Hd. destruct data as [|typ data]; [done|]. unfold DecodeInstruction.
    assert (Hd0 := Hd). apply Forall_cons in Hd0 as [Htyp Hd'].
    case_decide as Hle.
    { pose proof (token_accepts accounts ProgramID (typ :: data) Hd) as H. destruct (DecodeInstructionWithProgramID _ _ _) as [i|e|]; [|done..].
      destruct H as (b & rest & -> & Hv & E). exists b, (wireOf b), rest. split_and!; [done|by apply tokenData_eq|done]. }
    assert (Hfin : ∀ w rest, extOk w → extRest (f_body w) rest → typ :: data = (extDisc (f_body w) :: extBytes w) ++ rest →
      wellFormed (f_body w) ∧ ∃ w' rest, f_body w' = f_body w ∧ extOk w' ∧ extRest (f_body w) rest ∧
        typ :: data = extDisc (f_body w) :: extBytes w' ++ rest ∧
        Data (f_body w) = Ok (extDisc (f_body w) :: extBytes (mkForm (f_body w) (zeros 32) (zeros 32)))).
    { intros w rest Hw Hrest E. apply extOk_wellFormed in Hw as Hwf. split; [done|]. exists w, rest. split_and!; try done.
      by apply (extData (mkForm (f_body w) (zeros 32) (zeros 32))). }
    case_decide as Hmeta.
    + assert (E : typ :: data = metadataDiscriminator ++ drop 8 (typ :: data)) by (rewrite <-Hmeta; by rewrite take_drop).
      assert (Hd8 : bytes_ok (drop 8 (typ :: data))) by (by apply Forall_drop).
      pose proof (runDecoder_fresh decodeMetadata errT22Metadata _ _ (parsesR_fresh _ _ _ metadata_parses Hd8)) as H.
      destruct (runDecoder _ (drop 8 (typ :: data))) as [b|e|]; [|done..]. destruct H as (bs & rest & E8 & n & s & u & -> & Hok & ->).
      split; [done|]. cbn [x_body]. apply (Hfin (mkForm (InitializeMetadata n s u) [] []) rest); [done|done|]. rewrite E, E8. reflexivity.
    + pose proof (runDecoder_fresh (decodeExtension typ) errT22Decode _ _ (decodeExtension_accepts typ data Hd')) as H.
      destruct (runDecoder _ data) as [b|e|]; [|done..]. destruct H as (bs & rest & -> & w & <- & <- & Hok & -> & Hrest).
      split; [done|]. cbn [x_body]. by apply (Hfin w rest).
Qed.

Lemma token2022_instruction_codec_example :
  DecodeInstruction [] [26; 5; 44; 1; 9; 0; 0; 0; 0; 0; 0; 0; 77] = Ok (Extended (mkExtension [] (SetTransferFee 300 9))).
Proof. vm_compute. reflexivity. Qed.

(** * States with extensions *)

Definition tlvOk (e : Extension) : Prop :=
  is_uint 2 (ext_Type e) ∧ ext_Type e ≠ ExtensionUninitialized ∧ is_uint 2 (len (ext_Data e)) ∧ bytes_ok (ext_Data e).
Definition tlvBytes (e : Extension) : bytes := le_bytes 2 (ext_Type e) ++ le_bytes 2 (len (ext_Data e)) ++ ext_Data e.

(** The list ends before a type that is zero or cut off. *)
Definition ends (rest : bytes) : Prop := len rest < 2 ∨ ∃ tl, rest = le_bytes 2 ExtensionUninitialized ++ tl.
Definition extensionsLayout (es : list Extension) (data : bytes) : Prop :=
  Forall tlvOk es ∧ ∃ rest, data = concat (tlvBytes <$> es) ++ rest ∧ ends rest.

(** An entry that is cut off: its length, or its data. *)
Definition cutOff (rest : bytes) : Prop :=
  ∃ t tl, is_uint 2 t ∧ t ≠ ExtensionUninitialized ∧ rest = le_bytes 2 t ++ tl ∧
    (len tl < 2 ∨ ∃ n tl', is_uint 2 n ∧ tl = le_bytes 2 n ++ tl' ∧ len tl' < n).

Lemma tlv_split data :
  bytes_ok data → ∃ es rest, data = concat (tlvBytes <$> es) ++ rest ∧ Forall tlvOk es ∧ bytes_ok rest ∧ (ends rest ∨ cutOff rest).
Proof.
  remember (length data) as n eqn:Hn. revert data Hn. induction n as [n IH] using lt_wf_ind. intros data -> Hd.
  destruct (decide (len data < 2)) as [H2|H2]; [exists [], data; split_and!; [done|constructor|done|by left; left]|].
  destruct (take_uint 2 data) as (t & tl & -> & Ht & Htl); [done|lia|].
  destruct (decide (t = ExtensionUninitialized)) as [->|Hz].
  { exists [], (le_bytes 2 ExtensionUninitialized ++ tl). split_and!; [done|constructor|done|]. left. right. by exists tl. }
  destruct (decide (len tl < 2)) as [H3|H3].
  { exists [], (le_bytes 2 t ++ tl). split_and!; [done|constructor|done|]. right. exists t, tl. by split_and!; [..|left]. }
  destruct (take_uint 2 tl) as (k & tl' & -> & Hk & Htl'); [done|lia|].
  destruct (decide (len tl' < k)) as [H4|H4].
  { exists [], (le_bytes 2 t ++ le_bytes 2 k ++ tl'). split_and!; [done|constructor|done|]. right. exists t, (le_bytes 2 k ++ tl').
    split_and!; [done..|]. right. by exists k, tl'. }
  destruct (split_at tl' k) as (x & tl2 & -> & Hx & Hxo & Htl2); [done|unfold is_uint in Hk; lia|].
  destruct (IH (length tl2)) with (data := tl2) as (es & rest & -> & Hes & Hr & Hend); [rewrite !length_app, !le_bytes_length; lia|done|done|].
  exists (mkExt t x :: es), rest. split_and!; [|constructor; [|done]|done|done].
  - rewrite fmap_cons. cbn [concat]. unfold tlvBytes. cbn [ext_Type ext_Data]. by rewrite Hx, <-!app_assoc.
  - unfold tlvOk. cbn [ext_Type ext_Data]. by rewrite Hx.
Qed.

Lemma readLE_over {E} n d :
  d_err d = None → Remaining d < Z.of_nat n → ∃ d', readLE (E:=E) n d = (Ok 0, d') ∧ d_err d' ≠ None.
Proof.
  intros He Hr. unfold readLE. rewrite run_get. unfold short. rewrite bool_decide_eq_true_2 by (right; exact Hr).
  eexists. split; [reflexivity|]. by rewrite He.
Qed.
Lemma ReadBytes_over {E} n d :
  0 ≤ n → (d_err d ≠ None ∨ Remaining d < n) → ∃ d', ReadBytes (E:=E) n d = (Ok [], d') ∧ d_err d' ≠ None.
Proof.
  intros Hn Hr. unfold ReadBytes. rewrite run_get. rewrite decide_True by (destruct Hr; [by left|by right; right]).
  rewrite decide_False by lia. unfold decFail. eexists. split; [reflexivity|]. cbn. by destruct (d_err d) eqn:E1; cbn; rewrite ?E1.
Qed.
Lemma checkErr_over {F B} (wrap : recorded → F) (f : unit → GoM Decoder F B) d :
  d_err d ≠ None → ∃ e d', (checkErr wrap ≫= f) d = (Err e, d').
Proof.
  intros He. destruct (d_err d) eqn:E; [|done]. unfold checkErr, mbind, gom_bind.
  unfold DecErr, mbind, gom_bind, get. cbn. rewrite E. cbn. eauto.
Qed.

Lemma extensionsLoop_end pre rest fuel :
  bytes_ok pre → bytes_ok rest → ends rest → (0 < fuel)%nat → (extensionsLoop fuel (at_ (pre ++ rest) (len pre))).1 = Ok [].
Proof.
  intros Hp Hr He Hf. destruct fuel as [|fuel]; [lia|]. cbn [extensionsLoop]. rewrite run_get.
  pose proof (remaining_at pre [] rest) as Hrem. cbn [app] in Hrem. rewrite Hrem, len_nil, Z.add_0_l.
  destruct He as [Hl|(tl & ->)]; [by rewrite decide_False by lia|].
  rewrite decide_True by (rewrite len_app, len_le_bytes; pose_lens; lia). apply Forall_app in Hr as [_ Hr].
  destruct (codec_reads (Codec := codec_uint16 (E := t22_err)) ExtensionUninitialized ltac:(done)) as [_ Hread].
  erewrite run_bind by (by apply Hread). rewrite check_at. by rewrite decide_True.
Qed.

Lemma extensionsLoop_cut pre rest fuel :
  bytes_ok pre → bytes_ok rest → cutOff rest → (0 < fuel)%nat →
  ∃ e, (extensionsLoop fuel (at_ (pre ++ rest) (len pre))).1 = Err e.
Proof.
  intros Hp Hr (t & tl & Ht & Hz & -> & Hcut) Hf. destruct fuel as [|fuel]; [lia|]. cbn [extensionsLoop]. rewrite run_get.
  pose proof (remaining_at pre [] (le_bytes 2 t ++ tl)) as Hrem. cbn [app] in Hrem. rewrite Hrem, len_nil, Z.add_0_l. clear Hrem.
  rewrite decide_True by (rewrite len_app, len_le_bytes; pose_lens; lia). apply Forall_app in Hr as [Ht2 Hr].
  destruct (codec_reads (Codec := codec_uint16 (E := t22_err)) t Ht) as [_ Hread].
  erewrite run_bind by (by apply Hread). rewrite check_at. rewrite decide_False by done.
  set (d := at_ _ _). assert (Hd : d_err d = None ∧ Remaining d = len tl).
  { split; [done|]. unfold d, Remaining. cbn [d_data d_pos at_]. rewrite !len_app. lia. }
  destruct Hcut as [Hl|(n & tl' & Hn & -> & Hl)].
  - clearbody d. destruct (readLE_over (E := t22_err) 2 d) as (d1 & E1 & He1); [apply Hd|lia|]. change (readLE 2) with (ReadUint16 (E := t22_err)) in E1. rewrite (run_bind _ _ _ _ _ E1).
    destruct (ReadBytes_over (E := t22_err) 0 d1) as (d2 & E2 & He2); [lia|by left|]. rewrite (run_bind _ _ _ _ _ E2).
    match goal with |- context [(_ ≫= ?f) d2] => destruct (checkErr_over (errExtensionData t) f d2 He2) as (e & d3 & ->) end. by exists e.
  - apply Forall_app in Hr as [Hn2 Hr].
    destruct (codec_reads (Codec := codec_uint16 (E := t22_err)) n Hn) as [_ Hread2].
    specialize (Hread2 (pre ++ le_bytes 2 t) tl' ltac:(by apply Forall_app_2) Hr). rewrite <-app_assoc, len_app in Hread2.
    unfold d. erewrite run_bind by exact Hread2.
    set (d1 := at_ _ _). assert (Hd1 : Remaining d1 < n).
    { unfold d1, Remaining. cbn [d_data d_pos at_]. rewrite !len_app. lia. }
    destruct (ReadBytes_over (E := t22_err) n d1) as (d2 & E2 & He2); [unfold is_uint in Hn; lia|by right|].
    rewrite (run_bind _ _ _ _ _ E2). match goal with |- context [(_ ≫= ?f) d2] => destruct (checkErr_over (errExtensionData t) f d2 He2) as (e & d3 & ->) end. by exists e.
Qed.

Lemma extensionsLoop_step pre e rest fuel :
  bytes_ok pre → bytes_ok rest → tlvOk e →
  extensionsLoop (S fuel) (at_ (pre ++ tlvBytes e ++ rest) (len pre))
  = (extensions ← extensionsLoop fuel; mret (e :: extensions)) (at_ ((pre ++ tlvBytes e) ++ rest) (len (pre ++ tlvBytes e))).
Proof.
  intros Hp Hr (Ht & Hz & Hl & Hd). destruct e as [t x]. cbn [ext_Type ext_Data] in *. cbn [extensionsLoop]. rewrite run_get, remaining_at.
  unfold tlvBytes. cbn [ext_Type ext_Data].
  rewrite decide_True by (rewrite !len_app, !len_le_bytes; pose_lens; lia). rewrite <-!app_assoc.
  destruct (codec_reads (Codec := codec_uint16 (E := t22_err)) t Ht) as [Hb1 Hread].
  destruct (codec_reads (Codec := codec_uint16 (E := t22_err)) (len x) Hl) as [Hb2 Hread2].
  assert (Hxr : bytes_ok (x ++ rest)) by (by apply Forall_app_2).
  assert (Hlxr : bytes_ok (le_bytes 2 (len x) ++ x ++ rest)) by (apply Forall_app_2; [exact Hb2|exact Hxr]).
  rewrite (run_bind _ _ _ _ _ (Hread pre _ Hp Hlxr)). rewrite check_at. rewrite decide_False by done.
  specialize (Hread2 (pre ++ le_bytes 2 t) (x ++ rest) ltac:(by apply Forall_app_2) Hxr).
  rewrite <-app_assoc, len_app in Hread2. rewrite (run_bind _ _ _ _ _ Hread2).
  pose proof (codec_bytes_run (E := t22_err) (pre ++ le_bytes 2 t ++ le_bytes 2 (len x)) x rest) as Hread3.
  rewrite !len_app, <-!app_assoc, Z.add_assoc in Hread3. rewrite (run_bind _ _ _ _ _ Hread3), check_at.
  by rewrite !len_app, !Z.add_assoc.
Qed.

Lemma tlvBytes_ok e es : tlvOk e → Forall tlvOk es → bytes_ok (tlvBytes e) ∧ bytes_ok (concat (tlvBytes <$> es)).
Proof.
  assert (H : ∀ e, tlvOk e → bytes_ok (tlvBytes e)).
  { intros [t x] (_ & _ & _ & Hx). unfold tlvBytes. apply Forall_app_2; [apply le_bytes_ok|]. apply Forall_app_2; [apply le_bytes_ok|done]. }
  intros He Hes. split; [by apply H|]. induction Hes; [constructor|]. rewrite fmap_cons. apply Forall_app_2; auto.
Qed.

(** The loop over a list of entries. *)
Lemma extensionsLoop_run es pre rest fuel :
  bytes_ok pre → bytes_ok rest → Forall tlvOk es → (length es < fuel)%nat →
  ∃ pre' fuel', bytes_ok pre' ∧ (0 < fuel')%nat ∧
    (extensionsLoop fuel (at_ (pre ++ concat (tlvBytes <$> es) ++ rest) (len pre))).1
    = (es' ← (extensionsLoop fuel' (at_ (pre' ++ rest) (len pre'))).1; Ok (es ++ es')).
Proof.
  intros Hp Hr Hes. revert pre fuel Hp. induction Hes as [|e es He Hes IH]; intros pre fuel Hp Hf.
  - exists pre, fuel. split_and!; [done|lia|]. cbn [fmap list_fmap concat app].
    by destruct (extensionsLoop _ _) as [[x|x|] d].
  - destruct fuel as [|fuel]; [lia|]. rewrite fmap_cons. cbn [concat]. rewrite <-(app_assoc (tlvBytes e)).
    destruct (tlvBytes_ok e es He Hes) as [Heb Htl].
    rewrite extensionsLoop_step; [|done|by apply Forall_app_2|done].
    destruct (IH (pre ++ tlvBytes e) fuel) as (pre' & fuel' & Hp' & Hf' & E); [by apply Forall_app_2|cbn [length] in Hf; lia|].
    exists pre', fuel'. split_and!; [done..|]. unfold mbind at 1, gom_bind. destruct (extensionsLoop fuel _) as [[x|x|] d] eqn:E1;
      cbn [fst] in E |- *; destruct (extensionsLoop fuel' _) as [[y|y|] d2]; cbn [mbind outcome_bind fst] in E |- *; simplify_eq; done.
Qed.

Lemma tlv_count es rest : Forall tlvOk es → (length es ≤ length (concat (tlvBytes <$> es) ++ rest))%nat.
Proof.
  induction 1 as [|e es He Hes IH]; [cbn; lia|]. rewrite fmap_cons. cbn [concat length].
  unfold tlvBytes at 1. rewrite !length_app, !le_bytes_length in *. lia.
Qed.

Lemma decodeExtensions_run es rest :
  bytes_ok rest → Forall tlvOk es →
  ∃ pre fuel, bytes_ok pre ∧ (0 < fuel)%nat ∧
    decodeExtensions (concat (tlvBytes <$> es) ++ rest)
    = (es' ← (extensionsLoop fuel (at_ (pre ++ rest) (len pre))).1; Ok (es ++ es')).
Proof. intros Hr Hes. apply (extensionsLoop_run es [] rest); [constructor|done..|]. pose proof (tlv_count es rest Hes). lia. Qed.

Lemma decodeExtensions_layout data :
  bytes_ok data → (∀ es, decodeExtensions data = Ok es ↔ extensionsLayout es data) ∧ decodeExtensions data ≠ Panic.
Proof.
  assert (Hok : ∀ es data, bytes_ok data → extensionsLayout es data → decodeExtensions data = Ok es).
  { clear. intros es data Hd (Hes & rest & -> & He). apply Forall_app in Hd as [_ Hr].
    destruct (decodeExtensions_run es rest Hr Hes) as (pre & fuel & Hp & Hf & ->).
    rewrite extensionsLoop_end by done. cbn. by rewrite app_nil_r. }
  intros Hd. destruct (tlv_split data Hd) as (es & rest & -> & Hes & Hr & [He|Hc]).
  - assert (Hl : extensionsLayout es (concat (tlvBytes <$> es) ++ rest)) by (split; [done|]; by exists rest).
    rewrite (Hok _ _ Hd Hl). split; [|done]. intros es'. split; [by intros [= <-]|]. intros Hl'.
    by rewrite <-(Hok _ _ Hd Hl), (Hok _ _ Hd Hl').
  - destruct (decodeExtensions_run es rest Hr Hes) as (pre & fuel & Hp & Hf & Hrun).
    destruct (extensionsLoop_cut pre rest fuel Hp Hr Hc Hf) as (e & Ee). rewrite Ee in Hrun. cbn in Hrun.
    split; [|by rewrite Hrun]. intros es'. split; [by rewrite Hrun|]. intros Hl'. by rewrite (Hok _ _ Hd Hl') in Hrun.
Qed.

(** A state of [size] bytes alone, or with a list of extensions behind the account
    type, whose offset [AccountSize] is the same for mints and accounts. *)
Definition stateLayout {A} (base : A → bytes → Prop) (size : Z) (x : A) (es : Extensions) (data : bytes) : Prop :=
  base x (take (Z.to_nat size) data) ∧
  (len data = size ∧ es = [] ∨ len data ≠ size ∧ AccountSize + 1 ≤ len data ∧ extensionsLayout es (drop (Z.to_nat (AccountSize + 1)) data)).

Section states.
Context {A B : Type} (dec : bytes → outcome token_err A) (base : A → bytes → Prop) (mk : A → Extensions → B) (size : Z).
Hypothesis size_range : 0 ≤ size ≤ AccountSize.
Hypothesis dec_layout : ∀ data, bytes_ok data → (∀ x, dec data = Ok x ↔ base x data) ∧ dec data ≠ Panic.
Hypothesis mk_inj : Inj2 (=) (=) (=) mk.

Definition decodeExtended (data : bytes) : outcome t22_err B :=
  if decide (len data ≠ size ∧ len data < AccountSize + 1) then Err (errToken (ErrInvalidAccountSize (len data))) else
  head ← slice_to data size;
  x ← wrap_err errToken (dec head);
  if decide (len data = size) then Ok (mk x []) else
  tail ← slice_from data (AccountSize + 1);
  extensions ← decodeExtensions tail;
  Ok (mk x extensions).

Lemma decodeExtended_layout data :
  bytes_ok data → (∀ x es, decodeExtended data = Ok (mk x es) ↔ stateLayout base size x es data) ∧ decodeExtended data ≠ Panic.
Proof using dec_layout mk_inj size_range.
  intros Hd. unfold decodeExtended, stateLayout. change AccountSize with 165 in *. case_decide as Hlen.
  { split; [|done]. intros x es. split; [done|]. intros (_ & [[? _]|(? & ? & _)]); lia. }
  assert (Hl : 0 ≤ size ≤ len data) by lia.
  unfold slice_to. rewrite decide_True by done. cbn [mbind outcome_bind].
  destruct (dec_layout (take (Z.to_nat size) data)) as [Hb Hnp]; [by apply Forall_take|].
  destruct (dec (take (Z.to_nat size) data)) as [x|e|] eqn:Edec; [|split; [|done]|done]; cbn [wrap_err mbind outcome_bind].
  2: { intros x es. split; [done|]. by intros [Hy%Hb _]. }
  assert (Hx : base x (take (Z.to_nat size) data)) by (by apply Hb).
  assert (Huniq : ∀ y, base y (take (Z.to_nat size) data) → y = x) by (intros y Hy; apply Hb in Hy; by simplify_eq).
  case_decide as He.
  { split; [|done]. intros y es. split.
    - intros [= [<- <-]%(inj2 mk)]. auto.
    - intros [->%Huniq [[_ ->]|[? _]]]; done. }
  unfold slice_from. rewrite decide_True by lia. cbn [mbind outcome_bind].
  destruct (decodeExtensions_layout (drop (Z.to_nat (165 + 1)) data)) as [Hes Hnp2]; [by apply Forall_drop|].
  destruct (decodeExtensions _) as [es|e|] eqn:Eext; [|split; [|done]|done]; cbn [mbind outcome_bind].
  2: { intros y es. split; [done|]. intros [_ [[? _]|(_ & _ & Hy%Hes)]]; done. }
  split; [|done]. intros y es'. split.
  - intros [= [<- <-]%(inj2 mk)]. split; [done|]. right. split_and!; [done|lia|]. by apply Hes.
  - intros [->%Huniq [[? _]|(_ & _ & Hy%Hes)]]; [done|]. by simplify_eq.
Qed.
End states.

#[export] Instance mint_inj : Inj2 (=) (=) (=) mkMint2022.
Proof. by intros ???? [= -> ->]. Qed.
#[export] Instance account_inj : Inj2 (=) (=) (=) mkAccount2022.
Proof. by intros ???? [= -> ->]. Qed.

Lemma Find_first es typ d :
  Find es typ = Some d ↔ ∃ before after, es = before ++ mkExt typ d :: after ∧ Forall (λ e, ext_Type e ≠ typ) before.
Proof.
  induction es as [|[t x] es IH]; cbn [Find ext_Type ext_Data].
  { split; [done|]. by intros ([|] & ? & ? & _). }
  case_decide as Ht; subst.
  - split; [intros [= ->]; exists [], es; by split; [|constructor]|]. intros ([|e before] & after & E & Hb); injection E; [by intros _ ->|].
    intros _ <-. by apply Forall_cons in Hb as [Hb _].
  - rewrite IH. split.
    + intros (before & after & -> & Hb). exists (mkExt t x :: before), after. split; [done|]. by constructor.
    + intros ([|e before] & after & E & Hb); injection E; [by intros _ _ <-|]. intros -> <-. exists before, after.
      apply Forall_cons in Hb as [_ Hb]. done.
Qed.

(** C40. Token-2022 mints and accounts decode exactly from their layouts: the base
    state of the token program alone, or behind it the account type at the offset
    that mints and accounts share and a list of extensions, each a type that is
    not zero, a length and that many bytes, which ends at a zero type or with
    less than two bytes left. Decoding never panics, in particular on an entry
    that is cut off, which is an error. An extension is looked up by the first
    entry of its type. *)
Theorem token2022_state (data : bytes) :
  bytes_ok data →
  (∀ m es, DecodeMint data = Ok (mkMint2022 m es) ↔ stateLayout Token.mintLayout MintSize m es data) ∧
  (∀ x es, DecodeAccount data = Ok (mkAccount2022 x es) ↔ stateLayout Token.accountLayout AccountSize x es data) ∧
  (∀ es, decodeExtensions data = Ok es ↔ extensionsLayout es data) ∧
  (cutOff data → ∃ e, decodeExtensions data = Err e) ∧
  (∀ es typ d, Find es typ = Some d ↔ ∃ before after, es = before ++ mkExt typ d :: after ∧ Forall (λ e, ext_Type e ≠ typ) before) ∧
  DecodeMint data ≠ Panic ∧ DecodeAccount data ≠ Panic ∧ decodeExtensions data ≠ Panic.
Proof.
  intros Hd.
  destruct (decodeExtended_layout Token.DecodeMint Token.mintLayout mkMint2022 MintSize) with (data := data) as [Hm Hm'];
    [done|intros bs Hbs; destruct (token_state_layouts bs Hbs) as (? & _ & _ & ? & _); by split|apply _|done|].
  destruct (decodeExtended_layout Token.DecodeAccount Token.accountLayout mkAccount2022 AccountSize) with (data := data) as [Ha Ha'];
    [done|intros bs Hbs; destruct (token_state_layouts bs Hbs) as (_ & ? & _ & _ & ? & _); by split|apply _|done|].
  destruct (decodeExtensions_layout data Hd) as [He He'].
  split_and!; [exact Hm|exact Ha|exact He| |by apply Find_first|exact Hm'|exact Ha'|exact He'].
  intros Hc. destruct (decodeExtensions_run [] data Hd) as (pre & fuel & Hp & Hf & E); [constructor|].
  destruct (extensionsLoop_cut pre data fuel Hp Hd Hc Hf) as (e & Ee). exists e. cbn [fmap list_fmap concat app] in E.
  by rewrite E, Ee.
Qed.

Lemma token2022_state_witness :
  bytes_ok [1; 0; 2; 0; 7; 8; 14; 0; 0; 0; 0; 0; 5] ∧
  decodeExtensions [1; 0; 2; 0; 7; 8; 14; 0; 0; 0; 0; 0; 5] = Ok [mkExt 1 [7; 8]; mkExt 14 []] ∧
  Find [mkExt 1 [7; 8]; mkExt 14 []] 14 = Some [] ∧
  ∃ e, decodeExtensions [1; 0; 2; 0; 7] = Err e.
Proof.
  assert (Hd : bytes_ok [1; 0; 2; 0; 7; 8; 14; 0; 0; 0; 0; 0; 5]) by (apply (bool_decide_unpack _); vm_compute; exact I).
  destruct (token2022_state _ Hd) as (_ & _ & He & _ & Hf & _). split_and!; [done| | |vm_compute; eauto].
  - apply He. split.
    + repeat constructor; try done; vm_compute; done.
    + exists [0; 0; 5]. split; [done|]. right. by exists [5].
  - apply Hf. exists [mkExt 1 [7; 8]], []. split; [done|]. by repeat constructor.
Defined.
