(* ===== verification/Cache.v ===== *)
(** Cache: the client's account and chain-head cache (rpc/cache.go) and the
    methods that go through it (GetAccountInfo, GetMultipleAccounts, GetSlot,
    GetBlockHeight, GetLatestBlockhash, IsBlockhashValid of
    rpc/client_methods.go). The clock is an argument of every operation; the
    JSON-RPC exchange is a [Network], and what other goroutines do to the cache
    while a request is in flight is a list of operations. *)
From Stdlib Require Import ZArith Lia.
From stdpp Require Import base numbers strings gmap list.
From S2P Require Import Prelude Keys.

Open Scope Z_scope.

(** * Data *)

Abbreviation CommitmentType := string (only parsing).
Definition CommitmentFinalized : CommitmentType := "finalized".
Definition CommitmentConfirmed : CommitmentType := "confirmed".
Definition CommitmentProcessed : CommitmentType := "processed".

(** Durations in nanoseconds. *)
Definition DefaultCacheFreshFor : Z := 800000000.
Definition DefaultCacheTTL : Z := 3600000000000.
Definition DefaultCacheJanitorInterval : Z := 300000000000.
Definition DefaultCacheShards : Z := 256.
Definition DefaultCacheHeadFreshFor : Z := 2000000000.

Record CacheOptions := mkCacheOptions {
  o_FreshFor : Z;
  o_TTL : Z;
  o_JanitorInterval : Z;
  o_Shards : Z;
  o_Commitment : CommitmentType;
  o_HeadFreshFor : Z;
}.

Record headState := mkHeadState {
  h_slot : Z;
  slotAt : Z;
  blockHeight : Z;
  blockHeightAt : Z;
  blockhash : Hash;
  lastValidBlockHeight : Z;
  blockhashSlot : Z;
  blockhashAt : Z;
}.

Definition zeroHead : headState := mkHeadState 0 0 0 0 zeroKey 0 0 0.

Record LatestBlockhash := mkLatestBlockhash { lb_slot : Z; lb_hash : Hash; lb_lastValid : Z }.

Section cache.
(** [Account] values are shared by pointer; [nil] is [None]. *)
Context {Account : Type}.

Record cacheEntry := mkCacheEntry {
  e_data : option Account;
  e_slot : Z;
  streamed : bool;
  immutable : bool;
  cachedAt : Z;
  lastRead : Z;
}.

(** [janitorStop] is [None] without a janitor, else whether it was closed. *)
Record accountCache := mkAccountCache {
  shards : list (gmap PublicKey cacheEntry);
  mask : Z;
  freshFor : Z;
  headFreshFor : Z;
  ttl : Z;
  commitment : CommitmentType;
  head : list headState;
  hits : Z;
  misses : Z;
  janitorStop : option bool;
}.

Definition with_shards (s : list (gmap PublicKey cacheEntry)) (ac : accountCache) : accountCache :=
  mkAccountCache s (mask ac) (freshFor ac) (headFreshFor ac) (ttl ac) (commitment ac) (head ac)
    (hits ac) (misses ac) (janitorStop ac).
Definition with_head (h : list headState) (ac : accountCache) : accountCache :=
  mkAccountCache (shards ac) (mask ac) (freshFor ac) (headFreshFor ac) (ttl ac) (commitment ac) h
    (hits ac) (misses ac) (janitorStop ac).
Definition with_counters (h m : Z) (ac : accountCache) : accountCache :=
  mkAccountCache (shards ac) (mask ac) (freshFor ac) (headFreshFor ac) (ttl ac) (commitment ac) (head ac)
    h m (janitorStop ac).

(** * Construction *)

(** [n := 1; for n < shards { n <<= 1 }]: 62 rounds reach the largest power of
    two of an [int]. *)
Fixpoint roundUp (fuel : nat) (n shards : Z) : Z :=
  match fuel with
  | O => n
  | S fuel' => if decide (n < shards) then roundUp fuel' (Z.shiftl n 1) shards else n
  end.

Definition newAccountCache (opts : option CacheOptions) : accountCache :=
  let freshFor := match opts with Some o => if decide (0 < o_FreshFor o) then o_FreshFor o else DefaultCacheFreshFor
                  | None => DefaultCacheFreshFor end in
  let ttl := match opts with Some o => if decide (0 < o_TTL o) then o_TTL o else DefaultCacheTTL
             | None => DefaultCacheTTL end in
  let janitor := match opts with Some o => if decide (o_JanitorInterval o ≠ 0) then o_JanitorInterval o
                   else DefaultCacheJanitorInterval | None => DefaultCacheJanitorInterval end in
  let shards := match opts with Some o => if decide (0 < o_Shards o) then o_Shards o else DefaultCacheShards
                | None => DefaultCacheShards end in
  let commitment := match opts with Some o => if decide (o_Commitment o ≠ ""%string) then o_Commitment o
                      else CommitmentProcessed | None => CommitmentProcessed end in
  let headFreshFor := match opts with Some o => if decide (0 < o_HeadFreshFor o) then o_HeadFreshFor o
                        else DefaultCacheHeadFreshFor | None => DefaultCacheHeadFreshFor end in
  let n := roundUp 62 1 shards in
  mkAccountCache (replicate (Z.to_nat n) ∅) (n - 1) freshFor headFreshFor ttl commitment
    (replicate 3 zeroHead) 0 0 (if decide (0 < janitor) then Some false else None).

(** [stop] closes the channel once. *)
Definition stop (ac : accountCache) : accountCache :=
  mkAccountCache (shards ac) (mask ac) (freshFor ac) (headFreshFor ac) (ttl ac) (commitment ac) (head ac)
    (hits ac) (misses ac) (match janitorStop ac with Some _ => Some true | None => None end).

(** * Accounts *)

Definition fresh (e : cacheEntry) (now freshFor : Z) : bool :=
  streamed e || immutable e || bool_decide (i64 (now - cachedAt e) < freshFor).

(** The key's last eight bytes, little-endian, masked. *)
Definition shardIndex (mask : Z) (key : PublicKey) : Z := Z.land (le_val (drop 24 key)) mask.

Context {E : Type}.
Abbreviation M := (GoM accountCache E).

(** [&ac.shards[idx]]. *)
Definition shard (key : PublicKey) : M nat :=
  ac ← get;
  let i := shardIndex (mask ac) key in
  if decide (0 ≤ i < len (shards ac)) then mret (Z.to_nat i) else lift Panic.

Definition entryAt (i : nat) (key : PublicKey) (ac : accountCache) : option cacheEntry :=
  shards ac !! i ≫= lookup key.

Definition updateShard (i : nat) (f : gmap PublicKey cacheEntry → gmap PublicKey cacheEntry) : M unit :=
  modify (λ ac, with_shards (alter f i (shards ac)) ac).

Definition get_ (key : PublicKey) : M (option cacheEntry) :=
  i ← shard key; ac ← get; mret (entryAt i key ac).

Definition touch (now : Z) (e : cacheEntry) : cacheEntry :=
  mkCacheEntry (e_data e) (e_slot e) (streamed e) (immutable e) (cachedAt e) now.

(** A hit stores the read time through the entry's pointer. The lookup is one step: the
    code reads the entry's fields after it has released the shard's lock, so this is a
    lookup that no write to the same key overlaps. *)
Definition lookupAt (key : PublicKey) (now : Z) : M (option (option Account)) :=
  i ← shard key;
  ac ← get;
  match entryAt i key ac with
  | None => mret None
  | Some e =>
    if fresh e now (freshFor ac) then
      _ ← updateShard i (alter (touch now) key); mret (Some (e_data e))
    else mret None
  end.

Definition lookup_ (key : PublicKey) (now : Z) : M (option (option Account)) :=
  r ← lookupAt key now;
  _ ← modify (λ ac, match r with
              | Some _ => with_counters (u64 (hits ac + 1)) (misses ac) ac
              | None => with_counters (hits ac) (u64 (misses ac + 1)) ac
              end);
  mret r.

(** What a write leaves under a key. *)
Definition writeEntry (prev : option cacheEntry) (data : option Account) (slot : Z) (strm imm : bool) (now : Z)
    : cacheEntry :=
  match prev with
  | None => mkCacheEntry data slot strm imm now now
  | Some prev =>
    let '(data', slot') := if decide (e_slot prev ≤ slot) then (data, slot) else (e_data prev, e_slot prev) in
    mkCacheEntry data' slot' (streamed prev || strm) (immutable prev || imm) now (lastRead prev)
  end.

Definition set_ (key : PublicKey) (data : option Account) (slot : Z) (strm imm : bool) (now : Z) : M unit :=
  i ← shard key;
  updateShard i (λ s, <[key := writeEntry (s !! key) data slot strm imm now]> s).

Definition del (key : PublicKey) : M unit :=
  i ← shard key; updateShard i (delete key).

Definition cacheLen (ac : accountCache) : Z := foldl (λ total s, total + Z.of_nat (size s)) 0 (shards ac).

(** Entries last read before the cutoff go. *)
Definition recent (cutoff : Z) (kv : PublicKey * cacheEntry) : Prop := ¬ lastRead kv.2 < cutoff.

Definition tidy (ttl now : Z) : M unit :=
  if decide (ttl ≤ 0) then mret tt else
  let cutoff := i64 (now - ttl) in
  modify (λ ac, with_shards ((λ s, filter (recent cutoff) s) <$> shards ac) ac).

(** One tick of the janitor goroutine. *)
Definition janitorTick (now : Z) : M unit := ac ← get; tidy (ttl ac) now.

(** * Chain head *)

Definition cacheIndex (commitment : CommitmentType) : Z :=
  if decide (commitment = CommitmentProcessed) then 0
  else if decide (commitment = CommitmentConfirmed) then 1
  else if decide (commitment = CommitmentFinalized ∨ commitment = ""%string) then 2
  else -1.

Definition updateHead (i : Z) (f : headState → headState) : M unit :=
  modify (λ ac, with_head (alter f (Z.to_nat i) (head ac)) ac).

Definition storeSlot (commitment : CommitmentType) (slot now : Z) : M unit :=
  let i := cacheIndex commitment in
  if decide (i < 0) then mret tt else
  updateHead i (λ h,
    if decide (h_slot h ≤ slot) then
      mkHeadState slot now (blockHeight h) (blockHeightAt h) (blockhash h) (lastValidBlockHeight h)
        (blockhashSlot h) (blockhashAt h)
    else h).

Definition storeBlockHeight (commitment : CommitmentType) (height now : Z) : M unit :=
  let i := cacheIndex commitment in
  if decide (i < 0) then mret tt else
  updateHead i (λ h,
    if decide (blockHeight h ≤ height) then
      mkHeadState (h_slot h) (slotAt h) height now (blockhash h) (lastValidBlockHeight h)
        (blockhashSlot h) (blockhashAt h)
    else h).

Definition storeBlockhash (commitment : CommitmentType) (hash : Hash) (lastValid slot now : Z) : M unit :=
  let i := cacheIndex commitment in
  if decide (i < 0) then mret tt else
  updateHead i (λ h,
    if decide (blockhashSlot h ≤ slot) then
      mkHeadState (h_slot h) (slotAt h) (blockHeight h) (blockHeightAt h) hash lastValid slot now
    else h).

Definition countHit : M unit := modify (λ ac, with_counters (u64 (hits ac + 1)) (misses ac) ac).
Definition countMiss : M unit := modify (λ ac, with_counters (hits ac) (u64 (misses ac + 1)) ac).

Definition lookupSlot (commitment : CommitmentType) (now : Z) : M (option Z) :=
  let i := cacheIndex commitment in
  if decide (i < 0) then mret None else
  ac ← get;
  let cutoff := i64 (now - headFreshFor ac) in
  h ← lift (idx (head ac) i);
  if decide (slotAt h = 0 ∨ slotAt h < cutoff) then _ ← countMiss; mret None
  else _ ← countHit; mret (Some (h_slot h)).

Definition lookupBlockHeight (commitment : CommitmentType) (now : Z) : M (option Z) :=
  let i := cacheIndex commitment in
  if decide (i < 0) then mret None else
  ac ← get;
  let cutoff := i64 (now - headFreshFor ac) in
  h ← lift (idx (head ac) i);
  if decide (blockHeightAt h = 0 ∨ blockHeightAt h < cutoff) then _ ← countMiss; mret None
  else _ ← countHit; mret (Some (blockHeight h)).

Definition lookupBlockhash (commitment : CommitmentType) (now : Z) : M (option LatestBlockhash) :=
  let i := cacheIndex commitment in
  if decide (i < 0) then mret None else
  ac ← get;
  let cutoff := i64 (now - headFreshFor ac) in
  h ← lift (idx (head ac) i);
  if decide (blockhashAt h = 0 ∨ blockhashAt h < cutoff) then _ ← countMiss; mret None
  else _ ← countHit;
    mret (Some (mkLatestBlockhash (blockhashSlot h) (blockhash h) (lastValidBlockHeight h))).

End cache.

Arguments cacheEntry Account : clear implicits.
Arguments accountCache Account : clear implicits.

(** * Operations as data *)

(** The calls that other goroutines, the stream and the janitor make; each runs
    under the lock of the shard or head it touches, so it is one step. *)
Inductive cacheOp {Account : Type} :=
  | OpSet (key : PublicKey) (data : option Account) (slot : Z) (streamed immutable : bool)
  | OpDel (key : PublicKey)
  | OpTidy (ttl : Z)
  | OpJanitor
  | OpLookup (key : PublicKey)
  | OpStoreSlot (commitment : CommitmentType) (slot : Z)
  | OpStoreBlockHeight (commitment : CommitmentType) (height : Z)
  | OpStoreBlockhash (commitment : CommitmentType) (hash : Hash) (lastValid slot : Z).
Arguments cacheOp : clear implicits.

Section ops.
Context {Account E : Type}.
Abbreviation M := (GoM (accountCache Account) E).

Definition runOp (op : cacheOp Account) (now : Z) : M unit :=
  match op with
  | OpSet key data slot strm imm => set_ key data slot strm imm now
  | OpDel key => del key
  | OpTidy t => tidy t now
  | OpJanitor => janitorTick now
  | OpLookup key => _ ← lookup_ key now; mret tt
  | OpStoreSlot c slot => storeSlot c slot now
  | OpStoreBlockHeight c h => storeBlockHeight c h now
  | OpStoreBlockhash c hash lv slot => storeBlockhash c hash lv slot now
  end.

(** A schedule: operations with the clock at each. *)
Fixpoint runOps (ops : list (cacheOp Account * Z)) : M unit :=
  match ops with
  | [] => mret tt
  | (op, now) :: ops' => _ ← runOp op now; runOps ops'
  end.

End ops.

(** * The network *)

Inductive rpc_err := ErrNotFound | errCall (method : string) (code : Z).

(** [c.call]: the decoded result of a JSON-RPC exchange, or its error. *)
Class Network (Account : Type) := {
  net_getAccountInfo : PublicKey → CommitmentType → outcome rpc_err (Z * option Account);
  net_getMultipleAccounts : list PublicKey → CommitmentType → outcome rpc_err (Z * list (option Account));
  net_getSlot : CommitmentType → outcome rpc_err Z;
  net_getBlockHeight : CommitmentType → outcome rpc_err Z;
  net_getLatestBlockhash : CommitmentType → outcome rpc_err (Z * option (Hash * Z));
  net_isBlockhashValid : Hash → CommitmentType → outcome rpc_err (Z * bool);
}.

Section client.
Context {Account : Type} `{net : Network Account}.
Abbreviation Cache := (accountCache Account) (only parsing).
Abbreviation M := (GoM Cache rpc_err).
Abbreviation Schedule := (list (cacheOp Account * Z)) (only parsing).

(** The result structs: the context slot and the value. *)
Definition GetAccountInfoWithOpts (account : PublicKey) (commitment : CommitmentType)
    : outcome rpc_err (Z * option Account) :=
  r ← net_getAccountInfo account commitment;
  match r.2 with
  | None => Err ErrNotFound
  | Some _ => Ok r
  end.

(** A miss fetches at the cache's commitment; [during] runs while the request
    is in flight, and the answer is stored at [later]. *)
Definition cachedGetAccountInfo (account : PublicKey) (imm : bool) (now : Z) (during : Schedule) (later : Z)
    : M (Z * option Account) :=
  hit ← lookup_ account now;
  match hit with
  | Some data => mret (0, data)
  | None =>
    ac ← get;
    _ ← runOps during;
    result ← lift (GetAccountInfoWithOpts account (commitment ac));
    _ ← set_ account result.2 result.1 false imm later;
    mret result
  end.

(** The first loop of [cachedGetMultipleAccounts]: results so far, the keys to
    fetch, the positions that wait for each, and the hits. *)
Record scanState := mkScan {
  sc_value : list (option Account);
  sc_fetch : list PublicKey;
  sc_positions : gmap PublicKey (list nat);
  sc_hits : Z;
}.

Fixpoint scanAccounts (i : nat) (accounts : list PublicKey) (now : Z) (st : scanState) : M scanState :=
  match accounts with
  | [] => mret st
  | key :: accounts' =>
    hit ← lookupAt key now;
    match hit with
    | Some data =>
      scanAccounts (S i) accounts' now
        (mkScan (<[i := data]> (sc_value st)) (sc_fetch st) (sc_positions st) (u64 (sc_hits st + 1)))
    | None =>
      let fetch := match sc_positions st !! key with
                   | Some _ => sc_fetch st | None => sc_fetch st ++ [key] end in
      let ps := default [] (sc_positions st !! key) ++ [i] in
      scanAccounts (S i) accounts' now
        (mkScan (sc_value st) fetch (<[key := ps]> (sc_positions st)) (sc_hits st))
    end
  end.

(** The second loop: [key := fetchKeys[i]] panics past the requested keys. *)
Fixpoint fillFetched (i : Z) (values : list (option Account)) (st : scanState) (slot later : Z)
    : M (list (option Account)) :=
  match values with
  | [] => mret (sc_value st)
  | value :: values' =>
    key ← lift (idx (sc_fetch st) i);
    let out := foldl (λ out p, <[p := value]> out) (sc_value st) (default [] (sc_positions st !! key)) in
    _ ← (match value with
         | None => mret tt
         | Some _ => set_ key value slot false false later
         end);
    fillFetched (i + 1) values' (mkScan out (sc_fetch st) (sc_positions st) (sc_hits st)) slot later
  end.

Definition cachedGetMultipleAccounts (accounts : list PublicKey) (now : Z) (during : Schedule) (later : Z)
    : M (Z * list (option Account)) :=
  st ← scanAccounts 0 accounts now (mkScan (replicate (length accounts) None) [] ∅ 0);
  _ ← modify (λ ac, with_counters (u64 (hits ac + sc_hits st)) (u64 (misses ac + len (sc_fetch st))) ac);
  if decide (len (sc_fetch st) = 0) then mret (0, sc_value st) else
  ac ← get;
  _ ← runOps during;
  fetched ← lift (net_getMultipleAccounts (sc_fetch st) (commitment ac));
  out ← fillFetched 0 fetched.2 st fetched.1 later;
  mret (fetched.1, out).

(** * The client's methods *)

(** [c.cache]: nil when the cache is disabled. A method loads the pointer once
    and works on that cache. *)
Abbreviation Client := (option Cache) (only parsing).

Definition withCache {A} (cached : M A) (uncached : outcome rpc_err A) : GoM Client rpc_err A := λ c,
  match c with
  | None => (uncached, None)
  | Some ac => let '(r, ac') := cached ac in (r, Some ac')
  end.

Definition EnableCacheWithOpts (opts : option CacheOptions) (c : Client) : Client := Some (newAccountCache opts).
Definition DisableCache (c : Client) : Client := None.

Definition GetAccountInfo (account : PublicKey) (now : Z) (during : Schedule) (later : Z) :=
  withCache (cachedGetAccountInfo account false now during later) (GetAccountInfoWithOpts account "").

Definition GetAccountInfoImmutable (account : PublicKey) (now : Z) (during : Schedule) (later : Z) :=
  withCache (cachedGetAccountInfo account true now during later)
    (GetAccountInfoWithOpts account CommitmentProcessed).

Definition GetMultipleAccounts (accounts : list PublicKey) (now : Z) (during : Schedule) (later : Z) :=
  withCache (cachedGetMultipleAccounts accounts now during later) (net_getMultipleAccounts accounts "").

Definition GetSlot (commitment : CommitmentType) (now : Z) (during : Schedule) (later : Z) : GoM Client rpc_err Z :=
  withCache
    (hit ← lookupSlot commitment now;
     match hit with
     | Some slot => mret slot
     | None =>
       _ ← runOps during;
       slot ← lift (net_getSlot commitment);
       _ ← storeSlot commitment slot later; mret slot
     end)
    (net_getSlot commitment).

Definition GetBlockHeight (commitment : CommitmentType) (now : Z) (during : Schedule) (later : Z)
    : GoM Client rpc_err Z :=
  withCache
    (hit ← lookupBlockHeight commitment now;
     match hit with
     | Some height => mret height
     | None =>
       _ ← runOps during;
       height ← lift (net_getBlockHeight commitment);
       _ ← storeBlockHeight commitment height later; mret height
     end)
    (net_getBlockHeight commitment).

Definition GetLatestBlockhash (commitment : CommitmentType) (now : Z) (during : Schedule) (later : Z)
    : GoM Client rpc_err (Z * option (Hash * Z)) :=
  withCache
    (hit ← lookupBlockhash commitment now;
     match hit with
     | Some r => mret (lb_slot r, Some (lb_hash r, lb_lastValid r))
     | None =>
       _ ← runOps during;
       r ← lift (net_getLatestBlockhash commitment);
       _ ← (match r.2 with
            | Some (hash, lastValid) => storeBlockhash commitment hash lastValid r.1 later
            | None => mret tt
            end);
       mret r
     end)
    (net_getLatestBlockhash commitment).

Definition IsBlockhashValid (hash : Hash) (commitment : CommitmentType) (now : Z)
    : GoM Client rpc_err (Z * bool) :=
  withCache
    (hit ← lookupBlockhash commitment now;
     match hit with
     | Some r => if decide (lb_hash r = hash) then mret (lb_slot r, true)
                 else lift (net_isBlockhashValid hash commitment)
     | None => lift (net_isBlockhashValid hash commitment)
     end)
    (net_isBlockhashValid hash commitment).

(** The public cache controls; each is a no-op while the cache is disabled. *)
Definition onCache (m : M unit) : GoM Client rpc_err unit := withCache m (Ok tt).

Definition CacheStore (account : PublicKey) (data : option Account) (slot now : Z) :=
  onCache (set_ account data slot false false now).
Definition CacheStoreImmutable (account : PublicKey) (data : option Account) (slot now : Z) :=
  onCache (set_ account data slot false true now).
Definition CacheStoreStreamed (account : PublicKey) (data : option Account) (slot now : Z) :=
  onCache (set_ account data slot true false now).
Definition CacheClear (account : PublicKey) := onCache (del account).
Definition CacheHas (account : PublicKey) : GoM Client rpc_err bool :=
  withCache (e ← get_ account; mret (bool_decide (is_Some e))) (Ok false).
Definition CacheTidy (t now : Z) := onCache (ac ← get; tidy (if decide (t ≤ 0) then ttl ac else t) now).
Definition CacheStats (c : Client) : Z * Z * Z :=
  match c with None => (0, 0, 0) | Some ac => (hits ac, misses ac, cacheLen ac) end.
Definition CacheStoreSlot (commitment : CommitmentType) (slot now : Z) := onCache (storeSlot commitment slot now).
Definition CacheStoreBlockHeight (commitment : CommitmentType) (height now : Z) :=
  onCache (storeBlockHeight commitment height now).
Definition CacheStoreLatestBlockhash (commitment : CommitmentType) (hash : Hash) (lastValid slot now : Z) :=
  onCache (storeBlockhash commitment hash lastValid slot now).

End client.
