(* ===== verification/CacheSpec.v ===== *)
(** CacheSpec: the sharded cache against a single map. The abstraction
    [contents] joins the shards; every operation acts on it as the one-map
    operation [specOp]. On top of that: the slot order of writes, freshness of
    what is served, and the batch lookup. *)
From Stdlib Require Import ZArith Lia.
From stdpp Require Import base numbers strings gmap list.
From S2P Require Import Prelude Keys Cache.

Open Scope Z_scope.

(** * Joining disjoint shards *)

Section join.
Context {K V : Type} `{Countable K}.
Implicit Types (ms : list (gmap K V)) (f : K → nat).

(** Each key lives only in the map number [f key]. *)
Definition routed f ms : Prop := ∀ i m k, ms !! i = Some m → is_Some (m !! k) → f k = i.

Lemma routed_tail f m ms : routed f (m :: ms) → routed (λ k, pred (f k)) ms.
Proof.
  intros Hr i m' k Hi Hk. rewrite (Hr (S i) m' k); [done|done|done].
Qed.

Lemma routed_other f m ms k : routed f (m :: ms) → f k ≠ 0%nat → m !! k = None.
Proof.
  intros Hr Hk. destruct (m !! k) eqn:E; [|done]. by rewrite (Hr 0%nat m k) in Hk.
Qed.

Lemma routed_later f m ms k : routed f (m :: ms) → f k = 0%nat → (⋃ ms) !! k = None.
Proof.
  intros Hr Hk. destruct ((⋃ ms) !! k) as [v|] eqn:E; [|done]. exfalso.
  assert (∃ i m', ms !! i = Some m' ∧ m' !! k = Some v) as (i & m' & Hi & Hm').
  { clear Hr. revert E. induction ms as [|m' ms IH]; cbn; intros E; [by rewrite lookup_empty in E|].
    apply lookup_union_Some_raw in E as [E|[_ E]]; [by exists 0%nat, m'|].
    destruct (IH E) as (i & m2 & ? & ?). by exists (S i), m2. }
  rewrite (Hr (S i) m' k) in Hk; [done..|]. by eexists.
Qed.

Lemma union_lookup f ms k : routed f ms → (⋃ ms) !! k = ms !! f k ≫= lookup k.
Proof.
  revert f. induction ms as [|m ms IH]; intros f Hr; [by cbn; rewrite lookup_empty|].
  cbn. destruct (f k) as [|n] eqn:Hf; cbn.
  - rewrite lookup_union, (routed_later f m ms k) by done. by destruct (m !! k).
  - rewrite lookup_union_r by (apply (routed_other f m ms k); [done|by rewrite Hf]).
    rewrite (IH (λ k, pred (f k))) by (by eapply routed_tail). by rewrite Hf.
Qed.

Lemma routed_disjoint f m ms : routed f (m :: ms) → m ##ₘ ⋃ ms.
Proof.
  intros Hr. apply map_disjoint_spec. intros k v v' Hm Hu.
  rewrite (routed_later f m ms k) in Hu; [done|done|]. apply (Hr 0%nat m k); [done|by eexists].
Qed.

Lemma union_size f ms n :
  routed f ms → foldl (λ t s, t + Z.of_nat (size s)) n ms = n + Z.of_nat (size (⋃ ms)).
Proof.
  revert f n. induction ms as [|m ms IH]; intros f n Hr; cbn; [rewrite map_size_empty; lia|].
  rewrite (IH (λ k, pred (f k))) by (by eapply routed_tail).
  rewrite map_size_disj_union by (by eapply routed_disjoint). lia.
Qed.

Lemma routed_alter f ms i g :
  routed f ms → (∀ m k, ms !! i = Some m → is_Some (g m !! k) → f k ≠ i → is_Some (m !! k)) →
  routed f (alter g i ms).
Proof.
  intros Hr Hg j m k Hj Hk. destruct (decide (i = j)) as [->|Hij].
  - rewrite list_lookup_alter_eq in Hj. apply fmap_Some in Hj as (m' & Hm' & ->).
    destruct (decide (f k = j)) as [|Hfk]; [done|]. by eapply Hr, Hg.
  - rewrite list_lookup_alter_ne in Hj by done. by eapply Hr.
Qed.

(** A change under one key of the shard that owns it is a change of the join. *)
Lemma union_alter f ms key g (m' : gmap K V) :
  routed f ms → (f key < length ms)%nat →
  (∀ m k, k ≠ key → g m !! k = m !! k) →
  m' !! key = (ms !! f key ≫= λ m, g m !! key) → (∀ k, k ≠ key → m' !! k = (⋃ ms) !! k) →
  routed f (alter g (f key) ms) ∧ ⋃ (alter g (f key) ms) = m'.
Proof.
  intros Hr Hlt Hg Hkey Hne.
  assert (routed f (alter g (f key) ms)) as Hr'.
  { apply routed_alter; [done|]. intros m k Hm Hk Hfk. rewrite Hg in Hk; [done|]. congruence. }
  split; [done|]. apply map_eq. intros k. rewrite (union_lookup f) by done.
  destruct (decide (k = key)) as [->|Hk].
  - rewrite Hkey, list_lookup_alter_eq. by destruct (ms !! f key).
  - rewrite Hne, (union_lookup f) by done. destruct (decide (f key = f k)) as [->|].
    + rewrite list_lookup_alter_eq. destruct (ms !! f k); cbn; [by apply Hg|done].
    + by rewrite list_lookup_alter_ne.
Qed.

Lemma routed_filter f ms (P : K * V → Prop) `{!∀ x, Decision (P x)} :
  routed f ms → routed f ((λ m, filter P m) <$> ms) ∧ ⋃ ((λ m, filter P m) <$> ms) = filter P (⋃ ms).
Proof.
  intros Hr. assert (routed f ((λ m, filter P m) <$> ms)) as Hr'.
  { intros i m k Hi [v Hv]. rewrite list_lookup_fmap in Hi. apply fmap_Some in Hi as (m' & Hm' & ->).
    apply map_lookup_filter_Some in Hv as [Hv _]. by eapply Hr. }
  split; [done|]. apply map_eq. intros k. rewrite (union_lookup f) by done.
  rewrite list_lookup_fmap, map_lookup_filter, (union_lookup f) by done.
  destruct (ms !! f k); cbn; [by rewrite map_lookup_filter|done].
Qed.

End join.

(** * Slot-ordered writes *)

Section order.
Context {P : Type}.
Abbreviation write := (Z * P)%type (only parsing).

(** The later of two writes: the higher slot, and on a tie the newer write. *)
Definition later (cur : option write) (w : write) : option write :=
  match cur with
  | Some c => if decide (c.1 ≤ w.1) then Some w else cur
  | None => Some w
  end.

Definition latest (cur : option write) (ws : list write) : option write := foldl later cur ws.

(** [latest] picks a write of maximal slot. *)
Lemma latest_max cur ws w :
  latest cur ws = Some w →
  (cur = Some w ∨ w ∈ ws) ∧ (∀ c, cur = Some c → c.1 ≤ w.1) ∧ ∀ x, x ∈ ws → x.1 ≤ w.1.
Proof.
  revert cur. induction ws as [|x ws IH]; intros cur Hl; cbn in Hl.
  - subst cur. split_and!; [by left|by intros ? [= ->]|set_solver].
  - apply IH in Hl as (Hin & Hc & Hx). unfold later in Hin, Hc.
    destruct cur as [c|].
    + case_decide as Hle.
      * specialize (Hc _ eq_refl). split_and!.
        -- right. destruct Hin as [[= <-]|]; set_solver.
        -- intros ? [= <-]. lia.
        -- set_solver.
      * specialize (Hc _ eq_refl). split_and!.
        -- set_solver.
        -- intros ? [= <-]. lia.
        -- intros y Hy. apply elem_of_cons in Hy as [->|]; [lia|auto].
    + specialize (Hc _ eq_refl). split_and!; [|done|set_solver].
      right. destruct Hin as [[= <-]|]; set_solver.
Qed.

Lemma latest_Some cur ws : cur ≠ None ∨ ws ≠ [] → is_Some (latest cur ws).
Proof.
  revert cur. induction ws as [|x ws IH]; intros cur H; cbn.
  - destruct H; [|done]. by destruct cur.
  - apply IH. left. unfold later. destruct cur; [by case_decide|done].
Qed.

(** With distinct slots the outcome does not depend on the order of arrival. *)
Lemma latest_perm cur ws ws' :
  ws ≡ₚ ws' → NoDup (option_list (fst <$> cur) ++ (fst <$> ws)) → latest cur ws = latest cur ws'.
Proof.
  intros Hp Hnd. destruct (decide (cur = None ∧ ws = [])) as [[-> ->]|Hne].
  { apply Permutation_nil in Hp as ->. done. }
  assert (cur ≠ None ∨ ws ≠ []) as Hs by (destruct cur, ws; naive_solver).
  destruct (latest_Some cur ws Hs) as [w Hw].
  destruct (latest_Some cur ws') as [w' Hw'].
  { destruct Hs as [?|Hs]; [by left|right]. intros ->. apply Hs. by apply Permutation_nil. }
  rewrite Hw, Hw'. f_equal.
  destruct (latest_max _ _ _ Hw) as (Hin & Hc & Hx). destruct (latest_max _ _ _ Hw') as (Hin' & Hc' & Hx').
  assert (w ∈ option_list cur ++ ws) as Hwi by (destruct Hin as [->|]; set_solver).
  assert (w' ∈ option_list cur ++ ws) as Hwi' by (destruct Hin' as [->|Hin']; [set_solver|rewrite <- Hp in Hin'; set_solver]).
  assert (w.1 = w'.1) as Heq.
  { apply Z.le_antisymm.
    - destruct Hin as [->|Hin]; [by apply Hc'|]. apply Hx'. by rewrite <- Hp.
    - destruct Hin' as [->|Hin']; [by apply Hc|]. apply Hx. by rewrite Hp. }
  replace (option_list (fst <$> cur) ++ (fst <$> ws)) with (fst <$> (option_list cur ++ ws)) in Hnd
    by (rewrite fmap_app; by destruct cur).
  clear -Hwi Hwi' Heq Hnd. induction (option_list cur ++ ws) as [|x l IH]; [set_solver|].
  rewrite fmap_cons, NoDup_cons in Hnd. destruct Hnd as [Hn Hnd].
  apply elem_of_cons in Hwi as [->|Hwi], Hwi' as [->|Hwi']; [done| | |by apply IH].
  - exfalso. apply Hn. rewrite Heq. by apply list_elem_of_fmap_2.
  - exfalso. apply Hn. rewrite <- Heq. by apply list_elem_of_fmap_2.
Qed.

End order.

(** * The invariant *)

Section spec.
Context {Account E : Type}.
Implicit Types ac : accountCache Account.
Abbreviation M := (GoM (accountCache Account) E).

Definition shardOf ac (key : PublicKey) : nat := Z.to_nat (shardIndex (mask ac) key).

(** The shard count is a power of two, the mask selects among them, every key
    is in its own shard, and the head has its three levels. *)
Record cache_inv ac : Prop := {
  inv_pow2 : ∃ k, 0 ≤ k ∧ len (shards ac) = 2 ^ k ∧ mask ac = 2 ^ k - 1;
  inv_routed : routed (shardOf ac) (shards ac);
  inv_head : length (head ac) = 3%nat;
}.

(** The cache as one map. *)
Definition contents ac : gmap PublicKey (cacheEntry Account) := ⋃ shards ac.

Lemma shard_in_range ac key : cache_inv ac → 0 ≤ shardIndex (mask ac) key < len (shards ac).
Proof.
  intros [(k & Hk & -> & ->) _ _]. unfold shardIndex. replace (2 ^ k - 1) with (Z.ones k) by (rewrite Z.ones_equiv; lia).
  rewrite Z.land_ones by done. apply Z.mod_pos_bound. by apply Z.pow_pos_nonneg.
Qed.

Lemma shardOf_lt ac key : cache_inv ac → (shardOf ac key < length (shards ac))%nat.
Proof. intros Hi. pose proof (shard_in_range ac key Hi). unfold shardOf, len in *. lia. Qed.

(** The index never panics. *)
Lemma shard_run {B} ac key (f : nat → M B) : cache_inv ac → (shard key ≫= f) ac = f (shardOf ac key) ac.
Proof.
  intros Hi. unfold shard. rewrite (run_bind _ _ _ (shardOf ac key) ac); [done|].
  rewrite run_get. cbv zeta. by rewrite decide_True by (by apply shard_in_range).
Qed.

Lemma entryAt_contents ac key : cache_inv ac → entryAt (shardOf ac key) key ac = contents ac !! key.
Proof. intros Hi. unfold contents. symmetry. apply (union_lookup (shardOf ac)), Hi. Qed.

Lemma cacheLen_contents ac : cache_inv ac → cacheLen ac = Z.of_nat (size (contents ac)).
Proof. intros Hi. unfold cacheLen. rewrite (union_size (shardOf ac)) by apply Hi. done. Qed.

Lemma get_run ac key : cache_inv ac → get_ (E:=E) key ac = (Ok (contents ac !! key), ac).
Proof. intros Hi. unfold get_. by rewrite shard_run, run_get, entryAt_contents. Qed.

(** * The one-map specification *)

(** What a step does to the joined map; head updates leave it alone. *)
Definition specOp (fresh_for idle : Z) (op : cacheOp Account) (now : Z)
    (m : gmap PublicKey (cacheEntry Account)) : gmap PublicKey (cacheEntry Account) :=
  match op with
  | OpSet key data slot strm imm => <[key := writeEntry (m !! key) data slot strm imm now]> m
  | OpDel key => delete key m
  | OpTidy t => if decide (t ≤ 0) then m else filter (recent (i64 (now - t))) m
  | OpJanitor => if decide (idle ≤ 0) then m else filter (recent (i64 (now - idle))) m
  | OpLookup key =>
    match m !! key with
    | Some e => if fresh e now fresh_for then alter (touch now) key m else m
    | None => m
    end
  | _ => m
  end.

(** The settings of a cache, which no operation changes. *)
Definition settings ac : Z * Z * Z * string * option bool :=
  (freshFor ac, headFreshFor ac, ttl ac, commitment ac, janitorStop ac).

(** A step refines the map operation [g]. *)
Definition refines_to ac
    (g : gmap PublicKey (cacheEntry Account) → gmap PublicKey (cacheEntry Account)) ac' : Prop :=
  cache_inv ac' ∧ contents ac' = g (contents ac) ∧ settings ac' = settings ac.

Lemma refines_ext ac g g' ac' : g (contents ac) = g' (contents ac) → refines_to ac g ac' → refines_to ac g' ac'.
Proof. unfold refines_to. by intros ->. Qed.

Lemma refines_same ac g : cache_inv ac → g (contents ac) = contents ac → refines_to ac g ac.
Proof. unfold refines_to. by intros ? ->. Qed.

Lemma update_refines ac key f g :
  cache_inv ac →
  (∀ m k, k ≠ key → f m !! k = m !! k) →
  (∀ m m', m !! key = m' !! key → f m !! key = g m' !! key) →
  (∀ m k, k ≠ key → g m !! k = m !! k) →
  refines_to ac g (with_shards (alter f (shardOf ac key) (shards ac)) ac).
Proof.
  intros Hi Hf Hfg Hg.
  destruct (union_alter (shardOf ac) (shards ac) key f (g (contents ac))) as [Hr Hu]; 
    [apply Hi|by apply shardOf_lt|exact Hf| |exact (Hg _)|].
  { pose proof (entryAt_contents ac key Hi) as He. unfold entryAt in He.
    destruct (lookup_lt_is_Some_2 (shards ac) (shardOf ac key)) as [m Hm]; [by apply shardOf_lt|].
    rewrite Hm in *. cbn in *. symmetry. by apply Hfg. }
  split; [|split; [done|done]].
  destruct Hi as [(k & Hk & Hl & Hm) _ Hh]. split; [|done|done].
  exists k. split_and!; [done| |done]. cbn. unfold len. by rewrite length_alter.
Qed.

Lemma set_refines ac key data slot strm imm now :
  cache_inv ac → ∃ ac', set_ (E:=E) key data slot strm imm now ac = (Ok tt, ac') ∧
    refines_to ac (λ m, <[key := writeEntry (m !! key) data slot strm imm now]> m) ac'.
Proof.
  intros Hi. unfold set_. rewrite shard_run by done. eexists. split; [reflexivity|].
  apply update_refines; [done| | |]; intros.
  - by rewrite lookup_insert_ne.
  - rewrite !lookup_insert_eq. congruence.
  - by rewrite lookup_insert_ne.
Qed.

Lemma del_refines ac key :
  cache_inv ac → ∃ ac', del (E:=E) key ac = (Ok tt, ac') ∧ refines_to ac (delete key) ac'.
Proof.
  intros Hi. unfold del. rewrite shard_run by done. eexists. split; [reflexivity|].
  apply update_refines; [done| | |]; intros.
  - by rewrite lookup_delete_ne.
  - by rewrite !lookup_delete_eq.
  - by rewrite lookup_delete_ne.
Qed.

Lemma tidy_refines ac t now :
  cache_inv ac → ∃ ac', tidy (E:=E) t now ac = (Ok tt, ac') ∧
    refines_to ac (λ m, if decide (t ≤ 0) then m else filter (recent (i64 (now - t))) m) ac'.
Proof.
  intros Hi. unfold tidy. case_decide; [by eexists|]. eexists. split; [reflexivity|].
  destruct (routed_filter (shardOf ac) (shards ac) (recent (i64 (now - t)))) as [Hr Hu]; [apply Hi|].
  split; [|split; [done|done]].
  destruct Hi as [(k & Hk & Hl & Hm) _ Hh]. split; [|done|done].
  exists k. split_and!; [done| |done]. cbn. by rewrite len_fmap.
Qed.

(** A lookup serves a fresh entry's data and records the read. *)
Lemma lookupAt_refines ac key now :
  cache_inv ac → ∃ ac', lookupAt (E:=E) key now ac =
    (Ok (e ← contents ac !! key; if fresh e now (freshFor ac) then Some (e_data e) else None), ac') ∧
    refines_to ac (specOp (freshFor ac) (ttl ac) (OpLookup key) now) ac'.
Proof.
  intros Hi. unfold lookupAt. rewrite shard_run, run_get, entryAt_contents by done.
  destruct (contents ac !! key) as [e|] eqn:He; cbn [mbind option_bind].
  2: { exists ac. split; [done|]. apply refines_same; [done|]. cbn. by rewrite He. }
  destruct (fresh e now (freshFor ac)) eqn:Hf.
  2: { exists ac. split; [done|]. apply refines_same; [done|]. cbn. by rewrite He, Hf. }
  eexists. split; [reflexivity|]. apply (refines_ext _ (alter (touch now) key)); [cbn; by rewrite He, Hf|].
  apply update_refines; [done| | |]; intros.
  - by rewrite lookup_alter_ne.
  - rewrite !lookup_alter_eq. congruence.
  - by rewrite lookup_alter_ne.
Qed.

(** The counters and the head are outside the map. *)
Lemma counters_refine ac g h m ac' : refines_to ac g ac' → refines_to ac g (with_counters h m ac').
Proof. by intros [[] ?]. Qed.

Lemma lookup_refines ac key now :
  cache_inv ac → ∃ ac', lookup_ (E:=E) key now ac =
    (Ok (e ← contents ac !! key; if fresh e now (freshFor ac) then Some (e_data e) else None), ac') ∧
    refines_to ac (specOp (freshFor ac) (ttl ac) (OpLookup key) now) ac'.
Proof.
  intros Hi. unfold lookup_. destruct (lookupAt_refines ac key now Hi) as (ac' & Hl & Hr).
  rewrite (run_bind _ _ _ _ _ Hl), run_modify. eexists. split; [reflexivity|].
  destruct (_ ≫= _); by apply counters_refine.
Qed.

Lemma updateHead_refines ac i f :
  cache_inv ac → ∃ ac', updateHead (E:=E) i f ac = (Ok tt, ac') ∧ refines_to ac id ac'.
Proof.
  intros Hi. eexists. split; [reflexivity|]. split; [|done].
  destruct Hi. split; [done|done|]. cbn. by rewrite length_alter.
Qed.

Lemma runOp_refines ac op now :
  cache_inv ac → ∃ ac', runOp (E:=E) op now ac = (Ok tt, ac') ∧
    refines_to ac (specOp (freshFor ac) (ttl ac) op now) ac'.
Proof.
  intros Hi. destruct op; cbn [runOp].
  - by apply set_refines.
  - by apply del_refines.
  - by apply tidy_refines.
  - unfold janitorTick. rewrite run_get. by apply tidy_refines.
  - destruct (lookup_refines ac key now Hi) as (ac' & Hl & Hr).
    rewrite (run_bind _ _ _ _ _ Hl). by exists ac'.
  - unfold storeSlot. case_decide; [by exists ac|]. by apply updateHead_refines.
  - unfold storeBlockHeight. case_decide; [by exists ac|]. by apply updateHead_refines.
  - unfold storeBlockhash. case_decide; [by exists ac|]. by apply updateHead_refines.
Qed.

(** A schedule on the map. *)
Definition specOps (fresh_for idle : Z) (ops : list (cacheOp Account * Z))
    (m : gmap PublicKey (cacheEntry Account)) : gmap PublicKey (cacheEntry Account) :=
  foldl (λ m op, specOp fresh_for idle op.1 op.2 m) m ops.

Lemma runOps_refines ac ops :
  cache_inv ac → ∃ ac', runOps (E:=E) ops ac = (Ok tt, ac') ∧
    refines_to ac (specOps (freshFor ac) (ttl ac) ops) ac'.
Proof.
  revert ac. induction ops as [|[op now] ops IH]; intros ac Hi; [by exists ac|].
  destruct (runOp_refines ac op now Hi) as (ac1 & H1 & Hi1 & Hc1 & Hs1).
  destruct (IH ac1 Hi1) as (ac2 & H2 & Hi2 & Hc2 & Hs2).
  exists ac2. cbn [runOps]. rewrite (run_bind _ _ _ _ _ H1). split; [done|].
  assert (freshFor ac1 = freshFor ac ∧ ttl ac1 = ttl ac) as [Hf Ht] by (unfold settings in Hs1; naive_solver).
  split; [done|]. split; [|by rewrite Hs2]. rewrite Hc2, Hc1, Hf, Ht. done.
Qed.

(** * Construction *)

Lemma roundUp_pow2 fuel j n s :
  0 ≤ j → n = 2 ^ j → s ≤ 2 ^ (j + Z.of_nat fuel) →
  ∃ k, j ≤ k ∧ roundUp fuel n s = 2 ^ k ∧ s ≤ 2 ^ k ∧ (k = j ∨ 2 ^ (k - 1) < s).
Proof.
  revert j n. induction fuel as [|fuel IH]; intros j n Hj -> Hs; cbn [roundUp].
  - exists j. rewrite Z.add_0_r in Hs. split_and!; [lia|done|done|by left].
  - case_decide as Hlt; [|exists j; split_and!; [lia|done|lia|by left]].
    destruct (IH (j + 1) (Z.shiftl (2 ^ j) 1)) as (k & Hk & He & Hsk & Hm); [lia| | |].
    + rewrite Z.shiftl_mul_pow2, Z.pow_add_r by lia. lia.
    + by replace (j + 1 + Z.of_nat fuel) with (j + Z.of_nat (S fuel)) by lia.
    + exists k. split_and!; [lia|done|done|]. right. destruct Hm as [->|?]; [|done].
      by replace (j + 1 - 1) with j by lia.
Qed.

Lemma newAccountCache_inv opts :
  (∀ o, opts = Some o → o_Shards o ≤ 2 ^ 62) → cache_inv (newAccountCache (Account:=Account) opts).
Proof.
  intros Ho. unfold newAccountCache.
  set (s := match opts with Some o => if decide (0 < o_Shards o) then _ else _ | None => _ end).
  destruct (roundUp_pow2 62 0 1 s) as (k & Hk & -> & _); [done|done| |].
  { unfold s, DefaultCacheShards. destruct opts as [o|]; [|by vm_compute].
    case_decide; [by apply Ho|by vm_compute]. }
  assert (0 < 2 ^ k) by (by apply Z.pow_pos_nonneg). split; cbn.
  - exists k. split_and!; [done| |done]. rewrite len_replicate. lia.
  - intros i m key Hm [e He]. apply lookup_replicate in Hm as [-> _]. by rewrite lookup_empty in He.
  - done.
Qed.

Lemma newAccountCache_empty opts : contents (newAccountCache (Account:=Account) opts) = ∅.
Proof.
  unfold contents, newAccountCache. cbn [shards]. induction (Z.to_nat _) as [|n IH]; [done|].
  cbn. rewrite IH. by apply map_empty_union.
Qed.

(** * The slot order of writes *)

Abbreviation write := (Z * option Account)%type (only parsing).

(** What is stored under a key: slot and data. *)
Definition stored (m : gmap PublicKey (cacheEntry Account)) (key : PublicKey) : option write :=
  (λ e, (e_slot e, e_data e)) <$> m !! key.

(** The writes to [key] in a schedule. *)
Definition writeOf (key : PublicKey) (op : cacheOp Account * Z) : option write :=
  match op.1 with
  | OpSet k data slot _ _ => if decide (k = key) then Some (slot, data) else None
  | _ => None
  end.
Definition writes (key : PublicKey) (ops : list (cacheOp Account * Z)) : list write := omap (writeOf key) ops.

(** The schedule neither clears [key] nor evicts. *)
Definition keeps (key : PublicKey) (op : cacheOp Account * Z) : Prop :=
  match op.1 with
  | OpDel k => k ≠ key
  | OpTidy _ | OpJanitor => False
  | _ => True
  end.

#[global] Instance keeps_dec key op : Decision (keeps key op).
Proof. unfold keeps. destruct (op.1); apply _. Defined.

Lemma stored_specOp ff idle op m key :
  keeps key op → stored (specOp ff idle op.1 op.2 m) key = latest (stored m key) (option_list (writeOf key op)).
Proof.
  destruct op as [op now]. unfold keeps, writeOf, stored. cbn [fst snd].
  destruct op as [k data slot strm imm|k|t| |k| | |]; intros Hk; cbn [specOp]; try done.
  - case_decide as Hkk.
    + subst k. rewrite lookup_insert_eq. cbn.
      destruct (m !! key) as [e|]; cbn; [by case_decide|done].
    + by rewrite lookup_insert_ne.
  - by rewrite lookup_delete_ne.
  - destruct (m !! k) as [e|] eqn:He; [|done]. destruct (fresh _ _ _); [|done].
    destruct (decide (k = key)) as [->|].
    + rewrite lookup_alter_eq, He. done.
    + by rewrite lookup_alter_ne.
Qed.

Lemma stored_specOps ff idle ops m key :
  Forall (keeps key) ops → stored (specOps ff idle ops m) key = latest (stored m key) (writes key ops).
Proof.
  intros Hk. revert m. induction Hk as [|op ops Hop _ IH]; intros m; [done|].
  change (specOps ff idle (op :: ops) m) with (specOps ff idle ops (specOp ff idle op.1 op.2 m)).
  rewrite IH, stored_specOp by done. unfold writes, latest. cbn.
  by destruct (writeOf key op).
Qed.

(** Flags are sticky: no write clears them. *)
Definition sticky (m m' : gmap PublicKey (cacheEntry Account)) (key : PublicKey) : Prop :=
  ∀ e, m !! key = Some e → ∃ e', m' !! key = Some e' ∧
    (streamed e = true → streamed e' = true) ∧ (immutable e = true → immutable e' = true).

Lemma sticky_specOp ff idle op m key : keeps key op → sticky m (specOp ff idle op.1 op.2 m) key.
Proof.
  destruct op as [op now]. unfold keeps, sticky. cbn [fst snd].
  destruct op as [k data slot strm imm|k|t| |k| | |]; intros Hk e He; cbn [specOp]; try (by eauto).
  - destruct (decide (k = key)) as [->|].
    + rewrite lookup_insert_eq, He. eexists. split; [reflexivity|]. cbn.
      case_decide; cbn; split; by intros ->.
    + rewrite lookup_insert_ne by done. eauto.
  - rewrite lookup_delete_ne by done. eauto.
  - destruct (m !! k) as [e0|] eqn:Hk0; [|eauto]. destruct (fresh _ _ _); [|eauto].
    destruct (decide (k = key)) as [->|].
    + rewrite lookup_alter_eq, He. eexists. split; [reflexivity|done].
    + rewrite lookup_alter_ne by done. eauto.
Qed.

Lemma sticky_specOps ff idle ops m key : Forall (keeps key) ops → sticky m (specOps ff idle ops m) key.
Proof.
  intros Hk. revert m. induction Hk as [|op ops Hop _ IH]; intros m e He; [by eauto|].
  destruct (sticky_specOp ff idle op m key Hop e He) as (e1 & He1 & ? & ?).
  destruct (IH _ e1 He1) as (e2 & He2 & ? & ?). exists e2. split; [done|]. auto.
Qed.

(** * Serving *)

(** What the cache may serve for [key] at [now]. *)
Definition served (ff now : Z) (m : gmap PublicKey (cacheEntry Account)) (key : PublicKey) : option (option Account) :=
  e ← m !! key; if fresh e now ff then Some (e_data e) else None.

(** Reading changes nothing that decides what is served. *)
Lemma served_lookup ff idle now k m key :
  served ff now (specOp ff idle (OpLookup k) now m) key = served ff now m key.
Proof.
  unfold served. cbn [specOp]. destruct (m !! k) as [e|] eqn:He; [|done].
  destruct (fresh e now ff) eqn:Hf; [|done]. destruct (decide (k = key)) as [->|].
  - rewrite lookup_alter_eq, He. done.
  - by rewrite lookup_alter_ne.
Qed.

End spec.

Arguments stored {Account} m key.

(** * The batch lookup *)

Lemma foldl_insert_lookup {A} (v : A) ps out j :
  foldl (λ out p, <[p := v]> out) out ps !! j =
    if decide (j ∈ ps ∧ (j < length out)%nat) then Some v else out !! j.
Proof.
  revert out. induction ps as [|p ps IH]; intros out; cbn.
  - rewrite decide_False; [done|]. by intros [Hj%elem_of_nil _].
  - rewrite IH, length_insert. destruct (decide (p = j)) as [->|Hp].
    + destruct (decide (j < length out)%nat) as [Hl|Hl].
      * rewrite (decide_True (P := j ∈ j :: ps ∧ _)) by (split; [set_solver|done]).
        destruct (decide (_ ∧ _)); [done|]. by apply list_lookup_insert_eq.
      * rewrite !decide_False by (by intros [_ ?]). by rewrite list_insert_ge by lia.
    + rewrite list_lookup_insert_ne by done.
      destruct (decide (j ∈ ps ∧ (j < length out)%nat)) as [[]|Hn].
      * rewrite decide_True by (split; [set_solver|done]). done.
      * rewrite decide_False; [done|]. intros [Hj ?]. apply Hn. set_solver.
Qed.

Lemma length_foldl_insert {A} (v : A) ps (out : list A) :
  length (foldl (λ out p, <[p := v]> out) out ps) = length out.
Proof. revert out. induction ps as [|p ps IH]; intros out; cbn; [done|]. by rewrite IH, length_insert. Qed.

Section batch.
Context {Account : Type} `{net : Network Account}.
Implicit Types ac : accountCache Account.

(** The state of the first loop after [i] accounts, where [sv] says what the
    cache serves. *)
Record scan_ok (sv : PublicKey → option (option Account)) (accounts : list PublicKey) (i : nat)
    (st : scanState (Account:=Account)) : Prop := {
  scan_length : length (sc_value st) = length accounts;
  scan_value : ∀ j key, accounts !! j = Some key →
    sc_value st !! j = Some (if decide (j < i)%nat then default None (sv key) else None);
  scan_nodup : NoDup (sc_fetch st);
  scan_fetch : ∀ key, key ∈ sc_fetch st ↔ sv key = None ∧ ∃ j, (j < i)%nat ∧ accounts !! j = Some key;
  scan_seen : ∀ key, is_Some (sc_positions st !! key) ↔ key ∈ sc_fetch st;
  scan_positions : ∀ key j, j ∈ default [] (sc_positions st !! key) ↔
    (j < i)%nat ∧ accounts !! j = Some key ∧ sv key = None;
}.

Lemma scan_start sv accounts : scan_ok sv accounts 0 (mkScan (replicate (length accounts) None) [] ∅ 0).
Proof.
  split; cbn.
  - apply length_replicate.
  - intros j key Hj. rewrite decide_False by lia. apply lookup_replicate_2. by eapply lookup_lt_Some.
  - constructor.
  - intros key. split; [by intros ?%elem_of_nil|]. intros (_ & j & ? & _). lia.
  - intros key. rewrite lookup_empty. split; [by intros []|by intros ?%elem_of_nil].
  - intros key j. rewrite lookup_empty. split; [by intros ?%elem_of_nil|]. lia.
Qed.

Lemma scan_hit sv accounts i st key data :
  scan_ok sv accounts i st → accounts !! i = Some key → sv key = Some data →
  scan_ok sv accounts (S i)
    (mkScan (<[i := data]> (sc_value st)) (sc_fetch st) (sc_positions st) (u64 (sc_hits st + 1))).
Proof.
  intros [Hl Hv Hn Hf Hs Hp] Hi Hsv. split; cbn; [by rewrite length_insert| |done| |done|].
  - intros j k Hj. destruct (decide (i = j)) as [->|Hij].
    + rewrite list_lookup_insert_eq by (rewrite Hl; by eapply lookup_lt_Some).
      rewrite decide_True by lia. rewrite Hi in Hj. injection Hj as <-. by rewrite Hsv.
    + rewrite list_lookup_insert_ne, (Hv j k Hj) by done. do 2 case_decide; (done || lia).
  - intros k. rewrite Hf. split; intros (? & j & ? & Hj); (split; [done|]); exists j; (split; [|done]); [lia|].
    destruct (decide (j = i)) as [->|]; [|lia]. congruence.
  - intros k j. rewrite Hp. split; intros (? & Hj & ?); split_and!; try done; [lia|].
    destruct (decide (j = i)) as [->|]; [|lia]. congruence.
Qed.

Lemma scan_miss sv accounts i st key :
  scan_ok sv accounts i st → accounts !! i = Some key → sv key = None →
  scan_ok sv accounts (S i)
    (mkScan (sc_value st)
       (match sc_positions st !! key with Some _ => sc_fetch st | None => sc_fetch st ++ [key] end)
       (<[key := default [] (sc_positions st !! key) ++ [i]]> (sc_positions st)) (sc_hits st)).
Proof.
  intros [Hl Hv Hn Hf Hs Hp] Hi Hsv.
  set (fetch := match sc_positions st !! key with Some _ => sc_fetch st | None => _ end).
  assert (NoDup fetch ∧ ∀ k, k ∈ fetch ↔ k ∈ sc_fetch st ∨ k = key) as [Hn' Hin].
  { subst fetch. pose proof (Hs key) as Hsk. destruct (sc_positions st !! key) as [ps|].
    - split; [done|]. intros k. split; [by left|]. intros [?| ->]; [done|]. apply Hsk. by eexists.
    - split; [|set_solver]. apply NoDup_app. split_and!; [done| |apply NoDup_singleton].
      intros k Hk ->%list_elem_of_singleton. by apply Hsk in Hk as []. }
  split; cbn; [done| |done| | |].
  - intros j k Hj. rewrite (Hv j k Hj). destruct (decide (j = i)) as [->|].
    + rewrite decide_False, decide_True by lia. assert (k = key) as -> by congruence. by rewrite Hsv.
    + do 2 case_decide; (done || lia).
  - intros k. rewrite Hin, Hf. split.
    + intros [(? & j & ? & ?)| ->]; (split; [done|]); [exists j|exists i]; split; (done || lia).
    + intros (? & j & ? & Hj). destruct (decide (j = i)) as [->|].
      * right. congruence.
      * left. split; [done|]. exists j. split; [lia|done].
  - intros k. rewrite Hin, <- Hs. destruct (decide (k = key)) as [->|].
    + rewrite lookup_insert_eq. split; [by right|by eexists].
    + rewrite lookup_insert_ne by done. naive_solver.
  - intros k j. destruct (decide (k = key)) as [->|].
    + rewrite lookup_insert_eq. cbn. rewrite elem_of_app, Hp, list_elem_of_singleton. split.
      * intros [(? & ? & ?)| ->]; split_and!; (done || lia).
      * intros (? & ? & ?). destruct (decide (j = i)); [by right|left]. split_and!; (done || lia).
    + rewrite lookup_insert_ne by done. rewrite Hp. split; intros (? & Hj & ?); split_and!; try (done || lia).
      destruct (decide (j = i)) as [->|]; [congruence|lia].
Qed.

Lemma scan_finished sv accounts st :
  scan_ok sv accounts (length accounts) st → sc_value st = (λ key, default None (sv key)) <$> accounts.
Proof.
  intros [Hl Hv _ _ _ _]. apply list_eq_same_length with (n := length accounts); [by rewrite length_fmap|done|].
  intros j x y Hj Hx Hy. destruct (lookup_lt_is_Some_2 accounts j Hj) as [key Hkey].
  rewrite list_lookup_fmap, Hkey in Hy. rewrite (Hv j key Hkey), decide_True in Hx by done.
  by simplify_eq/=.
Qed.

Lemma scan_fetched sv accounts st key :
  scan_ok sv accounts (length accounts) st → key ∈ sc_fetch st ↔ key ∈ accounts ∧ sv key = None.
Proof.
  intros Hok. rewrite (scan_fetch _ _ _ _ Hok), list_elem_of_lookup. split.
  - intros (? & j & _ & ?). eauto.
  - intros ([j Hj] & ?). split; [done|]. exists j. split; [by eapply lookup_lt_Some|done].
Qed.

(** The first loop leaves the map's served values alone. *)
Lemma scanAccounts_run ac now accounts sv i todo st :
  cache_inv ac → (∀ key, served (freshFor ac) now (contents ac) key = sv key) →
  drop i accounts = todo → scan_ok sv accounts i st →
  ∃ st' ac', scanAccounts i todo now st ac = (Ok st', ac') ∧ scan_ok sv accounts (length accounts) st' ∧
    cache_inv ac' ∧ settings ac' = settings ac.
Proof.
  revert ac i st. induction todo as [|key todo IH]; intros ac i st Hinv Hsv Ht Hok; cbn [scanAccounts].
  - exists st, ac. split_and!; [done| |done|done].
    destruct (decide (i = length accounts)) as [<-|Hne]; [done|].
    destruct (decide (i < length accounts)%nat) as [Hlt|]; [exfalso|].
    { assert (length (drop i accounts) = 0%nat) as H by (by rewrite Ht). rewrite length_drop in H. lia. }
    assert (∀ j key, accounts !! j = Some key → (j < length accounts)%nat) as Hb
      by (intros; by eapply lookup_lt_Some).
    destruct Hok as [Hl Hv Hn Hf Hs Hp]. split; [done| |done| |done|].
    + intros j key Hj. rewrite (Hv j key Hj). specialize (Hb j key Hj). by rewrite !decide_True by lia.
    + intros k. rewrite Hf. split; intros (? & j & ? & Hj); (split; [done|]); exists j;
        (split; [specialize (Hb j k Hj); lia|done]).
    + intros k j. rewrite Hp. split; intros (? & Hj & ?); specialize (Hb j k Hj); split_and!; (done || lia).
  - assert (accounts !! i = Some key) as Hi by (rewrite <- (Nat.add_0_r i), <- lookup_drop, Ht; done).
    assert (drop (S i) accounts = todo) as Ht' by (rewrite <- Nat.add_1_r, <- drop_drop, Ht; done).
    destruct (lookupAt_refines (E:=rpc_err) ac key now Hinv) as (ac1 & H1 & Hi1 & Hc1 & Hs1).
    rewrite (run_bind _ _ _ _ _ H1). assert (freshFor ac1 = freshFor ac) as Hff by (unfold settings in Hs1; naive_solver).
    change (_ ≫= _) with (served (freshFor ac) now (contents ac) key). rewrite Hsv.
    assert (∀ k, served (freshFor ac1) now (contents ac1) k = sv k) as Hsv1
      by (intros k; by rewrite Hc1, Hff, served_lookup).
    destruct (sv key) as [data|] eqn:Hd.
    + destruct (IH ac1 (S i) _ Hi1 Hsv1 Ht' (scan_hit _ _ _ _ _ _ Hok Hi Hd)) as (st' & ac' & ? & ? & ? & Hs').
      exists st', ac'. split_and!; [done..|]. by rewrite Hs'.
    + destruct (IH ac1 (S i) _ Hi1 Hsv1 Ht' (scan_miss _ _ _ _ _ Hok Hi Hd)) as (st' & ac' & ? & ? & ? & Hs').
      exists st', ac'. split_and!; [done..|]. by rewrite Hs'.
Qed.

(** The answer to each fetched key. *)
Definition answers (fetch : list PublicKey) (values : list (option Account)) : gmap PublicKey (option Account) :=
  list_to_map (zip fetch values).

Lemma storeValue_run ac key (v : option Account) slot later :
  cache_inv ac → ∃ ac1,
    (match v with
     | None => mret tt : GoM (accountCache Account) rpc_err unit
     | Some _ => set_ key v slot false false later
     end) ac = (Ok tt, ac1) ∧ cache_inv ac1.
Proof.
  intros Hi. destruct v as [a|]; [|by exists ac].
  destruct (set_refines (E:=rpc_err) ac key (Some a) slot false false later Hi) as (ac1 & ? & ? & _).
  by exists ac1.
Qed.

(** The second loop gives every waiting position its key's answer. *)
Lemma fillFetched_run ac values n st slot later :
  cache_inv ac → NoDup (sc_fetch st) → (n + length values ≤ length (sc_fetch st))%nat →
  (∀ k k' j, j ∈ default [] (sc_positions st !! k) → j ∈ default [] (sc_positions st !! k') → k = k') →
  ∃ out ac', fillFetched (Z.of_nat n) values st slot later ac = (Ok out, ac') ∧ cache_inv ac' ∧
    length out = length (sc_value st) ∧
    (∀ j, (∀ k, j ∉ default [] (sc_positions st !! k)) → out !! j = sc_value st !! j) ∧
    ∀ j k, j ∈ default [] (sc_positions st !! k) → (j < length (sc_value st))%nat →
      out !! j = match answers (drop n (sc_fetch st)) values !! k with Some v => Some v | None => sc_value st !! j end.
Proof.
  revert ac n st. induction values as [|v values IH]; intros ac n st Hi Hnd Hlen Hdis; cbn [fillFetched].
  { exists (sc_value st), ac. split_and!; [done..|]. intros j k _ _. unfold answers.
    rewrite zip_with_nil_r. cbn. by rewrite lookup_empty. }
  simpl in Hlen. destruct (lookup_lt_is_Some_2 (sc_fetch st) n) as [key Hkey]; [lia|].
  rewrite (run_lift _ _ _ key) by (apply idx_ok; [lia|by rewrite Nat2Z.id]).
  set (out1 := foldl _ _ _).
  destruct (storeValue_run ac key v slot later Hi) as (ac1 & H1 & Hi1).
  rewrite (run_bind _ _ _ _ _ H1).
  replace (Z.of_nat n + 1) with (Z.of_nat (S n)) by lia.
  destruct (IH ac1 (S n) (mkScan out1 (sc_fetch st) (sc_positions st) (sc_hits st)) Hi1 Hnd ltac:(cbn; lia) Hdis)
    as (out & ac' & Hrun & Hi' & Hl & Hno & Hyes). cbn in Hl, Hno, Hyes.
  assert (length out1 = length (sc_value st)) as Hl1 by apply length_foldl_insert.
  exists out, ac'. split_and!; [done|done|by rewrite Hl| |].
  - intros j Hj. rewrite Hno by done. unfold out1. rewrite foldl_insert_lookup, decide_False; [done|].
    intros [Hin _]. by apply (Hj key).
  - intros j k Hj Hjl. rewrite (Hyes j k Hj) by lia. unfold answers. rewrite (drop_S (sc_fetch st) key n) by done. cbn.
    destruct (decide (k = key)) as [->|Hk].
    + rewrite lookup_insert_eq. rewrite (not_elem_of_list_to_map_1 _ key).
      * unfold out1. rewrite foldl_insert_lookup, decide_True by done. done.
      * intros Hin. apply list_elem_of_fmap in Hin as ([k' v'] & -> & Hin). cbn in *.
        apply elem_of_zip_l in Hin. apply list_elem_of_lookup in Hin as [q Hq]. rewrite lookup_drop in Hq.
        pose proof (NoDup_lookup _ _ _ _ Hnd Hkey Hq). lia.
    + rewrite lookup_insert_ne by done. destruct (list_to_map _ !! k); [done|].
      unfold out1. rewrite foldl_insert_lookup, decide_False; [done|].
      intros [Hin _]. by apply Hk, (Hdis k key j).
Qed.

Lemma fill_finished (sv : PublicKey → option (option Account)) (accounts : list PublicKey) (st : scanState) (ans : gmap PublicKey (option Account)) (out : list (option Account)) :
  scan_ok sv accounts (length accounts) st → length out = length (sc_value st) →
  (∀ j, (∀ k, j ∉ default [] (sc_positions st !! k)) → out !! j = sc_value st !! j) →
  (∀ j k, j ∈ default [] (sc_positions st !! k) → (j < length (sc_value st))%nat →
     out !! j = match ans !! k with Some v => Some v | None => sc_value st !! j end) →
  out = (λ key, default (default None (ans !! key)) (sv key)) <$> accounts.
Proof.
  intros Hok Hlen Hno Hyes. pose proof (scan_length _ _ _ _ Hok) as Hl.
  apply list_eq_same_length with (n := length accounts); [by rewrite length_fmap|lia|].
  intros j x y Hj Hx Hy. destruct (lookup_lt_is_Some_2 accounts j Hj) as [key Hkey].
  rewrite list_lookup_fmap, Hkey in Hy. injection Hy as <-.
  pose proof (scan_value _ _ _ _ Hok j key Hkey) as Hv. rewrite decide_True in Hv by done.
  destruct (sv key) as [d|] eqn:Hsv; cbn in *.
  - rewrite Hno in Hx; [congruence|]. intros k Hin. apply (scan_positions _ _ _ _ Hok) in Hin as (_ & ? & ?). congruence.
  - rewrite (Hyes j key) in Hx; [|by apply (scan_positions _ _ _ _ Hok)|lia].
    destruct (ans !! key) as [v|]; cbn; congruence.
Qed.

(** A response with more values than keys runs past the key list. *)
Lemma fillFetched_panics ac values n st slot later :
  cache_inv ac → (n ≤ length (sc_fetch st))%nat → (length (sc_fetch st) < n + length values)%nat →
  ∃ ac', fillFetched (Z.of_nat n) values st slot later ac = (Panic, ac').
Proof.
  revert ac n st. induction values as [|v values IH]; intros ac n st Hi Hn Hlen; simpl in Hlen; [lia|].
  cbn [fillFetched]. destruct (decide (n = length (sc_fetch st))) as [Hn'|Hn'].
  - exists ac. unfold mbind, gom_bind, lift, idx. rewrite decide_True by lia. rewrite Nat2Z.id.
    by rewrite lookup_ge_None_2 by lia.
  - destruct (lookup_lt_is_Some_2 (sc_fetch st) n) as [key Hkey]; [lia|].
    rewrite (run_lift _ _ _ key) by (apply idx_ok; [lia|by rewrite Nat2Z.id]).
    destruct (storeValue_run ac key v slot later Hi) as (ac1 & H1 & Hi1).
    rewrite (run_bind _ _ _ _ _ H1). replace (Z.of_nat n + 1) with (Z.of_nat (S n)) by lia.
    apply (IH ac1 (S n)); cbn; [done|lia|lia].
Qed.

End batch.

(** * The chain head *)

Section heads.
Context {Account E : Type}.
Implicit Types ac : accountCache Account.
Abbreviation Schedule := (list (cacheOp Account * Z)) (only parsing).

(** One kind of head data as a slot-ordered register: its order key with its
    payload and time, in a head state and in an operation. *)
Record register (P : Type) := mkRegister {
  reg_view : headState → Z * (P * Z);
  reg_op : cacheOp Account → option (string * Z * P);
}.
Arguments reg_view {P} _ _.
Arguments reg_op {P} _ _.

Definition slotRegister : register unit := mkRegister _
  (λ h, (h_slot h, (tt, slotAt h)))
  (λ op, match op with OpStoreSlot c slot => Some (c, slot, tt) | _ => None end).
Definition heightRegister : register unit := mkRegister _
  (λ h, (blockHeight h, (tt, blockHeightAt h)))
  (λ op, match op with OpStoreBlockHeight c height => Some (c, height, tt) | _ => None end).
Definition blockhashRegister : register (Hash * Z) := mkRegister _
  (λ h, (blockhashSlot h, (blockhash h, lastValidBlockHeight h, blockhashAt h)))
  (λ op, match op with OpStoreBlockhash c hash lv slot => Some (c, slot, (hash, lv)) | _ => None end).

(** The stores of a schedule at head level [i]. *)
Definition storeOf {P} (r : register P) (i : Z) (op : cacheOp Account * Z) : option (Z * (P * Z)) :=
  '(c, key, p) ← reg_op r op.1;
  if decide (cacheIndex c = i) then Some (key, (p, op.2)) else None.
Definition stores {P} (r : register P) (i : Z) (ops : Schedule) : list (Z * (P * Z)) := omap (storeOf r i) ops.

(** A register obeys every step: stores at its level are slot-ordered writes,
    and nothing else touches it. *)
Definition register_law {P} (r : register P) : Prop :=
  ∀ ac op now ac' i h, runOp (E:=E) op now ac = (Ok tt, ac') → 0 ≤ i → head ac !! Z.to_nat i = Some h →
  ∃ h', head ac' !! Z.to_nat i = Some h' ∧
    Some (reg_view r h') = latest (Some (reg_view r h)) (option_list (storeOf r i (op, now))).

Lemma cacheIndex_range c : -1 ≤ cacheIndex c < 3.
Proof. unfold cacheIndex. repeat case_decide; lia. Qed.

(** The account operations leave the head alone. *)
Lemma runOp_head ac op now ac' :
  (match op with OpStoreSlot _ _ | OpStoreBlockHeight _ _ | OpStoreBlockhash _ _ _ _ => False | _ => True end) →
  runOp (E:=E) op now ac = (Ok tt, ac') → head ac' = head ac.
Proof.
  intros Hop Hr. destruct op; try done; cbn [runOp] in Hr;
    unfold lookup_, lookupAt, set_, del, janitorTick, tidy, shard, updateShard, mbind, gom_bind, get, lift, modify, mret, gom_ret in Hr;
    repeat (case_match; simplify_eq/=; try done).
Qed.

(** A head update at level [c], seen from level [i]. *)
Lemma updateHead_view {P} (r : register P) ac c f ac' i h w :
  updateHead (E:=E) (cacheIndex c) f ac = (Ok tt, ac') → 0 ≤ cacheIndex c → 0 ≤ i →
  head ac !! Z.to_nat i = Some h →
  (∀ h, Some (reg_view r (f h)) = latest (Some (reg_view r h)) (option_list w)) →
  ∃ h', head ac' !! Z.to_nat i = Some h' ∧
    Some (reg_view r h') = latest (Some (reg_view r h)) (if decide (cacheIndex c = i) then option_list w else []).
Proof.
  intros [= <-] Hc Hi Hh Hf. cbn [head with_head]. case_decide as Heq.
  - subst i. rewrite list_lookup_alter_eq, Hh. eexists. split; [reflexivity|]. apply Hf.
  - rewrite list_lookup_alter_ne by lia. by exists h.
Qed.

Lemma register_step {P} (r : register P) ac c f op now ac' i h w :
  (if decide (cacheIndex c < 0) then mret tt else updateHead (cacheIndex c) f) ac = (Ok tt : outcome E unit, ac') →
  0 ≤ i → head ac !! Z.to_nat i = Some h →
  option_list (storeOf r i (op, now)) = (if decide (cacheIndex c = i) then option_list w else []) →
  (∀ h, Some (reg_view r (f h)) = latest (Some (reg_view r h)) (option_list w)) →
  ∃ h', head ac' !! Z.to_nat i = Some h' ∧
    Some (reg_view r h') = latest (Some (reg_view r h)) (option_list (storeOf r i (op, now))).
Proof.
  intros Hr Hi Hh Hs Hf. rewrite Hs. destruct (decide (cacheIndex c < 0)).
  - injection Hr as <-. rewrite decide_False by lia. by exists h.
  - eapply updateHead_view; eauto. lia.
Qed.

Lemma quiet_step {P} (r : register P) ac op now ac' i h :
  (match op with OpStoreSlot _ _ | OpStoreBlockHeight _ _ | OpStoreBlockhash _ _ _ _ => False | _ => True end) →
  storeOf r i (op, now) = None →
  runOp (E:=E) op now ac = (Ok tt, ac') → head ac !! Z.to_nat i = Some h →
  ∃ h', head ac' !! Z.to_nat i = Some h' ∧
    Some (reg_view r h') = latest (Some (reg_view r h)) (option_list (storeOf r i (op, now))).
Proof. intros Hop Hs Hr Hh. rewrite (runOp_head _ _ _ _ Hop Hr), Hs. by exists h. Qed.

Ltac law_cases :=
  intros ac op now ac' i h Hr Hi Hh; destruct op as [| | | | |c v|c v|c hash lv v];
  [by eapply quiet_step..| | |]; cbn [runOp] in Hr;
  unfold storeSlot, storeBlockHeight, storeBlockhash in Hr.
Ltac law_step w :=
  eapply (register_step _ _ _ _ _ _ _ _ _ w); [eassumption|assumption|assumption| |];
  clear; [unfold storeOf; cbn; by case_decide|intros h0; cbn; by case_decide].

Lemma slotRegister_law : register_law slotRegister.
Proof. law_cases; [law_step (Some (v, (tt, now)))|law_step (@None (Z * (unit * Z)))..]. Qed.

Lemma heightRegister_law : register_law heightRegister.
Proof.
  law_cases; [law_step (@None (Z * (unit * Z)))|law_step (Some (v, (tt, now)))|law_step (@None (Z * (unit * Z)))].
Qed.

Lemma blockhashRegister_law : register_law blockhashRegister.
Proof. law_cases; [law_step (@None (Z * (Hash * Z * Z)))..|law_step (Some (v, (hash, lv, now)))]. Qed.

(** Over a schedule a register holds the latest of its stores. *)
Lemma runOps_register {P} (r : register P) ops ac ac' i h :
  register_law r → cache_inv ac → runOps (E:=E) ops ac = (Ok tt, ac') → 0 ≤ i →
  head ac !! Z.to_nat i = Some h →
  ∃ h', head ac' !! Z.to_nat i = Some h' ∧
    Some (reg_view r h') = latest (Some (reg_view r h)) (stores r i ops).
Proof.
  intros Hlaw. revert ac h. induction ops as [|[op now] ops IH]; intros ac h Hinv Hr Hi Hh; cbn [runOps] in Hr.
  { injection Hr as <-. by exists h. }
  destruct (runOp_refines (E:=E) ac op now Hinv) as (ac1 & H1 & Hinv1 & _).
  rewrite (run_bind _ _ _ _ _ H1) in Hr.
  destruct (Hlaw _ _ _ _ _ _ H1 Hi Hh) as (h1 & Hh1 & Hv1).
  destruct (IH ac1 h1 Hinv1 Hr Hi Hh1) as (h' & Hh' & Hv').
  exists h'. split; [done|]. rewrite Hv', Hv1. unfold stores, latest. cbn.
  by destruct (storeOf r i (op, now)).
Qed.

(** What the head serves of a register: its value, recorded no earlier than
    [cutoff]; time 0 marks a level that was never fed. *)
Definition serve {P} (cutoff : Z) (v : option (Z * (P * Z))) : option (Z * P) :=
  match v with
  | Some (key, (p, at_)) => if decide (at_ = 0 ∨ at_ < cutoff) then None else Some (key, p)
  | None => None
  end.

Lemma head_level ac c :
  cache_inv ac → 0 ≤ cacheIndex c → ∃ h, head ac !! Z.to_nat (cacheIndex c) = Some h.
Proof.
  intros Hi Hc. apply lookup_lt_is_Some. rewrite (inv_head _ Hi). pose proof (cacheIndex_range c). lia.
Qed.

Lemma lookupSlot_serves ac c now h :
  0 ≤ cacheIndex c → head ac !! Z.to_nat (cacheIndex c) = Some h →
  (lookupSlot (E:=E) c now ac).1 =
    Ok (fst <$> serve (i64 (now - headFreshFor ac)) (Some (reg_view slotRegister h))).
Proof.
  intros Hc Hh. unfold lookupSlot. rewrite decide_False by lia. rewrite run_get.
  rewrite (run_lift _ _ _ h) by (by apply idx_ok). cbn. by case_decide.
Qed.

Lemma lookupBlockHeight_serves ac c now h :
  0 ≤ cacheIndex c → head ac !! Z.to_nat (cacheIndex c) = Some h →
  (lookupBlockHeight (E:=E) c now ac).1 =
    Ok (fst <$> serve (i64 (now - headFreshFor ac)) (Some (reg_view heightRegister h))).
Proof.
  intros Hc Hh. unfold lookupBlockHeight. rewrite decide_False by lia. rewrite run_get.
  rewrite (run_lift _ _ _ h) by (by apply idx_ok). cbn. by case_decide.
Qed.

Definition toLatest (v : Z * (Hash * Z)) : LatestBlockhash := mkLatestBlockhash v.1 v.2.1 v.2.2.

Lemma lookupBlockhash_serves ac c now h :
  0 ≤ cacheIndex c → head ac !! Z.to_nat (cacheIndex c) = Some h →
  (lookupBlockhash (E:=E) c now ac).1 =
    Ok (toLatest <$> serve (i64 (now - headFreshFor ac)) (Some (reg_view blockhashRegister h))).
Proof.
  intros Hc Hh. unfold lookupBlockhash. rewrite decide_False by lia. rewrite run_get.
  rewrite (run_lift _ _ _ h) by (by apply idx_ok). cbn. by case_decide.
Qed.

End heads.

(** * Properties *)

(** The shard option of a well-formed configuration. *)
Definition opts_ok (opts : option CacheOptions) : Prop :=
  match opts with Some o => o_Shards o ≤ 2 ^ 62 | None => True end.

(** C23. The sharded cache is one map: from any state that satisfies the invariant
    (a fresh cache does), every operation runs without panicking, keeps the
    invariant, and acts on the joined contents exactly as the one-map operation;
    [len] counts the joined map and a read returns its entry. *)
Theorem cache_refines_map {Account E} (ac : accountCache Account) (op : cacheOp Account) now :
  cache_inv ac →
  ∃ ac', runOp (E:=E) op now ac = (Ok tt, ac') ∧ cache_inv ac' ∧
    contents ac' = specOp (freshFor ac) (ttl ac) op now (contents ac) ∧
    cacheLen ac' = Z.of_nat (size (contents ac')) ∧
    ∀ key, get_ (E:=E) key ac' = (Ok (contents ac' !! key), ac').
Proof.
  intros Hi. destruct (runOp_refines (E:=E) ac op now Hi) as (ac' & Hr & Hi' & Hc & _).
  exists ac'. split_and!; [done..|by apply cacheLen_contents|]. intros. by apply get_run.
Qed.

Lemma cache_refines_map_witness :
  let ac := newAccountCache (Account:=Z) None in
  cache_inv ac ∧ ∃ ac', runOp (E:=unit) (OpSet (zeros 32) (Some 5) 7 true false) 1 ac = (Ok tt, ac') ∧
    cache_inv ac' ∧
    contents ac' = specOp (freshFor ac) (ttl ac) (OpSet (zeros 32) (Some 5) 7 true false) 1 (contents ac) ∧
    cacheLen ac' = Z.of_nat (size (contents ac')) ∧
    ∀ key, get_ (E:=unit) key ac' = (Ok (contents ac' !! key), ac').
Proof.
  assert (cache_inv (newAccountCache (Account:=Z) None)) as Hi by (by apply newAccountCache_inv).
  split; [exact Hi|]. apply (cache_refines_map (Account:=Z) (E:=unit) _ _ 1 Hi).
Defined.

(** C10. Writes are slot-ordered whatever the interleaving: after any schedule
    that does not clear or evict a key, the key holds the write of the highest
    slot (the last one on a tie) among what it held and what was written, so a
    late response never replaces newer data, and the streamed and immutable
    flags are never lost; with distinct slots, every reordering of the writes
    ends with the same data. *)
Theorem cache_slot_order {Account E} (ac : accountCache Account) ops ops' key :
  cache_inv ac → Forall (keeps key) ops → Forall (keeps key) ops' →
  ∃ ac1 ac2, runOps (E:=E) ops ac = (Ok tt, ac1) ∧ runOps (E:=E) ops' ac = (Ok tt, ac2) ∧
    stored (contents ac1) key = latest (stored (contents ac) key) (writes key ops) ∧
    sticky (contents ac) (contents ac1) key ∧
    (∀ w s d, w ∈ writes key ops → stored (contents ac1) key = Some (s, d) → w.1 ≤ s) ∧
    (writes key ops ≡ₚ writes key ops' →
     NoDup (option_list (fst <$> stored (contents ac) key) ++ (fst <$> writes key ops)) →
     stored (contents ac1) key = stored (contents ac2) key).
Proof.
  intros Hi Hk Hk'.
  destruct (runOps_refines (E:=E) ac ops Hi) as (ac1 & H1 & _ & Hc1 & _).
  destruct (runOps_refines (E:=E) ac ops' Hi) as (ac2 & H2 & _ & Hc2 & _).
  exists ac1, ac2. rewrite Hc1, Hc2, !stored_specOps by done. split_and!; [done..| | |].
  - by apply sticky_specOps.
  - intros w s d Hw Hs. destruct (latest_max _ _ _ Hs) as (_ & _ & H). by apply H.
  - by apply latest_perm.
Qed.

Lemma cache_slot_order_witness :
  let ac := newAccountCache (Account:=Z) None in
  let a := (OpSet (zeros 32) (Some 5) 7 true false, 1) in
  let b := (OpSet (zeros 32) (Some 6) 9 false false, 2) in
  ∃ ac1 ac2, runOps (E:=unit) [a; b] ac = (Ok tt, ac1) ∧ runOps (E:=unit) [b; a] ac = (Ok tt, ac2) ∧
    stored (contents ac1) (zeros 32) = latest (stored (contents ac) (zeros 32)) (writes (zeros 32) [a; b]) ∧
    sticky (contents ac) (contents ac1) (zeros 32) ∧
    (∀ w s d, w ∈ writes (zeros 32) [a; b] → stored (contents ac1) (zeros 32) = Some (s, d) → w.1 ≤ s) ∧
    (writes (zeros 32) [a; b] ≡ₚ writes (zeros 32) [b; a] →
     NoDup (option_list (fst <$> stored (contents ac) (zeros 32)) ++ (fst <$> writes (zeros 32) [a; b])) →
     stored (contents ac1) (zeros 32) = stored (contents ac2) (zeros 32)).
Proof.
  apply (cache_slot_order (Account:=Z) (E:=unit) _ [_; _] [_; _] (zeros 32));
    [by apply newAccountCache_inv|repeat constructor..].
Defined.

(** The chain head serves the latest streamed data while it is fresh: after
    any schedule on a new cache, a lookup of the slot, the block height or the
    blockhash at a commitment level returns the highest-slot store of that level
    (the blockhash with the height it was stored with), and nothing when that
    store is older than the freshness window or the level was never fed. *)
Lemma head_serves_latest {Account E} (opts : option CacheOptions) (ops : list (cacheOp Account * Z)) c now :
  opts_ok opts → 0 ≤ cacheIndex c →
  let cutoff := i64 (now - headFreshFor (newAccountCache (Account:=Account) opts)) in
  ∃ ac, runOps (E:=E) ops (newAccountCache opts) = (Ok tt, ac) ∧
    (lookupSlot (E:=E) c now ac).1 =
      Ok (fst <$> serve cutoff (latest (Some (0, (tt, 0))) (stores slotRegister (cacheIndex c) ops))) ∧
    (lookupBlockHeight (E:=E) c now ac).1 =
      Ok (fst <$> serve cutoff (latest (Some (0, (tt, 0))) (stores heightRegister (cacheIndex c) ops))) ∧
    (lookupBlockhash (E:=E) c now ac).1 =
      Ok (toLatest <$> serve cutoff
            (latest (Some (0, ((zeroKey, 0), 0))) (stores blockhashRegister (cacheIndex c) ops))).
Proof.
  intros Ho Hc. assert (cache_inv (newAccountCache (Account:=Account) opts)) as Hi
    by (apply newAccountCache_inv; intros o ->; exact Ho).
  destruct (runOps_refines (E:=E) _ ops Hi) as (ac & Hr & Hi' & _ & Hs). exists ac. split; [done|].
  assert (headFreshFor (newAccountCache (Account:=Account) opts) = headFreshFor ac) as ->
    by (unfold settings in Hs; naive_solver).
  assert (head (newAccountCache (Account:=Account) opts) !! Z.to_nat (cacheIndex c) = Some zeroHead) as Hh.
  { pose proof (cacheIndex_range c). change (head _) with (replicate 3 zeroHead). apply lookup_replicate_2. lia. }
  destruct (runOps_register slotRegister _ _ _ _ _ slotRegister_law Hi Hr Hc Hh) as (h & Hh1 & Hv1).
  destruct (runOps_register heightRegister _ _ _ _ _ heightRegister_law Hi Hr Hc Hh) as (h2 & Hh2 & Hv2).
  destruct (runOps_register blockhashRegister _ _ _ _ _ blockhashRegister_law Hi Hr Hc Hh) as (h3 & Hh3 & Hv3).
  rewrite (lookupSlot_serves _ _ _ h), (lookupBlockHeight_serves _ _ _ h2), (lookupBlockhash_serves _ _ _ h3) by done.
  rewrite Hv1, Hv2, Hv3. done.
Qed.

(** GetAccountInfo through the cache: a servable entry (streamed, immutable
    or within the freshness window) is returned without a request; otherwise the
    result is the network's, a missing account is ErrNotFound and nothing is
    cached for it, and an answer is merged into whatever the other goroutines
    stored meanwhile by the slot order of writes. *)
Lemma get_account_info_spec {Account} `{net : Network Account} (ac : accountCache Account)
    account imm now during later_ :
  cache_inv ac →
  let sv := served (freshFor ac) now (contents ac) account in
  let meanwhile := specOps (freshFor ac) (ttl ac) during
                     (specOp (freshFor ac) (ttl ac) (OpLookup account) now (contents ac)) in
  ∃ r ac', cachedGetAccountInfo account imm now during later_ ac = (r, ac') ∧ cache_inv ac' ∧
    match sv with
    | Some data => r = Ok (0, data)
    | None =>
      r = GetAccountInfoWithOpts account (commitment ac) ∧
      match r with
      | Ok (slot, data) => data ≠ None ∧
          contents ac' = <[account := writeEntry (meanwhile !! account) data slot false imm later_]> meanwhile
      | _ => contents ac' = meanwhile
      end
    end.
Proof.
  intros Hi. unfold cachedGetAccountInfo.
  destruct (lookup_refines (E:=rpc_err) ac account now Hi) as (ac1 & H1 & Hi1 & Hc1 & Hs1).
  rewrite (run_bind _ _ _ _ _ H1). fold (served (freshFor ac) now (contents ac) account). cbv zeta.
  destruct (served _ _ _ _) as [data|]; [by exists (Ok (0, data)), ac1|]. rewrite run_get.
  destruct (runOps_refines (E:=rpc_err) ac1 during Hi1) as (ac2 & H2 & Hi2 & Hc2 & Hs2).
  rewrite (run_bind _ _ _ _ _ H2).
  assert (freshFor ac1 = freshFor ac ∧ ttl ac1 = ttl ac ∧ commitment ac1 = commitment ac) as (Hf & Ht & Hcm)
    by (unfold settings in Hs1; naive_solver).
  rewrite Hcm. rewrite Hf, Ht, Hc1 in Hc2. rewrite <- Hc2.
  destruct (GetAccountInfoWithOpts account (commitment ac)) as [[slot data]|e|] eqn:Hg.
  2: { by exists (Err e), ac2. }
  2: { by exists Panic, ac2. }
  rewrite (run_lift _ _ _ (slot, data)) by done. cbn [fst snd].
  destruct (set_refines (E:=rpc_err) ac2 account data slot false imm later_ Hi2) as (ac3 & H3 & Hi3 & Hc3 & _).
  rewrite (run_bind _ _ _ _ _ H3). exists (Ok (slot, data)), ac3. split_and!; [done..| |done].
  unfold GetAccountInfoWithOpts in Hg. destruct (net_getAccountInfo _ _) as [[s' [d|]]|e|]; by simplify_eq/=.
Qed.

(** A network that knows one account. *)
Definition oneAccount : Network Z := {|
  net_getAccountInfo := λ _ _, Ok (7, Some 42);
  net_getMultipleAccounts := λ keys _, Ok (7, (λ _, Some 42) <$> keys);
  net_getSlot := λ _, Ok 7;
  net_getBlockHeight := λ _, Ok 5;
  net_getLatestBlockhash := λ _, Ok (7, Some (zeroKey, 155));
  net_isBlockhashValid := λ _ _, Ok (7, true);
|}.

(** C24. GetMultipleAccounts through the cache: each requested position holds what
    the cache may serve for its key, or the network's answer for it, duplicates
    included; the request names every missing key exactly once, none when
    nothing is missing; errors pass through; and the answer loop panics exactly
    when the response has more values than keys were requested. *)
Theorem get_multiple_accounts_spec {Account} `{net : Network Account} (ac : accountCache Account)
    accounts now during later_ :
  cache_inv ac →
  let sv := served (freshFor ac) now (contents ac) in
  ∃ fetch, NoDup fetch ∧ (∀ key, key ∈ fetch ↔ key ∈ accounts ∧ sv key = None) ∧
  ∃ r ac', cachedGetMultipleAccounts accounts now during later_ ac = (r, ac') ∧
    if decide (fetch = []) then r = Ok (0, (λ key, default None (sv key)) <$> accounts) else
    match net_getMultipleAccounts fetch (commitment ac) with
    | Ok (slot, values) =>
      if decide (length values ≤ length fetch)%nat then
        r = Ok (slot, (λ key, default (default None (answers fetch values !! key)) (sv key)) <$> accounts)
      else r = Panic
    | Err e => r = Err e
    | Panic => r = Panic
    end.
Proof.
  intros Hi sv. unfold cachedGetMultipleAccounts.
  destruct (scanAccounts_run ac now accounts sv 0 accounts _ Hi (λ _, eq_refl) eq_refl (scan_start sv accounts))
    as (st & ac1 & H1 & Hok & Hi1 & Hs1).
  rewrite (run_bind _ _ _ _ _ H1), run_modify. set (ac1' := with_counters _ _ ac1).
  assert (cache_inv ac1') as Hi1' by (destruct Hi1; by split).
  exists (sc_fetch st). split; [apply Hok|]. split; [intros; by apply scan_fetched|].
  destruct (decide (sc_fetch st = [])) as [Hnil|Hnil].
  { rewrite decide_True by (by rewrite Hnil). rewrite (scan_finished _ _ _ Hok). by eexists _, ac1'. }
  rewrite decide_False by (intros ?%len_0; done). rewrite run_get.
  destruct (runOps_refines (E:=rpc_err) ac1' during Hi1') as (ac2 & H2 & Hi2 & _ & _).
  rewrite (run_bind _ _ _ _ _ H2).
  assert (commitment ac1' = commitment ac) as -> by (unfold settings in Hs1; naive_solver).
  destruct (net_getMultipleAccounts (sc_fetch st) (commitment ac)) as [[slot values]|e|];
    [|by exists (Err e), ac2|by exists Panic, ac2].
  rewrite (run_lift _ _ _ (slot, values)) by done. cbn [fst snd].
  case_decide as Hlen.
  - destruct (fillFetched_run ac2 values 0 st slot later_ Hi2) as (out & ac3 & H3 & _ & Hl & Hno & Hyes);
      [apply Hok|done| |].
    { intros k k' j Hk Hk'. apply (scan_positions _ _ _ _ Hok) in Hk, Hk'. destruct_and! Hk. destruct_and! Hk'. congruence. }
    rewrite drop_0 in Hyes. change (Z.of_nat 0) with 0 in H3. rewrite (run_bind _ _ _ _ _ H3). exists (Ok (slot, out)), ac3. split; [done|].
    by rewrite (fill_finished _ _ _ _ _ Hok Hl Hno Hyes).
  - destruct (fillFetched_panics ac2 values 0 st slot later_ Hi2) as (ac3 & H3); [lia|lia|].
    change (Z.of_nat 0) with 0 in H3. exists Panic, ac3. split; [|done]. unfold mbind, gom_bind. by rewrite H3.
Qed.

Lemma get_multiple_accounts_spec_witness :
  let ac := newAccountCache (Account:=Z) None in
  let sv := served (freshFor ac) 100 (contents ac) in
  let accounts := [zeros 32; replicate 32 1; zeros 32] in
  ∃ fetch, NoDup fetch ∧ (∀ key, key ∈ fetch ↔ key ∈ accounts ∧ sv key = None) ∧
  ∃ r ac', cachedGetMultipleAccounts (net:=oneAccount) accounts 100 [] 200 ac = (r, ac') ∧
    if decide (fetch = []) then r = Ok (0, (λ key, default None (sv key)) <$> accounts) else
    match net_getMultipleAccounts (Network:=oneAccount) fetch (commitment ac) with
    | Ok (slot, values) =>
      if decide (length values ≤ length fetch)%nat then
        r = Ok (slot, (λ key, default (default None (answers fetch values !! key)) (sv key)) <$> accounts)
      else r = Panic
    | Err e => r = Err e
    | Panic => r = Panic
    end.
Proof.
  apply (get_multiple_accounts_spec (net:=oneAccount) _ [zeros 32; replicate 32 1; zeros 32] 100 [] 200).
  by apply newAccountCache_inv.
Defined.
