(* ===== verification/Geyser.v ===== *)
(** Geyser: the messages of the Yellowstone gRPC protocol that the client converts
    (yellowstone/proto: geyser.pb.go and solana-storage.pb.go), without the protobuf
    runtime's own fields (state, unknownFields, sizeCache), and the getters of
    [SubscribeUpdate]. Pointers and optional
    fields are options; elements of repeated messages are never nil. *)
From Stdlib Require Import ZArith Lia.
From stdpp Require Import base numbers strings gmap list.
From S2P Require Import Prelude.

Open Scope Z_scope.

(** * solana-storage.pb.go *)

Record MessageHeader := mkMessageHeader {
  NumRequiredSignatures : Z;
  NumReadonlySignedAccounts : Z;
  NumReadonlyUnsignedAccounts : Z;
}.

Record CompiledInstruction := mkCompiledInstruction {
  ProgramIdIndex : Z;
  Accounts : bytes;
  Data : bytes;
}.

Record MessageAddressTableLookup := mkMessageAddressTableLookup {
  AccountKey : bytes;
  WritableIndexes : bytes;
  ReadonlyIndexes : bytes;
}.

Record TransactionConfig := mkTransactionConfig {
  PriorityFee : option Z;
  ComputeUnitLimit : option Z;
  LoadedAccountsDataSizeLimit : option Z;
  HeapSize : option Z;
}.

Record Message := mkMessage {
  Header : option MessageHeader;
  AccountKeys : list bytes;
  RecentBlockhash : bytes;
  Instructions : list CompiledInstruction;
  Versioned : bool;
  AddressTableLookups : list MessageAddressTableLookup;
  Config : option TransactionConfig;
}.

Record Transaction := mkTransaction {
  Signatures : list bytes;
  MessageOf : option Message;
}.

Record InnerInstruction := mkInnerInstruction {
  InnerProgramIdIndex : Z;
  InnerAccounts : bytes;
  InnerData : bytes;
  StackHeight : option Z;
}.

Definition GetStackHeight (x : InnerInstruction) : Z := default 0 (StackHeight x).

Record InnerInstructions := mkInnerInstructions {
  Index : Z;
  InnerInstructionsOf : list InnerInstruction;
}.

(** A float64 is its 64 bits. *)
Record UiTokenAmount := mkUiTokenAmount {
  UiAmount : Z;
  Decimals : Z;
  Amount : bytes;
  UiAmountString : bytes;
}.

Record TokenBalance := mkTokenBalance {
  AccountIndex : Z;
  Mint : bytes;
  UiTokenAmountOf : option UiTokenAmount;
  Owner : bytes;
  ProgramId : bytes;
}.

Record ReturnData := mkReturnData {
  ReturnProgramId : bytes;
  ReturnDataBytes : bytes;
}.

(** [RewardType]: an int32. *)
Record Reward := mkReward {
  Pubkey : bytes;
  Lamports : Z;
  PostBalance : Z;
  RewardType : Z;
  Commission : bytes;
  CommissionBps : bytes;
}.

(** [RewardType_name]: the names of the enum's values. *)
Definition RewardType_name : gmap Z bytes := list_to_map (zip (seqZ 0 6)
  (str <$> ["Unspecified"; "Fee"; "Rent"; "Staking"; "Voting"; "DeactivatedStake"]%string)).

Record TransactionError := mkTransactionError { ErrBytes : bytes }.

Record TransactionStatusMeta := mkTransactionStatusMeta {
  Err_ : option TransactionError;
  Fee : Z;
  PreBalances : list Z;
  PostBalances : list Z;
  InnerInstructionsList : list InnerInstructions;
  InnerInstructionsNone : bool;
  LogMessages : list bytes;
  LogMessagesNone : bool;
  PreTokenBalances : list TokenBalance;
  PostTokenBalances : list TokenBalance;
  MetaRewards : list Reward;
  LoadedWritableAddresses : list bytes;
  LoadedReadonlyAddresses : list bytes;
  ReturnDataOf : option ReturnData;
  ReturnDataNone : bool;
  ComputeUnitsConsumed : option Z;
  CostUnits : option Z;
}.

Record NumPartitions := mkNumPartitions { NumPartitionsOf : Z }.
Record Rewards := mkRewards { RewardsOf : list Reward; NumPartitionsPtr : option NumPartitions }.
Record UnixTimestamp := mkUnixTimestamp { Timestamp : Z }.
Record BlockHeight := mkBlockHeight { BlockHeightOf : Z }.

(** * geyser.pb.go *)

Definition SlotStatus_SLOT_PROCESSED : Z := 0.
Definition SlotStatus_SLOT_CONFIRMED : Z := 1.
Definition SlotStatus_SLOT_FINALIZED : Z := 2.

Record SubscribeUpdateAccountInfo := mkSubscribeUpdateAccountInfo {
  InfoPubkey : bytes;
  InfoLamports : Z;
  InfoOwner : bytes;
  Executable : bool;
  RentEpoch : Z;
  InfoData : bytes;
  WriteVersion : Z;
  TxnSignature : bytes;
}.

Record SubscribeUpdateAccount := mkSubscribeUpdateAccount {
  Account : option SubscribeUpdateAccountInfo;
  AccountSlot : Z;
  IsStartup : bool;
}.

Record SubscribeUpdateSlot := mkSubscribeUpdateSlot {
  Slot : Z;
  Parent : option Z;
  Status : Z;
  DeadError : option bytes;
}.

Record SubscribeUpdateTransactionInfo := mkSubscribeUpdateTransactionInfo {
  Signature : bytes;
  IsVote : bool;
  TransactionOf : option Transaction;
  Meta : option TransactionStatusMeta;
  TxIndex : Z;
}.

Record SubscribeUpdateTransaction := mkSubscribeUpdateTransaction {
  TransactionInfo : option SubscribeUpdateTransactionInfo;
  TransactionSlot : Z;
}.

Record SubscribeUpdateBlockMeta := mkSubscribeUpdateBlockMeta {
  MetaSlot : Z;
  Blockhash : bytes;
  BlockRewards : option Rewards;
  BlockTime : option UnixTimestamp;
  MetaBlockHeight : option BlockHeight;
  ParentSlot : Z;
  ParentBlockhash : bytes;
  ExecutedTransactionCount : Z;
  EntriesCount : Z;
}.

(** The payload: a pointer each. The kinds that this module never looks into are
    [SubscribeUpdate_Other]. *)
Inductive update_oneof :=
  | SubscribeUpdate_Account (Account : option SubscribeUpdateAccount)
  | SubscribeUpdate_Slot (Slot : option SubscribeUpdateSlot)
  | SubscribeUpdate_Transaction (Transaction : option SubscribeUpdateTransaction)
  | SubscribeUpdate_BlockMeta (BlockMeta : option SubscribeUpdateBlockMeta)
  | SubscribeUpdate_Other.

(** [CreatedAt]: the seconds and nanoseconds of a timestamp. *)
Record SubscribeUpdate := mkSubscribeUpdate {
  Filters : list bytes;
  UpdateOneof : option update_oneof;
  CreatedAt : option (Z * Z);
}.

(** The getters, which a nil receiver answers with nil. *)
Definition GetAccount (x : option SubscribeUpdate) : option SubscribeUpdateAccount :=
  match x ≫= UpdateOneof with Some (SubscribeUpdate_Account a) => a | _ => None end.
Definition GetSlot (x : option SubscribeUpdate) : option SubscribeUpdateSlot :=
  match x ≫= UpdateOneof with Some (SubscribeUpdate_Slot s) => s | _ => None end.
Definition GetTransaction (x : option SubscribeUpdate) : option SubscribeUpdateTransaction :=
  match x ≫= UpdateOneof with Some (SubscribeUpdate_Transaction t) => t | _ => None end.
Definition GetBlockMeta (x : option SubscribeUpdate) : option SubscribeUpdateBlockMeta :=
  match x ≫= UpdateOneof with Some (SubscribeUpdate_BlockMeta m) => m | _ => None end.

(** The filters of a subscription request. *)
Record CuckooFilter := mkCuckooFilter {
  CuckooData : bytes;
  BucketCount : Z;
  EntriesPerBucket : Z;
  FingerprintBits : Z;
  HashSeed : Z;
  HashAlgorithm : Z;
}.
Inductive memcmp_data := Memcmp_Bytes (Bytes : bytes) | Memcmp_Base58 (Base58 : bytes) | Memcmp_Base64 (Base64 : bytes).
Record SubscribeRequestFilterAccountsFilterMemcmp := mkMemcmp { MemcmpOffset : Z; MemcmpData : option memcmp_data }.
Inductive lamports_cmp := Lamports_Eq (Eq : Z) | Lamports_Ne (Ne : Z) | Lamports_Lt (Lt : Z) | Lamports_Gt (Gt : Z).
Record SubscribeRequestFilterAccountsFilterLamports := mkFilterLamports { Cmp : option lamports_cmp }.
Inductive accounts_filter :=
  | Filter_Memcmp (Memcmp : option SubscribeRequestFilterAccountsFilterMemcmp)
  | Filter_Datasize (Datasize : Z)
  | Filter_TokenAccountState (TokenAccountState : bool)
  | Filter_Lamports (Lamports : option SubscribeRequestFilterAccountsFilterLamports).
Record SubscribeRequestFilterAccountsFilter := mkAccountsFilter { Filter : option accounts_filter }.

Record SubscribeRequestFilterAccounts := mkFilterAccounts {
  FilterAccount : list bytes;
  FilterOwner : list bytes;
  AccountsFilters : list SubscribeRequestFilterAccountsFilter;
  NonemptyTxnSignature : option bool;
  CuckooAccountsFilter : option CuckooFilter;
}.
Record SubscribeRequestFilterSlots := mkFilterSlots {
  FilterByCommitment : option bool;
  InterslotUpdates : option bool;
}.
Record SubscribeRequestFilterTransactions := mkFilterTransactions {
  Vote : option bool;
  Failed : option bool;
  FilterSignature : option bytes;
  AccountInclude : list bytes;
  AccountExclude : list bytes;
  AccountRequired : list bytes;
  CuckooAccountInclude : option CuckooFilter;
  TokenAccounts : option Z;
}.
Record SubscribeRequestFilterBlocks := mkFilterBlocks {
  BlockAccountInclude : list bytes;
  IncludeTransactions : option bool;
  IncludeAccounts : option bool;
  IncludeEntries : option bool;
  BlockCuckooInclude : option CuckooFilter;
}.
Record SubscribeRequestFilterBlocksMeta := mkFilterBlocksMeta {}.
Record SubscribeRequestFilterEntry := mkFilterEntry {}.
Record SubscribeRequestAccountsDataSlice := mkDataSlice { Offset : Z; Length : Z }.
Record SubscribeRequestPing := mkRequestPing { PingId : Z }.

Record SubscribeRequest := mkSubscribeRequest {
  ReqAccounts : gmap bytes SubscribeRequestFilterAccounts;
  ReqSlots : gmap bytes SubscribeRequestFilterSlots;
  ReqTransactions : gmap bytes SubscribeRequestFilterTransactions;
  ReqTransactionsStatus : gmap bytes SubscribeRequestFilterTransactions;
  ReqBlocks : gmap bytes SubscribeRequestFilterBlocks;
  ReqBlocksMeta : gmap bytes SubscribeRequestFilterBlocksMeta;
  ReqEntry : gmap bytes SubscribeRequestFilterEntry;
  ReqCommitment : option Z;
  AccountsDataSlice : list SubscribeRequestAccountsDataSlice;
  ReqPing : option SubscribeRequestPing;
  FromSlot : option Z;
}.
