(* ===== verification/Yellowstone.v ===== *)
(** Yellowstone: the conversion of streamed updates into the types of the SDK
    (yellowstone/convert.go), the subscription requests (subscribe.go) and the
    dialing options of the gRPC client (client.go). The gRPC connection itself is a
    third-party package. *)
From Stdlib Require Import ZArith Lia.
From stdpp Require Import base numbers strings gmap list.
From S2P Require Import Prelude Geyser RpcTypes Keys TextForms Message PrivateKey Transaction TransactionV1 MessageJson.

Open Scope Z_scope.

(** * strconv.ParseUint in base 10 *)

Inductive parse_err := ErrSyntax | ErrRange.

(** The digits in order: a character that is none is an error of syntax, a value
    beyond [maxVal] one of range, whichever comes first. *)
Fixpoint parseDigits (maxVal n : Z) (s : bytes) : outcome parse_err Z :=
  match s with
  | [] => Ok n
  | c :: s' =>
    if decide (48 ≤ c ≤ 57) then
      let n := n * 10 + (c - 48) in
      if decide (maxVal < n) then Err ErrRange else parseDigits maxVal n s'
    else Err ErrSyntax
  end.
Definition ParseUint (s : bytes) (bitSize : Z) : outcome parse_err Z :=
  if decide (s = []) then Err ErrSyntax else parseDigits (2 ^ bitSize - 1) 0 s.

(** * Errors *)

(** [TransactionError]: the bincode bytes of the failure. *)
Record StreamError := mkStreamError { Raw : bytes }.

Definition Variant (e : StreamError) : outcome text_err Z :=
  if decide (len (Raw e) < 4) then Ok (-1) else b ← slice_to (Raw e) 4; Ok (le_val b).

Inductive convert_err :=
  | errNoTransaction
  | errNoTransactionInUpdate
  | errNoMessage
  | errIsVersion1
  | errNoTransactionMessage
  | errNotVersion1
  | errV1Lookups
  | errVersion (e : message_err)
  | errPreTokenBalances (e : convert_err)
  | errPostTokenBalances (e : convert_err)
  | errMint (e : text_err)
  | errOwner (e : text_err)
  | errProgramID (e : text_err)
  | errRewardPubkey (e : text_err)
  | errRewardCommission (e : parse_err)
  | errRewardCommissionBps (e : parse_err).

(** * convert.go *)

(** [copy(out[:], in)]. *)
Definition pubkeyFromBytes (input : bytes) : PublicKey := copy_into zeroKey input.
Definition hashFromBytes (input : bytes) : Hash := copy_into zeroKey input.

Definition convertPubkeys (input : list bytes) : list PublicKey := pubkeyFromBytes <$> input.

(** [out[i] = uint16(idx)] of a byte. *)
Definition convertAccountIndexes (input : bytes) : list Z := u16 <$> input.

Definition convertInstructions (input : list Geyser.CompiledInstruction) : list Keys.CompiledInstruction :=
  (λ ins, Keys.mkCompiledInstruction (u16 (Geyser.ProgramIdIndex ins)) (convertAccountIndexes (Geyser.Accounts ins))
            (Geyser.Data ins)) <$> input.

Definition convertHeader (h : Geyser.MessageHeader) : MessageHeader :=
  mkMessageHeader (u8 (Geyser.NumRequiredSignatures h)) (u8 (Geyser.NumReadonlySignedAccounts h))
    (u8 (Geyser.NumReadonlyUnsignedAccounts h)).

Definition convertLookup (lookup : Geyser.MessageAddressTableLookup) : MessageAddressTableLookup :=
  mkLookup (pubkeyFromBytes (Geyser.AccountKey lookup)) (Geyser.WritableIndexes lookup) (Geyser.ReadonlyIndexes lookup).

(** [protoimpl.X.EnumStringOf]: the value's name, or its number. *)
Definition RewardType_String (v : Z) : bytes :=
  match RewardType_name !! v with
  | Some name => name
  | None => if decide (v < 0) then 45 :: uintDigits 20 (- v) else uintDigits 20 v
  end.

Section convert.
Context {b58 : Base58Codec}.

Definition optionalKey (e : text_err → convert_err) (text : bytes) : outcome convert_err (option PublicKey) :=
  if decide (text ≠ []) then key ← wrap_err e (PublicKeyFromBase58 text); Ok (Some key) else Ok None.

Definition convertTokenBalance (balance : Geyser.TokenBalance) : outcome convert_err TokenBalance :=
  mint ← wrap_err errMint (PublicKeyFromBase58 (Geyser.Mint balance));
  owner ← optionalKey errOwner (Geyser.Owner balance);
  program ← optionalKey errProgramID (Geyser.ProgramId balance);
  Ok (mkTokenBalance (u16 (Geyser.AccountIndex balance)) owner program mint
    ((λ amount, mkUiTokenAmount (Geyser.Amount amount) (u8 (Geyser.Decimals amount)) (Some (Geyser.UiAmount amount))
                  (Geyser.UiAmountString amount)) <$> Geyser.UiTokenAmountOf balance)).

Fixpoint convertTokenBalances (input : list Geyser.TokenBalance) : outcome convert_err (list TokenBalance) :=
  match input with
  | [] => Ok []
  | balance :: input' => b ← convertTokenBalance balance; out ← convertTokenBalances input'; Ok (b :: out)
  end.

Definition optionalUint (e : parse_err → convert_err) (text : bytes) (bitSize : Z) : outcome convert_err (option Z) :=
  if decide (text ≠ []) then v ← wrap_err e (ParseUint text bitSize); Ok (Some v) else Ok None.

Definition convertReward (reward : Geyser.Reward) : outcome convert_err BlockReward :=
  pubkey ← wrap_err errRewardPubkey (PublicKeyFromBase58 (Geyser.Pubkey reward));
  commission ← optionalUint errRewardCommission (Geyser.Commission reward) 8;
  commissionBps ← optionalUint errRewardCommissionBps (Geyser.CommissionBps reward) 16;
  Ok (mkBlockReward pubkey (Geyser.Lamports reward) (Geyser.PostBalance reward)
        (RewardType_String (Geyser.RewardType reward)) commission commissionBps).

Fixpoint convertRewards (input : list Geyser.Reward) : outcome convert_err (list BlockReward) :=
  match input with
  | [] => Ok []
  | reward :: input' => r ← convertReward reward; out ← convertRewards input'; Ok (r :: out)
  end.

Definition convertInner (inner : Geyser.InnerInstructions) : InnerInstruction :=
  mkInnerInstruction (u16 (Geyser.Index inner))
    ((λ ins, RpcTypes.mkCompiledInstruction (u16 (Geyser.InnerProgramIdIndex ins))
               (convertAccountIndexes (Geyser.InnerAccounts ins)) (Geyser.InnerData ins)
               (u16 (Geyser.GetStackHeight ins))) <$> Geyser.InnerInstructionsOf inner).

Definition convertMeta (m : option Geyser.TransactionStatusMeta) : outcome convert_err (option (TransactionMeta StreamError)) :=
  match m with
  | None => Ok None
  | Some m =>
    let err :=
      match Geyser.Err_ m with
      | Some e => if decide (0 < len (Geyser.ErrBytes e)) then Some (mkStreamError (Geyser.ErrBytes e)) else None
      | None => None
      end in
    pre ← wrap_err errPreTokenBalances (convertTokenBalances (Geyser.PreTokenBalances m));
    post ← wrap_err errPostTokenBalances (convertTokenBalances (Geyser.PostTokenBalances m));
    rewards ← convertRewards (Geyser.MetaRewards m);
    Ok (Some (mkTransactionMeta _ err (Geyser.Fee m) (Geyser.PreBalances m) (Geyser.PostBalances m)
      (convertInner <$> Geyser.InnerInstructionsList m) pre post (Geyser.LogMessages m) rewards
      (mkLoadedAddresses (convertPubkeys (Geyser.LoadedReadonlyAddresses m))
         (convertPubkeys (Geyser.LoadedWritableAddresses m)))
      (match Geyser.ReturnDataOf m with
       | Some r => mkReturnData (pubkeyFromBytes (Geyser.ReturnProgramId r))
                     (mkData (Geyser.ReturnDataBytes r) EncodingBase64)
       | None => zeroReturnData
       end)
      (Geyser.ComputeUnitsConsumed m) (Geyser.CostUnits m)))
  end.

(** [*Update]: nil, or the struct around an update that may be nil. *)
Record Update := mkUpdate { SubscribeUpdateOf : option Geyser.SubscribeUpdate }.
Definition NewUpdate (update : option Geyser.SubscribeUpdate) : Update := mkUpdate update.
Definition updateOf (u : option Update) : option Geyser.SubscribeUpdate := u ≫= SubscribeUpdateOf.

(** [u.GetTransaction().GetTransaction()]. *)
Definition transactionInfo (u : option Update) : option Geyser.SubscribeUpdateTransactionInfo :=
  Geyser.GetTransaction (updateOf u) ≫= Geyser.TransactionInfo.

(** The message before its version is set. *)
Definition convertMessage (msg : Geyser.Message) : Message :=
  mkMessage MessageVersionLegacy (pubkeyFromBytes <$> Geyser.AccountKeys msg)
    (match Geyser.Header msg with Some h => convertHeader h | None => zeroHeader end)
    (hashFromBytes (Geyser.RecentBlockhash msg)) (convertInstructions (Geyser.Instructions msg)) [].

Definition Update_Transaction (u : option Update)
    : outcome convert_err (Transaction * option (TransactionMeta StreamError)) :=
  match updateOf u with None => Err errNoTransaction | Some _ =>
  match transactionInfo u with None => Err errNoTransactionInUpdate | Some info =>
  match Geyser.TransactionOf info with None => Err errNoTransactionInUpdate | Some transaction =>
  match Geyser.MessageOf transaction with None => Err errNoMessage | Some msg =>
  match Geyser.Config msg with Some _ => Err errIsVersion1 | None =>
    let message := convertMessage msg in
    message ←
      (if Geyser.Versioned msg then
         match SetVersion MessageVersionV0 message with
         | (Ok _, message) =>
           Ok (if decide (0 < len (Geyser.AddressTableLookups msg)) then
                 SetAddressTableLookups (convertLookup <$> Geyser.AddressTableLookups msg) message
               else message)
         | (Err e, _) => Err (errVersion e)
         | (Panic, _) => Panic
         end
       else Ok message);
    meta ← convertMeta (Geyser.Meta info);
    Ok (mkTransaction (SignatureFromBytes <$> Geyser.Signatures transaction) message, meta)
  end end end end end.

(** The transaction comes with the error of its metadata. *)
Definition Update_TransactionV1 (u : option Update)
    : outcome convert_err (TransactionV1 * outcome convert_err (option (TransactionMeta StreamError))) :=
  match updateOf u with None => Err errNoTransaction | Some _ =>
  match (info ← transactionInfo u; transaction ← Geyser.TransactionOf info; msg ← Geyser.MessageOf transaction;
         Some (info, transaction, msg)) with
  | None => Err errNoTransactionMessage
  | Some (info, transaction, msg) =>
  match Geyser.Config msg with None => Err errNotVersion1 | Some config =>
    if decide (len (Geyser.AddressTableLookups msg) ≠ 0) then Err errV1Lookups else
    Ok (mkTransactionV1
          (match Geyser.Header msg with Some h => convertHeader h | None => zeroHeader end)
          (mkConfig (Geyser.PriorityFee config) (Geyser.ComputeUnitLimit config)
             (Geyser.LoadedAccountsDataSizeLimit config) (Geyser.HeapSize config))
          (hashFromBytes (Geyser.RecentBlockhash msg)) (convertPubkeys (Geyser.AccountKeys msg))
          (convertInstructions (Geyser.Instructions msg)) (SignatureFromBytes <$> Geyser.Signatures transaction),
        convertMeta (Geyser.Meta info))
  end end end.
End convert.

Record AccountUpdate := mkAccountUpdate {
  UpdatePubkey : PublicKey;
  UpdateLamports : Z;
  UpdateOwner : PublicKey;
  UpdateExecutable : bool;
  UpdateRentEpoch : Z;
  UpdateData : bytes;
  WriteVersion : Z;
  TxnSignature : option Signature;
  UpdateSlot : Z;
  IsStartup : bool;
}.

Definition Update_Account (u : option Update) : option AccountUpdate :=
  account ← Geyser.GetAccount (updateOf u);
  info ← Geyser.Account account;
  Some (mkAccountUpdate (pubkeyFromBytes (Geyser.InfoPubkey info)) (Geyser.InfoLamports info)
    (pubkeyFromBytes (Geyser.InfoOwner info)) (Geyser.Executable info) (Geyser.RentEpoch info) (Geyser.InfoData info)
    (Geyser.WriteVersion info)
    (if decide (0 < len (Geyser.TxnSignature info)) then Some (SignatureFromBytes (Geyser.TxnSignature info)) else None)
    (Geyser.AccountSlot account) (Geyser.IsStartup account)).

(** * subscribe.go *)

Definition NewRequest (commitment : Z) : Geyser.SubscribeRequest :=
  Geyser.mkSubscribeRequest ∅ ∅ ∅ ∅ ∅ ∅ ∅ (Some commitment) [] None None.

Section requests.
Context (r : Geyser.SubscribeRequest).

Definition AddAccounts (name : bytes) filter := Geyser.mkSubscribeRequest (<[name := filter]> (Geyser.ReqAccounts r))
  (Geyser.ReqSlots r) (Geyser.ReqTransactions r) (Geyser.ReqTransactionsStatus r) (Geyser.ReqBlocks r)
  (Geyser.ReqBlocksMeta r) (Geyser.ReqEntry r) (Geyser.ReqCommitment r)
  (Geyser.AccountsDataSlice r) (Geyser.ReqPing r) (Geyser.FromSlot r).
Definition AddSlots (name : bytes) filter := Geyser.mkSubscribeRequest (Geyser.ReqAccounts r)
  (<[name := filter]> (Geyser.ReqSlots r)) (Geyser.ReqTransactions r) (Geyser.ReqTransactionsStatus r)
  (Geyser.ReqBlocks r) (Geyser.ReqBlocksMeta r) (Geyser.ReqEntry r) (Geyser.ReqCommitment r)
  (Geyser.AccountsDataSlice r) (Geyser.ReqPing r) (Geyser.FromSlot r).
Definition AddTransactions (name : bytes) filter := Geyser.mkSubscribeRequest (Geyser.ReqAccounts r)
  (Geyser.ReqSlots r) (<[name := filter]> (Geyser.ReqTransactions r)) (Geyser.ReqTransactionsStatus r)
  (Geyser.ReqBlocks r) (Geyser.ReqBlocksMeta r) (Geyser.ReqEntry r) (Geyser.ReqCommitment r)
  (Geyser.AccountsDataSlice r) (Geyser.ReqPing r) (Geyser.FromSlot r).
Definition AddTransactionStatuses (name : bytes) filter := Geyser.mkSubscribeRequest (Geyser.ReqAccounts r)
  (Geyser.ReqSlots r) (Geyser.ReqTransactions r) (<[name := filter]> (Geyser.ReqTransactionsStatus r))
  (Geyser.ReqBlocks r) (Geyser.ReqBlocksMeta r) (Geyser.ReqEntry r) (Geyser.ReqCommitment r)
  (Geyser.AccountsDataSlice r) (Geyser.ReqPing r) (Geyser.FromSlot r).
Definition AddBlocks (name : bytes) filter := Geyser.mkSubscribeRequest (Geyser.ReqAccounts r)
  (Geyser.ReqSlots r) (Geyser.ReqTransactions r) (Geyser.ReqTransactionsStatus r)
  (<[name := filter]> (Geyser.ReqBlocks r)) (Geyser.ReqBlocksMeta r) (Geyser.ReqEntry r) (Geyser.ReqCommitment r)
  (Geyser.AccountsDataSlice r) (Geyser.ReqPing r) (Geyser.FromSlot r).
Definition AddBlocksMeta (name : bytes) filter := Geyser.mkSubscribeRequest (Geyser.ReqAccounts r)
  (Geyser.ReqSlots r) (Geyser.ReqTransactions r) (Geyser.ReqTransactionsStatus r)
  (Geyser.ReqBlocks r) (<[name := filter]> (Geyser.ReqBlocksMeta r)) (Geyser.ReqEntry r) (Geyser.ReqCommitment r)
  (Geyser.AccountsDataSlice r) (Geyser.ReqPing r) (Geyser.FromSlot r).
Definition AddEntries (name : bytes) filter := Geyser.mkSubscribeRequest (Geyser.ReqAccounts r)
  (Geyser.ReqSlots r) (Geyser.ReqTransactions r) (Geyser.ReqTransactionsStatus r)
  (Geyser.ReqBlocks r) (Geyser.ReqBlocksMeta r) (<[name := filter]> (Geyser.ReqEntry r)) (Geyser.ReqCommitment r)
  (Geyser.AccountsDataSlice r) (Geyser.ReqPing r) (Geyser.FromSlot r).

Definition AccountsByOwner (name : bytes) (owners : list bytes) := AddAccounts name (Geyser.mkFilterAccounts [] owners [] None None).
Definition AccountsByKey (name : bytes) (keys : list bytes) := AddAccounts name (Geyser.mkFilterAccounts keys [] [] None None).
Definition AllSlots (name : bytes) := AddSlots name (Geyser.mkFilterSlots None None).
Definition TransactionsByAccount (name : bytes) (accounts : list bytes) :=
  AddTransactions name (Geyser.mkFilterTransactions None None None accounts [] [] None None).
Definition TransactionsByAccountRequired (name : bytes) (accounts : list bytes) :=
  AddTransactions name (Geyser.mkFilterTransactions None None None [] [] accounts None None).
Definition TransactionStatusesByAccount (name : bytes) (accounts : list bytes) :=
  AddTransactionStatuses name (Geyser.mkFilterTransactions None None None accounts [] [] None None).
Definition TransactionStatusesByAccountRequired (name : bytes) (accounts : list bytes) :=
  AddTransactionStatuses name (Geyser.mkFilterTransactions None None None [] [] accounts None None).
Definition BlocksIncluding (name : bytes) (accounts : list bytes) :=
  AddBlocks name (Geyser.mkFilterBlocks accounts None None None None).
Definition AllBlocksMeta (name : bytes) := AddBlocksMeta name Geyser.mkFilterBlocksMeta.
Definition AllEntries (name : bytes) := AddEntries name Geyser.mkFilterEntry.
End requests.

(** * client.go *)

(** Durations in nanoseconds; the raw dial options are an opaque list. *)
Record options {grpcOpt : Type} := mkOptions {
  token : bytes;
  insecure : bool;
  maxRecvSize : Z;
  keepalive : Z;
  grpcOpts : list grpcOpt;
}.
Arguments options : clear implicits.

(** What [Connect] hands to [grpc.NewClient]: the target, whether the credentials
    are TLS, the message limit, the keepalive parameters and the raw options. *)
Record dialConfig {grpcOpt : Type} := mkDialConfig {
  target : bytes;
  useTLS : bool;
  dialMaxRecvSize : Z;
  dialKeepalive : option Z;
  dialOpts : list grpcOpt;
}.
Arguments dialConfig : clear implicits.

Definition HasPrefix (s prefix : bytes) : bool := bool_decide (take (length prefix) s = prefix).
Definition HasSuffix (s suffix : bytes) : bool :=
  bool_decide ((length suffix ≤ length s)%nat ∧ drop (length s - length suffix) s = suffix).
Definition TrimPrefix (s prefix : bytes) : bytes := if HasPrefix s prefix then drop (length prefix) s else s.
Definition TrimSuffix (s suffix : bytes) : bytes := if HasSuffix s suffix then take (length s - length suffix) s else s.

Section connect.
Context {grpcOpt : Type}.
Abbreviation Option := (options grpcOpt → options grpcOpt).

Definition WithToken (t : bytes) : Option := λ o, mkOptions _ t (insecure o) (maxRecvSize o) (keepalive o) (grpcOpts o).
Definition WithInsecure : Option := λ o, mkOptions _ (token o) true (maxRecvSize o) (keepalive o) (grpcOpts o).
Definition WithMaxRecvSize (size : Z) : Option := λ o, mkOptions _ (token o) (insecure o) size (keepalive o) (grpcOpts o).
Definition WithKeepalive (interval : Z) : Option := λ o,
  mkOptions _ (token o) (insecure o) (maxRecvSize o) interval (grpcOpts o).
Definition WithGRPCOptions (opts : list grpcOpt) : Option := λ o,
  mkOptions _ (token o) (insecure o) (maxRecvSize o) (keepalive o) (grpcOpts o ++ opts).

(** [Connect] up to the dial, with the token of the client. *)
Definition Connect (endpoint : bytes) (opts : list Option) : dialConfig grpcOpt * bytes :=
  let o := foldl (λ o opt, opt o) (mkOptions _ [] false 1073741824 30000000000 []) opts in
  let '(target, useTLS) :=
    if HasPrefix endpoint (str "https://") then (TrimPrefix endpoint (str "https://"), true)
    else if HasPrefix endpoint (str "http://") then (TrimPrefix endpoint (str "http://"), false)
    else (endpoint, false) in
  let target := TrimSuffix target (str "/") in
  let useTLS := if HasSuffix target (str ":443") then true else useTLS in
  (mkDialConfig _ target (useTLS && negb (insecure o)) (maxRecvSize o)
     (if decide (0 < keepalive o) then Some (keepalive o) else None) (grpcOpts o), token o).
End connect.
