(* ===== verification/YellowstonePipe.v ===== *)
(** YellowstonePipe: the loop that feeds a stream of updates into a cache
    (yellowstone/pipe.go, with Recv of subscribe.go). A sink is a typeclass, as the
    interfaces AccountSink and CacheSink of the code; the RPC client with its cache
    is an instance, shared with goroutines that work on the cache between the calls. *)
From Stdlib Require Import ZArith Lia.
From stdpp Require Import base numbers strings gmap list.
From S2P Require Import Prelude Geyser RpcTypes Keys TextForms Yellowstone Cache.

Open Scope Z_scope.

(** * The stream *)

(** How a stream ends: [io.EOF], or an error. *)
Inductive stream_end := EOF | StreamErr (e : bytes).

(** The updates still to come, and the end of the stream. *)
Record Stream := mkStream { updates : list (option Geyser.SubscribeUpdate); ending : stream_end }.

Definition Recv : GoM Stream stream_end Update := λ s,
  match updates s with
  | [] => (Err (ending s), s)
  | update :: rest => (Ok (NewUpdate update), mkStream rest (ending s))
  end.

(** * Sinks *)

Class AccountSink (S : Type) := {
  sinkStreamed : PublicKey → RpcTypes.Account → Z → GoM S rpc_err unit;
}.
Class CacheSink (S : Type) := {
  cacheSink_AccountSink :: AccountSink S;
  sinkSlot : CommitmentType → Z → GoM S rpc_err unit;
  sinkBlockHeight : CommitmentType → Z → GoM S rpc_err unit;
  sinkLatestBlockhash : CommitmentType → Hash → Z → Z → GoM S rpc_err unit;
}.

Definition maxBlockhashAge : Z := 150.

(** [slotCommitment]: the commitment of a slot status. *)
Definition slotCommitment (status : Z) : option CommitmentType :=
  if decide (status = Geyser.SlotStatus_SLOT_PROCESSED) then Some CommitmentProcessed
  else if decide (status = Geyser.SlotStatus_SLOT_CONFIRMED) then Some CommitmentConfirmed
  else if decide (status = Geyser.SlotStatus_SLOT_FINALIZED) then Some CommitmentFinalized
  else None.

(** The account that [storeAccount] stores: the data is a copy. *)
Definition storedAccount (converted : AccountUpdate) : RpcTypes.Account :=
  let data := copy_into (zeros (length (UpdateData converted))) (UpdateData converted) in
  RpcTypes.mkAccount (UpdateLamports converted) (UpdateOwner converted) (Some (DataBytesOrJSONFromBytes data))
    (UpdateExecutable converted) (Some (UpdateRentEpoch converted)) (u64 (len data)).

Section pipe.
Context {b58 : Base58Codec} {S : Type}.
Abbreviation M := (GoM S rpc_err).

Definition storeAccount `{AccountSink S} (u : Update) : M unit :=
  match Update_Account (Some u) with
  | None => mret tt
  | Some converted => sinkStreamed (UpdatePubkey converted) (storedAccount converted) (UpdateSlot converted)
  end.

(** The switch of [Pipe]. *)
Definition pipeUpdate `{CacheSink S} (commitment : CommitmentType) (u : Update) : M unit :=
  match Geyser.GetAccount (SubscribeUpdateOf u) with
  | Some _ => storeAccount u
  | None =>
  match Geyser.GetSlot (SubscribeUpdateOf u) with
  | Some slot =>
    match slotCommitment (Geyser.Status slot) with
    | Some c => sinkSlot c (Geyser.Slot slot)
    | None => mret tt
    end
  | None =>
  match Geyser.GetBlockMeta (SubscribeUpdateOf u) with
  | Some meta =>
    match Geyser.MetaBlockHeight meta with
    | Some h =>
      let height := Geyser.BlockHeightOf h in
      _ ← sinkBlockHeight commitment height;
      match HashFromBase58 (Geyser.Blockhash meta) with
      | Ok hash => sinkLatestBlockhash commitment hash (u64 (height + maxBlockhashAge)) (Geyser.MetaSlot meta)
      | Err _ => mret tt
      | Panic => lift Panic
      end
    | None => mret tt
    end
  | None => mret tt
  end end end.

(** The loops until the end of the stream, which they return: nil is [None]. Each
    round receives one of the updates that are left; [fuel] is more than these. *)
Fixpoint recvLoop (handle : Update → M unit) (fuel : nat) (stream : Stream) : M (option stream_end) :=
  match fuel with
  | O => lift Panic
  | Datatypes.S fuel' =>
    match Recv stream with
    | (Ok update, stream) => _ ← handle update; recvLoop handle fuel' stream
    | (Err EOF, _) => mret None
    | (Err e, _) => mret (Some e)
    | (Panic, _) => lift Panic
    end
  end.

Definition Pipe `{CacheSink S} (commitment : CommitmentType) (stream : Stream) : M (option stream_end) :=
  recvLoop (pipeUpdate commitment) (Datatypes.S (length (updates stream))) stream.

Definition PipeAccounts `{AccountSink S} (stream : Stream) : M (option stream_end) :=
  recvLoop (λ u, match Geyser.GetAccount (SubscribeUpdateOf u) with Some _ => storeAccount u | None => mret tt end)
    (Datatypes.S (length (updates stream))) stream.
End pipe.

(** * The RPC client as a sink *)

(** The client, and the calls the pipe has made. Before its call [n], made at time
    [clock n], the other goroutines perform [others n] on the cache. *)
Record SharedClient := mkShared { client : option (accountCache RpcTypes.Account); calls : nat }.

Section client.
Context (others : nat → list (cacheOp RpcTypes.Account * Z)) (clock : nat → Z).

Definition sinkCall (call : Z → GoM (option (accountCache RpcTypes.Account)) rpc_err unit) : GoM SharedClient rpc_err unit :=
  λ s, let '(r, c) := (_ ← onCache (runOps (others (calls s))); call (clock (calls s))) (client s) in
       (r, mkShared c (S (calls s))).

Definition clientSink : CacheSink SharedClient := {|
  cacheSink_AccountSink := {| sinkStreamed key account slot := sinkCall (CacheStoreStreamed key (Some account) slot) |};
  sinkSlot c slot := sinkCall (CacheStoreSlot c slot);
  sinkBlockHeight c height := sinkCall (CacheStoreBlockHeight c height);
  sinkLatestBlockhash c hash lastValid slot := sinkCall (CacheStoreLatestBlockhash c hash lastValid slot);
|}.
End client.
