(* ===== verification/YellowstoneSpec.v ===== *)
(** YellowstoneSpec: what the Yellowstone package does end to end. A pipe into the
    RPC client turns the updates of the stream into the cache's operations, so the
    cache answers with the newest streamed state ([pipe_mirrors_stream]); converting
    a streamed transaction inverts the encoding of the protocol
    ([stream_conversion_exact]). *)
From Stdlib Require Import ZArith Lia.
From stdpp Require Import base numbers strings gmap list.
From S2P Require Import Prelude Geyser RpcTypes Keys TextForms Message PrivateKey Transaction TransactionV1 MessageJson JsonText Cache CacheSpec.
From S2P Require Import Yellowstone YellowstonePipe.

Open Scope Z_scope.

(** * Pipes *)

Section pipe.
Context {b58 : Base58Codec}.
Abbreviation Op := (cacheOp RpcTypes.Account).

(** What a pipe asks of the cache for one update. *)
Definition accountOps (update : option Geyser.SubscribeUpdate) : list Op :=
  match Update_Account (Some (NewUpdate update)) with
  | Some a => [OpSet (UpdatePubkey a) (Some (storedAccount a)) (UpdateSlot a) true false]
  | None => []
  end.
Definition slotOps (slot : Geyser.SubscribeUpdateSlot) : list Op :=
  match slotCommitment (Geyser.Status slot) with Some c => [OpStoreSlot c (Geyser.Slot slot)] | None => [] end.
Definition metaOps (commitment : CommitmentType) (meta : Geyser.SubscribeUpdateBlockMeta) : list Op :=
  match Geyser.MetaBlockHeight meta with
  | Some h =>
    OpStoreBlockHeight commitment (Geyser.BlockHeightOf h) ::
    match HashFromBase58 (Geyser.Blockhash meta) with
    | Ok hash => [OpStoreBlockhash commitment hash (u64 (Geyser.BlockHeightOf h + 150)) (Geyser.MetaSlot meta)]
    | _ => []
    end
  | None => []
  end.
Definition updateOps (commitment : CommitmentType) (update : option Geyser.SubscribeUpdate) : list Op :=
  match update ≫= Geyser.UpdateOneof with
  | Some (Geyser.SubscribeUpdate_Account (Some _)) => accountOps update
  | Some (Geyser.SubscribeUpdate_Slot (Some slot)) => slotOps slot
  | Some (Geyser.SubscribeUpdate_BlockMeta (Some meta)) => metaOps commitment meta
  | _ => []
  end.

Context (others : nat → list (Op * Z)) (clock : nat → Z).

(** The operations of a pipe from its call [n] on, with those of the others. *)
Fixpoint interleaved (n : nat) (ops : list Op) : list (Op * Z) :=
  match ops with
  | [] => []
  | op :: ops' => others n ++ (op, clock n) :: interleaved (S n) ops'
  end.

Lemma interleaved_app n ops ops' :
  interleaved n (ops ++ ops') = interleaved n ops ++ interleaved (n + length ops) ops'.
Proof.
  revert n. induction ops as [|op ops IH]; intros n; cbn [app interleaved length]; [by rewrite Nat.add_0_r|].
  rewrite IH, Nat.add_succ_r. by rewrite <- app_assoc.
Qed.

Abbreviation M := (GoM SharedClient rpc_err).
Abbreviation shared ac n := (mkShared (Some ac) n).

Lemma runOps_app {E} (l l' : list (Op * Z)) ac :
  runOps (E:=E) (l ++ l') ac = (runOps l ≫= λ _, runOps l') ac.
Proof.
  revert ac. induction l as [|[op now] l IH]; intros ac; [done|]. cbn [app runOps].
  unfold mbind, gom_bind. destruct (runOp op now ac) as [[u|e|] ac1]; [|done..].
  rewrite IH. done.
Qed.

(** [m] performs the cache operations [ops]. *)
Definition performs (m : M unit) (ops : list Op) : Prop :=
  ∀ ac n, cache_inv ac → ∃ ac', m (shared ac n) = (Ok tt, shared ac' (n + length ops)%nat) ∧
    runOps (E:=rpc_err) (interleaved n ops) ac = (Ok tt, ac') ∧ cache_inv ac'.

Lemma performs_nothing : performs (mret tt) [].
Proof. intros ac n Hi. exists ac. rewrite Nat.add_0_r. done. Qed.

Lemma performs_bind m m' ops ops' :
  performs m ops → performs m' ops' → performs (m ≫= λ _, m') (ops ++ ops').
Proof.
  intros H H' ac n Hi. destruct (H ac n Hi) as (ac1 & E1 & R1 & Hi1).
  destruct (H' ac1 (n + length ops)%nat Hi1) as (ac2 & E2 & R2 & Hi2). exists ac2.
  rewrite (run_bind _ _ _ _ _ E1), E2, length_app, Nat.add_assoc. split; [done|]. split; [|done].
  by rewrite interleaved_app, runOps_app, (run_bind _ _ _ _ _ R1).
Qed.

Lemma performs_call call op :
  (∀ now c, call now c = onCache (runOp op now) c) → performs (sinkCall others clock call) [op].
Proof.
  intros Hc ac n Hi. unfold sinkCall. cbn [client calls interleaved length].
  destruct (runOps_refines (E:=rpc_err) ac (others n) Hi) as (ac1 & R1 & Hi1 & _).
  destruct (runOp_refines (E:=rpc_err) ac1 op (clock n) Hi1) as (ac2 & R2 & Hi2 & _). exists ac2.
  assert (onCache (runOps (others n)) (Some ac) = (Ok tt, Some ac1)) as E1 by (unfold onCache, withCache; by rewrite R1).
  rewrite (run_bind _ _ _ _ _ E1), Hc.
  unfold onCache, withCache. rewrite R2. split; [by rewrite Nat.add_1_r|]. split; [|done].
  rewrite runOps_app, (run_bind _ _ _ _ _ R1). cbn [runOps]. by rewrite (run_bind _ _ _ _ _ R2).
Qed.

#[local] Instance sharedSink : CacheSink SharedClient := clientSink others clock.

Lemma keyFromBase58_no_panic s : PublicKeyFromBase58 s ≠ Panic.
Proof.
  unfold PublicKeyFromBase58, checked. repeat case_decide; [done|]. destruct (Decode32 s); [done|].
  destruct (Decode s) as [val [|]]; cbn; [|done]. by case_decide.
Qed.

Lemma storeAccount_performs update :
  performs (storeAccount (S:=SharedClient) (NewUpdate update)) (accountOps update).
Proof.
  unfold storeAccount, accountOps. destruct (Update_Account _) as [a|]; [|apply performs_nothing].
  by apply performs_call.
Qed.

Lemma pipeUpdate_performs commitment update :
  performs (pipeUpdate commitment (NewUpdate update)) (updateOps commitment update).
Proof.
  unfold pipeUpdate, updateOps, Geyser.GetAccount, Geyser.GetSlot, Geyser.GetBlockMeta. cbn [SubscribeUpdateOf NewUpdate].
  destruct (update ≫= Geyser.UpdateOneof) as [[[a|]|[slot|]|t|[meta|]|]|]; try apply performs_nothing.
  - apply storeAccount_performs.
  - unfold slotOps. destruct (slotCommitment _); [by apply performs_call|apply performs_nothing].
  - unfold metaOps. destruct (Geyser.MetaBlockHeight meta) as [h|]; [|apply performs_nothing]. cbv zeta.
    apply (performs_bind _ _ [_]); [by apply performs_call|]. unfold HashFromBase58.
    pose proof (keyFromBase58_no_panic (Geyser.Blockhash meta)) as Hp.
    destruct (PublicKeyFromBase58 _); [by apply performs_call|apply performs_nothing|done].
Qed.

(** The loop performs the operations of all updates, and ends with the stream. *)
Lemma recvLoop_performs (handle : Update → M unit) (opsOf : option Geyser.SubscribeUpdate → list Op) us e fuel ac n :
  (∀ u, performs (handle (NewUpdate u)) (opsOf u)) → (length us < fuel)%nat → cache_inv ac →
  ∃ ac', recvLoop handle fuel (mkStream us e) (shared ac n) =
      (Ok (match e with EOF => None | _ => Some e end), shared ac' (n + length (us ≫= opsOf))%nat) ∧
    runOps (E:=rpc_err) (interleaved n (us ≫= opsOf)) ac = (Ok tt, ac') ∧ cache_inv ac'.
Proof.
  intros Hh. revert fuel ac n. induction us as [|u us IH]; intros fuel ac n Hf Hi;
    (destruct fuel as [|fuel]; [simpl in Hf; lia|]); cbn [recvLoop Recv updates ending].
  - exists ac. rewrite Nat.add_0_r. by destruct e.
  - destruct (Hh u ac n Hi) as (ac1 & E1 & R1 & Hi1). rewrite (run_bind _ _ _ _ _ E1).
    destruct (IH fuel ac1 (n + length (opsOf u))%nat) as (ac2 & E2 & R2 & Hi2); [simpl in Hf; lia|done|].
    exists ac2. rewrite bind_cons, E2, length_app, Nat.add_assoc. split; [done|]. split; [|done].
    by rewrite interleaved_app, runOps_app, (run_bind _ _ _ _ _ R1).
Qed.

(** [PipeAccounts] performs the account operations alone. *)
Lemma pipeAccounts_performs us e ac n :
  cache_inv ac →
  ∃ ac', PipeAccounts (mkStream us e) (shared ac n) =
      (Ok (match e with EOF => None | _ => Some e end), shared ac' (n + length (us ≫= accountOps))%nat) ∧
    runOps (E:=rpc_err) (interleaved n (us ≫= accountOps)) ac = (Ok tt, ac') ∧ cache_inv ac'.
Proof.
  intros Hi. unfold PipeAccounts. cbn [updates]. apply recvLoop_performs; [|lia|done]. intros u. cbn [SubscribeUpdateOf NewUpdate].
  destruct (Geyser.GetAccount u) eqn:E; [apply storeAccount_performs|].
  assert (accountOps u = []) as -> by (unfold accountOps, Update_Account; cbn; by rewrite E). apply performs_nothing.
Qed.
End pipe.

(** * What the cache answers after a pipe *)

Section mirror.
Context {b58 : Base58Codec} (others : nat → list (cacheOp RpcTypes.Account * Z)) (clock : nat → Z).

Lemma interleaved_in n ops op : op ∈ ops → ∃ t, (op, t) ∈ interleaved others clock n ops.
Proof.
  revert n. induction ops as [|o ops IH]; intros n; [by intros ?%elem_of_nil|]. cbn [interleaved].
  intros [->|H]%elem_of_cons.
  - exists (clock n). apply elem_of_app. right. by left.
  - destruct (IH (S n) H) as [t Ht]. exists t. apply elem_of_app. right. by right.
Qed.

(** A streamed write that is not cleared afterwards keeps the entry streamed. *)
Lemma streamed_served (ac ac' : accountCache RpcTypes.Account) sched key data slot t :
  cache_inv ac → runOps (E:=rpc_err) sched ac = (Ok tt, ac') → Forall (keeps key) sched →
  (OpSet key data slot true false, t) ∈ sched →
  ∃ e, contents ac' !! key = Some e ∧ streamed e = true ∧
    latest (stored (contents ac) key) (writes key sched) = Some (e_slot e, e_data e).
Proof.
  intros Hi Hr Hk Hin. destruct (runOps_refines (E:=rpc_err) ac sched Hi) as (ac1 & Hr' & _ & Hc & _).
  rewrite Hr in Hr'. injection Hr' as <-.
  assert (stored (contents ac') key = latest (stored (contents ac) key) (writes key sched)) as Hs
    by (rewrite Hc; by apply stored_specOps).
  apply list_elem_of_split in Hin as (l1 & l2 & ->). apply Forall_app in Hk as [_ Hk].
  apply Forall_cons in Hk as [_ Hk]. revert Hc. unfold specOps. rewrite foldl_app. cbn [foldl].
  set (m1 := foldl _ _ l1). cbn [specOp fst snd].
  set (m2 := <[key := _]> m1). intros Hc.
  destruct (sticky_specOps (freshFor ac) (ttl ac) l2 m2 key Hk (writeEntry (m1 !! key) data slot true false t))
    as (e & He & Hst & _); [by apply lookup_insert_eq|].
  unfold specOps in He. rewrite <- Hc in He. exists e. split; [done|]. split.
  - apply Hst. unfold writeEntry. destruct (m1 !! key); [|done]. case_decide; cbn; by rewrite orb_true_r.
  - rewrite <- Hs. unfold stored. by rewrite He.
Qed.

Lemma served_from_cache `{net : Network RpcTypes.Account} ac key e now during later :
  cache_inv ac → contents ac !! key = Some e → streamed e = true →
  (GetAccountInfo key now during later (Some ac)).1 = Ok (0, e_data e).
Proof.
  intros Hi He Hs. unfold GetAccountInfo, withCache, cachedGetAccountInfo.
  destruct (lookup_refines (E:=rpc_err) ac key now Hi) as (ac1 & H1 & _).
  rewrite He in H1. cbn [mbind option_bind] in H1. unfold fresh in H1. rewrite Hs in H1. cbn [orb] in H1.
  by rewrite (run_bind _ _ _ _ _ H1).
Qed.

(** The account updates of a stream. *)
Definition accountUpdate (us : list (option Geyser.SubscribeUpdate)) (a : AccountUpdate) : Prop :=
  ∃ u, u ∈ us ∧ Update_Account (Some (NewUpdate u)) = Some a.

Lemma accountUpdate_op commitment us a :
  accountUpdate us a →
  OpSet (UpdatePubkey a) (Some (storedAccount a)) (UpdateSlot a) true false ∈ us ≫= updateOps commitment.
Proof.
  intros (u & Hu & Ha). apply list_elem_of_bind. exists u. split; [|done]. unfold updateOps, accountOps.
  pose proof Ha as Ha'. unfold Update_Account, Geyser.GetAccount in Ha'. cbn [updateOf SubscribeUpdateOf NewUpdate mbind option_bind] in Ha'.
  destruct (u ≫= Geyser.UpdateOneof) as [[[x|]|s|tx|bm|]|] eqn:E; try done.
  rewrite Ha. by left.
Qed.
End mirror.

Definition ended (e : stream_end) : option stream_end := match e with EOF => None | _ => Some e end.

(** C16. A pipe mirrors its stream in the client's cache. Whatever the other
    goroutines do to the cache between its calls, Pipe takes every update to the end
    of the stream, returns nil on a clean end and the stream's error otherwise, and
    leaves the cache that the interleaved operations leave. From then on an account
    that the stream reported is read without the network, at any time: the answer is
    the write with the highest slot, no older than any update of the stream, unless
    the account was cleared or evicted. The slot, the block height and the latest
    blockhash of a commitment are those with the highest key that any writer stored,
    while they are fresh; the blockhash comes with its height plus 150. *)
Theorem pipe_mirrors_stream {b58 : Base58Codec} (opts : option CacheOptions) (Hopts : opts_ok opts)
    (others : nat → list (cacheOp RpcTypes.Account * Z)) (clock : nat → Z) (commitment : CommitmentType)
    (us : list (option Geyser.SubscribeUpdate)) (e : stream_end) :
  let new := newAccountCache (Account:=RpcTypes.Account) opts in
  let sched := interleaved others clock 0 (us ≫= updateOps commitment) in
  ∃ ac,
    Pipe (H:=clientSink others clock) commitment (mkStream us e) (mkShared (Some new) 0) =
      (Ok (ended e), mkShared (Some ac) (length (us ≫= updateOps commitment))) ∧
    (∀ a, accountUpdate us a → Forall (keeps (UpdatePubkey a)) sched →
       ∃ slot data, latest None (writes (UpdatePubkey a) sched) = Some (slot, data) ∧ UpdateSlot a ≤ slot ∧
         ∀ (net : Network RpcTypes.Account) now during later,
           (GetAccountInfo (UpdatePubkey a) now during later (Some ac)).1 = Ok (0, data)) ∧
    (∀ c now, 0 ≤ cacheIndex c →
       let cutoff := i64 (now - headFreshFor new) in
       (lookupSlot (E:=rpc_err) c now ac).1 =
         Ok (fst <$> serve cutoff (latest (Some (0, (tt, 0))) (stores slotRegister (cacheIndex c) sched))) ∧
       (lookupBlockHeight (E:=rpc_err) c now ac).1 =
         Ok (fst <$> serve cutoff (latest (Some (0, (tt, 0))) (stores heightRegister (cacheIndex c) sched))) ∧
       (lookupBlockhash (E:=rpc_err) c now ac).1 =
         Ok (toLatest <$> serve cutoff
               (latest (Some (0, ((zeroKey, 0), 0))) (stores blockhashRegister (cacheIndex c) sched)))).
Proof.
  cbv zeta. assert (cache_inv (newAccountCache (Account:=RpcTypes.Account) opts)) as Hi
    by (apply newAccountCache_inv; intros o ->; exact Hopts).
  destruct (recvLoop_performs others clock (pipeUpdate (H:=clientSink others clock) commitment) (updateOps commitment)
              us e (S (length us)) (newAccountCache opts) 0 (pipeUpdate_performs others clock commitment)
              ltac:(lia) Hi) as (ac & Hp & Hr & Hi').
  exists ac. split; [exact Hp|]. split.
  - intros a Ha Hk. destruct (interleaved_in others clock 0 _ _ (accountUpdate_op commitment us a Ha)) as [t Ht].
    destruct (streamed_served _ _ _ _ _ _ _ Hi Hr Hk Ht) as (en & He & Hs & Hl).
    rewrite newAccountCache_empty in Hl.
    exists (e_slot en), (e_data en). split; [exact Hl|]. split.
    + destruct (latest_max _ _ _ Hl) as (_ & _ & Hmax). apply (Hmax (UpdateSlot a, Some (storedAccount a))).
      apply list_elem_of_omap. eexists. split; [exact Ht|]. unfold writeOf. cbn. by rewrite decide_True.
    + intros net now during later_. by apply served_from_cache.
  - intros c now Hc. destruct (head_serves_latest (E:=rpc_err) opts
      (interleaved others clock 0 (us ≫= updateOps commitment)) c now Hopts Hc) as (ac1 & Hr1 & H).
    rewrite Hr in Hr1. injection Hr1 as <-. exact H.
Qed.

(** An account at slots 5 and 7 and a block at height 10, with another goroutine's
    older answer stored between them. *)
Definition sampleAccountUpdate (slot : Z) (data : bytes) : option Geyser.SubscribeUpdate :=
  Some (Geyser.mkSubscribeUpdate []
    (Some (Geyser.SubscribeUpdate_Account (Some (Geyser.mkSubscribeUpdateAccount
       (Some (Geyser.mkSubscribeUpdateAccountInfo (zeros 32) 1 (zeros 32) false 0 data 1 [])) slot false)))) None).
Definition sampleStream : list (option Geyser.SubscribeUpdate) := [
  sampleAccountUpdate 7 [1; 2];
  Some (Geyser.mkSubscribeUpdate [] (Some (Geyser.SubscribeUpdate_BlockMeta (Some
    (Geyser.mkSubscribeUpdateBlockMeta 9 (toyEncode (zeros 32)) None None (Some (Geyser.mkBlockHeight 10)) 8 [] 0 0)))) None);
  sampleAccountUpdate 5 [3]].
Definition sampleOthers (n : nat) : list (cacheOp RpcTypes.Account * Z) := [(OpSet (zeros 32) None 6 false false, 1)].
Definition sampleSchedule := interleaved sampleOthers (λ n, Z.of_nat n) 0 (sampleStream ≫= updateOps (b58:=toyBase58) "confirmed").

Lemma pipe_mirrors_stream_witness :
  ∃ ac data,
    Pipe (b58:=toyBase58) (H:=clientSink sampleOthers (λ n, Z.of_nat n)) "confirmed" (mkStream sampleStream EOF)
      (mkShared (Some (newAccountCache None)) 0) = (Ok None, mkShared (Some ac) 4) ∧
    latest None (writes (zeros 32) sampleSchedule) = Some (7, data) ∧
    ∀ (net : Network RpcTypes.Account) now during later,
      (GetAccountInfo (zeros 32) now during later (Some ac)).1 = Ok (0, data).
Proof.
  destruct (pipe_mirrors_stream (b58:=toyBase58) None I sampleOthers (λ n, Z.of_nat n) "confirmed" sampleStream EOF)
    as (ac & Hp & Ha & _).
  assert (∃ a, Update_Account (Some (NewUpdate (sampleAccountUpdate 7 [1; 2]))) = Some a ∧ UpdatePubkey a = zeros 32) as (a & Hu & Hk).
  { eexists. split; [reflexivity|]. vm_compute. reflexivity. }
  destruct (Ha a) as (slot & data & Hl & Hs & Hr).
  - exists (sampleAccountUpdate 7 [1; 2]). split; [by left|done].
  - rewrite Hk. repeat constructor; vm_compute; congruence.
  - rewrite Hk in Hl, Hr. exists ac, data. split; [exact Hp|]. split; [|exact Hr].
    assert (fst <$> latest None (writes (zeros 32) sampleSchedule) = Some 7) as E by (vm_compute; reflexivity).
    unfold sampleSchedule in *. rewrite Hl in *. injection E as ->. reflexivity.
Defined.

(** * Conversions *)

(** The encoding of the protocol, as the plugin of a validator builds it. *)
Definition geyserHeader (h : MessageHeader) : Geyser.MessageHeader :=
  Geyser.mkMessageHeader (NumRequiredSignatures h) (NumReadonlySignedAccounts h) (NumReadonlyUnsignedAccounts h).
Definition geyserIns (ins : Keys.CompiledInstruction) : Geyser.CompiledInstruction :=
  Geyser.mkCompiledInstruction (Keys.ProgramIDIndex ins) (AccountIndexes ins) (Keys.InsData ins).
Definition geyserLookup (l : MessageAddressTableLookup) : Geyser.MessageAddressTableLookup :=
  Geyser.mkMessageAddressTableLookup (AccountKey l) (WritableIndexes l) (ReadonlyIndexes l).
Definition geyserTransaction (tx : Transaction) : Geyser.Transaction :=
  let mx := TxMessage tx in
  Geyser.mkTransaction (Signatures tx) (Some (Geyser.mkMessage (Some (geyserHeader (Header mx))) (AccountKeys mx)
    (RecentBlockhash mx) (geyserIns <$> Instructions mx) (bool_decide (version mx ≠ MessageVersionLegacy))
    (geyserLookup <$> AddressTableLookups mx) None)).
Definition geyserTransactionV1 (tx : TransactionV1) : Geyser.Transaction :=
  Geyser.mkTransaction (V1Signatures tx) (Some (Geyser.mkMessage (Some (geyserHeader (V1Header tx))) (V1AccountKeys tx)
    (LifetimeSpecifier tx) (geyserIns <$> V1Instructions tx) true []
    (Some (Geyser.mkTransactionConfig (PriorityFeeLamports (Config tx)) (ComputeUnitLimit (Config tx))
             (LoadedAccountsDataSizeLimit (Config tx)) (HeapSize (Config tx)))))).

(** The update that carries a transaction with its metadata. *)
Definition transactionUpdate (tx : Geyser.Transaction) (meta : option Geyser.TransactionStatusMeta) : option Update :=
  Some (NewUpdate (Some (Geyser.mkSubscribeUpdate [] (Some (Geyser.SubscribeUpdate_Transaction
    (Some (Geyser.mkSubscribeUpdateTransaction
       (Some (Geyser.mkSubscribeUpdateTransactionInfo [] false (Some tx) meta 0)) 0)))) None))).

(** What the protocol can carry. *)
Definition stream_ins (ins : Keys.CompiledInstruction) : Prop :=
  is_u16 (Keys.ProgramIDIndex ins) ∧ bytes_ok (AccountIndexes ins).
Definition stream_message (mx : Message) : Prop :=
  Forall key_ok (AccountKeys mx) ∧ header_typed (Header mx) ∧ key_ok (RecentBlockhash mx) ∧
  Forall stream_ins (Instructions mx) ∧ Forall (λ l, key_ok (AccountKey l)) (AddressTableLookups mx) ∧
  (version mx = MessageVersionV0 ∨ version mx = MessageVersionLegacy ∧ AddressTableLookups mx = []).
Definition stream_tx (tx : Transaction) : Prop := Forall sig_ok (Signatures tx) ∧ stream_message (TxMessage tx).
Definition stream_txV1 (tx : TransactionV1) : Prop :=
  Forall sig_ok (V1Signatures tx) ∧ header_typed (V1Header tx) ∧ Forall key_ok (V1AccountKeys tx) ∧
  key_ok (LifetimeSpecifier tx) ∧ Forall stream_ins (V1Instructions tx).

Lemma pubkey_same k : key_ok k → pubkeyFromBytes k = k.
Proof. intros [Hl _]. apply copy_into_full. by rewrite Hl. Qed.

Lemma signature_same s : sig_ok s → SignatureFromBytes s = s.
Proof. intros [Hl _]. apply copy_into_full. by rewrite Hl. Qed.

Lemma fmap_same {A} (f : A → A) (P : A → Prop) l : (∀ x, P x → f x = x) → Forall P l → f <$> l = l.
Proof. intros Hf. induction 1 as [|x l Hx _ IH]; [done|]. rewrite fmap_cons, IH. by rewrite Hf. Qed.

Lemma fmap_inverse {A B} (f : A → B) (g : B → A) (P : A → Prop) l :
  (∀ x, P x → g (f x) = x) → Forall P l → g <$> (f <$> l) = l.
Proof. intros Hf Hl. rewrite <- list_fmap_compose. by apply (fmap_same _ P). Qed.

Lemma u8_same v : is_byte v → u8 v = v.
Proof. unfold is_byte, u8. intros. by apply Z.mod_small. Qed.
Lemma u16_same v : is_u16 v → u16 v = v.
Proof. unfold is_u16, u16. intros. by apply Z.mod_small. Qed.

Lemma header_same h : header_typed h → convertHeader (geyserHeader h) = h.
Proof. intros (H1 & H2 & H3). destruct h. unfold convertHeader, geyserHeader. cbn in *. by rewrite !u8_same. Qed.

Lemma indexes_same l : bytes_ok l → convertAccountIndexes l = l.
Proof. apply fmap_same. intros x Hx. apply u16_same. unfold is_byte, is_u16 in *. lia. Qed.

Lemma instructions_same l : Forall stream_ins l → convertInstructions (geyserIns <$> l) = l.
Proof.
  apply (fmap_inverse geyserIns). intros [p a d] [H1 H2]. cbn in *. by rewrite u16_same, indexes_same.
Qed.

Lemma lookup_same l : key_ok (AccountKey l) → convertLookup (geyserLookup l) = l.
Proof. intros H. unfold convertLookup. change (Geyser.AccountKey (geyserLookup l)) with (AccountKey l). rewrite pubkey_same by done. by destruct l. Qed.

(** ** Metadata *)

Section meta.
Context {b58 : Base58Codec}.

Definition keyText (k : option PublicKey) : bytes := match k with Some k => Encode32 k | None => [] end.
Definition uintText (v : option Z) : bytes := match v with Some v => uintDigits 20 v | None => [] end.
Definition rewardNames : list bytes :=
  str <$> ["Unspecified"; "Fee"; "Rent"; "Staking"; "Voting"; "DeactivatedStake"]%string.
Definition rewardNumber (name : bytes) : Z := match list_find (.= name) rewardNames with Some (i, _) => Z.of_nat i | None => 0 end.

Definition geyserBalance (b : TokenBalance) : Geyser.TokenBalance :=
  Geyser.mkTokenBalance (AccountIndex b) (Encode32 (Mint b))
    ((λ a, Geyser.mkUiTokenAmount (default 0 (UiAmount a)) (Decimals a) (Amount a) (UiAmountString a)) <$> UiTokenAmountOf b)
    (keyText (BalanceOwner b)) (keyText (BalanceProgramId b)).
Definition geyserReward (r : BlockReward) : Geyser.Reward :=
  Geyser.mkReward (Encode32 (Pubkey r)) (RewardLamports r) (PostBalance r) (rewardNumber (RewardType r))
    (uintText (Commission r)) (uintText (CommissionBps r)).
Definition geyserInner (i : InnerInstruction) : Geyser.InnerInstructions :=
  Geyser.mkInnerInstructions (Index i)
    ((λ ins, Geyser.mkInnerInstruction (RpcTypes.ProgramIDIndex ins) (RpcTypes.Accounts ins) (RpcTypes.InsData ins)
               (Some (StackHeight ins))) <$> RpcTypes.Instructions i).
Definition geyserMeta (m : TransactionMeta StreamError) : Geyser.TransactionStatusMeta :=
  Geyser.mkTransactionStatusMeta ((λ e, Geyser.mkTransactionError (Raw e)) <$> Err_ m) (Fee m) (PreBalances m) (PostBalances m)
    (geyserInner <$> InnerInstructions m) false (LogMessages m) false (geyserBalance <$> PreTokenBalances m)
    (geyserBalance <$> PostTokenBalances m) (geyserReward <$> Rewards m) (Writable (LoadedAddressesOf m))
    (ReadOnly (LoadedAddressesOf m))
    (if decide (Encoding (ReturnBytes (ReturnDataOf m)) = []) then None
     else Some (Geyser.mkReturnData (ProgramId (ReturnDataOf m)) (Content (ReturnBytes (ReturnDataOf m)))))
    false (ComputeUnitsConsumed m) (CostUnits m).
End meta.

(** Metadata in the form the conversion gives. *)
Definition balance_ok (b : TokenBalance) : Prop :=
  is_u16 (AccountIndex b) ∧ key_ok (Mint b) ∧ from_option key_ok True (BalanceOwner b) ∧
  from_option key_ok True (BalanceProgramId b) ∧
  from_option (λ a, is_byte (Decimals a) ∧ UiAmount a ≠ None) True (UiTokenAmountOf b).
Definition reward_ok (r : BlockReward) : Prop :=
  key_ok (Pubkey r) ∧ RewardType r ∈ rewardNames ∧ from_option is_byte True (Commission r) ∧
  from_option is_u16 True (CommissionBps r).
Definition inner_ok (i : InnerInstruction) : Prop :=
  is_u16 (Index i) ∧
  Forall (λ ins, is_u16 (RpcTypes.ProgramIDIndex ins) ∧ bytes_ok (RpcTypes.Accounts ins) ∧ is_u16 (StackHeight ins))
    (RpcTypes.Instructions i).
Definition meta_ok (m : TransactionMeta StreamError) : Prop :=
  from_option (λ e, Raw e ≠ []) True (Err_ m) ∧ Forall inner_ok (InnerInstructions m) ∧
  Forall balance_ok (PreTokenBalances m) ∧ Forall balance_ok (PostTokenBalances m) ∧ Forall reward_ok (Rewards m) ∧
  Forall key_ok (Writable (LoadedAddressesOf m)) ∧ Forall key_ok (ReadOnly (LoadedAddressesOf m)) ∧
  (ReturnDataOf m = zeroReturnData ∨
   key_ok (ProgramId (ReturnDataOf m)) ∧ Encoding (ReturnBytes (ReturnDataOf m)) = EncodingBase64).

Section meta_facts.
Context {b58 : Base58Codec} {Hb58 : Base58Laws b58}.

Lemma fromBase58_text k : key_ok k → PublicKeyFromBase58 (Encode32 k) = Ok k.
Proof.
  intros Hk. unfold PublicKeyFromBase58. pose proof (Encode32_length k Hk).
  rewrite decide_False by (unfold publicKeyMinEncodedLength; lia). by rewrite Decode32_Encode32.
Qed.

Lemma Encode32_nonempty k : key_ok k → Encode32 k ≠ [].
Proof. intros Hk E. pose proof (Encode32_length k Hk) as H. rewrite E in H. unfold len, PublicKeyLength in H. simpl in H. lia. Qed.

Lemma optionalKey_text e k : from_option key_ok True k → optionalKey e (keyText k) = Ok k.
Proof.
  intros Hk. unfold optionalKey. destruct k as [k|]; cbn [keyText from_option] in *; [|done].
  rewrite decide_True by by apply Encode32_nonempty. by rewrite fromBase58_text.
Qed.

Lemma balance_same b : balance_ok b → convertTokenBalance (geyserBalance b) = Ok b.
Proof.
  intros (H1 & H2 & H3 & H4 & H5). unfold convertTokenBalance. destruct b as [i o p m a].
  cbn [geyserBalance Geyser.Mint Geyser.Owner Geyser.ProgramId Geyser.AccountIndex Geyser.UiTokenAmountOf
       AccountIndex Mint BalanceOwner BalanceProgramId UiTokenAmountOf] in *.
  rewrite fromBase58_text, !optionalKey_text by done. cbn [wrap_err mbind outcome_bind]. rewrite u16_same by done.
  do 2 f_equal. destruct a as [[am d [u|] us]|]; [| |done]; cbn in *; destruct_and?; [by rewrite u8_same|done].
Qed.

Lemma balances_same l : Forall balance_ok l → convertTokenBalances (geyserBalance <$> l) = Ok l.
Proof.
  induction 1 as [|b l Hb _ IH]; [done|]. rewrite fmap_cons. cbn [convertTokenBalances].
  rewrite (obind_ok _ _ _ (balance_same b Hb)). by rewrite (obind_ok _ _ _ IH).
Qed.

(** A number's text is parsed back while it fits. *)
Lemma parseDigits_app maxVal n ds :
  Forall (λ c, 48 ≤ c ≤ 57) ds → 0 ≤ n → foldl (λ v c, v * 10 + (c - 48)) n ds ≤ maxVal →
  parseDigits maxVal n ds = Ok (foldl (λ v c, v * 10 + (c - 48)) n ds).
Proof.
  intros Hd. revert n. induction Hd as [|c ds Hc Hds IH]; intros n Hn Hm; [done|]. cbn [parseDigits foldl] in *.
  assert (∀ m, 0 ≤ m → m ≤ foldl (λ v c, v * 10 + (c - 48)) m ds) as Hge.
  { clear IH Hm. induction Hds as [|d ds Hd _ IH']; intros m Hm'; [simpl; lia|]. cbn [foldl].
    pose proof (IH' (m * 10 + (d - 48)) ltac:(lia)). lia. }
  pose proof (Hge (n * 10 + (c - 48)) ltac:(lia)). rewrite decide_True by done. rewrite decide_False by lia.
  apply IH; lia.
Qed.

Lemma ParseUint_text v bits : 0 ≤ v < 2 ^ bits → bits ≤ 64 → ParseUint (uintDigits 20 v) bits = Ok v.
Proof.
  intros Hv Hb. assert (2 ^ bits ≤ 2 ^ 64) as Hb' by (apply Z.pow_le_mono_r; lia).
  assert (foldl (λ v c, v * 10 + (c - 48)) 0 (uintDigits 20 v) = v) as E.
  { apply uintDigits_value. change (10 ^ Z.of_nat 20) with 100000000000000000000.
    change (2 ^ 64) with 18446744073709551616 in Hb'. lia. }
  unfold ParseUint. rewrite decide_False by apply uintDigits_nonempty.
  rewrite parseDigits_app; [by rewrite E|apply uintDigits_digits; lia|lia|rewrite E; lia].
Qed.

Lemma optionalUint_text e v bits :
  from_option (λ v, 0 ≤ v < 2 ^ bits) True v → bits ≤ 64 → optionalUint e (uintText v) bits = Ok v.
Proof.
  intros Hv Hb. unfold optionalUint. destruct v as [v|]; cbn [uintText from_option] in *; [|done].
  rewrite decide_True by apply uintDigits_nonempty. by rewrite ParseUint_text.
Qed.

Lemma reward_name r : RewardType r ∈ rewardNames → RewardType_String (rewardNumber (RewardType r)) = RewardType r.
Proof.
  generalize (RewardType r). intros t Ht. unfold rewardNames in Ht. cbn [fmap list_fmap] in Ht.
  rewrite !elem_of_cons in Ht. by destruct Ht as [->|[->|[->|[->|[->|[->|[]%not_elem_of_nil]]]]]]; vm_compute.
Qed.

Lemma reward_same r : reward_ok r → convertReward (geyserReward r) = Ok r.
Proof.
  intros (H1 & H2 & H3 & H4). unfold convertReward. pose proof (reward_name r H2) as Hn. destruct r as [k l p t c cb].
  cbn [geyserReward Geyser.Pubkey Geyser.Lamports Geyser.PostBalance Geyser.RewardType Geyser.Commission
       Geyser.CommissionBps Pubkey RewardLamports PostBalance RewardType Commission CommissionBps] in *.
  rewrite fromBase58_text, !optionalUint_text by (done || by destruct c || by destruct cb).
  cbn [wrap_err mbind outcome_bind]. by rewrite Hn.
Qed.

Lemma rewards_same l : Forall reward_ok l → convertRewards (geyserReward <$> l) = Ok l.
Proof.
  induction 1 as [|r l Hr _ IH]; [done|]. rewrite fmap_cons. cbn [convertRewards].
  rewrite (obind_ok _ _ _ (reward_same r Hr)). by rewrite (obind_ok _ _ _ IH).
Qed.

Lemma inner_same i : inner_ok i → convertInner (geyserInner i) = i.
Proof.
  intros [H1 H2]. destruct i as [i l]. unfold convertInner, geyserInner. cbn in *. rewrite u16_same by done. f_equal.
  eapply (fmap_inverse _ _ _ l); [|exact H2]. intros [p a d h] (Hp & Ha & Hh). cbn in *.
  by rewrite !u16_same, indexes_same.
Qed.

Lemma meta_same m : meta_ok m → convertMeta (Some (geyserMeta m)) = Ok (Some m).
Proof.
  intros (H1 & H2 & H3 & H4 & H5 & H6 & H7 & H8). unfold convertMeta.
  destruct m as [err fee pre post inner ptb qtb logs rew [ro wr] ret cu cost].
  cbn [geyserMeta Geyser.PreTokenBalances Geyser.PostTokenBalances Geyser.MetaRewards Geyser.Err_ Geyser.Fee Geyser.PreBalances
       Geyser.PostBalances Geyser.InnerInstructionsList Geyser.LogMessages Geyser.LoadedReadonlyAddresses
       Geyser.LoadedWritableAddresses Geyser.ReturnDataOf Geyser.ComputeUnitsConsumed Geyser.CostUnits
       Err_ Fee PreBalances PostBalances InnerInstructions PreTokenBalances PostTokenBalances LogMessages Rewards
       LoadedAddressesOf ReturnDataOf ComputeUnitsConsumed CostUnits Writable ReadOnly] in *.
  rewrite (balances_same ptb), (balances_same qtb), rewards_same by done. cbn [wrap_err mbind outcome_bind].
  unfold convertPubkeys. rewrite !(fmap_same pubkeyFromBytes key_ok) by (done || apply pubkey_same).
  rewrite (fmap_inverse geyserInner convertInner inner_ok) by (done || apply inner_same). do 2 f_equal. f_equal.
  - destruct err as [[raw]|]; [|done]. cbn in *. rewrite decide_True; [done|]. destruct raw; [done|len_lia].
  - destruct H8 as [->|[Hk He]]; [done|]. rewrite He. rewrite decide_False by done. rewrite pubkey_same by done.
    destruct ret as [k [c e]]. cbn in *. by subst e.
Qed.
End meta_facts.

(** ** No panics *)

Section total.
Context {b58 : Base58Codec}.

Lemma wrap_no_panic {E F A} (f : E → F) (m : outcome E A) : m ≠ Panic → wrap_err f m ≠ Panic.
Proof. by destruct m. Qed.

Lemma bind_no_panic {E A B} (m : outcome E A) (f : A → outcome E B) : m ≠ Panic → (∀ a, f a ≠ Panic) → m ≫= f ≠ Panic.
Proof. intros Hm Hf. by destruct m; [apply Hf|..]. Qed.

Lemma parseDigits_total maxVal n s : parseDigits maxVal n s ≠ Panic.
Proof. revert n. induction s as [|c s IH]; intros n; cbn [parseDigits]; [done|]. repeat case_decide; done. Qed.

Lemma ParseUint_total s bits : ParseUint s bits ≠ Panic.
Proof. unfold ParseUint. case_decide; [done|]. apply parseDigits_total. Qed.

Lemma balances_total l : convertTokenBalances l ≠ Panic.
Proof.
  induction l as [|b l IH]; [done|]. cbn [convertTokenBalances]. apply bind_no_panic; [|intros; by apply bind_no_panic].
  unfold convertTokenBalance, optionalKey.
  repeat (apply bind_no_panic; [|intros]); try done; repeat case_decide; try done;
    repeat (apply bind_no_panic; [|intros]); try done; apply wrap_no_panic, keyFromBase58_no_panic.
Qed.

Lemma rewards_total l : convertRewards l ≠ Panic.
Proof.
  induction l as [|r l IH]; [done|]. cbn [convertRewards]. apply bind_no_panic; [|intros; by apply bind_no_panic].
  unfold convertReward, optionalUint.
  repeat (apply bind_no_panic; [|intros]); try done; repeat case_decide; try done;
    repeat (apply bind_no_panic; [|intros]); try done; apply wrap_no_panic;
    [apply keyFromBase58_no_panic|apply ParseUint_total..].
Qed.

Lemma meta_total m : convertMeta m ≠ Panic.
Proof.
  destruct m as [m|]; [|done]. unfold convertMeta. cbv zeta.
  repeat (apply bind_no_panic; [|intros]); try done; try (apply wrap_no_panic, balances_total). apply rewards_total.
Qed.
End total.

(** C20. A streamed transaction is converted exactly. The conversion of the protocol's
    encoding of a legacy or v0 transaction, with its metadata - errors, balances,
    token balances, inner instructions, rewards with their commissions, loaded
    addresses and return data - is that transaction and that metadata, and likewise
    for a v1 transaction with its configuration; each conversion refuses the other's
    updates. No update whatsoever makes a conversion panic, however short its byte
    fields, wrong its texts or missing its parts. *)
Theorem stream_conversion_exact {b58 : Base58Codec} (Hb58 : Base58Laws b58) :
  (∀ tx meta, stream_tx tx → from_option meta_ok True meta →
     let update := transactionUpdate (geyserTransaction tx) (geyserMeta <$> meta) in
     Update_Transaction update = Ok (tx, meta) ∧ Update_TransactionV1 update = Err errNotVersion1) ∧
  (∀ tx meta, stream_txV1 tx → from_option meta_ok True meta →
     let update := transactionUpdate (geyserTransactionV1 tx) (geyserMeta <$> meta) in
     Update_TransactionV1 update = Ok (tx, Ok meta) ∧ Update_Transaction update = Err errIsVersion1) ∧
  (∀ u, Update_Transaction u ≠ Panic ∧
     match Update_TransactionV1 u with Ok (_, meta) => meta ≠ Panic | Err _ => True | Panic => False end).
Proof.
  assert (∀ meta, from_option meta_ok True meta → convertMeta (geyserMeta <$> meta) = Ok meta) as Hmeta
    by (intros [m|] Hm; [by apply meta_same|done]).
  split; [|split].
  - intros tx meta (Hs & Hk & Hh & Hb & Hi & Hl & Hv) Hm. cbv zeta. split; [|done].
    unfold Update_Transaction, transactionUpdate. cbn [updateOf NewUpdate SubscribeUpdateOf mbind option_bind
      transactionInfo Geyser.GetTransaction Geyser.UpdateOneof Geyser.TransactionInfo Geyser.TransactionOf Geyser.Meta
      geyserTransaction Geyser.MessageOf Geyser.Config Geyser.Signatures Geyser.Versioned Geyser.AddressTableLookups].
    rewrite Hmeta by done. rewrite (fmap_same SignatureFromBytes sig_ok) by (done || apply signature_same).
    unfold convertMessage. cbn [Geyser.AccountKeys Geyser.Header Geyser.RecentBlockhash Geyser.Instructions].
    rewrite (fmap_same pubkeyFromBytes key_ok) by (done || apply pubkey_same).
    rewrite header_same, instructions_same by done. unfold hashFromBytes. fold (pubkeyFromBytes (RecentBlockhash (TxMessage tx))).
    rewrite pubkey_same by done. rewrite (fmap_inverse geyserLookup convertLookup (λ l, key_ok (AccountKey l))) by (done || apply lookup_same).
    destruct tx as [sigs [v ks h bh ins ls]]. cbn in *. destruct Hv as [->|[-> ->]]; [|done].
    rewrite bool_decide_eq_true_2 by done. cbn. case_decide as Hn; [done|]. rewrite len_fmap in Hn.
    destruct ls; [done|len_lia].
  - intros tx meta (Hs & Hh & Hk & Hb & Hi) Hm. cbv zeta. split; [|done].
    unfold Update_TransactionV1, transactionUpdate. cbn [updateOf NewUpdate SubscribeUpdateOf mbind option_bind
      transactionInfo Geyser.GetTransaction Geyser.UpdateOneof Geyser.TransactionInfo Geyser.TransactionOf Geyser.Meta
      geyserTransactionV1 Geyser.MessageOf Geyser.Config Geyser.Signatures Geyser.AddressTableLookups Geyser.AccountKeys
      Geyser.Header Geyser.RecentBlockhash Geyser.Instructions Geyser.PriorityFee Geyser.ComputeUnitLimit
      Geyser.LoadedAccountsDataSizeLimit Geyser.HeapSize].
    rewrite decide_False by (by intros []). rewrite Hmeta by done.
    rewrite (fmap_same SignatureFromBytes sig_ok) by (done || apply signature_same). unfold convertPubkeys.
    rewrite (fmap_same pubkeyFromBytes key_ok) by (done || apply pubkey_same).
    rewrite header_same, instructions_same by done. unfold hashFromBytes. fold (pubkeyFromBytes (LifetimeSpecifier tx)).
    rewrite pubkey_same by done. by destruct tx as [h [] l k i s].
  - intros u. unfold Update_Transaction, Update_TransactionV1. split.
    + repeat case_match; try done; try (by apply bind_no_panic; [|intros; apply bind_no_panic; [apply meta_total|]]).
    + repeat case_match; try done; simplify_eq; try apply meta_total.
Qed.

(** A v0 transaction with one lookup, a failed one's metadata with a reward and a
    token balance, and a v1 transaction. *)
Definition streamTx : Transaction :=
  mkTransaction [replicate 64 9]
    (mkMessage MessageVersionV0 [sampleKey 1; sampleKey 2] (mkMessageHeader 1 0 1) (sampleKey 7)
       [Keys.mkCompiledInstruction 1 [0; 2; 3] [255; 0]] [mkLookup (sampleKey 3) [4] []]).
Definition streamMeta : TransactionMeta StreamError :=
  mkTransactionMeta _ (Some (mkStreamError [8; 0; 0; 0])) 5000 [10] [5]
    [mkInnerInstruction 0 [RpcTypes.mkCompiledInstruction 1 [0] [1] 2]]
    [mkTokenBalance 1 (Some (sampleKey 4)) None (sampleKey 5) (Some (mkUiTokenAmount (str "7") 6 (Some 0) (str "0.000007")))]
    [] [str "log"] [mkBlockReward (sampleKey 6) (-3) 9 (str "Voting") (Some 100) (Some 10000)]
    (mkLoadedAddresses [sampleKey 8] []) zeroReturnData (Some 150) None.
Definition streamTxV1 : TransactionV1 :=
  mkTransactionV1 (mkMessageHeader 1 0 1) (mkConfig (Some 1) None (Some 2) None) (sampleKey 7) [sampleKey 1; sampleKey 2]
    [Keys.mkCompiledInstruction 1 [0] [3]] [replicate 64 9].

Lemma stream_conversion_exact_witness :
  Update_Transaction (b58:=toyBase58) (transactionUpdate (geyserTransaction streamTx) (Some (geyserMeta (b58:=toyBase58) streamMeta))) =
    Ok (streamTx, Some streamMeta) ∧
  Update_TransactionV1 (b58:=toyBase58) (transactionUpdate (geyserTransactionV1 streamTxV1) None) =
    Ok (streamTxV1, Ok None).
Proof.
  assert (stream_tx streamTx) as H1.
  { split; [decide_by_compute|]. split_and!; decide_by_compute. }
  assert (meta_ok streamMeta) as H2.
  { split_and!; try decide_by_compute; [| | |by left]; repeat constructor; decide_by_compute. }
  assert (stream_txV1 streamTxV1) as H3 by (split_and!; decide_by_compute).
  destruct (stream_conversion_exact (b58:=toyBase58) toyBase58_laws) as (Ha & Hb & _). split.
  - apply (Ha streamTx (Some streamMeta) H1 H2).
  - apply (Hb streamTxV1 None H3 I).
Defined.
