(* ===== verification/Ws.v ===== *)
(** Ws: the WebSocket subscription client (ws/client.go). One [Client] is
    shared by the read loop, any number of request callers and subscription
    holders; every critical section of [c.mu] is one step, channels live in a
    heap because subscriptions and pending requests share them by pointer, and
    closing a closed channel or sending on one panics as in Go. JSON decoding
    is bytedance/sonic's and enters as the class [Sonic]. *)
From Stdlib Require Import ZArith Lia.
From stdpp Require Import base numbers strings gmap list.
From S2P Require Import Prelude.

Open Scope Z_scope.

Definition DefaultSubscriptionBuffer : Z := 256.

(** The envelope [route] decodes. *)
Record envelope := mkEnvelope {
  env_ID : Z;
  env_Result : bytes;
  env_Error : option Z;
  env_Method : string;
  env_Subscription : Z;
  env_ParamsResult : bytes;
}.

Class Sonic := {
  sonic_envelope : bytes → option envelope;
  sonic_uint64 : bytes → option Z;
}.

Inductive ws_err :=
  | ErrSubscriptionClosed (cause : Z)
  | errRequest (code : Z)
  | errWrite
  | errContext
  | errSubscriptionID.

(** * Data *)

(** A subscription's buffered channel with its drop counter. *)
Record subEntry := mkSubEntry { ch_buf : list bytes; ch_closed : bool; dropped : Z }.

Record subResponse := mkSubResponse { resp_result : bytes; resp_err : option Z }.

(** A request's reply channel, of capacity one. *)
Record replyChan := mkReplyChan { reply : option subResponse; reply_closed : bool }.

(** [pendingReq]: pointers to the reply channel and, for a subscribe request,
    to the entry to register. *)
Record pendingReq := mkPendingReq { p_ch : nat; p_entry : option nat }.

Record Client := mkClient {
  buffer : Z;
  reqID : Z;
  pending : gmap Z pendingReq;
  subs : gmap Z nat;
  err : option ws_err;
  closed : bool;
}.

(** A subscription held by a caller. *)
Record subscription := mkSubscription { sub_id : Z; sub_entry : nat }.

(** The client, the channels, and where each goroutine is: the requests that
    wait in their [select] (by reply channel), the subscriptions handed out, and
    the reply the read loop is about to send. *)
Record world := mkWorld {
  cl : Client;
  entries : gmap nat subEntry;
  replies : gmap nat replyChan;
  calls : gmap nat (Z * option nat);
  handles : gmap nat subscription;
  routing : option (nat * subResponse);
}.

Definition NewClient (buf : Z) : world :=
  mkWorld (mkClient buf 0 ∅ ∅ None false) ∅ ∅ ∅ ∅ None.

(** [ConnectWithOptions]: the buffer size comes from the options when positive. *)
Definition ConnectWithOptions (subscriptionBuffer : option Z) : world :=
  NewClient (match subscriptionBuffer with
             | Some n => if decide (0 < n) then n else DefaultSubscriptionBuffer
             | None => DefaultSubscriptionBuffer
             end).

Abbreviation M := (GoM world ws_err).

Definition with_cl (f : Client → Client) (w : world) : world :=
  mkWorld (f (cl w)) (entries w) (replies w) (calls w) (handles w) (routing w).
Definition with_entries (f : gmap nat subEntry → gmap nat subEntry) (w : world) : world :=
  mkWorld (cl w) (f (entries w)) (replies w) (calls w) (handles w) (routing w).
Definition with_replies (f : gmap nat replyChan → gmap nat replyChan) (w : world) : world :=
  mkWorld (cl w) (entries w) (f (replies w)) (calls w) (handles w) (routing w).
Definition with_calls (f : gmap nat (Z * option nat) → gmap nat (Z * option nat)) (w : world) : world :=
  mkWorld (cl w) (entries w) (replies w) (f (calls w)) (handles w) (routing w).
Definition with_handles (f : gmap nat subscription → gmap nat subscription) (w : world) : world :=
  mkWorld (cl w) (entries w) (replies w) (calls w) (f (handles w)) (routing w).
Definition with_routing (r : option (nat * subResponse)) (w : world) : world :=
  mkWorld (cl w) (entries w) (replies w) (calls w) (handles w) r.

Definition set_pending (p : gmap Z pendingReq) (c : Client) : Client :=
  mkClient (buffer c) (reqID c) p (subs c) (err c) (closed c).
Definition set_subs (s : gmap Z nat) (c : Client) : Client :=
  mkClient (buffer c) (reqID c) (pending c) s (err c) (closed c).

(** * Channels *)

(** [close(entry.ch)]. *)
Definition closeEntry (p : nat) : M unit :=
  w ← get;
  match entries w !! p with
  | Some e => if ch_closed e then lift Panic
              else modify (with_entries (<[p := mkSubEntry (ch_buf e) true (dropped e)]>))
  | None => lift Panic
  end.

(** [select { case entry.ch <- data: default: entry.dropped.Add(1) }]. *)
Definition offerEntry (p : nat) (data : bytes) : M unit :=
  w ← get;
  match entries w !! p with
  | Some e =>
    if ch_closed e then lift Panic else
    let e' := if decide (len (ch_buf e) < buffer (cl w))
              then mkSubEntry (ch_buf e ++ [data]) false (dropped e)
              else mkSubEntry (ch_buf e) false (u64 (dropped e + 1)) in
    modify (with_entries (<[p := e']>))
  | None => lift Panic
  end.

(** [close(p.ch)]. *)
Definition closeReply (p : nat) : M unit :=
  w ← get;
  match replies w !! p with
  | Some r => if reply_closed r then lift Panic
              else modify (with_replies (<[p := mkReplyChan (reply r) true]>))
  | None => lift Panic
  end.

(** [p.ch <- resp]: the channel has room for one; a full one would block the
    read loop, which the model reports as a panic of its own. *)
Definition sendReply (p : nat) (resp : subResponse) : M unit :=
  w ← get;
  match replies w !! p with
  | Some r =>
    if reply_closed r then lift Panic else
    match reply r with
    | Some _ => lift Panic
    | None => modify (with_replies (<[p := mkReplyChan (Some resp) false]>))
    end
  | None => lift Panic
  end.

Fixpoint closeEntries (ps : list nat) : M unit :=
  match ps with [] => mret tt | p :: ps' => _ ← closeEntry p; closeEntries ps' end.
Fixpoint closeReplies (ps : list nat) : M unit :=
  match ps with [] => mret tt | p :: ps' => _ ← closeReply p; closeReplies ps' end.

(** [close(c.closed)]. *)
Definition closeClosed : M unit :=
  w ← get;
  if closed (cl w) then lift Panic
  else modify (with_cl (λ c, mkClient (buffer c) (reqID c) (pending c) (subs c) (err c) true)).

(** * Operations *)

(** [fail]: the first error wins, and everything open is closed once. *)
Definition fail_ (e : ws_err) : M unit :=
  w ← get;
  match err (cl w) with
  | Some _ => mret tt
  | None =>
    _ ← modify (with_cl (λ c, mkClient (buffer c) (reqID c) (pending c) (subs c) (Some e) (closed c)));
    _ ← closeClosed;
    _ ← closeEntries (snd <$> map_to_list (subs (cl w)));
    _ ← modify (with_cl (set_subs ∅));
    _ ← closeReplies (p_ch ∘ snd <$> map_to_list (pending (cl w)));
    modify (with_cl (set_pending ∅))
  end.

Section client.
Context `{sonic : Sonic}.

(** [route] up to the last unlock; a reply to send stays in [routing]. *)
Definition route (data : bytes) : M unit :=
  match sonic_envelope data with
  | None => mret tt
  | Some env =>
    w ← get;
    if decide (env_Method env ≠ ""%string) then
      match subs (cl w) !! env_Subscription env with
      | Some p => offerEntry p (env_ParamsResult env)
      | None => mret tt
      end
    else
      let p := pending (cl w) !! env_ID env in
      _ ← modify (with_cl (λ c, set_pending (delete (env_ID env) (pending c)) c));
      _ ← (match p, env_Error env with
           | Some (mkPendingReq _ (Some entry)), None =>
             match sonic_uint64 (env_Result env) with
             | Some subID => modify (with_cl (λ c, set_subs (<[subID := entry]> (subs c)) c))
             | None => mret tt
             end
           | _, _ => mret tt
           end);
      match p with
      | Some req => modify (with_routing (Some (p_ch req, mkSubResponse (env_Result env) (env_Error env))))
      | None => mret tt
      end
  end.

(** The send after the unlock. *)
Definition deliver : M unit :=
  w ← get;
  match routing w with
  | Some (p, resp) => _ ← modify (with_routing None); sendReply p resp
  | None => mret tt
  end.

(** [request] up to the write: the entry of [subscribe], a fresh request id and
    reply channel, and the registration in [pending]. *)
Definition requestStart (subscribing : bool) : M nat :=
  w ← get;
  let entry := fresh (dom (entries w)) in
  _ ← (if subscribing then modify (with_entries (<[entry := mkSubEntry [] false 0]>)) else mret tt);
  let id := u64 (reqID (cl w) + 1) in
  _ ← modify (with_cl (λ c, mkClient (buffer c) id (pending c) (subs c) (err c) (closed c)));
  let ch := fresh (dom (replies w)) in
  _ ← modify (with_replies (<[ch := mkReplyChan None false]>));
  match err (cl w) with
  | Some e => throw e
  | None =>
    let req := mkPendingReq ch (if subscribing then Some entry else None) in
    _ ← modify (with_cl (λ c, set_pending (<[id := req]> (pending c)) c));
    _ ← modify (with_calls (<[ch := (id, p_entry req)]>));
    mret ch
  end.

(** A call leaves its [select]: [delete(c.pending, id)] on the write-error and
    context paths. *)
Definition abandon (ch : nat) (e : ws_err) : M unit :=
  w ← get;
  match calls w !! ch with
  | None => mret tt
  | Some (id, _) =>
    _ ← modify (with_cl (λ c, set_pending (delete id (pending c)) c));
    _ ← modify (with_calls (delete ch));
    throw e
  end.

(** [case <-c.closed]. *)
Definition awaitClosed (ch : nat) : M unit :=
  w ← get;
  match calls w !! ch, closed (cl w), err (cl w) with
  | Some _, true, Some e => _ ← modify (with_calls (delete ch)); throw e
  | _, _, _ => mret tt
  end.

(** [case resp, ok := <-ch] and what [subscribe] does with the result. *)
Definition awaitReply (ch : nat) : M unit :=
  w ← get;
  match calls w !! ch, replies w !! ch with
  | Some (_, entry), Some r =>
    match reply r with
    | Some resp =>
      _ ← modify (with_replies (<[ch := mkReplyChan None (reply_closed r)]>));
      _ ← modify (with_calls (delete ch));
      match resp_err resp with
      | Some code => throw (errRequest code)
      | None =>
        match entry with
        | None => mret tt
        | Some p =>
          match sonic_uint64 (resp_result resp) with
          | Some subID => modify (with_handles (<[p := mkSubscription subID p]>))
          | None => throw errSubscriptionID
          end
        end
      end
    | None =>
      if reply_closed r then
        _ ← modify (with_calls (delete ch));
        match err (cl w) with Some e => throw e | None => mret tt end
      else mret tt
    end
  | _, _ => mret tt
  end.

(** [Recv] on a ready channel: the next notification, or the close. *)
Definition Recv (p : nat) : M (option bytes) :=
  w ← get;
  match entries w !! p with
  | Some e =>
    match ch_buf e with
    | raw :: rest =>
      _ ← modify (with_entries (<[p := mkSubEntry rest (ch_closed e) (dropped e)]>)); mret (Some raw)
    | [] =>
      if ch_closed e then throw (match err (cl w) with Some e => e | None => ErrSubscriptionClosed 0 end)
      else mret None
    end
  | None => mret None
  end.

Definition Dropped (p : nat) (w : world) : Z :=
  match entries w !! p with Some e => dropped e | None => 0 end.

(** [Release]: only when the id still belongs to this subscription. *)
Definition Release (p : nat) : M unit :=
  w ← get;
  match handles w !! p with
  | None => mret tt
  | Some s =>
    match subs (cl w) !! sub_id s with
    | Some q => if decide (q = sub_entry s) then
                  _ ← modify (with_cl (λ c, set_subs (delete (sub_id s) (subs c)) c)); closeEntry q
                else mret tt
    | None => mret tt
    end
  end.

(** * Interleavings *)

(** One step of some goroutine. *)
Inductive event :=
  | EvRequest (subscribing : bool)
  | EvWriteError (ch : nat)
  | EvContext (ch : nat)
  | EvClosed (ch : nat)
  | EvReply (ch : nat)
  | EvFrame (data : bytes)
  | EvDeliver
  | EvFail (e : ws_err)
  | EvRecv (p : nat)
  | EvRelease (p : nat).

(** The read loop takes the next frame only after it has sent the last reply. *)
Definition exec (ev : event) : M unit :=
  match ev with
  | EvRequest s => _ ← requestStart s; mret tt
  | EvWriteError ch => abandon ch errWrite
  | EvContext ch => abandon ch errContext
  | EvClosed ch => awaitClosed ch
  | EvReply ch => awaitReply ch
  | EvFrame data => w ← get; match routing w with Some _ => mret tt | None => route data end
  | EvDeliver => deliver
  | EvFail e => fail_ e
  | EvRecv p => _ ← Recv p; mret tt
  | EvRelease p => Release p
  end.

(** A goroutine's error ends its call; a panic ends the program. *)
Fixpoint execAll (evs : list event) (w : world) : outcome unit world :=
  match evs with
  | [] => Ok w
  | ev :: evs' =>
    match exec ev w with
    | (Panic, _) => Panic
    | (_, w') => execAll evs' w'
    end
  end.

End client.
