(* ===== verification/WsSpec.v ===== *)
(** WsSpec: channel safety of the WebSocket client under every interleaving,
    and the accounting of notifications. *)
From Stdlib Require Import ZArith Lia.
From stdpp Require Import base numbers strings gmap list.
From S2P Require Import Prelude Ws.

Open Scope Z_scope.

(** * The invariant *)

(** Pointers held by at most one key. *)
Definition inj {A} (f : A → option nat) (m : gmap Z A) : Prop :=
  ∀ i j x y p, m !! i = Some x → m !! j = Some y → f x = Some p → f y = Some p → i = j.

Definition open_entry (w : world) (p : nat) : Prop := ∃ e, entries w !! p = Some e ∧ ch_closed e = false.
Definition idle_reply (w : world) (p : nat) : Prop := replies w !! p = Some (mkReplyChan None false).

(** Registered entries are open and registered once; pending requests have an
    idle reply channel of their own and, when subscribing, an open entry that is
    not registered yet; the reply in transit has left the pending table; after a
    failure both tables are empty. *)
Record ws_inv (w : world) : Prop := {
  inv_subs_open : ∀ id p, subs (cl w) !! id = Some p → open_entry w p;
  inv_subs_inj : inj Some (subs (cl w));
  inv_pend_idle : ∀ id r, pending (cl w) !! id = Some r → idle_reply w (p_ch r);
  inv_pend_inj : inj (Some ∘ p_ch) (pending (cl w));
  inv_pend_open : ∀ id r q, pending (cl w) !! id = Some r → p_entry r = Some q →
    open_entry w q ∧ ∀ sid, subs (cl w) !! sid ≠ Some q;
  inv_entry_inj : inj p_entry (pending (cl w));
  inv_routing : ∀ p resp, routing w = Some (p, resp) →
    idle_reply w p ∧ ∀ id r, pending (cl w) !! id = Some r → p_ch r ≠ p;
  inv_failed : if err (cl w) is Some _ then subs (cl w) = ∅ ∧ pending (cl w) = ∅ ∧ closed (cl w) = true
    else closed (cl w) = false;
}.

Lemma inv_start buf : ws_inv (NewClient buf).
Proof. by split. Qed.

(** Safe: the step keeps the invariant whether it succeeds or errs, and does
    not panic. *)
Definition safe {A} (m : M A) : Prop := ∀ w, ws_inv w → wp m (λ _, ws_inv) (λ _, ws_inv) w.

Lemma inj_delete {A} (f : A → option nat) m i : inj f m → inj f (delete i m).
Proof.
  intros H j k x y p Hx Hy. apply lookup_delete_Some in Hx as [_ Hx], Hy as [_ Hy]. by eapply H.
Qed.

Lemma inj_insert {A} (f : A → option nat) m i x :
  inj f m → (∀ j y p, m !! j = Some y → f x = Some p → f y = Some p → j = i) → inj f (<[i := x]> m).
Proof.
  intros H Hx j k y z p Hy Hz Hfy Hfz.
  apply lookup_insert_Some in Hy as [[<- <-]|[Hj Hy]], Hz as [[<- <-]|[Hk Hz]].
  - done.
  - symmetry. by eapply Hx.
  - by eapply Hx.
  - by eapply H.
Qed.

(** An entry changes but stays open. *)
Lemma open_entry_update w p q e :
  ch_closed e = false → open_entry w q → open_entry (with_entries (<[p := e]>) w) q.
Proof.
  intros He [e' [Hq Hc]]. unfold open_entry. cbn. destruct (decide (p = q)) as [->|].
  - rewrite lookup_insert_eq. by exists e.
  - rewrite lookup_insert_ne by done. by exists e'.
Qed.

Lemma update_entry_inv w p e : ws_inv w → ch_closed e = false → ws_inv (with_entries (<[p := e]>) w).
Proof.
  intros [H1 H2 H3 H4 H5 H6 H7 H8] He. split; cbn; try done.
  - intros id q Hq. by apply open_entry_update, (H1 id).
  - intros id r q Hr Hq. destruct (H5 id r q Hr Hq) as [? ?]. split; [by apply open_entry_update|done].
Qed.

(** Draining a buffer keeps the entry as open as it was. *)
Lemma drain_entry_inv w p e e' :
  ws_inv w → entries w !! p = Some e → ch_closed e' = ch_closed e → ws_inv (with_entries (<[p := e']>) w).
Proof.
  intros [H1 H2 H3 H4 H5 H6 H7 H8] He Hc.
  assert (∀ q, open_entry w q → open_entry (with_entries (<[p := e']>) w) q) as Hop.
  { intros q (e0 & Hq & H0). unfold open_entry. cbn. destruct (decide (p = q)) as [->|].
    - rewrite lookup_insert_eq. exists e'. split; [done|]. congruence.
    - rewrite lookup_insert_ne by done. by exists e0. }
  split; cbn; try done.
  - intros id q Hq. by apply Hop, (H1 id).
  - intros id r q Hr Hq. destruct (H5 id r q Hr Hq) as [? ?]. split; [by apply Hop|done].
Qed.

Lemma delete_pending_inv w id : ws_inv w → ws_inv (with_cl (λ c, set_pending (delete id (pending c)) c) w).
Proof.
  intros [H1 H2 H3 H4 H5 H6 H7 H8]. split; cbn.
  - done.
  - done.
  - intros i r [_ Hr]%lookup_delete_Some. by eapply H3.
  - by apply inj_delete.
  - intros i r q [_ Hr]%lookup_delete_Some. by eapply H5.
  - by apply inj_delete.
  - intros p resp Hp. destruct (H7 p resp Hp) as [? Hn]. split; [done|].
    intros i r [_ Hr]%lookup_delete_Some. by eapply Hn.
  - destruct (err (cl w)); [|done]. destruct H8 as (-> & -> & ?). by rewrite delete_empty.
Qed.

Lemma calls_inv w f : ws_inv w → ws_inv (with_calls f w).
Proof. intros []. by split. Qed.

Lemma handles_inv w f : ws_inv w → ws_inv (with_handles f w).
Proof. intros []. by split. Qed.

(** A reply channel out of both tables may change. *)
Lemma reply_inv w p r :
  ws_inv w → (∀ id q, pending (cl w) !! id = Some q → p_ch q ≠ p) → (∀ resp, routing w ≠ Some (p, resp)) →
  ws_inv (with_replies (<[p := r]>) w).
Proof.
  intros [H1 H2 H3 H4 H5 H6 H7 H8] Hp Hr. split; cbn; try done.
  - intros id q Hq. unfold idle_reply. cbn. rewrite lookup_insert_ne; [by eapply H3|].
    intros ->. by eapply Hp.
  - intros q resp Hq. destruct (H7 q resp Hq) as [? ?]. split; [|done].
    unfold idle_reply. cbn. rewrite lookup_insert_ne; [done|]. intros ->. by eapply Hr.
Qed.

(** * Each operation is safe *)

Section safety.
Context `{sonic : Sonic}.

Lemma fresh_not_in {A} (m : gmap nat A) : m !! fresh (dom m) = None.
Proof. apply not_elem_of_dom, is_fresh. Qed.

Lemma abandon_safe ch e : safe (abandon ch e).
Proof.
  intros w Hw. unfold abandon. apply wp_run_get. destruct (calls w !! ch) as [[id en]|]; [|by apply wp_ret].
  apply wp_run_modify, wp_run_modify, wp_throw. by apply calls_inv, delete_pending_inv.
Qed.

Lemma awaitClosed_safe ch : safe (awaitClosed ch).
Proof.
  intros w Hw. unfold awaitClosed. apply wp_run_get.
  destruct (calls w !! ch), (closed (cl w)), (err (cl w)); try (by apply wp_ret).
  apply wp_run_modify, wp_throw. by apply calls_inv.
Qed.

Lemma Recv_safe p : safe (Recv p).
Proof.
  intros w Hw. unfold Recv. apply wp_run_get. destruct (entries w !! p) as [e|] eqn:He; [|by apply wp_ret].
  destruct (ch_buf e); [destruct (ch_closed e); [by apply wp_throw|by apply wp_ret]|].
  apply wp_run_modify, wp_ret. by eapply drain_entry_inv.
Qed.

(** A reply channel that holds a value or is closed belongs to no table. *)
Lemma busy_reply w p r :
  ws_inv w → replies w !! p = Some r → r ≠ mkReplyChan None false →
  (∀ id q, pending (cl w) !! id = Some q → p_ch q ≠ p) ∧ ∀ resp, routing w ≠ Some (p, resp).
Proof.
  intros Hw Hp Hr. split.
  - intros id q Hq Heq. pose proof (inv_pend_idle _ Hw _ _ Hq) as H. unfold idle_reply in H. rewrite Heq in H. congruence.
  - intros resp Hrt. destruct (inv_routing _ Hw _ _ Hrt) as [H _]. unfold idle_reply in H. congruence.
Qed.

Lemma awaitReply_safe ch : safe (awaitReply ch).
Proof.
  intros w Hw. unfold awaitReply. apply wp_run_get.
  destruct (calls w !! ch) as [[id en]|]; [|by apply wp_ret].
  destruct (replies w !! ch) as [r|] eqn:Hr; [|by apply wp_ret].
  destruct (reply r) as [resp|] eqn:Hv.
  - destruct (busy_reply w ch r Hw Hr) as [Hp Hrt]; [by intros ->|].
    apply wp_run_modify, wp_run_modify.
    assert (ws_inv (with_calls (delete ch) (with_replies (<[ch := mkReplyChan None (reply_closed r)]>) w)))
      by (by apply calls_inv, reply_inv).
    destruct (resp_err resp); [by apply wp_throw|]. destruct en as [p|]; [|by apply wp_ret].
    destruct (sonic_uint64 _); [|by apply wp_throw]. by apply handles_inv.
  - destruct (reply_closed r); [|by apply wp_ret]. apply wp_run_modify.
    destruct (err (cl w)); [apply wp_throw|apply wp_ret]; by apply calls_inv.
Qed.

(** Allocating an entry or a reply channel. *)
Lemma alloc_entry_inv w : ws_inv w → ws_inv (with_entries (<[fresh (dom (entries w)) := mkSubEntry [] false 0]>) w).
Proof. intros Hw. by apply update_entry_inv. Qed.

Lemma fresh_reply w p : ws_inv w → replies w !! p = None →
  (∀ id q, pending (cl w) !! id = Some q → p_ch q ≠ p) ∧ ∀ resp, routing w ≠ Some (p, resp).
Proof.
  intros Hw Hp. split.
  - intros id q Hq Heq. pose proof (inv_pend_idle _ Hw _ _ Hq) as H. unfold idle_reply in H. rewrite Heq in H. congruence.
  - intros resp Hrt. destruct (inv_routing _ Hw _ _ Hrt) as [H _]. unfold idle_reply in H. congruence.
Qed.

(** Registering a request whose channels are new. *)
Lemma register_inv w id req :
  ws_inv w → err (cl w) = None → idle_reply w (p_ch req) →
  (∀ i q, pending (cl w) !! i = Some q → p_ch q ≠ p_ch req) → (∀ resp, routing w ≠ Some (p_ch req, resp)) →
  (∀ q, p_entry req = Some q → open_entry w q ∧ (∀ sid, subs (cl w) !! sid ≠ Some q) ∧
     ∀ i r, pending (cl w) !! i = Some r → p_entry r ≠ Some q) →
  ws_inv (with_cl (λ c, set_pending (<[id := req]> (pending c)) c) w).
Proof.
  intros [H1 H2 H3 H4 H5 H6 H7 H8] He Hi Hp Hr Hq. split; cbn.
  - done.
  - done.
  - intros i r [[<- <-]|[_ ?]]%lookup_insert_Some; [done|by eapply H3].
  - apply inj_insert; [done|]. intros j y p Hy [= Hx] [= Hfy]. exfalso. eapply Hp; [exact Hy|]. congruence.
  - intros i r q [[<- <-]|[_ ?]]%lookup_insert_Some Hrq; [|by eapply H5]. destruct (Hq q Hrq) as (? & ? & _). done.
  - apply inj_insert; [done|]. intros j y p Hy Hx Hfy. exfalso. destruct (Hq p Hx) as (_ & _ & H). by eapply H.
  - intros p resp Hp'. destruct (H7 p resp Hp') as [? Hn]. split; [done|].
    intros i r [[<- <-]|[_ ?]]%lookup_insert_Some; [|by eapply Hn]. intros <-. by eapply Hr.
  - by rewrite He in *.
Qed.

Lemma reqID_inv w id :
  ws_inv w → ws_inv (with_cl (λ c, mkClient (buffer c) id (pending c) (subs c) (err c) (closed c)) w).
Proof. intros []. by split. Qed.

Lemma requestStart_safe s : safe (requestStart s).
Proof.
  intros w Hw. unfold requestStart. apply wp_run_get.
  set (entry := fresh (dom (entries w))). set (ch := fresh (dom (replies w))).
  assert (∃ w1, (if s then modify (with_entries (<[entry := mkSubEntry [] false 0]>)) else mret tt) w
                = (Ok tt : outcome ws_err unit, w1) ∧ ws_inv w1 ∧ cl w1 = cl w ∧ replies w1 = replies w ∧
                routing w1 = routing w ∧ (s = true → open_entry w1 entry)) as (w1 & Hs & Hw1 & Hc1 & Hr1 & Hrt1 & Ho).
  { destruct s; eexists; (split; [reflexivity|]); (split_and!; [first [done|by apply alloc_entry_inv]|done..|]); [|done].
    intros _. exists (mkSubEntry [] false 0). split; [apply lookup_insert_eq|done]. }
  apply wp_bind. unfold wp at 1. rewrite Hs. apply wp_run_modify, wp_run_modify.
  set (w2 := with_cl _ w1). assert (ws_inv w2) as Hw2 by (by apply reqID_inv).
  assert (replies w2 !! ch = None) as Hch by (subst w2; cbn; rewrite Hr1; apply fresh_not_in).
  destruct (fresh_reply w2 ch Hw2 Hch) as [Hpf Hrf].
  assert (ws_inv (with_replies (<[ch := mkReplyChan None false]>) w2)) as Hw3 by (by apply reply_inv).
  destruct (err (cl w)) as [e|] eqn:He; [by apply wp_throw|].
  apply wp_run_modify, wp_run_modify, wp_ret, calls_inv, register_inv; [done| | |done|done|].
  - cbn. by rewrite Hc1.
  - unfold idle_reply. cbn. apply lookup_insert_eq.
  - cbn. intros q Hq. destruct s; [|done]. injection Hq as <-. split; [by apply Ho|].
    assert (∀ q, open_entry w q → q ≠ entry) as Hne
      by (intros q (e & Hqe & _) ->; unfold entry in Hqe; by rewrite fresh_not_in in Hqe).
    rewrite Hc1. split.
    + intros sid Hsid. by apply (Hne entry (inv_subs_open _ Hw sid entry Hsid)).
    + intros i r Hi Hr. by apply (Hne entry (proj1 (inv_pend_open _ Hw i r entry Hi Hr))).
Qed.

Lemma sendReply_safe p resp w :
  ws_inv w → idle_reply w p → (∀ id q, pending (cl w) !! id = Some q → p_ch q ≠ p) → routing w = None →
  wp (sendReply p resp) (λ _, ws_inv) (λ _, ws_inv) w.
Proof.
  intros Hw Hi Hp Hr. unfold sendReply. apply wp_run_get. unfold idle_reply in Hi. rewrite Hi. cbn.
  apply reply_inv; [done|done|]. intros ?. by rewrite Hr.
Qed.

Lemma deliver_safe : safe deliver.
Proof.
  intros w Hw. unfold deliver. apply wp_run_get. destruct (routing w) as [[p resp]|] eqn:Hr; [|by apply wp_ret].
  destruct (inv_routing _ Hw _ _ Hr) as [Hi Hp]. apply wp_run_modify, sendReply_safe; [|done|done|done].
  destruct Hw. by split.
Qed.

Lemma closeEntry_safe_removed q w :
  ws_inv w → open_entry w q → (∀ sid, subs (cl w) !! sid ≠ Some q) →
  (∀ i r, pending (cl w) !! i = Some r → p_entry r ≠ Some q) →
  wp (closeEntry q) (λ _, ws_inv) (λ _, ws_inv) w.
Proof.
  intros Hw (e & He & Hc) Hs Hp. unfold closeEntry. apply wp_run_get. rewrite He, Hc. cbn.
  assert (∀ p, p ≠ q → open_entry w p →
    open_entry (with_entries (<[q := mkSubEntry (ch_buf e) true (dropped e)]>) w) p) as Ho.
  { intros p Hpq (e' & He' & Hc'). exists e'. cbn. by rewrite lookup_insert_ne. }
  destruct Hw as [H1 H2 H3 H4 H5 H6 H7 H8]. split; cbn; try done.
  - intros id p Hid. apply Ho; [intros ->; by eapply Hs|by eapply H1].
  - intros id r p Hr Hrp. destruct (H5 id r p Hr Hrp) as [? ?]. split; [|done].
    apply Ho; [intros ->; by eapply Hp|done].
Qed.

Lemma Release_safe p : safe (Release p).
Proof.
  intros w Hw. unfold Release. apply wp_run_get. destruct (handles w !! p) as [s|]; [|by apply wp_ret].
  destruct (subs (cl w) !! sub_id s) as [q|] eqn:Hq; [|by apply wp_ret].
  case_decide; [|by apply wp_ret]. apply wp_run_modify, closeEntry_safe_removed.
  - destruct Hw as [H1 H2 H3 H4 H5 H6 H7 H8]. split; cbn; try done.
    + intros id r [_ ?]%lookup_delete_Some. by eapply H1.
    + by apply inj_delete.
    + intros id r q' Hr Hrq. destruct (H5 id r q' Hr Hrq) as [? Hn]. split; [done|].
      intros sid [_ ?]%lookup_delete_Some. by eapply Hn.
    + destruct (err (cl w)); [|done]. destruct H8 as (-> & -> & ?). by rewrite delete_empty.
  - by apply (inv_subs_open _ Hw (sub_id s)).
  - cbn. intros sid [Hne Hs]%lookup_delete_Some. apply Hne. by eapply (inv_subs_inj _ Hw).
  - cbn. intros i r Hi Hr. destruct (inv_pend_open _ Hw i r q Hi Hr) as [_ Hn]. by apply (Hn (sub_id s)).
Qed.

Lemma register_sub_inv w subID q :
  ws_inv w → open_entry w q → (∀ sid, subs (cl w) !! sid ≠ Some q) →
  (∀ i r, pending (cl w) !! i = Some r → p_entry r ≠ Some q) → err (cl w) = None →
  ws_inv (with_cl (λ c, set_subs (<[subID := q]> (subs c)) c) w).
Proof.
  intros [H1 H2 H3 H4 H5 H6 H7 H8] Ho Hs Hp He. split; cbn; try done.
  - intros id p [[<- <-]|[_ ?]]%lookup_insert_Some; [done|by eapply H1].
  - apply inj_insert; [done|]. intros j y p Hy [= ->] [= ->]. exfalso. by eapply Hs.
  - intros i r q' Hr Hrq. destruct (H5 i r q' Hr Hrq) as [? Hn]. split; [done|].
    intros sid [[<- <-]|[_ ?]]%lookup_insert_Some; [by eapply Hp|by eapply Hn].
  - by rewrite He in *.
Qed.

Lemma routing_inv w p resp :
  ws_inv w → idle_reply w p → (∀ id r, pending (cl w) !! id = Some r → p_ch r ≠ p) →
  ws_inv (with_routing (Some (p, resp)) w).
Proof. intros [] Hi Hp. split; cbn; try done. by intros ? ? [= <- <-]. Qed.

Lemma offerEntry_safe p data w id :
  ws_inv w → subs (cl w) !! id = Some p → wp (offerEntry p data) (λ _, ws_inv) (λ _, ws_inv) w.
Proof.
  intros Hw Hs. destruct (inv_subs_open _ Hw _ _ Hs) as (e & He & Hc).
  unfold offerEntry. apply wp_run_get. rewrite He, Hc. cbn. apply update_entry_inv; [done|]. by case_decide.
Qed.

(** Registration of the acknowledged entry, before the reply is sent. *)
Lemma acknowledge_safe w id req subID q :
  ws_inv w → pending (cl w) !! id = Some req → p_entry req = Some q →
  let w1 := with_cl (λ c, set_pending (delete id (pending c)) c) w in
  ws_inv (with_cl (λ c, set_subs (<[subID := q]> (subs c)) c) w1).
Proof.
  intros Hw Hp Hq w1. destruct (inv_pend_open _ Hw _ _ _ Hp Hq) as [Ho Hs].
  apply register_sub_inv; [by apply delete_pending_inv|done|done| |].
  - cbn. intros i r [Hi Hr]%lookup_delete_Some Hrq. apply Hi. by eapply (inv_entry_inj _ Hw).
  - cbn. pose proof (inv_failed _ Hw) as Hf. destruct (err (cl w)); [|done]. destruct Hf as (_ & Hf & _).
    by rewrite Hf, lookup_empty in Hp.
Qed.

Lemma route_safe data : safe (route data).
Proof.
  intros w Hw. unfold route. destruct (sonic_envelope data) as [env|]; [|by apply wp_ret].
  apply wp_run_get. case_decide.
  { destruct (subs (cl w) !! env_Subscription env) as [p|] eqn:Hp; [by eapply offerEntry_safe|by apply wp_ret]. }
  apply wp_run_modify. set (w1 := with_cl _ w).
  assert (ws_inv w1) as Hw1 by (by apply delete_pending_inv).
  destruct (pending (cl w) !! env_ID env) as [req|] eqn:Hreq; [|by apply wp_bind, wp_ret, wp_ret].
  assert (idle_reply w (p_ch req)) as Hidle by (by apply (inv_pend_idle _ Hw (env_ID env))).
  assert (∀ i r, pending (cl w1) !! i = Some r → p_ch r ≠ p_ch req) as Hne.
  { cbn. intros i r [Hi Hr]%lookup_delete_Some Heq. apply Hi.
    eapply (inv_pend_inj _ Hw _ _ _ _ (p_ch req)); [exact Hreq|exact Hr|done|cbn; by rewrite Heq]. }
  destruct req as [ch [q|]]; cbn [p_ch] in *.
  2: { apply wp_bind, wp_ret. by apply routing_inv. }
  destruct (env_Error env); [by apply wp_bind, wp_ret, routing_inv|].
  destruct (sonic_uint64 (env_Result env)) as [subID|]; [|by apply wp_bind, wp_ret, routing_inv].
  apply wp_run_modify. apply routing_inv; [|done|done].
  by apply (acknowledge_safe w (env_ID env) (mkPendingReq ch (Some q)) subID q).
Qed.

Lemma closeEntries_run ps w :
  NoDup ps → (∀ p, p ∈ ps → open_entry w p) → ∃ f, closeEntries ps w = (Ok tt, with_entries f w).
Proof.
  revert w. induction ps as [|p ps IH]; intros w Hn Ho; [exists id; by destruct w|].
  apply NoDup_cons in Hn as [Hp Hn]. destruct (Ho p) as (e & He & Hc); [set_solver|].
  set (g := <[p := mkSubEntry (ch_buf e) true (dropped e)]> : gmap nat subEntry → _).
  destruct (IH (with_entries g w) Hn) as [f Hf].
  { intros q Hq. destruct (Ho q) as (e' & He' & Hc'); [set_solver|]. exists e'. cbn. split; [|done].
    unfold g. rewrite lookup_insert_ne; [done|]. set_solver. }
  exists (λ m, f (g m)). cbn [closeEntries]. rewrite (run_bind _ _ _ tt (with_entries g w)); [done|].
  unfold closeEntry. rewrite run_get, He, Hc. done.
Qed.

Lemma closeReplies_run ps w :
  NoDup ps → (∀ p, p ∈ ps → idle_reply w p) →
  ∃ f, closeReplies ps w = (Ok tt, with_replies f w) ∧ ∀ p, p ∉ ps → f (replies w) !! p = replies w !! p.
Proof.
  revert w. induction ps as [|p ps IH]; intros w Hn Ho; [exists id; by destruct w|].
  apply NoDup_cons in Hn as [Hp Hn]. pose proof (Ho p ltac:(set_solver)) as Hi. unfold idle_reply in Hi.
  set (g := <[p := mkReplyChan None true]> : gmap nat replyChan → _).
  destruct (IH (with_replies g w) Hn) as (f & Hf & Hsame).
  { intros q Hq. unfold idle_reply. cbn. unfold g. rewrite lookup_insert_ne by set_solver. apply Ho. set_solver. }
  exists (λ m, f (g m)). split.
  - cbn [closeReplies]. rewrite (run_bind _ _ _ tt (with_replies g w)); [done|].
    unfold closeReply. rewrite run_get, Hi. done.
  - intros q Hq. cbn in Hsame. rewrite Hsame by set_solver. unfold g. rewrite lookup_insert_ne by set_solver. done.
Qed.

(** The pointers of a table whose keys hold distinct ones. *)
Lemma pointers_NoDup {A} (f : A → nat) (m : gmap Z A) :
  inj (Some ∘ f) m → NoDup (f ∘ snd <$> map_to_list m).
Proof.
  intros Hi. apply NoDup_fmap_2_strong; [|apply NoDup_map_to_list].
  intros [i x] [j y] Hx%elem_of_map_to_list Hy%elem_of_map_to_list Heq. cbn in *.
  assert (i = j) as -> by (eapply (Hi _ _ x y (f x)); [done|done|done|cbn; by rewrite Heq]). congruence.
Qed.

Lemma fail_safe e : safe (fail_ e).
Proof.
  intros w Hw. unfold fail_. apply wp_run_get. destruct (err (cl w)) eqn:He; [by apply wp_ret|].
  pose proof (inv_failed _ Hw) as Hcl. rewrite He in Hcl.
  apply wp_run_modify. apply wp_bind. unfold closeClosed. apply wp_run_get. cbn. rewrite Hcl. cbn.
  set (w1 := with_cl _ (with_cl _ w)).
  destruct (closeEntries_run (snd <$> map_to_list (subs (cl w))) w1) as [f Hf].
  { apply (pointers_NoDup (λ p : nat, p)). apply (inv_subs_inj _ Hw). }
  { intros p Hp. apply list_elem_of_fmap in Hp as ([id q] & -> & Hq%elem_of_map_to_list).
    by apply (inv_subs_open _ Hw id). }
  apply wp_bind. unfold wp at 1. rewrite Hf. apply wp_run_modify. set (w2 := with_cl _ (with_entries _ _)).
  destruct (closeReplies_run (p_ch ∘ snd <$> map_to_list (pending (cl w))) w2) as (g & Hg & Hsame).
  { apply pointers_NoDup, (inv_pend_inj _ Hw). }
  { intros p Hp. apply list_elem_of_fmap in Hp as ([id q] & -> & Hq%elem_of_map_to_list).
    by apply (inv_pend_idle _ Hw id). }
  apply wp_bind. unfold wp at 1. rewrite Hg. cbn.
  split; cbn; try done. intros p resp Hr. destruct (inv_routing _ Hw _ _ Hr) as [Hi Hn].
  split; [|by intros ??; rewrite lookup_empty]. unfold idle_reply. cbn. cbn in Hsame. rewrite Hsame; [done|].
  intros Hp. apply list_elem_of_fmap in Hp as ([id q] & -> & Hq%elem_of_map_to_list). by apply (Hn id q).
Qed.

Lemma exec_safe ev : safe (exec ev).
Proof.
  intros w Hw. destruct ev; cbn [exec].
  - apply wp_bind. eapply wp_mono; [by apply requestStart_safe|intros; by apply wp_ret|done].
  - by apply abandon_safe.
  - by apply abandon_safe.
  - by apply awaitClosed_safe.
  - by apply awaitReply_safe.
  - apply wp_run_get. destruct (routing w); [by apply wp_ret|by apply route_safe].
  - by apply deliver_safe.
  - by apply fail_safe.
  - apply wp_bind. eapply wp_mono; [by apply Recv_safe|intros; by apply wp_ret|done].
  - by apply Release_safe.
Qed.

Lemma execAll_safe evs w : ws_inv w → ∃ w', execAll evs w = Ok w' ∧ ws_inv w'.
Proof.
  revert w. induction evs as [|ev evs IH]; intros w Hw; [by exists w|]. cbn [execAll].
  pose proof (exec_safe ev w Hw) as H. unfold wp in H.
  destruct (exec ev w) as [[[]|e|] w']; [by apply IH|by apply IH|done].
Qed.

(** * Queues *)

(** A step that leaves every subscription's queue and drop counter alone. *)
Definition same_queue (e e' : subEntry) : Prop := ch_buf e' = ch_buf e ∧ dropped e' = dropped e.
Definition quiet {A} (m : M A) : Prop :=
  ∀ w r w', m w = (r, w') →
  buffer (cl w') = buffer (cl w) ∧
  ∀ p e, entries w !! p = Some e → ∃ e', entries w' !! p = Some e' ∧ same_queue e e'.

Lemma quiet_bind {A B} (m : M A) (f : A → M B) : quiet m → (∀ a, quiet (f a)) → quiet (m ≫= f).
Proof.
  intros Hm Hf w r w' Hr. unfold mbind, gom_bind in Hr.
  destruct (m w) as [[a|e|] w1] eqn:E; destruct (Hm _ _ _ E) as [Hb1 H1].
  - destruct (Hf a _ _ _ Hr) as [Hb2 H2]. split; [congruence|]. intros p e He.
    destruct (H1 p e He) as (e1 & He1 & ? & ?). destruct (H2 p e1 He1) as (e2 & He2 & ? & ?).
    exists e2. split; [done|]. split; congruence.
  - injection Hr as _ <-. done.
  - injection Hr as _ <-. done.
Qed.

Lemma quiet_same {A} (m : M A) :
  (∀ w, entries (m w).2 = entries w ∧ buffer (cl (m w).2) = buffer (cl w)) → quiet m.
Proof.
  intros H w r w' Hr. destruct (H w) as [He Hb]. rewrite Hr in He, Hb. cbn in *. split; [done|].
  intros p e. rewrite He. exists e. by split.
Qed.

Lemma quiet_ret {A} (a : A) : quiet (mret a).
Proof. by apply quiet_same. Qed.
Lemma quiet_throw {A} e : quiet (throw e : M A).
Proof. by apply quiet_same. Qed.
Lemma quiet_get {B} (f : world → M B) : (∀ w, quiet (f w)) → quiet (get ≫= f).
Proof. intros H. apply quiet_bind; [by apply quiet_same|done]. Qed.
Lemma quiet_panic {A} : quiet (lift Panic : M A).
Proof. by apply quiet_same. Qed.

Lemma quiet_closeEntry q : quiet (closeEntry q).
Proof.
  intros w r w' Hr. unfold closeEntry in Hr. rewrite run_get in Hr.
  destruct (entries w !! q) as [e0|] eqn:Hq; [destruct (ch_closed e0)|]; injection Hr as _ <-;
    (split; [done|]); intros p e He; [by exists e| |by exists e].
  cbn. destruct (decide (q = p)) as [->|].
  - rewrite lookup_insert_eq. eexists. split; [done|]. split; cbn; congruence.
  - rewrite lookup_insert_ne by done. by exists e.
Qed.

Lemma quiet_closeEntries ps : quiet (closeEntries ps).
Proof. induction ps; cbn; [apply quiet_ret|]. apply quiet_bind; [apply quiet_closeEntry|done]. Qed.

Lemma quiet_closeReply p : quiet (closeReply p).
Proof.
  unfold closeReply. apply quiet_get. intros w. destruct (replies w !! p) as [r|]; [|apply quiet_panic].
  destruct (reply_closed r); by apply quiet_same.
Qed.

Lemma quiet_closeReplies ps : quiet (closeReplies ps).
Proof. induction ps; cbn; [apply quiet_ret|]. apply quiet_bind; [apply quiet_closeReply|done]. Qed.

Lemma quiet_sendReply p resp : quiet (sendReply p resp).
Proof.
  unfold sendReply. apply quiet_get. intros w. destruct (replies w !! p) as [r|]; [|apply quiet_panic].
  destruct (reply_closed r); [apply quiet_panic|]. destruct (reply r); by apply quiet_same.
Qed.

(** Split a step into its parts. *)
Ltac quiet :=
  repeat lazymatch goal with
  | |- quiet (mret _) => apply quiet_ret
  | |- quiet (throw _) => apply quiet_throw
  | |- quiet (lift Panic) => apply quiet_panic
  | |- quiet (closeEntry _) => apply quiet_closeEntry
  | |- quiet (closeEntries _) => apply quiet_closeEntries
  | |- quiet (closeReplies _) => apply quiet_closeReplies
  | |- quiet (sendReply _ _) => apply quiet_sendReply
  | |- quiet (modify _) => by apply quiet_same
  | |- quiet (get ≫= _) => apply quiet_get; intros ?
  | |- quiet (_ ≫= _) => apply quiet_bind; [|intros ?]
  | |- quiet _ => case_match
  end.

Lemma quiet_fail e : quiet (fail_ e).
Proof. unfold fail_, closeClosed. quiet. Qed.
Lemma quiet_deliver : quiet deliver.
Proof. unfold deliver. quiet. Qed.
Lemma quiet_abandon ch e : quiet (abandon ch e).
Proof. unfold abandon. quiet. Qed.
Lemma quiet_awaitClosed ch : quiet (awaitClosed ch).
Proof. unfold awaitClosed. quiet. Qed.
Lemma quiet_awaitReply ch : quiet (awaitReply ch).
Proof. unfold awaitReply. quiet. Qed.
Lemma quiet_Release p : quiet (Release p).
Proof. unfold Release. quiet. Qed.

Lemma quiet_requestStart s : quiet (requestStart s).
Proof.
  intros w r w' Hr. unfold requestStart in Hr. rewrite run_get in Hr.
  destruct s; cbn in Hr; destruct (err (cl w)); cbn in Hr; injection Hr as _ <-; (split; [done|]);
    intros p e He; cbn; try (by exists e); rewrite lookup_insert_ne; try (by exists e);
    intros <-; by rewrite fresh_not_in in He.
Qed.

(** * Notifications *)

(** The notification a step routes to entry [p], and the one a [Recv] takes. *)
Definition offered (p : nat) (ev : event) (w : world) : list bytes :=
  match ev, routing w with
  | EvFrame data, None =>
    match sonic_envelope data with
    | Some env =>
      if decide (env_Method env ≠ ""%string ∧ subs (cl w) !! env_Subscription env = Some p)
      then [env_ParamsResult env] else []
    | None => []
    end
  | _, _ => []
  end.

Definition taken (p : nat) (ev : event) (w : world) : list bytes :=
  match ev with
  | EvRecv q => if decide (q = p) then match entries w !! p with Some e => take 1 (ch_buf e) | None => [] end else []
  | _ => []
  end.

(** Both along a run. *)
Fixpoint along (f : event → world → list bytes) (evs : list event) (w : world) : list bytes :=
  match evs with
  | [] => []
  | ev :: evs' => f ev w ++ along f evs' (exec ev w).2
  end.

(** The account of entry [p] over a step or a run: what was queued before and
    kept of [off] is what was taken and what is queued now, in order; what was
    not kept is counted, and the queue respects the buffer. *)
Definition accounted (cap : Z) (e e' : subEntry) (off tak : list bytes) : Prop :=
  ∃ kept, kept `sublist_of` off ∧ tak ++ ch_buf e' = ch_buf e ++ kept ∧
    dropped e' = u64 (dropped e + (len off - len kept)) ∧
    (len (ch_buf e) ≤ cap → len (ch_buf e') ≤ cap).

Definition counter_ok (e : subEntry) : Prop := u64 (dropped e) = dropped e.

Lemma accounted_same cap e e' : counter_ok e → same_queue e e' → accounted cap e e' [] [].
Proof.
  intros Hc [Hb Hd]. exists []. rewrite Hb, Hd, app_nil_r. split_and!; [done|done| |done].
  rewrite Z.add_0_r. by rewrite Hc.
Qed.

Lemma u64_add x y : u64 (u64 x + y) = u64 (x + y).
Proof. unfold u64. by rewrite Zplus_mod_idemp_l. Qed.

Lemma accounted_counter cap e e' off tak : accounted cap e e' off tak → counter_ok e'.
Proof. intros (kept & _ & _ & Hd & _). unfold counter_ok. rewrite Hd. unfold u64. by rewrite Zmod_mod. Qed.

Lemma accounted_trans cap e e1 e2 o1 t1 o2 t2 :
  accounted cap e e1 o1 t1 → accounted cap e1 e2 o2 t2 → accounted cap e e2 (o1 ++ o2) (t1 ++ t2).
Proof.
  intros (k1 & Hs1 & Hq1 & Hd1 & Hl1) (k2 & Hs2 & Hq2 & Hd2 & Hl2). exists (k1 ++ k2). split_and!.
  - by apply sublist_app.
  - rewrite <- app_assoc, Hq2, !app_assoc, Hq1. done.
  - rewrite Hd2, Hd1, u64_add, !len_app. f_equal. lia.
  - auto.
Qed.

(** A quiet step in an account. *)
Lemma quiet_accounted {A} (m : M A) p w r w' e :
  quiet m → m w = (r, w') → entries w !! p = Some e → counter_ok e →
  buffer (cl w') = buffer (cl w) ∧ ∃ e', entries w' !! p = Some e' ∧ accounted (buffer (cl w)) e e' [] [].
Proof.
  intros Hq Hr He Hc. destruct (Hq _ _ _ Hr) as [Hb H]. split; [done|].
  destruct (H p e He) as (e' & He' & Hs). exists e'. split; [done|]. by apply accounted_same.
Qed.

(** An offer to an open queue. *)
Lemma offer_accounted p q data w r w' e :
  offerEntry q data w = (r, w') → open_entry w q → entries w !! p = Some e → counter_ok e → 0 < buffer (cl w) →
  buffer (cl w') = buffer (cl w) ∧
  ∃ e', entries w' !! p = Some e' ∧ accounted (buffer (cl w)) e e' (if decide (q = p) then [data] else []) [].
Proof.
  intros Hr (e0 & Hq & Ho) He Hc Hbuf. unfold offerEntry in Hr. rewrite run_get, Hq, Ho in Hr.
  injection Hr as _ <-. split; [done|]. cbn. destruct (decide (q = p)) as [->|].
  2: { exists e. rewrite lookup_insert_ne by done. split; [done|]. by apply accounted_same. }
  rewrite lookup_insert_eq. eexists. split; [done|]. assert (e0 = e) as -> by congruence.
  case_decide as Hfull.
  - exists [data]. cbn. split_and!; [done|done| |intros _; len_lia].
    replace (_ + _) with (dropped e) by len_lia. by rewrite Hc.
  - exists []. cbn. split_and!; [apply sublist_nil_l|by rewrite app_nil_r| |done].
    f_equal.
Qed.

(** A frame: a notification goes to its subscriber's queue or is counted as
    dropped; anything else leaves the queues alone. *)
Lemma frame_accounted p data w r w' e :
  (match routing w with Some _ => mret tt | None => route data end) w = (r, w') →
  ws_inv w → entries w !! p = Some e → counter_ok e → 0 < buffer (cl w) →
  buffer (cl w') = buffer (cl w) ∧
  ∃ e', entries w' !! p = Some e' ∧ accounted (buffer (cl w)) e e' (offered p (EvFrame data) w) [].
Proof.
  intros Hr Hinv He Hc Hbuf. cbn [offered].
  destruct (routing w); [by eapply (quiet_accounted (mret tt)); [apply quiet_ret|..]|].
  unfold route in Hr. destruct (sonic_envelope data) as [env|];
    [|by eapply (quiet_accounted (mret tt)); [apply quiet_ret|..]].
  rewrite run_get in Hr. destruct (decide (env_Method env ≠ ""%string)) as [Hm|Hm].
  - destruct (subs (cl w) !! env_Subscription env) as [q|] eqn:Hq.
    + pose proof (inv_subs_open _ Hinv _ _ Hq) as Ho.
      destruct (offer_accounted p q _ w r w' e Hr Ho He Hc Hbuf) as [Hb H]. split; [done|].
      destruct (decide (q = p)) as [->|Hqp].
      * by rewrite decide_True by done.
      * by rewrite decide_False by naive_solver.
    + rewrite decide_False by naive_solver. by eapply (quiet_accounted (mret tt)); [apply quiet_ret|..].
  - rewrite decide_False by naive_solver.
    match type of Hr with ?m w = _ => eapply (quiet_accounted m); [quiet|exact Hr|done|done] end.
Qed.

Lemma recv_accounted p q w r w' e :
  (_ ← Recv q; mret tt) w = (r, w') → entries w !! p = Some e → counter_ok e →
  buffer (cl w') = buffer (cl w) ∧
  ∃ e', entries w' !! p = Some e' ∧ accounted (buffer (cl w)) e e' [] (taken p (EvRecv q) w).
Proof.
  intros Hr He Hc. cbn [taken]. destruct (decide (q = p)) as [->|Hqp].
  - rewrite He. unfold Recv in Hr. destruct (ch_buf e) as [|raw rest] eqn:Hb.
    + cbn [take].
      assert (w' = w) as ->.
      { unfold mbind, gom_bind, get in Hr. rewrite He, Hb in Hr. destruct (ch_closed e); cbn in Hr; by injection Hr. }
      split; [done|]. exists e. split; [done|]. by apply accounted_same.
    + unfold mbind, gom_bind, get in Hr. rewrite He, Hb in Hr. injection Hr as _ <-. split; [done|].
      cbn. rewrite lookup_insert_eq. eexists. split; [done|]. exists []. rewrite Hb. cbn.
      split_and!; [done|by rewrite app_nil_r|by rewrite Z.add_0_r, Hc|len_lia].
  - unfold Recv, mbind, gom_bind, get in Hr.
    destruct (entries w !! q) as [e0|]; [destruct (ch_buf e0); [destruct (ch_closed e0)|]|]; cbn in Hr;
      injection Hr as _ <-; (split; [done|]); exists e; cbn; rewrite ?lookup_insert_ne by done;
      (split; [done|by apply accounted_same]).
Qed.

(** One step's account. *)
Lemma step_accounted p ev w r w' e :
  exec ev w = (r, w') → ws_inv w → entries w !! p = Some e → counter_ok e → 0 < buffer (cl w) →
  buffer (cl w') = buffer (cl w) ∧
  ∃ e', entries w' !! p = Some e' ∧ accounted (buffer (cl w)) e e' (offered p ev w) (taken p ev w).
Proof.
  intros Hr Hinv He Hc Hbuf. pose proof (λ Hq, quiet_accounted (exec ev) p w r w' e Hq Hr He Hc) as Hquiet.
  destruct ev as [s|ch|ch|ch|ch|data| |er|q|q].
  - apply Hquiet, quiet_bind; [apply quiet_requestStart|intros; apply quiet_ret].
  - apply Hquiet, quiet_abandon.
  - apply Hquiet, quiet_abandon.
  - apply Hquiet, quiet_awaitClosed.
  - apply Hquiet, quiet_awaitReply.
  - cbn [exec] in Hr. rewrite run_get in Hr. by apply (frame_accounted p data w r).
  - apply Hquiet, quiet_deliver.
  - apply Hquiet, quiet_fail.
  - by apply (recv_accounted p q w r).
  - apply Hquiet, quiet_Release.
Qed.

Lemma run_accounted p evs w e :
  ws_inv w → entries w !! p = Some e → counter_ok e → 0 < buffer (cl w) →
  ∃ w' e', execAll evs w = Ok w' ∧ entries w' !! p = Some e' ∧
    accounted (buffer (cl w)) e e' (along (offered p) evs w) (along (taken p) evs w).
Proof.
  revert w e. induction evs as [|ev evs IH]; intros w e Hinv He Hc Hb.
  { exists w, e. split_and!; [done..|]. by apply accounted_same. }
  cbn [execAll along]. pose proof (exec_safe ev w Hinv) as Hs. unfold wp in Hs.
  destruct (exec ev w) as [r w1] eqn:Hr.
  destruct (step_accounted p ev w r w1 e Hr Hinv He Hc Hb) as [Hb1 (e1 & He1 & Ha1)].
  assert (ws_inv w1) as Hinv1 by (by destruct r).
  destruct (IH w1 e1 Hinv1 He1 (accounted_counter _ _ _ _ _ Ha1) ltac:(lia)) as (w' & e' & Hx & He' & Ha').
  exists w', e'. split_and!; [by destruct r|done|]. rewrite Hb1 in Ha'. by eapply accounted_trans.
Qed.

End safety.

(** * Properties *)

(** C11. Channel safety under every interleaving: whatever the frames, cancelled
    calls, write errors, releases and connection failures, and in whatever
    order, no channel is closed twice or sent on after its close and no reply
    blocks the read loop; and once the connection has failed no subscription or
    request stays registered and every waiting request returns the error. *)
Theorem ws_channels_safe (sonic : Sonic) (subscriptionBuffer : option Z) (evs : list event) :
  ∃ w, execAll evs (ConnectWithOptions subscriptionBuffer) = Ok w ∧ ws_inv w ∧
    ∀ e, err (cl w) = Some e →
      subs (cl w) = ∅ ∧ pending (cl w) = ∅ ∧
      ∀ ch c, calls w !! ch = Some c → (awaitClosed ch w).1 = Err e.
Proof.
  destruct (execAll_safe evs (ConnectWithOptions subscriptionBuffer) (inv_start _)) as (w & Hr & Hw).
  exists w. split_and!; [done..|]. intros e He. pose proof (inv_failed _ Hw) as Hf. rewrite He in Hf.
  destruct Hf as (Hs & Hp & Hc). split_and!; [done..|]. intros ch c Hch.
  unfold awaitClosed. rewrite run_get, Hch, Hc, He. done.
Qed.

(** C25. Notifications are accounted for: along any run, what a subscriber takes
    followed by what its buffer holds is, in arrival order, what the buffer held
    and the notifications routed to it minus those that found the buffer full;
    [Dropped] grows by exactly their number, and the buffer never exceeds its
    capacity. *)
Theorem ws_notifications_accounted (sonic : Sonic) (p : nat) (evs : list event) (w : world) (e : subEntry) :
  ws_inv w → entries w !! p = Some e → counter_ok e → 0 < buffer (cl w) →
  ∃ w' e', execAll evs w = Ok w' ∧ entries w' !! p = Some e' ∧
    accounted (buffer (cl w)) e e' (along (offered p) evs w) (along (taken p) evs w).
Proof. apply run_accounted. Qed.

(** A wire format for examples: [[0; id; result]] is a reply, [[1; sub; x]] a
    notification. *)
Definition demoSonic : Sonic := {|
  sonic_envelope := λ data,
    match data with
    | [0; id; result] => Some (mkEnvelope id [result] None "" 0 [])
    | [1; sub; x] => Some (mkEnvelope 0 [] None "accountNotification" sub [x])
    | _ => None
    end;
  sonic_uint64 := λ data, match data with [n] => Some n | _ => None end;
|}.

(** A subscription with id 7 in a client with room for one notification. *)
Definition subscribed : list event := [EvRequest true; EvFrame [0; 1; 7]; EvDeliver; EvReply 0].

Definition subscribedWorld : world :=
  match execAll (sonic:=demoSonic) subscribed (ConnectWithOptions (Some 1)) with Ok w => w | _ => NewClient 1 end.

Lemma subscribedWorld_inv : ws_inv subscribedWorld.
Proof.
  destruct (execAll_safe (sonic:=demoSonic) subscribed (ConnectWithOptions (Some 1)) (inv_start _)) as (w & Hr & Hw).
  unfold subscribedWorld. by rewrite Hr.
Qed.

Lemma ws_notifications_accounted_witness :
  let evs := [EvFrame [1; 7; 50]; EvFrame [1; 7; 51]; EvRecv 0; EvFrame [1; 7; 52]] in
  ∃ w' e', execAll (sonic:=demoSonic) evs subscribedWorld = Ok w' ∧ entries w' !! 0%nat = Some e' ∧
    accounted (buffer (cl subscribedWorld)) (mkSubEntry [] false 0) e'
      (along (sonic:=demoSonic) (offered (sonic:=demoSonic) 0) evs subscribedWorld)
      (along (sonic:=demoSonic) (taken 0) evs subscribedWorld).
Proof.
  apply (ws_notifications_accounted demoSonic 0); [apply subscribedWorld_inv|by vm_compute..].
Defined.

(** * Two limits of the cleanup *)

(** A request whose context ends after the acknowledgement was routed: the call
    returns its error, but the entry stays registered with no subscription to
    release it. *)
Lemma subscribe_cancel_leaks :
  ∃ w, execAll (sonic:=demoSonic) [EvRequest true; EvFrame [0; 1; 7]; EvDeliver; EvContext 0]
         (ConnectWithOptions None) = Ok w ∧
    subs (cl w) !! 7 = Some 0%nat ∧ calls w = ∅ ∧ handles w = ∅.
Proof. eexists. split; [vm_compute; reflexivity|]. done. Qed.

(** When the server reuses an id, the older subscription's channel is not in the
    table any more, and the failure of the connection does not close it: its
    [Recv] still finds an open, empty channel. *)
Lemma failed_connection_leaves_recv_waiting :
  ∃ w, execAll (sonic:=demoSonic)
         (subscribed ++ [EvRequest true; EvFrame [0; 2; 7]; EvDeliver; EvReply 1; EvFail (ErrSubscriptionClosed 1)])
         (ConnectWithOptions None) = Ok w ∧
    err (cl w) = Some (ErrSubscriptionClosed 1) ∧ is_Some (handles w !! 0%nat) ∧
    Recv 0 w = (Ok None, w).
Proof. eexists. split; [vm_compute; reflexivity|]. split_and!; [done|by eexists|done]. Qed.
