(* ===== verification/Stream.v ===== *)
(** Stream: the incremental decoder of getProgramAccounts responses
    (rpc/stream.go): the [jsonScanner], which finds the boundaries of keys and
    values in a buffer that is compacted, grown and refilled as data arrives,
    and [StreamProgramAccounts], which batches the accounts it finds and hands
    them to a callback. The JSON decoder (sonic) is a parameter. *)
From Stdlib Require Import ZArith Lia Ascii String.
From stdpp Require Import base numbers strings list.
From S2P Require Import Prelude.

Open Scope Z_scope.

(** * The reader *)

(** How an [io.Reader] ends. *)
Inductive read_err := EOF | readErr (n : Z).

(** The reads a reader will answer, then its final error, for ever. *)
Record Reader := mkReader { chunks : list bytes; final : read_err }.

(** [r.Read(p)] with [room] bytes in [p]: the bytes, the error, the reader left.
    A chunk that does not fit is answered in parts. *)
Definition Read (r : Reader) (room : Z) : bytes * option read_err * Reader :=
  match chunks r with
  | [] => ([], Some (final r), r)
  | c :: cs =>
    if decide (len c ≤ room) then (c, None, mkReader cs (final r))
    else (take (Z.to_nat room) c, None, mkReader (drop (Z.to_nat room) c :: cs) (final r))
  end.

(** * The scanner *)

(** [buf] is the whole backing array: [len buf] is [cap(s.buf)]. *)
Record jsonScanner := mkScanner { rd : Reader; buf : bytes; pos : Z; end_ : Z; mark : Z }.

Definition set_pos (p : Z) (s : jsonScanner) := mkScanner (rd s) (buf s) p (end_ s) (mark s).
Definition set_mark (m : Z) (s : jsonScanner) := mkScanner (rd s) (buf s) (pos s) (end_ s) m.

Section stream.
(** What sonic.Unmarshal makes of a batch of accounts, of a context and of an
    error object, and the errors of the callback. *)
Context {Account Context RPCError Callback : Type}.

Inductive stream_err :=
  | ErrUnexpectedEOF
  | errRead (n : Z)
  | errExpected (want got : Z)
  | errBetweenKeys (got : Z)
  | errObjectKey (got : Z)
  | errAfterAccount (got : Z)
  | errEnvelope (e : stream_err)
  | errResultValue (e : stream_err)
  | errAccountElement (e : stream_err)
  | errErrorObject
  | errContext
  | errDecodingAccounts
  | errRPC (e : RPCError)
  | errCallback (e : Callback)
  | stuck.

Abbreviation Scan := (GoM jsonScanner stream_err) (only parsing).

(** Bytes and reads still to come; every loop below runs at most [fuelOf] times. *)
Definition sizeOf (r : Reader) : nat := sum_list_with (λ c, S (length c)) (chunks r).
Definition workLeft (s : jsonScanner) : nat := sizeOf (rd s) + Z.to_nat (end_ s - pos s).
Definition fuelOf (s : jsonScanner) : nat := S (2 * workLeft s).

Definition fill : Scan unit :=
  s ← get;
  _ ← (if decide (0 < mark s) then
         kept ← lift (slice (buf s) (mark s) (end_ s));
         modify (λ s, mkScanner (rd s) (copy_into (buf s) kept) (pos s - mark s) (end_ s - mark s) 0)
       else mret tt);
  s ← get;
  kept ← lift (slice_to (buf s) (end_ s));
  let arr := if decide (end_ s = len (buf s))
             then copy_into (zeros (Z.to_nat (len (buf s) * 2))) kept else buf s in
  room ← lift (slice_from arr (end_ s));
  let '(data, err, r) := Read (rd s) (len room) in
  let n := len data in
  _ ← modify (λ s, mkScanner r (take (Z.to_nat (end_ s)) arr ++ copy_into room data) (pos s) (end_ s + n) (mark s));
  if decide (0 < n) then mret tt
  else match err with
       | None | Some EOF => throw ErrUnexpectedEOF
       | Some (readErr e) => throw (errRead e)
       end.

Definition isJSONSpace (c : Z) : bool := bool_decide (c = 32 ∨ c = 9 ∨ c = 10 ∨ c = 13).

(** One turn of a scanning loop: a byte while the buffer has one, else a refill. *)
Fixpoint peekLoop (fuel : nat) : Scan Z :=
  match fuel with
  | O => throw stuck
  | S fuel =>
    s ← get;
    if decide (pos s < end_ s) then
      c ← lift (idx (buf s) (pos s));
      if isJSONSpace c then
        _ ← modify (λ s, set_mark (pos s + 1) (set_pos (pos s + 1) s));
        peekLoop fuel
      else mret c
    else
      _ ← fill;
      peekLoop fuel
  end.
Definition peekNonSpace : Scan Z := s ← get; peekLoop (fuelOf s).

Definition nextNonSpace : Scan Z :=
  c ← peekNonSpace;
  _ ← modify (λ s, set_pos (pos s + 1) s);
  mret c.

Definition expect (want : Z) : Scan unit :=
  c ← nextNonSpace;
  if decide (c = want) then mret tt else throw (errExpected want c).

(** A slice [s.buf[start:stop]] that is kept while the buffer is refilled is a view
    of the array, here its two bounds; [viewed] is what it shows when it is read. *)
Definition viewed (v : Z * Z) : Scan bytes :=
  s ← get;
  mret (drop (Z.to_nat v.1) (take (Z.to_nat v.2) (buf s))).

Fixpoint stringLoop (fuel : nat) (start : Z) (escaped : bool) : Scan (Z * Z) :=
  match fuel with
  | O => throw stuck
  | S fuel =>
    s ← get;
    if decide (pos s < end_ s) then
      c ← lift (idx (buf s) (pos s));
      _ ← modify (λ s, set_pos (pos s + 1) s);
      if escaped then stringLoop fuel start false
      else if decide (c = 92) then stringLoop fuel start true
      else if decide (c = 34) then
        s ← get;
        _ ← lift (slice (buf s) start (pos s - 1));
        _ ← modify (λ s, set_mark (pos s) s);
        mret (start, pos s - 1)
      else stringLoop fuel start false
    else
      let before := mark s in
      _ ← fill;
      s ← get;
      stringLoop fuel (start - (before - mark s)) escaped
  end.
Definition scanStringRest : Scan (Z * Z) :=
  _ ← modify (λ s, set_mark (pos s - 1) s);
  s ← get;
  stringLoop (fuelOf s) (pos s) false.

(** A key and its colon, as [forEachKey] reads them: [key] is a view of [s.buf], and
    becomes a string after [expect] has run, which may have refilled the buffer. The
    view's array is still the buffer's: after a key the mark is at the position, so
    a refill moves nothing and never grows the array
    ([StreamSpec.expect_keeps_array]), but overwrites it from its start. *)
Definition memberKey : Scan bytes :=
  key ← scanStringRest;
  _ ← expect 58;
  viewed key.

(** [if err := m(); err != nil]: the error as a value. *)
Definition attempt {S E} (m : GoM S E unit) : GoM S E (option E) :=
  λ s, match m s with
       | (Ok _, s') => (Ok None, s')
       | (Err e, s') => (Ok (Some e), s')
       | (Panic, s') => (Panic, s')
       end.

(** [out := s.buf[start:s.pos]; s.mark = s.pos; return out, nil]. *)
Definition cutValue (start : Z) : Scan bytes :=
  s ← get;
  out ← lift (slice (buf s) start (pos s));
  _ ← modify (λ s, set_mark (pos s) s);
  mret out.

Definition advance : Scan unit := modify (λ s, set_pos (pos s + 1) s).

Fixpoint valueLoop (fuel : nat) (start depth : Z) (inString escaped : bool) : Scan bytes :=
  match fuel with
  | O => throw stuck
  | S fuel =>
    s ← get;
    if decide (pos s < end_ s) then
      c ← lift (idx (buf s) (pos s));
      if inString then
        _ ← advance;
        if escaped then valueLoop fuel start depth true false
        else if decide (c = 92) then valueLoop fuel start depth true true
        else if decide (c = 34) then
          if decide (depth = 0) then cutValue start else valueLoop fuel start depth false escaped
        else valueLoop fuel start depth true escaped
      else if decide (c = 34) then _ ← advance; valueLoop fuel start depth true escaped
      else if decide (c = 123 ∨ c = 91) then _ ← advance; valueLoop fuel start (depth + 1) false escaped
      else if decide (c = 125 ∨ c = 93) then
        if decide (depth = 0) then cutValue start
        else if decide (depth - 1 = 0) then _ ← advance; cutValue start
        else _ ← advance; valueLoop fuel start (depth - 1) false escaped
      else if decide (c = 44) then
        if decide (depth = 0) then cutValue start
        else _ ← advance; valueLoop fuel start depth false escaped
      else _ ← advance; valueLoop fuel start depth false escaped
    else
      let before := mark s in
      err ← attempt fill;
      s ← get;
      match err with
      | Some ErrUnexpectedEOF =>
        if decide (depth = 0 ∧ inString = false ∧ start < pos s) then cutValue start else throw ErrUnexpectedEOF
      | Some e => throw e
      | None => valueLoop fuel (start - (before - mark s)) depth inString escaped
      end
  end.
Definition scanValue : Scan bytes :=
  _ ← peekNonSpace;
  _ ← modify (λ s, set_mark (pos s) s);
  s ← get;
  valueLoop (fuelOf s) (pos s) 0 false false.

(** * The stream *)

Context (unmarshalAccounts : bytes → option (list Account)) (unmarshalContext : bytes → option Context)
  (unmarshalError : bytes → option RPCError).
(** The callback: what it returns may depend on the accounts it got before. *)
Context (fn : list Account → Account → option Callback).

(** The scanner, the accounts handed to the callback, and [ctx]. *)
Record stream := mkStream { scanner : jsonScanner; delivered : list Account; ctx : option Context }.

Abbreviation Str := (GoM stream stream_err) (only parsing).

Definition scan {A} (m : Scan A) : Str A :=
  λ st, let '(o, s) := m (scanner st) in (o, mkStream s (delivered st) (ctx st)).

(** [fmt.Errorf("...: %w", err)]. *)
Definition wrap {A} (f : stream_err → stream_err) (m : Str A) : Str A :=
  λ st, let '(o, st') := m st in (wrap_err f o, st').

(** How the key of a member and its colon are read: [memberKey] in the code. *)
Context (readKey : Scan bytes).

(** [forEachKey], the loop over the keys. *)
Fixpoint keyLoop (fuel : nat) (first : bool) (handle : bytes → Str unit) : Str unit :=
  match fuel with
  | O => throw stuck
  | S fuel =>
    c ← scan nextNonSpace;
    if decide (c = 125) then mret tt else
    c ← (if first then mret c
         else if decide (c = 44) then scan nextNonSpace else throw (errBetweenKeys c));
    if decide (c = 34) then
      key ← scan readKey;
      _ ← handle key;
      keyLoop fuel false handle
    else throw (errObjectKey c)
  end.
Definition forEachKey (handle : bytes → Str unit) : Str unit :=
  st ← get; keyLoop (fuelOf (scanner st)) true handle.

Definition streamBatchElems : Z := 32.
Definition streamBatchBytes : Z := Z.shiftl 256 10.

(** [for _, account := range accounts { if err := fn(account); err != nil { return err } }]. *)
Fixpoint callAll (accounts : list Account) : Str unit :=
  match accounts with
  | [] => mret tt
  | account :: rest =>
    st ← get;
    _ ← modify (λ st, mkStream (scanner st) (delivered st ++ [account]) (ctx st));
    match fn (delivered st) account with
    | Some e => throw (errCallback e)
    | None => callAll rest
    end
  end.

(** The closure [flush]; the caller's batch and count are empty afterwards. *)
Definition flush (batch : bytes) (count : Z) : Str unit :=
  if decide (count = 0) then mret tt else
  match unmarshalAccounts (batch ++ [93]) with
  | None => throw errDecodingAccounts
  | Some accounts => callAll accounts
  end.

Fixpoint accountsLoop (fuel : nat) (batch : bytes) (count : Z) : Str unit :=
  match fuel with
  | O => throw stuck
  | S fuel =>
    raw ← wrap errAccountElement (scan scanValue);
    let batch := batch ++ (if decide (count = 0) then [91] else [44]) ++ raw in
    let count := count + 1 in
    st ← get;
    rest ← (if decide (streamBatchElems ≤ count ∨ streamBatchBytes ≤ len batch ∨ end_ (scanner st) ≤ pos (scanner st))
            then _ ← flush batch count; mret ([], 0)
            else mret (batch, count));
    let '(batch, count) := rest in
    c ← scan nextNonSpace;
    if decide (c = 93) then flush batch count
    else if decide (c = 44) then accountsLoop fuel batch count
    else throw (errAfterAccount c)
  end.

Definition streamAccounts : Str unit :=
  c ← scan peekNonSpace;
  if decide (c = 93) then scan advance
  else st ← get; accountsLoop (fuelOf (scanner st)) [] 0.

(** The handlers of the two objects. *)
Definition skipValue : Str unit := _ ← scan scanValue; mret tt.

Definition onInner (inner : bytes) : Str unit :=
  if decide (inner = str "context") then
    raw ← scan scanValue;
    match unmarshalContext raw with
    | None => throw errContext
    | Some c => modify (λ st, mkStream (scanner st) (delivered st) (Some c))
    end
  else if decide (inner = str "value") then
    _ ← wrap errResultValue (scan (expect 91));
    streamAccounts
  else skipValue.

Definition onKey (key : bytes) : Str unit :=
  if decide (key = str "error") then
    raw ← scan scanValue;
    match unmarshalError raw with
    | None => throw errErrorObject
    | Some e => throw (errRPC e)
    end
  else if decide (key = str "result") then
    c ← scan peekNonSpace;
    if decide (c = 91) then _ ← scan advance; streamAccounts
    else if decide (c = 123) then _ ← scan advance; forEachKey onInner
    else skipValue
  else skipValue.

Definition streamBody : Str (option Context) :=
  _ ← wrap errEnvelope (scan (expect 123));
  _ ← forEachKey onKey;
  st ← get;
  mret (ctx st).

Definition newScanner (r : Reader) : jsonScanner := mkScanner r (zeros (Z.to_nat (Z.shiftl 64 10))) 0 0 0.

(** The result, and the accounts the callback was given. *)
Definition streamWith (r : Reader) : outcome stream_err (option Context) * list Account :=
  let '(o, st) := streamBody (mkStream (newScanner r) [] None) in (o, delivered st).
End stream.
Arguments stream_err : clear implicits.
Arguments stream : clear implicits.

Definition StreamProgramAccounts {Account Context RPCError Callback} (unmarshalAccounts : bytes → option (list Account))
    (unmarshalContext : bytes → option Context) (unmarshalError : bytes → option RPCError)
    (fn : list Account → Account → option Callback) (r : Reader) : outcome (stream_err RPCError Callback) (option Context) * list Account :=
  streamWith unmarshalAccounts unmarshalContext unmarshalError fn memberKey r.
