(* ===== verification/StreamSpec.v ===== *)
(** StreamSpec: the streaming decoder against a reference that sees the whole
    response at once and hands over one account at a time: how the reader cuts
    the response, when the buffer is compacted, grown or refilled, and how the
    accounts are batched makes no difference, as long as no key is overwritten
    while its colon is looked for ([keysIntact]). *)
From Stdlib Require Import ZArith Lia.
From stdpp Require Import base numbers strings list.
From S2P Require Import Prelude Stream.

Open Scope Z_scope.

(** * The buffer *)

(** What the reader will deliver before it first answers without data. *)
Fixpoint live (cs : list bytes) : bytes :=
  match cs with
  | [] => []
  | [] :: _ => []
  | c :: cs => c ++ live cs
  end.
Definition readable (r : Reader) : Prop := Forall (λ c, c ≠ []) (chunks r).

(** The input still to be scanned, and the bytes from [a] up to the position. *)
Definition unread (s : jsonScanner) : bytes :=
  drop (Z.to_nat (pos s)) (take (Z.to_nat (end_ s)) (buf s)) ++ live (chunks (rd s)).
Definition window (s : jsonScanner) (a : Z) : bytes := drop (Z.to_nat a) (take (Z.to_nat (pos s)) (buf s)).

Definition scan_inv (s : jsonScanner) : Prop :=
  0 ≤ mark s ∧ mark s ≤ pos s ∧ pos s ≤ end_ s ∧ end_ s ≤ len (buf s) ∧ 0 < len (buf s).

(** What every operation keeps: the invariant, the work left does not grow, and
    with a reader that answers with data, what was used up stays used up. *)
Definition onward (s s' : jsonScanner) : Prop :=
  scan_inv s' ∧ (workLeft s' ≤ workLeft s)%nat ∧
  (readable (rd s) → readable (rd s') ∧ (unread s = [] → unread s' = [])).

Lemma onward_trans s1 s2 s3 : onward s1 s2 → onward s2 s3 → onward s1 s3.
Proof. intros (? & ? & H1) (? & ? & H2). split_and!; [done|lia|]. intros Hr. destruct (H1 Hr) as [Hr' ?]. destruct (H2 Hr'). auto. Qed.

Lemma live_readable cs : Forall (λ c, c ≠ []) cs → live cs = concat cs.
Proof. induction 1 as [|c cs Hc _ IH]; [done|]. cbn. destruct c; [done|]. by rewrite IH. Qed.

(** The array after copying the kept bytes to the front. *)
Lemma compact_take (b : bytes) m e : (m ≤ e ≤ length b)%nat → take (e - m) (copy_into b (drop m (take e b))) = drop m (take e b).
Proof.
  intros. unfold copy_into. rewrite (take_ge (drop m (take e b))) by (rewrite length_drop, length_take; lia).
  rewrite take_app_le by (rewrite length_drop, length_take; lia). apply take_ge. rewrite length_drop, length_take. lia.
Qed.

(** A read into an array with room gets the next bytes, or none when the reader
    answers without data. *)
Lemma Read_spec r room data err r' :
  0 < room → Read r room = (data, err, r') →
  len data ≤ room ∧ live (chunks r) = data ++ (if decide (data = []) then [] else live (chunks r')) ∧
  (sizeOf r' + length data ≤ sizeOf r)%nat ∧ (readable r → readable r' ∧ (data = [] → chunks r' = [])).
Proof.
  intros Hroom. unfold Read, readable, sizeOf. destruct r as [[|c cs] f]; cbn [chunks final].
  - intros [= <- <- <-]. rewrite len_nil. split_and!; [lia|done|cbn; lia|done].
  - case_decide as Hc; intros [= <- <- <-]; cbn [chunks sum_list_with].
    + split_and!; [done| |cbn; lia|].
      * destruct c; [by rewrite decide_True|]. by rewrite decide_False.
      * intros [Hc0 Hcs]%Forall_cons. split; [done|]. intros ->. done.
    + assert (take (Z.to_nat room) c ≠ []) as Hne.
      { intros E. apply (f_equal length) in E. rewrite length_take in E. unfold len in Hc. cbn in E. lia. }
      assert (drop (Z.to_nat room) c ≠ []) as Hne'.
      { intros E. apply (f_equal length) in E. rewrite length_drop in E. unfold len in Hc. cbn in E. lia. }
      rewrite decide_False by done. split_and!.
      * unfold len. rewrite length_take. lia.
      * assert (∀ d, d ≠ [] → live (d :: cs) = d ++ live cs) as Hl by (by intros [|]).
        rewrite (Hl (drop _ _) Hne'), (Hl c) by (by intros ->; rewrite take_nil in Hne). by rewrite app_assoc, take_drop.
      * cbn. rewrite length_take, length_drop. unfold len in Hc. lia.
      * intros [Hc0 Hcs]%Forall_cons. split; [by constructor|]. done.
Qed.

(** * The reference scanner *)

Fixpoint skipSpace (u : bytes) : bytes :=
  match u with
  | [] => []
  | c :: u' => if isJSONSpace c then skipSpace u' else u
  end.

Definition push (c : Z) (o : option (bytes * bytes)) : option (bytes * bytes) :=
  match o with Some (raw, rest) => Some (c :: raw, rest) | None => None end.

(** The rest of a string, and what follows its closing quote. *)
Fixpoint cutString (escaped : bool) (u : bytes) : option (bytes * bytes) :=
  match u with
  | [] => None
  | c :: u' =>
    if escaped then push c (cutString false u')
    else if decide (c = 92) then push c (cutString true u')
    else if decide (c = 34) then Some ([], u')
    else push c (cutString false u')
  end.

(** One value, by the depth of its brackets, and what follows it; a value the
    input ends in is no value. *)
Fixpoint cut (depth : Z) (inString escaped : bool) (u : bytes) : option (bytes * bytes) :=
  match u with
  | [] => None
  | c :: u' =>
    if inString then
      if escaped then push c (cut depth true false u')
      else if decide (c = 92) then push c (cut depth true true u')
      else if decide (c = 34) then
        if decide (depth = 0) then Some ([c], u') else push c (cut depth false escaped u')
      else push c (cut depth true escaped u')
    else if decide (c = 34) then push c (cut depth true escaped u')
    else if decide (c = 123 ∨ c = 91) then push c (cut (depth + 1) false escaped u')
    else if decide (c = 125 ∨ c = 93) then
      if decide (depth = 0) then Some ([], u)
      else if decide (depth - 1 = 0) then Some ([c], u')
      else push c (cut (depth - 1) false escaped u')
    else if decide (c = 44) then
      if decide (depth = 0) then Some ([], u) else push c (cut depth false escaped u')
    else push c (cut depth false escaped u')
  end.

(** The error the model gives when a loop runs out of turns. *)
Fixpoint isStuck {R C} (e : stream_err R C) : bool :=
  match e with
  | stuck => true
  | errEnvelope e | errResultValue e | errAccountElement e => isStuck e
  | _ => false
  end.

Lemma push_Some c o raw rest : push c o = Some (raw, rest) → ∃ raw', raw = c :: raw' ∧ o = Some (raw', rest).
Proof. destruct o as [[raw' rest']|]; [|done]. intros [= <- <-]. eauto. Qed.

(** A cut splits the input. *)
Lemma cut_split depth inString escaped u raw rest : cut depth inString escaped u = Some (raw, rest) → u = raw ++ rest.
Proof.
  revert depth inString escaped raw. induction u as [|c u IH]; intros depth inString escaped raw; [done|]. cbn [cut].
  destruct inString, escaped; repeat case_decide; first [intros (raw' & -> & Hcut)%push_Some; cbn; f_equal; eapply IH, Hcut | by intros [= <- <-]].
Qed.
Lemma cutString_split escaped u key rest : cutString escaped u = Some (key, rest) → u = key ++ 34 :: rest.
Proof.
  revert escaped key. induction u as [|c u IH]; intros escaped key; [done|]. cbn [cutString].
  destruct escaped; [|case_decide; [|case_decide as Hq]];
    first [intros (raw' & -> & Hcut)%push_Some; cbn; f_equal; eapply IH, Hcut | intros [= <- <-]; by rewrite Hq].
Qed.

Section buffer.
Context {RPCError Callback : Type}.
Abbreviation Scan := (GoM jsonScanner (stream_err RPCError Callback)) (only parsing).

(** The first half of [fill]. *)
Lemma fill_compact (s : jsonScanner) :
  scan_inv s →
  ∃ b, (if decide (0 < mark s) then
         kept ← lift (slice (buf s) (mark s) (end_ s));
         modify (λ s, mkScanner (rd s) (copy_into (buf s) kept) (pos s - mark s) (end_ s - mark s) 0)
       else mret tt : Scan unit) s = (Ok tt, mkScanner (rd s) b (pos s - mark s) (end_ s - mark s) 0) ∧
    len b = len (buf s) ∧
    take (Z.to_nat (end_ s - mark s)) b = drop (Z.to_nat (mark s)) (take (Z.to_nat (end_ s)) (buf s)).
Proof.
  intros (H1 & H2 & H3 & H4 & H5). case_decide as Hm.
  - exists (copy_into (buf s) (drop (Z.to_nat (mark s)) (take (Z.to_nat (end_ s)) (buf s)))).
    erewrite run_lift by (apply slice_ok; lia). split; [done|]. split; [unfold len; by rewrite length_copy_into|].
    rewrite Z2Nat.inj_sub by lia. apply compact_take. unfold len in *. lia.
  - assert (mark s = 0) as Hm0 by lia. exists (buf s). rewrite Hm0, !Z.sub_0_r. destruct s. cbn in *. subst. by rewrite drop_0.
Qed.

(** [fill], called when the buffer is used up: either new bytes follow the ones
    kept, or the reader had none. *)
Lemma fill_run (s : jsonScanner) :
  scan_inv s → ∃ b data err r,
    (fill : Scan unit) s =
      ((if decide (0 < len data) then Ok tt
        else match err with None | Some EOF => Err ErrUnexpectedEOF | Some (readErr e) => Err (errRead e) end),
       mkScanner r b (pos s - mark s) (end_ s - mark s + len data) 0) ∧
    end_ s - mark s + len data ≤ len b ∧ 0 < len b ∧
    take (Z.to_nat (end_ s - mark s + len data)) b = drop (Z.to_nat (mark s)) (take (Z.to_nat (end_ s)) (buf s)) ++ data ∧
    live (chunks (rd s)) = data ++ (if decide (data = []) then [] else live (chunks r)) ∧
    (sizeOf r + length data ≤ sizeOf (rd s))%nat ∧
    (readable (rd s) → readable r ∧ (data = [] → chunks r = [])).
Proof.
  intros Hinv. destruct (fill_compact s Hinv) as (b & Hrun & Hlen & Htake). destruct Hinv as (H1 & H2 & H3 & H4 & H5).
  unfold fill. rewrite run_get. erewrite run_bind by exact Hrun. rewrite run_get. cbn [buf end_ rd].
  erewrite run_lift by (apply slice_to_ok; lia). cbv zeta.
  set (e := end_ s - mark s) in *. set (kept := take (Z.to_nat e) b) in *.
  set (arr := if decide (e = len b) then _ else b).
  assert (take (Z.to_nat e) arr = kept ∧ e < len arr) as [Harr Hroom].
  { subst arr. clear Hrun. destruct (decide (e = len b)) as [He|He]; [|split; [done|lia]]. unfold len in *. rewrite length_copy_into, length_zeros. split; [|lia].
    unfold copy_into. rewrite length_zeros. subst kept. rewrite (take_ge b) by lia. rewrite (take_ge b) by lia.
    rewrite take_app_le by lia. apply take_ge. lia. }
  erewrite run_lift by (apply slice_from_ok; lia). set (room := drop (Z.to_nat e) arr).
  assert (len room = len arr - e) as Hr by (apply len_drop; lia).
  destruct (Read (rd s) (len room)) as [[data err] r] eqn:ER.
  assert (0 < len room) as Hpos by lia. destruct (Read_spec _ _ _ _ _ Hpos ER) as (Hd & Hlive & Hsize & Hread).
  assert (len (copy_into room data) = len room) as Hcl by (unfold len; by rewrite length_copy_into).
  exists (take (Z.to_nat e) arr ++ copy_into room data), data, err, r. split_and!; [|..|done|done|done].
  - rewrite run_modify. cbn [rd buf pos end_ mark]. destruct (decide (0 < len data)); [done|]. by destruct err as [[]|].
  - rewrite len_app, len_take, Hcl by lia. lia.
  - rewrite len_app, len_take, Hcl by lia. lia.
  - rewrite Harr, <- Htake. replace (Z.to_nat (e + len data)) with (length kept + length data)%nat
      by (subst kept; rewrite length_take; unfold len in *; lia).
    rewrite take_app_add. f_equal. unfold copy_into, len in *. rewrite (take_ge data), take_app_le by lia. apply take_ge. lia.
Qed.

Lemma fill_spec (s : jsonScanner) :
  scan_inv s → end_ s ≤ pos s →
  (∃ s', (fill : Scan unit) s = (Ok tt, s') ∧ onward s s' ∧ mark s' = 0 ∧ pos s' = pos s - mark s ∧ unread s' = unread s ∧
    (2 * sizeOf (rd s') + Z.to_nat (end_ s' - pos s') < 2 * sizeOf (rd s))%nat ∧
    ∀ a, mark s ≤ a ≤ pos s → window s' (a - mark s) = window s a) ∨
  (∃ e s', (fill : Scan unit) s = (Err e, s') ∧ isStuck e = false ∧ unread s = [] ∧ onward s s' ∧ mark s' = 0 ∧
    pos s' = pos s - mark s ∧ (readable (rd s) → unread s' = [])).
Proof.
  intros Hinv Hend. destruct (fill_run s Hinv) as (b & data & err & r & Hrun & Hb & Hb0 & Htake & Hlive & Hsize & Hread).
  destruct Hinv as (H1 & H2 & H3 & H4 & H5). assert (end_ s = pos s) as He by lia. rewrite He in *.
  assert (unread s = live (chunks (rd s))) as Hun.
  { unfold unread. rewrite He, drop_ge by (rewrite length_take; lia). done. }
  set (s' := mkScanner _ _ _ _ _) in Hrun. pose proof (len_nonneg data) as Hd.
  assert (scan_inv s') as Hinv' by (unfold scan_inv; subst s'; cbn; lia).
  assert (workLeft s' ≤ workLeft s)%nat as Hw by (unfold workLeft, len in *; subst s'; cbn; lia).
  assert (unread s' = data ++ live (chunks r)) as Hun'.
  { unfold unread. subst s'. cbn [pos end_ buf rd]. rewrite Htake, drop_app_ge by (rewrite length_drop, length_take; unfold len in *; lia).
    rewrite length_drop, length_take. replace (_ - _)%nat with 0%nat by (unfold len in *; lia). done. }
  destruct (decide (0 < len data)) as [Hn|Hn].
  - left. exists s'. assert (data ≠ []) as Hne by (by intros ->).
    rewrite decide_False in Hlive by done. assert (unread s' = unread s) as Heq by (rewrite Hun', Hun; congruence).
    split_and!; [done| |done|done|done|subst s'; cbn; unfold len in *; lia|].
    + split_and!; [done|done|]. intros Hr. rewrite Heq. split; [by apply Hread|done].
    + intros a Ha. unfold window. subst s'. cbn [pos buf]. replace (take (Z.to_nat (pos s - mark s)) b) with (take (Z.to_nat (pos s - mark s)) (take (Z.to_nat (pos s - mark s + len data)) b))
        by (rewrite take_take; f_equal; lia).
      rewrite Htake, take_app_le by (rewrite length_drop, length_take; unfold len in *; lia).
      rewrite take_ge by (rewrite length_drop, length_take; unfold len in *; lia). rewrite drop_drop. f_equal. lia.
  - right. assert (data = []) as -> by (apply len_0; lia). rewrite decide_True in Hlive by done.
    assert (∃ e, (fill : Scan unit) s = (Err e, s') ∧ isStuck e = false) as (e & Hfill & Hst).
    { rewrite Hrun. destruct err as [[]|]; eexists; (split; [reflexivity|done]). }
    exists e, s'. split; [done|]. split; [done|]. split; [by rewrite Hun, Hlive|].
    assert (readable (rd s) → unread s' = []) as Hdead by (intros Hr; rewrite Hun'; cbn; by rewrite (proj2 (Hread Hr) eq_refl)).
    split_and!; [|done|done|done]. split_and!; [done|done|]. intros Hr. split; [by apply Hread|auto].
Qed.

(** One byte while the buffer has one. *)
Lemma byte_step (s : jsonScanner) :
  scan_inv s → pos s < end_ s →
  ∃ c, (∀ E, idx (E:=E) (buf s) (pos s) = Ok c) ∧ unread s = c :: unread (set_pos (pos s + 1) s) ∧
    onward s (set_pos (pos s + 1) s) ∧ workLeft s = S (workLeft (set_pos (pos s + 1) s)) ∧
    ∀ a, 0 ≤ a ≤ pos s → window (set_pos (pos s + 1) s) a = window s a ++ [c].
Proof.
  intros (H1 & H2 & H3 & H4 & H5) Hlt. destruct (idx_in_range (buf s) (pos s)) as [c Hc]; [lia|]. exists c.
  assert (unread s = c :: unread (set_pos (pos s + 1) s)) as Hun.
  { unfold unread, set_pos. cbn [rd buf pos end_]. rewrite (drop_S _ c (Z.to_nat (pos s))); [|rewrite lookup_take_lt by lia; done].
    cbn. do 3 f_equal. lia. }
  assert (workLeft s = S (workLeft (set_pos (pos s + 1) s))) as Hw by (unfold workLeft, set_pos; cbn; lia).
  split_and!; [intros; by apply idx_ok; [lia|]|done| |done|].
  - split_and!; [unfold scan_inv, set_pos; cbn; lia|lia|]. intros Hr. split; [done|]. intros E. by rewrite E in Hun.
  - intros a Ha. unfold window, set_pos. cbn [pos buf]. replace (Z.to_nat (pos s + 1)) with (S (Z.to_nat (pos s))) by lia.
    rewrite (take_S_r _ _ c) by done. rewrite drop_app_le; [done|]. rewrite length_take. unfold len in *. lia.
Qed.

(** The loops against the reference: [run] scanned the value or string [o], of
    which [s] has already passed the bytes from [start]. *)
Definition cuts (o : option (bytes * bytes)) (run : outcome (stream_err RPCError Callback) bytes * jsonScanner)
    (s : jsonScanner) (start : Z) : Prop :=
  match o with
  | Some (raw, rest) => ∃ s', run = (Ok (window s start ++ raw), s') ∧ onward s s' ∧ unread s' = rest
  | None =>
    match run with
    | (Ok _, s') => onward s s' ∧ (readable (rd s) → unread s' = [])
    | (Err e, _) => isStuck e = false
    | (Panic, _) => False
    end
  end.

Lemma cuts_push o run s c start :
  onward s (set_pos (pos s + 1) s) → window (set_pos (pos s + 1) s) start = window s start ++ [c] →
  cuts o run (set_pos (pos s + 1) s) start → cuts (push c o) run s start.
Proof.
  intros Hon Hw. destruct o as [[raw rest]|]; cbn [push cuts].
  - intros (s' & -> & Hs' & ?). exists s'. rewrite Hw, <- app_assoc. split_and!; [done|by eapply onward_trans|done].
  - destruct run as [[x|e|] s']; [|done..]. intros [? ?]. split; [by eapply onward_trans|done].
Qed.

Lemma cuts_refill o run s s1 start :
  onward s s1 → window s1 (start - mark s) = window s start → cuts o run s1 (start - mark s) → cuts o run s start.
Proof.
  intros Hon Hw. destruct o as [[raw rest]|]; cbn [cuts].
  - intros (s' & -> & Hs' & ?). exists s'. rewrite Hw. split_and!; [done|by eapply onward_trans|done].
  - destruct run as [[x|e|] s']; [|done..]. intros [? Hd]. split; [by eapply onward_trans|].
    intros Hr. apply Hd. by apply Hon.
Qed.

Lemma cuts_mark o run s start m : onward s (set_mark m s) → cuts o run (set_mark m s) start → cuts o run s start.
Proof.
  intros Hon. destruct o as [[raw rest]|]; cbn [cuts].
  - intros (s' & -> & Hs' & ?). exists s'. split_and!; [done|eapply onward_trans; [exact Hon|done]|done].
  - destruct run as [[x|e|] s']; [|done..]. intros [? Hd]. split; [eapply onward_trans; [exact Hon|done]|done].
Qed.

Lemma onward_mark s m : scan_inv s → 0 ≤ m ≤ pos s → onward s (set_mark m s).
Proof. intros (? & ? & ? & ? & ?) Hm. split_and!; [unfold scan_inv, set_mark; cbn; lia|done|]. intros Hr. done. Qed.

Lemma cutValue_run s start :
  scan_inv s → 0 ≤ start ≤ pos s → (cutValue start : Scan bytes) s = (Ok (window s start), set_mark (pos s) s).
Proof.
  intros (? & ? & ? & ? & ?) Hs. unfold cutValue. rewrite run_get. erewrite run_lift; [|apply slice_ok; lia]. done.
Qed.

Lemma cuts_here s start :
  scan_inv s → 0 ≤ start ≤ pos s → cuts (Some ([], unread s)) ((cutValue start : Scan bytes) s) s start.
Proof.
  intros Hs Hst. rewrite cutValue_run by done. eexists. split; [by rewrite app_nil_r|]. split; [|done].
  apply onward_mark; [done|]. destruct Hs. lia.
Qed.

(** Every loop may run [2 * sizeOf + bytes buffered] times. *)
Definition turns (s : jsonScanner) : nat := 2 * sizeOf (rd s) + Z.to_nat (end_ s - pos s).
Lemma turns_fuel s : (turns s < fuelOf s)%nat.
Proof. unfold turns, fuelOf, workLeft. lia. Qed.

Lemma turns_byte s : scan_inv s → pos s < end_ s → S (turns (set_pos (pos s + 1) s)) = turns s.
Proof. intros (? & ? & ? & ? & ?) Hlt. unfold turns, set_pos. cbn. lia. Qed.

Lemma valueLoop_spec fuel s start depth inString escaped :
  scan_inv s → mark s ≤ start ≤ pos s → (turns s < fuel)%nat →
  cuts (cut depth inString escaped (unread s)) ((valueLoop fuel start depth inString escaped : Scan bytes) s) s start.
Proof.
  revert s start depth inString escaped. induction fuel as [|fuel IH]; intros s start depth inString escaped Hinv Hst Hfuel; [lia|].
  cbn [valueLoop]. rewrite run_get. destruct (decide (pos s < end_ s)) as [Hlt|Hge].
  - destruct (byte_step s Hinv Hlt) as (c & Hc & Hun & Hon & _ & Hw). erewrite run_lift by apply Hc. rewrite Hun. cbn [cut].
    pose proof (turns_byte s Hinv Hlt) as Ht. assert (0 ≤ start ≤ pos s) as Hst' by (destruct Hinv; lia).
    assert (∀ d i e, cuts (push c (cut d i e (unread (set_pos (pos s + 1) s))))
      ((valueLoop fuel start d i e : Scan bytes) (set_pos (pos s + 1) s)) s start) as Hgo.
    { intros d i e. apply cuts_push; [done|by apply Hw|]. apply IH; [apply Hon|unfold set_pos; cbn; lia|lia]. }
    assert (cuts (Some ([c], unread (set_pos (pos s + 1) s))) ((cutValue start : Scan bytes) (set_pos (pos s + 1) s)) s start) as Hcut.
    { apply (cuts_push (Some ([], _))); [done|by apply Hw|]. apply cuts_here; [apply Hon|unfold set_pos; cbn; lia]. }
    assert (cuts (Some ([], c :: unread (set_pos (pos s + 1) s))) ((cutValue start : Scan bytes) s) s start) as Hhere.
    { rewrite <- Hun. by apply cuts_here. }
    unfold advance. rewrite ?run_modify. destruct inString, escaped; repeat (case_decide; try rewrite run_modify; try done); rewrite ?run_modify; auto.
  - cbv zeta. destruct (fill_spec s Hinv ltac:(lia)) as [(s' & Hfill & Hon & Hm & Hp & Hun & Hturns & Hw)|
      (e & s' & Hfill & He & Hun & Hon & Hm & Hp & Hdead)].
    + assert (attempt fill s = (Ok (None : option (stream_err RPCError Callback)), s')) as Ha by (unfold attempt; by rewrite Hfill).
      erewrite run_bind by exact Ha. rewrite run_get, Hm, Z.sub_0_r. apply (cuts_refill _ _ _ s'); [done|by apply Hw|].
      rewrite <- Hun. apply IH; [apply Hon|rewrite Hm, Hp; lia|unfold turns in *; lia].
    + assert (attempt fill s = (Ok (Some e : option (stream_err RPCError Callback)), s')) as Ha by (unfold attempt; by rewrite Hfill).
      erewrite run_bind by exact Ha. rewrite run_get, Hun. cbn [cut cuts]. destruct Hinv as (? & _).
      destruct e; try done. case_decide as Hc; [|done]. destruct Hon as (Hinv' & Hwk & Hrd).
      rewrite cutValue_run by (done || lia). split; [|done].
      eapply onward_trans; [split; [exact Hinv'|split; [exact Hwk|exact Hrd]]|]. apply onward_mark; [done|]. destruct Hinv'. lia.
Qed.

(** The rest of a computation, from what its first part gave. *)
Definition continue {A B} (o : outcome (stream_err RPCError Callback) A * jsonScanner) (f : A → Scan B) :
    outcome (stream_err RPCError Callback) B * jsonScanner :=
  match o with
  | (Ok x, s) => f x s
  | (Err e, s) => (Err e, s)
  | (Panic, s) => (Panic, s)
  end.

Lemma stringLoop_spec fuel s start escaped :
  scan_inv s → mark s ≤ start ≤ pos s → (turns s < fuel)%nat →
  cuts (cutString escaped (unread s)) ((v ← stringLoop fuel start escaped; viewed v : Scan bytes) s) s start.
Proof.
  change ((v ← stringLoop fuel start escaped; viewed v : Scan bytes) s) with (continue ((stringLoop fuel start escaped : Scan _) s) viewed).
  revert s start escaped. induction fuel as [|fuel IH]; intros s start escaped Hinv Hst Hfuel; [lia|].
  cbn [stringLoop]. rewrite run_get. destruct (decide (pos s < end_ s)) as [Hlt|Hge].
  - destruct (byte_step s Hinv Hlt) as (c & Hc & Hun & Hon & _ & Hw). erewrite run_lift by apply Hc. rewrite Hun. cbn [cutString].
    pose proof (turns_byte s Hinv Hlt) as Ht. assert (0 ≤ start ≤ pos s) as Hst' by (destruct Hinv; lia).
    assert (∀ e, cuts (push c (cutString e (unread (set_pos (pos s + 1) s))))
      (continue ((stringLoop fuel start e : Scan _) (set_pos (pos s + 1) s)) viewed) s start) as Hgo.
    { intros e. apply cuts_push; [done|by apply Hw|]. apply IH; [apply Hon|unfold set_pos; cbn; lia|lia]. }
    rewrite run_modify. destruct escaped; [done|]. case_decide; [done|]. case_decide; [|done]. rewrite run_get.
    destruct Hon as (Hinv' & Hwk & Hrd). cbn [cuts].
    erewrite run_lift by (apply slice_ok; unfold set_pos; cbn [buf pos]; destruct Hinv as (? & ? & ? & ? & ?); lia). rewrite run_modify.
    unfold set_pos. cbn [pos continue mret gom_ret]. replace (pos s + 1 - 1) with (pos s) by lia.
    eexists. split; [by rewrite app_nil_r|]. split; [|done].
    eapply onward_trans; [split; [exact Hinv'|split; [exact Hwk|exact Hrd]]|]. apply onward_mark; [done|]. destruct Hinv'. cbn. lia.
  - cbv zeta. destruct (fill_spec s Hinv ltac:(lia)) as [(s' & Hfill & Hon & Hm & Hp & Hun & Hturns & Hw)|
      (e & s' & Hfill & He & Hun & Hon & Hm & Hp & Hdead)].
    + erewrite run_bind by exact Hfill. rewrite run_get, Hm, Z.sub_0_r. apply (cuts_refill _ _ _ s'); [done|by apply Hw|].
      rewrite <- Hun. apply IH; [apply Hon|rewrite Hm, Hp; lia|unfold turns in *; lia].
    + unfold mbind, gom_bind. rewrite Hfill, Hun. done.
Qed.

Lemma peekLoop_spec fuel s :
  scan_inv s → (turns s < fuel)%nat →
  match skipSpace (unread s) with
  | [] => ∃ e s', (peekLoop fuel : Scan Z) s = (Err e, s') ∧ isStuck e = false
  | c :: u => ∃ s', (peekLoop fuel : Scan Z) s = (Ok c, s') ∧ onward s s' ∧ unread s' = c :: u ∧ pos s' < end_ s'
  end.
Proof.
  revert s. induction fuel as [|fuel IH]; intros s Hinv Hfuel; [lia|].
  cbn [peekLoop]. rewrite run_get. destruct (decide (pos s < end_ s)) as [Hlt|Hge].
  - destruct (byte_step s Hinv Hlt) as (c & Hc & Hun & Hon & _ & _). erewrite run_lift by apply Hc. rewrite Hun. cbn [skipSpace].
    destruct (isJSONSpace c).
    + rewrite run_modify. set (s1 := set_pos (pos s + 1) s) in *. assert (onward s1 (set_mark (pos s + 1) s1)) as Hm.
      { apply onward_mark; [apply Hon|]. destruct Hinv. subst s1. cbn. lia. }
      specialize (IH (set_mark (pos s + 1) s1) (proj1 Hm)). pose proof (turns_byte s Hinv Hlt) as Ht.
      change (turns (set_mark (pos s + 1) s1)) with (turns s1) in IH. change (unread (set_mark (pos s + 1) s1)) with (unread s1) in IH.
      specialize (IH ltac:(subst s1; lia)). destruct (skipSpace (unread s1)) as [|c' u]; [done|].
      destruct IH as (s' & Hrun & Hs' & ? & ?). exists s'. split_and!; [done| |done|done].
      eapply onward_trans; [exact Hon|]. by eapply onward_trans.
    + exists s. split_and!; [done| |done|done]. split_and!; [done..|]. auto.
  - destruct (fill_spec s Hinv ltac:(lia)) as [(s' & Hfill & Hon & Hm & Hp & Hun & Hturns & Hw)|
      (e & s' & Hfill & He & Hun & Hon & Hm & Hp & Hdead)].
    + erewrite run_bind by exact Hfill. specialize (IH s' (proj1 Hon) ltac:(unfold turns in *; lia)). rewrite Hun in IH.
      destruct (skipSpace (unread s)) as [|c u]; [done|]. destruct IH as (s'' & ? & ? & ? & ?). exists s''.
      split_and!; [done|by eapply onward_trans|done|done].
    + unfold mbind, gom_bind. rewrite Hfill, Hun. cbn. eauto.
Qed.

(** The operations of the scanner. *)
Lemma peek_spec s :
  scan_inv s →
  match skipSpace (unread s) with
  | [] => ∃ e s', (peekNonSpace : Scan Z) s = (Err e, s') ∧ isStuck e = false
  | c :: u => ∃ s', (peekNonSpace : Scan Z) s = (Ok c, s') ∧ onward s s' ∧ unread s' = c :: u ∧ pos s' < end_ s'
  end.
Proof. intros Hinv. unfold peekNonSpace. rewrite run_get. apply peekLoop_spec; [done|apply turns_fuel]. Qed.

Lemma next_spec s :
  scan_inv s →
  match skipSpace (unread s) with
  | [] => ∃ e s', (nextNonSpace : Scan Z) s = (Err e, s') ∧ isStuck e = false
  | c :: u => ∃ s', (nextNonSpace : Scan Z) s = (Ok c, s') ∧ onward s s' ∧ unread s' = u ∧ (workLeft s' < workLeft s)%nat ∧ 1 ≤ pos s'
  end.
Proof.
  intros Hinv. pose proof (peek_spec s Hinv) as H. unfold nextNonSpace. destruct (skipSpace (unread s)) as [|c u].
  - destruct H as (e & s' & Hrun & ?). unfold mbind, gom_bind. rewrite Hrun. eauto.
  - destruct H as (s' & Hrun & Hon & Hun & Hlt). erewrite run_bind by exact Hrun. rewrite run_modify.
    destruct (byte_step s' (proj1 Hon) Hlt) as (c' & _ & Hun' & Hon' & Hw & _). exists (set_pos (pos s' + 1) s').
    rewrite Hun in Hun'. injection Hun' as <- Hu. split_and!; [done|by eapply onward_trans|done| |].
    + destruct Hon as (_ & ? & _). lia.
    + destruct Hon as ((? & ? & _) & _). cbn. lia.
Qed.

(** A string's text, read off the view at once. *)
Definition keyText : Scan bytes := v ← scanStringRest; viewed v.

(** A key kept as a string from the moment its closing quote is found. *)
Definition copyKey : Scan bytes := key ← keyText; _ ← expect 58; mret key.
(** The code's way, which stops when the view does not show the same bytes before
    and after the colon was looked for. *)
Definition intactKey : Scan bytes :=
  v ← scanStringRest;
  before ← viewed v;
  _ ← expect 58;
  after ← viewed v;
  if decide (before = after) then mret after else throw stuck.

Lemma string_spec s :
  scan_inv s → 1 ≤ pos s → cuts (cutString false (unread s)) ((keyText : Scan bytes) s) s (pos s).
Proof.
  intros Hinv Hp. change ((keyText : Scan bytes) s) with (continue ((scanStringRest : Scan _) s) viewed). unfold scanStringRest. rewrite run_modify, run_get.
  assert (onward s (set_mark (pos s - 1) s)) as Hm by (apply onward_mark; [done|lia]).
  apply (cuts_mark _ _ _ _ (pos s - 1)); [done|].
  apply (stringLoop_spec (fuelOf (set_mark (pos s - 1) s)) _ (pos s) false (proj1 Hm) ltac:(cbn; lia) (turns_fuel _)).
Qed.

Lemma window_self s : scan_inv s → window s (pos s) = [].
Proof. intros (? & ? & ? & ? & ?). unfold window. apply drop_ge. rewrite length_take. lia. Qed.

Lemma value_spec s :
  scan_inv s →
  match skipSpace (unread s) with
  | [] => ∃ e s', (scanValue : Scan bytes) s = (Err e, s') ∧ isStuck e = false
  | u => match cut 0 false false u with
         | Some (raw, rest) => ∃ s', (scanValue : Scan bytes) s = (Ok raw, s') ∧ onward s s' ∧ unread s' = rest
         | None => match (scanValue : Scan bytes) s with
                   | (Ok _, s') => onward s s' ∧ (readable (rd s) → unread s' = [])
                   | (Err e, _) => isStuck e = false
                   | (Panic, _) => False
                   end
         end
  end.
Proof.
  intros Hinv. pose proof (peek_spec s Hinv) as H. unfold scanValue. destruct (skipSpace (unread s)) as [|c u].
  - destruct H as (e & s' & Hrun & ?). unfold mbind, gom_bind. rewrite Hrun. eauto.
  - destruct H as (s1 & Hrun & Hon & Hun & Hlt). erewrite run_bind by exact Hrun. rewrite run_modify, run_get.
    assert (onward s1 (set_mark (pos s1) s1)) as Hm by (apply onward_mark; [apply Hon|]; destruct Hon as ((? & ? & _) & _); lia).
    pose proof (valueLoop_spec (fuelOf (set_mark (pos s1) s1)) _ (pos s1) 0 false false (proj1 Hm) ltac:(cbn; lia) (turns_fuel _)) as H.
    apply (cuts_mark _ _ _ _ _ Hm) in H. change (unread (set_mark (pos s1) s1)) with (unread s1) in H. rewrite Hun in H.
    change (pos (set_mark (pos s1) s1)) with (pos s1). destruct (cut 0 false false (c :: u)) as [[raw rest]|]; cbn [cuts] in H.
    + destruct H as (s' & -> & Hs' & ?). exists s'. rewrite (window_self s1) by apply Hon. split_and!; [done|by eapply onward_trans|done].
    + match goal with |- match ?run with _ => _ end => destruct run as [[x|e|] s'] end; [|done..].
      destruct H as [? Hd]. split; [by eapply onward_trans|]. intros Hr. apply Hd. by apply Hon.
Qed.
End buffer.

(** * The array under a key *)

Section array.
Context {RPCError Callback : Type}.
Abbreviation Scan := (GoM jsonScanner (stream_err RPCError Callback)) (only parsing).

(** With everything before the position given up, a refill keeps the array. *)
Lemma fill_keeps_array (s s' : jsonScanner) :
  scan_inv s → mark s = pos s → end_ s ≤ pos s → 0 < pos s → (fill : Scan unit) s = (Ok tt, s') →
  len (buf s') = len (buf s) ∧ mark s' = 0 ∧ pos s' = 0 ∧ scan_inv s' ∧ 0 < end_ s'.
Proof.
  intros Hinv Hm He Hp Hrun.
  destruct (fill_spec (RPCError:=RPCError) (Callback:=Callback) s Hinv He) as [(s1 & H1 & Hon & Hmark & Hpos & _)|(e & s1 & H1 & _)];
    rewrite Hrun in H1; [|done]. injection H1 as <-. revert Hrun.
  destruct (fill_compact (RPCError:=RPCError) (Callback:=Callback) s Hinv) as (b & Hrun & Hlen & _). destruct Hinv as (? & ? & ? & ? & ?).
  unfold fill. rewrite run_get. erewrite run_bind by exact Hrun. rewrite run_get. cbn [buf end_ rd].
  erewrite run_lift by (apply slice_to_ok; lia). cbv zeta. rewrite decide_False by lia.
  erewrite run_lift by (apply slice_from_ok; lia). destruct (Read _ _) as [[data err] r]. rewrite run_modify.
  cbn [rd buf pos end_ mark]. replace (end_ s - mark s) with 0 by lia. replace (pos s - mark s) with 0 by lia.
  cbn [Z.to_nat drop take app]. destruct (decide (0 < len data)).
  - intros E. injection E as <-. split_and!; [|done|done|apply Hon|cbn; lia]. cbn [buf]. unfold len in *. by rewrite length_copy_into.
  - by destruct err as [[]|].
Qed.

Lemma peek_keeps_array fuel (s s' : jsonScanner) c :
  scan_inv s → mark s = pos s → pos s < end_ s ∨ 0 < pos s → (peekLoop fuel : Scan Z) s = (Ok c, s') → len (buf s') = len (buf s).
Proof.
  revert s. induction fuel as [|fuel IH]; intros s Hinv Hm Hs; cbn [peekLoop]; [done|]. rewrite run_get.
  destruct (decide (pos s < end_ s)) as [Hlt|Hge].
  - destruct (byte_step s Hinv Hlt) as (d & Hd & _). erewrite run_lift by apply Hd. destruct (isJSONSpace d); [|by intros [= _ <-]].
    rewrite run_modify. intros Hrun. destruct Hinv as (? & ? & ? & ? & ?). apply IH in Hrun; [done|unfold scan_inv, set_mark, set_pos; cbn; lia|done|cbn; lia].
  - intros Hrun. unfold mbind, gom_bind in Hrun. destruct ((fill : Scan unit) s) as [[[]|e|] s1] eqn:Hf; [|done..].
    destruct (fill_keeps_array s s1) as (<- & ? & ? & ? & ?); [done|done|destruct Hinv; lia|lia|done|]. apply IH in Hrun; [done|done|lia|lia].
Qed.

(** Between a key's closing quote and its colon the buffer keeps its array, so a view
    of the key is a view of the buffer. *)
Lemma expect_keeps_array want (s s' : jsonScanner) :
  scan_inv s → mark s = pos s → 0 < pos s → (expect want : Scan unit) s = (Ok tt, s') → len (buf s') = len (buf s).
Proof.
  intros Hinv Hm Hp. unfold expect, nextNonSpace, peekNonSpace, mbind, gom_bind. cbn [get].
  destruct ((peekLoop (fuelOf s) : Scan Z) s) as [[c|e|] s1] eqn:E; [|done..]. apply peek_keeps_array in E as <-; [|done|done|by right].
  cbn. case_decide; [|done]. by intros [= <-].
Qed.
End array.

(** * The reference decoder *)

(** A batch as the code builds it, without its closing bracket. *)
Definition joined (raws : list bytes) : bytes :=
  match raws with
  | [] => []
  | raw :: raws => 91 :: raw ++ concat ((λ q, 44 :: q) <$> raws)
  end.

(** What the scanner can return as a value. *)
Definition element (raw : bytes) : Prop := ∃ u rest, cut 0 false false u = Some (raw, rest).

(** What the code relies on of the JSON decoder: a batch decodes to the accounts
    of its elements, and not at all when one of them does not decode. *)
Class ArrayDecoder {Account} (unmarshalAccounts : bytes → option (list Account)) (unmarshalAccount : bytes → option Account) : Prop := {
  decode_none : unmarshalAccounts [91; 93] = Some [];
  decode_empty : unmarshalAccount [] = None;
  decode_array raws : raws ≠ [] → raws ≠ [[]] → Forall element raws →
    unmarshalAccounts (joined raws ++ [93]) = mapM unmarshalAccount raws;
}.

(** Why the reference stops: the response ends, an array element is missing, or
    anything else. *)
Inductive ref_err := Truncated | EmptyElement | Refused.

Section reference.
Context {Account Context RPCError Callback : Type}.
Context (unmarshalAccount : bytes → option Account) (unmarshalContext : bytes → option Context).
Context (fn : list Account → Account → option Callback).

(** The response not yet scanned, the accounts handed over, the context. *)
Record rstream := mkRef { rest : bytes; rdelivered : list Account; rctx : option Context }.
Abbreviation Ref := (GoM rstream ref_err) (only parsing).

Definition set_rest (u : bytes) (t : rstream) : rstream := mkRef u (rdelivered t) (rctx t).

Definition rpeek : Ref Z := λ t,
  match skipSpace (rest t) with [] => (Err Truncated, t) | c :: u => (Ok c, set_rest (c :: u) t) end.
Definition rnext : Ref Z := λ t,
  match skipSpace (rest t) with [] => (Err Truncated, t) | c :: u => (Ok c, set_rest u t) end.
Definition rexpect (want : Z) : Ref unit :=
  c ← rnext; if decide (c = want) then mret tt else throw Refused.
Definition rstring : Ref bytes := λ t,
  match cutString false (rest t) with None => (Err Truncated, t) | Some (key, u) => (Ok key, set_rest u t) end.
Definition rvalue : Ref bytes := λ t,
  match cut 0 false false (skipSpace (rest t)) with None => (Err Truncated, t) | Some (raw, u) => (Ok raw, set_rest u t) end.

Definition rkey : Ref bytes := key ← rstring; _ ← rexpect 58; mret key.

Fixpoint rkeyLoop (fuel : nat) (first : bool) (handle : bytes → Ref unit) : Ref unit :=
  match fuel with
  | O => throw Refused
  | S fuel =>
    c ← rnext;
    if decide (c = 125) then mret tt else
    c ← (if first then mret c else if decide (c = 44) then rnext else throw Refused);
    if decide (c = 34) then
      key ← rkey;
      _ ← handle key;
      rkeyLoop fuel false handle
    else throw Refused
  end.
Definition rforEachKey (handle : bytes → Ref unit) : Ref unit := t ← get; rkeyLoop (S (length (rest t))) true handle.

(** One account: decoded and handed over at once. *)
Definition rdeliver (raw : bytes) : Ref unit :=
  if decide (raw = []) then throw EmptyElement else
  match unmarshalAccount raw with
  | None => throw Refused
  | Some a =>
    t ← get;
    _ ← modify (λ t, mkRef (rest t) (rdelivered t ++ [a]) (rctx t));
    match fn (rdelivered t) a with Some _ => throw Refused | None => mret tt end
  end.
Fixpoint raccountsLoop (fuel : nat) : Ref unit :=
  match fuel with
  | O => throw Refused
  | S fuel =>
    raw ← rvalue;
    _ ← rdeliver raw;
    c ← rnext;
    if decide (c = 93) then mret tt else if decide (c = 44) then raccountsLoop fuel else throw Refused
  end.
Definition rstreamAccounts : Ref unit :=
  c ← rpeek;
  if decide (c = 93) then _ ← rnext; mret tt
  else t ← get; raccountsLoop (S (length (rest t))).

Definition rskip : Ref unit := _ ← rvalue; mret tt.
Definition ronInner (inner : bytes) : Ref unit :=
  if decide (inner = str "context") then
    raw ← rvalue;
    match unmarshalContext raw with
    | None => throw Refused
    | Some c => modify (λ t, mkRef (rest t) (rdelivered t) (Some c))
    end
  else if decide (inner = str "value") then _ ← rexpect 91; rstreamAccounts
  else rskip.
Definition ronKey (key : bytes) : Ref unit :=
  if decide (key = str "error") then _ ← rvalue; throw Refused
  else if decide (key = str "result") then
    c ← rpeek;
    if decide (c = 91) then _ ← rnext; rstreamAccounts
    else if decide (c = 123) then _ ← rnext; rforEachKey ronInner
    else rskip
  else rskip.
Definition reference (body : bytes) : outcome ref_err (option Context * list Account) :=
  match (_ ← rexpect 123; rforEachKey ronKey) (mkRef body [] None) with
  | (Ok _, t) => Ok (rctx t, rdelivered t)
  | (Err e, _) => Err e
  | (Panic, _) => Panic
  end.

(** No operation gives input back. *)
Definition shrinks {A} (m : Ref A) : Prop := ∀ t,
  match m t with (Ok _, t') => (length (rest t') ≤ length (rest t))%nat | _ => True end.

Lemma shrinks_ret {A} (x : A) : shrinks (mret x).
Proof. intros t. cbn. lia. Qed.
Lemma shrinks_throw {A} e : shrinks (throw (A:=A) e).
Proof. intros t. done. Qed.
Lemma shrinks_bind {A B} (m : Ref A) (f : A → Ref B) : shrinks m → (∀ x, shrinks (f x)) → shrinks (m ≫= f).
Proof.
  intros Hm Hf t. specialize (Hm t). unfold mbind, gom_bind. destruct (m t) as [[x|e|] t']; [|done..].
  specialize (Hf x t'). destruct (f x t') as [[y|e|] t'']; [lia|done..].
Qed.
Lemma shrinks_get {A} (f : rstream → Ref A) : (∀ t, shrinks (f t)) → shrinks (t ← get; f t).
Proof. intros Hf t. apply (Hf t t). Qed.

Lemma skipSpace_length u : (length (skipSpace u) ≤ length u)%nat.
Proof. induction u as [|c u IH]; [done|]. cbn. destruct (isJSONSpace c); cbn; lia. Qed.

Lemma shrinks_rpeek : shrinks rpeek.
Proof.
  intros t. unfold rpeek. pose proof (skipSpace_length (rest t)). destruct (skipSpace (rest t)) eqn:E; [done|]. by rewrite <- E in *.
Qed.
Lemma shrinks_rnext : shrinks rnext.
Proof. intros t. unfold rnext. pose proof (skipSpace_length (rest t)). destruct (skipSpace (rest t)); [done|]. cbn in *. lia. Qed.
Lemma shrinks_rstring : shrinks rstring.
Proof.
  intros t. unfold rstring. destruct (cutString false (rest t)) as [[k u]|] eqn:E; [|done]. apply cutString_split in E. rewrite E.
  cbn. rewrite length_app. cbn. lia.
Qed.
Lemma shrinks_rvalue : shrinks rvalue.
Proof.
  intros t. unfold rvalue. pose proof (skipSpace_length (rest t)). destruct (cut _ _ _ _) as [[k u]|] eqn:E; [|done].
  apply cut_split in E. rewrite E, length_app in *. cbn. lia.
Qed.
Lemma shrinks_rexpect c : shrinks (rexpect c).
Proof. apply shrinks_bind; [apply shrinks_rnext|]. intros x. case_decide; [apply shrinks_ret|apply shrinks_throw]. Qed.
Lemma shrinks_rkey : shrinks rkey.
Proof.
  apply shrinks_bind; [apply shrinks_rstring|]. intros key. apply shrinks_bind; [apply shrinks_rexpect|]. intros []. apply shrinks_ret.
Qed.
Lemma shrinks_rdeliver raw : shrinks (rdeliver raw).
Proof.
  unfold rdeliver. case_decide; [apply shrinks_throw|]. destruct (unmarshalAccount raw) as [a|]; [|apply shrinks_throw].
  apply shrinks_get. intros t0 t. rewrite run_modify. destruct (fn (rdelivered t0) a); [done|]. cbn. lia.
Qed.

Ltac shrink := repeat match goal with
  | |- shrinks (mret _) => apply shrinks_ret
  | |- shrinks (throw _) => apply shrinks_throw
  | |- shrinks (get ≫= _) => apply shrinks_get; intros ?
  | |- shrinks (_ ≫= _) => apply shrinks_bind; [|intros ?]
  | |- shrinks (if decide _ then _ else _) => case_decide
  | |- shrinks rpeek => apply shrinks_rpeek
  | |- shrinks rnext => apply shrinks_rnext
  | |- shrinks rkey => apply shrinks_rkey
  | |- shrinks rvalue => apply shrinks_rvalue
  | |- shrinks (rexpect _) => apply shrinks_rexpect
  | |- shrinks (rdeliver _) => apply shrinks_rdeliver
  | H : shrinks ?m |- shrinks ?m => exact H
  end.

Lemma shrinks_raccountsLoop fuel : shrinks (raccountsLoop fuel).
Proof. induction fuel as [|fuel IH]; cbn [raccountsLoop]; shrink. Qed.
Lemma shrinks_rstreamAccounts : shrinks rstreamAccounts.
Proof. unfold rstreamAccounts. shrink. apply shrinks_raccountsLoop. Qed.
Lemma shrinks_rskip : shrinks rskip.
Proof. unfold rskip. shrink. Qed.
Lemma shrinks_ronInner key : shrinks (ronInner key).
Proof.
  unfold ronInner. shrink; [|apply shrinks_rstreamAccounts|apply shrinks_rskip..].
  destruct (unmarshalContext _); [|apply shrinks_throw]. intros t. cbn. lia.
Qed.
Lemma shrinks_rkeyLoop fuel first handle : (∀ key, shrinks (handle key)) → shrinks (rkeyLoop fuel first handle).
Proof.
  intros Hh. revert first. induction fuel as [|fuel IH]; intros first; cbn [rkeyLoop]; [apply shrinks_throw|].
  apply shrinks_bind; [apply shrinks_rnext|]. intros c. case_decide; [apply shrinks_ret|].
  apply shrinks_bind; [destruct first; shrink|]. intros c'. shrink; [apply Hh|apply IH].
Qed.
Lemma shrinks_ronKey key : shrinks (ronKey key).
Proof.
  unfold ronKey, rforEachKey. shrink; [apply shrinks_rstreamAccounts|apply shrinks_rkeyLoop, shrinks_ronInner|apply shrinks_rskip..].
Qed.
End reference.

(** * Simulation *)

Lemma run_bind_err {S E A B} (m : GoM S E A) (f : A → GoM S E B) s e s' : m s = (Err e, s') → (m ≫= f) s = (Err e, s').
Proof. intros H. unfold mbind, gom_bind. by rewrite H. Qed.

Section simulation.
Context {Account Context RPCError Callback : Type}.
Context (unmarshalAccounts : bytes → option (list Account)) (unmarshalContext : bytes → option Context)
  (unmarshalError : bytes → option RPCError) (unmarshalAccount : bytes → option Account).
Context (fn : list Account → Account → option Callback).
Context {Hdecoder : ArrayDecoder unmarshalAccounts unmarshalAccount}.

Abbreviation Str := (GoM (stream Account Context) (stream_err RPCError Callback)) (only parsing).
Abbreviation Ref := (GoM (@rstream Account Context) ref_err) (only parsing).

(** The reference sees what the scanner has not passed yet. *)
Definition abs (st : stream Account Context) : rstream := mkRef (unread (scanner st)) (delivered st) (ctx st).

(** A run of the code and one of the reference from corresponding states: the
    code does not panic or run out of turns; when the code fails, so does the
    reference; when it returns, the reference returns the same, or it stopped at
    a missing element or at the end of the response. *)
Definition simAt {A} (st : stream Account Context) (o : outcome (stream_err RPCError Callback) A * stream Account Context)
    (o' : outcome ref_err A * rstream) : Prop :=
  match o with
  | (Ok x, st') => onward (scanner st) (scanner st') ∧
      (o' = (Ok x, abs st') ∨
       ∃ e', o'.1 = Err e' ∧ (e' ≠ EmptyElement → readable (rd (scanner st)) → unread (scanner st') = []))
  | (Err e, _) => isStuck e = false ∧ ∃ e', o'.1 = Err e'
  | (Panic, _) => False
  end.
Definition sim {A} (m : Str A) (m' : Ref A) : Prop :=
  ∀ st, scan_inv (scanner st) → simAt st (m st) (m' (abs st)).

Lemma simAt_bind {A B} st (m : Str A) (m' : Ref A) (f : A → Str B) (f' : A → Ref B) :
  simAt st (m st) (m' (abs st)) →
  (∀ x st', onward (scanner st) (scanner st') → simAt st' (f x st') (f' x (abs st'))) →
  simAt st ((m ≫= f) st) ((m' ≫= f') (abs st)).
Proof.
  intros Hm Hf. unfold mbind, gom_bind, simAt in *. destruct (m st) as [[x|e|] st1]; [| |done].
  - destruct Hm as [Hon [Heq|(e' & Heq & Hdead)]]; specialize (Hf x st1 Hon).
    + rewrite Heq. destruct (f x st1) as [[y|e|] st2]; [|done|done]. destruct Hf as [Hon2 [->|(e' & ? & Hd)]].
      * split; [by eapply onward_trans|by left].
      * split; [by eapply onward_trans|]. right. exists e'. split; [done|]. intros He Hr. apply Hd; [done|]. by apply Hon.
    + assert (∃ t, m' (abs st) = (Err e', t)) as [t Ht] by (destruct (m' (abs st)) as [[]]; naive_solver). rewrite Ht.
      destruct (f x st1) as [[y|e|] st2]; [|naive_solver|done]. destruct Hf as [Hon2 _]. split; [by eapply onward_trans|].
      right. exists e'. split; [done|]. intros He Hr. destruct Hon2 as (_ & _ & H2). destruct Hon as (_ & _ & H1).
      destruct (H1 Hr) as [Hr1 _]. destruct (H2 Hr1) as [_ H]. by apply H, Hdead.
  - destruct Hm as (He & e' & Heq). destruct (m' (abs st)) as [[]]; naive_solver.
Qed.

Lemma sim_bind {A B} (m : Str A) (m' : Ref A) (f : A → Str B) (f' : A → Ref B) :
  sim m m' → (∀ x, sim (f x) (f' x)) → sim (m ≫= f) (m' ≫= f').
Proof. intros Hm Hf st Hst. apply simAt_bind; [by apply Hm|]. intros x st' Hon. apply Hf, Hon. Qed.

Lemma onward_refl s : scan_inv s → onward s s.
Proof. intros. split_and!; [done|lia|]. auto. Qed.

Lemma sim_ret {A} (x : A) : sim (mret x) (mret x).
Proof. intros st Hst. split; [by apply onward_refl|by left]. Qed.

Lemma sim_throw {A} e e' : isStuck e = false → sim (A:=A) (throw e) (throw e').
Proof. intros He st Hst. split; [done|]. by exists e'. Qed.

(** The state may be looked at, for fuel. *)
Lemma sim_get {A} (f : stream Account Context → Str A) (f' : rstream → Ref A) :
  (∀ st, scan_inv (scanner st) → simAt st (f st st) (f' (abs st) (abs st))) → sim (st ← get; f st) (t ← get; f' t).
Proof. intros Hf st Hst. by apply Hf. Qed.

Lemma sim_wrap {A} f (m : Str A) (m' : Ref A) :
  (∀ e, isStuck e = false → isStuck (f e) = false) → sim m m' → sim (wrap f m) m'.
Proof.
  intros Hf Hm st Hst. specialize (Hm st Hst). unfold wrap, simAt in *. destruct (m st) as [[x|e|] st1]; [done| |done].
  destruct Hm as [He ?]. split; [by apply Hf|done].
Qed.

(** ** The scanner's operations *)

Lemma sim_peek : sim (scan peekNonSpace) rpeek.
Proof.
  intros st Hst. pose proof (peek_spec (RPCError:=RPCError) (Callback:=Callback) (scanner st) Hst) as H. unfold scan, rpeek, simAt.
  cbn [abs rest]. destruct (skipSpace (unread (scanner st))) as [|c u].
  - destruct H as (e & s' & -> & He). split; [done|]. by exists Truncated.
  - destruct H as (s' & -> & Hon & Hun & _). split; [done|]. left. unfold abs, set_rest. cbn. by rewrite Hun.
Qed.

Lemma sim_next : sim (scan nextNonSpace) rnext.
Proof.
  intros st Hst. pose proof (next_spec (RPCError:=RPCError) (Callback:=Callback) (scanner st) Hst) as H. unfold scan, rnext, simAt.
  cbn [abs rest]. destruct (skipSpace (unread (scanner st))) as [|c u].
  - destruct H as (e & s' & -> & He). split; [done|]. by exists Truncated.
  - destruct H as (s' & -> & Hon & Hun & _). split; [done|]. left. unfold abs, set_rest. cbn. by rewrite Hun.
Qed.

Lemma sim_value : sim (scan scanValue) rvalue.
Proof.
  intros st Hst. pose proof (value_spec (RPCError:=RPCError) (Callback:=Callback) (scanner st) Hst) as H. unfold scan, rvalue, simAt.
  cbn [abs rest]. destruct (skipSpace (unread (scanner st))) as [|c u].
  - destruct H as (e & s' & -> & He). split; [done|]. by exists Truncated.
  - destruct (cut 0 false false (c :: u)) as [[raw rest]|].
    + destruct H as (s' & -> & Hon & Hun). split; [done|]. left. unfold abs, set_rest. cbn. by rewrite Hun.
    + destruct (scanValue (scanner st)) as [[x|e|] s']; [|split; [done|by exists Truncated]|done].
      destruct H as [Hon Hd]. split; [done|]. right. exists Truncated. auto.
Qed.

Lemma sim_expect want : sim (scan (expect want)) (rexpect want).
Proof.
  intros st Hst. pose proof (next_spec (RPCError:=RPCError) (Callback:=Callback) (scanner st) Hst) as H.
  unfold scan, expect, rexpect, rnext, simAt, mbind, gom_bind. cbn [abs rest]. destruct (skipSpace (unread (scanner st))) as [|c u].
  - destruct H as (e & s' & -> & He). split; [done|]. by exists Truncated.
  - destruct H as (s' & -> & Hon & Hun & _). case_decide; [|split; [done|by exists Refused]]. split; [done|]. left.
    unfold abs, set_rest. cbn. by rewrite Hun.
Qed.

Lemma simAt_onward {A} st st1 (o : outcome _ A * _) o' : onward (scanner st) (scanner st1) → simAt st1 o o' → simAt st o o'.
Proof.
  intros Hon H. unfold simAt in *. destruct o as [[x|e|] st2]; [|done|done]. destruct H as [Hon2 H]. split; [by eapply onward_trans|].
  destruct H as [->|(e' & ? & Hd)]; [by left|]. right. exists e'. split; [done|]. intros ? Hr. apply Hd; [done|]. by apply Hon.
Qed.

(** Stepping over a byte that was looked at. *)
Lemma advance_run st c u :
  scan_inv (scanner st) → pos (scanner st) < end_ (scanner st) → unread (scanner st) = c :: u → isJSONSpace c = false →
  ∃ st1, (scan advance : Str unit) st = (Ok tt, st1) ∧ rnext (abs st) = (Ok c, abs st1) ∧ onward (scanner st) (scanner st1).
Proof.
  intros Hst Hlt Hun Hc. destruct (byte_step (scanner st) Hst Hlt) as (c' & _ & Hun' & Hon & _). rewrite Hun in Hun'. injection Hun' as <- Hu.
  eexists. split; [reflexivity|]. split; [|done]. unfold rnext. cbn [abs rest]. rewrite Hun. cbn [skipSpace]. rewrite Hc. unfold abs, set_rest. cbn.
  by rewrite Hu.
Qed.

Lemma skipSpace_head u c v : skipSpace u = c :: v → isJSONSpace c = false.
Proof. induction u as [|d u IH]; [done|]. cbn. destruct (isJSONSpace d) eqn:E; [done|]. by intros [= <- _]. Qed.

Lemma sim_peek_bind {A} (f : Z → Str A) (f' : Z → Ref A) :
  (∀ c u st, scan_inv (scanner st) → pos (scanner st) < end_ (scanner st) → unread (scanner st) = c :: u → isJSONSpace c = false →
    simAt st (f c st) (f' c (abs st))) → sim (scan peekNonSpace ≫= f) (rpeek ≫= f').
Proof.
  intros Hf st Hst. pose proof (peek_spec (RPCError:=RPCError) (Callback:=Callback) (scanner st) Hst) as H.
  unfold scan, rpeek, mbind, gom_bind. cbn [abs rest]. destruct (skipSpace (unread (scanner st))) as [|c u] eqn:E.
  - destruct H as (e & s' & -> & He). split; [done|]. by exists Truncated.
  - destruct H as (s' & -> & Hon & Hun & Hlt). apply (simAt_onward st (mkStream s' (delivered st) (ctx st))); [done|].
    unfold set_rest. cbn. rewrite <- Hun. apply (Hf c u (mkStream s' (delivered st) (ctx st))); [apply Hon|done|done|by eapply skipSpace_head].
Qed.

(** ** No panics, and enough turns *)

Definition totalAt {A} (st : stream Account Context) (o : outcome (stream_err RPCError Callback) A * stream Account Context) : Prop :=
  match o with
  | (Ok _, st') => onward (scanner st) (scanner st')
  | (Err e, _) => isStuck e = false
  | (Panic, _) => False
  end.

Lemma simAt_total {A} st (o : outcome _ A * _) o' : simAt st o o' → totalAt st o.
Proof. unfold simAt, totalAt. destruct o as [[x|e|] st']; [intros [? _]|intros [? _]|]; done. Qed.

Lemma totalAt_bind {A B} st (m : Str A) (f : A → Str B) :
  totalAt st (m st) → (∀ x st', m st = (Ok x, st') → onward (scanner st) (scanner st') → totalAt st' (f x st')) →
  totalAt st ((m ≫= f) st).
Proof.
  intros Hm Hf. unfold mbind, gom_bind, totalAt in *. destruct (m st) as [[x|e|] st1]; [|done..]. specialize (Hf x st1 eq_refl Hm).
  destruct (f x st1) as [[y|e|] st2]; [by eapply onward_trans|done..].
Qed.

(** When the reference has stopped, only that much is left to show of the code. *)
Lemma simAt_stopped {A} st (o : outcome _ A * _) (o' : outcome _ A * _) e' :
  totalAt st o → o'.1 = Err e' →
  (e' ≠ EmptyElement → readable (rd (scanner st)) → ∀ x st', o = (Ok x, st') → unread (scanner st') = []) → simAt st o o'.
Proof.
  unfold simAt, totalAt. intros Ht He Hd. destruct o as [[x|e|] st1]; [|eauto|done]. split; [done|]. right. exists e'.
  split; [done|]. intros ? ?. by eapply Hd.
Qed.

Lemma next_total st : scan_inv (scanner st) → totalAt st ((scan nextNonSpace : Str Z) st).
Proof. intros. by eapply simAt_total, sim_next. Qed.
Lemma next_strict st c st' :
  scan_inv (scanner st) → (scan nextNonSpace : Str Z) st = (Ok c, st') → (workLeft (scanner st') < workLeft (scanner st))%nat.
Proof.
  intros Hst. pose proof (next_spec (RPCError:=RPCError) (Callback:=Callback) (scanner st) Hst) as H. unfold scan.
  destruct (skipSpace (unread (scanner st))) as [|c' u].
  - destruct H as (e & s' & -> & He). done.
  - destruct H as (s' & -> & Hon & Hun & Hw & _). intros [= <- <-]. done.
Qed.

(** ** Batches *)

(** The callback on a run of accounts, and a batch of elements. *)
Fixpoint feed (dl as_ : list Account) : option (list Account) :=
  match as_ with
  | [] => Some dl
  | a :: as_ => match fn dl a with Some _ => None | None => feed (dl ++ [a]) as_ end
  end.
Definition taken (dl : list Account) (raws : list bytes) : option (list Account) :=
  as_ ← mapM unmarshalAccount raws; feed dl as_.

Lemma callAll_run as_ st :
  match feed (delivered st) as_ with
  | Some dl => (callAll fn as_ : Str unit) st = (Ok tt, mkStream (scanner st) dl (ctx st))
  | None => ∃ e st', (callAll fn as_ : Str unit) st = (Err e, st') ∧ isStuck e = false
  end.
Proof.
  revert st. induction as_ as [|a as_ IH]; intros st; cbn [feed callAll]; [by destruct st|]. rewrite run_get, run_modify.
  destruct (fn (delivered st) a); [by eexists _, _|]. apply (IH (mkStream (scanner st) (delivered st ++ [a]) (ctx st))).
Qed.

Lemma callAll_total as_ st : scan_inv (scanner st) → totalAt st ((callAll fn as_ : Str unit) st).
Proof.
  intros Hst. pose proof (callAll_run as_ st) as H. destruct (feed (delivered st) as_); [rewrite H; by apply onward_refl|].
  by destruct H as (e & st' & -> & ?).
Qed.

Lemma flush_total batch count st : scan_inv (scanner st) → totalAt st ((flush unmarshalAccounts fn batch count : Str unit) st).
Proof.
  intros Hst. unfold flush. case_decide; [by apply onward_refl|]. destruct (unmarshalAccounts _); [by apply callAll_total|done].
Qed.
Lemma flush_scanner batch count st x st' :
  (flush unmarshalAccounts fn batch count : Str unit) st = (Ok x, st') → scanner st' = scanner st ∧ ctx st' = ctx st.
Proof.
  unfold flush. case_decide; [by intros [= _ <-]|]. destruct (unmarshalAccounts _) as [as_|]; [|done].
  pose proof (callAll_run as_ st) as Hc. destruct (feed (delivered st) as_); [rewrite Hc; by intros [= _ <-]|].
  by destruct Hc as (e & st1 & -> & ?).
Qed.

Lemma flush_run raws st :
  Forall element raws → raws ≠ [[]] →
  match taken (delivered st) raws with
  | Some dl => (flush unmarshalAccounts fn (joined raws) (len raws) : Str unit) st = (Ok tt, mkStream (scanner st) dl (ctx st))
  | None => ∃ e st', (flush unmarshalAccounts fn (joined raws) (len raws) : Str unit) st = (Err e, st') ∧ isStuck e = false
  end.
Proof.
  intros He Hne. unfold flush, taken. destruct raws as [|r raws]; [by destruct st|]. rewrite decide_False by (rewrite len_cons; pose proof (len_nonneg raws); lia).
  rewrite decode_array by done. destruct (mapM unmarshalAccount (r :: raws)) as [as_|]; cbn [mbind option_bind]; [apply callAll_run|].
  by eexists _, _.
Qed.

Lemma joined_snoc raws raw : joined (raws ++ [raw]) = joined raws ++ (if decide (len raws = 0) then [91] else [44]) ++ raw.
Proof.
  destruct raws as [|r raws]; [cbn; by rewrite !app_nil_r|]. rewrite decide_False by (rewrite len_cons; pose proof (len_nonneg raws); lia).
  cbn. rewrite fmap_app, concat_app. cbn. rewrite app_nil_r. by rewrite <- !app_assoc.
Qed.

(** ** The account loop *)

(** The rest of an iteration, once an element is in the batch. *)
Definition afterElement (fuel : nat) (batch : bytes) (count : Z) : Str unit :=
  st ← get;
  rest ← (if decide (streamBatchElems ≤ count ∨ streamBatchBytes ≤ len batch ∨ end_ (scanner st) ≤ pos (scanner st))
          then _ ← flush unmarshalAccounts fn batch count; mret ([], 0)
          else mret (batch, count));
  let '(batch, count) := rest in
  c ← scan nextNonSpace;
  if decide (c = 93) then flush unmarshalAccounts fn batch count
  else if decide (c = 44) then accountsLoop unmarshalAccounts fn fuel batch count
  else throw (errAfterAccount c).

Lemma accountsLoop_S fuel batch count :
  (accountsLoop unmarshalAccounts fn (S fuel) batch count : Str unit) =
  (raw ← wrap errAccountElement (scan scanValue);
   afterElement fuel (batch ++ (if decide (count = 0) then [91] else [44]) ++ raw) (count + 1)).
Proof. done. Qed.

Lemma value_total st : scan_inv (scanner st) → totalAt st ((wrap errAccountElement (scan scanValue) : Str bytes) st).
Proof. intros. by eapply simAt_total, sim_wrap; [|apply sim_value|]. Qed.

Lemma totalAt_onward {A} st st1 (o : outcome _ A * _) : onward (scanner st) (scanner st1) → totalAt st1 o → totalAt st o.
Proof. intros Hon H. unfold totalAt in *. destruct o as [[x|e|] st2]; [by eapply onward_trans|done..]. Qed.

Lemma afterElement_total fuel batch count st :
  (∀ batch count st', scan_inv (scanner st') → (workLeft (scanner st') < workLeft (scanner st))%nat →
    totalAt st' ((accountsLoop unmarshalAccounts fn fuel batch count : Str unit) st')) →
  scan_inv (scanner st) → totalAt st (afterElement fuel batch count st).
Proof.
  intros IH Hst. unfold afterElement. rewrite run_get. apply totalAt_bind.
  { case_decide; [|by apply onward_refl]. apply totalAt_bind; [by apply flush_total|]. intros x st' _ Hon. by apply onward_refl, Hon. }
  intros [batch' count'] st1 _ Hon1. apply totalAt_bind; [by apply next_total, Hon1|]. intros c st2 Hrun Hon2.
  apply next_strict in Hrun; [|apply Hon1]. destruct Hon1 as (_ & Hw & _). case_decide; [apply flush_total, Hon2|].
  case_decide; [|done]. apply IH; [apply Hon2|lia].
Qed.

Lemma accountsLoop_total fuel batch count st :
  scan_inv (scanner st) → (workLeft (scanner st) < fuel)%nat →
  totalAt st ((accountsLoop unmarshalAccounts fn fuel batch count : Str unit) st).
Proof.
  revert batch count st. induction fuel as [|fuel IH]; intros batch count st Hst Hf; [lia|]. rewrite accountsLoop_S.
  apply totalAt_bind; [by apply value_total|]. intros raw st1 _ Hon. apply afterElement_total; [|apply Hon].
  intros batch' count' st2 Hst2 Hw. apply IH; [done|]. destruct Hon as (_ & ? & _). lia.
Qed.

(** With nothing left to read, the rest of an iteration fails. *)
Lemma afterElement_ends fuel batch count st x st' :
  scan_inv (scanner st) → unread (scanner st) = [] → afterElement fuel batch count st ≠ (Ok x, st').
Proof.
  intros Hst Hun. unfold afterElement. rewrite run_get.
  set (m := if decide _ then _ else _ : Str (bytes * Z)). assert (∀ y st1, m st = (Ok y, st1) → scanner st1 = scanner st) as Hm.
  { intros y st1. subst m. case_decide; [|by intros [= _ <-]]. unfold mbind, gom_bind.
    destruct (flush unmarshalAccounts fn batch count st) as [[z|e|] st2] eqn:E; [|done..]. intros [= _ <-]. by eapply flush_scanner. }
  unfold mbind at 1, gom_bind at 1. destruct (m st) as [[[batch' count']|e|] st1]; [|done..]. specialize (Hm _ _ eq_refl).
  pose proof (next_spec (RPCError:=RPCError) (Callback:=Callback) (scanner st1)) as Hn. rewrite Hm in Hn. specialize (Hn Hst). rewrite Hun in Hn.
  destruct Hn as (e & s' & Hrun & _). unfold mbind, gom_bind, scan at 1. rewrite Hm, Hrun. done.
Qed.

(** A batch no continuation of which decodes. *)
Definition doomed (dl : list Account) (raws : list bytes) : Prop :=
  ∀ more, Forall element more → raws ++ more ≠ [[]] ∧ taken dl (raws ++ more) = None.

Lemma doomed_more dl raws raw : element raw → doomed dl raws → doomed dl (raws ++ [raw]).
Proof. intros Hraw Hd more Hmore. rewrite <- app_assoc. apply Hd. by constructor. Qed.

Lemma doomed_flush dl raws st x st' :
  doomed dl raws → Forall element raws → delivered st = dl →
  (flush unmarshalAccounts fn (joined raws) (len raws) : Str unit) st ≠ (Ok x, st').
Proof.
  intros Hd He Hdl. destruct (Hd [] (Forall_nil_2 _)) as [Hne Ht]. rewrite app_nil_r in *. pose proof (flush_run raws st He Hne) as H.
  rewrite Hdl, Ht in H. by destruct H as (e & st1 & -> & _).
Qed.

(** One element: what the code finds is one, or the response has ended. *)
Lemma element_run st (dl : list Account) :
  scan_inv (scanner st) → let t := mkRef (unread (scanner st)) dl (ctx st) in
  match (wrap errAccountElement (scan scanValue) : Str bytes) st with
  | (Ok raw, st') => onward (scanner st) (scanner st') ∧ delivered st' = delivered st ∧ ctx st' = ctx st ∧
      (element raw ∧ rvalue t = (Ok raw, mkRef (unread (scanner st')) dl (ctx st)) ∧
         (length (unread (scanner st')) ≤ length (unread (scanner st)))%nat ∨
       rvalue t = (Err Truncated, t) ∧ (readable (rd (scanner st)) → unread (scanner st') = []))
  | (Err e, _) => isStuck e = false ∧ rvalue t = (Err Truncated, t)
  | (Panic, _) => False
  end.
Proof.
  intros Hst t. pose proof (value_spec (RPCError:=RPCError) (Callback:=Callback) (scanner st) Hst) as H. unfold wrap, scan, rvalue. subst t. cbn [rest].
  pose proof (skipSpace_length (unread (scanner st))) as Hl. destruct (skipSpace (unread (scanner st))) as [|c u] eqn:Eu.
  - destruct H as (e & s' & -> & He). done.
  - destruct (cut 0 false false (c :: u)) as [[raw rest]|] eqn:Ec.
    + destruct H as (s' & -> & Hon & Hun). cbn. split_and!; [done..|]. left. split; [by eexists _, _|]. unfold set_rest. cbn. rewrite Hun. split; [done|].
      apply cut_split in Ec. rewrite Ec, length_app in Hl. lia.
    + destruct (scanValue (scanner st)) as [[x|e|] s']; cbn; [|done..]. destruct H as [Hon Hd]. split_and!; [done..|]. by right.
Qed.

Lemma doomed_after fuel raws st x st' :
  scan_inv (scanner st) → readable (rd (scanner st)) → Forall element raws → doomed (delivered st) raws →
  afterElement fuel (joined raws) (len raws) st ≠ (Ok x, st').
Proof.
  revert raws st. induction fuel as [fuel IH] using lt_wf_ind. intros raws st Hst Hr He Hd.
  unfold afterElement. rewrite run_get. case_decide as Hf.
  { unfold mbind, gom_bind. pose proof (doomed_flush (delivered st) raws st tt) as Hfl.
    destruct (flush unmarshalAccounts fn (joined raws) (len raws) st) as [[[]|e|] st1] eqn:E; [|done..]. by destruct (Hfl st1 Hd He eq_refl). }
  change (mret ?x ≫= ?f) with (f x). cbv beta. cbn [fst snd]. unfold mbind at 1, gom_bind at 1.
  pose proof (next_total st Hst) as Hn. destruct ((scan nextNonSpace : Str Z) st) as [[c|e|] st1] eqn:En; [|done..]. cbn [totalAt] in Hn.
  assert (delivered st1 = delivered st) as Hdl by (unfold scan in En; destruct (nextNonSpace (scanner st)); by injection En as _ <-).
  assert (readable (rd (scanner st1))) as Hr1 by (by apply Hn).
  case_decide; [rewrite <- Hdl in Hd; by eapply doomed_flush|]. case_decide; [|done].
  destruct fuel as [|fuel]; [done|]. rewrite accountsLoop_S. unfold mbind, gom_bind. pose proof (element_run st1 (delivered st1) (proj1 Hn)) as Hel. cbv zeta in Hel.
  destruct ((wrap errAccountElement (scan scanValue) : Str bytes) st1) as [[raw|e|] st2]; [|done..].
  destruct Hel as (Hon2 & Hdl2 & _ & [[Hraw _]|[_ Hdead]]).
  - rewrite <- joined_snoc. replace (len raws + 1) with (len (raws ++ [raw])) by (rewrite len_app, len_cons, len_nil; lia).
    apply IH; [lia|apply Hon2|by apply Hon2|by apply Forall_app_2, Forall_singleton|]. rewrite Hdl2, Hdl. by apply doomed_more.
  - apply afterElement_ends; [apply Hon2|auto].
Qed.

(** A bad element dooms its batch. *)
Lemma mapM_snoc raws raw more as_ :
  mapM unmarshalAccount raws = Some as_ →
  mapM unmarshalAccount ((raws ++ [raw]) ++ more) =
    (a ← unmarshalAccount raw; as' ← mapM unmarshalAccount more; Some (as_ ++ a :: as')).
Proof.
  revert as_. induction raws as [|r raws IH]; intros as_.
  - intros [= <-]. cbn. destruct (unmarshalAccount raw); [|done]. cbn. by destruct (mapM _ more).
  - cbn. destruct (unmarshalAccount r) as [a|]; [|done]. cbn. destruct (mapM unmarshalAccount raws) as [as1|] eqn:E; [|done]. intros [= <-].
    rewrite (IH as1) by done. destruct (unmarshalAccount raw); [|done]. cbn. by destruct (mapM _ more).
Qed.

Lemma feed_app dl as1 as2 dl' : feed dl as1 = Some dl' → feed dl (as1 ++ as2) = feed dl' as2.
Proof. revert dl. induction as1 as [|a as1 IH]; intros dl; cbn; [by intros [= ->]|]. destruct (fn dl a); [done|]. apply IH. Qed.

Lemma taken_snoc dl raws dl' raw :
  taken dl raws = Some dl' →
  taken dl (raws ++ [raw]) = (a ← unmarshalAccount raw; match fn dl' a with Some _ => None | None => Some (dl' ++ [a]) end).
Proof.
  unfold taken. destruct (mapM unmarshalAccount raws) as [as_|] eqn:E; [|done]. cbn. intros Hf.
  pose proof (mapM_snoc raws raw [] as_ E) as H. rewrite app_nil_r in H. rewrite H. destruct (unmarshalAccount raw) as [a|]; [|done]. cbn.
  rewrite (feed_app _ _ _ _ Hf). cbn. by destruct (fn dl' a).
Qed.

Lemma bad_dooms dl raws dl' raw :
  taken dl raws = Some dl' → raw ≠ [] →
  match unmarshalAccount raw with Some a => fn dl' a ≠ None | None => True end → doomed dl (raws ++ [raw]).
Proof.
  unfold taken. destruct (mapM unmarshalAccount raws) as [as_|] eqn:E; [|done]. cbn. intros Hf Hne Hbad more _. split.
  - intros Heq. destruct raws as [|r raws]; cbn in Heq; [by injection Heq|]. injection Heq as _ Heq. by destruct raws.
  - unfold taken. rewrite (mapM_snoc _ _ _ _ E). destruct (unmarshalAccount raw) as [a|]; [|done]. cbn.
    destruct (mapM unmarshalAccount more); [|done]. cbn. rewrite (feed_app _ _ _ _ Hf). cbn. by destruct (fn dl' a).
Qed.

Lemma taken_nonempty dl raws dl' : taken dl raws = Some dl' → raws ≠ [[]].
Proof. intros H ->. unfold taken in H. cbn in H. by rewrite decode_empty in H. Qed.

(** After an element: the batch is flushed or not; either way nothing is lost. *)
Lemma maybe_flush_run raws st dl :
  Forall element raws → taken (delivered st) raws = Some dl →
  ∃ raws2 st2,
    (if decide (streamBatchElems ≤ len raws ∨ streamBatchBytes ≤ len (joined raws) ∨ end_ (scanner st) ≤ pos (scanner st))
     then _ ← flush unmarshalAccounts fn (joined raws) (len raws); mret ([], 0)
     else mret (joined raws, len raws) : Str (bytes * Z)) st = (Ok (joined raws2, len raws2), st2) ∧
    scanner st2 = scanner st ∧ ctx st2 = ctx st ∧ Forall element raws2 ∧ taken (delivered st2) raws2 = Some dl.
Proof.
  intros He Ht. case_decide; [|by exists raws, st]. pose proof (flush_run raws st He (taken_nonempty _ _ _ Ht)) as H'. rewrite Ht in H'.
  exists [], (mkStream (scanner st) dl (ctx st)). erewrite run_bind by exact H'. by split_and!; [| | |constructor|].
Qed.

(** What follows an element. *)
Lemma separator_sim fuel fuel' raws st dl :
  (∀ st', scan_inv (scanner st') → (workLeft (scanner st') < workLeft (scanner st))%nat →
    (length (unread (scanner st')) < length (unread (scanner st)))%nat →
    Forall element raws → taken (delivered st') raws = Some dl →
    simAt st' ((accountsLoop unmarshalAccounts fn fuel (joined raws) (len raws) : Str unit) st')
      (raccountsLoop unmarshalAccount fn fuel' (mkRef (unread (scanner st')) dl (ctx st')))) →
  scan_inv (scanner st) → Forall element raws → taken (delivered st) raws = Some dl →
  simAt st
    ((c ← scan nextNonSpace;
      if decide (c = 93) then flush unmarshalAccounts fn (joined raws) (len raws)
      else if decide (c = 44) then accountsLoop unmarshalAccounts fn fuel (joined raws) (len raws)
      else throw (errAfterAccount c) : Str unit) st)
    ((c ← rnext;
      if decide (c = 93) then mret tt else if decide (c = 44) then raccountsLoop unmarshalAccount fn fuel' else throw Refused)
     (mkRef (unread (scanner st)) dl (ctx st))).
Proof.
  intros IH Hst He Ht. pose proof (next_spec (RPCError:=RPCError) (Callback:=Callback) (scanner st) Hst) as Hn.
  pose proof (skipSpace_length (unread (scanner st))) as Hl.
  unfold mbind, gom_bind, rnext, scan. cbn [rest]. destruct (skipSpace (unread (scanner st))) as [|c u].
  { destruct Hn as (e & s' & -> & ?). split; [done|]. by exists Truncated. }
  destruct Hn as (s' & -> & Hon & Hun & Hw & _). set (st' := mkStream s' (delivered st) (ctx st)).
  apply (simAt_onward st st'); [done|]. case_decide.
  - pose proof (flush_run raws st' He (taken_nonempty _ _ _ Ht)) as Hf. cbn [delivered st'] in Hf. rewrite Ht in Hf. rewrite Hf.
    split; [apply onward_refl, Hon|]. left. unfold abs, set_rest, mret, gom_ret. cbn. by rewrite Hun.
  - case_decide; [|split; [done|by exists Refused]]. cbn in Hl. unfold set_rest. cbn [rdelivered rctx]. rewrite <- Hun.
    apply (IH st'); [apply Hon|done|cbn; rewrite Hun; lia|done|done].
Qed.

Lemma accountsLoop_sim fuel fuel' raws st dl :
  scan_inv (scanner st) → (workLeft (scanner st) < fuel)%nat → (length (unread (scanner st)) < fuel')%nat →
  Forall element raws → taken (delivered st) raws = Some dl →
  simAt st ((accountsLoop unmarshalAccounts fn fuel (joined raws) (len raws) : Str unit) st)
    (raccountsLoop unmarshalAccount fn fuel' (mkRef (unread (scanner st)) dl (ctx st))).
Proof.
  revert fuel' raws st dl. induction fuel as [|fuel IH]; intros fuel' raws st dl Hst Hfuel Hfuel' He Ht; [lia|].
  destruct fuel' as [|fuel']; [lia|]. pose proof (accountsLoop_total (S fuel) (joined raws) (len raws) st Hst Hfuel) as Htot.
  rewrite accountsLoop_S in *. cbn [raccountsLoop]. pose proof (element_run st dl Hst) as Hel. cbv zeta in Hel.
  destruct ((wrap errAccountElement (scan scanValue) : Str bytes) st) as [[raw|e|] st1] eqn:Em; [| |done].
  2: { destruct Hel as [? Hrun]. rewrite (run_bind_err _ _ _ _ _ Em), (run_bind_err _ _ _ _ _ Hrun). split; [done|]. by exists Truncated. }
  rewrite (run_bind _ _ _ _ _ Em) in *. destruct Hel as (Hon & Hdl & Hctx & [(Hraw & Hrun & Hlen)|[Hrun Hdead]]).
  2: { rewrite (run_bind_err _ _ _ _ _ Hrun). apply (simAt_stopped _ _ _ Truncated); [done|done|]. intros _ Hr x st' Ha. exfalso.
       by eapply afterElement_ends; [apply Hon|auto|]. }
  rewrite (run_bind _ _ _ _ _ Hrun). rewrite <- joined_snoc in *.
  replace (len raws + 1) with (len (raws ++ [raw])) in * by (rewrite len_app, len_cons, len_nil; lia).
  assert (Forall element (raws ++ [raw])) as He1 by (by apply Forall_app_2, Forall_singleton).
  assert (match unmarshalAccount raw with Some a => fn dl a ≠ None | None => True end → raw ≠ [] → ∀ t,
    simAt st (afterElement fuel (joined (raws ++ [raw])) (len (raws ++ [raw])) st1) (A:=unit) (Err Refused, t)) as Hbad.
  { intros Hb Hne t. apply (simAt_stopped _ _ _ Refused); [done|done|]. intros _ Hr x st' Ha. exfalso. revert Ha.
    apply doomed_after; [apply Hon|by apply Hon|done|]. rewrite Hdl. by eapply bad_dooms. }
  unfold rdeliver. case_decide as Hempty.
  { apply (simAt_stopped _ _ _ EmptyElement); [done|done|]. done. }
  destruct (unmarshalAccount raw) as [a|] eqn:Ea; [|by apply Hbad].
  pose proof (taken_snoc _ _ _ raw Ht) as Ht1. rewrite Ea in Ht1. cbn [mbind option_bind] in Ht1. rewrite <- Hdl in Ht1.
  destruct (fn dl a) eqn:Ef; [erewrite run_bind_err; [by apply Hbad|]; rewrite run_get, run_modify; cbn [rdelivered]; by rewrite Ef|].
  erewrite run_bind; [|rewrite run_get, run_modify; cbn [rdelivered]; rewrite Ef; reflexivity]. cbn [rest rdelivered rctx].
  apply (simAt_onward st st1); [done|]. clear Htot Hbad.
  destruct (maybe_flush_run _ _ _ He1 Ht1) as (raws2 & st2 & Hmf & Hs2 & Hc2 & He2 & Ht2).
  unfold afterElement. rewrite run_get. erewrite run_bind by exact Hmf. rewrite <- Hctx, <- Hc2, <- Hs2 in *.
  apply (simAt_onward st1 st2); [rewrite Hs2 in *; apply onward_refl, Hon|]. apply (separator_sim fuel fuel'); [|apply Hon|done|done].
  intros st3 Hst3 Hw3 Hl3. apply IH; [done|destruct Hon as (_ & ? & _); lia|lia].
Qed.

Lemma sim_streamAccounts : sim (streamAccounts unmarshalAccounts fn) (rstreamAccounts unmarshalAccount fn).
Proof.
  apply sim_peek_bind. intros c u st Hst Hlt Hun Hc. case_decide.
  - destruct (advance_run st c u Hst Hlt Hun Hc) as (st1 & -> & Hr & Hon). erewrite run_bind by exact Hr. split; [done|by left].
  - rewrite !run_get. apply (accountsLoop_sim _ _ [] st (delivered st)); [done|unfold fuelOf; lia|cbn; lia|constructor|done].
Qed.

(** ** Objects *)

(** For a whole object more holds: an object that was read to its closing brace
    was one for the reference too. *)
Definition strongAt {A} (st : stream Account Context) (o : outcome (stream_err RPCError Callback) A * stream Account Context)
    (o' : outcome ref_err A * rstream) : Prop :=
  totalAt st o ∧
  match o with
  | (Ok x, st') => o' = (Ok x, abs st') ∨ ∃ e', o'.1 = Err e' ∧ (readable (rd (scanner st)) → e' = EmptyElement)
  | (Err _, _) => ∃ e', o'.1 = Err e'
  | (Panic, _) => True
  end.

Lemma strong_sim {A} st (o : outcome _ A * _) o' : strongAt st o o' → simAt st o o'.
Proof.
  intros [Ht H]. unfold simAt, totalAt in *. destruct o as [[x|e|] st']; [|done..]. split; [done|].
  destruct H as [?|(e' & ? & He)]; [by left|]. right. exists e'. split; [done|]. intros Hne Hr. by destruct Hne, He.
Qed.

Lemma strong_bind {A B} st (m : Str A) (m' : Ref A) (f : A → Str B) (f' : A → Ref B) :
  simAt st (m st) (m' (abs st)) →
  (∀ x st', m st = (Ok x, st') → onward (scanner st) (scanner st') → totalAt st' (f x st')) →
  (∀ x st', m st = (Ok x, st') → onward (scanner st) (scanner st') → m' (abs st) = (Ok x, abs st') → strongAt st' (f x st') (f' x (abs st'))) →
  (∀ x st' y st'', onward (scanner st) (scanner st') → readable (rd (scanner st')) → unread (scanner st') = [] → f x st' ≠ (Ok y, st'')) →
  strongAt st ((m ≫= f) st) ((m' ≫= f') (abs st)).
Proof.
  intros Hm Hftot Hf Hfdead. split; [apply totalAt_bind; [by eapply simAt_total|done]|]. unfold mbind, gom_bind, simAt in *.
  destruct (m st) as [[x|e|] st1]; [| |done].
  - destruct Hm as [Hon [Heq|(e' & Heq & Hdead)]].
    + rewrite Heq. destruct (Hf x st1 eq_refl Hon Heq) as [_ H]. destruct (f x st1) as [[y|e|] st2]; [|done..].
      destruct H as [?|(e' & ? & He)]; [by left|]. right. exists e'. split; [done|]. intros Hr. apply He. by apply Hon.
    + assert (∃ t, m' (abs st) = (Err e', t)) as [t Ht] by (destruct (m' (abs st)) as [[]]; naive_solver). rewrite Ht.
      specialize (Hfdead x st1). destruct (f x st1) as [[y|e|] st2]; [|by exists e'|done]. right. exists e'. split; [done|]. intros Hr.
      destruct e'; [|done|]; by destruct (Hfdead y st2 Hon (proj1 (proj2 (proj2 Hon) Hr)) (Hdead ltac:(done) Hr)).
  - destruct Hm as (He & e' & Heq). destruct (m' (abs st)) as [[]]; naive_solver.
Qed.

(** A byte of syntax: code and reference agree. *)
Lemma next_run st :
  scan_inv (scanner st) →
  (∃ e st', (scan nextNonSpace : Str Z) st = (Err e, st') ∧ isStuck e = false ∧ rnext (abs st) = (Err Truncated, abs st)) ∨
  (∃ c st', (scan nextNonSpace : Str Z) st = (Ok c, st') ∧ rnext (abs st) = (Ok c, abs st') ∧ onward (scanner st) (scanner st') ∧
    (workLeft (scanner st') < workLeft (scanner st))%nat ∧ 1 ≤ pos (scanner st') ∧
    (length (unread (scanner st')) < length (unread (scanner st)))%nat).
Proof.
  intros Hst. pose proof (next_spec (RPCError:=RPCError) (Callback:=Callback) (scanner st) Hst) as H.
  pose proof (skipSpace_length (unread (scanner st))) as Hl. unfold scan, rnext. cbn [abs rest].
  destruct (skipSpace (unread (scanner st))) as [|c u].
  - left. destruct H as (e & s' & -> & He). by eexists _, _.
  - right. destruct H as (s' & -> & Hon & Hun & Hw & Hp). eexists _, _. split; [done|]. unfold abs, set_rest. cbn in *. rewrite Hun.
    split_and!; [done|done|done|done|lia].
Qed.

Lemma next_ends st : scan_inv (scanner st) → unread (scanner st) = [] → ∃ e st', (scan nextNonSpace : Str Z) st = (Err e, st').
Proof.
  intros Hst Hun. pose proof (next_spec (RPCError:=RPCError) (Callback:=Callback) (scanner st) Hst) as H. rewrite Hun in H.
  destruct H as (e & s' & Hr & _). unfold scan. rewrite Hr. eauto.
Qed.

Lemma sim_string st :
  scan_inv (scanner st) → 1 ≤ pos (scanner st) → simAt st ((scan keyText : Str bytes) st) (rstring (abs st)).
Proof.
  intros Hst Hp. pose proof (string_spec (RPCError:=RPCError) (Callback:=Callback) (scanner st) Hst Hp) as H. unfold scan, rstring, simAt.
  cbn [abs rest]. unfold cuts in H. destruct (cutString false (unread (scanner st))) as [[key u]|].
  - destruct H as (s' & -> & Hon & Hun). split; [done|]. left. rewrite window_self by done. unfold abs, set_rest. cbn. by rewrite Hun.
  - destruct (keyText (scanner st)) as [[x|e|] s']; [|split; [done|by exists Truncated]|done].
    destruct H as [Hon Hd]. split; [done|]. right. exists Truncated. auto.
Qed.

Lemma scan_bind {A B} (m : GoM jsonScanner (stream_err RPCError Callback) A) (f : A → GoM jsonScanner (stream_err RPCError Callback) B) st :
  (scan (m ≫= f) : Str B) st = (scan m ≫= λ x, scan (f x)) st.
Proof. unfold scan, mbind, gom_bind. by destruct (m (scanner st)) as [[x|e|] s']. Qed.

Lemma sim_copyKey st :
  scan_inv (scanner st) → 1 ≤ pos (scanner st) → simAt st ((scan copyKey : Str bytes) st) (rkey (abs st)).
Proof.
  intros Hst Hp. unfold copyKey. rewrite scan_bind. apply simAt_bind; [by apply sim_string|]. intros key st1 H1.
  rewrite scan_bind. apply (sim_bind (scan (expect 58)) (rexpect 58)); [apply sim_expect| |apply H1]. intros []. apply sim_ret.
Qed.

Section keys.
Context (readKey : GoM jsonScanner (stream_err RPCError Callback) bytes).
Context (Hread : ∀ st : stream Account Context, scan_inv (scanner st) → 1 ≤ pos (scanner st) → totalAt st ((scan readKey : Str bytes) st)).
Context (handle : bytes → Str unit) (handle' : bytes → Ref unit).
Context (Htotal : ∀ key st, scan_inv (scanner st) → totalAt st (handle key st)).

(** From the opening quote of a key on. *)
Definition member (fuel : nat) : Str unit :=
  key ← scan readKey; _ ← handle key; keyLoop readKey fuel false handle.
Definition rmember (fuel : nat) : Ref unit :=
  key ← rkey; _ ← handle' key; rkeyLoop fuel false handle'.

Definition beforeKey (first : bool) (c : Z) : Str Z :=
  if first then mret c else if decide (c = 44) then scan nextNonSpace else throw (errBetweenKeys c).
Definition rbeforeKey (first : bool) (c : Z) : Ref Z :=
  if first then mret c else if decide (c = 44) then rnext else throw Refused.

Lemma keyLoop_S fuel first :
  keyLoop readKey (S fuel) first handle =
  (c ← scan nextNonSpace; if decide (c = 125) then mret tt else
   c ← beforeKey first c; if decide (c = 34) then member fuel else throw (errObjectKey c)).
Proof. done. Qed.
Lemma rkeyLoop_S fuel first :
  rkeyLoop (S fuel) first handle' =
  (c ← rnext; if decide (c = 125) then mret tt else
   c ← rbeforeKey first c; if decide (c = 34) then rmember fuel else throw Refused).
Proof. done. Qed.

Lemma member_total fuel st :
  (∀ st', scan_inv (scanner st') → (workLeft (scanner st') ≤ workLeft (scanner st))%nat → totalAt st' (keyLoop readKey fuel false handle st')) →
  scan_inv (scanner st) → 1 ≤ pos (scanner st) → totalAt st (member fuel st).
Proof.
  intros IH Hst Hp. apply totalAt_bind; [by apply Hread|]. intros key st1 _ H1.
  apply totalAt_bind; [apply Htotal, H1|]. intros [] st2 _ H2.
  apply IH; [apply H2|]. destruct H1 as (_ & ? & _), H2 as (_ & ? & _). lia.
Qed.

(** The separator before a key, if any, and the state it leaves. *)
Lemma beforeKey_run first c st :
  scan_inv (scanner st) → 1 ≤ pos (scanner st) →
  (∃ e st' e', beforeKey first c st = (Err e, st') ∧ isStuck e = false ∧ (rbeforeKey first c (abs st)).1 = Err e') ∨
  (∃ d st', beforeKey first c st = (Ok d, st') ∧ rbeforeKey first c (abs st) = (Ok d, abs st') ∧ onward (scanner st) (scanner st') ∧
    1 ≤ pos (scanner st') ∧ (length (unread (scanner st')) ≤ length (unread (scanner st)))%nat).
Proof.
  intros Hst Hp. unfold beforeKey, rbeforeKey. destruct first.
  { right. exists c, st. split_and!; [done|done|by apply onward_refl|done|lia]. }
  case_decide; [|left; by eexists _, _, _].
  destruct (next_run st Hst) as [(e & st' & -> & ? & ->)|(d & st' & -> & -> & ? & ? & ? & ?)]; [left; by eexists _, _, _|].
  right. exists d, st'. split_and!; [done..|lia].
Qed.

Lemma keyLoop_total fuel first st :
  scan_inv (scanner st) → (workLeft (scanner st) < fuel)%nat → totalAt st (keyLoop readKey fuel first handle st).
Proof.
  revert first st. induction fuel as [|fuel IH]; intros first st Hst Hf; [lia|]. rewrite keyLoop_S.
  destruct (next_run st Hst) as [(e & st1 & Hr & He & _)|(c & st1 & Hr & _ & H1 & Hw & Hp & _)];
    [by rewrite (run_bind_err _ _ _ _ _ Hr)|]. rewrite (run_bind _ _ _ _ _ Hr). apply (totalAt_onward st st1); [done|].
  case_decide; [apply onward_refl, H1|].
  destruct (beforeKey_run first c st1 (proj1 H1) Hp) as [(e & st2 & e' & Hr2 & He & _)|(d & st2 & Hr2 & _ & H2 & Hp2 & _)];
    [by rewrite (run_bind_err _ _ _ _ _ Hr2)|]. rewrite (run_bind _ _ _ _ _ Hr2). apply (totalAt_onward st1 st2); [done|].
  case_decide; [|done]. apply member_total; [|apply H2|done]. intros st3 Hst3 Hw3. apply IH; [done|]. destruct H2 as (_ & ? & _). lia.
Qed.

Lemma keyLoop_ends fuel first st x st' :
  scan_inv (scanner st) → unread (scanner st) = [] → keyLoop readKey fuel first handle st ≠ (Ok x, st').
Proof.
  intros Hst Hun. destruct fuel; [done|]. rewrite keyLoop_S. destruct (next_ends st Hst Hun) as (e & st1 & Hr).
  by rewrite (run_bind_err _ _ _ _ _ Hr).
Qed.

Lemma strong_onward {A} st st1 (o : outcome _ A * _) o' : onward (scanner st) (scanner st1) → strongAt st1 o o' → strongAt st o o'.
Proof.
  intros Hon [Ht H]. split; [by eapply totalAt_onward|]. destruct o as [[x|e|] st2]; [|done..].
  destruct H as [?|(e' & ? & He)]; [by left|]. right. exists e'. split; [done|]. intros Hr. apply He. by apply Hon.
Qed.

Context (Hsimkey : ∀ st, scan_inv (scanner st) → 1 ≤ pos (scanner st) → simAt st ((scan readKey : Str bytes) st) (rkey (abs st))).
Context (Hsim : ∀ key, sim (handle key) (handle' key)) (Hshrinks : ∀ key, shrinks (handle' key)).

Lemma member_strong fuel fuel' st :
  (∀ st', scan_inv (scanner st') → (workLeft (scanner st') ≤ workLeft (scanner st))%nat → totalAt st' (keyLoop readKey fuel false handle st')) →
  (∀ st', scan_inv (scanner st') → (workLeft (scanner st') ≤ workLeft (scanner st))%nat →
    (length (unread (scanner st')) ≤ length (unread (scanner st)))%nat →
    strongAt st' (keyLoop readKey fuel false handle st') (rkeyLoop fuel' false handle' (abs st'))) →
  scan_inv (scanner st) → 1 ≤ pos (scanner st) → strongAt st (member fuel st) (rmember fuel' (abs st)).
Proof.
  intros IHt IH Hst Hp. unfold member, rmember. apply strong_bind; [by apply Hsimkey| | |].
  { intros key st1 _ H1. apply totalAt_bind; [apply Htotal, H1|]. intros [] st2 _ H2.
    apply IHt; [apply H2|]. destruct H1 as (_ & ? & _), H2 as (_ & ? & _). lia. }
  2: { intros key st2 y st3 H2 Hr Hun Hrun. pose proof (Hsim key st2 (proj1 H2)) as H3%simAt_total. unfold mbind, gom_bind in Hrun.
       destruct (handle key st2) as [[[]|e|] st4]; [|done..]. revert Hrun. apply keyLoop_ends; [apply H3|by apply H3]. }
  intros key st1 _ H1 Hrun1. pose proof (shrinks_rkey (abs st)) as Hs1. rewrite Hrun1 in Hs1.
  apply strong_bind; [by apply Hsim, H1| | |].
  { intros [] st3 _ H3. apply IHt; [apply H3|]. destruct H1 as (_ & ? & _), H3 as (_ & ? & _). lia. }
  2: { intros [] st3 y st4 H3 _ Hun. by apply keyLoop_ends; [apply H3|]. }
  intros [] st3 _ H3 Hrun3. pose proof (Hshrinks key (abs st1)) as Hs3. rewrite Hrun3 in Hs3. cbn in *.
  apply IH; [apply H3|destruct H1 as (_ & ? & _), H3 as (_ & ? & _); lia|lia].
Qed.

Lemma keyLoop_strong fuel fuel' first st :
  scan_inv (scanner st) → (workLeft (scanner st) < fuel)%nat → (length (unread (scanner st)) < fuel')%nat →
  strongAt st (keyLoop readKey fuel first handle st) (rkeyLoop fuel' first handle' (abs st)).
Proof.
  revert fuel' first st. induction fuel as [|fuel IH]; intros fuel' first st Hst Hf Hf'; [lia|]. destruct fuel' as [|fuel']; [lia|].
  rewrite keyLoop_S, rkeyLoop_S.
  destruct (next_run st Hst) as [(e & st1 & Hr & He & Hr')|(c & st1 & Hr & Hr' & H1 & Hw & Hp & Hl)].
  { rewrite (run_bind_err _ _ _ _ _ Hr), (run_bind_err _ _ _ _ _ Hr'). split; [done|]. by exists Truncated. }
  rewrite (run_bind _ _ _ _ _ Hr), (run_bind _ _ _ _ _ Hr'). apply (strong_onward st st1); [done|].
  case_decide; [split; [apply onward_refl, H1|by left]|].
  destruct (beforeKey_run first c st1 (proj1 H1) Hp) as [(e & st2 & e' & Hr2 & He & Hr2')|(d & st2 & Hr2 & Hr2' & H2 & Hp2 & Hl2)].
  { rewrite (run_bind_err _ _ _ _ _ Hr2). split; [done|]. exists e'. unfold mbind, gom_bind.
    destruct (rbeforeKey first c (abs st1)) as [[]]; naive_solver. }
  rewrite (run_bind _ _ _ _ _ Hr2), (run_bind _ _ _ _ _ Hr2'). apply (strong_onward st1 st2); [done|].
  case_decide; [|split; [done|by exists Refused]]. destruct H2 as (Hst2 & ? & ?).
  apply member_strong; [| |done|done].
  - intros st3 Hst3 Hw3. apply keyLoop_total; [done|lia].
  - intros st3 Hst3 Hw3 Hl3. apply IH; [done|lia|lia].
Qed.

Lemma forEachKey_strong st : scan_inv (scanner st) → strongAt st (forEachKey readKey handle st) (rforEachKey handle' (abs st)).
Proof. intros Hst. unfold forEachKey, rforEachKey. rewrite !run_get. apply keyLoop_strong; [done|unfold fuelOf; lia|cbn; lia]. Qed.
End keys.

(** ** The handlers and the whole stream *)

Lemma sim_total {A} (m : Str A) (m' : Ref A) st : sim m m' → scan_inv (scanner st) → totalAt st (m st).
Proof. intros Hm Hst. eapply simAt_total. by apply Hm. Qed.

Lemma sim_skip : sim skipValue rskip.
Proof. apply sim_bind; [apply sim_value|]. intros raw. apply sim_ret. Qed.

Lemma sim_modify (g : stream Account Context → stream Account Context) (g' : rstream → rstream) :
  (∀ st, scanner (g st) = scanner st ∧ g' (abs st) = abs (g st)) → sim (modify g) (modify g').
Proof.
  intros Hg st Hst. destruct (Hg st) as [Hs Ha]. split; [cbn; rewrite Hs; by apply onward_refl|]. left. unfold modify. by rewrite Ha.
Qed.

Lemma sim_onInner key : sim (onInner unmarshalAccounts unmarshalContext fn key) (ronInner unmarshalAccount unmarshalContext fn key).
Proof.
  unfold onInner, ronInner. case_decide.
  - apply sim_bind; [apply sim_value|]. intros raw. destruct (unmarshalContext raw); [|by apply sim_throw]. by apply sim_modify.
  - case_decide; [|apply sim_skip]. apply sim_bind; [by apply sim_wrap, sim_expect|]. intros []. apply sim_streamAccounts.
Qed.

Lemma sim_onKey key :
  sim (onKey unmarshalAccounts unmarshalContext unmarshalError fn copyKey key) (ronKey unmarshalAccount unmarshalContext fn key).
Proof.
  unfold onKey, ronKey. case_decide; [|case_decide; [|apply sim_skip]].
  - apply sim_bind; [apply sim_value|]. intros raw. destruct (unmarshalError raw); by apply sim_throw.
  - apply sim_peek_bind. intros c u st Hst Hlt Hun Hc. destruct (advance_run st c u Hst Hlt Hun Hc) as (st1 & Hr & Hr' & Hon).
    case_decide; [|case_decide; [|by apply sim_skip]]; rewrite (run_bind _ _ _ _ _ Hr), (run_bind _ _ _ _ _ Hr');
      apply (simAt_onward st st1); try done.
    + apply sim_streamAccounts, Hon.
    + apply strong_sim, forEachKey_strong; [|..|apply Hon].
      * intros st2 Hst2 Hp. by eapply simAt_total, sim_copyKey.
      * intros k st2. eapply sim_total, sim_onInner.
      * apply sim_copyKey.
      * apply sim_onInner.
      * apply shrinks_ronInner.
Qed.

(** What the scanner starts from. *)
Lemma newScanner_inv r : scan_inv (newScanner r).
Proof. unfold scan_inv, newScanner. cbn [buf pos end_ mark]. unfold zeros. rewrite len_replicate. change (Z.shiftl 64 10) with 65536.
  rewrite Z2Nat.id by lia. lia. Qed.
Lemma newScanner_unread r : unread (newScanner r) = live (chunks r).
Proof. done. Qed.

Lemma body_strong st :
  scan_inv (scanner st) →
  strongAt st ((_ ← wrap errEnvelope (scan (expect 123)); forEachKey copyKey (onKey unmarshalAccounts unmarshalContext unmarshalError fn copyKey)) st)
    ((_ ← rexpect 123; rforEachKey (ronKey unmarshalAccount unmarshalContext fn)) (abs st)).
Proof.
  intros Hst. assert (∀ st1, scan_inv (scanner st1) → strongAt st1
    (forEachKey copyKey (onKey unmarshalAccounts unmarshalContext unmarshalError fn copyKey) st1)
    (rforEachKey (ronKey unmarshalAccount unmarshalContext fn) (abs st1))) as Hkeys.
  { intros st1 H1. apply forEachKey_strong; [|..|done].
    - intros st2 Hst2 Hp. by eapply simAt_total, sim_copyKey.
    - intros k st2. eapply sim_total, sim_onKey.
    - apply sim_copyKey.
    - apply sim_onKey.
    - apply shrinks_ronKey. }
  apply strong_bind.
  - apply sim_wrap; [done|apply sim_expect|done].
  - intros [] st1 _ H1. apply Hkeys, H1.
  - intros [] st1 _ H1 _. apply Hkeys, H1.
  - intros [] st1 y st2 H1 _ Hun. unfold forEachKey. rewrite run_get. by apply keyLoop_ends; [apply H1|].
Qed.

Lemma streamBody_run readKey r :
  let m : Str unit := _ ← wrap errEnvelope (scan (expect 123));
    forEachKey readKey (onKey unmarshalAccounts unmarshalContext unmarshalError fn readKey) in
  streamWith unmarshalAccounts unmarshalContext unmarshalError fn readKey r =
  match m (mkStream (newScanner r) [] None) with
  | (Ok _, st) => (Ok (ctx st), delivered st)
  | (Err e, st) => (Err e, delivered st)
  | (Panic, st) => (Panic, delivered st)
  end.
Proof.
  intros m. subst m. unfold streamWith, streamBody, mbind, gom_bind.
  destruct (wrap errEnvelope (scan (expect 123)) (mkStream (newScanner r) [] None)) as [[[]|e|] st]; [|done..].
  by destruct (forEachKey readKey _ st) as [[[]|e|] st'].
Qed.
End simulation.

(** * A decoder of arrays *)

(** A value is cut the same way whatever follows its separator. *)
Lemma cut_stable depth inString escaped u raw rest c v :
  c = 44 ∨ c = 93 ∨ c = 125 → cut depth inString escaped u = Some (raw, rest) → cut depth inString escaped (raw ++ c :: v) = Some (raw, c :: v).
Proof.
  intros Hc. revert depth inString escaped raw. induction u as [|d u IH]; intros depth inString escaped raw; [done|].
  assert (∀ dp i e, push d (cut dp i e u) = Some (raw, rest) → ∃ raw', raw = d :: raw' ∧ cut dp i e (raw' ++ c :: v) = Some (raw', c :: v)) as Hp.
  { intros dp i e (raw' & -> & H)%push_Some. eauto. }
  assert (∀ e, cut 0 false e (c :: v) = Some ([], c :: v)) as Hhere.
  { intros e. cbn [cut]. by destruct Hc as [->|[->| ->]]. }
  cbn [cut]. destruct inString, escaped; repeat (case_decide; subst); intros Hx;
    first [ apply Hp in Hx as (raw' & -> & Hx); cbn [cut app]; repeat (first [rewrite decide_True by done | rewrite decide_False by done]); by rewrite Hx
          | injection Hx as <- <-; first [apply Hhere | cbn [cut app]; repeat (first [rewrite decide_True by done | rewrite decide_False by done]); done] ].
Qed.

(** The elements of an array, as texts. *)
Fixpoint splitElements (fuel : nat) (u : bytes) : option (list bytes) :=
  match fuel with
  | O => None
  | S fuel =>
    match cut 0 false false u with
    | Some ([], _) => None
    | Some (raw, 44 :: u') => cons raw <$> splitElements fuel u'
    | Some (raw, [93]) => Some [raw]
    | _ => None
    end
  end.
Definition splitArray (b : bytes) : option (list bytes) :=
  match b with
  | 91 :: u => if decide (u = [93]) then Some [] else splitElements (S (length u)) u
  | _ => None
  end.
Definition someText (raw : bytes) : option bytes := if decide (raw = []) then None else Some raw.

Lemma splitElements_joined raw raws fuel :
  element raw → Forall element raws → (length raws < fuel)%nat →
  splitElements fuel (raw ++ concat ((λ q, 44 :: q) <$> raws) ++ [93]) = mapM someText (raw :: raws).
Proof.
  revert raw fuel. induction raws as [|r raws IH]; intros raw fuel (u & rest & Hraw) Hraws Hf; (destruct fuel as [|fuel]; [cbn in *; lia|]).
  - cbn [fmap list_fmap concat app splitElements]. rewrite (cut_stable _ _ _ _ _ _ 93 [] ltac:(auto) Hraw). by destruct raw.
  - apply Forall_cons in Hraws as [Hr Hraws]. cbn [fmap list_fmap concat app splitElements].
    rewrite (cut_stable _ _ _ _ _ _ 44 ((r ++ concat ((λ q, 44 :: q) <$> raws)) ++ [93]) ltac:(auto) Hraw), <- app_assoc, (IH r) by (done || cbn in *; lia).
    destruct raw; [done|]. cbn. by destruct (someText r), (mapM someText raws).
Qed.

Lemma length_concat_cons (raws : list bytes) : (length raws ≤ length (concat ((λ q, 44%Z :: q) <$> raws)))%nat.
Proof. induction raws as [|r raws IH]; [done|]. cbn. rewrite length_app. lia. Qed.

#[global] Instance splitArray_decoder : ArrayDecoder splitArray someText.
Proof.
  split; [done|done|]. intros raws Hne Hne' Hraws. destruct raws as [|raw raws]; [done|]. apply Forall_cons in Hraws as [Hr Hraws].
  cbn [joined app splitArray]. rewrite <- app_assoc. rewrite decide_False.
  - apply splitElements_joined; [done|done|]. rewrite !length_app. pose proof (length_concat_cons raws). lia.
  - destruct raw as [|c raw]; [|intros E; injection E as _ E; apply app_nil in E as [_ E]; by apply app_nil in E as [_ ?]]. destruct raws as [|r raws]; [done|]. done.
Qed.

(** Termination and absence of panics do not depend on the JSON decoder. *)
Section total.
Context {Account Context RPCError Callback : Type}.
Context (unmarshalAccounts : bytes → option (list Account)) (unmarshalContext : bytes → option Context)
  (unmarshalError : bytes → option RPCError) (fn : list Account → Account → option Callback).
Abbreviation Str := (GoM (stream Account Context) (stream_err RPCError Callback)) (only parsing).

Lemma skip_total st : scan_inv (scanner st) → totalAt st ((skipValue : Str unit) st).
Proof. eapply sim_total, sim_skip. Qed.

Lemma peek_then_total (f : Z → Str unit) st :
  (∀ c st1, scan_inv (scanner st1) → pos (scanner st1) < end_ (scanner st1) → totalAt st1 (f c st1)) →
  scan_inv (scanner st) → totalAt st ((scan peekNonSpace ≫= f) st).
Proof.
  intros Hf Hst. pose proof (peek_spec (RPCError:=RPCError) (Callback:=Callback) (scanner st) Hst) as H.
  unfold scan, mbind, gom_bind. destruct (skipSpace (unread (scanner st))) as [|c u].
  - by destruct H as (e & s' & -> & He).
  - destruct H as (s' & -> & Hon & _ & Hlt). eapply totalAt_onward; [|apply Hf; [apply Hon|done]]. done.
Qed.

Lemma advance_total st :
  scan_inv (scanner st) → pos (scanner st) < end_ (scanner st) → totalAt st ((scan advance : Str unit) st).
Proof. intros Hst Hlt. by destruct (byte_step (scanner st) Hst Hlt) as (c & _ & _ & Hon & _). Qed.

Lemma streamAccounts_total st : scan_inv (scanner st) → totalAt st ((streamAccounts unmarshalAccounts fn : Str unit) st).
Proof.
  apply peek_then_total. intros c st1 H1 Hlt. case_decide; [by apply advance_total|]. rewrite run_get.
  apply accountsLoop_total; [done|unfold fuelOf; lia].
Qed.

Lemma expect_total f want st :
  (∀ e : stream_err RPCError Callback, isStuck e = false → isStuck (f e) = false) →
  scan_inv (scanner st) → totalAt st ((wrap f (scan (expect want)) : Str unit) st).
Proof. intros Hf. eapply sim_total, sim_wrap; [done|apply sim_expect]. Qed.

Lemma onInner_total key st : scan_inv (scanner st) → totalAt st ((onInner unmarshalAccounts unmarshalContext fn key : Str unit) st).
Proof.
  intros Hst. unfold onInner. case_decide; [|case_decide; [|by apply skip_total]].
  - apply totalAt_bind; [by apply (sim_total _ _ _ sim_value)|]. intros raw st1 _ H1.
    destruct (unmarshalContext raw); [|done]. by apply onward_refl, H1.
  - apply totalAt_bind; [by apply expect_total|]. intros [] st1 _ H1. apply streamAccounts_total, H1.
Qed.

(** The code's way to read a key returns the key's bytes or others. *)
Lemma memberKey_total (st : stream Account Context) :
  scan_inv (scanner st) → 1 ≤ pos (scanner st) → totalAt st ((scan memberKey : Str bytes) st).
Proof.
  intros Hst Hp. pose proof (simAt_total _ _ _ (sim_copyKey (RPCError:=RPCError) (Callback:=Callback) st Hst Hp)) as H. revert H.
  unfold totalAt, scan, copyKey, keyText, memberKey, mbind, gom_bind. destruct (scanStringRest (scanner st)) as [[v|e|] s1]; [|done..].
  unfold viewed, get, mret, gom_ret, mbind, gom_bind. by destruct (expect 58 s1) as [[[]|e|] s2].
Qed.

Context (readKey : GoM jsonScanner (stream_err RPCError Callback) bytes).
Context (Hread : ∀ st : stream Account Context, scan_inv (scanner st) → 1 ≤ pos (scanner st) → totalAt st ((scan readKey : Str bytes) st)).

Lemma forEachKey_total (handle : bytes → Str unit) st :
  (∀ key st, scan_inv (scanner st) → totalAt st (handle key st)) → scan_inv (scanner st) → totalAt st (forEachKey readKey handle st).
Proof. intros Hh Hst. unfold forEachKey. rewrite run_get. apply keyLoop_total; [done|done|done|unfold fuelOf; lia]. Qed.

Lemma onKey_total key st :
  scan_inv (scanner st) → totalAt st ((onKey unmarshalAccounts unmarshalContext unmarshalError fn readKey key : Str unit) st).
Proof.
  intros Hst. unfold onKey. case_decide; [|case_decide; [|by apply skip_total]].
  - apply totalAt_bind; [by apply (sim_total _ _ _ sim_value)|]. intros raw st1 _ H1. by destruct (unmarshalError raw).
  - revert Hst. apply peek_then_total. intros c st1 H1 Hlt.
    case_decide; [|case_decide; [|by apply skip_total]]; (apply totalAt_bind; [by apply advance_total|]); intros [] st2 _ Hon.
    + apply streamAccounts_total, Hon.
    + apply forEachKey_total; [apply onInner_total|apply Hon].
Qed.
End total.

(** ** Keys that stay as they were read *)

(** [m] runs as [m'] does, unless it stops with [stuck]. *)
Definition unlessStuck {S E C A} (m m' : GoM S (stream_err E C) A) : Prop := ∀ s, (m s).1 = Err stuck ∨ m s = m' s.

Lemma unless_refl {S E C A} (m : GoM S (stream_err E C) A) : unlessStuck m m.
Proof. by right. Qed.
Lemma unless_bind {S E C A B} (m m' : GoM S (stream_err E C) A) (f f' : A → GoM S (stream_err E C) B) :
  unlessStuck m m' → (∀ x, unlessStuck (f x) (f' x)) → unlessStuck (m ≫= f) (m' ≫= f').
Proof.
  intros Hm Hf s. unfold mbind, gom_bind. destruct (Hm s) as [H|<-].
  - left. destruct (m s) as [[x|e|] s']; [done| |done]. by injection H as ->.
  - destruct (m s) as [[x|e|] s']; [apply Hf|by right..].
Qed.
Lemma unless_if {S E C A} (P : Prop) `{Decision P} (m1 m2 m1' m2' : GoM S (stream_err E C) A) :
  unlessStuck m1 m1' → unlessStuck m2 m2' → unlessStuck (if decide P then m1 else m2) (if decide P then m1' else m2').
Proof. intros. by case_decide. Qed.
Lemma unless_get {S E C A} (f f' : S → GoM S (stream_err E C) A) : (∀ s, unlessStuck (f s) (f' s)) → unlessStuck (get ≫= f) (get ≫= f').
Proof. intros Hf s. apply (Hf s s). Qed.

(** [intactKey] runs as either way of reading a key, unless the key was overwritten. *)
Lemma intact_run {E C} (s : jsonScanner) :
  (∃ key s', (intactKey : GoM _ (stream_err E C) _) s = (Ok key, s') ∧ copyKey (RPCError:=E) (Callback:=C) s = (Ok key, s') ∧ memberKey (RPCError:=E) (Callback:=C) s = (Ok key, s')) ∨
  (intactKey (RPCError:=E) (Callback:=C) s).1 = Err stuck ∨
  (intactKey (RPCError:=E) (Callback:=C) s = copyKey s ∧ intactKey (RPCError:=E) (Callback:=C) s = memberKey s).
Proof.
  unfold intactKey, copyKey, keyText, memberKey, mbind, gom_bind. destruct (scanStringRest s) as [[v|e|] s1]; [|by auto..].
  unfold viewed, get, mret, gom_ret, mbind, gom_bind. destruct (expect 58 s1) as [[[]|e|] s2]; [|by auto..].
  case_decide as Heq; [|by auto]. left. rewrite Heq. eauto.
Qed.
Lemma intact_copy {E C} : unlessStuck (E:=E) (C:=C) intactKey copyKey.
Proof. intros s. destruct (intact_run (E:=E) (C:=C) s) as [(key & s' & -> & -> & _)|[H|[H _]]]; auto. Qed.
Lemma intact_member {E C} : unlessStuck (E:=E) (C:=C) intactKey memberKey.
Proof. intros s. destruct (intact_run (E:=E) (C:=C) s) as [(key & s' & -> & _ & ->)|[H|[_ H]]]; auto. Qed.

Section unless.
Context {Account Context RPCError Callback : Type}.
Context (unmarshalAccounts : bytes → option (list Account)) (unmarshalContext : bytes → option Context)
  (unmarshalError : bytes → option RPCError) (fn : list Account → Account → option Callback).
Abbreviation Str := (GoM (stream Account Context) (stream_err RPCError Callback)) (only parsing).
Context (k k' : GoM jsonScanner (stream_err RPCError Callback) bytes) (Hk : unlessStuck k k').

Lemma unless_scan {A} (m m' : GoM jsonScanner (stream_err RPCError Callback) A) :
  unlessStuck m m' → unlessStuck (scan m : Str A) (scan m').
Proof. intros Hm st. unfold scan. destruct (Hm (scanner st)) as [H|<-]; [left|by right]. by destruct (m (scanner st)). Qed.

Lemma unless_keyLoop fuel first (handle handle' : bytes → Str unit) :
  (∀ key, unlessStuck (handle key) (handle' key)) → unlessStuck (keyLoop k fuel first handle) (keyLoop k' fuel first handle').
Proof.
  intros Hh. revert first. induction fuel as [|fuel IH]; intros first; cbn [keyLoop]; [apply unless_refl|].
  apply unless_bind; [apply unless_refl|]. intros c. apply unless_if; [apply unless_refl|].
  apply unless_bind; [apply unless_refl|]. intros d. apply unless_if; [|apply unless_refl].
  apply unless_bind; [by apply unless_scan|]. intros key. apply unless_bind; [apply Hh|]. intros []. apply IH.
Qed.
Lemma unless_forEachKey (handle handle' : bytes → Str unit) :
  (∀ key, unlessStuck (handle key) (handle' key)) → unlessStuck (forEachKey k handle) (forEachKey k' handle').
Proof. intros Hh. apply unless_get. intros st. by apply unless_keyLoop. Qed.
Lemma unless_onKey key :
  unlessStuck (onKey unmarshalAccounts unmarshalContext unmarshalError fn k key) (onKey unmarshalAccounts unmarshalContext unmarshalError fn k' key).
Proof.
  unfold onKey. apply unless_if; [apply unless_refl|]. apply unless_if; [|apply unless_refl].
  apply unless_bind; [apply unless_refl|]. intros c. apply unless_if; [apply unless_refl|]. apply unless_if; [|apply unless_refl].
  apply unless_bind; [apply unless_refl|]. intros []. apply unless_forEachKey. intros inner. apply unless_refl.
Qed.
Lemma unless_stream r :
  (streamWith unmarshalAccounts unmarshalContext unmarshalError fn k r).1 = Err stuck ∨
  streamWith unmarshalAccounts unmarshalContext unmarshalError fn k r = streamWith unmarshalAccounts unmarshalContext unmarshalError fn k' r.
Proof.
  assert (unlessStuck (streamBody unmarshalAccounts unmarshalContext unmarshalError fn k) (streamBody unmarshalAccounts unmarshalContext unmarshalError fn k')) as H.
  { apply unless_bind; [apply unless_refl|]. intros []. apply unless_bind; [|intros []; apply unless_refl]. apply unless_forEachKey, unless_onKey. }
  unfold streamWith. destruct (H (mkStream (newScanner r) [] None)) as [Hs|<-]; [left|by right].
  by destruct (streamBody _ _ _ _ k _) as [o st].
Qed.

(** Every key of the response still shows its bytes when the code compares it: no
    read that falls between the closing quote of a key and its colon overwrites
    the key with other bytes. *)
Definition keysIntact (r : Reader) : Prop := (streamWith unmarshalAccounts unmarshalContext unmarshalError fn intactKey r).1 ≠ Err stuck.
End unless.

(** The whole of the code against the reference. *)
Lemma stream_run {Account Context RPCError Callback}
    (unmarshalAccounts : bytes → option (list Account)) (unmarshalContext : bytes → option Context)
    (unmarshalError : bytes → option RPCError) (unmarshalAccount : bytes → option Account)
    (fn : list Account → Account → option Callback) r :
  ArrayDecoder unmarshalAccounts unmarshalAccount → readable r → keysIntact unmarshalAccounts unmarshalContext unmarshalError fn r →
  match reference unmarshalAccount unmarshalContext fn (concat (chunks r)) with
  | Ok (c, accounts) => StreamProgramAccounts unmarshalAccounts unmarshalContext unmarshalError fn r = (Ok c, accounts)
  | Err e => e = EmptyElement ∨ ∃ err, (StreamProgramAccounts unmarshalAccounts unmarshalContext unmarshalError fn r).1 = Err err
  | Panic => False
  end.
Proof.
  intros Hdec Hr Hkeys. assert (StreamProgramAccounts unmarshalAccounts unmarshalContext unmarshalError fn r =
    streamWith unmarshalAccounts unmarshalContext unmarshalError fn copyKey r) as ->.
  { unfold StreamProgramAccounts.
    destruct (unless_stream unmarshalAccounts unmarshalContext unmarshalError fn _ _ intact_member r) as [?|<-]; [done|].
    by destruct (unless_stream unmarshalAccounts unmarshalContext unmarshalError fn _ _ intact_copy r) as [?|<-]. }
  set (st := mkStream (newScanner r) [] None : stream Account Context).
  pose proof (body_strong unmarshalAccounts unmarshalContext unmarshalError unmarshalAccount fn st (newScanner_inv r)) as [Htot H].
  rewrite streamBody_run. cbv zeta. fold st. unfold reference. change (mkRef (concat (chunks r)) [] None) with (set_rest (concat (chunks r)) (abs st)).
  replace (set_rest (concat (chunks r)) (abs st)) with (abs st)
    by (unfold abs, set_rest; cbn; by rewrite newScanner_unread, live_readable).
  destruct ((_ ← wrap errEnvelope (scan (expect 123)); _) st) as [[[]|e|] st1]; [| |done].
  - destruct H as [->|(e' & H & He)]; [done|]. destruct ((_ ← rexpect 123; _) (abs st)) as [[[]|e|] t]; try done. injection H as ->. left. by apply He.
  - destruct H as (e' & H). destruct ((_ ← rexpect 123; _) (abs st)) as [[[]|e1|] t]; try done. right. by exists e.
Qed.

(** * Properties *)



(** C27. Decoding a stream always ends, and never panics: whatever bytes the reader
    delivers and however it cuts them, whatever error it ends with, and whatever
    the JSON decoder and the callback do, no loop of the scanner runs out of
    turns and no index leaves the buffer. *)
Theorem stream_terminates {Account Context RPCError Callback}
    (unmarshalAccounts : bytes → option (list Account)) (unmarshalContext : bytes → option Context)
    (unmarshalError : bytes → option RPCError) (fn : list Account → Account → option Callback) r :
  match (StreamProgramAccounts unmarshalAccounts unmarshalContext unmarshalError fn r).1 with
  | Ok _ => True
  | Err e => isStuck e = false
  | Panic => False
  end.
Proof.
  unfold StreamProgramAccounts. rewrite streamBody_run. cbv zeta. set (st := mkStream (newScanner r) [] None : stream Account Context).
  assert (totalAt st ((_ ← wrap errEnvelope (scan (expect 123));
    forEachKey memberKey (onKey unmarshalAccounts unmarshalContext unmarshalError fn memberKey)) st)) as H.
  { apply totalAt_bind; [apply expect_total; [done|apply newScanner_inv]|]. intros [] st1 _ H1.
    apply forEachKey_total; [apply memberKey_total|apply onKey_total, memberKey_total|apply H1]. }
  unfold totalAt in H. by destruct ((_ ← wrap errEnvelope (scan (expect 123)); _) st) as [[[]|e|] st1].
Qed.
