(* ===== verification/StreamResponse.v ===== *)
(** StreamResponse: the streaming decoder on well-formed getProgramAccounts
    responses, on one that is cut between a key and its colon, and on two
    malformed ones. *)
From Stdlib Require Import ZArith Lia.
From stdpp Require Import base numbers strings list.
From S2P Require Import Prelude Stream StreamSpec.

Open Scope Z_scope.

(** * JSON texts *)

(** A value's text: it starts with no space, and is cut before any separator. *)
Definition value_text (raw : bytes) : Prop :=
  (∃ c u, raw = c :: u ∧ isJSONSpace c = false) ∧
  ∀ c v, c = 44 ∨ c = 93 ∨ c = 125 → cut 0 false false (raw ++ c :: v) = Some (raw, c :: v).
(** A key's text: no quote in it but escaped ones. *)
Definition key_text (k : bytes) : Prop := ∀ v, cutString false (k ++ 34 :: v) = Some (k, v).

(** JSON values; strings and primitive tokens as they are spelled. *)
Inductive json :=
  | JPrim (tok : bytes)
  | JStr (s : bytes)
  | JArr (xs : list json)
  | JObj (ms : list (bytes * json)).

Definition sep (xs : list bytes) : bytes :=
  match xs with [] => [] | x :: xs => x ++ concat ((λ y, 44 :: y) <$> xs) end.

Fixpoint print (v : json) : bytes :=
  match v with
  | JPrim tok => tok
  | JStr s => 34 :: s ++ [34]
  | JArr xs => 91 :: sep (print <$> xs) ++ [93]
  | JObj ms => 123 :: sep ((λ m, 34 :: m.1 ++ [34; 58] ++ print m.2) <$> ms) ++ [125]
  end.

(** A token of a number, [true], [false] or [null]: no delimiter, quote or space. *)
Definition plain (c : Z) : bool := negb (bool_decide (c ∈ [34; 44; 91; 93; 123; 125; 32; 9; 10; 13])).
(** A string's contents: every quote and backslash escaped. *)
Fixpoint contents (escaped : bool) (s : bytes) : bool :=
  match s with
  | [] => negb escaped
  | c :: s => if escaped then contents false s
              else if decide (c = 92) then contents true s
              else if decide (c = 34) then false else contents false s
  end.
Fixpoint wf (v : json) : bool :=
  match v with
  | JPrim tok => bool_decide (tok ≠ []) && forallb plain tok
  | JStr s => contents false s
  | JArr xs => forallb wf xs
  | JObj ms => forallb (λ m, contents false m.1 && wf m.2) ms
  end.

(** ** Printed values are cut where they end *)

Section json_ind.
Context (P : json → Prop) (Hprim : ∀ tok, P (JPrim tok)) (Hstr : ∀ s, P (JStr s))
  (Harr : ∀ xs, Forall P xs → P (JArr xs)) (Hobj : ∀ ms, Forall (λ m, P m.2) ms → P (JObj ms)).
Fixpoint json_induction (v : json) : P v :=
  match v with
  | JPrim tok => Hprim tok
  | JStr s => Hstr s
  | JArr xs => Harr xs ((fix go xs := match xs return Forall P xs with
                          | [] => Forall_nil_2 _ | x :: xs => Forall_cons_2 _ _ _ (json_induction x) (go xs) end) xs)
  | JObj ms => Hobj ms ((fix go ms := match ms return Forall (λ m, P m.2) ms with
                          | [] => Forall_nil_2 _ | m :: ms => Forall_cons_2 _ _ _ (json_induction m.2) (go ms) end) ms)
  end.
End json_ind.

Definition prepend (bs : bytes) (o : option (bytes * bytes)) : option (bytes * bytes) :=
  match o with Some (raw, rest) => Some (bs ++ raw, rest) | None => None end.
Lemma prepend_app bs cs o : prepend (bs ++ cs) o = prepend bs (prepend cs o).
Proof. destruct o as [[]|]; [|done]. cbn. by rewrite app_assoc. Qed.
Lemma push_prepend c bs o : push c (prepend bs o) = prepend (c :: bs) o.
Proof. by destruct o as [[]|]. Qed.
Lemma prepend_nil o : prepend [] o = o.
Proof. by destruct o as [[]|]. Qed.
Lemma push_one c o : push c o = prepend [c] o.
Proof. by destruct o as [[]|]. Qed.

Lemma cut_contents d e s u : contents e s = true → cut d true e (s ++ 34 :: u) = prepend s (cut d true false (34 :: u)).
Proof.
  revert e. induction s as [|c s IH]; intros e Hs; cbn [contents] in Hs.
  { destruct e; [done|]. by rewrite prepend_nil. }
  cbn [cut app]. destruct e; [by rewrite (IH false), push_prepend|]. destruct (decide (c = 92)); [by rewrite (IH true), push_prepend|].
  destruct (decide (c = 34)); [done|]. by rewrite (IH false), push_prepend.
Qed.

Lemma cutString_contents e s u : contents e s = true → cutString e (s ++ 34 :: u) = Some (s, u).
Proof.
  revert e. induction s as [|c s IH]; intros e Hs; cbn [contents] in Hs.
  { by destruct e. }
  cbn [cutString app]. destruct e; [by rewrite (IH false)|]. destruct (decide (c = 92)); [by rewrite (IH true)|].
  destruct (decide (c = 34)); [done|]. by rewrite (IH false).
Qed.

Lemma plain_spec c : plain c = true → c ∉ [34; 44; 91; 93; 123; 125; 32; 9; 10; 13].
Proof. unfold plain. by intros H%negb_true_iff%bool_decide_eq_false. Qed.

Lemma cut_plain d tok u : forallb plain tok = true → cut d false false (tok ++ u) = prepend tok (cut d false false u).
Proof.
  induction tok as [|c tok IH]; intros Ht; [by rewrite prepend_nil|]. cbn [forallb] in Ht. apply andb_true_iff in Ht as [Hc Ht].
  apply plain_spec in Hc. rewrite !not_elem_of_cons in Hc. destruct_and? Hc.
  cbn [cut app]. rewrite !decide_False by naive_solver. by rewrite IH, push_prepend.
Qed.

Lemma cut_quote d u : cut d true false (34 :: u) = if decide (d = 0) then Some ([34], u) else push 34 (cut d false false u).
Proof. done. Qed.
Lemma cut_quoted d s u : d ≠ 0 → contents false s = true → cut d false false (34 :: s ++ 34 :: u) = prepend (34 :: s ++ [34]) (cut d false false u).
Proof.
  intros Hd Hs. change (cut d false false (34 :: s ++ 34 :: u)) with (push 34 (cut d true false (s ++ 34 :: u))).
  rewrite cut_contents, cut_quote, decide_False by done. by rewrite push_prepend, push_one, app_comm_cons, <- prepend_app.
Qed.

Lemma cut_open d c u : c = 123 ∨ c = 91 → cut d false false (c :: u) = push c (cut (d + 1) false false u).
Proof. by intros [-> | ->]. Qed.
Lemma cut_close d c u : d ≠ 0 → d - 1 ≠ 0 → c = 125 ∨ c = 93 → cut d false false (c :: u) = push c (cut (d - 1) false false u).
Proof. intros Hd Hd1 [-> | ->]; cbn; destruct (decide (d = 0)); try done; by destruct (decide (d - 1 = 0)). Qed.
Lemma cut_last d c u : d = 1 → c = 125 ∨ c = 93 → cut d false false (c :: u) = Some ([c], u).
Proof. by intros -> [-> | ->]. Qed.
Lemma cut_comma d u : d ≠ 0 → cut d false false (44 :: u) = push 44 (cut d false false u).
Proof. intros. cbn. by destruct (decide (d = 0)). Qed.
Lemma cut_colon d u : cut d false false (58 :: u) = push 58 (cut d false false u).
Proof. done. Qed.

(** Texts that a scan at depth [d] passes over. *)
Definition passed (d : Z) (bs : bytes) : Prop := ∀ u, cut d false false (bs ++ u) = prepend bs (cut d false false u).

Lemma passed_app d bs cs : passed d bs → passed d cs → passed d (bs ++ cs).
Proof. intros Hb Hc u. by rewrite <- app_assoc, Hb, Hc, prepend_app. Qed.

Lemma passed_sep d xs : d ≠ 0 → Forall (passed d) xs → passed d (sep xs).
Proof.
  intros Hd Hxs. destruct Hxs as [|x xs Hx Hxs]; [intros u; by rewrite prepend_nil|]. cbn [sep]. apply passed_app; [done|].
  induction Hxs as [|y xs Hy _ IH]; [intros u; by rewrite prepend_nil|]. cbn [fmap list_fmap concat].
  apply passed_app; [|done]. intros u. cbn [app]. by rewrite cut_comma, Hy, push_prepend.
Qed.

Lemma passed_brackets d o c bs :
  d ≠ 0 → d + 1 ≠ 0 → o = 123 ∨ o = 91 → c = 125 ∨ c = 93 → passed (d + 1) bs → passed d (o :: bs ++ [c]).
Proof.
  intros Hd Hd1 Ho Hc Hbs u. cbn [app]. rewrite cut_open, <- app_assoc, Hbs by done. cbn [app]. rewrite cut_close by (done || lia).
  replace (d + 1 - 1) with d by lia. by rewrite push_prepend, push_one, <- prepend_app.
Qed.

Lemma passed_member d k v : d ≠ 0 → contents false k = true → passed d v → passed d (34 :: k ++ [34; 58] ++ v).
Proof.
  intros Hd Hk Hv u. replace ((34 :: k ++ [34; 58] ++ v) ++ u) with (34 :: k ++ 34 :: (58 :: v ++ u)) by (cbn; by rewrite <- app_assoc).
  rewrite cut_quoted, cut_colon, Hv, push_prepend, <- prepend_app by done. f_equal. cbn. by rewrite <- app_assoc.
Qed.

Lemma print_passed v d : wf v = true → 0 < d → passed d (print v).
Proof.
  revert d. induction v as [tok|s|xs IH|ms IH] using json_induction; intros d Hwf Hd; cbn [wf print] in *.
  - apply andb_true_iff in Hwf as [_ Hp]. intros u. by apply cut_plain.
  - intros u. replace ((34 :: s ++ [34]) ++ u) with (34 :: s ++ 34 :: u) by (cbn; by rewrite <- app_assoc). apply cut_quoted; [lia|done].
  - apply passed_brackets; [lia|lia|auto|auto|]. apply passed_sep; [lia|]. apply Forall_fmap.
    induction IH as [|x xs Hx _ IHxs]; [constructor|]. cbn [forallb] in Hwf. apply andb_true_iff in Hwf as [? ?]. constructor; [apply Hx; [done|lia]|auto].
  - apply passed_brackets; [lia|lia|auto|auto|]. apply passed_sep; [lia|]. apply Forall_fmap.
    induction IH as [|[k x] ms Hx _ IHms]; [constructor|]. cbn [forallb] in Hwf. apply andb_true_iff in Hwf as [Hm ?]. cbn in Hm, Hx.
    apply andb_true_iff in Hm as [? ?]. constructor; [apply passed_member; [lia|done|apply Hx; [done|lia]]|auto].
Qed.

Lemma brackets_text o c bs : o = 123 ∨ o = 91 → c = 125 ∨ c = 93 → passed 1 bs → value_text (o :: bs ++ [c]).
Proof.
  intros Ho Hc Hbs. split; [eexists _, _; split; [done|]; by destruct Ho as [-> | ->]|]. intros e v _.
  cbn [app]. rewrite cut_open, <- app_assoc, Hbs by done. cbn [app]. rewrite cut_last by done. cbn. done.
Qed.

Lemma print_text v : wf v = true → value_text (print v).
Proof.
  destruct v as [tok|s|xs|ms]; intros Hwf; cbn [wf print] in *.
  - apply andb_true_iff in Hwf as [Hne Hp]. apply bool_decide_eq_true in Hne. split.
    + destruct tok as [|c tok]; [done|]. eexists _, _. split; [done|]. cbn [forallb] in Hp. apply andb_true_iff in Hp as [Hc%plain_spec _].
      rewrite !not_elem_of_cons in Hc. unfold isJSONSpace. apply bool_decide_eq_false. naive_solver.
    + intros c v Hc. rewrite cut_plain by done. assert (cut 0 false false (c :: v) = Some ([], c :: v)) as -> by (by destruct Hc as [->|[->| ->]]).
      cbn. by rewrite app_nil_r.
  - split; [by eexists _, _|]. intros c v _. replace ((34 :: s ++ [34]) ++ c :: v) with (34 :: s ++ 34 :: c :: v) by (cbn; by rewrite <- app_assoc).
    change (cut 0 false false (34 :: s ++ 34 :: c :: v)) with (push 34 (cut 0 true false (s ++ 34 :: c :: v))).
    rewrite cut_contents, cut_quote by done. done.
  - apply brackets_text; [auto|auto|]. apply passed_sep; [done|]. apply Forall_fmap, Forall_forall. intros x Hx. apply print_passed; [|done].
    rewrite forallb_forall in Hwf. by apply Hwf, list_elem_of_In.
  - apply brackets_text; [auto|auto|]. apply passed_sep; [done|]. apply Forall_fmap, Forall_forall. intros [k x] Hx.
    rewrite forallb_forall in Hwf. apply list_elem_of_In, Hwf, andb_true_iff in Hx as [? ?]. apply passed_member; [done|done|]. by apply print_passed.
Qed.

(** * Responses *)

(** A response: an object whose members are the accounts, with or without their
    context, and any others; [w] is white space. *)
Inductive entry :=
  | Other (key : bytes) (v : json)
  | Accounts (vs : list json)
  | WithContext (context : json) (vs : list json).

Section text.
Context (w : bytes).
Definition arrayText (vs : list json) : bytes := 91 :: sep ((λ v, w ++ print v) <$> vs) ++ [93].
Definition memberText (m : bytes * bytes) : bytes := w ++ 34 :: m.1 ++ [34; 58] ++ w ++ m.2.
Definition objectText (ms : list (bytes * bytes)) : bytes := 123 :: sep (memberText <$> ms) ++ [125].
Definition memberOf (m : entry) : bytes * bytes :=
  match m with
  | Other key v => (key, print v)
  | Accounts vs => (str "result", arrayText vs)
  | WithContext c vs => (str "result", objectText [(str "context", print c); (str "value", arrayText vs)])
  end.
Definition responseText (ms : list entry) : bytes := w ++ objectText (memberOf <$> ms).
End text.

Definition member_wf (m : entry) : bool :=
  match m with
  | Other key v => contents false key && bool_decide (key ∉ [str "error"; str "result"]) && wf v
  | Accounts vs => forallb wf vs
  | WithContext c vs => wf c && forallb wf vs
  end.

(** What a response holds. *)
Definition accountsOf (ms : list entry) : list json :=
  ms ≫= λ m, match m with Other _ _ => [] | Accounts vs | WithContext _ vs => vs end.
Definition contextOf (ms : list entry) : option json :=
  foldl (λ o m, match m with WithContext c _ => Some c | _ => o end) None ms.

(** * The reference on a response *)

Section reads.
Context {Account Context Callback : Type}.
Context (unmarshalAccount : bytes → option Account) (unmarshalContext : bytes → option Context).
Context (fn : list Account → Account → option Callback) (Hfn : ∀ dl a, fn dl a = None).
Context (w : bytes) (Hw : Forall (λ c, isJSONSpace c = true) w).
Abbreviation Ref := (GoM (@rstream Account Context) ref_err) (only parsing).

Lemma skip_spaces w' u : Forall (λ c, isJSONSpace c = true) w' → skipSpace (w' ++ u) = skipSpace u.
Proof. induction 1 as [|c w' Hc _ IH]; [done|]. cbn. by rewrite Hc. Qed.

Lemma rnext_text w' c u (t : @rstream Account Context) :
  Forall (λ c, isJSONSpace c = true) w' → isJSONSpace c = false → rest t = w' ++ c :: u → rnext t = (Ok c, set_rest u t).
Proof. intros Hw' Hc Hr. unfold rnext. rewrite Hr, skip_spaces by done. cbn. by rewrite Hc. Qed.
Lemma rpeek_text w' c u (t : @rstream Account Context) :
  Forall (λ c, isJSONSpace c = true) w' → isJSONSpace c = false → rest t = w' ++ c :: u → rpeek t = (Ok c, set_rest (c :: u) t).
Proof. intros Hw' Hc Hr. unfold rpeek. rewrite Hr, skip_spaces by done. cbn. by rewrite Hc. Qed.

Lemma rvalue_text w' raw c u (t : @rstream Account Context) :
  Forall (λ c, isJSONSpace c = true) w' → value_text raw → c = 44 ∨ c = 93 ∨ c = 125 → rest t = w' ++ raw ++ c :: u →
  rvalue t = (Ok raw, set_rest (c :: u) t).
Proof.
  intros Hw' [(d & v & -> & Hd) Hcut] Hc Hr. unfold rvalue. rewrite Hr, skip_spaces by done.
  assert (skipSpace ((d :: v) ++ c :: u) = (d :: v) ++ c :: u) as -> by (cbn; by rewrite Hd). by rewrite Hcut.
Qed.

Lemma raccountsLoop_text vs v as_ fuel w' tl (t : @rstream Account Context) :
  Forall (λ c, isJSONSpace c = true) w' → wf v = true → forallb wf vs = true → (length vs < fuel)%nat →
  mapM (λ v, unmarshalAccount (print v)) (v :: vs) = Some as_ →
  rest t = w' ++ print v ++ concat ((λ y, 44 :: y) <$> ((λ v, w ++ print v) <$> vs)) ++ 93 :: tl →
  raccountsLoop unmarshalAccount fn fuel t = (Ok tt, mkRef tl (rdelivered t ++ as_) (rctx t)).
Proof.
  revert v as_ fuel w' t. induction vs as [|v2 vs IH]; intros v as_ fuel w' t Hw' Hv Hvs Hf Has Hr;
    (destruct fuel as [|fuel]; [cbn in *; lia|]); cbn [mapM] in Has; destruct (unmarshalAccount (print v)) as [a|] eqn:Ea; try done; cbn in Has.
  all: pose proof (print_text v Hv) as Hvt; assert (print v ≠ []) as Hne by (destruct Hvt as [(? & ? & -> & _) _]; done).
  all: assert (∀ t : @rstream Account Context, rdeliver unmarshalAccount fn (print v) t = (Ok tt, mkRef (rest t) (rdelivered t ++ [a]) (rctx t))) as Hdel
    by (intros t0; unfold rdeliver; rewrite decide_False, Ea, run_get, run_modify, Hfn by done; done).
  all: cbn [raccountsLoop].
  - injection Has as <-. erewrite run_bind by (eapply (rvalue_text w' (print v) 93 tl); [done|done|auto|exact Hr]).
    erewrite run_bind by apply Hdel. erewrite run_bind by (by apply (rnext_text [] 93 tl)). done.
  - cbn [forallb] in Hvs. apply andb_true_iff in Hvs as [Hv2 Hvs].
    destruct (mapM (λ v, unmarshalAccount (print v)) (v2 :: vs)) as [as2|] eqn:E2; [|by cbn in E2; rewrite E2 in Has].
    cbn in E2. rewrite E2 in Has. cbn in Has. injection Has as <-. cbn [fmap list_fmap concat app] in Hr.
    erewrite run_bind by (eapply (rvalue_text w' (print v) 44); [done|done|auto|exact Hr]).
    erewrite run_bind by apply Hdel. erewrite run_bind by (by eapply (rnext_text [] 44)).
    rewrite decide_False, decide_True by done. rewrite (IH v2 as2 fuel w) ; [|done|done|done|cbn in *; lia|done|].
    + cbn. by rewrite <- app_assoc.
    + cbn [set_rest rest]. by rewrite <- !app_assoc.
Qed.

Lemma rstreamAccounts_text vs as_ tl (t : @rstream Account Context) :
  forallb wf vs = true → mapM (λ v, unmarshalAccount (print v)) vs = Some as_ →
  rest t = sep ((λ v, w ++ print v) <$> vs) ++ 93 :: tl →
  rstreamAccounts unmarshalAccount fn t = (Ok tt, mkRef tl (rdelivered t ++ as_) (rctx t)).
Proof.
  intros Hvs Has Hr. unfold rstreamAccounts. destruct vs as [|v vs]; cbn [fmap list_fmap sep app] in Hr.
  - injection Has as <-. erewrite run_bind by (by apply (rpeek_text [] 93 tl)). rewrite decide_True by done.
    erewrite run_bind by (by apply (rnext_text [] 93 tl)). cbn. by rewrite app_nil_r.
  - cbn [forallb] in Hvs. apply andb_true_iff in Hvs as [Hv Hvs]. pose proof (print_text v Hv) as [(c & u & Hc & Hsp) Hcut].
    rewrite <- !app_assoc in Hr. erewrite run_bind by (eapply (rpeek_text w c); [done|done|rewrite Hr, Hc; reflexivity]).
    rewrite decide_False, run_get.
    + erewrite (raccountsLoop_text vs v as_ _ [] tl); [reflexivity|constructor|done|done| |done|].
      * cbn [set_rest rest length]. rewrite !length_app. pose proof (length_concat_cons ((λ v, w ++ print v) <$> vs)) as Hl.
        rewrite length_fmap in Hl. lia.
      * cbn [set_rest rest]. by rewrite Hc.
    + intros ->. specialize (Hcut 93 [] ltac:(auto)). rewrite Hc in Hcut. done.
Qed.

(** An object whose members a handler consumes one by one. *)
Definition pack (u : bytes) (p : list Account * option Context) : rstream := mkRef u p.1 p.2.

Section object.
Context {X : Type} (text : X → bytes * bytes) (handle : bytes → Ref unit).
Context (effect : list Account * option Context → X → list Account * option Context) (ok : X → Prop).
Context (Hkey : ∀ x, ok x → contents false (text x).1 = true).
Context (Hhandle : ∀ x p c u, ok x → c = 44 ∨ c = 125 →
  handle (text x).1 (pack (w ++ (text x).2 ++ c :: u) p) = (Ok tt, pack (c :: u) (effect p x))).

Definition membersText (first : bool) (xs : list X) : bytes :=
  if first then sep (memberText w <$> (text <$> xs)) else concat ((λ y, 44 :: y) <$> (memberText w <$> (text <$> xs))).

(** From a member's opening quote on. *)
Lemma member_text x fuel c u p :
  ok x → c = 44 ∨ c = 125 →
  (key ← rkey; _ ← handle key; rkeyLoop fuel false handle) (pack ((text x).1 ++ [34; 58] ++ w ++ (text x).2 ++ c :: u) p) =
  rkeyLoop fuel false handle (pack (c :: u) (effect p x)).
Proof.
  intros Hx Hc. erewrite run_bind.
  2: { unfold rkey. erewrite run_bind.
       2: { unfold rstring. cbn [pack rest app]. rewrite cutString_contents by (by apply Hkey). reflexivity. }
       erewrite run_bind. 2: { unfold rexpect. erewrite run_bind by (by eapply (rnext_text [] 58)). by rewrite decide_True. }
       reflexivity. }
  erewrite run_bind by (by apply (Hhandle x p c u)). done.
Qed.

Lemma rkeyLoop_text xs fuel first u p :
  Forall ok xs → (length xs < fuel)%nat →
  rkeyLoop fuel first handle (pack (membersText first xs ++ 125 :: u) p) = (Ok tt, pack u (foldl effect p xs)).
Proof.
  intros Hxs. revert fuel first p. induction Hxs as [|x xs Hx Hxs IH]; intros fuel first p Hf; (destruct fuel as [|fuel]; [cbn in Hf; lia|]); cbn [rkeyLoop].
  - erewrite run_bind by (eapply (rnext_text [] 125 u); [constructor|done|by destruct first]). done.
  - assert (∃ c v, membersText false xs ++ 125 :: u = c :: v ∧ (c = 44 ∨ c = 125)) as (c & v & Htl & Hc).
    { destruct xs as [|y xs]; [by eexists _, _; split; [done|auto]|]. eexists _, _. split; [done|auto]. }
    assert (rkeyLoop fuel false handle (pack (c :: v) (effect p x)) = (Ok tt, pack u (foldl effect p (x :: xs)))) as Hgo.
    { rewrite <- Htl. cbn [foldl]. apply IH. cbn in Hf. lia. }
    assert (membersText first (x :: xs) ++ 125 :: u =
      (if first then [] else [44]) ++ w ++ 34 :: (text x).1 ++ [34; 58] ++ w ++ (text x).2 ++ c :: v) as ->.
    { rewrite <- Htl. unfold membersText, memberText. cbn [fmap list_fmap sep concat]. destruct first; cbn; by rewrite <- ?app_assoc; cbn; rewrite <- ?app_assoc; cbn; rewrite <- ?app_assoc. }
    destruct first; cbn [app].
    + erewrite run_bind by (by eapply (rnext_text w 34)). rewrite decide_False by done. change (mret 34 ≫= ?f) with (f 34). cbv beta.
      rewrite decide_True by done. etransitivity; [exact (member_text x fuel c v p Hx Hc)|exact Hgo].
    + erewrite run_bind by (by eapply (rnext_text [] 44)). rewrite decide_False, decide_True by done.
      erewrite run_bind by (by eapply (rnext_text w 34)). rewrite decide_True by done.
      etransitivity; [exact (member_text x fuel c v p Hx Hc)|exact Hgo].
Qed.
End object.

Lemma membersText_length {X} (text : X → bytes * bytes) xs : (length xs ≤ length (membersText text true xs))%nat.
Proof.
  destruct xs as [|x xs]; [done|]. unfold membersText. cbn [fmap list_fmap sep length]. rewrite length_app.
  pose proof (length_concat_cons (memberText w <$> (text <$> xs))) as H. rewrite !length_fmap in H.
  unfold memberText at 1. rewrite length_app. cbn [length]. lia.
Qed.

Lemma rforEachKey_text {X} (text : X → bytes * bytes) (handle : bytes → Ref unit) effect (ok : X → Prop) xs u p :
  (∀ x, ok x → contents false (text x).1 = true) →
  (∀ x p c u, ok x → c = 44 ∨ c = 125 →
    handle (text x).1 (pack (w ++ (text x).2 ++ c :: u) p) = (Ok tt, pack (c :: u) (effect p x))) →
  Forall ok xs → rforEachKey handle (pack (membersText text true xs ++ 125 :: u) p) = (Ok tt, pack u (foldl effect p xs)).
Proof.
  intros Hk Hh Hxs. unfold rforEachKey. rewrite run_get. apply (rkeyLoop_text text handle effect ok Hk Hh); [done|].
  cbn [pack rest]. rewrite length_app. pose proof (membersText_length text xs). lia.
Qed.

(** The members that hold the accounts. *)
Definition decodes (vs : list json) : Prop := is_Some (mapM (λ v, unmarshalAccount (print v)) vs).
Definition decoded (vs : list json) : list Account := default [] (mapM (λ v, unmarshalAccount (print v)) vs).
Definition contextOk (c : json) : Prop := wf c = true ∧ is_Some (unmarshalContext (print c)).
Definition accountsOk (vs : list json) : Prop := forallb wf vs = true ∧ decodes vs.

Lemma streamed vs c u p :
  accountsOk vs → rstreamAccounts unmarshalAccount fn (pack (sep ((λ v, w ++ print v) <$> vs) ++ 93 :: c :: u) p) =
    (Ok tt, pack (c :: u) (p.1 ++ decoded vs, p.2)).
Proof.
  intros [Hwf [as_ Has]]. rewrite (rstreamAccounts_text vs as_ (c :: u)) by done. unfold decoded, pack. by rewrite Has.
Qed.

Inductive inner := InContext (c : json) | InValue (vs : list json).
Definition innerText (x : inner) : bytes * bytes :=
  match x with InContext c => (str "context", print c) | InValue vs => (str "value", arrayText w vs) end.
Definition inner_ok (x : inner) : Prop := match x with InContext c => contextOk c | InValue vs => accountsOk vs end.
Definition innerEffect (p : list Account * option Context) (x : inner) : list Account * option Context :=
  match x with InContext c => (p.1, unmarshalContext (print c)) | InValue vs => (p.1 ++ decoded vs, p.2) end.

Lemma array_split vs c u : w ++ arrayText w vs ++ c :: u = w ++ 91 :: sep ((λ v, w ++ print v) <$> vs) ++ 93 :: c :: u.
Proof. unfold arrayText. cbn. by rewrite <- app_assoc. Qed.

Lemma onInner_text x p c u :
  inner_ok x → c = 44 ∨ c = 125 →
  ronInner unmarshalAccount unmarshalContext fn (innerText x).1 (pack (w ++ (innerText x).2 ++ c :: u) p) = (Ok tt, pack (c :: u) (innerEffect p x)).
Proof.
  intros Hx Hc. destruct x as [ctx|vs]; cbn [innerText fst snd inner_ok innerEffect] in *; unfold ronInner.
  - rewrite decide_True by done. destruct Hx as [Hwf [d Hd]].
    erewrite run_bind by (eapply (rvalue_text w (print ctx) c u); [done|by apply print_text|naive_solver|done]). by rewrite Hd.
  - rewrite decide_False, decide_True by done. rewrite array_split. erewrite run_bind.
    2: { unfold rexpect. erewrite run_bind by (by eapply (rnext_text w 91)). by rewrite decide_True. }
    by apply streamed.
Qed.

Definition entry_ok (m : entry) : Prop :=
  member_wf m = true ∧
  match m with Other _ _ => True | Accounts vs => decodes vs | WithContext c vs => is_Some (unmarshalContext (print c)) ∧ decodes vs end.
Definition entryEffect (p : list Account * option Context) (m : entry) : list Account * option Context :=
  match m with
  | Other _ _ => p
  | Accounts vs => (p.1 ++ decoded vs, p.2)
  | WithContext c vs => (p.1 ++ decoded vs, unmarshalContext (print c))
  end.

Lemma onKey_text m p c u :
  entry_ok m → c = 44 ∨ c = 125 →
  ronKey unmarshalAccount unmarshalContext fn (memberOf w m).1 (pack (w ++ (memberOf w m).2 ++ c :: u) p) = (Ok tt, pack (c :: u) (entryEffect p m)).
Proof.
  intros [Hwf Hm] Hc. destruct m as [key v|vs|ctx vs]; cbn [memberOf fst snd member_wf entryEffect] in *; unfold ronKey.
  - apply andb_true_iff in Hwf as [[_ Hkey]%andb_true_iff Hv]. apply bool_decide_eq_true in Hkey. rewrite !not_elem_of_cons in Hkey.
    destruct Hkey as (? & ? & _). rewrite !decide_False by done. unfold rskip.
    erewrite run_bind by (eapply (rvalue_text w (print v) c u); [done|by apply print_text|naive_solver|done]). done.
  - rewrite decide_False, decide_True by done. rewrite array_split. erewrite run_bind by (by eapply (rpeek_text w 91)).
    rewrite decide_True by done. erewrite run_bind by (by eapply (rnext_text [] 91)). by apply streamed.
  - apply andb_true_iff in Hwf as [? ?]. destruct Hm as [? ?]. rewrite decide_False, decide_True by done.
    unfold objectText. cbn [app]. rewrite <- app_assoc. cbn [app]. erewrite run_bind by (by eapply (rpeek_text w 123)).
    rewrite decide_False, decide_True by done. erewrite run_bind by (by eapply (rnext_text [] 123)).
    apply (rforEachKey_text innerText _ innerEffect inner_ok [InContext ctx; InValue vs] (c :: u) p).
    + by intros [|].
    + intros. by apply onInner_text.
    + by repeat constructor.
Qed.

Lemma decodes_app vs vs' : decodes vs → decodes vs' → decodes (vs ++ vs') ∧ decoded (vs ++ vs') = decoded vs ++ decoded vs'.
Proof.
  unfold decodes, decoded. intros Hvs [as' Has']. rewrite Has'. induction vs as [|v vs IH]; [by rewrite app_nil_l, Has'|].
  cbn in *. destruct (unmarshalAccount (print v)); [|by destruct Hvs]. cbn in *. destruct (mapM _ vs) as [as_|]; [|by destruct Hvs].
  destruct (IH ltac:(eauto)) as [[as2 Has2] Heq]. rewrite Has2 in *. cbn in *. split; [eauto|]. by rewrite Heq.
Qed.

Definition decodeContext (o : option json) : option Context := c ← o; unmarshalContext (print c).

Lemma effects_run ms dl o :
  Forall entry_ok ms →
  decodes (accountsOf ms) ∧
  foldl entryEffect (dl, decodeContext o) ms =
    (dl ++ decoded (accountsOf ms), decodeContext (foldl (λ o m, match m with WithContext c _ => Some c | _ => o end) o ms)).
Proof.
  intros Hms. revert dl o. induction Hms as [|m ms [_ Hm] Hms IH]; intros dl o; [split; [by eexists|cbn; by rewrite app_nil_r]|].
  unfold accountsOf in *. rewrite bind_cons. cbn [foldl]. destruct m as [key v|vs|c vs]; cbn [entryEffect fst snd].
  - apply (IH dl o).
  - destruct (IH (dl ++ decoded vs) o) as [Hd ->]. destruct (decodes_app _ _ Hm Hd) as [? ->]. split; [done|]. by rewrite app_assoc.
  - destruct Hm as [_ Hm]. destruct (IH (dl ++ decoded vs) (Some c)) as [Hd H]. destruct (decodes_app _ _ Hm Hd) as [? ->]. split; [done|].
    rewrite app_assoc. exact H.
Qed.

Lemma reference_text ms tl :
  Forall entry_ok ms →
  reference unmarshalAccount unmarshalContext fn (responseText w ms ++ tl) = Ok (decodeContext (contextOf ms), decoded (accountsOf ms)).
Proof.
  intros Hms. assert (responseText w ms ++ tl = w ++ 123 :: sep (memberText w <$> (memberOf w <$> ms)) ++ 125 :: tl) as ->
    by (unfold responseText, objectText; rewrite <- app_assoc; cbn [app]; by rewrite <- app_assoc).
  unfold reference. erewrite run_bind.
  2: { unfold rexpect. erewrite run_bind by (by eapply (rnext_text w 123)). by rewrite decide_True. }
  unfold set_rest. cbn [rdelivered rctx].
  pose proof (rforEachKey_text (memberOf w) (ronKey unmarshalAccount unmarshalContext fn) entryEffect entry_ok ms tl ([], None)) as H.
  unfold membersText, pack in H. cbn [fst snd app] in H |- *. rewrite H; [|intros [key v|vs|c vs] [Hwf _]; cbn in *|intros; by apply onKey_text|done].
  - destruct (effects_run ms [] None Hms) as [_ Heq]. cbn in Heq. by rewrite Heq.
  - apply andb_true_iff in Hwf as [[? _]%andb_true_iff _]. done.
  - done.
  - done.
Qed.
End reads.

(** * Properties *)

(** A well-formed response delivers its accounts: for every response object
    (members in any order, other members ignored, white space anywhere before a
    token, the accounts as an array or with their context), every way a reader
    cuts its text into non-empty reads that keeps its keys intact, and whatever
    follows it, the callback is
    given exactly the accounts in the response, decoded, in order, and the call
    returns the last context. *)
Lemma stream_delivers {Account Context RPCError Callback}
    (unmarshalAccounts : bytes → option (list Account)) (unmarshalContext : bytes → option Context)
    (unmarshalError : bytes → option RPCError) (unmarshalAccount : bytes → option Account)
    (fn : list Account → Account → option Callback) w ms tl r :
  ArrayDecoder unmarshalAccounts unmarshalAccount → (∀ dl a, fn dl a = None) →
  Forall (λ c, isJSONSpace c = true) w → Forall (entry_ok unmarshalAccount unmarshalContext) ms →
  readable r → keysIntact unmarshalAccounts unmarshalContext unmarshalError fn r → concat (chunks r) = responseText w ms ++ tl →
  StreamProgramAccounts unmarshalAccounts unmarshalContext unmarshalError fn r =
    (Ok (decodeContext unmarshalContext (contextOf ms)), decoded unmarshalAccount (accountsOf ms)).
Proof.
  intros Hdec Hfn Hw Hms Hr Hkeys Htext.
  pose proof (stream_run unmarshalAccounts unmarshalContext unmarshalError unmarshalAccount fn r Hdec Hr Hkeys) as H.
  rewrite Htext, reference_text in H; done.
Qed.

(** * A read between a key and its colon *)

(** The key is compared after its colon was read, from a buffer that the read may
    have overwritten: the same response, cut behind the closing quote of
    [result], hands over no account and returns no error. *)
Lemma split_key_loses_accounts :
  let head := [123; 34] ++ str "result" ++ [34] in
  let tl := [58; 91; 123; 125; 93; 125] in
  let stream r := StreamProgramAccounts splitArray (λ raw, Some raw) (λ raw, Some raw) (λ _ _, None : option unit) r in
  stream (mkReader [head ++ tl] EOF) = (Ok None, [[123; 125]]) ∧
  stream (mkReader [head; tl] EOF) = (Ok None, []) ∧
  ¬ keysIntact splitArray (λ raw, Some raw) (λ raw, Some raw) (λ _ _, None : option unit) (mkReader [head; tl] EOF).
Proof. split; [by vm_compute|]. split; [by vm_compute|]. by intros []; vm_compute. Qed.

(** * Two malformed responses *)

(** A primitive that the data ends in is cut at a position from before the buffer
    was compacted: with the same input left, the text returned depends on where
    in the buffer it starts. *)
Lemma scanValue_at_eof_shifted :
  let digits := [49; 50; 51; 52; 53; 54; 55; 56; 57; 48; 49] in
  let s1 := mkScanner (mkReader [] EOF) (digits ++ zeros 9) 0 11 0 in
  let s2 := mkScanner (mkReader [] EOF) (zeros 9 ++ digits) 9 20 9 in
  unread s1 = digits ∧ unread s2 = digits ∧
  ((scanValue : GoM jsonScanner (stream_err unit unit) bytes) s1).1 = Ok digits ∧
  ((scanValue : GoM jsonScanner (stream_err unit unit) bytes) s2).1 = Ok [48; 49].
Proof. by vm_compute. Qed.

(** Whether a comma before the closing bracket is refused depends on where the
    reads end: after the comma's element was flushed, the empty one decodes as an
    empty array. *)
Lemma trailing_comma_by_chunks :
  let head := [123; 34] ++ str "result" ++ [34; 58; 91; 123; 125] in
  let stream r := StreamProgramAccounts splitArray (λ raw, Some raw) (λ raw, Some raw) (λ _ _, None : option unit) r in
  stream (mkReader [head; [44; 93; 125]] EOF) = (Ok None, [[123; 125]]) ∧
  stream (mkReader [head ++ [44; 93; 125]] EOF) = (Err errDecodingAccounts, []).
Proof. by vm_compute. Qed.
