(* ===== verification/Confirm.v ===== *)
(** Confirm: sending a transaction and waiting for its confirmation
    (confirm/confirm.go), over the RPC client and, when there is one, the
    WebSocket client of [Ws]. The goroutine that waits is written in the order of
    the code; what happens around it is a script: time passes, other goroutines
    of the WebSocket client take steps, the server answers the HTTP call, and the
    scheduler lets the goroutine go on with one of the ready cases of the
    [select] it blocks in. An error of the monad means that the script ended
    while the goroutine was waiting. *)
From Stdlib Require Import ZArith Lia.
From stdpp Require Import base numbers strings gmap list.
From S2P Require Import Prelude Keys Message Transaction Cache Ws.

Open Scope Z_scope.

(** * Contexts *)

Inductive ctx_err := Canceled | DeadlineExceeded.

#[global] Instance ctx_err_dec : EqDecision ctx_err.
Proof. solve_decision. Defined.

(** A context by the instant it ends and the error it then has. *)
Definition context : Type := option (Z * ctx_err).

(** [context.WithTimeout]: a parent that ends earlier ends the child. *)
Definition WithTimeout (now : Z) (ctx : context) (timeout : Z) : context :=
  match ctx with
  | Some (t, _) => if decide (t < now + timeout) then ctx else Some (now + timeout, DeadlineExceeded)
  | None => Some (now + timeout, DeadlineExceeded)
  end.

(** [context.WithoutCancel]. *)
Definition WithoutCancel (_ : context) : context := None.

(** [ctx.Err()]. *)
Definition ctxErr (now : Z) (ctx : context) : option ctx_err :=
  match ctx with
  | Some (t, e) => if decide (t ≤ now) then Some e else None
  | None => None
  end.

(** * Data *)

Definition ConfirmationStatusType : Type := string.
Definition ConfirmationStatusProcessed : ConfirmationStatusType := "processed".
Definition ConfirmationStatusConfirmed : ConfirmationStatusType := "confirmed".
Definition ConfirmationStatusFinalized : ConfirmationStatusType := "finalized".

(** The deprecated [Status] is left out: nothing reads it. [Err any]
    is the JSON error payload, absent when the transaction succeeded. *)
Record SignatureStatusesResult := mkStatus {
  Slot : Z;
  Confirmations : option Z;
  StatusErr : option bytes;
  ConfirmationStatus : ConfirmationStatusType;
}.

Record TransactionOpts := mkTransactionOpts {
  Encoding : string;
  SkipPreflight : bool;
  PreflightCommitment : CommitmentType;
  MaxRetries : option Z;
  MinContextSlot : option Z;
}.

Record Opts := mkOpts {
  Commitment : CommitmentType;
  SendOpts : TransactionOpts;
  Timeout : Z;
  PollInterval : Z;
}.

(** Durations in nanoseconds. *)
Definition second : Z := 1000000000.
Definition defaultTimeout : Z := 120 * second.
Definition defaultPollInterval : Z := 500 * 1000000.

(** The values of the RPC parameter object. *)
Inductive param := PString (s : string) | PBool (b : bool) | PUint (n : Z).

Definition ToMap (opts : TransactionOpts) : gmap string param :=
  let obj : gmap string param := ∅ in
  let obj := <["encoding" := PString (if decide (Encoding opts = ""%string) then "base64" else Encoding opts)]> obj in
  let obj := <["skipPreflight" := PBool (SkipPreflight opts)]> obj in
  let obj := if decide (PreflightCommitment opts ≠ ""%string)
             then <["preflightCommitment" := PString (PreflightCommitment opts)]> obj else obj in
  let obj := match MaxRetries opts with Some n => <["maxRetries" := PUint n]> obj | None => obj end in
  match MinContextSlot opts with Some n => <["minContextSlot" := PUint n]> obj | None => obj end.

Record SignatureResultValue := mkSignatureValue { ValueErr : option bytes; Received : bool }.

(** The part of the decoder of [SignatureResult] that belongs to sonic: the raw
    [value] of the payload ([None] inside: the payload has none), and the [err] of
    a status object. *)
Class SonicSignature := {
  sonic_value : bytes → option (option bytes);
  sonic_status : bytes → option (option bytes);
}.

Inductive call_err := RpcFailed (code : Z) | RpcContext (e : ctx_err).

Inductive confirm_err :=
  | errNotSigned
  | errNoRPC
  | ErrTimeout
  | ExecutionError (payload : bytes)
  | errSubscribe (e : ws_err)
  | errMarshal (e : transaction_err)
  | errCall (e : call_err)
  | errRecv (e : ws_err)
  | errDecoding
  | errCtx (e : ctx_err).

(** * The surroundings *)

Inductive rpcAnswer :=
  | AnswerErr (code : Z)
  | AnswerSent
  | AnswerStatuses (Value : list (option SignatureStatusesResult)).

Inductive action :=
  | Advance (d : Z)
  | Other (ev : event)
  | Answer (a : rpcAnswer)
  | Run (k : nat).

(** What the goroutine did, in order. *)
Inductive call :=
  | Subscribed (sig : Signature) (opts : gmap string param)
  | Sent (raw : bytes) (params : gmap string param)
  | Polled (at_ : Z) (answer : call_err + list (option SignatureStatusesResult))
  | Got (raw : bytes).

Record env := mkEnv {
  wsw : world;
  now : Z;
  script : list action;
  calling : bool;
  answer : option rpcAnswer;
  own_ch : option nat;
  own_sub : option nat;
  log : list call;
}.

Inductive waiting := Waiting.
Abbreviation G := (GoM env waiting).

Definition set_ws s w := mkEnv s (now w) (script w) (calling w) (answer w) (own_ch w) (own_sub w) (log w).
Definition set_now t w := mkEnv (wsw w) t (script w) (calling w) (answer w) (own_ch w) (own_sub w) (log w).
Definition set_script sc w := mkEnv (wsw w) (now w) sc (calling w) (answer w) (own_ch w) (own_sub w) (log w).
Definition set_call b a w := mkEnv (wsw w) (now w) (script w) b a (own_ch w) (own_sub w) (log w).
Definition set_own_ch c w := mkEnv (wsw w) (now w) (script w) (calling w) (answer w) c (own_sub w) (log w).
Definition set_own_sub p w := mkEnv (wsw w) (now w) (script w) (calling w) (answer w) (own_ch w) p (log w).
Definition record c w := mkEnv (wsw w) (now w) (script w) (calling w) (answer w) (own_ch w) (own_sub w) (log w ++ [c]).

(** Other goroutines hold other requests and other subscriptions. *)
Definition foreign (ev : event) (w : env) : bool :=
  match ev with
  | EvWriteError ch | EvContext ch | EvClosed ch | EvReply ch => bool_decide (own_ch w ≠ Some ch)
  | EvRecv p | EvRelease p => bool_decide (own_sub w ≠ Some p)
  | EvRequest _ | EvFrame _ | EvDeliver | EvFail _ => true
  end.

Section confirm.
Context `{sonic : Sonic} `{sonicSig : SonicSignature}.

(** A step of the WebSocket client: its error is a value for the caller. *)
Definition onWs {A} (m : M A) : G (ws_err + A) := λ w,
  match m (wsw w) with
  | (Ok a, s) => (Ok (inr a), set_ws s w)
  | (Err e, s) => (Ok (inl e), set_ws s w)
  | (Panic, s) => (Panic, set_ws s w)
  end.

(** What happens while the goroutine waits. *)
Definition perform (a : action) : G unit :=
  match a with
  | Advance d => modify (λ w, set_now (now w + Z.max 0 d) w)
  | Other ev => w ← get (S:=env); if foreign ev w then _ ← onWs (exec ev); mret tt else mret tt
  | Answer a => w ← get;
      match calling w, answer w with
      | true, None => modify (set_call true (Some a))
      | _, _ => mret tt
      end
  | Run _ => mret tt
  end.

(** The case the scheduler takes: the [k]-th when it is ready, else the first
    ready one. *)
Fixpoint firstReady (i : nat) (ready : list (env → bool)) (w : env) : option nat :=
  match ready with
  | [] => None
  | r :: ready' => if r w then Some i else firstReady (S i) ready' w
  end.
Definition pick (k : nat) (ready : list (env → bool)) (w : env) : option nat :=
  match (ready !! k : option (env → bool)) with
  | Some r => if r w then Some k else firstReady 0 ready w
  | None => firstReady 0 ready w
  end.

(** A blocking [select]: the index of the case taken. *)
Fixpoint await (ready : list (env → bool)) (sc : list action) : G nat :=
  match sc with
  | [] => _ ← modify (set_script []); throw Waiting
  | a :: sc' =>
    _ ← modify (set_script sc');
    _ ← perform a;
    w ← get;
    match a with
    | Run k => match pick k ready w with Some i => mret i | None => await ready sc' end
    | _ => await ready sc'
    end
  end.
Definition select (ready : list (env → bool)) : G nat := w ← get; await ready (script w).

Definition clock : G Z := w ← get; mret (now w).
Definition emit (c : call) : G unit := modify (record c).
Definition ctxDone (ctx : context) (w : env) : bool := bool_decide (is_Some (ctxErr (now w) ctx)).
Definition always (_ : env) : bool := true.

(** [ctx.Err()] after [ctx.Done()] was ready. *)
Definition endOf (ctx : context) (t : Z) : ctx_err := default Canceled (ctxErr t ctx).

(** * The calls *)

(** An HTTP round trip ([Client.call]): it ends with the answer of the server or
    with the context. *)
Definition httpCall (ctx : context) : G (call_err + rpcAnswer) :=
  _ ← modify (set_call true None);
  k ← select [ctxDone ctx; λ w, bool_decide (is_Some (answer w))];
  w ← get;
  _ ← modify (set_call false None);
  match k, answer w with
  | S _, Some a => mret (inr a)
  | _, _ => mret (inl (RpcContext (endOf ctx (now w))))
  end.

Definition SendTransactionWithOpts (ctx : context) (tx : Transaction) (opts : TransactionOpts) : G (option confirm_err) :=
  match MarshalBinary tx with
  | Err e => mret (Some (errMarshal e))
  | Panic => lift Panic
  | Ok raw =>
    _ ← emit (Sent raw (ToMap opts));
    r ← httpCall ctx;
    mret match r with
         | inl e => Some (errCall e)
         | inr (AnswerErr code) => Some (errCall (RpcFailed code))
         | inr _ => None
         end
  end.

Definition GetSignatureStatuses (ctx : context) : G (call_err + list (option SignatureStatusesResult)) :=
  r ← httpCall ctx;
  t ← clock;
  let res := match r with
             | inl e => inl e
             | inr (AnswerErr code) => inl (RpcFailed code)
             | inr AnswerSent => inr []
             | inr (AnswerStatuses value) => inr value
             end in
  _ ← emit (Polled t res);
  mret res.

Definition replyReady (ch : nat) (w : env) : bool :=
  match replies (wsw w) !! ch with
  | Some r => reply_closed r || bool_decide (is_Some (reply r))
  | None => false
  end.

(** [Client.request]: registration, the write, and the wait for the reply. *)
Definition request (ctx : context) (subscribing : bool) : G (ws_err + unit) :=
  r ← onWs (requestStart subscribing);
  match r with
  | inl e => mret (inl e)
  | inr ch =>
    _ ← modify (set_own_ch (Some ch));
    written ← select [always; always];
    if decide (written ≠ 0%nat) then onWs (abandon ch errWrite) else
    k ← select [replyReady ch; ctxDone ctx; λ w, closed (cl (wsw w))];
    match k with
    | 0%nat => onWs (awaitReply ch)
    | 1%nat => onWs (abandon ch errContext)
    | _ => onWs (awaitClosed ch)
    end
  end.

(** The options of [SignatureSubscribeWithOpts]. *)
Definition signatureOpts (commitment : CommitmentType) (enableReceivedNotification : bool) : gmap string param :=
  let opts : gmap string param := ∅ in
  let opts := if decide (commitment ≠ ""%string) then <["commitment" := PString commitment]> opts else opts in
  if enableReceivedNotification then <["enableReceivedNotification" := PBool true]> opts else opts.

(** [Client.subscribe], through [SignatureSubscribe]: the subscription is known
    by its entry. *)
Definition SignatureSubscribe (ctx : context) (sig : Signature) (commitment : CommitmentType) : G (ws_err + nat) :=
  _ ← emit (Subscribed sig (signatureOpts commitment false));
  w ← get (S:=env);
  let entry := base.fresh (dom (entries (wsw w))) in
  _ ← modify (set_own_sub (Some entry));
  r ← request ctx true;
  w ← get;
  mret match r with
       | inl e => inl e
       | inr _ => match handles (wsw w) !! entry with
                  | Some _ => inr entry
                  | None => inl errSubscriptionID
                  end
       end.

Definition UnmarshalJSON (data : bytes) : option SignatureResultValue :=
  match data with
  | 34 :: _ => Some (mkSignatureValue None true)
  | _ => e ← sonic_status data; Some (mkSignatureValue e false)
  end.

Definition decodeResult (raw : bytes) : option SignatureResultValue :=
  v ← sonic_value raw;
  match v with
  | Some data => UnmarshalJSON data
  | None => Some (mkSignatureValue None false)
  end.

Definition recvReady (p : nat) (w : env) : bool :=
  match entries (wsw w) !! p with
  | Some e => ch_closed e || bool_decide (ch_buf e ≠ [])
  | None => false
  end.

(** [Subscription.Recv]. *)
Definition RecvResult (p : nat) (ctx : context) : G (confirm_err + SignatureResultValue) :=
  k ← select [recvReady p; ctxDone ctx];
  match k with
  | 0%nat =>
    r ← onWs (Recv p);
    match r with
    | inl e => mret (inl (errRecv e))
    | inr None => throw Waiting
    | inr (Some raw) =>
      _ ← emit (Got raw);
      mret match decodeResult raw with Some v => inr v | None => inl errDecoding end
    end
  | _ => t ← clock; mret (inl (errCtx (endOf ctx t)))
  end.

Definition ReleaseSub (p : nat) : G unit := _ ← onWs (Release p); mret tt.

Definition Unsubscribe (p : nat) (ctx : context) : G (ws_err + unit) :=
  _ ← ReleaseSub p; request ctx false.

(** * Waiting *)

(** [confirmationTarget.reached]. *)
Definition rank (c : ConfirmationStatusType) : Z :=
  if decide (c = ConfirmationStatusProcessed) then 0
  else if decide (c = ConfirmationStatusConfirmed) then 1
  else if decide (c = ConfirmationStatusFinalized) then 2
  else -1.

Definition reached (target : CommitmentType) (status : SignatureStatusesResult) : bool :=
  let want := if decide (target = CommitmentProcessed) then 0
              else if decide (target = CommitmentConfirmed) then 1 else 2 in
  let got := rank (ConfirmationStatus status) in
  if decide (0 ≤ got) then bool_decide (want ≤ got) else bool_decide (Confirmations status = None).

Fixpoint recvLoop (fuel : nat) (ctx waitCtx : context) (p : nat) : G (option confirm_err) :=
  match fuel with
  | O => throw Waiting
  | S fuel' =>
    got ← RecvResult p waitCtx;
    match got with
    | inl err =>
      t ← clock;
      if decide (ctxErr t waitCtx = Some DeadlineExceeded ∧ ctxErr t ctx = None)
      then mret (Some ErrTimeout) else mret (Some err)
    | inr v =>
      if Received v then recvLoop fuel' ctx waitCtx p else
      match ValueErr v with
      | Some e => mret (Some (ExecutionError e))
      | None => mret None
      end
    end
  end.

(** Each round of a loop takes at least one step of the script. *)
Definition fuelFor (w : env) : nat := S (length (script w)).

Definition waitOnSubscription (ctx : context) (p : nat) (opts : Opts) : G (option confirm_err) :=
  let timeout := if decide (Timeout opts ≤ 0) then defaultTimeout else Timeout opts in
  t ← clock;
  w ← get;
  recvLoop (fuelFor w) ctx (WithTimeout t ctx timeout) p.

(** The next tick a [time.Ticker] started at [t0] delivers after one was taken at
    [t]; ticks that nobody took are dropped. *)
Definition nextTick (t0 interval t : Z) : Z := t0 + ((t - t0) / interval + 1) * interval.

(** The [select] at the end of a round: the context, or the tick of the next one. *)
Definition awaitTick (ctx waitCtx : context) (tick : Z) (again : Z → G (option confirm_err)) : G (option confirm_err) :=
  k ← select [ctxDone waitCtx; λ w, bool_decide (tick ≤ now w)];
  t ← clock;
  match k with
  | 0%nat => match ctxErr t ctx with
             | None => mret (Some ErrTimeout)
             | Some e => mret (Some (errCtx e))
             end
  | _ => again t
  end.

Fixpoint pollLoop (fuel : nat) (ctx waitCtx : context) (target : CommitmentType)
    (t0 interval tick : Z) : G (option confirm_err) :=
  match fuel with
  | O => throw Waiting
  | S fuel' =>
    let next := awaitTick ctx waitCtx tick
      (λ t, pollLoop fuel' ctx waitCtx target t0 interval (nextTick t0 interval t)) in
    r ← GetSignatureStatuses waitCtx;
    t ← clock;
    match r with
    | inl e => if decide (ctxErr t waitCtx = None) then mret (Some (errCall e)) else next
    | inr (Some status :: _) =>
      if reached target status then
        match StatusErr status with
        | Some e => mret (Some (ExecutionError e))
        | None => mret None
        end
      else next
    | inr _ => next
    end
  end.

Definition waitViaPolling (ctx : context) (target : CommitmentType) (opts : Opts) : G (option confirm_err) :=
  let timeout := if decide (Timeout opts ≤ 0) then defaultTimeout else Timeout opts in
  let interval := if decide (PollInterval opts ≤ 0) then defaultPollInterval else PollInterval opts in
  t ← clock;
  w ← get;
  pollLoop (fuelFor w) ctx (WithTimeout t ctx timeout) target t interval (t + interval).

Definition unsubscribe (ctx : context) (p : nat) : G unit :=
  t ← clock;
  _ ← Unsubscribe p (WithTimeout t (WithoutCancel ctx) (2 * second)); mret tt.

Definition cleanupSubscription (ctx : context) (p : nat) (waitErr : option confirm_err) : G unit :=
  match waitErr with
  | None | Some (ExecutionError _) => ReleaseSub p
  | _ => unsubscribe ctx p
  end.

(** * The client *)

(** Which of its two clients a confirmation client holds. *)
Record Client := mkConfirmClient { has_rpc : bool; has_ws : bool }.

Definition New (rpcClient wsClient : bool) : option Client := Some (mkConfirmClient rpcClient wsClient).

Definition SendAndConfirmWithOpts (c : option Client) (ctx : context) (tx : option Transaction) (opts : Opts)
    : G (Signature * option confirm_err) :=
  match tx with
  | None => mret (zeroSignature, Some errNotSigned)
  | Some tx =>
    match Signatures tx with
    | [] => mret (zeroSignature, Some errNotSigned)
    | sig :: _ =>
      match c with
      | Some (mkConfirmClient true ws) =>
        let commitment := if decide (Commitment opts = ""%string) then CommitmentFinalized else Commitment opts in
        let o := SendOpts opts in
        let sendOpts := if decide (PreflightCommitment o = ""%string)
                        then mkTransactionOpts (Encoding o) (SkipPreflight o) commitment (MaxRetries o) (MinContextSlot o)
                        else o in
        if negb ws then
          err ← SendTransactionWithOpts ctx tx sendOpts;
          match err with
          | Some e => mret (sig, Some e)
          | None => err ← waitViaPolling ctx commitment opts; mret (sig, err)
          end
        else
          sub ← SignatureSubscribe ctx sig commitment;
          match sub with
          | inl e => mret (sig, Some (errSubscribe e))
          | inr p =>
            err ← SendTransactionWithOpts ctx tx sendOpts;
            match err with
            | Some e => _ ← unsubscribe ctx p; mret (sig, Some e)
            | None =>
              err ← waitOnSubscription ctx p opts;
              _ ← cleanupSubscription ctx p err;
              mret (sig, err)
            end
          end
      | _ => mret (zeroSignature, Some errNoRPC)
      end
    end
  end.

Definition zeroTransactionOpts : TransactionOpts := mkTransactionOpts "" false "" None None.

Definition SendAndConfirm (c : option Client) (ctx : context) (tx : option Transaction) : G (Signature * option confirm_err) :=
  SendAndConfirmWithOpts c ctx tx (mkOpts "" zeroTransactionOpts 0 0).

Definition WaitForConfirmation (c : option Client) (ctx : context) (sig : Signature) (opts : Opts) : G (option confirm_err) :=
  let commitment := if decide (Commitment opts = ""%string) then CommitmentFinalized else Commitment opts in
  match c with
  | Some (mkConfirmClient true ws) =>
    if negb ws then waitViaPolling ctx commitment opts else
    sub ← SignatureSubscribe ctx sig commitment;
    match sub with
    | inl e => mret (Some (errSubscribe e))
    | inr p =>
      err ← waitOnSubscription ctx p opts;
      _ ← cleanupSubscription ctx p err;
      mret err
    end
  | _ => mret (Some errNoRPC)
  end.

End confirm.
