(* ===== verification/ConfirmSpec.v ===== *)
(** ConfirmSpec: what [Confirm] does under every script: the subscription it
    takes is gone when it returns (unless subscribing gave up after the
    acknowledgement had arrived), the result is the one the observations give,
    and the wait ends once its deadline has passed. *)
From Stdlib Require Import ZArith Lia.
From stdpp Require Import base numbers strings gmap list.
From S2P Require Import Prelude Keys Message Transaction Cache Ws WsSpec Confirm.

Open Scope Z_scope.

(** * One subscription among the steps of the WebSocket client *)

Section tracking.
Context `{sonic : Sonic}.

(** The reply [resp] is on its way to, or waits in, the channel [ch]. *)
Definition carries (ch : nat) (resp : subResponse) (s : world) : Prop :=
  routing s = Some (ch, resp) ∨ ∃ b, replies s !! ch = Some (mkReplyChan (Some resp) b).

(** The entry [p] is used only by the request that waits on [co], if any; it is
    registered, when [reg] allows it, under the id its holder knows or will read
    from that request's reply. *)
Record tracks (p : nat) (co : option nat) (hd : option subscription) (reg : bool) (s : world) : Prop := {
  tr_entry : is_Some (entries s !! p);
  tr_chan : ∀ ch, co = Some ch → is_Some (replies s !! ch);
  tr_calls : ∀ ch id, calls s !! ch = Some (id, Some p) → co = Some ch;
  tr_pending : ∀ id r, pending (cl s) !! id = Some r → p_entry r = Some p → co = Some (p_ch r);
  tr_handle : handles s !! p = hd;
  tr_subs : ∀ k, subs (cl s) !! k = Some p → reg = true ∧
    (hd = Some (mkSubscription k p) ∨
     ∃ ch resp, co = Some ch ∧ carries ch resp s ∧ resp_err resp = None ∧ sonic_uint64 (resp_result resp) = Some k);
}.

Definition keepsTracks {A} (p : nat) (co : option nat) (hd : option subscription) (reg : bool) (m : M A) : Prop :=
  ∀ s, ws_inv s → tracks p co hd reg s → wp m (λ _, tracks p co hd reg) (λ _, tracks p co hd reg) s.

(** Steps that change neither the tables nor the channels of replies. *)
Lemma tracks_mono p co hd reg s s' :
  tracks p co hd reg s →
  is_Some (entries s' !! p) →
  (∀ ch, is_Some (replies s !! ch) → is_Some (replies s' !! ch)) →
  (∀ ch c, calls s' !! ch = Some c → calls s !! ch = Some c) →
  (∀ id r, pending (cl s') !! id = Some r → pending (cl s) !! id = Some r) →
  (∀ k, subs (cl s') !! k = Some p → subs (cl s) !! k = Some p) →
  (handles s' !! p = handles s !! p) →
  (∀ ch resp, co = Some ch → carries ch resp s → carries ch resp s') →
  tracks p co hd reg s'.
Proof.
  intros [H1 H2 H3 H4 Hd H5] He Hr Hc Hp Hs Hh Hm. split; eauto; [congruence|].
  intros k Hk. destruct (H5 k (Hs k Hk)) as [? [?|(ch & resp & ? & ? & ? & ?)]]; (split; [done|]); [by left|right].
  exists ch, resp. eauto.
Qed.

Ltac same := eapply tracks_mono; [eassumption|cbn; try done..].

Lemma entry_kept {A} (m : gmap nat A) i x p : is_Some (m !! p) → is_Some (<[i := x]> m !! p).
Proof. intros. apply lookup_insert_is_Some'. by right. Qed.
Hint Resolve entry_kept tr_entry : core.

Lemma tracks_abandon p co hd reg ch e : keepsTracks p co hd reg (abandon ch e).
Proof.
  intros s Hw Ht. unfold abandon. apply wp_run_get. destruct (calls s !! ch) as [[id en]|]; [|by apply wp_ret].
  apply wp_run_modify, wp_run_modify, wp_throw. same.
  - eauto.
  - by intros ? ? [_ ?]%lookup_delete_Some.
  - by intros ? ? [_ ?]%lookup_delete_Some.
Qed.

Lemma tracks_awaitClosed p co hd reg ch : keepsTracks p co hd reg (awaitClosed ch).
Proof.
  intros s Hw Ht. unfold awaitClosed. apply wp_run_get.
  destruct (calls s !! ch), (closed (cl s)), (err (cl s)); try (by apply wp_ret).
  apply wp_run_modify, wp_throw. same; [eauto|]. by intros ? ? [_ ?]%lookup_delete_Some.
Qed.

Lemma tracks_Recv p co hd reg q : keepsTracks p co hd reg (Recv q).
Proof.
  intros s Hw Ht. unfold Recv. apply wp_run_get. destruct (entries s !! q) as [e|] eqn:He; [|by apply wp_ret].
  destruct (ch_buf e); [destruct (ch_closed e); [by apply wp_throw|by apply wp_ret]|].
  apply wp_run_modify, wp_ret. same. eauto.
Qed.

Lemma tracks_awaitReply p co hd reg ch : co ≠ Some ch → keepsTracks p co hd reg (awaitReply ch).
Proof.
  intros Hco s Hw Ht. unfold awaitReply. apply wp_run_get.
  destruct (calls s !! ch) as [[id en]|] eqn:Hc; [|by apply wp_ret].
  destruct (replies s !! ch) as [r|] eqn:Hr; [|by apply wp_ret].
  assert (∀ m : gmap nat (Z * option nat), ∀ ch' c, delete ch m !! ch' = Some c → m !! ch' = Some c) as Hdel
    by (by intros ? ? ? [_ ?]%lookup_delete_Some).
  destruct (reply r) as [resp|] eqn:Hv.
  - apply wp_run_modify, wp_run_modify. set (s1 := with_calls _ _).
    assert (tracks p co hd reg s1) as Ht1.
    { subst s1. same; [eauto|by intros; apply entry_kept|by apply Hdel|].
      intros ch' resp' -> [?|[b ?]]; [by left|right]. exists b. cbn. rewrite lookup_insert_ne; [done|congruence]. }
    destruct (resp_err resp); [by apply wp_throw|]. destruct en as [q|]; [|by apply wp_ret].
    destruct (sonic_uint64 _); [|by apply wp_throw].
    assert (q ≠ p) by (intros ->; by apply Hco, (tr_calls _ _ _ _ _ Ht ch id)).
    apply (wp_ret tt). eapply tracks_mono; [exact Ht1|cbn; try done..].
    + eauto.
    + by rewrite lookup_insert_ne.
  - destruct (reply_closed r); [|by apply wp_ret]. apply wp_run_modify.
    destruct (err (cl s)); [apply wp_throw|apply wp_ret]; same; eauto.
Qed.

Lemma tracks_requestStart p co hd reg b : keepsTracks p co hd reg (requestStart b).
Proof.
  intros s Hw Ht. pose proof Ht as [H1 H2 H3 H4 Hd H5]. unfold requestStart. apply wp_run_get.
  set (entry := base.fresh (dom (entries s))). set (ch := base.fresh (dom (replies s))).
  assert (entry ≠ p) as Hep by (intros <-; destruct H1 as [? He]; pose proof (fresh_not_in (entries s)); subst entry; congruence).
  assert (∀ c, co = Some c → c ≠ ch) as Hcc.
  { intros c Hc ->. destruct (H2 ch Hc) as [? Hr]. pose proof (fresh_not_in (replies s)). subst ch. congruence. }
  assert (∀ f, (∀ x, is_Some (entries s !! x) → is_Some (f (entries s) !! x)) →
    tracks p co hd reg (with_replies (<[ch := mkReplyChan None false]>)
      (with_cl (λ c, mkClient (buffer c) (u64 (reqID (cl s) + 1)) (pending c) (subs c) (err c) (closed c))
        (with_entries f s)))) as Ht1.
  { intros f Hf. same; [eauto|by intros; apply entry_kept|].
    intros c resp Hc [?|[b' ?]]; [by left|right]. exists b'. cbn. rewrite lookup_insert_ne; [done|]. naive_solver. }
  assert (∀ w1, tracks p co hd reg w1 → wp (match err (cl s) with
    | Some e => throw e
    | None =>
      let req := mkPendingReq ch (if b then Some entry else None) in
      _ ← modify (with_cl (λ c, set_pending (<[u64 (reqID (cl s) + 1) := req]> (pending c)) c));
      _ ← modify (with_calls (<[ch := (u64 (reqID (cl s) + 1), p_entry req)]>));
      mret ch
    end) (λ _, tracks p co hd reg) (λ _, tracks p co hd reg) w1) as Hrest.
  { intros w1 [T1 T2 T3 T4 Td T5]. destruct (err (cl s)); [by apply wp_throw|].
    apply wp_run_modify, wp_run_modify, wp_ret. split; cbn; [done|done| | |done|done].
    - intros c id [[<- [= _ Hx]]|[_ ?]]%lookup_insert_Some; [destruct b; congruence|by eapply T3].
    - intros id r [[_ <-]|[_ ?]]%lookup_insert_Some Hx; [cbn in Hx; destruct b; congruence|by eapply T4]. }
  destruct b.
  - apply wp_run_modify, wp_run_modify, wp_run_modify. apply Hrest, Ht1. intros. by apply entry_kept.
  - apply wp_bind, wp_ret, wp_run_modify, wp_run_modify. apply Hrest. specialize (Ht1 id). destruct s. by apply Ht1.
Qed.

Lemma tracks_deliver p co hd reg : keepsTracks p co hd reg deliver.
Proof.
  intros s Hw Ht. unfold deliver. apply wp_run_get. destruct (routing s) as [[c resp]|] eqn:Hr; [|by apply wp_ret].
  destruct (inv_routing _ Hw _ _ Hr) as [Hi Hp]. apply wp_run_modify. unfold sendReply. apply wp_run_get. cbn.
  unfold idle_reply in Hi. rewrite Hi. cbn. same.
  - eauto.
  - intros. by apply entry_kept.
  - intros c' resp' Hc [Hx|[b Hx]]; right.
    + rewrite Hr in Hx. injection Hx as <- <-. exists false. cbn. apply lookup_insert_eq.
    + exists b. cbn. rewrite lookup_insert_ne; [done|]. intros <-. congruence.
Qed.

Lemma tracks_Release p co hd reg q : keepsTracks p co hd reg (Release q).
Proof.
  intros s Hw Ht. unfold Release. apply wp_run_get. destruct (handles s !! q) as [h|]; [|by apply wp_ret].
  destruct (subs (cl s) !! sub_id h) as [q'|] eqn:Hq; [|by apply wp_ret].
  case_decide; [|by apply wp_ret]. apply wp_run_modify. unfold closeEntry. apply wp_run_get.
  destruct (inv_subs_open _ Hw _ _ Hq) as (e & He & Hcl). cbn. rewrite He, Hcl. cbn. same.
  - eauto.
  - by intros k [_ ?]%lookup_delete_Some.
Qed.

Lemma tracks_offer p co hd reg q data id s :
  ws_inv s → tracks p co hd reg s → subs (cl s) !! id = Some q →
  wp (offerEntry q data) (λ _, tracks p co hd reg) (λ _, tracks p co hd reg) s.
Proof.
  intros Hw Ht Hq. destruct (inv_subs_open _ Hw _ _ Hq) as (e & He & Hc).
  unfold offerEntry. apply wp_run_get. rewrite He, Hc. cbn. same. eauto.
Qed.

Lemma tracks_routing p co hd reg s c resp :
  routing s = None → tracks p co hd reg s → tracks p co hd reg (with_routing (Some (c, resp)) s).
Proof.
  intros Hr Ht. same; [eauto|]. intros ch r _ [?|?]; [congruence|by right].
Qed.

Lemma tracks_unpend p co hd reg s id :
  tracks p co hd reg s → tracks p co hd reg (with_cl (λ c, set_pending (delete id (pending c)) c) s).
Proof. intros Ht. same; [eauto|]. by intros ? ? [_ ?]%lookup_delete_Some. Qed.

(** The acknowledgement of a subscribe request registers its entry and sends the
    reply its caller reads the id from. *)
Lemma tracks_acknowledge p co hd s id ch q subID resp :
  ws_inv s → tracks p co hd true s → routing s = None →
  pending (cl s) !! id = Some (mkPendingReq ch (Some q)) → resp_err resp = None → sonic_uint64 (resp_result resp) = Some subID →
  tracks p co hd true (with_routing (Some (ch, resp)) (with_cl (λ c, set_subs (<[subID := q]> (subs c)) c)
    (with_cl (λ c, set_pending (delete id (pending c)) c) s))).
Proof.
  intros Hw Ht Hr Hp He Hu. pose proof (tracks_unpend p co hd true s id Ht) as [H1 H2 H3 H4 Hd H5].
  split; cbn; try done. intros k Hk. split; [done|].
  apply lookup_insert_Some in Hk as [[-> ->]|[_ Hk]].
  - right. exists ch, resp. split_and!; [|by left|done..]. by apply (tr_pending _ _ _ _ _ Ht id _ Hp).
  - destruct (H5 k Hk) as [_ [?|(c & r & ? & [Hx|Hx] & ? & ?)]]; [by left|cbn in Hx; congruence|].
    right. exists c, r. split_and!; [done|by right|done..].
Qed.

Lemma tracks_route p co hd reg data :
  (reg = false → co = None) →
  ∀ s, ws_inv s → tracks p co hd reg s → routing s = None →
  wp (route data) (λ _, tracks p co hd reg) (λ _, tracks p co hd reg) s.
Proof.
  intros Hreg s Hw Ht Hn. unfold route. destruct (sonic_envelope data) as [env|]; [|by apply wp_ret].
  apply wp_run_get. case_decide.
  { destruct (subs (cl s) !! env_Subscription env) as [q|] eqn:Hq; [by eapply tracks_offer|by apply wp_ret]. }
  apply wp_run_modify. pose proof (tracks_unpend _ _ _ _ s (env_ID env) Ht) as Ht1.
  destruct (pending (cl s) !! env_ID env) as [[ch en]|] eqn:Hp; [|by apply wp_bind, wp_ret, wp_ret].
  destruct en as [q|], (env_Error env); try (apply wp_bind, wp_ret; by apply tracks_routing).
  destruct (sonic_uint64 (env_Result env)) as [subID|] eqn:Hu; [|apply wp_bind, wp_ret; by apply tracks_routing].
  apply wp_run_modify. apply (wp_ret tt). destruct reg.
  - by eapply tracks_acknowledge.
  - destruct (decide (q = p)) as [->|Hqp].
    { pose proof (tr_pending _ _ _ _ _ Ht _ _ Hp eq_refl) as Hx. rewrite Hreg in Hx; done. }
    apply tracks_routing; [done|]. eapply tracks_mono; [exact Ht1|cbn; try done..]; [eauto|].
    intros k [[-> ->]|[_ ?]]%lookup_insert_Some; done.
Qed.

(** Closing channels changes no table and forgets no channel. *)
Lemma closeEntries_frame ps s :
  let s' := (closeEntries ps s).2 in (∀ e, (closeEntries ps s).1 ≠ Err e) ∧
  cl s' = cl s ∧ replies s' = replies s ∧ calls s' = calls s ∧ handles s' = handles s ∧ routing s' = routing s ∧
  ∀ p, is_Some (entries s !! p) → is_Some (entries s' !! p).
Proof.
  revert s. induction ps as [|q ps IH]; intros s; [done|]. cbn [closeEntries].
  unfold closeEntry, mbind, gom_bind, get. destruct (entries s !! q) as [e|]; [|done].
  destruct (ch_closed e); [done|]. cbn. destruct (IH (with_entries (<[q := mkSubEntry (ch_buf e) true (dropped e)]>) s))
    as (? & -> & -> & -> & -> & -> & H). split_and!; [done..|]. intros p Hp. apply H. cbn. by apply entry_kept.
Qed.

Lemma closeReplies_frame ps s :
  let s' := (closeReplies ps s).2 in (∀ e, (closeReplies ps s).1 ≠ Err e) ∧
  cl s' = cl s ∧ entries s' = entries s ∧ calls s' = calls s ∧ handles s' = handles s ∧ routing s' = routing s ∧
  ∀ p, is_Some (replies s !! p) → is_Some (replies s' !! p).
Proof.
  revert s. induction ps as [|q ps IH]; intros s; [done|]. cbn [closeReplies].
  unfold closeReply, mbind, gom_bind, get. destruct (replies s !! q) as [e|]; [|done].
  destruct (reply_closed e); [done|]. cbn. destruct (IH (with_replies (<[q := mkReplyChan (reply e) true]>) s))
    as (? & -> & -> & -> & -> & -> & H). split_and!; [done..|]. intros p Hp. apply H. cbn. by apply entry_kept.
Qed.

(** [fail_] runs to its end, and only closes channels and empties the tables. *)
Lemma fail_frame e s :
  ws_inv s → wp (fail_ e) (λ _ s',
      (s' = s ∨ subs (cl s') = ∅ ∧ pending (cl s') = ∅) ∧ calls s' = calls s ∧ handles s' = handles s ∧
      (∀ p, is_Some (entries s !! p) → is_Some (entries s' !! p)) ∧
      (∀ p, is_Some (replies s !! p) → is_Some (replies s' !! p))) (λ _ _, False) s.
Proof.
  intros Hw. pose proof (fail_safe e s Hw) as Hs. unfold fail_ in *.
  unfold wp, mbind, gom_bind, get, modify in *. destruct (err (cl s)); [by split_and!; [left|..]|].
  unfold closeClosed, mbind, gom_bind, get, modify in *. cbn in *. destruct (closed (cl s)); [done|]. cbn in *.
  set (s1 := with_cl _ (with_cl _ s)) in *. set (es := snd <$> _) in *.
  pose proof (closeEntries_frame es s1) as (Hok & Hc & Hr & Hca & Hh & _ & He).
  destruct (closeEntries es s1) as [[[]|e1|] s2]; [|by destruct (Hok e1)|done]. cbn in *.
  set (s3 := with_cl _ s2) in *. set (ps := _ ∘ _ <$> _) in *.
  pose proof (closeReplies_frame ps s3) as (Hok' & Hc' & He' & Hca' & Hh' & _ & Hr').
  destruct (closeReplies ps s3) as [[[]|e1|] s4]; [|by destruct (Hok' e1)|done]. cbn in *.
  split_and!; [right; by rewrite Hc'|congruence|congruence|by rewrite He'|].
  intros p Hp. apply Hr'. by rewrite Hr.
Qed.

Lemma tracks_fail p co hd reg e : keepsTracks p co hd reg (fail_ e).
Proof.
  intros s Hw Ht. eapply wp_mono; [by apply fail_frame| |done].
  intros _ s' ([->|[Hs Hp]] & Hc & Hh & He & Hr); [done|]. destruct Ht as [H1 H2 H3 H4 Hd H5].
  split; [by apply He|by eauto|by rewrite Hc| | congruence|].
  - rewrite Hp. by intros ? ? ?%lookup_empty_Some.
  - rewrite Hs. by intros ? ?%lookup_empty_Some.
Qed.

(** A step of another goroutine. *)
Lemma tracks_exec p co hd reg ev :
  (reg = false → co = None) →
  match ev with EvReply ch => co ≠ Some ch | _ => True end →
  keepsTracks p co hd reg (exec ev).
Proof.
  intros Hreg Hev s Hw Ht. destruct ev; cbn [exec].
  - apply wp_bind. eapply wp_mono; [by apply tracks_requestStart|intros; by apply wp_ret|done].
  - by apply tracks_abandon.
  - by apply tracks_abandon.
  - by apply tracks_awaitClosed.
  - by apply tracks_awaitReply.
  - apply wp_run_get. destruct (routing s) eqn:Hr; [by apply wp_ret|by apply tracks_route].
  - by apply tracks_deliver.
  - by apply tracks_fail.
  - apply wp_bind. eapply wp_mono; [by apply tracks_Recv|intros; by apply wp_ret|done].
  - by apply tracks_Release.
Qed.

(** The entry [p] is registered under no id, and no request refers to it. *)
Definition unregistered (p : nat) (s : world) : Prop :=
  (∀ id, subs (cl s) !! id ≠ Some p) ∧ ∀ id r, pending (cl s) !! id = Some r → p_entry r ≠ Some p.

(** The caller waits on [ch] for the reply to the request [id] that made [p]. *)
Definition asked (p ch : nat) (id : Z) (s : world) : Prop :=
  calls s !! ch = Some (id, Some p) ∧ ∀ id' r, pending (cl s) !! id' = Some r → p_entry r = Some p → id' = id.
Definition requesting (p ch : nat) (id : Z) (s : world) : Prop := tracks p (Some ch) None true s ∧ asked p ch id s.

Lemma asked_mono p ch id s s' :
  asked p ch id s → calls s' !! ch = calls s !! ch →
  (∀ i r, pending (cl s') !! i = Some r → pending (cl s) !! i = Some r) → asked p ch id s'.
Proof. intros [H1 H2] Hc Hp. split; [by rewrite Hc|eauto]. Qed.
Ltac still_asked := eapply asked_mono; [eassumption|cbn; by rewrite ?lookup_delete_ne by congruence|cbn; try done; by intros ? ? [_ ?]%lookup_delete_Some].

Lemma asked_requestStart p ch id b s :
  tracks p (Some ch) None true s → asked p ch id s → wp (requestStart b) (λ _, asked p ch id) (λ _, asked p ch id) s.
Proof.
  intros [H1 H2 _ _ _ _] [Ha Hb]. unfold requestStart. apply wp_run_get.
  set (entry := base.fresh (dom (entries s))). set (ch' := base.fresh (dom (replies s))).
  assert (entry ≠ p) as Hep by (intros <-; destruct H1 as [? He]; pose proof (fresh_not_in (entries s)); subst entry; congruence).
  assert (ch ≠ ch') as Hcc by (intros ->; destruct (H2 ch' eq_refl) as [? Hr]; pose proof (fresh_not_in (replies s)); subst ch'; congruence).
  destruct b; [apply wp_run_modify|apply wp_bind, wp_ret]; apply wp_run_modify, wp_run_modify;
    (destruct (err (cl s)); [by apply wp_throw|apply wp_run_modify, wp_run_modify, wp_ret]);
    split; cbn; rewrite ?lookup_insert_ne by congruence; try done;
    intros i r [[_ <-]|[_ Hi]]%lookup_insert_Some Hr; first [by cbn in Hr; congruence|by eapply Hb].
Qed.

Lemma asked_awaitReply p ch id ch' s :
  ch' ≠ ch → asked p ch id s → wp (awaitReply ch') (λ _, asked p ch id) (λ _, asked p ch id) s.
Proof.
  intros Hne Ha. unfold awaitReply. apply wp_run_get. destruct (calls s !! ch') as [[id' en]|]; [|by apply wp_ret].
  destruct (replies s !! ch') as [r|]; [|by apply wp_ret]. destruct (reply r) as [resp|].
  - apply wp_run_modify, wp_run_modify. destruct (resp_err resp); [apply wp_throw; by still_asked|].
    destruct en as [q|]; [|apply wp_ret; by still_asked]. destruct (sonic_uint64 _); [|apply wp_throw; by still_asked].
    apply (wp_ret tt). by still_asked.
  - destruct (reply_closed r); [|by apply wp_ret]. apply wp_run_modify. destruct (err (cl s)); [apply wp_throw|apply wp_ret]; by still_asked.
Qed.

Lemma asked_route p ch id data s : asked p ch id s → ws_inv s → wp (route data) (λ _, asked p ch id) (λ _, asked p ch id) s.
Proof.
  intros Ha Hw. unfold route. destruct (sonic_envelope data) as [env|]; [|by apply wp_ret].
  apply wp_run_get. case_decide.
  { destruct (subs (cl s) !! _) as [q|] eqn:Hq; [|by apply wp_ret]. unfold offerEntry. apply wp_run_get.
    destruct (inv_subs_open _ Hw _ _ Hq) as (en & He & Hcl). rewrite He, Hcl. apply (wp_ret tt). by still_asked. }
  apply wp_run_modify, wp_bind. apply (wp_mono _ (λ _, asked p ch id) _ (λ _ _, False)); [|intros ? s1 Hk1|done].
  - destruct (pending _ !! _) as [[c [q|]]|]; try (apply (wp_ret tt); by still_asked).
    destruct (env_Error env); [apply (wp_ret tt); by still_asked|].
    destruct (sonic_uint64 _); apply (wp_ret tt); by still_asked.
  - destruct (pending _ !! _); apply (wp_ret tt); by still_asked.
Qed.

(** The steps of others keep the request. *)
Lemma asked_exec p ch id ev s :
  match ev with EvWriteError c | EvContext c | EvClosed c | EvReply c => ch ≠ c | _ => True end →
  ws_inv s → tracks p (Some ch) None true s → asked p ch id s → wp (exec ev) (λ _, asked p ch id) (λ _, asked p ch id) s.
Proof.
  intros Hev Hw Ht Ha.
  assert (∀ c e, ch ≠ c → wp (abandon c e) (λ _, asked p ch id) (λ _, asked p ch id) s) as Hab.
  { intros c e Hne. unfold abandon. apply wp_run_get. destruct (calls s !! c) as [[]|]; [|by apply wp_ret].
    apply wp_run_modify, wp_run_modify, wp_throw. by still_asked. }
  destruct ev as [b|c|c|c|c|data| |e|q|q]; cbn [exec].
  - apply wp_bind. eapply wp_mono; [by apply asked_requestStart|intros; by apply wp_ret|done].
  - by apply Hab.
  - by apply Hab.
  - unfold awaitClosed. apply wp_run_get. destruct (calls s !! c), (closed (cl s)), (err (cl s)); try (by apply wp_ret).
    apply wp_run_modify, wp_throw. by still_asked.
  - by apply asked_awaitReply.
  - apply wp_run_get. destruct (routing s); [by apply wp_ret|by apply asked_route].
  - unfold deliver. apply wp_run_get. destruct (routing s) as [[c resp]|] eqn:Hr; [|by apply wp_ret].
    destruct (inv_routing _ Hw _ _ Hr) as [Hi _]. apply wp_run_modify. unfold sendReply. apply wp_run_get. cbn.
    unfold idle_reply in Hi. rewrite Hi. apply (wp_ret tt). by still_asked.
  - eapply wp_mono; [by apply fail_frame| |done]. intros _ s' ([->|[_ Hp]] & Hc & _); [done|].
    destruct Ha as [H1 _]. split; [by rewrite Hc|]. rewrite Hp. by intros ? ? ?%lookup_empty_Some.
  - apply wp_bind. unfold Recv. apply wp_run_get. destruct (entries s !! q) as [e|]; [|by apply wp_ret].
    destruct (ch_buf e); [destruct (ch_closed e); [by apply wp_throw|by apply wp_ret]|].
    apply wp_run_modify, wp_ret, (wp_ret tt). by still_asked.
  - unfold Release. apply wp_run_get. destruct (handles s !! q) as [h|]; [|by apply wp_ret].
    destruct (subs (cl s) !! sub_id h) as [q'|] eqn:Hq; [|by apply wp_ret]. case_decide; [|by apply wp_ret].
    apply wp_run_modify. unfold closeEntry. apply wp_run_get. cbn.
    destruct (inv_subs_open _ Hw _ _ Hq) as (e & He & Hcl). rewrite He, Hcl. apply (wp_ret tt). by still_asked.
Qed.

(** The request is given up: it is pending no more, and its entry is registered only
    if the acknowledgement has arrived and nobody has read it. *)
Definition givenUp (p ch : nat) (s : world) : Prop :=
  (∀ id r, pending (cl s) !! id = Some r → p_entry r ≠ Some p) ∧
  ∀ id, subs (cl s) !! id = Some p →
    ∃ resp, carries ch resp s ∧ resp_err resp = None ∧ sonic_uint64 (resp_result resp) = Some id.

Lemma abandon_ends p ch id e s :
  requesting p ch id s → wp (abandon ch e) (λ _ _, False) (λ e' s', e' = e ∧ givenUp p ch s') s.
Proof.
  intros [Ht [Hc Hp]]. unfold abandon. apply wp_run_get. rewrite Hc. apply wp_run_modify, wp_run_modify, wp_throw.
  split; [done|]. split; cbn.
  - intros i r [Hne Hi]%lookup_delete_Some Hr. by specialize (Hp i r Hi Hr).
  - intros k Hk. destruct (tr_subs _ _ _ _ _ Ht k Hk) as [_ [?|(c & resp & [= <-] & H1 & H2 & H3)]]; [done|]. by exists resp.
Qed.

Lemma awaitClosed_ends p ch id s :
  ws_inv s → requesting p ch id s → closed (cl s) = true →
  wp (awaitClosed ch) (λ _ _, False) (λ _, unregistered p) s.
Proof.
  intros Hw [_ [Hc _]] Hcl. pose proof (inv_failed _ Hw) as Hf. unfold awaitClosed. apply wp_run_get. rewrite Hc, Hcl.
  destruct (err (cl s)); [|congruence]. destruct Hf as (Hs & Hp & _). apply wp_run_modify, wp_throw.
  split; cbn; [rewrite Hs|rewrite Hp]; by intros ? ?.
Qed.

(** The caller reads its reply: the subscription it gets is the only use of the
    entry, under the id it was given, and without one the entry is not used. *)
Lemma tracks_subscribed p ch id s :
  ws_inv s → requesting p ch id s →
  (∃ r, replies s !! ch = Some r ∧ (reply_closed r = true ∨ is_Some (reply r))) →
  wp (awaitReply ch)
    (λ _ s', if handles s' !! p is Some _ then ∃ k, tracks p None (Some (mkSubscription k p)) true s' else unregistered p s')
    (λ _, unregistered p) s.
Proof.
  intros Hw [Ht [Hc _]] (r & Hr & Hready). pose proof (tr_handle _ _ _ _ _ Ht) as Hh.
  assert (r ≠ mkReplyChan None false) as Hb by (intros ->; by destruct Hready as [|[]]).
  destruct (busy_reply s ch r Hw Hr Hb) as [Hp Hrt].
  assert (∀ i q, pending (cl s) !! i = Some q → p_entry q ≠ Some p) as Hnp.
  { intros i q Hq Hqp. pose proof (tr_pending _ _ _ _ _ Ht i q Hq Hqp) as [= Hx]. by apply (Hp i q). }
  assert (∀ k, subs (cl s) !! k = Some p → ∃ resp, reply r = Some resp ∧ resp_err resp = None ∧ sonic_uint64 (resp_result resp) = Some k) as Hsub.
  { intros k Hk. destruct (tr_subs _ _ _ _ _ Ht k Hk) as [_ [?|(c & resp & [= <-] & [Hx|[b Hx]] & H1 & H2)]]; [done|by destruct (Hrt resp)|].
    rewrite Hr in Hx. injection Hx as ->. by exists resp. }
  unfold awaitReply. apply wp_run_get. rewrite Hc, Hr. destruct (reply r) as [resp|] eqn:Hv.
  - apply wp_run_modify, wp_run_modify. destruct (resp_err resp) as [code|] eqn:He.
    { apply wp_throw. split; cbn; [|done]. intros k Hk. destruct (Hsub k Hk) as (? & [= <-] & ? & _). congruence. }
    destruct (sonic_uint64 (resp_result resp)) as [k|] eqn:Hu.
    2: { apply wp_throw. split; cbn; [|done]. intros k Hk. destruct (Hsub k Hk) as (? & [= <-] & _ & ?). congruence. }
    apply (wp_ret tt). cbn. rewrite lookup_insert_eq. exists k.
    destruct Ht as [H1 H2 H3 H4 Hd H5]. split; cbn; [done|done| | |apply lookup_insert_eq|].
    + intros c i [Hne Hx]%lookup_delete_Some. specialize (H3 c i Hx). congruence.
    + intros i q Hq Hqp. by destruct (Hnp i q).
    + intros k' Hk'. split; [done|left]. destruct (Hsub k' Hk') as (? & [= <-] & _ & ?). congruence.
  - destruct Hready as [Hcl|[? Hx]]; [|congruence]. rewrite Hcl.
    assert (∀ s', subs (cl s') = subs (cl s) → pending (cl s') = pending (cl s) → unregistered p s') as Hun.
    { intros s' Hs' Hp'. unfold unregistered. rewrite Hs', Hp'. split; [|done]. intros k Hk. by destruct (Hsub k Hk) as (? & ? & _). }
    apply wp_run_modify. destruct (err (cl s)); [apply wp_throw; by apply Hun|]. apply wp_ret. cbn. rewrite Hh. by apply Hun.
Qed.

(** Releasing the subscription takes its entry out of the table. *)
Lemma tracks_released p k reg s :
  ws_inv s → tracks p None (Some (mkSubscription k p)) reg s →
  wp (Release p) (λ _, tracks p None (Some (mkSubscription k p)) false) (λ _ _, False) s.
Proof.
  intros Hw Ht. pose proof Ht as [H1 H2 H3 H4 Hd H5].
  assert (∀ k', subs (cl s) !! k' = Some p → k' = k) as Hk.
  { intros k' Hk. by destruct (H5 k' Hk) as [_ [[= ->]|(? & ? & [=] & _)]]. }
  unfold Release. apply wp_run_get. rewrite Hd. cbn.
  destruct (subs (cl s) !! k) as [q|] eqn:Hq.
  2: { apply wp_ret. split; try done. intros k' Hk'. rewrite (Hk k' Hk') in Hk'. congruence. }
  case_decide as Hqe.
  2: { apply wp_ret. split; try done. intros k' Hk'. rewrite (Hk k' Hk') in Hk'. congruence. }
  apply wp_run_modify. unfold closeEntry. apply wp_run_get. cbn.
  destruct (inv_subs_open _ Hw _ _ Hq) as (e & He & Hcl). rewrite He, Hcl. cbn. split; cbn; try done.
  - by apply entry_kept.
  - intros k' [Hne Hk']%lookup_delete_Some. by rewrite (Hk k' Hk') in Hne.
Qed.

(** Requests and subscriptions refer to entries that exist. *)
Definition known (s : world) : Prop :=
  (∀ p, is_Some (handles s !! p) → is_Some (entries s !! p)) ∧
  ∀ ch id p, calls s !! ch = Some (id, Some p) → is_Some (entries s !! p).

Lemma known_mono s s' :
  known s → (∀ p, is_Some (entries s !! p) → is_Some (entries s' !! p)) → handles s' = handles s →
  (∀ ch c, calls s' !! ch = Some c → calls s !! ch = Some c) → known s'.
Proof. intros [H1 H2] He Hh Hc. split; [rewrite Hh; eauto|eauto]. Qed.

Lemma deleted {A} ch (m : gmap nat A) c x : delete ch m !! c = Some x → m !! c = Some x.
Proof. by intros [_ ?]%lookup_delete_Some. Qed.
Hint Resolve deleted : core.
Ltac grown := eapply known_mono; [eassumption|cbn; eauto..].

Definition keepsKnown {A} (m : M A) : Prop := ∀ s, ws_inv s → known s → wp m (λ _, known) (λ _, known) s.

Lemma known_requestStart b : keepsKnown (requestStart b).
Proof.
  intros s Hw [H1 H2]. unfold requestStart. apply wp_run_get.
  destruct b; [apply wp_run_modify|apply wp_bind, wp_ret]; apply wp_run_modify, wp_run_modify;
    (destruct (err (cl s)); [apply wp_throw|apply wp_run_modify, wp_run_modify, wp_ret]);
    split; cbn; eauto; intros c id p [[_ [= _ Hx]]|[_ Hx]]%lookup_insert_Some; eauto; try done.
  rewrite Hx, lookup_insert_eq. by eexists.
Qed.

Lemma known_abandon ch e : keepsKnown (abandon ch e).
Proof.
  intros s Hw Hk. unfold abandon. apply wp_run_get. destruct (calls s !! ch) as [[]|]; [|by apply wp_ret].
  apply wp_run_modify, wp_run_modify, wp_throw. grown.
Qed.

Lemma known_awaitReply ch : keepsKnown (awaitReply ch).
Proof.
  intros s Hw Hk. unfold awaitReply. apply wp_run_get. destruct (calls s !! ch) as [[id en]|] eqn:Hc; [|by apply wp_ret].
  destruct (replies s !! ch) as [r|]; [|by apply wp_ret]. destruct (reply r) as [resp|].
  - apply wp_run_modify, wp_run_modify. set (s1 := with_calls _ _). assert (known s1) as Hk1 by grown.
    destruct (resp_err resp); [by apply wp_throw|]. destruct en as [q|]; [|by apply wp_ret].
    destruct (sonic_uint64 _); [|by apply wp_throw]. apply (wp_ret tt). destruct Hk1 as [K1 K2], Hk as [H1 H2].
    split; cbn; [|exact K2]. intros p [->|?]%lookup_insert_is_Some'; [by eapply H2|by apply H1].
  - destruct (reply_closed r); [|by apply wp_ret]. apply wp_run_modify.
    destruct (err (cl s)); [apply wp_throw|apply wp_ret]; grown.
Qed.

Lemma known_route data : keepsKnown (route data).
Proof.
  intros s Hw Hk. unfold route. destruct (sonic_envelope data) as [env|]; [|by apply wp_ret].
  apply wp_run_get. case_decide.
  { destruct (subs (cl s) !! _) as [q|] eqn:Hq; [|by apply wp_ret]. unfold offerEntry. apply wp_run_get.
    destruct (inv_subs_open _ Hw _ _ Hq) as (en & He & Hcl). rewrite He, Hcl. apply (wp_ret tt). grown. }
  apply wp_run_modify, wp_bind. apply (wp_mono _ (λ _, known) _ (λ _ _, False)); [|intros ? s1 Hk1|done].
  - destruct (pending _ !! _) as [[c [q|]]|]; try (apply (wp_ret tt); by grown).
    destruct (env_Error env); [apply (wp_ret tt); by grown|].
    destruct (sonic_uint64 _); apply (wp_ret tt); grown.
  - destruct (pending _ !! _); apply (wp_ret tt); grown.
Qed.

Lemma known_deliver : keepsKnown deliver.
Proof.
  intros s Hw Hk. unfold deliver. apply wp_run_get. destruct (routing s) as [[c resp]|] eqn:Hr; [|by apply wp_ret].
  destruct (inv_routing _ Hw _ _ Hr) as [Hi _]. apply wp_run_modify. unfold sendReply. apply wp_run_get. cbn.
  unfold idle_reply in Hi. rewrite Hi. apply (wp_ret tt). grown.
Qed.

Lemma known_fail e : keepsKnown (fail_ e).
Proof.
  intros s Hw Hk. eapply wp_mono; [by apply fail_frame| |done].
  intros _ s' (_ & Hc & Hh & He & _). eapply known_mono; eauto. by rewrite Hc.
Qed.

Lemma known_Release p : keepsKnown (Release p).
Proof.
  intros s Hw Hk. unfold Release. apply wp_run_get. destruct (handles s !! p) as [h|]; [|by apply wp_ret].
  destruct (subs (cl s) !! sub_id h) as [q|] eqn:Hq; [|by apply wp_ret]. case_decide; [|by apply wp_ret].
  apply wp_run_modify. unfold closeEntry. apply wp_run_get. cbn.
  destruct (inv_subs_open _ Hw _ _ Hq) as (e & He & Hcl). rewrite He, Hcl. apply (wp_ret tt). grown.
Qed.

Lemma known_exec ev : keepsKnown (exec ev).
Proof.
  intros s Hw Hk. destruct ev as [b|ch|ch|ch|ch|data| |e|p|p]; cbn [exec].
  - apply wp_bind. eapply wp_mono; [by apply known_requestStart|intros; by apply wp_ret|done].
  - by apply known_abandon.
  - by apply known_abandon.
  - unfold awaitClosed. apply wp_run_get. destruct (calls s !! ch), (closed (cl s)), (err (cl s)); try (by apply wp_ret).
    apply wp_run_modify, wp_throw. grown.
  - by apply known_awaitReply.
  - apply wp_run_get. destruct (routing s); [by apply wp_ret|by apply known_route].
  - by apply known_deliver.
  - by apply known_fail.
  - apply wp_bind. unfold Recv. apply wp_run_get. destruct (entries s !! p) as [e|]; [|by apply wp_ret].
    destruct (ch_buf e); [destruct (ch_closed e); [by apply wp_throw|by apply wp_ret]|].
    apply wp_run_modify, wp_ret. grown.
  - by apply known_Release.
Qed.

End tracking.

(** * Waiting *)

Section waiting.
Context `{sonic : Sonic} `{sonicSig : SonicSignature}.

(** A fact about the WebSocket client that the steps of others keep, while the
    goroutine holds the request and the subscription of [w0]. *)
Definition tame (T : world → Prop) (w0 : env) : Prop :=
  ∀ ev s, foreign ev w0 = true → ws_inv s → T s → wp (exec ev) (λ _, T) (λ _, T) s.

(** [w] is [w0] some time later, with nothing done by the goroutine. *)
Record later (T : world → Prop) (w0 w : env) : Prop := {
  lt_inv : ws_inv (wsw w);
  lt_T : T (wsw w);
  lt_now : now w0 ≤ now w;
  lt_log : log w = log w0;
  lt_ch : own_ch w = own_ch w0;
  lt_sub : own_sub w = own_sub w0;
}.

Lemma later_refl T w : ws_inv (wsw w) → T (wsw w) → later T w w.
Proof. by split. Qed.

Lemma later_trans T w0 w1 w : later T w0 w1 → later T w1 w → later T w0 w.
Proof. intros [] []. split; [done|done|lia|congruence..]. Qed.

Lemma later_same T w0 w w' :
  later T w0 w → wsw w' = wsw w → now w' = now w → log w' = log w → own_ch w' = own_ch w → own_sub w' = own_sub w →
  later T w0 w'.
Proof. intros [] H1 H2 H3 H4 H5. split; congruence. Qed.

Lemma tame_weaken T w0 w : own_ch w = own_ch w0 → own_sub w = own_sub w0 → tame T w0 → tame T w.
Proof. intros Hc Hs Ht ev s Hf. apply Ht. unfold foreign in *. by rewrite Hc, Hs in Hf. Qed.

Lemma tame_later T w0 w : tame T w0 → later T w0 w → tame T w.
Proof. intros Ht []. by eapply tame_weaken. Qed.

Lemma perform_later T w0 w a :
  tame T w0 → later T w0 w → wp (perform a) (λ _ w', later T w0 w' ∧ script w' = script w) (λ _ _, False) w.
Proof.
  intros Ht Hl. pose proof Hl as [H1 H2 H3 H4 H5 H6]. destruct a as [d|ev|a|k]; cbn [perform].
  - apply (wp_ret tt). split; [|done]. split; cbn; try done. lia.
  - apply wp_run_get. destruct (foreign ev w) eqn:Hf; [|by apply wp_ret]. apply wp_bind.
    assert (foreign ev w0 = true) as Hf0 by (unfold foreign in *; by rewrite H5, H6 in Hf).
    pose proof (exec_safe ev _ H1) as Hs. pose proof (Ht ev _ Hf0 H1 H2) as HT.
    unfold wp, onWs in *. destruct (exec ev (wsw w)) as [[u|e|] s]; [by split..|done].
  - apply wp_run_get. destruct (calling w), (answer w); try (by apply wp_ret). by split.
  - by apply wp_ret.
Qed.

Lemma firstReady_ready i ready w k : firstReady i ready w = Some k → ∃ r, ready !! (k - i)%nat = Some r ∧ r w = true ∧ (i ≤ k)%nat.
Proof.
  revert i. induction ready as [|r ready IH]; intros i; cbn; [done|]. destruct (r w) eqn:Hr.
  - intros [= <-]. exists r. by rewrite Nat.sub_diag.
  - intros (r' & H1 & H2 & H3)%IH. exists r'. replace (k - i)%nat with (S (k - S i)) by lia. split_and!; [done..|lia].
Qed.

(** The case taken was ready. *)
Lemma pick_ready k ready w i : pick k ready w = Some i → ∃ r, ready !! i = Some r ∧ r w = true.
Proof.
  unfold pick. intros H. assert (firstReady 0 ready w = Some i → ∃ r, ready !! i = Some r ∧ r w = true) as Hf.
  { intros (r & H1 & H2 & _)%firstReady_ready. rewrite Nat.sub_0_r in H1. by exists r. }
  destruct (ready !! k) as [r|] eqn:Hk; [|by apply Hf]. destruct (r w) eqn:Hr; [|by apply Hf].
  injection H as <-. by exists r.
Qed.

Lemma await_later T w0 ready sc w :
  tame T w0 → later T w0 w →
  wp (await ready sc) (λ i w', later T w0 w' ∧ ∃ r, ready !! i = Some r ∧ r w' = true)
     (λ _, later T w0) w.
Proof.
  intros Ht. revert w. induction sc as [|a sc IH]; intros w Hl; cbn [await].
  - apply wp_run_modify, wp_throw. by eapply later_same.
  - apply wp_run_modify, wp_bind. eapply wp_mono; [apply (perform_later T w0 _ a Ht); by eapply later_same| |done].
    intros _ w' [Hl' _]. apply wp_run_get. destruct a as [d|ev|a|k]; try (by apply IH).
    destruct (pick k ready w') as [i|] eqn:Hp; [|by apply IH]. apply wp_ret. split; [done|]. by eapply pick_ready.
Qed.

Lemma select_later T w0 ready w :
  tame T w0 → later T w0 w →
  wp (select ready) (λ i w', later T w0 w' ∧ ∃ r, ready !! i = Some r ∧ r w' = true) (λ _, later T w0) w.
Proof. intros. apply wp_run_get. by apply await_later. Qed.

Lemma httpCall_later T w0 ctx w :
  tame T w0 → later T w0 w → wp (httpCall ctx) (λ _, later T w0) (λ _, later T w0) w.
Proof.
  intros Ht Hl. unfold httpCall. apply wp_run_modify, wp_bind.
  eapply wp_mono; [apply select_later; [done|by eapply later_same]| |done].
  intros k w' [Hl' _]. apply wp_run_get, wp_run_modify. assert (later T w0 (set_call false None w')) by (by eapply later_same).
  destruct k, (answer w'); by apply wp_ret.
Qed.

(** What a step of the goroutine on the WebSocket client leaves. *)
Lemma onWs_wp {A} (m : M A) Q w :
  wp m (λ a s, Q (inr a) (set_ws s w)) (λ e s, Q (inl e) (set_ws s w)) (wsw w) → wp (onWs m) Q (λ _ _, False) w.
Proof. unfold wp, onWs. by destruct (m (wsw w)) as [[a|e|] s]. Qed.

Lemma wp_and {S E A} (m : GoM S E A) Q Q' R R' s :
  wp m Q R s → wp m Q' R' s → wp m (λ a s', Q a s' ∧ Q' a s') (λ e s', R e s' ∧ R' e s') s.
Proof. unfold wp. by destruct (m s) as [[a|e|] s']. Qed.

(** The facts [tracks] states are kept by the others. *)
Lemma tame_tracks p co hd reg w :
  (reg = false → co = None) → (∀ ch, co = Some ch → own_ch w = Some ch) → tame (tracks p co hd reg) w.
Proof.
  intros Hreg Hco ev s Hf Hw Ht. apply tracks_exec; [done| |done|done].
  destruct ev; try done. intros Hch. cbn in Hf. apply bool_decide_eq_true in Hf. apply Hf. by apply Hco.
Qed.

Lemma onWs_kept {A} (m : M A) p co hd reg w0 w :
  safe m → keepsTracks p co hd reg m → later (tracks p co hd reg) w0 w →
  wp (onWs m) (λ _, later (tracks p co hd reg) w0) (λ _ _, False) w.
Proof.
  intros Hs Hk [H1 H2 H3 H4 H5 H6]. apply onWs_wp.
  eapply wp_mono; [apply wp_and; [by apply Hs|by apply Hk]|..]; cbn; by intros ? s' [? ?].
Qed.

(** A request of the goroutine that does not touch the subscription [p]. *)
Lemma request_kept p hd reg ctx w :
  ws_inv (wsw w) → tracks p None hd reg (wsw w) →
  wp (request ctx false) (λ _ w', later (tracks p None hd reg) (set_own_ch (own_ch w') w) w') (λ _ w', ws_inv (wsw w')) w.
Proof.
  intros Hw Ht. unfold request. apply wp_bind. eapply wp_mono;
    [apply (onWs_kept _ p None hd reg w); [apply requestStart_safe|by apply tracks_requestStart|by apply later_refl]| |done].
  intros r w1 Hl. set (Q := λ (_ : ws_err + unit) w', later (tracks p None hd reg) (set_own_ch (own_ch w') w) w').
  assert (∀ r w', later (tracks p None hd reg) (set_own_ch (own_ch w') w) w' → Q r w') as HQ by done.
  destruct r as [e|ch]; [apply wp_ret, HQ; destruct Hl; by split|].
  apply wp_run_modify. set (w2 := set_own_ch _ _).
  assert (later (tracks p None hd reg) w2 w2) as Hl2 by (destruct Hl; by split).
  assert (∀ w', later (tracks p None hd reg) w2 w' → later (tracks p None hd reg) (set_own_ch (own_ch w') w) w') as Hback.
  { intros w' Hx. destruct Hl as [? ? ? ? Hc Hs], Hx as [? ? ? ? Hc' Hs']. cbn in *. split; cbn; [done|done|lia|congruence|done|congruence]. }
  assert (∀ m : M unit, safe m → keepsTracks p None hd reg m → ∀ w', later (tracks p None hd reg) w2 w' →
    wp (onWs m) Q (λ _ w', ws_inv (wsw w')) w') as Hend.
  { intros m Hm Hk w' Hx. eapply wp_mono; [by apply (onWs_kept m p None hd reg w2)|intros; by apply Hback|done]. }
  assert (tame (tracks p None hd reg) w2) as Hta by (by apply tame_tracks).
  apply wp_bind. eapply wp_mono; [by apply select_later| |by intros ? ? []].
  intros k w3 [Hl3 _]. case_decide; [by apply Hend; [apply abandon_safe|apply tracks_abandon|]|].
  apply wp_bind. eapply wp_mono; [by apply select_later| |by intros ? ? []].
  intros i w4 [Hl4 _]. destruct i as [|[|i]].
  - apply Hend; [apply awaitReply_safe|by apply tracks_awaitReply|done].
  - apply Hend; [apply abandon_safe|by apply tracks_abandon|done].
  - apply Hend; [apply awaitClosed_safe|by apply tracks_awaitClosed|done].
Qed.

(** A subscribe request starts with an entry of its own. *)
Lemma tracks_start s :
  ws_inv s → known s → let p := base.fresh (dom (entries s)) in
  wp (requestStart true) (λ ch s', ∃ id, requesting p ch id s') (λ _, unregistered p) s.
Proof.
  intros Hw [Hk1 Hk2] p. assert (entries s !! p = None) as Hp by apply fresh_not_in.
  assert (∀ q, is_Some (entries s !! q) → q ≠ p) as Hne by (intros q [? Hq] ->; congruence).
  unfold requestStart. apply wp_run_get, wp_run_modify, wp_run_modify, wp_run_modify.
  assert (∀ k, subs (cl s) !! k ≠ Some p) as Hns.
  { intros k Hx. destruct (inv_subs_open _ Hw _ _ Hx) as (e & He & _). by apply (Hne p). }
  assert (∀ id r, pending (cl s) !! id = Some r → p_entry r ≠ Some p) as Hnp.
  { intros id r Hx Hr. destruct (inv_pend_open _ Hw _ _ _ Hx Hr) as [(e & He & _) _]. by apply (Hne p). }
  destruct (err (cl s)); [by apply wp_throw|]. apply wp_run_modify, wp_run_modify, wp_ret.
  eexists. split; split; cbn.
  - rewrite lookup_insert_eq. by eexists.
  - intros ch [= <-]. rewrite lookup_insert_eq. by eexists.
  - intros c id [[<- _]|[_ Hx]]%lookup_insert_Some; [done|]. exfalso. apply (Hne p); [by eapply Hk2|done].
  - intros id r [[_ <-]|[_ Hx]]%lookup_insert_Some Hr; [done|]. by destruct (Hnp id r).
  - destruct (handles s !! p) eqn:Hh; [|done]. exfalso. apply (Hne p); [apply Hk1; by rewrite Hh|done].
  - intros k Hx. by destruct (Hns k).
  - apply lookup_insert_eq.
  - intros id' r [[<- _]|[_ Hx]]%lookup_insert_Some Hr; [done|]. by destruct (Hnp id' r).
Qed.

(** A subscribe call that gave up: its context ended or its write failed, no request
    refers to its entry, and the entry is registered only if the acknowledgement of the
    server had arrived by then: the reply that holds the id is still on its way to the
    channel that the call left, or lies in it unread. *)
Definition leaves (p : nat) (e : ws_err) (w : env) : Prop :=
  (e = errContext ∨ e = errWrite) ∧ ∃ ch, own_ch w = Some ch ∧ givenUp p ch (wsw w).

(** What a subscribe request leaves: the subscription it yields is the only use of
    its entry; without one the entry is not used, unless the call gave up. *)
Definition subscribes (p : nat) (w : env) (r : ws_err + unit) (w' : env) : Prop :=
  later (λ _, True) (set_own_ch (own_ch w') w) w' ∧
  match r with
  | inl e => unregistered p (wsw w') ∨ leaves p e w'
  | inr _ => if handles (wsw w') !! p is Some _ then ∃ k, tracks p None (Some (mkSubscription k p)) true (wsw w')
             else unregistered p (wsw w')
  end.

Lemma requesting_later p ch id w w0 w' s :
  own_sub w0 = own_sub w → log w0 = log w → now w ≤ now w0 → later (requesting p ch id) w0 w' → ws_inv s →
  later (λ _, True) (set_own_ch (own_ch (set_ws s w')) w) (set_ws s w').
Proof. intros ??? [H1 H2 H3 H4 H5 H6] ?. split; cbn; [done|done|lia|congruence|done|congruence]. Qed.

Lemma tame_requesting p ch id w : own_ch w = Some ch → tame (requesting p ch id) w.
Proof.
  intros Hch ev s Hf Hw [Ht Ha].
  assert (match ev with EvWriteError c | EvContext c | EvClosed c | EvReply c => ch ≠ c | _ => True end) as Hev.
  { destruct ev; try done; cbn in Hf; apply bool_decide_eq_true in Hf; intros ->; by apply Hf. }
  apply wp_and; [|by apply asked_exec]. apply tracks_exec; [done| |done|done]. destruct ev; try done. by intros [= ->].
Qed.

Lemma request_subscribes ctx w :
  ws_inv (wsw w) → known (wsw w) →
  wp (request ctx true) (subscribes (base.fresh (dom (entries (wsw w)))) w) (λ _ w', ws_inv (wsw w')) w.
Proof.
  intros Hw Hk. set (p := base.fresh _). unfold request. apply wp_bind.
  eapply wp_mono with (R := λ _ _, False);
    [apply onWs_wp; eapply wp_mono; [apply wp_and; [by apply requestStart_safe|by apply tracks_start]|..]|intros r w1 H; exact H|done]; cbn.
  - intros ch s1 [Hs1 [id Ht1]]. apply wp_run_modify. set (w1 := set_own_ch _ _).
    assert (later (requesting p ch id) w1 w1) as Hl1 by (by apply later_refl).
    assert (tame (requesting p ch id) w1) as Hta by (by apply tame_requesting).
    assert (∀ w' (m : M unit) P Q, later (requesting p ch id) w1 w' → safe m → wp m P Q (wsw w') →
      (∀ s, ws_inv s → P tt s → subscribes p w (inr tt) (set_ws s w')) →
      (∀ e s, ws_inv s → Q e s → subscribes p w (inl e) (set_ws s w')) →
      wp (onWs m) (subscribes p w) (λ _ w', ws_inv (wsw w')) w') as Hend.
    { intros w' m P Q Hl Hm Hr HP HQ. eapply wp_mono with (R := λ _ _, False); [|done|done]. apply onWs_wp.
      eapply wp_mono; [apply wp_and; [by apply Hm, Hl|exact Hr]|..]; cbn; [intros [] s' [Hi H]|intros e s' [Hi H]]; auto. }
    assert (∀ w' s, later (requesting p ch id) w1 w' → ws_inv s → later (λ _, True) (set_own_ch (own_ch (set_ws s w')) w) (set_ws s w')) as Hback.
    { intros w' s Hl Hi. eapply (requesting_later p ch id w w1); [done|done|cbn; lia|done|done]. }
    assert (∀ w' e, later (requesting p ch id) w1 w' → e = errContext ∨ e = errWrite →
      wp (onWs (abandon ch e)) (subscribes p w) (λ _ w', ws_inv (wsw w')) w') as Hab.
    { intros w' e Hl He. eapply Hend; [done|apply abandon_safe|by eapply abandon_ends, Hl|done|].
      intros e' s Hi [-> Hg]. split; [by apply Hback|right]. split; [done|].
      exists ch. split; [|done]. cbn. by rewrite (lt_ch _ _ _ Hl). }
    apply wp_bind. eapply wp_mono; [by apply select_later| |by intros ? ? []].
    intros k w3 [Hl3 _]. case_decide; [by apply Hab; [|right]|].
    apply wp_bind. eapply wp_mono; [by apply select_later| |by intros ? ? []].
    intros i w4 [Hl4 (r & Hi & Hready)]. pose proof (lt_inv _ _ _ Hl4) as Hw4. pose proof (lt_T _ _ _ Hl4) as Ht4.
    destruct i as [|[|[|i]]]; cbn in Hi; try done; injection Hi as <-.
    + eapply Hend; [done|apply awaitReply_safe|eapply tracks_subscribed; [done|exact Ht4|]|..].
      * unfold replyReady in Hready. destruct (replies (wsw w4) !! ch) as [r|]; [|done]. exists r. split; [done|].
        apply orb_true_iff in Hready as [?|?%bool_decide_eq_true]; [by left|by right].
      * intros s Hs Hx. split; [by apply Hback|]. exact Hx.
      * intros e s Hs Hx. split; [by apply Hback|]. by left.
    + by apply Hab; [|left].
    + eapply Hend; [done|apply awaitClosed_safe|by eapply awaitClosed_ends|done|].
      intros e s Hs Hx. split; [by apply Hback|]. by left.
  - intros e s1 [Hs1 Hu]. split; [by split|]. by left.
Qed.

Lemma SignatureSubscribe_spec ctx sig commitment w :
  ws_inv (wsw w) → known (wsw w) →
  wp (SignatureSubscribe ctx sig commitment) (λ r w',
      ws_inv (wsw w') ∧ now w ≤ now w' ∧ log w' = log w ++ [Subscribed sig (signatureOpts commitment false)] ∧
      match r with
      | inl e => ∃ p, own_sub w' = Some p ∧ (unregistered p (wsw w') ∨ leaves p e w')
      | inr p => own_sub w' = Some p ∧ ∃ k, tracks p None (Some (mkSubscription k p)) true (wsw w')
      end) (λ _ w', ws_inv (wsw w')) w.
Proof.
  intros Hw Hk. unfold SignatureSubscribe, emit. apply wp_run_modify, wp_run_get, wp_run_modify, wp_bind.
  eapply wp_mono; [by apply request_subscribes| |done]. intros r w' [[H1 _ H3 H4 H5 H6] Hs]. cbn in *.
  apply wp_run_get, wp_ret. split_and!; [done|done|done|]. destruct r as [e|[]]; [by eexists|].
  destruct (handles _ !! _) eqn:Hh; [by split|]. eexists. split; [done|]. by left.
Qed.

(** After the release the subscription is nowhere. *)
Definition released (p : nat) (s : world) : Prop := ∃ k, tracks p None (Some (mkSubscription k p)) false s.

Lemma released_gone p s : released p s → unregistered p s.
Proof.
  intros [k [H1 H2 H3 H4 Hd H5]]. split.
  - intros id Hid. by destruct (H5 id Hid).
  - intros id r Hr Hp. by specialize (H4 id r Hr Hp).
Qed.

Definition cleaned (p : nat) (w w' : env) : Prop :=
  ws_inv (wsw w') ∧ released p (wsw w') ∧ log w' = log w ∧ now w ≤ now w' ∧ own_sub w' = own_sub w.

Lemma ReleaseSub_spec p k w :
  ws_inv (wsw w) → tracks p None (Some (mkSubscription k p)) true (wsw w) →
  wp (ReleaseSub p) (λ _ w', later (tracks p None (Some (mkSubscription k p)) false) w w') (λ _ w', ws_inv (wsw w')) w.
Proof.
  intros Hw Ht. unfold ReleaseSub. apply wp_bind. eapply wp_mono with (R := λ _ _, False); [|intros r w' H; exact H|done].
  apply onWs_wp. eapply wp_mono; [apply wp_and; [by apply Release_safe|by eapply tracks_released]|..]; cbn.
  - intros _ s' [? ?]. by split.
  - by intros ? ? [_ []].
Qed.

Lemma unsubscribe_spec ctx p k w :
  ws_inv (wsw w) → tracks p None (Some (mkSubscription k p)) true (wsw w) →
  wp (unsubscribe ctx p) (λ _, cleaned p w) (λ _ w', ws_inv (wsw w')) w.
Proof.
  intros Hw Ht. unfold unsubscribe, clock, Unsubscribe. apply wp_bind, wp_run_get, wp_ret, wp_bind, wp_bind.
  eapply wp_mono; [by eapply ReleaseSub_spec| |done]. intros _ w1 [H1 H2 H3 H4 H5 H6].
  eapply wp_mono; [by apply request_kept| |done]. intros r w' [K1 K2 K3 K4 K5 K6]. cbn in *.
  split_and!; [done|by exists k|congruence|lia|congruence].
Qed.

Lemma cleanup_spec ctx p k err w :
  ws_inv (wsw w) → tracks p None (Some (mkSubscription k p)) true (wsw w) →
  wp (cleanupSubscription ctx p err) (λ _, cleaned p w) (λ _ w', ws_inv (wsw w')) w.
Proof.
  intros Hw Ht. unfold cleanupSubscription.
  assert (wp (ReleaseSub p) (λ _, cleaned p w) (λ _ w', ws_inv (wsw w')) w) as Hrel.
  { eapply wp_mono; [by eapply ReleaseSub_spec| |done]. intros _ w' []. split_and!; try done. by exists k. }
  destruct err as [[]|]; try (by eapply unsubscribe_spec); done.
Qed.

(** * Outcomes *)

(** The commitments in the order a transaction passes through them; a target that
    is none of them stands for the last. *)
Definition levels : list string := ["processed"; "confirmed"; "finalized"].
Definition level (c : string) : option nat := fst <$> list_find (.= c) levels.

(** The status is at the target or beyond it; without a level, only a rooted
    transaction (no confirmation count) is. *)
Definition satisfies (target : CommitmentType) (status : SignatureStatusesResult) : bool :=
  match level (ConfirmationStatus status) with
  | Some got => bool_decide (default 2%nat (level target) ≤ got)%nat
  | None => bool_decide (Confirmations status = None)
  end.

Lemma reached_satisfies target status : reached target status = satisfies target status.
Proof.
  unfold reached, rank, satisfies, level, levels. cbn -[decide].
  unfold ConfirmationStatusProcessed, ConfirmationStatusConfirmed, ConfirmationStatusFinalized, CommitmentProcessed, CommitmentConfirmed.
  repeat case_decide; subst; cbn; try congruence; try done; exfalso; lia.
Qed.

(** What an observation says of the transaction: nothing yet, or that it reached
    the commitment, without or with an execution error. *)
Definition verdict (target : CommitmentType) (c : call) : option (option bytes) :=
  match c with
  | Got raw => v ← decodeResult raw; if Received v then None else Some (ValueErr v)
  | Polled _ (inr (Some status :: _)) => if satisfies target status then Some (StatusErr status) else None
  | _ => None
  end.

Definition undecided (target : CommitmentType) : list call → Prop := Forall (λ c, verdict target c = None).

(** The result the observations give: the first verdict ends the wait. *)
Definition settled (target : CommitmentType) (obs : list call) (err : option confirm_err) : Prop :=
  match err with
  | None => ∃ init c, obs = init ++ [c] ∧ undecided target init ∧ verdict target c = Some None
  | Some (ExecutionError e) => ∃ init c, obs = init ++ [c] ∧ undecided target init ∧ verdict target c = Some (Some e)
  | Some _ => undecided target obs
  end.

(** A timeout is reported at the deadline, by a caller whose own context is still
    alive; a context error only when that context has ended. *)
Definition timely (ctx : context) (deadline t : Z) (err : option confirm_err) : Prop :=
  match err with
  | Some ErrTimeout => deadline ≤ t ∧ ctxErr t ctx = None
  | Some (errCtx _) => is_Some (ctxErr t ctx)
  | _ => True
  end.

Lemma ctxErr_WithTimeout t0 ctx d t e :
  ctxErr t (WithTimeout t0 ctx d) = Some e → ctxErr t ctx = None → e = DeadlineExceeded ∧ t0 + d ≤ t.
Proof. unfold WithTimeout, ctxErr. destruct ctx as [[u e']|]; repeat case_decide; naive_solver lia. Qed.

Lemma settled_cons target c obs err :
  verdict target c = None → settled target obs err → settled target (c :: obs) err.
Proof.
  intros Hc. destruct err as [[]|]; cbn; try (by constructor).
  all: intros (init & d & -> & Hi & Hd); exists (c :: init), d; split_and!; [done|by constructor|done].
Qed.

(** The result of a wait that started in [w] with the deadline [deadline]. *)
Definition waited (ctx : context) (target : CommitmentType) (deadline : Z) (w : env) (err : option confirm_err) (w' : env) : Prop :=
  ∃ obs, log w' = log w ++ obs ∧ settled target obs err ∧ timely ctx deadline (now w') err.

Lemma waited_now ctx target deadline w err w' :
  log w' = log w → timely ctx deadline (now w') err →
  match err with None | Some (ExecutionError _) => False | _ => True end → waited ctx target deadline w err w'.
Proof.
  intros Hl Ht He. exists []. rewrite app_nil_r. split_and!; [done| |done]. destruct err as [[]|]; try done; by constructor.
Qed.

Lemma waited_step ctx target deadline w w1 c err w' :
  log w1 = log w ++ [c] → verdict target c = None →
  waited ctx target deadline w1 err w' → waited ctx target deadline w err w'.
Proof.
  intros Hl Hc (obs & Hx & Hs & Ht). exists (c :: obs). split_and!; [|by apply settled_cons|done].
  by rewrite Hx, Hl, <- app_assoc.
Qed.

Lemma waited_verdict ctx target deadline w w' c (r : option bytes) :
  log w' = log w ++ [c] → verdict target c = Some r →
  waited ctx target deadline w (ExecutionError <$> r) w'.
Proof.
  intros Hl Hc. exists [c]. split_and!; [done| |by destruct r].
  destruct r as [e|]; exists [], c; (split_and!; [done|constructor|done]).
Qed.

(** [Recv]: what it took is the last thing logged. *)
Definition received (ctx : context) (w : env) (r : confirm_err + SignatureResultValue) (w' : env) : Prop :=
  match r with
  | inl e => (log w' = log w ∧ match e with
                               | errCtx _ => is_Some (ctxErr (now w') ctx)
                               | errRecv _ => True
                               | _ => False
                               end) ∨
             (e = errDecoding ∧ ∃ raw, log w' = log w ++ [Got raw] ∧ decodeResult raw = None)
  | inr v => ∃ raw, log w' = log w ++ [Got raw] ∧ decodeResult raw = Some v
  end.

(** The goroutine still holds what it held in [w]. *)
Definition still (T : world → Prop) (w w' : env) : Prop :=
  ws_inv (wsw w') ∧ T (wsw w') ∧ now w ≤ now w' ∧ own_sub w' = own_sub w.

Lemma RecvResult_spec p hd ctx w :
  ws_inv (wsw w) → tracks p None hd true (wsw w) →
  wp (RecvResult p ctx) (λ r w', still (tracks p None hd true) w w' ∧ received ctx w r w') (λ _ w', ws_inv (wsw w')) w.
Proof.
  intros Hw Ht. unfold RecvResult. apply wp_bind.
  eapply wp_mono; [apply (select_later (tracks p None hd true) w); [by apply tame_tracks|by apply later_refl]| |by intros ? ? []].
  intros k w1 [Hl (r & Hk & Hr)]. destruct k as [|[|k]]; [| |done].
  - apply wp_bind. eapply wp_mono with (R := λ _ _, False);
      [apply onWs_wp; eapply wp_mono; [apply wp_and; [by apply Recv_safe, Hl|by apply tracks_Recv; apply Hl]|..]|intros a w2 H; exact H|done];
      destruct Hl as [H1 H2 H3 H4 H5 H6]; cbn.
    + intros [raw|] s' [Hs Ht']; [|done]. apply wp_run_modify, wp_ret.
      destruct (decodeResult raw) as [v|] eqn:Hd; (split; [done|]); cbn; rewrite H4; [by exists raw|].
      right. split; [done|]. by exists raw.
    + intros e s' [Hs Ht']. split; [done|]. by left.
  - injection Hk as <-. apply bool_decide_eq_true in Hr. destruct Hl as [H1 H2 H3 H4 H5 H6].
    apply wp_bind, wp_run_get, wp_ret, wp_ret. split; [done|]. by left.
Qed.

Lemma recvLoop_spec fuel ctx target t0 d p hd w :
  ws_inv (wsw w) → tracks p None hd true (wsw w) →
  wp (recvLoop fuel ctx (WithTimeout t0 ctx d) p) (λ err w',
      still (tracks p None hd true) w w' ∧ waited ctx target (t0 + d) w err w') (λ _ w', ws_inv (wsw w')) w.
Proof.
  revert w. induction fuel as [|fuel IH]; intros w Hw Ht; cbn [recvLoop]; [by apply wp_throw|].
  apply wp_bind. eapply wp_mono; [by apply RecvResult_spec| |done]. intros r w1 [Hs Hr].
  pose proof Hs as (H1 & H2 & H3 & H4). destruct r as [e|v].
  - apply wp_bind, wp_run_get, wp_ret. case_decide as Hd; apply wp_ret; (split; [done|]).
    + destruct Hd as [Hd Hc]. destruct (ctxErr_WithTimeout _ _ _ _ _ Hd Hc) as [_ Hle].
      destruct Hr as [[Hl _]|(-> & raw & Hl & Hx)]; [by apply waited_now|].
      eapply waited_step; [exact Hl|cbn; by rewrite Hx|]. by apply waited_now.
    + destruct Hr as [[Hl He]|(-> & raw & Hl & Hx)].
      * apply waited_now; [done| |by destruct e]. destruct e; try done. cbn. destruct (ctxErr (now w1) ctx) eqn:Hc; [done|].
        destruct He as [e' He]. destruct (ctxErr_WithTimeout _ _ _ _ _ He Hc) as [-> _]. by destruct Hd.
      * eapply waited_step; [exact Hl|cbn; by rewrite Hx|]. by apply waited_now.
  - destruct Hr as (raw & Hl & Hv). destruct v as [ve rc]. cbn [Received ValueErr]. destruct rc.
    + eapply wp_mono; [by apply IH| |done]. intros err w' [(K1 & K2 & K3 & K4) Hwt].
      split; [split_and!; [done|done|lia|congruence]|]. eapply waited_step; [exact Hl|cbn; by rewrite Hv|done].
    + pose proof (waited_verdict ctx target (t0 + d) w w1 (Got raw) ve Hl) as Hwv. cbn in Hwv. rewrite Hv in Hwv.
      destruct ve; apply wp_ret; (split; [done|]); by apply Hwv.
Qed.

Lemma waitOnSubscription_spec ctx target p hd opts w :
  ws_inv (wsw w) → tracks p None hd true (wsw w) →
  wp (waitOnSubscription ctx p opts) (λ err w', still (tracks p None hd true) w w' ∧
      waited ctx target (now w + (if decide (Timeout opts ≤ 0) then defaultTimeout else Timeout opts)) w err w')
    (λ _ w', ws_inv (wsw w')) w.
Proof.
  intros. unfold waitOnSubscription, clock. apply wp_bind, wp_run_get, wp_ret, wp_run_get. by apply recvLoop_spec.
Qed.

(** * Polling *)

Lemma GetSignatureStatuses_spec T ctx w :
  tame T w → ws_inv (wsw w) → T (wsw w) →
  wp (GetSignatureStatuses ctx) (λ r w', still T w w' ∧ own_ch w' = own_ch w ∧ log w' = log w ++ [Polled (now w') r])
     (λ _ w', ws_inv (wsw w')) w.
Proof.
  intros Ht Hw HT. unfold GetSignatureStatuses, clock. apply wp_bind.
  eapply wp_mono; [by apply (httpCall_later T w); [|apply later_refl]| |by intros ? ? []].
  intros r w' [H1 H2 H3 H4 H5 H6]. apply wp_bind, wp_run_get, wp_ret, wp_run_modify, wp_ret.
  cbn. rewrite H4. done.
Qed.

Definition freeTame (T : world → Prop) : Prop := ∀ w, tame T w.

(** The end of a round, after an observation without a verdict. *)
Lemma awaitTick_spec T ctx target t0 d tick again w w1 c :
  freeTame T → still T w w1 → log w1 = log w ++ [c] → verdict target c = None →
  (∀ t w2, ws_inv (wsw w2) → T (wsw w2) →
     wp (again t) (λ err w', still T w2 w' ∧ waited ctx target (t0 + d) w2 err w') (λ _ w', ws_inv (wsw w')) w2) →
  wp (awaitTick ctx (WithTimeout t0 ctx d) tick again)
     (λ err w', still T w w' ∧ waited ctx target (t0 + d) w err w') (λ _ w', ws_inv (wsw w')) w1.
Proof.
  intros Hta (H1 & H2 & H3 & H4) Hl Hc IH. apply wp_bind.
  eapply wp_mono; [apply (select_later T w1); [done|by apply later_refl]| |by intros ? ? []].
  intros i w2 [[K1 K2 K3 K4 K5 K6] (r & Hi & Hr)]. apply wp_bind, wp_run_get, wp_ret. destruct i as [|i].
  - injection Hi as <-. apply bool_decide_eq_true in Hr as [e Hr].
    assert (still T w w2) as Hst by (split_and!; [done|done|lia|congruence]).
    assert (log w2 = log w ++ [c]) as Hl2 by congruence.
    destruct (ctxErr (now w2) ctx) eqn:Hcx; apply wp_ret; (split; [done|]); (eapply waited_step; [exact Hl2|exact Hc|]);
      apply waited_now; try done; cbn; [by eexists|]. by destruct (ctxErr_WithTimeout _ _ _ _ _ Hr Hcx).
  - eapply wp_mono; [by apply IH| |done]. intros err w' [(L1 & L2 & L3 & L4) Hwt].
    split; [split_and!; [done|done|lia|congruence]|]. eapply waited_step; [|exact Hc|exact Hwt]. congruence.
Qed.

Lemma pollLoop_spec T fuel ctx target t0 d ti interval tick w :
  freeTame T → ws_inv (wsw w) → T (wsw w) →
  wp (pollLoop fuel ctx (WithTimeout t0 ctx d) target ti interval tick) (λ err w',
      still T w w' ∧ waited ctx target (t0 + d) w err w') (λ _ w', ws_inv (wsw w')) w.
Proof.
  intros Hta. revert tick w. induction fuel as [|fuel IH]; intros tick w Hw HT; cbn [pollLoop]; [by apply wp_throw|].
  apply wp_bind. eapply wp_mono; [by apply (GetSignatureStatuses_spec T)| |done].
  intros r w1 (Hs & _ & Hl). apply wp_bind, wp_run_get, wp_ret.
  assert (verdict target (Polled (now w1) r) = None →
    wp (awaitTick ctx (WithTimeout t0 ctx d) tick
          (λ t, pollLoop fuel ctx (WithTimeout t0 ctx d) target ti interval (nextTick ti interval t)))
     (λ err w', still T w w' ∧ waited ctx target (t0 + d) w err w') (λ _ w', ws_inv (wsw w')) w1) as Hn.
  { intros Hc. eapply awaitTick_spec; [done|done|exact Hl|done|]. intros. by apply IH. }
  destruct r as [e|[|[status|] rest]]; try (by apply Hn).
  - case_decide; [|by apply Hn]. apply wp_ret. split; [done|]. eapply waited_step; [exact Hl|done|]. by apply waited_now.
  - rewrite reached_satisfies. cbn in Hn. destruct (satisfies target status) eqn:Hr; [|by apply Hn].
    pose proof (waited_verdict ctx target (t0 + d) w w1 _ (StatusErr status) Hl) as Hwv. cbn in Hwv. rewrite Hr in Hwv.
    destruct (StatusErr status); apply wp_ret; (split; [done|]); by apply Hwv.
Qed.

Lemma waitViaPolling_spec T ctx target opts w :
  freeTame T → ws_inv (wsw w) → T (wsw w) →
  wp (waitViaPolling ctx target opts) (λ err w', still T w w' ∧
      waited ctx target (now w + (if decide (Timeout opts ≤ 0) then defaultTimeout else Timeout opts)) w err w')
    (λ _ w', ws_inv (wsw w')) w.
Proof.
  intros. unfold waitViaPolling, clock. apply wp_bind, wp_run_get, wp_ret, wp_run_get. by apply pollLoop_spec.
Qed.

Lemma SendTransactionWithOpts_spec T ctx tx opts w :
  tame T w → MarshalBinary tx ≠ Panic → ws_inv (wsw w) → T (wsw w) →
  wp (SendTransactionWithOpts ctx tx opts) (λ err w', still T w w' ∧ own_ch w' = own_ch w ∧
      match MarshalBinary tx with
      | Ok raw => log w' = log w ++ [Sent raw (ToMap opts)] ∧ ∀ e, err = Some e → ∃ e', e = errCall e'
      | Err e => log w' = log w ∧ err = Some (errMarshal e)
      | Panic => False
      end) (λ _ w', ws_inv (wsw w')) w.
Proof.
  intros Ht Hm Hw HT. unfold SendTransactionWithOpts. destruct (MarshalBinary tx) as [raw|e|]; [| |done].
  - apply wp_run_modify, wp_bind. set (w1 := record _ w).
    eapply wp_mono; [apply (httpCall_later T w1); [by eapply tame_weaken|by apply later_refl]| |by intros ? ? []].
    intros r w' [H1 H2 H3 H4 H5 H6]. apply wp_ret. split_and!; try done. intros e He. destruct r as [|[]]; naive_solver.
  - apply wp_ret. split_and!; [split_and!; done|done..].
Qed.

(** * The whole run *)

Definition wanted (opts : Opts) : CommitmentType :=
  if decide (Commitment opts = ""%string) then CommitmentFinalized else Commitment opts.
Definition sendWith (opts : Opts) : TransactionOpts :=
  let o := SendOpts opts in
  if decide (PreflightCommitment o = ""%string)
  then mkTransactionOpts (Encoding o) (SkipPreflight o) (wanted opts) (MaxRetries o) (MinContextSlot o) else o.
Definition timeoutOf (opts : Opts) : Z := if decide (Timeout opts ≤ 0) then defaultTimeout else Timeout opts.

Lemma Marshal_no_panic tx : MarshalBinary tx ≠ Panic.
Proof.
  unfold MarshalBinary, Message.MarshalBinary, Message.marshalV0. repeat case_decide; done.
Qed.

(** What the goroutine does, in order, and the error it returns: with a WebSocket
    client the subscription comes before the transaction is sent, and the
    observations of the wait come after. *)
Inductive journey (ws : bool) (ctx : context) (sig : Signature) (tx : Transaction) (opts : Opts) (t1 t2 : Z) :
    list call → option confirm_err → Prop :=
  | journey_subscribe e :
      ws = true → journey ws ctx sig tx opts t1 t2 [Subscribed sig (signatureOpts (wanted opts) false)] (Some (errSubscribe e))
  | journey_marshal e :
      MarshalBinary tx = Err e →
      journey ws ctx sig tx opts t1 t2 (if ws then [Subscribed sig (signatureOpts (wanted opts) false)] else []) (Some (errMarshal e))
  | journey_send raw e :
      MarshalBinary tx = Ok raw →
      journey ws ctx sig tx opts t1 t2
        ((if ws then [Subscribed sig (signatureOpts (wanted opts) false)] else []) ++ [Sent raw (ToMap (sendWith opts))]) (Some (errCall e))
  | journey_wait raw t t' obs err :
      MarshalBinary tx = Ok raw → t1 ≤ t ≤ t' → t' ≤ t2 →
      settled (wanted opts) obs err → timely ctx (t + timeoutOf opts) t' err →
      journey ws ctx sig tx opts t1 t2
        ((if ws then [Subscribed sig (signatureOpts (wanted opts) false)] else []) ++ [Sent raw (ToMap (sendWith opts))] ++ obs) err.

Definition arrived (ws : bool) ctx sig tx opts (w : env) (r : Signature * option confirm_err) (w' : env) : Prop :=
  r.1 = sig ∧ ws_inv (wsw w') ∧ (∃ l, log w' = log w ++ l ∧ journey ws ctx sig tx opts (now w) (now w') l r.2) ∧
  if ws then ∃ p, own_sub w' = Some p ∧ (unregistered p (wsw w') ∨ ∃ e, r.2 = Some (errSubscribe e) ∧ leaves p e w')
  else own_sub w' = own_sub w.

Lemma poll_run ctx sig sigs tx opts w :
  Signatures tx = sig :: sigs → ws_inv (wsw w) →
  wp (SendAndConfirmWithOpts (New true false) ctx (Some tx) opts) (arrived false ctx sig tx opts w)
     (λ _ w', ws_inv (wsw w')) w.
Proof.
  intros Hsig Hw. unfold SendAndConfirmWithOpts. rewrite Hsig. cbn [New negb].
  assert (freeTame (λ _, True)) as Hta.
  { intros w0 ev s _ Hs _. eapply wp_mono; [by apply exec_safe|done..]. }
  apply wp_bind. eapply wp_mono; [apply (SendTransactionWithOpts_spec (λ _, True)); [done|apply Marshal_no_panic|done|done]| |done].
  intros err w1 ((H1 & _ & H3 & H4) & _ & Hm). destruct (MarshalBinary tx) as [raw|e|] eqn:Hmb; [| |done].
  - destruct Hm as [Hl He]. destruct err as [e|].
    { destruct (He e eq_refl) as [e' ->]. apply wp_ret. split_and!; try done.
      eexists. split; [exact Hl|]. by apply (journey_send false). }
    apply wp_bind. eapply wp_mono; [by apply (waitViaPolling_spec (λ _, True))| |done].
    intros err w2 ((K1 & _ & K3 & K4) & obs & Ko & Ks & Kt). apply wp_ret. split_and!; try done; [|cbn; congruence].
    exists ([Sent raw (ToMap (sendWith opts))] ++ obs). split; [by rewrite Ko, Hl, <- app_assoc|]. apply (journey_wait false _ _ _ _ _ _ raw (now w1) (now w2)); try done; cbn; lia.
  - destruct Hm as [Hl ->]. apply wp_ret. split_and!; try done.
    exists []. split; [by rewrite app_nil_r|]. by apply (journey_marshal false).
Qed.

Lemma ws_run ctx sig sigs tx opts w :
  Signatures tx = sig :: sigs → ws_inv (wsw w) → known (wsw w) →
  wp (SendAndConfirmWithOpts (New true true) ctx (Some tx) opts) (arrived true ctx sig tx opts w)
     (λ _ w', ws_inv (wsw w')) w.
Proof.
  intros Hsig Hw Hk. unfold SendAndConfirmWithOpts. rewrite Hsig. cbn [New negb].
  apply wp_bind. eapply wp_mono; [by apply SignatureSubscribe_spec| |done].
  intros r w1 (G1 & G3 & Gl & Hr). destruct r as [e|p].
  { destruct Hr as (p & Hp & Hr). apply wp_ret. split_and!; try done.
    - eexists. split; [exact Gl|]. by apply journey_subscribe.
    - exists p. split; [done|]. destruct Hr; [by left|right]. by exists e. }
  destruct Hr as (Hp & k & Ht). apply wp_bind.
  eapply wp_mono; [apply (SendTransactionWithOpts_spec (tracks p None (Some (mkSubscription k p)) true));
    [by apply tame_tracks|apply Marshal_no_panic|done|done]| |done].
  intros err w2 ((H1 & H2 & H3 & H4) & _ & Hm). destruct err as [e|].
  - apply wp_bind. eapply wp_mono; [by eapply unsubscribe_spec| |done]. intros _ w3 (K1 & K2 & K3 & K4 & K5).
    apply wp_ret. split_and!; [done|done| |exists p; split; [cbn; congruence|left; by apply released_gone]].
    destruct (MarshalBinary tx) as [raw|e'|] eqn:Hmb; [| |done].
    + destruct Hm as [Hl He]. destruct (He e eq_refl) as [e' ->].
      eexists. split; [|by apply (journey_send true)]. cbn. by rewrite K3, Hl, Gl, <- app_assoc.
    + destruct Hm as [Hl [= ->]]. eexists. split; [|by apply (journey_marshal true)]. cbn. by rewrite K3, Hl, Gl.
  - destruct (MarshalBinary tx) as [raw|e'|] eqn:Hmb; [|by destruct Hm|done]. destruct Hm as [Hl _].
    apply wp_bind. eapply wp_mono; [by apply (waitOnSubscription_spec _ (wanted opts))| |done].
    intros err w3 ((K1 & K2 & K3 & K4) & obs & Ko & Ks & Kt). apply wp_bind.
    eapply wp_mono; [by eapply cleanup_spec| |done]. intros _ w4 (L1 & L2 & L3 & L4 & L5). apply wp_ret.
    split_and!; [done|done| |exists p; split; [cbn; congruence|left; by apply released_gone]].
    eexists. split; [|apply (journey_wait true _ _ _ _ _ _ raw (now w2) (now w3) obs)]; [|done|cbn; lia|done|done|done].
    cbn. by rewrite L3, Ko, Hl, Gl, <- !app_assoc.
Qed.

(** * The waits end *)

(** The scheduler's choices from [deadline] on. *)
Fixpoint lateRuns (deadline t : Z) (sc : list action) : list nat :=
  match sc with
  | [] => []
  | Advance d :: sc' => lateRuns deadline (t + Z.max 0 d) sc'
  | Run k :: sc' => if decide (deadline ≤ t) then k :: lateRuns deadline t sc' else lateRuns deadline t sc'
  | _ :: sc' => lateRuns deadline t sc'
  end.

Definition lateOf (deadline : Z) (w : env) : list nat := lateRuns deadline (now w) (script w).

Lemma perform_now a w :
  wp (perform a) (λ _ w', now w' = now w + match a with Advance d => Z.max 0 d | _ => 0 end ∧ script w' = script w)
     (λ _ _, True) w ∨ (perform a w).1 = Panic.
Proof.
  destruct a as [d|ev|a|k]; cbn [perform].
  - by left.
  - unfold wp, mbind, gom_bind, get, onWs. destruct (foreign ev w); [|left; split; [cbn; lia|done]].
    destruct (exec ev (wsw w)) as [[u|e|] s]; cbn; [left; split; [lia|done]..|by right].
  - left. apply wp_run_get. destruct (calling w), (answer w); try (split; [cbn; lia|done]).
  - left. split; [cbn; lia|done].
Qed.

Lemma firstReady_some i k ready w r : ready !! k = Some r → r w = true → is_Some (firstReady i ready w).
Proof.
  revert i k. induction ready as [|r' ready IH]; intros i k Hk Hr; [done|]. cbn. destruct (r' w) eqn:Hr'; [by eexists|].
  destruct k as [|k]; [cbn in Hk; congruence|]. by eapply IH.
Qed.

(** With case [k] ready, the goroutine goes on; with case [k], if the scheduler
    chooses it. *)
Lemma pick_some j k ready w r :
  ready !! k = Some r → r w = true → ∃ i, pick j ready w = Some i ∧ (j = k → i = k).
Proof.
  intros Hk Hr. destruct (firstReady_some 0 k ready w r Hk Hr) as [i Hi]. unfold pick.
  destruct (decide (j = k)) as [->|Hne]; [rewrite Hk, Hr; by exists k|].
  destruct (ready !! j) as [r'|]; [destruct (r' w)|]; eexists; (split; [done|]); done.
Qed.

(** A wait whose case [k] is ready from [deadline] on ends, at the latest with the
    first choice the scheduler makes then. *)
Definition woken (deadline : Z) (k : nat) (w : env) (n : nat) (late : list nat) (i : nat) (w' : env) : Prop :=
  (length (script w') < n)%nat ∧ now w ≤ now w' ∧
  (now w < deadline ∧ lateOf deadline w' = late ∨
   ∃ j, late = j :: lateOf deadline w' ∧ deadline ≤ now w' ∧ (j = k → i = k)).

Lemma await_wakes deadline k ready r sc w :
  ready !! k = Some r → (∀ w', deadline ≤ now w' → r w' = true) → ws_inv (wsw w) →
  lateRuns deadline (now w) sc ≠ [] →
  wp (await ready sc) (woken deadline k w (length sc) (lateRuns deadline (now w) sc)) (λ _ _, False) w.
Proof.
  intros Hk Hr. revert w. induction sc as [|a sc IH]; intros w Hw Hne; [done|]. cbn [await].
  apply wp_run_modify, wp_bind. set (w0 := set_script sc w).
  assert (later (λ _, True) w0 w0) as Hl by (by apply later_refl).
  assert (tame (λ _, True) w0) as Hta by (intros ev s _ Hs _; eapply wp_mono; [by apply exec_safe|done..]).
  pose proof (perform_later _ _ _ a Hta Hl) as Hp. destruct (perform_now a w0) as [Hn|Hn].
  2: { unfold wp in Hp. destruct (perform a w0) as [[]]; cbn in Hn; [done..|]. done. }
  eapply wp_mono; [apply wp_and; [exact Hp|exact Hn]| |by intros ? ? [[] _]].
  intros _ w1 [[Hl1 Hs1] [Hn1 _]]. apply wp_run_get. cbn in Hs1, Hn1. destruct Hl1 as [Hw1 _ _ _ _ _].
  assert (∀ l, lateRuns deadline (now w1) sc = l → l ≠ [] →
    wp (await ready sc) (woken deadline k w (S (length sc)) l) (λ _ _, False) w1) as Hrec.
  { intros l <- Hl'. eapply wp_mono; [by apply IH| |done]. intros i w' (K1 & K2 & K3). 
    split_and!; [lia|destruct a; lia|]. destruct K3 as [[? ?]|K3]; [left; split; [destruct a; lia|done]|by right]. }
  destruct a as [d|ev|a|j]; cbn [lateRuns] in *; try (apply Hrec; [f_equal; lia|done]).
  rewrite Z.add_0_r in Hn1. case_decide as Hd.
  - destruct (pick_some j k ready w1 r Hk) as (i & Hi & Hjk); [apply Hr; lia|]. rewrite Hi. apply wp_ret.
    split_and!; [rewrite Hs1; cbn; lia|lia|]. right. exists j. unfold lateOf. rewrite Hs1, Hn1. split_and!; [done|lia|done].
  - destruct (pick j ready w1) as [i|]; [|apply Hrec; [by rewrite Hn1|done]]. apply wp_ret.
    split_and!; [rewrite Hs1; cbn; lia|lia|]. left. unfold lateOf. rewrite Hs1, Hn1. split; [lia|done].
Qed.

Lemma select_wakes deadline k ready r w :
  ready !! k = Some r → (∀ w', deadline ≤ now w' → r w' = true) → ws_inv (wsw w) → lateOf deadline w ≠ [] →
  wp (select ready) (λ i w', woken deadline k w (length (script w)) (lateOf deadline w) i w' ∧ ws_inv (wsw w') ∧
       ∃ r, ready !! i = Some r ∧ r w' = true) (λ _ _, False) w.
Proof.
  intros Hk Hr Hw Hl. assert (tame (λ _, True) w) as Hta by (intros ev s _ Hs _; eapply wp_mono; [by apply exec_safe|done..]).
  eapply wp_mono; [apply wp_and; [apply wp_run_get; by eapply await_wakes|apply (select_later (λ _, True) w); [done|by apply later_refl]]|..]; cbn.
  - intros i w' [Hwk [[] ?]]. done.
  - by intros ? ? [[] _].
Qed.

Lemma ctxDone_late t0 ctx d w : t0 + d ≤ now w → ctxDone (WithTimeout t0 ctx d) w = true.
Proof.
  intros H. apply bool_decide_eq_true. unfold WithTimeout, ctxErr.
  destruct ctx as [[u e]|]; repeat (case_decide; try lia); done.
Qed.

(** A ready channel yields a notification or the error of the connection. *)
Lemma Recv_ready p w : recvReady p w = true → ws_inv (wsw w) →
  wp (Recv p) (λ r s, is_Some r ∧ ws_inv s) (λ _ s, ws_inv s) (wsw w).
Proof.
  intros Hr Hw. pose proof (Recv_safe p _ Hw) as Hs. unfold recvReady in Hr. unfold Recv, wp, mbind, gom_bind, get, modify in *.
  cbn in *. destruct (entries (wsw w) !! p) as [e|]; [|done]. destruct (ch_buf e) as [|raw rest] eqn:Hb; [|split; [by eexists|done]].
  destruct (ch_closed e); done.
Qed.

Lemma RecvResult_wakes p t0 ctx d w :
  let D := t0 + d in
  ws_inv (wsw w) → lateOf D w ≠ [] →
  wp (RecvResult p (WithTimeout t0 ctx d)) (λ r w', ws_inv (wsw w') ∧ (length (script w') < length (script w))%nat ∧
       (lateOf D w' = lateOf D w ∨ ∃ j, lateOf D w = j :: lateOf D w' ∧ (j = 1%nat → ∃ e, r = inl e))) (λ _ _, False) w.
Proof.
  intros D Hw Hl. unfold RecvResult. apply wp_bind.
  eapply wp_mono; [apply (select_wakes D 1%nat _ (ctxDone (WithTimeout t0 ctx d))); [done|apply ctxDone_late|done|done]| |done].
  intros i w1 [(K1 & K2 & K3) (Hw1 & r & Hi & Hr)].
  assert (∀ (r : confirm_err + SignatureResultValue) w', now w' = now w1 → script w' = script w1 → (i = 1%nat → ∃ e, r = inl e) →
    lateOf D w' = lateOf D w ∨ ∃ j, lateOf D w = j :: lateOf D w' ∧ (j = 1%nat → ∃ e, r = inl e)) as Hlate.
  { intros r' w' Hn Hs Hi'. assert (lateOf D w' = lateOf D w1) as -> by (unfold lateOf; congruence).
    destruct K3 as [[_ Hx]|(j & Hx & _ & Hj)]; [by left|right]. exists j. split; [done|]. intros ?. by apply Hi', Hj. }
  destruct i as [|[|i]]; [| |done].
  - injection Hi as <-. apply wp_bind. eapply wp_mono with (R := λ _ _, False);
      [apply onWs_wp; eapply wp_mono; [by apply Recv_ready|..]|intros a w2 H; exact H|done]; cbn.
    + intros [raw|] s' [[? [=]] Hs]. subst. apply wp_run_modify, wp_ret. split_and!; [done|done|by apply Hlate].
    + intros e s' Hs. split_and!; [done|done|by apply Hlate].
  - apply wp_bind, wp_run_get, wp_ret, wp_ret. split_and!; [done|done|]. apply Hlate; [done|done|]. intros _. by eexists.
Qed.

Lemma recvLoop_ends fuel t0 ctx d p w :
  ws_inv (wsw w) → 1%nat ∈ lateOf (t0 + d) w → (length (script w) < fuel)%nat →
  wp (recvLoop fuel ctx (WithTimeout t0 ctx d) p) (λ _ _, True) (λ _ _, False) w.
Proof.
  revert w. induction fuel as [|fuel IH]; intros w Hw Hin Hf; [lia|]. cbn [recvLoop]. apply wp_bind.
  eapply wp_mono; [apply RecvResult_wakes; [done|by intros Hx; rewrite Hx in Hin; set_solver]| |done].
  intros [e|v] w1 (H1 & H2 & H3).
  - apply wp_bind, wp_run_get, wp_ret. by case_decide.
  - destruct (Received v); [|by destruct (ValueErr v)]. apply IH; [done| |lia].
    destruct H3 as [->|(j & Hj & Hx)]; [done|]. rewrite Hj in Hin. apply elem_of_cons in Hin as [<-|?]; [|done].
    by destruct Hx.
Qed.

(** The scheduler lets the poller see twice in a row that its context ended. *)
Definition seesEnd (l : list nat) : Prop := ∃ pre post, l = pre ++ [0%nat; 0%nat] ++ post.

Lemma seesEnd_cons j l : seesEnd (j :: l) → seesEnd l ∨ j = 0%nat ∧ ∃ post, l = 0%nat :: post.
Proof. intros ([|x pre] & post & [= -> ->]); [right; by eauto|left; by exists pre, post]. Qed.

Lemma seesEnd_nonempty l : seesEnd l → l ≠ [].
Proof. by intros ([] & post & ->). Qed.

Lemma GetSignatureStatuses_wakes t0 ctx d w :
  let D := t0 + d in
  ws_inv (wsw w) → lateOf D w ≠ [] →
  wp (GetSignatureStatuses (WithTimeout t0 ctx d)) (λ r w', ws_inv (wsw w') ∧ (length (script w') < length (script w))%nat ∧
       (lateOf D w' = lateOf D w ∨ ∃ j, lateOf D w = j :: lateOf D w' ∧ D ≤ now w')) (λ _ _, False) w.
Proof.
  intros D Hw Hl. unfold GetSignatureStatuses, httpCall. apply wp_bind, wp_run_modify, wp_bind. set (w0 := set_call _ _ w).
  eapply wp_mono; [apply (select_wakes D 0%nat _ (ctxDone (WithTimeout t0 ctx d)) w0); [done|apply ctxDone_late|done|done]| |done].
  intros i w1 [(K1 & K2 & K3) (Hw1 & _)]. apply wp_run_get, wp_run_modify.
  assert (lateOf D w1 = lateOf D w ∨ ∃ j, lateOf D w = j :: lateOf D w1 ∧ D ≤ now w1) as HK by naive_solver.
  destruct i, (answer w1); apply wp_ret, wp_bind, wp_run_get, wp_ret, wp_run_modify, wp_ret; done.
Qed.

Lemma pollLoop_ends fuel t0 ctx d target ti interval tick w :
  ws_inv (wsw w) → seesEnd (lateOf (t0 + d) w) → (length (script w) < fuel)%nat →
  wp (pollLoop fuel ctx (WithTimeout t0 ctx d) target ti interval tick) (λ _ _, True) (λ _ _, False) w.
Proof.
  set (D := t0 + d). revert tick w. induction fuel as [|fuel IH]; intros tick w Hw Hin Hf; [lia|]. cbn [pollLoop]. apply wp_bind.
  eapply wp_mono; [apply GetSignatureStatuses_wakes; [done|by apply seesEnd_nonempty]| |done].
  intros r w1 (H1 & H2 & H3). change (t0 + d) with D in H3, IH. apply wp_bind, wp_run_get, wp_ret.
  assert (wp (awaitTick ctx (WithTimeout t0 ctx d) tick
            (λ t, pollLoop fuel ctx (WithTimeout t0 ctx d) target ti interval (nextTick ti interval t)))
            (λ _ _, True) (λ _ _, False) w1) as Hn.
  { assert (seesEnd (lateOf D w1) ∨ D ≤ now w1 ∧ ∃ post, lateOf D w1 = 0%nat :: post) as Hl1.
    { destruct H3 as [->|(j & Hj & Hd)]; [by left|]. rewrite Hj in Hin.
      apply seesEnd_cons in Hin as [?|[_ ?]]; [by left|by right]. }
    assert (lateOf D w1 ≠ []) as Hne by (destruct Hl1 as [?%seesEnd_nonempty|(_ & post & ->)]; done).
    apply wp_bind. eapply wp_mono; [apply (select_wakes D 0%nat _ (ctxDone (WithTimeout t0 ctx d)) w1); [done|apply ctxDone_late|done|done]| |done].
    intros i w2 [(K1 & K2 & K3) (Hw2 & _)]. apply wp_bind, wp_run_get, wp_ret.
    destruct i as [|i]; [by destruct (ctxErr _ _)|]. apply IH; [done| |lia].
    destruct K3 as [[Hd Hx]|(j & Hj & _ & Hi)]; [rewrite Hx; destruct Hl1 as [?|[? _]]; [done|lia]|].
    destruct Hl1 as [Hs|(_ & post & Hp)]; rewrite Hj in *.
    - apply seesEnd_cons in Hs as [?|[-> _]]; [done|]. by specialize (Hi eq_refl).
    - injection Hp as -> _. by specialize (Hi eq_refl). }
  destruct r as [e|[|[status|] rest]]; try exact Hn.
  - case_decide; [done|exact Hn].
  - destruct (reached target status); [by destruct (StatusErr status)|exact Hn].
Qed.

End waiting.

(** * Properties *)

(** A goroutine that starts at time [t], among the steps of the script. *)
Definition startEnv (s : world) (t : Z) (sc : list action) : env := mkEnv s t sc false None None None [].

Lemma reachable_known `{sonic : Sonic} evs s s' :
  ws_inv s → known s → execAll evs s = Ok s' → ws_inv s' ∧ known s'.
Proof.
  revert s. induction evs as [|ev evs IH]; intros s Hw Hk Hr; cbn in Hr; [by injection Hr as <-|].
  pose proof (exec_safe ev s Hw) as Hs. pose proof (known_exec ev s Hw Hk) as Hk'. unfold wp in Hs, Hk'.
  destruct (exec ev s) as [[u|e|] s1]; [by apply (IH s1)..|done].
Qed.

Lemma reachable_start `{sonic : Sonic} buf evs s :
  execAll evs (ConnectWithOptions buf) = Ok s → ws_inv s ∧ known s.
Proof. apply reachable_known; [apply inv_start|]. split; [by intros ? []|done]. Qed.

(** A run that ended leaves the client's tables consistent, its subscription
    registered under no id, and no request that refers to it; except that when
    subscribing gave up, for its context or a failed write, after the acknowledgement
    had arrived, the subscription stays registered under the id that nobody read
    ([leaves]). A run that still waits leaves the tables consistent; no run panics. *)
Definition cleanEnd `{sonic : Sonic} (run : outcome waiting (option confirm_err) * env) : Prop :=
  match run with
  | (Ok err, w') => ws_inv (wsw w') ∧
      ∀ p, own_sub w' = Some p → unregistered p (wsw w') ∨ ∃ e, err = Some (errSubscribe e) ∧ leaves p e w'
  | (Err _, w') => ws_inv (wsw w')
  | (Panic, _) => False
  end.

Section properties.
Context (sonic : Sonic) (sonicSig : SonicSignature).

Lemma WaitForConfirmation_clean ws ctx sig opts s t sc :
  ws_inv s → known s → cleanEnd (WaitForConfirmation (New true ws) ctx sig opts (startEnv s t sc)).
Proof.
  intros Hw Hk. set (w := startEnv s t sc).
  assert (wp (WaitForConfirmation (New true ws) ctx sig opts) (λ err w', ws_inv (wsw w') ∧
    ∀ p, own_sub w' = Some p → unregistered p (wsw w') ∨ ∃ e, err = Some (errSubscribe e) ∧ leaves p e w') (λ _ w', ws_inv (wsw w')) w) as Hwp.
  { unfold WaitForConfirmation. destruct ws; cbn [New negb].
    - apply wp_bind. eapply wp_mono; [by apply SignatureSubscribe_spec| |done].
      intros r w1 (G1 & G3 & Gl & Hr). destruct r as [e|p].
      { destruct Hr as (p & Hp & Hr). apply wp_ret. split; [done|]. intros p' Hp'. assert (p' = p) as -> by congruence.
        destruct Hr; [by left|right]. by exists e. }
      destruct Hr as (Hp & k & Ht). apply wp_bind.
      eapply wp_mono; [by apply (waitOnSubscription_spec _ (wanted opts))| |done].
      intros err w2 ((K1 & K2 & K3 & K4) & _). apply wp_bind. eapply wp_mono; [by eapply cleanup_spec| |done].
      intros _ w3 (L1 & L2 & _ & _ & L5). apply wp_ret. split; [done|]. intros p' Hp'. left. assert (p' = p) as -> by congruence. by apply released_gone.
    - eapply wp_mono; [apply (waitViaPolling_spec (λ _, True)); [|done|done]| |done].
      { intros w0 ev s0 _ Hs _. eapply wp_mono; [by apply exec_safe|done..]. }
      intros err w' ((K1 & _ & _ & K4) & _). split; [done|]. intros p Hp. cbn in K4. congruence. }
  unfold wp, cleanEnd in *. destruct (WaitForConfirmation _ _ _ _ _) as [[err|e|] w']; [|done|done].
  exact Hwp.
Qed.

(** C5. Confirmation cleans up after itself: from any reachable state of the
    WebSocket client, with or without using it, and whatever the server, the
    other goroutines, the clock and the scheduler do, [SendAndConfirmWithOpts]
    and [WaitForConfirmation] do not panic, and when they return, with success or
    with an error, their subscription is registered under no id and no request
    refers to it any more. The one exception: when subscribing itself fails because
    its context ended or its write failed, and the acknowledgement of the server had
    already arrived, unread, the subscription may stay registered, and only under the
    id of that acknowledgement ([leaves]; [WsSpec.subscribe_cancel_leaks] is such a
    run). *)
Theorem confirm_releases buf evs s ws ctx tx sig opts sc t :
  execAll evs (ConnectWithOptions buf) = Ok s → Signatures tx ≠ [] →
  cleanEnd ((r ← SendAndConfirmWithOpts (New true ws) ctx (Some tx) opts; mret r.2) (startEnv s t sc)) ∧
  cleanEnd (WaitForConfirmation (New true ws) ctx sig opts (startEnv s t sc)).
Proof.
  intros Hr Hsig. destruct (reachable_start _ _ _ Hr) as [Hw Hk].
  split; [|by apply WaitForConfirmation_clean]. destruct (Signatures tx) as [|sg sigs] eqn:Hs; [done|]. set (w := startEnv s t sc).
  assert (wp (SendAndConfirmWithOpts (New true ws) ctx (Some tx) opts) (arrived ws ctx sg tx opts w)
            (λ _ w', ws_inv (wsw w')) w) as Hwp by (destruct ws; [by eapply ws_run|by eapply poll_run]).
  unfold wp, cleanEnd, mbind, gom_bind in *. destruct (SendAndConfirmWithOpts _ _ _ _ _) as [[[s' err]|e|] w']; [|done|done].
  destruct Hwp as (_ & Hi & _ & Hc). cbn. split; [done|]. intros p Hp. destruct ws.
  - destruct Hc as (q & Hq & Hrel). assert (p = q) as -> by congruence. exact Hrel.
  - cbn in Hc. congruence.
Qed.

(** C28. What [SendAndConfirmWithOpts] did and returned, for every run that
    returns: with a WebSocket client it subscribed before it sent; it sent the
    encoding of the transaction, with the preflight commitment defaulting to the
    one waited for; it returned success, or an execution error, exactly when the
    last thing it observed was the first to report that the commitment was
    reached, without or with that error; it reported a timeout only when the time
    was over and the caller's context was not; and it returns the first signature
    of the transaction. *)
Theorem confirm_outcome buf evs s ws ctx tx opts sc t sig sigs r w' :
  execAll evs (ConnectWithOptions buf) = Ok s → Signatures tx = sig :: sigs →
  SendAndConfirmWithOpts (New true ws) ctx (Some tx) opts (startEnv s t sc) = (Ok r, w') →
  r.1 = sig ∧ journey ws ctx sig tx opts t (now w') (log w') r.2.
Proof.
  intros Hr Hs Hrun. destruct (reachable_start _ _ _ Hr) as [Hw Hk].
  set (w := startEnv s t sc) in *.
  assert (wp (SendAndConfirmWithOpts (New true ws) ctx (Some tx) opts) (arrived ws ctx sig tx opts w)
            (λ _ w', ws_inv (wsw w')) w) as Hwp by (destruct ws; [by eapply ws_run|by eapply poll_run]).
  unfold wp in Hwp. rewrite Hrun in Hwp. destruct Hwp as (H1 & _ & (l & Hl & Hj) & _). by rewrite Hl.
Qed.

(** C29. Both waits end: once the timeout has passed, [waitOnSubscription]
    returns as soon as the scheduler lets it see the end of its context, and
    [waitViaPolling] as soon as it sees it twice in a row (in the call and in the
    select), however the notifications, answers and other steps are ordered. *)
Theorem confirm_wait_ends buf evs s ctx target p opts sc t :
  execAll evs (ConnectWithOptions buf) = Ok s →
  let w := startEnv s t sc in
  let late := lateRuns (t + timeoutOf opts) t sc in
  (1%nat ∈ late → ∃ err w', waitOnSubscription ctx p opts w = (Ok err, w')) ∧
  (seesEnd late → ∃ err w', waitViaPolling ctx target opts w = (Ok err, w')).
Proof.
  intros Hr w late. destruct (reachable_start _ _ _ Hr) as [Hw Hk].
  assert (∀ (m : G (option confirm_err)), wp m (λ _ _, True) (λ _ _, False) w → ∃ err w', m w = (Ok err, w')) as Hex.
  { intros m Hm. unfold wp in Hm. destruct (m w) as [[err|e|] w']; [by eauto|done|done]. }
  split; intros Hl; apply Hex.
  - unfold waitOnSubscription, clock. apply wp_bind, wp_run_get, wp_ret, wp_run_get. apply recvLoop_ends; [done|done|].
    unfold fuelFor. lia.
  - unfold waitViaPolling, clock. apply wp_bind, wp_run_get, wp_ret, wp_run_get. apply pollLoop_ends; [done|done|].
    unfold fuelFor. lia.
Qed.

End properties.

(** * A run *)

(** Notifications whose first byte is a quote are markers; [50] is a success. *)
Definition demoSignature : SonicSignature := {|
  sonic_value raw := Some (Some raw);
  sonic_status data := match data with [50] => Some None | e :: _ => Some (Some [e]) | [] => None end;
|}.

Definition demoTransaction : Transaction := mkTransaction [zeroSignature] sampleMessage.
Definition demoOpts : Opts := mkOpts "confirmed" zeroTransactionOpts 0 0.

(** Subscribed under id 7, sent, told that the node has the transaction, told
    that it is confirmed. *)
Definition demoScript : list action :=
  [Run 0; Other (EvFrame [0; 1; 7]); Other EvDeliver; Run 0; Answer AnswerSent; Run 1;
   Other (EvFrame [1; 7; 34]); Run 0; Advance 5; Other (EvFrame [1; 7; 50]); Run 0].

Definition demoRun : outcome waiting (Signature * option confirm_err) * env :=
  SendAndConfirmWithOpts (sonic:=demoSonic) (sonicSig:=demoSignature) (New true true) None (Some demoTransaction) demoOpts
    (startEnv (ConnectWithOptions None) 100 demoScript).

Lemma confirm_releases_witness :
  demoRun.1 = Ok (zeroSignature, None) ∧ subs (cl (wsw demoRun.2)) = ∅ ∧
  cleanEnd (sonic:=demoSonic) ((r ← SendAndConfirmWithOpts (sonic:=demoSonic) (sonicSig:=demoSignature) (New true true) None
               (Some demoTransaction) demoOpts; mret r.2) (startEnv (ConnectWithOptions None) 100 demoScript)).
Proof.
  split_and!; [vm_compute; reflexivity|vm_compute; reflexivity|].
  refine (proj1 (confirm_releases demoSonic demoSignature None [] (ConnectWithOptions None) true None demoTransaction
    zeroSignature demoOpts demoScript 100 _ _)); [reflexivity|discriminate].
Defined.

Lemma confirm_outcome_witness :
  now demoRun.2 = 105 ∧ journey (sonicSig:=demoSignature) true None zeroSignature demoTransaction demoOpts 100 (now demoRun.2) (log demoRun.2) None.
Proof.
  split; [vm_compute; reflexivity|].
  apply (confirm_outcome demoSonic demoSignature None [] (ConnectWithOptions None) true None demoTransaction demoOpts
           demoScript 100 zeroSignature [] (zeroSignature, None) demoRun.2); [reflexivity|reflexivity|vm_compute; reflexivity].
Defined.

(** Polling a node that never answers: the wait ends after its two minutes. *)
Lemma confirm_wait_ends_witness :
  ∃ err w', waitViaPolling (sonic:=demoSonic) None "confirmed" demoOpts
              (startEnv (ConnectWithOptions None) 0 [Run 1; Advance defaultTimeout; Run 0; Run 0]) = (Ok err, w').
Proof.
  apply (confirm_wait_ends demoSonic demoSignature None [] (ConnectWithOptions None) None "confirmed" 0%nat demoOpts
           [Run 1; Advance defaultTimeout; Run 0; Run 0] 0); [reflexivity|]. exists [], []. vm_compute. reflexivity.
Defined.
